(* ===== verification/_CoqProject ===== *)
-Q . S2P
Prelude.v
CMem.v
Digits.v
UString.v
UPrintfmt.v
UList.v
USkewHeap.v
UBits.v
USyscall.v
ULock.v
UStdio.v
URand.v
UDir.v
USh.v
LBase.v
LCtype.v
LString.v
LStrtol.v
LSyscall.v
LErrno.v
DList.v
LAlloc.v
LPthread.v
LQsort.v
LPrintf.v
LStdio.v
LFile.v
LMath.v
LScan.v
LMisc.v
LDir.v
LProcess.v
LThread.v
CxxBase.v
CxxAlgo.v
CxxHeap.v
CxxVector.v
CxxQueue.v
CxxString.v
CxxRt.v
CxxSync.v
CxxPtr.v
CxxShutil.v
CxxMail.v
DlSep.v
DlBase.v
DlBins.v
DlTree.v
DlFree.v
DlSearch.v
DlLayout.v
DlMalloc.v
DlMerge.v
DlFreeOk.v
DlSys.v
DlMap.v
DlSegs.v
DlSysOk.v
DlExtend.v
DlAlloc.v
DlTrim.v
DlRelease.v
DlOpt.v
DlClient.v
DlSpec.v
