(* ===== verification/Prelude.v ===== *)
(** * Verification of the C and C++ user-space libraries and programs

    The repository is an operating system: a kernel in Rust, and the user space
    that runs on it, in C and C++.  This development models the user space.  It has
    four parts, with their sources under src/user:

    - _ucore_ (ucore/src): a small C library (strings, formatted output, lists, a
      skew heap, bit operations, spin locks, directories) for four architectures,
      with a shell and ls;
    - _litc_ (biscuit/c/libs/litc.c, biscuit/c/include-litc/litc.h): a C library in
      one file (allocator, strings, streams, formatted input and output, threads,
      processes, floating point);
    - _dlmalloc_ (biscuit/c/error/dlmalloc.c): a general allocator with bins, tries,
      segments and direct mappings, configured for litc;
    - _C++_ (biscuit/cxx): a C++ standard library on top of litc (algorithms,
      containers, strings, run-time support), and the mail programs that use it.

    They meet the kernel at one place each, the trap instruction ([syscall] of
    ucore/src/lib/syscall.c, [syscall6] of litc.c).  The kernel is a parameter:
    the classes [UKernel] and [Kernel] give what a trap does to memory and to an
    abstract kernel state.  Theorems that need documented behaviour of a call
    (mmap, munmap, read, write, ...) take it as a further class, and their witnesses
    instantiate it with a concrete kernel.

    ** How code becomes definitions

    A C function is a function in the monad [M S] below, with the state [S] that
    its component needs.  An outcome is a result with the new state ([Ret]), the end
    of the process ([Halt], [exit] and an uncaught exception), undefined behaviour
    ([Ub]: an access to unmapped memory, signed overflow, a double free, an element
    that is not there) or a loop that has used up its fuel ([Spin]).  Memory is a
    finite map from addresses to bytes (file [CMem]); integers are [Z] with the
    wrap-around of their width written out ([u32], [s64], ...; [schk] for signed
    arithmetic).  A [while] loop is [loop fuel body]; the fuel of a definition is a
    bound computed from its arguments (the length of a range, of the memory, of a
    format), and the theorems state that a result is returned, so they also show that
    the fuel is enough.  Functions that do not return on some input ([fread] of an
    unbuffered stream at the end of its input, [reserve] of more than 2^63 elements)
    are shown to be [Spin] for every fuel.  Concurrent code is a step relation with
    one step per atomic access or system call, and invariants are proved by induction
    on runs; memory is sequentially consistent there.  Conventions: LP64, little
    endian, two's complement, [char] signed; a [va_list] is a list of 64-bit slots; a
    C++ move of an element is a copy, the element type is a parameter without
    destructor effects, and an exception has no handler.

    ** Files

    Shared: [Prelude] (this file: machine integers, the monad, loops, tactics,
    list lemmas), [CMem] (memory), [Digits] (numerals), [DList] (doubly linked
    lists in memory).

    ucore (U...): [UString] (lib/string.c), [UPrintfmt] (lib/printfmt.c), [UList]
    (include/list.h), [USkewHeap] (include/skew_heap.h), [UBits] (arch/.../atomic.h),
    [USyscall] (lib/syscall.c, file.c, ulib.c), [ULock] (include/lock.h), [UStdio]
    (lib/stdio.c, panic.c, umain.c), [URand] (lib/rand.c, hash.c), [UDir] (lib/dir.c,
    ls.c), [USh] (sh.c).

    litc (L...), all of litc.c: [LBase] and [LSyscall] (traps, errno, wrappers),
    [LErrno] (their results), [LCtype], [LString], [LStrtol], [LAlloc] (malloc and
    its relatives), [LPthread] (mutexes, barriers), [LQsort], [LPrintf], [LStdio] and
    [LFile] (streams), [LMath], [LScan], [LMisc] (options, random numbers, error texts,
    time), [LDir], [LProcess], [LThread] (thread creation).

    dlmalloc (Dl...), all of dlmalloc.c: [DlSep] (a separation logic for word memory,
    built on the proof mode of Iris, with total weakest preconditions and their meaning
    for runs), [DlBase] (chunks, flags, bin indices, bin maps, locks), [DlBins] (small
    bins), [DlTree] (insertion into and removal from the tries of the tree bins), [DlFree]
    (the store of free chunks), [DlSearch] (best fit), [DlLayout] (regions tiled by
    chunks), [DlMalloc] (dlmalloc, the code of dlfree, and the interface [Sys], [SysOk] of
    the system layer that the theorems on malloc and free are proved against), [DlMerge]
    and [DlFreeOk] (coalescing, dlfree), [DlSys] (the code of the system layer), [DlMap]
    (mmap and munmap), [DlSegs] (segment records), [DlSysOk], [DlExtend], [DlAlloc]
    (initialisation, new memory, sys_alloc), [DlTrim] and [DlRelease] (sys_trim,
    release_unused_segments, and that the system layer satisfies its interface), [DlOpt]
    (parameters and limits), [DlClient] (programs that use the heap), [DlSpec] (the
    theorems as statements about runs).

    There memory is a map from addresses to 64-bit words, since all accesses are to
    aligned words, and the scalar fields of [_gm_] and [mparams] are a record; a page of
    a mapping also has a cell of its own below 0 ([pte]), which is what munmap takes back.
    The kernel is the class [Kern], with [KernOk]: mmap gives page-aligned memory that was
    not mapped, within 2^40 bytes below 2^63.  The bound on sizes is needed: see
    [compute_tree_index_wraps].  Fuel: [DEPTH] (66) is more than the bits of a size, which
    bound the depth of a trie; the walks over segments have the number of words of the
    memory; [FENCES] (16) is more than the fenceposts of a segment; [SPINS] turns of a
    lock suffice as calls do not overlap.

    C++ (Cxx...): [CxxBase] (exceptions, growth), [CxxAlgo] and [CxxHeap]
    (algorithm), [CxxVector] (vector), [CxxQueue] (queue), [CxxString] (string),
    [CxxRt] (vector.hh, cxxrt.cc), [CxxSync] (spinbarrier.hh, distribution.hh),
    [CxxPtr] (memory, thread, threads.cc), [CxxShutil] (shutil.cc, libutil.cc),
    [CxxMail] (mail-enqueue.cc, mail-qman.cc, mail-deliver.cc).

    Definitions have the names of the source where the language allows it; a
    helper that stands for part of a function says so.

    ** What the theorems show

    - Memory: malloc, free and realloc keep the heap well formed, give disjoint
      mapped blocks, keep the contents and give memory back ([LAlloc]); qsort, fopen,
      fclose and pthread_create are proved on top of that and release what they
      acquire ([LQsort], [LFile], [LThread]).  Whether pthread_create starts a thread or
      forks the process is the kernel's; the theorem has both.  dlmalloc and dlfree are correct for every
      size and heap, and every sequence of calls from the zeroed state on returns, gives
      disjoint aligned blocks and keeps their contents; the search in the tries finds a
      best fit ([DlSpec]).
    - Data structures: lists, skew heaps, vectors, static vectors, priority queues and
      reference-counted strings refine sequences, multisets and independent values
      ([UList], [USkewHeap], [CxxVector], [CxxRt], [CxxQueue], [CxxString]), where
      assignment of a vector appends and some appends of a string to itself are
      undefined, as in the code; sort,
      heap sort and binary search are correct for any strict weak order ([CxxAlgo],
      [CxxHeap]); every object has one [unique_ptr], every thread one [std::thread]
      ([CxxPtr]).
    - Text: formatted output denotes the text that the format describes, for both
      libraries, and formatted input reads it back ([UPrintfmt], [LPrintf], [LScan]);
      tokens of the shell ([USh]).
    - Streams and descriptors: reading and writing through the buffer of a stream
      refine a byte sequence, for every kernel, up to the first write that is cut short
      or read that fails, and what the code does then is part of the theorems
      ([LStdio]); the C++ helpers copy everything in spite of short transfers
      ([CxxShutil]); directory entries ([LDir]); file actions of new processes
      ([LProcess]); traps, results and errno of the wrappers for every kernel
      ([LErrno]).
    - Concurrency: mutual exclusion and no lost wake-up of the mutex, safety of both
      barriers, spin locks on RISC-V, guards of static objects ([LPthread], [ULock],
      [CxxSync], [CxxRt]); the mail queue delivers every accepted message exactly once
      or keeps it, and its threads make progress until a message has no mailbox
      ([CxxMail]).
    - Where the code does not do what it means to, a lemma shows the behaviour on an
      input: overruns, leaks, lost errors, races ([LPrintf], [CxxVector], [LErrno],
      [ULock], [CxxSync] and others).

    ** Not modelled

    The Rust kernel, boot loader and memory crate are below the system-call
    interface and enter as parameters.  Condition variables of litc rest on futex
    operations that no source here documents.  Start-up code, logging, dates and the
    stubs at the end of litc.c are assembly, fixed texts or constants.  Of dlmalloc,
    calloc, realloc, memalign, the independent and bulk functions, mallinfo, statistics
    and mspaces are left out, and so is what its configuration disables (morecore,
    mremap, footers).  Test and benchmark programs only exercise the libraries.  In C++, class templates that the compiler evaluates
    (functional, tuple, bind), unwinding, [vector::emplace] and the range constructors
    of [priority_queue], which cannot be instantiated, and the batch mode and pooled
    pipes of the mail programs are left out.  Weak memory, signals and faults of the
    hardware are not modelled. *)

From stdpp Require Export base tactics list list_numbers numbers gmap fin_maps sets strings option.
From Stdlib Require Export ZArith Lia.
From coqutil Require Export Byte.
Export Corelib.Init.Byte.

#[global] Open Scope Z_scope.

(** ** Notation scope and hint databases of the development *)

Declare Scope c_scope.
Delimit Scope c_scope with c.

Create HintDb cint.
Create HintDb cmem.

(** ** Machine integers

    A C integer is a [Z]; the conversions to a type of width [w] are written
    out.  [uwrap] is the conversion to an unsigned type and [swrap] the
    (two's complement) conversion to a signed one. *)

Definition uwrap (w z : Z) : Z := z mod 2 ^ w.

Definition swrap (w z : Z) : Z := (z + 2 ^ (w - 1)) mod 2 ^ w - 2 ^ (w - 1).

Abbreviation u8 := (uwrap 8).
Abbreviation u16 := (uwrap 16).
Abbreviation u32 := (uwrap 32).
Abbreviation u64 := (uwrap 64).
Abbreviation s8 := (swrap 8).
Abbreviation s16 := (swrap 16).
Abbreviation s32 := (swrap 32).
Abbreviation s64 := (swrap 64).

Definition in_u (w z : Z) : Prop := 0 <= z < 2 ^ w.
Definition in_s (w z : Z) : Prop := - 2 ^ (w - 1) <= z < 2 ^ (w - 1).

(** The value of a C comparison. *)
Definition cbool (b : bool) : Z := if b then 1 else 0.

(** [lia] after replacing [/] and [mod] by their defining equations. *)
Ltac zdm := Z.div_mod_to_equations; lia.

(** Evaluates the powers of two with constant exponents. *)
Ltac pow2 :=
  repeat match goal with
  | H : context [2 ^ Zpos ?n] |- _ =>
      let r := eval vm_compute in (2 ^ Zpos n) in change (2 ^ Zpos n) with r in H
  | |- context [2 ^ Zpos ?n] =>
      let r := eval vm_compute in (2 ^ Zpos n) in change (2 ^ Zpos n) with r
  end.

Ltac unfold_int :=
  unfold uwrap, swrap, in_u, in_s in *;
  change (8 - 1) with 7 in *; change (16 - 1) with 15 in *;
  change (32 - 1) with 31 in *; change (64 - 1) with 63 in *; pow2.

(** Machine arithmetic: unfolds the conversions and calls [lia]. *)
Ltac cint := unfold_int; zdm.

Lemma to_nat_nonpos z : z <= 0 -> Z.to_nat z = 0%nat.
Proof. lia. Qed.

Lemma uwrap_range w z : 0 <= w -> in_u w (uwrap w z).
Proof. intros; apply Z.mod_pos_bound, Z.pow_pos_nonneg; lia. Qed.

Lemma uwrap_id w z : in_u w z -> uwrap w z = z.
Proof. apply Z.mod_small. Qed.

Lemma pow2_half w : 0 < w -> 2 ^ w = 2 * 2 ^ (w - 1).
Proof. intros. replace w with (Z.succ (w - 1)) at 1 by lia. apply Z.pow_succ_r; lia. Qed.

Lemma swrap_range w z : 0 < w -> in_s w (swrap w z).
Proof.
  intros Hw. unfold swrap, in_s.
  pose proof (Z.mod_pos_bound (z + 2 ^ (w - 1)) (2 ^ w) ltac:(apply Z.pow_pos_nonneg; lia)).
  pose proof (pow2_half w Hw). lia.
Qed.

Lemma swrap_id w z : 0 < w -> in_s w z -> swrap w z = z.
Proof.
  intros Hw Hz. unfold swrap, in_s in *. rewrite Z.mod_small; [lia|].
  pose proof (pow2_half w Hw). lia.
Qed.

Lemma uwrap_swrap w z : 0 < w -> uwrap w (swrap w z) = uwrap w z.
Proof.
  intros Hw. unfold uwrap, swrap.
  rewrite Zminus_mod_idemp_l. f_equal. lia.
Qed.

Lemma swrap_uwrap w z : swrap w (uwrap w z) = swrap w z.
Proof. unfold uwrap, swrap. by rewrite Zplus_mod_idemp_l. Qed.

Lemma swrap_inj w x y : 0 < w -> swrap w x = swrap w y -> uwrap w x = uwrap w y.
Proof. intros Hw E. by rewrite <- (uwrap_swrap w x), <- (uwrap_swrap w y), E. Qed.

#[export] Hint Resolve uwrap_range swrap_range : cint.

(** Rounding up to a power of two with a mask, as in [(x + 7) & ~7]. *)
Lemma land_not_ones x k : 0 <= k -> Z.land x (Z.lnot (Z.ones k)) = x - x mod 2 ^ k.
Proof.
  intros Hk. rewrite <- Z.ldiff_land, Z.ldiff_ones_r by lia.
  rewrite Z.shiftr_div_pow2, Z.shiftl_mul_pow2 by lia.
  pose proof (Z.div_mod x (2 ^ k) ltac:(apply Z.pow_nonzero; lia)). lia.
Qed.

(** ** Outcomes and the state-and-error monad

    A C function runs on a state of type [S].  It returns ([Ret]), ends the
    process ([Halt], with the exit status), does something the language
    leaves undefined such as touching unmapped memory ([Ub]), or exhausts the
    bound its loops were given ([Spin]). *)

Inductive outcome (S A : Type) : Type :=
  | Ret (a : A) (s : S)
  | Halt (code : Z) (s : S)
  | Ub
  | Spin.
Arguments Ret {S A} a s.
Arguments Halt {S A} code s.
Arguments Ub {S A}.
Arguments Spin {S A}.

Definition M (S A : Type) : Type := S -> outcome S A.

Section Monad.
Context {S : Type}.

#[export] Instance M_ret : MRet (M S) := fun A a s => Ret a s.

#[export] Instance M_bind : MBind (M S) := fun A B f m s =>
  match m s with
  | Ret a s' => f a s'
  | Halt c s' => Halt c s'
  | Ub => Ub
  | Spin => Spin
  end.

#[export] Instance M_fmap : FMap (M S) := fun A B f m s =>
  match m s with
  | Ret a s' => Ret (f a) s'
  | Halt c s' => Halt c s'
  | Ub => Ub
  | Spin => Spin
  end.

Definition get : M S S := fun s => Ret s s.
Definition put (s : S) : M S unit := fun _ => Ret tt s.
Definition modify (f : S -> S) : M S unit := fun s => Ret tt (f s).
Definition gets {A} (f : S -> A) : M S A := fun s => Ret (f s) s.
Definition halt {A} (code : Z) : M S A := fun s => Halt code s.
Definition ub {A} : M S A := fun _ => Ub.
Definition spin {A} : M S A := fun _ => Spin.

(** The value of an expression that is undefined when it is [None]. *)
Definition defined {A} (o : option A) : M S A := fun s =>
  match o with Some a => Ret a s | None => Ub end.

(** Signed arithmetic: undefined when the result does not fit the type. *)
Definition schk (w z : Z) : M S Z := fun s =>
  if (- 2 ^ (w - 1) <=? z) && (z <? 2 ^ (w - 1)) then Ret z s else Ub.

Lemma schk_ret w z s : in_s w z -> schk w z s = Ret z s.
Proof.
  unfold in_s, schk. intros H.
  rewrite (proj2 (Z.leb_le _ _)), (proj2 (Z.ltb_lt _ _)) by lia. done.
Qed.

(** A C loop: [body] yields the next loop state ([inl]) or leaves the loop
    with a value ([inr]); at most [fuel] iterations. *)
Fixpoint loop {A B} (fuel : nat) (body : A -> M S (A + B)) (a : A) : M S B :=
  match fuel with
  | O => spin
  | Datatypes.S n => x ← body a; match x with inl a' => loop n body a' | inr b => mret b end
  end.

Lemma bind_ret {A B} (f : A -> M S B) (m : M S A) s a s' :
  m s = Ret a s' -> (m ≫= f) s = f a s'.
Proof. intros E. unfold mbind, M_bind. by rewrite E. Qed.

Lemma mret_ret {A} (a : A) s : (mret a : M S A) s = Ret a s.
Proof. done. Qed.

Lemma mret_bind {A B} (f : A -> M S B) (a : A) s : (mret a ≫= f) s = f a s.
Proof. done. Qed.

Lemma bind_halt {A B} (f : A -> M S B) (m : M S A) s c s' :
  m s = Halt c s' -> (m ≫= f) s = Halt c s'.
Proof. intros E. unfold mbind, M_bind. by rewrite E. Qed.

Lemma bind_ub {A B} (f : A -> M S B) (m : M S A) s :
  m s = Ub -> (m ≫= f) s = Ub.
Proof. intros E. unfold mbind, M_bind. by rewrite E. Qed.

Lemma bind_assoc {A B C} (m : M S A) (f : A -> M S B) (g : B -> M S C) s :
  ((m ≫= f) ≫= g) s = (m ≫= (fun a => f a ≫= g)) s.
Proof. unfold mbind, M_bind. by destruct (m s). Qed.

Lemma bind_inv {A B} (f : A -> M S B) (m : M S A) s b s' :
  (m ≫= f) s = Ret b s' -> exists a s1, m s = Ret a s1 /\ f a s1 = Ret b s'.
Proof. unfold mbind, M_bind. destruct (m s); naive_solver. Qed.

Lemma loop_S {A B} n (body : A -> M S (A + B)) a s :
  loop (Datatypes.S n) body a s =
  match body a s with
  | Ret (inl a') s' => loop n body a' s'
  | Ret (inr b) s' => Ret b s'
  | Halt c s' => Halt c s'
  | Ub => Ub
  | Spin => Spin
  end.
Proof. simpl. unfold mbind, M_bind. destruct (body a s) as [[?|?] ?| | |]; done. Qed.

(** The total-correctness rule for loops: an invariant with a natural
    measure that each further iteration decreases. *)
Lemma loop_rule {A B} (I : nat -> A -> S -> Prop) (Q : B -> S -> Prop)
    (body : A -> M S (A + B)) :
  (forall n a s, I n a s ->
     match body a s with
     | Ret (inl a') s' => exists n', (n' < n)%nat /\ I n' a' s'
     | Ret (inr b) s' => Q b s'
     | _ => False
     end) ->
  forall fuel n a s, I n a s -> (n < fuel)%nat ->
  exists b s', loop fuel body a s = Ret b s' /\ Q b s'.
Proof.
  intros Hbody fuel. induction fuel as [|fuel IH]; intros n a s HI Hn; [lia|].
  rewrite loop_S. specialize (Hbody n a s HI).
  destruct (body a s) as [[a'|b] s'| | |]; [|eauto|done..].
  destruct Hbody as (n' & Hlt & HI'). apply (IH n'); [done|lia].
Qed.
End Monad.

(** Runs a function of a component's state [T] inside a larger state [S]. *)
Definition zoom {S T A} (view : S -> T) (upd : T -> S -> S) (m : M T A) : M S A := fun s =>
  match m (view s) with
  | Ret a t => Ret a (upd t s)
  | Halt c t => Halt c (upd t s)
  | Ub => Ub
  | Spin => Spin
  end.

Lemma zoom_ret {S T A} view upd (m : M T A) (s : S) a t :
  m (view s) = Ret a t -> zoom view upd m s = Ret a (upd t s).
Proof. intros E. unfold zoom. by rewrite E. Qed.

(** The number of list elements with a property, and how an update changes it. *)
Definition count {A} (P : A -> bool) (l : list A) : Z := Z.of_nat (length (List.filter P l)).

Lemma count_insert {A} (P : A -> bool) l i x y :
  l !! i = Some x -> count P (<[i := y]> l) = count P l - Z.b2z (P x) + Z.b2z (P y).
Proof.
  intros Hi. pose proof (lookup_lt_Some _ _ _ Hi). rewrite insert_take_drop by done.
  assert (count P l = count P (take i l ++ x :: drop (S i) l)) as -> by by rewrite take_drop_middle.
  unfold count.
  rewrite !List.filter_app, !length_app. simpl. destruct (P x), (P y); simpl; lia.
Qed.

Lemma count_pos {A} (P : A -> bool) l i x : l !! i = Some x -> P x = true -> 1 <= count P l.
Proof.
  intros Hi Hx. rewrite <- (take_drop_middle l i x Hi). unfold count.
  rewrite List.filter_app, length_app. simpl. rewrite Hx. simpl. lia.
Qed.

Lemma count_nonneg {A} (P : A -> bool) l : 0 <= count P l.
Proof. unfold count. lia. Qed.

Lemma count_length {A} (P : A -> bool) l : count P l <= Z.of_nat (length l).
Proof. unfold count. pose proof (List.filter_length_le P l). lia. Qed.

Lemma count_ext {A} (P Q : A -> bool) l : (forall x, x ∈ l -> P x = Q x) -> count P l = count Q l.
Proof.
  intros H. unfold count. do 2 f_equal. apply List.filter_ext_in. intros x Hx. by apply H, list_elem_of_In.
Qed.

Lemma count_exists {A} (P : A -> bool) l :
  0 < count P l -> exists i x, l !! i = Some x /\ P x = true.
Proof.
  induction l as [|x l IH]; unfold count; simpl; [lia|]. destruct (P x) eqn:E.
  - intros _. by exists 0%nat, x.
  - intros H. destruct (IH H) as (i & y & ? & ?). by exists (S i), y.
Qed.

(** Runs the first step of a sequence with a known result. *)
Ltac mrun E := rewrite (bind_ret _ _ _ _ _ E); cbn beta iota.

(** Symbolic execution: [munfold] exposes the monad, [mstep] runs the next
    primitive whose result is known from the context, and [mgo] repeats it. *)
Ltac munfold :=
  cbv [mbind M_bind mret M_ret fmap M_fmap get put modify gets halt ub spin defined]; cbv beta iota zeta.

Ltac mstep_hook := fail.
Ltac mstep :=
  first
  [ progress munfold
  | rewrite schk_ret by (first [assumption | unfold_int; lia])
  | mstep_hook ].
Ltac mgo := repeat mstep.

(** Names the body of the loop in the goal. *)
Ltac loop_body B :=
  match goal with |- context [loop _ ?b _] => set (B := b) end.

(** Equality of results whose components are integers. *)
Ltac ret_eq :=
  repeat match goal with
  | |- Ret _ _ = Ret _ _ => f_equal
  | |- (_, _) = (_, _) => f_equal
  end; try lia; try done.

(** ** One element of a list *)

Lemma insert_perm {A} (l : list A) t (x : A) : (t < length l)%nat -> <[t := x]> l ≡ₚ x :: delete t l.
Proof.
  intros H. rewrite insert_take_drop, delete_take_drop by done. by rewrite Permutation_middle.
Qed.

(** The groups of the other elements stay as they are when one element changes. *)
Lemma concat_focus {A B} (f : A -> list B) l t p : l !! t = Some p ->
  exists r, concat (f <$> l) ≡ₚ f p ++ r /\ forall p', concat (f <$> <[t := p']> l) ≡ₚ f p' ++ r.
Proof.
  intros Hp. exists (concat (f <$> delete t l)). pose proof (lookup_lt_Some _ _ _ Hp). split.
  - by rewrite (delete_Permutation l t p Hp) at 1.
  - intros p'. by rewrite insert_perm.
Qed.
