(* ===== verification/CMem.v ===== *)
(** * The memory of a C program

    Memory is a finite map from addresses to bytes.  Loads and stores of
    unmapped addresses are undefined behaviour.  A plain [char] is signed, as
    in the x86-64 builds of both libraries (the aarch64 build is not this model); 64-bit accesses are little
    endian and may be unaligned.  The file also holds the predicates the
    specifications use ([bytes_at], [cstr], [mapped]) and the reference
    operations on a whole memory ([mread], [mwrite]). *)

From S2P Require Import Prelude.
From coqutil Require Import Word.LittleEndianList.

Abbreviation mem := (gmap Z byte).

#[export] Instance byte_eq_decision : EqDecision byte := Byte.byte_eq_dec.
#[export] Instance byte_inhabited : Inhabited byte := populate x00.

(** ** Characters *)

Definition schar (b : byte) : Z := s8 (byte.unsigned b).
Definition uchar (b : byte) : Z := byte.unsigned b.

(** String literals, and the code of a one-character literal. *)
Definition str (s : string) : list byte := String.list_byte_of_string s.
Definition ch (s : string) : Z := match str s with b :: _ => byte.unsigned b | [] => 0 end.

(** Evaluates the character literals. *)
Ltac unch :=
  repeat match goal with
  | H : context [ch ?s] |- _ => let r := eval vm_compute in (ch s) in change (ch s) with r in H
  | |- context [ch ?s] => let r := eval vm_compute in (ch s) in change (ch s) with r
  end.

Lemma uchar_range b : 0 <= uchar b < 256.
Proof. apply byte.unsigned_range. Qed.

Lemma uchar_inj b c : uchar b = uchar c -> b = c.
Proof. apply byte.unsigned_inj. Qed.

Lemma uchar_of_Z z : uchar (byte.of_Z z) = z mod 256.
Proof. apply byte.unsigned_of_Z. Qed.

Lemma byte_of_uchar b : byte.of_Z (uchar b) = b.
Proof. apply uchar_inj. rewrite uchar_of_Z, Z.mod_small; [done|apply uchar_range]. Qed.

Lemma schar_range b : -128 <= schar b < 128.
Proof. unfold schar. pose proof (swrap_range 8 (byte.unsigned b)). unfold in_s in *. lia. Qed.

Lemma schar_uchar b : schar b mod 256 = uchar b.
Proof. pose proof (uchar_range b). unfold schar, uchar in *. cint. Qed.

Lemma schar_inj b c : schar b = schar c -> b = c.
Proof. intros E. apply uchar_inj. by rewrite <- !schar_uchar, E. Qed.

Lemma schar_eqb b c : (schar b =? schar c) = bool_decide (b = c).
Proof.
  case_bool_decide as E; [subst; apply Z.eqb_refl|].
  apply Z.eqb_neq. intros H. by apply E, schar_inj.
Qed.

Lemma byte_of_schar b : byte.of_Z (schar b) = b.
Proof. apply uchar_inj. rewrite uchar_of_Z. apply schar_uchar. Qed.

Lemma schar_0 b : (schar b =? 0) = bool_decide (b = x00).
Proof. apply (schar_eqb b x00). Qed.

Lemma schar_nz b : b <> x00 -> (schar b =? 0) = false.
Proof. intros H. rewrite schar_0. by apply bool_decide_eq_false. Qed.

Lemma schar_eq b : (schar b =? schar b) = true.
Proof. apply Z.eqb_refl. Qed.

Lemma schar_ne b c : b <> c -> (schar b =? schar c) = false.
Proof. intros H. rewrite schar_eqb. by apply bool_decide_eq_false. Qed.

Lemma schar_of_Z c : schar (byte.of_Z c) = s8 c.
Proof. unfold schar. fold (uchar (byte.of_Z c)). rewrite uchar_of_Z. apply (swrap_uwrap 8). Qed.

(** ** Loads and stores *)

Definition load8 (p : Z) : M mem byte := fun m =>
  match m !! p with Some b => Ret b m | None => Ub end.

(** [*p] for a [char *p]. *)
Definition ldc (p : Z) : M mem Z := b ← load8 p; mret (schar b).

Definition store8 (p : Z) (b : byte) : M mem unit := fun m =>
  match m !! p with Some _ => Ret tt (<[p := b]> m) | None => Ub end.

(** [*p = c] for a [char *p] and an integer [c]. *)
Definition stc (p c : Z) : M mem unit := store8 p (byte.of_Z c).

Fixpoint mread (m : mem) (p : Z) (n : nat) : option (list byte) :=
  match n with
  | O => Some []
  | S n => b ← m !! p; l ← mread m (p + 1) n; Some (b :: l)
  end.

Fixpoint mwrite (m : mem) (p : Z) (l : list byte) : mem :=
  match l with
  | [] => m
  | b :: l => <[p := b]> (mwrite m (p + 1) l)
  end.

(** [*p] and [*p = v] for an [int *p] and a [long *p] (values are kept unsigned). *)
Definition load32 (p : Z) : M mem Z := fun m =>
  match mread m p 4 with Some l => Ret (le_combine l) m | None => Ub end.
Definition store32 (p v : Z) : M mem unit := fun m =>
  match mread m p 4 with Some _ => Ret tt (mwrite m p (le_split 4 v)) | None => Ub end.
Definition load64 (p : Z) : M mem Z := fun m =>
  match mread m p 8 with Some l => Ret (le_combine l) m | None => Ub end.

Definition store64 (p v : Z) : M mem unit := fun m =>
  match mread m p 8 with Some _ => Ret tt (mwrite m p (le_split 8 v)) | None => Ub end.

(** The number of steps that suffices for any loop that visits a fresh mapped
    address in every iteration. *)
Definition scan_fuel : M mem nat := fun m => Ret (S (size m)) m.

(** ** Predicates *)

Fixpoint bytes_at (m : mem) (p : Z) (l : list byte) : Prop :=
  match l with
  | [] => True
  | b :: l => m !! p = Some b /\ bytes_at m (p + 1) l
  end.

Definition mapped (m : mem) (p n : Z) : Prop :=
  forall a, p <= a < p + n -> is_Some (m !! a).

(** No NUL byte inside. *)
Definition nonul (s : list byte) : Prop := Forall (fun b => b <> x00) s.

(** The memory at [p] holds the NUL-terminated string [s]. *)
Definition cstr (m : mem) (p : Z) (s : list byte) : Prop :=
  nonul s /\ bytes_at m p (s ++ [x00]).

#[export] Instance bytes_at_dec m p l : Decision (bytes_at m p l).
Proof.
  revert p. induction l as [|b l IH]; intros p; simpl; [apply _|].
  destruct (decide (m !! p = Some b)) as [E|E]; [|right; naive_solver].
  destruct (IH (p + 1)); [left|right]; naive_solver.
Defined.

#[export] Instance nonul_dec s : Decision (nonul s).
Proof. unfold nonul. apply _. Defined.

#[export] Instance cstr_dec m p s : Decision (cstr m p s).
Proof. unfold cstr. apply _. Defined.

(** ** [mwrite] and [mread] *)

Lemma mwrite_lookup m p l a :
  mwrite m p l !! a =
  if decide (p <= a < p + Z.of_nat (length l)) then l !! Z.to_nat (a - p) else m !! a.
Proof.
  revert p. induction l as [|b l IH]; intros p; simpl.
  { rewrite decide_False by lia. done. }
  destruct (decide (p = a)) as [->|Hne].
  { rewrite lookup_insert_eq, decide_True by lia. by rewrite Z.sub_diag. }
  rewrite lookup_insert_ne, IH by done.
  destruct (decide (p <= a < p + Z.of_nat (S (length l)))) as [H|H].
  - rewrite decide_True by lia.
    replace (Z.to_nat (a - p)) with (S (Z.to_nat (a - (p + 1)))) by lia. done.
  - rewrite decide_False by lia. done.
Qed.

Lemma mwrite_in m p l a b :
  p <= a -> l !! Z.to_nat (a - p) = Some b -> mwrite m p l !! a = Some b.
Proof.
  intros Hp Hl. rewrite mwrite_lookup, decide_True; [done|].
  apply lookup_lt_Some in Hl. lia.
Qed.

Lemma mwrite_out m p l a :
  a < p \/ p + Z.of_nat (length l) <= a -> mwrite m p l !! a = m !! a.
Proof. intros H. rewrite mwrite_lookup, decide_False by lia. done. Qed.

Lemma mwrite_snoc m p l b :
  mwrite m p (l ++ [b]) = <[p + Z.of_nat (length l) := b]> (mwrite m p l).
Proof.
  revert p. induction l as [|c l IH]; intros p; simpl.
  { by rewrite Z.add_0_r. }
  rewrite IH, insert_insert_ne by lia. f_equal. lia.
Qed.

Lemma mwrite_insert_comm m p l a b :
  a < p \/ p + Z.of_nat (length l) <= a ->
  mwrite (<[a := b]> m) p l = <[a := b]> (mwrite m p l).
Proof.
  revert p. induction l as [|c l IH]; intros p Ha; simpl in *; [done|].
  rewrite IH, insert_insert_ne by lia. done.
Qed.

Lemma mwrite_app m p l1 l2 :
  mwrite m p (l1 ++ l2) = mwrite (mwrite m (p + Z.of_nat (length l1)) l2) p l1.
Proof.
  revert p. induction l1 as [|b l1 IH]; intros p; simpl.
  { by rewrite Z.add_0_r. }
  rewrite IH. do 3 f_equal. lia.
Qed.

Lemma mwrite_disjoint m p1 l1 p2 l2 :
  p1 + Z.of_nat (length l1) <= p2 \/ p2 + Z.of_nat (length l2) <= p1 ->
  mwrite (mwrite m p1 l1) p2 l2 = mwrite (mwrite m p2 l2) p1 l1.
Proof.
  intros H. apply map_eq; intros a. rewrite !mwrite_lookup.
  repeat case_decide; try done; lia.
Qed.

Lemma mwrite_app' m p l1 l2 :
  mwrite m p (l1 ++ l2) = mwrite (mwrite m p l1) (p + Z.of_nat (length l1)) l2.
Proof. rewrite mwrite_app, mwrite_disjoint by lia. done. Qed.

Lemma mwrite_same m p l1 l2 :
  length l1 = length l2 -> mwrite (mwrite m p l1) p l2 = mwrite m p l2.
Proof.
  intros H. apply map_eq; intros a. rewrite !mwrite_lookup, H.
  by case_decide.
Qed.

Lemma mread_bytes_at m p l : mread m p (length l) = Some l <-> bytes_at m p l.
Proof.
  revert p. induction l as [|b l IH]; intros p; simpl; [done|].
  rewrite <- IH. destruct (m !! p) as [c|]; simpl; [|naive_solver].
  destruct (mread m (p + 1) (length l)); simpl; naive_solver.
Qed.

Lemma mread_length m p n l : mread m p n = Some l -> length l = n.
Proof.
  revert p l. induction n as [|n IH]; intros p l; simpl; [by intros [= <-]|].
  destruct (m !! p); simpl; [|done].
  destruct (mread m (p + 1) n) eqn:E; simpl; [|done].
  intros [= <-]. simpl. f_equal. by eapply IH.
Qed.

Lemma mread_Some m p n l :
  mread m p n = Some l <-> length l = n /\ bytes_at m p l.
Proof.
  split.
  - intros H. pose proof (mread_length _ _ _ _ H) as <-. split; [done|].
    by apply mread_bytes_at.
  - intros [<- H]. by apply mread_bytes_at.
Qed.

(** ** [mapped] and [bytes_at] *)

Lemma mapped_le m p n p' n' :
  mapped m p n -> p <= p' -> p' + n' <= p + n -> mapped m p' n'.
Proof. intros H ?? a ?. apply H. lia. Qed.

Lemma mapped_app m p n1 n2 :
  0 <= n1 -> 0 <= n2 -> mapped m p (n1 + n2) <-> mapped m p n1 /\ mapped m (p + n1) n2.
Proof.
  intros Hn1 Hn2. split.
  - intros Hm; split; intros a Ha; apply Hm; lia.
  - intros [H1 H2] a Ha. destruct (decide (a < p + n1)); [apply H1|apply H2]; lia.
Qed.

Lemma mapped_insert m p n a b : mapped m p n -> mapped (<[a := b]> m) p n.
Proof. intros H c Hc. rewrite lookup_insert. case_decide; eauto. Qed.

Lemma mapped_mwrite m p n q l : mapped m p n -> mapped (mwrite m q l) p n.
Proof.
  intros H a Ha. rewrite mwrite_lookup. case_decide; [|by apply H].
  apply lookup_lt_is_Some. lia.
Qed.

Lemma mapped_read m p n : mapped m p (Z.of_nat n) -> exists l, length l = n /\ bytes_at m p l.
Proof.
  revert p. induction n as [|n IH]; intros p H; [by exists []|].
  destruct (H p ltac:(lia)) as [b Hb].
  destruct (IH (p + 1)) as (l & Hl & Hat). { eapply mapped_le; [done|lia..]. }
  exists (b :: l). simpl. auto.
Qed.

Lemma mapped_mread m p n : mapped m p (Z.of_nat n) -> exists l, length l = n /\ mread m p n = Some l.
Proof.
  intros H. destruct (mapped_read m p n H) as (l & Hl & Hat). exists l. split; [done|].
  by apply mread_Some.
Qed.

Lemma bytes_at_lookup m p l :
  bytes_at m p l <-> forall i b, l !! i = Some b -> m !! (p + Z.of_nat i) = Some b.
Proof.
  revert p. induction l as [|c l IH]; intros p; simpl; [naive_solver|].
  rewrite IH. split.
  - intros [Hc H] [|i] b; simpl; [intros [= <-]; by rewrite Z.add_0_r|].
    intros Hi. rewrite <- (H i b Hi). f_equal. lia.
  - intros H. split; [rewrite <- (Z.add_0_r p); by apply (H O)|].
    intros i b Hi. rewrite <- (H (S i) b Hi). f_equal. lia.
Qed.

Lemma bytes_at_mapped m p l : bytes_at m p l -> mapped m p (Z.of_nat (length l)).
Proof.
  rewrite bytes_at_lookup. intros H a Ha.
  destruct (lookup_lt_is_Some_2 l (Z.to_nat (a - p))) as [b Hb]; [lia|].
  exists b. rewrite <- (H _ _ Hb). f_equal. lia.
Qed.

Lemma bytes_at_app m p l1 l2 :
  bytes_at m p (l1 ++ l2) <-> bytes_at m p l1 /\ bytes_at m (p + Z.of_nat (length l1)) l2.
Proof.
  revert p. induction l1 as [|b l1 IH]; intros p; simpl; [by rewrite Z.add_0_r; tauto|].
  rewrite IH. replace (p + 1 + Z.of_nat (length l1)) with (p + Z.of_nat (S (length l1))) by lia.
  tauto.
Qed.

Lemma bytes_at_inj m p l1 l2 :
  bytes_at m p l1 -> bytes_at m p l2 -> length l1 = length l2 -> l1 = l2.
Proof.
  intros H1 H2 Hlen. apply mread_bytes_at in H1, H2. rewrite Hlen in H1. congruence.
Qed.

Lemma bytes_at_mwrite m p l : bytes_at (mwrite m p l) p l.
Proof.
  apply bytes_at_lookup. intros i b Hi. apply mwrite_in; [lia|].
  by replace (Z.to_nat (p + Z.of_nat i - p)) with i by lia.
Qed.

Lemma bytes_at_mwrite_out m p l q k :
  bytes_at m p l ->
  q + Z.of_nat (length k) <= p \/ p + Z.of_nat (length l) <= q ->
  bytes_at (mwrite m q k) p l.
Proof.
  rewrite !bytes_at_lookup. intros H Hd i b Hi. rewrite mwrite_out; [by apply H|].
  apply lookup_lt_Some in Hi. lia.
Qed.

Lemma bytes_at_insert_out m p l a b :
  bytes_at m p l -> a < p \/ p + Z.of_nat (length l) <= a -> bytes_at (<[a := b]> m) p l.
Proof. intros H Ha. apply (bytes_at_mwrite_out m p l a [b]); simpl; [done|lia]. Qed.

Lemma mwrite_bytes_at m p l : bytes_at m p l -> mwrite m p l = m.
Proof.
  revert p. induction l as [|b l IH]; intros p; simpl; [done|].
  intros [Hb H]. rewrite IH by done. by apply insert_id.
Qed.

(** ** The scan bound *)

(** A run of [n] mapped addresses needs a memory of at least [n] bytes. *)
Lemma mapped_size m p n : mapped m p (Z.of_nat n) -> (n <= size m)%nat.
Proof.
  intros H.
  set (s := list_to_set ((fun i : nat => p + Z.of_nat i) <$> seq 0 n) : gset Z).
  assert (s ⊆ dom m) as Hsub.
  { intros a. unfold s. rewrite elem_of_list_to_set, list_elem_of_fmap.
    intros (i & -> & Hi). apply elem_of_seq in Hi. apply elem_of_dom, H. lia. }
  apply subseteq_size in Hsub. rewrite size_dom in Hsub.
  unfold s in Hsub. rewrite size_list_to_set, length_fmap, length_seq in Hsub; [done|].
  apply NoDup_fmap_2; [|apply NoDup_seq]. intros i j; lia.
Qed.

Lemma bytes_at_size m p l : bytes_at m p l -> (length l <= size m)%nat.
Proof. intros H. eapply mapped_size, bytes_at_mapped, H. Qed.

Lemma size_insert_mapped (m : mem) p b : is_Some (m !! p) -> size (<[p := b]> m) = size m.
Proof. intros [c H]. by rewrite map_size_insert, H. Qed.

Lemma size_mwrite_mapped (m : mem) p l :
  mapped m p (Z.of_nat (length l)) -> size (mwrite m p l) = size m.
Proof.
  intros H. rewrite <- !size_dom. f_equal. apply set_eq. intros a.
  rewrite !elem_of_dom, mwrite_lookup. case_decide as Ha; [|done].
  split; intros _; [by apply H|]. apply lookup_lt_is_Some. lia.
Qed.

(** ** Strings *)

Lemma cstr_size m p s : cstr m p s -> (length s < size m)%nat.
Proof. intros [_ H]. apply bytes_at_size in H. rewrite length_app in H. simpl in H. lia. Qed.

Lemma cstr_cons m p b s :
  cstr m p (b :: s) <-> b <> x00 /\ m !! p = Some b /\ cstr m (p + 1) s.
Proof. unfold cstr, nonul. rewrite List.Forall_cons_iff. simpl. tauto. Qed.

Lemma cstr_nil m p : cstr m p [] <-> m !! p = Some x00.
Proof. unfold cstr, nonul. simpl. intuition. Qed.

Lemma cstr_hd m p s : cstr m p s -> m !! p = Some (hd x00 s).
Proof. destruct s; [by rewrite cstr_nil|]. rewrite cstr_cons. simpl. tauto. Qed.

Lemma cstr_app_r m p s1 s2 : cstr m p (s1 ++ s2) -> cstr m (p + Z.of_nat (length s1)) s2.
Proof.
  unfold cstr, nonul. rewrite Forall_app, <- app_assoc, bytes_at_app. tauto.
Qed.

Lemma cstr_app m p s1 s2 :
  cstr m p (s1 ++ s2) <->
  nonul s1 /\ bytes_at m p s1 /\ cstr m (p + Z.of_nat (length s1)) s2.
Proof.
  unfold cstr, nonul. rewrite Forall_app, <- app_assoc, bytes_at_app. tauto.
Qed.

Lemma cstr_inj m p s1 s2 : cstr m p s1 -> cstr m p s2 -> s1 = s2.
Proof.
  revert p s2. induction s1 as [|b s1 IH]; intros p [|c s2];
    rewrite ?cstr_nil, ?cstr_cons; naive_solver.
Qed.

Lemma cstr_mwrite m p s : nonul s -> cstr (mwrite m p (s ++ [x00])) p s.
Proof. split; [done|]. apply bytes_at_mwrite. Qed.

Lemma cstr_mwrite_out m p s q k :
  cstr m p s ->
  q + Z.of_nat (length k) <= p \/ p + Z.of_nat (length s) < q ->
  cstr (mwrite m q k) p s.
Proof.
  intros [Hn H] Hd. split; [done|]. apply bytes_at_mwrite_out; [done|].
  rewrite length_app. simpl. lia.
Qed.

Lemma cstr_insert_out m p s a b :
  cstr m p s -> a < p \/ p + Z.of_nat (length s) < a -> cstr (<[a := b]> m) p s.
Proof. intros H Ha. apply (cstr_mwrite_out m p s a [b]); simpl; [done|lia]. Qed.

(** ** The comparison of byte strings

    [bcmp] compares byte strings with the C conventions: the end of a string
    counts as a NUL, and the result is the difference of the first bytes that
    differ, read through [f] ([uchar] or [schar]). *)

Fixpoint bcmp (f : byte -> Z) (l1 l2 : list byte) : Z :=
  match l1, l2 with
  | [], [] => 0
  | [], c :: _ => - f c
  | b :: _, [] => f b
  | b :: l1, c :: l2 => if decide (b = c) then bcmp f l1 l2 else f b - f c
  end.

Lemma bcmp_antisym f l1 l2 : bcmp f l1 l2 = - bcmp f l2 l1.
Proof.
  revert l2. induction l1 as [|b l1 IH]; intros [|c l2]; simpl; try lia.
  destruct (decide (b = c)) as [->|Hne].
  - rewrite decide_True by done. apply IH.
  - rewrite decide_False by congruence. lia.
Qed.

Lemma bcmp_eq0 f l1 l2 :
  (forall b c, f b = f c -> b = c) -> f x00 = 0 -> nonul l1 -> nonul l2 ->
  bcmp f l1 l2 = 0 <-> l1 = l2.
Proof.
  intros Hf Hz. revert l2. unfold nonul.
  induction l1 as [|b l1 IH]; intros [|c l2] H1 H2; simpl; try done.
  - apply List.Forall_cons_iff in H2 as [Hc _]. split; [|done].
    intros E. destruct Hc. apply Hf. lia.
  - apply List.Forall_cons_iff in H1 as [Hb _]. split; [|done].
    intros E. destruct Hb. apply Hf. lia.
  - apply List.Forall_cons_iff in H1 as [_ H1], H2 as [_ H2].
    case_decide as E; [subst; rewrite IH by done; naive_solver|].
    split; [|naive_solver]. intros E'. destruct E. apply Hf. lia.
Qed.

Lemma bcmp_uchar_range l1 l2 : -256 < bcmp uchar l1 l2 < 256.
Proof.
  revert l2. induction l1 as [|b l1 IH]; intros [|c l2]; simpl; try lia;
    try pose proof (uchar_range b); try pose proof (uchar_range c); try lia.
  case_decide; [apply IH|lia].
Qed.

(** ** Symbolic execution of the primitives *)

(** Decides the comparisons of a known character. *)
Ltac decide_chars :=
  repeat match goal with
  | |- (if ?b then _ else _) _ = _ => let v := eval vm_compute in b in
      replace b with v by (vm_compute; reflexivity); cbv iota
  end.

Lemma load8_ret (m : mem) p b : m !! p = Some b -> load8 p m = Ret b m.
Proof. intros H. unfold load8. by rewrite H. Qed.

Lemma ldc_ret (m : mem) p b : m !! p = Some b -> ldc p m = Ret (schar b) m.
Proof. intros H. unfold ldc. by rewrite (bind_ret _ _ _ _ _ (load8_ret _ _ _ H)). Qed.

Lemma store8_ret (m : mem) p b : is_Some (m !! p) -> store8 p b m = Ret tt (<[p := b]> m).
Proof. intros [c H]. unfold store8. by rewrite H. Qed.

Lemma stc_ret (m : mem) p c : is_Some (m !! p) -> stc p c m = Ret tt (<[p := byte.of_Z c]> m).
Proof. apply store8_ret. Qed.

Lemma load64_ret (m : mem) p l :
  length l = 8%nat -> bytes_at m p l -> load64 p m = Ret (le_combine l) m.
Proof.
  intros Hl H. unfold load64. apply mread_bytes_at in H. by rewrite <- Hl, H.
Qed.

Lemma scan_fuel_ret (m : mem) : scan_fuel m = Ret (S (size m)) m.
Proof. done. Qed.

Lemma store32_ret (m : mem) p v :
  mapped m p 4 -> store32 p v m = Ret tt (mwrite m p (le_split 4 v)).
Proof.
  intros H. unfold store32. destruct (mapped_mread m p 4 H) as (l & _ & E). by rewrite E.
Qed.

Lemma store64_ret (m : mem) p v :
  mapped m p 8 -> store64 p v m = Ret tt (mwrite m p (le_split 8 v)).
Proof.
  intros H. unfold store64. destruct (mapped_mread m p 8 H) as (l & _ & E). by rewrite E.
Qed.

#[export] Hint Resolve mapped_insert mapped_mwrite bytes_at_mwrite load8_ret ldc_ret : cmem.

Ltac mstep_hook ::=
  first
  [ match goal with H : ?m !! ?p = Some _ |- context [ldc ?p ?m] => rewrite (ldc_ret _ _ _ H) end
  | match goal with H : ?m !! ?p = Some _ |- context [load8 ?p ?m] => rewrite (load8_ret _ _ _ H) end
  | rewrite stc_ret by eauto with cmem
  | rewrite store8_ret by eauto with cmem
  | rewrite schar_eq
  | rewrite schar_nz by assumption
  | rewrite schar_ne by congruence ].
