(* ===== verification/Digits.v ===== *)
(** * Numerals in a base

    The digit values of a number, as the printing loops of both libraries
    produce them, the number a sequence of digit values stands for, as their
    parsing loops compute it, and that the two are inverse. *)

From S2P Require Import Prelude.

(** The value of a sequence of digits read after [v]. *)
Definition digits_from (base v : Z) (ds : list Z) : Z := fold_left (fun v d => v * base + d) ds v.

Lemma digits_from_ge base v ds :
  1 <= base -> 0 <= v -> Forall (fun d => 0 <= d) ds -> v <= digits_from base v ds.
Proof.
  intros Hb. unfold digits_from. revert v. induction ds as [|d ds IH]; intros v Hv H; simpl; [lia|].
  apply List.Forall_cons_iff in H as [Hd H]. 
  assert (v <= v * base) by nia. specialize (IH (v * base + d) ltac:(lia) H). lia.
Qed.

(** The digit values, least significant first. *)
Fixpoint number_vals (fuel : nat) (base n : Z) : list Z :=
  match fuel with
  | O => []
  | S fuel => if n =? 0 then [] else n mod base :: number_vals fuel base (n / base)
  end.

(** The digits of [n], most significant first; 66 are enough in base 2. *)
Definition vals (base n : Z) : list Z := if n =? 0 then [0] else rev (number_vals 66 base n).

Lemma number_vals_sum fuel base n :
  2 <= base -> 0 <= n < base ^ Z.of_nat fuel -> digits_from base 0 (rev (number_vals fuel base n)) = n.
Proof.
  intros Hb. revert n. induction fuel as [|fuel IH]; intros n Hn.
  - change (base ^ Z.of_nat 0) with 1 in Hn. unfold digits_from. simpl. lia.
  - cbn [number_vals]. destruct (Z.eqb_spec n 0) as [->|Hnz]; [done|]. cbn [rev]. unfold digits_from.
    rewrite fold_left_app. simpl. fold (digits_from base 0 (rev (number_vals fuel base (n / base)))).
    rewrite IH; [pose proof (Z.div_mod n base ltac:(lia)); lia|].
    split; [apply Z.div_pos; lia|]. apply Z.div_lt_upper_bound; [lia|].
    rewrite Nat2Z.inj_succ, Z.pow_succ_r in Hn by lia. lia.
Qed.

Lemma number_vals_range fuel base n :
  2 <= base -> 0 <= n -> Forall (fun d => 0 <= d < base) (number_vals fuel base n).
Proof.
  intros Hb. revert n. induction fuel as [|fuel IH]; intros n Hn; simpl; [constructor|].
  destruct (n =? 0); constructor; [apply Z.mod_pos_bound; lia|]. apply IH. apply Z.div_pos; lia.
Qed.

Lemma number_vals_length fuel base n k :
  2 <= base -> 0 <= n < base ^ Z.of_nat k -> (length (number_vals fuel base n) <= k)%nat.
Proof.
  intros Hb. revert n k. induction fuel as [|fuel IH]; intros n k Hn; simpl; [lia|].
  destruct (Z.eqb_spec n 0) as [->|Hnz]; simpl; [lia|]. destruct k as [|k].
  - change (base ^ Z.of_nat 0) with 1 in Hn. lia.
  - enough (length (number_vals fuel base (n / base)) <= k)%nat by lia. apply IH.
    split; [apply Z.div_pos; lia|]. apply Z.div_lt_upper_bound; [lia|].
    rewrite Nat2Z.inj_succ, Z.pow_succ_r in Hn by lia. lia.
Qed.

Lemma pow64_le base : 2 <= base -> 2 ^ 64 <= base ^ Z.of_nat 64.
Proof. intros H. change (Z.of_nat 64) with 64. apply Z.pow_le_mono_l. lia. Qed.

Lemma vals_sum base n : 2 <= base -> 0 <= n < 2 ^ 64 -> digits_from base 0 (vals base n) = n.
Proof.
  intros Hb Hn. unfold vals. destruct (Z.eqb_spec n 0) as [->|]; [done|].
  apply number_vals_sum; [lia|]. split; [lia|]. pose proof (pow64_le base Hb).
  pose proof (Z.pow_le_mono_r base (Z.of_nat 64) (Z.of_nat 66)). lia.
Qed.

Lemma vals_range base n : 2 <= base -> 0 <= n -> Forall (fun d => 0 <= d < base) (vals base n).
Proof.
  intros Hb Hn. unfold vals. destruct (n =? 0); [repeat constructor; lia|].
  apply Forall_rev, number_vals_range; lia.
Qed.

Lemma vals_length base n k :
  2 <= base -> (1 <= k)%nat -> 0 <= n < base ^ Z.of_nat k -> (length (vals base n) <= k)%nat.
Proof.
  intros Hb Hk Hn. unfold vals. destruct (n =? 0); [done|]. rewrite length_rev.
  by apply number_vals_length.
Qed.

Lemma vals_cons base n : 2 <= base -> 0 <= n -> exists d l, vals base n = d :: l /\ 0 <= d < base.
Proof.
  intros Hb Hn. pose proof (vals_range base n Hb Hn) as H. destruct (vals base n) as [|d l] eqn:E.
  - unfold vals in E. destruct (Z.eqb_spec n 0); [done|]. apply (f_equal (@length Z)) in E.
    rewrite length_rev in E. cbn [number_vals] in E. by rewrite (proj2 (Z.eqb_neq n 0)) in E by done.
  - apply List.Forall_cons_iff in H as [H _]. eauto.
Qed.


(** More fuel than digits changes nothing. *)
Lemma number_vals_fuel k k' base n :
  2 <= base -> 0 <= n < base ^ Z.of_nat k -> (k <= k')%nat ->
  number_vals k' base n = number_vals k base n.
Proof.
  intros Hb. revert k' n. induction k as [|k IH]; intros k' n Hn Hk.
  - change (base ^ Z.of_nat 0) with 1 in Hn. assert (n = 0) as -> by lia. by destruct k'.
  - destruct k' as [|k']; [lia|]. cbn [number_vals]. destruct (Z.eqb_spec n 0); [done|]. f_equal.
    apply IH; [|lia]. split; [apply Z.div_pos; lia|]. apply Z.div_lt_upper_bound; [lia|].
    rewrite Nat2Z.inj_succ, Z.pow_succ_r in Hn by lia. lia.
Qed.
