(* ===== verification/UString.v ===== *)
(** * ucore/src/lib/string.c

    The string and memory routines of the ucore user library, one definition
    per C function, on the byte memory of [CMem].  Pointers are addresses; a
    counter that counts distinct mapped bytes is left unwrapped. *)

From S2P Require Import Prelude CMem Digits.

(** ** Definitions *)

Definition strlen (s : Z) : M mem Z :=
  fuel ← scan_fuel;
  loop fuel (fun '(s, cnt) =>
    c ← ldc s;
    mret (if c =? 0 then inr cnt else inl (s + 1, cnt + 1))) (s, 0).

Definition strnlen (s len : Z) : M mem Z :=
  fuel ← scan_fuel;
  loop fuel (fun '(s, cnt) =>
    if cnt <? len then
      c ← ldc s;
      mret (if c =? 0 then inr cnt else inl (s + 1, cnt + 1))
    else mret (inr cnt)) (s, 0).

Definition strcpy (dst src : Z) : M mem Z :=
  fuel ← scan_fuel;
  _ ← loop fuel (fun '(p, src) =>
    c ← ldc src;
    _ ← stc p c;
    mret (if c =? 0 then inr tt else inl (p + 1, src + 1))) (dst, src);
  mret dst.

Definition strcat (dst src : Z) : M mem Z :=
  n ← strlen dst;
  strcpy (dst + n) src.

Definition strncpy (dst src len : Z) : M mem Z :=
  _ ← loop (S (Z.to_nat len)) (fun '(p, src, len) =>
    if 0 <? len then
      c ← ldc src;
      _ ← stc p c;
      mret (inl (p + 1, if c =? 0 then src else src + 1, len - 1))
    else mret (inr tt)) (dst, src, len);
  mret dst.

Definition strcmp (s1 s2 : Z) : M mem Z :=
  fuel ← scan_fuel;
  loop fuel (fun '(s1, s2) =>
    c1 ← ldc s1;
    more ← (if c1 =? 0 then mret false else c2 ← ldc s2; mret (c1 =? c2));
    if (more : bool) then mret (inl (s1 + 1, s2 + 1))
    else
      b1 ← load8 s1;
      b2 ← load8 s2;
      mret (inr (s32 (uchar b1 - uchar b2)))) (s1, s2).

Definition strncmp (s1 s2 n : Z) : M mem Z :=
  fuel ← scan_fuel;
  loop fuel (fun '(s1, s2, n) =>
    more ← (if 0 <? n then
              c1 ← ldc s1;
              if c1 =? 0 then mret false else c2 ← ldc s2; mret (c1 =? c2)
            else mret false);
    if (more : bool) then mret (inl (s1 + 1, s2 + 1, n - 1))
    else if n =? 0 then mret (inr 0)
    else
      b1 ← load8 s1;
      b2 ← load8 s2;
      mret (inr (s32 (uchar b1 - uchar b2)))) (s1, s2, n).

(** NULL is the address 0. *)
Definition strchr (s c : Z) : M mem Z :=
  fuel ← scan_fuel;
  loop fuel (fun s =>
    x ← ldc s;
    mret (if x =? 0 then inr 0 else if x =? s8 c then inr s else inl (s + 1))) s.

Definition strfind (s c : Z) : M mem Z :=
  fuel ← scan_fuel;
  loop fuel (fun s =>
    x ← ldc s;
    mret (if x =? 0 then inr s else if x =? s8 c then inr s else inl (s + 1))) s.

(** The digit value of a character in [strtol], [None] when it is not one. *)
Definition strtol_dig (c : Z) : option Z :=
  if (ch "0" <=? c) && (c <=? ch "9") then Some (c - ch "0")
  else if (ch "a" <=? c) && (c <=? ch "z") then Some (c - ch "a" + 10)
  else if (ch "A" <=? c) && (c <=? ch "Z") then Some (c - ch "A" + 10)
  else None.

(** The digit loop of [strtol]. *)
Definition strtol_digits (s base : Z) : M mem (Z * Z) :=
  fuel ← scan_fuel;
  loop fuel (fun '(s, val) =>
    c ← ldc s;
    match strtol_dig c with
    | None => mret (inr (val, s))
    | Some dig =>
        if base <=? dig then mret (inr (val, s))
        else v ← schk 64 (val * base); v ← schk 64 (v + dig); mret (inl (s + 1, v))
    end) (s, 0).

(** Gobbles the initial whitespace. *)
Definition strtol_skip (s : Z) : M mem Z :=
  fuel ← scan_fuel;
  loop fuel (fun s =>
    c ← ldc s;
    mret (if (c =? ch " ") || (c =? 9) then inl (s + 1) else inr s)) s.

(** The plus/minus sign. *)
Definition strtol_sgn (s : Z) : M mem (Z * bool) :=
  c ← ldc s;
  mret (if c =? ch "+" then (s + 1, false)
        else if c =? ch "-" then (s + 1, true) else (s, false)).

(** The hex or octal base prefix. *)
Definition strtol_pre (s base : Z) : M mem (Z * Z) :=
  c0 ← (if (base =? 0) || (base =? 16) then ldc s else mret 0);
  hex ← (if ((base =? 0) || (base =? 16)) && (c0 =? ch "0")
         then c1 ← ldc (s + 1); mret (c1 =? ch "x") else mret false);
  mret (if (hex : bool) then (s + 2, 16)
        else if (base =? 0) && (c0 =? ch "0") then (s + 1, 8)
        else if base =? 0 then (s, 10) else (s, base)).

(** The result is the value and the pointer stored through [endptr]. *)
Definition strtol (s base : Z) : M mem (Z * Z) :=
  s ← strtol_skip s;
  '(s, neg) ← strtol_sgn s;
  '(s, base) ← strtol_pre s base;
  '(val, s) ← strtol_digits s base;
  r ← (if (neg : bool) then schk 64 (- val) else mret val);
  mret (r, s).

Definition memset (s c n : Z) : M mem Z :=
  _ ← loop (S (Z.to_nat n)) (fun '(p, n) =>
    if 0 <? n then _ ← stc p (s8 c); mret (inl (p + 1, n - 1))
    else mret (inr tt)) (s, n);
  mret s.

Definition copy_forward (d s n : Z) : M mem unit :=
  loop (S (Z.to_nat n)) (fun '(d, s, n) =>
    if 0 <? n then c ← ldc s; _ ← stc d c; mret (inl (d + 1, s + 1, n - 1))
    else mret (inr tt)) (d, s, n).

Definition copy_backward (d s n : Z) : M mem unit :=
  loop (S (Z.to_nat n)) (fun '(d, s, n) =>
    if 0 <? n then c ← ldc (s - 1); _ ← stc (d - 1) c; mret (inl (d - 1, s - 1, n - 1))
    else mret (inr tt)) (d, s, n).

Definition memmove (dst src n : Z) : M mem Z :=
  _ ← (if (src <? dst) && (dst <? src + n)
       then copy_backward (dst + n) (src + n) n
       else copy_forward dst src n);
  mret dst.

Definition memcpy (dst src n : Z) : M mem Z :=
  _ ← copy_forward dst src n;
  mret dst.

Definition memcmp (v1 v2 n : Z) : M mem Z :=
  loop (S (Z.to_nat n)) (fun '(s1, s2, n) =>
    if 0 <? n then
      b1 ← load8 s1;
      b2 ← load8 s2;
      if schar b1 =? schar b2 then mret (inl (s1 + 1, s2 + 1, n - 1))
      else mret (inr (s32 (uchar b1 - uchar b2)))
    else mret (inr 0)) (v1, v2, n).

(** ** Correctness of the scans *)

(** Splits a scan into its fuel and its loop, whose body is named [B]. *)
Ltac start_scan B := unfold scan_fuel at 1; mgo; loop_body B.

Lemma u_strlen_ret m s l : cstr m s l -> strlen s m = Ret (Z.of_nat (length l)) m.
Proof.
  intros H. pose proof (cstr_size _ _ _ H) as Hf. unfold strlen. start_scan B.
  enough (forall fuel s k, cstr m s l -> (length l < fuel)%nat ->
    loop fuel B (s, k) m = Ret (k + Z.of_nat (length l)) m) as G by (rewrite G; done || lia).
  clear H Hf s. induction l as [|b l IH]; intros [|fuel] s k H Hf; simpl in Hf; try lia;
    rewrite loop_S; unfold B at 1; simpl.
  - apply cstr_nil in H. mgo. simpl. f_equal. lia.
  - apply cstr_cons in H as (Hb & Hs & H). mgo. rewrite IH by (done || lia). f_equal. lia.
Qed.

Lemma strnlen_ret m s l len :
  0 <= len -> cstr m s l -> strnlen s len m = Ret (Z.min (Z.of_nat (length l)) len) m.
Proof.
  intros Hlen H. pose proof (cstr_size _ _ _ H) as Hf. unfold strnlen. start_scan B.
  enough (forall fuel s k, 0 <= k <= len -> cstr m s l -> (length l < fuel)%nat ->
    loop fuel B (s, k) m = Ret (Z.min (k + Z.of_nat (length l)) len) m) as G
    by (rewrite G; done || lia).
  clear H Hf s. induction l as [|b l IH]; intros [|fuel] s k Hk H Hf; simpl in Hf; try lia;
    rewrite loop_S; unfold B at 1; simpl; destruct (Z.ltb_spec k len).
  - apply cstr_nil in H. mgo. simpl. f_equal. lia.
  - mgo. f_equal. lia.
  - apply cstr_cons in H as (Hb & Hs & H). mgo. rewrite IH by (done || lia). f_equal. lia.
  - mgo. f_equal. lia.
Qed.

(** Without a terminator in reach the first [len] bytes are enough. *)
Lemma strnlen_long m s l len :
  nonul l -> bytes_at m s l -> len <= Z.of_nat (length l) -> 0 <= len ->
  strnlen s len m = Ret len m.
Proof.
  intros Hn H Hle Hlen. pose proof (bytes_at_size _ _ _ H) as Hf. unfold strnlen. start_scan B.
  enough (forall fuel s k, 0 <= k <= len -> nonul l -> bytes_at m s l -> (length l < fuel)%nat ->
    len - k <= Z.of_nat (length l) -> loop fuel B (s, k) m = Ret len m) as G
    by (apply G; done || lia).
  clear Hn H Hf Hle s. unfold nonul.
  induction l as [|b l IH]; intros [|fuel] s k Hk Hn H Hf Hl; cbn [length bytes_at] in *; try lia;
    rewrite loop_S; unfold B at 1; simpl; destruct (Z.ltb_spec k len); try lia; mgo;
    try (f_equal; lia).
  apply List.Forall_cons_iff in Hn as [Hb Hn]. destruct H as [Hs H]. mgo. apply IH; done || lia.
Qed.

Lemma strcpy_ret m dst src l :
  cstr m src l -> mapped m dst (Z.of_nat (length l) + 1) ->
  dst + Z.of_nat (length l) < src \/ src + Z.of_nat (length l) < dst ->
  strcpy dst src m = Ret dst (mwrite m dst (l ++ [x00])).
Proof.
  intros H Hm Hd. pose proof (cstr_size _ _ _ H) as Hf. unfold strcpy. start_scan B.
  enough (forall fuel m dst src, cstr m src l -> mapped m dst (Z.of_nat (length l) + 1) ->
    dst + Z.of_nat (length l) < src \/ src + Z.of_nat (length l) < dst -> (length l < fuel)%nat ->
    loop fuel B (dst, src) m = Ret tt (mwrite m dst (l ++ [x00]))) as G
    by (rewrite G; done || lia).
  clear H Hm Hd Hf m dst src.
  induction l as [|b l IH]; intros [|fuel] m dst src H Hm Hd Hf; cbn [length] in *; try lia;
    rewrite loop_S; unfold B at 1; simpl.
  - apply cstr_nil in H. mgo. rewrite stc_ret by (apply Hm; lia). mgo. done.
  - apply cstr_cons in H as (Hb & Hs & H). mgo. rewrite stc_ret by (apply Hm; lia). mgo.
    rewrite byte_of_schar, IH; [|apply cstr_insert_out; [done|lia]|
      apply mapped_insert; eapply mapped_le; [done|lia..]|lia|lia].
    f_equal. apply mwrite_insert_comm. rewrite length_app. simpl. lia.
Qed.

Lemma strcat_ret m dst src l k :
  cstr m dst k -> cstr m src l ->
  mapped m dst (Z.of_nat (length k) + Z.of_nat (length l) + 1) ->
  dst + Z.of_nat (length k + length l) < src \/ src + Z.of_nat (length l) < dst ->
  strcat dst src m = Ret (dst + Z.of_nat (length k)) (mwrite m dst (k ++ l ++ [x00])).
Proof.
  intros Hk Hl Hm Hd. unfold strcat. mrun (u_strlen_ret _ _ _ Hk).
  rewrite (strcpy_ret _ _ _ l) by (done || lia || (eapply mapped_le; [done|lia..])).
  f_equal. rewrite (mwrite_app' _ _ k), (mwrite_bytes_at m dst k); [done|].
  destruct Hk as [_ Hk]. by apply bytes_at_app in Hk as [Hk _].
Qed.

Lemma uchar_diff_s32 b c : s32 (uchar b - uchar c) = uchar b - uchar c.
Proof. apply swrap_id; [lia|]. pose proof (uchar_range b). pose proof (uchar_range c). unfold_int. lia. Qed.

Lemma u_strcmp_ret m s1 s2 l1 l2 :
  cstr m s1 l1 -> cstr m s2 l2 -> strcmp s1 s2 m = Ret (bcmp uchar l1 l2) m.
Proof.
  intros H1 H2. pose proof (cstr_size _ _ _ H1) as Hf. unfold strcmp. start_scan B.
  enough (forall fuel s1 s2 l2, cstr m s1 l1 -> cstr m s2 l2 -> (length l1 < fuel)%nat ->
    loop fuel B (s1, s2) m = Ret (bcmp uchar l1 l2) m) as G by (apply G; done || lia).
  clear. induction l1 as [|b l1 IH]; intros [|fuel] s1 s2 l2 H1 H2 Hf; cbn [length] in Hf; try lia;
    rewrite loop_S; unfold B at 1; cbn beta iota.
  - apply cstr_nil in H1. mgo. destruct l2 as [|c l2];
      [apply cstr_nil in H2|apply cstr_cons in H2 as (? & ? & ?)]; mgo; rewrite uchar_diff_s32; simpl;
      f_equal; change (uchar x00) with 0; lia.
  - apply cstr_cons in H1 as (Hb & Hs1 & H1). destruct l2 as [|c l2].
    + apply cstr_nil in H2. mgo. rewrite uchar_diff_s32. simpl. f_equal. change (uchar x00) with 0. lia.
    + apply cstr_cons in H2 as (Hc & Hs2 & H2). simpl. case_decide as E.
      * subst c. mgo. apply IH; done || lia.
      * mgo. by rewrite uchar_diff_s32.
Qed.

Lemma u_strncmp_ret m s1 s2 l1 l2 n :
  0 <= n -> cstr m s1 l1 -> cstr m s2 l2 ->
  strncmp s1 s2 n m = Ret (bcmp uchar (take (Z.to_nat n) l1) (take (Z.to_nat n) l2)) m.
Proof.
  intros Hn H1 H2. pose proof (cstr_size _ _ _ H1) as Hf. unfold strncmp. start_scan B.
  enough (forall fuel s1 s2 l2 n, 0 <= n -> cstr m s1 l1 -> cstr m s2 l2 -> (length l1 < fuel)%nat ->
    loop fuel B (s1, s2, n) m =
      Ret (bcmp uchar (take (Z.to_nat n) l1) (take (Z.to_nat n) l2)) m) as G by (apply G; done || lia).
  clear. induction l1 as [|b l1 IH]; intros [|fuel] s1 s2 l2 n Hn H1 H2 Hf;
    cbn [length] in Hf; try lia; rewrite loop_S; unfold B at 1; cbn beta iota;
    (destruct (Z.ltb_spec 0 n) as [Hp|Hp];
      [replace (Z.to_nat n) with (S (Z.to_nat (n - 1))) by lia | replace n with 0 by lia; mgo; done]);
    (destruct l2 as [|c l2]; [apply cstr_nil in H2|apply cstr_cons in H2 as (Hc & Hs2 & H2)]).
  - apply cstr_nil in H1. mgo. rewrite (proj2 (Z.eqb_neq n 0)) by lia. mgo. by rewrite uchar_diff_s32.
  - apply cstr_nil in H1. mgo. rewrite (proj2 (Z.eqb_neq n 0)) by lia. mgo. by rewrite uchar_diff_s32.
  - apply cstr_cons in H1 as (Hb & Hs1 & H1). mgo.
    rewrite (proj2 (Z.eqb_neq n 0)) by lia. mgo. rewrite uchar_diff_s32. simpl. f_equal.
    change (uchar x00) with 0. lia.
  - apply cstr_cons in H1 as (Hb & Hs1 & H1). cbn [take bcmp]. case_decide as E.
    + subst c. mgo. apply IH; done || lia.
    + mgo. rewrite (proj2 (Z.eqb_neq n 0)) by lia. mgo. by rewrite uchar_diff_s32.
Qed.

(** [strchr] finds the first occurrence, as [list_find] does on the string. *)
Lemma u_strchr_ret m s l c :
  cstr m s l ->
  strchr s c m = Ret (match list_find (fun b => b = byte.of_Z c) l with
                      | Some (i, _) => s + Z.of_nat i | None => 0 end) m.
Proof.
  intros H. pose proof (cstr_size _ _ _ H) as Hf. unfold strchr. start_scan B.
  enough (forall fuel s, cstr m s l -> (length l < fuel)%nat ->
    loop fuel B s m = Ret (match list_find (fun b => b = byte.of_Z c) l with
                      | Some (i, _) => s + Z.of_nat i | None => 0 end) m) as G by (apply G; done || lia).
  clear H Hf s. induction l as [|b l IH]; intros [|fuel] s H Hf; cbn [length] in Hf; try lia;
    rewrite loop_S; unfold B at 1; cbn beta iota.
  - apply cstr_nil in H. mgo. done.
  - apply cstr_cons in H as (Hb & Hs & H). mgo. cbn [list_find].
    rewrite <- schar_of_Z, schar_eqb. case_bool_decide as E.
    + rewrite decide_True by done. mgo. f_equal. lia.
    + rewrite decide_False by done. rewrite IH by (done || lia).
      destruct (list_find _ l) as [[i ?]|]; simpl; f_equal; lia.
Qed.

Lemma strfind_ret m s l c :
  cstr m s l ->
  strfind s c m = Ret (s + Z.of_nat (match list_find (fun b => b = byte.of_Z c) l with
                                     | Some (i, _) => i | None => length l end)) m.
Proof.
  intros H. pose proof (cstr_size _ _ _ H) as Hf. unfold strfind. start_scan B.
  enough (forall fuel s, cstr m s l -> (length l < fuel)%nat ->
    loop fuel B s m = Ret (s + Z.of_nat (match list_find (fun b => b = byte.of_Z c) l with
                      | Some (i, _) => i | None => length l end)) m) as G by (apply G; done || lia).
  clear H Hf s. induction l as [|b l IH]; intros [|fuel] s H Hf; cbn [length] in Hf; try lia;
    rewrite loop_S; unfold B at 1; cbn beta iota.
  - apply cstr_nil in H. mgo. simpl. f_equal. lia.
  - apply cstr_cons in H as (Hb & Hs & H). mgo. cbn [list_find].
    rewrite <- schar_of_Z, schar_eqb. case_bool_decide as E.
    + rewrite decide_True by done. mgo. f_equal. lia.
    + rewrite decide_False by done. rewrite IH by (done || lia).
      destruct (list_find _ l) as [[i ?]|]; simpl; f_equal; lia.
Qed.

(** What [strncpy] leaves in the destination: a prefix, padded with NULs. *)
Definition strncpy_image (n : nat) (l : list byte) : list byte :=
  take n l ++ replicate (n - length l) x00.

Lemma strncpy_ret m dst src l n :
  cstr m src l -> mapped m dst (Z.of_nat n) ->
  dst + Z.of_nat n <= src \/ src + Z.of_nat (length l) < dst ->
  strncpy dst src (Z.of_nat n) m = Ret dst (mwrite m dst (strncpy_image n l)).
Proof.
  intros H Hm Hd. unfold strncpy. mgo. loop_body B. rewrite Nat2Z.id.
  enough (forall m dst src l, cstr m src l -> mapped m dst (Z.of_nat n) ->
    dst + Z.of_nat n <= src \/ src + Z.of_nat (length l) < dst ->
    loop (S n) B (dst, src, Z.of_nat n) m = Ret tt (mwrite m dst (strncpy_image n l))) as G
    by (rewrite (G _ _ _ l); done || lia).
  clear. unfold strncpy_image.
  induction n as [|n IH]; intros m dst src l H Hm Hd; rewrite loop_S; unfold B at 1; cbn beta iota.
  { mgo. done. }
  rewrite (proj2 (Z.ltb_lt 0 _)) by lia.
  replace (Z.of_nat (S n) - 1) with (Z.of_nat n) by lia.
  destruct l as [|b l].
  - apply cstr_nil in H as H0. mgo. rewrite stc_ret by (apply Hm; lia). mgo.
    change (byte.of_Z (schar x00)) with x00.
    rewrite (IH _ _ _ []); [|apply cstr_insert_out; simpl in *; [done|lia]|
      apply mapped_insert; eapply mapped_le; [done|lia..]|simpl in *; lia].
    cbn [length take]. rewrite take_nil, Nat.sub_0_r. cbn [app replicate Nat.sub mwrite]. f_equal.
    apply mwrite_insert_comm. lia.
  - apply cstr_cons in H as (Hb & Hs & H). mgo. rewrite stc_ret by (apply Hm; lia). mgo.
    simpl in Hd. rewrite byte_of_schar, (IH _ _ _ l); [|apply cstr_insert_out; [done|lia]|
      apply mapped_insert; eapply mapped_le; [done|lia..]|lia].
    simpl. f_equal. apply mwrite_insert_comm. lia.
Qed.

(** ** The memory routines *)

Lemma u_memset_ret m s c n :
  mapped m s (Z.of_nat n) ->
  memset s c (Z.of_nat n) m = Ret s (mwrite m s (replicate n (byte.of_Z c))).
Proof.
  intros Hm. unfold memset. mgo. loop_body B. rewrite Nat2Z.id.
  enough (forall m s, mapped m s (Z.of_nat n) ->
    loop (S n) B (s, Z.of_nat n) m = Ret tt (mwrite m s (replicate n (byte.of_Z c)))) as G
    by (rewrite G; done).
  clear. induction n as [|n IH]; intros m s Hm; rewrite loop_S; unfold B at 1; cbn beta iota.
  { mgo. done. }
  rewrite (proj2 (Z.ltb_lt 0 _)) by lia.
  replace (Z.of_nat (S n) - 1) with (Z.of_nat n) by lia.
  rewrite stc_ret by (apply Hm; lia). mgo.
  rewrite IH by (apply mapped_insert; eapply mapped_le; [done|lia..]).
  rewrite <- schar_of_Z, byte_of_schar. simpl. f_equal. apply mwrite_insert_comm. lia.
Qed.

Lemma copy_forward_ret m d s l :
  bytes_at m s l -> mapped m d (Z.of_nat (length l)) ->
  d <= s \/ s + Z.of_nat (length l) <= d ->
  copy_forward d s (Z.of_nat (length l)) m = Ret tt (mwrite m d l).
Proof.
  unfold copy_forward. loop_body B. rewrite Nat2Z.id. revert m d s.
  induction l as [|b l IH]; intros m d s H Hm Hd; rewrite loop_S; unfold B at 1; cbn beta iota.
  { mgo. done. }
  destruct H as [Hs H]. cbn [length] in *. rewrite (proj2 (Z.ltb_lt 0 _)) by lia.
  replace (Z.of_nat (S (length l)) - 1) with (Z.of_nat (length l)) by lia.
  mgo. rewrite stc_ret by (apply Hm; lia). mgo. rewrite byte_of_schar.
  rewrite IH; [|apply bytes_at_insert_out; [done|lia]|
    apply mapped_insert; eapply mapped_le; [done|lia..]|lia].
  simpl. f_equal. apply mwrite_insert_comm. lia.
Qed.

Lemma copy_backward_ret m d s l :
  bytes_at m s l -> mapped m d (Z.of_nat (length l)) -> s <= d ->
  copy_backward (d + Z.of_nat (length l)) (s + Z.of_nat (length l)) (Z.of_nat (length l)) m
  = Ret tt (mwrite m d l).
Proof.
  unfold copy_backward. loop_body B. rewrite Nat2Z.id. revert m.
  induction l as [|b l IH] using rev_ind; intros m H Hm Hd.
  { rewrite loop_S; unfold B at 1; cbn beta iota. mgo. done. }
  rewrite length_app in *. cbn [length] in *. rewrite Nat.add_1_r in *.
  rewrite loop_S; unfold B at 1; cbn beta iota. rewrite (proj2 (Z.ltb_lt 0 _)) by lia.
  replace (Z.of_nat (S (length l)) - 1) with (Z.of_nat (length l)) by lia.
  apply bytes_at_app in H as [H [Hs _]].
  replace (s + Z.of_nat (S (length l)) - 1) with (s + Z.of_nat (length l)) by lia.
  replace (d + Z.of_nat (S (length l)) - 1) with (d + Z.of_nat (length l)) by lia.
  mgo. rewrite stc_ret by (apply Hm; lia). mgo. rewrite byte_of_schar.
  rewrite IH; [|apply bytes_at_insert_out; [done|lia]|
    apply mapped_insert; eapply mapped_le; [done|lia..]|lia].
  f_equal. rewrite mwrite_snoc. apply mwrite_insert_comm. lia.
Qed.

Lemma u_memmove_ret m dst src l :
  bytes_at m src l -> mapped m dst (Z.of_nat (length l)) ->
  memmove dst src (Z.of_nat (length l)) m = Ret dst (mwrite m dst l).
Proof.
  intros H Hm. unfold memmove.
  destruct (Z.ltb_spec src dst); [destruct (Z.ltb_spec dst (src + Z.of_nat (length l)))|]; simpl.
  - mrun (copy_backward_ret m dst src l H Hm ltac:(lia)). done.
  - mrun (copy_forward_ret m dst src l H Hm ltac:(lia)). done.
  - mrun (copy_forward_ret m dst src l H Hm ltac:(lia)). done.
Qed.

Lemma memcpy_ret m dst src l :
  bytes_at m src l -> mapped m dst (Z.of_nat (length l)) ->
  dst <= src \/ src + Z.of_nat (length l) <= dst ->
  memcpy dst src (Z.of_nat (length l)) m = Ret dst (mwrite m dst l).
Proof. intros H Hm Hd. unfold memcpy. mrun (copy_forward_ret m dst src l H Hm Hd). done. Qed.

Lemma u_memcmp_ret m v1 v2 l1 l2 :
  bytes_at m v1 l1 -> bytes_at m v2 l2 -> length l1 = length l2 ->
  memcmp v1 v2 (Z.of_nat (length l1)) m = Ret (bcmp uchar l1 l2) m.
Proof.
  unfold memcmp. loop_body B. rewrite Nat2Z.id. revert v1 v2 l2.
  induction l1 as [|b l1 IH]; intros v1 v2 [|c l2] H1 H2 Hl; try done;
    rewrite loop_S; unfold B at 1; cbn beta iota.
  destruct H1 as [Hb H1], H2 as [Hc H2]. injection Hl as Hl. cbn [length].
  rewrite (proj2 (Z.ltb_lt 0 _)) by lia.
  replace (Z.of_nat (S (length l1)) - 1) with (Z.of_nat (length l1)) by lia.
  cbn [bcmp]. case_decide as E.
  - subst c. mgo. by apply IH.
  - mgo. by rewrite uchar_diff_s32.
Qed.

(** ** [strtol] *)

(** The value of a digit of the given base. *)
Definition dig_of (base : Z) (b : byte) : option Z :=
  match strtol_dig (schar b) with
  | Some d => if base <=? d then None else Some d
  | None => None
  end.

(** [blank] and [lead] are the characters that [strtol] skips or takes as a sign. *)
Definition blank (b : byte) : bool := (schar b =? ch " ") || (schar b =? 9).
Definition lead (b : byte) : bool := blank b || (schar b =? ch "+") || (schar b =? ch "-").

(** The optional sign, and the base prefix [pre] in front of [k]. *)
Inductive strtol_sign : list byte -> bool -> list byte -> Prop :=
  | sign_plus k : strtol_sign (str "+") false k
  | sign_minus k : strtol_sign (str "-") true k
  | sign_none k : lead (hd x00 k) = false -> strtol_sign [] false k.

Inductive strtol_prefix : Z -> list byte -> list byte -> Z -> Prop :=
  | prefix_hex base k : base = 0 \/ base = 16 -> strtol_prefix base (str "0x") k 16
  | prefix_oct k : schar (hd x00 k) <> ch "x" -> strtol_prefix 0 (str "0") k 8
  | prefix_dec k : schar (hd x00 k) <> ch "0" -> strtol_prefix 0 [] k 10
  | prefix_none base k : base <> 0 -> (base = 16 -> schar (hd x00 k) = ch "0" ->
      schar (hd x00 (tl k)) <> ch "x") -> strtol_prefix base [] k base.

Lemma strtol_dig_nonneg c d : strtol_dig c = Some d -> 0 <= d.
Proof.
  unfold strtol_dig. unch. intros H.
  repeat match type of H with context [?a <=? ?b] => destruct (Z.leb_spec a b) end; simpl in H; simplify_eq; lia.
Qed.

Lemma dig_of_nonneg base ds vs :
  Forall2 (fun b v => dig_of base b = Some v) ds vs -> Forall (fun d => 0 <= d) vs.
Proof.
  induction 1 as [|b v ? ? Hb]; constructor; [|done]. unfold dig_of in Hb.
  destruct (strtol_dig _) as [x|] eqn:E; [|done].
  destruct (base <=? x); simplify_eq. by eapply strtol_dig_nonneg.
Qed.

Lemma strtol_digits_ret m s base ds vs rest :
  cstr m s (ds ++ rest) -> Forall2 (fun b v => dig_of base b = Some v) ds vs ->
  dig_of base (hd x00 rest) = None -> 1 <= base -> digits_from base 0 vs < 2 ^ 63 ->
  strtol_digits s base m = Ret (digits_from base 0 vs, s + Z.of_nat (length ds)) m.
Proof.
  intros H Hds Hr Hb Hv. pose proof (cstr_size _ _ _ H) as Hf. rewrite length_app in Hf.
  unfold strtol_digits. start_scan B.
  enough (forall fuel s v, 0 <= v -> cstr m s (ds ++ rest) -> digits_from base v vs < 2 ^ 63 ->
    (length ds < fuel)%nat ->
    loop fuel B (s, v) m = Ret (digits_from base v vs, s + Z.of_nat (length ds)) m) as G
    by (apply G; done || lia).
  clear H Hv Hf s.
  induction Hds as [|b d ds vs Hd Hds IH]; intros [|fuel] s v Hv H Hlt Hf; cbn [length app] in *; try lia;
    rewrite loop_S; unfold B at 1; cbn beta iota.
  - apply cstr_hd in H. mgo. revert Hr. unfold dig_of. destruct (strtol_dig _) as [d|].
    + destruct (base <=? d); [|done]. intros _. mgo. simpl. by rewrite Z.add_0_r.
    + intros _. mgo. simpl. by rewrite Z.add_0_r.
  - apply cstr_cons in H as (_ & Hs & H). mgo. unfold dig_of in Hd.
    destruct (strtol_dig _) as [d'|] eqn:Ed; [|done]. apply strtol_dig_nonneg in Ed.
    destruct (base <=? d'); [done|]. injection Hd as ->.
    change (digits_from base v (d :: vs)) with (digits_from base (v * base + d) vs) in *.
    assert (0 <= v * base) by nia.
    assert (v * base + d <= digits_from base (v * base + d) vs).
    { apply digits_from_ge; [done|lia|]. by eapply dig_of_nonneg. }
    rewrite schk_ret by (unfold_int; lia). mgo.
    rewrite IH by (done || lia). f_equal. f_equal. lia.
Qed.

Lemma digits_from_nonneg base ds vs :
  Forall2 (fun b v => dig_of base b = Some v) ds vs -> 1 <= base -> 0 <= digits_from base 0 vs.
Proof. intros H Hb. apply digits_from_ge; [done|lia|]. by eapply dig_of_nonneg. Qed.

Lemma strtol_skip_ret m s ws k :
  cstr m s (ws ++ k) -> Forall (fun b => blank b = true) ws -> blank (hd x00 k) = false ->
  strtol_skip s m = Ret (s + Z.of_nat (length ws)) m.
Proof.
  intros H Hws Hk. pose proof (cstr_size _ _ _ H) as Hf. rewrite length_app in Hf.
  unfold strtol_skip. start_scan B. assert (length ws < S (size m))%nat as Hf' by lia. clear Hf.
  revert s H Hf'. generalize (S (size m)) as fuel. unfold blank in *.
  induction ws as [|b ws IH]; intros [|fuel] s H Hf; cbn [length app] in *; try lia;
    rewrite loop_S; unfold B at 1; cbn beta iota.
  - apply cstr_hd in H. mgo. rewrite Hk. simpl. by rewrite Z.add_0_r.
  - apply cstr_cons in H as (_ & Hs & H). apply List.Forall_cons_iff in Hws as [Hb Hws].
    mgo. rewrite Hb. rewrite IH by (done || lia). f_equal. lia.
Qed.

Lemma strtol_sign_blank sg neg k : strtol_sign sg neg k -> blank (hd x00 (sg ++ k)) = false.
Proof. intros [| |? Hl]; simpl; try done. unfold lead in Hl. by destruct (blank _). Qed.

Lemma strtol_sgn_ret m s sg neg k :
  cstr m s (sg ++ k) -> strtol_sign sg neg k ->
  strtol_sgn s m = Ret (s + Z.of_nat (length sg), neg) m.
Proof.
  intros H Hs. apply cstr_hd in H. unfold strtol_sgn. mgo. f_equal.
  destruct Hs as [| |k Hl]; [done..|]. simpl. rewrite Z.add_0_r. unfold lead in Hl.
  destruct (blank _); [done|]. destruct (_ =? ch "+"); [done|]. by destruct (_ =? ch "-").
Qed.

Lemma strtol_pre_ret m s base pre k base' :
  cstr m s (pre ++ k) -> strtol_prefix base pre k base' ->
  strtol_pre s base m = Ret (s + Z.of_nat (length pre), base') m.
Proof.
  intros H Hp. unfold strtol_pre. pose proof (cstr_hd _ _ _ H) as H0.
  destruct Hp as [base k Hb|k Hx|k Hx|base k Hb Hx]; cbn [app hd] in H0.
  - apply (cstr_app_r _ _ (str "0")) in H. apply cstr_hd in H.
    change (Z.of_nat (length (str "0"))) with 1 in H.
    destruct Hb as [-> | ->]; mgo; simpl; mgo; done.
  - apply (cstr_app_r _ _ (str "0")) in H. apply cstr_hd in H.
    change (Z.of_nat (length (str "0"))) with 1 in H. mgo; simpl; mgo.
    rewrite (proj2 (Z.eqb_neq _ _)) by done. done.
  - simpl. mgo. rewrite (proj2 (Z.eqb_neq _ _)) by done. mgo. simpl. by rewrite Z.add_0_r.
  - rewrite (proj2 (Z.eqb_neq base 0)) by done. simpl. destruct (Z.eqb_spec base 16) as [->|]; mgo.
    + destruct k as [|b k]; [mgo; simpl; by rewrite Z.add_0_r|]. simpl in *.
      destruct (Z.eqb_spec (schar b) (ch "0")); [|mgo; by rewrite Z.add_0_r].
      apply cstr_cons in H as (_ & _ & H). apply cstr_hd in H. mgo.
      rewrite (proj2 (Z.eqb_neq _ _)) by auto. by rewrite Z.add_0_r.
    + simpl. by rewrite Z.add_0_r.
Qed.

(** The whole of [strtol]: blanks, sign, base prefix, digits. *)
Lemma u_strtol_ret m s base base' neg ws sg pre ds vs rest :
  cstr m s (ws ++ sg ++ pre ++ ds ++ rest) ->
  Forall (fun b => blank b = true) ws ->
  strtol_sign sg neg (pre ++ ds ++ rest) ->
  strtol_prefix base pre (ds ++ rest) base' ->
  Forall2 (fun b v => dig_of base' b = Some v) ds vs ->
  dig_of base' (hd x00 rest) = None -> 1 <= base' -> digits_from base' 0 vs < 2 ^ 63 ->
  strtol s base m =
    Ret ((if neg then -1 else 1) * digits_from base' 0 vs,
         s + Z.of_nat (length (ws ++ sg ++ pre ++ ds))) m.
Proof.
  intros H Hws Hsg Hpre Hds Hrest Hb Hlt. unfold strtol.
  apply cstr_app_r in H as H1. apply cstr_app_r in H1 as H2. apply cstr_app_r in H2 as H3.
  pose proof (digits_from_nonneg _ _ _ Hds Hb).
  mrun (strtol_skip_ret m s ws _ H Hws (strtol_sign_blank _ _ _ Hsg)).
  mrun (strtol_sgn_ret m _ sg neg _ H1 Hsg).
  mrun (strtol_pre_ret m _ base pre _ base' H2 Hpre).
  mrun (strtol_digits_ret m _ base' ds vs rest H3 Hds Hrest Hb Hlt).
  rewrite !length_app, !Nat2Z.inj_add. destruct neg; mgo; f_equal; f_equal; lia.
Qed.

(** ** Correctness *)

(** The block of memory at [dst] holds [l], and nothing else has changed. *)
Definition only_block (m m' : mem) (dst : Z) (l : list byte) : Prop :=
  bytes_at m' dst l /\
  forall a, a < dst \/ dst + Z.of_nat (length l) <= a -> m' !! a = m !! a.

Lemma only_block_mwrite m dst l : only_block m (mwrite m dst l) dst l.
Proof. split; [apply bytes_at_mwrite|intros a; apply mwrite_out]. Qed.

(** [memmove] returns [dst], leaves there the bytes that were at [src],
    whatever the overlap of the two regions, and changes no other byte. *)
Theorem u_memmove_correct m dst src l :
  bytes_at m src l -> mapped m dst (Z.of_nat (length l)) ->
  exists m', memmove dst src (Z.of_nat (length l)) m = Ret dst m' /\ only_block m m' dst l.
Proof.
  intros H Hd. eexists. split; [by apply u_memmove_ret|]. apply only_block_mwrite.
Qed.

(** Overlapping regions, the destination above the source. *)
Lemma u_memmove_correct_witness :
  exists m', memmove 102 100 4 (mwrite ∅ 100 (str "abcdef")) = Ret 102 m' /\
    only_block (mwrite ∅ 100 (str "abcdef")) m' 102 (str "abcd").
Proof.
  apply (u_memmove_correct (mwrite ∅ 100 (str "abcdef")) 102 100 (str "abcd")).
  - apply (bool_decide_unpack _). vm_compute. exact I.
  - apply (mapped_le _ 100 6); [|cbn; lia..]. apply (bytes_at_mapped _ _ (str "abcdef")).
    apply bytes_at_mwrite.
Defined.

(** [strcmp] is zero exactly on equal strings, is antisymmetric, and never
    leaves the range of a difference of two unsigned chars. *)
Theorem u_strcmp_order m s1 s2 l1 l2 :
  cstr m s1 l1 -> cstr m s2 l2 ->
  exists r, strcmp s1 s2 m = Ret r m /\ strcmp s2 s1 m = Ret (- r) m /\
    (r = 0 <-> l1 = l2) /\ -256 < r < 256.
Proof.
  intros H1 H2. exists (bcmp uchar l1 l2).
  rewrite (u_strcmp_ret _ _ _ _ _ H1 H2), (u_strcmp_ret _ _ _ _ _ H2 H1), (bcmp_antisym _ l2).
  destruct H1 as [N1 _], H2 as [N2 _].
  split_and!; [done|done|..|apply bcmp_uchar_range|apply bcmp_uchar_range].
  apply bcmp_eq0; auto using uchar_inj.
Qed.

Lemma u_strcmp_order_witness :
  let m := mwrite (mwrite ∅ 100 (str "ab" ++ [x00])) 200 (str "abc" ++ [x00]) in
  exists r, strcmp 100 200 m = Ret r m /\ strcmp 200 100 m = Ret (- r) m /\
    (r = 0 <-> str "ab" = str "abc") /\ -256 < r < 256.
Proof.
  intros m. apply (u_strcmp_order m 100 200 (str "ab") (str "abc"));
    apply (bool_decide_unpack _); vm_compute; exact I.
Defined.

(** [strcat] appends the string at [src] to the one at [dst], terminated,
    and writes nowhere else; the value it returns is the address of the old
    terminator, not [dst]. *)
Theorem u_strcat_correct m dst src l k :
  cstr m dst k -> cstr m src l ->
  mapped m dst (Z.of_nat (length k) + Z.of_nat (length l) + 1) ->
  dst + Z.of_nat (length k + length l) < src \/ src + Z.of_nat (length l) < dst ->
  exists m', strcat dst src m = Ret (dst + Z.of_nat (length k)) m' /\
    cstr m' dst (k ++ l) /\ only_block m m' dst (k ++ l ++ [x00]).
Proof.
  intros Hk Hl Hm Hd. eexists. split; [by apply strcat_ret|].
  split; [|apply only_block_mwrite]. rewrite app_assoc. apply cstr_mwrite.
  destruct Hk as [Nk _], Hl as [Nl _]. by apply Forall_app.
Qed.

Lemma u_strcat_correct_witness :
  let m := mwrite (mwrite ∅ 100 (str "ab" ++ replicate 4 x00)) 200 (str "cd" ++ [x00]) in
  exists m', strcat 100 200 m = Ret 102 m' /\
    cstr m' 100 (str "abcd") /\ only_block m m' 100 (str "abcd" ++ [x00]).
Proof.
  intros m. apply (u_strcat_correct m 100 200 (str "cd") (str "ab")).
  - apply (bool_decide_unpack _); vm_compute; exact I.
  - apply (bool_decide_unpack _); vm_compute; exact I.
  - apply mapped_mwrite. apply (mapped_le _ 100 6); [|cbn; lia..].
    apply (bytes_at_mapped _ _ (str "ab" ++ replicate 4 x00)). apply bytes_at_mwrite.
  - left. cbn. lia.
Defined.

(** [strtol] skips blanks, takes an optional sign and the prefix of the
    base, and returns the signed value of the longest digit string that
    follows, and the address after it. *)
Theorem u_strtol_correct m s base base' neg ws sg pre ds vs rest :
  cstr m s (ws ++ sg ++ pre ++ ds ++ rest) ->
  Forall (fun b => blank b = true) ws ->
  strtol_sign sg neg (pre ++ ds ++ rest) ->
  strtol_prefix base pre (ds ++ rest) base' ->
  Forall2 (fun b v => dig_of base' b = Some v) ds vs ->
  dig_of base' (hd x00 rest) = None -> 1 <= base' -> digits_from base' 0 vs < 2 ^ 63 ->
  strtol s base m =
    Ret ((if neg then -1 else 1) * digits_from base' 0 vs,
         s + Z.of_nat (length (ws ++ sg ++ pre ++ ds))) m.
Proof. apply u_strtol_ret. Qed.

(** [" -0x1fz"] in base 0 is -31, and the scan stops at the [z]. *)
Lemma u_strtol_correct_witness :
  let m := mwrite ∅ 100 (str " -0x1fz" ++ [x00]) in strtol 100 0 m = Ret (-31, 106) m.
Proof.
  intros m.
  apply (u_strtol_correct m 100 0 16 true (str " ") (str "-") (str "0x") (str "1f") [1; 15] (str "z")).
  - apply (bool_decide_unpack _); vm_compute; exact I.
  - by repeat constructor.
  - apply sign_minus.
  - apply prefix_hex. by left.
  - by repeat constructor.
  - reflexivity.
  - lia.
  - vm_compute. reflexivity.
Defined.
