(* ===== verification/UPrintfmt.v ===== *)
(** * Formatted output of ucore (lib/printfmt.c)

    [vprintfmt] formats into a local buffer of 1024 bytes and then hands the
    buffer, up to its first NUL, to the caller's [putch].  The formatter's state
    is the memory it reads the format and the strings from, the part of the
    buffer written so far (a write past its end is undefined), and the list of
    arguments still to be taken, each a 64-bit slot. *)

From S2P Require Import Prelude CMem Digits UString.
From coqutil Require Import Word.LittleEndianList.

(** ** Error numbers (include/error.h) and their texts *)

Abbreviation E_INVAL := (3)%Z.
Abbreviation E_PANIC := (10)%Z.
Abbreviation MAXERROR := (24)%Z.

Definition error_string (e : Z) : option string :=
  match e with
  | 1 => Some "unspecified error"%string
  | 2 => Some "bad process"%string
  | 3 => Some "invalid parameter"%string
  | 4 => Some "out of memory"%string
  | 5 => Some "out of processes"%string
  | 6 => Some "segmentation fault"%string
  | 8 => Some "invalid elf file"%string
  | 9 => Some "process is killed"%string
  | 10 => Some "panic failure"%string
  | 13 => Some "no such device"%string
  | 14 => Some "device not available"%string
  | 15 => Some "device/file is busy"%string
  | 16 => Some "no such file or directory"%string
  | 17 => Some "is a directory"%string
  | 18 => Some "not a directory"%string
  | 19 => Some "cross device link"%string
  | 20 => Some "unimplemented feature"%string
  | 21 => Some "illegal seek"%string
  | 22 => Some "too many files are open"%string
  | 23 => Some "file or directory already exists"%string
  | 24 => Some "directory is not empty"%string
  | _ => None
  end.

(** ** The formatter's state *)

Record fstate : Type := FState {
  f_mem : mem;
  f_out : list byte;
  f_args : list Z
}.
Definition set_fmem (m : mem) (s : fstate) : fstate := FState m (f_out s) (f_args s).
Definition onfmem {A} (f : M mem A) : M fstate A := zoom f_mem set_fmem f.

(** [sizeof(buf)] *)
Definition BUFSIZE : nat := 1024.

(** [*str++ = c] *)
Definition emit (c : Z) : M fstate unit := fun s =>
  if decide (length (f_out s) < BUFSIZE)%nat
  then Ret tt (FState (f_mem s) (f_out s ++ [byte.of_Z c]) (f_args s)) else Ub.

(** A loop that emits the same character [n] times. *)
Fixpoint emit_n (n : nat) (c : Z) : M fstate unit :=
  match n with O => mret tt | S n => _ ← emit c; emit_n n c end.
Fixpoint emit_list (l : list byte) : M fstate unit :=
  match l with [] => mret tt | b :: l => _ ← emit (uchar b); emit_list l end.

(** [va_arg], before the conversion to the type asked for. *)
Definition va_arg : M fstate Z := fun s =>
  match f_args s with
  | a :: l => Ret a (FState (f_mem s) (f_out s) l)
  | [] => Ub
  end.

Definition isdigit (c : Z) : bool := (ch "0" <=? c) && (c <=? ch "9").

(** The number and the position after it. *)
Definition skip_atoi (s : Z) : M mem (Z * Z) :=
  fuel ← scan_fuel;
  loop fuel (fun '(s, i) =>
    c ← ldc s;
    if isdigit c then
      i ← schk 32 (i * 10);
      i ← schk 32 (i + c);
      i ← schk 32 (i - ch "0");
      mret (inl (s + 1, i))
    else mret (inr (i, s))) (s, 0).

Abbreviation ZEROPAD := (1)%Z.
Abbreviation SIGN := (2)%Z.
Abbreviation PLUS := (4)%Z.
Abbreviation SPACE := (8)%Z.
Abbreviation LEFT := (16)%Z.
Abbreviation SMALL := (32)%Z.
Abbreviation SPECIAL := (64)%Z.

(** [type & flag] *)
Definition has (type flag : Z) : bool := negb (Z.land type flag =? 0).

(** [digits[r] | locase] *)
Definition digit_char (locase r : Z) : Z :=
  Z.lor (if r <? 10 then ch "0" + r else ch "A" + (r - 10)) locase.

(** The digits of an unsigned long, least significant first: [tmp]. *)
Fixpoint number_digits (fuel : nat) (locase base n : Z) : list Z :=
  match fuel with
  | O => []
  | S fuel =>
      if n =? 0 then [] else digit_char locase (n mod base) :: number_digits fuel locase base (n / base)
  end.

(** [size] after the loop [while (size-- > 0)]. *)
Definition ran_down (size : Z) : Z := Z.min size 0 - 1.

(** The sign character (0 for none) and the absolute value. *)
Definition number_sign (num type : Z) : M fstate (Z * Z) :=
  if has type SIGN then
    if num <? 0 then n ← schk 64 (- num); mret (ch "-", n)
    else if has type PLUS then mret (ch "+", num)
    else if has type SPACE then mret (ch " ", num)
    else mret (0, num)
  else mret (0, num).

(** [tmp] has 66 characters, enough for the 64 binary digits of a long.  For a
    base out of range the function returns NULL, which the caller stores through. *)
Definition number (num base size precision type : Z) : M fstate unit :=
  let locase := Z.land type SMALL in
  let type := if has type LEFT then Z.land type (Z.lnot ZEROPAD) else type in
  if (base <? 2) || (16 <? base) then ub
  else
    let c := if has type ZEROPAD then ch "0" else ch " " in
    '(sign, num) ← number_sign num type;
    size ← schk 32 (if sign =? 0 then size else size - 1);
    size ← schk 32 (if has type SPECIAL then
                      if base =? 16 then size - 2 else if base =? 8 then size - 1 else size
                    else size);
    let tmp := if num =? 0 then [ch "0"] else number_digits 66 locase base (u64 num) in
    let i := Z.of_nat (length tmp) in
    let precision := Z.max i precision in
    size ← schk 32 (size - precision);
    let blanks := negb (has type (ZEROPAD + LEFT)) in
    _ ← (if blanks then emit_n (Z.to_nat size) (ch " ") else mret tt);
    let size := if blanks then ran_down size else size in
    _ ← (if sign =? 0 then mret tt else emit sign);
    _ ← (if has type SPECIAL then
           if base =? 8 then emit (ch "0")
           else if base =? 16 then _ ← emit (ch "0"); emit (Z.lor (ch "X") locase)
           else mret tt
         else mret tt);
    let padded := negb (has type LEFT) in
    _ ← (if padded then emit_n (Z.to_nat size) c else mret tt);
    let size := if padded then ran_down size else size in
    _ ← emit_n (Z.to_nat (precision - i)) (ch "0");
    _ ← emit_list (byte.of_Z <$> rev tmp);
    emit_n (Z.to_nat size) (ch " ").

(** ** Conversion specifications *)

(** The flags after the percent sign at [fmt], and the position after them. *)
Definition get_flags (fmt : Z) : M mem (Z * Z) :=
  fuel ← scan_fuel;
  loop fuel (fun '(fmt, flags) =>
    let fmt := fmt + 1 in
    c ← ldc fmt;
    mret (if c =? ch "-" then inl (fmt, Z.lor flags LEFT)
          else if c =? ch "+" then inl (fmt, Z.lor flags PLUS)
          else if c =? ch " " then inl (fmt, Z.lor flags SPACE)
          else if c =? ch "#" then inl (fmt, Z.lor flags SPECIAL)
          else if c =? ch "0" then inl (fmt, Z.lor flags ZEROPAD)
          else inr (fmt, flags))) (fmt, 0).

Definition get_width (fmt flags : Z) : M fstate (Z * Z * Z) :=
  c ← onfmem (ldc fmt);
  if isdigit c then '(w, fmt) ← onfmem (skip_atoi fmt); mret (fmt, w, flags)
  else if c =? ch "*" then
    a ← va_arg;
    let w := s32 a in
    if w <? 0 then w ← schk 32 (- w); mret (fmt + 1, w, Z.lor flags LEFT)
    else mret (fmt + 1, w, flags)
  else mret (fmt, -1, flags).

Definition get_precision (fmt : Z) : M fstate (Z * Z) :=
  c ← onfmem (ldc fmt);
  if c =? ch "." then
    let fmt := fmt + 1 in
    c ← onfmem (ldc fmt);
    '(fmt, p) ← (if isdigit c then '(p, fmt) ← onfmem (skip_atoi fmt); mret (fmt, p)
                 else if c =? ch "*" then a ← va_arg; mret (fmt + 1, s32 a)
                 else mret (fmt, -1));
    mret (fmt, Z.max p 0)
  else mret (fmt, -1).

(** The qualifier character, -1 for none. *)
Definition get_qualifier (fmt : Z) : M fstate (Z * Z) :=
  c ← onfmem (ldc fmt);
  if (c =? ch "h") || (c =? ch "l") || (c =? ch "L") then mret (fmt + 1, c) else mret (fmt, -1).

Definition conv_c (flags width : Z) : M fstate unit :=
  let left := has flags LEFT in
  _ ← (if left then mret tt else emit_n (Z.to_nat (width - 1)) (ch " "));
  let width := if left then width else Z.min (width - 1) 0 in
  a ← va_arg;
  _ ← emit (u8 a);
  emit_n (Z.to_nat (width - 1)) (ch " ").

(** The bytes of the string, one at a time. *)
Fixpoint emit_mem (n : nat) (s : Z) : M fstate unit :=
  match n with
  | O => mret tt
  | S n => c ← onfmem (ldc s); _ ← emit c; emit_mem n (s + 1)
  end.

Definition conv_s (flags width precision : Z) : M fstate unit :=
  s ← va_arg;
  n ← onfmem (strnlen s (u64 precision));
  let len := s32 n in
  let left := has flags LEFT in
  _ ← (if left then mret tt else emit_n (Z.to_nat (width - len)) (ch " "));
  let width := if left then width else Z.min width len - 1 in
  _ ← emit_mem (Z.to_nat len) s;
  emit_n (Z.to_nat (width - len)) (ch " ").

Definition conv_p (flags width precision : Z) : M fstate unit :=
  let '(width, flags) := if width =? -1 then (16, Z.lor flags ZEROPAD) else (width, flags) in
  a ← va_arg;
  number (s64 a) 16 width precision flags.

(** [*ip = str - buf], a [long] or an [int]. *)
Definition conv_n (qualifier : Z) : M fstate unit :=
  p ← va_arg;
  n ← gets (fun s => Z.of_nat (length (f_out s)));
  let bytes := le_split (if qualifier =? ch "l" then 8 else 4) n in
  onfmem (fun m => if decide (mread m p (length bytes) = None) then Ub else Ret tt (mwrite m p bytes)).

(** The argument of a numeric conversion, and its printing. *)
Definition conv_num (base flags width precision qualifier : Z) : M fstate unit :=
  a ← va_arg;
  let num :=
    if qualifier =? ch "l" then u64 a
    else if qualifier =? ch "h" then
      if has flags SIGN then u64 (s16 (u16 a)) else u16 a
    else if has flags SIGN then u64 (s32 a) else u32 a in
  number (s64 num) base width precision flags.

(** The [switch] on the conversion character [c] at [fmt]; the position of the
    last character consumed. *)
Definition convert (c fmt flags width precision qualifier : Z) : M fstate Z :=
  if c =? ch "c" then _ ← conv_c flags width; mret fmt
  else if c =? ch "s" then _ ← conv_s flags width precision; mret fmt
  else if c =? ch "p" then _ ← conv_p flags width precision; mret fmt
  else if c =? ch "n" then _ ← conv_n qualifier; mret fmt
  else if c =? ch "%" then _ ← emit (ch "%"); mret fmt
  else if c =? ch "o" then _ ← conv_num 8 flags width precision qualifier; mret fmt
  else if c =? ch "x" then _ ← conv_num 16 (Z.lor flags SMALL) width precision qualifier; mret fmt
  else if c =? ch "X" then _ ← conv_num 16 flags width precision qualifier; mret fmt
  else if (c =? ch "d") || (c =? ch "i") then
    _ ← conv_num 10 (Z.lor flags SIGN) width precision qualifier; mret fmt
  else if c =? ch "u" then _ ← conv_num 10 flags width precision qualifier; mret fmt
  else
    _ ← emit (ch "%");
    if c =? 0 then mret (fmt - 1) else _ ← emit c; mret fmt.

(** One conversion specification at [fmt]; the position of its last character. *)
Definition directive (fmt : Z) : M fstate Z :=
  '(fmt, flags) ← onfmem (get_flags fmt);
  '(fmt, width, flags) ← get_width fmt flags;
  '(fmt, precision) ← get_precision fmt;
  '(fmt, qualifier) ← get_qualifier fmt;
  c ← onfmem (ldc fmt);
  convert c fmt flags width precision qualifier.

(** The loop over the format string: each iteration consumes a character. *)
Definition format (fmt : Z) : M fstate unit :=
  fuel ← onfmem scan_fuel;
  loop fuel (fun fmt =>
    c ← onfmem (ldc fmt);
    if c =? 0 then mret (inr tt)
    else if c =? ch "%" then fmt ← directive fmt; mret (inl (fmt + 1))
    else _ ← emit c; mret (inl (fmt + 1))) fmt.

(** ** Output through [putch] *)

(** What the loop [for (str = buf; *str; ++str)] visits. *)
Fixpoint upto_nul (l : list byte) : list byte :=
  match l with
  | [] => []
  | b :: l => if decide (b = x00) then [] else b :: upto_nul l
  end.

Section Vprintfmt.
(** The caller's state, its memory, and the function it passes. *)
Context {S : Type} (getm : S -> mem) (setm : mem -> S -> S) (putch : Z -> M S unit).

Fixpoint putall (l : list byte) : M S unit :=
  match l with [] => mret tt | b :: l => _ ← putch (schar b); putall l end.

(** [*str = 0] needs one more byte of the buffer. *)
Definition vprintfmt (fmt : Z) (ap : list Z) : M S unit := fun s =>
  match format fmt (FState (getm s) [] ap) with
  | Ret _ f =>
      if decide (length (f_out f) < BUFSIZE)%nat
      then (_ ← putall (upto_nul (f_out f)); putch 0) (setm (f_mem f) s) else Ub
  | Halt c f => Halt c (setm (f_mem f) s)
  | Ub => Ub
  | Spin => Spin
  end.
End Vprintfmt.

(** ** Output to a string *)

Record sprintbuf : Type := SprintBuf {
  sb_mem : mem;
  sb_buf : Z;
  sb_ebuf : Z;
  sb_cnt : Z
}.

Definition set_sbmem (m : mem) (b : sprintbuf) : sprintbuf :=
  SprintBuf m (sb_buf b) (sb_ebuf b) (sb_cnt b).

Definition sprintputch (c : Z) : M sprintbuf unit :=
  b ← get;
  cnt ← schk 32 (sb_cnt b + 1);
  _ ← put (SprintBuf (sb_mem b) (sb_buf b) (sb_ebuf b) cnt);
  if sb_buf b <? sb_ebuf b then
    _ ← zoom sb_mem set_sbmem (stc (sb_buf b) c);
    modify (fun b => SprintBuf (sb_mem b) (sb_buf b + 1) (sb_ebuf b) (sb_cnt b))
  else mret tt.

Definition vsnprintf (str size fmt : Z) (ap : list Z) : M mem Z := fun m =>
  let b := SprintBuf m str (str + size - 1) 0 in
  if (str =? 0) || (sb_ebuf b <? sb_buf b) then Ret (- E_INVAL) m
  else
    match vprintfmt sb_mem set_sbmem sprintputch fmt ap b with
    | Ret _ b => (_ ← stc (sb_buf b) 0; mret (sb_cnt b)) (sb_mem b)
    | Halt c b => Halt c (sb_mem b)
    | Ub => Ub
    | Spin => Spin
    end.
Definition snprintf (str size fmt : Z) (ap : list Z) : M mem Z := vsnprintf str size fmt ap.

(** The formatter with the arguments spelled out. *)
Definition printfmt {S} (getm : S -> mem) (setm : mem -> S -> S) (putch : Z -> M S unit)
    (fmt : Z) (args : list Z) : M S unit := vprintfmt getm setm putch fmt args.

(** ** Numbers in the older interface *)

(** An argument of the size [lflag] tells. *)
Definition getuint (lflag : Z) : M fstate Z :=
  a ← va_arg;
  mret (if 2 <=? lflag then u64 a else if negb (lflag =? 0) then u64 a else u32 a).
Definition getint (lflag : Z) : M fstate Z :=
  a ← va_arg;
  mret (if 2 <=? lflag then s64 a else if negb (lflag =? 0) then s64 a else s32 a).

Section Printnum.
Context {S : Type} (putch : Z -> M S unit).

(** [while (--width > 0) putch(padc)] *)
Fixpoint pad (n : nat) (padc : Z) : M S unit :=
  match n with O => mret tt | Datatypes.S n => _ ← putch padc; pad n padc end.

(** The recursion drops a digit; 64 levels are enough for base 2 and up. *)
Fixpoint printnum (fuel : nat) (num base width padc : Z) : M S unit :=
  match fuel with
  | O => spin
  | Datatypes.S fuel =>
      _ ← (if base <=? num then printnum fuel (num / base) base (width - 1) padc
           else pad (Z.to_nat (width - 1)) padc);
      let mod_ := num mod base in
      putch (if mod_ <? 10 then ch "0" + mod_ else ch "a" + (mod_ - 10))
  end.
End Printnum.

(** ** The buffer *)

Lemma emit_ret m out args c :
  (length out < BUFSIZE)%nat ->
  emit c (FState m out args) = Ret tt (FState m (out ++ [byte.of_Z c]) args).
Proof. intros H. unfold emit. simpl. by rewrite decide_True. Qed.

Lemma emit_n_ret m out args n c :
  (length out + n <= BUFSIZE)%nat ->
  emit_n n c (FState m out args) = Ret tt (FState m (out ++ replicate n (byte.of_Z c)) args).
Proof.
  revert out. induction n as [|n IH]; intros out H; simpl; [by rewrite app_nil_r|].
  mrun (emit_ret m out args c ltac:(lia)). rewrite IH; [by rewrite <- app_assoc|].
  rewrite length_app. simpl. lia.
Qed.

Lemma emit_list_ret m out args l :
  (length out + length l <= BUFSIZE)%nat ->
  emit_list l (FState m out args) = Ret tt (FState m (out ++ l) args).
Proof.
  revert out. induction l as [|b l IH]; intros out H; cbn [emit_list length] in *; [by rewrite app_nil_r|].
  mrun (emit_ret m out args (uchar b) ltac:(lia)).
  rewrite byte_of_uchar, IH; [by rewrite <- app_assoc|]. rewrite length_app. simpl. lia.
Qed.

(** ** Output to a string *)

Lemma upto_nul_nonul l : nonul (upto_nul l).
Proof. induction l as [|b l IH]; simpl; [constructor|]. case_decide; [constructor|by constructor]. Qed.

Lemma upto_nul_length l : (length (upto_nul l) <= length l)%nat.
Proof. induction l as [|b l IH]; [done|]. cbn. case_decide; cbn; lia. Qed.

Lemma upto_nul_id l : nonul l -> upto_nul l = l.
Proof.
  induction 1 as [|b l Hb Hl IH]; simpl; [done|]. by rewrite decide_False, IH.
Qed.

Lemma sprintputch_ret m p e n b :
  in_s 32 (n + 1) -> mapped m p (e - p) ->
  sprintputch (schar b) (SprintBuf m p e n) =
    Ret tt (if decide (p < e) then SprintBuf (<[p := b]> m) (p + 1) e (n + 1) else SprintBuf m p e (n + 1)).
Proof.
  intros Hn Hm. unfold sprintputch. munfold. cbn [sb_cnt sb_mem sb_buf sb_ebuf].
  rewrite schk_ret by done. destruct (Z.ltb_spec p e) as [Hlt|Hge].
  - rewrite decide_True by done. unfold zoom. cbn [sb_mem].
    rewrite stc_ret by (apply Hm; lia). by rewrite byte_of_schar.
  - by rewrite decide_False by lia.
Qed.

(** Everything is counted; what fits before [ebuf] is stored. *)
Lemma sprint_putall m p e n l :
  0 <= n -> n + Z.of_nat (length l) < 2 ^ 31 -> p <= e -> mapped m p (e - p) ->
  putall sprintputch l (SprintBuf m p e n) =
    Ret tt (SprintBuf (mwrite m p (take (Z.to_nat (e - p)) l))
              (p + Z.min (e - p) (Z.of_nat (length l))) e (n + Z.of_nat (length l))).
Proof.
  revert m p n. induction l as [|b l IH]; intros m p n H0 Hn Hpe Hm; cbn [putall length] in *.
  - rewrite take_nil. simpl. munfold. f_equal. f_equal; lia.
  - mrun (sprintputch_ret m p e n b ltac:(unfold_int; lia) Hm). case_decide as Hlt.
    + rewrite IH; [|lia|lia|lia|apply mapped_insert; eapply mapped_le; [exact Hm|lia..]].
      replace (Z.to_nat (e - p)) with (S (Z.to_nat (e - (p + 1)))) by lia. cbn [take mwrite].
      rewrite mwrite_insert_comm by lia. f_equal. f_equal; lia.
    + assert (p = e) as -> by lia. rewrite IH by (done || lia).
      replace (Z.to_nat (e - e)) with 0%nat by lia. cbn [take mwrite]. f_equal. f_equal; lia.
Qed.

Lemma putall_snoc {S} (putch : Z -> M S unit) l b s :
  (_ ← putall putch l; putch (schar b)) s = putall putch (l ++ [b]) s.
Proof.
  revert s. induction l as [|x l IH]; intros s; cbn [putall app].
  - munfold. destruct (putch (schar b) s) as [[]| | |]; done.
  - rewrite bind_assoc. destruct (putch (schar x) s) as [[] s'|c s'| |] eqn:E.
    + rewrite !(bind_ret _ _ _ _ _ E). apply IH.
    + by rewrite !(bind_halt _ _ _ _ _ E).
    + by rewrite !(bind_ub _ _ _ E).
    + unfold mbind, M_bind. by rewrite E.
Qed.

Lemma vsnprintf_ret m str size fmt ap f :
  format fmt (FState m [] ap) = Ret tt f -> (length (f_out f) < BUFSIZE)%nat ->
  str <> 0 -> 1 <= size -> mapped (f_mem f) str size ->
  let t := upto_nul (f_out f) in
  vsnprintf str size fmt ap m =
    Ret (Z.of_nat (length t) + 1)
      (mwrite (f_mem f) str (take (Z.to_nat (size - 1)) (t ++ [x00]) ++ [x00])).
Proof.
  intros Hf Hlen Hs Hsz Hm t. unfold vsnprintf. cbn [sb_buf sb_ebuf].
  rewrite (proj2 (Z.eqb_neq str 0) Hs), (proj2 (Z.ltb_ge _ str)) by lia. cbn [orb].
  unfold vprintfmt. cbn [sb_mem]. rewrite Hf, decide_True by done. fold t.
  assert (length t <= length (f_out f))%nat as Ht.
  { unfold t. clear. induction (f_out f) as [|b l IH]; simpl; [done|]. case_decide; simpl; lia. }
  pose proof (putall_snoc sprintputch t x00) as Hp. change (schar x00) with 0 in Hp.
  rewrite Hp. unfold set_sbmem. cbn [sb_buf sb_ebuf sb_cnt].
  unfold BUFSIZE in Hlen. rewrite sprint_putall; [|lia|rewrite length_app; simpl; lia|lia|eapply mapped_le; [exact Hm|lia..]].
  cbn [sb_mem sb_buf sb_cnt]. replace (str + size - 1 - str) with (size - 1) by lia.
  set (fit := take (Z.to_nat (size - 1)) (t ++ [x00])).
  assert (Z.of_nat (length fit) = Z.min (size - 1) (Z.of_nat (length (t ++ [x00])))) as Hfit.
  { unfold fit. rewrite length_take. lia. }
  rewrite <- Hfit. erewrite bind_ret.
  2:{ apply stc_ret. apply mapped_mwrite with (n := size) (p := str); [done|lia]. }
  rewrite mwrite_snoc. munfold. change (byte.of_Z 0) with x00. f_equal. rewrite length_app. simpl. lia.
Qed.

(** ** Numbers *)

Lemma number_digits_vals fuel locase base n :
  number_digits fuel locase base n = digit_char locase <$> number_vals fuel base n.
Proof.
  revert n. induction fuel as [|fuel IH]; intros n; simpl; [done|]. destruct (n =? 0); [done|].
  simpl. by rewrite IH.
Qed.

(** The digits of [n], most significant first, and the text they make. *)
Definition digits (locase base n : Z) : list byte :=
  (fun d => byte.of_Z (digit_char locase d)) <$> vals base n.

(** [number] without width or precision: the sign and the digits. *)
Lemma number_plain_ret m out args num base type sg v :
  2 <= base <= 16 -> Forall (fun f => has type f = false) [LEFT; ZEROPAD; SPECIAL; ZEROPAD + LEFT] ->
  number_sign num type (FState m out args) = Ret (sg, v) (FState m out args) -> in_s 64 v ->
  Z.land type SMALL = 0 \/ Z.land type SMALL = SMALL ->
  let t := (if sg =? 0 then [] else [byte.of_Z sg]) ++ digits (Z.land type SMALL) base (u64 v) in
  (length out + length t <= BUFSIZE)%nat ->
  number num base (-1) (-1) type (FState m out args) = Ret tt (FState m (out ++ t) args).
Proof.
  intros Hb Hty Es Hv Hsm t Hout. unfold number. cbv zeta.
  apply List.Forall_cons_iff in Hty as [E1 Hty]. apply List.Forall_cons_iff in Hty as [E2 Hty].
  apply List.Forall_cons_iff in Hty as [E3 Hty]. apply List.Forall_cons_iff in Hty as [E4 _].
  rewrite E1. cbv iota. rewrite E1, E2, E3, E4. cbn [negb]. cbv iota.
  rewrite (proj2 (Z.ltb_ge base 2)), (proj2 (Z.ltb_ge 16 base)) by lia. cbn [orb]. mrun Es.
  assert ((if v =? 0 then [ch "0"] else number_digits 66 (Z.land type SMALL) base (u64 v))
    = rev (map (digit_char (Z.land type SMALL)) (vals base (u64 v)))) as ->.
  { unfold vals. destruct (Z.eqb_spec v 0) as [->|]; [by destruct Hsm as [-> | ->]|].
    rewrite (proj2 (Z.eqb_neq (u64 v) 0)) by cint. by rewrite number_digits_vals, map_rev, rev_involutive. }
  rewrite rev_involutive, length_rev, length_map.
  assert (map byte.of_Z (map (digit_char (Z.land type SMALL)) (vals base (u64 v)))
    = digits (Z.land type SMALL) base (u64 v)) as Ed by (unfold digits; by rewrite map_map).
  change (byte.of_Z <$> ?l) with (map byte.of_Z l). rewrite Ed. clear Ed.
  assert (length (vals base (u64 v)) <= 64)%nat as Hl.
  { apply vals_length; [lia..|]. pose proof (pow64_le base ltac:(lia)).
    pose proof (uwrap_range 64 v ltac:(lia)) as Hu. unfold in_u in Hu. lia. }
  assert (0 <= Z.of_nat (length (vals base (u64 v))) <= 64) as Hk by lia.
  set (k := Z.of_nat (length (vals base (u64 v)))) in *. clearbody k.
  rewrite (Z.max_l k (-1)) by lia. rewrite Z.sub_diag. unfold ran_down, t in *. clear t.
  destruct (Z.eqb_spec sg 0) as [->|Hsg]; cbv iota.
  - rewrite (bind_ret _ _ _ _ _ (schk_ret 32 (-1) _ ltac:(unfold_int; lia))). cbn beta.
    rewrite (bind_ret _ _ _ _ _ (schk_ret 32 (-1) _ ltac:(unfold_int; lia))). cbn beta.
    rewrite (bind_ret _ _ _ _ _ (schk_ret 32 (-1 - k) _ ltac:(unfold_int; lia))). cbn beta.
    rewrite !to_nat_nonpos by lia. cbn [emit_n]. rewrite !mret_bind.
    by erewrite bind_ret; [|by apply emit_list_ret].
  - rewrite (bind_ret _ _ _ _ _ (schk_ret 32 (-1 - 1) _ ltac:(unfold_int; lia))). cbn beta.
    rewrite (bind_ret _ _ _ _ _ (schk_ret 32 (-1 - 1) _ ltac:(unfold_int; lia))). cbn beta.
    rewrite (bind_ret _ _ _ _ _ (schk_ret 32 (-1 - 1 - k) _ ltac:(unfold_int; lia))). cbn beta.
    rewrite !to_nat_nonpos by lia. cbn [emit_n]. rewrite length_app in Hout. cbn [length] in Hout.
    rewrite !mret_bind, (bind_ret _ _ _ _ _ (emit_ret m out args sg ltac:(lia))).
    rewrite !mret_bind.
    erewrite bind_ret; [|apply emit_list_ret; rewrite length_app; cbn [length]; lia].
    munfold. by rewrite <- app_assoc.
Qed.

(** ** Formats without flags, width and precision

    A format as a sequence of items: a literal byte, [%%], [%s], [%c], and the
    numeric conversions with an optional [h] or [l].  [renders] relates a
    format and its arguments to the text it produces. *)

Inductive qual : Set := Qint | Qh | Ql.
Inductive conv : Set := Cd | Ci | Cu | Co | Cx | CX.

Definition qual_text (q : qual) : list byte :=
  match q with Qint => [] | Qh => str "h" | Ql => str "l" end.
Definition conv_text (c : conv) : byte :=
  match c with Cd => "d" | Ci => "i" | Cu => "u" | Co => "o" | Cx => "x" | CX => "X" end%byte.
Definition conv_base (c : conv) : Z :=
  match c with Cd | Ci | Cu => 10 | Co => 8 | Cx | CX => 16 end.
Definition conv_flags (c : conv) : Z :=
  match c with Cd | Ci => SIGN | Cx => SMALL | _ => 0 end.

(** The value of an argument: a [short], [int] or [long], signed or not. *)
Definition signed_arg (q : qual) (a : Z) : Z :=
  match q with Qint => s32 a | Qh => s16 a | Ql => s64 a end.
Definition unsigned_arg (q : qual) (a : Z) : Z :=
  match q with Qint => u32 a | Qh => u16 a | Ql => u64 a end.

Definition signed_text (n : Z) : list byte :=
  (if n <? 0 then str "-" else []) ++ digits 0 10 (Z.abs n).
Definition num_text (q : qual) (c : conv) (a : Z) : list byte :=
  match c with
  | Cd | Ci => signed_text (signed_arg q a)
  | Cx => digits SMALL 16 (unsigned_arg q a)
  | _ => digits 0 (conv_base c) (unsigned_arg q a)
  end.

Inductive item : Set := Lit (b : byte) | Percent | Str | Chr | Num (q : qual) (c : conv).

Definition item_text (i : item) : list byte :=
  match i with
  | Lit b => [b]
  | Percent => str "%%"
  | Str => str "%s"
  | Chr => str "%c"
  | Num q c => str "%" ++ qual_text q ++ [conv_text c]
  end.

(** Printing the smallest [long] in decimal overflows. *)
Definition printable (q : qual) (c : conv) (a : Z) : Prop :=
  match c with Cd | Ci => signed_arg q a <> - 2 ^ 63 | _ => True end.

Inductive renders (m : mem) : list item -> list Z -> list byte -> Prop :=
  | renders_nil args : renders m [] args []
  | renders_lit b l args t :
      b <> "%"%byte -> b <> x00 -> renders m l args t -> renders m (Lit b :: l) args (b :: t)
  | renders_percent l args t :
      renders m l args t -> renders m (Percent :: l) args (str "%" ++ t)
  | renders_str s w l args t :
      cstr m s w -> Z.of_nat (length w) < 2 ^ 31 -> renders m l args t ->
      renders m (Str :: l) (s :: args) (w ++ t)
  | renders_chr a l args t :
      renders m l args t -> renders m (Chr :: l) (a :: args) (byte.of_Z a :: t)
  | renders_num q c a l args t :
      printable q c a -> renders m l args t ->
      renders m (Num q c :: l) (a :: args) (num_text q c a ++ t).

(** Literal text in front of a format. *)
Definition literal (b : byte) : Prop := b <> "%"%byte /\ b <> x00.

Lemma renders_lits m w l args t :
  Forall literal w -> renders m l args t -> renders m ((Lit <$> w) ++ l) args (w ++ t).
Proof.
  intros Hw Hr. induction w as [|b w IH]; [done|]. apply List.Forall_cons_iff in Hw as [[Hp Hn] Hw].
  apply (renders_lit m b); [done|done|]. by apply IH.
Qed.

Lemma lits_text w : concat (item_text <$> (Lit <$> w)) = w.
Proof. induction w as [|b w IH]; [done|]. cbn in *. by rewrite IH. Qed.

Lemma plain_type c : Forall (fun f => has (conv_flags c) f = false) [LEFT; ZEROPAD; SPECIAL; ZEROPAD + LEFT].
Proof. destruct c; repeat (apply List.Forall_cons; [reflexivity|]); apply List.Forall_nil. Qed.

Lemma number_signed_ret m out args n :
  in_s 64 n -> n <> - 2 ^ 63 -> (length out + length (signed_text n) <= BUFSIZE)%nat ->
  number n 10 (-1) (-1) SIGN (FState m out args) = Ret tt (FState m (out ++ signed_text n) args).
Proof.
  intros Hn Hmin. unfold signed_text.
  assert (number_sign n SIGN (FState m out args)
    = Ret (if n <? 0 then ch "-" else 0, Z.abs n) (FState m out args)) as Es.
  { unfold number_sign. change (has SIGN SIGN) with true. change (has SIGN PLUS) with false.
    change (has SIGN SPACE) with false. cbv iota. destruct (Z.ltb_spec n 0).
    - rewrite (bind_ret _ _ _ _ _ (schk_ret 64 (- n) _ ltac:(unfold_int; lia))). munfold. f_equal. f_equal. lia.
    - munfold. f_equal. f_equal. lia. }
  pose proof (number_plain_ret m out args n 10 SIGN _ _ ltac:(lia) (plain_type Cd) Es
    ltac:(unfold_int; lia) (or_introl eq_refl)) as H. cbv zeta in H.
  rewrite uwrap_id in H by (unfold_int; lia). destruct (n <? 0); exact H.
Qed.

Lemma number_unsigned_ret m out args c z :
  conv_flags c <> SIGN -> in_u 64 z ->
  let t := digits (conv_flags c) (conv_base c) z in
  (length out + length t <= BUFSIZE)%nat ->
  number (s64 z) (conv_base c) (-1) (-1) (conv_flags c) (FState m out args) = Ret tt (FState m (out ++ t) args).
Proof.
  intros Hc Hz.
  assert (number_sign (s64 z) (conv_flags c) (FState m out args) = Ret (0, s64 z) (FState m out args)) as Es
    by (by destruct c).
  pose proof (number_plain_ret m out args (s64 z) (conv_base c) (conv_flags c) _ _
    ltac:(by destruct c) (plain_type c) Es (swrap_range 64 z ltac:(lia))
    ltac:(destruct c; (left; reflexivity) || (right; reflexivity))) as H. cbv zeta in H.
  assert (u64 (s64 z) = z) as Ez by cint. rewrite Ez in H. by destruct c.
Qed.

Lemma conv_num_ret m out args q c a :
  printable q c a -> (length out + length (num_text q c a) <= BUFSIZE)%nat ->
  conv_num (conv_base c) (conv_flags c) (-1) (-1) (match q with Qint => -1 | Qh => ch "h" | Ql => ch "l" end)
    (FState m out (a :: args)) = Ret tt (FState m (out ++ num_text q c a) args).
Proof.
  intros Hp Hout. unfold conv_num. erewrite bind_ret by reflexivity.
  assert (in_s 64 (signed_arg q a)) as H1 by (destruct q; cbn [signed_arg]; cint).
  assert (in_u 64 (unsigned_arg q a)) as H2 by (destruct q; cbn [unsigned_arg]; cint).
  destruct c; cbn [conv_flags conv_base num_text printable] in *.
  1-2: rewrite <- number_signed_ret by done; change (has SIGN SIGN) with true; f_equal;
    destruct q; cbn [signed_arg] in *; unch; cbn [Z.eqb Pos.eqb]; cint.
  all: first [rewrite <- (number_unsigned_ret m out args Cu) by done
    | rewrite <- (number_unsigned_ret m out args Co) by done
    | rewrite <- (number_unsigned_ret m out args Cx) by done
    | rewrite <- (number_unsigned_ret m out args CX) by done];
    destruct q; reflexivity.
Qed.

(** A byte that is neither a flag nor the start of a width or a precision. *)
Definition plain (b : byte) : bool :=
  negb (isdigit (schar b) || existsb (Byte.eqb b) (str "-+ #0*.")).

Lemma onfmem_ret {A} (f : M mem A) m out args (a : A) :
  f m = Ret a m -> onfmem f (FState m out args) = Ret a (FState m out args).
Proof. intros H. unfold onfmem, zoom. cbn [f_mem]. by rewrite H. Qed.

Lemma plain_spec b :
  plain b = true ->
  isdigit (schar b) = false /\ (schar b =? ch "-") = false /\ (schar b =? ch "+") = false /\
  (schar b =? ch " ") = false /\ (schar b =? ch "#") = false /\ (schar b =? ch "0") = false /\
  (schar b =? ch "*") = false /\ (schar b =? ch ".") = false.
Proof. destruct b; vm_compute; intros H; try discriminate H; repeat split. Qed.

Lemma prefix_plain m out args fmt b k :
  m !! (fmt + 1) = Some b -> plain b = true ->
  (' (fmt, flags) ← onfmem (get_flags fmt);
   '(fmt, width, flags) ← get_width fmt flags;
   '(fmt, precision) ← get_precision fmt;
   k fmt width flags precision) (FState m out args)
  = (k (fmt + 1) (-1) 0 (-1) : M fstate Z) (FState m out args).
Proof.
  intros Hb Hp. apply plain_spec in Hp as (E0 & E1 & E2 & E3 & E4 & E5 & E6 & E7).
  assert (get_flags fmt m = Ret (fmt + 1, 0) m) as Hf.
  { unfold get_flags, scan_fuel at 1. munfold. rewrite loop_S. munfold. rewrite (ldc_ret _ _ _ Hb).
    by rewrite E1, E2, E3, E4, E5. }
  assert (forall st, f_mem st = m -> onfmem (ldc (fmt + 1)) st = Ret (schar b) st) as Hl.
  { intros [m' o' a']. simpl. intros ->. apply onfmem_ret. by apply ldc_ret. }
  mrun (onfmem_ret _ m out args _ Hf). unfold get_width. rewrite bind_assoc.
  mrun (Hl (FState m out args) eq_refl). rewrite E0, E6, mret_bind. cbv iota beta.
  unfold get_precision. rewrite bind_assoc.
  mrun (Hl (FState m out args) eq_refl). rewrite E7, mret_bind. done.
Qed.

Lemma directive_num m out args fmt q c a rest :
  cstr m fmt (item_text (Num q c) ++ rest) -> printable q c a ->
  (length out + length (num_text q c a) <= BUFSIZE)%nat ->
  directive fmt (FState m out (a :: args))
  = Ret (fmt + Z.of_nat (length (item_text (Num q c))) - 1) (FState m (out ++ num_text q c a) args).
Proof.
  intros H Hp Hout. cbn [item_text] in H. change (str "%") with ["%"%byte] in H. cbn [app] in H.
  apply cstr_cons in H as (_ & _ & H). unfold directive.
  assert (m !! (fmt + 1) = Some (hd x00 (qual_text q ++ [conv_text c]))) as Hb.
  { apply cstr_hd in H. rewrite H. by destruct q. }
  set (p := fmt + 1 + Z.of_nat (length (qual_text q))).
  assert (get_qualifier (fmt + 1) (FState m out (a :: args))
    = Ret (p, match q with Qint => -1 | Qh => ch "h" | Ql => ch "l" end) (FState m out (a :: args))) as Hq.
  { unfold get_qualifier. mrun (onfmem_ret (ldc (fmt + 1)) m out (a :: args) _ (ldc_ret _ _ _ Hb)).
    unfold p. destruct q, c; cbn; by rewrite ?Z.add_0_r. }
  assert (m !! p = Some (conv_text c)) as Hc.
  { rewrite <- app_assoc in H. apply cstr_app_r, cstr_hd in H. exact H. }
  rewrite (prefix_plain m out _ fmt _ _ Hb) by (by destruct q, c). mrun Hq.
  mrun (onfmem_ret (ldc p) m out (a :: args) _ (ldc_ret _ _ _ Hc)).
  pose proof (conv_num_ret m out args q c a Hp Hout) as Hn.
  assert (p = fmt + Z.of_nat (length (item_text (Num q c))) - 1) as Ep.
  { unfold p. cbn [item_text]. rewrite !length_app. simpl. lia. }
  rewrite <- Ep. clear Ep.
  unfold convert. destruct c; cbn [conv_base conv_flags conv_text] in *;
    decide_chars; by mrun Hn.
Qed.

(** The conversions that are one character after the percent sign. *)
Lemma directive_simple m out args fmt b rest :
  cstr m fmt (["%"%byte; b] ++ rest) -> plain b = true ->
  (schar b =? ch "h") || (schar b =? ch "l") || (schar b =? ch "L") = false ->
  directive fmt (FState m out args) = convert (schar b) (fmt + 1) 0 (-1) (-1) (-1) (FState m out args).
Proof.
  intros H Hp Hq. cbn [app] in H. apply cstr_cons in H as (_ & _ & H). apply cstr_cons in H as (_ & Hb & _).
  assert (get_qualifier (fmt + 1) (FState m out args) = Ret (fmt + 1, -1) (FState m out args)) as Hq'.
  { unfold get_qualifier. mrun (onfmem_ret (ldc (fmt + 1)) m out args _ (ldc_ret _ _ _ Hb)). by rewrite Hq. }
  unfold directive. rewrite (prefix_plain m out args fmt b _ Hb Hp). mrun Hq'.
  by mrun (onfmem_ret (ldc (fmt + 1)) m out args _ (ldc_ret _ _ _ Hb)).
Qed.

Lemma emit_mem_ret m out args s w :
  bytes_at m s w -> (length out + length w <= BUFSIZE)%nat ->
  emit_mem (length w) s (FState m out args) = Ret tt (FState m (out ++ w) args).
Proof.
  revert out s. induction w as [|b w IH]; intros out s; cbn [bytes_at length emit_mem].
  - intros _ _. by rewrite app_nil_r.
  - intros [Hb Hw] Hl. mrun (onfmem_ret (ldc s) m out args _ (ldc_ret _ _ _ Hb)).
    mrun (emit_ret m out args (schar b) ltac:(lia)). rewrite byte_of_schar, IH; [|done|].
    + by rewrite <- app_assoc.
    + rewrite length_app. simpl. lia.
Qed.

Lemma conv_s_ret m out args s w :
  cstr m s w -> Z.of_nat (length w) < 2 ^ 31 -> (length out + length w <= BUFSIZE)%nat ->
  conv_s 0 (-1) (-1) (FState m out (s :: args)) = Ret tt (FState m (out ++ w) args).
Proof.
  intros Hw Hlt Hl. unfold conv_s. erewrite bind_ret by reflexivity. cbn [f_mem f_out].
  mrun (onfmem_ret _ m out args _ (strnlen_ret m s w (u64 (-1)) ltac:(by vm_compute) Hw)).
  change (u64 (-1)) with (2 ^ 64 - 1). rewrite (Z.min_l (Z.of_nat (length w)) (2 ^ 64 - 1)) by lia. rewrite swrap_id by (unfold_int; lia).
  change (has 0 LEFT) with false. cbv iota zeta. rewrite (to_nat_nonpos (-1 - _)) by lia. cbn [emit_n]. rewrite mret_bind.
  rewrite Nat2Z.id. mrun (emit_mem_ret m out args s w (proj1 (proj1 (bytes_at_app _ _ _ _) (proj2 Hw))) Hl).
  by rewrite to_nat_nonpos by lia.
Qed.

Lemma conv_c_ret m out args a :
  (length out < BUFSIZE)%nat ->
  conv_c 0 (-1) (FState m out (a :: args)) = Ret tt (FState m (out ++ [byte.of_Z a]) args).
Proof.
  intros Hl. unfold conv_c. change (has 0 LEFT) with false. cbv iota zeta.
  change (Z.to_nat (-1 - 1)) with 0%nat. cbn [emit_n]. rewrite mret_bind.
  erewrite bind_ret by reflexivity. cbn [f_mem f_out]. mrun (emit_ret m out args (u8 a) Hl).
  change (Z.to_nat _) with 0%nat. cbn [emit_n]. munfold.
  replace (byte.of_Z (u8 a)) with (byte.of_Z a); [done|]. apply byte.unsigned_inj.
  rewrite !byte.unsigned_of_Z. unfold byte.wrap. cint.
Qed.

(** One item of the format: what an iteration of the loop does. *)
Lemma item_step m out args t i l fmt :
  cstr m fmt (concat (item_text <$> (i :: l))) -> renders m (i :: l) args t ->
  (length out + length t < BUFSIZE)%nat ->
  exists t1 t2 args', t = t1 ++ t2 /\ renders m l args' t2 /\
    (c ← onfmem (ldc fmt);
     if c =? 0 then mret (inr tt)
     else if c =? ch "%" then fmt ← directive fmt; mret (inl (fmt + 1))
     else _ ← emit c; mret (inl (fmt + 1))) (FState m out args)
    = Ret (inl (fmt + Z.of_nat (length (item_text i))) : Z + unit) (FState m (out ++ t1) args').
Proof.
  intros Hf Hr Hl. cbn [fmap list_fmap concat] in Hf.
  assert (forall r, item_text i = "%"%byte :: r ->
    forall f : Z -> M fstate (Z + unit), (c ← onfmem (ldc fmt); f c) (FState m out args)
    = f (schar "%"%byte) (FState m out args)) as Hpc.
  { intros r Er f. rewrite Er in Hf. cbn [app] in Hf. apply cstr_cons in Hf as (_ & Hb & _).
    by mrun (onfmem_ret (ldc fmt) m out args _ (ldc_ret _ _ _ Hb)). }
  inversion Hr; subst; cbn [item_text] in *; try (rewrite length_app in Hl); cbn [length] in Hl;
    try (erewrite Hpc by reflexivity; change (schar "%" =? 0) with false;
         change (schar "%" =? ch "%") with true; cbv iota).
  - exists [b], t0, args. split_and!; [done..|]. cbn [app] in Hf. apply cstr_cons in Hf as (_ & Hb & _).
    mrun (onfmem_ret (ldc fmt) m out args _ (ldc_ret _ _ _ Hb)). rewrite schar_nz by done.
    change (ch "%") with (schar "%"). rewrite schar_ne by done.
    mrun (emit_ret m out args (schar b) ltac:(lia)). by rewrite byte_of_schar.
  - exists (str "%"), t0, args. split_and!; [done..|]. cbn in Hl.
    rewrite (bind_ret _ _ _ (fmt + 1) (FState m (out ++ str "%") args)); [munfold; f_equal; f_equal; simpl; lia|].
    rewrite (directive_simple m out args fmt "%" _ Hf) by done. unfold convert. decide_chars.
    by mrun (emit_ret m out args (ch "%") ltac:(lia)).
  - exists w, t0, args0. split_and!; [done..|].
    rewrite (bind_ret _ _ _ (fmt + 1) (FState m (out ++ w) args0)); [munfold; f_equal; f_equal; simpl; lia|].
    rewrite (directive_simple m out _ fmt "s" _ Hf) by done. unfold convert. decide_chars.
    by mrun (conv_s_ret m out args0 s w ltac:(done) ltac:(done) ltac:(lia)).
  - exists [byte.of_Z a], t0, args0. split_and!; [done..|].
    rewrite (bind_ret _ _ _ (fmt + 1) (FState m (out ++ [byte.of_Z a]) args0)); [munfold; f_equal; f_equal; simpl; lia|].
    rewrite (directive_simple m out _ fmt "c" _ Hf) by done. unfold convert. decide_chars.
    by mrun (conv_c_ret m out args0 a ltac:(lia)).
  - exists (num_text q c a), t0, args0. split_and!; [done..|].
    erewrite bind_ret by (eapply directive_num; [exact Hf|done|lia]). cbn [item_text]. munfold. f_equal. f_equal. lia.
Qed.

Lemma format_ret m fmt l args t :
  cstr m fmt (concat (item_text <$> l)) -> renders m l args t -> (length t < BUFSIZE)%nat ->
  exists args', format fmt (FState m [] args) = Ret tt (FState m t args').
Proof.
  intros Hf Hr Hl. unfold format. erewrite bind_ret by (by apply onfmem_ret). loop_body B.
  assert (forall n fmt l args out t, cstr m fmt (concat (item_text <$> l)) -> renders m l args t ->
    (length out + length t < BUFSIZE)%nat -> (length l < n)%nat ->
    exists args', loop n B fmt (FState m out args) = Ret tt (FState m (out ++ t) args')) as Hloop.
  { clear. induction n as [|n IH]; intros fmt l args out t Hf Hr Hl Hn; [lia|]. rewrite loop_S.
    destruct l as [|i l].
    - cbn in Hf. apply cstr_nil in Hf. inversion Hr; subst. exists args. unfold B at 1.
      mrun (onfmem_ret (ldc fmt) m out args _ (ldc_ret _ _ _ Hf)). by rewrite app_nil_r.
    - destruct (item_step m out args t i l fmt Hf Hr Hl) as (t1 & t2 & args1 & -> & Hr2 & E).
      unfold B at 1. rewrite E. rewrite length_app in Hl. rewrite app_assoc. eapply IH; [|done| |].
      + cbn [fmap list_fmap concat] in Hf. by apply cstr_app_r in Hf.
      + rewrite length_app. lia.
      + cbn [length] in Hn. lia. }
  destruct (Hloop (S (size m)) fmt l args [] t) as [args' E]; [done..| |by exists args'].
  apply cstr_size in Hf. enough (length l <= length (concat (item_text <$> l)))%nat by lia.
  clear. induction l as [|i l IH]; cbn; [lia|]. rewrite length_app.
  enough (1 <= length (item_text i))%nat by (cbn in IH; lia). destruct i as [|[]|[]|[]|[] []]; simpl; lia.
Qed.

(** Literal text that does not fit the buffer. *)
Lemma format_literal m fmt t args out n :
  cstr m fmt t -> ~ In "%"%byte t -> (length out <= BUFSIZE)%nat -> (BUFSIZE < length out + length t)%nat ->
  (length t < n)%nat ->
  loop n (fun fmt =>
    c ← onfmem (ldc fmt);
    if c =? 0 then mret (inr tt)
    else if c =? ch "%" then fmt ← directive fmt; mret (inl (fmt + 1))
    else _ ← emit c; mret (inl (fmt + 1))) fmt (FState m out args) = (Ub : outcome fstate unit).
Proof.
  revert fmt t out. induction n as [|n IH]; intros fmt t out Hf Ht Ho Hl Hn; [lia|].
  destruct t as [|b t]; cbn [length] in *; [lia|]. apply cstr_cons in Hf as (Hz & Hb & Hf).
  assert (b <> "%"%byte /\ ~ In "%"%byte t) as [Hb' Ht'] by (cbn in Ht; split; [intros ->|]; tauto).
  rewrite loop_S. mrun (onfmem_ret (ldc fmt) m out args _ (ldc_ret _ _ _ Hb)).
  rewrite schar_nz by done. change (ch "%") with (schar "%"). rewrite schar_ne by done.
  destruct (decide (length out < BUFSIZE)%nat) as [Hlt|Hge].
  - mrun (emit_ret m out args (schar b) Hlt). munfold.
    apply (IH (fmt + 1) t); [done..|rewrite length_app; simpl; lia|rewrite length_app; simpl; lia|lia].
  - rewrite bind_ub; [done|]. unfold emit. cbn [f_out]. by rewrite decide_False.
Qed.

(** What is true of the ten digit characters. *)
Lemma digit_byte d :
  0 <= d < 10 -> let b := byte.of_Z (digit_char 0 d) in
  dig_of 10 b = Some d /\ lead b = false /\ b <> x00.
Proof.
  intros Hd. assert (d = 0 \/ d = 1 \/ d = 2 \/ d = 3 \/ d = 4 \/ d = 5 \/ d = 6 \/ d = 7 \/ d = 8 \/ d = 9)
    as H by lia. repeat destruct H as [->|H]; try subst d; vm_compute; done.
Qed.

Lemma signed_text_nonul n : nonul (signed_text n).
Proof.
  unfold signed_text. apply list.Forall_app. split; [destruct (n <? 0); by repeat constructor|].
  unfold digits. apply Forall_fmap.
  eapply List.Forall_impl; [|apply (vals_range 10 (Z.abs n)); lia]. intros d Hd. by apply digit_byte.
Qed.

Lemma signed_text_length n : - 2 ^ 63 < n < 2 ^ 63 -> (length (signed_text n) <= 20)%nat.
Proof.
  intros Hn. unfold signed_text, digits. rewrite length_app, length_fmap.
  enough (length (vals 10 (Z.abs n)) <= 19)%nat by (destruct (n <? 0); cbn [length app str]; simpl; lia).
  apply vals_length; [lia..|]. split; [lia|]. apply Z.lt_trans with (2 ^ 63); [lia|by vm_compute].
Qed.

(** The text of a number read back. *)
Lemma signed_text_parse m s n rest :
  - 2 ^ 63 < n < 2 ^ 63 -> cstr m s (signed_text n ++ rest) -> dig_of 10 (hd x00 rest) = None ->
  strtol s 10 m = Ret (n, s + Z.of_nat (length (signed_text n))) m.
Proof.
  intros Hn H Hrest.
  assert (Forall2 (fun b v => dig_of 10 b = Some v) (digits 0 10 (Z.abs n)) (vals 10 (Z.abs n))) as Hd.
  { unfold digits. apply Forall2_fmap_l, Forall_Forall2_diag.
    eapply List.Forall_impl; [|apply (vals_range 10 (Z.abs n)); lia]. intros d Hd. by apply digit_byte. }
  pose proof (vals_sum 10 (Z.abs n) ltac:(lia) ltac:(lia)) as Hsum.
  pose proof (u_strtol_ret m s 10 10 (n <? 0) [] (if n <? 0 then str "-" else []) []
    (digits 0 10 (Z.abs n)) (vals 10 (Z.abs n)) rest) as Hp.
  rewrite Hsum in Hp. unfold signed_text in *. cbn [app] in Hp. rewrite <- app_assoc in H.
  rewrite Hp; clear Hp; [|done|constructor| | |done..|lia|lia].
  - f_equal. f_equal. destruct (Z.ltb_spec n 0); lia.
  - destruct (Z.ltb_spec n 0); constructor.
    destruct (vals_cons 10 (Z.abs n)) as (d & l & E & Hd'); [lia..|]. unfold digits. rewrite E. cbn [fmap list_fmap app hd].
    by apply digit_byte.
  - constructor; [done|]. intros; lia.
Qed.

(** ** Properties *)

(** C17: for every format made of literal text, [%%], [%s], [%c] and the numeric
    conversions [d i u o x X] with an optional [h] or [l], and arguments for which
    it denotes the text [t], [vsnprintf] stores as much of the text as fits and
    terminates it, writes nothing outside the [size] bytes at [str], and returns
    the length of the whole text plus one; [t] must be shorter than the 1024 bytes
    of the intermediate buffer. *)
Theorem vsnprintf_correct m str size fmt l args t :
  cstr m fmt (concat (item_text <$> l)) -> renders m l args t -> (length t < BUFSIZE)%nat ->
  str <> 0 -> 1 <= size -> mapped m str size ->
  vsnprintf str size fmt args m =
    Ret (Z.of_nat (length (upto_nul t)) + 1)
      (mwrite m str (take (Z.to_nat (size - 1)) (upto_nul t ++ [x00]) ++ [x00])).
Proof.
  intros Hf Hr Hl Hs Hsz Hm. destruct (format_ret m fmt l args t Hf Hr Hl) as [args' E].
  by rewrite (vsnprintf_ret _ _ _ _ _ _ E).
Qed.

(** [snprintf(p, 8, "%s=%ld,%x", "ab", -7, 0xc0de)] keeps 7 of 10 characters. *)
Lemma vsnprintf_correct_witness :
  let m := mwrite (mwrite (mwrite ∅ 100 (str "%s=%ld,%x" ++ [x00])) 200 (str "ab" ++ [x00])) 300
    (replicate 12 x01) in
  vsnprintf 300 8 100 [200; -7; 49374] m
  = Ret 11 (mwrite m 300 (str "ab=-7,c" ++ [x00])).
Proof.
  intros m.
  apply (vsnprintf_correct m 300 8 100 [Str; Lit "="; Num Ql Cd; Lit ","; Num Qint Cx]
    [200; -7; 49374] (str "ab=-7,c0de")).
  - apply (bool_decide_unpack _); vm_compute; exact I.
  - change (str "ab=-7,c0de")
      with (str "ab" ++ "="%byte :: num_text Ql Cd (-7) ++ ","%byte :: num_text Qint Cx 49374 ++ []).
    apply renders_str; [apply (bool_decide_unpack _); vm_compute; exact I|by vm_compute|].
    apply renders_lit; [done..|]. apply renders_num; [by vm_compute|].
    apply renders_lit; [done..|]. apply renders_num; [done|]. apply renders_nil.
  - unfold BUFSIZE. simpl. lia.
  - done.
  - lia.
  - intros a Ha. unfold m. rewrite mwrite_lookup, decide_True by (cbn [length replicate]; lia).
    apply lookup_lt_is_Some. cbn [length replicate]. lia.
Defined.

(** Printing and parsing are inverse: the decimal text [snprintf] makes of a
    [long] with ["%ld"] is read back by [strtol] as the same number, up to the
    end of the text, for every number but the smallest. *)
Theorem snprintf_strtol m p size fmt n :
  cstr m fmt (str "%ld") -> - 2 ^ 63 < n < 2 ^ 63 -> p <> 0 -> 21 <= size -> mapped m p size ->
  exists k m', vsnprintf p size fmt [n] m = Ret (k + 1) m' /\ strtol p 10 m' = Ret (n, p + k) m'.
Proof.
  intros Hf Hn Hp Hsz Hm. pose proof (signed_text_length n Hn) as Hl. pose proof (signed_text_nonul n) as Hnul.
  assert (s64 n = n) as En by (apply swrap_id; unfold_int; lia).
  destruct (format_ret m fmt [Num Ql Cd] [n] (signed_text n)) as [args' E]; [done| | |].
  - rewrite <- (app_nil_r (signed_text n)). rewrite <- En at 2.
    apply (renders_num m Ql Cd n []); [cbn; lia|constructor].
  - unfold BUFSIZE. lia.
  - rewrite (vsnprintf_ret _ _ _ _ _ _ E); cbn [f_out f_mem]; [|unfold BUFSIZE; lia|done|lia|done].
    rewrite upto_nul_id by done. eexists _, _. split; [done|].
    apply (signed_text_parse _ p n []); [done| |done]. rewrite app_nil_r. split; [done|].
    set (l := take _ _). assert (exists r, l ++ [x00] = (signed_text n ++ [x00]) ++ r) as [r ->].
    { unfold l. destruct (decide (length (signed_text n) + 1 <= Z.to_nat (size - 1))%nat).
      - exists [x00]. by rewrite take_ge by (rewrite length_app; simpl; lia).
      - exists []. by rewrite take_app_le, take_ge, app_nil_r by lia. }
    apply (bytes_at_app _ _ _ r), bytes_at_mwrite.
Qed.

Lemma snprintf_strtol_witness :
  let m := mwrite (mwrite ∅ 100 (str "%ld" ++ [x00])) 300 (replicate 21 x01) in
  exists k m', vsnprintf 300 21 100 [-90071992547] m = Ret (k + 1) m' /\
    strtol 300 10 m' = Ret (-90071992547, 300 + k) m'.
Proof.
  intros m. apply (snprintf_strtol m 300 21 100 (-90071992547)).
  - apply (bool_decide_unpack _); vm_compute; exact I.
  - lia.
  - done.
  - lia.
  - intros a Ha. unfold m. rewrite mwrite_lookup, decide_True by (cbn [length replicate]; lia).
    apply lookup_lt_is_Some. cbn [length replicate]. lia.
Defined.

(** the intermediate buffer is not bounds-checked: literal text of more than
    1024 bytes overruns it, whatever the size of the destination. *)
Theorem vsnprintf_overruns m p size fmt t args :
  cstr m fmt t -> ~ In "%"%byte t -> (BUFSIZE < length t)%nat -> p <> 0 -> 1 <= size ->
  vsnprintf p size fmt args m = Ub.
Proof.
  intros Hf Ht Hl Hp Hsz. unfold vsnprintf. cbn [sb_buf sb_ebuf].
  rewrite (proj2 (Z.eqb_neq p 0) Hp), (proj2 (Z.ltb_ge _ p)) by lia. cbn [orb].
  unfold vprintfmt, format. cbn [sb_mem]. erewrite bind_ret by (by apply onfmem_ret).
  rewrite (format_literal m fmt t); [done..|simpl; lia|simpl; lia|apply cstr_size in Hf; lia].
Qed.

Lemma vsnprintf_overruns_witness :
  let m := mwrite ∅ 100 (replicate 1025 "a"%byte ++ [x00]) in vsnprintf 5 8 100 [] m = Ub.
Proof.
  intros m. apply (vsnprintf_overruns m 5 8 100 (replicate 1025 "a"%byte)).
  - apply cstr_mwrite. by apply Forall_replicate.
  - intros H%list_elem_of_In%elem_of_replicate_inv. done.
  - rewrite length_replicate. unfold BUFSIZE. lia.
  - done.
  - lia.
Defined.
