(* ===== verification/UList.v ===== *)
(** * The circular doubly linked list of ucore (include/list.h)

    Entries are records in a store keyed by address.  Dereferencing an address
    that holds no entry is undefined.  [ring s a l] states that the circle
    through the head [a] visits exactly the entries [l], in order, with every
    back link right; the operations refine the obvious operations on [l]. *)

From S2P Require Import Prelude.

Record list_entry : Type := ListEntry {
  le_prev : Z;
  le_next : Z
}.
Abbreviation lstore := (gmap Z list_entry).

(** [p->field] and the two assignments. *)
Definition lde (a : Z) : M lstore list_entry := fun s =>
  match s !! a with Some e => Ret e s | None => Ub end.
Definition set_le_prev (a p : Z) : M lstore unit :=
  e ← lde a; modify <[a := ListEntry p (le_next e)]>.
Definition set_le_next (a n : Z) : M lstore unit :=
  e ← lde a; modify <[a := ListEntry (le_prev e) n]>.

Definition list_init (elm : Z) : M lstore unit :=
  _ ← set_le_next elm elm; set_le_prev elm elm.

Definition __list_add (elm prev next : Z) : M lstore unit :=
  _ ← set_le_prev next elm;
  _ ← set_le_next prev elm;
  _ ← set_le_next elm next;
  set_le_prev elm prev.

Definition __list_del (prev next : Z) : M lstore unit :=
  _ ← set_le_next prev next; set_le_prev next prev.

Definition list_add_before (listelm elm : Z) : M lstore unit :=
  e ← lde listelm; __list_add elm (le_prev e) listelm.
Definition list_add_after (listelm elm : Z) : M lstore unit :=
  e ← lde listelm; __list_add elm listelm (le_next e).
Definition list_add (listelm elm : Z) : M lstore unit := list_add_after listelm elm.

Definition list_del (listelm : Z) : M lstore unit :=
  e ← lde listelm; __list_del (le_prev e) (le_next e).
Definition list_del_init (listelm : Z) : M lstore unit :=
  _ ← list_del listelm; list_init listelm.

Definition list_empty (list : Z) : M lstore bool :=
  e ← lde list; mret (le_next e =? list).
Definition list_next (listelm : Z) : M lstore Z := e ← lde listelm; mret (le_next e).
Definition list_prev (listelm : Z) : M lstore Z := e ← lde listelm; mret (le_prev e).

(** ** Rings *)

Definition lnext (s : lstore) (a : Z) : option Z := le_next <$> s !! a.
Definition lprev (s : lstore) (a : Z) : option Z := le_prev <$> s !! a.
Definition edge (s : lstore) (a b : Z) : Prop := lnext s a = Some b /\ lprev s b = Some a.

Fixpoint path (s : lstore) (a : Z) (l : list Z) (b : Z) : Prop :=
  match l with
  | [] => edge s a b
  | c :: l => edge s a c /\ path s c l b
  end.

Definition ring (s : lstore) (a : Z) (l : list Z) : Prop := NoDup (a :: l) /\ path s a l a.

Lemma path_app s a l1 c l2 b : path s a (l1 ++ c :: l2) b <-> path s a l1 c /\ path s c l2 b.
Proof. revert a. induction l1 as [|d l1 IH]; intros a; simpl; [done|]. rewrite IH. tauto. Qed.

(** The same circle from another entry. *)
Lemma ring_rotate s a l1 c l2 : ring s a (l1 ++ c :: l2) -> ring s c (l2 ++ a :: l1).
Proof.
  intros [Hd Hp]. apply path_app in Hp as [H1 H2]. split; [|by apply path_app].
  revert Hd. apply NoDup_Permutation_proper. change (c :: l2 ++ a :: l1) with ((c :: l2) ++ a :: l1).
  rewrite <- Permutation_middle. constructor. by rewrite Permutation_app_comm.
Qed.

Lemma path_frame s s' a l b :
  (forall x y, x ∈ a :: l -> y ∈ l ++ [b] -> edge s x y -> edge s' x y) ->
  path s a l b -> path s' a l b.
Proof.
  revert a. induction l as [|c l IH]; intros a Hf; simpl.
  - apply Hf; set_solver.
  - intros [H1 H2]. split; [apply Hf; set_solver|]. apply IH; [|done]. intros x y Hx Hy.
    apply Hf; set_solver.
Qed.

Lemma path_hd s a l b : path s a l b -> lnext s a = Some (List.hd b l).
Proof. destruct l; simpl; [by intros []|by intros [[] _]]. Qed.

(** What an assignment does to the links of every entry. *)
Lemma set_le_prev_ret s a p :
  is_Some (lprev s a) -> exists s', set_le_prev a p s = Ret tt s' /\
    forall x, lnext s' x = lnext s x /\ lprev s' x = if decide (x = a) then Some p else lprev s x.
Proof.
  unfold lprev, lnext. rewrite fmap_is_Some. intros [e E]. unfold set_le_prev, lde. munfold. rewrite E.
  eexists. split; [done|]. intros x. rewrite lookup_insert. repeat case_decide; subst; rewrite ?E; done.
Qed.

Lemma set_le_next_ret s a n :
  is_Some (lnext s a) -> exists s', set_le_next a n s = Ret tt s' /\
    forall x, lprev s' x = lprev s x /\ lnext s' x = if decide (x = a) then Some n else lnext s x.
Proof.
  unfold lprev, lnext. rewrite fmap_is_Some. intros [e E]. unfold set_le_next, lde. munfold. rewrite E.
  eexists. split; [done|]. intros x. rewrite lookup_insert. repeat case_decide; subst; rewrite ?E; done.
Qed.

Lemma lnext_lprev s a : is_Some (lnext s a) <-> is_Some (lprev s a).
Proof. unfold lnext, lprev. by rewrite !fmap_is_Some. Qed.

Lemma lde_ret s a n p :
  lnext s a = Some n -> lprev s a = Some p -> lde a s = Ret (ListEntry p n) s.
Proof. unfold lde, lnext, lprev. destruct (s !! a) as [[]|]; naive_solver. Qed.

Lemma list_init_ret s a : is_Some (s !! a) -> exists s', list_init a s = Ret tt s' /\ ring s' a [].
Proof.
  intros [e E]. assert (is_Some (lnext s a)) as Hn by (unfold lnext; rewrite E; eauto).
  unfold list_init. destruct (set_le_next_ret s a a Hn) as (s1 & E1 & F1). mrun E1.
  destruct (set_le_prev_ret s1 a a) as (s2 & E2 & F2).
  { rewrite (proj1 (F1 a)). by apply lnext_lprev. }
  exists s2. split; [done|]. split; [apply NoDup_singleton|]. split.
  - rewrite (proj1 (F2 a)), (proj2 (F1 a)). by rewrite decide_True.
  - rewrite (proj2 (F2 a)). by rewrite decide_True.
Qed.

(** The links after [__list_add] and [__list_del]. *)
Lemma list_add_links s e p n :
  is_Some (lnext s e) -> is_Some (lnext s p) -> is_Some (lnext s n) -> e <> p -> e <> n ->
  exists s', __list_add e p n s = Ret tt s' /\ forall x,
    lnext s' x = (if decide (x = e) then Some n else if decide (x = p) then Some e else lnext s x) /\
    lprev s' x = (if decide (x = e) then Some p else if decide (x = n) then Some e else lprev s x).
Proof.
  intros He Hp Hn Hep Hen. unfold __list_add.
  destruct (set_le_prev_ret s n e) as (s1 & E1 & F1); [by apply lnext_lprev|]. mrun E1.
  destruct (set_le_next_ret s1 p e) as (s2 & E2 & F2); [by rewrite (proj1 (F1 p))|]. mrun E2.
  destruct (set_le_next_ret s2 e n) as (s3 & E3 & F3).
  { rewrite (proj2 (F2 e)), decide_False by done. by rewrite (proj1 (F1 e)). }
  mrun E3. destruct (set_le_prev_ret s3 e p) as (s4 & E4 & F4).
  { rewrite (proj1 (F3 e)), (proj1 (F2 e)), (proj2 (F1 e)), decide_False by done. by apply lnext_lprev. }
  exists s4. split; [done|]. intros x. destruct (F1 x), (F2 x), (F3 x), (F4 x).
  split; repeat case_decide; congruence.
Qed.

Lemma list_del_links s p n :
  is_Some (lnext s p) -> is_Some (lnext s n) ->
  exists s', __list_del p n s = Ret tt s' /\ forall x,
    lnext s' x = (if decide (x = p) then Some n else lnext s x) /\
    lprev s' x = (if decide (x = n) then Some p else lprev s x).
Proof.
  intros Hp Hn. unfold __list_del. destruct (set_le_next_ret s p n Hp) as (s1 & E1 & F1). mrun E1.
  destruct (set_le_prev_ret s1 n p) as (s2 & E2 & F2).
  { rewrite (proj1 (F1 n)). by apply lnext_lprev. }
  exists s2. split; [done|]. intros x. destruct (F1 x), (F2 x). split; repeat case_decide; congruence.
Qed.

(** Every entry of a ring has both links. *)
Lemma ring_has s a l x : ring s a l -> x ∈ a :: l -> is_Some (lnext s x) /\ is_Some (lprev s x).
Proof.
  intros Hr [->|Hx]%elem_of_cons.
  - rewrite <- lnext_lprev. rewrite (path_hd _ _ _ _ (proj2 Hr)). eauto.
  - apply list_elem_of_split in Hx as (l1 & l2 & ->). apply ring_rotate in Hr as [_ Hp].
    rewrite <- lnext_lprev, (path_hd _ _ _ _ Hp). eauto.
Qed.

(** No entry disappears from the store. *)
Definition grows (s s' : lstore) : Prop := forall x, is_Some (lnext s x) -> is_Some (lnext s' x).

Lemma hd_elem (a : Z) l : List.hd a l ∈ a :: l.
Proof. destruct l; simpl; [by constructor|]. apply elem_of_cons. right. by constructor. Qed.

Lemma last_elem (d : Z) l : List.last l d ∈ d :: l.
Proof.
  destruct l as [|p l0 _] using rev_ind; [by constructor|].
  rewrite List.last_last. apply elem_of_cons. right. apply elem_of_app. right. by constructor.
Qed.

Lemma ring_add s a l e :
  ring s a l -> e ∉ a :: l -> is_Some (s !! e) ->
  exists s', __list_add e a (List.hd a l) s = Ret tt s' /\ ring s' a (e :: l) /\ grows s s'.
Proof.
  intros Hr He Hs. pose proof Hr as [Hd Hp]. pose proof (hd_elem a l) as Hhd.
  assert (e <> a) as Hea by (intros ->; apply He; constructor).
  assert (e <> List.hd a l) as Heh by (intros E; apply He; by rewrite E).
  destruct (list_add_links s e a (List.hd a l)) as (s' & E & F); [|..|done|done|].
  { unfold lnext. by apply fmap_is_Some. }
  { eapply ring_has; [done|constructor]. }
  { by eapply ring_has. }
  exists s'. split; [done|].
  split; [|intros x Hx; rewrite (proj1 (F x)); repeat case_decide; eauto].
  apply not_elem_of_cons in He as [_ He].
  apply list.NoDup_cons in Hd as [Ha Hd]. split.
  { apply base.NoDup_cons_2; [|by apply base.NoDup_cons_2].
    apply not_elem_of_cons. by split. }
  assert (edge s' a e) as Hae.
  { split; [rewrite (proj1 (F a))|rewrite (proj2 (F e))]; repeat case_decide; done. }
  assert (edge s' e (List.hd a l)) as Hehd.
  { split; [rewrite (proj1 (F e))|rewrite (proj2 (F (List.hd a l)))]; repeat case_decide; done. }
  split; [done|]. destruct l as [|b l]; [done|]. split; [done|]. destruct Hp as [_ Hp].
  apply list.NoDup_cons in Hd as [Hb Hd]. simpl in F.
  revert Hp. apply path_frame. intros x y Hx Hy [Hn Hv].
  assert (x <> e /\ x <> a) as [? ?] by (split; intros ->; done).
  assert (y <> e /\ y <> b) as [? ?].
  { apply not_elem_of_cons in Ha as [Hab Ha], He as [Heb He].
    apply elem_of_app in Hy as [Hy|Hy%list_elem_of_singleton]; [|subst y; by split].
    split; intros ->; done. }
  split; [rewrite (proj1 (F x))|rewrite (proj2 (F y))]; repeat case_decide; done.
Qed.

Lemma ring_del s c d l :
  ring s c (d :: l) ->
  exists s', __list_del (List.last l d) d s = Ret tt s' /\ ring s' d l /\ grows s s'.
Proof.
  intros Hr. pose proof Hr as [Hd [_ Hp]].
  destruct (list_del_links s (List.last l d) d) as (s' & E & F).
  { eapply ring_has; [done|]. apply elem_of_cons. right. apply last_elem. }
  { eapply ring_has; [done|]. apply elem_of_cons. right. constructor. }
  exists s'. split; [done|].
  split; [|intros x Hx; rewrite (proj1 (F x)); repeat case_decide; eauto].
  apply list.NoDup_cons in Hd as [Hc Hd]. split; [done|].
  assert (edge s' (List.last l d) d) as He.
  { split; [rewrite (proj1 (F _))|rewrite (proj2 (F d))]; by rewrite decide_True. }
  clear E. destruct l as [|p l0 _] using rev_ind; [done|].
  rewrite List.last_last in *. apply path_app in Hp as [Hp _]. apply path_app. split; [|done].
  apply list.NoDup_cons in Hd as [Hd1 Hd2]. apply list.NoDup_app in Hd2 as (_ & Hd2 & _).
  revert Hp. apply path_frame. intros x y Hx Hy [Hn Hv].
  assert (x <> p) as Hxp.
  { intros ->. apply elem_of_cons in Hx as [->|Hx].
    - apply Hd1. apply elem_of_app. right. constructor.
    - apply (Hd2 p Hx). constructor. }
  assert (y <> d) as Hyd by (intros ->; done).
  split; [rewrite (proj1 (F x))|rewrite (proj2 (F y))]; by rewrite decide_False.
Qed.

(** ** The operations at any entry of a ring *)

Lemma path_prev s a l b : path s a l b -> lprev s b = Some (List.last l a).
Proof.
  destruct l as [|p l0 _] using rev_ind; [by intros [_ ?]|].
  rewrite path_app, List.last_last. by intros [_ [_ ?]].
Qed.

Lemma ring_lde s a l : ring s a l -> lde a s = Ret (ListEntry (List.last l a) (List.hd a l)) s.
Proof. intros [_ Hp]. apply lde_ret; [by apply path_hd|by apply path_prev]. Qed.

Lemma add_after_ret s c l e :
  ring s c l -> e ∉ c :: l -> is_Some (s !! e) ->
  exists s', list_add_after c e s = Ret tt s' /\ ring s' c (e :: l) /\ grows s s'.
Proof.
  intros Hr He Hs. unfold list_add_after. mrun (ring_lde _ _ _ Hr). by apply ring_add.
Qed.

Lemma add_before_ret s c l e :
  ring s c l -> e ∉ c :: l -> is_Some (s !! e) ->
  exists s', list_add_before c e s = Ret tt s' /\ ring s' c (l ++ [e]) /\ grows s s'.
Proof.
  intros Hr He Hs. unfold list_add_before. mrun (ring_lde _ _ _ Hr). cbn [le_prev].
  destruct l as [|p l0 _] using rev_ind; [by apply (ring_add s c [])|].
  rewrite List.last_last. apply ring_rotate in Hr. simpl in Hr.
  destruct (ring_add s p (c :: l0) e Hr) as (s' & E & Hr' & Hg); [|done|].
  { revert He. rewrite !not_elem_of_cons, not_elem_of_app, not_elem_of_cons. tauto. }
  exists s'. split_and!; [done| |done]. apply (ring_rotate s' p [e]) in Hr'. by rewrite <- app_assoc.
Qed.

Lemma last_cons (x d : Z) l : List.last (x :: l) d = List.last l x.
Proof. revert x d. induction l as [|y l IH]; intros x d; [done|]. by rewrite (IH y x), <- (IH y d). Qed.

Lemma del_ret s a l1 c l2 :
  ring s a (l1 ++ c :: l2) ->
  exists s', list_del c s = Ret tt s' /\ ring s' a (l1 ++ l2) /\ grows s s'.
Proof.
  intros Hr. apply ring_rotate in Hr. unfold list_del. mrun (ring_lde _ _ _ Hr). cbn [le_prev le_next].
  destruct l2 as [|d l2]; simpl app in *.
  - destruct (ring_del s c a l1 Hr) as (s' & E & Hr' & Hg). exists s'. rewrite app_nil_r.
    split_and!; [|done|done]. by rewrite last_cons.
  - destruct (ring_del s c d (l2 ++ a :: l1) Hr) as (s' & E & Hr' & Hg). exists s'.
    split_and!; [|by apply ring_rotate in Hr'|done].
    by rewrite last_cons.
Qed.

(** ** Refinement: sequences of operations on one list

    The abstract list is the sequence of entries after the head. *)

Inductive list_cmd : Type :=
  | AddAfter (c e : Z)
  | AddBefore (c e : Z)
  | Del (c : Z).

Definition run_cmd (o : list_cmd) : M lstore unit :=
  match o with
  | AddAfter c e => list_add_after c e
  | AddBefore c e => list_add_before c e
  | Del c => list_del c
  end.
Fixpoint run_cmds (os : list list_cmd) : M lstore unit :=
  match os with
  | [] => mret tt
  | o :: os => _ ← run_cmd o; run_cmds os
  end.

(** Inserting [ins] behind the first entry [c], and removing it. *)
Fixpoint splice (f : Z -> list Z) (c : Z) (l : list Z) : list Z :=
  match l with
  | [] => []
  | x :: l => if decide (x = c) then f x ++ l else x :: splice f c l
  end.

Definition abs_cmd (a : Z) (o : list_cmd) (l : list Z) : option (list Z) :=
  match o with
  | AddAfter c e =>
      if decide (c ∈ a :: l /\ e ∉ a :: l)
      then Some (if decide (c = a) then e :: l else splice (fun x => [x; e]) c l) else None
  | AddBefore c e =>
      if decide (c ∈ a :: l /\ e ∉ a :: l)
      then Some (if decide (c = a) then l ++ [e] else splice (fun x => [e; x]) c l) else None
  | Del c => if decide (c ∈ l) then Some (splice (fun _ => []) c l) else None
  end.
Fixpoint abs_cmds (a : Z) (os : list list_cmd) (l : list Z) : option (list Z) :=
  match os with
  | [] => Some l
  | o :: os => abs_cmd a o l ≫= abs_cmds a os
  end.

(** The entry a command puts into the list. *)
Definition cmd_new (o : list_cmd) : option Z :=
  match o with AddAfter _ e | AddBefore _ e => Some e | Del _ => None end.

Lemma splice_app f c l1 l2 : c ∉ l1 -> splice f c (l1 ++ c :: l2) = l1 ++ f c ++ l2.
Proof.
  induction l1 as [|x l1 IH]; simpl.
  - intros _. by rewrite decide_True.
  - intros [Hx Hc]%not_elem_of_cons. rewrite decide_False by done. by rewrite IH.
Qed.

Lemma elem_split (c : Z) l : c ∈ l -> exists l1 l2, l = l1 ++ c :: l2 /\ c ∉ l1.
Proof.
  induction l as [|x l IH]; [by intros ?%elem_of_nil|].
  destruct (decide (x = c)) as [->|Hne]; [intros _; exists [], l; split; [done|apply not_elem_of_nil]|].
  intros [?|Hc]%elem_of_cons; [done|]. destruct (IH Hc) as (l1 & l2 & -> & Hn).
  exists (x :: l1), l2. split; [done|]. by apply not_elem_of_cons.
Qed.

(** An entry outside the ring is outside it from every entry. *)
Lemma rotate_notin (e a c : Z) l1 l2 : e ∉ a :: l1 ++ c :: l2 -> e ∉ c :: l2 ++ a :: l1.
Proof. rewrite !not_elem_of_cons, !not_elem_of_app, !not_elem_of_cons. tauto. Qed.

Lemma cmd_refines s a l o l' :
  ring s a l -> abs_cmd a o l = Some l' -> (forall e, cmd_new o = Some e -> is_Some (s !! e)) ->
  exists s', run_cmd o s = Ret tt s' /\ ring s' a l' /\ grows s s'.
Proof.
  intros Hr Ha Hs. destruct o as [c e|c e|c]; simpl in Ha; case_decide as Hc; try done; simplify_eq.
  - destruct Hc as [Hc He]. specialize (Hs e eq_refl). case_decide as E; [subst; by apply add_after_ret|].
    apply elem_of_cons in Hc as [?|Hc]; [done|]. apply elem_split in Hc as (l1 & l2 & -> & Hn).
    rewrite splice_app by done.
    destruct (add_after_ret s c (l2 ++ a :: l1) e) as (s' & E' & Hr' & Hg); [by apply ring_rotate|by apply rotate_notin|done|].
    exists s'. split_and!; [done| |done]. by apply (ring_rotate s' c (e :: l2)) in Hr'.
  - destruct Hc as [Hc He]. specialize (Hs e eq_refl). case_decide as E; [subst; by apply add_before_ret|].
    apply elem_of_cons in Hc as [?|Hc]; [done|]. apply elem_split in Hc as (l1 & l2 & -> & Hn).
    rewrite splice_app by done.
    destruct (add_before_ret s c (l2 ++ a :: l1) e) as (s' & E' & Hr' & Hg); [by apply ring_rotate|by apply rotate_notin|done|].
    exists s'. split_and!; [done| |done]. rewrite <- app_assoc in Hr'. simpl in Hr'.
    apply ring_rotate in Hr'. by rewrite <- app_assoc in Hr'.
  - apply elem_split in Hc as (l1 & l2 & -> & Hn). rewrite splice_app by done. by apply del_ret.
Qed.

(** C19: any sequence of insertions and deletions that is meaningful on the
    abstract list runs without touching a bad pointer and leaves a circular
    list, forward and backward, of exactly the abstract result. *)
Theorem list_refines s a l os l' :
  ring s a l -> abs_cmds a os l = Some l' ->
  Forall (fun o => forall e, cmd_new o = Some e -> is_Some (s !! e)) os ->
  exists s', run_cmds os s = Ret tt s' /\ ring s' a l'.
Proof.
  revert s l. induction os as [|o os IH]; intros s l Hr Ha Hs; simpl in Ha; [simplify_eq; by exists s|].
  destruct (abs_cmd a o l) as [l1|] eqn:E; [|done]. simpl in Ha. apply list.Forall_cons in Hs as [Ho Hs].
  destruct (cmd_refines s a l o l1 Hr E Ho) as (s1 & E1 & Hr1 & Hg).
  destruct (IH s1 l1 Hr1 Ha) as (s2 & E2 & Hr2); [|exists s2; split; [simpl; by mrun E1|done]].
  eapply list.Forall_impl; [exact Hs|]. intros o' Ho' e He. specialize (Ho' e He).
  specialize (Hg e). unfold lnext in Hg. rewrite !fmap_is_Some in Hg. auto.
Qed.

(** A head and three entries. *)
Lemma list_refines_witness :
  exists s', run_cmds [AddAfter 8 16; AddBefore 8 24; AddAfter 16 32; Del 16]
    {[8 := ListEntry 8 8; 16 := ListEntry 0 0; 24 := ListEntry 0 0; 32 := ListEntry 0 0]} = Ret tt s' /\
  ring s' 8 [32; 24].
Proof.
  apply (list_refines _ 8 []).
  - split; [apply NoDup_singleton|by split].
  - vm_compute. reflexivity.
  - repeat constructor; intros e [= <-]; vm_compute; eauto.
Defined.

(** on a list whose entries are [l], [list_empty] tells whether [l] is
    empty, and [list_next] and [list_prev] of the head are its first and last
    entry. *)
Theorem list_ends s a l :
  ring s a l ->
  list_empty a s = Ret (bool_decide (l = [])) s /\
  list_next a s = Ret (List.hd a l) s /\ list_prev a s = Ret (List.last l a) s.
Proof.
  intros Hr. unfold list_empty, list_next, list_prev.
  split_and!; mrun (ring_lde _ _ _ Hr); try done. cbn [le_next]. munfold. f_equal.
  destruct l as [|b l]; simpl; [apply Z.eqb_refl|]. apply Z.eqb_neq. intros ->.
  destruct Hr as [Hd _]. apply list.NoDup_cons in Hd as [Hn _]. apply Hn. constructor.
Qed.

Lemma list_ends_witness :
  let s := {[8 := ListEntry 16 16; 16 := ListEntry 8 8]} : lstore in
  list_empty 8 s = Ret (bool_decide ([16] = [])) s /\
  list_next 8 s = Ret 16 s /\ list_prev 8 s = Ret 16 s.
Proof.
  intros s. apply (list_ends s 8 [16]). split; [|by repeat split].
  apply (bool_decide_unpack _). vm_compute. exact I.
Defined.
