(* ===== verification/USkewHeap.v ===== *)
(** * The skew heap of ucore (include/skew_heap.h)

    Entries are records in a store keyed by address.  The comparison function
    is the caller's; it is a parameter, a function of the two addresses.
    [rep s par x t] states that the pointer [x] is the root of the tree [t] in
    the store, with all parent links right and [par] as the parent of the root. *)

From S2P Require Import Prelude.

Record skew_heap_entry : Type := SkewEntry {
  sk_parent : Z;
  sk_left : Z;
  sk_right : Z
}.
Abbreviation skstore := (gmap Z skew_heap_entry).

Definition sk_ld (a : Z) : M skstore skew_heap_entry := fun s =>
  match s !! a with Some e => Ret e s | None => Ub end.
Definition sk_upd (a : Z) (f : skew_heap_entry -> skew_heap_entry) : M skstore unit :=
  e ← sk_ld a; modify <[a := f e]>.
Definition set_parent (z : Z) (e : skew_heap_entry) := SkewEntry z (sk_left e) (sk_right e).
Definition set_left (z : Z) (e : skew_heap_entry) := SkewEntry (sk_parent e) z (sk_right e).
Definition set_right (z : Z) (e : skew_heap_entry) := SkewEntry (sk_parent e) (sk_left e) z.

Definition skew_heap_init (a : Z) : M skstore unit :=
  _ ← sk_upd a (set_parent 0); _ ← sk_upd a (set_right 0); sk_upd a (set_left 0).

Section SkewHeap.
Context (comp : Z -> Z -> Z).

Fixpoint skew_heap_merge (fuel : nat) (a b : Z) : M skstore Z :=
  match fuel with
  | O => spin
  | S fuel =>
      if a =? 0 then mret b
      else if b =? 0 then mret a
      else if comp a b =? -1 then
        e ← sk_ld a;
        l ← skew_heap_merge fuel (sk_right e) b;
        _ ← sk_upd a (set_left l);
        _ ← sk_upd a (set_right (sk_left e));
        _ ← (if l =? 0 then mret tt else sk_upd l (set_parent a));
        mret a
      else
        e ← sk_ld b;
        l ← skew_heap_merge fuel a (sk_right e);
        _ ← sk_upd b (set_left l);
        _ ← sk_upd b (set_right (sk_left e));
        _ ← (if l =? 0 then mret tt else sk_upd l (set_parent b));
        mret b
  end.

(** The recursion visits each entry at most once: the size of the store is
    fuel enough. *)
Definition merge (a b : Z) : M skstore Z := fun s => skew_heap_merge (S (size s)) a b s.

Definition skew_heap_insert (a b : Z) : M skstore Z :=
  _ ← skew_heap_init b; merge a b.

Definition skew_heap_remove (a b : Z) : M skstore Z :=
  e ← sk_ld b;
  let p := sk_parent e in
  rep ← merge (sk_left e) (sk_right e);
  _ ← (if rep =? 0 then mret tt else sk_upd rep (set_parent p));
  if p =? 0 then mret rep
  else
    pe ← sk_ld p;
    _ ← (if sk_left pe =? b then sk_upd p (set_left rep) else sk_upd p (set_right rep));
    mret a.

(** ** Trees *)

Inductive tree : Type := Leaf | Node (a : Z) (l r : tree).

Fixpoint nodes (t : tree) : list Z :=
  match t with Leaf => [] | Node a l r => a :: nodes l ++ nodes r end.

Definition root (t : tree) : Z := match t with Leaf => 0 | Node a _ _ => a end.

(** The merge of the header file, on trees. *)
Fixpoint tmerge (t1 : tree) : tree -> tree :=
  fix aux t2 :=
    match t1, t2 with
    | Leaf, _ => t2
    | _, Leaf => t1
    | Node a l1 r1, Node b l2 r2 =>
        if comp a b =? -1 then Node a (tmerge r1 t2) l1 else Node b (aux r2) l2
    end.

Fixpoint rep (s : skstore) (par x : Z) (t : tree) : Prop :=
  match t with
  | Leaf => x = 0
  | Node a l r => x = a /\ a <> 0 /\ exists e, s !! a = Some e /\ sk_parent e = par /\
      rep s a (sk_left e) l /\ rep s a (sk_right e) r
  end.

(** The parent of the root of a merged tree is the one its root had. *)
Definition merge_par (pa pb : Z) (t1 t2 : tree) : Z :=
  match t1, t2 with
  | Leaf, _ => pb
  | _, Leaf => pa
  | Node a _ _, Node b _ _ => if comp a b =? -1 then pa else pb
  end.

Lemma tmerge_leaf_r t : tmerge t Leaf = t.
Proof. by destruct t. Qed.

Lemma tmerge_nodes t1 t2 : nodes (tmerge t1 t2) ≡ₚ nodes t1 ++ nodes t2.
Proof.
  revert t2. induction t1 as [|a l1 _ r1 IH1]; [by intros []|].
  induction t2 as [|b l2 _ r2 IH2]; [simpl; by rewrite app_nil_r|].
  simpl in *. destruct (comp a b =? -1); simpl.
  - rewrite (IH1 (Node b l2 r2)). simpl. constructor. solve_Permutation.
  - rewrite IH2. solve_Permutation.
Qed.

Lemma rep_frame s s' par x t :
  (forall a, a ∈ nodes t -> s' !! a = s !! a) -> rep s par x t -> rep s' par x t.
Proof.
  revert par x. induction t as [|a l IHl r IHr]; intros par x Hf; simpl; [done|].
  intros (-> & Ha & e & He & Hp & Hl & Hr). split_and!; [done..|]. exists e.
  split_and!; [rewrite Hf; [done|constructor]|done|apply IHl|apply IHr]; try done;
    intros b Hb; apply Hf; simpl; apply elem_of_cons; right; apply elem_of_app; tauto.
Qed.

(** Rewriting the parent link of a root. *)
Lemma rep_reparent s par par' x t :
  NoDup (nodes t) -> rep s par x t ->
  exists s', (if x =? 0 then mret tt else sk_upd x (set_parent par')) s = Ret tt s' /\
    rep s' par' x t /\ (forall a, a <> x \/ t = Leaf -> s' !! a = s !! a) /\ dom s' = dom s.
Proof.
  intros Hd. destruct t as [|a l r]; simpl.
  - intros ->. exists s. simpl. by split_and!.
  - intros (-> & Ha & e & He & Hp & Hl & Hr). rewrite (proj2 (Z.eqb_neq a 0) Ha).
    unfold sk_upd, sk_ld. munfold. rewrite He. eexists. split; [done|].
    apply list.NoDup_cons in Hd as [Hn Hd]. rewrite not_elem_of_app in Hn.
    split_and!; [done|done| | |].
    + exists (set_parent par' e). rewrite lookup_insert_eq. simpl.
      split_and!; [done..|eapply rep_frame; [|exact Hl]|eapply rep_frame; [|exact Hr]];
        intros b Hb; apply lookup_insert_ne; intros ->; tauto.
    + intros b [Hb|Hb]; [|done]. by apply lookup_insert_ne.
    + apply dom_insert_lookup_L. eauto.
Qed.

Lemma root_in s par x t : rep s par x t -> x <> 0 -> x ∈ nodes t.
Proof. destruct t; simpl; [done|]. intros [-> _] _. constructor. Qed.

Lemma sk_upd_ret s a e f : s !! a = Some e -> sk_upd a f s = Ret tt (<[a := f e]> s).
Proof. intros E. unfold sk_upd, sk_ld. munfold. by rewrite E. Qed.

Lemma sk_ld_ret s a e : s !! a = Some e -> sk_ld a s = Ret e s.
Proof. intros E. unfold sk_ld. by rewrite E. Qed.

(** The tail of a merge step: the merged tree becomes the left child and the
    old left child the right one. *)
Lemma attach s a e l q tl tr :
  s !! a = Some e -> a <> 0 -> rep s q l tl -> rep s a (sk_left e) tr ->
  NoDup (a :: nodes tl ++ nodes tr) ->
  exists s', (_ ← sk_upd a (set_left l); _ ← sk_upd a (set_right (sk_left e));
              _ ← (if l =? 0 then mret tt else sk_upd l (set_parent a)); mret a) s = Ret a s' /\
    rep s' (sk_parent e) a (Node a tl tr) /\
    (forall x, x <> a -> x ∉ nodes tl -> s' !! x = s !! x) /\ dom s' = dom s.
Proof.
  intros Ha Hnz Hl Hr Hd. apply list.NoDup_cons in Hd as [Hn Hd].
  apply not_elem_of_app in Hn as [Hnl Hnr]. apply list.NoDup_app in Hd as (Hdl & Hlr & Hdr).
  mrun (sk_upd_ret _ _ _ (set_left l) Ha).
  mrun (sk_upd_ret (<[a := set_left l e]> s) a _ (set_right (sk_left e)) (lookup_insert_eq _ _ _)).
  rewrite insert_insert_eq. set (e' := set_right (sk_left e) (set_left l e)).
  set (s1 := <[a := e']> s).
  assert (forall t, a ∉ nodes t -> forall b, b ∈ nodes t -> s1 !! b = s !! b) as Hs1.
  { intros t Ht b Hb. apply lookup_insert_ne. by intros ->. }
  destruct (rep_reparent s1 q a l tl Hdl) as (s2 & E & Hl2 & Hf & Hdom).
  { eapply rep_frame; [by apply Hs1|done]. }
  mrun E. exists s2. split; [done|].
  assert (a <> l \/ tl = Leaf) as Hal.
  { destruct tl; [by right|left]. simpl in Hl. destruct Hl as [-> _]. intros ->. apply Hnl. constructor. }
  assert (dom s1 = dom s) as Hdom1 by (apply dom_insert_lookup_L; eauto).
  split_and!; [| |congruence].
  - split_and!; [done..|]. exists e'. rewrite Hf by done.
    split; [apply lookup_insert_eq|]. split_and!; [done|exact Hl2|].
    simpl. eapply rep_frame; [|eapply rep_frame; [by apply Hs1|exact Hr]].
    intros b Hb. apply Hf. destruct tl as [|c tl1 tl2]; [by right|left]. simpl in Hl.
    destruct Hl as [-> _]. intros ->. by apply (Hlr c); [constructor|].
  - intros x Hx Hxl. rewrite Hf; [by apply lookup_insert_ne|].
    destruct tl as [|c tl1 tl2]; [by right|left]. simpl in Hl. destruct Hl as [-> _].
    intros ->. apply Hxl. constructor.
Qed.

(** [skew_heap_merge] refines [tmerge]; it changes only entries of the two
    trees. *)
Lemma merge_ret fuel s a b pa pb t1 t2 :
  rep s pa a t1 -> rep s pb b t2 -> NoDup (nodes t1 ++ nodes t2) ->
  (length (nodes t1 ++ nodes t2) < fuel)%nat ->
  exists s', skew_heap_merge fuel a b s = Ret (root (tmerge t1 t2)) s' /\
    rep s' (merge_par pa pb t1 t2) (root (tmerge t1 t2)) (tmerge t1 t2) /\
    (forall x, x ∉ nodes t1 ++ nodes t2 -> s' !! x = s !! x) /\ dom s' = dom s.
Proof.
  revert s a b pa pb t1 t2. induction fuel as [|fuel IH]; intros s a b pa pb t1 t2 H1 H2 Hd Hf; [lia|].
  destruct t1 as [|a' l1 r1].
  { simpl in H1. subst a. assert (b = root t2) as -> by (destruct t2; simpl in H2; naive_solver).
    exists s. destruct t2; by split_and!. }
  destruct t2 as [|b' l2 r2].
  { simpl in H1, H2. subst b. destruct H1 as (-> & Ha & H1). exists s. simpl.
    rewrite (proj2 (Z.eqb_neq a' 0) Ha). by split_and!. }
  pose proof H1 as (-> & Ha & ea & Hea & Hpa & Hl1 & Hr1).
  pose proof H2 as (-> & Hb & eb & Heb & Hpb & Hl2 & Hr2). simpl skew_heap_merge.
  rewrite (proj2 (Z.eqb_neq a' 0) Ha), (proj2 (Z.eqb_neq b' 0) Hb).
  cbn [tmerge merge_par]. fold tmerge. simpl in Hd, Hf. rewrite !length_app in Hf. simpl in Hf.
  rewrite !length_app in Hf. destruct (comp a' b' =? -1) eqn:Ec.
  - assert (NoDup (a' :: (nodes r1 ++ b' :: nodes l2 ++ nodes r2) ++ nodes l1)) as Hd'.
    { revert Hd. apply NoDup_Permutation_proper. solve_Permutation. }
    pose proof Hd' as [Hna Hd1]%list.NoDup_cons. apply list.NoDup_app in Hd1 as (Hd1 & Hsep & _).
    mrun (sk_ld_ret _ _ _ Hea).
    destruct (IH s (sk_right ea) b' a' pb r1 (Node b' l2 r2)) as (s1 & E & Hrep & Hfr & Hdom); [done..| |].
    { rewrite length_app. simpl. rewrite length_app. lia. }
    mrun E. set (tl := tmerge r1 (Node b' l2 r2)) in *.
    assert (nodes tl ≡ₚ nodes r1 ++ b' :: nodes l2 ++ nodes r2) as Hnodes by apply (tmerge_nodes r1 (Node b' l2 r2)).
    apply not_elem_of_app in Hna as [Hna Hna'].
    destruct (attach s1 a' ea (root tl) (merge_par a' pb r1 (Node b' l2 r2)) tl l1) as (s2 & E2 & Hrep2 & Hf2 & Hdom2).
    { by rewrite Hfr. } { done. } { done. }
    { eapply rep_frame; [|exact Hl1]. intros x Hx. apply Hfr. intros Hx'. by apply (Hsep x Hx'). }
    { revert Hd'. apply NoDup_Permutation_proper. by rewrite Hnodes. }
    exists s2. rewrite E2, Hpa in *. split_and!; [done|done| |congruence].
    intros x Hx. simpl in Hx. rewrite Hf2, Hfr; [done|..].
    + simpl. set_unfold. tauto.
    + set_unfold. tauto.
    + rewrite Hnodes. set_unfold. tauto.
  - assert (NoDup (b' :: ((a' :: nodes l1 ++ nodes r1) ++ nodes r2) ++ nodes l2)) as Hd'.
    { revert Hd. apply NoDup_Permutation_proper. solve_Permutation. }
    pose proof Hd' as [Hna Hd1]%list.NoDup_cons. apply list.NoDup_app in Hd1 as (Hd1 & Hsep & _).
    mrun (sk_ld_ret _ _ _ Heb).
    destruct (IH s a' (sk_right eb) pa b' (Node a' l1 r1) r2) as (s1 & E & Hrep & Hfr & Hdom); [done..| |].
    { rewrite length_app. simpl. rewrite length_app. lia. }
    mrun E. set (tl := tmerge (Node a' l1 r1) r2) in *.
    assert (nodes tl ≡ₚ (a' :: nodes l1 ++ nodes r1) ++ nodes r2) as Hnodes by apply (tmerge_nodes (Node a' l1 r1) r2).
    apply not_elem_of_app in Hna as [Hna Hna'].
    destruct (attach s1 b' eb (root tl) (merge_par pa b' (Node a' l1 r1) r2) tl l2) as (s2 & E2 & Hrep2 & Hf2 & Hdom2).
    { by rewrite Hfr. } { done. } { done. }
    { eapply rep_frame; [|exact Hl2]. intros x Hx. apply Hfr. intros Hx'. by apply (Hsep x Hx'). }
    { revert Hd'. apply NoDup_Permutation_proper. by rewrite Hnodes. }
    exists s2. rewrite E2, Hpb in *. split_and!; [done|done| |congruence].
    intros x Hx. simpl in Hx. rewrite Hf2, Hfr; [done|..].
    + simpl. set_unfold. tauto.
    + set_unfold. tauto.
    + rewrite Hnodes. set_unfold. tauto.
Qed.

Lemma rep_dom s par x t a : rep s par x t -> a ∈ nodes t -> a ∈ dom s.
Proof.
  revert par x. induction t as [|b l IHl r IHr]; intros par x; simpl; [by intros _ ?%elem_of_nil|].
  intros (-> & _ & e & He & _ & Hl & Hr) [->|[H|H]%elem_of_app]%elem_of_cons; eauto.
  apply elem_of_dom. eauto.
Qed.

Lemma rep_root s par x t : rep s par x t -> x = root t.
Proof. destruct t; simpl; naive_solver. Qed.

(** Disjoint trees fit in the store: the fuel of [merge] is enough. *)
Lemma merge_run s a b pa pb t1 t2 :
  rep s pa a t1 -> rep s pb b t2 -> NoDup (nodes t1 ++ nodes t2) ->
  exists s', merge a b s = Ret (root (tmerge t1 t2)) s' /\
    rep s' (merge_par pa pb t1 t2) (root (tmerge t1 t2)) (tmerge t1 t2) /\
    (forall x, x ∉ nodes t1 ++ nodes t2 -> s' !! x = s !! x) /\ dom s' = dom s.
Proof.
  intros H1 H2 Hd. apply merge_ret; [done..|]. apply Nat.lt_succ_r.
  rewrite <- size_dom, <- (size_list_to_set (C := gset Z)) by done. apply subseteq_size.
  intros x [Hx|Hx]%elem_of_list_to_set%elem_of_app;
    [exact (rep_dom _ _ _ _ _ H1 Hx)|exact (rep_dom _ _ _ _ _ H2 Hx)].
Qed.

(** ** Heap order *)

(** [comp b a] does not say that [b] is smaller. *)
Definition sk_le (a b : Z) : Prop := comp b a <> -1.

Definition below (a : Z) (t : tree) : Prop :=
  match t with Leaf => True | Node b _ _ => sk_le a b end.

Fixpoint ordered (t : tree) : Prop :=
  match t with
  | Leaf => True
  | Node a l r => below a l /\ below a r /\ ordered l /\ ordered r
  end.

Lemma below_tmerge a t1 t2 : below a t1 -> below a t2 -> below a (tmerge t1 t2).
Proof. destruct t1, t2; simpl; try done. by destruct (comp _ _ =? -1). Qed.

Section Order.
Context (comp_asym : forall a b, comp a b = -1 -> comp b a <> -1).
Context (sk_le_trans : forall a b c, sk_le a b -> sk_le b c -> sk_le a c).

Lemma tmerge_ordered t1 t2 : ordered t1 -> ordered t2 -> ordered (tmerge t1 t2).
Proof using comp_asym.
  revert t2. induction t1 as [|a l1 _ r1 IH1]; [by intros []|].
  intros t2 H1. induction t2 as [|b l2 _ r2 IH2]; [done|]. intros H2.
  pose proof H1 as (A1 & A2 & A3 & A4). pose proof H2 as (B1 & B2 & B3 & B4).
  cbn [tmerge]. destruct (Z.eqb_spec (comp a b) (-1)) as [E|E].
  - split_and!; [|done|by apply IH1|done]. apply below_tmerge; [done|]. by apply comp_asym.
  - split_and!; [|done|by apply IH2|done].
    change (below b (tmerge (Node a l1 r1) r2)). by apply below_tmerge.
Qed.

(** The root is a least element. *)
Lemma ordered_least t a : ordered t -> a ∈ nodes t -> a = root t \/ sk_le (root t) a.
Proof using sk_le_trans.
  induction t as [|b l IHl r IHr]; simpl; [by intros _ ?%elem_of_nil|].
  intros (Hl & Hr & Ol & Or) [->|[H|H]%elem_of_app]%elem_of_cons; [by left|right..].
  - destruct l as [|c ll lr]; [by apply elem_of_nil in H|].
    destruct (IHl Ol H) as [->|Hle]; [done|]. by eapply sk_le_trans.
  - destruct r as [|c rl rr]; [by apply elem_of_nil in H|].
    destruct (IHr Or H) as [->|Hle]; [done|]. by eapply sk_le_trans.
Qed.

(** ** A tree with a hole *)

Inductive ctx : Type :=
  | Top
  | InL (p : Z) (c : ctx) (r : tree)
  | InR (p : Z) (l : tree) (c : ctx).

Fixpoint plug (c : ctx) (t : tree) : tree :=
  match c with
  | Top => t
  | InL p c r => Node p (plug c t) r
  | InR p l c => Node p l (plug c t)
  end.
Fixpoint cnodes (c : ctx) : list Z :=
  match c with
  | Top => []
  | InL p c r => p :: cnodes c ++ nodes r
  | InR p l c => p :: nodes l ++ cnodes c
  end.

(** The pointer [h] sits in the hole, below the entry [hp]. *)
Fixpoint crep (s : skstore) (par x : Z) (c : ctx) (hp h : Z) : Prop :=
  match c with
  | Top => x = h /\ hp = par
  | InL p c r => x = p /\ p <> 0 /\ exists e, s !! p = Some e /\ sk_parent e = par /\
      crep s p (sk_left e) c hp h /\ rep s p (sk_right e) r
  | InR p l c => x = p /\ p <> 0 /\ exists e, s !! p = Some e /\ sk_parent e = par /\
      rep s p (sk_left e) l /\ crep s p (sk_right e) c hp h
  end.

Lemma plug_nodes c t : nodes (plug c t) ≡ₚ cnodes c ++ nodes t.
Proof. induction c; simpl; [done|..]; rewrite IHc; solve_Permutation. Qed.

Lemma plug_rep s par x c t :
  rep s par x (plug c t) <-> exists hp h, crep s par x c hp h /\ rep s hp h t.
Proof.
  revert par x. induction c; intros par x; simpl; [naive_solver|..]; setoid_rewrite IHc; naive_solver.
Qed.

Lemma node_ctx t b : b ∈ nodes t -> exists c l r, t = plug c (Node b l r).
Proof.
  induction t as [|a l IHl r IHr]; simpl; [by intros ?%elem_of_nil|].
  intros [->|[H|H]%elem_of_app]%elem_of_cons; [by exists Top, l, r|..].
  - destruct (IHl H) as (c & l' & r' & ->). by exists (InL a c r), l', r'.
  - destruct (IHr H) as (c & l' & r' & ->). by exists (InR a l c), l', r'.
Qed.

Lemma plug_ordered c b l r :
  ordered (plug c (Node b l r)) -> ordered (plug c (tmerge l r)).
Proof using comp_asym sk_le_trans.
  assert (forall p c, below p (plug c (Node b l r)) -> ordered (plug c (Node b l r)) ->
    below p (plug c (tmerge l r))) as Hb.
  { intros p [|q c' t|q t c'] Hb Ho; [|done..]. simpl in *. destruct Ho as (H1 & H2 & _).
    apply below_tmerge; [destruct l|destruct r]; simpl in *; eauto. }
  induction c; simpl.
  - intros (_ & _ & ? & ?). by apply tmerge_ordered.
  - intros (? & ? & ? & ?). split_and!; auto.
  - intros (? & ? & ? & ?). split_and!; auto.
Qed.

Lemma crep_frame s s' par x c hp h :
  (forall a, a ∈ cnodes c -> s' !! a = s !! a) -> crep s par x c hp h -> crep s' par x c hp h.
Proof.
  revert par x. induction c as [|p c IH r|p l c IH]; intros par x Hf; simpl; [done|..];
    intros (-> & Hp & e & He & Hpe & H1 & H2); (split_and!; [done..|]); exists e.
  - split_and!; [rewrite Hf; [done|constructor]|done|apply IH; [|done]|eapply rep_frame; [|done]];
      intros b Hb; apply Hf; simpl; apply elem_of_cons; right; apply elem_of_app; tauto.
  - split_and!; [rewrite Hf; [done|constructor]|done|eapply rep_frame; [|done]|apply IH; [|done]];
      intros b Hb; apply Hf; simpl; apply elem_of_cons; right; apply elem_of_app; tauto.
Qed.

Lemma crep_parent s par x c hp h : crep s par x c hp h -> (c = Top /\ hp = par) \/ hp ∈ cnodes c.
Proof.
  revert par x. induction c as [|p c IH r|p l c IH]; intros par x; simpl; [by left; naive_solver|..];
    intros (-> & _ & e & _ & _ & H1 & H2); right.
  - destruct (IH _ _ H1) as [[_ ->]|Hin]; [constructor|]. apply elem_of_cons. right. apply elem_of_app. by left.
  - destruct (IH _ _ H2) as [[_ ->]|Hin]; [constructor|]. apply elem_of_cons. right. apply elem_of_app. by right.
Qed.

Lemma ctx_top c : c = Top \/ c <> Top.
Proof. destruct c; [by left|by right..]. Qed.

(** The assignment of [skew_heap_remove] to the parent's child pointer. *)
Definition set_child (h h' : Z) (e : skew_heap_entry) : skew_heap_entry :=
  if sk_left e =? h then set_left h' e else set_right h' e.

Lemma crep_replace s par x c hp h h' :
  crep s par x c hp h -> NoDup (cnodes c) -> h ∉ cnodes c -> h <> 0 -> c <> Top ->
  exists e, s !! hp = Some e /\ hp <> 0 /\ crep (<[hp := set_child h h' e]> s) par x c hp h'.
Proof.
  revert par x. induction c as [|p c IH r|p l c IH]; intros par x; [done|..];
    intros (-> & Hp & e & He & Hpe & H1 & H2) Hd Hh Hnz _; simpl in Hd, Hh;
    apply list.NoDup_cons in Hd as [Hpn Hd]; apply not_elem_of_cons in Hh as [Hhp Hh];
    apply not_elem_of_app in Hpn as [Hpn1 Hpn2], Hh as [Hh1 Hh2];
    apply list.NoDup_app in Hd as (Hd1 & Hsep & Hd2).
  - destruct (ctx_top c) as [->|Hc].
    + destruct H1 as [<- ->]. exists e. split_and!; [done..|]. simpl. split_and!; [done..|].
      eexists. rewrite lookup_insert_eq. split; [done|]. unfold set_child. rewrite Z.eqb_refl. simpl.
      split_and!; [done..|]. eapply rep_frame; [|exact H2]. intros b Hb. apply lookup_insert_ne. by intros ->.
    + destruct (crep_parent _ _ _ _ _ _ H1) as [[? _]|Hin]; [done|].
      destruct (IH _ _ H1 Hd1 Hh1 Hnz Hc) as (e' & He' & Hnz' & Hrep). exists e'. split_and!; [done..|].
      simpl. split_and!; [done..|]. exists e. rewrite lookup_insert_ne by (intros ->; done).
      split_and!; [done..|]. eapply rep_frame; [|exact H2]. intros b Hb. apply lookup_insert_ne.
      intros ->. by apply (Hsep b Hin).
  - destruct (ctx_top c) as [->|Hc].
    + destruct H2 as [<- ->]. exists e. split_and!; [done..|]. simpl. split_and!; [done..|].
      eexists. rewrite lookup_insert_eq. split; [done|]. unfold set_child.
      rewrite (proj2 (Z.eqb_neq (sk_left e) (sk_right e))).
      * simpl. split_and!; [done| |done|done]. eapply rep_frame; [|exact H1].
        intros b Hb. apply lookup_insert_ne. by intros ->.
      * intros E. apply Hh1. rewrite <- E. eapply root_in; [exact H1|congruence].
    + destruct (crep_parent _ _ _ _ _ _ H2) as [[? _]|Hin]; [done|].
      destruct (IH _ _ H2 Hd2 Hh2 Hnz Hc) as (e' & He' & Hnz' & Hrep). exists e'. split_and!; [done..|].
      simpl. split_and!; [done..|]. exists e. rewrite lookup_insert_ne by (intros ->; done).
      split_and!; [done|done| |done]. eapply rep_frame; [|exact H1]. intros b Hb. apply lookup_insert_ne.
      intros ->. by apply (Hsep b Hb).
Qed.

(** [skew_heap_insert] of a new entry into a heap returns the root of a
    heap, ordered and with right parent links, of the old entries and the new
    one, and touches no other entry. *)
Theorem insert_correct s a b t :
  rep s 0 a t -> NoDup (nodes t) -> ordered t -> b ∉ nodes t -> b <> 0 -> is_Some (s !! b) ->
  exists s' t', skew_heap_insert a b s = Ret (root t') s' /\ rep s' 0 (root t') t' /\
    ordered t' /\ nodes t' ≡ₚ b :: nodes t /\ (forall x, x ∉ b :: nodes t -> s' !! x = s !! x).
Proof using comp_asym.
  intros Hr Hd Ho Hb Hnz [e He]. unfold skew_heap_insert.
  set (e0 := SkewEntry 0 0 0). set (s1 := <[b := e0]> s).
  assert (skew_heap_init b s = Ret tt s1) as E.
  { unfold skew_heap_init. mrun (sk_upd_ret _ _ _ (set_parent 0) He).
    mrun (sk_upd_ret (<[b := set_parent 0 e]> s) b _ (set_right 0) (lookup_insert_eq _ _ _)).
    rewrite (sk_upd_ret _ b _ (set_left 0) (lookup_insert_eq _ _ _)). by rewrite !insert_insert_eq. }
  mrun E. destruct (merge_run s1 a b 0 0 t (Node b Leaf Leaf)) as (s' & E' & Hr' & Hf & _).
  - eapply rep_frame; [|exact Hr]. intros x Hx. apply lookup_insert_ne. by intros ->.
  - simpl. split_and!; [done..|]. exists e0. split; [apply lookup_insert_eq|done].
  - simpl. apply list.NoDup_app. split_and!; [done| |apply NoDup_singleton].
    intros x Hx ->%list_elem_of_singleton. done.
  - exists s', (tmerge t (Node b Leaf Leaf)). split_and!; [done| |by apply tmerge_ordered| |].
    + destruct t; simpl in Hr' |- *; [done|]. by destruct (comp _ _ =? -1).
    + rewrite tmerge_nodes. simpl. solve_Permutation.
    + intros x Hx. apply not_elem_of_cons in Hx as [Hxb Hx].
      rewrite Hf; [by apply lookup_insert_ne|]. simpl. apply not_elem_of_app. split; [done|].
      by intros ?%list_elem_of_singleton.
Qed.

(** C18: [skew_heap_remove] of any entry of a heap returns the root of a heap of
    the other entries, ordered and with right parent links. *)
Theorem remove_correct s a b t :
  rep s 0 a t -> NoDup (nodes t) -> ordered t -> b ∈ nodes t ->
  exists s' t', skew_heap_remove a b s = Ret (root t') s' /\ rep s' 0 (root t') t' /\
    ordered t' /\ nodes t ≡ₚ b :: nodes t'.
Proof using comp_asym sk_le_trans.
  intros Hr Hd Ho Hb. destruct (node_ctx t b Hb) as (c & l & r & ->).
  pose proof (plug_nodes c (Node b l r)) as Hpn. rewrite Hpn in Hd. simpl in Hd.
  apply list.NoDup_app in Hd as (Hdc & Hsep & Hdb). apply list.NoDup_cons in Hdb as [Hbn Hdb].
  apply plug_rep in Hr as (hp & h & Hc & (-> & Hnz & e & He & Hpe & Hl & Hrr)).
  unfold skew_heap_remove. mrun (sk_ld_ret _ _ _ He). cbv zeta. rewrite Hpe.
  destruct (merge_run s _ _ b b l r Hl Hrr Hdb) as (s1 & E1 & R1 & F1 & _). mrun E1.
  pose proof (tmerge_nodes l r) as Hmn. set (q := root (tmerge l r)) in *.
  destruct (rep_reparent s1 (merge_par b b l r) hp q (tmerge l r)) as (s2 & E2 & R2 & F2 & _); [by rewrite Hmn|done|]. mrun E2.
  assert (ordered (plug c (tmerge l r))) as Ho' by by eapply plug_ordered.
  assert (nodes (plug c (Node b l r)) ≡ₚ b :: nodes (plug c (tmerge l r))) as Hperm.
  { rewrite Hpn, plug_nodes, Hmn. simpl. solve_Permutation. }
  assert (forall x, x ∈ cnodes c -> s2 !! x = s !! x) as Hcf.
  { intros x Hx. pose proof (Hsep x Hx) as Hxn. apply not_elem_of_cons in Hxn as [_ Hxn].
    rewrite F2, F1; [done|done|]. destruct (tmerge l r) eqn:Et; [by right|left].
    intros ->. apply Hxn. rewrite <- Hmn. constructor. }
  destruct (ctx_top c) as [->|Hct].
  - destruct Hc as [_ ->]. simpl. exists s2, (tmerge l r). by split_and!.
  - apply (crep_frame _ s2) in Hc; [|done].
    destruct (crep_replace s2 0 a c hp b q Hc Hdc) as (e' & He' & Hhp & Hc'); [|done|done|].
    { intros Hbc. apply (Hsep b Hbc). constructor. }
    rewrite (proj2 (Z.eqb_neq hp 0) Hhp). mrun (sk_ld_ret _ _ _ He').
    exists (<[hp := set_child b q e']> s2), (plug c (tmerge l r)).
    assert (rep (<[hp := set_child b q e']> s2) 0 a (plug c (tmerge l r))) as Hrep.
    { apply plug_rep. exists hp, q. split; [done|]. eapply rep_frame; [|exact R2].
      intros x Hx. apply lookup_insert_ne. intros ->.
      destruct (crep_parent _ _ _ _ _ _ Hc) as [[? _]|Hin]; [done|].
      apply (Hsep x Hin). apply elem_of_cons. right. by rewrite <- Hmn. }
    rewrite <- (rep_root _ _ _ _ Hrep). split_and!; [|done|done|done].
    unfold set_child. destruct (sk_left e' =? b);
      [by mrun (sk_upd_ret _ _ _ (set_left q) He')|by mrun (sk_upd_ret _ _ _ (set_right q) He')].
Qed.
End Order.
End SkewHeap.

(** A heap ordered by address, with two entries, and a third entry. *)
Definition by_address (a b : Z) : Z := if a <? b then -1 else 1.
Definition demo_store : skstore :=
  {[ 16 := SkewEntry 0 24 0; 24 := SkewEntry 16 0 0; 8 := SkewEntry 7 7 7 ]}.
Definition demo_tree : tree := Node 16 (Node 24 Leaf Leaf) Leaf.

Lemma demo_rep : rep demo_store 0 16 demo_tree.
Proof.
  repeat match goal with
  | |- rep _ _ _ _ => simpl
  | |- _ /\ _ => split
  | |- exists _, _ => eexists
  | |- _ => first [reflexivity | lia]
  end.
Qed.

Lemma by_address_asym a b : by_address a b = -1 -> by_address b a <> -1.
Proof. unfold by_address. destruct (Z.ltb_spec a b), (Z.ltb_spec b a); lia. Qed.

Lemma by_address_trans a b c :
  sk_le by_address a b -> sk_le by_address b c -> sk_le by_address a c.
Proof.
  unfold sk_le, by_address. destruct (Z.ltb_spec b a), (Z.ltb_spec c b), (Z.ltb_spec c a); lia.
Qed.

Lemma insert_correct_witness :
  exists s' t', skew_heap_insert by_address 16 8 demo_store = Ret (root t') s' /\
    rep s' 0 (root t') t' /\ ordered by_address t' /\ nodes t' ≡ₚ [8; 16; 24] /\
    (forall x, x ∉ [8; 16; 24] -> s' !! x = demo_store !! x).
Proof.
  apply (insert_correct by_address by_address_asym demo_store 16 8 demo_tree).
  - apply demo_rep.
  - apply (bool_decide_unpack _). vm_compute. exact I.
  - by vm_compute.
  - apply (bool_decide_unpack _). vm_compute. exact I.
  - lia.
  - by eexists.
Defined.

Lemma remove_correct_witness :
  exists s' t', skew_heap_remove by_address 16 24 demo_store = Ret (root t') s' /\
    rep s' 0 (root t') t' /\ ordered by_address t' /\ nodes demo_tree ≡ₚ 24 :: nodes t'.
Proof.
  apply (remove_correct by_address by_address_asym by_address_trans demo_store 16 24 demo_tree).
  - apply demo_rep.
  - apply (bool_decide_unpack _). vm_compute. exact I.
  - by vm_compute.
  - apply (bool_decide_unpack _). vm_compute. exact I.
Defined.
