(* ===== verification/UBits.v ===== *)
(** * Bit operations of ucore (arch/*/atomic.h)

    Each architecture has its own [atomic.h].  On x86-64 a bit instruction with
    a 32-bit memory operand addresses a bit string; on RISC-V an atomic memory
    operation works on the 64-bit word that holds the bit; on aarch64 and MIPS
    the functions are stubs.  The specification is the bit string itself: bit
    [nr] of the string at [addr] is bit [nr mod 8] of the byte [nr / 8].  Here a
    function is one step; lock.h is about their interleaving. *)

From S2P Require Import Prelude CMem.
From coqutil Require Import Word.LittleEndianList.

Definition b2z (b : bool) : Z := if b then 1 else 0.

(** arch/x86_64/atomic.h *)
Module X86.
(** [bts], [btr], [btc] and [bt]: the double word and the bit in it, for a
    (signed) bit offset in a register; [sbbl] turns the carry into 0 or -1. *)
Definition word (nr addr : Z) : Z := addr + 4 * (nr / 32).
Definition bit (nr : Z) : Z := nr mod 32.

Definition set_bit (nr addr : Z) : M mem unit :=
  w ← load32 (word nr addr); store32 (word nr addr) (Z.setbit w (bit nr)).
Definition clear_bit (nr addr : Z) : M mem unit :=
  w ← load32 (word nr addr); store32 (word nr addr) (Z.clearbit w (bit nr)).
Definition change_bit (nr addr : Z) : M mem unit :=
  w ← load32 (word nr addr); store32 (word nr addr) (Z.lxor w (2 ^ bit nr)).
Definition test_bit (nr addr : Z) : M mem Z :=
  w ← load32 (word nr addr); mret (b2z (Z.testbit w (bit nr))).
Definition test_and_set_bit (nr addr : Z) : M mem Z :=
  w ← load32 (word nr addr);
  _ ← store32 (word nr addr) (Z.setbit w (bit nr));
  mret (b2z (Z.testbit w (bit nr))).
Definition test_and_clear_bit (nr addr : Z) : M mem Z :=
  w ← load32 (word nr addr);
  _ ← store32 (word nr addr) (Z.clearbit w (bit nr));
  mret (b2z (Z.testbit w (bit nr))).
End X86.

(** arch/riscv/atomic.h with [__riscv_xlen] 64 *)
Module Riscv.
Definition BIT_MASK (nr : Z) : Z := u64 (Z.shiftl 1 (Z.rem nr 64)).
Definition BIT_WORD (nr : Z) : Z := Z.quot nr 64.

(** [amoor.d], [amoand.d] and [amoxor.d]: the old value is the result. *)
Definition amo (op : Z -> Z -> Z) (a v : Z) : M mem Z :=
  w ← load64 a; _ ← store64 a (op w v); mret w.

Definition __op_bit (op : Z -> Z -> Z) (md : Z -> Z) (nr addr : Z) : M mem unit :=
  _ ← amo op (addr + 8 * BIT_WORD nr) (md (BIT_MASK nr)); mret tt.
Definition __test_and_op_bit (op : Z -> Z -> Z) (md : Z -> Z) (nr addr : Z) : M mem Z :=
  res ← amo op (addr + 8 * BIT_WORD nr) (md (BIT_MASK nr));
  mret (b2z (negb (Z.land res (BIT_MASK nr) =? 0))).
Definition __NOP (x : Z) : Z := x.
Definition __NOT (x : Z) : Z := u64 (Z.lnot x).

Definition set_bit : Z -> Z -> M mem unit := __op_bit Z.lor __NOP.
Definition clear_bit : Z -> Z -> M mem unit := __op_bit Z.land __NOT.
Definition change_bit : Z -> Z -> M mem unit := __op_bit Z.lxor __NOP.
(** Only the first word; shifting by 64 or more is undefined. *)
Definition test_bit (nr addr : Z) : M mem Z :=
  w ← load64 addr;
  if (0 <=? nr) && (nr <? 64) then mret (Z.land (Z.shiftr w nr) 1) else ub.
Definition test_and_set_bit : Z -> Z -> M mem Z := __test_and_op_bit Z.lor __NOP.
Definition test_and_clear_bit : Z -> Z -> M mem Z := __test_and_op_bit Z.land __NOT.
End Riscv.

(** arch/aarch64/atomic.h (arch/mipsel/atomic.h is the same text) *)
Module Stub.
Definition set_bit (nr addr : Z) : M mem unit := mret tt.
Definition clear_bit (nr addr : Z) : M mem unit := mret tt.
Definition change_bit (nr addr : Z) : M mem unit := mret tt.
Definition test_bit (nr addr : Z) : M mem Z := mret 0.
Definition test_and_set_bit (nr addr : Z) : M mem Z := mret 0.
Definition test_and_clear_bit (nr addr : Z) : M mem Z := mret 0.
End Stub.

(** ** The bit string *)

(** The bit [k] of [z] replaced by [g] of itself. *)
Definition updb (g : bool -> bool) (k z : Z) : Z :=
  if g (Z.testbit z k) then Z.setbit z k else Z.clearbit z k.

Definition getbit (m : mem) (addr nr : Z) : bool :=
  match m !! (addr + nr / 8) with Some b => Z.testbit (uchar b) (nr mod 8) | None => false end.
Definition updbit (g : bool -> bool) (m : mem) (addr nr : Z) : mem :=
  alter (fun b => byte.of_Z (updb g (nr mod 8) (uchar b))) (addr + nr / 8) m.

Lemma updb_spec g k z i :
  0 <= k -> Z.testbit (updb g k z) i = if decide (i = k) then g (Z.testbit z k) else Z.testbit z i.
Proof.
  intros Hk. unfold updb. destruct (g (Z.testbit z k)) eqn:E; case_decide; subst.
  - by apply Z.setbit_eq.
  - by apply Z.setbit_neq.
  - by apply Z.clearbit_eq.
  - by apply Z.clearbit_neq.
Qed.

(** A word and its bytes. *)
Lemma le_combine_bit l i :
  0 <= i -> Z.testbit (le_combine l) i =
    match l !! Z.to_nat (i / 8) with Some b => Z.testbit (uchar b) (i mod 8) | None => false end.
Proof.
  revert i. induction l as [|b l IH]; intros i Hi; [by rewrite Z.testbit_0_l|].
  change (le_combine (b :: l)) with (Z.lor (byte.unsigned b) (Z.shiftl (le_combine l) 8)).
  rewrite Z.lor_spec, Z.shiftl_spec by lia.
  pose proof (uchar_range b) as Hb. unfold uchar in *. destruct (decide (i < 8)) as [H8|H8].
  - rewrite (Z.testbit_neg_r _ (i - 8)), orb_false_r by lia. by rewrite Z.div_small, Z.mod_small by lia.
  - assert (Z.testbit (byte.unsigned b) i = false) as ->.
    { destruct (Z.eq_dec (byte.unsigned b) 0) as [->|]; [apply Z.testbit_0_l|].
      apply Z.bits_above_log2; [lia|]. apply Z.log2_lt_pow2; [lia|].
      apply Z.lt_le_trans with (2 ^ 8); [lia|]. apply Z.pow_le_mono_r; lia. }
    rewrite IH by lia. replace ((i - 8) / 8) with (i / 8 - 1) by zdm. replace ((i - 8) mod 8) with (i mod 8) by zdm.
    replace (Z.to_nat (i / 8)) with (S (Z.to_nat (i / 8 - 1))) by zdm. done.
Qed.

Lemma le_split_lookup n z (j : nat) : (j < n)%nat -> le_split n z !! j = Some (byte.of_Z (Z.shiftr z (8 * Z.of_nat j))).
Proof.
  revert z j. induction n as [|n IH]; intros z [|j] Hj; [lia..| |].
  - rewrite Z.mul_0_r, Z.shiftr_0_r. done.
  - change (le_split n (Z.shiftr z 8) !! j = Some (byte.of_Z (Z.shiftr z (8 * Z.of_nat (S j))))). rewrite IH by lia. rewrite Z.shiftr_shiftr by lia. repeat f_equal. lia.
Qed.

Lemma testbit_byte z i : Z.testbit (uchar (byte.of_Z z)) i = (i <? 8) && Z.testbit z i.
Proof.
  rewrite uchar_of_Z. change 256 with (2 ^ 8). destruct (decide (i < 0)) as [|Hi].
  { by rewrite !Z.testbit_neg_r, andb_false_r by lia. }
  destruct (Z.ltb_spec i 8); [by apply Z.mod_pow2_bits_low|by apply Z.mod_pow2_bits_high; lia].
Qed.

Lemma byte_bits b c : (forall i, 0 <= i < 8 -> Z.testbit (uchar b) i = Z.testbit (uchar c) i) -> b = c.
Proof.
  intros H. rewrite <- (byte_of_uchar b), <- (byte_of_uchar c). apply uchar_inj. apply Z.bits_inj'. intros i Hi.
  rewrite !testbit_byte. destruct (Z.ltb_spec i 8); [|done]. by rewrite H.
Qed.

(** Replacing one bit of the word at [a] replaces that bit of the string. *)
Lemma word_update g m addr nr a l k w' :
  bytes_at m a l -> 0 <= k < 8 * Z.of_nat (length l) -> a + k / 8 = addr + nr / 8 -> k mod 8 = nr mod 8 ->
  (forall i, 0 <= i < 8 * Z.of_nat (length l) -> Z.testbit w' i =
     if decide (i = k) then g (Z.testbit (le_combine l) k) else Z.testbit (le_combine l) i) ->
  mwrite m a (le_split (length l) w') = updbit g m addr nr /\ Z.testbit (le_combine l) k = getbit m addr nr.
Proof.
  intros Hl Hk Ea Ek Hw. rewrite bytes_at_lookup in Hl. split.
  2: { rewrite le_combine_bit by lia. unfold getbit. rewrite <- Ea, <- Ek.
       destruct (lookup_lt_is_Some_2 l (Z.to_nat (k / 8))) as [b Hb]; [zdm|]. rewrite Hb.
       specialize (Hl _ _ Hb). rewrite Z2Nat.id in Hl by zdm. by rewrite Hl. }
  apply map_eq. intros x. unfold updbit. rewrite mwrite_lookup, length_le_split, lookup_alter, <- Ea, <- Ek.
  destruct (decide (a <= x < a + Z.of_nat (length l))) as [Hx|Hx].
  2: { case_decide; [zdm|done]. }
  assert (exists j, x = a + Z.of_nat j) as [j ->] by (exists (Z.to_nat (x - a)); lia).
  replace (Z.to_nat (a + Z.of_nat j - a)) with j by lia.
  destruct (lookup_lt_is_Some_2 l j) as [b Hb]; [lia|]. specialize (Hl _ _ Hb).
  rewrite le_split_lookup by lia.
  assert (forall i, 0 <= i < 8 -> Z.testbit (uchar (byte.of_Z (Z.shiftr w' (8 * Z.of_nat j)))) i =
    if decide (8 * Z.of_nat j + i = k) then g (Z.testbit (uchar b) (k mod 8)) else Z.testbit (uchar b) i) as Hbits.
  { intros i Hi. rewrite testbit_byte, Z.shiftr_spec, (proj2 (Z.ltb_lt i 8)), andb_true_l by lia.
    rewrite Hw by lia. case_decide; case_decide; try lia.
    - rewrite le_combine_bit by lia. replace (Z.to_nat (k / 8)) with j by zdm. by rewrite Hb.
    - rewrite le_combine_bit by lia. replace (Z.to_nat ((i + 8 * Z.of_nat j) / 8)) with j by zdm. rewrite Hb. f_equal. zdm. }
  case_decide as Ej.
  - rewrite Ej, Hl. cbn. f_equal. apply byte_bits. intros i Hi. rewrite Hbits by done.
    rewrite testbit_byte, (proj2 (Z.ltb_lt i 8)), andb_true_l, updb_spec by (lia || zdm).
    case_decide; case_decide; subst; try done; zdm.
  - rewrite Hl. f_equal. apply byte_bits. intros i Hi. rewrite Hbits by done. rewrite decide_False by zdm. done.
Qed.

Lemma setbit_upd w k i :
  0 <= k -> Z.testbit (Z.setbit w k) i = if decide (i = k) then true else Z.testbit w i.
Proof. intros Hk. case_decide; subst; [by apply Z.setbit_eq|by apply Z.setbit_neq]. Qed.

Lemma clearbit_upd w k i :
  0 <= k -> Z.testbit (Z.clearbit w k) i = if decide (i = k) then false else Z.testbit w i.
Proof. intros Hk. case_decide; subst; [by apply Z.clearbit_eq|by apply Z.clearbit_neq]. Qed.

Lemma pow2_upd k i : 0 <= k -> Z.testbit (2 ^ k) i = bool_decide (i = k).
Proof.
  intros Hk. case_bool_decide; subst; [by apply Z.pow2_bits_true|]. apply Z.pow2_bits_false. done.
Qed.

Lemma lxor_upd w k i :
  0 <= k -> Z.testbit (Z.lxor w (2 ^ k)) i = if decide (i = k) then negb (Z.testbit w k) else Z.testbit w i.
Proof.
  intros Hk. rewrite Z.lxor_spec, pow2_upd by done. case_decide; subst.
  - by rewrite bool_decide_true, xorb_true_r.
  - by rewrite bool_decide_false, xorb_false_r.
Qed.

(** ** x86-64 *)

Section X86.
Context (m : mem) (nr addr : Z).
Hypothesis word_mapped : mapped m (X86.word nr addr) 4.

(** The double word of the bit, as a word of the bit string. *)
Lemma x86_word g f :
  (forall w i, Z.testbit (f w) i = if decide (i = X86.bit nr) then g (Z.testbit w (X86.bit nr)) else Z.testbit w i) ->
  exists w, load32 (X86.word nr addr) m = Ret w m /\
    store32 (X86.word nr addr) (f w) m = Ret tt (updbit g m addr nr) /\ Z.testbit w (X86.bit nr) = getbit m addr nr.
Proof using word_mapped.
  intros Hf. destruct (mapped_read m (X86.word nr addr) 4 word_mapped) as (l & Hlen & Hl).
  exists (le_combine l). unfold load32, store32. pose proof Hl as Er. apply mread_bytes_at in Er. rewrite Hlen in Er. rewrite Er.
  destruct (word_update g m addr nr (X86.word nr addr) l (X86.bit nr) (f (le_combine l)) Hl) as [E1 E2];
    [unfold X86.bit; rewrite Hlen; zdm|unfold X86.word, X86.bit; zdm|unfold X86.bit; zdm|intros; apply Hf|].
  rewrite Hlen in E1. by rewrite E1.
Qed.
End X86.

Lemma x86_bit_range nr : 0 <= X86.bit nr.
Proof. unfold X86.bit. zdm. Qed.

(** ** RISC-V *)

Section Riscv.
Context (m : mem) (nr addr : Z).
Hypothesis nr_pos : 0 <= nr.
Hypothesis word_mapped : mapped m (addr + 8 * (nr / 64)) 8.

Lemma riscv_mask : Riscv.BIT_MASK nr = 2 ^ (nr mod 64).
Proof using nr_pos.
  unfold Riscv.BIT_MASK. rewrite Z.rem_mod_nonneg by lia. rewrite Z.shiftl_1_l. apply uwrap_id.
  unfold in_u. pose proof (Z.mod_pos_bound nr 64 ltac:(lia)). split; [lia|]. apply Z.pow_lt_mono_r; lia.
Qed.

Lemma riscv_word : Riscv.BIT_WORD nr = nr / 64.
Proof using nr_pos. unfold Riscv.BIT_WORD. by rewrite Z.quot_div_nonneg by lia. Qed.

Lemma riscv_amo g op v :
  (forall w i, 0 <= i < 64 ->
     Z.testbit (op w v) i = if decide (i = nr mod 64) then g (Z.testbit w (nr mod 64)) else Z.testbit w i) ->
  exists w, Riscv.amo op (addr + 8 * Riscv.BIT_WORD nr) v m = Ret w (updbit g m addr nr) /\
    Z.testbit w (nr mod 64) = getbit m addr nr.
Proof using nr_pos word_mapped.
  intros Hop. rewrite riscv_word. set (a := addr + 8 * (nr / 64)).
  destruct (mapped_read m a 8 word_mapped) as (l & Hlen & Hl). exists (le_combine l).
  destruct (word_update g m addr nr a l (nr mod 64) (op (le_combine l) v) Hl) as [E1 E2];
    [rewrite Hlen; zdm|unfold a; zdm|zdm|rewrite Hlen; intros i Hi; apply Hop; lia|].
  rewrite Hlen in E1. split; [|done]. unfold Riscv.amo. mrun (load64_ret m a l Hlen Hl).
  rewrite (bind_ret _ _ _ _ _ (store64_ret m a _ word_mapped)), E1. done.
Qed.

Lemma riscv_tested w : negb (Z.land w (Riscv.BIT_MASK nr) =? 0) = Z.testbit w (nr mod 64).
Proof using nr_pos.
  rewrite riscv_mask. pose proof (Z.mod_pos_bound nr 64 ltac:(lia)) as Hr.
  destruct (Z.eqb_spec (Z.land w (2 ^ (nr mod 64))) 0) as [E|E]; cbn.
  - assert (Z.testbit (Z.land w (2 ^ (nr mod 64))) (nr mod 64) = false) as B by (by rewrite E, Z.testbit_0_l).
    rewrite Z.land_spec, Z.pow2_bits_true, andb_true_r in B by lia. done.
  - destruct (Z.testbit w (nr mod 64)) eqn:B; [done|]. destruct E. apply Z.bits_inj'. intros i Hi.
    rewrite Z.land_spec, pow2_upd, Z.testbit_0_l by lia. case_bool_decide; subst; [by rewrite B|by rewrite andb_false_r].
Qed.

(** The three operations. *)
Lemma riscv_or w i : 0 <= i < 64 ->
  Z.testbit (Z.lor w (Riscv.__NOP (Riscv.BIT_MASK nr))) i = if decide (i = nr mod 64) then true else Z.testbit w i.
Proof using nr_pos.
  intros Hi. unfold Riscv.__NOP. rewrite riscv_mask, Z.lor_spec, pow2_upd by zdm.
  case_decide; [rewrite bool_decide_true by done|rewrite bool_decide_false by done]; [apply orb_true_r|apply orb_false_r].
Qed.

Lemma riscv_and w i : 0 <= i < 64 ->
  Z.testbit (Z.land w (Riscv.__NOT (Riscv.BIT_MASK nr))) i = if decide (i = nr mod 64) then false else Z.testbit w i.
Proof using nr_pos.
  intros Hi. unfold Riscv.__NOT, u64, uwrap. rewrite riscv_mask, Z.land_spec, Z.mod_pow2_bits_low, Z.lnot_spec, pow2_upd by zdm.
  case_decide; [rewrite bool_decide_true by done|rewrite bool_decide_false by done]; [apply andb_false_r|apply andb_true_r].
Qed.

Lemma riscv_xor w i : 0 <= i < 64 ->
  Z.testbit (Z.lxor w (Riscv.__NOP (Riscv.BIT_MASK nr))) i =
    if decide (i = nr mod 64) then negb (Z.testbit w (nr mod 64)) else Z.testbit w i.
Proof using nr_pos. intros Hi. unfold Riscv.__NOP. rewrite riscv_mask. apply lxor_upd. zdm. Qed.
End Riscv.

(** ** Correctness *)

Definition set1 (_ : bool) : bool := true.
Definition set0 (_ : bool) : bool := false.

Lemma x86_bits_ret m nr addr :
  mapped m (X86.word nr addr) 4 ->
  let old := b2z (getbit m addr nr) in
  X86.set_bit nr addr m = Ret tt (updbit set1 m addr nr) /\
  X86.clear_bit nr addr m = Ret tt (updbit set0 m addr nr) /\
  X86.change_bit nr addr m = Ret tt (updbit negb m addr nr) /\
  X86.test_bit nr addr m = Ret old m /\
  X86.test_and_set_bit nr addr m = Ret old (updbit set1 m addr nr) /\
  X86.test_and_clear_bit nr addr m = Ret old (updbit set0 m addr nr).
Proof.
  intros Hm old. pose proof (x86_bit_range nr) as H0.
  destruct (x86_word m nr addr Hm set1 (fun w => Z.setbit w (X86.bit nr))) as (w & L1 & S1 & T1); [intros; by apply setbit_upd|].
  destruct (x86_word m nr addr Hm set0 (fun w => Z.clearbit w (X86.bit nr))) as (w2 & L2 & S2 & T2); [intros; by apply clearbit_upd|].
  destruct (x86_word m nr addr Hm negb (fun w => Z.lxor w (2 ^ X86.bit nr))) as (w3 & L3 & S3 & T3); [intros; by apply lxor_upd|].
  rewrite L1 in L2, L3. injection L2 as <-. injection L3 as <-. unfold old. rewrite <- T1.
  split_and!.
  - unfold X86.set_bit. by mrun L1.
  - unfold X86.clear_bit. by mrun L1.
  - unfold X86.change_bit. by mrun L1.
  - unfold X86.test_bit. by mrun L1.
  - unfold X86.test_and_set_bit. mrun L1. by mrun S1.
  - unfold X86.test_and_clear_bit. mrun L1. by mrun S2.
Qed.

(** On x86-64 the bit functions are operations on the bit string at [addr],
    for every bit number, negative ones included: they change only the bit
    [nr], and the testing ones return its old value. *)
Theorem x86_bits m nr addr :
  mapped m (X86.word nr addr) 4 ->
  let old := b2z (getbit m addr nr) in
  X86.set_bit nr addr m = Ret tt (updbit set1 m addr nr) /\
  X86.clear_bit nr addr m = Ret tt (updbit set0 m addr nr) /\
  X86.change_bit nr addr m = Ret tt (updbit negb m addr nr) /\
  X86.test_bit nr addr m = Ret old m /\
  X86.test_and_set_bit nr addr m = Ret old (updbit set1 m addr nr) /\
  X86.test_and_clear_bit nr addr m = Ret old (updbit set0 m addr nr).
Proof. apply x86_bits_ret. Qed.

Lemma x86_bits_witness :
  let m := mwrite ∅ 100 (str "AB" ++ [x00; x00]) in
  let old := b2z (getbit m 100 6) in
  X86.set_bit 6 100 m = Ret tt (updbit set1 m 100 6) /\
  X86.clear_bit 6 100 m = Ret tt (updbit set0 m 100 6) /\
  X86.change_bit 6 100 m = Ret tt (updbit negb m 100 6) /\
  X86.test_bit 6 100 m = Ret old m /\
  X86.test_and_set_bit 6 100 m = Ret old (updbit set1 m 100 6) /\
  X86.test_and_clear_bit 6 100 m = Ret old (updbit set0 m 100 6).
Proof.
  intros m. apply (x86_bits m 6 100).
  exact (bytes_at_mapped m 100 (str "AB" ++ [x00; x00]) (bytes_at_mwrite _ _ _)).
Defined.

Lemma riscv_test_and_ret m nr addr :
  0 <= nr -> mapped m (addr + 8 * (nr / 64)) 8 ->
  let old := b2z (getbit m addr nr) in
  Riscv.test_and_set_bit nr addr m = Ret old (updbit set1 m addr nr) /\
  Riscv.test_and_clear_bit nr addr m = Ret old (updbit set0 m addr nr).
Proof.
  intros Hnr Hm old.
  destruct (riscv_amo m nr addr Hnr Hm set1 Z.lor _ (riscv_or nr Hnr)) as (w1 & E1 & T1).
  destruct (riscv_amo m nr addr Hnr Hm set0 Z.land _ (riscv_and nr Hnr)) as (w2 & E2 & T2). split.
  - unfold Riscv.test_and_set_bit, Riscv.__test_and_op_bit. mrun E1. rewrite riscv_tested by done. by rewrite T1.
  - unfold Riscv.test_and_clear_bit, Riscv.__test_and_op_bit. mrun E2. rewrite riscv_tested by done. by rewrite T2.
Qed.

(** C26: the RISC-V functions, which work on 64-bit words with masks, do to
    memory and return exactly what the x86-64 bit instructions do, for every bit
    number that is not negative; [test_bit] only for a bit of the first word. *)
Theorem riscv_x86_equivalent m nr addr :
  0 <= nr -> mapped m (addr + 8 * (nr / 64)) 8 ->
  Riscv.set_bit nr addr m = X86.set_bit nr addr m /\
  Riscv.clear_bit nr addr m = X86.clear_bit nr addr m /\
  Riscv.change_bit nr addr m = X86.change_bit nr addr m /\
  (nr < 64 -> Riscv.test_bit nr addr m = X86.test_bit nr addr m) /\
  Riscv.test_and_set_bit nr addr m = X86.test_and_set_bit nr addr m /\
  Riscv.test_and_clear_bit nr addr m = X86.test_and_clear_bit nr addr m.
Proof.
  intros Hnr Hm. assert (mapped m (X86.word nr addr) 4) as Hm4.
  { eapply mapped_le; [exact Hm|unfold X86.word; zdm|unfold X86.word; zdm]. }
  destruct (x86_bits_ret m nr addr Hm4) as (-> & -> & -> & -> & -> & ->).
  destruct (riscv_amo m nr addr Hnr Hm set1 Z.lor _ (riscv_or nr Hnr)) as (w1 & E1 & T1).
  destruct (riscv_amo m nr addr Hnr Hm set0 Z.land _ (riscv_and nr Hnr)) as (w2 & E2 & T2).
  destruct (riscv_amo m nr addr Hnr Hm negb Z.lxor _ (riscv_xor nr Hnr)) as (w3 & E3 & T3).
  split_and!.
  - unfold Riscv.set_bit, Riscv.__op_bit. by mrun E1.
  - unfold Riscv.clear_bit, Riscv.__op_bit. by mrun E2.
  - unfold Riscv.change_bit, Riscv.__op_bit. by mrun E3.
  - intros H64. rewrite (Z.div_small nr 64), Z.mul_0_r, Z.add_0_r in Hm by lia.
    destruct (mapped_read m addr 8 Hm) as (l & Hlen & Hl).
    destruct (word_update (fun b => b) m addr nr addr l nr (le_combine l) Hl) as [_ E];
      [rewrite Hlen; lia|done|done|intros i _; by case_decide; subst|].
    unfold Riscv.test_bit. mrun (load64_ret m addr l Hlen Hl).
    rewrite (proj2 (Z.leb_le 0 nr)), (proj2 (Z.ltb_lt nr 64)) by lia. cbn [andb]. rewrite mret_ret. f_equal.
    rewrite <- E. change 1 with (Z.ones 1). rewrite Z.land_ones, Z.shiftr_div_pow2 by lia.
    symmetry. exact (Z.testbit_spec' (le_combine l) nr Hnr).
  - by destruct (riscv_test_and_ret m nr addr Hnr Hm) as [-> _].
  - by destruct (riscv_test_and_ret m nr addr Hnr Hm) as [_ ->].
Qed.

Lemma riscv_x86_equivalent_witness :
  let m := mwrite ∅ 100 (replicate 16 "A"%byte) in
  Riscv.set_bit 70 100 m = X86.set_bit 70 100 m /\
  Riscv.clear_bit 70 100 m = X86.clear_bit 70 100 m /\
  Riscv.change_bit 70 100 m = X86.change_bit 70 100 m /\
  (70 < 64 -> Riscv.test_bit 70 100 m = X86.test_bit 70 100 m) /\
  Riscv.test_and_set_bit 70 100 m = X86.test_and_set_bit 70 100 m /\
  Riscv.test_and_clear_bit 70 100 m = X86.test_and_clear_bit 70 100 m.
Proof.
  intros m. apply (riscv_x86_equivalent m 70 100); [lia|].
  apply (mapped_le m 100 16); [|vm_compute; discriminate|vm_compute; discriminate].
  exact (bytes_at_mapped m 100 (replicate 16 "A"%byte) (bytes_at_mwrite _ _ _)).
Defined.
