(* ===== verification/USyscall.v ===== *)
(** * System calls of ucore (lib/syscall.c, lib/file.c, lib/ulib.c, include/unistd.h)

    A program reaches the kernel through the variadic [syscall].  The kernel is a
    parameter, an instance of [UKernel]; the process is its memory, the position
    in the output buffer of stdio.c and the kernel's state.  [syscall] always
    takes five arguments of type [size_t] from its argument list, whatever was
    passed: what it finds where nothing was passed, and in the upper half of the
    slot of an [int], are parameters too. *)

From S2P Require Import Prelude CMem.

(** The architectures that syscall.c has code for. *)
Inductive uarch : Set := Ux86_64 | Uriscv | Uaarch64 | Umips.

(** The trap instruction: from the call number and the argument registers to the
    result register, the error flag (used on MIPS only), the memory and the
    kernel's state afterwards; [None] when the call does not return. *)
Class UKernel (K : Type) : Type := {
  uarch_of : uarch;
  utrap : Z -> list Z -> mem -> K -> option (Z * bool * mem * K)
}.

(** The layout of the program: the unspecified values ([junk] and the upper half
    [upper] of an [int] argument), string literals, the static [buf] of stdio.c,
    [fork_lock] of ulib.c, [dir] of dir.c, the local variable [c] of [getchar]
    and [__stat] of [opendir]. *)
Class UImage : Type := {
  junk : Z;
  upper : Z;
  ulit : string -> Z;
  ubuf : Z;
  fork_lock : Z;
  udir : Z;
  getc_buf : Z;
  ustat : Z
}.

Record uproc (K : Type) : Type := UProc {
  um : mem;
  ubuf_pos : Z;
  uk : K
}.
Arguments UProc {K} _ _ _.
Arguments um {K} _.
Arguments ubuf_pos {K} _.
Arguments uk {K} _.

(** ** include/unistd.h *)

Abbreviation MIPS_SYSCALL := (4000)%Z.
Definition sys_table (a : uarch) : list (string * Z) :=
  match a with
  | Ux86_64 =>
      [("exit", 60); ("fork", 57); ("wait", 61); ("exec", 59); ("clone", 56); ("yield", 24); ("sleep", 35);
       ("kill", 62); ("gettime", 96); ("getpid", 39); ("mmap", 9); ("munmap", 11); ("shmem", -1);
       ("pgdir", -1); ("openat", 257); ("close", 3); ("read", 0); ("write", 1); ("seek", 8); ("fstat", 5);
       ("fsync", 74); ("getcwd", 79); ("getdirentry64", 217); ("dup3", 292); ("set_priority", 141)]
  | Umips =>
      [("exit", MIPS_SYSCALL + 1); ("fork", MIPS_SYSCALL + 2); ("wait", MIPS_SYSCALL + 114);
       ("exec", MIPS_SYSCALL + 11); ("clone", MIPS_SYSCALL + 120); ("yield", MIPS_SYSCALL + 162);
       ("sleep", MIPS_SYSCALL + 166); ("kill", MIPS_SYSCALL + 37); ("gettime", MIPS_SYSCALL + 78);
       ("getpid", MIPS_SYSCALL + 20); ("mmap", MIPS_SYSCALL + 90); ("munmap", MIPS_SYSCALL + 91);
       ("shmem", -1); ("pgdir", -1); ("openat", MIPS_SYSCALL + 288); ("close", MIPS_SYSCALL + 6);
       ("read", MIPS_SYSCALL + 3); ("write", MIPS_SYSCALL + 4); ("seek", MIPS_SYSCALL + 18);
       ("fstat", MIPS_SYSCALL + 198); ("fsync", MIPS_SYSCALL + 118); ("getcwd", MIPS_SYSCALL + 203);
       ("getdirentry64", MIPS_SYSCALL + 219); ("dup3", MIPS_SYSCALL + 327); ("set_priority", 141)]
  | Uriscv | Uaarch64 =>
      [("exit", 93); ("fork", -1); ("wait", 260); ("exec", 221); ("clone", 220); ("yield", 124);
       ("sleep", 101); ("kill", 129); ("gettime", 169); ("getpid", 172); ("mmap", 222); ("munmap", 215);
       ("shmem", -1); ("pgdir", -1); ("openat", 56); ("close", 57); ("read", 63); ("write", 64);
       ("seek", 62); ("fstat", 80); ("fsync", 82); ("getcwd", 17); ("getdirentry64", 61); ("dup3", 24);
       ("set_priority", 140)]
  end%string.

Fixpoint find_sys (n : string) (l : list (string * Z)) : Z :=
  match l with (x, v) :: l => if String.eqb n x then v else find_sys n l | [] => -1 end.
(** [SYS_n] on an architecture. *)
Definition sysno (n : string) (a : uarch) : Z := find_sys n (sys_table a).
Notation SYS_exit := (sysno "exit").
Notation SYS_wait := (sysno "wait").
Notation SYS_exec := (sysno "exec").
Notation SYS_clone := (sysno "clone").
Notation SYS_yield := (sysno "yield").
Notation SYS_sleep := (sysno "sleep").
Notation SYS_kill := (sysno "kill").
Notation SYS_gettime := (sysno "gettime").
Notation SYS_getpid := (sysno "getpid").
Notation SYS_mmap := (sysno "mmap").
Notation SYS_pgdir := (sysno "pgdir").
Notation SYS_openat := (sysno "openat").
Notation SYS_close := (sysno "close").
Notation SYS_read := (sysno "read").
Notation SYS_write := (sysno "write").
Notation SYS_seek := (sysno "seek").
Notation SYS_fstat := (sysno "fstat").
Notation SYS_fsync := (sysno "fsync").
Notation SYS_getcwd := (sysno "getcwd").
Notation SYS_getdirentry64 := (sysno "getdirentry64").
Notation SYS_dup3 := (sysno "dup3").
Notation SYS_set_priority := (sysno "set_priority").

Abbreviation CLONE_VM := (256)%Z.
Abbreviation CLONE_VFORK := (16384)%Z.
Abbreviation O_RDONLY := (0)%Z.
Abbreviation O_WRONLY := (1)%Z.
Abbreviation O_RDWR := (2)%Z.
Abbreviation O_CREAT := (4)%Z.
Abbreviation O_TRUNC := (16)%Z.
Abbreviation EXEC_MAX_ARG_NUM := (32)%nat.
Abbreviation MAX_ARGS := (5)%nat.

Section Calls.
Context {K : Type} `{UKernel K} `{UImage}.

Definition set_um (m : mem) (p : uproc K) : uproc K := UProc m (ubuf_pos p) (uk p).
Definition set_upos (z : Z) (p : uproc K) : uproc K := UProc (um p) z (uk p).
Definition onum {A} (f : M mem A) : M (uproc K) A := zoom um set_um f.

Lemma onum_ret {A} (f : M mem A) p a m' : f (um p) = Ret a m' -> onum f p = Ret a (set_um m' p).
Proof. apply zoom_ret. Qed.

Lemma set_um_id p : set_um (um p) p = p.
Proof. by destruct p. Qed.

Lemma onum_pure {A} (f : M mem A) p a : f (um p) = Ret a (um p) -> onum f p = Ret a p.
Proof. intros E. by rewrite (onum_ret _ _ _ _ E), set_um_id. Qed.

(** An [int] passed for a parameter of the list. *)
Definition ivar (x : Z) : Z := u32 x + 2 ^ 32 * upper.

(** The registers: five words of the list; the code for RISC-V and MIPS also
    loads [a[5]], the word behind the array. *)
Definition regs (args : list Z) : list Z :=
  let a := take MAX_ARGS (args ++ replicate MAX_ARGS junk) in
  match uarch_of with Uriscv | Umips => a ++ [junk] | _ => a end.

Definition syscall (num : uarch -> Z) (args : list Z) : M (uproc K) Z := fun p =>
  match utrap (num uarch_of) (regs args) (um p) (uk p) with
  | Some (r, e, m, k) =>
      let ret := match uarch_of with Umips => if e : bool then - r else r | _ => r end in
      Ret (s32 ret) (UProc m (ubuf_pos p) k)
  | None => Halt (hd 0 args) p
  end.

(** ** lib/syscall.c *)

Definition sys_exit (error_code : Z) := syscall SYS_exit [ivar error_code].
Definition sys_fork :=
  syscall SYS_clone [ivar (Z.lor (Z.lor CLONE_VFORK CLONE_VM) 17); ivar 0].
Definition sys_wait (pid store : Z) := syscall SYS_wait [ivar pid; store].
Definition sys_yield := syscall SYS_yield [].
Definition sys_kill (pid : Z) := syscall SYS_kill [ivar pid; ivar 9].
Definition sys_getpid := syscall SYS_getpid [].
Definition sys_pgdir := syscall SYS_pgdir [].
Definition sys_set_priority (priority : Z) : M (uproc K) unit :=
  _ ← syscall SYS_set_priority [ivar priority]; mret tt.
Definition sys_sleep (time : Z) := syscall SYS_sleep [ivar time].
Definition sys_gettime := syscall SYS_gettime [].
Definition sys_exec (name argc argv : Z) := syscall SYS_exec [name; ivar argc; argv].
Definition sys_open (path open_flags : Z) := syscall SYS_openat [ivar (-100); path; ivar open_flags].
Definition sys_close (fd : Z) := syscall SYS_close [ivar fd].
Definition sys_read (fd base len : Z) := syscall SYS_read [ivar fd; base; len].
Definition sys_write (fd base len : Z) := syscall SYS_write [ivar fd; base; len].
Definition sys_seek (fd pos whence : Z) := syscall SYS_seek [ivar fd; pos; ivar whence].
Definition sys_fstat (fd stat : Z) := syscall SYS_fstat [ivar fd; stat].
Definition sys_fsync (fd : Z) := syscall SYS_fsync [ivar fd].
Definition sys_getcwd (buffer len : Z) := syscall SYS_getcwd [buffer; len].
Definition sys_getdirentry (fd dirent : Z) := syscall SYS_getdirentry64 [ivar fd; dirent].
Definition sys_dup (fd1 fd2 : Z) := syscall SYS_dup3 [ivar fd1; ivar fd2].
(** Six arguments are passed, the [int] result becomes a pointer. *)
Definition sys_mmap (addr len prot flags fd offset : Z) : M (uproc K) Z :=
  r ← syscall SYS_mmap [addr; len; ivar prot; ivar flags; ivar fd; offset]; mret (u64 r).

(** ** lib/file.c *)

Definition open := sys_open.
Definition close := sys_close.
Definition read := sys_read.
Definition write := sys_write.
Definition seek := sys_seek.
Definition fstat := sys_fstat.
Definition fsync := sys_fsync.
Definition dup2 := sys_dup.

(** ** lib/ulib.c *)

Definition fork := sys_fork.
Definition wait := sys_wait 0 0.
Definition waitpid := sys_wait.
Definition yield : M (uproc K) unit := _ ← sys_yield; mret tt.
Definition kill := sys_kill.
Definition getpid := sys_getpid.
Definition print_pgdir : M (uproc K) unit := _ ← sys_pgdir; mret tt.
Definition lab6_set_priority := sys_set_priority.
Definition sleep := sys_sleep.
Definition gettime_msec : M (uproc K) Z := r ← sys_gettime; mret (u32 r).

(** [argc] is the number of pointers before the null pointer. *)
Definition __exec (name argv : Z) : M (uproc K) Z :=
  fuel ← onum scan_fuel;
  argc ← loop fuel (fun argc =>
    p ← onum (load64 (argv + 8 * argc));
    if p =? 0 then mret (inr argc) else mret (inl (argc + 1))) 0;
  sys_exec name argc argv.
End Calls.
