(* ===== verification/ULock.v ===== *)
(** * Spin locks of ucore (include/lock.h, [lock_fork] of lib/ulib.c)

    A lock is bit 0 of an [int]; [lock] repeats [test_and_set_bit], and yields
    the processor between two attempts.  What the code relies on is the class
    [BitLaws]; the operations of x86-64 and RISC-V are instances, the stubs of
    aarch64 and MIPS are not.  The threads of a program are a step relation for
    each of the two.  On RISC-V a bit operation is one atomic instruction
    ([amoor.d], [amoand.d]), so it is one step.  On x86-64 it is an instruction
    without the [lock] prefix, a load and a store that another processor can come
    between: [Split] has one step per memory access. *)

From S2P Require Import Prelude CMem UBits USyscall.
From coqutil Require Import Word.LittleEndianList.

(** The [atomic.h] that an architecture includes. *)
Definition test_and_set_bit (a : uarch) : Z -> Z -> M mem Z :=
  match a with
  | Ux86_64 => X86.test_and_set_bit
  | Uriscv => Riscv.test_and_set_bit
  | Uaarch64 | Umips => Stub.test_and_set_bit
  end.
Definition test_and_clear_bit (a : uarch) : Z -> Z -> M mem Z :=
  match a with
  | Ux86_64 => X86.test_and_clear_bit
  | Uriscv => Riscv.test_and_clear_bit
  | Uaarch64 | Umips => Stub.test_and_clear_bit
  end.

Definition lock_init (l : Z) : M mem unit := store32 l 0.
Definition try_lock (a : uarch) (l : Z) : M mem Z := test_and_set_bit a 0 l.
Definition unlock (a : uarch) (l : Z) : M mem unit := _ ← test_and_clear_bit a 0 l; mret tt.

Section Lock.
Context {K : Type} `{UKernel K} `{UImage}.

(** The body of the [do] loop, from one value of [step] to the next. *)
Definition lock_wait (step : Z) : M (uproc K) Z :=
  _ ← yield;
  if step + 1 =? 100 then _ ← sleep 10; mret 0 else mret (step + 1).
Definition lock (fuel : nat) (l : Z) : M (uproc K) unit :=
  r ← onum (try_lock uarch_of l);
  if r =? 0 then mret tt
  else loop fuel (fun step =>
    step ← lock_wait step;
    r ← onum (try_lock uarch_of l);
    mret (if r =? 0 then inr tt else inl step)) 0.

(** lib/ulib.c *)
Definition lock_fork (fuel : nat) : M (uproc K) unit := lock fuel fork_lock.
Definition unlock_fork : M (uproc K) unit := onum (unlock uarch_of fork_lock).
End Lock.

(** ** What the lock relies on

    The two operations on bit 0 of an object of [n] bytes return the old bit and
    change nothing else. *)
Class BitLaws (a : uarch) (n : Z) : Prop := {
  law_set m l : mapped m l n -> test_and_set_bit a 0 l m = Ret (b2z (getbit m l 0)) (updbit set1 m l 0);
  law_clear m l : mapped m l n -> test_and_clear_bit a 0 l m = Ret (b2z (getbit m l 0)) (updbit set0 m l 0);
  law_size : 4 <= n
}.

#[export] Instance x86_laws : BitLaws Ux86_64 4.
Proof.
  assert (forall l, X86.word 0 l = l) as Ew by (intros; unfold X86.word; change (0 / 32) with 0; lia).
  split; [..|lia]; intros m l Hm; rewrite <- (Ew l) in Hm; by destruct (x86_bits_ret m 0 l Hm) as (_ & _ & _ & _ & ? & ?).
Qed.

(** The instructions of RISC-V access eight bytes. *)
#[export] Instance riscv_laws : BitLaws Uriscv 8.
Proof.
  assert (forall l, l + 8 * (0 / 64) = l) as Ew by (intros; change (0 / 64) with 0; lia).
  split; [..|lia]; intros m l Hm; rewrite <- (Ew l) in Hm; by destruct (riscv_test_and_ret m 0 l ltac:(lia) Hm).
Qed.

(** [lock] of a free lock sets its bit and asks the kernel for nothing. *)
Lemma lock_free_ret {K} `{UKernel K} `{UImage} n `{BitLaws uarch_of n} fuel l (p : uproc K) :
  mapped (um p) l n -> getbit (um p) l 0 = false ->
  lock fuel l p = Ret tt (set_um (updbit set1 (um p) l 0) p).
Proof.
  intros Hm Hb. unfold lock. pose proof (law_set (um p) l Hm) as E. rewrite Hb in E.
  by mrun (onum_ret (try_lock uarch_of l) p _ _ E).
Qed.

(** ** Threads *)

(** Outside; before an attempt; between two attempts (in [yield] or [sleep]);
    inside. *)
Inductive pc : Type := Out | Try | Wait | Held.
Definition is_held (p : pc) : bool := match p with Held => true | _ => false end.

Section Threads.
Context (l : Z).

(** The code outside the lock functions may change any memory but the lock, the
    neighbours that the eight-byte instructions also access included; it unmaps
    nothing. *)
Definition off_lock (m m' : mem) : Prop :=
  (forall p, l <= p < l + 4 -> m' !! p = m !! p) /\ (forall p, is_Some (m !! p) -> is_Some (m' !! p)).

(** RISC-V: the bit operation of [try_lock] and that of [unlock] are single
    atomic instructions. *)
Inductive lock_step : mem * list pc -> mem * list pc -> Prop :=
  | l_enter m ts i : ts !! i = Some Out -> lock_step (m, ts) (m, <[i := Try]> ts)
  | l_try m ts i r m' : ts !! i = Some Try -> try_lock Uriscv l m = Ret r m' ->
      lock_step (m, ts) (m', <[i := if r =? 0 then Held else Wait]> ts)
  | l_yield m ts i : ts !! i = Some Wait -> lock_step (m, ts) (m, <[i := Try]> ts)
  | l_unlock m ts i m' : ts !! i = Some Held -> unlock Uriscv l m = Ret tt m' ->
      lock_step (m, ts) (m', <[i := Out]> ts)
  | l_other m ts m' : off_lock m m' -> lock_step (m, ts) (m', ts).

(** [k] threads after [lock_init]. *)
Definition lock_reachable (m0 : mem) (k : nat) (s : mem * list pc) : Prop :=
  exists m, lock_init l m0 = Ret tt m /\ rtc lock_step (m, replicate k Out) s.

Record lock_inv (s : mem * list pc) : Prop := LockInv {
  li_mapped : mapped s.1 l 8;
  li_held : count is_held s.2 = b2z (getbit s.1 l 0)
}.

Lemma mapped_updbit g m : mapped m l 8 -> mapped (updbit g m l 0) l 8.
Proof.
  intros Hm p Hp. unfold updbit. destruct (decide (p = l + 0 / 8)) as [->|Hne].
  - rewrite lookup_alter_eq. by apply fmap_is_Some, Hm.
  - rewrite lookup_alter_ne by done. by apply Hm.
Qed.

Lemma getbit_updbit g m : mapped m l 8 -> getbit (updbit g m l 0) l 0 = g (getbit m l 0).
Proof.
  intros Hm. unfold getbit, updbit. rewrite lookup_alter_eq.
  destruct (Hm (l + 0 / 8)) as [b ->]; [change (0 / 8) with 0; lia|]. cbn [fmap option_fmap option_map].
  rewrite testbit_byte, updb_spec by done. by rewrite decide_True by done.
Qed.

Lemma getbit_off m m' : off_lock m m' -> getbit m' l 0 = getbit m l 0.
Proof. intros [Ho _]. unfold getbit. change (0 / 8) with 0. by rewrite Ho by lia. Qed.

Lemma unlock_ret m : mapped m l 8 -> unlock Uriscv l m = Ret tt (updbit set0 m l 0).
Proof. intros Hm. unfold unlock. by mrun (law_clear m l Hm). Qed.

Lemma lock_inv_step s s' : lock_inv s -> lock_step s s' -> lock_inv s'.
Proof.
  intros [Hm Hh] Hst. destruct Hst as [m ts i Ei|m ts i r m' Ei Et|m ts i Ei|m ts i m' Ei Eu|m ts m' Ho]; cbn [fst snd] in *.
  - split; [done|]. cbn [fst snd]. rewrite (count_insert _ _ _ _ _ Ei), Hh. cbn. lia.
  - unfold try_lock in Et. rewrite (law_set m l Hm) in Et. injection Et as <- <-.
    split; cbn [fst snd]; [by apply mapped_updbit|]. rewrite (count_insert _ _ _ _ _ Ei), Hh, getbit_updbit by done.
    by destruct (getbit m l 0).
  - split; [done|]. cbn [fst snd]. rewrite (count_insert _ _ _ _ _ Ei), Hh. cbn. lia.
  - rewrite (unlock_ret m Hm) in Eu. injection Eu as <-. split; cbn [fst snd]; [by apply mapped_updbit|].
    rewrite (count_insert _ _ _ _ _ Ei), Hh, getbit_updbit by done. pose proof (count_pos is_held _ _ _ Ei eq_refl) as Hp.
    destruct (getbit m l 0); cbn in *; lia.
  - split; cbn [fst snd].
    + intros p Hp. by apply Ho, Hm.
    + by rewrite (getbit_off m m').
Qed.

Lemma lock_init_inv m0 m k :
  mapped m0 l 8 -> lock_init l m0 = Ret tt m -> lock_inv (m, replicate k Out).
Proof.
  intros Hm E. assert (mapped m0 l 4) as H4 by (eapply mapped_le; [exact Hm|lia|lia]).
  unfold lock_init in E. rewrite (store32_ret m0 l 0 H4) in E. assert (mwrite m0 l (le_split 4 0) = m) as <- by congruence. split; cbn [fst snd].
  - by apply mapped_mwrite.
  - unfold getbit. change (0 / 8) with 0. rewrite Z.add_0_r, (mwrite_in _ _ _ _ x00); [|lia|by rewrite Z.sub_diag].
    induction k; [done|]. by cbn.
Qed.

Lemma lock_inv_reachable m0 k s : mapped m0 l 8 -> lock_reachable m0 k s -> lock_inv s.
Proof.
  intros Hm (m & E & Hr). pose proof (lock_init_inv m0 m k Hm E) as Hi. revert Hi.
  induction Hr as [|x y z Hs _ IH]; [done|]. intros Hi. apply IH. by eapply lock_inv_step.
Qed.

(** C27: On RISC-V, where the bit operations are atomic instructions, threads that
    use a lock exclude each other: at most one of them is inside, and bit 0 of the
    lock is set exactly when one is, whatever the threads do to all other memory.
    The lock is not lost: an attempt made while no thread is inside succeeds, and
    the thread inside can leave.  The lock has to be aligned to eight bytes, and
    the eight bytes that the instructions access have to be mapped.  In which order
    a processor sees the accesses of another one to other memory is not part of
    this. *)
Theorem lock_exclusive m0 k s :
  l mod 8 = 0 -> mapped m0 l 8 -> lock_reachable m0 k s ->
  count is_held s.2 = b2z (getbit s.1 l 0) /\
  (forall i j, s.2 !! i = Some Held -> s.2 !! j = Some Held -> i = j) /\
  (forall i, s.2 !! i = Some Try -> count is_held s.2 = 0 ->
     exists m', lock_step s (m', <[i := Held]> s.2)) /\
  (forall i, s.2 !! i = Some Held -> exists m', lock_step s (m', <[i := Out]> s.2)).
Proof.
  intros _ Hm Hr. destruct (lock_inv_reachable m0 k s Hm Hr) as [Hms Hh]. destruct s as [m ts]. cbn [fst snd] in *.
  split_and!; [done| | |].
  - intros i j Hi Hj. destruct (decide (i = j)) as [|Hne]; [done|]. exfalso.
    assert (<[i := Out]> ts !! j = Some Held) as Hj' by by rewrite list_lookup_insert_ne.
    pose proof (count_pos is_held _ _ _ Hj' eq_refl) as Hp. rewrite (count_insert _ _ _ _ _ Hi) in Hp.
    destruct (getbit m l 0); cbn in *; lia.
  - intros i Hi Hc. eexists. assert (getbit m l 0 = false) as Hb by (destruct (getbit m l 0); cbn in *; [lia|done]).
    apply (l_try m ts i (b2z false)); [done|]. rewrite <- Hb. exact (law_set m l Hms).
  - intros i Hi. eexists. apply l_unlock; [done|]. exact (unlock_ret m Hms).
Qed.
End Threads.

(** The memory with only a lock at 64 and its neighbour, in the initial state. *)
Definition lock_word : mem := mwrite ∅ 64 (replicate 8 x00).

Lemma lock_exclusive_witness :
  let s := (updbit set1 lock_word 64 0, [Wait; Held]) in
  count is_held s.2 = b2z (getbit s.1 64 0) /\
  (forall i j, s.2 !! i = Some Held -> s.2 !! j = Some Held -> i = j) /\
  (forall i, s.2 !! i = Some Try -> count is_held s.2 = 0 ->
     exists m', lock_step 64 s (m', <[i := Held]> s.2)) /\
  (forall i, s.2 !! i = Some Held -> exists m', lock_step 64 s (m', <[i := Out]> s.2)).
Proof.
  refine (lock_exclusive 64 lock_word 2 _ _ _ _).
  - reflexivity.
  - exact (bytes_at_mapped _ _ (replicate 8 x00) (bytes_at_mwrite _ _ _)).
  - exists lock_word. split; [vm_compute; reflexivity|].
    eapply rtc_l; [apply (l_enter _ _ _ 0); reflexivity|]. eapply rtc_l; [apply (l_enter _ _ _ 1); reflexivity|].
    eapply rtc_l; [apply (l_try _ _ _ 1 0 (updbit set1 lock_word 64 0)); vm_compute; reflexivity|].
    eapply rtc_l; [apply (l_try _ _ _ 0 1 (updbit set1 lock_word 64 0)); vm_compute; reflexivity|].
    apply rtc_refl.
Defined.

(** ** One step per memory access on x86-64 *)

Module Split.
(** [btsl] has loaded [w] but not stored yet. *)
Inductive pc : Type := Try | Loaded (w : Z) | Wait | Held.

Inductive split_step (l : Z) : mem * list pc -> mem * list pc -> Prop :=
  | s_load m ts i w : ts !! i = Some Try -> load32 (X86.word 0 l) m = Ret w m ->
      split_step l (m, ts) (m, <[i := Loaded w]> ts)
  | s_store m ts i w m' : ts !! i = Some (Loaded w) ->
      store32 (X86.word 0 l) (Z.setbit w (X86.bit 0)) m = Ret tt m' ->
      split_step l (m, ts) (m', <[i := if Z.testbit w (X86.bit 0) then Wait else Held]> ts).

(** The two accesses of one thread without another in between are the function. *)
Lemma split_try l m i ts r m' :
  ts !! i = Some Try -> try_lock Ux86_64 l m = Ret r m' ->
  rtc (split_step l) (m, ts) (m', <[i := if r =? 0 then Held else Wait]> ts).
Proof.
  intros Hi E. unfold try_lock, test_and_set_bit, X86.test_and_set_bit in E. apply bind_inv in E as (w & m1 & E1 & E2).
  apply bind_inv in E2 as ([] & m2 & E2 & E3). assert (r = b2z (Z.testbit w (X86.bit 0)) /\ m2 = m') as [-> ->] by (rewrite mret_ret in E3; split; congruence).
  assert (m1 = m) as -> by (unfold load32 in E1; destruct mread; [by injection E1|done]).
  eapply rtc_l; [by apply s_load|]. eapply rtc_l.
  { eapply (s_store l m _ i w); [apply list_lookup_insert_eq; by eapply lookup_lt_Some|exact E2]. }
  rewrite list_insert_insert_eq. by destruct (Z.testbit w (X86.bit 0)).
Qed.
End Split.

(** C28: Without a [lock] prefix the processors are not excluded: when both load
    the lock before either stores it, both attempts succeed. *)
Theorem x86_lock_races l m :
  mapped m l 4 ->
  exists m1 m2, lock_init l m = Ret tt m1 /\ rtc (Split.split_step l) (m1, [Split.Try; Split.Try]) (m2, [Split.Held; Split.Held]).
Proof.
  intros Hm. exists (mwrite m l (le_split 4 0)). assert (X86.word 0 l = l) as El by (unfold X86.word; change (0 / 32) with 0; lia).
  eexists. split; [by apply store32_ret|]. set (m1 := mwrite m l _).
  assert (load32 (X86.word 0 l) m1 = Ret 0 m1) as Hl.
  { unfold load32. rewrite El. pose proof (proj2 (mread_bytes_at m1 l (le_split 4 0)) (bytes_at_mwrite m l _)) as E. change (length (le_split 4 0)) with 4%nat in E. by rewrite E. }
  assert (forall m', mapped m' l 4 -> store32 (X86.word 0 l) (Z.setbit 0 (X86.bit 0)) m' = Ret tt (mwrite m' l (le_split 4 1))) as Hst.
  { intros m' Hm'. rewrite El. exact (store32_ret m' l 1 Hm'). }
  eapply rtc_l; [apply (Split.s_load l m1 _ 0 0); [reflexivity|exact Hl]|].
  eapply rtc_l; [apply (Split.s_load l m1 _ 1 0); [reflexivity|exact Hl]|].
  eapply rtc_l; [eapply (Split.s_store l m1 _ 0 0); [reflexivity|apply Hst; by apply mapped_mwrite]|].
  eapply rtc_l; [eapply (Split.s_store l _ _ 1 0); [reflexivity|apply Hst; by do 2 apply mapped_mwrite]|].
  apply rtc_refl.
Qed.

Lemma x86_lock_races_witness :
  exists m1 m2, lock_init 64 lock_word = Ret tt m1 /\
    rtc (Split.split_step 64) (m1, [Split.Try; Split.Try]) (m2, [Split.Held; Split.Held]).
Proof.
  apply (x86_lock_races 64 lock_word). eapply mapped_le.
  - exact (bytes_at_mapped _ _ (replicate 8 x00) (bytes_at_mwrite _ _ _)).
  - lia.
  - change (64 + 4 <= 64 + 8). lia.
Defined.
