(* ===== verification/UStdio.v ===== *)
(** * Output and termination of ucore programs (lib/stdio.c, lib/panic.c, lib/ulib.c)

    Output is collected in the static array [buf] of 1024 bytes; the NUL that
    [vprintfmt] hands to its callback at the end makes [fputch] write the buffer
    out.  The callback also updates the caller's counter, so the state is the
    process together with that counter. *)

From S2P Require Import Prelude CMem Digits UString UPrintfmt USyscall.

Abbreviation stdin := (0)%Z.
Abbreviation stdout := (1)%Z.
Abbreviation NO_FD := (-38183)%Z.
(** [sizeof(buf)] *)
Definition OUTSIZ : Z := 1024.

Section Stdio.
Context {K : Type} `{UKernel K} `{UImage}.

(** The process and the variable that [cnt] points to. *)
Definition cstate : Type := uproc K * Z.
Definition onproc {A} (f : M (uproc K) A) : M cstate A := zoom fst (fun p s => (p, s.2)) f.

Definition fputch (fd c : Z) : M cstate unit :=
  pos ← gets (fun s => ubuf_pos s.1);
  if negb (c =? 0) then
    if (0 <=? pos) && (pos <? OUTSIZ) then
      _ ← onproc (onum (stc (ubuf + pos) c)); onproc (modify (set_upos (pos + 1)))
    else ub
  else
    _ ← modify (fun s => (s.1, pos));
    _ ← onproc (write fd ubuf (u64 pos));
    onproc (modify (set_upos 0)).
Definition cputch (c : Z) : M cstate unit := fputch stdout (s8 c).

(** [int cnt = 0; ...; return cnt] *)
Definition counting (e : M cstate unit) : M (uproc K) Z := fun p =>
  match e (p, 0) with
  | Ret _ s => Ret s.2 s.1
  | Halt c s => Halt c s.1
  | Ub => Ub
  | Spin => Spin
  end.

Definition vprintfmt_to (putch : Z -> M cstate unit) (fmt : Z) (ap : list Z) : M cstate unit :=
  vprintfmt (fun s => um s.1) (fun m s => (set_um m s.1, s.2)) putch fmt ap.

Definition vcprintf (fmt : Z) (ap : list Z) : M (uproc K) Z := counting (vprintfmt_to cputch fmt ap).
Definition cprintf := vcprintf.
Definition vfprintf (fd fmt : Z) (ap : list Z) : M (uproc K) Z := counting (vprintfmt_to (fputch fd) fmt ap).
Definition fprintf := vfprintf.

Definition cputs (s : Z) : M (uproc K) Z := counting (
  fuel ← onproc (onum scan_fuel);
  _ ← loop fuel (fun s =>
    c ← onproc (onum (ldc s));
    if c =? 0 then mret (inr tt) else _ ← cputch c; mret (inl (s + 1))) s;
  cputch 10).

(** [c] keeps what it held when [read] stores nothing. *)
Definition getchar : M (uproc K) Z :=
  r ← read stdin getc_buf 1;
  if r <? 0 then mret (-1) else onum (ldc getc_buf).

(** ** Termination *)

Definition exit (error_code : Z) : M (uproc K) unit :=
  _ ← sys_exit error_code;
  _ ← cprintf (ulit "BUG: exit failed.\n") [];
  spin.

Definition __panic (file line fmt : Z) (ap : list Z) : M (uproc K) unit :=
  _ ← cprintf (ulit "user panic at %s:%d:\n    ") [file; line];
  _ ← vcprintf fmt ap;
  _ ← cprintf (ulit "\n") [];
  exit (- E_PANIC).
Definition __warn (file line fmt : Z) (ap : list Z) : M (uproc K) unit :=
  _ ← cprintf (ulit "user warning at %s:%d:\n    ") [file; line];
  _ ← vcprintf fmt ap;
  _ ← cprintf (ulit "\n") [];
  mret tt.

(** lib/umain.c *)
Definition umain (main : Z -> Z -> M (uproc K) Z) (argc argv : Z) : M (uproc K) unit :=
  ret ← main argc argv; exit ret.
End Stdio.

(** ** What output relies on

    [write] of mapped bytes to a descriptor appends them to what was written to
    it so far, or fails; it changes nothing else. *)
Class UFileKernel (K : Type) `{UKernel K} `{UImage} : Type := {
  uout : K -> Z -> list byte;
  uwrite m k fd a l :
    0 <= fd < 2 ^ 31 -> bytes_at m a l -> Z.of_nat (length l) < 2 ^ 31 ->
    exists r e k', utrap (SYS_write uarch_of) (regs [ivar fd; a; Z.of_nat (length l)]) m k = Some (r, e, m, k') /\
      (forall fd', fd' <> fd -> uout k' fd' = uout k fd') /\ (uout k' fd = uout k fd ++ l \/ uout k' fd = uout k fd)
}.

(** The kernel that always accepts the bytes. *)
Definition all_written {K} `{UFileKernel K} : Prop :=
  forall m k fd a l r e m' k', 0 <= fd < 2 ^ 31 -> bytes_at m a l ->
  utrap (SYS_write uarch_of) (regs [ivar fd; a; Z.of_nat (length l)]) m k = Some (r, e, m', k') ->
  uout k' fd = uout k fd ++ l.

Section Output.
Context {K : Type} `{UFK : UFileKernel K}.
Implicit Types p : uproc K.

(** [q] is pending in the buffer. *)
Definition pending p (q : list byte) : Prop :=
  ubuf_pos p = Z.of_nat (length q) /\ bytes_at (um p) ubuf q /\ mapped (um p) ubuf OUTSIZ.

Lemma onproc_ret {A} (f : M (uproc K) A) p c a p' : f p = Ret a p' -> onproc f (p, c) = Ret a (p', c).
Proof. intros E. exact (zoom_ret fst (fun p s => (p, s.2)) f (p, c) a p' E). Qed.

(** The process with one more pending character. *)
Definition put (b : byte) p : uproc K := UProc (<[ubuf + ubuf_pos p := b]> (um p)) (ubuf_pos p + 1) (uk p).

Lemma fputch_ret fd p q c b :
  pending p q -> b <> x00 -> Z.of_nat (length q) < OUTSIZ ->
  fputch fd (schar b) (p, c) = Ret tt (put b p, c) /\ pending (put b p) (q ++ [b]).
Proof.
  intros (Hpos & Hq & Hm) Hb Hlen. unfold fputch. mrun (eq_refl : gets (fun s => ubuf_pos s.1) (p, c) = Ret (ubuf_pos p) (p, c)).
  rewrite schar_nz by done. cbn [negb]. rewrite Hpos, (proj2 (Z.leb_le 0 _)), (proj2 (Z.ltb_lt _ _)) by lia. cbn [andb].
  assert (is_Some (um p !! (ubuf + Z.of_nat (length q)))) as Hs by (apply Hm; unfold OUTSIZ in *; lia).
  mrun (onproc_ret _ p c _ _ (onum_ret _ p _ _ (stc_ret _ _ (schar b) Hs))). rewrite byte_of_schar. split.
  - unfold put. by rewrite Hpos.
  - unfold put, pending. cbn [um ubuf_pos]. rewrite Hpos, length_app. split_and!; [cbn; lia| |by apply mapped_insert].
    apply bytes_at_app. split; [apply bytes_at_insert_out; [done|lia]|]. cbn. by rewrite lookup_insert_eq.
Qed.

Lemma putall_ret fd : forall u p q c,
  pending p q -> x00 ∉ u -> Z.of_nat (length (q ++ u)) <= OUTSIZ ->
  exists p', putall (fputch fd) u (p, c) = Ret tt (p', c) /\ pending p' (q ++ u) /\ uk p' = uk p /\
    um p' = mwrite (um p) (ubuf + Z.of_nat (length q)) u.
Proof.
  induction u as [|b u IH]; intros p q c Hp Hu Hlen.
  { exists p. rewrite app_nil_r. done. }
  apply not_elem_of_cons in Hu as [Hb Hu]. rewrite length_app in Hlen. cbn [length] in Hlen.
  destruct (fputch_ret fd p q c b Hp) as [E1 Hp1]; [done|lia|].
  destruct (IH (put b p) (q ++ [b]) c Hp1 Hu) as (p' & E & Hp' & Hk & Hm); [rewrite !length_app; cbn [length]; lia|].
  exists p'. cbn [putall]. mrun E1. rewrite <- app_assoc in Hp'. do 3 (split; [done|]).
  rewrite Hm. cbn [mwrite um put]. destruct Hp as [-> _].
  rewrite length_app. cbn [length]. rewrite mwrite_insert_comm by lia.
  by replace (ubuf + Z.of_nat (length q + 1)) with (ubuf + Z.of_nat (length q) + 1) by lia.
Qed.

(** Writing the buffer out. *)
Lemma flush_ret fd p q c :
  pending p q -> Z.of_nat (length q) <= OUTSIZ -> 0 <= fd < 2 ^ 31 ->
  exists k', fputch fd 0 (p, c) = Ret tt (UProc (um p) 0 k', Z.of_nat (length q)) /\
    (forall fd', fd' <> fd -> uout k' fd' = uout (uk p) fd') /\
    (uout k' fd = uout (uk p) fd ++ q \/ (~ all_written /\ uout k' fd = uout (uk p) fd)).
Proof.
  intros (Hpos & Hq & Hm) Hlen Hfd. unfold OUTSIZ in *.
  destruct (uwrite (um p) (uk p) fd ubuf q Hfd Hq ltac:(lia)) as (r & e & k' & E & Ho & Hc).
  exists k'. split.
  - unfold fputch. mrun (eq_refl : gets (fun s => ubuf_pos s.1) (p, c) = Ret (ubuf_pos p) (p, c)).
    change (negb (0 =? 0)) with false. cbv iota. rewrite Hpos.
    mrun (eq_refl : modify (fun s => (s.1, Z.of_nat (length q))) (p, c) = Ret tt (p, Z.of_nat (length q))).
    assert (u64 (Z.of_nat (length q)) = Z.of_nat (length q)) as -> by (apply uwrap_id; unfold_int; lia).
    assert (exists r', write fd ubuf (Z.of_nat (length q)) p = Ret r' (UProc (um p) (ubuf_pos p) k')) as [r' Ew].
    { unfold write, sys_write, syscall. rewrite E. eauto. }
    by mrun (onproc_ret _ p (Z.of_nat (length q)) _ _ Ew).
  - split; [done|]. destruct Hc as [Hc|Hc]; [by left|]. destruct (decide (q = [])) as [->|Hne].
    { left. by rewrite app_nil_r. }
    right. split; [|done]. intros Hall. specialize (Hall _ _ _ _ _ _ _ _ _ Hfd Hq E). rewrite Hall in Hc.
    apply Hne. apply (app_inv_head (uout (uk p) fd)). by rewrite app_nil_r.
Qed.

(** The process after the output of [q ++ u], of which [q] was pending. *)
Definition wrote fd p (q u : list byte) (k' : K) : Prop :=
  (forall fd', fd' <> fd -> uout k' fd' = uout (uk p) fd') /\
  (uout k' fd = uout (uk p) fd ++ q ++ u \/ (~ all_written /\ uout k' fd = uout (uk p) fd)).

Lemma vfprintf_ret fd p q fmt l args t :
  let u := upto_nul t in
  pending p q -> cstr (um p) fmt (concat (item_text <$> l)) -> renders (um p) l args t ->
  (length t < BUFSIZE)%nat -> Z.of_nat (length (q ++ u)) <= OUTSIZ -> 0 <= fd < 2 ^ 31 ->
  exists k', vfprintf fd fmt args p
      = Ret (Z.of_nat (length (q ++ u))) (UProc (mwrite (um p) (ubuf + Z.of_nat (length q)) u) 0 k') /\
    wrote fd p q u k'.
Proof.
  intros u Hp Hf Hr Ht Hlen Hfd. destruct (format_ret (um p) fmt l args t Hf Hr Ht) as [args' E].
  assert (x00 ∉ u) as Hu.
  { intros Hin%list_elem_of_In. pose proof (upto_nul_nonul t) as Hn.
    by apply (proj1 (List.Forall_forall _ _) Hn x00 Hin). }
  destruct (putall_ret fd u p q 0 Hp Hu Hlen) as (p1 & E1 & Hp1 & Hk1 & Hm1).
  destruct (flush_ret fd p1 (q ++ u) 0 Hp1 Hlen Hfd) as (k' & E2 & Ho & Hc).
  exists k'. rewrite Hk1 in Ho, Hc. split; [|by split].
  unfold vfprintf, counting, vprintfmt_to, vprintfmt. cbn [fst snd]. rewrite E. cbn [f_out f_mem].
  rewrite decide_True by done. rewrite set_um_id. fold u. mrun E1. rewrite E2. cbn [fst snd]. by rewrite Hm1.
Qed.

(** [cputch] is [fputch] to the standard output. *)
Lemma cputch_schar b : cputch (schar b) = fputch stdout (schar b).
Proof. unfold cputch. f_equal. apply swrap_id; [lia|]. pose proof (schar_range b). unfold_int. lia. Qed.

Lemma vcprintf_vfprintf fmt ap p : vcprintf fmt ap p = vfprintf stdout fmt ap p.
Proof.
  unfold vcprintf, vfprintf, counting, vprintfmt_to, vprintfmt.
  assert (forall l s, putall cputch l s = putall (fputch stdout) l s) as E.
  { induction l as [|b l IH]; intros s; [done|]. cbn [putall]. rewrite cputch_schar. munfold.
    destruct (fputch stdout (schar b) s); [apply IH|done..]. }
  destruct (format _ _); try done. destruct (decide _); [|done]. munfold. rewrite E.
  by change (cputch 0) with (fputch stdout 0).
Qed.

(** Bytes that are not in the output buffer. *)
Definition off_buf (m m' : mem) : Prop := forall a, ~ (ubuf <= a < ubuf + OUTSIZ) -> m' !! a = m !! a.

Lemma off_buf_trans m1 m2 m3 : off_buf m1 m2 -> off_buf m2 m3 -> off_buf m1 m3.
Proof. intros H1 H2 a Ha. by rewrite H2, H1. Qed.

Lemma mwrite_off_buf m i u : 0 <= i -> i + Z.of_nat (length u) <= OUTSIZ -> off_buf m (mwrite m (ubuf + i) u).
Proof. intros Hi Hl a Ha. apply mwrite_out. lia. Qed.

Lemma cstr_off_buf m m' s w :
  off_buf m m' -> cstr m s w -> s + Z.of_nat (length w) < ubuf \/ ubuf + OUTSIZ <= s -> cstr m' s w.
Proof.
  intros Ho [Hn Hw] Hd. split; [done|]. rewrite bytes_at_lookup in Hw |- *. intros i x Hi.
  rewrite Ho; [by apply Hw|]. apply lookup_lt_Some in Hi. rewrite length_app in Hi. cbn [length] in Hi. lia.
Qed.

(** [cputs] of a string that is not in the buffer only fills the buffer. *)
Lemma cputs_ret p q s w :
  pending p q -> cstr (um p) s w -> s + Z.of_nat (length w) < ubuf \/ ubuf + OUTSIZ <= s ->
  Z.of_nat (length q + length w) < OUTSIZ ->
  exists p', cputs s p = Ret 0 p' /\ pending p' (q ++ w ++ [x0a]) /\ uk p' = uk p /\ off_buf (um p) (um p').
Proof.
  intros Hp Hw Hd Hlen. unfold cputs, counting.
  rewrite (bind_ret _ _ _ _ _ (onproc_ret _ p 0 _ _ (onum_pure scan_fuel p (S (size (um p))) eq_refl))).
  pose proof (cstr_size _ _ _ Hw) as Hsz. loop_body B.
  assert (forall n w s p q, pending p q -> cstr (um p) s w -> s + Z.of_nat (length w) < ubuf \/ ubuf + OUTSIZ <= s ->
    Z.of_nat (length q + length w) < OUTSIZ -> (length w < n)%nat ->
    exists p', loop n B s (p, 0) = Ret tt (p', 0) /\ pending p' (q ++ w) /\ uk p' = uk p /\ off_buf (um p) (um p')) as Hloop.
  { clear. induction n as [|n IH]; intros w s p q Hp Hw Hd Hlen Hn; [lia|]. rewrite loop_S. subst B. cbn beta.
    rewrite (bind_ret _ _ _ _ _ (onproc_ret _ p 0 _ _ (onum_pure _ p _ (ldc_ret _ _ _ (cstr_hd _ _ _ Hw))))).
    destruct w as [|b w]; cbn [hd].
    { exists p. rewrite app_nil_r. change (schar x00 =? 0) with true. by split_and!. }
    apply cstr_cons in Hw as (Hb & Hs & Hw). rewrite schar_nz, cputch_schar by done. cbn [length] in *.
    destruct (fputch_ret stdout p q 0 b Hp Hb ltac:(lia)) as [E Hp1]. mrun E. rewrite mret_ret.
    assert (off_buf (um p) (um (put b p))) as Ho1.
    { intros a Ha. cbn. apply lookup_insert_ne. destruct Hp as [-> _]. lia. }
    destruct (IH w (s + 1) (put b p) (q ++ [b]) Hp1) as (p' & E' & Hp' & Hk & Ho); [| |rewrite length_app; cbn [length]; lia|lia|].
    - eapply cstr_off_buf; [exact Ho1|exact Hw|lia].
    - lia.
    - exists p'. rewrite <- app_assoc in Hp'. split_and!; [exact E'|exact Hp'|exact Hk|]. by eapply off_buf_trans. }
  destruct (Hloop (S (size (um p))) w s p q Hp Hw Hd Hlen ltac:(lia)) as (p1 & E1 & Hp1 & Hk1 & Ho1).
  mrun E1. destruct (fputch_ret stdout p1 (q ++ w) 0 x0a Hp1) as [E2 Hp2]; [done|rewrite length_app; lia|].
  change 10 with (schar x0a) at 1. rewrite cputch_schar, E2. exists (put x0a p1). cbn [fst snd].
  rewrite <- app_assoc in Hp2. split_and!; [done|exact Hp2|done|].
  eapply off_buf_trans; [exact Ho1|]. intros a Ha. cbn. apply lookup_insert_ne.
  destruct Hp1 as [-> _]. rewrite length_app. unfold OUTSIZ in *. lia.
Qed.

(** A format with its arguments, no part of which lies in the buffer. *)
Definition format_of (m : mem) (fmt : Z) (args : list Z) (t : list byte) : Prop :=
  (length t < BUFSIZE)%nat /\ forall m', off_buf m m' ->
  exists l, cstr m' fmt (concat (item_text <$> l)) /\ renders m' l args t.

Lemma format_of_off m m' fmt args t : format_of m fmt args t -> off_buf m m' -> format_of m' fmt args t.
Proof. intros [Hl Hf] Ho. split; [done|]. intros m2 Ho2. apply Hf. by eapply off_buf_trans. Qed.

Lemma vcprintf_ret p q fmt args t :
  let u := upto_nul t in
  pending p q -> format_of (um p) fmt args t -> Z.of_nat (length (q ++ u)) <= OUTSIZ ->
  exists p', vcprintf fmt args p = Ret (Z.of_nat (length (q ++ u))) p' /\ pending p' [] /\
    off_buf (um p) (um p') /\ wrote stdout p q u (uk p').
Proof.
  intros u Hp [Ht Hf] Hlen. destruct (Hf (um p)) as (l & Hc & Hr); [done|].
  destruct (vfprintf_ret stdout p q fmt l args t Hp Hc Hr Ht Hlen ltac:(done)) as (k' & E & Hw).
  eexists. rewrite vcprintf_vfprintf. split; [exact E|]. destruct Hp as (_ & _ & Hm).
  split; [split_and!; [done|done|by apply mapped_mwrite]|]. split; [|done].
  apply mwrite_off_buf; [lia|]. rewrite length_app in Hlen. fold u. lia.
Qed.

(** [fprintf] writes the text that the format denotes to the descriptor, in
    one call, behind what was pending in the buffer; it empties the buffer,
    touches no other memory and no other descriptor, and returns the number of
    characters. *)
Theorem u_fprintf_correct fd p q fmt l args t :
  let u := upto_nul t in
  pending p q -> cstr (um p) fmt (concat (item_text <$> l)) -> renders (um p) l args t ->
  (length t < BUFSIZE)%nat -> Z.of_nat (length (q ++ u)) <= OUTSIZ -> 0 <= fd < 2 ^ 31 -> all_written ->
  exists k', fprintf fd fmt args p
      = Ret (Z.of_nat (length (q ++ u))) (UProc (mwrite (um p) (ubuf + Z.of_nat (length q)) u) 0 k') /\
    uout k' fd = uout (uk p) fd ++ q ++ u /\ forall fd', fd' <> fd -> uout k' fd' = uout (uk p) fd'.
Proof.
  intros u Hp Hc Hr Ht Hlen Hfd Hall.
  destruct (vfprintf_ret fd p q fmt l args t Hp Hc Hr Ht Hlen Hfd) as (k' & E & Ho & Hw).
  exists k'. split_and!; [done| |done]. by destruct Hw as [|[]].
Qed.

(** [cputs] does not write: it returns 0 and the kernel has not been called;
    the line appears when the next [cprintf] writes the buffer, in front of that
    call's own text, and is counted by it. *)
Theorem cputs_delayed p s w fmt args t :
  let u := upto_nul t in
  pending p [] -> cstr (um p) s w -> s + Z.of_nat (length w) < ubuf \/ ubuf + OUTSIZ <= s ->
  format_of (um p) fmt args t -> Z.of_nat (length w + 1 + length u) <= OUTSIZ -> all_written ->
  exists p1 p2, cputs s p = Ret 0 p1 /\ uk p1 = uk p /\
    cprintf fmt args p1 = Ret (Z.of_nat (length w + 1 + length u)) p2 /\
    uout (uk p2) stdout = uout (uk p) stdout ++ w ++ [x0a] ++ u.
Proof.
  intros u Hp Hw Hd Hf Hlen Hall. destruct (cputs_ret p [] s w Hp Hw Hd) as (p1 & E1 & Hp1 & Hk1 & Ho1); [cbn; lia|].
  cbn [app] in Hp1. destruct (vcprintf_ret p1 (w ++ [x0a]) fmt args t Hp1) as (p2 & E2 & _ & _ & _ & Hw2);
    [by eapply format_of_off|rewrite !length_app; cbn [length]; fold u; lia|].
  exists p1, p2. split_and!; [done|done| |].
  - unfold cprintf. rewrite E2. do 2 f_equal. rewrite !length_app. cbn [length]. fold u. lia.
  - destruct Hw2 as [->|[]]; [|done]. by rewrite Hk1, <- app_assoc.
Qed.

(** A location: literal text, a file name, a line number, literal text. *)
Lemma location_format m lit_ w file fname line :
  Forall literal w -> (length w + length fname < 900)%nat ->
  (forall m', off_buf m m' -> cstr m' lit_ (w ++ str "%s:%d:" ++ [x0a] ++ str "    ") /\ cstr m' file fname) ->
  format_of m lit_ [file; line] (w ++ fname ++ str ":" ++ signed_text (s32 line) ++ str ":" ++ [x0a] ++ str "    ").
Proof.
  intros Hw Hlen Hm.
  assert (in_s 32 (s32 line)) as Hs by (apply swrap_range; lia). unfold in_s in Hs.
  split.
  { rewrite !length_app. cbn [length str]. pose proof (signed_text_length (s32 line)). unfold BUFSIZE. simpl. lia. }
  intros m' Ho. destruct (Hm m' Ho) as [Hl Hf].
  exists ((Lit <$> w) ++ Str :: (Lit <$> str ":") ++ Num Qint Cd :: (Lit <$> (str ":" ++ [x0a] ++ str "    ")) ++ []). split.
  - rewrite fmap_app, concat_app, lits_text. exact Hl.
  - apply renders_lits; [done|]. apply renders_str; [done|lia|]. apply renders_lits; [by repeat constructor|].
    apply (renders_num m' Qint Cd line); [cbn; lia|]. rewrite <- (app_nil_r (str ":" ++ [x0a] ++ str "    ")).
    apply renders_lits; [|apply renders_nil]. by repeat constructor.
Qed.

Lemma newline_format m lit_ :
  (forall m', off_buf m m' -> cstr m' lit_ [x0a]) -> format_of m lit_ [] [x0a].
Proof.
  intros Hm. split; [unfold BUFSIZE; cbn; lia|]. intros m' Ho. exists [Lit x0a]. split; [by apply Hm|].
  by repeat constructor.
Qed.

(** [__panic] ends the process with the code of a panic after it has written
    the location (file and line) and the message to the standard output. *)
Theorem panic_correct p file line fmt ap fname t :
  pending p [] -> all_written -> (forall m k, utrap (SYS_exit uarch_of) (regs [ivar (- E_PANIC)]) m k = None) ->
  (forall m, off_buf (um p) m ->
     cstr m (ulit "user panic at %s:%d:\n    ") (str "user panic at %s:%d:" ++ [x0a] ++ str "    ") /\
     cstr m (ulit "\n") [x0a] /\ cstr m file fname) ->
  (length fname < 800)%nat -> format_of (um p) fmt ap t ->
  exists p', __panic file line fmt ap p = Halt (ivar (- E_PANIC)) p' /\
    uout (uk p') stdout = uout (uk p) stdout ++
      (str "user panic at " ++ fname ++ str ":" ++ signed_text (s32 line) ++ str ":" ++ [x0a] ++ str "    ") ++
      upto_nul t ++ [x0a].
Proof.
  intros Hp Hall Hex Hm Hlen Hf2. unfold __panic, cprintf. set (u := upto_nul t). set (head := str "user panic at " ++ _).
  assert (format_of (um p) (ulit "user panic at %s:%d:\n    ") [file; line] head) as Hf1.
  { apply location_format; [by repeat constructor|cbn; lia|]. intros m Ho. destruct (Hm m Ho) as (H1 & _ & H3). done. }
  assert (nonul head) as Hn.
  { destruct (Hm (um p)) as (_ & _ & [Hfn _]); [done|]. unfold head, nonul in *.
    rewrite !list.Forall_app. split_and!; try done; try apply signed_text_nonul; by repeat constructor. }
  assert (Z.of_nat (length head) <= OUTSIZ) as Hl1 by (destruct Hf1 as [Hl _]; unfold OUTSIZ, BUFSIZE in *; lia).
  destruct (vcprintf_ret p [] _ _ head Hp Hf1) as (p1 & E1 & Hp1 & Ho1 & _ & W1); [by rewrite upto_nul_id|].
  rewrite upto_nul_id in W1, E1 by done. mrun E1.
  destruct (vcprintf_ret p1 [] fmt ap t Hp1) as (p2 & E2 & Hp2 & Ho2 & _ & W2); [by eapply format_of_off| |].
  { cbn [app]. destruct Hf2 as [Hl _]. pose proof (upto_nul_length t). unfold OUTSIZ, BUFSIZE in *. lia. }
  mrun E2. destruct (vcprintf_ret p2 [] (ulit "\n") [] [x0a] Hp2) as (p3 & E3 & _ & _ & _ & W3);
    [apply newline_format; intros m Ho; apply Hm; do 2 (eapply off_buf_trans; [done|]); done|done|].
  mrun E3. exists p3. split.
  - unfold exit, sys_exit, syscall. munfold. by rewrite Hex.
  - destruct W1 as [W1|[]]; [|done]. destruct W2 as [W2|[]]; [|done]. destruct W3 as [W3|[]]; [|done].
    rewrite W3, W2, W1. cbn [app upto_nul]. fold u. by rewrite <- !app_assoc.
Qed.
End Output.

(** ** A kernel that collects the output *)

Notation ulog := (gmap Z (list byte)).

#[export] Instance ulog_kernel : UKernel ulog := {|
  uarch_of := Ux86_64;
  utrap t args m k :=
    if t =? 1 then
      match args with
      | fd :: a :: len :: _ =>
          match mread m a (Z.to_nat len) with
          | Some l => Some (len, false, m, <[fd := default [] (k !! fd) ++ l]> k)
          | None => Some (-14, false, m, k)
          end
      | _ => None
      end
    else if t =? 60 then None
    else Some (-38, false, m, k) |}.

#[export] Instance demo_uimage : UImage := {|
  junk := 0; upper := 0;
  ulit s := if String.eqb s "\n" then 2000 else if String.eqb s "user panic at %s:%d:\n    " then 2010 else 2500;
  ubuf := 4096; fork_lock := 8192; udir := 8200; getc_buf := 3000; ustat := 9000 |}.

#[export] Instance ulog_file : UFileKernel ulog.
Proof.
  refine {| uout k fd := default [] (k !! fd) |}.
  intros m k fd a l Hfd Hl Hlen. assert (ivar fd = fd) as -> by (unfold ivar; cbn [upper demo_uimage]; cint).
  exists (Z.of_nat (length l)), false, (<[fd := default [] (k !! fd) ++ l]> k). split.
  { cbn [utrap ulog_kernel uarch_of]. change (SYS_write Ux86_64 =? 1) with true. cbv iota. cbn [regs app take uarch_of ulog_kernel].
    apply mread_bytes_at in Hl. by rewrite Nat2Z.id, Hl. }
  split; [|left].
  - intros fd' Hne. by rewrite lookup_insert_ne.
  - by rewrite lookup_insert_eq.
Defined.

Definition put_str (a : Z) (l : list byte) (m : mem) : mem := mwrite m a (l ++ [x00]).
Definition demo_uproc : uproc ulog := UProc
  (put_str 2000 [x0a] (put_str 2010 (str "user panic at %s:%d:" ++ [x0a] ++ str "    ") (put_str 2600 (str "main.c")
    (put_str 2700 (str "[%d]") (mwrite ∅ 4096 (replicate (Z.to_nat 1024) x00)))))) 0 ∅.

Lemma demo_pending : pending demo_uproc [].
Proof.
  split_and!; [done|done|]. unfold demo_uproc, put_str. cbn [um].
  do 4 apply mapped_mwrite. exact (bytes_at_mapped _ _ _ (bytes_at_mwrite _ _ _)).
Qed.

Lemma demo_cstr a l :
  a + Z.of_nat (length l) < ubuf -> cstr (um demo_uproc) a l ->
  forall m, off_buf (um demo_uproc) m -> cstr m a l.
Proof. intros Hl Hc m Ho. by eapply cstr_off_buf; [exact Ho|exact Hc|left]. Qed.

Lemma ulog_all_written : all_written (K := ulog).
Proof.
  intros m k fd a l r e m' k' Hfd Hl E. assert (ivar fd = fd) as Ei by (unfold ivar; cbn [upper demo_uimage]; cint).
  rewrite Ei in E. cbn [utrap ulog_kernel uarch_of] in E. change (SYS_write Ux86_64 =? 1) with true in E.
  cbv iota in E. cbn [regs app take uarch_of ulog_kernel] in E. apply mread_bytes_at in Hl.
  rewrite Nat2Z.id, Hl in E. injection E as _ _ _ <-. cbn [uout ulog_file]. by rewrite lookup_insert_eq.
Qed.

Lemma demo_format : format_of (um demo_uproc) 2700 [42] (str "[42]").
Proof.
  split; [vm_compute; lia|]. intros m Ho. exists [Lit "["%byte; Num Qint Cd; Lit "]"%byte]. split.
  - apply demo_cstr; [done| |done]. apply (bool_decide_unpack _). vm_compute. exact I.
  - change (str "[42]") with ("["%byte :: num_text Qint Cd 42 ++ ["]"%byte]).
    apply renders_lit; [done..|]. apply renders_num; [done|]. apply renders_lit; [done..|]. apply renders_nil.
Qed.

Lemma u_fprintf_correct_witness :
  exists k', fprintf 2 2700 [42] demo_uproc = Ret 4 (UProc (mwrite (um demo_uproc) 4096 (str "[42]")) 0 k') /\
    uout k' 2 = str "[42]".
Proof.
  destruct demo_format as [Ht Hf]. destruct (Hf (um demo_uproc)) as (l & Hc & Hr); [done|].
  destruct (u_fprintf_correct 2 demo_uproc [] 2700 l [42] (str "[42]") demo_pending Hc Hr Ht)
    as (k' & E & Ho & _); [done|done|apply ulog_all_written|].
  exists k'. split; [exact E|]. rewrite Ho. reflexivity.
Defined.

Lemma cputs_delayed_witness :
  exists p1 p2, cputs 2600 demo_uproc = Ret 0 p1 /\ uk p1 = uk demo_uproc /\
    cprintf 2700 [42] p1 = Ret 11 p2 /\ uout (uk p2) stdout = str "main.c" ++ [x0a] ++ str "[42]".
Proof.
  refine (cputs_delayed demo_uproc 2600 (str "main.c") 2700 [42] (str "[42]") demo_pending _ _ demo_format _ ulog_all_written);
    [apply (bool_decide_unpack _); vm_compute; exact I|left; reflexivity|vm_compute; discriminate].
Defined.

Lemma panic_correct_witness :
  exists p', __panic 2600 17 2700 [42] demo_uproc = Halt (ivar (- E_PANIC)) p' /\
    uout (uk p') stdout = str "user panic at main.c:17:" ++ [x0a] ++ str "    [42]" ++ [x0a].
Proof.
  refine (panic_correct demo_uproc 2600 17 2700 [42] (str "main.c") (str "[42]") demo_pending ulog_all_written _ _ _ demo_format).
  - reflexivity.
  - intros m Ho. split_and!; apply demo_cstr; try done; apply (bool_decide_unpack _); vm_compute; exact I.
  - cbn. lia.
Defined.
