(* ===== verification/URand.v ===== *)
(** * Arithmetic helpers of ucore (lib/rand.c, lib/hash.c, include/defs.h)

    The generator is the 48-bit linear congruential one; its result is taken with
    the macro [do_div] of arch/*/arch.h.  Except on x86-64 the macro does not
    put its parameter in parentheses, so there [do_div(result, RAND_MAX + 1)]
    divides by [RAND_MAX] and adds one. *)

From S2P Require Import Prelude CMem USyscall.

Definition RAND_MAX : Z := 2147483647.

(** [do_div(n, RAND_MAX + 1)] as an [int]; [unsigned long] has 32 bits on MIPS. *)
Definition rand_div (a : uarch) (n : Z) : Z :=
  match a with
  | Ux86_64 => s32 (n mod u32 (RAND_MAX + 1))
  | Uriscv | Uaarch64 => s32 (n mod u32 RAND_MAX + 1)
  | Umips => s32 (u32 n mod u32 RAND_MAX + 1)
  end.

(** [next = (next * 0x5DEECE66DLL + 0xBLL) & ((1LL << 48) - 1)] *)
Definition rand_next (next : Z) : Z :=
  Z.land (u64 (u64 (next * 25214903917) + 11)) (Z.shiftl 1 48 - 1).

(** The state is [next]. *)
Definition rand (a : uarch) : M Z Z :=
  next ← get;
  _ ← put (rand_next next);
  mret (rand_div a (Z.shiftr (rand_next next) 12)).
Definition srand (seed : Z) : M Z unit := put (u32 seed).

(** A shift by the width or more is undefined. *)
Definition hash32 {S} (val bits : Z) : M S Z :=
  let hash := u32 (u64 (val * 2654404609)) in
  let n := u32 (32 - bits) in
  if n <? 32 then mret (Z.shiftr hash n) else ub.

(** For arguments of type [size_t]; division by zero is undefined. *)
Definition ROUNDDOWN {S} (a n : Z) : M S Z :=
  if n =? 0 then ub else mret (u64 (a - a mod n)).
Definition ROUNDUP {S} (a n : Z) : M S Z := ROUNDDOWN (u64 (u64 (a + n) - 1)) n.
Definition ROUNDUP_DIV {S} (a n : Z) : M S Z :=
  if n =? 0 then ub else mret (u64 (u64 (a + n) - 1) / n).

(** ** Properties *)

Lemma rand_next_eq x : rand_next x = (x * 25214903917 + 11) mod 2 ^ 48.
Proof.
  unfold rand_next. change (Z.shiftl 1 48 - 1) with (Z.ones 48). rewrite Z.land_ones by lia. unfold u64, uwrap.
  rewrite Z.add_mod_idemp_l by lia. change (2 ^ 64) with (2 ^ 48 * 2 ^ 16).
  by rewrite Znumtheory.Zmod_div_mod with (n := 2 ^ 48) (m := 2 ^ 48 * 2 ^ 16) (a := x * 25214903917 + 11) by
    (try lia; apply Z.divide_factor_l).
Qed.

(** The inverse of the multiplier modulo 2^48. *)
Definition rand_prev (y : Z) : Z := ((y - 11) * 246154705703781) mod 2 ^ 48.

Lemma rand_prev_next x : 0 <= x < 2 ^ 48 -> rand_prev (rand_next x) = x.
Proof.
  intros Hx. unfold rand_prev. rewrite rand_next_eq, Z.mul_mod, Zminus_mod_idemp_l, <- Z.mul_mod by lia.
  replace ((x * 25214903917 + 11 - 11) * 246154705703781) with (x + (x * (25214903917 * 246154705703781 / 2 ^ 48)) * 2 ^ 48).
  - rewrite Z_mod_plus_full. by apply Z.mod_small.
  - assert (25214903917 * 246154705703781 = 1 + (25214903917 * 246154705703781 / 2 ^ 48) * 2 ^ 48) as E by (vm_compute; reflexivity).
    nia.
Qed.

(** [rand] returns a value of the documented range on every architecture, and
    its state runs through the 48-bit numbers without merging two of them; only
    on x86-64 the value 0 is possible. *)
Lemma rand_range a next :
  exists r next', rand a next = Ret r next' /\ 0 <= r <= RAND_MAX /\ 0 <= next' < 2 ^ 48 /\
    (a <> Ux86_64 -> 1 <= r) /\ (0 <= next < 2 ^ 48 -> rand_prev next' = next).
Proof.
  unfold rand. munfold. eexists _, _. split; [done|].
  assert (0 <= rand_next next < 2 ^ 48) as Hn by (rewrite rand_next_eq; apply Z.mod_pos_bound; lia).
  assert (0 <= Z.shiftr (rand_next next) 12) as Hq by (apply Z.shiftr_nonneg; lia).
  set (q := Z.shiftr _ _) in *.
  assert (0 <= rand_div a q <= RAND_MAX /\ (a <> Ux86_64 -> 1 <= rand_div a q)) as [Hr H1].
  { pose proof (Z.mod_pos_bound q 2147483648 ltac:(lia)). pose proof (Z.mod_pos_bound q 2147483647 ltac:(lia)).
    pose proof (Z.mod_pos_bound (u32 q) 2147483647 ltac:(lia)).
    destruct a; cbn [rand_div]; change (u32 (RAND_MAX + 1)) with 2147483648; change (u32 RAND_MAX) with 2147483647;
      unfold RAND_MAX; (rewrite swrap_id by (unfold_int; lia)); (split; [lia|]); intros; try done; lia. }
  split_and!; try lia; [done|by intros; apply rand_prev_next].
Qed.

(** [hash32] stays below [2 ^ bits]. *)
Lemma hash32_range {S} val bits (s : S) :
  1 <= bits <= 32 -> exists h, hash32 val bits s = Ret h s /\ 0 <= h < 2 ^ bits.
Proof.
  intros Hb. unfold hash32. assert (u32 (32 - bits) = 32 - bits) as -> by (apply uwrap_id; unfold_int; lia).
  rewrite (proj2 (Z.ltb_lt _ _)) by lia. eexists. split; [done|].
  assert (0 <= u32 (u64 (val * 2654404609)) < 2 ^ 32) as H by (unfold u32, uwrap; apply Z.mod_pos_bound; lia).
  rewrite Z.shiftr_div_pow2 by lia. split; [apply Z.div_pos; lia|]. apply Z.div_lt_upper_bound; [lia|].
  rewrite <- Z.pow_add_r by lia. replace (32 - bits + bits) with 32 by lia. apply H.
Qed.

(** [ROUNDDOWN] and [ROUNDUP] give the multiple of [n] next to [a]. *)
Lemma round_correct {S} a n (s : S) :
  0 < n -> 0 <= a -> a + n < 2 ^ 64 ->
  exists d u, ROUNDDOWN a n s = Ret d s /\ ROUNDUP a n s = Ret u s /\ (n | d) /\ (n | u) /\
    d <= a < d + n /\ a <= u < a + n.
Proof.
  intros Hn Ha Hb.
  assert (forall x, 0 <= x < 2 ^ 64 -> ROUNDDOWN x n s = Ret (n * (x / n)) s) as E.
  { intros x Hx. unfold ROUNDDOWN. rewrite (proj2 (Z.eqb_neq n 0)) by lia. rewrite mret_ret. f_equal.
    pose proof (Z.div_mod x n ltac:(lia)). pose proof (Z.mod_pos_bound x n Hn). pose proof (Z.mod_le x n ltac:(lia) Hn). rewrite uwrap_id; [lia|unfold in_u; lia]. }
  exists (n * (a / n)), (n * ((a + n - 1) / n)). rewrite E by lia. unfold ROUNDUP.
  assert (u64 (u64 (a + n) - 1) = a + n - 1) as -> by (rewrite !uwrap_id; unfold in_u; rewrite ?uwrap_id by (unfold in_u; lia); lia). rewrite E by lia.
  pose proof (Z.div_mod a n ltac:(lia)). pose proof (Z.mod_pos_bound a n Hn).
  pose proof (Z.div_mod (a + n - 1) n ltac:(lia)). pose proof (Z.mod_pos_bound (a + n - 1) n Hn).
  split_and!; try done; try (apply Z.divide_factor_l); lia.
Qed.
