(* ===== verification/UDir.v ===== *)
(** * Directories and the program ls of ucore (lib/dir.c, lib/file.c, ls.c)

    There is one directory stream, the static [dir] of dir.c.  A stream holds
    the descriptor and the current entry, whose [offset] the kernel advances.
    [struct stat] has one layout on x86-64 and another elsewhere. *)

From S2P Require Import Prelude CMem Digits UString UPrintfmt USyscall UStdio.

(** ** include/stat.h *)

Abbreviation S_IFMT := (61440)%Z.
Abbreviation S_IFLNK := (40960)%Z.
Abbreviation S_IFREG := (32768)%Z.
Abbreviation S_IFBLK := (24576)%Z.
Abbreviation S_IFDIR := (16384)%Z.
Abbreviation S_IFCHR := (8192)%Z.

Definition S_ISLNK (m : Z) : bool := Z.land m S_IFMT =? S_IFLNK.
Definition S_ISREG (m : Z) : bool := Z.land m S_IFMT =? S_IFREG.
Definition S_ISDIR (m : Z) : bool := Z.land m S_IFMT =? S_IFDIR.
Definition S_ISCHR (m : Z) : bool := Z.land m S_IFMT =? S_IFCHR.
Definition S_ISBLK (m : Z) : bool := Z.land m S_IFMT =? S_IFBLK.

(** The fields of [struct stat] with their sizes, in order; each is aligned
    where the one before it ends. *)
Definition stat_x86_64 : list (string * Z) :=
  [("st_dev", 8); ("st_ino", 8); ("st_nlinks", 8);
   ("st_mode", 4); ("st_uid", 4); ("st_gid", 4); ("_pad0", 4);
   ("st_rdev", 8); ("st_size", 8); ("st_blksize", 8); ("st_blocks", 8);
   ("st_atime", 8); ("st_atimensec", 8); ("st_mtime", 8); ("st_mtimensec", 8); ("st_ctime", 8); ("st_ctimensec", 8)]%string.
Definition stat_generic : list (string * Z) :=
  [("st_dev", 8); ("st_ino", 8); ("st_mode", 4); ("st_nlinks", 4);
   ("st_uid", 4); ("st_gid", 4); ("st_rdev", 8); ("__pad", 8);
   ("st_size", 8); ("st_blksize", 4); ("__pad2", 4); ("st_blocks", 8);
   ("st_atime", 8); ("st_atimensec", 8); ("st_mtime", 8); ("st_mtimensec", 8); ("st_ctime", 8); ("st_ctimensec", 8)]%string.

(** The offset of a field. *)
Fixpoint field_offset (f : string) (l : list (string * Z)) : Z :=
  match l with
  | (g, n) :: l => if String.eqb f g then 0 else n + field_offset f l
  | [] => 0
  end.

(** Natural alignment: no padding is left out of the lists. *)
Fixpoint aligned_fields (off : Z) (l : list (string * Z)) : bool :=
  match l with
  | (_, n) :: l => (off mod n =? 0) && aligned_fields (off + n) l
  | [] => off mod 8 =? 0
  end.

Lemma stat_aligned : aligned_fields 0 stat_x86_64 = true /\ aligned_fields 0 stat_generic = true.
Proof. done. Qed.

Definition is_x86 (a : uarch) : bool := match a with Ux86_64 => true | _ => false end.

(** The local variables of ls.c: [__stat] of [ls] and of [lsdir]. *)
Class LsImage : Type := { ls_stat : Z; lsdir_stat : Z }.

Section Dir.
Context {K : Type} `{UKernel K} `{UImage}.

Definition struct_stat : list (string * Z) := if is_x86 uarch_of then stat_x86_64 else stat_generic.
Definition st_mode (p : Z) : M (uproc K) Z := onum (load32 (p + field_offset "st_mode" struct_stat)).
Definition st_nlinks (p : Z) : M (uproc K) Z :=
  let a := p + field_offset "st_nlinks" struct_stat in
  onum (if is_x86 uarch_of then load64 a else load32 a).
Definition st_size (p : Z) : M (uproc K) Z := onum (load64 (p + field_offset "st_size" struct_stat)).
Definition st_blocks (p : Z) : M (uproc K) Z := onum (load64 (p + field_offset "st_blocks" struct_stat)).

(** ** lib/dir.c *)

(** [DIR] has [fd] at offset 0 and [dirent] at 4; [dirent] has [offset] at 0
    and [name] at 4. *)
Definition dir_fd (dirp : Z) : M (uproc K) Z := r ← onum (load32 dirp); mret (s32 r).
Definition dir_dirent (dirp : Z) : Z := dirp + 4.
Definition dirent_name (d : Z) : Z := d + 4.

Definition opendir (path : Z) : M (uproc K) Z :=
  fd ← open path O_RDONLY;
  _ ← onum (store32 udir (u32 fd));
  if fd <? 0 then mret 0
  else
    fd ← dir_fd udir;
    r ← fstat fd ustat;
    if negb (r =? 0) then mret 0
    else
      mode ← st_mode ustat;
      if negb (S_ISDIR mode) then mret 0
      else _ ← onum (store32 (dir_dirent udir) 0); mret udir.

Definition readdir (dirp : Z) : M (uproc K) Z :=
  fd ← dir_fd dirp;
  r ← sys_getdirentry fd (dir_dirent dirp);
  mret (if r =? 0 then dir_dirent dirp else 0).

Definition closedir (dirp : Z) : M (uproc K) unit :=
  fd ← dir_fd dirp; _ ← close fd; mret tt.

Definition getcwd := sys_getcwd.

(** ** lib/file.c *)

Definition transmode (stat : Z) : M (uproc K) Z :=
  mode ← st_mode stat;
  mret (if S_ISREG mode then ch "r"
        else if S_ISDIR mode then ch "d"
        else if S_ISLNK mode then ch "l"
        else if S_ISCHR mode then ch "c"
        else if S_ISBLK mode then ch "b"
        else ch "-").

Definition print_stat (name fd stat : Z) : M (uproc K) unit :=
  _ ← cprintf (ulit "[%03d] %s\n") [fd; name];
  c ← transmode stat; _ ← cprintf (ulit "    mode    : %c\n") [c];
  n ← st_nlinks stat; _ ← cprintf (ulit "    links   : %lu\n") [n];
  n ← st_blocks stat; _ ← cprintf (ulit "    blocks  : %lu\n") [n];
  n ← st_size stat; _ ← cprintf (ulit "    size    : %lu\n") [n];
  mret tt.

(** ** ls.c *)

Definition printf (fmt : Z) (args : list Z) : M (uproc K) Z := fprintf 1 fmt args.

(** Later assignments win. *)
Definition getmode (st_mode : Z) : Z :=
  let mode := ch "?" in
  let mode := if S_ISREG st_mode then ch "-" else mode in
  let mode := if S_ISDIR st_mode then ch "d" else mode in
  let mode := if S_ISLNK st_mode then ch "l" else mode in
  let mode := if S_ISCHR st_mode then ch "c" else mode in
  if S_ISBLK st_mode then ch "b" else mode.

Definition getstat (name stat : Z) : M (uproc K) Z :=
  fd ← open name O_RDONLY;
  if fd <? 0 then mret fd
  else ret ← fstat fd stat; _ ← close fd; mret ret.

Definition lsstat (stat filename : Z) : M (uproc K) unit :=
  mode ← st_mode stat; _ ← printf (ulit "   [%c]") [getmode mode];
  n ← st_nlinks stat; _ ← printf (ulit " %3d(h)") [n];
  n ← st_blocks stat; _ ← printf (ulit " %8d(b)") [n];
  n ← st_size stat; _ ← printf (ulit " %8d(s)") [n];
  _ ← printf (ulit "   %s\n") [filename];
  mret tt.

Context `{LsImage}.

(** The [while] loop: 0 at the end, or the error of [getstat]. *)
Definition lsdir_loop (fuel : nat) (dirp : Z) : M (uproc K) Z :=
  loop fuel (fun _ : unit =>
    d ← readdir dirp;
    if d =? 0 then mret (inr 0)
    else
      ret ← getstat (dirent_name d) lsdir_stat;
      if negb (ret =? 0) then mret (inr ret)
      else _ ← lsstat lsdir_stat (dirent_name d); mret (inl tt)) tt.

(** The directory is always the current one; [path] is not used. *)
Definition lsdir (fuel : nat) (path : Z) : M (uproc K) Z :=
  dirp ← opendir (ulit ".");
  if dirp =? 0 then mret (-1)
  else
    ret ← lsdir_loop fuel dirp;
    if ret =? 0 then
      _ ← printf (ulit "lsdir: step 4\n") []; _ ← closedir dirp; mret 0
    else _ ← closedir dirp; mret ret.

(** [type] of the [switch], and the name of that index. *)
Definition ls_type (c : Z) : Z :=
  if c =? ch "0" then 0
  else if c =? ch "d" then 1
  else if c =? ch "l" then 2
  else if c =? ch "c" then 3
  else if c =? ch "b" then 4
  else 5.
Definition filetype (type : Z) : string :=
  nth (Z.to_nat type)
    [" [  file   ]"; " [directory]"; " [ symlink ]"; " [character]"; " [  block  ]"; " [  ?????  ]"] "".

Definition ls (fuel : nat) (path : Z) : M (uproc K) Z :=
  ret ← getstat path ls_stat;
  if negb (ret =? 0) then mret ret
  else
    mode ← st_mode ls_stat;
    _ ← printf (ulit " @ is %s") [ulit (filetype (ls_type (getmode mode)))];
    n ← st_nlinks ls_stat; _ ← printf (ulit " %d(hlinks)") [n];
    n ← st_blocks ls_stat; _ ← printf (ulit " %d(blocks)") [n];
    n ← st_size ls_stat; _ ← printf (ulit " %d(bytes) : @'%s'\n") [n; path];
    mode ← st_mode ls_stat;
    if S_ISDIR mode then lsdir fuel path else mret 0.

Definition ls_main (fuel : nat) (argc argv : Z) : M (uproc K) Z :=
  if argc =? 1 then ls fuel (ulit ".")
  else
    loop (Z.to_nat argc + 1) (fun i =>
      if i <? argc then
        a ← onum (load64 (argv + 8 * i));
        ret ← ls fuel a;
        mret (if negb (ret =? 0) then inr ret else inl (i + 1))
      else mret (inr 0)) 1.
End Dir.

(** ** File types *)

(** The five types are told apart by the masked mode, so that [getmode] and
    [transmode] do not depend on the order of their tests. *)
Lemma getmode_type m :
  let t := Z.land m S_IFMT in
  getmode m = if t =? S_IFREG then ch "-" else if t =? S_IFDIR then ch "d" else if t =? S_IFLNK then ch "l"
              else if t =? S_IFCHR then ch "c" else if t =? S_IFBLK then ch "b" else ch "?".
Proof.
  intros t. unfold getmode, S_ISREG, S_ISDIR, S_ISLNK, S_ISCHR, S_ISBLK. fold t.
  
  repeat match goal with |- context [t =? ?x] => destruct (Z.eqb_spec t x); [try lia; try done|] end; done.
Qed.

(** [ls] names the type of every kind of file but a regular one, which it
    reports as unknown: [getmode] gives ['-'] where the [switch] expects ['0']. *)
Lemma ls_regular_unknown m :
  S_ISREG m = true -> filetype (ls_type (getmode m)) = " [  ?????  ]"%string.
Proof. intros Hr. rewrite getmode_type. unfold S_ISREG in Hr. by rewrite Hr. Qed.

Lemma ls_directory m : S_ISDIR m = true -> filetype (ls_type (getmode m)) = " [directory]"%string.
Proof.
  intros Hd. rewrite getmode_type. unfold S_ISDIR in Hd. rewrite Hd.
  apply Z.eqb_eq in Hd. by rewrite Hd.
Qed.

(** [opendir] of a file that is not a directory fails after [open] and [fstat]
    without closing the descriptor. *)
Lemma opendir_leaks {K} `{UKernel K} `{UImage} path fd r mode (p p1 p2 p3 : uproc K) :
  open path O_RDONLY p = Ret fd p1 -> 0 <= fd < 2 ^ 31 -> mapped (um p1) udir 4 ->
  p2 = set_um (mwrite (um p1) udir (LittleEndianList.le_split 4 fd)) p1 ->
  fstat fd ustat p2 = Ret r p3 -> r <> 0 \/ (st_mode ustat p3 = Ret mode p3 /\ S_ISDIR mode = false) ->
  opendir path p = Ret 0 p3.
Proof.
  intros E1 Hfd Hm E2 E3 Hno. unfold opendir. mrun E1. assert (u32 fd = fd) as -> by (apply uwrap_id; unfold_int; lia).
  mrun (onum_ret _ _ _ _ (store32_ret (um p1) udir fd Hm)). rewrite <- E2. rewrite (proj2 (Z.ltb_ge fd 0)) by lia.
  assert (dir_fd udir p2 = Ret fd p2) as E.
  { unfold dir_fd. assert (load32 udir (um p2) = Ret fd (um p2)) as El.
    { subst p2. cbn [um set_um]. unfold load32. set (w := LittleEndianList.le_split 4 fd). change 4%nat with (length w).
      rewrite (proj2 (mread_bytes_at _ udir w) (bytes_at_mwrite _ _ _)). unfold w. rewrite LittleEndianList.le_combine_split.
      f_equal. apply Z.mod_small. cbn. lia. }
    mrun (onum_pure _ p2 _ El). rewrite mret_ret. f_equal. apply swrap_id; unfold_int; lia. }
  mrun E. mrun E3. destruct (Z.eqb_spec r 0) as [->|Hr]; [|done]. destruct Hno as [|[Em Hd]]; [done|].
  cbn [negb]. mrun Em. by rewrite Hd.
Qed.
