(* ===== verification/USh.v ===== *)
(** * The shell of ucore (sh.c)

    [gettoken] splits a line in place: it overwrites blanks and symbols by NUL
    and returns pointers into the line.  The string literals and the variables
    whose address is taken are parameters ([UImage], [ShImage]).  [fork] is the
    kernel's; a function describes the process that [fork] returns to. *)

From S2P Require Import Prelude CMem Digits UString UPrintfmt USyscall UStdio UDir.
From coqutil Require Import Word.LittleEndianList.

(** The static arrays [buffer], [argv0] and [shcwd], and the local variables
    [c] of [readline], [cmd], [t] and [argv] of [runcmd], [ret] of [main]; the
    text of [__FILE__]. *)
Class ShImage : Type := {
  buffer : Z;
  argv0 : Z;
  shcwd : Z;
  line_c : Z;
  cmd_var : Z;
  t_var : Z;
  argv_var : Z;
  ret_var : Z;
  sh_file : Z
}.

Abbreviation BUFSIZE := (4096)%Z.
Abbreviation E_NOENT := (16)%Z.

Section Tokens.
Context `{UImage}.

Definition WHITESPACE : Z := ulit " \t\r\n".
Definition SYMBOLS : Z := ulit "<|>&;".
Definition DELIMITERS : Z := ulit " \t\r\n<|>&;".

(** [while (strchr(WHITESPACE, *s) != NULL) *s ++ = '\0';] *)
Definition skip_blank (s : Z) : M mem Z :=
  fuel ← scan_fuel;
  loop fuel (fun s =>
    c ← ldc s;
    f ← strchr WHITESPACE c;
    if f =? 0 then mret (inr s) else _ ← stc s 0; mret (inl (s + 1))) s.

(** The loop over a word; the state is [s] and [flag]. *)
Definition scan_word (s : Z) : M mem Z :=
  fuel ← scan_fuel;
  loop fuel (fun '(s, flag) =>
    c ← ldc s;
    if c =? 0 then mret (inr s)
    else
      stop ← (if flag : bool then mret false else f ← strchr DELIMITERS c; mret (negb (f =? 0)));
      if stop : bool then mret (inr s)
      else
        flag ← (if c =? 34 then _ ← stc s 32; mret (negb flag) else mret flag);
        mret (inl (s + 1, flag))) (s, false).

Definition gettoken (p1 p2 : Z) : M mem Z :=
  s ← load64 p1;
  if s =? 0 then mret 0
  else
    s ← skip_blank s;
    c ← ldc s;
    if c =? 0 then mret 0
    else
      _ ← store64 p2 s;
      c ← ldc s;
      f ← strchr SYMBOLS c;
      '(token, s) ← (if negb (f =? 0) then c ← ldc s; _ ← stc s 0; mret (c, s + 1)
                     else s ← scan_word s; mret (119, s));
      c ← ldc s;
      _ ← store64 p1 (if negb (c =? 0) then s else 0);
      mret token.
End Tokens.

Section Shell.
Context {K : Type} `{UKernel K} `{UImage} `{ShImage}.

Definition putc (c : Z) : M (uproc K) Z := printf (ulit "%c") [c].

Definition readline (fuel : nat) (prompt : Z) : M (uproc K) Z :=
  _ ← (if prompt =? 0 then mret 0 else printf (ulit "%s") [prompt]);
  loop fuel (fun i =>
    ret ← read 0 line_c 1;
    if ret <? 0 then mret (inr 0)
    else if ret =? 0 then
      if 0 <? i then _ ← onum (stc (buffer + i) 0); mret (inr buffer) else mret (inr 0)
    else
      c ← onum (ldc line_c);
      if c =? 3 then mret (inr 0)
      else if (32 <=? c) && (i <? BUFSIZE - 1) then
        _ ← putc c; c ← onum (ldc line_c); _ ← onum (stc (buffer + i) c); mret (inl (i + 1))
      else if (c =? 8) && (0 <? i) then _ ← putc c; mret (inl (i - 1))
      else if (c =? 10) || (c =? 13) then
        _ ← putc 10; _ ← onum (stc (buffer + i) 0); mret (inr buffer)
      else mret (inl i)) 0.

Definition usage : M (uproc K) unit := _ ← printf (ulit "usage: sh [command-file]\n") []; mret tt.

Definition reopen (fd2 filename open_flags : Z) : M (uproc K) Z :=
  _ ← close fd2;
  ret ← open filename open_flags;
  ret ← (if (0 <=? ret) && negb (ret =? fd2) then
           _ ← close fd2; let fd1 := ret in ret ← dup2 fd1 fd2; _ ← close fd1; mret ret
         else mret ret);
  mret (if ret <? 0 then ret else 0).

Definition testfile (name : Z) : M (uproc K) Z :=
  ret ← open name O_RDONLY;
  if ret <? 0 then mret ret else _ ← close ret; mret 0.

(** Where the [switch] of [runcmd] goes: the label [again], the label [runit]
    with the number of arguments, or a return. *)
Inductive jump : Type := Again | Runit (argc : Z) | Return (ret : Z).

Definition ntoken : M (uproc K) Z := onum (gettoken cmd_var t_var).
Definition tvar : M (uproc K) Z := onum (load64 t_var).

(** [<] or [>]: the next word is the file. *)
Definition redirect (argc fd flags : Z) (msg : string) : M (uproc K) (Z + jump) :=
  tok ← ntoken;
  if negb (tok =? 119) then _ ← printf (ulit msg) []; mret (inr (Return (-1)))
  else
    t ← tvar;
    ret ← reopen fd t flags;
    mret (if negb (ret =? 0) then inr (Return ret) else inl argc).

(** One half of a pipe; both elements of [p] are 0, since [pipe] is not called. *)
Definition pipe_end (fd : Z) (j : jump) : M (uproc K) jump :=
  _ ← close fd;
  ret ← dup2 0 fd;
  if ret <? 0 then mret (Return ret)
  else _ ← close 0; _ ← close 0; mret j.

(** One round of the [while] loop with its [switch]. *)
Definition runcmd_token (argc : Z) : M (uproc K) (Z + jump) :=
  token ← ntoken;
  if token =? 119 then
    if argc =? Z.of_nat EXEC_MAX_ARG_NUM then
      _ ← printf (ulit "sh error: too many arguments\n") []; mret (inr (Return (-1)))
    else t ← tvar; _ ← onum (store64 (argv_var + 8 * argc) t); mret (inl (argc + 1))
  else if token =? 60 then
    redirect argc 0 O_RDONLY "sh error: syntax error: < not followed by word\n"
  else if token =? 62 then
    redirect argc 1 (Z.lor (Z.lor O_RDWR O_TRUNC) O_CREAT) "sh error: syntax error: > not followed by word\n"
  else if token =? 124 then
    ret ← fork;
    if ret =? 0 then j ← pipe_end 0 Again; mret (inr j)
    else if ret <? 0 then mret (inr (Return ret))
    else j ← pipe_end 1 (Runit argc); mret (inr j)
  else if token =? 0 then mret (inr (Runit argc))
  else if token =? 59 then
    ret ← fork;
    if ret =? 0 then mret (inr (Runit argc))
    else if ret <? 0 then mret (inr (Return ret))
    else _ ← waitpid ret 0; mret (inr Again)
  else
    _ ← printf (ulit "sh error: bad return %d from gettoken\n") [token]; mret (inr (Return (-1))).

Definition argv_at (i : Z) : M (uproc K) Z := onum (load64 (argv_var + 8 * i)).

(** From the label [runit] on. *)
Definition runit (argc : Z) : M (uproc K) Z :=
  if argc =? 0 then mret 0
  else
    a ← argv_at 0;
    r ← onum (strcmp a (ulit "cd"));
    if r =? 0 then
      if negb (argc =? 2) then mret (-1)
      else a ← argv_at 1; _ ← onum (strcpy shcwd a); mret 0
    else
      a ← argv_at 0;
      ret ← testfile a;
      let exec := _ ← onum (store64 (argv_var + 8 * argc) 0); __exec 0 argv_var in
      if ret =? 0 then exec
      else if negb (ret =? - E_NOENT) then mret ret
      else
        a ← argv_at 0;
        _ ← onum (snprintf argv0 BUFSIZE (ulit "/%s") [a]);
        _ ← onum (store64 argv_var argv0);
        exec.

Definition runcmd (fuel : nat) (cmd : Z) : M (uproc K) Z :=
  _ ← onum (store64 cmd_var cmd);
  loop fuel (fun _ : unit =>
    j ← loop fuel runcmd_token 0;
    match j with
    | Again => mret (inl tt)
    | Runit argc => r ← runit argc; mret (inr r)
    | Return r => mret (inr r)
    end) tt.

(** [assert(x)] *)
Definition assert_ (x : bool) (line : Z) (text : string) : M (uproc K) unit :=
  if x then mret tt else __panic sh_file line (ulit "assertion failed: %s") [ulit text].

Definition sh_ret : M (uproc K) Z := r ← onum (load32 ret_var); mret (s32 r).
Definition set_ret (r : Z) : M (uproc K) unit := onum (store32 ret_var (u32 r)).

(** One command line: the child runs it, the parent waits and reports. *)
Definition run_line (fuel : nat) (line : Z) : M (uproc K) unit :=
  _ ← onum (stc shcwd 0);
  pid ← fork;
  _ ← (if pid =? 0 then r ← runcmd fuel line; _ ← set_ret r; r ← sh_ret; exit r else mret tt);
  _ ← assert_ (0 <=? pid) 242 "pid >= 0";
  w ← waitpid pid ret_var;
  if w =? pid then
    ret ← sh_ret;
    c ← (if ret =? 0 then onum (ldc shcwd) else mret 0);
    _ ← (if (ret =? 0) && negb (c =? 0) then set_ret 0 else mret tt);
    ret ← sh_ret;
    if negb (ret =? 0) then _ ← printf (ulit "error: %d - %e\n") [ret; ret]; mret tt else mret tt
  else mret tt.

Definition sh_main (fuel : nat) (argc argv : Z) : M (uproc K) Z :=
  _ ← printf (ulit "user sh is running!!!") [];
  r ← (if argc =? 2 then
         a ← onum (load64 (argv + 8)); ret ← reopen 0 a O_RDONLY; _ ← set_ret ret;
         mret (if negb (ret =? 0) then inr ret else inl false)
       else if 2 <? argc then _ ← usage; mret (inr (-1))
       else mret (inl true));
  match r with
  | inr ret => mret ret
  | inl interactive =>
      _ ← assert_ (negb (shcwd =? 0)) 232 "shcwd != NULL";
      loop fuel (fun _ : unit =>
        line ← readline fuel (if interactive : bool then ulit "$ " else 0);
        if line =? 0 then mret (inr 0)
        else _ ← run_line fuel line; mret (inl tt)) tt
  end.
End Shell.

(** ** What a line means *)

Definition blanks : list byte := [x20; x09; x0d; x0a].
Definition symbols : list byte := str "<|>&;".
Definition is_blank (b : byte) : bool := bool_decide (b ∈ blanks).
Definition is_symbol (b : byte) : bool := bool_decide (b ∈ symbols).
Definition is_delimiter (b : byte) : bool := is_blank b || is_symbol b.
Definition quote : byte := x22.

(** The blanks in front, and the rest. *)
Fixpoint span_blank (l : list byte) : nat * list byte :=
  match l with
  | b :: l' => if is_blank b then let '(n, r) := span_blank l' in (S n, r) else (0%nat, l)
  | [] => (0%nat, [])
  end.

(** A word reaches to the first delimiter that is not quoted; a quotation mark
    becomes a space. *)
Fixpoint span_word (quoted : bool) (l : list byte) : list byte * list byte :=
  match l with
  | [] => ([], [])
  | b :: l' =>
      if negb quoted && is_delimiter b then ([], l)
      else
        let '(w, r) := span_word (if decide (b = quote) then negb quoted else quoted) l' in
        ((if decide (b = quote) then x20 else b) :: w, r)
  end.

(** The first token: its kind, what the line holds in its place afterwards, and
    the rest of the line. *)
Definition next_token (l : list byte) : option (Z * list byte * list byte) :=
  match l with
  | [] => None
  | b :: l' => if is_symbol b then Some (schar b, [x00], l') else let '(w, r) := span_word false l in Some (119, w, r)
  end.

Lemma span_blank_spec l n r :
  span_blank l = (n, r) -> exists w, l = w ++ r /\ length w = n /\ Forall (fun b => is_blank b = true) w /\
    (forall b r', r = b :: r' -> is_blank b = false).
Proof.
  revert n r. induction l as [|b l IH]; intros n r E; cbn in E.
  - injection E as <- <-. exists []. by split_and!.
  - destruct (is_blank b) eqn:Eb.
    + destruct (span_blank l) as [n' r']. injection E as <- <-. destruct (IH _ _ eq_refl) as (w & -> & <- & Hw & Hr).
      exists (b :: w). split_and!; [done|done|by constructor|done].
    + injection E as <- <-. exists []. split_and!; [done|done|done|]. by intros b' r' [= <- <-].
Qed.

Lemma span_word_spec q l w r :
  span_word q l = (w, r) -> exists v, l = v ++ r /\ length v = length w /\
    (forall b r', r = b :: r' -> is_delimiter b = true) /\ (nonul l -> nonul w).
Proof.
  revert q w r. induction l as [|b l IH]; intros q w r E; cbn in E.
  - injection E as <- <-. exists []. by split_and!.
  - destruct (negb q && is_delimiter b) eqn:Eb.
    + injection E as <- <-. exists []. split_and!; [done|done| |by constructor]. intros b' r' [= <- <-].
      by apply andb_true_iff in Eb as [_ ?].
    + destruct (span_word _ l) as [w' r'] eqn:Ew. injection E as <- <-. destruct (IH _ _ _ Ew) as (v & -> & Hlen & Hr & Hn).
      exists (b :: v). split_and!; [done|cbn; by rewrite Hlen|done|]. intros Hl. apply List.Forall_cons_iff in Hl as [Hb Hl].
      constructor; [by case_decide|by apply Hn].
Qed.

(** In a line that starts with no blank. *)
Definition starts (l : list byte) : Prop := forall b l', l = b :: l' -> is_blank b = false.

Lemma next_token_spec l t w r :
  starts l -> next_token l = Some (t, w, r) ->
  exists v, l = v ++ r /\ length v = length w /\ (0 < length w)%nat /\
    ((w = [x00] /\ t <> 119) \/
     (t = 119 /\ (nonul l -> nonul w) /\ forall b r', r = b :: r' -> is_delimiter b = true)).
Proof.
  destruct l as [|b l]; [done|]. intros Hs. specialize (Hs b l eq_refl). cbn [next_token]. destruct (is_symbol b) eqn:Eb.
  - intros [= <- <- <-]. exists [b]. split_and!; [done|done|cbn; lia|left]. split; [done|].
    intros E. rewrite <- (byte_of_schar b), E in Eb. by vm_compute in Eb.
  - destruct (span_word false (b :: l)) as [w' r'] eqn:Ew. intros [= <- <- <-].
    destruct (span_word_spec _ _ _ _ Ew) as (v & E & Hlen & Hr & Hn). exists v. split_and!; [done|done| |by right].
    cbn in Ew. unfold is_delimiter in Ew. rewrite Eb, Hs in Ew. cbn in Ew. destruct (span_word _ l).
    injection Ew as <- _. cbn. lia.
Qed.

(** ** The literals *)

Section Line.
Context `{UI : UImage}.

Record literals (m : mem) : Prop := Literals {
  lit_blank : cstr m WHITESPACE blanks;
  lit_symbol : cstr m SYMBOLS symbols;
  lit_delimiter : cstr m DELIMITERS (blanks ++ symbols);
  lit_pos : 0 < WHITESPACE /\ 0 < SYMBOLS /\ 0 < DELIMITERS
}.

(** [n] bytes at [a] that no literal has part in. *)
Definition apart (x k a n : Z) : Prop := x + k <= a \/ a + n <= x.
Definition off_literals (a n : Z) : Prop :=
  apart WHITESPACE 5 a n /\ apart SYMBOLS 6 a n /\ apart DELIMITERS 10 a n.

Lemma off_literals_le a n a' n' :
  off_literals a n -> a <= a' -> a' + n' <= a + n -> off_literals a' n'.
Proof. unfold off_literals, apart. lia. Qed.

Lemma literals_mwrite m a l :
  literals m -> off_literals a (Z.of_nat (length l)) -> literals (mwrite m a l).
Proof.
  intros [H1 H2 H3 H4] (O1 & O2 & O3). unfold apart in *.
  split; [apply cstr_mwrite_out; [done|cbn; lia]..|done].
Qed.

Lemma strchr_in m s l b :
  cstr m s l -> 0 < s -> exists r, strchr s (schar b) m = Ret r m /\ (r =? 0) = negb (bool_decide (b ∈ l)).
Proof.
  intros Hc Hs. eexists. split; [by apply u_strchr_ret|]. rewrite byte_of_schar.
  destruct (list_find _ l) as [[i x]|] eqn:E.
  - apply list_find_Some in E as (Hi & -> & _). rewrite (proj2 (Z.eqb_neq _ _)) by lia.
    rewrite bool_decide_eq_true_2; [done|]. by eapply list_elem_of_lookup_2.
  - rewrite bool_decide_eq_false_2; [done|]. intros Hin. apply list_find_None in E.
    rewrite Forall_forall in E. apply list_elem_of_In in Hin. exact (E b Hin eq_refl).
Qed.

(** ** The two loops *)

Lemma cstr_insert m s b c l : cstr m s (b :: l) -> cstr (<[s := c]> m) (s + 1) l.
Proof.
  intros H. apply cstr_cons in H as (_ & _ & H). change (<[s := c]> m) with (mwrite m s [c]).
  apply cstr_mwrite_out; [done|cbn; lia].
Qed.

Lemma literals_insert m s n c : literals m -> off_literals s (Z.of_nat (S n)) -> literals (<[s := c]> m).
Proof.
  intros Hl Ho. change (<[s := c]> m) with (mwrite m s [c]). apply literals_mwrite; [done|].
  eapply off_literals_le; [exact Ho|lia|cbn; lia].
Qed.

Lemma nul_strchr m s l : cstr m s l -> 0 < s -> strchr s (schar x00) m = Ret 0 m.
Proof.
  intros Hc Hs. destruct (strchr_in m s l x00 Hc Hs) as (r & E & Hr). rewrite E. f_equal.
  rewrite bool_decide_eq_false_2 in Hr; [by apply Z.eqb_eq|]. intros Hin. destruct Hc as [Hn _].
  apply list_elem_of_In in Hin. unfold nonul in Hn. rewrite List.Forall_forall in Hn. by apply (Hn x00).
Qed.

Lemma skip_blank_ret m s l n r :
  cstr m s l -> literals m -> off_literals s (Z.of_nat (length l)) -> span_blank l = (n, r) ->
  skip_blank s m = Ret (s + Z.of_nat n) (mwrite m s (replicate n x00)).
Proof.
  intros Hc Hl Ho E. pose proof (cstr_size _ _ _ Hc) as Hf. unfold skip_blank. mrun (scan_fuel_ret m). loop_body B.
  enough (forall fuel m s n, cstr m s l -> literals m -> off_literals s (Z.of_nat (length l)) ->
    span_blank l = (n, r) -> (length l < fuel)%nat ->
    loop fuel B s m = Ret (s + Z.of_nat n) (mwrite m s (replicate n x00))) as G by (apply G; done || lia).
  clear. induction l as [|b l IH]; intros [|fuel] m s n Hc Hl Ho E Hf; cbn [length] in *; try lia;
    rewrite loop_S; unfold B at 1; pose proof (lit_pos m Hl) as (P1 & _).
  - apply cstr_nil in Hc. mrun (ldc_ret m s x00 Hc). mrun (nul_strchr m _ _ (lit_blank m Hl) P1). injection E as <- <-.
    cbn. by rewrite Z.add_0_r.
  - pose proof Hc as Hc'. apply cstr_cons in Hc' as (Hb & Hs & _). mrun (ldc_ret m s b Hs).
    destruct (strchr_in m _ _ b (lit_blank m Hl) P1) as (f & Ef & Hff). mrun Ef. rewrite Hff. fold (is_blank b).
    cbn [span_blank] in E. destruct (is_blank b); cbn [negb].
    + destruct (span_blank l) as [n' r'] eqn:E'. injection E as <- <-.
      mrun (stc_ret m s 0 (ex_intro _ b Hs)). rewrite mret_ret.
      rewrite (IH fuel _ (s + 1) n'); [|by eapply cstr_insert|by eapply literals_insert| |done|lia].
      * cbn [replicate mwrite]. f_equal; [lia|]. change (byte.of_Z 0) with x00.
        apply mwrite_insert_comm. lia.
      * eapply off_literals_le; [exact Ho|lia|lia].
    + injection E as <- <-. cbn. by rewrite Z.add_0_r.
Qed.

Lemma scan_word_ret m s l w r :
  cstr m s l -> literals m -> off_literals s (Z.of_nat (length l)) -> span_word false l = (w, r) ->
  scan_word s m = Ret (s + Z.of_nat (length w)) (mwrite m s w).
Proof.
  intros Hc Hl Ho E. pose proof (cstr_size _ _ _ Hc) as Hf. unfold scan_word. mrun (scan_fuel_ret m). loop_body B.
  enough (forall fuel m s q w, cstr m s l -> literals m -> off_literals s (Z.of_nat (length l)) ->
    span_word q l = (w, r) -> (length l < fuel)%nat ->
    loop fuel B (s, q) m = Ret (s + Z.of_nat (length w)) (mwrite m s w)) as G by (apply G; done || lia).
  clear. induction l as [|b l IH]; intros [|fuel] m s q w Hc Hl Ho E Hf; cbn [length] in *; try lia;
    rewrite loop_S; unfold B at 1; pose proof (lit_pos m Hl) as (_ & _ & P3).
  - apply cstr_nil in Hc. mrun (ldc_ret m s x00 Hc). injection E as <- <-. cbn. by rewrite Z.add_0_r.
  - pose proof Hc as Hc'. apply cstr_cons in Hc' as (Hb & Hs & _). mrun (ldc_ret m s b Hs). rewrite schar_nz by done.
    destruct (strchr_in m _ _ b (lit_delimiter m Hl) P3) as (f & Ef & Hff).
    assert (bool_decide (b ∈ blanks ++ symbols) = is_delimiter b) as Ed.
    { unfold is_delimiter, is_blank, is_symbol. rewrite <- bool_decide_or. apply bool_decide_ext, elem_of_app. }
    rewrite Ed in Hff. clear Ed. cbn [span_word] in E.
    assert ((if q then mret false else f ← strchr DELIMITERS (schar b); mret (negb (f =? 0))) m
            = Ret (negb q && is_delimiter b) m) as Estop.
    { destruct q; [done|]. mrun Ef. by rewrite Hff, negb_involutive. }
    mrun Estop. destruct (negb q && is_delimiter b).
    { injection E as <- <-. cbn. by rewrite Z.add_0_r. }
    destruct (span_word _ l) as [w' r'] eqn:E'. injection E as <- <-.
    set (c := if decide (b = quote) then x20 else b) in *. set (q' := if decide (b = quote) then negb q else q) in *.
    assert ((if schar b =? 34 then _ ← stc s 32; mret (negb q) else mret q) m = Ret q' (<[s := c]> m)) as Eq.
    { unfold q', c. change 34 with (schar quote). rewrite schar_eqb. case_bool_decide as Eb.
      - rewrite !decide_True by done. by mrun (stc_ret m s 32 (ex_intro _ b Hs)).
      - rewrite !decide_False by done. by rewrite (insert_id m s b Hs). }
    mrun Eq. rewrite mret_ret. rewrite (IH fuel _ (s + 1) q' w'); [|by eapply cstr_insert|by eapply literals_insert| |done|lia].
    + cbn [mwrite length]. f_equal; [lia|]. apply mwrite_insert_comm. lia.
    + eapply off_literals_le; [exact Ho|lia|lia].
Qed.
(** ** [gettoken] *)

Definition holds (m : mem) (p v : Z) : Prop := bytes_at m p (le_split 8 v).

(** The two variables, the line of [n] bytes at [a], and the literals are apart. *)
Record layout (m : mem) (p1 p2 a n : Z) : Prop := Layout {
  lay_literals : literals m;
  lay_p1 : mapped m p1 8;
  lay_p2 : mapped m p2 8;
  lay_cells : apart p1 8 p2 8;
  lay_line1 : apart p1 8 a n;
  lay_line2 : apart p2 8 a n;
  lay_off : off_literals a n /\ off_literals p1 8 /\ off_literals p2 8;
  lay_range : 0 < a /\ a + n < 2 ^ 64
}.

Lemma layout_mwrite m p1 p2 a n q w :
  layout m p1 p2 a n ->
  (a <= q /\ q + Z.of_nat (length w) <= a + n) \/ (q = p1 /\ length w = 8%nat) \/ (q = p2 /\ length w = 8%nat) ->
  layout (mwrite m q w) p1 p2 a n.
Proof.
  intros [H1 H2 H3 H4 H5 H6 (O1 & O2 & O3) H8] Hq. split; [|by apply mapped_mwrite..|done|done|done|done|done].
  apply literals_mwrite; [done|]. destruct Hq as [Hq|[[-> ->]|[-> ->]]]; [|done..].
  eapply off_literals_le; [exact O1|lia|lia].
Qed.

Lemma holds_load m p v : holds m p v -> 0 <= v < 2 ^ 64 -> load64 p m = Ret v m.
Proof.
  intros H Hv. rewrite (load64_ret m p (le_split 8 v)); [|apply length_le_split|done].
  rewrite le_combine_split. f_equal. apply Z.mod_small. cbn. lia.
Qed.

Lemma holds_mwrite m p v : holds (mwrite m p (le_split 8 v)) p v.
Proof. apply bytes_at_mwrite. Qed.

Section Step.
Context (p1 p2 a n : Z).

(** What a call leaves: the line with [w] at [q], and the two variables. *)
Definition after (m : mem) (q : Z) (w : list byte) (v2 v1 : Z) : mem :=
  mwrite (mwrite (mwrite m q w) p2 (le_split 8 v2)) p1 (le_split 8 v1).

Lemma gettoken_none m s l k :
  layout m p1 p2 a n -> holds m p1 s -> a <= s -> s + Z.of_nat (length l) < a + n -> cstr m s l ->
  span_blank l = (k, []) -> gettoken p1 p2 m = Ret 0 (mwrite m s (replicate k x00)).
Proof.
  intros Hlay Hh Ha Hn Hc Ek. pose proof (lay_range _ _ _ _ _ Hlay). unfold gettoken.
  mrun (holds_load m p1 s Hh ltac:(lia)). rewrite (proj2 (Z.eqb_neq s 0)) by lia.
  assert (off_literals s (Z.of_nat (length l))) as Ho.
  { destruct Hlay as [_ _ _ _ _ _ (O & _) _]. eapply off_literals_le; [exact O|lia|lia]. }
  mrun (skip_blank_ret m s l k [] Hc (lay_literals _ _ _ _ _ Hlay) Ho Ek).
  destruct (span_blank_spec _ _ _ Ek) as (w & -> & Hlen & _ & _). rewrite app_nil_r in *.
  assert (mwrite m s (replicate k x00) !! (s + Z.of_nat k) = Some x00) as Hx.
  { rewrite mwrite_out by (rewrite length_replicate; lia). destruct Hc as [_ Hc]. apply bytes_at_app in Hc as [_ [Hc _]].
    by rewrite Hlen in Hc. }
  by mrun (ldc_ret _ _ _ Hx).
Qed.

(** From the test for a symbol to the end of the token. *)
Lemma token_body m q l t w r :
  literals m -> off_literals q (Z.of_nat (length l)) -> cstr m q l -> starts l -> next_token l = Some (t, w, r) ->
  exists f, strchr SYMBOLS (schar (hd x00 l)) m = Ret f m /\
    (if negb (f =? 0) then c ← ldc q; _ ← stc q 0; mret (c, q + 1)
     else s ← scan_word q; mret (119, s)) m = Ret (t, q + Z.of_nat (length w)) (mwrite m q w) /\
    cstr (mwrite m q w) (q + Z.of_nat (length w)) r.
Proof.
  intros Hl Ho Hc Hs Ht. destruct (next_token_spec l t w r Hs Ht) as (v & -> & Hlen & _).
  assert (cstr (mwrite m q w) (q + Z.of_nat (length w)) r) as Hr.
  { apply cstr_app_r in Hc. rewrite Hlen in Hc. apply cstr_mwrite_out; [done|lia]. }
  destruct (v ++ r) as [|b l] eqn:El; [done|]. pose proof (lit_pos m Hl) as (_ & P2 & _).
  destruct (strchr_in m _ _ b (lit_symbol m Hl) P2) as (f & Ef & Hf). exists f. split; [done|]. split; [|done].
  fold (is_symbol b) in Hf. cbn [next_token] in Ht. pose proof Hc as Hc'. apply cstr_cons in Hc' as (_ & Hq & _).
  rewrite Hf. destruct (is_symbol b); cbn [negb].
  - injection Ht as <- <- <-. mrun (ldc_ret m q b Hq). by mrun (stc_ret m q 0 (ex_intro _ b Hq)).
  - destruct (span_word false (b :: l)) as [w' r'] eqn:Ew. injection Ht as <- <- <-.
    by mrun (scan_word_ret m q (b :: l) w' r' Hc Hl Ho Ew).
Qed.

Lemma gettoken_some m s l k l1 t w r :
  layout m p1 p2 a n -> holds m p1 s -> a <= s -> s + Z.of_nat (length l) < a + n -> cstr m s l ->
  span_blank l = (k, l1) -> next_token l1 = Some (t, w, r) ->
  gettoken p1 p2 m = Ret t (after m s (replicate k x00 ++ w) (s + Z.of_nat k)
    (match r with [] => 0 | _ => s + Z.of_nat k + Z.of_nat (length w) end)).
Proof.
  intros Hlay Hh Ha Hn Hc Ek Ht. pose proof (lay_range _ _ _ _ _ Hlay). unfold gettoken.
  mrun (holds_load m p1 s Hh ltac:(lia)). rewrite (proj2 (Z.eqb_neq s 0)) by lia.
  assert (off_literals s (Z.of_nat (length l))) as Ho.
  { destruct Hlay as [_ _ _ _ _ _ (O & _) _]. eapply off_literals_le; [exact O|lia|lia]. }
  mrun (skip_blank_ret m s l k l1 Hc (lay_literals _ _ _ _ _ Hlay) Ho Ek).
  destruct (span_blank_spec _ _ _ Ek) as (u & -> & Hlen & _ & Hs). rewrite length_app in Hn.
  set (m1 := mwrite m s _). set (q := s + Z.of_nat k).
  assert (cstr m1 q l1) as Hc1.
  { apply cstr_app_r in Hc. rewrite Hlen in Hc. apply cstr_mwrite_out; [done|rewrite length_replicate; lia]. }
  assert (layout m1 p1 p2 a n) as Hlay1 by (apply layout_mwrite; [done|left; rewrite length_replicate; lia]).
  assert (l1 <> []) as Hne by by intros ->.
  mrun (ldc_ret m1 q _ (cstr_hd _ _ _ Hc1)). rewrite schar_nz by (destruct l1; [done|by apply cstr_cons in Hc1 as [? _]]).
  mrun (store64_ret m1 p2 q (lay_p2 _ _ _ _ _ Hlay1)). set (m2 := mwrite m1 p2 _).
  assert (cstr m2 q l1) as Hc2.
  { apply cstr_mwrite_out; [done|]. pose proof (lay_line2 _ _ _ _ _ Hlay) as A. unfold apart in A.
    rewrite length_le_split. lia. }
  assert (layout m2 p1 p2 a n) as Hlay2 by (apply layout_mwrite; [done|right; right; by rewrite length_le_split]).
  mrun (ldc_ret m2 q _ (cstr_hd _ _ _ Hc2)).
  destruct (token_body m2 q l1 t w r) as (f & Ef & Eb & Hr); [apply Hlay2| |done|done|done|].
  { eapply off_literals_le; [exact Ho|lia|rewrite length_app; lia]. }
  mrun Ef. mrun Eb. set (m3 := mwrite m2 q w). mrun (ldc_ret m3 _ _ (cstr_hd _ _ _ Hr)).
  assert (layout m3 p1 p2 a n) as Hlay3.
  { destruct (next_token_spec l1 t w r Hs Ht) as (v & -> & Hv & _). rewrite length_app in Hn.
    apply layout_mwrite; [done|left; lia]. }
  mrun (store64_ret m3 p1 (if negb (schar (hd x00 r) =? 0) then q + Z.of_nat (length w) else 0) (lay_p1 _ _ _ _ _ Hlay3)).
  rewrite mret_ret. f_equal. unfold after. f_equal.
  - unfold m3, m2, m1. rewrite mwrite_app', length_replicate. fold q. apply mwrite_disjoint.
    destruct (next_token_spec l1 t w r Hs Ht) as (v & -> & Hv & _). rewrite length_app in Hn.
    pose proof (lay_line2 _ _ _ _ _ Hlay) as A. unfold apart in A. rewrite length_le_split. lia.
  - destruct r as [|b r]; [done|]. cbn [hd]. by rewrite schar_nz by (by apply cstr_cons in Hr as [? _]).
Qed.
(** ** A whole line *)

(** The tokens of a line, and the line afterwards. *)
Fixpoint tokenize (fuel : nat) (l : list byte) : list (Z * list byte) * list byte :=
  match fuel with
  | O => ([], [])
  | S fuel =>
      let '(k, l1) := span_blank l in
      match next_token l1 with
      | None => ([], replicate k x00)
      | Some (t, w, r) => let '(ts, fin) := tokenize fuel r in ((t, w) :: ts, replicate k x00 ++ w ++ fin)
      end
  end.
Definition line_tokens (l : list byte) : list (Z * list byte) := (tokenize (S (length l)) l).1.

(** Calls of [gettoken] until it returns 0, with what it stored in [t]. *)
Definition gettokens (fuel : nat) : M mem (list (Z * Z)) :=
  loop fuel (fun acc =>
    t ← gettoken p1 p2;
    if t =? 0 then mret (inr acc)
    else q ← load64 p2; mret (inl (acc ++ [(t, q)]))) [].

(** The pointer and the kind are those of the token, and a word is a string. *)
Definition found (m : mem) (x : Z * Z) (y : Z * list byte) : Prop :=
  x.1 = y.1 /\ (x.1 = 119 -> cstr m x.2 y.2).

Lemma next_token_kind l t w r : nonul l -> next_token l = Some (t, w, r) -> t <> 0.
Proof.
  destruct l as [|b l]; [done|]. intros Hn. apply List.Forall_cons_iff in Hn as [Hb _]. cbn [next_token].
  destruct (is_symbol b); [|by destruct (span_word _ _); intros [= <- _ _]].
  intros [= <- _ _] E. apply Hb. rewrite <- (byte_of_schar b), E. done.
Qed.

Lemma next_token_none l : next_token l = None -> l = [].
Proof. destruct l as [|b l]; [done|]. cbn [next_token]. destruct (is_symbol b); [done|]. by destruct (span_word false (b :: l)). Qed.

Lemma tokenize_spec fuel l ts fin :
  (length l < fuel)%nat -> tokenize fuel l = (ts, fin) ->
  length fin = length l /\ forall b l', l = b :: l' -> is_delimiter b = true -> exists f', fin = x00 :: f'.
Proof.
  revert l ts fin. induction fuel as [|fuel IH]; intros l ts fin Hf E; [lia|]. cbn [tokenize] in E.
  destruct (span_blank l) as [k l1] eqn:Ek. destruct (span_blank_spec _ _ _ Ek) as (u & -> & Hu & Hbl & Hs).
  rewrite length_app in Hf. destruct (next_token l1) as [[[t w] r]|] eqn:Et.
  - destruct (next_token_spec l1 t w r Hs Et) as (v & -> & Hv & Hw & Hk). rewrite length_app in Hf.
    destruct (tokenize fuel r) as [ts' fin'] eqn:E'. injection E as <- <-.
    destruct (IH r ts' fin') as [Hlen _]; [lia|done|]. split; [rewrite !length_app, length_replicate; lia|].
    intros b l' El Hb. destruct k as [|k]; [|by eexists]. destruct u; [|done]. cbn [app replicate] in *.
    destruct v as [|b' v]; [cbn in Hv; lia|]. injection El as -> El. specialize (Hs b (v ++ r) eq_refl).
    unfold is_delimiter in Hb. rewrite Hs in Hb. cbn in Hb. cbn [next_token app] in Et. rewrite Hb in Et.
    injection Et as _ <- _. by eexists.
  - apply next_token_none in Et as ->. injection E as <- <-.
    rewrite app_nil_r, length_replicate. split; [done|]. intros b l' -> _. cbn in Hu. subst k. by eexists.
Qed.

(** Where a call leaves [*p1]. *)
Definition positioned (m : mem) (s : Z) (l : list byte) : Prop :=
  cstr m s l /\ (holds m p1 s \/ (l = [] /\ holds m p1 0)).
Definition same_outside (m m' : mem) (s k : Z) : Prop :=
  forall x, ~ (s <= x < s + k) -> ~ (p1 <= x < p1 + 8) -> ~ (p2 <= x < p2 + 8) -> m' !! x = m !! x.

Lemma after_outside m q w v2 v1 : same_outside m (after m q w v2 v1) q (Z.of_nat (length w)).
Proof.
  intros x Hq H1 H2. unfold after. rewrite !mwrite_out; [done|lia|rewrite length_le_split; lia..].
Qed.

Lemma same_outside_mono m m' s k s' k' :
  same_outside m m' s k -> s' <= s -> s + k <= s' + k' -> same_outside m m' s' k'.
Proof. intros Ho Hs Hk x Hx. apply Ho. lia. Qed.

Lemma same_outside_trans m1 m2 m3 s k :
  same_outside m1 m2 s k -> same_outside m2 m3 s k -> same_outside m1 m3 s k.
Proof. intros H1 H2 x Ha Hb Hc. by rewrite H2, H1. Qed.

(** What is in the line and outside the part that changes stays. *)
Lemma same_outside_bytes m m' s k q w :
  layout m p1 p2 a n -> same_outside m m' s k -> bytes_at m q w -> a <= q -> q + Z.of_nat (length w) <= a + n ->
  q + Z.of_nat (length w) <= s \/ s + k <= q -> bytes_at m' q w.
Proof.
  intros Hlay Ho Hw Ha Hn Hd. rewrite bytes_at_lookup in Hw |- *. intros i x Hi. pose proof (lookup_lt_Some _ _ _ Hi) as Hl.
  pose proof (lay_line1 _ _ _ _ _ Hlay). pose proof (lay_line2 _ _ _ _ _ Hlay). unfold apart in *.
  rewrite Ho by lia. by apply Hw.
Qed.

Lemma after_positioned m s l k l1 t w r :
  layout m p1 p2 a n -> a <= s -> s + Z.of_nat (length l) < a + n -> cstr m s l ->
  span_blank l = (k, l1) -> next_token l1 = Some (t, w, r) ->
  let q := s + Z.of_nat k + Z.of_nat (length w) in
  let m1 := after m s (replicate k x00 ++ w) (s + Z.of_nat k) (match r with [] => 0 | _ => q end) in
  layout m1 p1 p2 a n /\ positioned m1 q r /\ holds m1 p2 (s + Z.of_nat k) /\
  bytes_at m1 s (replicate k x00 ++ w) /\ q + Z.of_nat (length r) = s + Z.of_nat (length l).
Proof.
  intros Hlay Ha Hn Hc Ek Et q m1. destruct (span_blank_spec _ _ _ Ek) as (u & -> & Hu & _ & Hs).
  destruct (next_token_spec l1 t w r Hs Et) as (v & -> & Hv & _). rewrite !length_app in *.
  pose proof (lay_line1 _ _ _ _ _ Hlay) as L1. pose proof (lay_line2 _ _ _ _ _ Hlay) as L2.
  pose proof (lay_cells _ _ _ _ _ Hlay) as L3. unfold apart in L1, L2, L3. unfold m1, after. split_and!; [| |..|lia].
  - do 3 (apply layout_mwrite; [|first [left; rewrite length_app, length_replicate; lia|right; rewrite length_le_split; tauto]]). done.
  - split.
    + do 3 (apply cstr_mwrite_out; [|rewrite ?length_le_split, ?length_app, ?length_replicate; unfold q; lia]).
      rewrite app_assoc in Hc. apply cstr_app_r in Hc. rewrite length_app in Hc. by replace q with (s + Z.of_nat (length u + length v)) by (unfold q; lia).
    + destruct r; [right; split; [done|]|left]; apply holds_mwrite.
  - apply bytes_at_mwrite_out; [apply holds_mwrite|]. rewrite !length_le_split. lia.
  - do 2 (apply bytes_at_mwrite_out; [|rewrite length_le_split, length_app, length_replicate; lia]). apply bytes_at_mwrite.
Qed.

Lemma gettokens_ret : forall fuel m s l acc ts fin,
  layout m p1 p2 a n -> positioned m s l -> a <= s -> s + Z.of_nat (length l) < a + n ->
  (length l < fuel)%nat -> tokenize fuel l = (ts, fin) ->
  exists res m', loop fuel (fun acc =>
      t ← gettoken p1 p2;
      if t =? 0 then mret (inr acc) else q ← load64 p2; mret (inl (acc ++ [(t, q)]))) acc m = Ret (acc ++ res) m' /\
    bytes_at m' s (fin ++ [x00]) /\ same_outside m m' s (Z.of_nat (length l)) /\ Forall2 (found m') res ts.
Proof.
  induction fuel as [|fuel IH]; intros m s l acc ts fin Hlay [Hc Hp] Ha Hn Hf E; [lia|].
  rewrite loop_S. pose proof (lay_range _ _ _ _ _ Hlay) as Hr. cbn [tokenize] in E. destruct Hp as [Hp|[-> Hp]].
  2: { exists [], m. injection E as <- <-. unfold gettoken at 1. rewrite !bind_assoc. mrun (holds_load m p1 0 Hp ltac:(lia)).
       rewrite app_nil_r. split_and!; [done|by apply Hc|done|constructor]. }
  destruct (span_blank l) as [k l1] eqn:Ek. destruct (next_token l1) as [[[t w] r]|] eqn:Et.
  2: { apply next_token_none in Et as ->. injection E as <- <-. exists [], (mwrite m s (replicate k x00)).
       mrun (gettoken_none m s l k Hlay Hp Ha Hn Hc Ek). rewrite app_nil_r.
       destruct (span_blank_spec _ _ _ Ek) as (u & -> & <- & _). rewrite app_nil_r in *. split_and!; [done| | |constructor].
       - apply bytes_at_app. rewrite length_replicate. split; [apply bytes_at_mwrite|]. apply bytes_at_mwrite_out; [|rewrite length_replicate; lia].
         destruct Hc as [_ Hc]. by apply bytes_at_app in Hc as [_ ?].
       - intros x Hx _ _. apply mwrite_out. rewrite length_replicate. lia. }
  destruct (tokenize fuel r) as [ts' fin'] eqn:Er. injection E as <- <-.
  mrun (gettoken_some m s l k l1 t w r Hlay Hp Ha Hn Hc Ek Et).
  destruct (after_positioned m s l k l1 t w r Hlay Ha Hn Hc Ek Et) as (Hlay1 & Hp1 & Hh2 & Hb1 & Hlen). cbv zeta in *.
  set (q := s + Z.of_nat k + Z.of_nat (length w)) in *. set (m1 := after _ _ _ _ _) in *.
  destruct (span_blank_spec _ _ _ Ek) as (u & El & Hu & _ & Hs).
  destruct (next_token_spec l1 t w r Hs Et) as (v & El1 & Hv & Hw & Hk).
  assert (length l = k + (length w + length r))%nat as Ell by (subst l l1; rewrite !length_app; lia).
  assert (nonul l1) as Hnn by (destruct Hc as [Hc _]; subst l; by apply list.Forall_app in Hc as [_ ?]).
  rewrite (proj2 (Z.eqb_neq t 0) (next_token_kind l1 t w r Hnn Et)).
  mrun (holds_load m1 p2 (s + Z.of_nat k) Hh2 ltac:(unfold q in *; lia)). rewrite mret_ret.
  destruct (IH m1 q r (acc ++ [(t, s + Z.of_nat k)]) ts' fin' Hlay1 Hp1) as (res & m' & E' & Hb' & Ho' & Hf');
    [unfold q; lia|unfold q in *; lia|lia|done|].
  exists ((t, s + Z.of_nat k) :: res), m'. split; [by rewrite E', <- app_assoc|].
  assert (bytes_at m' s (replicate k x00 ++ w)) as Hb.
  { eapply (same_outside_bytes m1); [done|exact Ho'|done|lia|rewrite length_app, length_replicate; unfold q in *; lia|].
    rewrite length_app, length_replicate. unfold q. lia. }
  split_and!.
  - rewrite app_assoc, <- app_assoc. rewrite <- (app_assoc (replicate k x00)). rewrite app_assoc. apply bytes_at_app. split; [done|].
    rewrite length_app, length_replicate. by replace (s + Z.of_nat (k + length w)) with q by (unfold q; lia).
  - apply (same_outside_trans m m1); [eapply same_outside_mono; [apply after_outside|lia|rewrite length_app, length_replicate; lia]|].
    eapply same_outside_mono; [exact Ho'|unfold q; lia|unfold q in *; lia].
  - constructor; [|done]. split; [done|]. cbn [fst snd]. intros ->. destruct Hk as [[_ ?]|(_ & Hnw & Hd)]; [done|].
    split; [by apply Hnw|]. apply bytes_at_app in Hb as [_ Hb]. rewrite length_replicate in Hb. apply bytes_at_app. split; [done|].
    fold q. destruct (tokenize_spec fuel r ts' fin') as [Hlf Hz]; [lia|done|]. destruct r as [|b r].
    + destruct fin'; [done|]. cbn in Hlf. lia.
    + destruct (Hz b r eq_refl (Hd b r eq_refl)) as [f' ->]. cbn in Hb' |- *. tauto.
Qed.

(** C29: Called until it returns 0, [gettoken] delivers the tokens of the line in
    order: words, with quoted parts kept together, and symbols.  Afterwards each
    word is a NUL-terminated string at the pointer that was stored for it, and
    no memory besides the line and the two variables has changed. *)
Theorem gettoken_correct m l :
  layout m p1 p2 a n -> cstr m a l -> Z.of_nat (length l) < n -> holds m p1 a ->
  exists res m', gettokens (S (length l)) m = Ret res m' /\ Forall2 (found m') res (line_tokens l) /\
    same_outside m m' a (Z.of_nat (length l)).
Proof.
  intros Hlay Hc Hn Hh. unfold line_tokens. destruct (tokenize (S (length l)) l) as [ts fin] eqn:E.
  destruct (gettokens_ret (S (length l)) m a l [] ts fin Hlay) as (res & m' & E' & _ & Ho & Hf);
    [split; [done|by left]|lia|lia|lia|done|]. by exists res, m'.
Qed.
End Step.
End Line.

(** ** An example line *)

Definition sh_image : UImage := {|
  junk := 0; upper := 0;
  ulit s := if String.eqb s " \t\r\n" then 100 else if String.eqb s "<|>&;" then 110 else 120;
  ubuf := 4096; fork_lock := 8192; udir := 8200; getc_buf := 3000; ustat := 9000 |}.

Definition sh_line : list byte := str "ls -l>" ++ [quote] ++ str "a b" ++ [quote] ++ str " ; x".
Definition sh_mem : mem :=
  mwrite (mwrite (mwrite (mwrite (mwrite (mwrite ∅ 100 (blanks ++ [x00])) 110 (symbols ++ [x00]))
    120 ((blanks ++ symbols) ++ [x00])) 200 (sh_line ++ [x00])) 300 (le_split 8 200)) 308 (le_split 8 0).

Lemma gettoken_correct_witness :
  exists res m', gettokens (UI := sh_image) 300 308 (S (length sh_line)) sh_mem = Ret res m' /\
    Forall2 (found m') res [(119, str "ls"); (119, str "-l"); (62, [x00]); (119, str " a b "); (59, [x00]); (119, str "x")] /\
    same_outside 300 308 sh_mem m' 200 (Z.of_nat (length sh_line)).
Proof.
  refine (gettoken_correct (UI := sh_image) 300 308 200 20 sh_mem sh_line _ _ _ _).
  - split; [split; [apply (bool_decide_unpack _); vm_compute; exact I..|done]| | |unfold apart; lia..| |lia].
    + intros x Hx. unfold sh_mem. do 1 apply (mapped_mwrite _ 300 8); [|done]. exact (bytes_at_mapped _ 300 (le_split 8 200) (bytes_at_mwrite _ _ _)).
    + exact (bytes_at_mapped _ 308 (le_split 8 0) (bytes_at_mwrite _ _ _)).
    + unfold off_literals, apart. cbn. lia.
  - apply (bool_decide_unpack _); vm_compute; exact I.
  - reflexivity.
  - apply (bool_decide_unpack _); vm_compute; exact I.
Defined.
