(* ===== verification/LBase.v ===== *)
(** * The litc process: memory, errno and the system-call interface

    litc (biscuit/c/libs/litc.c) reaches the kernel only through [syscall6],
    a trap instruction.  The kernel is another program (the Rust sources under
    kernel/), so it is a parameter: an instance of the class [Kernel].  The process state that the
    C code sees is the record [proc]: its memory, the thread's [errno] and the
    (abstract) state of the kernel. *)

From S2P Require Import Prelude CMem.

(** The constants of litc.h that the code of the library refers to. *)
Definition EOF : Z := -1.
Definition ERRNO_FIRST : Z := 1.
Definition ENOENT : Z := 2.
Definition EINTR : Z := 4.
Definition EBADF : Z := 9.
Definition EAGAIN : Z := 11.
Definition ENOMEM : Z := 12.
Definition EFAULT : Z := 14.
Definition EEXIST : Z := 17.
Definition ENOTDIR : Z := 20.
Definition EINVAL : Z := 22.
Definition ENOSYS : Z := 38.
Definition EOVERFLOW : Z := 75.
Definition ERRNO_LAST : Z := 115.
Definition MAP_FAILED : Z := u64 (-1).
Definition ULONG_MAX : Z := 18446744073709551615.

(** The two architectures [syscall6] has code for. *)
Inductive arch : Type := x86_64 | aarch64.

(** The arguments that are in the argument registers when the trap executes.
    The x86-64 code loads [a4] into r10 and then executes [movq %rsp, %r10]
    before [syscall]: the fourth register holds the stack pointer and [a4] does
    not reach the kernel.  The aarch64 code passes all six. *)
Definition trap_args (a : arch) (a1 a2 a3 a4 a5 a6 : Z) : list Z :=
  match a with
  | x86_64 => [a1; a2; a3; a5; a6]
  | aarch64 => [a1; a2; a3; a4; a5; a6]
  end.

(** The machine: its architecture, and what a trap does, from the trap number,
    the arguments that reach it ([trap_args]), the memory and the kernel's state
    to the value in the result register, the memory and the kernel's state
    afterwards; [None] when the caller never gets control back. *)
Class Kernel (K : Type) : Type := {
  karch : arch;
  ktrap : Z -> list Z -> mem -> K -> option (Z * mem * K)
}.

Record proc (K : Type) : Type := Proc {
  p_mem : mem;
  p_errno : Z;
  p_kern : K
}.
Arguments Proc {K} _ _ _.
Arguments p_mem {K} _.
Arguments p_errno {K} _.
Arguments p_kern {K} _.

Section Proc.
Context {K : Type}.

Definition set_mem (m : mem) (p : proc K) : proc K := Proc m (p_errno p) (p_kern p).
Definition set_errno (e : Z) (p : proc K) : proc K := Proc (p_mem p) e (p_kern p).

(** A function of the memory alone, run in the process. *)
Definition onmem {A} (f : M mem A) : M (proc K) A := zoom p_mem set_mem f.

Definition errno : M (proc K) Z := gets p_errno.
Definition seterrno (e : Z) : M (proc K) unit := modify (set_errno e).

Lemma onmem_ret {A} (f : M mem A) p a m' :
  f (p_mem p) = Ret a m' -> onmem f p = Ret a (set_mem m' p).
Proof. apply zoom_ret. Qed.

Lemma set_mem_id p : set_mem (p_mem p) p = p.
Proof. by destruct p. Qed.

(** A read-only function leaves the process as it is. *)
Lemma onmem_pure {A} (f : M mem A) p a :
  f (p_mem p) = Ret a (p_mem p) -> onmem f p = Ret a p.
Proof. intros H. by rewrite (onmem_ret _ _ _ _ H), set_mem_id. Qed.
End Proc.

Section Syscall.
Context {K : Type} `{Kernel K}.

Definition syscall6 (a1 a2 a3 a4 a5 a6 trap : Z) : M (proc K) Z := fun p =>
  match ktrap trap (trap_args karch a1 a2 a3 a4 a5 a6) (p_mem p) (p_kern p) with
  | Some (r, m, k) => Ret (s64 r) (Proc m (p_errno p) k)
  | None => Halt a1 p
  end.

Definition syscall (a1 a2 a3 a4 a5 trap : Z) : M (proc K) Z :=
  syscall6 a1 a2 a3 a4 a5 0 trap.

(** [errno = -x] for an [x] of [w] bits: the negation is undefined at the
    least value, its conversion to [int] wraps. *)
Definition neg_errno (w x : Z) : M (proc K) unit :=
  e ← schk w (- x); seterrno (s32 e).

(** The macros that turn a kernel result of [w] bits into the C convention. *)
Definition ERRNO_NZ (w x : Z) : M (proc K) Z :=
  if x =? 0 then mret x else _ ← neg_errno w x; mret (-1).

Definition ERRNO_NEG (w x : Z) : M (proc K) Z :=
  if x <? 0 then _ ← neg_errno w x; mret (-1) else mret x.
End Syscall.
