(* ===== verification/LCtype.v ===== *)
(** * The character classes of litc.c (C locale) *)

From S2P Require Import Prelude CMem.

Definition islower (c : Z) : bool := (ch "a" <=? c) && (c <=? ch "z").
Definition isupper (c : Z) : bool := (ch "A" <=? c) && (c <=? ch "Z").
Definition isalpha (c : Z) : bool := isupper c || islower c.
Definition isdigit (c : Z) : bool := (ch "0" <=? c) && (c <=? ch "9").

(** The table [_punct] of 255 entries; an index of 255 is out of bounds. *)
Definition punct_chars : list byte := str "!" ++ [x22] ++ str "#$%&'()*+,-./:;<=>?@[\]^_`{|}~".

Definition _punct : list Z :=
  (fun i => cbool (bool_decide (byte.of_Z (Z.of_nat i) ∈ punct_chars))) <$> seq 0 255.

Definition ispunct (c : Z) : option Z := _punct !! Z.to_nat (u8 c).

Definition isprint (c : Z) : option bool :=
  if isalpha c || isdigit c then Some true
  else p ← ispunct c; Some (negb (p =? 0)).

Definition isspace (c : Z) : bool :=
  (c =? ch " ") || (c =? 12) || (c =? 10) || (c =? 9) || (c =? 11) || (c =? 13).

Definition tolower (c : Z) : Z := if isalpha c then Z.lor c 32 else c.
Definition toupper (c : Z) : Z := if isalpha c then Z.land c (Z.lnot 32) else c.

Definition isxdigit (c : Z) : bool :=
  let d := tolower c in isdigit c || ((ch "a" <=? d) && (d <=? ch "f")).

Definition _isoct (c : Z) : bool := (ch "0" <=? c) && (c <=? ch "7").

(** ** Properties *)

(** Decides a statement about a range of characters by evaluation. *)
Lemma by_range (P : Z -> bool) lo hi :
  forallb P (seqZ lo (hi - lo)) = true -> forall c, lo <= c < hi -> P c = true.
Proof.
  rewrite List.forallb_forall. intros H c Hc. apply H, list_elem_of_In, elem_of_seqZ. lia.
Qed.

Ltac by_eval P lo hi := apply (by_range P lo hi); [vm_compute; reflexivity|lia].

Lemma isalpha_range c : isalpha c = true -> 65 <= c < 123.
Proof.
  unfold isalpha, isupper, islower. unch.
  rewrite orb_true_iff, !andb_true_iff, !Z.leb_le. lia.
Qed.

Lemma isdigit_range c : isdigit c = true <-> 48 <= c <= 57.
Proof. unfold isdigit. unch. rewrite andb_true_iff, !Z.leb_le. lia. Qed.

Lemma tolower_toupper c : tolower (toupper c) = tolower c.
Proof.
  destruct (isalpha c) eqn:E; [|unfold toupper; by rewrite E].
  apply isalpha_range in E as Hr. apply Z.eqb_eq.
  by_eval (fun c => tolower (toupper c) =? tolower c) 65 123.
Qed.

Lemma tolower_idem c : tolower (tolower c) = tolower c.
Proof.
  destruct (isalpha c) eqn:E; [|unfold tolower; by rewrite !E].
  apply isalpha_range in E as Hr. apply Z.eqb_eq.
  by_eval (fun c => tolower (tolower c) =? tolower c) 65 123.
Qed.

Lemma tolower_case c : isupper c = true -> tolower c = c + 32 /\ islower (tolower c) = true.
Proof.
  unfold isupper. unch. rewrite andb_true_iff, !Z.leb_le. intros Hc. split.
  - apply Z.eqb_eq. by_eval (fun c => tolower c =? c + 32) 65 91.
  - by_eval (fun c => islower (tolower c)) 65 91.
Qed.

Lemma isprint_ascii c : 0 <= c < 128 -> isprint c = Some (bool_decide (33 <= c <= 126)).
Proof.
  intros Hc. apply (bool_decide_eq_true_1 _).
  by_eval (fun c => bool_decide (isprint c = Some (bool_decide (33 <= c <= 126)))) 0 128.
Qed.

Lemma isxdigit_spec c :
  isxdigit c = true <-> 48 <= c <= 57 \/ 65 <= c <= 70 \/ 97 <= c <= 102.
Proof.
  destruct (decide (48 <= c < 123)) as [Hc|Hc].
  - rewrite <- (bool_decide_eq_true (48 <= c <= 57 \/ 65 <= c <= 70 \/ 97 <= c <= 102)).
    assert (isxdigit c = bool_decide (48 <= c <= 57 \/ 65 <= c <= 70 \/ 97 <= c <= 102)) as ->; [|done].
    apply eqb_prop. by_eval (fun c => eqb (isxdigit c)
      (bool_decide (48 <= c <= 57 \/ 65 <= c <= 70 \/ 97 <= c <= 102))) 48 123.
  - unfold isxdigit. assert (isdigit c = false) as ->.
    { apply not_true_iff_false. rewrite isdigit_range. lia. }
    unfold tolower. destruct (isalpha c) eqn:E; [apply isalpha_range in E; lia|].
    unch. simpl. rewrite andb_true_iff, !Z.leb_le. lia.
Qed.
