(* ===== verification/LString.v ===== *)
(** * The string and memory routines of litc.c

    The word-at-a-time [memcmp], [memmove] and [memset], and the string
    functions that only touch memory.  Characters are signed chars. *)

From S2P Require Import Prelude CMem LBase LCtype.
From coqutil Require Import Word.LittleEndianList.

(** ** Memory *)

(** [while (sz >= 8 && *e1 == *e2) ...] *)
Definition memcmp_words (e1 e2 sz : Z) : M mem (Z * Z * Z) :=
  loop (S (Z.to_nat sz)) (fun '(e1, e2, sz) =>
    if 8 <=? sz then
      x ← load64 e1;
      y ← load64 e2;
      mret (if x =? y then inl (e1 + 8, e2 + 8, sz - 8) else inr (e1, e2, sz))
    else mret (inr (e1, e2, sz))) (e1, e2, sz).

(** [while (sz && *s1 == *s2) ...] and the result. *)
Definition memcmp_bytes (s1 s2 sz : Z) : M mem Z :=
  loop (S (Z.to_nat sz)) (fun '(s1, s2, sz) =>
    if sz =? 0 then mret (inr 0)
    else
      x ← ldc s1;
      y ← ldc s2;
      mret (if x =? y then inl (s1 + 1, s2 + 1, sz - 1) else inr (s32 (x - y)))) (s1, s2, sz).

Definition memcmp (q p sz : Z) : M mem Z :=
  '(e1, e2, sz) ← memcmp_words q p sz;
  memcmp_bytes e1 e2 sz.

(** The loops of [memmove]: eight bytes at a time, then single bytes. *)
Definition words_down (d s n : Z) : M mem (Z * Z * Z) :=
  loop (S (Z.to_nat n)) (fun '(d, s, n) =>
    if 8 <=? n then x ← load64 (s - 8); _ ← store64 (d - 8) x; mret (inl (d - 8, s - 8, n - 8))
    else mret (inr (d, s, n))) (d, s, n).

Definition bytes_down (d s n : Z) : M mem Z :=
  loop (S (Z.to_nat n)) (fun '(d, s, n) =>
    if n =? 0 then mret (inr d)
    else x ← ldc (s - 1); _ ← stc (d - 1) x; mret (inl (d - 1, s - 1, n - 1))) (d, s, n).

Definition words_up (d s n : Z) : M mem (Z * Z * Z) :=
  loop (S (Z.to_nat n)) (fun '(d, s, n) =>
    if 8 <=? n then x ← load64 s; _ ← store64 d x; mret (inl (d + 8, s + 8, n - 8))
    else mret (inr (d, s, n))) (d, s, n).

Definition bytes_up (d s n : Z) : M mem unit :=
  loop (S (Z.to_nat n)) (fun '(d, s, n) =>
    if n =? 0 then mret (inr tt)
    else x ← ldc s; _ ← stc d x; mret (inl (d + 1, s + 1, n - 1))) (d, s, n).

Definition memmove (dst src n : Z) : M mem Z :=
  if (dst =? src) || (n =? 0) then mret dst
  else if (src <? dst) && (dst <=? src + n) then
    '(d, s, n) ← words_down (dst + n) (src + n) n;
    bytes_down d s n
  else
    '(d, s, n) ← words_up dst src n;
    _ ← bytes_up d s n;
    mret dst.

Definition memcpy (dst src n : Z) : M mem Z := memmove dst src n.

(** [memset]: the byte repeated in a word, and the two loops. *)
Definition splat (c : Z) : Z :=
  let c8 := u8 c in
  let c8 := Z.lor c8 (u64 (Z.shiftl c8 8)) in
  let c8 := Z.lor c8 (u64 (Z.shiftl c8 16)) in
  Z.lor c8 (u64 (Z.shiftl c8 32)).

Definition fill_words (pl c8 n : Z) : M mem (Z * Z) :=
  loop (S (Z.to_nat n)) (fun '(pl, n) =>
    if 8 <=? n then _ ← store64 pl c8; mret (inl (pl + 8, n - 8))
    else mret (inr (pl, n))) (pl, n).

Definition fill_bytes (pc v n : Z) : M mem unit :=
  loop (S (Z.to_nat n)) (fun '(pc, n) =>
    if n =? 0 then mret (inr tt)
    else _ ← stc pc v; mret (inl (pc + 1, n - 1))) (pc, n).

Definition memset (d c n : Z) : M mem Z :=
  if n =? 0 then mret d
  else
    '(pl, n) ← fill_words d (splat c) n;
    _ ← fill_bytes pl (s8 c) n;
    mret d.

(** ** Strings *)

Definition strlen (msg : Z) : M mem Z :=
  fuel ← scan_fuel;
  loop fuel (fun '(msg, ret) =>
    c ← ldc msg;
    mret (if c =? 0 then inr ret else inl (msg + 1, ret + 1))) (msg, 0).

Definition strcmp (s1 s2 : Z) : M mem Z :=
  fuel ← scan_fuel;
  loop fuel (fun '(s1, s2) =>
    c1 ← ldc s1;
    more ← (if c1 =? 0 then mret false else c2 ← ldc s2; mret (c1 =? c2));
    if (more : bool) then mret (inl (s1 + 1, s2 + 1))
    else
      c1 ← ldc s1;
      c2 ← ldc s2;
      mret (inr (c1 - c2))) (s1, s2).

Definition strcoll (s1 s2 : Z) : M mem Z := strcmp s1 s2.

Definition strncmp (s1 s2 n : Z) : M mem Z :=
  fuel ← scan_fuel;
  loop fuel (fun '(s1, s2, n) =>
    more ← (if n =? 0 then mret false
            else
              c1 ← ldc s1;
              if c1 =? 0 then mret false else c2 ← ldc s2; mret (c1 =? c2));
    if (more : bool) then mret (inl (s1 + 1, s2 + 1, n - 1))
    else if n =? 0 then mret (inr 0)
    else
      c1 ← ldc s1;
      c2 ← ldc s2;
      mret (inr (c1 - c2))) (s1, s2, n).

Definition strncasecmp (s1 s2 n : Z) : M mem Z :=
  fuel ← scan_fuel;
  a ← ldc s1;
  b ← ldc s2;
  loop fuel (fun '(a, b, s1, s2, n) =>
    if negb (n =? 0) && negb (a =? 0) && (a =? b) then
      a ← ldc s1;
      b ← ldc s2;
      mret (inl (u32 (tolower a), u32 (tolower b), s1 + 1, s2 + 1, n - 1))
    else mret (inr (if n =? 0 then 0 else s32 (u32 (a - b)))))
    (u32 (tolower a), u32 (tolower b), s1 + 1, s2 + 1, n).

Definition strcasecmp (s1 s2 : Z) : M mem Z := strncasecmp s1 s2 ULONG_MAX.

Definition strchr (big l : Z) : M mem Z :=
  fuel ← scan_fuel;
  loop fuel (fun big =>
    c ← ldc big;
    mret (if c =? 0 then inr (if l =? 0 then big else 0)
          else if c =? l then inr big else inl (big + 1))) big.

(** The inner loop of [strstr]: compares [little] at the current position and
    says where it stopped and whether all of [little] was seen. *)
Definition strstr_guess (big l : Z) : M mem (Z * bool) :=
  fuel ← scan_fuel;
  loop fuel (fun '(big, l) =>
    b ← ldc big;
    if b =? 0 then
      c ← ldc l;
      mret (inr (big, c =? 0))
    else
      c ← ldc l;
      if c =? 0 then mret (inr (big, true))
      else if b =? c then mret (inl (big + 1, l + 1))
      else mret (inr (big, false))) (big, l).

Definition strstr (big little : Z) : M mem Z :=
  fuel ← scan_fuel;
  loop fuel (fun big =>
    b ← ldc big;
    if b =? 0 then mret (inr 0)
    else
      c ← ldc little;
      if b =? c then
        '(big', found) ← strstr_guess big little;
        mret (if (found : bool) then inr big else inl big')
      else mret (inl (big + 1))) big.

(** The inner loop of [strpbrk]. *)
Definition strpbrk_hit (x b : Z) : M mem bool :=
  fuel ← scan_fuel;
  loop fuel (fun b =>
    y ← ldc b;
    mret (if y =? 0 then inr false else if x =? y then inr true else inl (b + 1))) b.

Definition strpbrk (a bb : Z) : M mem Z :=
  fuel ← scan_fuel;
  loop fuel (fun a =>
    x ← ldc a;
    if x =? 0 then mret (inr 0)
    else
      hit ← strpbrk_hit x bb;
      mret (if (hit : bool) then inr a else inl (a + 1))) a.

(** ** Correctness of the memory routines *)

Lemma word_load m p w : length w = 8%nat -> bytes_at m p w -> load64 p m = Ret (le_combine w) m.
Proof. apply load64_ret. Qed.

Lemma word_store m p w :
  length w = 8%nat -> mapped m p 8 -> store64 p (le_combine w) m = Ret tt (mwrite m p w).
Proof. intros Hw H. rewrite store64_ret by done. by rewrite split_le_combine'. Qed.

(** Takes eight bytes off the front or the back of a long list. *)
Lemma split8 {A} (l : list A) :
  (8 <= length l)%nat -> exists w k, l = w ++ k /\ length w = 8%nat.
Proof.
  intros H. exists (take 8 l), (drop 8 l). split; [by rewrite take_drop|].
  rewrite length_take. lia.
Qed.

Lemma split8_back {A} (l : list A) :
  (8 <= length l)%nat -> exists k w, l = k ++ w /\ length w = 8%nat.
Proof.
  intros H. exists (take (length l - 8) l), (drop (length l - 8) l). split; [by rewrite take_drop|].
  rewrite length_drop. lia.
Qed.

Lemma bcmp_app f w l1 l2 : bcmp f (w ++ l1) (w ++ l2) = bcmp f l1 l2.
Proof. induction w as [|b w IH]; simpl; [done|]. by rewrite decide_True. Qed.

Lemma memcmp_words_ret m q p l1 l2 :
  bytes_at m q l1 -> bytes_at m p l2 -> length l1 = length l2 ->
  exists w r1 r2, l1 = w ++ r1 /\ l2 = w ++ r2 /\
    memcmp_words q p (Z.of_nat (length l1)) m =
      Ret (q + Z.of_nat (length w), p + Z.of_nat (length w), Z.of_nat (length r1)) m.
Proof.
  unfold memcmp_words. loop_body B. rewrite Nat2Z.id.
  assert (length l1 < S (length l1))%nat as Hf by lia. revert Hf.
  generalize (S (length l1)) as fuel. intros fuel. revert q p l1 l2.
  induction fuel as [|fuel IH]; intros q p l1 l2 Hf H1 H2 Hl; [lia|].
  rewrite loop_S; unfold B at 1; cbn beta iota. destruct (Z.leb_spec 8 (Z.of_nat (length l1))) as [H8|H8].
  2:{ exists [], l1, l2. simpl. rewrite !Z.add_0_r. done. }
  destruct (split8 l1) as (w1 & k1 & -> & Hw1); [lia|].
  destruct (split8 l2) as (w2 & k2 & -> & Hw2); [lia|].
  apply bytes_at_app in H1 as [H1 H1'], H2 as [H2 H2']. rewrite !length_app in *.
  mgo. rewrite (word_load _ _ w1), (word_load _ _ w2) by done. mgo.
  destruct (Z.eqb_spec (le_combine w1) (le_combine w2)) as [Ew|Ew].
  - apply le_combine_inj in Ew as ->; [|congruence].
    destruct (IH (q + 8) (p + 8) k1 k2) as (w & r1 & r2 & -> & -> & E);
      [lia|by rewrite Hw1 in H1'|by rewrite Hw2 in H2'|lia|].
    exists (w2 ++ w), r1, r2. rewrite <- !app_assoc. split_and!; [done..|].
    rewrite Hw2. replace (Z.of_nat (8 + length (w ++ r1)) - 8) with (Z.of_nat (length (w ++ r1))) by lia.
    rewrite E, length_app. ret_eq.
  - exists [], (w1 ++ k1), (w2 ++ k2). simpl. rewrite !Z.add_0_r, length_app. done.
Qed.

Lemma memcmp_bytes_ret m q p l1 l2 :
  bytes_at m q l1 -> bytes_at m p l2 -> length l1 = length l2 ->
  memcmp_bytes q p (Z.of_nat (length l1)) m = Ret (bcmp schar l1 l2) m.
Proof.
  unfold memcmp_bytes. loop_body B. rewrite Nat2Z.id. revert q p l2.
  induction l1 as [|b r1 IH]; intros q p [|c r2] H1 H2 Hr; try done;
    rewrite loop_S; unfold B at 1; cbn beta iota.
  destruct H1 as [Hb H1], H2 as [Hc H2]. injection Hr as Hr. cbn [length].
  rewrite (proj2 (Z.eqb_neq _ 0)) by lia.
  replace (Z.of_nat (S (length r1)) - 1) with (Z.of_nat (length r1)) by lia.
  cbn [bcmp]. case_decide as E.
  - subst c. mgo. by apply IH.
  - mgo. rewrite swrap_id; [done|lia|]. pose proof (schar_range b). pose proof (schar_range c). unfold_int; lia.
Qed.

(** The word-at-a-time comparison is the byte comparison. *)
Lemma memcmp_ret m q p l1 l2 :
  bytes_at m q l1 -> bytes_at m p l2 -> length l1 = length l2 ->
  memcmp q p (Z.of_nat (length l1)) m = Ret (bcmp schar l1 l2) m.
Proof.
  intros H1 H2 Hl. unfold memcmp.
  destruct (memcmp_words_ret m q p l1 l2 H1 H2 Hl) as (w & r1 & r2 & -> & -> & E).
  apply bytes_at_app in H1 as [_ H1], H2 as [_ H2]. rewrite !length_app in Hl.
  mrun E. rewrite bcmp_app. apply memcmp_bytes_ret; [done..|lia].
Qed.

Lemma words_up_ret m d s l :
  bytes_at m s l -> mapped m d (Z.of_nat (length l)) ->
  d <= s \/ s + Z.of_nat (length l) <= d ->
  exists l1 l2, l = l1 ++ l2 /\
    words_up d s (Z.of_nat (length l)) m =
      Ret (d + Z.of_nat (length l1), s + Z.of_nat (length l1), Z.of_nat (length l2)) (mwrite m d l1).
Proof.
  unfold words_up. loop_body B. rewrite Nat2Z.id.
  assert (length l < S (length l))%nat as Hf by lia. revert Hf.
  generalize (S (length l)) as fuel. intros fuel. revert m d s l.
  induction fuel as [|fuel IH]; intros m d s l Hf H Hm Hd; [lia|].
  rewrite loop_S; unfold B at 1; cbn beta iota. destruct (Z.leb_spec 8 (Z.of_nat (length l))) as [H8|H8].
  2:{ exists [], l. simpl. rewrite !Z.add_0_r. done. }
  destruct (split8 l) as (w & k & -> & Hw); [lia|].
  apply bytes_at_app in H as [H H']. rewrite !length_app in *.
  mgo. rewrite (word_load _ _ w), word_store by (done || (eapply mapped_le; [done|lia..])). mgo.
  destruct (IH (mwrite m d w) (d + 8) (s + 8) k) as (l1 & l2 & -> & E).
  { lia. }
  { rewrite Hw in H'. apply bytes_at_mwrite_out; [done|lia]. }
  { apply mapped_mwrite. eapply mapped_le; [done|lia..]. }
  { lia. }
  exists (w ++ l1), l2. rewrite <- app_assoc. split; [done|].
  rewrite Hw. replace (Z.of_nat (8 + length (l1 ++ l2)) - 8) with (Z.of_nat (length (l1 ++ l2))) by lia.
  rewrite E, length_app, mwrite_app', Hw. ret_eq.
Qed.

Lemma bytes_up_ret m d s l :
  bytes_at m s l -> mapped m d (Z.of_nat (length l)) ->
  d <= s \/ s + Z.of_nat (length l) <= d ->
  bytes_up d s (Z.of_nat (length l)) m = Ret tt (mwrite m d l).
Proof.
  unfold bytes_up. loop_body B. rewrite Nat2Z.id. revert m d s.
  induction l as [|b l IH]; intros m d s H Hm Hd; rewrite loop_S; unfold B at 1; cbn beta iota.
  { mgo. done. }
  destruct H as [Hs H]. cbn [length] in *. rewrite (proj2 (Z.eqb_neq _ 0)) by lia.
  replace (Z.of_nat (S (length l)) - 1) with (Z.of_nat (length l)) by lia.
  mgo. rewrite stc_ret by (apply Hm; lia). mgo. rewrite byte_of_schar.
  rewrite IH; [|apply bytes_at_insert_out; [done|lia]|
    apply mapped_insert; eapply mapped_le; [done|lia..]|lia].
  simpl. f_equal. apply mwrite_insert_comm. lia.
Qed.

Lemma words_down_ret m d s l :
  bytes_at m s l -> mapped m d (Z.of_nat (length l)) -> s <= d ->
  exists l1 l2, l = l1 ++ l2 /\
    words_down (d + Z.of_nat (length l)) (s + Z.of_nat (length l)) (Z.of_nat (length l)) m =
      Ret (d + Z.of_nat (length l1), s + Z.of_nat (length l1), Z.of_nat (length l1))
          (mwrite m (d + Z.of_nat (length l1)) l2).
Proof.
  unfold words_down. loop_body B. rewrite Nat2Z.id.
  assert (length l < S (length l))%nat as Hf by lia. revert Hf.
  generalize (S (length l)) as fuel. intros fuel. revert m d s l.
  induction fuel as [|fuel IH]; intros m d s l Hf H Hm Hd; [lia|].
  rewrite loop_S; unfold B at 1; cbn beta iota. destruct (Z.leb_spec 8 (Z.of_nat (length l))) as [H8|H8].
  2:{ exists l, []. rewrite app_nil_r. done. }
  destruct (split8_back l) as (k & w & -> & Hw); [lia|].
  apply bytes_at_app in H as [H H']. rewrite !length_app, Hw in *.
  replace (s + Z.of_nat (length k + 8) - 8) with (s + Z.of_nat (length k)) by lia.
  replace (d + Z.of_nat (length k + 8) - 8) with (d + Z.of_nat (length k)) by lia.
  replace (Z.of_nat (length k + 8) - 8) with (Z.of_nat (length k)) by lia.
  mgo. rewrite (word_load _ _ w), word_store by (done || (eapply mapped_le; [done|lia..])). mgo.
  destruct (IH (mwrite m (d + Z.of_nat (length k)) w) d s k) as (l1 & l2 & -> & E).
  { lia. }
  { apply bytes_at_mwrite_out; [done|lia]. }
  { apply mapped_mwrite. eapply mapped_le; [done|lia..]. }
  { lia. }
  exists l1, (l2 ++ w). rewrite app_assoc. split; [done|].
  rewrite E, mwrite_app. f_equal. do 2 f_equal. rewrite length_app. lia.
Qed.

Lemma bytes_down_ret m d s l :
  bytes_at m s l -> mapped m d (Z.of_nat (length l)) -> s <= d ->
  bytes_down (d + Z.of_nat (length l)) (s + Z.of_nat (length l)) (Z.of_nat (length l)) m
  = Ret d (mwrite m d l).
Proof.
  unfold bytes_down. loop_body B. rewrite Nat2Z.id. revert m.
  induction l as [|b l IH] using rev_ind; intros m H Hm Hd.
  { rewrite loop_S; unfold B at 1; cbn beta iota. mgo. simpl. by rewrite Z.add_0_r. }
  rewrite length_app in *. cbn [length] in *. rewrite Nat.add_1_r in *.
  rewrite loop_S; unfold B at 1; cbn beta iota. rewrite (proj2 (Z.eqb_neq _ 0)) by lia.
  replace (Z.of_nat (S (length l)) - 1) with (Z.of_nat (length l)) by lia.
  apply bytes_at_app in H as [H [Hs _]].
  replace (s + Z.of_nat (S (length l)) - 1) with (s + Z.of_nat (length l)) by lia.
  replace (d + Z.of_nat (S (length l)) - 1) with (d + Z.of_nat (length l)) by lia.
  mgo. rewrite stc_ret by (apply Hm; lia). mgo. rewrite byte_of_schar.
  rewrite IH; [|apply bytes_at_insert_out; [done|lia]|
    apply mapped_insert; eapply mapped_le; [done|lia..]|lia].
  f_equal. rewrite mwrite_snoc. apply mwrite_insert_comm. lia.
Qed.

Lemma move_up_ret m dst src l :
  bytes_at m src l -> mapped m dst (Z.of_nat (length l)) ->
  dst <= src \/ src + Z.of_nat (length l) <= dst ->
  ('(d, s, n) ← words_up dst src (Z.of_nat (length l)); _ ← bytes_up d s n; mret dst) m
  = Ret dst (mwrite m dst l).
Proof.
  intros H Hm Hd. destruct (words_up_ret m dst src l) as (l1 & l2 & -> & E); [done..|]. mrun E.
  apply bytes_at_app in H as [_ H]. rewrite length_app in *.
  rewrite (bind_ret _ _ _ _ _ (bytes_up_ret (mwrite m dst l1) (dst + Z.of_nat (length l1))
    (src + Z.of_nat (length l1)) l2 ltac:(apply bytes_at_mwrite_out; [done|lia])
    ltac:(apply mapped_mwrite; eapply mapped_le; [done|lia..]) ltac:(lia))).
  munfold. by rewrite mwrite_app'.
Qed.

Lemma move_down_ret m dst src l :
  bytes_at m src l -> mapped m dst (Z.of_nat (length l)) -> src <= dst ->
  ('(d, s, n) ← words_down (dst + Z.of_nat (length l)) (src + Z.of_nat (length l)) (Z.of_nat (length l));
   bytes_down d s n) m = Ret dst (mwrite m dst l).
Proof.
  intros H Hm Hd. destruct (words_down_ret m dst src l) as (l1 & l2 & -> & E); [done..|]. mrun E.
  apply bytes_at_app in H as [H _]. rewrite length_app in *.
  rewrite bytes_down_ret; [by rewrite mwrite_app| | |lia].
  - apply bytes_at_mwrite_out; [done|lia].
  - apply mapped_mwrite. eapply mapped_le; [done|lia..].
Qed.

(** [memmove] copies any two ranges, overlapping or not. *)
Lemma memmove_ret m dst src l :
  bytes_at m src l -> mapped m dst (Z.of_nat (length l)) ->
  memmove dst src (Z.of_nat (length l)) m = Ret dst (mwrite m dst l).
Proof.
  intros H Hm. unfold memmove.
  destruct (Z.eqb_spec dst src) as [->|Hne].
  { simpl. munfold. by rewrite mwrite_bytes_at. }
  destruct (Z.eqb_spec (Z.of_nat (length l)) 0) as [Hz|Hz].
  { simpl. munfold. destruct l; [done|simpl in Hz; lia]. }
  simpl. destruct (Z.ltb_spec src dst); [destruct (Z.leb_spec dst (src + Z.of_nat (length l)))|]; simpl;
    first [apply move_down_ret; done || lia | apply move_up_ret; done || lia].
Qed.

Lemma splat_word c : splat c = le_combine (replicate 8 (byte.of_Z c)).
Proof.
  unfold splat. replace (u8 c) with (uchar (byte.of_Z c)) by apply uchar_of_Z.
  generalize (byte.of_Z c) as b. intros b. destruct b; vm_compute; reflexivity.
Qed.

Lemma fill_words_ret m d b n :
  mapped m d (Z.of_nat n) ->
  exists n1 n2, n = (n1 + n2)%nat /\
    fill_words d (le_combine (replicate 8 b)) (Z.of_nat n) m =
      Ret (d + Z.of_nat n1, Z.of_nat n2) (mwrite m d (replicate n1 b)).
Proof.
  unfold fill_words. loop_body B. rewrite Nat2Z.id.
  assert (n < S n)%nat as Hf by lia. revert Hf. generalize (S n) as fuel. intros fuel. revert m d n.
  induction fuel as [|fuel IH]; intros m d n Hf Hm; [lia|].
  rewrite loop_S; unfold B at 1; cbn beta iota. destruct (Z.leb_spec 8 (Z.of_nat n)).
  2:{ exists O, n. simpl. rewrite Z.add_0_r. done. }
  mgo. rewrite word_store by (done || (eapply mapped_le; [done|lia..])).
  destruct (IH (mwrite m d (replicate 8 b)) (d + 8) (n - 8)%nat) as (n1 & n2 & Hn & E);
    [lia|apply mapped_mwrite; eapply mapped_le; [done|lia..]|].
  exists (8 + n1)%nat, n2. split; [lia|].
  replace (Z.of_nat n - 8) with (Z.of_nat (n - 8)) by lia.
  rewrite E, replicate_add, mwrite_app'. ret_eq.
Qed.

Lemma fill_bytes_ret m d v n :
  mapped m d (Z.of_nat n) ->
  fill_bytes d v (Z.of_nat n) m = Ret tt (mwrite m d (replicate n (byte.of_Z v))).
Proof.
  unfold fill_bytes. loop_body B. rewrite Nat2Z.id. revert m d.
  induction n as [|n IH]; intros m d Hm; rewrite loop_S; unfold B at 1; cbn beta iota.
  { mgo. done. }
  rewrite (proj2 (Z.eqb_neq _ 0)) by lia.
  replace (Z.of_nat (S n) - 1) with (Z.of_nat n) by lia.
  mgo. rewrite stc_ret by (apply Hm; lia). mgo.
  rewrite IH by (apply mapped_insert; eapply mapped_le; [done|lia..]).
  simpl. f_equal. apply mwrite_insert_comm. rewrite length_replicate. lia.
Qed.

Lemma memset_ret m d c n :
  mapped m d (Z.of_nat n) ->
  memset d c (Z.of_nat n) m = Ret d (mwrite m d (replicate n (byte.of_Z c))).
Proof.
  intros Hm. unfold memset. destruct (Z.eqb_spec (Z.of_nat n) 0) as [Hz|Hz].
  { munfold. destruct n; [done|lia]. }
  rewrite splat_word. destruct (fill_words_ret m d (byte.of_Z c) n Hm) as (n1 & n2 & -> & E).
  mrun E. rewrite (bind_ret _ _ _ _ _ (fill_bytes_ret
    (mwrite m d (replicate n1 (byte.of_Z c))) (d + Z.of_nat n1) (s8 c) n2 ltac:(apply mapped_mwrite; eapply mapped_le; [done|lia..]))).
  munfold. rewrite <- schar_of_Z, byte_of_schar, replicate_add, mwrite_app'. ret_eq.
  by rewrite length_replicate.
Qed.

(** ** Correctness of the string routines *)

Ltac start_scan B := unfold scan_fuel at 1; mgo; loop_body B.

Lemma strlen_ret m s l : cstr m s l -> strlen s m = Ret (Z.of_nat (length l)) m.
Proof.
  intros H. pose proof (cstr_size _ _ _ H) as Hf. unfold strlen. start_scan B.
  enough (forall fuel s k, cstr m s l -> (length l < fuel)%nat ->
    loop fuel B (s, k) m = Ret (k + Z.of_nat (length l)) m) as G by (rewrite G; done || lia).
  clear H Hf s. induction l as [|b l IH]; intros [|fuel] s k H Hf; simpl in Hf; try lia;
    rewrite loop_S; unfold B at 1; simpl.
  - apply cstr_nil in H. mgo. simpl. f_equal. lia.
  - apply cstr_cons in H as (Hb & Hs & H). mgo. rewrite IH by (done || lia). f_equal. lia.
Qed.

Lemma strcmp_ret m s1 s2 l1 l2 :
  cstr m s1 l1 -> cstr m s2 l2 -> strcmp s1 s2 m = Ret (bcmp schar l1 l2) m.
Proof.
  intros H1 H2. pose proof (cstr_size _ _ _ H1) as Hf. unfold strcmp. start_scan B.
  enough (forall fuel s1 s2 l2, cstr m s1 l1 -> cstr m s2 l2 -> (length l1 < fuel)%nat ->
    loop fuel B (s1, s2) m = Ret (bcmp schar l1 l2) m) as G by (apply G; done || lia).
  clear. induction l1 as [|b l1 IH]; intros [|fuel] s1 s2 l2 H1 H2 Hf; cbn [length] in Hf; try lia;
    rewrite loop_S; unfold B at 1; cbn beta iota.
  - apply cstr_nil in H1. mgo. destruct l2 as [|c l2];
      [apply cstr_nil in H2|apply cstr_cons in H2 as (? & ? & ?)]; mgo; done.
  - apply cstr_cons in H1 as (Hb & Hs1 & H1). destruct l2 as [|c l2].
    + apply cstr_nil in H2. mgo. simpl. f_equal. change (schar x00) with 0. lia.
    + apply cstr_cons in H2 as (Hc & Hs2 & H2). cbn [bcmp]. case_decide as E.
      * subst c. mgo. apply IH; done || lia.
      * mgo. done.
Qed.

Lemma strncmp_ret m s1 s2 l1 l2 n :
  0 <= n -> cstr m s1 l1 -> cstr m s2 l2 ->
  strncmp s1 s2 n m = Ret (bcmp schar (take (Z.to_nat n) l1) (take (Z.to_nat n) l2)) m.
Proof.
  intros Hn H1 H2. pose proof (cstr_size _ _ _ H1) as Hf. unfold strncmp. start_scan B.
  enough (forall fuel s1 s2 l2 n, 0 <= n -> cstr m s1 l1 -> cstr m s2 l2 -> (length l1 < fuel)%nat ->
    loop fuel B (s1, s2, n) m =
      Ret (bcmp schar (take (Z.to_nat n) l1) (take (Z.to_nat n) l2)) m) as G by (apply G; done || lia).
  clear. induction l1 as [|b l1 IH]; intros [|fuel] s1 s2 l2 n Hn H1 H2 Hf;
    cbn [length] in Hf; try lia; rewrite loop_S; unfold B at 1; cbn beta iota;
    (destruct (Z.eqb_spec n 0) as [->|Hp];
      [mgo; done|replace (Z.to_nat n) with (S (Z.to_nat (n - 1))) by lia]);
    (destruct l2 as [|c l2]; [apply cstr_nil in H2|apply cstr_cons in H2 as (Hc & Hs2 & H2)]).
  - apply cstr_nil in H1. mgo. done.
  - apply cstr_nil in H1. mgo. done.
  - apply cstr_cons in H1 as (Hb & Hs1 & H1). mgo. simpl. f_equal. change (schar x00) with 0. lia.
  - apply cstr_cons in H1 as (Hb & Hs1 & H1). cbn [take bcmp]. case_decide as E.
    + subst c. mgo. apply IH; done || lia.
    + mgo. done.
Qed.

(** [strchr] takes an [int]: it finds the character when [l] is the value of a
    (signed) char, and the terminator when [l] is 0. *)
Lemma strchr_ret m s k c :
  cstr m s k -> c <> x00 ->
  strchr s (schar c) m = Ret (match list_find (fun b => b = c) k with
                              | Some (i, _) => s + Z.of_nat i | None => 0 end) m.
Proof.
  intros H Hc. pose proof (cstr_size _ _ _ H) as Hf. unfold strchr. start_scan B.
  enough (forall fuel s, cstr m s k -> (length k < fuel)%nat ->
    loop fuel B s m = Ret (match list_find (fun b => b = c) k with
                      | Some (i, _) => s + Z.of_nat i | None => 0 end) m) as G by (apply G; done || lia).
  clear H Hf s. induction k as [|b k IH]; intros [|fuel] s H Hf; cbn [length] in Hf; try lia;
    rewrite loop_S; unfold B at 1; cbn beta iota.
  - apply cstr_nil in H. mgo. done.
  - apply cstr_cons in H as (Hb & Hs & H). mgo. cbn [list_find]. rewrite schar_eqb.
    case_bool_decide as E.
    + rewrite decide_True by done. mgo. f_equal. lia.
    + rewrite decide_False by done. rewrite IH by (done || lia).
      destruct (list_find _ k) as [[i ?]|]; simpl; f_equal; lia.
Qed.

Lemma strchr_nul m s k : cstr m s k -> strchr s 0 m = Ret (s + Z.of_nat (length k)) m.
Proof.
  intros H. pose proof (cstr_size _ _ _ H) as Hf. unfold strchr. start_scan B.
  enough (forall fuel s, cstr m s k -> (length k < fuel)%nat ->
    loop fuel B s m = Ret (s + Z.of_nat (length k)) m) as G by (apply G; done || lia).
  clear H Hf s. induction k as [|b k IH]; intros [|fuel] s H Hf; cbn [length] in Hf; try lia;
    rewrite loop_S; unfold B at 1; cbn beta iota.
  - apply cstr_nil in H. mgo. simpl. f_equal. lia.
  - apply cstr_cons in H as (Hb & Hs & H). mgo. rewrite IH by (done || lia). cbn [length]. f_equal. lia.
Qed.

(** The comparison of two sequences of character codes that end in 0. *)
Fixpoint lcmp (l1 l2 : list Z) : Z :=
  match l1, l2 with
  | [], [] => 0
  | [], c :: _ => - c
  | b :: _, [] => b
  | b :: l1, c :: l2 => if decide (b = c) then lcmp l1 l2 else b - c
  end.

(** A character after case folding. *)
Definition fold_case (b : byte) : Z := tolower (schar b).

Lemma fold_case_range b : -128 <= fold_case b < 128.
Proof.
  pose proof (schar_range b). unfold fold_case.
  destruct (isalpha (schar b)) eqn:E; [|by unfold tolower; rewrite E].
  apply isalpha_range in E.
  assert ((-128 <=? tolower (schar b)) && (tolower (schar b) <? 128) = true) as Hr.
  { by_eval (fun c => (-128 <=? tolower c) && (tolower c <? 128)) 65 123. }
  apply andb_true_iff in Hr as [H1 H2]. apply Z.leb_le in H1. apply Z.ltb_lt in H2. lia.
Qed.

Lemma fold_case_nz b : b <> x00 -> u32 (fold_case b) <> 0.
Proof.
  intros Hb. pose proof (fold_case_range b) as Hr.
  assert (fold_case b <> 0); [|cint].
  unfold fold_case. destruct (isalpha (schar b)) eqn:E.
  - apply isalpha_range in E. apply Z.eqb_neq. apply negb_true_iff.
    by_eval (fun c => negb (tolower c =? 0)) 65 123.
  - unfold tolower. rewrite E. intros Hz. apply Hb. by apply schar_inj.
Qed.

Lemma u32_fold_inj x y : -128 <= x < 128 -> -128 <= y < 128 -> u32 x = u32 y -> x = y.
Proof. cint. Qed.

Lemma u32_sub x y : -128 <= x < 128 -> -128 <= y < 128 -> s32 (u32 (u32 x - u32 y)) = x - y.
Proof. cint. Qed.

Lemma strncasecmp_ret m s1 s2 l1 l2 n :
  0 <= n -> cstr m s1 l1 -> cstr m s2 l2 ->
  strncasecmp s1 s2 n m =
    Ret (lcmp (fold_case <$> take (Z.to_nat n) l1) (fold_case <$> take (Z.to_nat n) l2)) m.
Proof.
  intros Hn H1 H2. pose proof (cstr_size _ _ _ H1) as Hf. unfold strncasecmp.
  unfold scan_fuel at 1.
  pose proof (cstr_hd _ _ _ H1) as Hc1. pose proof (cstr_hd _ _ _ H2) as Hc2. mgo. loop_body B.
  enough (forall fuel s1 s2 l2 n, 0 <= n -> cstr m s1 l1 -> cstr m s2 l2 -> (length l1 < fuel)%nat ->
    loop fuel B (u32 (tolower (schar (hd x00 l1))), u32 (tolower (schar (hd x00 l2))), s1 + 1, s2 + 1, n) m =
    Ret (lcmp (fold_case <$> take (Z.to_nat n) l1) (fold_case <$> take (Z.to_nat n) l2)) m) as G
    by (apply G; done || lia).
  clear. induction l1 as [|b l1 IH]; intros [|fuel] s1 s2 l2 n Hn H1 H2 Hf;
    cbn [length] in Hf; try lia; rewrite loop_S; unfold B at 1; cbn beta iota;
    (destruct (Z.eqb_spec n 0) as [->|Hp];
      [simpl; mgo; done|replace (Z.to_nat n) with (S (Z.to_nat (n - 1))) by lia]); simpl.
  - change (u32 (tolower (schar x00))) with (u32 0). simpl. mgo. destruct l2 as [|c l2]; simpl; [done|].
    f_equal. fold (fold_case c). pose proof (fold_case_range c). rewrite u32_sub; lia.
  - apply cstr_cons in H1 as (Hb & Hs1 & H1). fold (fold_case b).
    rewrite (proj2 (Z.eqb_neq _ 0)) by (by apply fold_case_nz). simpl.
    pose proof (fold_case_range b) as Rb.
    destruct l2 as [|c l2].
    + simpl. change (tolower (schar x00)) with 0.
      rewrite (proj2 (Z.eqb_neq _ _)) by (by apply fold_case_nz). mgo. simpl. f_equal.
      rewrite u32_sub; lia.
    + apply cstr_cons in H2 as (Hc & Hs2 & H2). simpl. fold (fold_case c).
      pose proof (fold_case_range c) as Rc. case_decide as E.
      * rewrite E, Z.eqb_refl. apply cstr_hd in H1 as Hd1. apply cstr_hd in H2 as Hd2. mgo.
        apply IH; done || lia.
      * rewrite (proj2 (Z.eqb_neq _ _)) by (intros ?; apply E; by apply u32_fold_inj). mgo.
        f_equal. apply u32_sub; lia.
Qed.

(** ** Substring search *)

(** The length of the longest common prefix. *)
Fixpoint lcp (l1 l2 : list byte) : nat :=
  match l1, l2 with
  | b :: l1, c :: l2 => if decide (b = c) then S (lcp l1 l2) else O
  | _, _ => O
  end.

(** The position of the first occurrence of [needle]. *)
Fixpoint find_sub (needle hay : list byte) : option nat :=
  if decide (needle `prefix_of` hay) then Some O
  else match hay with
       | [] => None
       | _ :: hay => S <$> find_sub needle hay
       end.

Lemma find_sub_Some needle hay i :
  find_sub needle hay = Some i -> exists pre post, hay = pre ++ needle ++ post /\ length pre = i.
Proof.
  revert i. induction hay as [|b hay IH]; intros i; simpl; case_decide as Hp.
  - intros [= <-]. destruct Hp as [post ->]. by exists [], post.
  - done.
  - intros [= <-]. destruct Hp as [post ->]. by exists [], post.
  - rewrite fmap_Some. intros (j & Hj & ->). destruct (IH j Hj) as (pre & post & -> & Hl).
    exists (b :: pre), post. simpl. auto.
Qed.

Lemma strstr_guess_ret m big l h k :
  cstr m big h -> cstr m l k ->
  strstr_guess big l m = Ret (big + Z.of_nat (lcp h k), bool_decide (k `prefix_of` h)) m.
Proof.
  intros H1 H2. pose proof (cstr_size _ _ _ H1) as Hf. unfold strstr_guess. start_scan B.
  enough (forall fuel big l k, cstr m big h -> cstr m l k -> (length h < fuel)%nat ->
    loop fuel B (big, l) m = Ret (big + Z.of_nat (lcp h k), bool_decide (k `prefix_of` h)) m) as G
    by (apply G; done || lia).
  clear. induction h as [|b h IH]; intros [|fuel] big l k H1 H2 Hf; cbn [length] in Hf; try lia;
    rewrite loop_S; unfold B at 1; cbn beta iota.
  - apply cstr_nil in H1. mgo. simpl. rewrite Z.add_0_r. destruct k as [|c k].
    + apply cstr_nil in H2. mgo. by rewrite bool_decide_true by apply prefix_nil.
    + apply cstr_cons in H2 as (Hc & Hl & H2). mgo.
      rewrite bool_decide_false; [done|]. apply prefix_nil_not.
  - apply cstr_cons in H1 as (Hb & Hs1 & H1). destruct k as [|c k].
    + apply cstr_nil in H2. mgo. simpl. by rewrite Z.add_0_r.
    + apply cstr_cons in H2 as (Hc & Hl & H2). mgo. cbn [lcp]. case_decide as E.
      * subst c. mgo. rewrite (IH _ _ _ k) by (done || lia). ret_eq.
        apply bool_decide_ext. split; [apply prefix_cons|apply prefix_cons_inv_2].
      * mgo. rewrite Z.add_0_r. rewrite bool_decide_false; [done|]. intros Hp.
        apply E. symmetry. by apply prefix_cons_inv_1 in Hp.
Qed.

Lemma find_sub_app c t u h :
  c ∉ u -> find_sub (c :: t) (u ++ h) = (fun i => (length u + i)%nat) <$> find_sub (c :: t) h.
Proof.
  induction u as [|b u IH]; intros Hu; simpl.
  { by destruct (find_sub (c :: t) h). }
  apply not_elem_of_cons in Hu as [Hb Hu]. rewrite decide_False.
  - rewrite IH by done. by destruct (find_sub (c :: t) h).
  - intros Hp. apply Hb. by apply prefix_cons_inv_1 in Hp.
Qed.

Lemma take_lcp l1 l2 : take (lcp l1 l2) l1 = take (lcp l1 l2) l2.
Proof.
  revert l2. induction l1 as [|b l1 IH]; intros [|c l2]; simpl; try done.
  case_decide as E; [|done]. subst. simpl. by rewrite IH.
Qed.

Lemma lcp_le l1 l2 : (lcp l1 l2 <= length l1)%nat.
Proof.
  revert l2. induction l1 as [|b l1 IH]; intros [|c l2]; simpl; try lia.
  case_decide; [|lia]. specialize (IH l2). lia.
Qed.

Lemma cstr_drop m p s k : cstr m p s -> (k <= length s)%nat -> cstr m (p + Z.of_nat k) (drop k s).
Proof.
  intros H Hk. rewrite <- (take_drop k s) in H. apply cstr_app_r in H.
  by rewrite length_take, Nat.min_l in H.
Qed.

(** When the first character of the needle does not occur again in it, the
    characters matched before a mismatch cannot start an occurrence. *)
Lemma find_sub_skip c t h :
  c ∉ t -> ~ (c :: t) `prefix_of` h -> (0 < lcp h (c :: t))%nat ->
  find_sub (c :: t) h =
    (fun i => (lcp h (c :: t) + i)%nat) <$> find_sub (c :: t) (drop (lcp h (c :: t)) h).
Proof.
  intros Hc Hnp Hk. destruct h as [|b h]; [simpl in Hk; lia|]. revert Hk. cbn [lcp].
  case_decide as E; [|lia]. intros _. subst b. cbn [find_sub drop]. rewrite decide_False by done.
  set (j := lcp h t). rewrite <- (take_drop j h) at 1. rewrite find_sub_app.
  - rewrite length_take. rewrite Nat.min_l by apply lcp_le. by destruct (find_sub (c :: t) (drop j h)).
  - subst j. rewrite take_lcp. intros Hin. apply Hc. by eapply elem_of_take in Hin as (? & ? & _);
      eapply list_elem_of_lookup_2.
Qed.

(** Where the first occurrence is, NULL when there is none. *)
Definition sub_ptr (p : Z) (o : option nat) : Z :=
  match o with Some i => p + Z.of_nat i | None => 0 end.

Lemma strstr_ret m big little h c t :
  cstr m big h -> cstr m little (c :: t) -> c ∉ t ->
  strstr big little m = Ret (sub_ptr big (find_sub (c :: t) h)) m.
Proof.
  intros H1 H2 Hc. pose proof (cstr_size _ _ _ H1) as Hf. unfold strstr. start_scan B.
  enough (forall fuel big h, cstr m big h -> (length h < fuel)%nat ->
    loop fuel B big m = Ret (sub_ptr big (find_sub (c :: t) h)) m) as G by (apply G; done || lia).
  clear H1 Hf h big. pose proof H2 as H2'. apply cstr_cons in H2' as (Hnz & Hl & _).
  induction fuel as [|fuel IH]; intros big h H1 Hf; [lia|].
  rewrite loop_S; unfold B at 1; cbn beta iota. destruct h as [|b h].
  { apply cstr_nil in H1. mgo. done. }
  pose proof H1 as H1'. apply cstr_cons in H1' as (Hb & Hs & H1'). mgo. rewrite schar_eqb.
  case_bool_decide as E.
  - subst b. rewrite (strstr_guess_ret m big little (c :: h) (c :: t)) by done. mgo.
    case_bool_decide as Hp; [mgo|].
    + cbn [find_sub]. rewrite decide_True by done. simpl. by rewrite Z.add_0_r.
    + mgo. assert (lcp (c :: h) (c :: t) = S (lcp h t)) as Ek by (simpl; by rewrite decide_True).
      rewrite (IH _ (drop (lcp (c :: h) (c :: t)) (c :: h))).
      * rewrite (find_sub_skip c t (c :: h)) by (done || lia).
        destruct (find_sub _ (drop _ _)); simpl; f_equal; lia.
      * apply cstr_drop; [done|apply lcp_le].
      * rewrite length_drop, Ek. simpl in *. lia.
  - mgo. rewrite (IH _ h) by (done || (simpl in *; lia)). cbn [find_sub]. rewrite decide_False.
    + destruct (find_sub (c :: t) h); simpl; f_equal; lia.
    + intros Hp. apply E. symmetry. by apply prefix_cons_inv_1 in Hp.
Qed.

(** A returned pointer is always an occurrence, whatever the needle. *)
Lemma strstr_sound m big little h k r :
  cstr m big h -> cstr m little k -> strstr big little m = Ret r m -> r <> 0 ->
  exists pre post, h = pre ++ k ++ post /\ r = big + Z.of_nat (length pre).
Proof.
  intros H1 H2. unfold strstr. start_scan B. generalize (S (size m)) as fuel.
  enough (forall fuel pre0 h1, h = pre0 ++ h1 -> cstr m (big + Z.of_nat (length pre0)) h1 ->
    loop fuel B (big + Z.of_nat (length pre0)) m = Ret r m -> r <> 0 ->
    exists pre post, h = pre ++ k ++ post /\ r = big + Z.of_nat (length pre)) as G.
  { intros fuel E Hr. apply (G fuel [] h); simpl; rewrite ?Z.add_0_r; done. }
  clear H1. pose proof (cstr_hd _ _ _ H2) as Hk.
  induction fuel as [|fuel IH]; intros pre0 h1 -> H1; [done|].
  rewrite loop_S; unfold B at 1; cbn beta iota. destruct h1 as [|b h1].
  { apply cstr_nil in H1. mgo. simpl. by intros [= <-]. }
  pose proof H1 as H1'. apply cstr_cons in H1' as (Hb & Hs & H1'). mgo.
  destruct (schar b =? schar (hd x00 k)).
  - rewrite (strstr_guess_ret m _ little (b :: h1) k) by done. mgo.
    case_bool_decide as Hp; mgo.
    + intros [= <-] _. destruct Hp as [post Hp]. exists pre0, post. by rewrite Hp.
    + intros E Hr. pose proof (lcp_le (b :: h1) k) as Hle.
      destruct (IH (pre0 ++ take (lcp (b :: h1) k) (b :: h1)) (drop (lcp (b :: h1) k) (b :: h1)))
        as (pre & post & Heq & ->).
      * by rewrite <- app_assoc, take_drop.
      * rewrite length_app, length_take, Nat.min_l, Nat2Z.inj_add, Z.add_assoc by done.
        by apply cstr_drop.
      * rewrite length_app, length_take, Nat.min_l, Nat2Z.inj_add, Z.add_assoc by done. done.
      * done.
      * exists pre, post. done.
  - intros E Hr. destruct (IH (pre0 ++ [b]) h1) as (pre & post & Heq & ->).
    + by rewrite <- app_assoc.
    + rewrite length_app, Nat2Z.inj_add, Z.add_assoc. done.
    + rewrite length_app, Nat2Z.inj_add, Z.add_assoc. done.
    + done.
    + exists pre, post. done.
Qed.

Lemma strpbrk_hit_ret m x bb lb :
  cstr m bb lb -> strpbrk_hit (schar x) bb m = Ret (bool_decide (x ∈ lb)) m.
Proof.
  intros H. pose proof (cstr_size _ _ _ H) as Hf. unfold strpbrk_hit. start_scan B.
  enough (forall fuel bb, cstr m bb lb -> (length lb < fuel)%nat ->
    loop fuel B bb m = Ret (bool_decide (x ∈ lb)) m) as G by (apply G; done || lia).
  clear H Hf bb. induction lb as [|c lb IH]; intros [|fuel] b H Hf; cbn [length] in Hf; try lia;
    rewrite loop_S; unfold B at 1; cbn beta iota.
  - apply cstr_nil in H. mgo. done.
  - apply cstr_cons in H as (Hc & Hb & H). mgo. destruct (decide (x = c)) as [->|E].
    + mgo. rewrite bool_decide_true; [done|]. set_solver.
    + mgo. rewrite IH by (done || lia). f_equal. apply bool_decide_ext. set_solver.
Qed.

(** The first character of [a] that belongs to the set [bb]. *)
Lemma strpbrk_ret m a bb la lb :
  cstr m a la -> cstr m bb lb ->
  strpbrk a bb m = Ret (match list_find (fun b => b ∈ lb) la with
                        | Some (i, _) => a + Z.of_nat i | None => 0 end) m.
Proof.
  intros H1 H2. pose proof (cstr_size _ _ _ H1) as Hf. unfold strpbrk. start_scan B.
  enough (forall fuel a, cstr m a la -> (length la < fuel)%nat ->
    loop fuel B a m = Ret (match list_find (fun b => b ∈ lb) la with
                        | Some (i, _) => a + Z.of_nat i | None => 0 end) m) as G by (apply G; done || lia).
  clear H1 Hf a. induction la as [|b la IH]; intros [|fuel] a H Hf; cbn [length] in Hf; try lia;
    rewrite loop_S; unfold B at 1; cbn beta iota.
  - apply cstr_nil in H. mgo. done.
  - apply cstr_cons in H as (Hb & Hs & H). mgo. rewrite (strpbrk_hit_ret m b bb lb H2). mgo. cbn [list_find].
    case_bool_decide as E.
    + rewrite decide_True by done. mgo. f_equal. lia.
    + rewrite decide_False by done. mgo. rewrite IH by (done || lia).
      destruct (list_find _ la) as [[i ?]|]; simpl; f_equal; lia.
Qed.

Lemma lcmp_eq0 l1 l2 :
  Forall (fun z => z <> 0) l1 -> Forall (fun z => z <> 0) l2 -> lcmp l1 l2 = 0 <-> l1 = l2.
Proof.
  intros H1. revert l2. induction H1 as [|b l1 Hb H1 IH]; intros [|c l2] H2; simpl; [done|..].
  - apply List.Forall_cons_iff in H2 as [Hc _]. split; [lia|done].
  - done.
  - apply List.Forall_cons_iff in H2 as [_ H2]. destruct (decide (b = c)) as [->|Hne].
    + rewrite (IH _ H2). naive_solver.
    + split; [lia|naive_solver].
Qed.

Lemma fold_case_nonzero l : nonul l -> Forall (fun z => z <> 0) (fold_case <$> l).
Proof.
  intros H. apply Forall_fmap. revert H. apply List.Forall_impl.
  intros b Hb E. simpl in E. apply (fold_case_nz b Hb). by rewrite E.
Qed.

(** ** Correctness *)

(** [memmove], which copies eight bytes at a time upwards or downwards,
    moves exactly the bytes at [src] to [dst] whatever the overlap. *)
Theorem l_memmove_correct m dst src l :
  bytes_at m src l -> mapped m dst (Z.of_nat (length l)) ->
  exists m', memmove dst src (Z.of_nat (length l)) m = Ret dst m' /\ bytes_at m' dst l /\
    forall a, a < dst \/ dst + Z.of_nat (length l) <= a -> m' !! a = m !! a.
Proof.
  intros H Hd. eexists. split; [by apply memmove_ret|].
  split; [apply bytes_at_mwrite|intros a; apply mwrite_out].
Qed.

(** Eleven bytes: one word and three bytes, copied downwards. *)
Lemma l_memmove_correct_witness :
  let m := mwrite ∅ 100 (str "abcdefghijklmn") in
  exists m', memmove 103 100 11 m = Ret 103 m' /\ bytes_at m' 103 (str "abcdefghijk") /\
    forall a, a < 103 \/ 103 + 11 <= a -> m' !! a = m !! a.
Proof.
  intros m. apply (l_memmove_correct m 103 100 (str "abcdefghijk")).
  - apply (bool_decide_unpack _); vm_compute; exact I.
  - apply (mapped_le _ 100 14); [|cbn; lia..]. apply (bytes_at_mapped _ _ (str "abcdefghijklmn")).
    apply bytes_at_mwrite.
Defined.

(** [strncasecmp] compares the first [n] characters after folding the case
    of both strings; it is zero exactly when the folded prefixes are equal. *)
Theorem l_strncasecmp_correct m s1 s2 l1 l2 n :
  0 <= n -> cstr m s1 l1 -> cstr m s2 l2 ->
  exists r, strncasecmp s1 s2 n m = Ret r m /\
    (r = 0 <-> fold_case <$> take (Z.to_nat n) l1 = fold_case <$> take (Z.to_nat n) l2).
Proof.
  intros Hn H1 H2. eexists. split; [by apply strncasecmp_ret|].
  apply lcmp_eq0; apply fold_case_nonzero, Forall_take; [apply H1|apply H2].
Qed.

Lemma l_strncasecmp_correct_witness :
  let m := mwrite (mwrite ∅ 100 (str "HeLLo" ++ [x00])) 200 (str "help" ++ [x00]) in
  exists r, strncasecmp 100 200 3 m = Ret r m /\
    (r = 0 <-> fold_case <$> str "HeL" = fold_case <$> str "hel").
Proof.
  intros m. apply (l_strncasecmp_correct m 100 200 (str "HeLLo") (str "help") 3); [lia|..];
    apply (bool_decide_unpack _); vm_compute; exact I.
Defined.

(** when the first character of the needle does not occur again in it,
    [strstr] returns the first occurrence of the needle, or NULL when there is
    none. *)
Theorem l_strstr_first m big little h c t :
  cstr m big h -> cstr m little (c :: t) -> c ∉ t ->
  strstr big little m = Ret (sub_ptr big (find_sub (c :: t) h)) m.
Proof. apply strstr_ret. Qed.

Lemma l_strstr_first_witness :
  let m := mwrite (mwrite ∅ 100 (str "abxabc" ++ [x00])) 200 (str "abc" ++ [x00]) in
  strstr 100 200 m = Ret 103 m.
Proof.
  intros m. apply (l_strstr_first m 100 200 (str "abxabc") x61 (str "bc"));
    apply (bool_decide_unpack _); vm_compute; exact I.
Defined.

(** in general [strstr] can miss an occurrence: after a partial match it
    goes on from the mismatch, so ["aab"] is not found in ["aaab"]. *)
Theorem l_strstr_misses :
  let m := mwrite (mwrite ∅ 100 (str "aaab" ++ [x00])) 200 (str "aab" ++ [x00]) in
  strstr 100 200 m = Ret 0 m /\ find_sub (str "aab") (str "aaab") = Some 1%nat.
Proof. vm_compute. done. Qed.
