(* ===== verification/LStrtol.v ===== *)
(** * Number parsing in litc.c: [strtol] and its wrappers *)

From S2P Require Import Prelude CMem LBase LCtype LString.

(** [strcmp] against a string literal (its bytes, without the NUL). *)
Fixpoint strcmp_lit (s : Z) (lit : list byte) : M mem Z :=
  c ← ldc s;
  match lit with
  | [] => mret c
  | b :: lit => if (c =? 0) || negb (c =? schar b) then mret (c - schar b) else strcmp_lit (s + 1) lit
  end.

Section Strtol.
Context {K : Type}.

(** [while (isspace( *n)) n++], the sign, and the base prefix. *)
Definition strtol_space (n : Z) : M mem Z :=
  fuel ← scan_fuel;
  loop fuel (fun n => c ← ldc n; mret (if isspace c then inl (n + 1) else inr n)) n.

Definition strtol_sign (n : Z) : M mem (Z * Z) :=
  c ← ldc n;
  mret (if c =? ch "+" then (n + 1, 1) else if c =? ch "-" then (n + 1, -1) else (n, 1)).

(** The position, the base and the digit test to use; [None] for a base that
    is not supported. *)
Definition strtol_base (n base : Z) : M mem (option (Z * Z * (Z -> bool))) :=
  d ← strcmp_lit n (str "0x");
  let haspre := d =? 0 in
  c ← ldc n;
  mret
    (if (base =? 16) || ((base =? 0) && haspre)
     then Some (if haspre then n + 2 else n, 16, isxdigit)
     else if (base =? 8) || ((base =? 0) && (c =? ch "0"))
     then Some (if c =? ch "0" then n + 1 else n, 8, _isoct)
     else if (base =? 0) || (base =? 10) then Some (n, 10, isdigit)
     else None).

(** The digit loop. *)
Definition strtol_tot (n base : Z) (matcher : Z -> bool) : M mem (Z * Z) :=
  fuel ← scan_fuel;
  loop fuel (fun '(n, tot) =>
    c ← ldc n;
    if matcher c then
      let c := tolower c in
      tot ← schk 64 (tot * base);
      tot ← schk 64 (tot + (if isalpha c then c - ch "a" + 10 else c - ch "0"));
      mret (inl (n + 1, tot))
    else mret (inr (tot, n))) (n, 0).

(** The value, and the pointer stored through [endptr] ([None] when nothing
    is stored). *)
Definition strtol (n base : Z) : M (proc K) (Z * option Z) :=
  n ← onmem (strtol_space n);
  '(n, sign) ← onmem (strtol_sign n);
  o ← onmem (strtol_base n base);
  match o with
  | None => _ ← seterrno EINVAL; mret (0, None)
  | Some (n, base, matcher) =>
      '(tot, n) ← onmem (strtol_tot n base matcher);
      r ← schk 64 (tot * sign);
      mret (r, Some n)
  end.

Definition atoi (n : Z) : M (proc K) Z := '(r, _) ← strtol n 10; mret (s32 r).

Definition strtoll (n base : Z) : M (proc K) (Z * option Z) := strtol n base.

Definition strtoul (n base : Z) : M (proc K) (Z * option Z) :=
  '(r, e) ← strtol n base; mret (u64 r, e).

(** [strtoull] calls itself with the same arguments. *)
Fixpoint strtoull (fuel : nat) (n base : Z) : M (proc K) (Z * option Z) :=
  match fuel with O => spin | S fuel => strtoull fuel n base end.
End Strtol.

(** ** Correctness *)

Lemma strcmp_lit_ret m s l lit :
  cstr m s l -> nonul lit -> strcmp_lit s lit m = Ret (bcmp schar l lit) m.
Proof.
  revert s l. unfold nonul. induction lit as [|b lit IH]; intros s l H Hn; cbn [strcmp_lit].
  { apply cstr_hd in H. mgo. destruct l as [|c l]; done. }
  apply List.Forall_cons_iff in Hn as [Hb Hn]. destruct l as [|c l].
  { apply cstr_nil in H. mgo. done. }
  apply cstr_cons in H as (Hc & Hs & H). mgo. simpl. case_decide as E.
  - subst c. mgo. simpl. by apply IH.
  - mgo. done.
Qed.

(** The digit test of a base, the value of a digit, the value of a digit list. *)
Definition matcher_of (base : Z) : Z -> bool :=
  if base =? 16 then isxdigit else if base =? 8 then _isoct else isdigit.

Definition dig_val (b : byte) : Z :=
  let c := tolower (schar b) in if isalpha c then c - ch "a" + 10 else c - ch "0".

Definition num_from (base v : Z) (ds : list byte) : Z :=
  fold_left (fun v b => v * base + dig_val b) ds v.

Lemma matcher_range base c : matcher_of base c = true -> 48 <= c < 103.
Proof.
  unfold matcher_of. destruct (base =? 16); [rewrite isxdigit_spec; lia|].
  destruct (base =? 8); [unfold _isoct; unch; rewrite andb_true_iff, !Z.leb_le; lia|].
  rewrite isdigit_range. lia.
Qed.

Lemma dig_val_nonneg base b : matcher_of base (schar b) = true -> 0 <= dig_val b < 16.
Proof.
  intros H. assert (isxdigit (schar b) = true) as Hx.
  { revert H. unfold matcher_of, _isoct. unch. repeat case_match; rewrite ?andb_true_iff, ?Z.leb_le, ?isdigit_range, ?isxdigit_spec; lia. }
  apply matcher_range in H. unfold dig_val. revert Hx H. generalize (schar b). intros c Hx Hc.
  assert (implb (isxdigit c) (let c' := tolower c in
    let v := if isalpha c' then c' - ch "a" + 10 else c' - ch "0" in (0 <=? v) && (v <? 16)) = true) as P.
  { by_eval (fun c => implb (isxdigit c) (let c' := tolower c in
      let v := if isalpha c' then c' - ch "a" + 10 else c' - ch "0" in (0 <=? v) && (v <? 16))) 48 103. }
  rewrite Hx in P. simpl in P. apply andb_true_iff in P as [P1 P2].
  apply Z.leb_le in P1. apply Z.ltb_lt in P2. simpl. lia.
Qed.

Lemma num_from_ge base v ds :
  1 <= base -> 0 <= v -> Forall (fun b => matcher_of base (schar b) = true) ds -> v <= num_from base v ds.
Proof.
  intros Hb. unfold num_from. revert v. induction ds as [|d ds IH]; intros v Hv H; simpl; [lia|].
  apply List.Forall_cons_iff in H as [Hd H]. apply dig_val_nonneg in Hd.
  assert (v <= v * base) by nia. specialize (IH (v * base + dig_val d) ltac:(lia) H). lia.
Qed.

Lemma strtol_tot_ret m n base ds rest :
  cstr m n (ds ++ rest) -> Forall (fun b => matcher_of base (schar b) = true) ds ->
  matcher_of base (schar (hd x00 rest)) = false -> 1 <= base -> num_from base 0 ds < 2 ^ 63 ->
  strtol_tot n base (matcher_of base) m = Ret (num_from base 0 ds, n + Z.of_nat (length ds)) m.
Proof.
  intros H Hds Hr Hb Hv. pose proof (cstr_size _ _ _ H) as Hf. rewrite length_app in Hf.
  unfold strtol_tot. start_scan B.
  enough (forall fuel n v, 0 <= v -> cstr m n (ds ++ rest) -> num_from base v ds < 2 ^ 63 ->
    (length ds < fuel)%nat ->
    loop fuel B (n, v) m = Ret (num_from base v ds, n + Z.of_nat (length ds)) m) as G
    by (apply G; done || lia).
  clear H Hv Hf n.
  induction ds as [|b ds IH]; intros [|fuel] n v Hv H Hlt Hf; cbn [length app] in *; try lia;
    rewrite loop_S; unfold B at 1; cbn beta iota.
  - apply cstr_hd in H. mgo. rewrite Hr. mgo. simpl. by rewrite Z.add_0_r.
  - apply cstr_cons in H as (_ & Hs & H). apply List.Forall_cons_iff in Hds as [Hd Hds].
    mgo. rewrite Hd. mgo. fold (dig_val b).
    change (num_from base v (b :: ds)) with (num_from base (v * base + dig_val b) ds) in *.
    pose proof (dig_val_nonneg _ _ Hd). assert (0 <= v * base) by nia.
    pose proof (num_from_ge base (v * base + dig_val b) ds Hb ltac:(lia) Hds).
    rewrite schk_ret by (unfold_int; lia). mgo.
    rewrite IH by (done || lia). ret_eq.
Qed.

(** The optional sign in front of [k], and its factor. *)
Inductive signed : list byte -> Z -> list byte -> Prop :=
  | signed_plus k : signed (str "+") 1 k
  | signed_minus k : signed (str "-") (-1) k
  | signed_none k : isspace (schar (hd x00 k)) = false ->
      schar (hd x00 k) <> ch "+" -> schar (hd x00 k) <> ch "-" -> signed [] 1 k.

Lemma strtol_space_ret m n ws k :
  cstr m n (ws ++ k) -> Forall (fun b => isspace (schar b) = true) ws ->
  isspace (schar (hd x00 k)) = false ->
  strtol_space n m = Ret (n + Z.of_nat (length ws)) m.
Proof.
  intros H Hws Hk. pose proof (cstr_size _ _ _ H) as Hf. rewrite length_app in Hf.
  unfold strtol_space. start_scan B. assert (length ws < S (size m))%nat as Hf' by lia. clear Hf.
  revert n H Hf'. generalize (S (size m)) as fuel.
  induction ws as [|b ws IH]; intros [|fuel] n H Hf; cbn [length app] in *; try lia;
    rewrite loop_S; unfold B at 1; cbn beta iota.
  - apply cstr_hd in H. mgo. rewrite Hk. simpl. by rewrite Z.add_0_r.
  - apply cstr_cons in H as (_ & Hs & H). apply List.Forall_cons_iff in Hws as [Hb Hws].
    mgo. rewrite Hb. rewrite IH by (done || lia). f_equal. lia.
Qed.

Lemma signed_not_space sg f k : signed sg f k -> isspace (schar (hd x00 (sg ++ k))) = false.
Proof. by intros [| |]. Qed.

Lemma strtol_sign_ret m n sg f k :
  cstr m n (sg ++ k) -> signed sg f k ->
  strtol_sign n m = Ret (n + Z.of_nat (length sg), f) m.
Proof.
  intros H Hs. apply cstr_hd in H. unfold strtol_sign. mgo. f_equal.
  destruct Hs as [| |k _ Hp Hm]; [done..|]. simpl. rewrite Z.add_0_r.
  by rewrite (proj2 (Z.eqb_neq _ _) Hp), (proj2 (Z.eqb_neq _ _) Hm).
Qed.

(** For the bases 8, 10 and 16 the prefix test consumes at most a leading 0 of
    the digits themselves. *)
Lemma strtol_base_ret m n base ds rest :
  cstr m n (ds ++ rest) -> base = 8 \/ base = 10 \/ base = 16 ->
  (base = 16 -> ds ++ rest <> str "0x") ->
  Forall (fun b => matcher_of base (schar b) = true) ds ->
  matcher_of base (schar (hd x00 rest)) = false ->
  exists z ds', ds = z ++ ds' /\ num_from base 0 ds = num_from base 0 ds' /\
    strtol_base n base m = Ret (Some (n + Z.of_nat (length z), base, matcher_of base)) m.
Proof.
  intros H Hb Hx Hds Hr. unfold strtol_base.
  rewrite (bind_ret _ _ _ _ _ (strcmp_lit_ret m n _ (str "0x") H ltac:(by apply (bool_decide_unpack _)))).
  cbn beta. pose proof (cstr_hd _ _ _ H) as H0. mgo.
  destruct Hb as [-> | [-> | ->]]; cbn [Z.eqb Pos.eqb orb andb].
  - destruct ds as [|b ds]; cbn [app hd].
    + exists [], []. destruct (Z.eqb_spec (schar (hd x00 rest)) (ch "0")) as [E|E].
      { rewrite E in Hr. done. }
      simpl. by rewrite Z.add_0_r.
    + destruct (Z.eqb_spec (schar b) (ch "0")) as [E|E].
      * exists [b], ds. split_and!; [done| |done]. unfold num_from. simpl. f_equal.
        unfold dig_val. rewrite E. done.
      * exists [], (b :: ds). simpl. by rewrite Z.add_0_r.
  - exists [], ds. simpl. by rewrite Z.add_0_r.
  - exists [], ds. simpl. rewrite Z.add_0_r.
    destruct (Z.eqb_spec (bcmp schar (ds ++ rest) (str "0x")) 0) as [E|E]; [|done].
    apply bcmp_eq0 in E; [by destruct (Hx eq_refl)| |done| |by apply (bool_decide_unpack _)].
    + apply schar_inj.
    + apply H.
Qed.

Section StrtolRet.
Context {K : Type}.

Lemma strtol_ret (p : proc K) n base f ws sg ds rest :
  cstr (p_mem p) n (ws ++ sg ++ ds ++ rest) ->
  Forall (fun b => isspace (schar b) = true) ws -> signed sg f (ds ++ rest) ->
  base = 8 \/ base = 10 \/ base = 16 -> (base = 16 -> ds ++ rest <> str "0x") ->
  Forall (fun b => matcher_of base (schar b) = true) ds ->
  matcher_of base (schar (hd x00 rest)) = false -> num_from base 0 ds < 2 ^ 63 ->
  strtol n base p =
    Ret (f * num_from base 0 ds, Some (n + Z.of_nat (length (ws ++ sg ++ ds)))) p.
Proof.
  intros H Hws Hsg Hb Hx Hds Hr Hlt. unfold strtol.
  apply cstr_app_r in H as H1. apply cstr_app_r in H1 as H2.
  mrun (onmem_pure _ p _ (strtol_space_ret _ n ws _ H Hws (signed_not_space _ _ _ Hsg))).
  mrun (onmem_pure _ p _ (strtol_sign_ret _ _ sg f _ H1 Hsg)).
  destruct (strtol_base_ret _ _ base ds rest H2 Hb Hx Hds Hr) as (z & ds' & -> & Hn & E).
  mrun (onmem_pure _ p _ E). rewrite <- app_assoc in H2. apply cstr_app_r in H2 as H3.
  apply Forall_app in Hds as [_ Hds]. rewrite Hn in *.
  mrun (onmem_pure _ p _ (strtol_tot_ret _ _ base ds' rest H3 Hds Hr ltac:(lia) Hlt)).
  pose proof (num_from_ge base 0 ds' ltac:(lia) ltac:(lia) Hds).
  assert (in_s 64 (num_from base 0 ds' * f)) by (unfold_int; destruct Hsg; lia).
  rewrite (bind_ret _ _ _ _ _ (schk_ret 64 _ _ ltac:(eassumption))). munfold.
  rewrite !length_app. ret_eq. f_equal. lia.
Qed.

Lemma strtoull_never (fuel : nat) n base (p : proc K) : strtoull fuel n base p = Spin.
Proof. induction fuel as [|fuel IH]; [done|]. apply IH. Qed.
End StrtolRet.
