(* ===== verification/LSyscall.v ===== *)
(** * The system-call wrappers of litc.c

    One definition per wrapper, for an arbitrary kernel.  Arguments and
    results are integers; [SA] is the conversion of an argument to [long], and
    [int ret = syscall(...)] truncates the result to 32 bits.  [errx] ends the
    process; the message it prints is not part of this layer. *)

From S2P Require Import Prelude CMem LBase.

(** ** System-call numbers and flags *)

(** The numbers [SYS_n]. *)
Definition trap_table : list (string * Z) :=
  [("READ", 0); ("WRITE", 1); ("OPEN", 2); ("CLOSE", 3); ("STAT", 4); ("FSTAT", 5); ("POLL", 7);
   ("LSEEK", 8); ("MMAP", 9); ("MUNMAP", 11); ("READV", 19); ("WRITEV", 20); ("ACCESS", 21);
   ("DUP2", 33); ("PAUSE", 34); ("GETPID", 39); ("GETPPID", 40); ("SOCKET", 41); ("CONNECT", 42);
   ("ACCEPT", 43); ("SENDTO", 44); ("RECVFROM", 45); ("SOCKETPAIR", 46); ("SHUTDOWN", 48);
   ("BIND", 49); ("LISTEN", 50); ("RECVMSG", 51); ("SENDMSG", 52); ("GETSOCKOPT", 55);
   ("SETSOCKOPT", 56); ("FORK", 57); ("EXECV", 59); ("EXIT", 60); ("WAIT4", 61); ("KILL", 62);
   ("FCNTL", 72); ("TRUNC", 76); ("FTRUNC", 77); ("GETCWD", 79); ("CHDIR", 80); ("RENAME", 82);
   ("MKDIR", 83); ("LINK", 86); ("UNLINK", 87); ("GETRLIMIT", 97); ("GETRUSAGE", 98); ("MKNOD", 133);
   ("SETRLIMIT", 160); ("SYNC", 162); ("REBOOT", 169); ("GETDENTS64", 217); ("NANOSLEEP", 230);
   ("PIPE2", 293); ("PROF", 31337); ("THREXIT", 31338); ("INFO", 31339); ("PREAD", 31340);
   ("PWRITE", 31341); ("FUTEX", 31342); ("GETTID", 31343)].

Fixpoint find_trap (n : string) (l : list (string * Z)) : Z :=
  match l with
  | [] => -1
  | (m, z) :: l => if String.eqb n m then z else find_trap n l
  end.

Definition trapno (n : string) : Z := find_trap n trap_table.

Notation SYS_READ := (trapno "READ").
Notation SYS_WRITE := (trapno "WRITE").
Notation SYS_OPEN := (trapno "OPEN").
Notation SYS_CLOSE := (trapno "CLOSE").
Notation SYS_STAT := (trapno "STAT").
Notation SYS_FSTAT := (trapno "FSTAT").
Notation SYS_POLL := (trapno "POLL").
Notation SYS_LSEEK := (trapno "LSEEK").
Notation SYS_MMAP := (trapno "MMAP").
Notation SYS_MUNMAP := (trapno "MUNMAP").
Notation SYS_READV := (trapno "READV").
Notation SYS_WRITEV := (trapno "WRITEV").
Notation SYS_ACCESS := (trapno "ACCESS").
Notation SYS_DUP2 := (trapno "DUP2").
Notation SYS_PAUSE := (trapno "PAUSE").
Notation SYS_GETPID := (trapno "GETPID").
Notation SYS_GETPPID := (trapno "GETPPID").
Notation SYS_SOCKET := (trapno "SOCKET").
Notation SYS_CONNECT := (trapno "CONNECT").
Notation SYS_ACCEPT := (trapno "ACCEPT").
Notation SYS_SENDTO := (trapno "SENDTO").
Notation SYS_RECVFROM := (trapno "RECVFROM").
Notation SYS_SOCKETPAIR := (trapno "SOCKETPAIR").
Notation SYS_SHUTDOWN := (trapno "SHUTDOWN").
Notation SYS_BIND := (trapno "BIND").
Notation SYS_LISTEN := (trapno "LISTEN").
Notation SYS_RECVMSG := (trapno "RECVMSG").
Notation SYS_SENDMSG := (trapno "SENDMSG").
Notation SYS_GETSOCKOPT := (trapno "GETSOCKOPT").
Notation SYS_SETSOCKOPT := (trapno "SETSOCKOPT").
Notation SYS_FORK := (trapno "FORK").
Notation SYS_EXECV := (trapno "EXECV").
Notation SYS_EXIT := (trapno "EXIT").
Notation SYS_WAIT4 := (trapno "WAIT4").
Notation SYS_KILL := (trapno "KILL").
Notation SYS_FCNTL := (trapno "FCNTL").
Notation SYS_TRUNC := (trapno "TRUNC").
Notation SYS_FTRUNC := (trapno "FTRUNC").
Notation SYS_GETCWD := (trapno "GETCWD").
Notation SYS_CHDIR := (trapno "CHDIR").
Notation SYS_RENAME := (trapno "RENAME").
Notation SYS_MKDIR := (trapno "MKDIR").
Notation SYS_LINK := (trapno "LINK").
Notation SYS_UNLINK := (trapno "UNLINK").
Notation SYS_GETRLIMIT := (trapno "GETRLIMIT").
Notation SYS_GETRUSAGE := (trapno "GETRUSAGE").
Notation SYS_MKNOD := (trapno "MKNOD").
Notation SYS_SETRLIMIT := (trapno "SETRLIMIT").
Notation SYS_SYNC := (trapno "SYNC").
Notation SYS_REBOOT := (trapno "REBOOT").
Notation SYS_GETDENTS64 := (trapno "GETDENTS64").
Notation SYS_NANOSLEEP := (trapno "NANOSLEEP").
Notation SYS_PIPE2 := (trapno "PIPE2").
Notation SYS_PROF := (trapno "PROF").
Notation SYS_THREXIT := (trapno "THREXIT").
Notation SYS_INFO := (trapno "INFO").
Notation SYS_PREAD := (trapno "PREAD").
Notation SYS_PWRITE := (trapno "PWRITE").
Notation SYS_FUTEX := (trapno "FUTEX").
Notation SYS_GETTID := (trapno "GETTID").

Definition PROT_READ : Z := 1.
Definition PROT_WRITE : Z := 2.
Definition MAP_PRIVATE : Z := 2.
Definition MAP_ANON : Z := 32.
Definition FORK_PROCESS : Z := 1.
Definition O_RDONLY : Z := 0.
Definition O_WRONLY : Z := 1.
Definition O_RDWR : Z := 2.
Definition O_CREAT : Z := 64.
Definition O_EXCL : Z := 128.
Definition O_TRUNC : Z := 512.
Definition O_APPEND : Z := 1024.
Definition O_DIRECTORY : Z := 65536.
Definition O_CLOEXEC : Z := 524288.
Definition SOL_SOCKET : Z := 1.
Definition SO_NAME : Z := 10.
Definition SO_PEER : Z := 11.
Definition WAIT_ANY : Z := -1.

(** [(long)x] *)
Definition SA (x : Z) : Z := s64 x.

(** [MAJOR] of a device number. *)
Definition MAJOR (x : Z) : Z := s64 (Z.shiftr (u64 x) 40).

Section Wrappers.
Context {K : Type} `{Kernel K}.
Implicit Types (fd : Z).

(** [errx]: the process ends with the given status. *)
Definition errx {A} (eval : Z) : M (proc K) A := halt eval.

(** [int ret = syscall(...); ERRNO_NEG(ret); return ret;] and the variant
    with [ERRNO_NZ]; the 64-bit results keep their width. *)
Definition int_neg (a1 a2 a3 a4 a5 trap : Z) : M (proc K) Z :=
  r ← syscall a1 a2 a3 a4 a5 trap; ERRNO_NEG 32 (s32 r).
Definition int_nz (a1 a2 a3 a4 a5 trap : Z) : M (proc K) Z :=
  r ← syscall a1 a2 a3 a4 a5 trap; ERRNO_NZ 32 (s32 r).
Definition long_neg (a1 a2 a3 a4 a5 trap : Z) : M (proc K) Z :=
  r ← syscall a1 a2 a3 a4 a5 trap; ERRNO_NEG 64 r.
Definition long_nz (a1 a2 a3 a4 a5 trap : Z) : M (proc K) Z :=
  r ← syscall a1 a2 a3 a4 a5 trap; ERRNO_NZ 64 r.

Definition accept fd s sl := int_neg (SA fd) (SA s) (SA sl) 0 0 SYS_ACCEPT.
Definition access path mode := int_nz (SA path) (SA mode) 0 0 0 SYS_ACCESS.
Definition bind fd s sl := int_nz (SA fd) (SA s) (SA sl) 0 0 SYS_BIND.
Definition close fd := int_nz (SA fd) 0 0 0 0 SYS_CLOSE.
Definition chdir path := int_nz (SA path) 0 0 0 0 SYS_CHDIR.
Definition connect fd sa salen := int_nz (SA fd) (SA sa) (SA salen) 0 0 SYS_CONNECT.
Definition dup2 old new := int_neg (SA old) (SA new) 0 0 0 SYS_DUP2.

(** [mode] is the optional argument, read only with [O_CREAT]. *)
Definition open path flags mode :=
  let mode := if Z.land flags O_CREAT =? 0 then 0 else u32 mode in
  int_neg (SA path) flags mode 0 0 SYS_OPEN.

(** [root] is the address of the literal path. *)
Definition dup (root o : Z) : M (proc K) Z :=
  fd ← open root (Z.lor O_RDONLY O_DIRECTORY) 0;
  if fd =? -1 then mret (-1)
  else r ← dup2 o fd; if r =? -1 then mret (-1) else mret fd.

Definition _exit (status : Z) : M (proc K) unit :=
  _ ← syscall status 0 0 0 0 SYS_EXIT; errx (-1).

(** [environ] is the value of the global variable. *)
Definition execve (environ path argv envp : Z) : M (proc K) Z :=
  if negb (envp =? environ) then errx (-1)
  else
    r ← syscall (SA path) (SA argv) 0 0 0 SYS_EXECV;
    _ ← neg_errno 32 (s32 r);
    mret (-1).
Definition execv environ path argv := execve environ path argv environ.

Definition fork : M (proc K) Z := int_neg 0 FORK_PROCESS 0 0 0 SYS_FORK.
Definition fstat fd buf := int_nz (SA fd) (SA buf) 0 0 0 SYS_FSTAT.

Definition getcwd (buf sz : Z) : M (proc K) Z :=
  r ← int_nz (SA buf) (SA sz) 0 0 0 SYS_GETCWD;
  mret (if r =? 0 then buf else 0).

Definition getpid : M (proc K) Z := syscall 0 0 0 0 0 SYS_GETPID.
Definition getppid : M (proc K) Z := syscall 0 0 0 0 0 SYS_GETPPID.
Definition gettid : M (proc K) Z := syscall 0 0 0 0 0 SYS_GETTID.

Definition getsockopt fd level opt optv optlen :=
  int_nz (SA fd) (SA level) (SA opt) (SA optv) (SA optlen) SYS_GETSOCKOPT.
Definition getpeername s sa sl := getsockopt s SOL_SOCKET SO_PEER sa sl.
Definition getsockname s sa sl := getsockopt s SOL_SOCKET SO_NAME sa sl.

Definition getrlimit res rlp := int_neg (SA res) (SA rlp) 0 0 0 SYS_GETRLIMIT.
Definition getrusage who r := int_nz (SA who) (SA r) 0 0 0 SYS_GETRUSAGE.
Definition setrlimit res rlp := int_neg (SA res) (SA rlp) 0 0 0 SYS_SETRLIMIT.
Definition link old new := int_nz (SA old) (SA new) 0 0 0 SYS_LINK.
Definition listen fd backlog := int_nz (SA fd) (SA backlog) 0 0 0 SYS_LISTEN.
Definition lseek fd off whence := int_neg (SA fd) (SA off) (SA whence) 0 0 SYS_LSEEK.
Definition mkdir path mode := int_nz (SA path) mode 0 0 0 SYS_MKDIR.
Definition mknod path m d :=
  if MAJOR d =? 0 then errx (-1) else int_nz (SA path) (SA m) (SA d) 0 0 SYS_MKNOD.

Definition mmap (addr len prot flags fd offset : Z) : M (proc K) Z :=
  r ← syscall6 (SA addr) (SA len) (SA prot) (SA flags) (SA fd) (SA offset) SYS_MMAP;
  if r <? 0 then
    e ← schk 64 (- r);
    if (ERRNO_FIRST <=? e) && (e <=? ERRNO_LAST)
    then _ ← seterrno (s32 e); mret MAP_FAILED
    else mret (u64 r)
  else mret (u64 r).

Definition munmap addr len := int_nz (SA addr) (SA len) 0 0 0 SYS_MUNMAP.
Definition nanosleep t rem := int_nz (SA t) (SA rem) 0 0 0 SYS_NANOSLEEP.

Definition pause : M (proc K) Z :=
  r ← syscall 0 0 0 0 0 SYS_PAUSE; _ ← seterrno (s32 r); mret (-1).

Definition pipe2 pfds flags := int_nz (SA pfds) (SA flags) 0 0 0 SYS_PIPE2.
Definition pipe (pfds : Z) : M (proc K) Z := r ← pipe2 pfds 0; ERRNO_NZ 32 r.

(** A [struct pollfd] is 8 bytes; [revents] is its last [ushort]. *)
Definition clear_revents (fds nfds : Z) : M mem unit :=
  loop (S (Z.to_nat nfds)) (fun '(p, n) =>
    if 0 <? n then
      _ ← store8 (p + 6) x00; _ ← store8 (p + 7) x00; mret (inl (p + 8, n - 1))
    else mret (inr tt)) (fds, nfds).
Definition poll (fds nfds timeout : Z) : M (proc K) Z :=
  _ ← onmem (clear_revents fds nfds);
  int_neg (SA fds) (SA nfds) (SA timeout) 0 0 SYS_POLL.

Definition pread fd dst len off := long_neg (SA fd) (SA dst) (SA len) (SA off) 0 SYS_PREAD.
Definition pwrite fd src len off := long_neg (SA fd) (SA src) (SA len) (SA off) 0 SYS_PWRITE.
Definition read fd buf c := int_neg (SA fd) (SA buf) (SA c) 0 0 SYS_READ.
Definition write fd buf c := int_neg fd (SA buf) (SA c) 0 0 SYS_WRITE.
Definition readv fd iovs niovs := long_neg (SA fd) (SA iovs) (SA niovs) 0 0 SYS_READV.
Definition writev fd iovs niovs := long_neg (SA fd) (SA iovs) (SA niovs) 0 0 SYS_WRITEV.
Definition reboot := int_nz 0 0 0 0 0 SYS_REBOOT.
Definition getdents64 fd dirent count := long_neg (SA fd) (SA dirent) (SA count) 0 0 SYS_GETDENTS64.

Definition recvfrom (fd buf len flags sa salen : Z) : M (proc K) Z :=
  if 2 ^ 32 <=? len then errx (-1)
  else
    let flaglen := Z.lor (u64 (Z.shiftl len 32)) (u64 flags) in
    int_neg (SA fd) (SA buf) (SA flaglen) (SA sa) (SA salen) SYS_RECVFROM.
Definition recv (fd buf len flags : Z) : M (proc K) Z :=
  r ← recvfrom fd buf len flags 0 0; ERRNO_NEG 32 (s32 r).
Definition recvmsg fd msg flags := long_neg (SA fd) (SA msg) (SA flags) 0 0 SYS_RECVMSG.

Definition sendto (fd buf len flags sa slen : Z) : M (proc K) Z :=
  if 2 ^ 32 <=? len then errx (-1)
  else
    let flaglen := Z.lor (u64 (Z.shiftl len 32)) (u64 flags) in
    int_neg (SA fd) (SA buf) (SA flaglen) (SA sa) (SA slen) SYS_SENDTO.
Definition send fd buf len flags := sendto fd buf len flags 0 0.
Definition sendmsg fd msg flags := long_neg (SA fd) (SA msg) (SA flags) 0 0 SYS_SENDMSG.

Definition rename old new := int_nz (SA old) (SA new) 0 0 0 SYS_RENAME.
Definition shutdown fd how := int_nz (SA fd) (SA how) 0 0 0 SYS_SHUTDOWN.
Definition socket dom type proto := int_neg (SA dom) (SA type) (SA proto) 0 0 SYS_SOCKET.
Definition socketpair dom type proto p :=
  int_nz (SA dom) (SA type) (SA proto) (SA p) 0 SYS_SOCKETPAIR.
Definition stat path st := int_nz (SA path) (SA st) 0 0 0 SYS_STAT.
Definition sync := int_nz 0 0 0 0 0 SYS_SYNC.
Definition fsync (fd : Z) : M (proc K) Z := _ ← sync; mret 0.
Definition sys_prof ptype events flags intperiod := long_nz ptype events flags intperiod 0 SYS_PROF.
Definition sys_info n := long_neg n 0 0 0 0 SYS_INFO.
Definition truncate path newlen := int_nz (SA path) (SA newlen) 0 0 0 SYS_TRUNC.
Definition ftruncate fd newlen := int_nz (SA fd) (SA newlen) 0 0 0 SYS_FTRUNC.

Definition _unlink path wantdir := int_nz (SA path) (SA wantdir) 0 0 0 SYS_UNLINK.
Definition unlink path := _unlink path 0.
Definition rmdir path := _unlink path 1.

(** [pid_t] is a [long]. *)
Definition wait status := long_neg WAIT_ANY (SA status) 0 0 0 SYS_WAIT4.
Definition wait4 pid status options r := long_neg pid (SA status) (SA options) (SA r) 0 SYS_WAIT4.
Definition waitpid pid status options := wait4 pid status options 0.
Definition wait3 status options r := long_neg WAIT_ANY (SA status) (SA options) (SA r) 0 SYS_WAIT4.

Definition threxit (status : Z) : M (proc K) unit :=
  _ ← syscall (SA status) 0 0 0 0 SYS_THREXIT; mret tt.
Definition tfork_done (status : Z) : M (proc K) unit := _ ← threxit status; errx (-1).
Definition thrwait (tid status : Z) : M (proc K) Z :=
  if tid <=? 0 then errx (-1)
  else r ← syscall (SA tid) (SA status) 0 0 1 SYS_WAIT4; mret (s32 r).

Definition mkstack (size : Z) : M (proc K) Z :=
  let size := u64 (size + 4095) in
  let size := Z.land size (u64 (Z.lnot 4095)) in
  r ← mmap 0 size (Z.lor PROT_READ PROT_WRITE) (Z.lor MAP_ANON MAP_PRIVATE) (-1) 0;
  mret (if r =? 0 then 0 else u64 (r + size)).

Definition futex (op fut fut2 aux ts : Z) : M (proc K) Z :=
  int_neg (SA op) (SA fut) (SA fut2) (SA aux) (SA ts) SYS_FUTEX.
End Wrappers.
