(* ===== verification/LErrno.v ===== *)
(** * The results and errno of the litc system-call wrappers

    The convention that callers rely on: a wrapper returns what the kernel
    answered, in the range of its C type, or -1 with the error in [errno].  The
    kernel is arbitrary, so this is about the traps that the wrappers make and
    their conversions of the answers.  Four wrappers do not follow the convention
    and return the answer itself; three more lose the error. *)

From S2P Require Import Prelude CMem LBase LSyscall.

Section Convention.
Context {K : Type} `{Kernel K}.

(** What a wrapper makes of the kernel's answer, of which it uses [w] bits: a
    negative one is an error, anything but 0 is an error, or it is the result as
    it is. *)
Inductive conversion := Neg (w : Z) | Nz (w : Z) | Raw (w : Z).

Definition width (cv : conversion) : Z := match cv with Neg w | Nz w | Raw w => w end.

(** The answers that [cv] takes for a success. *)
Definition succeeds (cv : conversion) (r : Z) : bool :=
  match cv with Neg _ => 0 <=? r | Nz _ => r =? 0 | Raw _ => true end.

(** The result of a wrapper after the answer [r] in the state [p]: a success is the
    result and leaves [errno]; an error gives -1 and its negation in [errno].  The
    least value has no negation. *)
Definition answer (cv : conversion) (r : Z) (p : proc K) : outcome (proc K) Z :=
  let r := swrap (width cv) r in
  if succeeds cv r then Ret r p
  else if r =? - 2 ^ (width cv - 1) then Ub
  else Ret (-1) (set_errno (s32 (- r)) p).

(** A wrapper: the condition under which it traps at all, which it tests and
    otherwise ends the process; how it converts the answer; the trap and its five
    arguments. *)
Record wrapper := Wrapper {
  w_if : bool;
  w_cv : conversion;
  w_trap : Z;
  w_args : list Z;
  w_call : M (proc K) Z
}.

(** The trap gets exactly these arguments, and its answer becomes the result. *)
Definition obeys (x : wrapper) : Prop :=
  forall p, let arg i := nth i (w_args x) 0 in
    w_call x p =
      if w_if x then
        match ktrap (w_trap x) (trap_args karch (arg 0%nat) (arg 1%nat) (arg 2%nat) (arg 3%nat) (arg 4%nat) 0) (p_mem p) (p_kern p) with
        | Some (r, m, k) => answer (w_cv x) r (Proc m (p_errno p) k)
        | None => Halt (arg 0%nat) p
        end
      else Halt (-1) p.

(** The results that are possible: -1 and the numbers that are not negative; -1
    and 0; any number of the type. *)
Definition result_ok (cv : conversion) (r : Z) : Prop :=
  match cv with
  | Neg w => -1 <= r < 2 ^ (w - 1)
  | Nz _ => r = -1 \/ r = 0
  | Raw w => - 2 ^ (w - 1) <= r < 2 ^ (w - 1)
  end.

Definition in_type (x : wrapper) : Prop := forall p r p', w_call x p = Ret r p' -> result_ok (w_cv x) r.

(** The wrappers that make one trap and return a number, with their arguments as
    C passes them.  [SA] converts to [long]. *)
Definition int_calls (a b c d e f : Z) : list wrapper :=
  [Wrapper true (Neg 32) SYS_ACCEPT [SA a; SA b; SA c] (accept a b c);
   Wrapper true (Neg 32) SYS_DUP2 [SA a; SA b] (dup2 a b);
   Wrapper true (Neg 32) SYS_OPEN [SA a; b; if Z.land b O_CREAT =? 0 then 0 else u32 c] (open a b c);
   Wrapper true (Neg 32) SYS_FORK [0; FORK_PROCESS] fork;
   Wrapper true (Neg 32) SYS_GETRLIMIT [SA a; SA b] (getrlimit a b);
   Wrapper true (Neg 32) SYS_SETRLIMIT [SA a; SA b] (setrlimit a b);
   Wrapper true (Neg 32) SYS_LSEEK [SA a; SA b; SA c] (lseek a b c);
   Wrapper true (Neg 32) SYS_READ [SA a; SA b; SA c] (read a b c);
   Wrapper true (Neg 32) SYS_WRITE [a; SA b; SA c] (write a b c);
   Wrapper true (Neg 32) SYS_SOCKET [SA a; SA b; SA c] (socket a b c);
   Wrapper true (Neg 32) SYS_FUTEX [SA a; SA b; SA c; SA d; SA e] (futex a b c d e);
   Wrapper (c <? 2 ^ 32) (Neg 32) SYS_RECVFROM [SA a; SA b; SA (Z.lor (u64 (Z.shiftl c 32)) (u64 d)); SA e; SA f] (recvfrom a b c d e f);
   Wrapper (c <? 2 ^ 32) (Neg 32) SYS_SENDTO [SA a; SA b; SA (Z.lor (u64 (Z.shiftl c 32)) (u64 d)); SA e; SA f] (sendto a b c d e f);
   Wrapper (c <? 2 ^ 32) (Neg 32) SYS_SENDTO [SA a; SA b; SA (Z.lor (u64 (Z.shiftl c 32)) (u64 d)); 0; 0] (send a b c d)].

Definition long_calls (a b c d : Z) : list wrapper :=
  [Wrapper true (Neg 64) SYS_PREAD [SA a; SA b; SA c; SA d] (pread a b c d);
   Wrapper true (Neg 64) SYS_PWRITE [SA a; SA b; SA c; SA d] (pwrite a b c d);
   Wrapper true (Neg 64) SYS_READV [SA a; SA b; SA c] (readv a b c);
   Wrapper true (Neg 64) SYS_WRITEV [SA a; SA b; SA c] (writev a b c);
   Wrapper true (Neg 64) SYS_GETDENTS64 [SA a; SA b; SA c] (getdents64 a b c);
   Wrapper true (Neg 64) SYS_RECVMSG [SA a; SA b; SA c] (recvmsg a b c);
   Wrapper true (Neg 64) SYS_SENDMSG [SA a; SA b; SA c] (sendmsg a b c);
   Wrapper true (Neg 64) SYS_INFO [a] (sys_info a);
   Wrapper true (Neg 64) SYS_WAIT4 [WAIT_ANY; SA a] (wait a);
   Wrapper true (Neg 64) SYS_WAIT4 [a; SA b; SA c; SA d] (wait4 a b c d);
   Wrapper true (Neg 64) SYS_WAIT4 [a; SA b; SA c] (waitpid a b c);
   Wrapper true (Neg 64) SYS_WAIT4 [WAIT_ANY; SA a; SA b; SA c] (wait3 a b c)].

Definition status_calls (a b c d e : Z) : list wrapper :=
  [Wrapper true (Nz 32) SYS_ACCESS [SA a; SA b] (access a b);
   Wrapper true (Nz 32) SYS_BIND [SA a; SA b; SA c] (bind a b c);
   Wrapper true (Nz 32) SYS_CLOSE [SA a] (close a);
   Wrapper true (Nz 32) SYS_CHDIR [SA a] (chdir a);
   Wrapper true (Nz 32) SYS_CONNECT [SA a; SA b; SA c] (connect a b c);
   Wrapper true (Nz 32) SYS_FSTAT [SA a; SA b] (fstat a b);
   Wrapper true (Nz 32) SYS_GETSOCKOPT [SA a; SA b; SA c; SA d; SA e] (getsockopt a b c d e);
   Wrapper true (Nz 32) SYS_GETSOCKOPT [SA a; SOL_SOCKET; SO_PEER; SA b; SA c] (getpeername a b c);
   Wrapper true (Nz 32) SYS_GETSOCKOPT [SA a; SOL_SOCKET; SO_NAME; SA b; SA c] (getsockname a b c);
   Wrapper true (Nz 32) SYS_GETRUSAGE [SA a; SA b] (getrusage a b);
   Wrapper true (Nz 32) SYS_LINK [SA a; SA b] (link a b);
   Wrapper true (Nz 32) SYS_LISTEN [SA a; SA b] (listen a b);
   Wrapper true (Nz 32) SYS_MKDIR [SA a; b] (mkdir a b);
   Wrapper (negb (MAJOR c =? 0)) (Nz 32) SYS_MKNOD [SA a; SA b; SA c] (mknod a b c);
   Wrapper true (Nz 32) SYS_MUNMAP [SA a; SA b] (munmap a b);
   Wrapper true (Nz 32) SYS_NANOSLEEP [SA a; SA b] (nanosleep a b);
   Wrapper true (Nz 32) SYS_PIPE2 [SA a; SA b] (pipe2 a b);
   Wrapper true (Nz 32) SYS_REBOOT [] reboot;
   Wrapper true (Nz 32) SYS_RENAME [SA a; SA b] (rename a b);
   Wrapper true (Nz 32) SYS_SHUTDOWN [SA a; SA b] (shutdown a b);
   Wrapper true (Nz 32) SYS_SOCKETPAIR [SA a; SA b; SA c; SA d] (socketpair a b c d);
   Wrapper true (Nz 32) SYS_STAT [SA a; SA b] (stat a b);
   Wrapper true (Nz 32) SYS_SYNC [] sync;
   Wrapper true (Nz 32) SYS_TRUNC [SA a; SA b] (truncate a b);
   Wrapper true (Nz 32) SYS_FTRUNC [SA a; SA b] (ftruncate a b);
   Wrapper true (Nz 32) SYS_UNLINK [SA a; 0] (unlink a);
   Wrapper true (Nz 32) SYS_UNLINK [SA a; 1] (rmdir a);
   Wrapper true (Nz 64) SYS_PROF [a; b; c; d] (sys_prof a b c d)].

(** These return the answer without looking at it. *)
Definition raw_calls (a b : Z) : list wrapper :=
  [Wrapper true (Raw 64) SYS_GETPID [] getpid;
   Wrapper true (Raw 64) SYS_GETPPID [] getppid;
   Wrapper true (Raw 64) SYS_GETTID [] gettid;
   Wrapper (0 <? a) (Raw 32) SYS_WAIT4 [SA a; SA b; 0; 0; 1] (thrwait a b)].

Definition wrappers (a b c d e f : Z) : list wrapper :=
  int_calls a b c d e f ++ long_calls a b c d ++ status_calls a b c d e ++ raw_calls a b.

(** *** The ways to convert an answer *)

Lemma neg_errno_ret w r (p : proc K) : 0 < w -> - 2 ^ (w - 1) < r < 2 ^ (w - 1) -> neg_errno w r p = Ret tt (set_errno (s32 (- r)) p).
Proof. intros Hw Hr. unfold neg_errno. erewrite bind_ret; [|by apply schk_ret; unfold in_s; lia]. done. Qed.

Lemma neg_errno_least w (p : proc K) : neg_errno w (- 2 ^ (w - 1)) p = Ub.
Proof.
  unfold neg_errno. apply bind_ub. unfold schk. rewrite Z.opp_involutive, Z.ltb_irrefl. by rewrite andb_false_r.
Qed.

Lemma s32_s64 r : s32 (s64 r) = s32 r.
Proof. cint. Qed.

Lemma s64_s64 r : s64 (s64 r) = s64 r.
Proof. cint. Qed.

(** The macros. *)
Definition convert (cv : conversion) (r : Z) : M (proc K) Z :=
  match cv with Neg w => ERRNO_NEG w r | Nz w => ERRNO_NZ w r | Raw _ => mret r end.

Lemma convert_answer cv r p : 0 < width cv -> convert cv (swrap (width cv) r) p = answer cv r p.
Proof.
  intros Hw. unfold answer. pose proof (swrap_range (width cv) r Hw) as Hr. unfold in_s in Hr.
  set (x := swrap (width cv) r) in *.
  assert ((_ ← neg_errno (width cv) x; mret (-1)) p =
    (if x =? - 2 ^ (width cv - 1) then Ub else Ret (-1) (set_errno (s32 (- x)) p) : outcome (proc K) Z)) as E.
  { destruct (Z.eqb_spec x (- 2 ^ (width cv - 1))) as [->|Hn]; [apply bind_ub, neg_errno_least|].
    erewrite bind_ret; [|apply neg_errno_ret; lia]. done. }
  destruct cv as [w|w|w]; cbn [convert succeeds width] in *; unfold ERRNO_NEG, ERRNO_NZ; rewrite ?Z.ltb_antisym.
  - by destruct (0 <=? x).
  - by destruct (x =? 0).
  - done.
Qed.

Lemma call_obeys cv a1 a2 a3 a4 a5 trap (f : Z -> M (proc K) Z) :
  0 < width cv -> (forall r p, f (s64 r) p = convert cv (swrap (width cv) r) p) ->
  obeys (Wrapper true cv trap [a1; a2; a3; a4; a5] (r ← syscall a1 a2 a3 a4 a5 trap; f r)).
Proof.
  intros Hw Hf p. cbn [nth w_call w_if w_cv w_trap w_args]. unfold syscall, syscall6.
  destruct (ktrap trap _ (p_mem p) (p_kern p)) as [[[r m] k]|] eqn:E.
  - erewrite bind_ret by by rewrite E. by rewrite Hf, convert_answer.
  - apply bind_halt. by rewrite E.
Qed.

Lemma int_neg_obeys a1 a2 a3 a4 a5 trap : obeys (Wrapper true (Neg 32) trap [a1; a2; a3; a4; a5] (int_neg a1 a2 a3 a4 a5 trap)).
Proof. apply (call_obeys (Neg 32) _ _ _ _ _ _ (fun r => ERRNO_NEG 32 (s32 r))); [done|]. intros r p. by rewrite s32_s64. Qed.

Lemma int_nz_obeys a1 a2 a3 a4 a5 trap : obeys (Wrapper true (Nz 32) trap [a1; a2; a3; a4; a5] (int_nz a1 a2 a3 a4 a5 trap)).
Proof. apply (call_obeys (Nz 32) _ _ _ _ _ _ (fun r => ERRNO_NZ 32 (s32 r))); [done|]. intros r p. by rewrite s32_s64. Qed.

Lemma long_neg_obeys a1 a2 a3 a4 a5 trap : obeys (Wrapper true (Neg 64) trap [a1; a2; a3; a4; a5] (long_neg a1 a2 a3 a4 a5 trap)).
Proof. by apply (call_obeys (Neg 64) _ _ _ _ _ _ (ERRNO_NEG 64)). Qed.

Lemma long_nz_obeys a1 a2 a3 a4 a5 trap : obeys (Wrapper true (Nz 64) trap [a1; a2; a3; a4; a5] (long_nz a1 a2 a3 a4 a5 trap)).
Proof. by apply (call_obeys (Nz 64) _ _ _ _ _ _ (ERRNO_NZ 64)). Qed.

Lemma raw_obeys a1 a2 a3 a4 a5 trap : obeys (Wrapper true (Raw 64) trap [a1; a2; a3; a4; a5] (syscall a1 a2 a3 a4 a5 trap)).
Proof.
  intros p. cbn [nth w_call w_if w_cv w_trap w_args]. unfold syscall, syscall6. by destruct (ktrap trap _ (p_mem p) (p_kern p)) as [[[r m] k]|].
Qed.

Lemma raw32_obeys a1 a2 a3 a4 a5 trap :
  obeys (Wrapper true (Raw 32) trap [a1; a2; a3; a4; a5] (r ← syscall a1 a2 a3 a4 a5 trap; mret (s32 r))).
Proof. apply (call_obeys (Raw 32)); [done|]. intros r p. by rewrite s32_s64. Qed.

(** Arguments that are left out are 0. *)
Lemma obeys_args c cv trap l l' call : (forall i, nth i l 0 = nth i l' 0) -> obeys (Wrapper c cv trap l call) -> obeys (Wrapper c cv trap l' call).
Proof. intros Hl Ho p. specialize (Ho p). cbn [w_args w_call w_if w_cv w_trap] in *. by rewrite <- !Hl. Qed.

(** A test before the trap. *)
Lemma obeys_if (c : bool) cv trap l call :
  obeys (Wrapper true cv trap l call) -> obeys (Wrapper (negb c) cv trap l (if c then errx (-1) else call)).
Proof. intros Ho p. specialize (Ho p). by destruct c. Qed.

(** *** Results *)

Lemma answer_ok cv r p x p' : 0 < width cv -> answer cv r p = Ret x p' -> result_ok cv x.
Proof.
  intros Hw E. unfold answer in E. pose proof (swrap_range (width cv) r Hw) as Hr. unfold in_s in Hr.
  pose proof (Z.pow_pos_nonneg 2 (width cv - 1)). destruct (succeeds cv (swrap (width cv) r)) eqn:Es.
  - assert (swrap (width cv) r = x) as <- by congruence. destruct cv as [w|w|w]; simpl in *; [apply Z.leb_le in Es; lia|apply Z.eqb_eq in Es; auto|done].
  - destruct (_ =? _); [done|]. assert (x = -1) as -> by congruence. destruct cv as [w|w|w]; simpl in *; [lia|auto|done].
Qed.

Lemma obeys_in_type x : 0 < width (w_cv x) -> obeys x -> in_type x.
Proof.
  intros Hw Ho p r p' E. rewrite (Ho p) in E. cbv zeta in E. destruct (w_if x); [|done].
  destruct (ktrap _ _ _ _) as [[[r0 m] k]|]; [|done]. by eapply answer_ok.
Qed.

Ltac one_trap :=
  eapply obeys_args;
  [|first [apply int_neg_obeys|apply int_nz_obeys|apply long_neg_obeys|apply long_nz_obeys|apply raw_obeys|apply raw32_obeys]];
  intros [|[|[|[|[|[|i]]]]]]; reflexivity.

(** C39: For every kernel and all arguments, each of the wrappers makes its one
    trap, with the arguments of the table, and turns the answer into a result of
    its C type.  Those of [int_calls] and [long_calls] return the answer when it is
    not negative and leave [errno] alone, and otherwise return -1 with the error in
    [errno]; those of [status_calls] return 0 for the answer 0 and -1 with [errno]
    set for any other one.  So no negative result of these but -1 is possible.
    [getpid], [getppid], [gettid] and [thrwait] return the answer as it is, negative
    or not.  [recvfrom], [sendto], [send], [mknod] and [thrwait] end the process
    without a trap when the argument they test is out of range.  An answer that is
    the least number of the type cannot be negated, which is undefined.  The trap
    sees of the arguments what [trap_args] passes on.  Not in the table are the
    calls with another shape: [mmap], [getcwd], [execve], [poll], [dup], [fsync],
    [_exit], [threxit], and [pause], [pipe] and [recv], for which see below. *)
Theorem wrappers_typed (a b c d e f : Z) :
  Forall (fun x => obeys x /\ in_type x) (wrappers a b c d e f).
Proof.
  apply List.Forall_app; split; [|apply List.Forall_app; split; [|apply List.Forall_app; split]];
    repeat (apply List.Forall_cons); try apply List.Forall_nil; cbv beta.
  all: match goal with |- ?P /\ _ => enough P as Ho by (split; [exact Ho|by apply obeys_in_type]) end.
  all: rewrite ?Z.ltb_antisym; first [one_trap | apply obeys_if; one_trap].
Qed.

(** *** Wrappers that lose the error *)

(** [pipe] converts the result of [pipe2] once more, so [errno] is 1 after any error. *)
Lemma pipe_errno pfds p p1 : pipe2 pfds 0 p = Ret (-1) p1 -> pipe pfds p = Ret (-1) (set_errno 1 p1).
Proof. intros E. unfold pipe. by rewrite (bind_ret _ _ _ _ _ E). Qed.

(** So does [recv] with the result of [recvfrom]. *)
Lemma recv_errno fd buf len flags p p1 :
  recvfrom fd buf len flags 0 0 p = Ret (-1) p1 -> recv fd buf len flags p = Ret (-1) (set_errno 1 p1).
Proof. intros E. unfold recv. by rewrite (bind_ret _ _ _ _ _ E). Qed.

(** [pause] stores the answer itself, which is negative for an error. *)
Lemma pause_errno p r m k : ktrap SYS_PAUSE (trap_args karch 0 0 0 0 0 0) (p_mem p) (p_kern p) = Some (r, m, k) ->
  pause p = Ret (-1) (Proc m (s32 (s64 r)) k).
Proof. intros E. unfold pause. erewrite bind_ret; [|unfold syscall, syscall6; by rewrite E]. done. Qed.

(** The result of [lseek] is an [int]: a position of 2^31 in the file is
    undefined and one between 2^31 and 2^32 an error. *)
Lemma lseek_large p fd off whence pos m k : 2 ^ 31 < pos < 2 ^ 32 ->
  ktrap SYS_LSEEK (trap_args karch (SA fd) (SA off) (SA whence) 0 0 0) (p_mem p) (p_kern p) = Some (pos, m, k) ->
  lseek fd off whence p = Ret (-1) (Proc m (2 ^ 32 - pos) k).
Proof.
  intros Hp E. unfold lseek, int_neg. erewrite bind_ret; [|unfold syscall, syscall6; by rewrite E].
  rewrite s32_s64. assert (s32 pos = pos - 2 ^ 32) as -> by cint.
  unfold ERRNO_NEG. rewrite (proj2 (Z.ltb_lt _ _)) by lia. erewrite bind_ret; [|apply neg_errno_ret; lia].
  unfold set_errno. simpl. do 2 f_equal. cint.
Qed.
End Convention.
