(* ===== verification/DList.v ===== *)
(** * Doubly linked lists of structs

    Several components keep their objects in a NULL-terminated doubly linked
    list threaded through the objects (the segments of [malloc], the open
    [FILE]s).  A component stores its structs in a finite map from addresses;
    an instance of [Links] says which fields are the two links.  [dlist s head
    l] states that the list from [head] visits the addresses [l], with all
    back links right; the lemmas are about the two updates the code performs,
    linking in front and unlinking. *)

From S2P Require Import Prelude.

Class Links (A : Type) : Type := {
  nx : A -> Z;
  pv : A -> Z;
  with_nx : Z -> A -> A;
  with_pv : Z -> A -> A;
  nx_with_nx z a : nx (with_nx z a) = z;
  pv_with_nx z a : pv (with_nx z a) = pv a;
  nx_with_pv z a : nx (with_pv z a) = nx a;
  pv_with_pv z a : pv (with_pv z a) = z
}.

Section DList.
Context {A : Type} `{Links A}.
Implicit Types (s : gmap Z A) (l : list Z).

(** The segment from [p] (whose predecessor is [prev]) to [nxt] (whose
    predecessor is [last]) that visits [l]. *)
Fixpoint dlseg s (prev p last nxt : Z) l : Prop :=
  match l with
  | [] => p = nxt /\ last = prev
  | a :: l => p = a /\ a <> 0 /\
      exists x, s !! a = Some x /\ pv x = prev /\ dlseg s a (nx x) last nxt l
  end.

Definition dlist s (head : Z) l : Prop :=
  NoDup l /\ exists last, dlseg s 0 head last 0 l.

Lemma dlseg_app s prev p last nxt l1 l2 :
  dlseg s prev p last nxt (l1 ++ l2) <->
  exists i j, dlseg s prev p i j l1 /\ dlseg s i j last nxt l2.
Proof.
  revert prev p. induction l1 as [|a l1 IH]; intros prev p; simpl.
  - split; [eauto|]. by intros (i & j & [-> ->] & ?).
  - setoid_rewrite IH. naive_solver.
Qed.

(** A segment depends only on the links of its own nodes. *)
Lemma dlseg_frame s s' prev p last nxt l :
  (forall a x, a ∈ l -> s !! a = Some x ->
     exists x', s' !! a = Some x' /\ nx x' = nx x /\ pv x' = pv x) ->
  dlseg s prev p last nxt l -> dlseg s' prev p last nxt l.
Proof.
  revert prev p. induction l as [|a l IH]; intros prev p Hf; simpl; [done|].
  intros (-> & Ha & x & Hx & Hp & Hl).
  destruct (Hf a x ltac:(set_solver) Hx) as (x' & Hx' & Hn & Hp').
  split_and!; [done..|]. exists x'. rewrite Hn, Hp'. split_and!; [done..|].
  apply IH; [|done]. intros b y Hb. apply Hf. set_solver.
Qed.

Lemma dlseg_agree s s' prev p last nxt l :
  (forall a, a ∈ l -> s' !! a = s !! a) ->
  dlseg s prev p last nxt l -> dlseg s' prev p last nxt l.
Proof. intros Hf. apply dlseg_frame. intros a x Ha Hx. exists x. by rewrite Hf. Qed.

Lemma dlseg_hd s prev p last l :
  dlseg s prev p last 0 l -> p = default 0 (head l).
Proof. destruct l; simpl; naive_solver. Qed.

Lemma dlist_lookup s hd l a : dlist s hd l -> a ∈ l -> a <> 0 /\ is_Some (s !! a).
Proof.
  intros [_ [last Hl]] (l1 & l2 & ->)%list_elem_of_split.
  apply dlseg_app in Hl as (i & j & _ & Hl). simpl in Hl. naive_solver.
Qed.

(** Updates that leave the links alone. *)
Lemma dlist_update s hd l a x x' :
  dlist s hd l -> s !! a = Some x -> nx x' = nx x -> pv x' = pv x ->
  dlist (<[a := x']> s) hd l.
Proof.
  intros [Hd [last Hl]] Ha Hn Hp. split; [done|]. exists last. revert Hl. apply dlseg_frame.
  intros b y Hb Hy. destruct (decide (a = b)) as [<-|Hne].
  - exists x'. rewrite lookup_insert_eq. naive_solver.
  - exists y. by rewrite lookup_insert_ne.
Qed.

(** Rewriting the back link of the head. *)
Lemma dlseg_relink s prev prev' p last nxt l :
  NoDup l -> dlseg s prev p last nxt l ->
  exists last', dlseg (alter (with_pv prev') p s) prev' p last' nxt l /\
    (l = [] -> last' = prev') /\ (l <> [] -> last' = last).
Proof.
  intros Hd. destruct l as [|a l]; simpl.
  - intros [-> ->]. by exists prev'.
  - intros (-> & Ha & x & Hx & Hp & Hl). exists last. split; [|done].
    split_and!; [done..|]. exists (with_pv prev' x).
    rewrite lookup_alter_eq, Hx, nx_with_pv, pv_with_pv. split_and!; [done..|].
    revert Hl. apply dlseg_agree. intros b Hb. apply lookup_alter_ne.
    intros <-. by apply list.NoDup_cons in Hd as [? _].
Qed.

(** Linking a new node in front of the list. *)
Definition push (a : Z) (x : A) (hd : Z) s : gmap Z A :=
  let s := <[a := x]> s in if hd =? 0 then s else alter (with_pv a) hd s.

Lemma dlist_push s hd l a x :
  dlist s hd l -> a ∉ l -> a <> 0 -> nx x = hd -> pv x = 0 ->
  dlist (push a x hd s) a (a :: l).
Proof.
  intros [Hd [last Hl]] Ha H0 Hn Hp. split; [by apply list.NoDup_cons|].
  assert (dlseg (<[a := x]> s) 0 hd last 0 l) as Hl'.
  { revert Hl. apply dlseg_agree. intros b Hb. apply lookup_insert_ne. by intros <-. }
  unfold push. destruct (Z.eqb_spec hd 0) as [E|E].
  - destruct l as [|b l]; [|simpl in Hl; naive_solver].
    exists a. simpl. split_and!; [done..|]. exists x. rewrite lookup_insert_eq. naive_solver.
  - destruct l as [|b l]; [simpl in Hl; naive_solver|].
    destruct (dlseg_relink _ _ a _ _ _ _ Hd Hl') as (last' & Hl2 & _ & _). exists last'.
    split_and!; [done..|]. exists x. rewrite Hn.
    split_and!; [|done..]. rewrite lookup_alter_ne; [apply lookup_insert_eq|].
    intros ->. simpl in Hl. set_solver.
Qed.

(** Unlinking the node at [a]: the neighbours' links are updated, the node
    itself is dropped from the store. *)
Definition unlink_store (a : Z) (x : A) s : gmap Z A :=
  let s := if pv x =? 0 then s else alter (with_nx (nx x)) (pv x) s in
  let s := if nx x =? 0 then s else alter (with_pv (pv x)) (nx x) s in
  delete a s.
Definition unlink_head (x : A) (hd : Z) : Z := if pv x =? 0 then nx x else hd.

(** Rewriting the forward link of the last node. *)
Lemma dlseg_renext s prev p last nxt nxt' l :
  NoDup l -> l <> [] -> dlseg s prev p last nxt l ->
  last ∈ l /\ last <> 0 /\ dlseg (alter (with_nx nxt') last s) prev p last nxt' l.
Proof.
  intros Hd Hne. destruct (exists_last Hne) as (l0 & b & ->).
  rewrite !dlseg_app. intros (i & j & H1 & H2). simpl in H2.
  destruct H2 as (-> & Hb & x & Hx & Hp & <- & ->).
  split_and!; [set_solver|done|]. exists i, b. split.
  - revert H1. apply dlseg_agree. intros a Ha. apply lookup_alter_ne.
    intros ->. apply list.NoDup_app in Hd as (_ & Hd & _). set_solver.
  - split_and!; [done..|]. exists (with_nx nxt' x).
    rewrite lookup_alter_eq, Hx, nx_with_nx, pv_with_nx. done.
Qed.

Lemma dlseg_delete s a prev p last nxt l :
  a ∉ l -> dlseg s prev p last nxt l -> dlseg (delete a s) prev p last nxt l.
Proof. intros Ha. apply dlseg_agree. intros b Hb. apply lookup_delete_ne. by intros <-. Qed.

Lemma dlist_unlink s hd l1 l2 a x :
  dlist s hd (l1 ++ a :: l2) -> s !! a = Some x ->
  dlist (unlink_store a x s) (unlink_head x hd) (l1 ++ l2).
Proof.
  intros [Hd [last Hl]] Hx. apply list.NoDup_app in Hd as (Hd1 & Hd12 & Hd2).
  apply list.NoDup_cons in Hd2 as [Ha2 Hd2].
  assert (a ∉ l1) as Ha1 by set_solver. assert (forall b, b ∈ l1 -> b ∉ l2) as H12 by set_solver.
  split; [by apply list.NoDup_app|].
  apply dlseg_app in Hl as (i & j & H1 & H2). simpl in H2.
  destruct H2 as (-> & Ha & x' & Hx' & <- & H2). rewrite Hx in Hx'. injection Hx' as <-.
  unfold unlink_store, unlink_head.
  set (s1 := if pv x =? 0 then s else alter (with_nx (nx x)) (pv x) s).
  set (h1 := if pv x =? 0 then nx x else hd).
  assert (dlseg s1 0 h1 (pv x) (nx x) l1 /\ dlseg s1 a (nx x) last 0 l2) as [G1 G2].
  { destruct l1 as [|c l1].
    - simpl in H1. destruct H1 as [-> E]. subst s1 h1. rewrite E. simpl. done.
    - destruct (dlseg_renext _ _ _ _ _ (nx x) _ Hd1 ltac:(done) H1) as (Hin & Hnz & G).
      subst s1 h1. rewrite (proj2 (Z.eqb_neq _ _) Hnz). split; [done|].
      revert H2. apply dlseg_agree. intros b Hb. apply lookup_alter_ne.
      intros <-. by apply (H12 (pv x)). }
  clearbody s1 h1. destruct (Z.eqb_spec (nx x) 0) as [E|E].
  - destruct l2 as [|c l2]; [|simpl in G2; naive_solver].
    exists (pv x). rewrite app_nil_r. apply dlseg_delete; [done|]. by rewrite E in G1.
  - destruct l2 as [|c l2]; [simpl in G2; naive_solver|].
    destruct (dlseg_relink _ _ (pv x) _ _ _ _ Hd2 G2) as (last' & G2' & _).
    exists last'. apply dlseg_app. exists (pv x), (nx x).
    split; apply dlseg_delete; [done| |done|done].
    revert G1. apply dlseg_agree. intros b Hb. apply lookup_alter_ne.
    assert (nx x = c) as -> by (simpl in G2; naive_solver). intros <-. apply (H12 c Hb). set_solver.
Qed.

(** The neighbours of a node are other nodes. *)
Lemma dlist_links s hd l a x :
  dlist s hd l -> a ∈ l -> s !! a = Some x ->
  (pv x = 0 \/ pv x <> a /\ is_Some (s !! pv x)) /\ (nx x = 0 \/ nx x <> a /\ is_Some (s !! nx x)).
Proof.
  intros Hdl Ha Hx. pose proof (fun b Hb => proj2 (dlist_lookup s hd l b Hdl Hb)) as Hlook.
  apply list_elem_of_split in Ha as (l1 & l2 & ->). destruct Hdl as [Hd [last Hl]].
  apply list.NoDup_app in Hd as (Hd1 & Hd12 & Hd2). apply list.NoDup_cons in Hd2 as [Ha2 Hd2].
  apply dlseg_app in Hl as (i & j & H1 & (-> & _ & x' & Hx' & Hp & H2)).
  rewrite Hx in Hx'. injection Hx' as <-. split.
  - destruct l1 as [|c l1]; [left; simpl in H1; naive_solver|right].
    destruct (dlseg_renext _ _ _ _ _ 0 _ Hd1 ltac:(done) H1) as (Hin & _ & _). rewrite Hp.
    split; [intros ->; set_solver|]. apply Hlook. set_solver.
  - destruct l2 as [|c l2]; [left; simpl in H2; naive_solver|right].
    assert (nx x = c) as -> by (simpl in H2; naive_solver).
    split; [set_solver|]. apply Hlook. set_solver.
Qed.

(** A list visits at most as many nodes as the store holds. *)
Lemma dlist_length s hd l : dlist s hd l -> (length l <= size s)%nat.
Proof.
  intros Hl. rewrite <- size_dom, <- (size_list_to_set (C := gset Z)) by apply Hl.
  apply subseteq_size. intros a Ha%elem_of_list_to_set. apply elem_of_dom.
  by destruct (dlist_lookup _ _ _ _ Hl Ha).
Qed.

Lemma dlist_next s hd l1 l2 a x :
  dlist s hd (l1 ++ a :: l2) -> s !! a = Some x -> nx x = default 0 (head l2).
Proof.
  intros [_ [last Hl]] Hx. apply dlseg_app in Hl as (i & j & _ & (_ & _ & x' & Hx' & _ & Hl)).
  simplify_eq. by apply dlseg_hd in Hl.
Qed.

(** The first node is the one without a predecessor. *)
Lemma dlist_first s hd l1 l2 a x :
  dlist s hd (l1 ++ a :: l2) -> s !! a = Some x -> (hd =? a) = (pv x =? 0).
Proof.
  intros [Hd [last Hl]] Hx. apply list.NoDup_app in Hd as (Hd1 & Hd12 & _).
  apply dlseg_app in Hl as (i & j & H1 & (-> & Ha & x' & Hx' & <- & _)).
  rewrite Hx in Hx'. injection Hx' as <-. destruct l1 as [|b l1].
  - destruct H1 as [-> ->]. by rewrite !Z.eqb_refl.
  - destruct (dlseg_renext _ _ _ _ _ 0 _ Hd1 ltac:(done) H1) as (_ & Hnz & _).
    rewrite (proj2 (Z.eqb_neq _ _) Hnz). destruct H1 as (-> & _). apply Z.eqb_neq. intros ->.
    apply (Hd12 a); apply list_elem_of_here.
Qed.

(** Linking and unlinking change nothing but links. *)
Section Payload.
Context {B : Type} (f : A -> B).
Context (f_nx : forall z y, f (with_nx z y) = f y) (f_pv : forall z y, f (with_pv z y) = f y).

Lemma alter_payload g c s b :
  (forall y, f (g y) = f y) -> f <$> alter g c s !! b = f <$> s !! b.
Proof.
  intros Hg. rewrite lookup_alter. case_decide; [|done]. subst.
  destruct (s !! b); simpl; [by rewrite Hg|done].
Qed.

Lemma unlink_payload a x s b :
  f <$> unlink_store a x s !! b = if decide (b = a) then None else f <$> s !! b.
Proof.
  unfold unlink_store. case_decide as E; [subst; by rewrite lookup_delete_eq|].
  rewrite lookup_delete_ne by done.
  destruct (pv x =? 0), (nx x =? 0); rewrite ?alter_payload; auto.
Qed.

Lemma push_payload a x hd s b :
  f <$> push a x hd s !! b = if decide (b = a) then Some (f x) else f <$> s !! b.
Proof.
  assert (f <$> push a x hd s !! b = f <$> <[a := x]> s !! b) as ->.
  { unfold push. destruct (hd =? 0); rewrite ?alter_payload; auto. }
  case_decide as E; [subst; by rewrite lookup_insert_eq|by rewrite lookup_insert_ne].
Qed.
End Payload.
End DList.
