(* ===== verification/LAlloc.v ===== *)
(** * The allocator of litc.c

    [malloc], [calloc], [realloc] and [free]: a bump allocator over segments
    obtained from [mmap].  A segment starts with a [struct header_t]; the
    segments are linked in a list from [allh], and [curh] is the segment that
    [bump] allocates from.  A segment goes back to the kernel when its count of
    objects drops to zero, unless it is the current one.

    The headers are a store of records keyed by their address, the contents of
    the blocks are bytes of the process memory.  A header exists from the
    [mmap] that creates its segment to the [munmap] that removes it; a stray
    write into a header is not represented.  The lock is taken by one thread:
    [acquire] of a held lock never returns ([Spin]). *)

From S2P Require Import Prelude CMem LBase LString LSyscall DList.

Record header_t : Type := Header {
  h_start : Z;
  h_end : Z;
  h_objs : Z;
  h_maxsz : Z;
  h_next : Z;
  h_prev : Z
}.
(** [sizeof(struct header_t)] *)
Definition header_size : Z := 48.

Definition set_next (z : Z) (h : header_t) : header_t :=
  Header (h_start h) (h_end h) (h_objs h) (h_maxsz h) z (h_prev h).
Definition set_prev (z : Z) (h : header_t) : header_t :=
  Header (h_start h) (h_end h) (h_objs h) (h_maxsz h) (h_next h) z.
Definition set_objs (z : Z) (h : header_t) : header_t :=
  Header (h_start h) (h_end h) z (h_maxsz h) (h_next h) (h_prev h).
Definition set_maxsz (z : Z) (h : header_t) : header_t :=
  Header (h_start h) (h_end h) (h_objs h) z (h_next h) (h_prev h).

#[export] Instance header_links : Links header_t := {|
  nx := h_next; pv := h_prev; with_nx := set_next; with_pv := set_prev;
  nx_with_nx _ _ := eq_refl; pv_with_nx _ _ := eq_refl;
  nx_with_pv _ _ := eq_refl; pv_with_pv _ _ := eq_refl |}.

(** The process with the static variables of the allocator. *)
Record heap (K : Type) : Type := Heap {
  hp_proc : proc K;
  hdrs : gmap Z header_t;
  allh : Z;
  curh : Z;
  bump : Z;
  biglock : Z;
  dolock : Z
}.
Arguments Heap {K} _ _ _ _ _ _ _.
Arguments hp_proc {K} _.
Arguments hdrs {K} _.
Arguments allh {K} _.
Arguments curh {K} _.
Arguments bump {K} _.
Arguments biglock {K} _.
Arguments dolock {K} _.

Definition ZEROPTR : Z := 1.

(** [(sz + 7) & ~7] and the size of a new segment, on [size_t]. *)
Definition round_obj (sz : Z) : Z := Z.land (u64 (sz + 7)) (u64 (Z.lnot 7)).
Definition round_seg (sz : Z) : Z :=
  Z.land (u64 (sz + header_size + 4096 - 1)) (u64 (Z.lnot 4095)).

Section Alloc.
Context {K : Type} `{Kernel K}.

Definition set_proc (p : proc K) (s : heap K) : heap K :=
  Heap p (hdrs s) (allh s) (curh s) (bump s) (biglock s) (dolock s).
Definition set_hdrs (h : gmap Z header_t) (s : heap K) : heap K :=
  Heap (hp_proc s) h (allh s) (curh s) (bump s) (biglock s) (dolock s).
Definition set_allh (z : Z) (s : heap K) : heap K :=
  Heap (hp_proc s) (hdrs s) z (curh s) (bump s) (biglock s) (dolock s).
Definition set_curh (z : Z) (s : heap K) : heap K :=
  Heap (hp_proc s) (hdrs s) (allh s) z (bump s) (biglock s) (dolock s).
Definition set_bump (z : Z) (s : heap K) : heap K :=
  Heap (hp_proc s) (hdrs s) (allh s) (curh s) z (biglock s) (dolock s).
Definition set_biglock (z : Z) (s : heap K) : heap K :=
  Heap (hp_proc s) (hdrs s) (allh s) (curh s) (bump s) z (dolock s).

Definition onproc {A} (f : M (proc K) A) : M (heap K) A := zoom hp_proc set_proc f.

(** Reading a header and assigning to one of its fields. *)
Definition ldh (a : Z) : M (heap K) header_t := fun s =>
  match hdrs s !! a with Some h => Ret h s | None => Ub end.
Definition sth (a : Z) (f : header_t -> header_t) : M (heap K) unit :=
  h ← ldh a; modify (fun s => set_hdrs (<[a := f h]> (hdrs s)) s).

Definition acquire : M (heap K) unit := fun s =>
  if dolock s =? 0 then Ret tt s
  else if biglock s =? 0 then Ret tt (set_biglock 1 s) else Spin.
Definition release : M (heap K) unit := modify (set_biglock 0).

(** The header is gone with its segment. *)
Definition _free_header (ch : Z) : M (heap K) unit :=
  h ← ldh ch;
  _ ← (if h_prev h =? 0 then modify (set_allh (h_next h))
       else sth (h_prev h) (set_next (h_next h)));
  h ← ldh ch;
  _ ← (if h_next h =? 0 then mret tt else sth (h_next h) (set_prev (h_prev h)));
  h ← ldh ch;
  r ← onproc (munmap (h_start h) (u64 (h_end h - h_start h)));
  if r <? 0 then halt r
  else modify (fun s => set_hdrs (delete ch (hdrs s)) s).

(** The parts of [_malloc] that make a new segment current: an empty current
    segment is released first; [map_segment] is [false] when [_malloc] returns
    NULL. *)
Definition drop_empty : M (heap K) unit :=
  c ← gets curh;
  if c =? 0 then mret tt
  else
    h ← ldh c;
    if h_objs h =? 0 then _ ← _free_header c; modify (set_curh 0) else mret tt.

Definition map_segment (sz : Z) : M (heap K) bool :=
  let mmapsz := round_seg sz in
  if mmapsz <? sz then _ ← onproc (seterrno EOVERFLOW); mret false
  else
    nh ← onproc (mmap 0 mmapsz (Z.lor PROT_READ PROT_WRITE) (Z.lor MAP_ANON MAP_PRIVATE) (-1) 0);
    if nh =? MAP_FAILED then _ ← onproc (seterrno ENOMEM); mret false
    else
      next ← gets allh;
      _ ← modify (fun s => set_hdrs (<[nh := Header nh (nh + mmapsz) 0 0 next 0]> (hdrs s)) s);
      _ ← (if next =? 0 then mret tt else sth next (set_prev nh));
      _ ← modify (set_allh nh);
      _ ← modify (set_curh nh);
      _ ← modify (set_bump (nh + header_size));
      mret true.

(** Its tail: the object is cut off the current segment. *)
Definition bump_obj (sz : Z) : M (heap K) Z :=
  c ← gets curh;
  h ← ldh c;
  _ ← sth c (set_objs (u64 (h_objs h + 1)));
  ret ← gets bump;
  _ ← modify (set_bump (ret + sz));
  _ ← (if h_maxsz h <? sz then sth c (set_maxsz sz) else mret tt);
  mret ret.

Definition _malloc (sz : Z) : M (heap K) Z :=
  let sz := round_obj sz in
  c ← gets curh;
  newhdr ← (if c =? 0 then mret true
            else h ← ldh c; b ← gets bump; mret (u64 (h_end h - b) <? sz));
  ok ← (if newhdr : bool then _ ← drop_empty; map_segment sz else mret true);
  if ok : bool then bump_obj sz else mret 0.

Definition malloc (sz : Z) : M (heap K) Z :=
  if sz =? 0 then mret ZEROPTR
  else _ ← acquire; ret ← _malloc sz; _ ← release; mret ret.

Definition calloc (n sz : Z) : M (heap K) Z :=
  if (n =? 0) || (sz =? 0) then mret ZEROPTR
  else if ULONG_MAX / sz <? n then _ ← onproc (seterrno EOVERFLOW); mret 0
  else
    let big := u64 (sz * n) in
    ret ← malloc big;
    if ret =? 0 then mret 0
    else _ ← onproc (onmem (memset ret 0 big)); mret ret.

(** The walk visits each segment once: [S (size hdrs)] steps. *)
Definition _findseg (p : Z) : M (heap K) Z := fun s =>
  loop (S (size (hdrs s))) (fun ch =>
    if ch =? 0 then mret (inr 0)
    else h ← ldh ch;
         if (h_start h <=? p) && (p <? h_end h) then mret (inr ch) else mret (inl (h_next h)))
    (allh s) s.

Definition _free (pp : Z) : M (heap K) unit :=
  ch ← _findseg pp;
  if ch =? 0 then halt (-1)
  else
    h ← ldh ch;
    _ ← sth ch (set_objs (u64 (h_objs h - 1)));
    h ← ldh ch;
    if h_objs h =? 0 then
      c ← gets curh;
      if ch =? c then mret tt else _free_header ch
    else mret tt.

Definition free (pp : Z) : M (heap K) unit :=
  _ ← acquire; _ ← _free pp; release.

Definition realloc (old nsz : Z) : M (heap K) Z :=
  if old =? 0 then malloc nsz
  else
    _ ← acquire;
    ch ← _findseg old;
    h ← ldh ch;
    let oldsz := Z.min (h_maxsz h) (u64 (h_end h - old)) in
    ret ← _malloc nsz;
    _ ← (if ret =? 0 then mret tt
         else _ ← onproc (onmem (memmove ret old (Z.min oldsz nsz))); _free old);
    _ ← release;
    mret ret.
End Alloc.

(** ** What the allocator relies on

    The documented behaviour of anonymous [mmap] and of [munmap], in the form
    in which the arguments reach the kernel: [mmap] fails with an error number
    or maps a fresh page-aligned region of zeros in the user half of the address
    space, [munmap] of mapped pages removes them.  [kmaps] bounds what the two do to
    the kernel's own state.  For an x86-64 kernel the
    contract says more than the manual, since the flags are not among the
    arguments that reach it ([trap_args]). *)

Definition unmapped (m : mem) (a len : Z) : mem :=
  filter (fun x => ~ (a <= x.1 < a + len)) m.

Class MapKernel (K : Type) `{Kernel K} : Type := {
  kmaps : relation K;
  #[global] kmaps_pre :: PreOrder kmaps;
  kmmap m k len :
    0 < len < 2 ^ 64 -> len mod 4096 = 0 ->
    exists r m' k',
      ktrap SYS_MMAP (trap_args karch 0 (SA len) 3 34 (-1) 0) m k = Some (r, m', k') /\ kmaps k k' /\
      ((- ERRNO_LAST <= r <= - ERRNO_FIRST /\ m' = m) \/
       (0 < r /\ r mod 4096 = 0 /\ r + len <= 2 ^ 47 /\
        (forall a, r <= a < r + len -> m !! a = None) /\
        m' = mwrite m r (replicate (Z.to_nat len) x00)));
  kmunmap m k a len :
    0 < a -> a mod 4096 = 0 -> 0 < len -> len mod 4096 = 0 -> a + len <= 2 ^ 47 ->
    mapped m a len ->
    exists k', ktrap SYS_MUNMAP (trap_args karch a len 0 0 0 0) m k
      = Some (0, unmapped m a len, k') /\ kmaps k k'
}.

(** ** The invariant

    [live] is the set of objects the program holds, each with its (rounded)
    size. *)

(** The objects that lie in a segment. *)
Definition objs_in (h : header_t) (live : gmap Z Z) : nat :=
  size (filter (fun x => h_start h <= x.1 < h_end h) live).

(** Where the allocated part of a segment ends. *)
Definition seg_limit (cur bmp a : Z) (h : header_t) : Z := if decide (a = cur) then bmp else h_end h.

Record seg_ok (m : mem) (live : gmap Z Z) (a : Z) (h : header_t) : Prop := SegOk {
  seg_start : h_start h = a;
  seg_pos : 0 < a;
  seg_align : a mod 4096 = 0;
  seg_len : (h_end h - a) mod 4096 = 0;
  seg_room : a + header_size <= h_end h;
  seg_top : h_end h <= 2 ^ 47;
  seg_mapped : mapped m a (h_end h - a);
  seg_objs : h_objs h = Z.of_nat (objs_in h live)
}.

(** An object lies behind the header of its segment, below the limit. *)
Definition obj_ok (hs : gmap Z header_t) (cur bmp p n : Z) : Prop :=
  8 <= n /\ p mod 8 = 0 /\
  exists a h, hs !! a = Some h /\ a + header_size <= p /\ p + n <= seg_limit cur bmp a h /\
    n <= h_maxsz h.

Record wf0 (hs : gmap Z header_t) (all cur bmp : Z) (m : mem) (live : gmap Z Z) : Prop := Wf0 {
  wf_list : exists l, dlist hs all l /\ forall a, is_Some (hs !! a) <-> a ∈ l;
  wf_seg a h : hs !! a = Some h -> seg_ok m live a h;
  wf_disj a h b g : hs !! a = Some h -> hs !! b = Some g -> a <> b ->
    h_end h <= b \/ h_end g <= a;
  wf_cur : cur = 0 \/ exists h, hs !! cur = Some h /\
    cur + header_size <= bmp <= h_end h /\ bmp mod 8 = 0;
  wf_obj p n : live !! p = Some n -> obj_ok hs cur bmp p n;
  wf_apart p n q k : live !! p = Some n -> live !! q = Some k -> p <> q ->
    p + n <= q \/ q + k <= p
}.
Arguments wf_list {hs all cur bmp m live}.
Arguments wf_seg {hs all cur bmp m live} _ {a h}.
Arguments wf_disj {hs all cur bmp m live} _ {a h b g}.
Arguments wf_cur {hs all cur bmp m live}.
Arguments wf_obj {hs all cur bmp m live} _ {p n}.
Arguments wf_apart {hs all cur bmp m live} _ {p n q k}.

(** Only the current segment may be empty. *)
Definition used (hs : gmap Z header_t) (cur : Z) : Prop :=
  forall a h, hs !! a = Some h -> h_objs h = 0 -> a = cur.

Definition hmem {K} (s : heap K) : mem := p_mem (hp_proc s).
Definition hkern {K} (s : heap K) : K := p_kern (hp_proc s).
Definition heap_ok {K} (s : heap K) (live : gmap Z Z) : Prop :=
  wf0 (hdrs s) (allh s) (curh s) (bump s) (hmem s) live /\ used (hdrs s) (curh s).

(** An address that no segment of the heap contains. *)
Definition outside (hs : gmap Z header_t) (a : Z) : Prop :=
  forall b h, hs !! b = Some h -> ~ (b <= a < h_end h).

(** The kernel changes only its mappings, and no memory outside the heap is
    mapped that was not before: what is mapped for the heap stays in it. *)
Definition maps_only {K} `{MapKernel K} (s s' : heap K) : Prop :=
  kmaps (hkern s) (hkern s') /\
  forall a, is_Some (hmem s' !! a) -> outside (hdrs s') a -> is_Some (hmem s !! a) /\ outside (hdrs s) a.

#[export] Instance maps_only_pre {K} `{MapKernel K} : PreOrder (maps_only (K := K)).
Proof.
  split; [by intros s|]. intros s s1 s2 [K1 M1] [K2 M2]. split; [by etrans|].
  intros a Ha Ho. destruct (M2 a Ha Ho). by apply M1.
Qed.

(** What an operation of the allocator leaves alone: the contents of the objects
    in [live], all memory outside the heap, which stays outside, and the kernel
    but for the mappings of the heap. *)
Definition keeps {K} `{MapKernel K} (s s' : heap K) (live : gmap Z Z) : Prop :=
  (forall p n a, live !! p = Some n -> p <= a < p + n -> hmem s' !! a = hmem s !! a) /\
  (forall a, is_Some (hmem s !! a) -> outside (hdrs s) a -> hmem s' !! a = hmem s !! a /\ outside (hdrs s') a) /\
  maps_only s s'.

(** ** Rounding *)

Lemma land_mask64 x k :
  in_u 64 x -> 0 <= k <= 64 -> Z.land x (u64 (Z.lnot (Z.ones k))) = x - x mod 2 ^ k.
Proof.
  intros Hx Hk. rewrite <- land_not_ones by lia.
  assert (u64 (Z.lnot (Z.ones k)) = Z.land (Z.lnot (Z.ones k)) (Z.ones 64)) as ->.
  { symmetry. apply Z.land_ones. lia. }
  rewrite (Z.land_comm (Z.lnot _)), Z.land_assoc, Z.land_ones by lia.
  by rewrite Z.mod_small by apply Hx.
Qed.

Lemma round_obj_eq sz : 0 <= sz <= 2 ^ 64 - 8 -> round_obj sz = sz + 7 - (sz + 7) mod 8.
Proof.
  intros Hs. unfold round_obj. rewrite (uwrap_id 64 (sz + 7)) by (unfold_int; lia).
  change (Z.lnot 7) with (Z.lnot (Z.ones 3)).
  by rewrite land_mask64 by (unfold_int; lia).
Qed.

Lemma round_obj_spec sz :
  0 < sz <= 2 ^ 64 - 8 -> sz <= round_obj sz < sz + 8 /\ 8 <= round_obj sz /\ round_obj sz mod 8 = 0.
Proof. intros Hs. rewrite round_obj_eq by lia. zdm. Qed.

(** The addition wraps for the seven largest sizes. *)
Lemma round_obj_wraps sz : 2 ^ 64 - 8 < sz < 2 ^ 64 -> round_obj sz = 0.
Proof.
  intros Hs. unfold round_obj. assert (u64 (sz + 7) = sz + 7 - 2 ^ 64) as -> by cint.
  change (Z.lnot 7) with (Z.lnot (Z.ones 3)). rewrite land_mask64 by (unfold_int; lia). zdm.
Qed.

(** A segment that passes the overflow test has room for header and object. *)
Lemma round_seg_spec sz :
  0 <= sz < 2 ^ 64 -> sz <= round_seg sz ->
  sz + header_size <= round_seg sz < 2 ^ 64 /\ round_seg sz mod 4096 = 0.
Proof.
  intros Hs. unfold round_seg, header_size. change (Z.lnot 4095) with (Z.lnot (Z.ones 12)).
  rewrite land_mask64; [|apply uwrap_range; lia|lia].
  change (2 ^ 12) with 4096. unfold_int. zdm.
Qed.

(** ** Preservation of the invariant by the four updates *)

(** What the invariant says about a header besides its links. *)
Definition hinfo (h : header_t) : Z * Z * Z * Z := (h_start h, h_end h, h_objs h, h_maxsz h).

Lemma seg_ok_info m live a h h' : hinfo h' = hinfo h -> seg_ok m live a h -> seg_ok m live a h'.
Proof.
  destruct h, h'; unfold hinfo; simpl. intros [= -> -> -> ->] []. by constructor.
Qed.

Lemma objs_in_0 h live p n :
  objs_in h live = 0%nat -> live !! p = Some n -> ~ (h_start h <= p < h_end h).
Proof.
  intros E Hp Hin. apply map_size_empty_inv in E.
  assert (filter (fun x => h_start h <= x.1 < h_end h) live !! p = Some n) as F
    by by apply map_lookup_filter_Some.
  rewrite E in F. done.
Qed.

Lemma objs_in_none h live :
  (forall p n, live !! p = Some n -> ~ (h_start h <= p < h_end h)) -> objs_in h live = 0%nat.
Proof.
  intros Hn. apply map_size_empty_iff, map_empty. intros p.
  apply map_lookup_filter_None. right. intros n Hp. apply (Hn p n Hp).
Qed.

Lemma objs_in_insert h live p n :
  live !! p = None ->
  objs_in h (<[p := n]> live) =
    (if decide (h_start h <= p < h_end h) then S (objs_in h live) else objs_in h live).
Proof.
  intros Hp. unfold objs_in. rewrite map_filter_insert. simpl. case_decide.
  - apply map_size_insert_None. apply map_lookup_filter_None. by left.
  - by rewrite delete_id.
Qed.

(** Distinct addresses of a range: at most its length. *)
Lemma objs_in_le h live : h_start h <= h_end h -> Z.of_nat (objs_in h live) <= h_end h - h_start h.
Proof.
  intros Hle. unfold objs_in. rewrite <- size_dom.
  enough (dom (filter (fun x => h_start h <= x.1 < h_end h) live) ⊆
    (list_to_set (seqZ (h_start h) (h_end h - h_start h)) : gset Z)) as E.
  { apply subseteq_size in E. rewrite size_list_to_set, length_seqZ in E by apply NoDup_seqZ. lia. }
  intros p (n & [_ Hp]%map_lookup_filter_Some)%elem_of_dom.
  apply elem_of_list_to_set, elem_of_seqZ. simpl in Hp. lia.
Qed.

Lemma seg_limit_le hs all cur bmp m live a h :
  wf0 hs all cur bmp m live -> hs !! a = Some h -> seg_limit cur bmp a h <= h_end h.
Proof.
  intros W Ha. unfold seg_limit. case_decide as E; [subst|done].
  pose proof (seg_pos _ _ _ _ (wf_seg W Ha)).
  destruct (wf_cur W) as [->|(g & Hg & ? & _)]; [lia|]. simplify_eq. lia.
Qed.

(** An object is in exactly one segment. *)
Lemma wf_obj_seg hs all cur bmp m live p n a h :
  wf0 hs all cur bmp m live -> live !! p = Some n -> hs !! a = Some h -> a <= p < h_end h ->
  a + header_size <= p /\ p + n <= seg_limit cur bmp a h /\ n <= h_maxsz h.
Proof.
  intros W Hp Ha Hin. destruct (wf_obj W Hp) as (Hn & _ & b & g & Hb & H1 & H2 & H3).
  destruct (decide (a = b)) as [->|Hne]; [by simplify_eq|exfalso].
  pose proof (wf_disj W Ha Hb Hne). pose proof (seg_limit_le _ _ _ _ _ _ _ _ W Hb).
  unfold header_size in *. lia.
Qed.

Lemma unlink_store_inv hs a h b g :
  unlink_store a h hs !! b = Some g -> b <> a /\ exists g0, hs !! b = Some g0 /\ hinfo g = hinfo g0.
Proof.
  intros E. pose proof (unlink_payload hinfo (fun _ _ => eq_refl) (fun _ _ => eq_refl) a h hs b) as P.
  rewrite E in P. simpl in P. case_decide; [done|]. split; [done|].
  destruct (hs !! b) as [g0|]; [|done]. exists g0. split; [done|]. simpl in P. congruence.
Qed.

Lemma unlink_store_is_Some hs a h b :
  b <> a -> is_Some (hs !! b) -> is_Some (unlink_store a h hs !! b).
Proof.
  intros Hne [g Hg].
  pose proof (unlink_payload hinfo (fun _ _ => eq_refl) (fun _ _ => eq_refl) a h hs b) as P.
  rewrite Hg, decide_False in P by done. destruct (unlink_store a h hs !! b); [eauto|done].
Qed.

(** Objects are described by the headers up to links. *)
Lemma obj_ok_mono hs hs' cur cur' bmp bmp' p n :
  (forall a h, hs !! a = Some h -> a + header_size <= p < h_end h -> n <= h_maxsz h ->
     p + n <= seg_limit cur bmp a h ->
     exists h', hs' !! a = Some h' /\ seg_limit cur bmp a h <= seg_limit cur' bmp' a h' /\
       h_maxsz h <= h_maxsz h') ->
  (forall a h, hs !! a = Some h -> seg_limit cur bmp a h <= h_end h) ->
  obj_ok hs cur bmp p n -> obj_ok hs' cur' bmp' p n.
Proof.
  intros Hm Hle (Hn & Hp & a & h & Ha & H1 & H2 & H3).
  split_and!; [done..|]. pose proof (Hle a h Ha).
  destruct (Hm a h Ha ltac:(lia) H3 H2) as (h' & Ha' & ? & ?).
  exists a, h'. split_and!; [done|done|lia|lia].
Qed.

Lemma unmapped_lookup m a len b :
  unmapped m a len !! b = if decide (a <= b < a + len) then None else m !! b.
Proof.
  unfold unmapped. rewrite map_lookup_filter. simpl. destruct (m !! b); simpl; repeat case_decide;
    simplify_option_eq; tauto.
Qed.

(** Removing an empty segment. *)
Lemma wf_remove hs all cur bmp m live a h :
  wf0 hs all cur bmp m live -> hs !! a = Some h -> h_objs h = 0 ->
  wf0 (unlink_store a h hs) (unlink_head h all) (if decide (a = cur) then 0 else cur) bmp
    (unmapped m a (h_end h - a)) live.
Proof.
  intros W Ha H0. pose proof (wf_seg W Ha) as Sa.
  assert (objs_in h live = 0%nat) as Hno by (pose proof (seg_objs _ _ _ _ Sa); lia).
  constructor.
  - destruct (wf_list W) as (l & Hl & Hin).
    destruct (list_elem_of_split l a) as (l1 & l2 & ->); [apply Hin; eauto|].
    exists (l1 ++ l2). split; [by apply dlist_unlink|].
    assert (a ∉ l1 ++ l2) as Hna.
    { destruct Hl as [Hd _]. apply list.NoDup_app in Hd as (_ & Hd & Hd2).
      apply list.NoDup_cons in Hd2. set_solver. }
    intros b. split.
    + intros [g Hg]. apply unlink_store_inv in Hg as (Hne & g0 & Hg0 & _).
      assert (b ∈ l1 ++ a :: l2) by (apply Hin; eauto). set_solver.
    + intros Hb. apply unlink_store_is_Some; [by intros ->|]. apply Hin. set_solver.
  - intros b g Hg. apply unlink_store_inv in Hg as (Hne & g0 & Hg0 & Hi).
    apply (seg_ok_info _ _ _ _ _ Hi). pose proof (wf_seg W Hg0) as []. constructor; try done.
    intros c Hc. rewrite unmapped_lookup, decide_False; [by apply seg_mapped0|].
    pose proof (wf_disj W Ha Hg0 ltac:(done)). lia.
  - intros b g c k Hg Hk Hbc. apply unlink_store_inv in Hg as (_ & g0 & Hg0 & [= _ -> _ _]).
    apply unlink_store_inv in Hk as (_ & k0 & Hk0 & [= _ -> _ _]). by eapply (wf_disj W).
  - case_decide as E; [by left|]. destruct (wf_cur W) as [->|(g & Hg & Hb)]; [by left|right].
    destruct (unlink_store_is_Some hs a h cur ltac:(done) (mk_is_Some _ _ Hg)) as [g' Hg'].
    exists g'. split; [done|]. apply unlink_store_inv in Hg' as (_ & g0 & Hg0 & [= _ -> _ _]).
    by simplify_eq.
  - intros p n Hp. pose proof (wf_obj W Hp) as Ho. revert Ho. apply obj_ok_mono.
    + intros b g Hg Hin _ _. pose proof (objs_in_0 _ _ _ _ Hno Hp) as Hnp.
      rewrite (seg_start _ _ _ _ Sa) in Hnp.
      assert (b <> a) as Hne by (intros ->; simplify_eq; unfold header_size in *; lia).
      destruct (unlink_store_is_Some hs a h b Hne (mk_is_Some _ _ Hg)) as [g' Hg'].
      exists g'. split; [done|]. apply unlink_store_inv in Hg' as (_ & g0 & Hg0 & [= _ Ee _ Em]).
      simplify_eq. rewrite Em. split; [|done]. pose proof (seg_pos _ _ _ _ (wf_seg W Hg)).
      pose proof (seg_limit_le _ _ _ _ _ _ _ _ W Hg) as Hlim.
      unfold seg_limit in *. repeat case_decide; subst; try done; lia.
    + intros b g Hg. by eapply seg_limit_le.
  - intros p n q k. apply (wf_apart W).
Qed.

Lemma push_inv hs a h all b g :
  push a h all hs !! b = Some g ->
  (b = a /\ hinfo g = hinfo h) \/ (b <> a /\ exists g0, hs !! b = Some g0 /\ hinfo g = hinfo g0).
Proof.
  intros E. pose proof (push_payload hinfo (fun _ _ => eq_refl) a h all hs b) as P.
  rewrite E in P. simpl in P. case_decide.
  - left. split; [done|congruence].
  - right. split; [done|]. destruct (hs !! b) as [g0|]; [|done]. exists g0.
    split; [done|]. simpl in P. congruence.
Qed.

Lemma push_is_Some hs a h all b :
  b = a \/ is_Some (hs !! b) -> is_Some (push a h all hs !! b).
Proof.
  intros Hb. pose proof (push_payload hinfo (fun _ _ => eq_refl) a h all hs b) as P.
  destruct (push a h all hs !! b); [eauto|]. simpl in P. case_decide; [done|].
  destruct Hb as [|[g Hg]]; [done|]. by rewrite Hg in P.
Qed.

(** Adding a fresh segment and making it the current one. *)
Lemma wf_add hs all cur bmp m live nh len :
  wf0 hs all cur bmp m live ->
  0 < nh -> nh mod 4096 = 0 -> len mod 4096 = 0 -> header_size <= len -> nh + len <= 2 ^ 47 ->
  (forall a, nh <= a < nh + len -> m !! a = None) ->
  wf0 (push nh (Header nh (nh + len) 0 0 all 0) all hs) nh nh (nh + header_size)
    (mwrite m nh (replicate (Z.to_nat len) x00)) live.
Proof.
  intros W Hpos Hal Hlal Hlen Htop Hfresh.
  assert (forall b g, hs !! b = Some g -> b <> nh /\ (h_end g <= nh \/ nh + len <= b)) as Hapart.
  { intros b g Hg. pose proof (wf_seg W Hg) as [_ _ _ _ Hroom _ Hmap _]. unfold header_size in *.
    destruct (decide (h_end g <= nh \/ nh + len <= b)) as [|Hno]; [split; [lia|done]|exfalso].
    destruct (Hmap (Z.max b nh) ltac:(lia)) as [x Hx]. by rewrite Hfresh in Hx by lia. }
  assert (forall p n, live !! p = Some n -> ~ (nh <= p < nh + len)) as Hout.
  { intros p n Hp. destruct (wf_obj W Hp) as (? & _ & b & g & Hg & ? & ? & _).
    pose proof (seg_limit_le _ _ _ _ _ _ _ _ W Hg). destruct (Hapart b g Hg).
    unfold header_size in *. lia. }
  assert (Z.of_nat (length (replicate (Z.to_nat len) x00)) = len) as Hrep
    by (rewrite length_replicate; unfold header_size in *; lia).
  constructor.
  - destruct (wf_list W) as (l & Hl & Hin). exists (nh :: l). split.
    + apply dlist_push; [done| |lia|done|done].
      intros [g Hg]%Hin. by destruct (Hapart nh g Hg).
    + intros b. rewrite elem_of_cons, <- Hin. split; [|apply push_is_Some].
      intros [g [[-> _]|(_ & g0 & Hg0 & _)]%push_inv]; [by left|right; eauto].
  - intros b g [[-> Hi]|(Hne & g0 & Hg0 & Hi)]%push_inv; apply (seg_ok_info _ _ _ _ _ Hi).
    + constructor; simpl; try done; try lia.
      * by replace (nh + len - nh) with len by lia.
      * replace (nh + len - nh) with len by lia. rewrite <- Hrep at 2.
        apply bytes_at_mapped, bytes_at_mwrite.
      * by rewrite objs_in_none.
    + destruct (wf_seg W Hg0) as []. constructor; try done. by apply mapped_mwrite.
  - intros b g c k [[-> [= _ -> _ _]]|(? & g0 & Hg & [= _ -> _ _])]%push_inv
      [[-> [= _ -> _ _]]|(? & k0 & Hk & [= _ -> _ _])]%push_inv Hbc; simpl.
    + done.
    + destruct (Hapart c k0 Hk); lia.
    + destruct (Hapart b g0 Hg); lia.
    + by eapply (wf_disj W).
  - right. destruct (push_is_Some hs nh (Header nh (nh + len) 0 0 all 0) all nh) as [g Hg]; [by left|].
    exists g. split; [done|]. apply push_inv in Hg as [[_ [= _ -> _ _]]|[? _]]; [|done].
    simpl. unfold header_size in *. split; [lia|]. zdm.
  - intros p n Hp. pose proof (wf_obj W Hp) as Ho. revert Ho. apply obj_ok_mono.
    + intros b g Hg _ _ _. destruct (Hapart b g Hg) as [Hne _].
      destruct (push_is_Some hs nh (Header nh (nh + len) 0 0 all 0) all b) as [g' Hg']; [eauto|].
      exists g'. split; [done|]. apply push_inv in Hg' as [[? _]|(_ & g0 & Hg0 & [= _ Ee _ Em])]; [done|].
      simplify_eq. rewrite Em. split; [|done].
      pose proof (seg_limit_le _ _ _ _ _ _ _ _ W Hg) as Hlim.
      unfold seg_limit in *. rewrite (decide_False (P := b = nh)) by done. lia.
    + intros b g Hg. by eapply seg_limit_le.
  - intros p n q k. apply (wf_apart W).
Qed.

(** Cutting an object off the current segment. *)
Lemma wf_cut hs all cur bmp m live h n :
  wf0 hs all cur bmp m live -> hs !! cur = Some h -> 8 <= n -> n mod 8 = 0 -> n <= h_end h - bmp ->
  let h' := Header (h_start h) (h_end h) (h_objs h + 1) (Z.max (h_maxsz h) n) (h_next h) (h_prev h) in
  live !! bmp = None /\ wf0 (<[cur := h']> hs) all cur (bmp + n) m (<[bmp := n]> live).
Proof.
  intros W Hc Hn Hn8 Hroom h'. pose proof (wf_seg W Hc) as Sc.
  pose proof (seg_pos _ _ _ _ Sc) as Hpos. pose proof (seg_start _ _ _ _ Sc) as Hst.
  destruct (wf_cur W) as [->|(h0 & Hh0 & Hb & Hb8)]; [lia|].
  assert (h0 = h) as -> by congruence.
  assert (forall p k, live !! p = Some k -> p + k <= bmp \/ bmp + n <= p) as Hapart.
  { intros p k Hp. destruct (wf_obj W Hp) as (Hk & _ & b & g & Hg & H1 & H2 & _).
    destruct (decide (b = cur)) as [->|Hne].
    - unfold seg_limit in H2. rewrite decide_True in H2 by done. lia.
    - pose proof (seg_limit_le _ _ _ _ _ _ _ _ W Hg). pose proof (wf_disj W Hg Hc Hne).
      unfold header_size in *. lia. }
  assert (live !! bmp = None) as Hnone.
  { destruct (live !! bmp) as [k|] eqn:E; [|done]. pose proof (Hapart _ _ E).
    destruct (wf_obj W E) as [? _]. lia. }
  split; [done|]. constructor.
  - destruct (wf_list W) as (l & Hl & Hin). exists l. split; [by eapply dlist_update|].
    intros a. rewrite lookup_insert_is_Some, <- Hin. split; [|by destruct (decide (cur = a)); eauto].
    intros [<-|[_ ?]]; eauto.
  - intros a g. rewrite lookup_insert_Some. intros [[<- <-]|[Hne Hg]].
    + destruct Sc. constructor; try done. simpl. change (objs_in h' ?x) with (objs_in h x).
      rewrite objs_in_insert, decide_True by (done || unfold header_size in *; lia). lia.
    + destruct (wf_seg W Hg). constructor; try done. rewrite objs_in_insert by done.
      rewrite decide_False; [done|]. pose proof (wf_disj W Hg Hc ltac:(done)).
      unfold header_size in *. lia.
  - intros a g b k. rewrite !lookup_insert_Some.
    intros [[<- <-]|[? Hg]] [[<- <-]|[? Hk]] Hab; simpl; [done|by eapply (wf_disj W)..].
  - right. exists h'. rewrite lookup_insert_eq. split; [done|]. simpl. split; [lia|zdm].
  - intros p k. rewrite lookup_insert_Some. intros [[<- <-]|[Hne Hp]].
    + split_and!; [done..|]. exists cur, h'. rewrite lookup_insert_eq.
      unfold seg_limit. rewrite decide_True by done. simpl. split_and!; [done|lia..].
    + pose proof (wf_obj W Hp) as Ho. revert Ho. apply obj_ok_mono.
      * intros a g Hg _ _ _. destruct (decide (cur = a)) as [<-|Hca].
        -- simplify_eq. exists h'. rewrite lookup_insert_eq. unfold seg_limit.
           rewrite !decide_True by done. simpl. split_and!; [done|lia..].
        -- exists g. rewrite lookup_insert_ne by done. unfold seg_limit.
           rewrite !decide_False by done. done.
      * intros a g Hg. by eapply seg_limit_le.
  - intros p k q j. rewrite !lookup_insert_Some.
    intros [[<- <-]|[? Hp]] [[<- <-]|[? Hq]] Hpq; [done|..|by eapply (wf_apart W)].
    + destruct (Hapart _ _ Hq); lia.
    + destruct (Hapart _ _ Hp); lia.
Qed.

(** Giving an object back. *)
Lemma wf_drop hs all cur bmp m live a h p n :
  wf0 hs all cur bmp m live -> live !! p = Some n -> hs !! a = Some h -> a <= p < h_end h ->
  1 <= h_objs h /\ wf0 (<[a := set_objs (h_objs h - 1) h]> hs) all cur bmp m (delete p live).
Proof.
  intros W Hp Ha Hin. pose proof (wf_seg W Ha) as Sa. pose proof (seg_start _ _ _ _ Sa) as Hst.
  assert (forall g, objs_in g live =
    if decide (h_start g <= p < h_end g) then S (objs_in g (delete p live))
    else objs_in g (delete p live)) as Hcount.
  { intros g. rewrite <- objs_in_insert with (n := n) by apply lookup_delete_eq.
    by rewrite insert_delete_id. }
  pose proof (seg_objs _ _ _ _ Sa) as Ho. rewrite Hcount, decide_True in Ho by lia.
  split; [lia|]. constructor.
  - destruct (wf_list W) as (l & Hl & Hdom). exists l. split; [by eapply dlist_update|].
    intros b. rewrite lookup_insert_is_Some, <- Hdom. split; [|by destruct (decide (a = b)); eauto].
    intros [<-|[_ ?]]; eauto.
  - intros b g. rewrite lookup_insert_Some. intros [[<- <-]|[Hne Hg]].
    + destruct Sa. constructor; try done. simpl.
      change (objs_in (set_objs _ h) ?x) with (objs_in h x). lia.
    + pose proof (wf_disj W Hg Ha ltac:(done)). destruct (wf_seg W Hg). constructor; try done.
      rewrite Hcount, decide_False in seg_objs0; [done|]. lia.
  - intros b g c k. rewrite !lookup_insert_Some.
    intros [[<- <-]|[? Hg]] [[<- <-]|[? Hk]] Hbc; simpl; [done|by eapply (wf_disj W)..].
  - destruct (wf_cur W) as [|(g & Hg & Hb)]; [by left|right].
    destruct (decide (a = cur)) as [->|Hne].
    + assert (g = h) as -> by congruence. eexists. by rewrite lookup_insert_eq.
    + exists g. by rewrite lookup_insert_ne.
  - intros q k. rewrite lookup_delete_Some. intros [_ Hq].
    pose proof (wf_obj W Hq) as Hobj. revert Hobj. apply obj_ok_mono.
    + intros b g Hg _ _ _. destruct (decide (a = b)) as [<-|Hne].
      * assert (g = h) as -> by congruence. eexists. by rewrite lookup_insert_eq.
      * exists g. by rewrite lookup_insert_ne.
    + intros b g Hg. by eapply seg_limit_le.
  - intros q k r j [_ Hq]%lookup_delete_Some [_ Hr]%lookup_delete_Some. by apply (wf_apart W).
Qed.

(** ** Running the operations *)

Section Run.
Context {K : Type} {KK : Kernel K} {MK : MapKernel K}.
Implicit Types s : heap K.

Lemma ldh_ret s a h : hdrs s !! a = Some h -> ldh a s = Ret h s.
Proof. intros E. unfold ldh. by rewrite E. Qed.

Lemma sth_ret s a h f :
  hdrs s !! a = Some h -> sth a f s = Ret tt (set_hdrs (<[a := f h]> (hdrs s)) s).
Proof. intros E. unfold sth. by mrun (ldh_ret _ _ _ E). Qed.

Lemma sth_alter s a f :
  is_Some (hdrs s !! a) -> sth a f s = Ret tt (set_hdrs (alter f a (hdrs s)) s).
Proof.
  intros [h E]. rewrite (sth_ret _ _ _ _ E). f_equal. f_equal. symmetry. apply map_eq. intros b.
  rewrite lookup_alter, lookup_insert. case_decide; [subst|done]. by rewrite E.
Qed.

Lemma munmap_ret (p : proc K) a len :
  0 < a -> a mod 4096 = 0 -> 0 < len -> len mod 4096 = 0 -> a + len <= 2 ^ 47 ->
  mapped (p_mem p) a len ->
  exists k', munmap a (u64 len) p = Ret 0 (Proc (unmapped (p_mem p) a len) (p_errno p) k') /\
    kmaps (p_kern p) k'.
Proof.
  intros Ha Hal Hl Hll Htop Hm.
  destruct (kmunmap (p_mem p) (p_kern p) a len Ha Hal Hl Hll Htop Hm) as (k' & Hk & Hs).
  exists k'. split; [|done]. unfold munmap, int_nz, syscall, syscall6, SA.
  assert (s64 a = a) as -> by cint. assert (s64 (u64 len) = len) as -> by cint.
  munfold. by rewrite Hk.
Qed.

Lemma mmap_ret (p : proc K) len :
  0 < len < 2 ^ 64 -> len mod 4096 = 0 ->
  exists r p', mmap 0 len 3 34 (-1) 0 p = Ret r p' /\ kmaps (p_kern p) (p_kern p') /\
    ((r = MAP_FAILED /\ p_mem p' = p_mem p) \/
     (0 < r /\ r mod 4096 = 0 /\ r + len <= 2 ^ 47 /\
      (forall a, r <= a < r + len -> p_mem p !! a = None) /\
      p_mem p' = mwrite (p_mem p) r (replicate (Z.to_nat len) x00))).
Proof.
  intros Hl Hll. destruct (kmmap (p_mem p) (p_kern p) len Hl Hll) as (r & m' & k' & Hk & Hs & Hr).
  unfold mmap, syscall6. change (SA 0) with 0. change (SA 3) with 3. change (SA 34) with 34.
  change (SA (-1)) with (-1). munfold. rewrite Hk. unfold ERRNO_LAST, ERRNO_FIRST in *.
  destruct Hr as [[Hr ->]|(? & ? & ? & ? & ->)].
  - assert (s64 r = r) as -> by cint. rewrite (proj2 (Z.ltb_lt r 0)) by lia.
    rewrite schk_ret by (unfold_int; lia). rewrite (proj2 (Z.leb_le 1 _)), (proj2 (Z.leb_le _ 115)) by lia.
    simpl. eauto 10.
  - assert (s64 r = r) as -> by cint. rewrite (proj2 (Z.ltb_ge r 0)) by lia.
    assert (u64 r = r) as -> by cint. eexists _, _. split; [done|]. split; [done|]. right. eauto 10.
Qed.

(** [_free_header] of an empty segment. *)
Lemma free_header_ret s live a h :
  wf0 (hdrs s) (allh s) (curh s) (bump s) (hmem s) live -> hdrs s !! a = Some h ->
  exists k', _free_header a s =
    Ret tt (Heap (Proc (unmapped (hmem s) a (h_end h - a)) (p_errno (hp_proc s)) k')
              (unlink_store a h (hdrs s)) (unlink_head h (allh s)) (curh s) (bump s)
              (biglock s) (dolock s)) /\ kmaps (hkern s) k'.
Proof.
  intros W Ha. destruct (wf_seg W Ha) as [Hst Hpos Hal Hlen Hroom Htop Hmap _].
  destruct (wf_list W) as (l & Hl & Hin).
  destruct (dlist_links _ _ _ _ _ Hl (proj1 (Hin a) (mk_is_Some _ _ Ha)) Ha) as [Hp Hn].
  cbn [pv nx header_links] in Hp, Hn. unfold header_size in *.
  destruct (munmap_ret (hp_proc s) a (h_end h - a)) as (k' & Hk & Hs); [done..|lia|done|lia|done|].
  exists k'. split; [|done]. unfold _free_header. mrun (ldh_ret _ _ _ Ha).
  set (s1 := if h_prev h =? 0 then set_allh (h_next h) s
             else set_hdrs (alter (set_next (h_next h)) (h_prev h) (hdrs s)) s).
  assert ((if h_prev h =? 0 then modify (set_allh (h_next h))
           else sth (h_prev h) (set_next (h_next h))) s = Ret tt s1) as E1.
  { subst s1. destruct (Z.eqb_spec (h_prev h) 0); [done|]. apply sth_alter. tauto. }
  mrun E1.
  assert (hdrs s1 !! a = Some h) as Ha1.
  { subst s1. destruct (Z.eqb_spec (h_prev h) 0); [done|]. simpl. rewrite lookup_alter_ne; [done|tauto]. }
  mrun (ldh_ret _ _ _ Ha1).
  set (s2 := if h_next h =? 0 then s1
             else set_hdrs (alter (set_prev (h_prev h)) (h_next h) (hdrs s1)) s1).
  assert ((if h_next h =? 0 then mret tt else sth (h_next h) (set_prev (h_prev h))) s1 = Ret tt s2) as E2.
  { subst s2. destruct (Z.eqb_spec (h_next h) 0); [done|]. apply sth_alter. subst s1.
    destruct (h_prev h =? 0); simpl; [tauto|]. apply lookup_alter_is_Some. tauto. }
  mrun E2.
  assert (hdrs s2 !! a = Some h) as Ha2.
  { subst s2. destruct (Z.eqb_spec (h_next h) 0); [done|]. simpl. rewrite lookup_alter_ne; [done|tauto]. }
  mrun (ldh_ret _ _ _ Ha2). rewrite Hst.
  assert (hp_proc s2 = hp_proc s) as Hps by (subst s2 s1; by destruct (h_prev h =? 0), (h_next h =? 0)).
  rewrite <- Hps in Hk. mrun (zoom_ret hp_proc set_proc _ _ _ _ Hk).
  subst s2 s1. unfold unlink_store, unlink_head, modify, hmem. cbn [pv nx with_nx with_pv header_links].
  destruct (h_prev h =? 0), (h_next h =? 0); done.
Qed.

Lemma maps_same s s' :
  hmem s' = hmem s -> (forall b, outside (hdrs s') b -> outside (hdrs s) b) -> kmaps (hkern s) (hkern s') ->
  maps_only s s'.
Proof. intros Hm Ho Hk. split; [done|]. intros a. rewrite Hm. auto. Qed.

(** Removing a segment removes all of its memory. *)
Lemma unlink_maps s s' a h :
  hdrs s !! a = Some h -> hdrs s' = unlink_store a h (hdrs s) ->
  hmem s' = unmapped (hmem s) a (h_end h - a) -> kmaps (hkern s) (hkern s') -> maps_only s s'.
Proof.
  intros Ha Hh Hm Hk. split; [done|]. intros b. rewrite Hm, Hh, unmapped_lookup.
  case_decide as Hb; [by intros [? ?]|]. intros Hs Ho. split; [done|]. intros c g Hg.
  destruct (decide (c = a)) as [->|Hne]; [simplify_eq; lia|].
  destruct (unlink_store_is_Some (hdrs s) a h c Hne (mk_is_Some _ _ Hg)) as [g' Hg'].
  pose proof (Ho c g' Hg') as Hc. apply unlink_store_inv in Hg' as (_ & g0 & Hg0 & [= _ Ee _ _]).
  simplify_eq. by rewrite <- Ee.
Qed.

(** All memory of a new segment is in it. *)
Lemma push_maps s s' a hd len :
  hdrs s !! a = None -> h_end hd = a + len -> hdrs s' = push a hd (allh s) (hdrs s) ->
  hmem s' = mwrite (hmem s) a (replicate (Z.to_nat len) x00) -> kmaps (hkern s) (hkern s') -> 0 <= len ->
  maps_only s s'.
Proof.
  intros Ha He Hh Hm Hk Hl. split; [done|]. intros b Hb Ho. rewrite Hh in Ho.
  assert (~ (a <= b < a + len)) as Hout.
  { destruct (push_is_Some (hdrs s) a hd (allh s) a) as [g Hg]; [by left|].
    pose proof (Ho a g Hg) as Hn. apply push_inv in Hg as [[_ [= _ Ee _ _]]|[? _]]; [|done].
    by rewrite Ee, He in Hn. }
  rewrite Hm, mwrite_out in Hb by (rewrite length_replicate, Z2Nat.id by lia; lia).
  split; [done|]. intros c g Hg. assert (c <> a) as Hne by congruence.
  destruct (push_is_Some (hdrs s) a hd (allh s) c) as [g' Hg']; [by right|].
  pose proof (Ho c g' Hg') as Hn. apply push_inv in Hg' as [[? _]|(_ & g0 & Hg0 & [= _ Ee _ _])]; [done|].
  simplify_eq. by rewrite <- Ee.
Qed.

Lemma outside_insert (hs : gmap Z header_t) a h h' b :
  hs !! a = Some h -> h_end h' = h_end h -> outside (<[a := h']> hs) b <-> outside hs b.
Proof.
  intros Ha He. split; intros Ho c g Hg.
  - destruct (decide (c = a)) as [->|]; [|by apply Ho; rewrite lookup_insert_ne].
    simplify_eq. rewrite <- He. apply Ho. apply lookup_insert_eq.
  - apply lookup_insert_Some in Hg as [[<- <-]|[_ Hg]]; [rewrite He|]; by apply Ho.
Qed.

(** The lock variables are not touched. *)
Definition same_lock s s' : Prop := biglock s' = biglock s /\ dolock s' = dolock s.

(** The segments that hold objects have the same contents, and so has the
    memory outside the heap; the kernel changes only its mappings. *)
Definition keepseg s s' : Prop :=
  (forall a h b, hdrs s !! a = Some h -> h_objs h <> 0 -> a <= b < h_end h -> hmem s' !! b = hmem s !! b) /\
  (forall b, is_Some (hmem s !! b) -> outside (hdrs s) b -> hmem s' !! b = hmem s !! b /\ outside (hdrs s') b) /\
  maps_only s s'.

Lemma wf_obj_used hs all cur bmp m live p n a h :
  wf0 hs all cur bmp m live -> live !! p = Some n -> hs !! a = Some h -> a <= p < h_end h ->
  h_objs h <> 0.
Proof.
  intros W Hp Ha Hin. destruct (wf_drop _ _ _ _ _ _ _ _ _ _ W Hp Ha Hin). lia.
Qed.

Lemma keepseg_keeps s s' live : heap_ok s live -> keepseg s s' -> keeps s s' live.
Proof.
  intros [W _] [HK HO]. split; [|exact HO]. intros p n b Hp Hb. destruct (wf_obj W Hp) as (Hn & _ & a & h & Ha & H1 & H2 & _).
  pose proof (seg_limit_le _ _ _ _ _ _ _ _ W Ha). unfold header_size in *.
  apply (HK a h b Ha); [|lia]. eapply wf_obj_used; [done..|]. lia.
Qed.

Lemma drop_empty_ret s live :
  heap_ok s live ->
  exists s', drop_empty s = Ret tt s' /\ same_lock s s' /\ keepseg s s' /\
    wf0 (hdrs s') (allh s') (curh s') (bump s') (hmem s') live /\
    forall a h, hdrs s' !! a = Some h -> h_objs h <> 0.
Proof.
  intros [W U]. unfold drop_empty. munfold.
  destruct (Z.eqb_spec (curh s) 0) as [E|E].
  - exists s. split_and!; [done..|split_and!; done|done|]. intros a h Ha H0. specialize (U a h Ha H0).
    pose proof (seg_pos _ _ _ _ (wf_seg W Ha)). lia.
  - destruct (wf_cur W) as [|(h & Hh & _)]; [done|]. rewrite (ldh_ret _ _ _ Hh).
    destruct (Z.eqb_spec (h_objs h) 0) as [E0|E0].
    + destruct (free_header_ret s live _ _ W Hh) as (k' & -> & Hk). eexists. split; [done|].
      split_and!; [done|..].
      * split; [|split; [|by eapply unlink_maps]].
        -- intros a g b Hg Ho Hb. unfold hmem. simpl. rewrite unmapped_lookup, decide_False; [done|].
           assert (a <> curh s) as Hne by (intros ->; congruence).
           pose proof (wf_disj W Hg Hh Hne). lia.
        -- intros b _ Hb. unfold hmem. simpl. rewrite unmapped_lookup, decide_False.
           2: { pose proof (Hb _ _ Hh). lia. }
           split; [done|]. intros a g (_ & g0 & Hg0 & [= _ Ee _ _])%unlink_store_inv. rewrite Ee. by apply Hb.
      * pose proof (wf_remove _ _ _ _ _ _ _ _ W Hh E0) as W'. by rewrite decide_True in W'.
      * simpl. intros a g (Hne & g0 & Hg0 & [= _ _ Ho _])%unlink_store_inv. rewrite Ho.
        intros F. by apply Hne, (U a g0).
    + exists s. split_and!; [done..|split_and!; done|done|]. intros a g Ha H0. apply E0.
      specialize (U a g Ha H0) as ->. congruence.
Qed.

Lemma map_segment_ret s live sz :
  wf0 (hdrs s) (allh s) (curh s) (bump s) (hmem s) live ->
  (forall a h, hdrs s !! a = Some h -> h_objs h <> 0) -> 0 <= sz < 2 ^ 64 ->
  exists ok s', map_segment sz s = Ret ok s' /\ same_lock s s' /\
    (forall b, is_Some (hmem s !! b) -> hmem s' !! b = hmem s !! b) /\
    (forall b, is_Some (hmem s !! b) -> outside (hdrs s) b -> outside (hdrs s') b) /\
    maps_only s s' /\ heap_ok s' live /\
    (ok = true -> exists h, hdrs s' !! curh s' = Some h /\ sz <= h_end h - bump s').
Proof.
  intros W U Hsz. unfold map_segment. destruct (Z.ltb_spec (round_seg sz) sz) as [|Hle].
  { eexists false, _. split; [done|]. split_and!; [done|done|done|done| |done].
    split; [done|]. intros a h Ha H0. by destruct (U a h Ha). }
  destruct (round_seg_spec sz Hsz Hle) as [Hr Hr8]. set (len := round_seg sz) in *.
  change (Z.lor PROT_READ PROT_WRITE) with 3. change (Z.lor MAP_ANON MAP_PRIVATE) with 34.
  unfold header_size in *.
  destruct (mmap_ret (hp_proc s) len) as (nh & p' & Hm & Hstep & Hcase); [lia|done|].
  mrun (zoom_ret hp_proc set_proc _ _ _ _ Hm). destruct Hcase as [[-> Hp]|(H1 & H2 & H3 & H4 & Hp)].
  - rewrite Z.eqb_refl. eexists false, _. split; [done|].
    split_and!; [done|unfold hmem; simpl; by rewrite Hp|done|by apply maps_same| |done].
    split; [unfold hmem; simpl; by rewrite Hp|]. intros a h Ha H0. by destruct (U a h Ha).
  - rewrite (proj2 (Z.eqb_neq nh MAP_FAILED)) by (unfold MAP_FAILED; cint).
    pose proof (wf_add _ _ _ _ _ _ nh len W H1 H2 Hr8 ltac:(unfold header_size; lia) H3 H4) as W'.
    set (hd := Header nh (nh + len) 0 0 (allh s) 0) in *.
    set (s1 := set_hdrs (<[nh := hd]> (hdrs s)) (set_proc p' s)).
    assert ((if allh s =? 0 then mret tt else sth (allh s) (set_prev nh)) s1
      = Ret tt (set_hdrs (push nh hd (allh s) (hdrs s)) s1)) as E1.
    { unfold push. destruct (Z.eqb_spec (allh s) 0); [done|]. apply sth_alter. simpl.
      apply lookup_insert_is_Some'. right. destruct (wf_list W) as (l & [_ [last Hl]] & Hin).
      apply Hin. destruct l; simpl in Hl; [naive_solver|]. destruct Hl as [-> _]. set_solver. }
    eexists true, _. split.
    { mrun (eq_refl : gets allh (set_proc p' s) = Ret (allh s) (set_proc p' s)).
      mrun (eq_refl : modify (fun s => set_hdrs (<[nh := hd]> (hdrs s)) s) (set_proc p' s) = Ret tt s1).
      mrun E1. done. }
    split_and!; [done| | | | |].
    + intros b [x Hx]. unfold hmem in *. simpl. rewrite Hp. apply mwrite_out.
      rewrite length_replicate, Z2Nat.id by lia.
      destruct (decide (nh <= b < nh + len)) as [Hin|]; [|lia]. by rewrite H4 in Hx.
    + intros b [x Hx] Hb a g [[-> [= _ Eg _ _]]|(_ & g0 & Hg0 & [= _ Eg _ _])]%push_inv; rewrite Eg; [|by apply Hb].
      simpl. intros Hin. unfold hmem in Hx. by rewrite H4 in Hx.
    + apply (push_maps _ _ nh hd len); [|done|done|unfold hmem; simpl; by rewrite Hp|done|lia].
      apply eq_None_not_Some. intros [g Hg]. destruct (seg_mapped _ _ _ _ (wf_seg W Hg) nh) as [x Hx].
      { pose proof (seg_room _ _ _ _ (wf_seg W Hg)). unfold header_size in *. lia. }
      by rewrite H4 in Hx by lia.
    + split; [unfold hmem; simpl; by rewrite Hp|].
      simpl. intros a h [[-> _]|(_ & g0 & Hg0 & [= _ _ Ho _])]%push_inv H0; [done|].
      rewrite Ho in H0. by destruct (U a g0 Hg0).
    + intros _. simpl.
      destruct (push_is_Some (hdrs s) nh hd (allh s) nh) as [g Hg]; [by left|].
      exists g. split; [done|]. apply push_inv in Hg as [[_ [= _ -> _ _]]|[? _]]; [|done].
      simpl. unfold header_size. lia.
Qed.

Lemma bump_obj_ret s live sz h :
  heap_ok s live -> hdrs s !! curh s = Some h -> sz <= h_end h - bump s ->
  8 <= sz -> sz mod 8 = 0 ->
  exists s', bump_obj sz s = Ret (bump s) s' /\ same_lock s s' /\ hmem s' = hmem s /\ hkern s' = hkern s /\
    (forall b, outside (hdrs s') b <-> outside (hdrs s) b) /\ live !! bump s = None /\ heap_ok s' (<[bump s := sz]> live).
Proof.
  intros [W U] Hh Hroom H8 Hm. destruct (wf_cut _ _ _ _ _ _ _ _ W Hh H8 Hm Hroom) as [Hnone W'].
  pose proof (wf_seg W Hh) as Sc.
  assert (u64 (h_objs h + 1) = h_objs h + 1) as Hw.
  { destruct Sc. pose proof (objs_in_le h live). unfold header_size in *. cint. }
  unfold bump_obj. mrun (eq_refl : gets curh s = Ret (curh s) s). mrun (ldh_ret _ _ _ Hh).
  rewrite Hw. mrun (sth_ret _ _ _ (set_objs (h_objs h + 1)) Hh).
  set (h' := Header _ _ _ _ _ _) in W'.
  assert (exists s', (if h_maxsz h <? sz then sth (curh s) (set_maxsz sz) else mret tt)
      (set_bump (bump s + sz) (set_hdrs (<[curh s := set_objs (h_objs h + 1) h]> (hdrs s)) s))
    = Ret tt s' /\ s' = set_bump (bump s + sz) (set_hdrs (<[curh s := h']> (hdrs s)) s)) as (s' & E & ->).
  { destruct (Z.ltb_spec (h_maxsz h) sz).
    - eexists. split; [apply sth_ret; apply lookup_insert_eq|]. unfold set_hdrs, set_bump. simpl. f_equal.
      rewrite insert_insert_eq. f_equal. unfold h', set_maxsz, set_objs. simpl. f_equal. lia.
    - eexists. split; [done|]. unfold set_hdrs, set_bump. simpl. f_equal. f_equal.
      unfold h', set_objs. f_equal. lia. }
  eexists. split.
  { do 2 (erewrite bind_ret by done; cbn beta iota). mrun E. done. }
  do 3 (split; [done|]). split; [|split; [done|]].
  { intros b. by apply (outside_insert _ _ h). }
  split; [done|]. simpl. intros a g. rewrite lookup_insert_Some. intros [[<- _]|[_ Hg]]; [done|apply (U a g Hg)].
Qed.

(** What a call that may allocate [sz] bytes guarantees. *)
Definition alloc_post s s' (live : gmap Z Z) (sz r : Z) : Prop :=
  keepseg s s' /\
  ((r = 0 /\ heap_ok s' live) \/
   (r <> 0 /\ live !! r = None /\ heap_ok s' (<[r := round_obj sz]> live))).

(** [_malloc] up to the tail that cuts the object off: whichever way a segment is
    found, it has room for the object. *)
Lemma segment_ret s live sz :
  heap_ok s live -> 0 <= round_obj sz < 2 ^ 64 ->
  exists ok s1, _malloc sz s = (if ok : bool then bump_obj (round_obj sz) else mret 0) s1 /\
    same_lock s s1 /\ keepseg s s1 /\ heap_ok s1 live /\
    (ok = true -> exists h, hdrs s1 !! curh s1 = Some h /\ round_obj sz <= h_end h - bump s1).
Proof.
  intros Hok Hn. unfold _malloc. set (n := round_obj sz) in *.
  mrun (eq_refl : gets curh s = Ret (curh s) s).
  assert (exists newhdr, (if curh s =? 0 then mret true
      else h ← ldh (curh s); b ← gets bump; mret (u64 (h_end h - b) <? n)) s = Ret newhdr s /\
    (newhdr = false -> exists h, hdrs s !! curh s = Some h /\ n <= h_end h - bump s)) as (nw & E & Hnw).
  { destruct (Z.eqb_spec (curh s) 0) as [|Hc]; [by exists true|].
    destruct (wf_cur (proj1 Hok)) as [|(h & Hh & Hb & _)]; [done|].
    mrun (ldh_ret _ _ _ Hh). eexists. split; [done|]. intros Hlt%Z.ltb_ge. exists h. split; [done|].
    pose proof (seg_top _ _ _ _ (wf_seg (proj1 Hok) Hh)). pose proof (seg_pos _ _ _ _ (wf_seg (proj1 Hok) Hh)).
    unfold header_size in *. revert Hlt. unfold_int. rewrite Z.mod_small by lia. done. }
  mrun E. clear E. destruct nw; [|exists true, s; by split_and!; auto].
  destruct (drop_empty_ret s live Hok) as (s0 & E0 & L0 & (K0 & N0 & S0) & W0 & U0).
  destruct (map_segment_ret s0 live n W0 U0 Hn) as (ok & s1 & E1 & L1 & K1 & N1 & S1 & Hok1 & Hr1).
  assert ((_ ← drop_empty; map_segment n) s = Ret ok s1) as E by by mrun E0.
  exists ok, s1. split; [by mrun E|]. split_and!; [|split; [|split]|done|done].
  - unfold same_lock in *. naive_solver congruence.
  - intros a g b Hg Ho Hb. pose proof (K0 a g b Hg Ho Hb) as Eb. rewrite <- Eb. apply K1. rewrite Eb.
    apply (seg_mapped _ _ _ _ (wf_seg (proj1 Hok) Hg)). lia.
  - intros b Hbm Hb. destruct (N0 b Hbm Hb) as [Eb Hb0]. assert (is_Some (hmem s0 !! b)) as Hm0 by by rewrite Eb.
    split; [by rewrite K1|by apply N1].
  - by etrans.
Qed.

(** The place of the next object is not NULL. *)
Lemma bump_pos s live h : heap_ok s live -> hdrs s !! curh s = Some h -> 0 < bump s.
Proof.
  intros Hok Hh. pose proof (seg_pos _ _ _ _ (wf_seg (proj1 Hok) Hh)).
  destruct (wf_cur (proj1 Hok)) as [Hz|(? & ? & ? & _)]; [lia|]. unfold header_size in *. lia.
Qed.

(** Memory and mappings after the tail of [_malloc]. *)
Lemma keepseg_tail s s1 s2 :
  keepseg s s1 -> hmem s2 = hmem s1 -> hkern s2 = hkern s1 -> (forall b, outside (hdrs s2) b <-> outside (hdrs s1) b) ->
  keepseg s s2.
Proof.
  intros (K1 & N1 & S1) M2 S2 N2. split_and!; rewrite ?M2; [done|intros b Hbm Hb; rewrite N2; auto|].
  etrans; [exact S1|]. apply maps_same; [done|apply N2|by rewrite S2].
Qed.

Lemma _malloc_ret s live sz :
  heap_ok s live -> 0 < sz <= 2 ^ 64 - 8 ->
  exists r s', _malloc sz s = Ret r s' /\ same_lock s s' /\ alloc_post s s' live sz r.
Proof.
  intros Hok Hsz. destruct (round_obj_spec sz Hsz) as (Hr & H8 & Hm). unfold alloc_post.
  destruct (segment_ret s live sz Hok ltac:(zdm)) as (ok & s1 & -> & HL & HK & Hok1 & Hroom).
  destruct ok; [|exists 0, s1; by split_and!; auto].
  destruct (Hroom eq_refl) as (h & Hh & Hle).
  destruct (bump_obj_ret s1 live _ h Hok1 Hh Hle H8 Hm) as (s2 & E2 & L2 & M2 & S2 & N2 & Hnone & Hok2).
  exists (bump s1), s2. split_and!; [done|unfold same_lock in *; naive_solver congruence|by eapply keepseg_tail|].
  right. pose proof (bump_pos _ _ _ Hok1 Hh). split_and!; [lia|done|done].
Qed.

(** A size that wraps: the object has no bytes, the next one is in its place. *)
Lemma _malloc_wraps s live sz :
  heap_ok s live -> 2 ^ 64 - 8 < sz < 2 ^ 64 ->
  exists r s', _malloc sz s = Ret r s' /\ same_lock s s' /\ keepseg s s' /\
    ((r = 0 /\ heap_ok s' live) \/ (0 < r /\ bump s' = r)).
Proof.
  intros Hok Hsz. pose proof (round_obj_wraps sz Hsz) as E0.
  destruct (segment_ret s live sz Hok ltac:(lia)) as (ok & s1 & -> & HL & HK & Hok1 & Hroom). rewrite E0 in *.
  destruct ok; [|exists 0, s1; by split_and!; auto]. destruct (Hroom eq_refl) as (h & Hh & _).
  pose proof (bump_pos _ _ _ Hok1 Hh). set (h' := set_objs (u64 (h_objs h + 1)) h).
  set (s2 := set_bump (bump s1 + 0) (set_hdrs (<[curh s1 := h']> (hdrs s1)) s1)).
  assert (exists h2, bump_obj 0 s1 = Ret (bump s1) (set_hdrs (<[curh s1 := h2]> (hdrs s1)) s2) /\ h_end h2 = h_end h) as (h2 & E2 & He).
  { unfold bump_obj. mrun (eq_refl : gets curh s1 = Ret (curh s1) s1). mrun (ldh_ret _ _ _ Hh).
    mrun (sth_ret _ _ _ (set_objs (u64 (h_objs h + 1))) Hh). fold h'.
    do 2 (erewrite bind_ret by done; cbn beta iota). destruct (h_maxsz h <? 0).
    - exists (set_maxsz 0 h'). split; [|done]. erewrite bind_ret by (apply sth_ret, lookup_insert_eq).
      unfold s2, set_hdrs, set_bump. simpl. by rewrite insert_insert_eq.
    - exists h'. split; [|done]. munfold. unfold s2, set_hdrs, set_bump. done. }
  rewrite E2. eexists _, _. split; [done|]. split_and!; [done| |right; split; [done|simpl; lia]].
  eapply keepseg_tail; [exact HK|done|done|]. intros b. by apply (outside_insert _ _ h).
Qed.

(** [_findseg] walks the list to the segment that contains the address. *)
Lemma findseg_ret s live p a h :
  heap_ok s live -> hdrs s !! a = Some h -> a <= p < h_end h -> _findseg p s = Ret a s.
Proof.
  intros [W _] Ha Hin. unfold _findseg. loop_body B.
  destruct (wf_list W) as (l & Hl & Hdom). pose proof (dlist_length _ _ _ Hl) as Hsz.
  destruct Hl as [_ [last Hl]]. assert (a ∈ l) as Hal by (apply Hdom; eauto).
  enough (forall l prev ch fuel, dlseg (hdrs s) prev ch last 0 l -> a ∈ l -> (length l < fuel)%nat ->
    loop fuel B ch s = Ret a s) as G by (eapply G; [exact Hl|done|lia]).
  clear - W Ha Hin. induction l as [|c l IH]; intros prev ch [|fuel] Hl Hal Hf; cbn [length] in Hf; try lia.
  { by apply elem_of_nil in Hal. }
  destruct Hl as (-> & Hc & g & Hg & _ & Hl). rewrite loop_S. unfold B at 1. cbn beta iota.
  rewrite (proj2 (Z.eqb_neq c 0) Hc). erewrite bind_ret by by apply ldh_ret. cbn beta iota.
  rewrite (seg_start _ _ _ _ (wf_seg W Hg)). destruct (decide (c = a)) as [->|Hne].
  - assert (g = h) as -> by congruence.
    by rewrite (proj2 (Z.leb_le a p)), (proj2 (Z.ltb_lt p _)) by lia.
  - assert ((c <=? p) && (p <? h_end g) = false) as ->.
    { apply andb_false_iff. rewrite Z.leb_gt, Z.ltb_ge.
      pose proof (wf_disj W Ha Hg ltac:(done)). lia. }
    apply (IH c); [done|set_solver|lia].
Qed.

Lemma live_seg s live p n :
  heap_ok s live -> live !! p = Some n ->
  exists a h, hdrs s !! a = Some h /\ a <= p < h_end h /\ p + n <= h_end h /\ n <= h_maxsz h.
Proof.
  intros [W _] Hp. destruct (wf_obj W Hp) as (Hn & _ & a & h & Ha & H1 & H2 & H3).
  pose proof (seg_limit_le _ _ _ _ _ _ _ _ W Ha). exists a, h. unfold header_size in *.
  split_and!; [done|lia..].
Qed.

Lemma _free_ret s live p n :
  heap_ok s live -> live !! p = Some n ->
  exists s', _free p s = Ret tt s' /\ same_lock s s' /\
    keeps s s' (delete p live) /\ heap_ok s' (delete p live).
Proof.
  intros Hok Hp. destruct (live_seg _ _ _ _ Hok Hp) as (a & h & Ha & Hin & _).
  pose proof Hok as [W U]. destruct (wf_drop _ _ _ _ _ _ _ _ _ _ W Hp Ha Hin) as [Hobj W'].
  pose proof (wf_seg W Ha) as Sa. pose proof (seg_pos _ _ _ _ Sa).
  assert (u64 (h_objs h - 1) = h_objs h - 1) as Hw.
  { destruct Sa. pose proof (objs_in_le h live). unfold header_size in *. cint. }
  unfold _free. mrun (findseg_ret s live p a h Hok Ha Hin).
  rewrite (proj2 (Z.eqb_neq a 0)) by lia. mrun (ldh_ret _ _ _ Ha). rewrite Hw.
  mrun (sth_ret _ _ _ (set_objs (h_objs h - 1)) Ha).
  set (h1 := set_objs (h_objs h - 1) h) in *. set (s1 := set_hdrs _ s).
  assert (hdrs s1 !! a = Some h1) as Ha1 by apply lookup_insert_eq.
  assert (forall b, outside (hdrs s1) b <-> outside (hdrs s) b) as Hout by (intros b; by apply (outside_insert _ _ h)).
  assert (maps_only s s1) as Hmo by (apply maps_same; [done|apply Hout|done]).
  assert (keeps s s1 (delete p live)) as Hk1 by (split_and!; [done|intros b _ Hb; by rewrite Hout|done]).
  mrun (ldh_ret _ _ _ Ha1). destruct (Z.eqb_spec (h_objs h1) 0) as [E0|E0].
  - mrun (eq_refl : gets curh s1 = Ret (curh s1) s1). destruct (Z.eqb_spec a (curh s1)) as [Ec|Ec].
    + exists s1. split_and!; [done..|]. split; [done|]. simpl. intros b g.
      rewrite lookup_insert_Some. intros [[<- _]|[_ Hg]]; [done|apply (U b g Hg)].
    + destruct (free_header_ret s1 (delete p live) a h1 W' Ha1) as (k' & -> & Hk'). eexists. split; [done|].
      split_and!; [done|split; [|split; [|etrans; [exact Hmo|by eapply unlink_maps]]]|].
      { intros q k b [Hqp Hq]%lookup_delete_Some Hb. unfold hmem. simpl. rewrite unmapped_lookup, decide_False; [done|]. intros Hin1.
        assert (delete p live !! q = Some k) as Hq' by by apply lookup_delete_Some.
        destruct (wf_obj W' Hq') as (Hk & _ & c & g & Hg & G1 & G2 & _).
        pose proof (seg_limit_le _ _ _ _ _ _ _ _ W' Hg). unfold header_size in *.
        destruct (decide (c = a)) as [->|Hca]; [|pose proof (wf_disj W' Hg Ha1 Hca); change (h_end h1) with (h_end h) in *; lia].
        assert (g = h1) as -> by (rewrite lookup_insert_eq in Hg; congruence).
        by apply (wf_obj_used _ _ _ _ _ _ q k a h1 W' Hq' Ha1 ltac:(lia)). }
      { intros b _ Hb. unfold hmem. simpl. rewrite unmapped_lookup, decide_False by (pose proof (Hb a h Ha); lia).
        split; [done|]. intros c g (_ & g0 & Hg0 & [= _ Ee _ _])%unlink_store_inv. rewrite Ee. by apply (proj2 (Hout b) Hb). }
      pose proof (wf_remove _ _ _ _ _ _ _ _ W' Ha1 E0) as W2. rewrite decide_False in W2 by done.
      split; [done|]. simpl. intros b g (Hne & g0 & Hg0 & [= _ _ Ho _])%unlink_store_inv. rewrite Ho.
      rewrite lookup_insert_ne in Hg0 by done. apply (U b g0 Hg0).
  - exists s1. split_and!; [done..|]. split; [done|]. simpl. intros b g.
    rewrite lookup_insert_Some. intros [[<- <-]|[_ Hg]]; [done|apply (U b g Hg)].
Qed.

(** ** The interface functions *)

Lemma acquire_ret s :
  biglock s = 0 -> exists s1, acquire s = Ret tt s1 /\ hp_proc s1 = hp_proc s /\
    hdrs s1 = hdrs s /\ (forall live, heap_ok s live -> heap_ok s1 live) /\ dolock s1 = dolock s.
Proof.
  intros Hb. unfold acquire. destruct (dolock s =? 0); [by exists s|].
  rewrite Hb. by exists (set_biglock 1 s).
Qed.

(** What the caller of an allocation function with a fresh result gets. *)
Lemma fresh_block s live r n :
  heap_ok s (<[r := n]> live) -> live !! r = None ->
  r mod 8 = 0 /\ mapped (hmem s) r n /\
  forall p k, live !! p = Some k -> p + k <= r \/ r + n <= p.
Proof.
  intros Hok Hr. pose proof Hok as [W _].
  assert (<[r := n]> live !! r = Some n) as Hl by apply lookup_insert_eq.
  destruct (wf_obj W Hl) as (_ & H8 & _). split; [done|].
  destruct (live_seg _ _ _ _ Hok Hl) as (a & h & Ha & Hin & He & _). split.
  - eapply mapped_le; [apply (seg_mapped _ _ _ _ (wf_seg W Ha))|lia..].
  - intros p k Hp. assert (p <> r) as Hne by congruence.
    assert (<[r := n]> live !! p = Some k) as Hp' by by rewrite lookup_insert_ne.
    destruct (wf_apart W Hp' Hl Hne); lia.
Qed.

Lemma malloc_ret s live sz :
  heap_ok s live -> biglock s = 0 -> 0 < sz <= 2 ^ 64 - 8 ->
  exists r s', malloc sz s = Ret r s' /\ biglock s' = 0 /\ dolock s' = dolock s /\
    alloc_post s s' live sz r.
Proof.
  intros Hok Hb Hsz. unfold malloc. rewrite (proj2 (Z.eqb_neq sz 0)) by lia.
  destruct (acquire_ret s Hb) as (s1 & E1 & P1 & D1 & O1 & L1). mrun E1.
  destruct (_malloc_ret s1 live sz (O1 _ Hok) Hsz) as (r & s2 & E2 & [_ L2] & Hpost). mrun E2.
  exists r, (set_biglock 0 s2). split; [done|]. split_and!; [done|simpl; congruence|].
  revert Hpost. unfold alloc_post, keepseg, maps_only, hmem, hkern. by rewrite P1, D1.
Qed.

Lemma malloc_wraps s live sz :
  heap_ok s live -> biglock s = 0 -> 2 ^ 64 - 8 < sz < 2 ^ 64 ->
  exists r s', malloc sz s = Ret r s' /\ biglock s' = 0 /\ keepseg s s' /\
    ((r = 0 /\ heap_ok s' live) \/ (0 < r /\ bump s' = r)).
Proof.
  intros Hok Hb Hsz. unfold malloc. rewrite (proj2 (Z.eqb_neq sz 0)) by lia.
  destruct (acquire_ret s Hb) as (s1 & E1 & P1 & D1 & O1 & L1). mrun E1.
  destruct (_malloc_wraps s1 live sz (O1 _ Hok) Hsz) as (r & s2 & E2 & _ & Hpost). mrun E2.
  exists r, (set_biglock 0 s2). split; [done|]. split; [done|].
  revert Hpost. unfold keepseg, maps_only, hmem, hkern. by rewrite P1, D1.
Qed.
End Run.

(** ** A kernel that satisfies the contract

    It maps above everything that is mapped, as long as there is room. *)

Definition max_key {A} (m : gmap Z A) : Z := map_fold (fun a _ x => Z.max a x) 0 m.

Lemma max_key_ge {A} (m : gmap Z A) a : is_Some (m !! a) -> a <= max_key m.
Proof.
  unfold max_key. induction m as [|b y m Hb Hfst IH] using map_first_key_ind; [by intros [? ?]|].
  rewrite map_fold_insert_first_key by done. rewrite lookup_insert_is_Some. intros [->|[_ Ha]]; [lia|].
  specialize (IH Ha). lia.
Qed.

Lemma max_key_nonneg {A} (m : gmap Z A) : 0 <= max_key m.
Proof.
  unfold max_key. induction m as [|b y m Hb Hfst IH] using map_first_key_ind; [done|].
  rewrite map_fold_insert_first_key by done. lia.
Qed.

Definition top_page (m : mem) : Z := (max_key m / 4096 + 1) * 4096.

#[export] Instance demo_kernel : Kernel unit := {|
  karch := aarch64;
  ktrap t args m k :=
    if t =? SYS_MMAP then
      let len := u64 (nth 1 args 0) in
      if top_page m + len <=? 2 ^ 47
      then Some (top_page m, mwrite m (top_page m) (replicate (Z.to_nat len) x00), k)
      else Some (- ENOMEM, m, k)
    else if t =? SYS_MUNMAP then Some (0, unmapped m (nth 0 args 0) (nth 1 args 0), k)
    else Some (- ENOSYS, m, k) |}.

Lemma top_page_above m a : is_Some (m !! a) -> a < top_page m.
Proof. intros Ha. pose proof (max_key_ge m a Ha). unfold top_page. zdm. Qed.

Lemma top_page_pos m : 0 < top_page m.
Proof. pose proof (max_key_nonneg m). unfold top_page. zdm. Qed.

#[export] Instance demo_map_kernel : MapKernel unit.
Proof.
  refine {| kmaps := eq |}.
  - intros m k len Hl Hll. unfold ktrap, demo_kernel. cbn [nth trap_args karch]. simpl.
    assert (u64 (SA len) = len) as -> by (unfold SA; cint).
    destruct (Z.leb_spec (top_page m + len) (2 ^ 47)) as [Hle|Hgt]; (eexists _, _, _; split; [done|]; split; [by destruct k|]).
    + right. split_and!; [apply top_page_pos|unfold top_page; zdm|done| |done].
      intros a Ha. destruct (m !! a) eqn:E; [|done]. pose proof (top_page_above m a (mk_is_Some _ _ E)). lia.
    + by left.
  - intros m k a len _ _ _ _ _ _. by exists k.
Defined.

(** A heap before the first allocation, and after one of 24 bytes. *)
Definition empty_heap : heap unit := Heap (Proc ∅ 0 tt) ∅ 0 0 0 0 1.
Definition demo_heap : heap unit :=
  match malloc 24 empty_heap with Ret _ s => s | _ => empty_heap end.

Lemma no_objects_ok {K} (p : proc K) b d : heap_ok (Heap p ∅ 0 0 0 b d) ∅.
Proof.
  split; [|intros a h; simpl; by rewrite lookup_empty].
  constructor; simpl; try (intros *; rewrite lookup_empty; done); [|by left].
  exists []. split; [split; [constructor|by exists 0]|].
  intros a. simpl. rewrite lookup_empty, elem_of_nil. split; [by intros []|done].
Qed.

Lemma empty_heap_ok : heap_ok empty_heap ∅.
Proof. apply no_objects_ok. Qed.

Lemma demo_heap_ok : heap_ok demo_heap {[4144 := 24]} /\ biglock demo_heap = 0.
Proof.
  destruct (malloc_ret empty_heap ∅ 24 empty_heap_ok eq_refl ltac:(lia)) as (r & s & E & L & _ & _ & Hr).
  assert (match malloc 24 empty_heap with Ret r _ => r | _ => 0 end = 4144) as Er by (vm_compute; done).
  unfold demo_heap. rewrite E in *. subst r. split; [|done].
  destruct Hr as [[? _]|(_ & _ & Hok)]; [done|]. exact Hok.
Qed.

(** ** Correctness *)

Section Correct.
Context {K : Type} {KK : Kernel K} {MK : MapKernel K}.
Implicit Types s : heap K.

(** What [malloc(sz)] gives back, by the size: for 0 the constant [ZEROPTR], with
    nothing changed; for the sizes up to 2^64 - 8, NULL or a new object that is
    8-aligned, mapped and disjoint from every object the program holds; for the
    seven largest sizes, NULL or a pointer to no bytes, which is where the next
    object goes. *)
Definition malloc_result s s' (live : gmap Z Z) (sz r : Z) : Prop :=
  if sz =? 0 then r = ZEROPTR /\ s' = s
  else if sz <=? 2 ^ 64 - 8 then
    (r = 0 /\ heap_ok s' live) \/
    (exists n, sz <= n /\ heap_ok s' (<[r := n]> live) /\ r <> 0 /\ r mod 8 = 0 /\ mapped (hmem s') r sz /\
       forall p k, live !! p = Some k -> p + k <= r \/ r + sz <= p)
  else (r = 0 /\ heap_ok s' live) \/ (0 < r /\ bump s' = r).

(** C5: [malloc] of any size of type [size_t] returns and has released its lock.
    It does not change the contents of the objects that the program holds nor of
    the memory outside the heap, and maps no memory outside the heap.  The size 0
    gives [ZEROPTR] and changes nothing.  A size up to 2^64 - 8 gives NULL and the
    same objects, or a new object, 8-aligned, mapped and disjoint from every other
    one, and the heap stays well formed.  A larger size, which wraps when it is
    rounded up, gives NULL, or a pointer to a block of no bytes in the place of
    the next object. *)
Theorem malloc_correct s live sz :
  heap_ok s live -> biglock s = 0 -> 0 <= sz < 2 ^ 64 ->
  exists r s', malloc sz s = Ret r s' /\ biglock s' = 0 /\ keeps s s' live /\ malloc_result s s' live sz r.
Proof.
  intros Hok Hb Hsz. unfold malloc_result. destruct (Z.eqb_spec sz 0) as [->|Hnz].
  { exists ZEROPTR, s. by split_and!. }
  destruct (Z.leb_spec sz (2 ^ 64 - 8)) as [Hle|Hgt].
  - destruct (malloc_ret s live sz Hok Hb ltac:(lia)) as (r & s' & E & L & _ & HK & Hr).
    destruct (round_obj_spec sz ltac:(lia)) as (Hn & _ & _).
    exists r, s'. split_and!; [done|done|by apply keepseg_keeps|].
    destruct Hr as [|(Hr0 & Hnone & Hok')]; [by left|right].
    destruct (fresh_block _ _ _ _ Hok' Hnone) as (H8 & Hm & Hd).
    exists (round_obj sz). split_and!; [lia|done|done|done|eapply mapped_le; [exact Hm|lia|lia]|].
    intros p k Hp. destruct (Hd p k Hp); lia.
  - destruct (malloc_wraps s live sz Hok Hb ltac:(lia)) as (r & s' & E & L & HK & Hr).
    exists r, s'. split_and!; [done|done|by apply keepseg_keeps|done].
Qed.

Lemma free_ret s live p n :
  heap_ok s live -> biglock s = 0 -> live !! p = Some n ->
  exists s', free p s = Ret tt s' /\ biglock s' = 0 /\ heap_ok s' (delete p live) /\
    keeps s s' (delete p live).
Proof.
  intros Hok Hb Hp. unfold free. destruct (acquire_ret s Hb) as (s1 & E1 & P1 & D1 & O1 & _). mrun E1.
  destruct (_free_ret s1 live p n (O1 _ Hok) Hp) as (s2 & E2 & _ & HK & Hok2). mrun E2.
  exists (set_biglock 0 s2). split_and!; [done..|]. revert HK. unfold keeps, maps_only, hmem, hkern. by rewrite P1, D1.
Qed.

(** C6: [free] of an object the program holds succeeds, releases the lock,
    keeps the heap well formed without that object (giving an emptied segment
    back to the kernel), leaves every other object's contents alone and maps no
    memory outside the heap. *)
Theorem free_correct s live p n :
  heap_ok s live -> biglock s = 0 -> live !! p = Some n ->
  exists s', free p s = Ret tt s' /\ biglock s' = 0 /\ heap_ok s' (delete p live) /\
    keeps s s' (delete p live).
Proof. apply free_ret. Qed.

(** The copy of [realloc]: it reads and writes only mapped memory and leaves
    the first bytes of the old object in the new one. *)
Lemma realloc_copy s s1 live old n nsz r a h :
  heap_ok s live -> live !! old = Some n -> hdrs s !! a = Some h -> a <= old < h_end h ->
  0 < nsz <= 2 ^ 64 - 8 ->
  keepseg s s1 -> live !! r = None -> r <> old ->
  heap_ok s1 (<[r := round_obj nsz]> live) ->
  exists l, bytes_at (hmem s1) old l /\
    Z.of_nat (length l) = Z.min (Z.min (h_maxsz h) (u64 (h_end h - old))) nsz /\
    memmove r old (Z.of_nat (length l)) (hmem s1) = Ret r (mwrite (hmem s1) r l) /\
    forall i, 0 <= i < Z.min n nsz -> mwrite (hmem s1) r l !! (r + i) = hmem s !! (old + i).
Proof.
  intros Hok Hp Ha Hin Hsz HK Hr Hne Hok1. pose proof Hok as [W _].
  pose proof (wf_seg W Ha) as Sa. pose proof (wf_obj_used _ _ _ _ _ _ _ _ _ _ W Hp Ha Hin) as Hu.
  destruct (wf_obj_seg _ _ _ _ _ _ _ _ _ _ W Hp Ha Hin) as (G1 & G2 & G3).
  pose proof (seg_limit_le _ _ _ _ _ _ _ _ W Ha). destruct (wf_obj W Hp) as [Hn8 _].
  destruct Sa as [_ Hpos _ _ _ Htop Hmap _].
  assert (u64 (h_end h - old) = h_end h - old) as -> by cint.
  set (c := Z.min (Z.min (h_maxsz h) (h_end h - old)) nsz). assert (0 <= c) as Hc by lia.
  assert (mapped (hmem s1) old c) as Hsrc.
  { intros b Hb. rewrite (proj1 HK a h b Ha Hu) by lia. apply Hmap. lia. }
  destruct (fresh_block _ _ _ _ Hok1 Hr) as (_ & Hdst & _).
  destruct (round_obj_spec nsz Hsz) as (Hrs & _ & _).
  destruct (mapped_read (hmem s1) old (Z.to_nat c)) as (l & Hln & Hl); [by rewrite Z2Nat.id by lia|].
  assert (Z.of_nat (length l) = c) as Hlen by lia.
  exists l. split_and!; [done|done|..].
  - apply memmove_ret; [done|]. rewrite Hlen. eapply mapped_le; [done|lia..].
  - intros i Hi. rewrite (mwrite_in _ _ _ _ (default x00 (l !! Z.to_nat i))); [|lia|].
    + rewrite <- (proj1 HK a h (old + i) Ha Hu) by lia.
      destruct (lookup_lt_is_Some_2 l (Z.to_nat i)) as [x Hx]; [lia|]. rewrite Hx. simpl. symmetry.
      rewrite bytes_at_lookup in Hl. specialize (Hl _ _ Hx). by rewrite Z2Nat.id in Hl by lia.
    + replace (r + i - r) with i by lia.
      destruct (lookup_lt_is_Some_2 l (Z.to_nat i)) as [x Hx]; [lia|]. by rewrite Hx.
Qed.

Definition with_mem (m : mem) s : heap K := set_proc (set_mem m (hp_proc s)) s.

(** The invariant is about which memory is mapped, not about its contents. *)
Lemma heap_ok_mem s live m :
  (forall a, is_Some (hmem s !! a) -> is_Some (m !! a)) -> heap_ok s live -> heap_ok (with_mem m s) live.
Proof.
  intros Hm [[] U]. split; [|done]. constructor; try done. simpl. intros a h Ha.
  destruct (wf_seg0 a h Ha). constructor; try done. intros b Hb. by apply Hm, seg_mapped0.
Qed.

Lemma heap_ok_mwrite s live r l : heap_ok s live -> heap_ok (with_mem (mwrite (hmem s) r l) s) live.
Proof.
  apply heap_ok_mem. intros a Ha. rewrite mwrite_lookup. case_decide; [|done].
  apply lookup_lt_is_Some. lia.
Qed.

Lemma keeps_trans s s1 s2 live : keeps s s1 live -> keeps s1 s2 live -> keeps s s2 live.
Proof.
  intros (K1 & N1 & S1) (K2 & N2 & S2). split; [|split; [|by etrans]].
  - intros p n a Hp Ha. rewrite <- (K1 p n a) by done. by apply (K2 p n).
  - intros a Hm Ha. destruct (N1 a Hm Ha) as [E H1]. rewrite <- E. apply N2; [by rewrite E|done].
Qed.

Lemma keeps_mono s s' (live live' : gmap Z Z) : keeps s s' live -> live' ⊆ live -> keeps s s' live'.
Proof.
  intros [K1 N1] Hs. split; [|exact N1]. intros p n a Hp. apply (K1 p n). by eapply lookup_weaken.
Qed.

(** An address outside the heap is in no object. *)
Lemma outside_live s live p n a :
  heap_ok s live -> live !! p = Some n -> outside (hdrs s) a -> ~ (p <= a < p + n).
Proof.
  intros [W _] Hp Ha. destruct (wf_obj W Hp) as (_ & _ & b & h & Hb & H1 & H2 & _).
  pose proof (seg_limit_le _ _ _ _ _ _ _ _ W Hb). specialize (Ha b h Hb). unfold header_size in *. lia.
Qed.

(** Writing to mapped memory maps nothing. *)
Lemma mwrite_maps s r l :
  mapped (hmem s) r (Z.of_nat (length l)) -> maps_only s (with_mem (mwrite (hmem s) r l) s).
Proof.
  intros Hm. split; [done|]. intros a. unfold hmem at 1. simpl. rewrite mwrite_lookup. case_decide; [|done].
  intros _ Ho. split; [|done]. apply Hm. lia.
Qed.

(** Writing to a new object. *)
Lemma keeps_mwrite s live r k l :
  heap_ok s (<[r := k]> live) -> live !! r = None -> Z.of_nat (length l) <= k ->
  keeps s (with_mem (mwrite (hmem s) r l) s) live.
Proof.
  intros Hok Hr Hl. destruct (fresh_block _ _ _ _ Hok Hr) as (_ & Hm & Hd).
  split; [|split; [|apply mwrite_maps; eapply mapped_le; [exact Hm|lia..]]].
  - intros p n a Hp Ha. apply mwrite_out. destruct (Hd p n Hp); lia.
  - intros a _ Ha. split; [|done]. apply mwrite_out.
    pose proof (outside_live _ _ r k a Hok (lookup_insert_eq _ _ _) Ha). lia.
Qed.

Lemma onproc_onmem {A} (f : M mem A) s x m :
  f (hmem s) = Ret x m -> onproc (onmem f) s = Ret x (with_mem m s).
Proof. intros E. apply (zoom_ret hp_proc set_proc). by apply onmem_ret. Qed.

(** C9: [realloc] of a held object to a size from 1 to 2^64 - 8 returns NULL and changes nothing, or moves
    it: the new block has at least the new size, its first bytes are those of
    the old object, up to the smaller of the two sizes, the old object is
    freed and all other objects keep their contents.  The over-estimate of the
    old size never makes the copy touch memory outside the two segments. *)
Theorem realloc_correct s live old n nsz :
  heap_ok s live -> biglock s = 0 -> live !! old = Some n -> 0 < nsz <= 2 ^ 64 - 8 ->
  exists r s', realloc old nsz s = Ret r s' /\ biglock s' = 0 /\
    ((r = 0 /\ heap_ok s' live /\ keeps s s' live) \/
     (r <> 0 /\ live !! r = None /\ exists k, nsz <= k /\ heap_ok s' (delete old (<[r := k]> live)) /\
        keeps s s' (delete old live) /\
        forall i, 0 <= i < Z.min n nsz -> hmem s' !! (r + i) = hmem s !! (old + i))).
Proof.
  intros Hok Hb Hp Hsz. destruct (live_seg _ _ _ _ Hok Hp) as (a & h & Ha & Hin & _).
  pose proof (seg_pos _ _ _ _ (wf_seg (proj1 Hok) Ha)). unfold realloc.
  rewrite (proj2 (Z.eqb_neq old 0)) by lia.
  destruct (acquire_ret s Hb) as (s0 & E0 & P0 & D0 & O0 & _). mrun E0.
  mrun (findseg_ret s0 live old a h (O0 _ Hok) ltac:(by rewrite D0) Hin).
  erewrite bind_ret by (apply ldh_ret; rewrite D0; exact Ha). cbn beta iota zeta.
  destruct (_malloc_ret s0 live nsz (O0 _ Hok) Hsz) as (r & s1 & E1 & _ & HK & Hr). mrun E1.
  assert (keepseg s s1) as HK' by (revert HK; unfold keepseg, maps_only, hmem, hkern; by rewrite P0, D0).
  clear HK. rename HK' into HK. destruct (round_obj_spec nsz Hsz) as (Hrs & _ & _).
  destruct Hr as [[-> Hok1]|(Hnz & Hnone & Hok1)].
  { exists 0, (set_biglock 0 s1). split_and!; [done..|]. left. split_and!; [done..|].
    by apply keepseg_keeps. }
  assert (r <> old) as Hne by congruence.
  destruct (realloc_copy s s1 live old n nsz r a h) as (l & _ & Hlen & Hmv & Hcp); [done..|].
  rewrite (proj2 (Z.eqb_neq r 0) Hnz), <- Hlen.
  set (s2 := with_mem (mwrite (hmem s1) r l) s1).
  destruct (_free_ret s2 (<[r := round_obj nsz]> live) old n) as (s3 & E3 & _ & K3 & Hok3).
  { by apply heap_ok_mwrite. }
  { by rewrite lookup_insert_ne. }
  exists r, (set_biglock 0 s3). split.
  { rewrite bind_assoc. mrun (onproc_onmem _ s1 _ _ Hmv). fold s2. mrun E3. done. }
  split; [done|]. right. split; [done|]. split; [done|]. exists (round_obj nsz). split_and!; [lia|done|..].
  - apply (keeps_trans s s1); [apply (keeps_mono _ _ live); [by apply keepseg_keeps|apply delete_subseteq]|].
    apply (keeps_trans s1 s2).
    + apply (keeps_mono _ _ live); [|apply delete_subseteq]. eapply keeps_mwrite; [done..|lia].
    + apply (keeps_mono _ s3 _ _ K3). apply delete_mono, insert_subseteq; done.
  - intros i Hi. rewrite <- Hcp by done. apply (proj1 K3 r (round_obj nsz)); [|lia].
    by rewrite lookup_delete_ne, lookup_insert_eq.
Qed.

Lemma calloc_ret s live n sz :
  heap_ok s live -> biglock s = 0 -> 0 < n -> 0 < sz -> n < 2 ^ 64 -> sz < 2 ^ 64 ->
  n * sz <= 2 ^ 64 - 8 \/ 2 ^ 64 <= n * sz ->
  exists r s', calloc n sz s = Ret r s' /\ biglock s' = 0 /\ keeps s s' live /\
    ((r = 0 /\ heap_ok s' live) \/
     (r <> 0 /\ live !! r = None /\ exists k, n * sz <= k /\ heap_ok s' (<[r := k]> live) /\
        forall i, 0 <= i < n * sz -> hmem s' !! (r + i) = Some x00)).
Proof.
  intros Hok Hb Hn Hs Hn64 Hs64 Hprod. unfold calloc, ULONG_MAX.
  rewrite (proj2 (Z.eqb_neq n 0)), (proj2 (Z.eqb_neq sz 0)) by lia. cbn [orb]. cbv iota zeta.
  destruct (Z.ltb_spec (18446744073709551615 / sz) n) as [Hov|Hov].
  { eexists 0, _. split; [done|]. split_and!; [done..|]. by left. }
  assert (n * sz <= 18446744073709551615) as Hle.
  { pose proof (Z.mul_div_le 18446744073709551615 sz ltac:(lia)). nia. }
  assert (n * sz <= 2 ^ 64 - 8) as Hp by lia.
  assert (u64 (sz * n) = n * sz) as -> by (rewrite Z.mul_comm; apply uwrap_id; unfold_int; nia).
  assert (0 < n * sz) as H0 by nia. set (big := n * sz) in *.
  destruct (malloc_ret s live big Hok Hb ltac:(lia)) as (r & s1 & E & L & _ & HK & Hr). mrun E.
  assert (keeps s s1 live) as HK' by (by apply keepseg_keeps).
  destruct (round_obj_spec big ltac:(lia)) as (Hrs & _ & _).
  destruct Hr as [[-> Hok1]|(Hnz & Hnone & Hok1)].
  { exists 0, s1. split_and!; [done..|]. by left. }
  rewrite (proj2 (Z.eqb_neq r 0) Hnz). destruct (fresh_block _ _ _ _ Hok1 Hnone) as (_ & Hm & Hd).
  assert (memset r 0 big (hmem s1) = Ret r (mwrite (hmem s1) r (replicate (Z.to_nat big) x00))) as Hset.
  { pose proof (memset_ret (hmem s1) r 0 (Z.to_nat big)) as G. rewrite Z2Nat.id in G by lia.
    apply G. eapply mapped_le; [done|lia..]. }
  eexists r, _. split; [by mrun (onproc_onmem _ s1 _ _ Hset)|].
  split_and!; [done| |right; split; [done|]; split; [done|]; exists (round_obj big); split_and!; [lia|by apply heap_ok_mwrite|]].
  - apply (keeps_trans s s1); [done|]. eapply keeps_mwrite; [done..|]. rewrite length_replicate. lia.
  - intros i Hi. apply mwrite_in; [lia|]. apply lookup_replicate. split; [done|lia].
Qed.

(** [calloc] returns NULL, or a new block of [n * sz] zero bytes; the test
    for overflow means the product is the mathematical one. *)
Theorem calloc_correct s live n sz :
  heap_ok s live -> biglock s = 0 -> 0 < n -> 0 < sz -> n < 2 ^ 64 -> sz < 2 ^ 64 ->
  n * sz <= 2 ^ 64 - 8 \/ 2 ^ 64 <= n * sz ->
  exists r s', calloc n sz s = Ret r s' /\ biglock s' = 0 /\ keeps s s' live /\
    ((r = 0 /\ heap_ok s' live) \/
     (r <> 0 /\ live !! r = None /\ exists k, n * sz <= k /\ heap_ok s' (<[r := k]> live) /\
        forall i, 0 <= i < n * sz -> hmem s' !! (r + i) = Some x00)).
Proof. apply calloc_ret. Qed.
End Correct.

Lemma malloc_correct_witness :
  exists r s', malloc 24 empty_heap = Ret r s' /\ biglock s' = 0 /\ keeps empty_heap s' ∅ /\
    malloc_result empty_heap s' ∅ 24 r.
Proof. apply (malloc_correct empty_heap ∅ 24); [apply empty_heap_ok|reflexivity|lia]. Defined.

Lemma free_correct_witness :
  exists s', free 4144 demo_heap = Ret tt s' /\ biglock s' = 0 /\
    heap_ok s' (delete 4144 {[4144 := 24]}) /\
    keeps demo_heap s' (delete 4144 {[4144 := 24]}).
Proof. apply (free_correct demo_heap {[4144 := 24]} 4144 24); [apply demo_heap_ok..|reflexivity]. Defined.

Lemma realloc_correct_witness :
  exists r s', realloc 4144 40 demo_heap = Ret r s' /\ biglock s' = 0 /\
    ((r = 0 /\ heap_ok s' {[4144 := 24]} /\ keeps demo_heap s' {[4144 := 24]}) \/
     (r <> 0 /\ ({[4144 := 24]} : gmap Z Z) !! r = None /\ exists k, 40 <= k /\ heap_ok s' (delete 4144 (<[r := k]> {[4144 := 24]})) /\
        keeps demo_heap s' (delete 4144 {[4144 := 24]}) /\
        forall i, 0 <= i < Z.min 24 40 -> hmem s' !! (r + i) = hmem demo_heap !! (4144 + i))).
Proof.
  apply (realloc_correct demo_heap {[4144 := 24]} 4144 24 40); [apply demo_heap_ok..|reflexivity|lia].
Defined.

Lemma calloc_correct_witness :
  exists r s', calloc 3 5 demo_heap = Ret r s' /\ biglock s' = 0 /\
    keeps demo_heap s' {[4144 := 24]} /\
    ((r = 0 /\ heap_ok s' {[4144 := 24]}) \/
     (r <> 0 /\ ({[4144 := 24]} : gmap Z Z) !! r = None /\ exists k, 3 * 5 <= k /\ heap_ok s' (<[r := k]> {[4144 := 24]}) /\
        forall i, 0 <= i < 3 * 5 -> hmem s' !! (r + i) = Some x00)).
Proof. apply (calloc_correct demo_heap {[4144 := 24]} 3 5); [apply demo_heap_ok..|lia|lia|lia|lia|lia]. Defined.

(** a size within 7 bytes of the largest [size_t] wraps to zero when it is
    rounded, and [malloc] then returns a block of no bytes instead of failing;
    the next block has the same address. *)
Theorem malloc_size_wraps :
  match malloc (2 ^ 64 - 1) demo_heap with
  | Ret r s => r = 4168 /\ match malloc 8 s with Ret q _ => q = r | _ => False end
  | _ => False
  end.
Proof. vm_compute. done. Qed.
