(* ===== verification/LPthread.v ===== *)
(** * Mutexes and barriers of litc.c

    [pthread_mutex_lock], [pthread_mutex_unlock] and [pthread_barrier_wait] run
    by any number of threads: a step relation on the shared variable and the
    threads' positions, one step per atomic access.  The futex system call is
    not litc code; its documented behaviour is in the rules: a sleep blocks only
    if the variable still has the expected value, and may return early or fail;
    a wake makes at least one sleeper runnable if there is one.  (The expected
    value is the fourth argument of the trap; [LBase.trap_args] says on which
    architecture it arrives.)  The global [dolock] is set. *)

From S2P Require Import Prelude.

Module Mutex.

(** Where a thread is: outside; before the compare-and-swap of the fast path;
    before the test-and-set of the loop; before the futex sleep; asleep; holding
    the mutex; before the futex wake of [pthread_mutex_unlock]. *)
Inductive pc : Type := Out | LFast | LXchg | LSleep | Asleep | Held | UWake.

#[export] Instance pc_eq_dec : EqDecision pc.
Proof. solve_decision. Defined.

(** The atomic accesses: the value of [m->locks] and the position after. *)
Definition lock_cas (locks : Z) : Z * pc :=
  if locks =? 0 then (1, Held) else (locks, LXchg).
Definition lock_xchg (locks : Z) : Z * pc :=
  (2, if locks =? 0 then Held else LSleep).
Definition unlock_xchg (locks : Z) : Z * pc :=
  (0, if locks =? 2 then UWake else Out).

Definition mutex_state : Type := Z * list pc.

Inductive mutex_step : mutex_state -> mutex_state -> Prop :=
  | s_enter v ts i : ts !! i = Some Out -> mutex_step (v, ts) (v, <[i := LFast]> ts)
  | s_cas v ts i : ts !! i = Some LFast ->
      mutex_step (v, ts) ((lock_cas v).1, <[i := (lock_cas v).2]> ts)
  | s_xchg v ts i : ts !! i = Some LXchg ->
      mutex_step (v, ts) ((lock_xchg v).1, <[i := (lock_xchg v).2]> ts)
  | s_sleep ts i : ts !! i = Some LSleep -> mutex_step (2, ts) (2, <[i := Asleep]> ts)
  | s_again v ts i : ts !! i = Some LSleep -> mutex_step (v, ts) (v, <[i := LXchg]> ts)
  | s_fail v ts i : ts !! i = Some LSleep -> mutex_step (v, ts) (v, <[i := Out]> ts)
  | s_spurious v ts i : ts !! i = Some Asleep -> mutex_step (v, ts) (v, <[i := LXchg]> ts)
  | s_unlock v ts i : ts !! i = Some Held ->
      mutex_step (v, ts) ((unlock_xchg v).1, <[i := (unlock_xchg v).2]> ts)
  | s_wake v ts i j : ts !! i = Some UWake -> ts !! j = Some Asleep ->
      mutex_step (v, ts) (v, <[j := LXchg]> (<[i := Out]> ts))
  | s_wake_none v ts i : ts !! i = Some UWake -> Asleep ∉ ts ->
      mutex_step (v, ts) (v, <[i := Out]> ts).

(** [pthread_mutex_init] sets the variable to zero. *)
Definition mutex_initial (n : nat) : mutex_state := (0, replicate n Out).
Definition reachable (n : nat) : mutex_state -> Prop := rtc mutex_step (mutex_initial n).

Definition is_held (p : pc) : bool := match p with Held => true | _ => false end.
Definition is_asleep (p : pc) : bool := match p with Asleep => true | _ => false end.
(** A thread that will wake a sleeper or mark the lock as contended. *)
Definition is_waker (p : pc) : bool := match p with UWake | LXchg => true | _ => false end.

Record inv (s : mutex_state) : Prop := Inv {
  inv_val : s.1 = 0 \/ s.1 = 1 \/ s.1 = 2;
  inv_held : count is_held s.2 = Z.b2z (negb (s.1 =? 0));
  inv_sleep : 0 < count is_asleep s.2 -> s.1 = 2 \/ 0 < count is_waker s.2
}.

Lemma inv_initial n : inv (mutex_initial n).
Proof.
  assert (forall P, P Out = false -> count P (replicate n Out) = 0) as H.
  { intros P HP. induction n; unfold count in *; simpl; [done|]. by rewrite HP. }
  constructor; simpl; [by left|by rewrite H|rewrite H; [lia|done]].
Qed.

(** A thread that moves from [x] to [y] while the variable goes from [v] to [w]. *)
Lemma inv_move v w ts i x y :
  inv (v, ts) -> ts !! i = Some x -> w = 0 \/ w = 1 \/ w = 2 ->
  Z.b2z (negb (w =? 0)) = Z.b2z (negb (v =? 0)) - Z.b2z (is_held x) + Z.b2z (is_held y) ->
  w = 2 \/ is_waker y = true \/ (v <> 2 /\ is_waker x = false /\ is_asleep y = false)
    \/ (w = v /\ is_waker x = false /\ is_asleep y = false) ->
  inv (w, <[i := y]> ts).
Proof.
  intros [Hv Hh Hs] E Hw Hd Hc. simpl in *. constructor; simpl.
  - done.
  - rewrite (count_insert _ _ _ _ _ E). lia.
  - rewrite !(count_insert _ _ _ _ _ E). intros Hsl. pose proof (count_nonneg is_waker ts).
    destruct Hc as [->|[Hy|[(Hv2 & Hx & Hy)|(-> & Hx & Hy)]]]; [by left|..]; rewrite ?Hy in *; simpl in *.
    + right. destruct (is_waker x) eqn:Ex; simpl; [|lia]. pose proof (count_pos _ _ _ _ E Ex). lia.
    + assert (0 < count is_asleep ts) as Ha by (destruct (is_asleep x); simpl in *; lia).
      right. destruct (Hs Ha); [done|]. rewrite Hx. destruct (is_waker y); simpl; lia.
    + assert (0 < count is_asleep ts) as Ha by (destruct (is_asleep x); simpl in *; lia).
      destruct (Hs Ha); [by left|right]. rewrite Hx. destruct (is_waker y); simpl; lia.
Qed.

Lemma inv_step s s' : inv s -> mutex_step s s' -> inv s'.
Proof.
  intros Hi Hst. pose proof Hi as [Hv _ Hs].
  destruct Hst as [v ts i E|v ts i E|v ts i E|ts i E|v ts i E|v ts i E|v ts i E|v ts i E|v ts i j E Ej|v ts i E Hn];
    simpl in Hv; unfold lock_cas, lock_xchg, unlock_xchg.
  - eapply inv_move; [done|done|done|simpl; lia|]. simpl. tauto.
  - destruct (Z.eqb_spec v 0) as [->|Hv0]; simpl.
    + eapply inv_move; [done|done|auto|done|]. simpl. right. right. left. done.
    + eapply inv_move; [done|done|done|simpl; lia|]. simpl. tauto.
  - simpl. eapply inv_move; [done|done|auto| |by left]. by destruct (Z.eqb_spec v 0) as [->|].
  - eapply inv_move; [done|done|auto|done|by left].
  - eapply inv_move; [done|done|done|simpl; lia|]. simpl. tauto.
  - eapply inv_move; [done|done|done|simpl; lia|]. simpl. tauto.
  - eapply inv_move; [done|done|done|simpl; lia|]. simpl. tauto.
  - assert (v <> 0) as Hv0.
    { intros ->. pose proof (inv_held _ Hi) as Hh. simpl in Hh.
      pose proof (count_pos is_held _ _ _ E eq_refl). lia. }
    destruct (Z.eqb_spec v 2) as [->|Hv2]; simpl.
    + eapply inv_move; [done|done|auto|done|]. simpl. tauto.
    + eapply inv_move; [done|done|auto|simpl; destruct (Z.eqb_spec v 0); simpl; lia|]. simpl. tauto.
  - (* the wake: first the sleeper becomes runnable *)
    assert (i <> j) as Hij by congruence. rewrite list_insert_insert_ne by done.
    assert (inv (v, <[j := LXchg]> ts)) as Hi1.
    { eapply inv_move; [done|done|done|simpl; lia|]. simpl. tauto. }
    destruct Hi1 as [Hv1 Hh1 Hs1]. simpl in *.
    assert (<[j := LXchg]> ts !! i = Some UWake) as E' by by rewrite list_lookup_insert_ne.
    constructor; simpl; [done|rewrite (count_insert _ _ _ _ _ E'); simpl; lia|]. intros _. right.
    rewrite (count_insert _ _ _ _ _ E'), (count_insert _ _ _ _ _ Ej). simpl.
    pose proof (count_pos is_waker _ _ _ E eq_refl). lia.
  - destruct Hi as [_ Hh _]. simpl in *.
    constructor; simpl; [done|rewrite (count_insert _ _ _ _ _ E); simpl; lia|].
    rewrite (count_insert _ _ _ _ _ E). simpl. intros Hsl. exfalso.
    destruct (count_exists is_asleep ts) as (k & x & Hk & Hx); [lia|]. destruct x; try done.
    apply Hn. by eapply list_elem_of_lookup_2.
Qed.

Lemma inv_reachable n s : reachable n s -> inv s.
Proof.
  intros Hr. assert (inv (mutex_initial n)) as Hi by apply inv_initial. unfold reachable in Hr.
  revert Hi. induction Hr as [s|s1 s2 s3 Hst Hr IH]; [done|]. intros Hi. apply IH. by eapply inv_step.
Qed.

(** C14: mutual exclusion.  In every reachable state, of any number of threads
    and under any interleaving, at most one thread holds the mutex, and the lock
    variable is zero exactly when none does. *)
Theorem mutual_exclusion n v ts :
  reachable n (v, ts) ->
  (forall i j, ts !! i = Some Held -> ts !! j = Some Held -> i = j) /\
  (v = 0 <-> Held ∉ ts).
Proof.
  intros Hr. pose proof (inv_held _ (inv_reachable _ _ Hr)) as Hh. simpl in Hh. split.
  - intros i j Hi Hj. destruct (decide (i = j)) as [|Hne]; [done|exfalso].
    assert (1 <= count is_held (<[i := Out]> ts)) as H1.
    { apply (count_pos _ _ j Held); [by rewrite list_lookup_insert_ne|done]. }
    rewrite (count_insert _ _ _ _ _ Hi) in H1. simpl in H1. destruct (v =? 0); simpl in *; lia.
  - split.
    + intros -> [i Hi]%list_elem_of_lookup. pose proof (count_pos is_held _ _ _ Hi eq_refl). simpl in Hh. lia.
    + intros Hn. destruct (Z.eqb_spec v 0) as [|Hv]; [done|]. simpl in Hh.
      destruct (count_exists is_held ts) as (i & x & Hi & Hx); [lia|]. destruct Hn.
      apply list_elem_of_lookup. exists i. by destruct x.
Qed.

(** C15: no wake-up is lost.  Whenever a thread is asleep, some other thread
    holds the mutex marked as contended, so that its unlock will wake a
    sleeper, or is on its way to wake one or to take the lock. *)
Theorem no_lost_wakeup n v ts i :
  reachable n (v, ts) -> ts !! i = Some Asleep ->
  (v = 2 /\ exists j, ts !! j = Some Held) \/
  exists j, ts !! j = Some UWake \/ ts !! j = Some LXchg.
Proof.
  intros Hr Hi. destruct (inv_reachable _ _ Hr) as [_ Hh Hs]. simpl in *.
  pose proof (count_pos is_asleep _ _ _ Hi eq_refl) as Ha.
  destruct (Hs ltac:(lia)) as [->|Hw]; [left|right].
  - split; [done|]. destruct (count_exists is_held ts) as (j & x & Hj & Hx); [rewrite Hh; done|].
    exists j. by destruct x.
  - destruct (count_exists is_waker ts) as (j & x & Hj & Hx); [done|]. exists j. destruct x; auto; done.
Qed.

(** Two threads: one takes the lock, the other finds it taken and sleeps. *)
Lemma contended : reachable 2 (2, [Held; Asleep]).
Proof.
  eapply rtc_l; [by apply (s_enter 0 _ 0)|]. eapply rtc_l; [by apply (s_cas 0 _ 0)|].
  eapply rtc_l; [by apply (s_enter 1 _ 1)|]. eapply rtc_l; [by apply (s_cas 1 _ 1)|].
  eapply rtc_l; [by apply (s_xchg 1 _ 1)|]. eapply rtc_l; [by apply (s_sleep _ 1)|].
  apply rtc_refl.
Qed.

Lemma mutual_exclusion_witness :
  (forall i j, [Held; Asleep] !! i = Some Held -> [Held; Asleep] !! j = Some Held -> i = j) /\
  (2 = 0 <-> Held ∉ [Held; Asleep]).
Proof. apply (mutual_exclusion 2 2 [Held; Asleep]), contended. Defined.

Lemma no_lost_wakeup_witness :
  (2 = 2 /\ exists j, [Held; Asleep] !! j = Some Held) \/
  exists j, [Held; Asleep] !! j = Some UWake \/ [Held; Asleep] !! j = Some LXchg.
Proof. apply (no_lost_wakeup 2 2 [Held; Asleep] 1); [apply contended|reflexivity]. Defined.

End Mutex.

Module Barrier.

(** The flag bit of [b->current]. *)
Definition m : Z := 2 ^ 31.

(** Where a thread is: outside; arrived as number [c]; in the loop of the last
    arrival, having read [current] not at all, once ([o]) or twice ([o], [r]);
    spinning for the flag; about to decrement; about to reset. *)
Inductive pc : Type :=
  | Out | Arr (c : Z) | Ser | Ser1 (o : Z) | Ser2 (o r : Z) | Wait | Dec | Reset.

(** The value of [b->current], the arrivals of this round (a ghost), threads. *)
Definition barrier_state : Type := Z * Z * list pc.

Section Barrier.
(** [b->target] *)
Context (target : Z).

Definition arrive (cur : Z) : option (Z * pc) :=
  if Z.land cur m =? 0 then Some (u32 (cur + 1), Arr (u32 (cur + 1))) else None.
Definition compare (c : Z) : pc := if c =? target then Ser else Wait.
Definition serial_cas (cur o r : Z) : Z * pc :=
  if cur =? o then (Z.lor (u32 (r - 1)) m, Out) else (cur, Ser).
Definition leave (cur : Z) : Z * pc :=
  let c := u32 (cur - 1) in (c, if c =? m then Reset else Out).

Inductive barrier_step : barrier_state -> barrier_state -> Prop :=
  | b_arrive cur g ts i cur' p : ts !! i = Some Out -> arrive cur = Some (cur', p) ->
      barrier_step (cur, g, ts) (cur', g + 1, <[i := p]> ts)
  | b_compare cur g ts i c : ts !! i = Some (Arr c) ->
      barrier_step (cur, g, ts) (cur, g, <[i := compare c]> ts)
  | b_read1 cur g ts i : ts !! i = Some Ser -> barrier_step (cur, g, ts) (cur, g, <[i := Ser1 cur]> ts)
  | b_read2 cur g ts i o : ts !! i = Some (Ser1 o) ->
      barrier_step (cur, g, ts) (cur, g, <[i := Ser2 o cur]> ts)
  | b_cas cur g ts i o r : ts !! i = Some (Ser2 o r) ->
      barrier_step (cur, g, ts) ((serial_cas cur o r).1, g, <[i := (serial_cas cur o r).2]> ts)
  | b_see cur g ts i : ts !! i = Some Wait -> Z.land cur m <> 0 ->
      barrier_step (cur, g, ts) (cur, g, <[i := Dec]> ts)
  | b_leave cur g ts i : ts !! i = Some Dec ->
      barrier_step (cur, g, ts) ((leave cur).1, g, <[i := (leave cur).2]> ts)
  | b_reset cur g ts i : ts !! i = Some Reset -> barrier_step (cur, g, ts) (0, 0, <[i := Out]> ts).

Definition barrier_initial (n : nat) : barrier_state := (0, 0, replicate n Out).
Definition reachable (n : nat) : barrier_state -> Prop := rtc barrier_step (barrier_initial n).

Definition inside (p : pc) : bool := match p with Out | Reset => false | _ => true end.
Definition serial (p : pc) : bool :=
  match p with Arr c => c =? target | Ser | Ser1 _ | Ser2 _ _ => true | _ => false end.
Definition leaving (p : pc) : bool := match p with Dec => true | _ => false end.
Definition resetting (p : pc) : bool := match p with Reset => true | _ => false end.

(** What a thread has read before the flag is set. *)
Definition read_ok (cur : Z) (p : pc) : Prop :=
  match p with
  | Arr c => 1 <= c <= cur
  | Ser1 o => o <= cur
  | Ser2 o r => o <= r <= cur
  | _ => True
  end.

(** Before the flag is set [current] counts the threads inside, and exactly one
    of them is the last arrival once there are enough; afterwards it counts the
    threads that have not left yet. *)
Inductive inv : barrier_state -> Prop :=
  | gathering cur ts :
      0 <= cur < m -> cur = count inside ts -> count leaving ts = 0 -> count resetting ts = 0 ->
      count serial ts = Z.b2z (target <=? cur) -> Forall (read_ok cur) ts ->
      inv (cur, cur, ts)
  | releasing cur g ts :
      m <= cur -> cur - m = count inside ts -> count serial ts = 0 -> target <= g ->
      count resetting ts = Z.b2z (cur =? m) ->
      inv (cur, g, ts).

Lemma count_le {A} (P Q : A -> bool) l :
  (forall x, P x = true -> Q x = true) -> count P l <= count Q l.
Proof.
  intros H. induction l as [|x l IH]; unfold count in *; simpl; [lia|].
  destruct (P x) eqn:E; [rewrite (H x E); simpl; lia|]. destruct (Q x); simpl; lia.
Qed.

Lemma flag_clear cur : 0 <= cur < m -> Z.land cur m = 0.
Proof.
  intros Hc. apply Z.bits_inj'. intros k Hk. rewrite Z.land_spec, Z.bits_0. unfold m.
  rewrite Z.pow2_bits_eqb by lia. destruct (Z.eqb_spec 31 k) as [<-|]; [|apply andb_false_r].
  rewrite andb_true_r. apply Z.bits_above_log2; [lia|].
  destruct (decide (cur = 0)) as [->|]; [done|]. apply Z.log2_lt_pow2; [lia|]. apply Hc.
Qed.

Lemma flag_set x : 0 <= x < m -> Z.lor x m = x + m.
Proof. intros Hx. by rewrite Z.add_nocarry_lxor, Z.lxor_lor by by apply flag_clear. Qed.

Lemma flag_seen cur : 0 <= cur < m -> Z.land cur m <> 0 -> False.
Proof. intros Hc Hn. by apply Hn, flag_clear. Qed.

Lemma flag_arrive cur : m <= cur < 2 * m -> Z.land cur m <> 0.
Proof.
  intros Hc E. assert (Z.testbit (Z.land cur m) 31 = true) as H; [|by rewrite E, Z.bits_0 in H].
  rewrite Z.land_spec. unfold m. rewrite Z.pow2_bits_true, andb_true_r by lia.
  apply Z.testbit_true; [lia|]. unfold m in Hc. change (2 ^ 31) with 2147483648 in *. zdm.
Qed.

Lemma bar_inv_initial n : 2 <= target -> inv (barrier_initial n).
Proof.
  intros Ht. assert (forall P, P Out = false -> count P (replicate n Out) = 0) as H.
  { intros P HP. induction n; unfold count in *; simpl; [done|]. by rewrite HP. }
  apply gathering; rewrite ?H; try done.
  - by destruct (Z.leb_spec target 0); [lia|].
  - apply Forall_replicate. done.
Qed.

Context (two : 2 <= target).

Lemma read_ok_mono cur cur' p : cur <= cur' -> read_ok cur p -> read_ok cur' p.
Proof. destruct p; simpl; lia. Qed.

Ltac split_inv Hi E :=
  inversion Hi as [? ? Hc Hin Hlv Hrs Hser Hrd|? ? ? Hc Hin Hser Hg Hrs]; subst; clear Hi;
  pose proof (count_insert inside _ _ _ Out E) as Ki;
  lazymatch type of E with ?ts !! _ = _ => pose proof (count_nonneg inside ts) as Kn end.

(** An arriving thread is counted; once the flag is set it keeps new threads out. *)
Lemma bar_inv_arrive cur g ts i cur' p : Z.of_nat (length ts) < m -> inv (cur, g, ts) -> ts !! i = Some Out -> arrive cur = Some (cur', p) ->
  inv (cur', g + 1, <[i := p]> ts).
Proof using two.
  intros Hlen Hi E Ea. split_inv Hi E.
  - unfold arrive in Ea. rewrite flag_clear in Ea by done. simpl in Ea. simplify_eq.
    assert (count inside (<[i := Arr 0]> ts) <= Z.of_nat (length (<[i := Arr 0]> ts))) as Kl by apply count_length.
    rewrite length_insert, (count_insert _ _ _ _ _ E) in Kl. simpl in Kl.
    set (n := count inside ts) in *.
    assert (u32 (n + 1) = n + 1) as Hu by (apply uwrap_id; unfold in_u, m in *; lia). rewrite Hu.
    apply gathering; rewrite ?(count_insert _ _ _ _ _ E); simpl; try lia.
    + fold n. rewrite Hser. destruct (Z.leb_spec target n), (Z.leb_spec target (n + 1)), (Z.eqb_spec (n + 1) target); simpl; lia.
    + apply list.Forall_insert; [|simpl; lia]. revert Hrd. apply List.Forall_impl. intros p. apply read_ok_mono. lia.
  - unfold arrive in Ea. pose proof (count_length inside ts). rewrite (proj2 (Z.eqb_neq _ 0)) in Ea; [done|].
    apply flag_arrive. lia.
Qed.

Lemma bar_inv_compare cur g ts i c : Z.of_nat (length ts) < m -> inv (cur, g, ts) -> ts !! i = Some (Arr c) ->
  inv (cur, g, <[i := compare c]> ts).
Proof using two.
  intros Hlen Hi E. split_inv Hi E.
  - unfold compare. pose proof (list.Forall_lookup_1 _ _ _ _ Hrd E) as Hr. simpl in Hr.
    apply gathering; rewrite ?(count_insert _ _ _ _ _ E); simpl;
      try (destruct (Z.eqb_spec c target); simpl; lia).
    apply list.Forall_insert; [done|]. by destruct (c =? target).
  - unfold compare. assert (c <> target) as Hne.
    { intros ->. pose proof (count_pos serial _ _ _ E (Z.eqb_refl _)). lia. }
    apply releasing; rewrite ?(count_insert _ _ _ _ _ E); simpl; rewrite ?(proj2 (Z.eqb_neq c target) Hne); simpl; lia.
Qed.

Lemma bar_inv_read1 cur g ts i : Z.of_nat (length ts) < m -> inv (cur, g, ts) -> ts !! i = Some Ser ->
  inv (cur, g, <[i := Ser1 cur]> ts).
Proof using two.
  intros Hlen Hi E. split_inv Hi E.
  - apply gathering; rewrite ?(count_insert _ _ _ _ _ E); simpl; try lia.
    apply list.Forall_insert; [done|simpl; lia].
  - pose proof (count_pos serial _ _ _ E eq_refl). lia.
Qed.

Lemma bar_inv_read2 cur g ts i o : Z.of_nat (length ts) < m -> inv (cur, g, ts) -> ts !! i = Some (Ser1 o) ->
  inv (cur, g, <[i := Ser2 o cur]> ts).
Proof using two.
  intros Hlen Hi E. split_inv Hi E.
  - pose proof (list.Forall_lookup_1 _ _ _ _ Hrd E) as Hr. simpl in Hr.
    apply gathering; rewrite ?(count_insert _ _ _ _ _ E); simpl; try lia.
    apply list.Forall_insert; [done|simpl; lia].
  - pose proof (count_pos serial _ _ _ E eq_refl). lia.
Qed.

(** The last arrival sets the flag. *)
Lemma bar_inv_cas cur g ts i o r : Z.of_nat (length ts) < m -> inv (cur, g, ts) -> ts !! i = Some (Ser2 o r) ->
  inv ((serial_cas cur o r).1, g, <[i := (serial_cas cur o r).2]> ts).
Proof using two.
  intros Hlen Hi E. split_inv Hi E.
  - pose proof (list.Forall_lookup_1 _ _ _ _ Hrd E) as Hr. simpl in Hr.
    pose proof (count_pos serial _ _ _ E eq_refl) as Hs1. rewrite Hser in Hs1.
    destruct (Z.leb_spec target (count inside ts)) as [Hle|]; [|simpl in Hs1; lia].
    unfold serial_cas. set (n := count inside ts) in *. destruct (Z.eqb_spec n o) as [Heq|Hne]; simpl.
    + assert (r = n) as -> by lia.
      rewrite (uwrap_id 32 (n - 1)), flag_set by (unfold in_u, m in *; lia).
      apply releasing; rewrite ?(count_insert _ _ _ _ _ E); simpl; rewrite ?Hser; simpl; try lia.
      rewrite (proj2 (Z.eqb_neq _ m)) by lia. simpl. lia.
    + apply gathering; rewrite ?(count_insert _ _ _ _ _ E); simpl; fold n; rewrite ?(proj2 (Z.leb_le target n) Hle); simpl; try lia.
      * simpl in Hser. lia.
      * by apply list.Forall_insert.
  - pose proof (count_pos serial _ _ _ E eq_refl). lia.
Qed.

Lemma bar_inv_see cur g ts i : Z.of_nat (length ts) < m -> inv (cur, g, ts) -> ts !! i = Some Wait -> Z.land cur m <> 0 ->
  inv (cur, g, <[i := Dec]> ts).
Proof using two.
  intros Hlen Hi E Hfl. split_inv Hi E.
  - exfalso. by eapply flag_seen.
  - apply releasing; rewrite ?(count_insert _ _ _ _ _ E); simpl; lia.
Qed.

(** A waiting thread leaves. *)
Lemma bar_inv_leave cur g ts i : Z.of_nat (length ts) < m -> inv (cur, g, ts) -> ts !! i = Some Dec ->
  inv ((leave cur).1, g, <[i := (leave cur).2]> ts).
Proof using two.
  intros Hlen Hi E. split_inv Hi E.
  - pose proof (count_pos leaving _ _ _ E eq_refl). lia.
  - pose proof (count_pos inside _ _ _ E eq_refl) as Hi1. pose proof (count_length inside ts).
    unfold leave. rewrite (uwrap_id 32 (cur - 1)) by (unfold in_u, m in *; lia). simpl.
    rewrite (proj2 (Z.eqb_neq cur m)) in Hrs by lia. simpl in Hrs.
    apply releasing; rewrite ?(count_insert _ _ _ _ _ E); simpl;
      destruct (Z.eqb_spec (cur - 1) m); simpl; lia.
Qed.

(** The last thread to leave resets the barrier. *)
Lemma bar_inv_reset cur g ts i : Z.of_nat (length ts) < m -> inv (cur, g, ts) -> ts !! i = Some Reset ->
  inv (0, 0, <[i := Out]> ts).
Proof using two.
  intros Hlen Hi E. split_inv Hi E.
  - pose proof (count_pos resetting _ _ _ E eq_refl). lia.
  - pose proof (count_pos resetting _ _ _ E eq_refl) as Hr1. rewrite Hrs in Hr1.
    destruct (Z.eqb_spec cur m) as [->|]; [|simpl in Hr1; lia]. simpl in Hrs.
    assert (count inside ts = 0) as H0 by lia.
    pose proof (count_le leaving inside ts ltac:(by intros [])) as Hl.
    pose proof (count_nonneg leaving ts).
    apply gathering; rewrite ?(count_insert _ _ _ _ _ E); simpl; try (unfold m; lia).
    + rewrite (proj2 (Z.leb_gt target 0)) by lia. simpl. lia.
    + apply list.Forall_insert; [|done]. apply list.Forall_lookup_2. intros j p Hj.
      destruct (inside p) eqn:Ep; [|by destruct p]. pose proof (count_pos _ _ _ _ Hj Ep). lia.
Qed.

Lemma bar_inv_step cur g ts s' :
  Z.of_nat (length ts) < m -> inv (cur, g, ts) -> barrier_step (cur, g, ts) s' -> inv s'.
Proof using two.
  intros Hlen Hi Hst. inversion Hst; subst;
    eauto using bar_inv_arrive, bar_inv_compare, bar_inv_read1, bar_inv_read2, bar_inv_cas, bar_inv_see, bar_inv_leave, bar_inv_reset.
Qed.

Lemma step_length cur g ts cur' g' ts' :
  barrier_step (cur, g, ts) (cur', g', ts') -> length ts' = length ts.
Proof. inversion 1; subst; apply length_insert. Qed.

Lemma bar_inv_reachable n s : Z.of_nat n < m -> reachable n s -> inv s /\ length s.2 = n.
Proof using two.
  intros Hn Hr. assert (inv (barrier_initial n) /\ length (barrier_initial n).2 = n) as Hi.
  { split; [by apply bar_inv_initial|apply length_replicate]. }
  unfold reachable in Hr. revert Hi. induction Hr as [s|s1 s2 s3 Hst Hr IH]; [done|].
  intros [Hi Hl]. apply IH. destruct s1 as [[cur g] ts], s2 as [[cur' g'] ts']. simpl in *. split.
  - eapply bar_inv_step; [|exact Hi|exact Hst]. lia.
  - by rewrite (step_length _ _ _ _ _ _ Hst).
Qed.

(** No thread passes the barrier early.  Whenever a thread has seen the
    flag, is resetting the barrier, or is the one that sets the flag, at least
    [target] threads have arrived in this round. *)
Theorem barrier_safe n cur g ts i p :
  Z.of_nat n < m -> reachable n (cur, g, ts) -> ts !! i = Some p ->
  p = Dec \/ p = Reset \/ p = Ser \/ (exists o, p = Ser1 o) \/ (exists o r, p = Ser2 o r) ->
  target <= g.
Proof using two.
  intros Hn Hr Hi Hp. destruct (bar_inv_reachable _ _ Hn Hr) as [Hinv _].
  inversion Hinv as [? ? Hc Hin Hlv Hrs Hser Hrd|]; subst; [|done].
  destruct Hp as [->|[->|Hp]].
  - pose proof (count_pos leaving _ _ _ Hi eq_refl). lia.
  - pose proof (count_pos resetting _ _ _ Hi eq_refl). lia.
  - assert (serial p = true) as Hs by (destruct Hp as [->|[[o ->]|(o & r & ->)]]; done).
    pose proof (count_pos serial _ _ _ Hi Hs) as Hs1. rewrite Hser in Hs1.
    destruct (Z.leb_spec target (count inside ts)); [done|simpl in Hs1; lia].
Qed.
End Barrier.

(** Two threads meet at a barrier for two; the first has seen the flag. *)
Lemma meeting : reachable 2 2 (m + 1, 2, [Dec; Out]).
Proof.
  eapply rtc_l; [by apply (b_arrive 2 0 0 _ 0)|]. eapply rtc_l; [by apply (b_compare 2 1 1 _ 0 1)|].
  eapply rtc_l; [by apply (b_arrive 2 1 1 _ 1)|]. eapply rtc_l; [by apply (b_compare 2 2 2 _ 1 2)|].
  eapply rtc_l; [by apply (b_read1 2 2 2 _ 1)|]. eapply rtc_l; [by apply (b_read2 2 2 2 _ 1 2)|].
  eapply rtc_l; [by apply (b_cas 2 2 2 _ 1 2 2)|]. eapply rtc_l; [by apply (b_see 2 (m + 1) 2 _ 0)|].
  apply rtc_refl.
Qed.

Lemma barrier_safe_witness : 2 <= 2.
Proof.
  apply (barrier_safe 2 ltac:(lia) 2 (m + 1) 2 [Dec; Out] 0 Dec);
    [reflexivity|apply meeting|reflexivity|by left].
Defined.

(** a barrier for one thread works once: the first caller returns and
    leaves the flag set with nobody to clear it, and no step is possible from
    there, every later call spins for ever. *)
Theorem barrier_one_stuck :
  reachable 1 1 (m, 1, [Out]) /\ forall s, ~ barrier_step 1 (m, 1, [Out]) s.
Proof.
  split.
  - eapply rtc_l; [by apply (b_arrive 1 0 0 _ 0)|]. eapply rtc_l; [by apply (b_compare 1 1 1 _ 0 1)|].
    eapply rtc_l; [by apply (b_read1 1 1 1 _ 0)|]. eapply rtc_l; [by apply (b_read2 1 1 1 _ 0 1)|].
    eapply rtc_l; [by apply (b_cas 1 1 1 _ 0 1 1)|]. apply rtc_refl.
  - intros s Hst. inversion Hst as [? ? ? i ? ? E Ea|? ? ? i ? E|? ? ? i E|? ? ? i ? E|? ? ? i ? ? E
      |? ? ? i E _|? ? ? i E|? ? ? i E]; subst; destruct i as [|[|i]]; simpl in E; try done.
Qed.
End Barrier.
