(* ===== verification/LQsort.v ===== *)
(** * qsort of litc.c

    [_qsort] sorts an array of [esz]-byte elements with a caller's comparison
    function, partitioning through a scratch buffer of [elms] elements and one
    more for the pivot.  The comparison function is a parameter that reads
    memory.  The products of sizes are those of memory that exists, so they are
    not wrapped; [qsort] itself computes on [size_t]. *)

From S2P Require Import Prelude CMem LBase LString LSyscall DList LAlloc.
From Stdlib Require Import Sorting.

Section Qsort.
(** [cmp(p, q)] *)
Context (cmp : Z -> Z -> M mem Z).

(** The loop that distributes the elements behind the first to the two ends of
    the scratch buffer; it returns [l] and [h]. *)
Definition partition (elms esz base scratch pivot : Z) : M mem (Z * Z) :=
  loop (S (Z.to_nat elms)) (fun '(i, cur, lh, hh, l, h) =>
    if i <? elms then
      c ← cmp cur pivot;
      if c <? 0 then
        _ ← memmove lh cur esz;
        mret (inl (i + 1, cur + esz, lh + esz, hh, l + 1, h))
      else
        _ ← memmove hh cur esz;
        mret (inl (i + 1, cur + esz, lh, hh - esz, l, h + 1))
    else mret (inr (l, h)))
    (1, base + esz, scratch, scratch + (elms - 1) * esz, 0, 0).

(** The recursion depth is at most the number of elements. *)
Fixpoint _qsort (fuel : nat) (base elms esz scratch pivot : Z) : M mem unit :=
  match fuel with
  | O => spin
  | S fuel =>
      if elms <=? 1 then mret tt
      else if elms =? 2 then
        c ← cmp base (base + esz);
        if 0 <? c then
          _ ← memmove pivot base esz;
          _ ← memmove base (base + esz) esz;
          _ ← memmove (base + esz) pivot esz;
          mret tt
        else mret tt
      else
        _ ← memmove pivot base esz;
        '(l, h) ← partition elms esz base scratch pivot;
        _ ← memmove base scratch (l * esz);
        let piv := base + l * esz in
        _ ← memmove piv pivot esz;
        let phigh := piv + esz in
        let tail := elms - h in
        _ ← memmove phigh (scratch + tail * esz) (h * esz);
        _ ← _qsort fuel base l esz scratch pivot;
        _qsort fuel phigh h esz scratch pivot
  end.

(** ** The sort on lists *)

Context (c : list byte -> list byte -> Z).

Definition lows (p : list byte) (xs : list (list byte)) : list (list byte) :=
  List.filter (fun x => c x p <? 0) xs.
(** The high end is filled from the back. *)
Definition highs (p : list byte) (xs : list (list byte)) : list (list byte) :=
  rev (List.filter (fun x => negb (c x p <? 0)) xs).

Fixpoint qs (fuel : nat) (xs : list (list byte)) : list (list byte) :=
  match fuel with
  | O => xs
  | S fuel =>
      match xs with
      | [] | [_] => xs
      | [x; y] => if 0 <? c x y then [y; x] else xs
      | p :: rest => qs fuel (lows p rest) ++ p :: qs fuel (highs p rest)
      end
  end.

Lemma lows_highs p xs : lows p xs ++ highs p xs ≡ₚ xs.
Proof.
  unfold lows, highs. rewrite <- Permutation_rev. induction xs as [|x xs IH]; simpl; [done|].
  destruct (c x p <? 0); simpl; [by rewrite IH|]. by rewrite <- Permutation_middle, IH.
Qed.

Lemma lows_highs_length p xs : (length (lows p xs) + length (highs p xs) = length xs)%nat.
Proof. rewrite <- length_app. by rewrite lows_highs. Qed.

Lemma qs_perm fuel xs : qs fuel xs ≡ₚ xs.
Proof.
  revert xs. induction fuel as [|fuel IH]; intros [|p [|y [|z xs]]]; cbn [qs]; try done.
  - destruct (0 <? c p y); [apply perm_swap|done].
  - rewrite !IH, <- Permutation_middle. constructor. apply lows_highs.
Qed.

(** The comparison is the sign function of a total preorder. *)
Definition cle (x y : list byte) : Prop := c x y <= 0.

Section Sorted.
Context (c_total : forall x y, 0 <= c x y -> cle y x).
Context (c_trans : forall x y z, cle x y -> cle y z -> cle x z).

Lemma lows_le p xs x : x ∈ lows p xs -> cle x p.
Proof. intros [_ Hx%Z.ltb_lt]%list_elem_of_In%List.filter_In. unfold cle. lia. Qed.

Lemma highs_ge p xs x : x ∈ highs p xs -> cle p x.
Proof using c_total.
  intros [_ Hx%negb_true_iff%Z.ltb_ge]%list_elem_of_In%in_rev%List.filter_In. by apply c_total.
Qed.

Lemma sorted_app (l1 l2 : list (list byte)) p :
  StronglySorted cle l1 -> StronglySorted cle l2 ->
  (forall x, x ∈ l1 -> cle x p) -> (forall x, x ∈ l2 -> cle p x) -> StronglySorted cle (l1 ++ p :: l2).
Proof using c_trans.
  intros S1 S2 H1 H2. induction S1 as [|x l1 S1 IH Hx]; simpl.
  - constructor; [done|]. apply list.Forall_forall. done.
  - constructor; [apply IH; intros y Hy; apply H1; by constructor|].
    apply list.Forall_app. split; [done|]. assert (cle x p) as Hxp by (apply H1; constructor).
    constructor; [done|]. apply list.Forall_forall. intros y Hy. eauto.
Qed.

Lemma qs_sorted fuel xs : (length xs <= fuel)%nat -> StronglySorted cle (qs fuel xs).
Proof using c_total c_trans.
  revert xs. induction fuel as [|fuel IH]; intros [|p [|y [|z xs]]] Hf; cbn [length] in Hf; try lia; cbn [qs].
  1, 2, 3: repeat constructor.
  - destruct (Z.ltb_spec 0 (c p y)); repeat constructor; [apply c_total; lia|done].
  - pose proof (lows_highs_length p (y :: z :: xs)) as Hl. cbn [length] in Hl.
    apply sorted_app; [apply IH; lia|apply IH; lia|..]; intros x; rewrite qs_perm;
      [apply lows_le|apply highs_ge].
Qed.
End Sorted.

(** ** The sort in memory *)

Section Memory.
Context (e : nat).
Context (cmp_reads : forall m p q x y, bytes_at m p x -> bytes_at m q y ->
  length x = e -> length y = e -> cmp p q m = Ret (c x y) m).
(** The scratch buffer: [N] elements, then the pivot. *)
Context (N scratch : Z).
Let E : Z := Z.of_nat e.
Let pivot : Z := scratch + N * E.

Definition elems (xs : list (list byte)) : Prop := Forall (fun x => length x = e) xs.

Lemma concat_len xs : elems xs -> Z.of_nat (length (concat xs)) = Z.of_nat (length xs) * E.
Proof using.
  clear pivot N scratch. unfold E. induction 1 as [|x xs Hx _ IH]; [done|]. simpl. rewrite length_app, Hx. lia.
Qed.

Lemma elems_perm xs ys : xs ≡ₚ ys -> elems xs -> elems ys.
Proof. intros Hp. unfold elems. by rewrite Hp. Qed.

Lemma memmove_elem m dst src x :
  bytes_at m src x -> length x = e -> mapped m dst E -> memmove dst src E m = Ret dst (mwrite m dst x).
Proof. intros Hs Hx Hd. unfold E in *. rewrite <- Hx in *. by apply memmove_ret. Qed.

Lemma memmove_elems m dst src xs k :
  bytes_at m src (concat xs) -> elems xs -> Z.of_nat (length xs) = k -> mapped m dst (k * E) ->
  memmove dst src (k * E) m = Ret dst (mwrite m dst (concat xs)).
Proof. intros Hs Hx <- Hd. rewrite <- concat_len in * by done. by apply memmove_ret. Qed.

(** Nothing changes outside the scratch buffer proper. *)
Definition frame_out (m m' : mem) (p n : Z) : Prop :=
  forall a, a < p \/ p + n <= a -> m' !! a = m !! a.

Lemma frame_out_bytes m m' p n q l :
  frame_out m m' p n -> bytes_at m q l -> q + Z.of_nat (length l) <= p \/ p + n <= q -> bytes_at m' q l.
Proof.
  intros Hf Hb Hd. rewrite bytes_at_lookup in *. intros i b Hi. specialize (Hb i b Hi).
  rewrite Hf; [done|]. apply lookup_lt_Some in Hi. lia.
Qed.

Lemma partition_ret n x rs i cur lo hi m :
  elems rs -> elems lo -> elems hi -> length x = e ->
  n = i + Z.of_nat (length rs) -> i = 1 + Z.of_nat (length lo) + Z.of_nat (length hi) -> n <= N ->
  bytes_at m cur (concat rs) -> bytes_at m pivot x -> bytes_at m scratch (concat lo) ->
  bytes_at m (scratch + (n - Z.of_nat (length hi)) * E) (concat hi) ->
  mapped m scratch (N * E) ->
  cur + Z.of_nat (length rs) * E <= scratch \/ scratch + (N + 1) * E <= cur ->
  forall fuel, (length rs < fuel)%nat ->
  exists m', loop fuel (fun '(i, cur, lh, hh, l, h) =>
      if i <? n then
        c ← cmp cur pivot;
        if c <? 0 then _ ← memmove lh cur E; mret (inl (i + 1, cur + E, lh + E, hh, l + 1, h))
        else _ ← memmove hh cur E; mret (inl (i + 1, cur + E, lh, hh - E, l, h + 1))
      else mret (inr (l, h)))
      (i, cur, scratch + Z.of_nat (length lo) * E, scratch + (n - 1 - Z.of_nat (length hi)) * E,
       Z.of_nat (length lo), Z.of_nat (length hi)) m
    = Ret (Z.of_nat (length (lo ++ lows x rs)), Z.of_nat (length (highs x rs ++ hi))) m' /\
    frame_out m m' scratch (n * E) /\ mapped m' scratch (N * E) /\
    bytes_at m' scratch (concat (lo ++ lows x rs)) /\
    bytes_at m' (scratch + (n - Z.of_nat (length (highs x rs ++ hi))) * E) (concat (highs x rs ++ hi)).
Proof using cmp_reads.
  intros Hrs. revert i cur lo hi m. assert (0 <= E) as HE by (unfold E; lia).
  induction Hrs as [|y rs Hy Hrs IH]; intros i cur lo hi m Hlo Hhi Hx Hn Hi HN Hcur Hpiv Hblo Hbhi Hmap Hdj
    [|fuel] Hf; cbn [length] in Hf, Hn; try lia; rewrite loop_S; cbn beta iota.
  { rewrite (proj2 (Z.ltb_ge i n)) by lia. exists m. rewrite app_nil_r. simpl. by split_and!. }
  rewrite (proj2 (Z.ltb_lt i n)) by lia. simpl concat in Hcur. apply bytes_at_app in Hcur as [Hc1 Hc2].
  erewrite bind_ret by by eapply cmp_reads. cbn beta iota.
  set (nl := Z.of_nat (length lo)) in *. set (nh := Z.of_nat (length hi)) in *.
  set (nr := Z.of_nat (length rs)) in *. cbn [length] in Hdj.
  assert (Z.of_nat (S (length rs)) = nr + 1) as Hnr by lia. rewrite Hnr in *.
  assert (0 <= nl /\ 0 <= nh /\ 0 <= nr) as (P1 & P2 & P3) by lia.
  assert (Z.of_nat (length y) = E) as HyE by (unfold E; lia). rewrite HyE in Hc2.
  pose proof (concat_len lo Hlo) as Llo. pose proof (concat_len hi Hhi) as Lhi.
  pose proof (concat_len rs Hrs) as Lrs. fold nl in Llo. fold nh in Lhi. fold nr in Lrs.
  assert (0 <= nl * E /\ 0 <= nh * E /\ 0 <= nr * E) as (Q1 & Q2 & Q3) by (split_and!; nia).
  assert ((nl + nh + nr + 2) * E <= N * E) as QN by (apply Z.mul_le_mono_nonneg_r; lia).
  assert (n = nl + nh + nr + 2) as En by lia. clear Hn. subst n.
  assert (bytes_at m pivot x) as Hpiv' by done. unfold pivot in Hpiv'.
  simpl List.filter. unfold lows, highs. cbn [List.filter]. fold (lows x rs).
  destruct (c y x <? 0) eqn:Ec.
  - erewrite bind_ret by (apply (memmove_elem _ _ _ y Hc1 Hy); eapply mapped_le; [exact Hmap|lia..]).
    cbn beta iota. munfold.
    set (m1 := mwrite m (scratch + nl * E) y).
    destruct (IH (i + 1) (cur + E) (lo ++ [y]) hi m1) with (fuel := fuel) as (m' & R1 & R2 & R3 & R4 & R5);
      try done; try lia.
    + apply list.Forall_app. split; [done|]. by constructor.
    + rewrite length_app. simpl. lia.
    + apply bytes_at_mwrite_out; [done|]. rewrite HyE, Lrs. lia.
    + apply bytes_at_mwrite_out; [done|]. rewrite HyE, Hx. fold E. unfold pivot. lia.
    + rewrite concat_app. simpl. rewrite app_nil_r. apply bytes_at_app. split.
      * apply bytes_at_mwrite_out; [done|]. rewrite HyE, Llo. lia.
      * rewrite Llo. apply bytes_at_mwrite.
    + apply bytes_at_mwrite_out; [done|]. rewrite HyE, Lhi. lia.
    + by apply mapped_mwrite.
    + exists m'. rewrite length_app in R1. cbn [length] in R1.
      replace (Z.of_nat (length lo + 1)) with (nl + 1) in R1 by lia.
      replace ((nl + 1) * E) with (nl * E + E) in R1 by lia. rewrite Z.add_assoc in R1.
      rewrite <- app_assoc in *. simpl app in *. fold (highs x rs).
      split_and!; [exact R1| |done|done|done].
      intros a Ha. rewrite (R2 a Ha). apply mwrite_out. rewrite HyE. lia.
  - erewrite bind_ret by (apply (memmove_elem _ _ _ y Hc1 Hy); eapply mapped_le; [exact Hmap|lia..]).
    cbn beta iota. munfold.
    set (m1 := mwrite m (scratch + (nl + nh + nr + 2 - 1 - nh) * E) y).
    destruct (IH (i + 1) (cur + E) lo (y :: hi) m1) with (fuel := fuel) as (m' & R1 & R2 & R3 & R4 & R5);
      try done; try lia.
    + by constructor.
    + cbn [length]. lia.
    + apply bytes_at_mwrite_out; [done|]. rewrite HyE, Lrs. lia.
    + apply bytes_at_mwrite_out; [done|]. rewrite HyE, Hx. fold E. unfold pivot. lia.
    + apply bytes_at_mwrite_out; [done|]. rewrite HyE, Llo. lia.
    + cbn [concat length]. replace (Z.of_nat (S (length hi))) with (nh + 1) by lia. apply bytes_at_app.
      replace (nl + nh + nr + 2 - (nh + 1)) with (nl + nh + nr + 2 - 1 - nh) by lia. split.
      * apply bytes_at_mwrite.
      * rewrite HyE. replace (scratch + (nl + nh + nr + 2 - 1 - nh) * E + E)
          with (scratch + (nl + nh + nr + 2 - nh) * E) by lia.
        apply bytes_at_mwrite_out; [done|]. rewrite HyE, Lhi. lia.
    + by apply mapped_mwrite.
    + exists m'. cbn [length] in R1. replace (Z.of_nat (S (length hi))) with (nh + 1) in R1 by lia.
      replace (scratch + (nl + nh + nr + 2 - 1 - (nh + 1)) * E)
        with (scratch + (nl + nh + nr + 2 - 1 - nh) * E - E) in R1 by lia.
      cbn [negb rev]. rewrite <- app_assoc. simpl app. fold (highs x rs).
      split_and!; [exact R1| |done|done|done].
      intros a Ha. rewrite (R2 a Ha). apply mwrite_out. rewrite HyE. lia.
Qed.

(** Nothing changes outside the array and the scratch buffer with the pivot. *)
Definition frame2 (m m' : mem) (base len : Z) : Prop :=
  forall a, a < base \/ base + len <= a -> a < scratch \/ scratch + (N + 1) * E <= a ->
    m' !! a = m !! a.

Definition apart (base len : Z) : Prop :=
  base + len <= scratch \/ scratch + (N + 1) * E <= base.

Lemma frame2_bytes m m' base len q l :
  frame2 m m' base len -> bytes_at m q l -> q + Z.of_nat (length l) <= base \/ base + len <= q ->
  apart q (Z.of_nat (length l)) -> bytes_at m' q l.
Proof.
  intros Hf Hb Hd Ha. rewrite bytes_at_lookup in *. intros i b Hi. specialize (Hb i b Hi).
  apply lookup_lt_Some in Hi. unfold apart in Ha. rewrite Hf; [done|lia..].
Qed.

(** The two-element case. *)
Lemma swap_ret m base x y :
  length x = e -> length y = e -> bytes_at m base (x ++ y) -> 0 <= N ->
  mapped m scratch ((N + 1) * E) -> apart base (2 * E) ->
  exists m', (_ ← memmove pivot base E; _ ← memmove base (base + E) E;
              _ ← memmove (base + E) pivot E; mret tt) m = Ret tt m' /\
    bytes_at m' base (y ++ x) /\ mapped m' scratch ((N + 1) * E) /\ frame2 m m' base (2 * E).
Proof.
  intros Hx Hy Hb HN Hm Hap. assert (0 <= E) as HE by (unfold E; lia). assert (0 <= N * E) as HNE by nia.
  apply bytes_at_app in Hb as [Hbx Hby].
  assert (Z.of_nat (length x) = E) as Lx by (unfold E; lia).
  assert (Z.of_nat (length y) = E) as Ly by (unfold E; lia). rewrite Lx in Hby.
  assert (mapped m base E) as Mb by (rewrite <- Lx; by apply bytes_at_mapped).
  assert (mapped m (base + E) E) as Mb' by (rewrite <- Ly at 2; by apply bytes_at_mapped).
  unfold apart in Hap. unfold pivot in *.
  erewrite bind_ret; [|apply (memmove_elem _ _ _ x Hbx Hx); eapply mapped_le; [exact Hm|lia..]].
  cbn beta iota. set (m1 := mwrite m (scratch + N * E) x).
  erewrite bind_ret; [|apply (memmove_elem m1 _ _ y); [|done|by apply mapped_mwrite];
    apply bytes_at_mwrite_out; [done|rewrite Lx, Ly; lia]].
  cbn beta iota. set (m2 := mwrite m1 base y).
  erewrite bind_ret; [|apply (memmove_elem m2 _ _ x); [|done|by do 2 apply mapped_mwrite];
    apply bytes_at_mwrite_out; [apply bytes_at_mwrite|rewrite Lx, Ly; lia]].
  eexists. split; [done|]. split_and!.
  - apply bytes_at_app. rewrite Ly. split; [|apply bytes_at_mwrite].
    apply bytes_at_mwrite_out; [apply bytes_at_mwrite|lia].
  - by do 3 apply mapped_mwrite.
  - intros a Ha1 Ha2. unfold m2, m1. rewrite !mwrite_out; [done|rewrite ?Lx, ?Ly; lia..].
Qed.

(** One level of the sort: the array becomes low part, pivot, high part. *)
Lemma spread_ret m base p rest :
  let n := Z.of_nat (S (length rest)) in
  length p = e -> elems rest -> n <= N -> bytes_at m base (concat (p :: rest)) ->
  mapped m scratch ((N + 1) * E) -> apart base (n * E) ->
  let l := Z.of_nat (length (lows p rest)) in
  let h := Z.of_nat (length (highs p rest)) in
  exists m1 m2, memmove pivot base E m = Ret pivot m1 /\
    partition n E base scratch pivot m1 = Ret (l, h) m2 /\
    exists m3 m4 m5, memmove base scratch (l * E) m2 = Ret base m3 /\
      memmove (base + l * E) pivot E m3 = Ret (base + l * E) m4 /\
      memmove (base + l * E + E) (scratch + (n - h) * E) (h * E) m4 = Ret (base + l * E + E) m5 /\
      bytes_at m5 base (concat (lows p rest ++ p :: highs p rest)) /\
      mapped m5 scratch ((N + 1) * E) /\ frame2 m m5 base (n * E).
Proof using cmp_reads.
  intros n Hp Hrest HnN Hb Hm Hap l h. assert (0 <= E) as HE by (unfold E; lia).
  pose proof (lows_highs_length p rest) as Hlh. assert (l + h + 1 = n) as En by lia.
  assert (0 <= l /\ 0 <= h) as [Pl Ph] by lia. clearbody n.
  assert (0 <= l * E /\ 0 <= h * E) as [Ql Qh] by (split; nia).
  assert (n * E <= N * E) as QN by (apply Z.mul_le_mono_nonneg_r; lia).
  assert (n * E = l * E + h * E + E) as Qn by lia.
  assert (elems (lows p rest ++ highs p rest)) as [El Eh]%list.Forall_app.
  { eapply elems_perm; [symmetry; apply lows_highs|done]. }
  assert (Z.of_nat (length p) = E) as Lp by (unfold E; lia).
  assert (Z.of_nat (length (concat (lows p rest))) = l * E) as Ll by by apply concat_len.
  assert (Z.of_nat (length (concat (highs p rest))) = h * E) as Lh by by apply concat_len.
  assert (Z.of_nat (length (concat rest)) = n * E - E) as Lr by (rewrite concat_len by done; nia).
  simpl concat in Hb. apply bytes_at_app in Hb as [Hbp Hbr]. rewrite Lp in Hbr.
  assert (mapped m base (n * E)) as Mb.
  { replace (n * E) with (E + (n * E - E)) by lia. apply mapped_app; [lia|lia|].
    apply bytes_at_mapped in Hbp, Hbr. rewrite Lp in Hbp. by rewrite Lr in Hbr. }
  unfold apart in Hap. set (m1 := mwrite m pivot p). exists m1.
  destruct (partition_ret n p rest 1 (base + E) [] [] m1) with (fuel := S (Z.to_nat n))
    as (m2 & R1 & R2 & R3 & R4 & R5).
  { done. } { constructor. } { constructor. } { done. } { simpl. lia. } { done. } { done. }
  { apply bytes_at_mwrite_out; [done|]. rewrite Lp, Lr. unfold pivot. lia. }
  { apply bytes_at_mwrite. } { done. } { done. }
  { apply mapped_mwrite. eapply mapped_le; [exact Hm|lia..]. }
  { replace (Z.of_nat (length rest) * E) with (n * E - E) by (rewrite <- Lr, concat_len by done; lia). lia. }
  { lia. }
  rewrite app_nil_r in R1, R5. simpl app in R1, R4. fold l in R1. fold h in R1, R5. exists m2.
  split_and!.
  { apply memmove_elem; [done|done|]. eapply mapped_le; [exact Hm|unfold pivot; lia..]. }
  { unfold partition. rewrite Z.mul_0_l, Z.add_0_r in R1. rewrite Z.sub_0_r in R1. exact R1. }
  assert (bytes_at m2 pivot p) as Hp2.
  { eapply frame_out_bytes; [exact R2|apply bytes_at_mwrite|]. rewrite Lp. unfold pivot. lia. }
  assert (mapped m2 base (n * E)) as Mb2.
  { intros a Ha. rewrite R2 by lia. apply mapped_mwrite with (n := n * E) (p := base); [done|lia]. }
  set (m3 := mwrite m2 base (concat (lows p rest))).
  set (m4 := mwrite m3 (base + l * E) p).
  set (m5 := mwrite m4 (base + l * E + E) (concat (highs p rest))).
  exists m3, m4, m5. split_and!.
  - apply memmove_elems; [done|done|done|]. eapply mapped_le; [exact Mb2|lia..].
  - apply memmove_elem; [|done|apply mapped_mwrite; eapply mapped_le; [exact Mb2|lia..]].
    apply bytes_at_mwrite_out; [done|]. rewrite Ll, Lp. unfold pivot. lia.
  - apply memmove_elems; [|done|done|do 2 apply mapped_mwrite; eapply mapped_le; [exact Mb2|lia..]].
    apply bytes_at_mwrite_out; [apply bytes_at_mwrite_out; [done|]|]; rewrite ?Ll, ?Lh, ?Lp; lia.
  - rewrite concat_app. cbn [concat]. rewrite !bytes_at_app, Ll, Lp. split_and!.
    + apply bytes_at_mwrite_out; [apply bytes_at_mwrite_out; [apply bytes_at_mwrite|]|]; rewrite ?Ll, ?Lh, ?Lp; lia.
    + apply bytes_at_mwrite_out; [apply bytes_at_mwrite|]. rewrite Lh, Lp. lia.
    + apply bytes_at_mwrite.
  - do 3 apply mapped_mwrite. intros a Ha. destruct (decide (a < scratch + N * E)) as [Hlt|Hge].
    + apply R3. lia.
    + rewrite R2 by lia. by apply (mapped_mwrite m scratch ((N + 1) * E)).
  - intros a Ha1 Ha2. unfold m5, m4, m3. rewrite !mwrite_out by (rewrite ?Ll, ?Lh, ?Lp; lia).
    rewrite R2 by lia. apply mwrite_out. rewrite Lp. unfold pivot. lia.
Qed.

Lemma _qsort_ret fuel xs m base :
  (length xs < fuel)%nat -> elems xs -> Z.of_nat (length xs) <= N ->
  bytes_at m base (concat xs) -> mapped m scratch ((N + 1) * E) ->
  apart base (Z.of_nat (length xs) * E) ->
  exists m', _qsort fuel base (Z.of_nat (length xs)) E scratch pivot m = Ret tt m' /\
    bytes_at m' base (concat (qs fuel xs)) /\ mapped m' scratch ((N + 1) * E) /\
    frame2 m m' base (Z.of_nat (length xs) * E).
Proof using cmp_reads.
  revert xs m base. induction fuel as [|fuel IH]; intros xs m base Hf Hxs HN Hb Hm Hap; [lia|].
  assert (0 <= E) as HE by (unfold E; lia).
  destruct xs as [|p [|y [|z xs]]]; cbn [_qsort qs].
  { exists m. by split_and!. } { exists m. by split_and!. }
  - change (Z.of_nat (length [p; y])) with 2 in *. change (2 <=? 1) with false. change (2 =? 2) with true.
    cbn iota. apply list.Forall_cons in Hxs as [Hp [Hy _]%list.Forall_cons].
    simpl concat in Hb. rewrite app_nil_r in Hb. pose proof Hb as [Hbp Hby]%bytes_at_app.
    assert (Z.of_nat (length p) = E) as Lp by (unfold E; lia). rewrite Lp in Hby.
    erewrite bind_ret by by eapply cmp_reads. cbn beta iota. destruct (0 <? c p y).
    + destruct (swap_ret m base p y) as (m' & R & Rb & Rm & Rf); [done..|lia|done|done|].
      exists m'. simpl concat. rewrite app_nil_r. by split_and!.
    + exists m. simpl concat. rewrite app_nil_r. by split_and!.
  - set (rest := y :: z :: xs) in *. change (length (p :: rest)) with (S (length rest)) in *.
    set (n := Z.of_nat (S (length rest))) in *.
    assert (3 <= n) as H3 by (subst n rest; cbn [length]; lia).
    rewrite (proj2 (Z.leb_gt n 1)), (proj2 (Z.eqb_neq n 2)) by lia.
    apply list.Forall_cons in Hxs as [Hp Hrest].
    destruct (spread_ret m base p rest Hp Hrest HN Hb Hm Hap)
      as (m1 & m2 & R1 & R2 & m3 & m4 & m5 & R3 & R4 & R5 & Rb & Rm & Rf).
    fold n in R2, R5, Rf. set (l := Z.of_nat (length (lows p rest))) in *.
    set (h := Z.of_nat (length (highs p rest))) in *.
    pose proof (lows_highs_length p rest) as Hlh. assert (l + h + 1 = n) as En by lia.
    assert (n * E = l * E + h * E + E) as Qn by nia.
    assert (0 <= l * E /\ 0 <= h * E) as [Ql Qh] by (split; nia).
    assert (elems (lows p rest ++ highs p rest)) as [El Eh]%list.Forall_app.
    { eapply elems_perm; [symmetry; apply lows_highs|done]. }
    assert (Z.of_nat (length p) = E) as Lp by (unfold E; lia).
    assert (Z.of_nat (length (concat (lows p rest))) = l * E) as Ll by by apply concat_len.
    assert (Z.of_nat (length (concat (highs p rest))) = h * E) as Lh by by apply concat_len.
    rewrite concat_app in Rb. cbn [concat] in Rb. rewrite !bytes_at_app, Ll, Lp in Rb.
    destruct Rb as (Bl & Bp & Bh). unfold apart in Hap.
    destruct (IH (lows p rest) m5 base) as (m6 & R6 & B6 & M6 & F6); [lia|done|lia|done|done|unfold apart; lia|].
    fold l in R6, F6.
    destruct (IH (highs p rest) m6 (base + l * E + E)) as (m7 & R7 & B7 & M7 & F7);
      [lia|done|lia| |done|unfold apart; lia|].
    { eapply frame2_bytes; [exact F6|done|lia|unfold apart; lia]. }
    fold h in R7, F7. exists m7. split.
    { mrun R1. mrun R2. mrun R3. cbv zeta. mrun R4. mrun R5. mrun R6. done. }
    assert (Z.of_nat (length (concat (qs fuel (lows p rest)))) = l * E) as Lq.
    { rewrite concat_len; [by rewrite qs_perm|]. eapply elems_perm; [symmetry; apply qs_perm|done]. }
    split_and!; [|done|].
    + rewrite concat_app. cbn [concat]. rewrite !bytes_at_app, Lq, Lp. split_and!; [..|done].
      * eapply frame2_bytes; [exact F7|done|rewrite Lq; lia|unfold apart; rewrite Lq; lia].
      * eapply frame2_bytes; [exact F7| |rewrite Lp; lia|unfold apart; rewrite Lp; lia].
        eapply frame2_bytes; [exact F6|done|rewrite Lp; lia|unfold apart; rewrite Lp; lia].
    + intros a Ha1 Ha2. rewrite F7, F6, Rf; [done|lia..].
Qed.
End Memory.
End Qsort.

(** [elms < 0] is never true of a [size_t]. *)
Definition qsort {K} `{Kernel K} (cmp : Z -> Z -> M mem Z) (base elms esz : Z) : M (heap K) unit :=
  scratch ← calloc (u64 (elms + 1)) esz;
  if scratch =? 0 then halt (-1)
  else
    let pivot := scratch + elms * esz in
    _ ← onproc (onmem (_qsort cmp (S (Z.to_nat elms)) base elms esz scratch pivot));
    free scratch.

Section Correct.
Context {K : Type} {KK : Kernel K} {MK : MapKernel K}.
Context (cmp : Z -> Z -> M mem Z) (c : list byte -> list byte -> Z) (e : nat).
Context (cmp_reads : forall m p q x y, bytes_at m p x -> bytes_at m q y ->
  length x = e -> length y = e -> cmp p q m = Ret (c x y) m).
Context (c_total : forall x y, 0 <= c x y -> cle c y x).
Context (c_trans : forall x y z, cle c x y -> cle c y z -> cle c x z).

(** The sort proper and the release of the scratch space. *)
Lemma sort_and_free (s s1 : heap K) live r k p n base xs :
  let N := Z.of_nat (length xs) in let E := Z.of_nat e in
  heap_ok s1 (<[r := k]> live) -> biglock s1 = 0 -> live !! r = None -> live !! p = Some n ->
  keeps s s1 live -> Forall (fun x => length x = e) xs ->
  bytes_at (hmem s1) base (concat xs) -> p <= base -> base + N * E <= p + n -> (N + 1) * E <= k ->
  exists s' ys, (_ ← onproc (onmem (_qsort cmp (S (Z.to_nat N)) base N E r (r + N * E))); free r) s1
      = Ret tt s' /\
    heap_ok s' live /\ bytes_at (hmem s') base (concat ys) /\ ys ≡ₚ xs /\ StronglySorted (cle c) ys /\
    forall q j a, live !! q = Some j -> q <= a < q + j ->
      a < base \/ base + N * E <= a -> hmem s' !! a = hmem s !! a.
Proof using cmp_reads c_total c_trans MK.
  intros N E Hok1 L1 Hnone Hp HK Hxs Hby Hpb Hbn Hk.
  assert (0 <= E) as HE by (unfold E; lia). assert (0 <= N * E) as HNE by (unfold N; nia).
  destruct (fresh_block _ _ _ _ Hok1 Hnone) as (_ & Hmap & Hd).
  assert (apart e N r base (N * E)) as Hap by (unfold apart; fold E; destruct (Hd p n Hp); lia).
  destruct (_qsort_ret cmp c e cmp_reads N r (S (Z.to_nat N)) xs (hmem s1) base)
    as (m2 & R2 & B2 & M2 & F2); [unfold N; lia|done|done|done|eapply mapped_le; [exact Hmap|fold E; lia..]|done|].
  fold N E in R2, F2, M2. set (ys := qs c (S (Z.to_nat N)) xs) in *.
  assert (ys ≡ₚ xs) as Hperm by apply qs_perm.
  assert (Z.of_nat (length (concat ys)) = N * E) as Ly.
  { assert (elems e ys) as He by by apply (elems_perm e xs ys (symmetry Hperm)).
    by rewrite (concat_len e ys He), Hperm. }
  assert (heap_ok (with_mem m2 s1) (<[r := k]> live)) as Hok2.
  { apply heap_ok_mem; [|done]. intros a Ha.
    destruct (decide (base <= a < base + N * E)) as [Hin|Hout].
    { apply (bytes_at_mapped _ _ _ B2). lia. }
    destruct (decide (r <= a < r + (N + 1) * E)) as [Hin|Hout2]; [by apply M2|].
    rewrite F2; [done|lia|fold E; lia]. }
  destruct (free_ret (with_mem m2 s1) (<[r := k]> live) r k Hok2) as (s3 & R3 & L3 & Hok3 & K3);
    [done|apply lookup_insert_eq|].
  rewrite delete_insert_id in Hok3, K3 by done.
  assert (forall q j a, live !! q = Some j -> q <= a < q + j -> hmem s3 !! a = m2 !! a) as K4.
  { intros q j a Hq Ha. by rewrite (proj1 K3 q j a Hq Ha). }
  exists s3, ys. split_and!; [|done| |done| |].
  - mrun (onproc_onmem _ s1 _ _ R2). done.
  - apply bytes_at_lookup. intros i b Hi. rewrite (K4 p n); [|done|].
    + rewrite bytes_at_lookup in B2. by apply B2.
    + apply lookup_lt_Some in Hi. lia.
  - apply qs_sorted; [done|done|unfold N; lia].
  - intros q j a Hq Ha Hout. rewrite (K4 q j a Hq Ha), F2; [by apply (proj1 HK q j)|done|].
    fold E. destruct (Hd q j Hq); lia.
Qed.

(** C10: [qsort] of an array inside an object the program holds ends the
    process when there is no memory for its scratch space; otherwise it
    terminates with the array sorted: a permutation of the old elements in
    which each is at most every later one.  The heap is well formed with the
    same objects, and the other objects and the rest of this one are
    unchanged. *)
Theorem qsort_correct (s : heap K) live p n base xs :
  heap_ok s live -> biglock s = 0 -> live !! p = Some n ->
  (1 <= e)%nat -> Forall (fun x => length x = e) xs -> bytes_at (hmem s) base (concat xs) ->
  p <= base -> base + Z.of_nat (length xs) * Z.of_nat e <= p + n ->
  (Z.of_nat (length xs) + 1) * Z.of_nat e <= 2 ^ 64 - 8 ->
  (exists s', qsort cmp base (Z.of_nat (length xs)) (Z.of_nat e) s = Halt (-1) s') \/
  exists s' ys, qsort cmp base (Z.of_nat (length xs)) (Z.of_nat e) s = Ret tt s' /\
    heap_ok s' live /\ bytes_at (hmem s') base (concat ys) /\ ys ≡ₚ xs /\ StronglySorted (cle c) ys /\
    forall q k a, live !! q = Some k -> q <= a < q + k ->
      a < base \/ base + Z.of_nat (length xs) * Z.of_nat e <= a -> hmem s' !! a = hmem s !! a.
Proof using cmp_reads c_total c_trans MK.
  intros Hok Hb Hp He Hxs Hby Hpb Hbn Hsz. set (N := Z.of_nat (length xs)) in *. set (E := Z.of_nat e) in *.
  assert (u64 (N + 1) = N + 1) as Hu by (apply uwrap_id; unfold in_u; nia).
  unfold qsort. rewrite Hu.
  destruct (calloc_ret s live (N + 1) E Hok Hb) as (r & s1 & E1 & L1 & K1 & Hr); [nia|nia|nia|nia|by left|].
  mrun E1. destruct Hr as [[-> Hok1]|(Hnz & Hnone & k & Hk & Hok1 & Hz)]; [left; eauto|right].
  rewrite (proj2 (Z.eqb_neq r 0) Hnz). cbv zeta.
  apply (sort_and_free s s1 live r k p n base xs); try done.
  apply bytes_at_lookup. intros i b Hi. rewrite bytes_at_lookup in Hby. specialize (Hby i b Hi).
  rewrite (proj1 K1 p n); [done|done|]. apply lookup_lt_Some in Hi.
  pose proof (concat_len e xs Hxs) as Lc. fold N E in Lc. lia.
Qed.
End Correct.

(** Four one-byte elements, compared as unsigned characters. *)
Definition cmp_char (p q : Z) : M mem Z :=
  x ← load8 p; y ← load8 q; mret (uchar x - uchar y).
Definition char_order (x y : list byte) : Z := uchar (hd x00 x) - uchar (hd x00 y).

Lemma cmp_char_reads m p q x y :
  bytes_at m p x -> bytes_at m q y -> length x = 1%nat -> length y = 1%nat ->
  cmp_char p q m = Ret (char_order x y) m.
Proof.
  destruct x as [|b [|]], y as [|d [|]]; try done. intros [Hp _] [Hq _] _ _.
  unfold cmp_char. mrun (load8_ret _ _ _ Hp). by mrun (load8_ret _ _ _ Hq).
Qed.

Definition sort_heap : heap unit :=
  with_mem (mwrite (hmem demo_heap) 4144 (str "dbca")) demo_heap.

Lemma qsort_correct_witness :
  let xs := (fun b => [b]) <$> str "dbca" in
  (exists s', qsort cmp_char 4144 4 1 sort_heap = Halt (-1) s') \/
  exists s' ys, qsort cmp_char 4144 4 1 sort_heap = Ret tt s' /\
    heap_ok s' {[4144 := 24]} /\ bytes_at (hmem s') 4144 (concat ys) /\ ys ≡ₚ xs /\
    StronglySorted (cle char_order) ys /\
    forall q k a, ({[4144 := 24]} : gmap Z Z) !! q = Some k -> q <= a < q + k ->
      a < 4144 \/ 4144 + 4 * 1 <= a -> hmem s' !! a = hmem sort_heap !! a.
Proof.
  intros xs.
  apply (qsort_correct cmp_char char_order 1 cmp_char_reads
    ltac:(unfold cle, char_order; lia) ltac:(unfold cle, char_order; lia) sort_heap {[4144 := 24]} 4144 24 4144 xs).
  - apply heap_ok_mwrite, demo_heap_ok.
  - apply demo_heap_ok.
  - reflexivity.
  - lia.
  - by repeat constructor.
  - apply (bytes_at_mwrite (hmem demo_heap) 4144 (str "dbca")).
  - lia.
  - vm_compute. discriminate.
  - vm_compute. discriminate.
Defined.
