(* ===== verification/LPrintf.v ===== *)
(** * Formatted output of litc.c

    [_vprintf] writes directly into the caller's buffer.  It runs on the
    process, because it calls [strtol] (which may set [errno]) for a precision;
    the variable arguments are a list of 64-bit slots.  [double] values are the
    IEEE binary64 numbers of the Standard Library's [SpecFloat]. *)

From S2P Require Import Prelude CMem Digits LBase LCtype LString LStrtol.
From Stdlib Require Import SpecFloat.

(** ** Doubles *)

Definition fprec : Z := 53.
Definition femax : Z := 1024.

(** The value of the 64 bits of a [double]. *)
Definition double_of (bits : Z) : spec_float :=
  let s := Z.testbit bits 63 in
  let e := Z.land (Z.shiftr bits 52) 2047 in
  let f := Z.land bits (Z.ones 52) in
  if e =? 2047 then if f =? 0 then S754_infinity s else S754_nan
  else
    let m := if e =? 0 then f else f + 2 ^ 52 in
    match m with
    | Zpos m => S754_finite s m (Z.max e 1 - 1075)
    | _ => S754_zero s
    end.

(** The conversions between [double] and [ulong]; out of range is undefined. *)
Definition float_trunc (n : spec_float) : option Z :=
  match n with
  | S754_zero _ => Some 0
  | S754_finite s m e =>
      let z := if 0 <=? e then Zpos m * 2 ^ e else Zpos m / 2 ^ (- e) in
      Some (if s then - z else z)
  | _ => None
  end.
Definition double_ulong {S} (n : spec_float) : M S Z :=
  match float_trunc n with
  | Some z => if (0 <=? z) && (z <? 2 ^ 64) then mret z else ub
  | None => ub
  end.
Definition ulong_double (z : Z) : spec_float := binary_normalize fprec femax z 0 false.
Definition double_sub : spec_float -> spec_float -> spec_float := SFsub fprec femax.
Definition double_mul : spec_float -> spec_float -> spec_float := SFmul fprec femax.

(** ** Output of characters and numbers *)

Definition wc (p e c : Z) : M mem Z :=
  if p <? e then _ ← stc p c; mret 1 else mret 0.

Definition numtoch (n : Z) : Z := s8 (if n <? 10 then n + ch "0" else n + (ch "a" - 10)).

(** [while (i--) p += wc(p, end, buf[i])] *)
Fixpoint putbuf (p e : Z) (l : list Z) : M mem unit :=
  match l with
  | [] => mret tt
  | c :: l => w ← wc p e c; putbuf (p + w) e l
  end.

(** [buf] has 21 characters. *)
Definition putn (p e n base : Z) : M mem Z :=
  if n =? 0 then _ ← wc p e (ch "0"); mret 1
  else
    let buf := numtoch <$> number_vals 22 base n in
    if (21 <? length buf)%nat then ub
    else _ ← putbuf p e (rev buf); mret (Z.of_nat (length buf)).

(** ** The formatter *)

(** The variables that a conversion specification sets. *)
Record spec : Type := Spec {
  prehex : bool;
  longmode : bool;
  sig : bool;
  precmode : bool;
  prec : Z
}.
Definition spec0 : spec := Spec false false true false 6.

Section Vprintf.
Context {K : Type}.

Definition va_next (ap : list Z) : M (proc K) (Z * list Z) :=
  match ap with a :: ap => mret (a, ap) | [] => ub end.

(** [dst += wc(dst, end, c)], and for the characters of a literal. *)
Definition out (e dst c : Z) : M (proc K) Z := w ← onmem (wc dst e c); mret (dst + w).
Fixpoint outs (e dst : Z) (l : list byte) : M (proc K) Z :=
  match l with [] => mret dst | b :: l => dst ← out e dst (schar b); outs e dst l end.

Definition vp_dec (e dst : Z) (ap : list Z) (sp : spec) : M (proc K) (Z * list Z) :=
  '(a, ap) ← va_next ap;
  let n := if longmode sp then u64 a else u64 (s32 a) in
  let neg := sig sp && (s64 n <? 0) in
  dst ← (if neg then out e dst (ch "-") else mret dst);
  let n := if neg then u64 (- n) else n in
  w ← onmem (putn dst e n 10);
  mret (dst + w, ap).

(** The digits after the point. *)
Fixpoint vp_frac (k : nat) (e dst : Z) (n : spec_float) : M (proc K) Z :=
  match k with
  | O => mret dst
  | S k =>
      let n := double_mul n (ulong_double 10) in
      d ← double_ulong n;
      w ← onmem (putn dst e d 10);
      vp_frac k e (dst + w) (double_sub n (ulong_double d))
  end.

Definition vp_double (e dst : Z) (ap : list Z) (sp : spec) : M (proc K) (Z * list Z) :=
  '(a, ap) ← va_next ap;
  let n := double_of a in
  match n with
  | S754_nan => dst ← outs e dst (str "nan"); mret (dst, ap)
  | S754_infinity _ => dst ← outs e dst (str "inf"); mret (dst, ap)
  | _ =>
      let neg := SFltb n (S754_zero false) in
      dst ← (if neg then out e dst (ch "-") else mret dst);
      let n := if neg then SFopp n else n in
      i ← double_ulong n;
      w ← onmem (putn dst e i 10);
      let dst := dst + w in
      if prec sp =? 0 then mret (dst, ap)
      else
        dst ← out e dst (ch ".");
        dst ← vp_frac (Z.to_nat (prec sp)) e dst (double_sub n (ulong_double i));
        mret (dst, ap)
  end.

Definition vp_hex (e dst : Z) (ap : list Z) (sp : spec) : M (proc K) (Z * list Z) :=
  dst ← (if prehex sp then outs e dst (str "0x") else mret dst);
  '(a, ap) ← va_next ap;
  let n := if longmode sp then u64 a else u32 a in
  w ← onmem (putn dst e n 16);
  mret (dst + w, ap).

Definition vp_str (e dst : Z) (ap : list Z) (sp : spec) : M (proc K) (Z * list Z) :=
  '(s, ap) ← va_next ap;
  if s =? 0 then dst ← outs e dst (str "(nil)"); mret (dst, ap)
  else
    fuel ← onmem scan_fuel;
    dst ← loop fuel (fun '(s, dst, prec) =>
      c ← onmem (ldc s);
      if negb (c =? 0) && (negb (precmode sp) || (0 <? prec)) then
        dst ← out e dst c;
        mret (inl (s + 1, dst, if precmode sp then prec - 1 else prec))
      else mret (inr dst)) (s, dst, prec sp);
    mret (dst, ap).

(** The [switch]: the specification so far when it is not [done]. *)
Definition vp_switch (t e dst : Z) (ap : list Z) (sp : spec)
    : M (proc K) (Z * list Z * option spec) :=
  let '(Spec ph lm sg pm pr) := sp in
  if t =? ch "%" then dst ← out e dst (ch "%"); mret (dst, ap, None)
  else if t =? ch "#" then mret (dst, ap, Some (Spec true lm sg pm pr))
  else if t =? ch "." then mret (dst, ap, Some (Spec ph lm sg true pr))
  else if (t =? ch "z") || (t =? ch "l") then mret (dst, ap, Some (Spec ph true sg pm pr))
  else if t =? ch "u" then '(dst, ap) ← vp_dec e dst ap (Spec ph lm false pm pr); mret (dst, ap, None)
  else if t =? ch "d" then '(dst, ap) ← vp_dec e dst ap sp; mret (dst, ap, None)
  else if (t =? ch "g") || (t =? ch "f") then '(dst, ap) ← vp_double e dst ap sp; mret (dst, ap, None)
  else if t =? ch "p" then '(dst, ap) ← vp_hex e dst ap (Spec true true sg pm pr); mret (dst, ap, None)
  else if t =? ch "x" then '(dst, ap) ← vp_hex e dst ap sp; mret (dst, ap, None)
  else if t =? ch "c" then '(a, ap) ← va_next ap; dst ← out e dst (s8 a); mret (dst, ap, None)
  else if t =? ch "s" then '(dst, ap) ← vp_str e dst ap sp; mret (dst, ap, None)
  else dst ← out e dst (ch "?"); mret (dst, ap, Some sp).

(** A digit of a precision: the precision and the position after it. *)
Definition vp_prec (t fmt : Z) (sp : spec) : M (proc K) (option (Z * Z)) :=
  if isdigit t && precmode sp then
    '(newprec, nend) ← strtol (fmt - 1) 10;
    if (0 <? newprec) || (t =? ch "0") then
      match nend with Some nend => mret (Some (s32 newprec, nend)) | None => ub end
    else mret None
  else mret None.

Definition vp_step (e : Z) (x : Z * Z * list Z * spec)
    : M (proc K) (Z * Z * list Z * spec + Z * Z * list Z) :=
  let '(fmt, dst, ap, sp) := x in
  t ← onmem (ldc fmt);
  if (t =? 0) || isspace t then mret (inr (fmt, dst, ap))
  else
    let fmt := fmt + 1 in
    np ← vp_prec t fmt sp;
    match np with
    | Some (p, nend) =>
        mret (inl (nend, dst, ap, Spec (prehex sp) (longmode sp) (sig sp) (precmode sp) p))
    | None =>
        '(dst, ap, r) ← vp_switch t e dst ap sp;
        mret (match r with Some sp => inl (fmt, dst, ap, sp) | None => inr (fmt, dst, ap) end)
    end.

(** One conversion specification, from behind its percent sign. *)
Definition vp_spec (e fmt dst : Z) (ap : list Z) : M (proc K) (Z * Z * list Z) :=
  fuel ← onmem scan_fuel;
  loop fuel (vp_step e) (fmt, dst, ap, spec0).

(** The loop over the format string; each iteration moves [fmt] on. *)
Definition vp_body (e : Z) (x : Z * Z * list Z) : M (proc K) (Z * Z * list Z + Z) :=
  let '(fmt, dst, ap) := x in
  c ← onmem (ldc fmt);
  if negb (c =? 0) && (dst <? e) then
    if c =? ch "%" then r ← vp_spec e (fmt + 1) dst ap; mret (inl r)
    else dst ← out e dst c; mret (inl (fmt + 1, dst, ap))
  else mret (inr dst).

Definition _vprintf (fmt : Z) (ap : list Z) (dst e : Z) : M (proc K) Z :=
  let start := dst in
  fuel ← onmem scan_fuel;
  dst ← loop fuel (vp_body e) (fmt, dst, ap);
  let dst := if e <? dst then e - 1 else dst in
  _ ← onmem (stc dst 0);
  mret (s32 (dst - start)).

Definition vsnprintf (dst sz fmt : Z) (ap : list Z) : M (proc K) Z :=
  _vprintf fmt ap dst (dst + sz).
Definition snprintf (dst sz fmt : Z) (ap : list Z) : M (proc K) Z := vsnprintf dst sz fmt ap.
Definition sprintf (dst fmt : Z) (ap : list Z) : M (proc K) Z :=
  vsnprintf dst (u64 (u64 (-1) - dst)) fmt ap.
End Vprintf.

(** ** Formats and the text they denote *)

(** The text of a number in a base: digits above 9 in lower case. *)
Definition numeral (base n : Z) : list byte := (fun d => byte.of_Z (numtoch d)) <$> vals base n.

(** A format as a sequence of items: literal bytes and the conversions
    [%%], [%s], [%c], [%d], [%u], [%x], [%p], with [l] and [#]. *)
Inductive litem : Set :=
  | LLit (b : byte) | LPercent | LStr | LChr
  | LDec (long unsigned : bool) | LHex (pre long : bool) | LPtr.

Definition litem_text (i : litem) : list byte :=
  match i with
  | LLit b => [b]
  | LPercent => str "%%"
  | LStr => str "%s"
  | LChr => str "%c"
  | LDec l u => str "%" ++ (if l then str "l" else []) ++ (if u then str "u" else str "d")
  | LHex p l => str "%" ++ (if p then str "#" else []) ++ (if l then str "l" else []) ++ str "x"
  | LPtr => str "%p"
  end.

(** An [int] is widened with its sign also for [%u]. *)
Definition dec_arg (l : bool) (a : Z) : Z := if l then u64 a else u64 (s32 a).
Definition dec_text (l u : bool) (a : Z) : list byte :=
  let n := dec_arg l a in
  if negb u && (s64 n <? 0) then str "-" ++ numeral 10 (u64 (- n)) else numeral 10 n.
Definition hex_text (p l : bool) (a : Z) : list byte :=
  (if p then str "0x" else []) ++ numeral 16 (if l then u64 a else u32 a).

(** The text denoted by a format and its arguments; the strings lie outside the
    bytes from [lo] to [hi]. *)
Inductive lrenders (m : mem) (lo hi : Z) : list litem -> list Z -> list byte -> Prop :=
  | lr_nil ap : lrenders m lo hi [] ap []
  | lr_lit b l ap t :
      b <> "%"%byte -> b <> x00 -> lrenders m lo hi l ap t -> lrenders m lo hi (LLit b :: l) ap (b :: t)
  | lr_percent l ap t :
      lrenders m lo hi l ap t -> lrenders m lo hi (LPercent :: l) ap (str "%" ++ t)
  | lr_nilstr l ap t :
      lrenders m lo hi l ap t -> lrenders m lo hi (LStr :: l) (0 :: ap) (str "(nil)" ++ t)
  | lr_str s w l ap t :
      s <> 0 -> cstr m s w -> hi <= s \/ s + Z.of_nat (length w) < lo -> lrenders m lo hi l ap t ->
      lrenders m lo hi (LStr :: l) (s :: ap) (w ++ t)
  | lr_chr a l ap t :
      lrenders m lo hi l ap t -> lrenders m lo hi (LChr :: l) (a :: ap) (byte.of_Z a :: t)
  | lr_dec lg u a l ap t :
      lrenders m lo hi l ap t -> lrenders m lo hi (LDec lg u :: l) (a :: ap) (dec_text lg u a ++ t)
  | lr_hex p lg a l ap t :
      lrenders m lo hi l ap t -> lrenders m lo hi (LHex p lg :: l) (a :: ap) (hex_text p lg a ++ t)
  | lr_ptr a l ap t :
      lrenders m lo hi l ap t -> lrenders m lo hi (LPtr :: l) (a :: ap) (hex_text true true a ++ t).

(** ** Correctness when the text fits *)

(** The position after [o] in a buffer at [d]. *)
Definition pos (d : Z) (o : list byte) : Z := d + Z.of_nat (length o).
Ltac fits := unfold pos in *; rewrite ?length_app in *; cbn [length] in *; lia.

Section Fits.
Context {K : Type}.
(** The process before, the buffer and its end. *)
Context (p0 : proc K) (d e : Z).
Hypothesis room : mapped (p_mem p0) d (e - d).

(** The process after [o] was written to the buffer. *)
Definition wrote (o : list byte) : proc K := set_mem (mwrite (p_mem p0) d o) p0.
#[local] Notation at_ := (pos d).

Lemma wc_ret o c :
  at_ o < e -> wc (at_ o) e c (mwrite (p_mem p0) d o) = Ret 1 (mwrite (p_mem p0) d (o ++ [byte.of_Z c])).
Proof using room.
  intros H. unfold wc. rewrite (proj2 (Z.ltb_lt _ _)) by done. unfold pos in *.
  assert (is_Some (mwrite (p_mem p0) d o !! (d + Z.of_nat (length o)))) as Hm
    by (eapply mapped_mwrite; [exact room|lia]).
  mrun (stc_ret _ _ c Hm). by rewrite mwrite_snoc.
Qed.

Lemma out_ret o c :
  at_ o < e -> out e (at_ o) c (wrote o) = Ret (at_ (o ++ [byte.of_Z c])) (wrote (o ++ [byte.of_Z c])).
Proof using room.
  intros H. unfold out. rewrite (bind_ret _ _ _ _ _ (onmem_ret _ (wrote o) _ _ (wc_ret o c H))). munfold.
  unfold pos, wrote. rewrite length_app. f_equal. simpl. lia.
Qed.

Lemma outs_ret o l :
  at_ (o ++ l) <= e -> outs e (at_ o) l (wrote o) = Ret (at_ (o ++ l)) (wrote (o ++ l)).
Proof using room.
  revert o. induction l as [|b l IH]; intros o H; cbn [outs]; [by rewrite app_nil_r|].
  unfold pos in H. rewrite length_app in H. cbn [length] in H.
  mrun (out_ret o (schar b) ltac:(unfold pos; lia)). rewrite byte_of_schar.
  assert (o ++ b :: l = (o ++ [b]) ++ l) as -> by by rewrite <- app_assoc.
  apply IH. unfold pos. rewrite !length_app. simpl. lia.
Qed.

Lemma putbuf_ret o (l : list Z) :
  at_ (o ++ (byte.of_Z <$> l)) <= e ->
  putbuf (at_ o) e l (mwrite (p_mem p0) d o) = Ret tt (mwrite (p_mem p0) d (o ++ (byte.of_Z <$> l))).
Proof using room.
  revert o. induction l as [|c l IH]; intros o H; [by rewrite app_nil_r|].
  change (byte.of_Z <$> c :: l) with (byte.of_Z c :: (byte.of_Z <$> l)) in *. cbn [putbuf]. unfold pos in H. rewrite length_app in H. cbn [length] in H.
  mrun (wc_ret o c ltac:(unfold pos; lia)).
  assert (forall k, o ++ byte.of_Z c :: k = (o ++ [byte.of_Z c]) ++ k) as E by (intros; by rewrite <- app_assoc).
  rewrite (E (byte.of_Z <$> l)). rewrite <- IH; [|unfold pos; rewrite !length_app; cbn [length]; lia].
  f_equal. unfold pos. rewrite length_app. simpl. lia.
Qed.

Lemma putn_ret o n base :
  10 <= base -> in_u 64 n -> at_ (o ++ numeral base n) <= e ->
  putn (at_ o) e n base (mwrite (p_mem p0) d o)
  = Ret (Z.of_nat (length (numeral base n))) (mwrite (p_mem p0) d (o ++ numeral base n)).
Proof using room.
  intros Hb Hn. unfold numeral, vals, putn. destruct (Z.eqb_spec n 0) as [->|Hnz]; intros H.
  - change (numtoch 0) with (ch "0") in *. cbn [fmap list_fmap] in *. unfold pos in H. rewrite length_app in H.
    change (numtoch 0) with (ch "0") in *. cbn [length] in H. by mrun (wc_ret o (ch "0") ltac:(unfold pos; lia)).
  - assert (0 <= n < base ^ Z.of_nat 21) as Hlt.
    { split; [apply Hn|]. eapply Z.lt_le_trans; [apply Hn|].
      etrans; [|apply (Z.pow_le_mono_l 10); lia]. by vm_compute. }
    rewrite (number_vals_fuel 21 66) in * by (done || lia). rewrite (number_vals_fuel 21 22) by (done || lia).
    pose proof (number_vals_length 21 base n 21 ltac:(lia) Hlt) as Hl.
    rewrite length_fmap. rewrite (proj2 (Nat.ltb_ge 21 _)) by lia.
    assert (map byte.of_Z (rev (numtoch <$> number_vals 21 base n))
      = (fun d => byte.of_Z (numtoch d)) <$> rev (number_vals 21 base n)) as E
      by (by rewrite map_rev, map_map, <- map_rev).
    pose proof (putbuf_ret o (rev (numtoch <$> number_vals 21 base n))) as Hp.
    change (byte.of_Z <$> ?l) with (map byte.of_Z l) in Hp. rewrite E in Hp. mrun (Hp H). munfold. f_equal.
    by rewrite length_fmap, length_rev.
Qed.

Lemma onputn_ret o n base :
  10 <= base -> in_u 64 n -> at_ (o ++ numeral base n) <= e ->
  (w ← onmem (putn (at_ o) e n base); mret (at_ o + w)) (wrote o)
  = Ret (at_ (o ++ numeral base n)) (wrote (o ++ numeral base n)).
Proof using room.
  intros Hb Hn H. mrun (onmem_ret _ (wrote o) _ _ (putn_ret o n base Hb Hn H)).
  unfold pos, wrote. rewrite length_app. munfold. f_equal. lia.
Qed.
(** A string outside the buffer is not changed by the output. *)
Lemma wrote_cstr o s w :
  cstr (p_mem p0) s w -> e <= s \/ s + Z.of_nat (length w) < d -> at_ o <= e ->
  cstr (p_mem (wrote o)) s w.
Proof using.
  intros H Hs Ho. unfold pos in Ho. apply cstr_mwrite_out; [done|]. lia.
Qed.

Lemma vp_str_ret o ap s w sp :
  precmode sp = false -> s <> 0 -> cstr (p_mem p0) s w ->
  e <= s \/ s + Z.of_nat (length w) < d -> at_ (o ++ w) <= e ->
  vp_str e (at_ o) (s :: ap) sp (wrote o) = Ret (at_ (o ++ w), ap) (wrote (o ++ w)).
Proof using room.
  intros Hp Hs Hw Hout Hfit. unfold vp_str. cbn [va_next]. rewrite mret_bind. cbv beta iota.
  rewrite (proj2 (Z.eqb_neq s 0) Hs). rewrite Hp. cbn [negb orb]. mrun (onmem_pure scan_fuel (wrote o) _ eq_refl).
  loop_body B.
  assert (forall n o s w pr, cstr (p_mem p0) s w -> e <= s \/ s + Z.of_nat (length w) < d ->
    at_ (o ++ w) <= e -> (length w < n)%nat ->
    loop n B (s, at_ o, pr) (wrote o) = Ret (at_ (o ++ w)) (wrote (o ++ w))) as Hl.
  { clear -room. induction n as [|n IH]; intros o s w pr Hw Hout Hfit Hn; [lia|]. rewrite loop_S. unfold B at 1.
    assert (at_ o <= e) as Ho by (unfold pos in *; rewrite length_app in Hfit; lia).
    pose proof (wrote_cstr o s w Hw Hout Ho) as Hw'.
    destruct w as [|b w].
    - apply cstr_nil in Hw'. mrun (onmem_pure (ldc s) (wrote o) _ (ldc_ret _ _ _ Hw')).
      by rewrite app_nil_r.
    - apply cstr_cons in Hw' as (Hb & Hs & _). apply cstr_cons in Hw as (_ & _ & Hw).
      mrun (onmem_pure (ldc s) (wrote o) _ (ldc_ret _ _ _ Hs)). rewrite (schar_nz b Hb). cbn [negb andb].
      assert (o ++ b :: w = (o ++ [b]) ++ w) as E by by rewrite <- app_assoc. rewrite E in *.
      cbn [length] in *.
      rewrite (bind_ret _ _ _ _ _ (out_ret o (schar b) ltac:(unfold pos in *; rewrite !length_app in Hfit; simpl in Hfit; lia))).
      rewrite byte_of_schar. munfold. apply IH; [done|lia|done|lia]. }
  assert (at_ o <= e) as Ho by (unfold pos in *; rewrite length_app in Hfit; lia).
  pose proof (cstr_size _ _ _ (wrote_cstr o s w Hw Hout Ho)) as Hsz.
  by mrun (Hl (S (size (p_mem (wrote o)))) o s w (prec sp) Hw Hout Hfit ltac:(lia)).
Qed.

Lemma vp_nil_ret o ap sp :
  at_ (o ++ str "(nil)") <= e ->
  vp_str e (at_ o) (0 :: ap) sp (wrote o) = Ret (at_ (o ++ str "(nil)"), ap) (wrote (o ++ str "(nil)")).
Proof using room.
  intros Hfit. unfold vp_str. cbn [va_next]. rewrite mret_bind. cbv beta iota.
  change (0 =? 0) with true. cbv iota. by mrun (outs_ret o (str "(nil)") Hfit).
Qed.

Lemma vp_dec_ret o ap a sp :
  let t := dec_text (longmode sp) (negb (sig sp)) a in
  at_ (o ++ t) <= e -> vp_dec e (at_ o) (a :: ap) sp (wrote o) = Ret (at_ (o ++ t), ap) (wrote (o ++ t)).
Proof using room.
  intros t Hfit. unfold vp_dec. cbn [va_next]. rewrite mret_bind. cbv beta iota.
  unfold t, dec_text in *. rewrite negb_involutive in *. fold (dec_arg (longmode sp) a). clear t.
  assert (in_u 64 (dec_arg (longmode sp) a)) as Hn by (unfold dec_arg; destruct (longmode sp); apply uwrap_range; lia).
  set (n := dec_arg (longmode sp) a) in *. clearbody n. destruct (sig sp && (s64 n <? 0)).
  - rewrite (bind_ret _ _ _ _ _ (out_ret o (ch "-") ltac:(unfold pos in *; rewrite !length_app in Hfit; simpl in Hfit; lia))).
    change [byte.of_Z (ch "-")] with (str "-"). rewrite app_assoc in *.
    pose proof (onputn_ret (o ++ str "-") (u64 (- n)) 10 ltac:(lia) (uwrap_range 64 _ ltac:(lia)) Hfit) as E.
    apply bind_inv in E as (w & p1 & E1 & [= E2 <-]). mrun E1. by rewrite E2.
  - rewrite mret_bind. pose proof (onputn_ret o n 10 ltac:(lia) Hn Hfit) as E.
    apply bind_inv in E as (w & p1 & E1 & [= E2 <-]). mrun E1. by rewrite E2.
Qed.

Lemma vp_hex_ret o ap a sp :
  let t := hex_text (prehex sp) (longmode sp) a in
  at_ (o ++ t) <= e -> vp_hex e (at_ o) (a :: ap) sp (wrote o) = Ret (at_ (o ++ t), ap) (wrote (o ++ t)).
Proof using room.
  intros t Hfit. unfold vp_hex, t, hex_text in *. clear t.
  set (n := if longmode sp then u64 a else u32 a) in *.
  assert (in_u 64 n) as Hn by (unfold n; destruct (longmode sp); cint).
  set (pre := if prehex sp then str "0x" else []) in *.
  assert ((if prehex sp then outs e (at_ o) (str "0x") else mret (at_ o)) (wrote o)
    = Ret (at_ (o ++ pre)) (wrote (o ++ pre))) as Hpre.
  { unfold pre in *. destruct (prehex sp); [|by rewrite app_nil_r]. apply outs_ret.
    unfold pos in *. rewrite !length_app in *. lia. }
  mrun Hpre. cbn [va_next]. rewrite mret_bind. cbv beta iota zeta. fold n. rewrite app_assoc in *.
  pose proof (onputn_ret (o ++ pre) n 16 ltac:(lia) Hn Hfit) as E.
  apply bind_inv in E as (w & p1 & E1 & [= E2 <-]). mrun E1. by rewrite E2.
Qed.
(** One character of a specification. *)
Lemma vp_step_ret fmt dst ap sp b (st : proc K) dst' ap' r st' :
  p_mem st !! fmt = Some b -> b <> x00 -> isspace (schar b) = false -> precmode sp = false ->
  vp_switch (schar b) e dst ap sp st = Ret (dst', ap', r) st' ->
  vp_step e (fmt, dst, ap, sp) st =
    Ret (match r with Some sp => inl (fmt + 1, dst', ap', sp) | None => inr (fmt + 1, dst', ap') end) st'.
Proof using.
  intros Hb Hz Hsp Hp Hsw. unfold vp_step. mrun (onmem_pure (ldc fmt) st _ (ldc_ret _ _ _ Hb)).
  rewrite (schar_nz b Hz), Hsp. cbn [orb]. unfold vp_prec. rewrite Hp, andb_false_r, mret_bind.
  cbv iota beta. by mrun Hsw.
Qed.

(** The flags [#] and [l]. *)
Lemma vp_flags_ret n fmt dst ap (st : proc K) (ph lm : bool) rest :
  cstr (p_mem st) fmt ((if ph then str "#" else []) ++ (if lm then str "l" else []) ++ rest) ->
  loop (Z.to_nat (Z.b2z ph + Z.b2z lm) + n) (vp_step e) (fmt, dst, ap, spec0) st
  = loop n (vp_step e) (fmt + Z.b2z ph + Z.b2z lm, dst, ap, Spec ph lm true false 6) st.
Proof using.
  intros H.
  assert (forall k fmt sp sp' b, p_mem st !! fmt = Some b -> b <> x00 -> isspace (schar b) = false ->
    precmode sp = false -> vp_switch (schar b) e dst ap sp st = Ret (dst, ap, Some sp') st ->
    loop (S k) (vp_step e) (fmt, dst, ap, sp) st = loop k (vp_step e) (fmt + 1, dst, ap, sp') st) as Hs.
  { intros k f sp sp' b Hb Hz Hi Hp Hsw. by rewrite loop_S, (vp_step_ret f dst ap sp b st _ _ _ _ Hb Hz Hi Hp Hsw). }
  destruct ph, lm; cbn [Z.b2z app] in *; change (str "#") with ["#"%byte] in *; change (str "l") with ["l"%byte] in *;
    cbn [app] in H; repeat (apply cstr_cons in H as (_ & ? & H)).
  - change (Z.to_nat (1 + 1) + n)%nat with (S (S n)).
    rewrite (Hs (S n) _ _ (Spec true false true false 6) "#"%byte) by (done || (unfold vp_switch, spec0; decide_chars; reflexivity)).
    by rewrite (Hs n _ _ (Spec true true true false 6) "l"%byte) by (done || (unfold vp_switch; decide_chars; reflexivity)).
  - change (Z.to_nat (1 + 0) + n)%nat with (S n). rewrite Z.add_0_r.
    by rewrite (Hs n _ _ (Spec true false true false 6) "#"%byte) by (done || (unfold vp_switch, spec0; decide_chars; reflexivity)).
  - change (Z.to_nat (0 + 1) + n)%nat with (S n). rewrite Z.add_0_r.
    by rewrite (Hs n _ _ (Spec false true true false 6) "l"%byte) by (done || (unfold vp_switch, spec0; decide_chars; reflexivity)).
  - by rewrite !Z.add_0_r.
Qed.

(** A whole specification: flags, then the character that completes it. *)
Lemma vp_spec_ret fmt dst ap (st : proc K) (ph lm : bool) b rest dst' ap' st' :
  cstr (p_mem st) fmt ((if ph then str "#" else []) ++ (if lm then str "l" else []) ++ b :: rest) ->
  isspace (schar b) = false ->
  vp_switch (schar b) e dst ap (Spec ph lm true false 6) st = Ret (dst', ap', None) st' ->
  vp_spec e fmt dst ap st = Ret (fmt + Z.b2z ph + Z.b2z lm + 1, dst', ap') st'.
Proof using.
  intros H Hsp Hsw. unfold vp_spec. mrun (onmem_pure scan_fuel st _ eq_refl).
  pose proof (cstr_size _ _ _ H) as Hsz. rewrite !length_app in Hsz.
  assert (exists k, S (size (p_mem st)) = (Z.to_nat (Z.b2z ph + Z.b2z lm) + S k)%nat) as [k ->].
  { exists (S (size (p_mem st)) - Z.to_nat (Z.b2z ph + Z.b2z lm) - 1)%nat. destruct ph, lm; simpl in *; lia. }
  rewrite (vp_flags_ret _ _ _ _ _ _ _ _ H), loop_S.
  rewrite app_assoc in H. apply cstr_app_r in H. rewrite length_app in H.
  replace (fmt + Z.of_nat _) with (fmt + Z.b2z ph + Z.b2z lm) in H by (destruct ph, lm; simpl; lia).
  apply cstr_cons in H as (Hz & Hb & _).
  by rewrite (vp_step_ret _ _ _ (Spec ph lm true false 6) b st _ _ _ _ Hb Hz Hsp eq_refl Hsw).
Qed.
(** One item: what an iteration of the loop of [_vprintf] does. *)
Lemma vp_item i l ap t o fmt :
  cstr (p_mem (wrote o)) fmt (concat (litem_text <$> (i :: l))) -> lrenders (p_mem p0) d e (i :: l) ap t ->
  at_ (o ++ t) < e ->
  exists t1 t2 ap', t = t1 ++ t2 /\ lrenders (p_mem p0) d e l ap' t2 /\
    vp_body e (fmt, at_ o, ap) (wrote o)
    = Ret (inl (fmt + Z.of_nat (length (litem_text i)), at_ (o ++ t1), ap')) (wrote (o ++ t1)).
Proof using room.
  intros Hf Hr Hfit. cbn [fmap list_fmap concat] in Hf.
  assert (at_ o < e) as Ho by (unfold pos in *; rewrite length_app in Hfit; lia).
  assert (forall (ph lm : bool) b ap' t1,
    litem_text i = "%"%byte :: (if ph then str "#" else []) ++ (if lm then str "l" else []) ++ [b] ->
    isspace (schar b) = false ->
    vp_switch (schar b) e (at_ o) ap (Spec ph lm true false 6) (wrote o)
      = Ret (at_ (o ++ t1), ap', None) (wrote (o ++ t1)) ->
    vp_body e (fmt, at_ o, ap) (wrote o)
    = Ret (inl (fmt + Z.of_nat (length (litem_text i)), at_ (o ++ t1), ap')) (wrote (o ++ t1))) as Hspec.
  { intros ph lm b ap' t1 Ei Hsp Hsw. rewrite Ei in *. cbn [app] in Hf. apply cstr_cons in Hf as (_ & Hb & Hf).
    unfold vp_body. mrun (onmem_pure (ldc fmt) (wrote o) _ (ldc_ret _ _ _ Hb)).
    rewrite schar_nz by done. rewrite (proj2 (Z.ltb_lt _ _) Ho). cbn [negb andb].
    change (ch "%") with (schar "%"). rewrite schar_eq. rewrite <- !app_assoc in Hf.
    mrun (vp_spec_ret _ _ _ _ _ _ _ _ _ _ _ Hf Hsp Hsw). munfold. f_equal. f_equal. f_equal. f_equal.
    destruct ph, lm; simpl; lia. }
  inversion Hr; subst; cbn [litem_text] in *; rewrite ?app_assoc in Hfit.
  - exists [b], t0, ap. split_and!; [done..|]. cbn [app] in Hf. apply cstr_cons in Hf as (_ & Hb & _).
    unfold vp_body. mrun (onmem_pure (ldc fmt) (wrote o) _ (ldc_ret _ _ _ Hb)).
    rewrite schar_nz by done. rewrite (proj2 (Z.ltb_lt _ _) Ho). cbn [negb andb].
    change (ch "%") with (schar "%"). rewrite schar_ne by done. mrun (out_ret o (schar b) Ho).
    by rewrite byte_of_schar.
  - exists (str "%"), t0, ap. split_and!; [done..|]. eapply (Hspec false false "%"%byte); [done..|].
    unfold vp_switch. decide_chars. by mrun (out_ret o (ch "%") Ho).
  - exists (str "(nil)"), t0, ap0. split_and!; [done..|]. eapply (Hspec false false "s"%byte); [done..|].
    unfold vp_switch. decide_chars. by mrun (vp_nil_ret o ap0 (Spec false false true false 6) ltac:(fits)).
  - exists w, t0, ap0. split_and!; [done..|]. eapply (Hspec false false "s"%byte); [done..|].
    unfold vp_switch. decide_chars.
    by mrun (vp_str_ret o ap0 s w (Spec false false true false 6) ltac:(done) ltac:(done) ltac:(done) ltac:(done) ltac:(fits)).
  - exists [byte.of_Z a], t0, ap0. split_and!; [done..|]. eapply (Hspec false false "c"%byte); [done..|].
    unfold vp_switch. decide_chars. cbn [va_next]. rewrite mret_bind. cbv beta iota.
    mrun (out_ret o (s8 a) Ho). munfold.
    replace (byte.of_Z (s8 a)) with (byte.of_Z a); [done|]. apply byte.unsigned_inj.
    rewrite !byte.unsigned_of_Z. unfold byte.wrap. cint.
  - exists (dec_text lg u a), t0, ap0. split_and!; [done..|]. destruct u.
    + eapply (Hspec false lg "u"%byte); [by destruct lg|done|]. unfold vp_switch. decide_chars.
      by mrun (vp_dec_ret o ap0 a (Spec false lg false false 6) ltac:(cbn [longmode sig negb]; fits)).
    + eapply (Hspec false lg "d"%byte); [by destruct lg|done|]. unfold vp_switch. decide_chars.
      by mrun (vp_dec_ret o ap0 a (Spec false lg true false 6) ltac:(cbn [longmode sig negb]; fits)).
  - exists (hex_text p lg a), t0, ap0. split_and!; [done..|].
    eapply (Hspec p lg "x"%byte); [by destruct p, lg|done|]. unfold vp_switch. decide_chars.
    by mrun (vp_hex_ret o ap0 a (Spec p lg true false 6) ltac:(cbn [longmode prehex]; fits)).
  - exists (hex_text true true a), t0, ap0. split_and!; [done..|].
    eapply (Hspec false false "p"%byte); [done..|]. unfold vp_switch. decide_chars.
    by mrun (vp_hex_ret o ap0 a (Spec true true true false 6) ltac:(cbn [longmode prehex]; fits)).
Qed.
End Fits.

Section Correct.
Context {K : Type}.

Lemma vprintf_ret (p : proc K) d e fmt l ap t :
  mapped (p_mem p) d (e - d) -> cstr (p_mem p) fmt (concat (litem_text <$> l)) ->
  e <= fmt \/ fmt + Z.of_nat (length (concat (litem_text <$> l))) < d ->
  lrenders (p_mem p) d e l ap t -> d + Z.of_nat (length t) < e -> Z.of_nat (length t) < 2 ^ 31 ->
  _vprintf fmt ap d e p = Ret (Z.of_nat (length t)) (set_mem (mwrite (p_mem p) d (t ++ [x00])) p).
Proof.
  intros Hm Hf Hfd Hr Hfit Hlen. unfold _vprintf. mrun (onmem_pure scan_fuel p _ eq_refl).
  assert (forall n fmt l ap o t, cstr (p_mem p) fmt (concat (litem_text <$> l)) ->
    e <= fmt \/ fmt + Z.of_nat (length (concat (litem_text <$> l))) < d ->
    lrenders (p_mem p) d e l ap t -> pos d (o ++ t) < e -> (length l < n)%nat ->
    loop n (vp_body e) (fmt, pos d o, ap) (wrote p d o) = Ret (pos d (o ++ t)) (wrote p d (o ++ t))) as Hloop.
  { clear -Hm. induction n as [|n IH]; intros fmt l ap o t Hf Hfd Hr Hfit Hn; [lia|]. rewrite loop_S.
    assert (pos d o <= e) as Ho by fits.
    pose proof (wrote_cstr p d e o _ _ Hf Hfd Ho) as Hf'. destruct l as [|i l].
    - inversion Hr; subst. cbn in Hf'. apply cstr_nil in Hf'. unfold vp_body.
      mrun (onmem_pure (ldc fmt) (wrote p d o) _ (ldc_ret _ _ _ Hf')). by rewrite app_nil_r.
    - destruct (vp_item p d e Hm i l ap t o fmt Hf' Hr Hfit) as (t1 & t2 & ap' & -> & Hr2 & E).
      rewrite E. rewrite app_assoc in *. cbn [fmap list_fmap concat] in Hf, Hfd. rewrite length_app in Hfd.
      apply cstr_app_r in Hf. cbn [length] in Hn. apply (IH _ l); [done|change (list_fmap _ _ litem_text l) with (litem_text <$> l) in Hfd; lia|done..|lia]. }
  assert (p = wrote p d []) as Ep by (by destruct p).
  assert (d = pos d []) as Ed by (unfold pos; simpl; lia).
  specialize (Hloop (S (size (p_mem p))) fmt l ap [] t Hf Hfd Hr). cbn [app] in Hloop.
  rewrite <- Ep, <- Ed in Hloop.
  assert (length l <= length (concat (litem_text <$> l)))%nat as Hle.
  { clear. induction l as [|i l IH]; cbn; [lia|]. rewrite length_app.
    enough (1 <= length (litem_text i))%nat by (cbn in IH; lia). destruct i; simpl; lia. }
  mrun (Hloop Hfit ltac:(apply cstr_size in Hf; lia)). unfold pos in *.
  rewrite (proj2 (Z.ltb_ge e _)) by lia.
  assert (is_Some (p_mem (wrote p d t) !! (d + Z.of_nat (length t)))) as Hs
    by (eapply mapped_mwrite; [exact Hm|lia]).
  mrun (onmem_ret _ (wrote p d t) _ _ (stc_ret _ _ 0 Hs)). munfold. f_equal.
  - rewrite swrap_id by (unfold_int; lia). lia.
  - unfold wrote. by rewrite mwrite_snoc.
Qed.

(** Literal text: what is written when the buffer ends first. *)
Lemma vp_literal n fmt t ap (p : proc K) d e o :
  mapped (p_mem p) d (e - d) -> cstr (p_mem p) fmt t -> ~ In "%"%byte t ->
  e < fmt \/ fmt + Z.of_nat (length t) < d -> pos d o <= e -> e <= pos d (o ++ t) -> (length t < n)%nat ->
  loop n (vp_body e) (fmt, pos d o, ap) (wrote p d o)
  = Ret e (wrote p d (o ++ take (Z.to_nat (e - pos d o)) t)).
Proof.
  intros Hm. revert fmt t o. induction n as [|n IH]; intros fmt t o Hf Ht Hfd Ho Hfit Hn; [lia|].
  rewrite loop_S. pose proof (wrote_cstr p d e o _ _ Hf ltac:(lia) Ho) as Hf'. unfold vp_body at 1.
  mrun (onmem_pure (ldc fmt) (wrote p d o) _ (ldc_ret _ _ _ (cstr_hd _ _ _ Hf'))).
  destruct (decide (pos d o = e)) as [Eo|Hne].
  - rewrite (proj2 (Z.ltb_ge (pos d o) e)), andb_false_r by lia. rewrite Eo, Z.sub_diag. cbn [Z.to_nat take].
    by rewrite app_nil_r.
  - destruct t as [|b t]; [rewrite app_nil_r in Hfit; lia|].
    apply cstr_cons in Hf as (Hb & _ & Hf). cbn [hd].
    assert (b <> "%"%byte /\ ~ In "%"%byte t) as [Hb' Ht'] by (cbn in Ht; split; [intros ->|]; tauto).
    rewrite (schar_nz b Hb), (proj2 (Z.ltb_lt _ _)) by lia. cbn [negb andb].
    change (ch "%") with (schar "%"). rewrite (schar_ne b) by done.
    mrun (out_ret p d e Hm o (schar b) ltac:(lia)). rewrite byte_of_schar. munfold.
    assert (o ++ b :: t = (o ++ [b]) ++ t) as E by by rewrite <- app_assoc. rewrite E in Hfit.
    rewrite (IH (fmt + 1) t); [|done|done|cbn [length] in *; lia|fits|done|cbn [length] in *; lia]. f_equal. f_equal.
    rewrite <- app_assoc. f_equal. replace (Z.to_nat (e - pos d o)) with (S (Z.to_nat (e - pos d (o ++ [b])))) by fits.
    done.
Qed.
End Correct.

(** ** Properties *)

(** A process whose memory is [m]. *)
Definition demo_proc (m : mem) : proc unit := Proc m 0 tt.

(** C22: for every format made of literal text and the conversions [%%], [%s],
    [%c], [%d], [%u], [%x], [%p], with [l] and [#], that denotes a text shorter
    than the buffer, [vsnprintf] stores the text and a NUL, changes nothing else,
    and returns the length of the text. *)
Theorem l_vsnprintf_correct {K} (p : proc K) dst sz fmt l ap t :
  mapped (p_mem p) dst sz -> cstr (p_mem p) fmt (concat (litem_text <$> l)) ->
  dst + sz <= fmt \/ fmt + Z.of_nat (length (concat (litem_text <$> l))) < dst ->
  lrenders (p_mem p) dst (dst + sz) l ap t -> Z.of_nat (length t) < sz -> Z.of_nat (length t) < 2 ^ 31 ->
  vsnprintf dst sz fmt ap p
  = Ret (Z.of_nat (length t)) (set_mem (mwrite (p_mem p) dst (t ++ [x00])) p).
Proof.
  intros Hm Hf Hfd Hr Hfit Hlen. unfold vsnprintf.
  apply (vprintf_ret p dst (dst + sz) fmt l ap t); try done; [|lia].
  by replace (dst + sz - dst) with sz by lia.
Qed.

Lemma l_vsnprintf_correct_witness :
  let m := mwrite (mwrite (mwrite ∅ 100 (str "%s: %ld %#x" ++ [x00])) 200 (str "ab" ++ [x00])) 300
    (replicate 20 x01) in
  vsnprintf 300 20 100 [200; -7; 49374] (demo_proc m)
  = Ret 13 (set_mem (mwrite m 300 (str "ab: -7 0xc0de" ++ [x00])) (demo_proc m)).
Proof.
  intros m.
  apply (l_vsnprintf_correct (demo_proc m) 300 20 100
    [LStr; LLit ":"; LLit " "; LDec true false; LLit " "; LHex true false]
    [200; -7; 49374] (str "ab: -7 0xc0de")).
  - intros a Ha. unfold m. cbn [p_mem demo_proc]. rewrite mwrite_lookup, decide_True by (cbn [length replicate]; lia).
    apply lookup_lt_is_Some. cbn [length replicate]. lia.
  - apply (bool_decide_unpack _); vm_compute; exact I.
  - right. by vm_compute.
  - change (str "ab: -7 0xc0de")
      with (str "ab" ++ ":"%byte :: " "%byte :: dec_text true false (-7) ++ " "%byte :: hex_text true false 49374 ++ []).
    apply lr_str; [done|apply (bool_decide_unpack _); vm_compute; exact I|right; by vm_compute|].
    apply lr_lit; [done..|]. apply lr_lit; [done..|]. apply lr_dec. apply lr_lit; [done..|]. apply lr_hex, lr_nil.
  - by vm_compute.
  - by vm_compute.
Defined.

(** When literal text fills the buffer, [vsnprintf] writes one byte more than
    the size it was given: the NUL goes behind the buffer. *)
Theorem l_vsnprintf_overruns {K} (p : proc K) dst sz fmt ap t :
  0 <= sz < 2 ^ 31 -> mapped (p_mem p) dst (sz + 1) -> cstr (p_mem p) fmt t -> ~ In "%"%byte t ->
  dst + sz < fmt \/ fmt + Z.of_nat (length t) < dst -> sz <= Z.of_nat (length t) ->
  vsnprintf dst sz fmt ap p
  = Ret sz (set_mem (mwrite (p_mem p) dst (take (Z.to_nat sz) t ++ [x00])) p).
Proof.
  intros Hsz Hm Hf Ht Hfd Hle. unfold vsnprintf, _vprintf. mrun (onmem_pure scan_fuel p _ eq_refl).
  assert (mapped (p_mem p) dst (dst + sz - dst)) as Hm' by (eapply mapped_le; [exact Hm|lia..]).
  pose proof (vp_literal (S (size (p_mem p))) fmt t ap p dst (dst + sz) [] Hm' Hf Ht ltac:(lia)
    ltac:(fits) ltac:(fits) ltac:(apply cstr_size in Hf; lia)) as E.
  replace (pos dst []) with dst in E by fits. replace (wrote p dst []) with p in E by (by destruct p).
  mrun E. rewrite Z.ltb_irrefl. replace (dst + sz - dst) with sz by lia. cbn [app].
  assert (is_Some (p_mem (wrote p dst (take (Z.to_nat sz) t)) !! (dst + sz))) as Hs
    by (eapply mapped_mwrite; [exact Hm|lia]).
  mrun (onmem_ret _ _ _ _ (stc_ret _ _ 0 Hs)). munfold. f_equal; [apply swrap_id; unfold_int; lia|].
  unfold wrote. cbn [p_mem set_mem]. rewrite mwrite_snoc, length_take. unfold set_mem. cbn. do 3 f_equal. lia.
Qed.

Lemma l_vsnprintf_overruns_witness :
  let m := mwrite (mwrite ∅ 100 (str "abcdef" ++ [x00])) 300 (replicate 5 x01) in
  vsnprintf 300 4 100 [] (demo_proc m) = Ret 4 (set_mem (mwrite m 300 (str "abcd" ++ [x00])) (demo_proc m)).
Proof.
  intros m. apply (l_vsnprintf_overruns (demo_proc m) 300 4 100 [] (str "abcdef")).
  - lia.
  - intros a Ha. unfold m. cbn [p_mem demo_proc]. rewrite mwrite_lookup, decide_True by (cbn [length replicate]; lia).
    apply lookup_lt_is_Some. cbn [length replicate]. lia.
  - apply (bool_decide_unpack _); vm_compute; exact I.
  - intros H. cbn in H. repeat (destruct H as [H|H]; [discriminate H|]). done.
  - right. by vm_compute.
  - by vm_compute.
Defined.
