(* ===== verification/LStdio.v ===== *)
(** * Streams of litc.c

    [FILE] objects, the functions that read and write through their buffers,
    the list of open streams, and formatted output to a stream.  The fields of
    a [FILE] are a record in a store keyed by the address of the struct; its
    buffer is the [BUFSIZ] bytes of memory at offset 8.  One thread runs, so a
    mutex that is taken again never returns ([Spin]).  How often the loops of
    [fread] and [fwrite] run depends on the kernel: they take a bound. *)

From S2P Require Import Prelude CMem LBase LString LSyscall DList LAlloc LPrintf.

Record FILE : Type := File {
  f_fd : Z;
  f_btype : Z;
  f_p : Z;
  f_end : Z;
  f_eof : Z;
  f_error : Z;
  f_writing : Z;
  f_mut : Z;
  f_lnext : Z;
  f_lprev : Z
}.

Abbreviation _IOFBF := (1)%Z.
Abbreviation _IOLBF := (2)%Z.
Abbreviation _IONBF := (3)%Z.
Definition BUFSIZ : Z := 4096.
(** [&f->buf[0]] and [sizeof(FILE)] *)
Definition fbuf (f : Z) : Z := f + 8.
Definition FILE_size : Z := 4152.

Definition set_fd z f := File z (f_btype f) (f_p f) (f_end f) (f_eof f) (f_error f) (f_writing f) (f_mut f) (f_lnext f) (f_lprev f).
Definition set_btype z f := File (f_fd f) z (f_p f) (f_end f) (f_eof f) (f_error f) (f_writing f) (f_mut f) (f_lnext f) (f_lprev f).
Definition set_p z f := File (f_fd f) (f_btype f) z (f_end f) (f_eof f) (f_error f) (f_writing f) (f_mut f) (f_lnext f) (f_lprev f).
Definition set_end z f := File (f_fd f) (f_btype f) (f_p f) z (f_eof f) (f_error f) (f_writing f) (f_mut f) (f_lnext f) (f_lprev f).
Definition set_eof z f := File (f_fd f) (f_btype f) (f_p f) (f_end f) z (f_error f) (f_writing f) (f_mut f) (f_lnext f) (f_lprev f).
Definition set_error z f := File (f_fd f) (f_btype f) (f_p f) (f_end f) (f_eof f) z (f_writing f) (f_mut f) (f_lnext f) (f_lprev f).
Definition set_writing z f := File (f_fd f) (f_btype f) (f_p f) (f_end f) (f_eof f) (f_error f) z (f_mut f) (f_lnext f) (f_lprev f).
Definition set_mut z f := File (f_fd f) (f_btype f) (f_p f) (f_end f) (f_eof f) (f_error f) (f_writing f) z (f_lnext f) (f_lprev f).
Definition set_lnext z f := File (f_fd f) (f_btype f) (f_p f) (f_end f) (f_eof f) (f_error f) (f_writing f) (f_mut f) z (f_lprev f).
Definition set_lprev z f := File (f_fd f) (f_btype f) (f_p f) (f_end f) (f_eof f) (f_error f) (f_writing f) (f_mut f) (f_lnext f) z.

#[export] Instance file_links : Links FILE := {|
  nx := f_lnext; pv := f_lprev; with_nx := set_lnext; with_pv := set_lprev;
  nx_with_nx _ _ := eq_refl; pv_with_nx _ _ := eq_refl;
  nx_with_pv _ _ := eq_refl; pv_with_pv _ _ := eq_refl |}.

(** Where the linker put the static objects and the string literals, and where
    the local arrays are: [lbuf] of [vfprintf] for each depth of nested calls,
    [st] of [_fopen], [buf] of [_fgetc], [p] of [err].  [_fopen] calls [open]
    without its third argument: [noarg] is what [va_arg] then finds. *)
Class Image : Type := {
  lit : string -> Z;
  stdin : Z;
  stdout : Z;
  stderr : Z;
  __progname : Z;
  lbuf : nat -> Z;
  statbuf : Z;
  cbuf : Z;
  errbuf : Z;
  noarg : Z
}.

(** The process with the static variable [_allfiles]. *)
Record stdio (K : Type) : Type := Stdio {
  sd_heap : heap K;
  sd_files : gmap Z FILE;
  all_head : Z;
  all_mut : Z
}.
Arguments Stdio {K} _ _ _ _.
Arguments sd_heap {K} _.
Arguments sd_files {K} _.
Arguments all_head {K} _.
Arguments all_mut {K} _.

(** [S_ISREG(st.st_mode)]; [st_mode] is at offset 24 of [struct stat]. *)
Definition S_IFMT : Z := 61440.
Definition S_IFREG : Z := 32768.
Definition S_ISREG (m : Z) : bool := Z.land m S_IFMT =? S_IFREG.
Definition st_mode : Z := 24.

Section Stdio.
Context {K : Type} `{Kernel K} `{Image}.

Definition set_heap (h : heap K) (s : stdio K) : stdio K :=
  Stdio h (sd_files s) (all_head s) (all_mut s).
Definition set_files (m : gmap Z FILE) (s : stdio K) : stdio K :=
  Stdio (sd_heap s) m (all_head s) (all_mut s).
Definition set_head (z : Z) (s : stdio K) : stdio K :=
  Stdio (sd_heap s) (sd_files s) z (all_mut s).
Definition set_allmut (z : Z) (s : stdio K) : stdio K :=
  Stdio (sd_heap s) (sd_files s) (all_head s) z.

Definition onheap {A} (f : M (heap K) A) : M (stdio K) A := zoom sd_heap set_heap f.
Definition onp {A} (f : M (proc K) A) : M (stdio K) A := onheap (onproc f).
Definition om {A} (f : M mem A) : M (stdio K) A := onp (onmem f).

(** Reading a [FILE] and assigning to its fields. *)
Definition ldf (a : Z) : M (stdio K) FILE := fun s =>
  match sd_files s !! a with Some f => Ret f s | None => Ub end.
Definition stf (a : Z) (g : FILE -> FILE) : M (stdio K) unit :=
  x ← ldf a; modify (fun s => set_files (<[a := g x]> (sd_files s)) s).

Definition is_dolock : M (stdio K) bool := gets (fun s => negb (dolock (sd_heap s) =? 0)).

(** [pthread_mutex_lock(&f->mut)], for the mutex of a stream and of the list. *)
Definition lockf (a : Z) : M (stdio K) unit :=
  b ← is_dolock;
  if b : bool then x ← ldf a; if f_mut x =? 0 then stf a (set_mut 1) else spin else mret tt.
Definition unlockf (a : Z) : M (stdio K) unit := stf a (set_mut 0).
Definition lockall : M (stdio K) unit :=
  b ← is_dolock;
  if b : bool then m ← gets all_mut; if m =? 0 then modify (set_allmut 1) else spin else mret tt.
Definition unlockall : M (stdio K) unit := modify (set_allmut 0).

(** [lock; ret = e; unlock; return ret] *)
Definition locked {A} (a : Z) (e : M (stdio K) A) : M (stdio K) A :=
  _ ← lockf a; r ← e; _ ← unlockf a; mret r.

Definition _ferror (f : Z) : M (stdio K) Z := x ← ldf f; mret (f_error x).
Definition ferror (f : Z) : M (stdio K) Z := locked f (_ferror f).
Definition fileno (f : Z) : M (stdio K) Z := locked f (x ← ldf f; mret (f_fd x)).
Definition _feof (f : Z) : M (stdio K) Z := x ← ldf f; mret (f_eof x).
Definition feof (f : Z) : M (stdio K) Z := locked f (_feof f).

(** The macro [FDINIT]; the object is static, its other fields are zero. *)
Definition FDINIT (f fdn bt : Z) : M (stdio K) unit :=
  h ← gets all_head;
  _ ← modify (fun s => set_files (<[f := File fdn bt (fbuf f) (fbuf f) 0 0 0 0 h 0]> (sd_files s)) s);
  _ ← (if h =? 0 then mret tt else stf h (set_lprev f));
  modify (set_head f).
Definition fdinit : M (stdio K) unit :=
  _ ← FDINIT stdin 0 _IONBF; _ ← FDINIT stdout 1 _IONBF; _ ← FDINIT stderr 2 _IONBF;
  modify (set_allmut 0).

(** ** Output *)

Section Out.
Context (fuel : nat).
(** [printf], which [_fflush] and [vfprintf] call for their messages. *)
Context (printf : Z -> list Z -> M (stdio K) Z).

Definition _fflush (f : Z) : M (stdio K) Z :=
  x ← ldf f;
  if f_writing x =? 0 then mret 0
  else
    let bst := fbuf f in
    let len := u64 (f_p x - bst) in
    r ← onp (write (f_fd x) bst len);
    if r <? 0 then e ← onp errno; _ ← stf f (set_error e); mret EOF
    else if negb (r =? len) then
      _ ← printf (lit "asked: %zu, actual: %zu\n") [len; r]; mret EOF
    else _ ← stf f (fun x => set_p bst (set_end bst x)); mret 0.

Definition _fwrite1 (src left f : Z) : M (stdio K) Z :=
  x ← ldf f;
  if negb ((f_btype x =? _IOFBF) || (f_btype x =? _IONBF)) then onp (errx (-1))
  else if f_btype x =? _IONBF then
    r ← onp (write (f_fd x) src left);
    if r <? 0 then e ← onp errno; _ ← stf f (set_error e); mret 0 else mret r
  else
    let bst := fbuf f in
    let bend := bst + BUFSIZ in
    _ ← (if f_writing x =? 0 then stf f (fun x => set_writing 1 (set_p bst (set_end bst x))) else mret tt);
    x ← ldf f;
    full ← (if f_p x =? bend then
              r ← _fflush f;
              if r =? 0 then _ ← stf f (fun x => set_p bst (set_end bst x)); mret false else mret true
            else mret false);
    if full : bool then mret 0
    else
      x ← ldf f;
      let put := Z.min (u64 (bend - f_p x)) left in
      _ ← om (memmove (f_p x) src put);
      _ ← stf f (fun x => let p := f_p x + put in set_p p (set_end (Z.max p (f_end x)) x));
      mret put.

(** The loop of [fwrite] and what follows it, with [n] turns left. *)
Definition fwrite_turn (f : Z) : Z * Z * Z -> M (stdio K) (Z * Z * Z + Z) := fun '(src, rest, ret) =>
  e ← _ferror f;
  if (0 <? rest) && (e =? 0) then
    c ← _fwrite1 src rest f; mret (inl (src + c, rest - c, ret + c))
  else mret (inr ret).
Definition fwrite_rest (n : nat) (src rest ret sz f : Z) : M (stdio K) Z :=
  ret ← loop n (fwrite_turn f) (src, rest, ret);
  _ ← unlockf f;
  mret (ret / sz).

Definition fwrite (src sz cnt f : Z) : M (stdio K) Z :=
  if sz =? 0 then mret 0
  else if ULONG_MAX / sz <? cnt then _ ← onp (seterrno (- EOVERFLOW)); mret 0
  else _ ← lockf f; fwrite_rest fuel src (u64 (cnt * sz)) 0 sz f.

Definition vfprintf (buf f fmt : Z) (ap : list Z) : M (stdio K) Z :=
  n ← om (strlen fmt);
  _ ← (if 2048 <=? n then _ ← printf (lit "warning: fmt too long\n") []; mret tt else mret tt);
  ret ← onp (vsnprintf buf 2048 fmt ap);
  wrote ← fwrite buf (u64 ret) 1 f;
  mret (s32 wrote).
End Out.

(** [stdout] is unbuffered, so the calls nest only for messages. *)
Fixpoint printf_at (fuel depth : nat) (fmt : Z) (ap : list Z) : M (stdio K) Z :=
  match depth with
  | O => spin
  | S depth => vfprintf fuel (printf_at fuel depth) (lbuf depth) stdout fmt ap
  end.
Definition printf (fuel : nat) : Z -> list Z -> M (stdio K) Z := printf_at fuel 2.
Definition fprintf (fuel : nat) (f fmt : Z) (ap : list Z) : M (stdio K) Z :=
  vfprintf fuel (printf fuel) (lbuf 2) f fmt ap.
(** [vprintf] writes to descriptor 1 without the stream. *)
Definition vprintf (fuel : nat) (fmt : Z) (ap : list Z) : M (stdio K) Z :=
  n ← om (strlen fmt);
  _ ← (if 2048 <=? n then _ ← printf fuel (lit "warning: fmt too long\n") []; mret tt else mret tt);
  ret ← onp (vsnprintf (lbuf 2) 2048 fmt ap);
  _ ← onp (write 1 (lbuf 2) ret);
  mret ret.

(** The list is walked from its head: one step for each stream. *)
Definition fflush (fuel : nat) (f : Z) : M (stdio K) Z :=
  let one f := locked f (_fflush (printf fuel) f) in
  if f =? 0 then
    _ ← lockall;
    h ← gets all_head;
    n ← gets (fun s => size (sd_files s));
    ret ← loop (S n) (fun '(f, ret) =>
      if f =? 0 then mret (inr ret)
      else r ← one f; x ← ldf f; mret (inl (f_lnext x, Z.lor ret r))) (h, 0);
    _ ← unlockall;
    mret ret
  else one f.

(** ** Ending the process *)

Definition exit (fuel : nat) (ret : Z) : M (stdio K) unit :=
  r ← fflush fuel 0;
  _ ← (if r =? 0 then mret tt
       else _ ← fprintf fuel stderr (lit "warning: failed to fflush\n") []; mret tt);
  onp (_exit ret).

Definition set_dolock (z : Z) (s : stdio K) : stdio K :=
  set_heap (let h := sd_heap s in Heap (hp_proc h) (hdrs h) (allh h) (curh h) (bump h) (biglock h) z) s.

Definition errx_ (fuel : nat) (eval fmt : Z) (ap : list Z) : M (stdio K) unit :=
  _ ← modify (set_dolock 0);
  _ ← fprintf fuel stderr (lit "%s: ") [__progname];
  _ ← fprintf fuel stderr fmt ap;
  _ ← fprintf fuel stderr (lit "\n") [];
  exit fuel eval.

Definition abort (fuel : nat) : M (stdio K) unit := errx_ fuel (-1) (lit "abort") [].

(** ** Opening and closing *)

(** The flags of a mode string; [None] for a mode that is not supported. *)
Definition open_flags (c plus x : Z) : option Z :=
  let excl fl := if x =? 0 then fl else Z.lor fl O_EXCL in
  let rw := if plus =? 0 then O_WRONLY else O_RDWR in
  if c =? ch "r" then Some (if plus =? 0 then O_RDONLY else O_RDWR)
  else if c =? ch "w" then Some (excl (Z.lor (Z.lor rw O_CREAT) O_TRUNC))
  else if c =? ch "a" then Some (excl (Z.lor (Z.lor rw O_CREAT) O_APPEND))
  else None.

(** The buffering of a new stream, and its entry into the list. *)
Definition file_type (fd : Z) : M (stdio K) Z :=
  r ← onp (fstat fd statbuf);
  reg ← (if r =? 0 then m ← om (load32 (statbuf + st_mode)); mret (S_ISREG m) else mret false);
  mret (if reg : bool then _IOFBF else _IONBF).
Definition link_file (ret fd bt : Z) : M (stdio K) unit :=
  _ ← lockall;
  h ← gets all_head;
  _ ← modify (fun s =>
    set_files (<[ret := File fd bt (fbuf ret) (fbuf ret) 0 0 0 0 h 0]> (sd_files s)) s);
  _ ← (if h =? 0 then mret tt else stf h (set_lprev ret));
  _ ← modify (set_head ret);
  unlockall.

Definition _fopen (path gfd mode : Z) : M (stdio K) Z :=
  plus ← om (strchr mode (ch "+"));
  x ← om (strchr mode (ch "x"));
  c ← om (ldc mode);
  match open_flags c plus x with
  | None => _ ← onp (seterrno EINVAL); mret 0
  | Some flags =>
      e ← om (strchr mode (ch "e"));
      let flags := if e =? 0 then flags else Z.lor flags O_CLOEXEC in
      ret ← onheap (malloc FILE_size);
      if ret =? 0 then _ ← onp (seterrno ENOMEM); mret 0
      else
        _ ← om (memset ret 0 FILE_size);
        fd ← (if negb (path =? 0) then onp (open path flags noarg)
              else _ ← (if gfd <? 0 then onp (seterrno EBADF) else mret tt); mret gfd);
        if fd <? 0 then _ ← onheap (free ret); mret 0
        else
          bt ← file_type fd;
          _ ← link_file ret fd bt;
          mret ret
  end.

Definition fdopen (fd mode : Z) : M (stdio K) Z := _fopen 0 fd mode.
Definition fopen (path mode : Z) : M (stdio K) Z := _fopen path (-1) mode.

(** The struct is gone with its block. *)
Definition fclose (fuel : nat) (f : Z) : M (stdio K) Z :=
  _ ← lockall;
  x ← ldf f;
  _ ← (if f_lnext x =? 0 then mret tt else stf (f_lnext x) (set_lprev (f_lprev x)));
  x ← ldf f;
  _ ← (if f_lprev x =? 0 then mret tt else stf (f_lprev x) (set_lnext (f_lnext x)));
  h ← gets all_head;
  x ← ldf f;
  _ ← (if h =? f then modify (set_head (f_lnext x)) else mret tt);
  _ ← unlockall;
  _ ← lockf f;
  _ ← _fflush (printf fuel) f;
  _ ← stf f (fun x => set_fd (-1) (set_p 1 (set_end 0 x)));
  _ ← unlockf f;
  _ ← onheap (free f);
  _ ← modify (fun s => set_files (delete f (sd_files s)) s);
  mret 0.

(** ** Input *)

(** The result of [read] is stored in a [size_t], so it is never below zero. *)
Definition _fread1 (fuel : nat) (dst left f : Z) : M (stdio K) Z :=
  x ← ldf f;
  if negb ((f_btype x =? _IOFBF) || (f_btype x =? _IONBF)) then onp (errx (-1))
  else if f_btype x =? _IONBF then
    r ← onp (read (f_fd x) dst left);
    if r <? 0 then e ← onp errno; _ ← stf f (set_error e); mret 0 else mret r
  else
    r ← _fflush (printf fuel) f;
    if negb (r =? 0) then mret 0
    else
      _ ← stf f (set_writing 0);
      x ← ldf f;
      eof ← (if (f_p x =? f_end x) && (f_eof x =? 0) && (f_error x =? 0) then
               let bst := fbuf f in
               r ← onp (read (f_fd x) bst BUFSIZ);
               let r := u64 r in
               if r =? 0 then _ ← stf f (set_eof 1); mret true
               else _ ← stf f (fun x => set_p bst (set_end (u64 (bst + r)) x)); mret false
             else mret false);
      if eof : bool then mret 0
      else
        x ← ldf f;
        let n := Z.min left (u64 (f_end x - f_p x)) in
        _ ← om (memmove dst (f_p x) n);
        _ ← stf f (fun x => set_p (f_p x + n) x);
        mret n.

Definition fread_turn (fuel : nat) (f : Z) : Z * Z * Z -> M (stdio K) (Z * Z * Z + Z) := fun '(dst, rest, ret) =>
  eof ← _feof f;
  e ← _ferror f;
  if (0 <? rest) && (eof =? 0) && (e =? 0) then
    c ← _fread1 fuel dst rest f; mret (inl (dst + c, rest - c, ret + c))
  else mret (inr ret).

Definition fread (fuel : nat) (dst sz cnt f : Z) : M (stdio K) Z :=
  if sz =? 0 then mret 0
  else if ULONG_MAX / sz <? cnt then _ ← onp (seterrno (- EOVERFLOW)); mret 0
  else
    _ ← lockf f;
    ret ← loop fuel (fread_turn fuel f) (dst, u64 (cnt * sz), 0);
    _ ← unlockf f;
    mret (ret / sz).

(** The character is a [char], so a byte above 127 gives a negative result. *)
Definition _fgetc (fuel : nat) (f : Z) : M (stdio K) Z :=
  r ← _fread1 fuel cbuf 1 f;
  if negb (r =? 1) then mret EOF else om (ldc cbuf).
Definition fgetc (fuel : nat) (f : Z) : M (stdio K) Z := locked f (_fgetc fuel f).

Definition _ungetc (c f : Z) : M (stdio K) Z :=
  x ← ldf f;
  if f_p x =? fbuf f then mret EOF
  else
    let put := u8 c in
    _ ← stf f (set_p (f_p x - 1));
    _ ← om (stc (f_p x - 1) put);
    _ ← stf f (set_eof 0);
    mret put.
Definition ungetc (c f : Z) : M (stdio K) Z :=
  if c =? EOF then mret c else locked f (_ungetc c f).

(** The loop of [fgets] compares an unsigned [c] with [size - 1], which for a
    size of at least one is a natural number of characters to read. *)
Definition fgets (fuel : nat) (buf size f : Z) : M (stdio K) Z :=
  if size =? 0 then mret 0
  else
    size ← schk 32 (size - 1);
    _ ← lockf f;
    '(ret, c) ← loop fuel (fun c =>
      if c <? u64 size then
        ch' ← _fgetc fuel f;
        if ch' =? EOF then mret (inr (if 0 <? c then buf else 0, c))
        else
          _ ← om (stc (buf + c) ch');
          if ch' =? 10 then mret (inr (buf, c + 1)) else mret (inl (c + 1))
      else mret (inr (buf, c))) 0;
    _ ← om (stc (buf + c) 0);
    _ ← unlockf f;
    mret ret.

Definition SEEK_CUR : Z := 2.
Definition ftello (f : Z) : M (stdio K) Z :=
  x ← ldf f; onp (lseek (f_fd x) 0 SEEK_CUR).
End Stdio.

(** ** What the streams rely on

    [read] and [write] on a descriptor, in the form in which the arguments
    reach the kernel: [kout] is what was written to a descriptor so far, [kin]
    what is still to be read from it; [kio] bounds what the two calls do to the
    rest of the kernel's state.  A failing call returns an error number
    and has no effect.  [write] accepts a prefix of the bytes; [read] delivers a
    nonempty prefix of the input, or nothing at its end. *)
Class FileKernel (K : Type) `{Kernel K} : Type := {
  kout : K -> Z -> list byte;
  kin : K -> Z -> list byte;
  kio : relation K;
  #[global] kio_pre :: PreOrder kio;
  kwrite m k fd a l :
    0 <= fd < 2 ^ 31 -> bytes_at m a l -> Z.of_nat (length l) < 2 ^ 31 ->
    exists r k', ktrap SYS_WRITE (trap_args karch fd a (Z.of_nat (length l)) 0 0 0) m k = Some (r, m, k') /\ kio k k' /\
      (forall fd', fd' <> fd -> kout k' fd' = kout k fd') /\ (forall fd', kin k' fd' = kin k fd') /\
      ((- ERRNO_LAST <= r <= - ERRNO_FIRST /\ kout k' fd = kout k fd) \/
       (0 <= r <= Z.of_nat (length l) /\ kout k' fd = kout k fd ++ take (Z.to_nat r) l));
  kread m k fd a len :
    0 <= fd < 2 ^ 31 -> mapped m a len -> 0 < len < 2 ^ 31 ->
    exists r m' k', ktrap SYS_READ (trap_args karch fd a len 0 0 0) m k = Some (r, m', k') /\ kio k k' /\
      (forall fd', fd' <> fd -> kin k' fd' = kin k fd') /\ (forall fd', kout k' fd' = kout k fd') /\
      ((- ERRNO_LAST <= r <= - ERRNO_FIRST /\ kin k' fd = kin k fd /\ m' = m) \/
       (0 <= r <= len /\ kin k fd = take (Z.to_nat r) (kin k fd) ++ kin k' fd /\
        length (take (Z.to_nat r) (kin k fd)) = Z.to_nat r /\ (r = 0 -> kin k fd = []) /\
        m' = mwrite m a (take (Z.to_nat r) (kin k fd))))
}.

(** A kernel that writes everything or fails, as for regular files. *)
Definition full_writes {K} `{Kernel K} : Prop :=
  forall m k fd a n r m' k', ktrap SYS_WRITE (trap_args karch fd a n 0 0 0) m k = Some (r, m', k') ->
  0 <= n -> 0 <= r -> r = n.
(** A kernel whose reads do not fail. *)
Definition sure_reads {K} `{Kernel K} : Prop :=
  forall m k fd a n r m' k', ktrap SYS_READ (trap_args karch fd a n 0 0 0) m k = Some (r, m', k') -> 0 <= r.

Section Frame.
Context {K : Type} {KK : Kernel K} {IM : Image}.
Implicit Types s : stdio K.

Definition pr s : proc K := hp_proc (sd_heap s).
Definition fmem s : mem := p_mem (pr s).
Definition kern s : K := p_kern (pr s).
Definition with_proc (p : proc K) s : stdio K := set_heap (set_proc p (sd_heap s)) s.
Definition with_file (f : Z) (x : FILE) s : stdio K := set_files (<[f := x]> (sd_files s)) s.

Lemma onp_ret {A} (g : M (proc K) A) s a p' :
  g (pr s) = Ret a p' -> onp g s = Ret a (with_proc p' s).
Proof. intros E. apply (zoom_ret sd_heap set_heap). by apply (zoom_ret hp_proc set_proc). Qed.

Lemma om_ret {A} (g : M mem A) s a m' :
  g (fmem s) = Ret a m' -> om g s = Ret a (with_proc (set_mem m' (pr s)) s).
Proof. intros E. apply onp_ret. by apply onmem_ret. Qed.

Lemma with_proc_id s : with_proc (pr s) s = s.
Proof. by destruct s as [[]]. Qed.

Lemma onp_pure {A} (g : M (proc K) A) s a : g (pr s) = Ret a (pr s) -> onp g s = Ret a s.
Proof. intros E. by rewrite (onp_ret _ _ _ _ E), with_proc_id. Qed.

Lemma om_pure {A} (g : M mem A) s a : g (fmem s) = Ret a (fmem s) -> om g s = Ret a s.
Proof. intros E. apply onp_pure. by apply onmem_pure. Qed.

(** The process with another memory. *)
Definition with_fmem (m : mem) s : stdio K := with_proc (set_mem m (pr s)) s.

Lemma with_fmem_id s : with_fmem (fmem s) s = s.
Proof. unfold with_fmem, fmem. by rewrite set_mem_id, with_proc_id. Qed.

Lemma with_fmem_twice m1 m2 s : with_fmem m2 (with_fmem m1 s) = with_fmem m2 s.
Proof. done. Qed.

Lemma ld_pure s p k : cstr (fmem s) p k -> om (ldc p) s = Ret (schar (hd x00 k)) s.
Proof. intros Hc. apply om_pure, ldc_ret. by apply cstr_hd. Qed.

Lemma ldf_ret s a x : sd_files s !! a = Some x -> ldf a s = Ret x s.
Proof. intros E. unfold ldf. by rewrite E. Qed.

Lemma stf_ret s a g x : sd_files s !! a = Some x -> stf a g s = Ret tt (with_file a (g x) s).
Proof. intros E. unfold stf. by mrun (ldf_ret _ _ _ E). Qed.

Lemma with_file_lookup s f x : sd_files (with_file f x s) !! f = Some x.
Proof. apply lookup_insert_eq. Qed.

Lemma with_file_twice s f x y : with_file f y (with_file f x s) = with_file f y s.
Proof. unfold with_file, set_files. simpl. by rewrite insert_insert_eq. Qed.

Lemma with_proc_twice s p q : with_proc q (with_proc p s) = with_proc q s.
Proof. done. Qed.

Lemma with_proc_file s f x p : with_file f x (with_proc p s) = with_proc p (with_file f x s).
Proof. done. Qed.

(** [write] and [read] under the contract. *)
Context {FK : FileKernel K}.

Lemma write_ret (p : proc K) fd a l :
  0 <= fd < 2 ^ 31 -> 0 < a < 2 ^ 62 -> bytes_at (p_mem p) a l -> Z.of_nat (length l) < 2 ^ 31 ->
  exists r e k', write fd a (Z.of_nat (length l)) p = Ret r (Proc (p_mem p) e k') /\ kio (p_kern p) k' /\
    (forall fd', fd' <> fd -> kout k' fd' = kout (p_kern p) fd') /\
    (forall fd', kin k' fd' = kin (p_kern p) fd') /\
    ((r = -1 /\ 0 < e /\ kout k' fd = kout (p_kern p) fd) \/
     (0 <= r <= Z.of_nat (length l) /\ (full_writes -> r = Z.of_nat (length l)) /\
      kout k' fd = kout (p_kern p) fd ++ take (Z.to_nat r) l)).
Proof.
  intros Hfd Ha Hl Hlen. unfold write, int_neg, syscall, syscall6.
  assert (SA a = a) as -> by (unfold SA; apply swrap_id; unfold_int; lia).
  assert (SA (Z.of_nat (length l)) = Z.of_nat (length l)) as -> by (unfold SA; apply swrap_id; unfold_int; lia).
  destruct (kwrite (p_mem p) (p_kern p) fd a l Hfd Hl Hlen) as (r & k' & E & Hio & Ho & Hi & Hr).
  unfold ERRNO_LAST, ERRNO_FIRST in Hr. munfold. rewrite E.
  assert (s32 (s64 r) = r) as Er by (rewrite (swrap_id 64), (swrap_id 32) by (unfold_int; lia); done). rewrite Er.
  unfold ERRNO_NEG, neg_errno, seterrno. destruct Hr as [[Hr Hk]|[Hr Hk]].
  - rewrite (proj2 (Z.ltb_lt r 0)) by lia. munfold. rewrite schk_ret by (unfold_int; lia).
    exists (-1), (s32 (- r)), k'. split_and!; [done..|]. left. rewrite swrap_id by (unfold_int; lia). split_and!; [done|lia|done].
  - rewrite (proj2 (Z.ltb_ge r 0)) by lia. exists r, (p_errno p), k'. split_and!; [done..|]. right.
    split_and!; [lia|lia| |done]. intros Hf. apply (Hf _ _ _ _ _ _ _ _ E); lia.
Qed.
(** ** Streams *)

Record file_ok s (f : Z) (x : FILE) : Prop := FileOk {
  fo_file : sd_files s !! f = Some x;
  fo_addr : 0 < f /\ f + FILE_size <= 2 ^ 47;
  fo_fd : 0 <= f_fd x < 2 ^ 31;
  fo_range : fbuf f <= f_p x /\ f_p x <= f_end x /\ f_end x <= fbuf f + BUFSIZ;
  fo_buf : mapped (fmem s) (fbuf f) BUFSIZ
}.

(** A fully buffered stream to which [c] has been written: what the kernel has,
    and behind it what is pending in the buffer. *)
Definition ostream s (f : Z) (x : FILE) (c : list byte) : Prop :=
  file_ok s f x /\ f_btype x = _IOFBF /\
  exists pend, bytes_at (fmem s) (fbuf f) pend /\ c = kout (kern s) (f_fd x) ++ pend /\
    ((f_writing x = 0 /\ pend = []) \/
     (f_writing x = 1 /\ f_p x = fbuf f + Z.of_nat (length pend) /\ f_end x = f_p x)).

(** What an operation on [f] leaves alone. *)
Record onlyf s s' (f : Z) (x x' : FILE) : Prop := OnlyF {
  of_files : sd_files s' = <[f := x']> (sd_files s);
  of_keep : f_fd x' = f_fd x /\ f_btype x' = f_btype x /\ f_mut x' = f_mut x /\
    f_lnext x' = f_lnext x /\ f_lprev x' = f_lprev x;
  of_all : all_head s' = all_head s /\ all_mut s' = all_mut s;
  of_heap : sd_heap s' = set_proc (pr s') (sd_heap s);
  of_mem a : ~ (fbuf f <= a < fbuf f + BUFSIZ) -> fmem s' !! a = fmem s !! a;
  of_out fd : fd <> f_fd x -> kout (kern s') fd = kout (kern s) fd
}.

Lemma with_file_id s f x : sd_files s !! f = Some x -> with_file f x s = s.
Proof. intros E. destruct s. unfold with_file, set_files. simpl in *. by rewrite insert_id. Qed.

Lemma onlyf_refl s f x : sd_files s !! f = Some x -> onlyf s s f x x.
Proof. intros E. split; [by rewrite insert_id|done..|by destruct s as [[] ? ? ?]|done|done]. Qed.

Lemma onlyf_trans s1 s2 s3 f x y z : onlyf s1 s2 f x y -> onlyf s2 s3 f y z -> onlyf s1 s3 f x z.
Proof.
  intros [F1 (K1 & K1b & K1c & K1d & K1e) A1 H1 M1 O1] [F2 (K2 & K2b & K2c & K2d & K2e) A2 H2 M2 O2].
  split.
  - by rewrite F2, F1, insert_insert_eq.
  - by rewrite K2, K2b, K2c, K2d, K2e.
  - destruct A1, A2. split; congruence.
  - rewrite H2, H1. done.
  - intros a Ha. by rewrite M2, M1.
  - intros fd Hfd. rewrite O2 by congruence. by apply O1.
Qed.

(** A write of the [len] pending bytes of which the kernel took only [r]: the
    [FILE] is as before, with all of them pending.  What the kernel took is twice in
    the stream. *)
Definition cut_short s (f : Z) (x : FILE) (c : list byte) (len r : Z) s' : Prop :=
  0 <= r < len /\ ~ full_writes /\
  exists out pend e k, c = out ++ pend /\ Z.of_nat (length pend) = len /\
    s' = with_proc (Proc (fmem s) e k) s /\ (forall fd, fd <> f_fd x -> kout k fd = kout (kern s) fd) /\
    kout k (f_fd x) = out ++ take (Z.to_nat r) pend /\ ostream s' f x (out ++ take (Z.to_nat r) pend ++ pend).

(** The message of [_fflush]. *)
Definition complain (pf : Z -> list Z -> M (stdio K) Z) (len r : Z) : M (stdio K) Z :=
  pf (lit "asked: %zu, actual: %zu\n") [len; r].

(** Flushing: everything reaches the kernel, or the error is recorded, or the write
    is cut short. *)
Lemma fflush_cases pf s f x c :
  ostream s f x c ->
  (exists r x' e' k', _fflush pf f s = Ret r (with_file f x' (with_proc (Proc (fmem s) e' k') s)) /\ kio (kern s) k' /\
    (forall fd, fd <> f_fd x -> kout k' fd = kout (kern s) fd) /\ (forall fd, kin k' fd = kin (kern s) fd) /\
    ((r = 0 /\ kout k' (f_fd x) = c /\
      x' = (if f_writing x =? 0 then x else set_p (fbuf f) (set_end (fbuf f) x))) \/
     (r = EOF /\ 0 < e' /\ x' = set_error e' x /\ kout k' (f_fd x) = kout (kern s) (f_fd x)))) \/
  (exists r s', cut_short s f x c (f_p x - fbuf f) r s' /\
    _fflush pf f s = (_ ← complain pf (f_p x - fbuf f) r; mret EOF) s').
Proof.
  intros (Hok & Hbt & pend & Hp & -> & Hw). pose proof Hok as [Hx Ha Hfd Hr Hb].
  unfold _fflush. mrun (ldf_ret _ _ _ Hx). destruct Hw as [[-> ->]|(Ew & Ep & Ee)]; [left|rewrite Ew].
  - exists 0, x, (p_errno (pr s)), (kern s). split; [|split_and!; [done..|left; by rewrite app_nil_r]].
    rewrite with_file_id by done. cbn. by destruct s as [[[] ? ? ? ? ? ?] ? ? ?].
  - change (1 =? 0) with false. cbv iota zeta. unfold fbuf, BUFSIZ, FILE_size in *.
    assert (u64 (f_p x - (f + 8)) = Z.of_nat (length pend)) as -> by (rewrite uwrap_id by (unfold_int; lia); lia).
    destruct (write_ret (pr s) (f_fd x) (f + 8) pend Hfd ltac:(lia) Hp ltac:(lia))
      as (r & e & k' & E & Hio & Ho & Hi & Hcase).
    mrun (onp_ret _ _ _ _ E). destruct Hcase as [(-> & He & Hk)|(Hrr & Hf & Hk)]; [left|].
    + change (-1 <? 0) with true. cbv iota. set (s1 := with_proc _ s).
      mrun (onp_ret errno s1 e (pr s1) eq_refl).
      rewrite (bind_ret _ _ _ _ _ (stf_ret (with_proc (pr s1) s1) f (set_error e) x Hx)).
      exists EOF, (set_error e x), e, k'. split; [done|]. split_and!; [done..|]. right. done.
    + rewrite (proj2 (Z.ltb_ge r 0)) by lia. destruct (Z.eqb_spec r (Z.of_nat (length pend))) as [->|Hn]; cbn [negb]; [left|right].
      * set (s1 := with_proc _ s).
        rewrite (bind_ret _ _ _ _ _ (stf_ret s1 f (fun x => set_p (f + 8) (set_end (f + 8) x)) x Hx)).
        exists 0, (set_p (f + 8) (set_end (f + 8) x)), e, k'. split; [done|]. split_and!; [done..|]. left.
        split_and!; [done| |done]. by rewrite Hk, Nat2Z.id, take_ge by lia.
      * exists r, (with_proc (Proc (fmem s) e k') s). replace (f_p x - (f + 8)) with (Z.of_nat (length pend)) by lia.
        split; [|done]. split; [lia|]. split; [intros F; by apply Hn, Hf|].
        eexists _, pend, e, k'. split_and!; [done|done|done|exact Ho|exact Hk|]. split_and!; [by split|done|].
        exists pend. split_and!; [done| |right; unfold fbuf; split_and!; [done|lia|done]].
        rewrite app_assoc. f_equal. symmetry. exact Hk.
Qed.

Lemma fflush_ret pf s f x c :
  ostream s f x c -> full_writes ->
  exists r x' e' k', _fflush pf f s = Ret r (with_file f x' (with_proc (Proc (fmem s) e' k') s)) /\ kio (kern s) k' /\
    (forall fd, fd <> f_fd x -> kout k' fd = kout (kern s) fd) /\ (forall fd, kin k' fd = kin (kern s) fd) /\
    ((r = 0 /\ kout k' (f_fd x) = c /\
      x' = (if f_writing x =? 0 then x else set_p (fbuf f) (set_end (fbuf f) x))) \/
     (r = EOF /\ 0 < e' /\ x' = set_error e' x /\ kout k' (f_fd x) = kout (kern s) (f_fd x))).
Proof. intros Hs Hfull. by destruct (fflush_cases pf s f x c Hs) as [|(r & s' & (_ & Hn & _) & _)]. Qed.

(** The fields that no buffer operation changes. *)
Definition fields (x : FILE) : Z * Z * Z * Z * Z := (f_fd x, f_btype x, f_mut x, f_lnext x, f_lprev x).

Lemma onlyf_with s f x x' p :
  fields x' = fields x ->
  (forall a, ~ (fbuf f <= a < fbuf f + BUFSIZ) -> p_mem p !! a = fmem s !! a) ->
  (forall fd, fd <> f_fd x -> kout (p_kern p) fd = kout (kern s) fd) ->
  onlyf s (with_file f x' (with_proc p s)) f x x'.
Proof. intros [= ? ? ? ? ?] Hm Hk. split; done. Qed.

Lemma with_file_proc s f x : with_file f x s = with_file f x (with_proc (pr s) s).
Proof. by destruct s as [[] ? ? ?]. Qed.

Lemma file_ok_with s f x x' p :
  file_ok s f x -> 0 <= f_fd x' < 2 ^ 31 ->
  fbuf f <= f_p x' /\ f_p x' <= f_end x' /\ f_end x' <= fbuf f + BUFSIZ ->
  mapped (p_mem p) (fbuf f) BUFSIZ -> file_ok (with_file f x' (with_proc p s)) f x'.
Proof. intros [Hx Ha _ _ _] Hfd Hr Hm. split; [apply with_file_lookup|done..]. Qed.

Lemma fflush_stream pf s f x c :
  ostream s f x c -> full_writes ->
  exists r x' e' k', let s' := with_file f x' (with_proc (Proc (fmem s) e' k') s) in
    _fflush pf f s = Ret r s' /\ ostream s' f x' c /\ fields x' = fields x /\
    (forall fd, fd <> f_fd x -> kout k' fd = kout (kern s) fd) /\
    ((r = 0 /\ kout k' (f_fd x) = c) \/ (r = EOF /\ f_error x' <> 0)).
Proof.
  intros Hs Hfull. destruct (fflush_ret pf s f x c Hs Hfull) as (r & x' & e' & k' & E & _ & Ho & _ & Hcase).
  exists r, x', e', k'. split; [done|]. destruct Hs as (Hok & Hbt & pend & Hp & Hc & Hw).
  pose proof Hok as [_ _ Hfd Hr Hb].
  destruct Hcase as [(-> & Hk & ->)|(-> & He & -> & Hk)]; (split_and!; [|done || by destruct (f_writing x =? 0)|exact Ho|]).
  - destruct Hw as [[Ew ->]|(Ew & Ep & Ee)]; rewrite Ew;
      [change (0 =? 0) with true|change (1 =? 0) with false]; cbv iota.
    + split_and!; [by apply file_ok_with with x|done|]. exists [].
      split_and!; [done|by rewrite app_nil_r|by left].
    + split_and!; [apply file_ok_with with x; [done|done|cbn; unfold BUFSIZ; lia|done]|done|]. exists [].
      split_and!; [done|cbn; by rewrite app_nil_r|right; cbn; split_and!; [done|lia|done]].
  - by left.
  - split_and!; [by apply file_ok_with with x|done|]. exists pend. split_and!; [done| |done].
    rewrite Hc. f_equal. symmetry. exact Hk.
  - right. split; [done|]. cbn. lia.
Qed.

(** [_fwrite1]: switching the stream to writing. *)
Lemma switch_ret s f x c :
  ostream s f x c ->
  exists x', (if f_writing x =? 0
              then stf f (fun x => set_writing 1 (set_p (fbuf f) (set_end (fbuf f) x))) else mret tt) s
    = Ret tt (with_file f x' s) /\
    ostream (with_file f x' s) f x' c /\ f_writing x' = 1 /\ f_error x' = f_error x /\ fields x' = fields x.
Proof.
  intros (Hok & Hbt & pend & Hp & -> & Hw). pose proof Hok as [Hx Ha Hfd Hr Hb].
  destruct Hw as [[Ew ->]|(Ew & Ep & Ee)]; rewrite Ew.
  - eexists. split; [by apply stf_ret|]. split_and!; [|done..]. split_and!; [|done|].
    + rewrite with_file_proc. apply file_ok_with with x; [done|done|simpl; unfold BUFSIZ; lia|done].
    + exists []. split_and!; [done|done|]. right. split_and!; [done|simpl; lia|done].
  - exists x. rewrite with_file_id by done. split_and!; [done| |done..]. split_and!; [done..|].
    exists pend. split_and!; [done|done|by right].
Qed.

(** A full buffer is flushed. *)
Lemma make_room_ret pf s f x c :
  ostream s f x c -> f_writing x = 1 ->
  let room := (if f_p x =? fbuf f + BUFSIZ then
      r ← _fflush pf f;
      if r =? 0 then _ ← stf f (fun x => set_p (fbuf f) (set_end (fbuf f) x)); mret false else mret true
    else mret false) s in
  (exists full x' e' k', room = Ret full (with_file f x' (with_proc (Proc (fmem s) e' k') s)) /\
    (forall fd, fd <> f_fd x -> kout k' fd = kout (kern s) fd) /\
    ostream (with_file f x' (with_proc (Proc (fmem s) e' k') s)) f x' c /\
    f_writing x' = 1 /\ fields x' = fields x /\
    (if full : bool then f_error x' <> 0 else f_error x' = f_error x /\ f_p x' < fbuf f + BUFSIZ)) \/
  (exists r s', cut_short s f x c BUFSIZ r s' /\ room = (_ ← complain pf BUFSIZ r; mret true) s').
Proof.
  intros Hs Hw. cbv zeta. pose proof Hs as (Hok & Hbt & pend & Hp & Hc & Hww).
  pose proof Hok as [Hx Ha Hfd Hr Hb]. destruct (Z.eqb_spec (f_p x) (fbuf f + BUFSIZ)) as [Ef|Ef].
  - destruct (fflush_cases pf s f x c Hs) as [(r & x' & e' & k' & E & _ & Ho & Hi & Hcase)|(r & s' & Hc' & E)]; [left; mrun E|right].
    2: { replace (f_p x - fbuf f) with BUFSIZ in * by lia. exists r, s'. split; [done|].
         unfold mbind at 1, M_bind at 1. rewrite E. munfold. by destruct (complain pf BUFSIZ r s'). }
    destruct Hcase as [(-> & Hk & ->)|(-> & He & -> & Hk)].
    + change (0 =? 0) with true. cbv iota. rewrite Hw in *. change (1 =? 0) with false in *. cbv iota in *.
      set (x1 := set_p (fbuf f) (set_end (fbuf f) x)). set (s1 := with_file f x1 _).
      assert (sd_files s1 !! f = Some x1) as Hx1 by apply with_file_lookup.
      rewrite (bind_ret _ _ _ _ _ (stf_ret s1 f (fun x => set_p (fbuf f) (set_end (fbuf f) x)) x1 Hx1)).
      unfold s1. rewrite with_file_twice. exists false, x1, e', k'. split_and!; try done; [|unfold BUFSIZ; simpl; lia].
      split_and!; [|done|].
      * apply file_ok_with with x; [done|done|unfold BUFSIZ; simpl; lia|done].
      * exists []. split_and!; [done|simpl; by rewrite app_nil_r|]. right. split_and!; [done|simpl; lia|done].
    + change (EOF =? 0) with false. cbv iota. exists true, (set_error e' x), e', k'.
      split_and!; try done; [|simpl; lia]. split_and!; [|done|].
      * by apply file_ok_with with x.
      * exists pend. split_and!; [done|rewrite Hc; f_equal; symmetry; exact Hk|]. simpl. done.
  - left. exists false, x, (p_errno (pr s)), (kern s).
    assert (with_file f x (with_proc (Proc (fmem s) (p_errno (pr s)) (kern s)) s) = s) as ->.
    { assert (with_proc (Proc (fmem s) (p_errno (pr s)) (kern s)) s = s) as -> by (by destruct s as [[[] ? ? ? ? ? ?] ? ? ?]).
      by apply with_file_id. }
    split_and!; try done. lia.
Qed.

(** The copy into the buffer. *)
Lemma put_ret s f x c src l :
  ostream s f x c -> f_writing x = 1 -> bytes_at (fmem s) src l ->
  Z.of_nat (length l) <= fbuf f + BUFSIZ - f_p x ->
  let x' := set_p (f_p x + Z.of_nat (length l)) (set_end (f_p x + Z.of_nat (length l)) x) in
  let s' := with_file f x' (with_proc (set_mem (mwrite (fmem s) (f_p x) l) (pr s)) s) in
  (_ ← om (memmove (f_p x) src (Z.of_nat (length l)));
   _ ← stf f (fun x => let p := f_p x + Z.of_nat (length l) in set_p p (set_end (Z.max p (f_end x)) x));
   mret (Z.of_nat (length l))) s = Ret (Z.of_nat (length l)) s' /\
  ostream s' f x' (c ++ l).
Proof.
  intros (Hok & Hbt & pend & Hp & -> & Hw) Ew Hl Hroom. rewrite Ew in Hw.
  destruct Hw as [[? _]|(_ & Ep & Ee)]; [done|]. pose proof Hok as [Hx Ha Hfd Hr Hb].
  assert (mapped (fmem s) (f_p x) (Z.of_nat (length l))) as Hm by (eapply mapped_le; [exact Hb|lia|lia]).
  cbv zeta. set (m' := mwrite (fmem s) (f_p x) l). split.
  - mrun (om_ret _ s _ _ (memmove_ret _ _ _ _ Hl Hm)). set (s1 := with_proc _ s).
    erewrite bind_ret by (apply (stf_ret s1 f); exact Hx). cbv beta zeta.
    replace (Z.max (f_p x + Z.of_nat (length l)) (f_end x)) with (f_p x + Z.of_nat (length l)) by lia. done.
  - split_and!; [|done|].
    + apply file_ok_with with x; [done|done|simpl; lia|]. by apply mapped_mwrite.
    + exists (pend ++ l). split_and!.
      * cbn. unfold m'. apply bytes_at_app. rewrite <- Ep. split; [|apply bytes_at_mwrite].
        apply bytes_at_mwrite_out; [done|]. lia.
      * cbn. by rewrite <- app_assoc.
      * right. split_and!; [done|simpl; rewrite length_app; lia|done].
Qed.
(** A memory area that [f]'s buffer does not overlap. *)
Definition apart_buf (f a n : Z) : Prop := a + n <= fbuf f \/ fbuf f + BUFSIZ <= a.

Lemma onlyf_bytes s s' f x x' a l :
  onlyf s s' f x x' -> bytes_at (fmem s) a l -> apart_buf f a (Z.of_nat (length l)) -> bytes_at (fmem s') a l.
Proof.
  intros Ho Hl Hd. apply bytes_at_lookup. intros i b Hi. rewrite (of_mem _ _ _ _ _ Ho).
  - by apply (proj1 (bytes_at_lookup _ _ _) Hl).
  - apply lookup_lt_Some in Hi. unfold apart_buf in Hd. lia.
Qed.

Lemma bytes_at_take m a l n : bytes_at m a l -> bytes_at m a (take n l).
Proof. intros H. rewrite <- (take_drop n l) in H. by apply bytes_at_app in H as [H _]. Qed.

(** [_fwrite1] on a buffered stream: some bytes go into the buffer; or the
    buffer is full and cannot be written, which the error field records; or the
    write of the full buffer is cut short, which nothing records. *)
Lemma fwrite1_ret pf s f x c src l :
  ostream s f x c -> f_error x = 0 -> bytes_at (fmem s) src l -> l <> [] ->
  Z.of_nat (length l) < 2 ^ 64 -> apart_buf f src (Z.of_nat (length l)) ->
  (exists n x' s', _fwrite1 pf src (Z.of_nat (length l)) f s = Ret (Z.of_nat n) s' /\ onlyf s s' f x x' /\
    (n <= length l)%nat /\ ostream s' f x' (c ++ take n l) /\
    (if decide (n = 0%nat) then f_error x' <> 0 else f_error x' = 0)) \/
  (exists r x1 s1 s', onlyf s s1 f x x1 /\ ostream s1 f x1 c /\ f_error x1 = 0 /\ cut_short s1 f x1 c BUFSIZ r s' /\
    _fwrite1 pf src (Z.of_nat (length l)) f s = (_ ← complain pf BUFSIZ r; mret 0) s').
Proof.
  intros Hs He Hl Hne Hlen Hd. pose proof Hs as (Hok & Hbt & _). pose proof Hok as [Hx _ _ _ _].
  unfold _fwrite1. mrun (ldf_ret _ _ _ Hx). rewrite Hbt. change (_IOFBF =? _IOFBF) with true.
  change (_IOFBF =? _IONBF) with false. cbn [orb negb]. cbv iota zeta.
  destruct (switch_ret s f x c Hs) as (x1 & E1 & Hs1 & Hw1 & He1 & Hf1). mrun E1.
  set (s1 := with_file f x1 s) in *. pose proof Hs1 as ([Hx1 _ _ _ _] & _). mrun (ldf_ret _ _ _ Hx1).
  assert (onlyf s s1 f x x1) as H01 by (unfold s1; rewrite with_file_proc; by apply onlyf_with).
  destruct (make_room_ret pf s1 f x1 c Hs1 Hw1) as [(full & x2 & e2 & k2 & E2 & Ho2 & Hs2 & Hw2 & Hf2 & Hr2)|(r & s' & Hc' & E2)]; [left|right].
  2: { exists r, x1, s1, s'. split_and!; [done..|congruence|done|]. unfold mbind at 1, M_bind at 1. rewrite E2. munfold.
       by destruct (complain pf BUFSIZ r s'). }
  mrun E2. set (s2 := with_file f x2 _) in *.
  assert (onlyf s s2 f x x2) as H02.
  { apply onlyf_trans with s1 x1; [done|]. apply onlyf_with; [done|done|exact Ho2]. }
  destruct full.
  - exists 0%nat, x2, s2. rewrite take_0, app_nil_r. split_and!; [done|done|lia|done|done].
  - destruct Hr2 as [He2 Hp2]. pose proof Hs2 as ([Hx2 Ha2 _ Hr2 _] & _). mrun (ldf_ret _ _ _ Hx2).
    unfold FILE_size, fbuf, BUFSIZ in *.
    set (n := Z.to_nat (Z.min (f + 8 + 4096 - f_p x2) (Z.of_nat (length l)))).
    assert (Z.min (u64 (f + 8 + 4096 - f_p x2)) (Z.of_nat (length l)) = Z.of_nat n) as En
      by (rewrite uwrap_id by (unfold_int; lia); unfold n; lia).
    assert (n <= length l)%nat as Hn by (unfold n; lia). assert (length (take n l) = n) as Elen by (rewrite length_take; lia).
    assert (length l <> 0%nat) as Hl0 by (by destruct l).
    rewrite En.
    pose proof (onlyf_bytes s s2 f x x2 src l H02 Hl Hd) as Hl2.
    destruct (put_ret s2 f x2 c src (take n l) Hs2 Hw2 (bytes_at_take _ _ _ n Hl2)) as [E3 Hs3].
    { unfold fbuf, BUFSIZ. rewrite Elen. unfold n. lia. }
    rewrite Elen in *. eexists n, _, _. split; [exact E3|]. split_and!; [|done|exact Hs3|].
    + eapply onlyf_trans; [exact H02|]. apply onlyf_with; [done| |done].
      intros a Ha. apply mwrite_out. rewrite Elen. unfold fbuf, BUFSIZ in *. unfold n. lia.
    + rewrite decide_False by (unfold n; lia). simpl. congruence.
Qed.
Lemma ferror_ret s f x : sd_files s !! f = Some x -> _ferror f s = Ret (f_error x) s.
Proof. intros Hx. unfold _ferror. by mrun (ldf_ret _ _ _ Hx). Qed.

Lemma fwrite_loop pf f fuel : forall l src s x c ret,
  ostream s f x c -> f_error x = 0 -> bytes_at (fmem s) src l ->
  Z.of_nat (length l) < 2 ^ 64 -> apart_buf f src (Z.of_nat (length l)) -> (length l + 1 < fuel)%nat ->
  (exists j x' s', loop fuel (fwrite_turn pf f) (src, Z.of_nat (length l), ret) s = Ret (ret + Z.of_nat j) s' /\
    onlyf s s' f x x' /\ (j <= length l)%nat /\ ostream s' f x' (c ++ take j l) /\
    (j = length l \/ f_error x' <> 0)) \/
  (exists j n r x1 s1 s', (j < length l)%nat /\ (n < fuel <= n + j + 1)%nat /\
    onlyf s s1 f x x1 /\ ostream s1 f x1 (c ++ take j l) /\ f_error x1 = 0 /\ cut_short s1 f x1 (c ++ take j l) BUFSIZ r s' /\
    loop fuel (fwrite_turn pf f) (src, Z.of_nat (length l), ret) s =
    (_ ← complain pf BUFSIZ r;
     loop n (fwrite_turn pf f) (src + Z.of_nat j, Z.of_nat (length l) - Z.of_nat j, ret + Z.of_nat j)) s').
Proof.
  induction fuel as [|fuel IH]; intros l src s x c ret Hs He Hl Hlen Hd Hfu; [lia|].
  pose proof Hs as ([Hx _ _ _ _] & _). rewrite loop_S. unfold fwrite_turn at 1 3. rewrite (bind_ret _ _ _ _ _ (ferror_ret _ _ _ Hx)), He.
  change (0 =? 0) with true. rewrite andb_true_r. destruct (decide (l = [])) as [->|Hne].
  { left. exists 0%nat, x, s. cbn [length Z.of_nat]. rewrite Z.ltb_irrefl, Z.add_0_r, app_nil_r.
    split_and!; [done|by apply onlyf_refl|lia|done|by left]. }
  assert (length l <> 0%nat) as Hl0 by (by destruct l). rewrite (proj2 (Z.ltb_lt 0 _)) by lia.
  destruct (fwrite1_ret pf s f x c src l Hs He Hl Hne Hlen Hd) as [(n & x1 & s1 & E & Ho & Hn & Hs1 & He1)|(r & x1 & s1 & s' & Ho & Hs1 & He1 & Hcut & E)].
  2: { right. exists 0%nat, fuel, r, x1, s1, s'. rewrite take_0, app_nil_r, !Z.add_0_r, Z.sub_0_r. split_and!; [lia..|done|done|done|done|].
       unfold mbind at 1, M_bind at 1. rewrite E. munfold. destruct (complain pf BUFSIZ r s'); [|done..]. by rewrite !Z.add_0_r, Z.sub_0_r. }
  mrun E. rewrite mret_ret. pose proof Hs1 as ([Hx1 _ _ _ _] & _). case_decide as Hn0.
  - left. subst n. rewrite Z.sub_0_r, !Z.add_0_r. destruct fuel as [|fuel]; [lia|]. rewrite loop_S. unfold fwrite_turn at 1.
    rewrite (bind_ret _ _ _ _ _ (ferror_ret _ _ _ Hx1)), (proj2 (Z.eqb_neq _ _) He1), andb_false_r.
    exists 0%nat, x1, s1. rewrite Z.add_0_r. split_and!; [done|done|lia|done|by right].
  - assert (length (drop n l) = (length l - n)%nat) as El by apply length_drop.
    replace (Z.of_nat (length l) - Z.of_nat n) with (Z.of_nat (length (drop n l))) by lia.
    destruct (IH (drop n l) (src + Z.of_nat n) s1 x1 (c ++ take n l) (ret + Z.of_nat n))
      as [(j & x2 & s2 & E2 & Ho2 & Hj & Hs2 & He2)|(j & k & r & x2 & s2 & s' & Hj & Hk & Ho2 & Hs2 & He2 & Hcut & E2)]; [done|done| | | | |left|right].
    + pose proof (onlyf_bytes _ _ _ _ _ _ _ Ho Hl Hd) as Hl1. rewrite <- (take_drop n l) in Hl1.
      apply bytes_at_app in Hl1 as [_ Hl1]. rewrite length_take_le in Hl1 by lia. done.
    + lia.
    + unfold apart_buf in *. lia.
    + lia.
    + rewrite <- app_assoc, take_take_drop in Hs2. exists (n + j)%nat, x2, s2.
      split_and!; [|by eapply onlyf_trans|lia|done|].
      * rewrite E2. f_equal. lia.
      * destruct He2; [left; lia|by right].
    + rewrite <- app_assoc, take_take_drop in Hs2, Hcut. exists (n + j)%nat, k, r, x2, s2, s'.
      split_and!; [lia..|by eapply onlyf_trans|done|done|done|]. rewrite E2, El.
      by replace (ret + Z.of_nat n + Z.of_nat j) with (ret + Z.of_nat (n + j)) by lia;
        replace (src + Z.of_nat n + Z.of_nat j) with (src + Z.of_nat (n + j)) by lia;
        replace (Z.of_nat (length l - n) - Z.of_nat j) with (Z.of_nat (length l) - Z.of_nat (n + j)) by lia.
Qed.

Lemma ostream_mut s f x c z : ostream s f x c -> ostream (with_file f (set_mut z x) s) f (set_mut z x) c.
Proof.
  intros (Hok & Hbt & pend & Hp & Hc & Hw). split_and!; [|done|].
  - rewrite with_file_proc. pose proof Hok as []. by apply file_ok_with with x.
  - by exists pend.
Qed.

Lemma lockf_ret s f x :
  sd_files s !! f = Some x -> f_mut x = 0 -> exists z, lockf f s = Ret tt (with_file f (set_mut z x) s).
Proof.
  intros Hx Hm. unfold lockf, is_dolock. rewrite (bind_ret _ _ _ _ _ (eq_refl : gets _ s = Ret _ s)).
  destruct (negb _).
  - mrun (ldf_ret _ _ _ Hx). rewrite Hm. exists 1. by apply stf_ret.
  - exists 0. rewrite with_file_id; [done|]. rewrite Hx. destruct x. simpl in Hm. by subst.
Qed.

Lemma lockall_ret s : all_mut s = 0 -> exists z, lockall s = Ret tt (set_allmut z s).
Proof.
  intros Hmut. unfold lockall, is_dolock. rewrite (bind_ret _ _ _ _ _ (eq_refl : gets _ s = Ret _ s)).
  destruct (negb _).
  - mrun (eq_refl : gets all_mut s = Ret _ s). rewrite Hmut. by exists 1.
  - exists 0. destruct s; cbn in *. by subst.
Qed.

Lemma unlockf_ret s f x : sd_files s !! f = Some x -> unlockf f s = Ret tt (with_file f (set_mut 0 x) s).
Proof. apply stf_ret. Qed.
End Frame.

(** ** A kernel with files

    Its state is what was written to and what can be read from each descriptor. *)

Definition files : Type := gmap Z (list byte) * gmap Z (list byte).
Definition file_out (k : files) (fd : Z) : list byte := default [] (k.1 !! fd).
Definition file_in (k : files) (fd : Z) : list byte := default [] (k.2 !! fd).

#[export] Instance files_kernel : Kernel files := {|
  karch := aarch64;
  ktrap t args m k :=
    match args with
    | fd :: a :: len :: _ =>
        let n := Z.to_nat len in
        if t =? SYS_WRITE then
          match mread m a n with
          | Some l => Some (Z.of_nat (length l), m, (<[fd := file_out k fd ++ l]> k.1, k.2))
          | None => Some (- EFAULT, m, k)
          end
        else if t =? SYS_READ then
          let l := take n (file_in k fd) in
          Some (Z.of_nat (length l), mwrite m a l, (k.1, <[fd := drop n (file_in k fd)]> k.2))
        else ktrap t args m tt ≫= fun '(r, m, _) => Some (r, m, k)
    | _ => None
    end |}.

#[export] Instance files_file : FileKernel files.
Proof.
  refine {| kout := file_out; kin := file_in; kio _ _ := True |}.
  - by split.
  - intros m k fd a l Hfd Hl Hlen. cbn. rewrite Nat2Z.id. apply mread_bytes_at in Hl as El. rewrite El.
    eexists _, _. split; [done|]. split; [done|]. split_and!.
    + intros fd' Hne. unfold file_out at 1. cbn. by rewrite lookup_insert_ne.
    + done.
    + right. split; [lia|]. unfold file_out at 1. cbn. by rewrite lookup_insert_eq, Nat2Z.id, take_ge.
  - intros m k fd a len Hfd Hm Hlen. cbn. eexists _, _, _. split; [done|]. split; [done|].
    set (n := Z.to_nat len). assert (file_in (k.1, <[fd := drop n (file_in k fd)]> k.2) fd = drop n (file_in k fd)) as Ein
      by (unfold file_in at 1; cbn; by rewrite lookup_insert_eq).
    assert (take (Z.to_nat (Z.of_nat (length (take n (file_in k fd))))) (file_in k fd) = take n (file_in k fd)) as Et
      by (rewrite Nat2Z.id, length_take; destruct (decide (n <= length (file_in k fd))%nat);
          [by rewrite Nat.min_l by lia|by rewrite Nat.min_r, !take_ge by lia]).
    rewrite Et. split_and!.
    + intros fd' Hne. unfold file_in at 1. cbn. by rewrite lookup_insert_ne.
    + done.
    + right. rewrite Ein. split_and!; [lia|rewrite length_take; lia|by rewrite take_drop|lia| |done].
      intros H0. destruct (file_in k fd); [done|]. rewrite length_take in H0. cbn [length] in H0. lia.
Defined.

Lemma files_full : full_writes (K := files).
Proof.
  intros m k fd a n r m' k'. cbn. destruct (mread m a (Z.to_nat n)) as [l|] eqn:E; intros [= <- <- <-].
  - apply mread_length in E. intros Hn _. lia.
  - unfold EFAULT. lia.
Qed.

Lemma files_sure : sure_reads (K := files).
Proof. intros m k fd a n r m' k'. cbn. intros [= <- _ _]. lia. Qed.

(** ** Correctness *)

Section Correct.
Context {K : Type} {KK : Kernel K} {IM : Image} {FK : FileKernel K}.
Implicit Types s : stdio K.

(** A stream that [fflush] can be called on, with its contents: a buffered one,
    or one on which nothing is pending. *)
Definition flushable s (f : Z) (c : list byte) : Prop :=
  exists x, sd_files s !! f = Some x /\ f_mut x = 0 /\
    (ostream s f x c \/ (f_writing x = 0 /\ c = kout (kern s) (f_fd x))).

Lemma fflush_one pf s f c :
  flushable s f c -> full_writes ->
  exists r x x' e' k', let s' := with_file f x' (with_proc (Proc (fmem s) e' k') s) in
    sd_files s !! f = Some x /\ locked f (_fflush pf f) s = Ret r s' /\
    fields x' = fields x /\ (forall fd, fd <> f_fd x -> kout k' fd = kout (kern s) fd) /\
    flushable s' f c /\ ((r = 0 /\ kout k' (f_fd x) = c) \/ (r = EOF /\ f_error x' <> 0)).
Proof.
  intros (x & Hx & Hm & Hc) Hfull. unfold locked. destruct (lockf_ret s f x Hx Hm) as [z Ez]. mrun Ez.
  set (s1 := with_file f (set_mut z x) s). destruct Hc as [Hs|[Hw ->]].
  - destruct (fflush_stream pf s1 f _ c (ostream_mut s f x c z Hs) Hfull) as (r & x' & e' & k' & E & Hs2 & Hf & Ho & Hcase).
    mrun E. set (s2 := with_file f x' _) in *. pose proof Hs2 as ([Hx2 _ _ _ _] & _).
    mrun (unlockf_ret _ _ _ Hx2). exists r, x, (set_mut 0 x'), e', k'. cbv zeta. split; [done|].
    assert (with_file f (set_mut 0 x') s2 = with_file f (set_mut 0 x') (with_proc (Proc (fmem s) e' k') s)) as Es.
    { unfold s2, s1, with_file, with_proc, set_files, set_heap. cbn. by rewrite !insert_insert_eq. }
    rewrite <- Es. split; [done|]. split_and!.
    + destruct x, x'. cbn in *. injection Hf as -> -> _ -> ->. by subst.
    + exact Ho.
    + exists (set_mut 0 x'). split_and!; [apply with_file_lookup|done|]. left. by apply ostream_mut.
    + exact Hcase.
  - assert (sd_files s1 !! f = Some (set_mut z x)) as Hx1 by apply with_file_lookup.
    assert (_fflush pf f s1 = Ret 0 s1) as E by (unfold _fflush; mrun (ldf_ret _ _ _ Hx1); cbn; by rewrite Hw).
    mrun E. mrun (unlockf_ret _ _ _ Hx1). exists 0, x, x, (p_errno (pr s)), (kern s). cbv zeta.
    assert (with_proc (Proc (fmem s) (p_errno (pr s)) (kern s)) s = s) as -> by (by destruct s as [[[] ? ? ? ? ? ?] ? ? ?]).
    rewrite (with_file_id s f x Hx). split; [done|]. split; [|split_and!; [done..| |by left]].
    + unfold s1. rewrite with_file_twice. rewrite with_file_id; [done|]. rewrite Hx. destruct x; cbn in *. by subst.
    + exists x. auto.
Qed.

(** C20: [fwrite] to a fully buffered stream appends to the stream, for every
    kernel.  It returns, it releases the lock, and what the kernel has of the stream
    followed by what is pending in the buffer is extended by exactly the bytes of
    the objects it reports, which are all of them unless a write failed; it touches
    nothing but this stream.  There is one exception, a kernel that takes only the
    first [r] bytes of the full buffer.  After [j] bytes have been appended [fwrite]
    then prints a message and goes on with the rest without an error, with the whole
    buffer still pending: the [r] bytes are twice in the stream. *)
Theorem fwrite_correct fuel pf s f x c src l sz cnt :
  ostream s f x c -> f_error x = 0 -> f_mut x = 0 ->
  bytes_at (fmem s) src l -> 0 < sz -> Z.of_nat (length l) = cnt * sz -> Z.of_nat (length l) < 2 ^ 64 ->
  apart_buf f src (Z.of_nat (length l)) -> (length l + 1 < fuel)%nat ->
  (exists j x' s', fwrite fuel pf src sz cnt f s = Ret (Z.of_nat j / sz) s' /\ onlyf s s' f x x' /\
    (j <= length l)%nat /\ ostream s' f x' (c ++ take j l) /\ (j = length l \/ f_error x' <> 0)) \/
  (exists z j n r x1 s1 s', (j < length l)%nat /\ (n < fuel <= n + j + 1)%nat /\
    onlyf (with_file f (set_mut z x) s) s1 f (set_mut z x) x1 /\ ostream s1 f x1 (c ++ take j l) /\ f_error x1 = 0 /\
    cut_short s1 f x1 (c ++ take j l) BUFSIZ r s' /\
    fwrite fuel pf src sz cnt f s =
    (_ ← complain pf BUFSIZ r;
     fwrite_rest pf n (src + Z.of_nat j) (Z.of_nat (length l) - Z.of_nat j) (Z.of_nat j) sz f) s').
Proof.
  intros Hs He Hm Hl Hsz Hcnt Hlen Hd Hfu. unfold fwrite.
  rewrite (proj2 (Z.eqb_neq sz 0)), (proj2 (Z.ltb_ge _ cnt)) by
    (lia || (unfold ULONG_MAX; apply Z.div_le_lower_bound; lia)).
  pose proof Hs as ([Hx _ _ _ _] & _). destruct (lockf_ret s f x Hx Hm) as [z Ez]. mrun Ez.
  set (x1 := set_mut z x). set (s1 := with_file f x1 s).
  assert (ostream s1 f x1 c) as Hs1 by (by apply ostream_mut).
  rewrite uwrap_id by (unfold_int; lia). rewrite <- Hcnt. unfold fwrite_rest at 1 2.
  destruct (fwrite_loop pf f fuel l src s1 x1 c 0 Hs1 He Hl Hlen Hd Hfu)
    as [(j & x2 & s2 & E & Ho & Hj & Hs2 & He2)|(j & n & r & x2 & s2 & s' & Hj & Hn & Ho & Hs2 & He2 & Hcut & E)]; [left|right].
  2: { exists z, j, n, r, x2, s2, s'. split_and!; [lia..|done|done|done|done|]. unfold mbind at 1, M_bind at 1. rewrite E. cbn [Z.add].
       unfold fwrite_rest. munfold. by destruct (complain pf BUFSIZ r s'). }
  mrun E. pose proof Hs2 as ([Hx2 _ _ _ _] & _). mrun (unlockf_ret _ _ _ Hx2).
  exists j, (set_mut 0 x2), (with_file f (set_mut 0 x2) s2).
  split_and!; [done| |done|by apply ostream_mut|done].
  destruct Ho as [F (K1 & K2 & K3 & K4 & K5) [A1 A2] Hh Hmm Ho]. split; cbn.
  - unfold with_file, set_files. cbn. rewrite F. cbn. by rewrite !insert_insert_eq.
  - split_and!; [done|done|by rewrite Hm|done|done].
  - done.
  - exact Hh.
  - exact Hmm.
  - exact Ho.
Qed.
(** Flushing one stream leaves the others flushable with the same contents. *)
Lemma flushable_other s f g x x' y c e' k' :
  f <> g -> sd_files s !! f = Some x -> sd_files s !! g = Some y -> f_fd y <> f_fd x ->
  (forall fd, fd <> f_fd x -> kout k' fd = kout (kern s) fd) ->
  flushable s g c -> flushable (with_file f x' (with_proc (Proc (fmem s) e' k') s)) g c.
Proof.
  intros Hne Hf Hg Hfd Hk (y' & Hy' & Hm & Hc). simplify_eq.
  assert (sd_files (with_file f x' (with_proc (Proc (fmem s) e' k') s)) !! g = Some y) as Hg'.
  { cbn. by rewrite lookup_insert_ne. }
  exists y. split_and!; [done|done|]. destruct Hc as [(Hok & Hbt & pend & Hp & -> & Hw)|[Hw ->]].
  - left. split_and!; [|done|].
    + destruct Hok. by split.
    + exists pend. split_and!; [done| |done]. f_equal. symmetry. by apply Hk.
  - right. split; [done|]. symmetry. by apply Hk.
Qed.

Lemma flushable_allmut s f c z : flushable s f c -> flushable (set_allmut z s) f c.
Proof.
  intros (x & Hx & Hm & Hc). exists x. split_and!; [done|done|].
  destruct Hc as [([] & Hbt & Hp)|Hc]; [left|by right]. split_and!; [by split|done|done].
Qed.

(** The descriptors of the streams in [L] are different. *)
Definition own_fds s (L : list Z) : Prop :=
  forall f g x y, f ∈ L -> g ∈ L -> f <> g -> sd_files s !! f = Some x -> sd_files s !! g = Some y ->
  f_fd x <> f_fd y.

Lemma own_fds_with s f x x' p L :
  sd_files s !! f = Some x -> f_fd x' = f_fd x -> own_fds s L -> own_fds (with_file f x' (with_proc p s)) L.
Proof.
  intros Hx Hfd Ho g h y z Hg Hh Hne. cbn. rewrite !lookup_insert_Some.
  intros [[<- <-]|[Hg1 Hy]] [[<- <-]|[Hh1 Hz]]; rewrite ?Hfd.
  - done.
  - by apply (Ho f h).
  - by apply (Ho g f).
  - by apply (Ho g h).
Qed.

Lemma flush_loop pf L cs n : forall l1 l2 s ret,
  L = l1 ++ l2 -> dlist (sd_files s) (all_head s) L -> full_writes ->
  (forall f, f ∈ L -> flushable s f (cs f)) -> own_fds s L -> (length l2 < n)%nat ->
  exists r s', loop n (fun '(f, ret) =>
      if f =? 0 then mret (inr ret)
      else r ← locked f (_fflush pf f); x ← ldf f; mret (inl (f_lnext x, Z.lor ret r)))
      (default 0 (head l2), ret) s = Ret (Z.lor ret r) s' /\
    all_mut s' = all_mut s /\ all_head s' = all_head s /\ fmem s' = fmem s /\
    dlist (sd_files s') (all_head s') L /\ (forall f, f ∈ L -> flushable s' f (cs f)) /\ own_fds s' L /\
    (r = 0 -> forall f x, f ∈ l2 -> sd_files s' !! f = Some x -> kout (kern s') (f_fd x) = cs f) /\
    (forall f x, f ∈ L -> f ∉ l2 -> sd_files s !! f = Some x ->
       sd_files s' !! f = Some x /\ kout (kern s') (f_fd x) = kout (kern s) (f_fd x)).
Proof.
  induction n as [|n IH]; intros l1 l2 s ret EL Hdl Hfull Hfl Hown Hn; [lia|]. rewrite loop_S.
  destruct l2 as [|f l2]; cbn [head default].
  { exists 0, s. change (0 =? 0) with true. rewrite Z.lor_0_r. split_and!; try done.
    intros _ f x Hf. by apply not_elem_of_nil in Hf. }
  assert (f ∈ L) as HfL by (rewrite EL; apply elem_of_app; right; apply list_elem_of_here).
  assert (f <> 0) as Hf0 by apply (dlist_lookup _ _ _ _ Hdl HfL).
  cbn. rewrite (proj2 (Z.eqb_neq f 0) Hf0).
  destruct (fflush_one pf s f (cs f) (Hfl f HfL) Hfull) as (r & x & x' & e' & k' & Hx & E & Hfields & Hk & Hfl' & Hr).
  cbv zeta in E, Hfl'. mrun E. set (s1 := with_file f x' _) in *.
  assert (sd_files s1 !! f = Some x') as Hx' by apply with_file_lookup. mrun (ldf_ret _ _ _ Hx'). rewrite mret_ret.
  assert (f_fd x' = f_fd x /\ f_lnext x' = f_lnext x /\ f_lprev x' = f_lprev x) as (Efd & Enx & Epv)
    by (by injection Hfields).
  assert (f_lnext x' = default 0 (head l2)) as ->.
  { rewrite Enx. subst L. exact (dlist_next (sd_files s) (all_head s) l1 l2 f x Hdl Hx). }
  assert (f ∉ l2) as Hf2.
  { destruct Hdl as [Hnd _]. subst L. apply list.NoDup_app in Hnd as (_ & _ & Hnd). by apply list.NoDup_cons in Hnd as [? _]. }
  destruct (IH (l1 ++ [f]) l2 s1 (Z.lor ret r)) as (r2 & s2 & E2 & M2 & H2 & Fm2 & D2 & Fl2 & O2 & K2 & P2).
  - by rewrite EL, <- app_assoc.
  - unfold s1. cbn. by apply dlist_update with x.
  - done.
  - intros g Hg. destruct (decide (f = g)) as [<-|Hne]; [done|].
    destruct (dlist_lookup _ _ _ _ Hdl Hg) as [_ [y Hy]].
    apply (flushable_other s f g x x' y); try done; [|by apply Hfl].
    by apply (Hown g f).
  - by apply own_fds_with with x.
  - cbn [length] in Hn. lia.
  - destruct (P2 f x' HfL Hf2 Hx') as [Pf Kf].
    exists (Z.lor r r2), s2. split; [by rewrite E2, Z.lor_assoc|]. split_and!; try done.
    + intros [-> ->]%Z.lor_eq_0_iff g y [->|Hg]%elem_of_cons Hy; [|by apply K2].
      simplify_eq. rewrite Kf, Efd. cbn. destruct Hr as [[_ Hr]|[? _]]; [exact Hr|done].
    + intros g y Hg [Hgf Hg2]%not_elem_of_cons Hy.
      assert (sd_files s1 !! g = Some y) as Hy1 by (cbn; by rewrite lookup_insert_ne).
      destruct (P2 g y Hg Hg2 Hy1) as [? Kg]. split; [done|]. rewrite Kg. apply Hk. by apply (Hown g f).
Qed.

(** [fflush(NULL)] walks the list of open streams, releases every lock, and
    keeps the contents of all streams; if it returns zero, every stream's
    contents have reached the kernel.  (Streams on the list use different
    descriptors.) *)
Theorem fflush_all_correct fuel s L (cs : Z -> list byte) :
  dlist (sd_files s) (all_head s) L -> all_mut s = 0 -> full_writes ->
  (forall f, f ∈ L -> flushable s f (cs f)) ->
  own_fds s L ->
  exists r s', fflush fuel 0 s = Ret r s' /\ all_mut s' = 0 /\ all_head s' = all_head s /\
    dlist (sd_files s') (all_head s') L /\ (forall f, f ∈ L -> flushable s' f (cs f)) /\
    fmem s' = fmem s /\
    (r = 0 -> forall f x, f ∈ L -> sd_files s' !! f = Some x -> kout (kern s') (f_fd x) = cs f).
Proof.
  intros Hdl Hmut Hfull Hfl Hfd. unfold fflush. change (0 =? 0) with true. cbv iota zeta.
  destruct (lockall_ret s Hmut) as [z Ez]. mrun Ez. set (s1 := set_allmut z s). mrun (eq_refl : gets all_head s1 = Ret _ s1).
  rewrite (bind_ret _ _ _ _ _ (eq_refl : gets (fun s => size (sd_files s)) s1 = Ret _ s1)). cbn beta.
  pose proof Hdl as [_ [last Hseg]]. apply dlseg_hd in Hseg.
  destruct (flush_loop (printf fuel) L cs (S (size (sd_files s1))) [] L s1 0)
    as (r & s2 & E & M2 & H2 & Fm2 & D2 & Fl2 & O2 & K2 & _);
    [done|exact Hdl|done|intros f Hf; by apply flushable_allmut, Hfl|exact Hfd|apply dlist_length in Hdl; cbn; lia|].
  rewrite <- Hseg in E. mrun E. exists r, (set_allmut 0 s2). split_and!; try done.
  intros f Hf. by apply flushable_allmut, Fl2.
Qed.
(** ** Input streams *)

(** A fully buffered stream from which [c] can still be read: what is unread in
    the buffer, and behind it what the kernel has. *)
Definition istream s (f : Z) (x : FILE) (c : list byte) : Prop :=
  file_ok s f x /\ f_btype x = _IOFBF /\ f_writing x = 0 /\
  exists unread, bytes_at (fmem s) (f_p x) unread /\ f_end x = f_p x + Z.of_nat (length unread) /\
    c = unread ++ kin (kern s) (f_fd x).

(** What reading from [f] into the [n] bytes at [a] leaves alone. *)
Record onlyr s s' (f : Z) (x x' : FILE) (a n : Z) : Prop := OnlyR {
  or_files : sd_files s' = <[f := x']> (sd_files s);
  or_keep : fields x' = fields x;
  or_all : all_head s' = all_head s /\ all_mut s' = all_mut s;
  or_heap : sd_heap s' = set_proc (pr s') (sd_heap s);
  or_mem b : ~ (fbuf f <= b < fbuf f + BUFSIZ) -> ~ (a <= b < a + n) -> fmem s' !! b = fmem s !! b;
  or_mapped b n : mapped (fmem s) b n -> mapped (fmem s') b n;
  or_in fd : fd <> f_fd x -> kin (kern s') fd = kin (kern s) fd;
  or_out fd : kout (kern s') fd = kout (kern s) fd
}.

Lemma onlyr_refl s f x a n : sd_files s !! f = Some x -> onlyr s s f x x a n.
Proof. intros E. split; try done; [by rewrite insert_id|by destruct s as [[] ? ? ?]]. Qed.

Lemma onlyr_mono s s' f x x' a n a' n' :
  (forall b, a <= b < a + n -> a' <= b < a' + n') -> onlyr s s' f x x' a n -> onlyr s s' f x x' a' n'.
Proof. intros Hb []. split; auto. Qed.

Lemma onlyr_trans s1 s2 s3 f x y z a n :
  onlyr s1 s2 f x y a n -> onlyr s2 s3 f y z a n -> onlyr s1 s3 f x z a n.
Proof.
  intros [F1 K1 A1 H1 M1 P1 I1 O1] [F2 K2 A2 H2 M2 P2 I2 O2].
  assert (f_fd y = f_fd x) as Efd by (by injection K1).
  split.
  - by rewrite F2, F1, insert_insert_eq.
  - congruence.
  - destruct A1, A2. split; congruence.
  - rewrite H2, H1. done.
  - intros c Hc Hck. by rewrite M2, M1.
  - intros c k' Hm. by apply P2, P1.
  - intros fd Hfd. rewrite I2, I1 by congruence. done.
  - intros fd. by rewrite O2, O1.
Qed.

Lemma read_cases (p : proc K) fd a len :
  0 <= fd < 2 ^ 31 -> 0 < a < 2 ^ 62 -> mapped (p_mem p) a len -> 0 < len < 2 ^ 31 ->
  (exists n k', let l := take n (kin (p_kern p) fd) in
    read fd a len p = Ret (Z.of_nat n) (Proc (mwrite (p_mem p) a l) (p_errno p) k') /\
    length l = n /\ Z.of_nat n <= len /\ kin (p_kern p) fd = l ++ kin k' fd /\
    (n = 0%nat -> kin (p_kern p) fd = []) /\
    (forall fd', fd' <> fd -> kin k' fd' = kin (p_kern p) fd') /\ (forall fd', kout k' fd' = kout (p_kern p) fd')) \/
  (exists e k', read fd a len p = Ret (-1) (Proc (p_mem p) e k') /\ 0 < e /\ ~ sure_reads /\
    (forall fd', kin k' fd' = kin (p_kern p) fd') /\ (forall fd', kout k' fd' = kout (p_kern p) fd')).
Proof.
  intros Hfd Ha Hm Hlen. unfold read, int_neg, syscall, syscall6.
  assert (SA fd = fd) as -> by (unfold SA; apply swrap_id; unfold_int; lia).
  assert (SA a = a) as -> by (unfold SA; apply swrap_id; unfold_int; lia).
  assert (SA len = len) as -> by (unfold SA; apply swrap_id; unfold_int; lia).
  destruct (kread (p_mem p) (p_kern p) fd a len Hfd Hm Hlen) as (r & m' & k' & E & _ & Hi & Ho & Hr).
  unfold ERRNO_LAST, ERRNO_FIRST in Hr. munfold. rewrite E.
  assert (s32 (s64 r) = r) as -> by (rewrite (swrap_id 64), (swrap_id 32) by (unfold_int; lia); done).
  unfold ERRNO_NEG, neg_errno, seterrno. destruct Hr as [(Hr & Hk & ->)|(Hr & Hk & Hl & Hz & ->)]; [right|left].
  - rewrite (proj2 (Z.ltb_lt r 0)) by lia. munfold. rewrite schk_ret by (unfold_int; lia).
    exists (s32 (- r)), k'. rewrite swrap_id by (unfold_int; lia). split_and!; [done|lia| | |done].
    + intros Hs. pose proof (Hs _ _ _ _ _ _ _ _ E). lia.
    + intros fd'. destruct (decide (fd' = fd)) as [->|]; auto.
  - rewrite (proj2 (Z.ltb_ge r 0)) by lia. exists (Z.to_nat r), k'. cbv zeta.
    rewrite Z2Nat.id by lia. split_and!; [done|done|lia|done| |done|done]. intros H0. apply Hz. lia.
Qed.

Lemma read_ret (p : proc K) fd a len :
  0 <= fd < 2 ^ 31 -> 0 < a < 2 ^ 62 -> mapped (p_mem p) a len -> 0 < len < 2 ^ 31 -> sure_reads ->
  exists n k', let l := take n (kin (p_kern p) fd) in
    read fd a len p = Ret (Z.of_nat n) (Proc (mwrite (p_mem p) a l) (p_errno p) k') /\
    length l = n /\ Z.of_nat n <= len /\ kin (p_kern p) fd = l ++ kin k' fd /\
    (n = 0%nat -> kin (p_kern p) fd = []) /\
    (forall fd', fd' <> fd -> kin k' fd' = kin (p_kern p) fd') /\ (forall fd', kout k' fd' = kout (p_kern p) fd').
Proof. intros Hfd Ha Hm Hlen Hsure. by destruct (read_cases p fd a len Hfd Ha Hm Hlen) as [|(e & k' & _ & _ & Hn & _)]. Qed.

(** A [read] into the empty buffer that failed: its result -1 is taken for the
    largest [size_t], so [end] is one below the buffer, and no error is recorded. *)
Definition fill_failed s (f : Z) (x : FILE) s' : Prop :=
  f_p x = f_end x /\ ~ sure_reads /\
  exists e k, 0 < e /\ s' = with_file f (set_p (fbuf f) (set_end (fbuf f - 1) x)) (with_proc (Proc (fmem s) e k) s) /\
    (forall fd, kin k fd = kin (kern s) fd) /\ (forall fd, kout k fd = kout (kern s) fd).

(** The buffer is filled when it is empty. *)
Lemma fill_ret s f x c :
  istream s f x c -> f_eof x = 0 -> f_error x = 0 ->
  let fill := (if (f_p x =? f_end x) && (f_eof x =? 0) && (f_error x =? 0) then
               let bst := fbuf f in
               r ← onp (read (f_fd x) bst BUFSIZ);
               let r := u64 r in
               if r =? 0 then _ ← stf f (set_eof 1); mret true
               else _ ← stf f (fun x => set_p bst (set_end (u64 (bst + r)) x)); mret false
             else mret false) s in
  (exists eof x' s', fill = Ret eof s' /\
    onlyr s s' f x x' 0 0 /\ istream s' f x' c /\ f_error x' = 0 /\
    (if eof : bool then c = [] /\ f_eof x' = 1 else f_eof x' = 0 /\ f_p x' < f_end x')) \/
  (exists s', fill_failed s f x s' /\ fill = Ret false s').
Proof.
  intros (Hok & Hbt & Hw & u & Hu & Eu & ->) He Hr. pose proof Hok as [Hx Ha Hfd Hrg Hb]. cbv zeta.
  rewrite He, Hr. change (0 =? 0) with true. rewrite !andb_true_r. destruct (Z.eqb_spec (f_p x) (f_end x)) as [Ef|Ef].
  2: { left. exists false, x, s. split_and!; try done; [by apply onlyr_refl| |lia].
       split_and!; [done..|]. by exists u. }
  assert (u = []) as -> by (destruct u; [done|cbn in Eu; lia]). cbv zeta. cbn [app].
  unfold FILE_size, fbuf, BUFSIZ in *.
  destruct (read_cases (pr s) (f_fd x) (f + 8) 4096 Hfd ltac:(lia) Hb ltac:(lia))
    as [(n & k' & E & Hl & Hn & Hk & Hz & Hi & Ho)|(e & k' & E & He' & Hns & Hi & Ho)]; [left|right].
  2: { mrun (onp_ret _ _ _ _ E). set (s1 := with_proc _ s). change (u64 (-1) =? 0) with false. cbv iota.
       rewrite (bind_ret _ _ _ _ _ (stf_ret s1 f (fun x => set_p (f + 8) (set_end (u64 (f + 8 + u64 (-1))) x)) x Hx)).
       assert (u64 (f + 8 + u64 (-1)) = f + 8 - 1) as -> by cint.
       eexists. split; [|done]. split_and!; [done..|]. by exists e, k'. }
  set (l := take n (kin (p_kern (pr s)) (f_fd x))) in *.
  mrun (onp_ret _ _ _ _ E). rewrite uwrap_id by (unfold_int; lia). set (s1 := with_proc _ s).
  destruct (Z.eqb_spec (Z.of_nat n) 0) as [E0|E0].
  - assert (n = 0%nat) as -> by lia. specialize (Hz eq_refl).
    rewrite (bind_ret _ _ _ _ _ (stf_ret s1 f (set_eof 1) x Hx)). eexists true, (set_eof 1 x), _.
    split; [done|]. split; [split; done|]. split; [|done]. split_and!; [|done..|].
    + apply file_ok_with with x; [done|done|cbn; unfold fbuf, BUFSIZ in *; lia|]. by apply mapped_mwrite.
    + exists []. split_and!; [done|done|]. exact Hk.
  - rewrite (bind_ret _ _ _ _ _ (stf_ret s1 f (fun x => set_p (f + 8) (set_end (u64 (f + 8 + Z.of_nat n)) x)) x Hx)).
    rewrite uwrap_id by (unfold_int; lia). eexists false, (set_p (f + 8) (set_end (f + 8 + Z.of_nat n) x)), _.
    split; [done|]. split_and!; try done; [..|cbn; lia].
    + split; try done; [intros b Hb1 _|intros b k Hm; by apply mapped_mwrite].
      apply mwrite_out. rewrite Hl. unfold fbuf, BUFSIZ in *. lia.
    + split_and!; [|done..|].
      * apply file_ok_with with x; [done|done|cbn; unfold fbuf, BUFSIZ in *; lia|]. by apply mapped_mwrite.
      * exists l. split_and!; [apply bytes_at_mwrite|cbn; by rewrite Hl|exact Hk].
Qed.
Lemma istream_writing s f x c :
  istream s f x c -> with_file f (set_writing 0 x) s = s.
Proof.
  intros ([Hx _ _ _ _] & _ & Hw & _). apply with_file_id. rewrite Hx. destruct x. cbn in Hw. by subst.
Qed.

(** The copy out of the buffer. *)
Lemma take_out_ret s f x c dst n :
  istream s f x c -> mapped (fmem s) dst (Z.of_nat n) -> apart_buf f dst (Z.of_nat n) ->
  Z.of_nat n <= f_end x - f_p x ->
  let x' := set_p (f_p x + Z.of_nat n) x in
  let s' := with_file f x' (with_proc (set_mem (mwrite (fmem s) dst (take n c)) (pr s)) s) in
  (_ ← om (memmove dst (f_p x) (Z.of_nat n)); _ ← stf f (fun x => set_p (f_p x + Z.of_nat n) x);
   mret (Z.of_nat n)) s = Ret (Z.of_nat n) s' /\
  istream s' f x' (drop n c) /\ onlyr s s' f x x' dst (Z.of_nat n) /\ (n <= length c)%nat.
Proof.
  intros (Hok & Hbt & Hw & u & Hu & Eu & ->) Hm Hd Hn. pose proof Hok as [Hx Ha Hfd Hr Hb]. cbv zeta.
  assert (n <= length u)%nat as Hnu by lia. rewrite (take_app_le u), (drop_app_le u) by done.
  assert (length (take n u) = n) as El by (rewrite length_take; lia).
  pose proof (memmove_ret (fmem s) dst (f_p x) (take n u) (bytes_at_take _ _ _ _ Hu)) as Hmv.
  rewrite El in Hmv. specialize (Hmv Hm). set (m' := mwrite (fmem s) dst (take n u)) in *.
  split; [|split; [|split; [|rewrite length_app; lia]]].
  - mrun (om_ret _ s _ _ Hmv). set (s1 := with_proc _ s).
    by erewrite bind_ret by (apply (stf_ret s1 f); exact Hx).
  - split_and!; [|done..|].
    + apply file_ok_with with x; [done|done|cbn; lia|]. by apply mapped_mwrite.
    + exists (drop n u). split_and!; [|cbn; rewrite length_drop; lia|done].
      rewrite <- (take_drop n u) in Hu. apply bytes_at_app in Hu as [_ Hu]. rewrite El in Hu. cbn.
      apply bytes_at_mwrite_out; [done|]. rewrite El, length_drop. unfold apart_buf in Hd. lia.
  - split; try done.
    + intros b _ Hbn. apply mwrite_out. rewrite El. lia.
    + intros b k Hbk. by apply mapped_mwrite.
Qed.

(** What [_fread1] goes on with after that: all that is asked for is copied from the
    start of the buffer. *)
Definition copy_stale (dst rest f : Z) : M (stdio K) Z :=
  _ ← om (memmove dst (fbuf f) rest); _ ← stf f (fun x => set_p (f_p x + rest) x); mret rest.

Lemma fread1_cases fuel s f x c dst rest :
  istream s f x c -> f_eof x = 0 -> f_error x = 0 ->
  mapped (fmem s) dst rest -> 0 < rest < 2 ^ 64 -> apart_buf f dst rest ->
  (exists n x' s', _fread1 fuel dst rest f s = Ret (Z.of_nat n) s' /\ onlyr s s' f x x' dst (Z.of_nat n) /\
    Z.of_nat n <= rest /\ (n <= length c)%nat /\ istream s' f x' (drop n c) /\
    bytes_at (fmem s') dst (take n c) /\ f_error x' = 0 /\
    (if decide (n = 0%nat) then c = [] /\ f_eof x' = 1 else f_eof x' = 0)) \/
  (exists s', fill_failed s f x s' /\ _fread1 fuel dst rest f s = copy_stale dst rest f s').
Proof.
  intros Hs He Hr Hm Hrest Hd. pose proof Hs as ([Hx _ _ _ _] & Hbt & Hw & _).
  unfold _fread1. mrun (ldf_ret _ _ _ Hx). rewrite Hbt. change (_IOFBF =? _IOFBF) with true.
  change (_IOFBF =? _IONBF) with false. cbn [orb negb]. cbv iota.
  assert (_fflush (printf fuel) f s = Ret 0 s) as Ef by (unfold _fflush; mrun (ldf_ret _ _ _ Hx); by rewrite Hw).
  mrun Ef. change (negb (0 =? 0)) with false. cbv iota.
  mrun (stf_ret s f (set_writing 0) x Hx). rewrite (istream_writing s f x c Hs).
  mrun (ldf_ret _ _ _ Hx).
  destruct (fill_ret s f x c Hs He Hr) as [(eof & x1 & s1 & E1 & Ho1 & Hs1 & Hr1 & Hcase)|(s' & Hff & E1)]; [left|right]; mrun E1.
  2: { exists s'. split; [done|]. destruct Hff as (_ & _ & e & k & _ & -> & _). erewrite bind_ret by apply ldf_ret, with_file_lookup.
       unfold copy_stale. cbn [f_p f_end set_p set_end]. replace (fbuf f - 1 - fbuf f) with (-1) by lia.
       by replace (Z.min rest (u64 (-1))) with rest by (change (u64 (-1)) with (2 ^ 64 - 1); lia). }
  destruct eof.
  - destruct Hcase as [-> He1]. exists 0%nat, x1, s1. rewrite drop_nil, take_nil.
    split_and!; try done; [|lia]. by apply (onlyr_mono _ _ _ _ _ 0 0); [lia|].
  - destruct Hcase as [He1 Hlt]. pose proof Hs1 as ([Hx1 Ha1 _ Hrg1 _] & _). mrun (ldf_ret _ _ _ Hx1).
    unfold FILE_size, fbuf, BUFSIZ in *.
    set (n := Z.to_nat (Z.min rest (f_end x1 - f_p x1))).
    assert (Z.min rest (u64 (f_end x1 - f_p x1)) = Z.of_nat n) as ->
      by (rewrite uwrap_id by (unfold_int; lia); unfold n; lia).
    assert (mapped (fmem s1) dst (Z.of_nat n)) as Hm1.
    { eapply mapped_le; [by apply (or_mapped _ _ _ _ _ _ _ Ho1)|lia|unfold n; lia]. }
    destruct (take_out_ret s1 f x1 c dst n Hs1 Hm1) as (E2 & Hs2 & Ho2 & Hnc);
      [unfold apart_buf in *; unfold n; lia|unfold n; lia|].
    eexists n, _, _. split; [exact E2|]. split_and!; try done.
    + eapply onlyr_trans; [|exact Ho2]. by apply (onlyr_mono _ _ _ _ _ 0 0); [lia|].
    + unfold n. lia.
    + apply bytes_at_mwrite.
    + rewrite decide_False by (unfold n; lia). done.
Qed.

Lemma fread1_ret fuel s f x c dst rest :
  istream s f x c -> sure_reads -> f_eof x = 0 -> f_error x = 0 ->
  mapped (fmem s) dst rest -> 0 < rest < 2 ^ 64 -> apart_buf f dst rest ->
  exists n x' s', _fread1 fuel dst rest f s = Ret (Z.of_nat n) s' /\ onlyr s s' f x x' dst (Z.of_nat n) /\
    Z.of_nat n <= rest /\ (n <= length c)%nat /\ istream s' f x' (drop n c) /\
    bytes_at (fmem s') dst (take n c) /\ f_error x' = 0 /\
    (if decide (n = 0%nat) then c = [] /\ f_eof x' = 1 else f_eof x' = 0).
Proof. intros Hs Hsure He Hr Hm Hrest Hd. by destruct (fread1_cases fuel s f x c dst rest Hs He Hr Hm Hrest Hd) as [|(s' & (_ & Hn & _) & _)]. Qed.

Lemma feof_ret s f x : sd_files s !! f = Some x -> _feof f s = Ret (f_eof x) s.
Proof. intros Hx. unfold _feof. by mrun (ldf_ret _ _ _ Hx). Qed.

Lemma onlyr_bytes s s' f x x' a n b l :
  onlyr s s' f x x' a n -> bytes_at (fmem s) b l -> apart_buf f b (Z.of_nat (length l)) ->
  b + Z.of_nat (length l) <= a \/ a + n <= b -> bytes_at (fmem s') b l.
Proof.
  intros Ho Hl Hd Hd'. apply bytes_at_lookup. intros i y Hi. apply lookup_lt_Some in Hi as Hlt.
  rewrite (or_mem _ _ _ _ _ _ _ Ho); [by apply (proj1 (bytes_at_lookup _ _ _) Hl)|unfold apart_buf in Hd; lia|lia].
Qed.

Lemma copy_stale_inv dst rest f s v s' : copy_stale dst rest f s = Ret v s' -> v = rest /\ is_Some (sd_files s' !! f).
Proof.
  intros (w & s1 & _ & E)%bind_inv. apply bind_inv in E as ([] & s2 & E & [= <- <-]). split; [done|].
  apply bind_inv in E as (x & s3 & _ & [= <-]). cbn. rewrite lookup_insert_eq. by eexists.
Qed.

Lemma fread_loop fu f fuel : forall k dst s x c ret,
  istream s f x c -> f_eof x = 0 -> f_error x = 0 -> mapped (fmem s) dst (Z.of_nat k) ->
  Z.of_nat k < 2 ^ 64 -> apart_buf f dst (Z.of_nat k) -> (k + 1 < fuel)%nat ->
  (exists x' s', let j := Nat.min k (length c) in
    loop fuel (fread_turn fu f) (dst, Z.of_nat k, ret) s = Ret (ret + Z.of_nat j) s' /\
    onlyr s s' f x x' dst (Z.of_nat k) /\ istream s' f x' (drop j c) /\ bytes_at (fmem s') dst (take j c) /\
    f_error x' = 0 /\ (f_eof x' = if decide (j < k)%nat then 1 else 0)) \/
  (exists j x1 s1 s', (j < k)%nat /\ (j <= length c)%nat /\
    onlyr s s1 f x x1 dst (Z.of_nat k) /\ istream s1 f x1 (drop j c) /\ bytes_at (fmem s1) dst (take j c) /\
    f_eof x1 = 0 /\ f_error x1 = 0 /\ fill_failed s1 f x1 s' /\
    loop fuel (fread_turn fu f) (dst, Z.of_nat k, ret) s =
    (_ ← copy_stale (dst + Z.of_nat j) (Z.of_nat k - Z.of_nat j) f; mret (ret + Z.of_nat k)) s').
Proof.
  induction fuel as [|fuel IH]; intros k dst s x c ret Hs He Hr Hm Hk Hd Hfu; [lia|].
  pose proof Hs as ([Hx _ _ _ _] & _). rewrite loop_S. unfold fread_turn at 1 3.
  mrun (feof_ret _ _ _ Hx). mrun (ferror_ret _ _ _ Hx). rewrite He, Hr. change (0 =? 0) with true. rewrite !andb_true_r.
  destruct (decide (k = 0%nat)) as [->|Hk0].
  { left. exists x, s. cbn. rewrite Z.add_0_r. split_and!; try done. by apply onlyr_refl. }
  rewrite (proj2 (Z.ltb_lt 0 (Z.of_nat k))) by lia.
  destruct (fread1_cases fu s f x c dst (Z.of_nat k) Hs He Hr Hm ltac:(lia) Hd)
    as [(n & x1 & s1 & E & Ho & Hn & Hnc & Hs1 & Hb & Hr1 & Hcase)|(s' & Hff & E)].
  2: { right. exists 0%nat, x, s, s'. rewrite drop_0, take_0, Z.add_0_r, Z.sub_0_r.
       split_and!; [lia|lia|by apply onlyr_refl|done..|]. unfold mbind at 1, M_bind at 1. rewrite E. munfold.
       destruct (copy_stale dst (Z.of_nat k) f s') as [v s3| | |] eqn:Ec; [|done..].
       apply copy_stale_inv in Ec as [-> [x3 Hx3]]. destruct fuel as [|fuel]; [lia|]. rewrite loop_S. unfold fread_turn at 1.
       mrun (feof_ret _ _ _ Hx3). mrun (ferror_ret _ _ _ Hx3). by rewrite Z.sub_diag. }
  mrun E. rewrite mret_ret. pose proof Hs1 as ([Hx1 _ _ _ _] & _). case_decide as Hn0.
  - left. subst n. destruct Hcase as [-> He1]. rewrite Z.sub_0_r, !Z.add_0_r. destruct fuel as [|fuel]; [lia|].
    rewrite loop_S. unfold fread_turn at 1. mrun (feof_ret _ _ _ Hx1). mrun (ferror_ret _ _ _ Hx1). rewrite He1.
    change (1 =? 0) with false. rewrite andb_false_r. exists x1, s1. cbn [length]. rewrite Nat.min_0_r, Z.add_0_r.
    split_and!; try done; [|by rewrite decide_True by lia]. eapply onlyr_mono; [|exact Ho]. lia.
  - replace (Z.of_nat k - Z.of_nat n) with (Z.of_nat (k - n)) by lia.
    assert (forall j x2 s2, (n + j <= k)%nat -> (n + j <= length c)%nat -> onlyr s1 s2 f x1 x2 (dst + Z.of_nat n) (Z.of_nat (k - n)) ->
      bytes_at (fmem s2) (dst + Z.of_nat n) (take j (drop n c)) ->
      onlyr s s2 f x x2 dst (Z.of_nat k) /\ bytes_at (fmem s2) dst (take (n + j) c)) as Hjoin.
    { intros j x2 s2 Hj Hjc Ho2 Hb2. split; [eapply onlyr_trans; (eapply onlyr_mono; [|eassumption]); lia|].
      rewrite <- take_take_drop. apply bytes_at_app. rewrite length_take_le by lia. split; [|done].
      eapply onlyr_bytes; [exact Ho2|done|..]; rewrite length_take_le by lia; unfold apart_buf in *; lia. }
    destruct (IH (k - n)%nat (dst + Z.of_nat n) s1 x1 (drop n c) (ret + Z.of_nat n))
      as [(x2 & s2 & E2 & Ho2 & Hs2 & Hb2 & Hr2 & He2)|(j & x2 & s2 & s' & Hj & Hjc & Ho2 & Hs2 & Hb2 & He2 & Hr2 & Hff & E2)];
      try done; [|lia|unfold apart_buf in *; lia|lia|left|right].
    { eapply mapped_le; [by apply (or_mapped _ _ _ _ _ _ _ Ho)|lia|lia]. }
    + cbv zeta in E2, Hs2, Hb2, He2. rewrite length_drop in *.
      exists x2, s2. cbv zeta. set (j := Nat.min (k - n) (length c - n)) in *.
      assert (Nat.min k (length c) = (n + j)%nat) as -> by (unfold j; lia).
      destruct (Hjoin j x2 s2 ltac:(lia) ltac:(lia) Ho2 Hb2) as [Ho3 Hb3]. split_and!; [|done| |done|done|].
      * rewrite E2. f_equal. lia.
      * by rewrite <- drop_drop.
      * rewrite He2. repeat case_decide; done || (unfold j in *; lia).
    + rewrite length_drop in Hjc. destruct (Hjoin j x2 s2 ltac:(lia) ltac:(lia) Ho2 Hb2) as [Ho3 Hb3].
      exists (n + j)%nat, x2, s2, s'. rewrite <- drop_drop. split_and!; [lia|lia|done..|]. rewrite E2.
      by replace (dst + Z.of_nat n + Z.of_nat j) with (dst + Z.of_nat (n + j)) by lia;
        replace (Z.of_nat (k - n) - Z.of_nat j) with (Z.of_nat k - Z.of_nat (n + j)) by lia;
        replace (ret + Z.of_nat n + Z.of_nat (k - n)) with (ret + Z.of_nat k) by lia.
Qed.

Lemma istream_mut s f x c z : istream s f x c -> istream (with_file f (set_mut z x) s) f (set_mut z x) c.
Proof.
  intros (Hok & Hbt & Hw & Hu). split_and!; [|done..].
  rewrite with_file_proc. pose proof Hok as []. by apply file_ok_with with x.
Qed.

(** C21: [fread] from a fully buffered stream delivers the stream in order, for
    every kernel.  It returns, releases the lock, and stores the next bytes of the
    stream (what was unread in the buffer, then the kernel's input) at [dst]: as many
    as were asked for, or all there are, in which case the end-of-file indicator is
    set; the rest of the stream can still be read.  There is one exception, a kernel
    whose [read] fails when the buffer is empty.  After the [j] bytes delivered so
    far [fread] then copies all that is missing from the start of the buffer and
    reports [cnt] objects, without an error and with [end] below the buffer. *)
Theorem fread_correct fuel s f x c dst sz cnt :
  istream s f x c -> f_eof x = 0 -> f_error x = 0 -> f_mut x = 0 ->
  0 < sz -> 0 <= cnt -> cnt * sz < 2 ^ 64 -> mapped (fmem s) dst (cnt * sz) -> apart_buf f dst (cnt * sz) ->
  (Z.to_nat (cnt * sz) + 1 < fuel)%nat ->
  (exists x' s', let j := Nat.min (Z.to_nat (cnt * sz)) (length c) in
    fread fuel dst sz cnt f s = Ret (Z.of_nat j / sz) s' /\ onlyr s s' f x x' dst (cnt * sz) /\
    istream s' f x' (drop j c) /\ bytes_at (fmem s') dst (take j c) /\
    (f_eof x' = if decide (j < Z.to_nat (cnt * sz))%nat then 1 else 0)) \/
  (exists z j x1 s1 s', Z.of_nat j < cnt * sz /\ (j <= length c)%nat /\
    onlyr (with_file f (set_mut z x) s) s1 f (set_mut z x) x1 dst (cnt * sz) /\
    istream s1 f x1 (drop j c) /\ bytes_at (fmem s1) dst (take j c) /\
    f_eof x1 = 0 /\ f_error x1 = 0 /\ fill_failed s1 f x1 s' /\
    fread fuel dst sz cnt f s =
    (_ ← copy_stale (dst + Z.of_nat j) (cnt * sz - Z.of_nat j) f; _ ← unlockf f; mret cnt) s').
Proof.
  intros Hs He Hr Hmut Hsz Hcnt Hlt Hm Hd Hfu. unfold fread. assert (0 <= cnt * sz) as Hpos by nia.
  rewrite (proj2 (Z.eqb_neq sz 0)), (proj2 (Z.ltb_ge _ cnt)) by
    (lia || (unfold ULONG_MAX; apply Z.div_le_lower_bound; lia)).
  pose proof Hs as ([Hx _ _ _ _] & _). destruct (lockf_ret s f x Hx Hmut) as [z Ez]. mrun Ez.
  set (x1 := set_mut z x). set (s1 := with_file f x1 s). pose proof (Z.div_mul cnt sz ltac:(lia)) as Ediv.
  rewrite uwrap_id by (unfold_int; lia). rewrite <- (Z2Nat.id (cnt * sz)) in * by lia.
  set (k := Z.to_nat (cnt * sz)) in *. rewrite Nat2Z.id in *.
  destruct (fread_loop fuel f fuel k dst s1 x1 c 0 (istream_mut _ _ _ _ z Hs) He Hr Hm ltac:(lia) Hd Hfu)
    as [(x2 & s2 & E & Ho & Hs2 & Hb & Hr2 & He2)|(j & x2 & s2 & s' & Hj & Hjc & Ho & Hs2 & Hb & He2 & Hr2 & Hff & E)]; [left|right].
  2: { exists z, j, x2, s2, s'. split_and!; [lia|done..|]. unfold mbind at 1, M_bind at 1. rewrite E. cbn [Z.add]. munfold.
       destruct (copy_stale _ _ _ s'); [|done..]. change (0 + Z.of_nat k) with (Z.of_nat k). by rewrite Ediv. }
  cbv zeta in E. mrun E. pose proof Hs2 as ([Hx2 _ _ _ _] & _). mrun (unlockf_ret _ _ _ Hx2).
  exists (set_mut 0 x2), (with_file f (set_mut 0 x2) s2). cbv zeta.
  split_and!; [done| |by apply istream_mut|done|done].
  destruct Ho as [F Hk A Hh Hmm Hmp Hi Ho]. split; try done.
  - unfold with_file, set_files. cbn. rewrite F. cbn. by rewrite !insert_insert_eq.
  - injection Hk as E1 E2 E3 E4 E5. unfold fields. cbn in *. by rewrite E1, E2, E4, E5, Hmut.
Qed.
(** [ungetc] pushes a character back: after a character was read from the
    buffer, [ungetc] makes it (or another one) the next one of the stream and
    clears the end-of-file indicator; at the start of the buffer it fails. *)
Theorem ungetc_correct s f x c b :
  istream s f x c -> f_mut x = 0 ->
  exists r x' s', ungetc (uchar b) f s = Ret r s' /\ f_mut x' = 0 /\
    (if decide (f_p x = fbuf f) then r = EOF /\ istream s' f x' c
     else r = uchar b /\ istream s' f x' (b :: c) /\ f_eof x' = 0).
Proof.
  intros Hs Hmut. unfold ungetc, locked. pose proof (uchar_range b) as Hb.
  rewrite (proj2 (Z.eqb_neq (uchar b) EOF)) by (unfold EOF; lia).
  pose proof Hs as ([Hx _ _ _ _] & _). destruct (lockf_ret s f x Hx Hmut) as [z Ez]. mrun Ez.
  set (x1 := set_mut z x). set (s1 := with_file f x1 s).
  assert (sd_files s1 !! f = Some x1) as Hx1 by apply with_file_lookup.
  assert (with_file f (set_mut 0 x1) s1 = s) as E0.
  { unfold s1, x1. rewrite with_file_twice. apply with_file_id. rewrite Hx. destruct x; cbn in *. by subst. }
  case_decide as Ep.
  - assert (_ungetc (uchar b) f s1 = Ret EOF s1) as E.
    { unfold _ungetc. mrun (ldf_ret _ _ _ Hx1). cbn [f_p x1 set_mut]. by rewrite Ep, Z.eqb_refl. }
    mrun E. mrun (unlockf_ret _ _ _ Hx1). exists EOF, x, s. rewrite E0. done.
  - destruct Hs as (Hok & Hbt & Hw & u & Hu & Eu & ->). pose proof Hok as [_ Ha Hfd Hr Hbm].
    set (x2 := set_p (f_p x1 - 1) x1). set (x3 := set_eof 0 x2).
    set (m' := <[f_p x - 1 := b]> (fmem s)).
    set (s3 := with_file f x3 (with_proc (set_mem m' (pr s)) s)).
    assert (_ungetc (uchar b) f s1 = Ret (uchar b) s3) as E.
    { unfold _ungetc. mrun (ldf_ret _ _ _ Hx1). rewrite (proj2 (Z.eqb_neq (f_p x1) (fbuf f)) Ep).
      mrun (stf_ret s1 f (set_p (f_p x1 - 1)) x1 Hx1). set (s2 := with_file f _ s1).
      assert (is_Some (fmem s2 !! (f_p x1 - 1))) as Hsm by (apply Hbm; cbn; lia).
      mrun (om_ret _ s2 _ _ (stc_ret (fmem s2) (f_p x1 - 1) (u8 (uchar b)) Hsm)).
      rewrite (uwrap_id 8) by (unfold_int; lia). rewrite byte_of_uchar. set (s2' := with_proc _ s2).
      assert (sd_files s2' !! f = Some x2) as Hx2 by apply with_file_lookup.
      mrun (stf_ret s2' f (set_eof 0) x2 Hx2). munfold. f_equal.
      unfold s3, s2', s2, s1. rewrite with_proc_file. unfold with_file, set_files. cbn.
      by rewrite !insert_insert_eq. }
    mrun E. assert (sd_files s3 !! f = Some x3) as Hx3 by apply with_file_lookup.
    mrun (unlockf_ret _ _ _ Hx3). unfold s3. rewrite with_file_twice.
    eexists _, (set_mut 0 x3), _. split; [done|]. split_and!; try done. split_and!; try done.
    + apply file_ok_with with x; [done|done|cbn; lia|]. by apply mapped_insert.
    + exists (b :: u). split_and!; [|cbn [length f_end f_p x3 x2 x1 set_mut set_eof set_p]; lia|done].
      cbn. split; [apply lookup_insert_eq|]. replace (f_p x - 1 + 1) with (f_p x) by lia.
      apply bytes_at_insert_out; [done|lia].
Qed.

(** C23: [fread] from an unbuffered stream never returns at the end of the input:
    [read] delivers nothing, no indicator is set, and the loop goes on for any
    number of iterations. *)
Theorem fread_unbuffered_hangs fuel s f x dst sz cnt :
  sd_files s !! f = Some x -> f_btype x = _IONBF -> f_eof x = 0 -> f_error x = 0 -> f_mut x = 0 ->
  0 <= f_fd x < 2 ^ 31 -> 0 < dst < 2 ^ 62 -> mapped (fmem s) dst (cnt * sz) -> 0 < sz -> 0 < cnt * sz < 2 ^ 31 ->
  sure_reads -> kin (kern s) (f_fd x) = [] ->
  fread fuel dst sz cnt f s = Spin.
Proof.
  intros Hx Hbt He Hr Hmut Hfd Hdst Hm Hsz Hlt Hsure Hin. unfold fread.
  rewrite (proj2 (Z.eqb_neq sz 0)), (proj2 (Z.ltb_ge _ cnt)) by
    (lia || (unfold ULONG_MAX; apply Z.div_le_lower_bound; lia)).
  destruct (lockf_ret s f x Hx Hmut) as [z Ez]. mrun Ez. set (x1 := set_mut z x).
  rewrite uwrap_id by (unfold_int; lia).
  assert (forall n (fu : nat) s x, sd_files s !! f = Some x -> f_btype x = _IONBF -> f_eof x = 0 -> f_error x = 0 ->
    0 <= f_fd x < 2 ^ 31 -> mapped (fmem s) dst (cnt * sz) -> kin (kern s) (f_fd x) = [] ->
    loop n (fread_turn fu f) (dst, cnt * sz, 0) s = Spin) as Hloop.
  { clear -Hdst Hsure Hlt. induction n as [|n IH]; intros fu s x Hx Hbt He Hr Hfd Hm Hin; [done|]. rewrite loop_S. unfold fread_turn at 1.
    mrun (feof_ret _ _ _ Hx). mrun (ferror_ret _ _ _ Hx). rewrite He, Hr, (proj2 (Z.ltb_lt _ _)) by lia.
    change (0 =? 0) with true. cbn [andb].
    destruct (read_ret (pr s) (f_fd x) dst (cnt * sz) Hfd Hdst Hm Hlt Hsure) as (k & k' & E & Hl & _ & Hk & _ & _).
    unfold kern in Hin. rewrite Hin, take_nil in *. cbn [length] in Hl. subst k. cbn [mwrite Z.of_nat] in E.
    assert (_fread1 fu dst (cnt * sz) f s = Ret 0 (with_proc (Proc (fmem s) (p_errno (pr s)) k') s)) as E1.
    { unfold _fread1. mrun (ldf_ret _ _ _ Hx). rewrite Hbt. change (_IONBF =? _IOFBF) with false.
      change (_IONBF =? _IONBF) with true. cbn [orb negb]. cbv iota. mrun (onp_ret _ _ _ _ E). done. }
    mrun E1. rewrite mret_ret, !Z.add_0_r, Z.sub_0_r. apply (IH fu _ x); done. }
  pose proof (Hloop fuel fuel (with_file f x1 s) x1 (with_file_lookup _ _ _) Hbt He Hr Hfd Hm Hin) as E.
  unfold mbind at 1, M_bind at 1. by rewrite E.
Qed.
(** ** Lines *)

(** What [fgets] reads: up to and including a newline, at most [k] characters. *)
Fixpoint line (k : nat) (c : list byte) : list byte :=
  match k, c with
  | S k, b :: c => if decide (b = x0a) then [b] else b :: line k c
  | _, _ => []
  end.

Section Gets.
Context (f : Z) (sure : sure_reads).
Hypothesis cbuf_apart : apart_buf f cbuf 1.

Lemma fgetc_ret fuel s x c :
  istream s f x c -> f_eof x = 0 -> f_error x = 0 -> mapped (fmem s) cbuf 1 ->
  exists x' s', _fgetc fuel f s = Ret (match c with [] => EOF | b :: _ => schar b end) s' /\
    onlyr s s' f x x' cbuf 1 /\ istream s' f x' (tl c) /\ f_error x' = 0 /\
    (f_eof x' = match c with [] => 1 | _ => 0 end).
Proof using sure cbuf_apart.
  intros Hs He Hr Hm. unfold _fgetc.
  destruct (fread1_ret fuel s f x c cbuf 1 Hs sure He Hr Hm ltac:(lia) cbuf_apart)
    as (n & x' & s' & E & Ho & Hn & Hnc & Hs' & Hb & Hr' & Hcase).
  mrun E. exists x', s'. apply (onlyr_mono _ _ _ _ _ _ _ cbuf 1) in Ho; [|lia]. case_decide as Hn0.
  - subst n. destruct Hcase as [-> He']. done.
  - assert (n = 1%nat) as -> by lia. destruct c as [|b c]; [cbn in Hnc; lia|].
    change (negb (Z.of_nat 1 =? 1)) with false. cbv iota. cbn [take bytes_at] in Hb. split_and!; try done.
    rewrite (om_ret _ s' _ _ (ldc_ret _ _ _ (proj1 Hb))). by destruct s' as [[[] ? ? ? ? ? ?] ? ? ?].
Qed.

Lemma istream_store s x c b v :
  istream s f x c -> is_Some (fmem s !! b) -> ~ (fbuf f <= b < fbuf f + BUFSIZ) ->
  let s' := with_proc (set_mem (<[b := v]> (fmem s)) (pr s)) s in
  istream s' f x c.
Proof using.
  intros (Hok & Hbt & Hw & u & Hu & Eu & ->) Hb Hd s'. destruct Hok as [Hx Ha Hfd Hr Hbm].
  split_and!; [|done..|].
  - split; [done..|]. by apply mapped_insert.
  - exists u. split_and!; [|done..]. apply bytes_at_insert_out; [done|]. lia.
Qed.

Context (buf : Z) (sz : nat).
Hypothesis buf_apart : apart_buf f buf (Z.of_nat sz + 1).
Hypothesis buf_cbuf : cbuf < buf \/ buf + Z.of_nat sz < cbuf.

Definition untouched (b : Z) : Prop :=
  ~ (fbuf f <= b < fbuf f + BUFSIZ) /\ b <> cbuf /\ ~ (buf <= b < buf + Z.of_nat sz + 1).

Lemma fgets_loop fu n : forall k acc c s x,
  istream s f x c -> f_eof x = 0 -> f_error x = 0 -> mapped (fmem s) cbuf 1 ->
  mapped (fmem s) buf (Z.of_nat sz + 1) -> bytes_at (fmem s) buf acc -> (length acc + k = sz)%nat ->
  xff ∉ line k c -> (k < n)%nat -> Z.of_nat sz < 2 ^ 31 ->
  exists x' s', loop n (fun c =>
      if c <? u64 (Z.of_nat sz) then
        ch' ← _fgetc fu f;
        if ch' =? EOF then mret (inr (if 0 <? c then buf else 0, c))
        else
          _ ← om (stc (buf + c) ch');
          if ch' =? 10 then mret (inr (buf, c + 1)) else mret (inl (c + 1))
      else mret (inr (buf, c))) (Z.of_nat (length acc)) s
    = Ret (if decide (acc = [] /\ k <> 0%nat /\ c = []) then 0 else buf,
           Z.of_nat (length (acc ++ line k c))) s' /\
    bytes_at (fmem s') buf (acc ++ line k c) /\ istream s' f x' (drop (length (line k c)) c) /\
    mapped (fmem s') buf (Z.of_nat sz + 1) /\ f_mut x' = f_mut x /\
    (forall b, untouched b -> fmem s' !! b = fmem s !! b).
Proof using sure cbuf_apart buf_apart buf_cbuf.
  induction n as [|n IH]; intros k acc c s x Hs He Hr Hmc Hmb Hacc Hk Hff Hn Hsz; [lia|]. rewrite loop_S.
  rewrite uwrap_id by (unfold_int; lia). destruct k as [|k].
  { rewrite (proj2 (Z.ltb_ge _ _)) by lia. exists x, s. cbn [line]. rewrite app_nil_r, decide_False by tauto. done. }
  rewrite (proj2 (Z.ltb_lt (Z.of_nat (length acc)) _)) by lia.
  destruct (fgetc_ret fu s x c Hs He Hr Hmc) as (x1 & s1 & E & Ho & Hs1 & Hr1 & He1). mrun E.
  assert (bytes_at (fmem s1) buf acc) as Hacc1.
  { eapply onlyr_bytes; [exact Ho|done|unfold apart_buf in *; lia|lia]. }
  assert (mapped (fmem s1) buf (Z.of_nat sz + 1)) as Hmb1 by (by apply (or_mapped _ _ _ _ _ _ _ Ho)).
  assert (f_mut x1 = f_mut x) as Hmu by (by injection (or_keep _ _ _ _ _ _ _ Ho)).
  assert (forall b, untouched b -> fmem s1 !! b = fmem s !! b) as Hf1.
  { intros b (? & ? & ?). apply (or_mem _ _ _ _ _ _ _ Ho); [done|lia]. }
  destruct c as [|b c].
  - change (EOF =? EOF) with true. cbv iota. exists x1, s1. cbn [line]. rewrite app_nil_r.
    split_and!; try done. munfold. f_equal. f_equal. destruct acc as [|a acc].
    + by rewrite decide_True.
    + rewrite decide_False by (by intros [? _]). by rewrite (proj2 (Z.ltb_lt 0 _)) by (cbn [length]; lia).
  - cbn [tl] in Hs1. assert (b <> xff) as Hb.
    { intros ->. apply Hff. cbn [line]. rewrite decide_False by done. apply list_elem_of_here. }
    assert ((schar b =? EOF) = false) as -> by (change EOF with (schar xff); by apply schar_ne).
    assert (is_Some (fmem s1 !! (buf + Z.of_nat (length acc)))) as Hsm by (apply Hmb1; lia).
    mrun (om_ret _ s1 _ _ (stc_ret _ _ (schar b) Hsm)). rewrite byte_of_schar. set (s2 := with_proc _ s1).
    assert (istream s2 f x1 c) as Hs2 by (apply istream_store; [done|done|unfold apart_buf in *; lia]).
    assert (bytes_at (fmem s2) buf (acc ++ [b])) as Hacc2.
    { apply bytes_at_app. split; [apply bytes_at_insert_out; [done|lia]|]. cbn. split; [apply lookup_insert_eq|done]. }
    assert (mapped (fmem s2) buf (Z.of_nat sz + 1)) as Hmb2 by (by apply mapped_insert).
    assert (forall a, untouched a -> fmem s2 !! a = fmem s !! a) as Hf2.
    { intros a Ha. rewrite <- (Hf1 a Ha). cbn. apply lookup_insert_ne. destruct Ha as (_ & _ & ?). lia. }
    assert ((schar b =? 10) = bool_decide (b = x0a)) as -> by apply (schar_eqb b x0a). cbn [line] in *. destruct (decide (b = x0a)) as [->|Hnl].
    + rewrite bool_decide_true by done. exists x1, s2. rewrite mret_ret.
      rewrite decide_False by (by intros (_ & _ & ?)). split_and!; try done.
      f_equal. f_equal. rewrite length_app. cbn. lia.
    + rewrite bool_decide_false by done. rewrite mret_ret.
      replace (Z.of_nat (length acc) + 1) with (Z.of_nat (length (acc ++ [b]))) by (rewrite length_app; cbn; lia).
      assert (xff ∉ line k c) as Hff' by (by apply not_elem_of_cons in Hff as [_ Hff]).
      destruct (IH k (acc ++ [b]) c s2 x1) as (x3 & s3 & E3 & Hb3 & Hs3 & Hm3 & Hmu3 & Hf3); try done.
      * apply mapped_insert. by apply (or_mapped _ _ _ _ _ _ _ Ho).
      * rewrite length_app. cbn. lia.
      * lia.
      * exists x3, s3. rewrite <- app_assoc in *. cbn [app length drop] in *.
        rewrite uwrap_id in E3 by (unfold_int; lia). rewrite E3.
        split_and!; try done; [|congruence|intros a Ha; by rewrite Hf3, Hf2].
        rewrite !decide_False; [done|by intros (_ & _ & ?)|intros [E' _]; by destruct acc].
Qed.
End Gets.
Lemma line_length k c : (length (line k c) <= k)%nat.
Proof. revert c. induction k as [|k IH]; intros [|b c]; cbn; try lia. case_decide; cbn; [lia|]. specialize (IH c). lia. Qed.

(** [fgets] reads a line: the next characters of the stream up to and
    including a newline, at most [size - 1], are stored with a NUL behind them
    and removed from the stream; the result is NULL exactly when nothing could be
    read although there was room.  The line must not contain the byte 255, which
    [fgetc] cannot tell from the end of the file. *)
Theorem fgets_correct fuel s f x c buf size :
  let l := line (Z.to_nat (size - 1)) c in
  istream s f x c -> sure_reads -> f_eof x = 0 -> f_error x = 0 -> f_mut x = 0 -> 1 <= size < 2 ^ 31 ->
  mapped (fmem s) cbuf 1 -> mapped (fmem s) buf size -> apart_buf f cbuf 1 -> apart_buf f buf size ->
  cbuf < buf \/ buf + size <= cbuf -> xff ∉ l -> (Z.to_nat size <= fuel)%nat ->
  exists x' s', fgets fuel buf size f s = Ret (if decide (size <> 1 /\ c = []) then 0 else buf) s' /\
    bytes_at (fmem s') buf (l ++ [x00]) /\ istream s' f x' (drop (length l) c) /\ f_mut x' = 0 /\
    (forall b, untouched f buf (Z.to_nat (size - 1)) b -> fmem s' !! b = fmem s !! b).
Proof.
  intros l Hs Hsure He Hr Hmut Hsz Hmc Hmb Hca Hba Hcb Hff Hfu. subst l.
  assert (exists k, size = Z.of_nat k + 1) as [k ->] by (exists (Z.to_nat (size - 1)); lia).
  replace (Z.to_nat (Z.of_nat k + 1 - 1)) with k in * by lia. set (l := line k c) in *. unfold fgets.
  set (size := Z.of_nat k + 1) in *. rewrite (proj2 (Z.eqb_neq size 0)) by lia. rewrite (bind_ret _ _ _ _ _ (schk_ret 32 (size - 1) s ltac:(unfold_int; lia))).
  pose proof Hs as ([Hx _ _ _ _] & _). destruct (lockf_ret s f x Hx Hmut) as [z Ez]. mrun Ez.
  unfold size in *. clear size. replace (Z.of_nat k + 1 - 1) with (Z.of_nat k) by lia.
  destruct (fgets_loop f Hsure Hca buf k ltac:(exact Hba) ltac:(lia) fuel fuel k [] c (with_file f (set_mut z x) s) (set_mut z x))
    as (x1 & s1 & E & Hb & Hs1 & Hm1 & Hmu & Hf1); try done; [by apply istream_mut|lia|lia|].
  cbn [length Z.of_nat] in E. mrun E. cbn [app] in *. fold l in E, Hb, Hs1 |- *.
  pose proof (line_length k c) as Hl. fold l in Hl.
  assert (is_Some (fmem s1 !! (buf + Z.of_nat (length l)))) as Hsm by (apply Hm1; lia).
  mrun (om_ret _ s1 _ _ (stc_ret _ _ 0 Hsm)). set (s2 := with_proc _ s1).
  assert (istream s2 f x1 (drop (length l) c)) as Hs2.
  { apply istream_store; [done|done|]. unfold apart_buf in *. lia. }
  pose proof Hs2 as ([Hx2 _ _ _ _] & _). mrun (unlockf_ret _ _ _ Hx2).
  exists (set_mut 0 x1), (with_file f (set_mut 0 x1) s2). split_and!; try done.
  - munfold. f_equal. apply decide_ext. split; [intros (_ & ? & ->); split; [lia|done]|intros [? ->]; split_and!; [done|lia|done]].
  - cbn. apply bytes_at_app. split; [apply bytes_at_insert_out; [done|lia]|]. cbn. by rewrite lookup_insert_eq.
  - by apply istream_mut.
  - intros b Ho. transitivity (fmem s1 !! b); [|exact (Hf1 b Ho)]. apply lookup_insert_ne.
    destruct Ho as (_ & _ & ?). lia.
Qed.
End Correct.

(** ** A process with one stream

    The struct is at 65536 with its buffer behind it, the local arrays and a
    page of data are at 90112 and above. *)

#[export] Instance demo_image : Image := {|
  lit _ := 94208; stdin := 16384; stdout := 24576; stderr := 32768; __progname := 94976;
  lbuf n := 131072 + 2048 * Z.of_nat n; statbuf := 94720; cbuf := 94463; errbuf := 94600; noarg := 0 |}.

Definition demo_file (bt w p e : Z) : FILE := File 3 bt p e 0 0 w 0 0 0.
Definition demo_mem (buf data : list byte) : mem :=
  mwrite (mwrite (mwrite ∅ 65536 (replicate (Z.to_nat 8192) x00)) 90112 (data ++ replicate (Z.to_nat 4896) x00)) 65544 buf.
Definition demo_stdio (x : FILE) (k : files) (buf data : list byte) : stdio files :=
  Stdio (Heap (Proc (demo_mem buf data) 0 k) ∅ 0 0 0 0 1) {[65536 := x]} 65536 0.

Lemma demo_mapped buf data : mapped (demo_mem buf data) (fbuf 65536) BUFSIZ.
Proof.
  apply mapped_mwrite, mapped_mwrite. intros a Ha. unfold fbuf, BUFSIZ in Ha.
  rewrite mwrite_lookup, length_replicate, decide_True by lia.
  apply lookup_lt_is_Some. rewrite length_replicate. lia.
Qed.

Lemma demo_file_ok bt w p e k buf data :
  65544 <= p -> p <= e -> e <= 69640 ->
  file_ok (demo_stdio (demo_file bt w p e) k buf data) 65536 (demo_file bt w p e).
Proof. split; [done|by split|done|unfold fbuf, BUFSIZ; cbn; lia|apply demo_mapped]. Qed.

(** Bytes 90112 and on. *)
Lemma demo_data_mapped buf data n :
  0 <= n <= 4896 -> Z.of_nat (length buf) <= 4096 -> mapped (demo_mem buf data) 90112 n.
Proof.
  intros Hn Hb. apply mapped_mwrite. intros a Ha. rewrite mwrite_lookup, length_app, length_replicate.
  rewrite decide_True by lia. apply lookup_lt_is_Some. rewrite length_app, length_replicate. lia.
Qed.

Lemma demo_data buf data :
  Z.of_nat (length buf) <= 4096 -> bytes_at (demo_mem buf data) 90112 data.
Proof.
  intros Hb. apply bytes_at_mwrite_out; [|lia].
  eapply proj1, bytes_at_app, bytes_at_mwrite.
Qed.

Lemma demo_ostream k pend data p c :
  Z.of_nat (length pend) <= 4096 -> p = 65544 + Z.of_nat (length pend) -> c = file_out k 3 ++ pend ->
  ostream (demo_stdio (demo_file _IOFBF 1 p p) k pend data) 65536 (demo_file _IOFBF 1 p p) c.
Proof.
  intros Hp -> ->. split_and!; [apply demo_file_ok; lia|done|].
  exists pend. split_and!; [apply bytes_at_mwrite|done|]. by right.
Qed.

Lemma demo_istream k old unread data p e c :
  Z.of_nat (length (old ++ unread)) <= 4096 ->
  p = 65544 + Z.of_nat (length old) -> e = p + Z.of_nat (length unread) -> c = unread ++ file_in k 3 ->
  istream (demo_stdio (demo_file _IOFBF 0 p e) k (old ++ unread) data) 65536 (demo_file _IOFBF 0 p e) c.
Proof.
  intros Hp -> -> ->. rewrite length_app in Hp. split_and!; [apply demo_file_ok; lia|done|done|].
  exists unread. split_and!; [|done|done].
  apply (bytes_at_app _ 65544 old unread), bytes_at_mwrite.
Qed.

Definition demo_out : stdio files :=
  demo_stdio (demo_file _IOFBF 1 65546 65546) (∅, ∅) (str "ab") (str "hello!").
Definition demo_in : stdio files :=
  demo_stdio (demo_file _IOFBF 0 65545 65547) (∅, {[3 := str "two" ++ [x0a]]}) (str "aor") [].

Lemma demo_out_stream : ostream demo_out 65536 (demo_file _IOFBF 1 65546 65546) (str "ab").
Proof. by apply demo_ostream. Qed.

Lemma fwrite_correct_witness :
  exists j x' s', fwrite 9 (printf 9) 90112 2 3 65536 demo_out = Ret (Z.of_nat j / 2) s' /\
    onlyf demo_out s' 65536 (demo_file _IOFBF 1 65546 65546) x' /\ (j <= 6)%nat /\
    ostream s' 65536 x' (str "ab" ++ take j (str "hello!")) /\ (j = 6%nat \/ f_error x' <> 0).
Proof.
  destruct (fwrite_correct 9 (printf 9) demo_out 65536 (demo_file _IOFBF 1 65546 65546) (str "ab") 90112 (str "hello!") 2 3)
    as [H|(z & j & n & r & x1 & s1 & s' & _ & _ & _ & _ & _ & (_ & Hn & _) & _)];
    [apply demo_out_stream|done|done|apply demo_data; vm_compute; discriminate
    |done|done|done|right; vm_compute; discriminate|cbn; lia|exact H|destruct (Hn files_full)].
Defined.

Lemma fflush_all_correct_witness :
  exists r s', fflush 9 0 demo_out = Ret r s' /\ all_mut s' = 0 /\ all_head s' = 65536 /\
    dlist (sd_files s') (all_head s') [65536] /\ (forall f, f ∈ [65536] -> flushable s' f (str "ab")) /\
    fmem s' = fmem demo_out /\
    (r = 0 -> forall f x, f ∈ [65536] -> sd_files s' !! f = Some x -> kout (kern s') (f_fd x) = str "ab").
Proof.
  apply (fflush_all_correct 9 demo_out [65536] (fun _ => str "ab")); [|done|apply files_full|..].
  - split; [by repeat constructor; intros ?%elem_of_nil|]. exists 65536. cbn. eauto 10.
  - intros f ->%list_elem_of_singleton. eexists. split_and!; [done|done|]. left.
    apply demo_out_stream.
  - intros f g x y ->%list_elem_of_singleton ->%list_elem_of_singleton. done.
Defined.

Lemma demo_in_stream : istream demo_in 65536 (demo_file _IOFBF 0 65545 65547) (str "ortwo" ++ [x0a]).
Proof. by apply (demo_istream (∅, {[3 := str "two" ++ [x0a]]}) (str "a") (str "or") []). Qed.

Lemma fread_correct_witness :
  exists x' s', fread 9 90112 2 2 65536 demo_in = Ret (4 / 2) s' /\
    onlyr demo_in s' 65536 (demo_file _IOFBF 0 65545 65547) x' 90112 4 /\
    istream s' 65536 x' (str "o" ++ [x0a]) /\ bytes_at (fmem s') 90112 (str "ortw") /\ f_eof x' = 0.
Proof.
  destruct (fread_correct 9 demo_in 65536 (demo_file _IOFBF 0 65545 65547) (str "ortwo" ++ [x0a]) 90112 2 2)
    as [H|(z & j & x1 & s1 & s' & _ & _ & _ & _ & _ & _ & _ & (_ & Hn & _) & _)];
    [apply demo_in_stream|done..|lia|lia|lia|apply demo_data_mapped; [lia|vm_compute; discriminate]|right; vm_compute; discriminate|lia
    |exact H|destruct (Hn files_sure)].
Defined.

Lemma ungetc_correct_witness :
  exists r x' s', ungetc (uchar x66) 65536 demo_in = Ret r s' /\ f_mut x' = 0 /\
    r = uchar x66 /\ istream s' 65536 x' (x66 :: str "ortwo" ++ [x0a]) /\ f_eof x' = 0.
Proof.
  apply (ungetc_correct demo_in 65536 (demo_file _IOFBF 0 65545 65547) (str "ortwo" ++ [x0a]) x66);
    [apply demo_in_stream|done].
Defined.

Lemma fread_unbuffered_hangs_witness :
  fread 1000 90112 1 80 65536 (demo_stdio (demo_file _IONBF 0 65544 65544) (∅, ∅) [] []) = Spin.
Proof.
  apply (fread_unbuffered_hangs 1000 _ 65536 (demo_file _IONBF 0 65544 65544) 90112 1 80);
    [done..|apply demo_data_mapped; [lia|done]|done|done|apply files_sure|done].
Defined.

Lemma fgets_correct_witness :
  exists x' s', fgets 20 90112 20 65536 demo_in = Ret 90112 s' /\
    bytes_at (fmem s') 90112 (str "ortwo" ++ [x0a] ++ [x00]) /\ istream s' 65536 x' [] /\ f_mut x' = 0 /\
    (forall b, untouched 65536 90112 19 b -> fmem s' !! b = fmem demo_in !! b).
Proof.
  apply (fgets_correct 20 demo_in 65536 (demo_file _IOFBF 0 65545 65547) (str "ortwo" ++ [x0a]) 90112 20);
    [apply demo_in_stream|apply files_sure|done..|lia| | |right; vm_compute; discriminate|right; vm_compute; discriminate|right; vm_compute; discriminate| |lia].
  - intros a Ha. apply (demo_data_mapped (str "aor") [] 4896); [lia|vm_compute; discriminate|]. cbn in Ha. lia.
  - apply demo_data_mapped; [lia|vm_compute; discriminate].
  - vm_compute. intros H. by repeat (apply elem_of_cons in H as [?|H]; [discriminate|]); apply elem_of_nil in H.
Defined.

(** *** Short writes and failing reads *)

(** A kernel that takes one byte of the first write and all of the later ones, and
    whose reads fail.  Its state is what was written, and whether anything was. *)
Definition flaky : Type := list byte * bool.

#[local] Instance flaky_kernel : Kernel flaky := {|
  karch := aarch64;
  ktrap t args m k :=
    match args with
    | _ :: a :: len :: _ =>
        if t =? SYS_WRITE then
          l ← mread m a (Z.to_nat len);
          let l := if k.2 : bool then l else take 1 l in
          Some (Z.of_nat (length l), m, (k.1 ++ l, true))
        else Some (- EFAULT, m, k)
    | _ => None
    end |}.

Definition flaky_stdio (x : FILE) (buf data : list byte) : stdio flaky :=
  Stdio (Heap (Proc (demo_mem buf data) 0 ([], false)) ∅ 0 0 0 0 1) {[65536 := x]} 65536 0.

(** What is left of a run: the result, the stream, the bytes at an address, what
    was written. *)
Definition after (o : outcome (stdio flaky) Z) (a : Z) (n : nat) : option (Z * option FILE * option (list byte) * list byte) :=
  match o with Ret v s => Some (v, sd_files s !! 65536, mread (fmem s) a n, (kern s).1) | _ => None end.

(** With 4096 times "a" pending, writing "b" reports success and no error, and
    one "a" more than was ever written to the stream is in the file. *)
Example short_write_repeats :
  let pend := replicate (Z.to_nat 4096) x61 in
  after (fwrite 9 (fun _ _ => mret 0) 90112 1 1 65536 (flaky_stdio (demo_file _IOFBF 1 69640 69640) pend (str "b"))) 65544 1 =
  Some (1, Some (demo_file _IOFBF 1 65545 65545), Some (str "b"), x61 :: pend).
Proof. vm_compute. reflexivity. Qed.

(** A read that fails reports success and no error; the bytes are those that were
    in the buffer before. *)
Example failed_read_stale :
  after (fread 9 90112 1 3 65536 (flaky_stdio (demo_file _IOFBF 0 65547 65547) (str "old") (str "...."))) 90112 4 =
  Some (3, Some (demo_file _IOFBF 0 65547 65543), Some (str "old."), []).
Proof. vm_compute. reflexivity. Qed.
