(* ===== verification/LFile.v ===== *)
(** * Opening and closing the streams of litc.c

    [fopen] and [fclose] combine the allocator, the list of open streams, the
    buffers and the kernel's descriptors.  The invariant [streams_ok] ties these
    together; both operations preserve it, so that the theorems on reading,
    writing and flushing apply to whatever streams a program has open. *)

From coqutil Require Import Word.LittleEndianList.
From S2P Require Import Prelude CMem LBase LString LSyscall DList LAlloc LPrintf LStdio.

(** ** What the streams rely on

    A descriptor that is open has the path and the flags it was opened with.
    [open] returns a descriptor that was not open; [fstat] fills in the buffer and
    reports whether the file is a regular one.  Neither touches other descriptors
    or other memory, and the memory calls touch no descriptor. *)

Definition stat_size : Z := 120.

Section Same.
Context {K : Type} `{FileKernel K} (kopened : K -> Z -> option (list byte * Z)).
Definition same_fd (k k' : K) (fd : Z) : Prop :=
  kopened k' fd = kopened k fd /\ kout k' fd = kout k fd /\ kin k' fd = kin k fd.
End Same.

Class OpenKernel (K : Type) `{FK : FileKernel K} `{MK : !MapKernel K} : Type := {
  kopened : K -> Z -> option (list byte * Z);
  kisreg : K -> Z -> bool;
  kopen m k a path flags mode :
    cstr m a path -> 0 <= flags < 2 ^ 31 ->
    exists r k', ktrap SYS_OPEN (trap_args karch a flags mode 0 0 0) m k = Some (r, m, k') /\
      ((- ERRNO_LAST <= r <= - ERRNO_FIRST /\ forall fd, same_fd kopened k k' fd) \/
       (0 <= r < 2 ^ 31 /\ kopened k r = None /\ kopened k' r = Some (path, flags) /\
        forall fd, fd <> r -> same_fd kopened k k' fd));
  kfstat m k fd a :
    0 <= fd < 2 ^ 31 -> mapped m a stat_size ->
    exists r m' k', ktrap SYS_FSTAT (trap_args karch fd a 0 0 0 0) m k = Some (r, m', k') /\
      (forall fd, same_fd kopened k k' fd) /\ mapped m' a stat_size /\
      (forall b, ~ (a <= b < a + stat_size) -> m' !! b = m !! b) /\
      (- ERRNO_LAST <= r <= - ERRNO_FIRST \/
       (r = 0 /\ exists l, bytes_at m' (a + st_mode) l /\ length l = 4%nat /\ S_ISREG (le_combine l) = kisreg k' fd));
  kmaps_same k k' fd : kmaps k k' -> same_fd kopened k k' fd;
  kio_opened k k' fd : kio k k' -> kopened k' fd = kopened k fd
}.

(** The flags for a mode string. *)
Definition has_char (c : byte) (l : list byte) : Z := if decide (c ∈ l) then 1 else 0.
Definition mode_flags (l : list byte) : option Z :=
  match open_flags (schar (hd x00 l)) (has_char "+" l) (has_char "x" l) with
  | Some fl => Some (if decide ("e"%byte ∈ l) then Z.lor fl O_CLOEXEC else fl)
  | None => None
  end.

Section Heap.
Context {K : Type} `{OK : OpenKernel K}.
Implicit Types h : heap K.

(** A memory area of the program: every byte is in one of the objects [live], or
    mapped outside the heap. *)
Definition held h (live : gmap Z Z) (a n : Z) : Prop :=
  forall b, a <= b < a + n ->
    (exists p k, live !! p = Some k /\ p <= b < p + k) \/ (is_Some (hmem h !! b) /\ outside (hdrs h) b).

(** What the calls made by [_fopen] leave alone: the objects in [live], the
    memory outside the heap but for the [n] bytes at [a], and the open
    descriptors. *)
Record quiet h h' (live : gmap Z Z) (a n : Z) : Prop := Quiet {
  q_live p k b : live !! p = Some k -> p <= b < p + k -> ~ (a <= b < a + n) -> hmem h' !! b = hmem h !! b;
  q_out b : is_Some (hmem h !! b) -> outside (hdrs h) b ->
    is_Some (hmem h' !! b) /\ outside (hdrs h') b /\ (~ (a <= b < a + n) -> hmem h' !! b = hmem h !! b);
  q_fd fd : is_Some (kopened (hkern h) fd) -> same_fd kopened (hkern h) (hkern h') fd
}.

Lemma quiet_trans h1 h2 h3 live a n : quiet h1 h2 live a n -> quiet h2 h3 live a n -> quiet h1 h3 live a n.
Proof.
  intros [L1 O1 F1] [L2 O2 F2]. split.
  - intros p k b Hp Hb Ho. rewrite <- (L1 p k b) by done. by apply (L2 p k).
  - intros b Hm Ho. destruct (O1 b Hm Ho) as (Hm1 & Ho1 & E1). destruct (O2 b Hm1 Ho1) as (Hm2 & Ho2 & E2).
    split_and!; [done..|]. intros Hn. by rewrite E2, E1.
  - intros fd Hfd. destruct (F1 fd Hfd) as (A1 & B1 & C1).
    destruct (F2 fd) as (A2 & B2 & C2); [by rewrite A1|]. split_and!; congruence.
Qed.

Lemma keeps_quiet h h' live a n : keeps h h' live -> quiet h h' live a n.
Proof.
  intros (L & O & S). split.
  - intros p k b Hp Hb _. by apply (L p k).
  - intros b Hm Ho. destruct (O b Hm Ho) as [E Ho']. rewrite E. by split_and!.
  - intros fd _. by apply kmaps_same, S.
Qed.

(** A call that changes only the process. *)
Lemma proc_quiet h p live a n :
  (forall b, ~ (a <= b < a + n) -> p_mem p !! b = hmem h !! b) ->
  mapped (p_mem p) a n ->
  (forall fd, is_Some (kopened (hkern h) fd) -> same_fd kopened (hkern h) (p_kern p) fd) ->
  quiet h (set_proc p h) live a n.
Proof.
  intros Hm Ha Hk. split.
  - intros q k b _ _ Ho. by apply Hm.
  - intros b Hb Ho. split_and!; [|done|apply Hm].
    destruct (decide (a <= b < a + n)); [by apply Ha|]. cbn. unfold hmem. cbn. by rewrite Hm.
  - done.
Qed.

Lemma quiet_held h h' live a n b k : quiet h h' live a n -> held h live b k -> held h' live b k.
Proof.
  intros Q Hh c Hc. destruct (Hh c Hc) as [Hl|[Hm Ho]]; [by left|right].
  by destruct (q_out _ _ _ _ _ Q c Hm Ho) as (? & ? & _).
Qed.

Lemma quiet_bytes h h' live a n b l :
  quiet h h' live a n -> held h live b (Z.of_nat (length l)) -> b + Z.of_nat (length l) <= a \/ a + n <= b ->
  bytes_at (hmem h) b l -> bytes_at (hmem h') b l.
Proof.
  intros Q Hh Hd Hl. rewrite bytes_at_lookup in Hl |- *. intros i x Hi. rewrite <- (Hl i x Hi).
  apply lookup_lt_Some in Hi. destruct (Hh (b + Z.of_nat i)) as [(p & k & Hp & Hk)|[Hm Ho]]; [lia|..].
  - apply (q_live _ _ _ _ _ Q p k); [done|done|lia].
  - apply (q_out _ _ _ _ _ Q _ Hm Ho). lia.
Qed.
End Heap.

(** ** The invariant *)

Section Streams.
Context {K : Type} `{OK : OpenKernel K} {IM : Image}.
Implicit Types s : stdio K.

(** Where a struct may be: in an object of its own, or outside the heap. *)
Definition placed (h : heap K) (live : gmap Z Z) (f : Z) : Prop :=
  (exists n, FILE_size <= n /\ live !! f = Some n) \/
  (mapped (hmem h) f FILE_size /\ forall a, f <= a < f + FILE_size -> outside (hdrs h) a).

Record streams_ok s (live : gmap Z Z) (L : list Z) : Prop := StreamsOk {
  so_heap : heap_ok (sd_heap s) live;
  so_big : biglock (sd_heap s) = 0;
  so_mut : all_mut s = 0;
  so_list : dlist (sd_files s) (all_head s) L;
  so_dom f : is_Some (sd_files s !! f) -> f ∈ L;
  so_placed f : f ∈ L -> placed (sd_heap s) live f;
  so_file f : f ∈ L -> exists x, file_ok s f x /\ f_mut x = 0 /\ is_Some (kopened (kern s) (f_fd x));
  so_fds : own_fds s L;
  so_apart f g : f ∈ L -> g ∈ L -> f <> g -> f + FILE_size <= g \/ g + FILE_size <= f
}.

(** A stream is the same in two states but for its place in the list. *)
Definition unlinked (x : FILE) : FILE := set_lnext 0 (set_lprev 0 x).
Definition alike s s' (f : Z) : Prop :=
  exists x x', sd_files s !! f = Some x /\ sd_files s' !! f = Some x' /\ unlinked x' = unlinked x /\
    (forall a, fbuf f <= a < fbuf f + BUFSIZ -> fmem s' !! a = fmem s !! a) /\
    same_fd kopened (kern s) (kern s') (f_fd x).

Lemma alike_trans s1 s2 s3 f : alike s1 s2 f -> alike s2 s3 f -> alike s1 s3 f.
Proof.
  intros (x & y & Hx & Hy & Exy & Mxy & Kxy) (y' & z & Hy' & Hz & Eyz & Myz & Kyz).
  rewrite Hy in Hy'. injection Hy' as <-.
  exists x, z. split_and!; [done|done|by rewrite Eyz| |].
  - intros a Ha. by rewrite Myz, Mxy.
  - assert (f_fd y = f_fd x) as E by (destruct x, y; by injection Exy). rewrite E in Kyz.
    destruct Kxy as (A1 & B1 & C1), Kyz as (A2 & B2 & C2). split_and!; congruence.
Qed.

(** Every predicate on streams is about what two like streams share. *)
Lemma alike_file s s' f x :
  alike s s' f -> file_ok s f x ->
  exists x', file_ok s' f x' /\ unlinked x' = unlinked x /\
    (forall a, fbuf f <= a < fbuf f + BUFSIZ -> fmem s' !! a = fmem s !! a) /\
    same_fd kopened (kern s) (kern s') (f_fd x).
Proof.
  intros (y & x' & Hy & Hx' & E & Hm & Hk) [Hx Ha Hfd Hr Hb]. rewrite Hy in Hx. injection Hx as ->.
  exists x'. split; [|done]. destruct x, x'. injection E as -> -> -> -> -> -> -> ->. split; [done..|].
  intros a Hin. rewrite Hm by done. by apply Hb.
Qed.

Lemma alike_bytes s s' f a l :
  (forall a, fbuf f <= a < fbuf f + BUFSIZ -> fmem s' !! a = fmem s !! a) ->
  bytes_at (fmem s) a l -> fbuf f <= a -> a + Z.of_nat (length l) <= fbuf f + BUFSIZ -> bytes_at (fmem s') a l.
Proof.
  intros Hm Hl H1 H2. rewrite bytes_at_lookup in Hl |- *. intros i b Hi. rewrite Hm; [by apply Hl|].
  apply lookup_lt_Some in Hi. lia.
Qed.

Lemma alike_ostream s s' f x c : alike s s' f -> ostream s f x c ->
  exists x', unlinked x' = unlinked x /\ ostream s' f x' c.
Proof.
  intros Ha (Hok & Hbt & pend & Hp & -> & Hw). pose proof (fo_range _ _ _ Hok) as Hr.
  destruct (alike_file _ _ _ _ Ha Hok) as (x' & Hok' & E & Hm & _ & Ko & _). exists x'. split; [done|].
  destruct x, x'. injection E as -> -> -> -> -> -> -> ->. cbn in *. split_and!; [done|done|].
  exists pend. cbn. rewrite Ko. split_and!; [|done|done].
  destruct Hw as [[_ ->]|(_ & -> & _)]; [done|]. eapply alike_bytes; [done|done|lia|lia].
Qed.

Lemma alike_istream s s' f x c : alike s s' f -> istream s f x c ->
  exists x', unlinked x' = unlinked x /\ istream s' f x' c.
Proof.
  intros Ha (Hok & Hbt & Hw & u & Hu & Eu & ->). pose proof (fo_range _ _ _ Hok) as Hr.
  destruct (alike_file _ _ _ _ Ha Hok) as (x' & Hok' & E & Hm & _ & _ & Ki). exists x'. split; [done|].
  destruct x, x'. injection E as -> -> -> -> -> -> -> ->. cbn in *. split_and!; [done..|].
  exists u. cbn. rewrite Ki. split_and!; [|done|done]. eapply alike_bytes; [done|done|lia|lia].
Qed.

(** A quiet change of the heap. *)
Lemma quiet_placed h h' live live' a n f :
  quiet h h' live a n -> live ⊆ live' -> placed h live f -> placed h' live' f.
Proof.
  intros Q Hs [(k & Hk & Hf)|[Hm Ho]].
  - left. exists k. split; [done|]. by eapply lookup_weaken.
  - right. split; intros b Hb; by destruct (q_out _ _ _ _ _ Q b (Hm b Hb) (Ho b Hb)) as (? & ? & _).
Qed.

Lemma quiet_alike s h' live a n f x :
  quiet (sd_heap s) h' live a n -> placed (sd_heap s) live f -> sd_files s !! f = Some x ->
  is_Some (kopened (kern s) (f_fd x)) -> f + FILE_size <= a \/ a + n <= f ->
  alike s (set_heap h' s) f.
Proof.
  intros Q Hp Hx Hk Hd. exists x, x. split_and!; [done..| |by apply (q_fd _ _ _ _ _ Q)].
  intros b Hb. unfold fbuf, BUFSIZ, FILE_size in *. destruct Hp as [(k & Hn & Hf)|[Hm Ho]].
  - apply (q_live _ _ _ _ _ Q f k); [done|unfold FILE_size in *; lia|lia].
  - unfold FILE_size in *. apply (q_out _ _ _ _ _ Q b); [apply Hm; lia|apply Ho; lia|lia].
Qed.

(** The conditions on the single streams carry over to a state in which they are
    alike. *)
Lemma alike_files s s' (L : list Z) :
  (forall f, f ∈ L -> alike s s' f) ->
  (forall f, f ∈ L -> exists x, file_ok s f x /\ f_mut x = 0 /\ is_Some (kopened (kern s) (f_fd x))) ->
  forall f, f ∈ L -> exists x, file_ok s' f x /\ f_mut x = 0 /\ is_Some (kopened (kern s') (f_fd x)).
Proof.
  intros Ha Hf f HL. destruct (Hf f HL) as (x & Hok & Hm & Hk).
  destruct (alike_file _ _ _ _ (Ha f HL) Hok) as (x' & Hok' & E & _ & Ko & _). exists x'.
  destruct x, x'. injection E as -> -> -> -> -> -> -> ->. cbn in *. by rewrite Ko.
Qed.

Lemma alike_fds s s' (L : list Z) : (forall f, f ∈ L -> alike s s' f) -> own_fds s L -> own_fds s' L.
Proof.
  intros Ha Ho f g x y Hf Hg Hne Hx Hy.
  destruct (Ha f Hf) as (x0 & x' & Hx0 & Hx' & Ex & _). destruct (Ha g Hg) as (y0 & y' & Hy0 & Hy' & Ey & _).
  rewrite Hx in Hx'. injection Hx' as <-. rewrite Hy in Hy'. injection Hy' as <-.
  specialize (Ho f g x0 y0 Hf Hg Hne Hx0 Hy0).
  destruct x, y, x0, y0. cbn in *. injection Ex. injection Ey. congruence.
Qed.

Lemma streams_quiet s h' live live' a n L :
  streams_ok s live L -> quiet (sd_heap s) h' live a n -> live ⊆ live' ->
  (forall f, f ∈ L -> f + FILE_size <= a \/ a + n <= f) ->
  heap_ok h' live' -> biglock h' = 0 ->
  streams_ok (set_heap h' s) live' L /\ forall f, f ∈ L -> alike s (set_heap h' s) f.
Proof.
  intros [] Q Hs Hd Hok Hb.
  assert (forall f, f ∈ L -> alike s (set_heap h' s) f) as Ha.
  { intros f Hf. destruct (so_file0 f Hf) as (x & Hx & _ & Hk).
    apply (quiet_alike s h' live a n f x); [done|by apply so_placed0|apply Hx|done|by apply Hd]. }
  split; [|done]. split; try done.
  - intros f Hf. by eapply quiet_placed; [done..|apply so_placed0].
  - by apply (alike_files s).
Qed.
End Streams.

(** ** The steps of [_fopen] *)

Section Open.
Context {K : Type} `{OK : OpenKernel K} {IM : Image}.
Implicit Types s : stdio K.

Lemma open_ret (p : proc K) a path flags mode :
  0 < a < 2 ^ 62 -> cstr (p_mem p) a path -> 0 <= flags < 2 ^ 31 ->
  exists r e k', open a flags mode p = Ret r (Proc (p_mem p) e k') /\
    (forall fd, is_Some (kopened (p_kern p) fd) -> same_fd kopened (p_kern p) k' fd) /\
    (r = -1 \/ (0 <= r < 2 ^ 31 /\ kopened (p_kern p) r = None /\ kopened k' r = Some (path, flags))).
Proof.
  intros Ha Hp Hfl. unfold open, int_neg, syscall, syscall6. cbv zeta.
  assert (SA a = a) as -> by (unfold SA; apply swrap_id; unfold_int; lia).
  set (md := if Z.land flags O_CREAT =? 0 then 0 else u32 mode).
  destruct (kopen (p_mem p) (p_kern p) a path flags md Hp Hfl) as (r & k' & E & Hr).
  unfold ERRNO_LAST, ERRNO_FIRST in Hr. munfold. rewrite E.
  assert (s32 (s64 r) = r) as -> by (rewrite (swrap_id 64), (swrap_id 32) by (unfold_int; lia); done).
  unfold ERRNO_NEG, neg_errno, seterrno. destruct Hr as [[Hr Hk]|(Hr & Hn & Ho & Hk)].
  - rewrite (proj2 (Z.ltb_lt r 0)) by lia. munfold. rewrite schk_ret by (unfold_int; lia).
    eexists _, _, k'. split; [done|]. split; [intros; apply Hk|by left].
  - rewrite (proj2 (Z.ltb_ge r 0)) by lia. eexists _, _, k'. split; [done|]. split; [|by right].
    intros fd Hfd. apply Hk. intros ->. rewrite Hn in Hfd. by destruct Hfd.
Qed.

Lemma fstat_ret (p : proc K) fd a :
  0 <= fd < 2 ^ 31 -> 0 < a < 2 ^ 62 -> mapped (p_mem p) a stat_size ->
  exists r e m' k', fstat fd a p = Ret r (Proc m' e k') /\
    (forall fd, same_fd kopened (p_kern p) k' fd) /\ mapped m' a stat_size /\
    (forall b, ~ (a <= b < a + stat_size) -> m' !! b = p_mem p !! b) /\
    (r <> 0 \/ (r = 0 /\ exists l, bytes_at m' (a + st_mode) l /\ length l = 4%nat /\
                         S_ISREG (le_combine l) = kisreg k' fd)).
Proof.
  intros Hfd Ha Hm. unfold fstat, int_nz, syscall, syscall6.
  assert (SA fd = fd) as -> by (unfold SA; apply swrap_id; unfold_int; lia).
  assert (SA a = a) as -> by (unfold SA; apply swrap_id; unfold_int; lia).
  destruct (kfstat (p_mem p) (p_kern p) fd a Hfd Hm) as (r & m' & k' & E & Hk & Hm' & Hf & Hr).
  unfold ERRNO_LAST, ERRNO_FIRST in Hr. munfold. rewrite E.
  assert (s32 (s64 r) = r) as -> by (rewrite (swrap_id 64), (swrap_id 32) by (unfold_int; lia); done).
  unfold ERRNO_NZ, neg_errno, seterrno. destruct Hr as [Hr|[-> Hr]].
  - rewrite (proj2 (Z.eqb_neq r 0)) by lia. munfold. rewrite schk_ret by (unfold_int; lia).
    eexists _, _, m', k'. split; [done|]. split_and!; [done..|]. by left.
  - eexists _, _, m', k'. split; [done|]. split_and!; [done..|]. by right.
Qed.

(** The buffer for [fstat] is on the stack: outside the heap, and outside the
    structs. *)
Definition stat_ok s (L : list Z) : Prop :=
  0 < statbuf < 2 ^ 62 /\ mapped (fmem s) statbuf stat_size /\
  (forall a, statbuf <= a < statbuf + stat_size -> outside (hdrs (sd_heap s)) a) /\
  forall f, f ∈ L -> f + FILE_size <= statbuf \/ statbuf + stat_size <= f.

Lemma file_type_ret s fd live :
  0 <= fd < 2 ^ 31 -> 0 < statbuf < 2 ^ 62 -> mapped (fmem s) statbuf stat_size ->
  exists bt p, file_type fd s = Ret bt (with_proc p s) /\
    quiet (sd_heap s) (set_proc p (sd_heap s)) live statbuf stat_size /\
    (forall fd, same_fd kopened (kern s) (p_kern p) fd) /\
    (forall b, ~ (statbuf <= b < statbuf + stat_size) -> p_mem p !! b = fmem s !! b) /\
    mapped (p_mem p) statbuf stat_size /\
    ((bt = _IOFBF /\ kisreg (p_kern p) fd = true) \/ bt = _IONBF).
Proof.
  intros Hfd Hst Hm. unfold file_type.
  destruct (fstat_ret (pr s) fd statbuf Hfd Hst Hm) as (r & e & m' & k' & E & Hk & Hm' & Hf & Hr).
  mrun (onp_ret _ s _ _ E). set (p := Proc m' e k'). set (s1 := with_proc p s).
  assert (quiet (sd_heap s) (set_proc p (sd_heap s)) live statbuf stat_size) as Q.
  { apply proc_quiet; [exact Hf|exact Hm'|]. intros fd' _. apply Hk. }
  destruct Hr as [Hr|(-> & l & Hl & Hlen & Hreg)].
  - rewrite (proj2 (Z.eqb_neq r 0) Hr). exists _IONBF, p. split; [done|]. split_and!; try done. by right.
  - change (0 =? 0) with true. cbv iota.
    assert (load32 (statbuf + st_mode) m' = Ret (le_combine l) m') as El.
    { unfold load32. rewrite <- Hlen. apply mread_bytes_at in Hl. by rewrite Hl. }
    rewrite bind_assoc. mrun (om_ret _ s1 _ _ El). rewrite mret_bind, Hreg.
    eexists _, p. split; [done|]. split_and!; try done. destruct (kisreg k' fd) eqn:Er; [left|right]; done.
Qed.

(** Linking the new struct in. *)
Definition linked (r fd bt : Z) s : stdio K :=
  Stdio (sd_heap s) (push r (File fd bt (fbuf r) (fbuf r) 0 0 0 0 (all_head s) 0) (all_head s) (sd_files s)) r 0.

Lemma link_file_ret s L r fd bt :
  all_mut s = 0 -> dlist (sd_files s) (all_head s) L -> link_file r fd bt s = Ret tt (linked r fd bt s).
Proof.
  intros Hm Hl. unfold link_file, linked, push. destruct (lockall_ret s Hm) as [z Ez]. mrun Ez.
  mrun (eq_refl : gets all_head (set_allmut z s) = Ret (all_head s) (set_allmut z s)).
  set (x := File _ _ _ _ _ _ _ _ _ _). set (s1 := set_files (<[r := x]> (sd_files s)) (set_allmut z s)).
  rewrite (bind_ret _ _ (set_allmut z s) tt s1 eq_refl). destruct (Z.eqb_spec (all_head s) 0) as [E|E]; [done|].
  assert (is_Some (sd_files s1 !! all_head s)) as [y Hy].
  { apply lookup_insert_is_Some'. right. destruct Hl as [_ [last Hl]]. destruct L as [|g L]; [by destruct Hl|].
    destruct Hl as (-> & _ & y & Hy & _). eauto. }
  mrun (stf_ret s1 (all_head s) (set_lprev r) y Hy). unfold modify, unlockall. munfold. f_equal.
  unfold with_file, set_allmut, set_head, set_files. cbn. f_equal.
  change (<[r := x]> (sd_files s)) with (sd_files s1). apply map_eq. intros b.
  destruct (decide (b = all_head s)) as [->|Hne].
  - by rewrite lookup_insert_eq, lookup_alter_eq, Hy.
  - by rewrite lookup_insert_ne, lookup_alter_ne.
Qed.

Lemma linked_lookup s r fd bt f :
  unlinked <$> sd_files (linked r fd bt s) !! f =
    if decide (f = r) then Some (unlinked (File fd bt (fbuf r) (fbuf r) 0 0 0 0 0 0)) else unlinked <$> sd_files s !! f.
Proof. exact (push_payload unlinked (fun _ _ => eq_refl) r _ (all_head s) (sd_files s) f). Qed.

Lemma linked_alike s r fd bt f x :
  f <> r -> sd_files s !! f = Some x -> alike s (linked r fd bt s) f.
Proof.
  intros Hne Hx. pose proof (linked_lookup s r fd bt f) as P. rewrite decide_False, Hx in P by done.
  destruct (sd_files (linked r fd bt s) !! f) as [x'|] eqn:Hx'; [|done].
  exists x, x'. split_and!; [done..|by apply (inj Some)|done|done].
Qed.

(** An object lies below the top of the user's address space. *)
Lemma live_range (h : heap K) live p n : heap_ok h live -> live !! p = Some n -> 0 < p /\ p + n <= 2 ^ 47.
Proof.
  intros Hok Hp. destruct (live_seg _ _ _ _ Hok Hp) as (a & g & Ha & Hin & Hend & _).
  destruct (wf_seg (proj1 Hok) Ha). lia.
Qed.

Lemma linked_streams s live L r n fd bt :
  streams_ok s live L -> live !! r = Some n -> FILE_size <= n -> r ∉ L ->
  (forall g, g ∈ L -> r + FILE_size <= g \/ g + FILE_size <= r) ->
  0 <= fd < 2 ^ 31 -> is_Some (kopened (kern s) fd) -> mapped (fmem s) r n ->
  (forall f x, f ∈ L -> sd_files s !! f = Some x -> f_fd x <> fd) ->
  streams_ok (linked r fd bt s) live (r :: L) /\ (forall f, f ∈ L -> alike s (linked r fd bt s) f) /\
  exists x, sd_files (linked r fd bt s) !! r = Some x /\ file_ok (linked r fd bt s) r x /\
    unlinked x = unlinked (File fd bt (fbuf r) (fbuf r) 0 0 0 0 0 0).
Proof.
  intros [] Hr Hn HrL Hap Hfd Hk Hm Hne. set (s' := linked r fd bt s).
  assert (forall f, f ∈ L -> alike s s' f) as Ha.
  { intros f Hf. destruct (so_file0 f Hf) as (x & [Hx] & _). apply (linked_alike s r fd bt f x); [|done].
    by intros ->. }
  destruct (live_range _ _ _ _ so_heap0 Hr) as [Hr0 Hrt].
  assert (exists x, file_ok s' r x /\ unlinked x = unlinked (File fd bt (fbuf r) (fbuf r) 0 0 0 0 0 0)) as (x & Hok & Ex).
  { pose proof (linked_lookup s r fd bt r) as P. fold s' in P. rewrite decide_True in P by done.
    destruct (sd_files s' !! r) as [x|] eqn:Hx; [|done]. exists x. apply (inj Some) in P. split; [|done].
    destruct x. injection P as -> -> -> -> -> -> -> ->. split; cbn; unfold fbuf, FILE_size, BUFSIZ in *; [done|lia|done|lia|].
    eapply mapped_le; [exact Hm|lia|lia]. }
  split; [|split; [done|]].
  2: { exists x. split_and!; [apply Hok|done|done]. }
  split; try done.
  - apply (dlist_push (sd_files s) (all_head s) L r); [done|done|lia|done|done].
  - intros f [y Hy]. pose proof (linked_lookup s r fd bt f) as P. fold s' in P. rewrite Hy in P.
    apply elem_of_cons. case_decide; [by left|right]. apply so_dom0. destruct (sd_files s !! f); [eauto|done].
  - intros f [->|Hf]%elem_of_cons; [left; eauto|by apply so_placed0].
  - intros f [->|Hf]%elem_of_cons; [|by apply (alike_files s s' L Ha so_file0)].
    exists x. split; [done|]. destruct x. injection Ex as -> -> -> -> -> -> -> ->. done.
  - pose proof (alike_fds s s' L Ha so_fds0) as Hfds.
    assert (forall g y, g ∈ L -> sd_files s' !! g = Some y -> f_fd x <> f_fd y) as Hx.
    { intros g y Hg Hy. destruct (Ha g Hg) as (y0 & y' & Hy0 & Hy' & E & _). rewrite Hy in Hy'. injection Hy' as <-.
      specialize (Hne g y0 Hg Hy0). destruct x, y, y0. cbn in *. injection E. injection Ex. congruence. }
    pose proof (fo_file _ _ _ Hok) as Hxr.
    intros f g y z [->|Hf]%elem_of_cons [->|Hg]%elem_of_cons Hfg Hy Hz; [done|..].
    + rewrite Hxr in Hy. injection Hy as <-. by apply (Hx g).
    + rewrite Hxr in Hz. injection Hz as <-. symmetry. by apply (Hx f).
    + by apply (Hfds f g).
  - intros f g [->|Hf]%elem_of_cons [->|Hg]%elem_of_cons Hfg; [done|by apply Hap|destruct (Hap f Hf); lia|by apply so_apart0].
Qed.

(** A new object is no stream of the list, and overlaps none. *)
Lemma fresh_struct s live L r n h' :
  streams_ok s live L -> keeps (sd_heap s) h' live -> heap_ok h' (<[r := n]> live) -> live !! r = None ->
  FILE_size <= n ->
  r ∉ L /\ (forall g, g ∈ L -> r + FILE_size <= g \/ g + FILE_size <= r) /\
  forall a k, (forall b, a <= b < a + k -> is_Some (hmem (sd_heap s) !! b) /\ outside (hdrs (sd_heap s)) b) -> 0 < k ->
    r + n <= a \/ a + k <= r.
Proof.
  intros [] Hkp Hok Hr Hn.
  assert (forall a k, (forall b, a <= b < a + k -> is_Some (hmem (sd_heap s) !! b) /\ outside (hdrs (sd_heap s)) b) -> 0 < k ->
    r + n <= a \/ a + k <= r) as Hout.
  { intros a k Hb Hk. destruct (decide (r + n <= a \/ a + k <= r)) as [|Hno]; [done|]. exfalso.
    destruct (Hb (Z.max a r)) as [H1 H2]; [unfold FILE_size in *; lia|].
    destruct (proj1 (proj2 Hkp) _ H1 H2) as [_ H3].
    apply (outside_live h' _ r n (Z.max a r) Hok (lookup_insert_eq _ _ _) H3). unfold FILE_size in *. lia. }
  destruct (fresh_block _ _ _ _ Hok Hr) as (_ & _ & Hd).
  assert (forall g, g ∈ L -> r + FILE_size <= g \/ g + FILE_size <= r) as Hap.
  { intros g Hg. destruct (so_placed0 g Hg) as [(k & Hk & Hl)|[Hm Ho]].
    - specialize (Hd g k Hl). lia.
    - destruct (Hout g FILE_size); [|done|lia|lia]. intros b Hb. split; [by apply Hm|by apply Ho]. }
  split; [|done]. intros HrL. specialize (Hap r HrL). unfold FILE_size in *. lia.
Qed.

(** The mode string. *)
Lemma strchr_has s mode l c :
  cstr (fmem s) mode l -> 0 < mode -> c <> x00 ->
  exists q, om (strchr mode (schar c)) s = Ret q s /\ (q =? 0) = (has_char c l =? 0).
Proof.
  intros Hl Hm Hc. eexists. split.
  { rewrite (om_ret _ s _ _ (strchr_ret _ _ _ _ Hl Hc)). by destruct s as [[[] ? ? ? ? ? ?] ? ? ?]. }
  unfold has_char. destruct (list_find (fun b => b = c) l) as [[i b]|] eqn:E.
  - apply list_find_Some in E as (Hi & -> & _). rewrite decide_True by by eapply list_elem_of_lookup_2.
    rewrite (proj2 (Z.eqb_neq _ _)) by lia. done.
  - apply list_find_None in E. rewrite decide_False; [done|]. intros Hin.
    by apply (proj1 (List.Forall_forall _ _) E c); [apply list_elem_of_In|].
Qed.

Lemma open_flags_ext c p p' x x' :
  (p =? 0) = (p' =? 0) -> (x =? 0) = (x' =? 0) -> open_flags c p x = open_flags c p' x'.
Proof. intros E1 E2. unfold open_flags. by rewrite E1, E2. Qed.

Lemma mode_flags_range l fl : mode_flags l = Some fl -> 0 <= fl < 2 ^ 31.
Proof.
  unfold mode_flags, open_flags, has_char.
  destruct (schar (hd x00 l) =? ch "r"), (schar (hd x00 l) =? ch "w"), (schar (hd x00 l) =? ch "a"),
    (decide ("+"%byte ∈ l)), (decide ("x"%byte ∈ l)), (decide ("e"%byte ∈ l));
    intros [= <-]; vm_compute; split; discriminate || done.
Qed.

Lemma heap_ok_proc (h : heap K) live p :
  (forall a, is_Some (hmem h !! a) -> is_Some (p_mem p !! a)) -> heap_ok h live -> heap_ok (set_proc p h) live.
Proof. intros Hm Hok. exact (heap_ok_mem h live (p_mem p) Hm Hok). Qed.

(** What [fopen] leaves: no stream and the streams as before, or one more, which
    is empty, in front of the list. *)
Definition opened s' (live : gmap Z Z) (L : list Z) (path : list byte) (flags r : Z) : Prop :=
  (r = 0 /\ streams_ok s' live L) \/
  exists x, r <> 0 /\ streams_ok s' (<[r := FILE_size]> live) (r :: L) /\ file_ok s' r x /\
    kopened (kern s') (f_fd x) = Some (path, flags) /\ f_eof x = 0 /\ f_error x = 0 /\ f_writing x = 0 /\ f_mut x = 0 /\
    ((f_btype x = _IOFBF /\ kisreg (kern s') (f_fd x) = true /\
      ostream s' r x (kout (kern s') (f_fd x)) /\ istream s' r x (kin (kern s') (f_fd x))) \/
     f_btype x = _IONBF).

Lemma linked_opened s live L r fd bt p flags :
  let n := FILE_size in
  streams_ok s (<[r := n]> live) L -> r ∉ L -> r <> 0 ->
  (forall g, g ∈ L -> r + FILE_size <= g \/ g + FILE_size <= r) ->
  0 <= fd < 2 ^ 31 -> kopened (kern s) fd = Some (p, flags) -> mapped (fmem s) r n ->
  (forall f x, f ∈ L -> sd_files s !! f = Some x -> f_fd x <> fd) ->
  (bt = _IOFBF /\ kisreg (kern s) fd = true \/ bt = _IONBF) ->
  opened (linked r fd bt s) live L p flags r /\ forall f, f ∈ L -> alike s (linked r fd bt s) f.
Proof.
  intros n Hst HrL Hr0 Hap Hfd Hk Hm Hne Hbt.
  destruct (linked_streams s (<[r := n]> live) L r n fd bt) as (Hst' & Ha & x & Hx & Hok & Ex); try done;
    [apply lookup_insert_eq|].
  split; [right|done]. exists x. destruct x. injection Ex as -> -> -> -> -> -> -> ->. cbn in *.
  split_and!; try done. destruct Hbt as [[-> Hreg]| ->]; [left|by right]. split_and!; try done.
  - split_and!; [done|done|]. exists []. split_and!; [done|by rewrite app_nil_r|by left].
  - split_and!; [done..|]. exists []. split_and!; [done|cbn; lia|done].
Qed.

Lemma fopen_fd s live L r h2 path p flags :
  let n := FILE_size in
  streams_ok s live L -> stat_ok s L -> keeps (sd_heap s) h2 live -> heap_ok h2 (<[r := n]> live) ->
  biglock h2 = 0 -> live !! r = None -> cstr (hmem h2) path p -> 0 < path < 2 ^ 62 ->
  0 <= flags < 2 ^ 31 ->
  exists r' s', (fd ← onp (open path flags noarg);
      if fd <? 0 then _ ← onheap (free r); mret 0
      else bt ← file_type fd; _ ← link_file r fd bt; mret r) (set_heap h2 s) = Ret r' s' /\
    (forall f, f ∈ L -> alike s s' f) /\ opened s' live L p flags r'.
Proof.
  intros n Hst (Hsb & Hsm & Hso & Hsd) Hkp Hok2 Hb2 Hr Hpath Hpa Hfl.
  set (live' := <[r := n]> live). assert (live ⊆ live') as Hsub by by apply insert_subseteq.
  assert (mapped (hmem h2) statbuf stat_size) as Hm2.
  { intros a Ha. by rewrite (proj1 (proj1 (proj2 Hkp) a (Hsm a Ha) (Hso a Ha))); [apply Hsm|..]. }
  pose proof (keeps_quiet _ _ _ statbuf stat_size Hkp) as Q2.
  destruct (streams_quiet s h2 live live' _ _ L Hst Q2 Hsub Hsd Hok2 Hb2) as [Hst2 _].
  destruct (open_ret (hp_proc h2) path p flags noarg Hpa Hpath Hfl) as (fd & e & k & E & Hk & Hfd).
  mrun (onp_ret (open path flags noarg) (set_heap h2 s) _ _ E). set (p3 := Proc _ e k). set (h3 := set_proc p3 h2).
  change (with_proc p3 (set_heap h2 s)) with (set_heap h3 s).
  assert (quiet (sd_heap s) h3 live statbuf stat_size) as Q3.
  { apply (quiet_trans _ h2); [done|]. by apply proc_quiet. }
  assert (heap_ok h3 live') as Hok3 by by apply heap_ok_proc.
  destruct Hfd as [->|(Hfd & Hnone & Hnew)].
  - change (-1 <? 0) with true. cbv iota.
    destruct (free_ret h3 live' r n Hok3 Hb2 (lookup_insert_eq _ _ _)) as (h4 & E4 & B4 & Hok4 & K4).
    unfold live' in Hok4, K4. rewrite delete_insert_id in Hok4, K4 by done.
    assert (onheap (free r) (set_heap h3 s) = Ret tt (set_heap h4 s)) as Ef by exact (zoom_ret sd_heap set_heap (free r) (set_heap h3 s) tt h4 E4).
    mrun Ef. exists 0, (set_heap h4 s). split; [done|].
    destruct (streams_quiet s h4 live live statbuf stat_size L Hst) as [Hst4 Ha4]; try done.
    + apply (quiet_trans _ h3); [done|by apply keeps_quiet].
    + split; [done|]. left. done.
  - rewrite (proj2 (Z.ltb_ge fd 0)) by lia.
    destruct (streams_quiet s h3 live live' _ _ L Hst Q3 Hsub Hsd Hok3 Hb2) as [Hst3 Ha3].
    set (s3 := set_heap h3 s) in *.
    destruct (file_type_ret s3 fd live' Hfd Hsb Hm2) as (bt & p4 & E4 & Q4 & Hk4 & Hf4 & Hm4 & Hbt). mrun E4.
    set (s4 := with_proc p4 s3) in *.
    assert (heap_ok (sd_heap s4) live') as Hok4.
    { apply heap_ok_proc; [|done]. intros a Ha. destruct (decide (statbuf <= a < statbuf + stat_size)); [by apply Hm4|].
      by rewrite Hf4. }
    destruct (streams_quiet s3 (sd_heap s4) live' live' _ _ L Hst3 Q4 ltac:(done) Hsd Hok4 Hb2) as [Hst4 Ha4].
    rewrite (bind_ret _ _ _ _ _ (link_file_ret s4 L r fd bt (so_mut _ _ _ Hst4) (so_list _ _ _ Hst4))).
    exists r, (linked r fd bt s4). split; [done|].
    destruct (fresh_struct s live L r n h2 Hst Hkp Hok2 Hr ltac:(done)) as (HrL & Hap & _).
    destruct (linked_opened s4 live L r fd bt p flags) as [Ho Ha5]; try done.
    + destruct (live_range _ _ _ _ Hok2 (lookup_insert_eq _ _ _)). lia.
    + unfold s4, kern. cbn. by rewrite (proj1 (Hk4 fd)).
    + by destruct (fresh_block _ _ _ _ Hok4 Hr) as (_ & ? & _).
    + intros f x Hf Hx Efd. destruct (so_file _ _ _ Hst2 f Hf) as (y & [Hy] & _ & Hky).
      change (sd_files (set_heap h2 s)) with (sd_files s4) in Hy. rewrite Hx in Hy. injection Hy as <-.
      change (kern (set_heap h2 s)) with (p_kern (hp_proc h2)) in Hky. rewrite Efd, Hnone in Hky. by destruct Hky.
    + split; [|done]. intros f Hf. apply (alike_trans _ s4); [|by apply Ha5]. apply (alike_trans _ s3); [by apply Ha3|by apply Ha4].
Qed.

Lemma streams_errno s live L e :
  streams_ok s live L ->
  let s' := with_proc (set_errno e (pr s)) s in streams_ok s' live L /\ forall f, f ∈ L -> alike s s' f.
Proof.
  intros Hst s'. apply (streams_quiet s _ live live 0 0 L Hst); [|done| |by apply heap_ok_proc, Hst|apply Hst].
  - apply proc_quiet; [done|intros a Ha; lia|done].
  - intros f Hf. destruct (so_file _ _ _ Hst f Hf) as (x & [_ [H0 _]] & _). right. lia.
Qed.

Lemma fopen_ret s live L path p mode l :
  streams_ok s live L -> stat_ok s L -> cstr (fmem s) path p -> 0 < path < 2 ^ 62 ->
  held (sd_heap s) live path (Z.of_nat (length p) + 1) -> cstr (fmem s) mode l -> 0 < mode ->
  exists r s', fopen path mode s = Ret r s' /\ (forall f, f ∈ L -> alike s s' f) /\
    match mode_flags l with
    | None => r = 0 /\ p_errno (pr s') = EINVAL /\ streams_ok s' live L
    | Some flags => opened s' live L p flags r
    end.
Proof.
  intros Hst Hsb Hp Hpa Hheld Hl Hmode. unfold fopen, _fopen, mode_flags.
  destruct (strchr_has s mode l "+" Hl Hmode ltac:(done)) as (q1 & E1 & Q1).
  destruct (strchr_has s mode l "x" Hl Hmode ltac:(done)) as (q2 & E2 & Q2).
  destruct (strchr_has s mode l "e" Hl Hmode ltac:(done)) as (q3 & E3 & Q3).
  rewrite (bind_ret _ _ _ _ _ (E1 : om (strchr mode (ch "+")) s = _)).
  rewrite (bind_ret _ _ _ _ _ (E2 : om (strchr mode (ch "x")) s = _)).
  assert (om (ldc mode) s = Ret (schar (hd x00 l)) s) as Ec.
  { rewrite (om_ret _ s _ _ (ldc_ret _ _ _ (cstr_hd _ _ _ Hl))). by destruct s as [[[] ? ? ? ? ? ?] ? ? ?]. }
  rewrite (bind_ret _ _ _ _ _ Ec), (open_flags_ext _ _ _ _ _ Q1 Q2).
  pose proof (mode_flags_range l) as Hrange. unfold mode_flags in Hrange.
  destruct (open_flags _ _ _) as [fl|].
  2: { mrun (onp_ret (seterrno EINVAL) s _ _ eq_refl). destruct (streams_errno s live L EINVAL Hst) as [Hst' Ha].
       eexists 0, _. split; [done|]. done. }
  rewrite (bind_ret _ _ _ _ _ (E3 : om (strchr mode (ch "e")) s = _)). cbv zeta.
  assert ((if q3 =? 0 then fl else Z.lor fl O_CLOEXEC) = (if decide ("e"%byte ∈ l) then Z.lor fl O_CLOEXEC else fl)) as ->
    by (rewrite Q3; unfold has_char; by case_decide).
  specialize (Hrange _ eq_refl). set (flags := if decide _ then _ else _) in *.
  pose proof (so_heap _ _ _ Hst) as Hok. pose proof (so_big _ _ _ Hst) as Hbig.
  destruct (malloc_ret (sd_heap s) live FILE_size Hok Hbig) as (r & h1 & Em & B1 & _ & K1 & Hr); [unfold FILE_size; lia|].
  apply (keepseg_keeps _ _ _ Hok) in K1.
  mrun (zoom_ret sd_heap set_heap (malloc FILE_size) s r h1 Em). destruct Hr as [[-> Hok1]|(Hr0 & Hnone & Hok1)].
  - change (0 =? 0) with true. cbv iota. mrun (onp_ret (seterrno ENOMEM) (set_heap h1 s) _ _ eq_refl).
    destruct (streams_quiet s h1 live live statbuf stat_size L Hst) as [Hst1 Ha1]; try done;
      [by apply keeps_quiet|apply Hsb|].
    destruct (streams_errno _ live L ENOMEM Hst1) as [Hst' Ha]. eexists 0, _. split; [done|].
    split; [|by left]. intros f Hf. eapply alike_trans; [by apply Ha1|by apply Ha].
  - rewrite (proj2 (Z.eqb_neq r 0) Hr0). change (round_obj FILE_size) with FILE_size in Hok1.
    destruct (fresh_block _ _ _ _ Hok1 Hnone) as (_ & Hm & _).
    assert (memset r 0 FILE_size (hmem h1) = Ret r (mwrite (hmem h1) r (replicate (Z.to_nat FILE_size) x00))) as Eset.
    { pose proof (memset_ret (hmem h1) r 0 (Z.to_nat FILE_size)) as G. rewrite Z2Nat.id in G by done.
      apply G. eapply mapped_le; [exact Hm|lia|lia]. }
    rewrite (bind_ret _ _ _ _ _ (om_ret _ (set_heap h1 s) _ _ Eset)). set (m2 := mwrite _ _ _).
    set (h2 := with_mem m2 h1). change (with_proc _ (set_heap h1 s)) with (set_heap h2 s).
    rewrite (proj2 (Z.eqb_neq path 0)) by lia. cbn [negb].
    assert (keeps (sd_heap s) h2 live) as K2.
    { apply (keeps_trans _ h1); [done|]. apply (keeps_mwrite h1 live r FILE_size); [done..|]. rewrite length_replicate. by rewrite Z2Nat.id. }
    apply (fopen_fd s live L r h2 path p flags); try done; [by apply heap_ok_mwrite|].
    split; [apply Hp|]. apply (quiet_bytes (sd_heap s) h2 live 0 0); [by apply keeps_quiet| |lia|apply Hp].
    rewrite length_app. cbn [length]. rewrite Nat2Z.inj_add. exact Hheld.
Qed.

(** C24: [fopen] preserves the invariant of the open streams, and leaves the
    contents and the state of every stream alone.  An unsupported mode gives
    EINVAL; otherwise it returns NULL, with nothing allocated, or a new stream in
    front of the list, whose descriptor the kernel opened for the path with the
    flags that the mode stands for; a regular file is fully buffered, and reading
    and writing start with an empty buffer. *)
Theorem fopen_correct s live L path p mode l :
  streams_ok s live L -> stat_ok s L -> cstr (fmem s) path p -> 0 < path < 2 ^ 62 ->
  held (sd_heap s) live path (Z.of_nat (length p) + 1) -> cstr (fmem s) mode l -> 0 < mode ->
  exists r s', fopen path mode s = Ret r s' /\ (forall f, f ∈ L -> alike s s' f) /\
    match mode_flags l with
    | None => r = 0 /\ p_errno (pr s') = EINVAL /\ streams_ok s' live L
    | Some flags => opened s' live L p flags r
    end.
Proof. apply fopen_ret. Qed.
End Open.

(** ** Closing *)

Section Close.
Context {K : Type} `{OK : OpenKernel K} {IM : Image}.
Implicit Types s : stdio K.

Lemma stf_alter s a g : is_Some (sd_files s !! a) -> stf a g s = Ret tt (set_files (alter g a (sd_files s)) s).
Proof.
  intros [x Hx]. rewrite (stf_ret s a g x Hx). unfold with_file, set_files. do 2 f_equal.
  apply map_eq. intros b. destruct (decide (b = a)) as [->|Hne].
  - by rewrite lookup_insert_eq, lookup_alter_eq, Hx.
  - by rewrite lookup_insert_ne, lookup_alter_ne.
Qed.

(** The store when the two neighbours are linked to each other. *)
Definition bypass (x : FILE) (m : gmap Z FILE) : gmap Z FILE :=
  let m := if f_lnext x =? 0 then m else alter (set_lprev (f_lprev x)) (f_lnext x) m in
  if f_lprev x =? 0 then m else alter (set_lnext (f_lnext x)) (f_lprev x) m.

Lemma bypass_unlink f x m : delete f (bypass x m) = unlink_store f x m.
Proof.
  unfold bypass, unlink_store. cbn [pv nx with_pv with_nx file_links]. f_equal.
  destruct (f_lprev x =? 0), (f_lnext x =? 0); try done.
  destruct (decide (f_lprev x = f_lnext x)) as [->|Hne]; [|by rewrite alter_alter, decide_False].
  apply map_eq. intros b. rewrite !lookup_alter. repeat case_decide; try done. by destruct (m !! f_lnext x).
Qed.

(** The first part of [fclose]. *)
Lemma unlink_ret {A} s L1 L2 f x (e : M (stdio K) A) :
  all_mut s = 0 -> dlist (sd_files s) (all_head s) (L1 ++ f :: L2) -> sd_files s !! f = Some x ->
  (_ ← lockall;
   x ← ldf f;
   _ ← (if f_lnext x =? 0 then mret tt else stf (f_lnext x) (set_lprev (f_lprev x)));
   x ← ldf f;
   _ ← (if f_lprev x =? 0 then mret tt else stf (f_lprev x) (set_lnext (f_lnext x)));
   h ← gets all_head;
   x ← ldf f;
   _ ← (if h =? f then modify (set_head (f_lnext x)) else mret tt);
   _ ← unlockall; e) s
  = e (Stdio (sd_heap s) (bypass x (sd_files s)) (unlink_head x (all_head s)) 0) /\
  bypass x (sd_files s) !! f = Some x.
Proof.
  intros Hm Hl Hx. destruct (lockall_ret s Hm) as [z Ez]. mrun Ez. set (s0 := set_allmut z s).
  assert (f ∈ L1 ++ f :: L2) as HfL by (apply elem_of_app; right; apply list_elem_of_here).
  destruct (dlist_links _ _ _ _ _ Hl HfL Hx) as [Hp Hn].
  cbn [pv nx file_links] in Hp, Hn. mrun (ldf_ret s0 _ _ Hx).
  set (m1 := if f_lnext x =? 0 then sd_files s else alter (set_lprev (f_lprev x)) (f_lnext x) (sd_files s)).
  assert ((if f_lnext x =? 0 then mret tt else stf (f_lnext x) (set_lprev (f_lprev x))) s0 = Ret tt (set_files m1 s0)) as E1.
  { subst m1. destruct (Z.eqb_spec (f_lnext x) 0); [done|]. rewrite stf_alter; [done|cbn; tauto]. }
  mrun E1. assert (m1 !! f = Some x) as Hx1.
  { subst m1. destruct (Z.eqb_spec (f_lnext x) 0); [done|]. rewrite lookup_alter_ne; tauto. }
  mrun (ldf_ret (set_files m1 s0) _ _ Hx1). set (m2 := bypass x (sd_files s)).
  assert ((if f_lprev x =? 0 then mret tt else stf (f_lprev x) (set_lnext (f_lnext x))) (set_files m1 s0)
    = Ret tt (set_files m2 s0)) as E2.
  { unfold m2, bypass. fold m1. destruct (Z.eqb_spec (f_lprev x) 0); [done|]. rewrite stf_alter; [done|].
    cbn. subst m1. destruct (f_lnext x =? 0); [tauto|]. apply lookup_alter_is_Some. tauto. }
  mrun E2. assert (m2 !! f = Some x) as Hx2.
  { unfold m2, bypass. fold m1. destruct (Z.eqb_spec (f_lprev x) 0); [done|]. rewrite lookup_alter_ne; tauto. }
  split; [|done]. set (s2 := set_files m2 s0). mrun (eq_refl : gets all_head s2 = Ret (all_head s) s2).
  mrun (ldf_ret s2 _ _ Hx2). pose proof (dlist_first _ _ _ _ _ _ Hl Hx) as ->.
  unfold unlink_head. cbn [pv nx file_links]. destruct (f_lprev x =? 0); done.
Qed.

(** Flushing a stream that may have nothing pending. *)
Lemma fflush_any pf s f x c :
  sd_files s !! f = Some x -> ostream s f x c \/ (f_writing x = 0 /\ c = kout (kern s) (f_fd x)) -> full_writes ->
  exists r x' e' k', _fflush pf f s = Ret r (with_file f x' (with_proc (Proc (fmem s) e' k') s)) /\
    kio (kern s) k' /\ (forall fd, fd <> f_fd x -> kout k' fd = kout (kern s) fd) /\
    (forall fd, kin k' fd = kin (kern s) fd) /\
    (kout k' (f_fd x) = c \/ kout k' (f_fd x) = kout (kern s) (f_fd x)).
Proof.
  intros Hx [Ho|[Hw ->]] Hfull.
  - destruct (fflush_ret pf s f x c Ho Hfull) as (r & x' & e' & k' & E & Hio & Hk & Hi & Hc).
    exists r, x', e', k'. split_and!; [done..|]. destruct Hc as [(_ & ? & _)|(_ & _ & _ & ?)]; auto.
  - exists 0, x, (p_errno (pr s)), (kern s). split; [|split_and!; [done..|by left]].
    unfold _fflush. mrun (ldf_ret _ _ _ Hx). rewrite Hw. change (0 =? 0) with true. cbv iota.
    assert (with_proc (Proc (fmem s) (p_errno (pr s)) (kern s)) s = s) as -> by (by destruct s as [[[] ? ? ? ? ? ?] ? ? ?]).
    by rewrite (with_file_id s f x Hx).
Qed.

(** The state that [fclose] leaves. *)
Lemma closed_streams s live L1 L2 f x h' e1 k1 :
  let L' := L1 ++ L2 in
  let s' := Stdio h' (unlink_store f x (sd_files s)) (unlink_head x (all_head s)) 0 in
  streams_ok s live (L1 ++ f :: L2) -> sd_files s !! f = Some x ->
  kio (kern s) k1 -> (forall fd, fd <> f_fd x -> kout k1 fd = kout (kern s) fd) ->
  (forall fd, kin k1 fd = kin (kern s) fd) ->
  keeps (set_proc (Proc (fmem s) e1 k1) (sd_heap s)) h' (delete f live) ->
  heap_ok h' (delete f live) -> biglock h' = 0 ->
  streams_ok s' (delete f live) L' /\ forall g, g ∈ L' -> alike s s' g.
Proof.
  intros L' s' [] Hx Hio Hko Hki (KL & KO & KM) Hok Hb.
  assert (forall g, g ∈ L' -> g ∈ L1 ++ f :: L2 /\ g <> f) as Hin.
  { intros g Hg. destruct so_list0 as [Hd _]. apply list.NoDup_app in Hd as (_ & Hd & Hd2). apply list.NoDup_cons in Hd2 as [Hf2 _].
    apply elem_of_app in Hg as [Hg|Hg].
    - split; [apply elem_of_app; by left|]. intros ->. apply (Hd f Hg), list_elem_of_here.
    - split; [apply elem_of_app; right; by apply list_elem_of_further|]. by intros ->. }
  assert (forall g, unlinked <$> sd_files s' !! g = if decide (g = f) then None else unlinked <$> sd_files s !! g) as HF
    by exact (unlink_payload unlinked (fun _ _ => eq_refl) (fun _ _ => eq_refl) f x (sd_files s)).
  assert (forall g, g ∈ L' -> placed h' (delete f live) g /\
    forall a, g <= a < g + FILE_size -> hmem h' !! a = fmem s !! a) as HP.
  { intros g Hg. destruct (Hin g Hg) as [HgL Hne]. destruct (so_placed0 g HgL) as [(k & Hk & Hl)|[Hm Ho]].
    - assert (delete f live !! g = Some k) as Hd by by rewrite lookup_delete_ne.
      split; [left; eauto|]. intros a Ha. apply (KL g k); [done|lia].
    - assert (forall a, g <= a < g + FILE_size -> hmem h' !! a = fmem s !! a /\ outside (hdrs h') a) as Ha.
      { intros a Ha. by apply (KO a); [apply Hm|apply Ho]. }
      split; [right; split|]; intros a Hin'; destruct (Ha a Hin') as [E ?]; try done. rewrite E. by apply Hm. }
  assert (forall g, g ∈ L' -> alike s s' g) as Ha.
  { intros g Hg. destruct (Hin g Hg) as [HgL Hne]. destruct (so_file0 g HgL) as (y & [Hy] & _ & Hky).
    pose proof (HF g) as P. rewrite decide_False, Hy in P by done.
    destruct (sd_files s' !! g) as [y'|] eqn:Hy'; [|done]. exists y, y'. split_and!; [done..|by apply (inj Some)| |].
    - intros a Hr. apply (proj2 (HP g Hg)). unfold fbuf, BUFSIZ, FILE_size in *. lia.
    - destruct (kmaps_same _ _ (f_fd y) (proj1 KM)) as (E1 & E2 & E3). cbn in E1, E2, E3.
      assert (f_fd y <> f_fd x) as Hfd.
      { apply (so_fds0 g f y x HgL); [|done..]. apply elem_of_app. right. apply list_elem_of_here. }
      change (kern s') with (hkern h'). unfold same_fd. rewrite E1, E2, E3, Hko, Hki by done.
      split_and!; [by apply kio_opened|done..]. }
  split; [|done]. split; try done.
  - by apply dlist_unlink.
  - intros g [y Hy]. pose proof (HF g) as P. rewrite Hy in P. case_decide as Hne; [done|].
    destruct (sd_files s !! g) as [y0|] eqn:Hy0; [|done].
    specialize (so_dom0 g (mk_is_Some _ _ Hy0)). apply elem_of_app. apply elem_of_app in so_dom0 as [|Hg]; [by left|right].
    by apply elem_of_cons in Hg as [|].
  - intros g Hg. by apply HP.
  - apply (alike_files s); [done|]. intros g Hg. apply so_file0. by apply Hin.
  - apply (alike_fds s); [done|]. intros g g' y y' Hg Hg'. apply so_fds0; by apply Hin.
  - intros g g' Hg Hg'. apply so_apart0; by apply Hin.
Qed.

(** C25: [fclose] of a stream that [fopen] returned preserves the invariant
    without that stream: its struct is freed, every other stream is as before.
    What was pending has reached the kernel, unless the kernel refused the write,
    which the result does not tell; and the descriptor stays open.  The kernel
    takes all of a write or refuses it. *)
Theorem fclose_correct fuel s live L f x n c :
  streams_ok s live L -> f ∈ L -> live !! f = Some n -> sd_files s !! f = Some x ->
  ostream s f x c \/ (f_writing x = 0 /\ c = kout (kern s) (f_fd x)) -> full_writes ->
  exists L1 L2 s', L = L1 ++ f :: L2 /\ fclose fuel f s = Ret 0 s' /\
    streams_ok s' (delete f live) (L1 ++ L2) /\ (forall g, g ∈ L1 ++ L2 -> alike s s' g) /\
    (kout (kern s') (f_fd x) = c \/ kout (kern s') (f_fd x) = kout (kern s) (f_fd x)) /\
    kopened (kern s') (f_fd x) = kopened (kern s) (f_fd x).
Proof.
  intros Hst HfL Hn Hx Hc Hfull. apply list_elem_of_split in HfL as (L1 & L2 & ->). exists L1, L2.
  destruct (so_file _ _ _ Hst f) as (x' & [Hx' _ _ _ _] & Hmut & _); [apply elem_of_app; right; apply list_elem_of_here|].
  rewrite Hx in Hx'. injection Hx' as <-. unfold fclose.
  destruct (unlink_ret s L1 L2 f x (_ ← lockf f; _ ← _fflush (printf fuel) f;
    _ ← stf f (fun x => set_fd (-1) (set_p 1 (set_end 0 x))); _ ← unlockf f; _ ← onheap (free f);
    _ ← modify (fun s => set_files (delete f (sd_files s)) s); mret 0) (so_mut _ _ _ Hst) (so_list _ _ _ Hst) Hx) as [-> Hx1].
  set (s1 := Stdio _ _ _ _). destruct (lockf_ret s1 f x Hx1 Hmut) as [z Ez]. mrun Ez.
  set (s2 := with_file f (set_mut z x) s1).
  destruct (fflush_any (printf fuel) s2 f (set_mut z x) c) as (r & x3 & e & k & E & Hio & Hko & Hki & Hkc); [apply with_file_lookup| |done|].
  { destruct Hc as [(Hok & Hbt & Hp)|Hc]; [left|by right]. apply ostream_mut. split_and!; [|done|done].
    destruct Hok. by split. }
  mrun E. set (s3 := with_file f x3 _). mrun (stf_ret s3 f (fun x => set_fd (-1) (set_p 1 (set_end 0 x))) x3 (with_file_lookup _ _ _)).
  set (s4 := with_file f _ s3). mrun (unlockf_ret s4 f _ (with_file_lookup _ _ _)). set (s5 := with_file f _ s4).
  set (h3 := set_proc (Proc (fmem s) e k) (sd_heap s)).
  destruct (free_ret h3 live f n) as (h4 & E4 & B4 & Hok4 & K4); [by apply heap_ok_proc, Hst|apply Hst|done|].
  mrun (zoom_ret sd_heap set_heap (free f) s5 tt h4 E4). eexists. split; [done|]. split; [done|].
  assert (delete f (sd_files s5) = unlink_store f x (sd_files s)) as Ef.
  { rewrite <- bypass_unlink. unfold s5, s4, s3, s2, with_file. cbn. by rewrite !delete_insert_eq. }
  unfold set_files. cbn [sd_files sd_heap all_head all_mut set_heap]. rewrite Ef.
  destruct (closed_streams s live L1 L2 f x h4 e k) as [Hst' Ha]; try done.
  destruct (kmaps_same _ _ (f_fd x) (proj1 (proj2 (proj2 K4)))) as (E1 & E2 & _). cbn in E1, E2.
  split_and!; [exact Hst'|exact Ha| |].
  - change (kern (Stdio h4 _ _ _)) with (hkern h4). rewrite E2. exact Hkc.
  - change (kern (Stdio h4 _ _ _)) with (hkern h4). rewrite E1. by apply kio_opened.
Qed.
End Close.

(** ** A kernel with a table of descriptors

    [open] creates an empty regular file under the next descriptor. *)

Definition fs : Type := files * gmap Z (list byte * Z).

Fixpoint read_cstr (n : nat) (m : mem) (a : Z) : option (list byte) :=
  match n with
  | O => None
  | S n => b ← m !! a; if decide (b = x00) then Some [] else l ← read_cstr n m (a + 1); Some (b :: l)
  end.

Lemma read_cstr_ret n m p : forall a, cstr m a p -> (length p < n)%nat -> read_cstr n m a = Some p.
Proof.
  revert n. induction p as [|b p IH]; intros [|n] a Hp Hn; cbn [length] in Hn; try lia; cbn [read_cstr].
  - apply cstr_nil in Hp. by rewrite Hp.
  - apply cstr_cons in Hp as (Hb & Hl & Hp). rewrite Hl. cbn. rewrite decide_False by done.
    rewrite IH; [done|done|lia].
Qed.

Definition stat_bytes : list byte := replicate 24 x00 ++ le_split 4 S_IFREG ++ replicate 92 x00.
Definition next_fd (t : gmap Z (list byte * Z)) : Z := max_key t + 1.

#[export] Instance fs_kernel : Kernel fs := {|
  karch := aarch64;
  ktrap t args m k :=
    if t =? SYS_OPEN then
      match args with
      | a :: flags :: _ =>
          match read_cstr (S (size m)) m a with
          | Some path =>
              if next_fd k.2 <? 2 ^ 31 then Some (next_fd k.2, m, (k.1, <[next_fd k.2 := (path, flags)]> k.2))
              else Some (- ENOMEM, m, k)
          | None => Some (- EFAULT, m, k)
          end
      | _ => None
      end
    else if t =? SYS_FSTAT then Some (0, mwrite m (nth 1 args 0) stat_bytes, k)
    else '(r, m, k1) ← ktrap t args m k.1; Some (r, m, (k1, k.2)) |}.

Lemma fs_other t args m k st r m' k' :
  t <> SYS_OPEN -> t <> SYS_FSTAT ->
  ktrap (K := files) t args m k = Some (r, m', k') -> ktrap (K := fs) t args m (k, st) = Some (r, m', (k', st)).
Proof.
  intros H1%Z.eqb_neq H2%Z.eqb_neq E. unfold ktrap at 1. cbv beta iota zeta delta [fs_kernel].
  rewrite H1, H2. cbn [fst snd]. by rewrite E.
Qed.

#[export] Instance fs_file : FileKernel fs.
Proof.
  refine {| kout k := file_out k.1; kin k := file_in k.1; kio k k' := k'.2 = k.2 |}.
  - split; [done|]. intros ? ? ? ? ?. congruence.
  - intros m [k t] fd a l Hfd Hl Hlen.
    destruct (kwrite (K := files) m k fd a l Hfd Hl Hlen) as (r & k' & E & _ & H).
    exists r, (k', t). split; [by apply fs_other|by split].
  - intros m [k t] fd a len Hfd Hm Hlen.
    destruct (kread (K := files) m k fd a len Hfd Hm Hlen) as (r & m' & k' & E & _ & H).
    exists r, m', (k', t). split; [by apply fs_other|by split].
Defined.

#[export] Instance fs_map : MapKernel fs.
Proof.
  refine {| kmaps := eq |}.
  - intros m [k t] len Hl Hll. destruct (kmmap (K := unit) m tt len Hl Hll) as (r & m' & [] & E & _ & H).
    exists r, m', (k, t). split; [|done]. apply fs_other; [done|done|]. cbn in E |- *. by rewrite E.
  - intros m [k t] a len H1 H2 H3 H4 H5 H6. destruct (kmunmap (K := unit) m tt a len H1 H2 H3 H4 H5 H6) as ([] & E & _).
    exists (k, t). split; [|done]. by apply fs_other.
Defined.

#[export] Instance fs_open : OpenKernel fs.
Proof.
  refine {| kopened k fd := k.2 !! fd; kisreg _ _ := true |}.
  - intros m [k t] a path flags mode Hp Hfl. pose proof (read_cstr_ret (S (size m)) m path a Hp ltac:(apply cstr_size in Hp; lia)) as E.
    unfold ktrap. cbv beta iota zeta delta [fs_kernel]. change (SYS_OPEN =? SYS_OPEN) with true.
    cbn [trap_args karch]. cbv iota. rewrite E. cbn [fst snd].
    pose proof (max_key_nonneg t). destruct (Z.ltb_spec (next_fd t) (2 ^ 31)); (eexists _, _; split; [done|]).
    + right. unfold next_fd in *. split_and!; [lia|lia| |apply lookup_insert_eq|].
      * cbn. destruct (t !! (max_key t + 1)) eqn:Et; [|done]. pose proof (max_key_ge t _ (mk_is_Some _ _ Et)). lia.
      * intros fd Hne. split; [|done]. cbn. by rewrite lookup_insert_ne.
    + by left.
  - intros m k fd a Hfd Hm. eexists 0, _, _. split; [done|]. cbn [nth trap_args karch fs_kernel].
    assert (Z.of_nat (length stat_bytes) = stat_size) as El by reflexivity.
    split_and!; [done|by apply mapped_mwrite| |].
    + intros b Hb. apply mwrite_out. rewrite El. lia.
    + right. split; [done|]. exists (le_split 4 S_IFREG). split; [|done].
      pose proof (bytes_at_mwrite m a stat_bytes) as G. unfold stat_bytes in G at 2. by apply bytes_at_app in G as [_ [G _]%bytes_at_app].
  - by intros k k' fd ->.
  - intros k k' fd E. cbn in *. by rewrite E.
Defined.

Lemma fs_full : full_writes (K := fs).
Proof.
  intros m k fd a n r m' k' E Hn Hr. unfold ktrap at 1 in E. cbv beta iota zeta delta [fs_kernel] in E. change (SYS_WRITE =? SYS_OPEN) with false in E.
  change (SYS_WRITE =? SYS_FSTAT) with false in E. cbv iota in E. apply bind_Some in E as ([[r1 m1] k1] & E & [= -> _ _]).
  by apply (files_full _ _ _ _ _ _ _ _ E).
Qed.

(** ** A process that opens a file

    Its data are the path [f] and the mode [w+]. *)

Definition fresh_stdio : stdio fs :=
  Stdio (Heap (Proc (demo_mem [] (str "f" ++ [x00] ++ str "w+" ++ [x00])) 0 ((∅, ∅), ∅)) ∅ 0 0 0 0 1) ∅ 0 0.

Lemma hmem_fmem {K} (s : stdio K) : hmem (sd_heap s) = fmem s.
Proof. done. Qed.

Lemma fresh_bytes a n :
  90112 <= a -> a + n <= 95008 -> 0 <= n ->
  forall b, a <= b < a + n -> is_Some (fmem fresh_stdio !! b) /\ outside (hdrs (sd_heap fresh_stdio)) b.
Proof.
  intros H1 H2 Hn b Hb. split; [|by intros c h Hc].
  apply (demo_data_mapped [] (str "f" ++ [x00] ++ str "w+" ++ [x00]) 4896); [lia|done|lia].
Qed.

Lemma fresh_streams : streams_ok fresh_stdio ∅ [].
Proof.
  assert (forall f : Z, f ∈ (@nil Z) -> False) as Hno by (intros f; apply not_elem_of_nil).
  split; [apply no_objects_ok|done|done| |by intros f [x Hx]|by intros f ?%Hno..| |by intros f g ?%Hno].
  - split; [constructor|by exists 0].
  - by intros f g x y ?%Hno.
Qed.

Lemma fresh_stat : stat_ok fresh_stdio [].
Proof.
  split_and!; [done|done| | |].
  - intros a Ha. apply (fresh_bytes statbuf stat_size); [done..|exact Ha].
  - intros a Ha. by apply (fresh_bytes statbuf stat_size).
  - by intros f ?%elem_of_nil.
Qed.

Lemma fresh_strings :
  cstr (fmem fresh_stdio) 90112 (str "f") /\ cstr (fmem fresh_stdio) 90114 (str "w+").
Proof.
  pose proof (demo_data [] (str "f" ++ [x00] ++ str "w+" ++ [x00]) ltac:(done)) as H.
  rewrite (app_assoc (str "f")) in H. apply bytes_at_app in H as [H1 H2].
  split; (split; [by repeat constructor|done]).
Qed.

Lemma fresh_held : held (sd_heap fresh_stdio) ∅ 90112 (Z.of_nat (length (str "f")) + 1).
Proof.
  intros b Hb. right. rewrite hmem_fmem. cbn [length] in Hb. apply (fresh_bytes 90112 2); [lia..|].
  revert Hb. cbn. lia.
Qed.

Definition w_plus : Z := Z.lor (Z.lor O_RDWR O_CREAT) O_TRUNC.
Lemma mode_w_plus : mode_flags (str "w+") = Some w_plus.
Proof. vm_compute. done. Qed.

Lemma fopen_correct_witness :
  exists r s', fopen 90112 90114 fresh_stdio = Ret r s' /\ (forall f, f ∈ [] -> alike fresh_stdio s' f) /\
    opened s' ∅ [] (str "f") w_plus r.
Proof.
  pose proof (fopen_correct fresh_stdio ∅ [] 90112 (str "f") 90114 (str "w+") fresh_streams fresh_stat
    (proj1 fresh_strings) ltac:(lia) fresh_held (proj2 fresh_strings) ltac:(lia)) as W.
  rewrite mode_w_plus in W. exact W.
Defined.

(** The file just opened is closed again. *)
Lemma demo_opened :
  exists f s1 x, fopen 90112 90114 fresh_stdio = Ret f s1 /\ streams_ok s1 (<[f := FILE_size]> ∅) [f] /\
    sd_files s1 !! f = Some x /\ f_writing x = 0.
Proof.
  destruct (fopen_ret fresh_stdio ∅ [] 90112 (str "f") 90114 (str "w+") fresh_streams fresh_stat
    (proj1 fresh_strings) ltac:(lia) fresh_held (proj2 fresh_strings) ltac:(lia)) as (f & s1 & E & _ & Ho).
  rewrite mode_w_plus in Ho. exists f, s1. destruct Ho as [[-> _]|(x & _ & Hst & Hok & _ & _ & _ & Hw & _)].
  - assert (match fopen 90112 90114 fresh_stdio with Ret r _ => r =? 0 | _ => true end = false) as F by (vm_compute; done).
    rewrite E in F. done.
  - exists x. split_and!; [done|done|apply Hok|done].
Qed.

Lemma fclose_correct_witness :
  exists f s1 x L1 L2 s', fopen 90112 90114 fresh_stdio = Ret f s1 /\
    [f] = L1 ++ f :: L2 /\ fclose 9 f s1 = Ret 0 s' /\
    streams_ok s' (delete f (<[f := FILE_size]> ∅)) (L1 ++ L2) /\ (forall g, g ∈ L1 ++ L2 -> alike s1 s' g) /\
    (kout (kern s') (f_fd x) = kout (kern s1) (f_fd x) \/ kout (kern s') (f_fd x) = kout (kern s1) (f_fd x)) /\
    kopened (kern s') (f_fd x) = kopened (kern s1) (f_fd x).
Proof.
  destruct demo_opened as (f & s1 & x & E & Hst & Hx & Hw). exists f, s1, x.
  destruct (fclose_correct 9 s1 (<[f := FILE_size]> ∅) [f] f x FILE_size (kout (kern s1) (f_fd x)) Hst
    (list_elem_of_here _ _) (lookup_insert_eq _ _ _) Hx (or_intror (conj Hw eq_refl)) fs_full) as (L1 & L2 & s' & W).
  exists L1, L2, s'. split; [exact E|exact W].
Defined.
