(* ===== verification/LMath.v ===== *)
(** * Floating point in litc.c: [trunc], [ceil], [pow], [log], [strtold], [strtod]

    A [double] is a binary64 number, a [long double] one with the 64-bit
    significand and the 15-bit exponent of x86-64; both are [spec_float]s of the
    Standard Library.  A conversion to [long] that does not fit is undefined. *)

From S2P Require Import Prelude CMem Digits LBase LCtype LString LStrtol LAlloc LPrintf LStdio.
From Stdlib Require Import SpecFloat.

Definition lprec : Z := 64.
Definition lemax : Z := 16384.

(** A value rounded to another format. *)
Definition convert_to (prec emax : Z) (f : spec_float) : spec_float :=
  match f with
  | S754_finite s m e => binary_normalize prec emax (if s then Zneg m else Zpos m) e s
  | _ => f
  end.
Definition to_ldouble : spec_float -> spec_float := convert_to lprec lemax.
Definition to_double : spec_float -> spec_float := convert_to fprec femax.
Definition to_float : spec_float -> spec_float := convert_to 24 128.

Definition long_double (z : Z) : spec_float := binary_normalize fprec femax z 0 false.
Definition long_ldouble (z : Z) : spec_float := binary_normalize lprec lemax z 0 false.
Definition double_long {S} (n : spec_float) : M S Z :=
  match float_trunc n with
  | Some z => if (- 2 ^ 63 <=? z) && (z <? 2 ^ 63) then mret z else ub
  | None => ub
  end.

(** The bits of a number in memory; the NaN an operation makes has its sign set. *)
Definition float_bits (prec emax : Z) (f : spec_float) : Z :=
  let mw := prec - 1 in
  let sign (s : bool) := if s then 2 * emax * 2 ^ mw else 0 in
  match f with
  | S754_zero s => sign s
  | S754_infinity s => sign s + (2 * emax - 1) * 2 ^ mw
  | S754_nan => sign true + (2 * emax - 1) * 2 ^ mw + 2 ^ (mw - 1)
  | S754_finite s m e =>
      if Zpos m <? 2 ^ mw then sign s + Zpos m
      else sign s + (e - (3 - emax - prec) + 1) * 2 ^ mw + (Zpos m - 2 ^ mw)
  end.

(** ** The functions *)

Definition trunc {S} (x : spec_float) : M S spec_float := z ← double_long x; mret (long_double z).

Definition ceil {S} (x : spec_float) : M S spec_float :=
  t ← trunc x;
  if SFeqb x t then mret x else trunc (SFadd fprec femax x (long_double 1)).

Section Math.
Context {K : Type} `{Kernel K} `{Image}.

(** [while (exp--) ret *= x] *)
Definition pow_loop (exp : Z) (x : spec_float) : spec_float :=
  Nat.iter (Z.to_nat exp) (fun ret => double_mul ret x) (long_double 1).

Definition pow (fuel : nat) (x y : spec_float) : M (stdio K) spec_float :=
  exp ← double_long y;
  _ ← (if negb (SFeqb (double_sub y (long_double exp)) (S754_zero false))
       then errx_ fuel (-1) (lit "shitty pow(3) only accepts integer exponents") [] else mret tt);
  if exp =? 0 then mret (long_double 1)
  else
    let inv := exp <? 0 in
    exp ← (if inv then schk 64 (- exp) else mret exp);
    let ret := pow_loop exp x in
    mret (if inv : bool then SFdiv fprec femax (long_double 1) ret else ret).

(** 0.693147 as a [double] *)
Definition ln2 : spec_float := S754_finite false 6243309731348898 (-53).

(** The loop of [log] halves [x], which does not end for infinity. *)
Definition log (fuel : nat) (x : spec_float) : M (stdio K) spec_float :=
  _ ← (if SFltb x (long_double 1) then errx_ fuel (-1) (lit "no imp") [] else mret tt);
  '(x, ret) ← loop fuel (fun '(x, ret) =>
    if SFleb (long_double 2) x
    then mret (inl (SFdiv fprec femax x (long_double 2), SFadd fprec femax ret ln2))
    else mret (inr (x, ret))) (x, S754_zero false);
  mret (if SFltb (long_double 1) x then SFadd fprec femax ret (double_sub x (long_double 1)) else ret).

(** [strtol(n, &end, 10)]: [end] is stored for this base. *)
Definition strtol10 (n : Z) : M (stdio K) (Z * Z) :=
  '(r, e) ← onp (strtol n 10);
  match e with Some e => mret (r, e) | None => ub end.

(** The value and the end. *)
Definition strtold (fuel : nat) (s : Z) : M (stdio K) (spec_float * Z) :=
  '(t, tend) ← strtol10 s;
  let ret := long_ldouble t in
  c ← om (ldc tend);
  '(ret, tend) ← (if c =? ch "." then
      let tend := tend + 1 in
      '(frac, fend) ← strtol10 tend;
      let digs := fend - tend in
      if digs =? 0 then mret (ret, tend)
      else
        p ← pow fuel (long_double 10) (long_double digs);
        let addend := SFdiv lprec lemax (long_ldouble frac) (to_ldouble p) in
        mret (if SFltb ret (S754_zero false) then SFsub lprec lemax ret addend else SFadd lprec lemax ret addend, fend)
    else mret (ret, tend));
  c ← om (ldc tend);
  if tolower c =? ch "e" then
    let tend := tend + 1 in
    '(exp, eend) ← strtol10 tend;
    if 0 <? eend - tend then
      p ← pow fuel (long_double 10) (long_double exp);
      mret (SFmul lprec lemax ret (to_ldouble p), eend)
    else mret (ret, tend)
  else mret (ret, tend).

Definition strtod (fuel : nat) (s : Z) : M (stdio K) (spec_float * Z) :=
  '(r, e) ← strtold fuel s; mret (to_double r, e).
End Math.

(** ** What is computed *)

(** [double_of] reads back the bits of a normal number. *)
Lemma float_bits_double s m e :
  2 ^ 52 <= Zpos m < 2 ^ 53 -> -1074 <= e <= 971 -> double_of (float_bits fprec femax (S754_finite s m e)) = S754_finite s m e.
Proof.
  intros Hm He. unfold float_bits, double_of, fprec, femax. change (53 - 1) with 52. change (3 - 1024 - 53) with (-1074).
  rewrite (proj2 (Z.ltb_ge _ _)) by lia. set (E := e - -1074 + 1). assert (1 <= E <= 2046) as HE by lia.
  set (f := Zpos m - 2 ^ 52). assert (0 <= f < 2 ^ 52) as Hf by lia.
  assert (forall b : bool, (if b then 2 * 1024 * 2 ^ 52 else 0) = Z.b2z b * 2 ^ 63) as -> by by intros [].
  set (z := Z.b2z s * 2 ^ 63 + E * 2 ^ 52 + f).
  assert (Z.testbit z 63 = s) as ->.
  { rewrite Z.testbit_eqb by lia. replace (z / 2 ^ 63) with (Z.b2z s) by (apply Z.div_unique with (E * 2 ^ 52 + f); unfold z; lia).
    by destruct s. }
  assert (z / 2 ^ 52 = Z.b2z s * 2 ^ 11 + E) as Ed by (symmetry; apply Z.div_unique with f; unfold z; lia).
  change 2047 with (Z.ones 11). rewrite !Z.land_ones, Z.shiftr_div_pow2 by lia. rewrite Ed.
  assert ((Z.b2z s * 2 ^ 11 + E) mod 2 ^ 11 = E) as -> by (symmetry; apply Z.mod_unique with (Z.b2z s); lia).
  assert (z mod 2 ^ 52 = f) as -> by (symmetry; apply Z.mod_unique with (Z.b2z s * 2 ^ 11 + E); unfold z; lia).
  change (Z.ones 11) with 2047. rewrite (proj2 (Z.eqb_neq E 2047)) by lia. rewrite (proj2 (Z.eqb_neq E 0)) by lia.
  replace (f + 2 ^ 52) with (Zpos m) by (unfold f; lia). f_equal. unfold E. lia.
Qed.

(** [ceil] of a negative number that is not an integer is one too large: for
    -1.5 it is 0. *)
Lemma ceil_negative {S} (s : S) : ceil (S754_finite true 6755399441055744 (-52)) s = Ret (S754_zero false) s.
Proof. vm_compute. reflexivity. Qed.

Section Strtold.
Context {K : Type} `{KA : Kernel K} `{IM : Image}.
Implicit Types s : stdio K.

Lemma strtol10_ret s n f ws sg ds rest :
  cstr (fmem s) n (ws ++ sg ++ ds ++ rest) ->
  Forall (fun b => isspace (schar b) = true) ws -> signed sg f (ds ++ rest) ->
  Forall (fun b => isdigit (schar b) = true) ds -> isdigit (schar (hd x00 rest)) = false -> num_from 10 0 ds < 2 ^ 63 ->
  strtol10 n s = Ret (f * num_from 10 0 ds, n + Z.of_nat (length (ws ++ sg ++ ds))) s.
Proof.
  intros Hc Hws Hsg Hds Hr Hlt. unfold strtol10.
  by mrun (onp_pure _ s _ (strtol_ret (pr s) n 10 f ws sg ds rest Hc Hws Hsg ltac:(auto) ltac:(done) Hds Hr Hlt)).
Qed.

(** A number without a fraction and an exponent is the integer that [strtol]
    reads, rounded to the format. *)
Lemma strtold_integer fuel s n f ws sg ds rest :
  cstr (fmem s) n (ws ++ sg ++ ds ++ rest) ->
  Forall (fun b => isspace (schar b) = true) ws -> signed sg f (ds ++ rest) ->
  Forall (fun b => isdigit (schar b) = true) ds -> isdigit (schar (hd x00 rest)) = false -> num_from 10 0 ds < 2 ^ 63 ->
  hd x00 rest <> "."%byte -> hd x00 rest <> "e"%byte -> hd x00 rest <> "E"%byte ->
  strtold fuel n s = Ret (long_ldouble (f * num_from 10 0 ds), n + Z.of_nat (length (ws ++ sg ++ ds))) s.
Proof.
  intros Hc Hws Hsg Hds Hr Hlt H1 H2 H3. unfold strtold. mrun (strtol10_ret s n f ws sg ds rest Hc Hws Hsg Hds Hr Hlt).
  set (q := n + _). assert (cstr (fmem s) q rest) as Hq.
  { rewrite !app_assoc in Hc. apply cstr_app_r in Hc. by rewrite <- app_assoc in Hc. }
  pose proof (om_pure _ s _ (ldc_ret (fmem s) q _ (cstr_hd _ _ _ Hq))) as El. mrun El.
  assert (schar (hd x00 rest) =? ch "." = false) as ->.
  { change (ch ".") with (schar "."%byte). rewrite schar_eqb. by apply bool_decide_eq_false_2. }
  mrun (mret_ret (long_ldouble (f * num_from 10 0 ds), q) s). mrun El.
  assert (tolower (schar (hd x00 rest)) =? ch "e" = false) as ->; [|done].
  revert H2 H3. generalize (hd x00 rest). intros b H2 H3. destruct b; try done; by vm_compute.
Qed.

(** The sign of a number between -1 and 0 is lost, because the integer part is
    0: "-0.5" is read as one half. *)
Lemma strtold_loses_sign fuel s n :
  cstr (fmem s) n (str "-0.5") -> strtold fuel n s = Ret (S754_finite false 9223372036854775808 (-64), n + 4) s.
Proof.
  intros Hc. unfold strtold.
  pose proof (cstr_app_r _ _ (str "-0") (str ".5") Hc) as H2. pose proof (cstr_app_r _ _ (str "-0.") (str "5") Hc) as H3.
  pose proof (cstr_app_r _ _ (str "-0.5") [] Hc) as H4. cbn [length str app] in H2, H3, H4.
  mrun (strtol10_ret s n (-1) [] (str "-") (str "0") (str ".5") Hc ltac:(done) (signed_minus _) ltac:(by repeat constructor) eq_refl ltac:(done)).
  mrun (om_pure _ s _ (ldc_ret (fmem s) _ _ (cstr_hd _ _ _ H2))). change (schar (hd x00 (str ".5")) =? ch ".") with true. cbv iota zeta.
  replace (n + Z.of_nat (length ([] ++ str "-" ++ str "0")) + 1) with (n + 3) by (cbn; lia).
  assert (strtol10 (n + 3) s = Ret (5, n + 4) s) as E5.
  { rewrite (strtol10_ret s (n + 3) 1 [] [] (str "5") []); [f_equal; f_equal; cbn; lia|exact H3|done|by constructor|by repeat constructor|done|done]. }
  assert (pow fuel (long_double 10) (long_double 1) s = Ret (long_double 10) s) as Ep by (vm_compute; reflexivity).
  rewrite !bind_assoc. mrun E5. replace (n + 4 - (n + 3)) with 1 by lia. change (1 =? 0) with false. cbv iota.
  rewrite !bind_assoc. mrun Ep. rewrite mret_bind. cbn beta iota.
  mrun (om_pure _ s _ (ldc_ret (fmem s) _ _ (cstr_hd _ _ _ H4))). vm_compute. reflexivity.
Qed.
End Strtold.
