(* ===== verification/LScan.v ===== *)
(** * Formatted input of litc.c: [_vscanf], [vsscanf], [sscanf]

    The variable arguments are the pointers to store through.  [_vscanf] stops at
    the end of the source or at the first directive that does not match. *)

From S2P Require Import Prelude CMem Digits LBase LCtype LString LStrtol LAlloc LPrintf LStdio LMath.
From coqutil Require Import Word.LittleEndianList.

Section Scan.
Context {K : Type} `{Kernel K} `{Image}.

(** The source, the format, the arguments left and the count. *)
Definition scan_state : Type := Z * Z * list Z * Z.

Definition scan_arg (ap : list Z) : M (stdio K) (Z * list Z) :=
  match ap with a :: ap => mret (a, ap) | [] => ub end.

(** The letters [l] in front of a conversion. *)
Definition scan_long (fmt : Z) : M mem (bool * Z) :=
  fuel ← scan_fuel;
  loop fuel (fun '(longmode, fmt) =>
    c ← ldc fmt;
    mret (if c =? ch "l" then inl (true, fmt + 1) else inr (longmode, fmt))) (false, fmt).

(** [%x], [%u] and [%d] *)
Definition scan_int (longmode : bool) (base src fmt : Z) (ap : list Z) (ret : Z) : M (stdio K) (scan_state + Z) :=
  '(read, e) ← onp (strtol src base);
  eptr ← (match e with Some e => mret e | None => ub end);
  if src =? eptr then mret (inr ret)
  else
    '(p, ap) ← scan_arg ap;
    _ ← om (if longmode then store64 p (u64 read) else store32 p (u32 read));
    ret ← schk 32 (ret + 1);
    mret (inl (eptr, fmt + 1, ap, ret)).

(** [%g] and [%f] *)
Definition scan_float (fuel : nat) (longmode : bool) (src fmt : Z) (ap : list Z) (ret : Z) : M (stdio K) (scan_state + Z) :=
  '(read, eptr) ← strtold fuel src;
  if src =? eptr then mret (inr ret)
  else
    '(p, ap) ← scan_arg ap;
    _ ← om (if longmode then store64 p (float_bits fprec femax (to_double read))
            else store32 p (float_bits 24 128 (to_float read)));
    ret ← schk 32 (ret + 1);
    mret (inl (eptr, fmt + 1, ap, ret)).

(** The conversion at [fmt]. *)
Definition scan_conv (fuel : nat) (src fmt : Z) (ap : list Z) (ret : Z) : M (stdio K) (scan_state + Z) :=
  '(longmode, fmt) ← om (scan_long fmt);
  c ← om (ldc fmt);
  if c =? ch "%" then
    d ← om (ldc src);
    mret (if d =? ch "%" then inl (src + 1, fmt + 1, ap, ret) else inr ret)
  else if c =? ch "x" then scan_int longmode 16 src fmt ap ret
  else if (c =? ch "u") || (c =? ch "d") then scan_int longmode 10 src fmt ap ret
  else if (c =? ch "g") || (c =? ch "f") then scan_float fuel longmode src fmt ap ret
  else _ ← errx_ fuel (-1) (lit "unsupported scanf format: %c") [c]; spin.

Definition scan_body (fuel : nat) (e : Z) (s : scan_state) : M (stdio K) (scan_state + Z) :=
  let '(src, fmt, ap, ret) := s in
  c ← om (ldc fmt);
  if (c =? 0) || (e <=? src) then mret (inr ret)
  else if isspace c then
    src ← om (strtol_space src);
    mret (inl (src, fmt + 1, ap, ret))
  else if negb (c =? ch "%") then
    d ← om (ldc src);
    mret (if d =? c then inl (src + 1, fmt + 1, ap, ret) else inr ret)
  else scan_conv fuel src (fmt + 1) ap ret.

Definition _vscanf (fuel : nat) (src e fmt : Z) (ap : list Z) : M (stdio K) Z :=
  n ← om scan_fuel;
  loop n (scan_body fuel e) (src, fmt, ap, 0).

Definition vsscanf (fuel : nat) (src fmt : Z) (ap : list Z) : M (stdio K) Z :=
  e ← om (strchr src 0);
  _ ← (if e =? 0 then errx_ fuel (-1) (lit "no null") [] else mret tt);
  _vscanf fuel src e fmt ap.
Definition sscanf : nat -> Z -> Z -> list Z -> M (stdio K) Z := vsscanf.
End Scan.

(** ** Directives

    White space, a literal character, or an integer conversion. *)
Inductive sitem : Set := SBlank (b : byte) | SLit (b : byte) | SInt (long : bool) (c : byte).

Definition sitem_text (i : sitem) : list byte :=
  match i with
  | SBlank b | SLit b => [b]
  | SInt lg c => str "%" ++ (if lg then str "l" else []) ++ [c]
  end.

(** The letter and the base of an integer conversion. *)
Definition int_conv (c : byte) (base : Z) : Prop :=
  (c = "d"%byte /\ base = 10) \/ (c = "u"%byte /\ base = 10) \/ (c = "x"%byte /\ base = 16).

Definition blank (b : byte) : Prop := isspace (schar b) = true.

(** How the directives read a source: what each conversion stores.  Before a
    directive the source must not be at its end, where [_vscanf] stops. *)
Inductive scans : list sitem -> list byte -> list (bool * Z) -> Prop :=
  | scans_nil k : scans [] k []
  | scans_blank b l ws k vs :
      blank b -> b <> x00 -> Forall blank ws -> isspace (schar (hd x00 k)) = false -> ws ++ k <> [] ->
      scans l k vs -> scans (SBlank b :: l) (ws ++ k) vs
  | scans_lit b l k vs :
      ~ blank b -> b <> "%"%byte -> b <> x00 -> scans l k vs -> scans (SLit b :: l) (b :: k) vs
  | scans_int lg c base l ws sg f ds k vs :
      int_conv c base -> Forall blank ws -> signed sg f (ds ++ k) ->
      (base = 16 -> ds ++ k <> str "0x") ->
      Forall (fun b => matcher_of base (schar b) = true) ds -> (0 < length ds)%nat ->
      matcher_of base (schar (hd x00 k)) = false -> num_from base 0 ds < 2 ^ 63 ->
      scans l k vs -> scans (SInt lg c :: l) (ws ++ sg ++ ds ++ k) ((lg, f * num_from base 0 ds) :: vs).

(** The stores through the arguments. *)
Definition store_val (m : mem) (p : Z) (v : bool * Z) : mem :=
  if v.1 then mwrite m p (le_split 8 (u64 v.2)) else mwrite m p (le_split 4 (u32 v.2)).
Fixpoint store_vals (m : mem) (ps : list Z) (vs : list (bool * Z)) : mem :=
  match ps, vs with
  | p :: ps, v :: vs => store_vals (store_val m p v) ps vs
  | _, _ => m
  end.
Definition val_size (v : bool * Z) : Z := if v.1 then 8 else 4.

(** The objects are there and apart from the [n] bytes at [a]. *)
Definition objects (m : mem) (a n : Z) (ps : list Z) (vs : list (bool * Z)) : Prop :=
  Forall2 (fun p v => mapped m p (val_size v) /\ (p + val_size v <= a \/ a + n <= p)) ps vs.

Lemma store_val_mapped m p v a n : mapped m a n -> mapped (store_val m p v) a n.
Proof. unfold store_val. destruct v as [[] z]; apply mapped_mwrite. Qed.

Lemma store_val_cstr m p v a k n :
  cstr m a k -> Z.of_nat (length k) < n -> p + val_size v <= a \/ a + n <= p -> cstr (store_val m p v) a k.
Proof.
  intros Hc Hn Hd. unfold store_val, val_size in *. destruct v as [[] z]; cbn in *; apply cstr_mwrite_out; try done;
    rewrite length_le_split; lia.
Qed.

Lemma objects_mono m m' a n a' n' ps vs :
  objects m a n ps vs -> (forall q k, mapped m q k -> mapped m' q k) -> a <= a' -> a' + n' <= a + n ->
  objects m' a' n' ps vs.
Proof.
  intros Ho Hm Ha Hn. unfold objects in *. eapply Forall2_impl; [|exact Ho]. cbn. intros p v [Hp Hd]. split; [by apply Hm|lia].
Qed.

Section ScanRet.
Context {K : Type} `{KA : Kernel K} `{IM : Image}.
Implicit Types s : stdio K.

Lemma scan_long_ret (m : mem) fmt (lg : bool) c k :
  cstr m fmt ((if lg then str "l" else []) ++ c :: k) -> c <> "l"%byte ->
  scan_long fmt m = Ret (lg, fmt + if lg then 1 else 0) m.
Proof.
  intros Hc Hl. pose proof (cstr_size _ _ _ Hc) as Hf. unfold scan_long. mrun (scan_fuel_ret m).
  assert (schar c =? ch "l" = false) as El.
  { change (ch "l") with (schar "l"%byte). rewrite schar_eqb. by apply bool_decide_eq_false_2. }
  assert (forall n b q, cstr m q (c :: k) -> loop (S n) (fun '(longmode, fmt) =>
    c ← ldc fmt; mret (if c =? ch "l" then inl (true, fmt + 1) else inr (longmode, fmt))) (b, q) m = Ret (b : bool, q) m) as G.
  { intros n b q Hq. rewrite loop_S. mrun (ldc_ret m q _ (cstr_hd _ _ _ Hq)). cbn [hd].
    by rewrite El. }
  destruct lg.
  - rewrite loop_S. mrun (ldc_ret m fmt _ (cstr_hd _ _ _ Hc)). change (schar (hd x00 (str "l" ++ c :: k)) =? ch "l") with true.
    rewrite mret_ret. apply (cstr_app_r _ _ (str "l") (c :: k)) in Hc. destruct (size m); [lia|]. apply G. exact Hc.
  - rewrite Z.add_0_r. by apply G.
Qed.

Lemma scan_int_ret s (lg : bool) base src fmt p ap ret f ws sg ds k :
  base = 10 \/ base = 16 -> cstr (fmem s) src (ws ++ sg ++ ds ++ k) -> Forall blank ws -> signed sg f (ds ++ k) ->
  (base = 16 -> ds ++ k <> str "0x") -> Forall (fun b => matcher_of base (schar b) = true) ds -> (0 < length ds)%nat ->
  matcher_of base (schar (hd x00 k)) = false -> num_from base 0 ds < 2 ^ 63 ->
  mapped (fmem s) p (if lg then 8 else 4) -> 0 <= ret < 2 ^ 31 - 1 ->
  scan_int lg base src fmt (p :: ap) ret s
  = Ret (inl (src + Z.of_nat (length (ws ++ sg ++ ds)), fmt + 1, ap, ret + 1))
        (with_fmem (store_val (fmem s) p (lg, f * num_from base 0 ds)) s).
Proof.
  intros Hb Hc Hws Hsg Hx Hds Hlen Hk Hlt Hm Hret. unfold scan_int.
  mrun (onp_pure _ s _ (strtol_ret (pr s) src base f ws sg ds k Hc Hws Hsg ltac:(lia) Hx Hds Hk Hlt)). rewrite mret_bind.
  rewrite (proj2 (Z.eqb_neq _ _)) by (rewrite !length_app; lia). mrun (eq_refl : scan_arg (p :: ap) s = Ret (p, ap) s).
  set (v := f * num_from base 0 ds).
  assert ((if lg then store64 p (u64 v) else store32 p (u32 v)) (fmem s) = Ret tt (store_val (fmem s) p (lg, v))) as Es.
  { destruct lg; [by apply store64_ret|by apply store32_ret]. }
  mrun (om_ret _ s _ _ Es). assert (in_s 32 (ret + 1)) as Hr by (clear Hlt; unfold_int; lia). rewrite (bind_ret _ _ _ _ _ (schk_ret 32 _ _ Hr)). done.
Qed.

(** What is left of the format after the directives. *)
Definition fmt_text (l : list sitem) : list byte := concat (sitem_text <$> l).

Lemma scan_step s fuel e src fmt ps ret lg c base l ws sg f ds k p :
  let v := f * num_from base 0 ds in
  int_conv c base -> Forall blank ws -> signed sg f (ds ++ k) -> (base = 16 -> ds ++ k <> str "0x") ->
  Forall (fun b => matcher_of base (schar b) = true) ds -> (0 < length ds)%nat ->
  matcher_of base (schar (hd x00 k)) = false -> num_from base 0 ds < 2 ^ 63 ->
  cstr (fmem s) src (ws ++ sg ++ ds ++ k) -> cstr (fmem s) fmt (sitem_text (SInt lg c) ++ fmt_text l) ->
  src < e -> mapped (fmem s) p (val_size (lg, v)) -> 0 <= ret < 2 ^ 31 - 1 ->
  scan_body fuel e (src, fmt, p :: ps, ret) s
  = Ret (inl (src + Z.of_nat (length (ws ++ sg ++ ds)), fmt + Z.of_nat (length (sitem_text (SInt lg c))), ps, ret + 1))
        (with_fmem (store_val (fmem s) p (lg, v)) s).
Proof.
  intros v Hi Hws Hsg Hx Hds Hlen Hk Hlt Hsrc Hfmt He Hm Hret. unfold scan_body. mrun (ld_pure s fmt _ Hfmt).
  change (schar (hd x00 (sitem_text (SInt lg c) ++ fmt_text l))) with (ch "%"). change (ch "%" =? 0) with false.
  rewrite (proj2 (Z.leb_gt e src)) by lia. cbn [orb]. change (isspace (ch "%")) with false. cbv iota.
  rewrite Z.eqb_refl. cbn [negb]. unfold scan_conv.
  assert (cstr (fmem s) (fmt + 1) ((if lg then str "l" else []) ++ c :: fmt_text l)) as Hf1.
  { apply (cstr_app_r _ _ (str "%")). cbn [sitem_text] in Hfmt. by rewrite <- !app_assoc in Hfmt. }
  assert (c <> "l"%byte) as Hcl by (destruct Hi as [[-> _]|[[-> _]|[-> _]]]; done).
  mrun (om_pure _ s _ (scan_long_ret (fmem s) (fmt + 1) lg c _ Hf1 Hcl)).
  assert (cstr (fmem s) (fmt + 1 + if lg then 1 else 0) (c :: fmt_text l)) as Hf2.
  { apply cstr_app_r in Hf1. destruct lg; exact Hf1. }
  mrun (ld_pure s _ _ Hf2). cbn [hd].
  assert (fmt + Z.of_nat (length (sitem_text (SInt lg c))) = fmt + 1 + (if lg then 1 else 0) + 1) as -> by (destruct lg; cbn; lia).
  pose proof (fun b Hb => scan_int_ret s lg b src (fmt + 1 + if lg then 1 else 0) p ps ret f ws sg ds k Hb Hsrc Hws Hsg) as G.
  destruct Hi as [[-> ->]|[[-> ->]|[-> ->]]]; [apply (G 10)|apply (G 10)|apply (G 16)]; (done || tauto || by destruct lg).
Qed.

(** The directives that store nothing. *)
Lemma scan_blank_step s fuel e src fmt ps ret b r ws k :
  blank b -> b <> x00 -> Forall blank ws -> isspace (schar (hd x00 k)) = false ->
  cstr (fmem s) src (ws ++ k) -> cstr (fmem s) fmt (b :: r) -> src < e ->
  scan_body fuel e (src, fmt, ps, ret) s = Ret (inl (src + Z.of_nat (length ws), fmt + 1, ps, ret)) s.
Proof.
  intros Hb Hn Hws Hk Hsrc Hfmt He. unfold scan_body. mrun (ld_pure s fmt _ Hfmt). cbn [hd].
  rewrite schar_nz, (proj2 (Z.leb_gt e src)) by (done || lia). cbn [orb]. rewrite Hb.
  by mrun (om_pure _ s _ (strtol_space_ret (fmem s) src ws k Hsrc Hws Hk)).
Qed.

Lemma scan_lit_step s fuel e src fmt ps ret b r k :
  ~ blank b -> b <> "%"%byte -> b <> x00 -> cstr (fmem s) src (b :: k) -> cstr (fmem s) fmt (b :: r) -> src < e ->
  scan_body fuel e (src, fmt, ps, ret) s = Ret (inl (src + 1, fmt + 1, ps, ret)) s.
Proof.
  intros Hb Hp Hn Hsrc Hfmt He. unfold scan_body. mrun (ld_pure s fmt _ Hfmt). cbn [hd].
  rewrite schar_nz, (proj2 (Z.leb_gt e src)) by (done || lia). cbn [orb]. destruct (isspace (schar b)) eqn:Eb; [done|].
  change (ch "%") with (schar "%"%byte). rewrite schar_eqb, bool_decide_eq_false_2 by done. cbn [negb].
  mrun (ld_pure s src _ Hsrc). cbn [hd]. by rewrite Z.eqb_refl.
Qed.

Lemma scan_loop : forall l k vs, scans l k vs -> forall n fuel s src fmt ps ret e,
  cstr (fmem s) src k -> cstr (fmem s) fmt (fmt_text l) -> e = src + Z.of_nat (length k) ->
  objects (fmem s) src (Z.of_nat (length k) + 1) ps vs -> objects (fmem s) fmt (Z.of_nat (length (fmt_text l)) + 1) ps vs ->
  0 <= ret -> ret + Z.of_nat (length vs) < 2 ^ 31 -> (length l < n)%nat ->
  loop n (scan_body fuel e) (src, fmt, ps, ret) s
  = Ret (ret + Z.of_nat (length vs)) (with_fmem (store_vals (fmem s) ps vs) s).
Proof.
  induction 1 as [k|b l ws k vs Hb Hn Hws Hk Hne Hs IH|b l k vs Hb Hp Hn Hs IH
                 |lg c base l ws sg f ds k vs Hc Hws Hsg Hx Hds Hlen Hk Hlt Hs IH];
    intros [|n] fuel s src fmt ps ret e Hsrc Hfmt He Ho1 Ho2 Hr Hmax Hf; try (cbn in Hf; lia); rewrite loop_S.
  - unfold scan_body. mrun (ld_pure s fmt _ Hfmt). inversion Ho1. subst. cbn. rewrite Z.add_0_r. f_equal.
    by rewrite with_fmem_id.
  - rewrite length_app in He, Ho1. unfold fmt_text in Hfmt, Ho2. cbn [fmap list_fmap concat sitem_text app length] in Hfmt, Ho2.
    fold (fmt_text l) in Hfmt, Ho2. rewrite (scan_blank_step s fuel e src fmt ps ret b (fmt_text l) ws k); try done.
    2: { destruct ws, k; cbn in *; try done; lia. }
    apply cstr_app_r in Hsrc. apply cstr_cons in Hfmt as (_ & _ & Hfmt). apply IH; try done; try lia.
    + eapply objects_mono; [exact Ho1|done|lia|lia].
    + eapply objects_mono; [exact Ho2|done|lia|lia].
    + cbn in Hf. lia.
  - cbn [length] in He, Ho1. unfold fmt_text in Hfmt, Ho2. cbn [fmap list_fmap concat sitem_text app length] in Hfmt, Ho2.
    fold (fmt_text l) in Hfmt, Ho2. rewrite (scan_lit_step s fuel e src fmt ps ret b (fmt_text l) k); try done; [|lia].
    apply cstr_cons in Hfmt as (_ & _ & Hfmt). apply cstr_cons in Hsrc as (_ & _ & Hsrc). apply IH; try done; try lia.
    + eapply objects_mono; [exact Ho1|done|lia|lia].
    + eapply objects_mono; [exact Ho2|done|lia|lia].
    + cbn in Hf. lia.
  - unfold fmt_text in Hfmt, Ho2. cbn [fmap list_fmap concat] in Hfmt, Ho2. fold (fmt_text l) in Hfmt, Ho2.
    rewrite length_app in Ho2. inversion Ho1 as [|p ? ps' ? [Hm1 Hd1] Ho1']; subst. inversion Ho2 as [|? ? ? ? [_ Hd2] Ho2']; subst.
    cbn [length] in Hmax. rewrite !length_app in *.
    rewrite (scan_step s fuel _ src fmt ps' ret lg c base l ws sg f ds k p); try done; try lia.
    cbn [store_vals length]. set (v := (lg, f * num_from base 0 ds)) in *. set (s1 := with_fmem _ s).
    assert (forall q a, mapped (fmem s) q a -> mapped (fmem s1) q a) as Hmm by (intros q a; apply (store_val_mapped (fmem s))).
    rewrite IH.
    + f_equal. lia.
    + apply (store_val_cstr (fmem s) p v _ k (Z.of_nat (length k) + 1)); [|lia|rewrite !length_app; lia].
      rewrite !app_assoc in Hsrc. apply cstr_app_r in Hsrc. by rewrite <- !app_assoc in Hsrc.
    + apply (store_val_cstr (fmem s) p v _ _ (Z.of_nat (length (fmt_text l)) + 1)); [by apply cstr_app_r in Hfmt|lia|lia].
    + rewrite !length_app. lia.
    + eapply objects_mono; [exact Ho1'|done|rewrite !length_app; lia|rewrite !length_app; lia].
    + eapply objects_mono; [exact Ho2'|done|lia|lia].
    + lia.
    + lia.
    + cbn in Hf. lia.
Qed.

Lemma sscanf_ret fuel s src fmt ps l k vs :
  scans l k vs -> cstr (fmem s) src k -> cstr (fmem s) fmt (fmt_text l) -> 0 < src ->
  objects (fmem s) src (Z.of_nat (length k) + 1) ps vs ->
  objects (fmem s) fmt (Z.of_nat (length (fmt_text l)) + 1) ps vs -> Z.of_nat (length vs) < 2 ^ 31 ->
  sscanf fuel src fmt ps s
  = Ret (Z.of_nat (length vs)) (with_fmem (store_vals (fmem s) ps vs) s).
Proof.
  intros Hs Hsrc Hfmt Hp Ho1 Ho2 Hlen. unfold sscanf, vsscanf.
  mrun (om_pure _ s _ (strchr_nul (fmem s) src k Hsrc)). rewrite (proj2 (Z.eqb_neq _ _)) by lia. rewrite mret_bind. cbn beta.
  unfold _vscanf. mrun (om_pure _ s _ (scan_fuel_ret (fmem s))).
  assert (length l <= length (fmt_text l))%nat as Hll.
  { clear. unfold fmt_text. induction l as [|[b|b|lg c] l IH]; cbn; [lia|lia|lia|]. rewrite !length_app. cbn. lia. }
  pose proof (cstr_size _ _ _ Hfmt). rewrite (scan_loop l k vs Hs); try done; lia.
Qed.

(** C30: When the directives of the format (white space, literal characters,
    integer conversions) read the source as specified, [sscanf] stores every
    converted value through its argument, in order and in its width, changes no
    other memory, and returns the number of values. *)
Theorem sscanf_correct fuel s src fmt ps l k vs :
  scans l k vs -> cstr (fmem s) src k -> cstr (fmem s) fmt (fmt_text l) -> 0 < src ->
  objects (fmem s) src (Z.of_nat (length k) + 1) ps vs ->
  objects (fmem s) fmt (Z.of_nat (length (fmt_text l)) + 1) ps vs -> Z.of_nat (length vs) < 2 ^ 31 ->
  sscanf fuel src fmt ps s
  = Ret (Z.of_nat (length vs)) (with_fmem (store_vals (fmem s) ps vs) s).
Proof. apply sscanf_ret. Qed.
End ScanRet.

(** ** Printing and reading back *)



Section RoundTrip.
Context (c : byte).






End RoundTrip.


(** ** Witnesses *)

Definition scan_mem (fmt src : list byte) : mem :=
  mwrite (mwrite (mwrite ∅ 100 (fmt ++ [x00])) 200 (src ++ [x00])) 300 (replicate 16 x00).
Definition scan_stdio (m : mem) : stdio unit := Stdio (Heap (demo_proc m) ∅ 0 0 0 0 0) ∅ 0 0.

Lemma sscanf_correct_witness :
  let s := scan_stdio (scan_mem (str "%ld, %x") (str "-12,  ff")) in
  sscanf 0 200 100 [300; 308] s = Ret 2 (with_fmem (store_vals (fmem s) [300; 308] [(true, -12); (false, 255)]) s).
Proof.
  intros s.
  assert (mapped (fmem s) 300 16) as Hm by exact (bytes_at_mapped _ 300 (replicate 16 x00) (bytes_at_mwrite _ _ _)).
  refine (sscanf_correct 0 s 200 100 [300; 308] [SInt true "d"; SLit ","; SBlank " "; SInt false "x"] (str "-12,  ff")
    [(true, -12); (false, 255)] _ _ _ _ _ _ _).
  - apply (scans_int true "d" 10 _ [] (str "-") (-1) (str "12") (str ",  ff") [(false, 255)]);
      [by left|constructor|constructor|done|by repeat constructor|cbn; lia|done|done|].
    apply scans_lit; [done..|]. apply (scans_blank " " _ (str "  ") (str "ff")); [done|done|by repeat constructor|done|done|].
    apply (scans_int false "x" 16 [] [] [] 1 (str "ff") []);
      [by right; right|constructor|by constructor|done|by repeat constructor|cbn; lia|done|done|constructor].
  - apply (bool_decide_unpack _); vm_compute; exact I.
  - apply (bool_decide_unpack _); vm_compute; exact I.
  - lia.
  - repeat constructor; cbn; try lia; eapply mapped_le; try exact Hm; lia.
  - repeat constructor; cbn; try lia; eapply mapped_le; try exact Hm; lia.
  - reflexivity.
Defined.

