(* ===== verification/LMisc.v ===== *)
(** * Smaller functions of litc.c

    Option parsing, pseudo-random numbers, error texts, [strdup], [strncpy],
    temporary files, line input.  The global variables are at the addresses of
    [Globals]. *)

From S2P Require Import Prelude CMem Digits LBase LCtype LString LStrtol LSyscall LAlloc LPrintf LStdio.
From coqutil Require Import Word.LittleEndianList.

(** The addresses of [optarg], [optind], [_seed1], [_seed2], the static [seed]
    of [mkstemp], [readlineb], and of local variables whose address is taken:
    [c] of [readline], [p] of [err], [t] and [r] of [sleep] and [usleep], [tv]
    of [time]; the pointer [kinfo]. *)
Class Globals : Type := {
  optarg : Z;
  optind : Z;
  _seed1 : Z;
  _seed2 : Z;
  mkstemp_seed : Z;
  readlineb : Z;
  readline_c : Z;
  err_p : Z;
  sleep_t : Z;
  sleep_r : Z;
  time_tv : Z;
  kinfo : Z
}.

(** The time stamp counter. *)
Class Clock (K : Type) : Type := { tsc : K -> Z * K }.

Definition RAND_MAX : Z := 2147483647.
Abbreviation NL_TEXTMAX := (64)%Z.

(** ** Pseudo-random numbers *)

Definition rand_r (seed : Z) : M mem Z :=
  v ← load32 seed;
  let v := u32 (v * 1103515245 + 12345) in
  _ ← store32 seed v;
  mret (Z.land v RAND_MAX).

Section Misc.
Context {K : Type} `{Kernel K} `{Image} `{Globals}.

Definition rand : M (stdio K) Z := om (rand_r _seed1).
Definition srand (seed : Z) : M (stdio K) unit := om (store32 _seed1 (u32 seed)).
Definition random : M (stdio K) Z := om (rand_r _seed2).
Definition srandom (seed : Z) : M (stdio K) unit := om (store32 _seed2 (u32 seed)).

(** ** Options *)

Definition get_optind : M (stdio K) Z := r ← om (load32 optind); mret (s32 r).
Definition set_optind (i : Z) : M (stdio K) unit := om (store32 optind (u32 i)).
Definition argv_at (argv i : Z) : M (stdio K) Z := om (load64 (argv + 8 * i)).

Definition getopt (argc argv optstring : Z) : M (stdio K) Z :=
  _ ← om (store64 optarg 0);
  fuel ← om scan_fuel;
  _ ← loop fuel (fun _ : unit =>
    i ← get_optind;
    if i <? argc then
      a ← argv_at argv i;
      if a =? 0 then i' ← schk 32 (i + 1); _ ← set_optind i'; mret (inl tt) else mret (inr tt)
    else mret (inr tt)) tt;
  i ← get_optind;
  if argc <=? i then mret (-1)
  else
    ca ← argv_at argv i;
    c0 ← om (ldc ca);
    if negb (c0 =? ch "-") then mret (-1)
    else
      i' ← schk 32 (i + 1);
      _ ← set_optind i';
      c1 ← om (ldc (ca + 1));
      o ← om (strchr optstring c1);
      if o =? 0 then mret (ch "?")
      else
        o1 ← om (ldc (o + 1));
        if negb (o1 =? ch ":") then om (ldc (ca + 1))
        else
          c2 ← om (ldc (ca + 2));
          if negb (c2 =? 0) then _ ← om (store64 optarg (ca + 2)); om (ldc (ca + 1))
          else
            s0 ← om (ldc optstring);
            let argwut := if s0 =? ch ":" then ch ":" else ch "?" in
            i ← get_optind;
            missing ← (if argc <=? i then mret true
                       else a ← argv_at argv i; c ← om (ldc a); mret (c =? ch "-"));
            if missing : bool then mret argwut
            else
              a ← argv_at argv i;
              _ ← om (store64 optarg a);
              i' ← schk 32 (i + 1);
              _ ← set_optind i';
              om (ldc (ca + 1)).

(** ** Strings and error texts *)

(** The test is of the length, not of the pointer. *)
Definition strdup (orig : Z) : M (stdio K) Z :=
  n ← om (strlen orig);
  let l := u64 (n + 1) in
  ret ← onheap (malloc l);
  if l =? 0 then _ ← onp (seterrno ENOMEM); mret 0
  else _ ← om (memmove ret orig l); mret ret.

Definition strncpy (dst src sz : Z) : M (stdio K) Z :=
  _ ← onp (snprintf dst sz (lit "%s") [src]); mret dst.

(** [_errstr] *)
Definition _errstr : gmap Z string := list_to_map [
  (1, "Operation not permitted"); (2, "No such file or directory"); (3, "No such process");
  (4, "Interrupted system call"); (5, "Input/output error"); (7, "Argument list too long");
  (9, "Bad file descriptor"); (11, "Resource temporarily unavailable"); (10, "No child processes");
  (12, "Out of memory"); (13, "Permission denied"); (14, "Bad address"); (16, "Device busy");
  (17, "File exists"); (18, "Cross device link"); (19, "Operation not supported by device");
  (20, "Not a directory"); (21, "Is a directory"); (22, "Invalid argument");
  (23, "Too many open files in system"); (24, "Too many open files"); (28, "No space left on device");
  (29, "Illegal seek"); (32, "Broken pipe"); (34, "Result too large"); (36, "File name too long");
  (38, "Function not implemented"); (39, "Directory not empty"); (40, "Destination address required");
  (47, "Protocol family not supported"); (48, "Address already in use"); (49, "Can't assign requested address");
  (50, "Network is down"); (51, "Network is unreachable"); (53, "Software caused connection abort");
  (62, "Too many levels of symbolic links"); (64, "Host is down"); (65, "No route to host");
  (75, "Value too large to be stored in data type"); (88, "Socket operation on non-socket");
  (95, "Operation not supported"); (106, "Socket is already connected"); (107, "Socket is not connected");
  (110, "Operation timed out"); (104, "Connection reset by peer"); (111, "Connection refused");
  (115, "Operation now in progress")]%string.

(** The text of an error: the entry of the table, which has 116 entries. *)
Definition errtext (errnum : Z) : string :=
  if (0 <=? errnum) && (errnum <? 116) then default "Unknown error"%string (_errstr !! errnum) else "Unknown error".
Definition strerror (errnum : Z) : M (stdio K) Z := mret (lit (errtext errnum)).
Definition strerror_r (errnum dst dstlen : Z) : M (stdio K) Z :=
  _ ← strncpy dst (lit (errtext errnum)) dstlen; mret 0.

Definition perror (fuel : nat) (str : Z) : M (stdio K) unit :=
  n ← onp (gets p_errno);
  e ← strerror n;
  if negb (str =? 0) then _ ← fprintf fuel stderr (lit "%s: %s\n") [str; e]; mret tt
  else _ ← fprintf fuel stderr (lit "%s\n") [e]; mret tt.

Definition err (fuel : nat) (eval fmt : Z) (ap : list Z) : M (stdio K) unit :=
  _ ← modify (set_dolock 0);
  _ ← fprintf fuel stderr (lit "%s: ") [__progname];
  _ ← vfprintf fuel (printf fuel) (lbuf 2) stderr fmt ap;
  neval ← onp (gets p_errno);
  _ ← strerror_r neval err_p NL_TEXTMAX;
  _ ← fprintf fuel stderr (lit ": %s\n") [err_p];
  exit fuel eval.

Definition setlocale (fuel : nat) (cat loc : Z) : M (stdio K) Z :=
  known ← (if loc =? 0 then mret true
           else
             a ← om (strcmp loc (lit ""));
             if a =? 0 then mret true
             else
               b ← om (strcmp loc (lit "C"));
               if b =? 0 then mret true
               else c ← om (strcmp loc (lit "POSIX")); mret (c =? 0));
  if known : bool then mret (lit "C")
  else _ ← errx_ fuel (-1) (lit "no fancy locale support") []; ub.

(** ** Files and input *)

Definition creat (p m : Z) : M (stdio K) Z :=
  onp (open p (Z.lor (Z.lor O_WRONLY O_CREAT) O_TRUNC) m).

(** [i] is an [int]; the comparison with [sizeof(readlineb) - 1] is unsigned. *)
Definition readline (fuel : nat) (prompt : Z) : M (stdio K) Z :=
  _ ← (if prompt =? 0 then mret 0 else printf fuel (lit "%s") [prompt]);
  _ ← om (stc readline_c 65);
  '(ret, i) ← loop fuel (fun i =>
    r ← onp (read 0 readline_c 1);
    let ret := s32 r in
    if ret <=? 0 then mret (inr (ret, i))
    else
      c ← om (ldc readline_c);
      if c =? 10 then mret (inr (ret, i))
      else if c =? 8 then mret (inl (if i - 1 <? 0 then 0 else i - 1))
      else if i <? 255 then _ ← om (stc (readlineb + i) c); mret (inl (i + 1))
      else mret (inl i)) 0;
  _ ← (if ret <? 0 then printf fuel (lit "readline: read failed: %d\n") [ret] else mret 0);
  if ret =? 0 then mret 0
  else _ ← om (stc (readlineb + i) 0); mret readlineb.

(** ** Time *)

Context `{Clock K}.

Definition rdtsc : M (stdio K) Z :=
  match karch with
  | x86_64 => onp (fun p => let '(t, k) := tsc (p_kern p) in Ret (u64 t) (Proc (p_mem p) (p_errno p) k))
  | _ => mret 0
  end.

(** [struct kinfo_t] has [pspercycle] at offset 24. *)
Definition gettimeofday (fuel : nat) (tv tz : Z) : M (stdio K) Z :=
  _ ← (if tz =? 0 then mret tt else errx_ fuel (-1) (lit "timezone not supported") []);
  c ← rdtsc;
  ps ← om (load64 (kinfo + 24));
  let us := u64 (c * ps) / 1000000 in
  _ ← om (store64 tv (us / 1000000));
  _ ← om (store64 (tv + 8) (us mod 1000000));
  mret 0.

Definition time (fuel : nat) (tloc : Z) : M (stdio K) Z :=
  r ← gettimeofday fuel time_tv 0;
  if negb (r =? 0) then mret (-1)
  else
    s ← om (load64 time_tv);
    _ ← (if tloc =? 0 then mret tt else om (store64 tloc s));
    mret (s64 s).

Definition sleep (s : Z) : M (stdio K) Z :=
  _ ← om (store64 sleep_t (u32 s));
  _ ← om (store64 (sleep_t + 8) 0);
  _ ← om (store64 sleep_r 0);
  _ ← om (store64 (sleep_r + 8) 0);
  ret ← onp (nanosleep sleep_t sleep_r);
  if negb (ret =? 0) then r ← om (load64 sleep_r); mret (u32 r) else mret 0.

Definition usleep (us : Z) : M (stdio K) Z :=
  let ns := u32 (us mod 1000000 * 1000) in
  _ ← om (store64 sleep_t (us / 1000000));
  _ ← om (store64 (sleep_t + 8) ns);
  onp (nanosleep sleep_t 0).

(** ** Temporary files *)

(** [rand_r(&seed) % 26*2]: the remainder is multiplied by 2. *)
Definition mkstemp_letter (r : Z) : Z :=
  let n := u32 r mod 26 * 2 in if 26 <=? n then ch "A" + n - 26 else ch "a" + n.
Fixpoint mkstemp_fill (k : nat) (e : Z) : M mem unit :=
  match k with
  | O => mret tt
  | S k => r ← rand_r mkstemp_seed; _ ← stc e (mkstemp_letter r); mkstemp_fill k (e + 1)
  end.

Definition mkstemp (fuel : nat) (t : Z) : M (stdio K) Z :=
  seed ← om (load32 mkstemp_seed);
  _ ← (if seed =? 0 then n ← time fuel 0; om (store32 mkstemp_seed (u32 n)) else mret tt);
  l ← om (strlen t);
  let inval := _ ← onp (seterrno EINVAL); mret (-1) in
  if l <? 6 then inval
  else
    let oe := t + l - 6 in
    d ← om (strncmp oe (lit "XXXXXX") 6);
    if negb (d =? 0) then inval
    else
      loop 12 (fun fails =>
        _ ← om (mkstemp_fill 6 oe);
        fd ← onp (open t (Z.lor (Z.lor O_RDWR O_CREAT) O_EXCL) 384);
        if negb (fd =? -1) then mret (inr fd)
        else
          e ← onp (gets p_errno);
          if negb (e =? EEXIST) then mret (inr (-1))
          else if fails =? 10 then mret (inr (-1))
          else mret (inl (fails + 1))) 0.
End Misc.

(** ** Properties *)

(** [rand_r] returns values of the documented range and its step merges no two
    states. *)
Lemma rand_r_range m seed :
  mapped m seed 4 -> exists r v, rand_r seed m = Ret r (mwrite m seed (le_split 4 v)) /\ 0 <= r <= RAND_MAX /\ r = v mod 2 ^ 31.
Proof.
  intros Hm. destruct (mapped_mread m seed 4 Hm) as (l & _ & El). unfold rand_r, load32. munfold. rewrite El.
  rewrite store32_ret by done. eexists _, _. split; [done|]. change RAND_MAX with (Z.ones 31). rewrite Z.land_ones by lia.
  split; [|done]. change (Z.ones 31) with (2 ^ 31 - 1). match goal with |- 0 <= ?x mod _ <= _ => pose proof (Z.mod_pos_bound x (2 ^ 31) ltac:(lia)) end. lia.
Qed.

Lemma rand_r_step_inj x y :
  0 <= x < 2 ^ 32 -> 0 <= y < 2 ^ 32 ->
  u32 (x * 1103515245 + 12345) = u32 (y * 1103515245 + 12345) -> x = y.
Proof.
  intros Hx Hy E. assert (forall z, 0 <= z < 2 ^ 32 -> (u32 (z * 1103515245 + 12345) - 12345) * 4005161829 mod 2 ^ 32 = z) as Hinv.
  { intros z Hz. unfold uwrap. rewrite Z.mul_mod, Zminus_mod_idemp_l, <- Z.mul_mod by lia.
    replace ((z * 1103515245 + 12345 - 12345) * 4005161829) with (z + (z * (1103515245 * 4005161829 / 2 ^ 32)) * 2 ^ 32).
    - rewrite Z_mod_plus_full. by apply Z.mod_small.
    - assert (1103515245 * 4005161829 = 1 + (1103515245 * 4005161829 / 2 ^ 32) * 2 ^ 32) as Ec by (vm_compute; reflexivity). nia. }
  rewrite <- (Hinv x Hx), <- (Hinv y Hy). by rewrite E.
Qed.

(** The letters of [mkstemp] are 26 of the 52: every other one. *)
Lemma mkstemp_letters r :
  exists k, 0 <= k < 13 /\ (mkstemp_letter r = ch "a" + 2 * k \/ mkstemp_letter r = ch "A" + 2 * k).
Proof.
  unfold mkstemp_letter. pose proof (Z.mod_pos_bound (u32 r) 26 ltac:(lia)) as H. set (q := u32 r mod 26) in *.
  destruct (Z.leb_spec 26 (q * 2)); [exists (q - 13)|exists q]; lia.
Qed.

(** ** [getopt] *)

Section Getopt.
Context {K : Type} `{KA : Kernel K} `{IM : Image} `{GL : Globals}.
Implicit Types s : stdio K.
Context (argv optstring : Z) (ptrs : list Z) (ws : list (list byte)) (opts : list byte).

(** The position of an option letter in the option string. *)
Definition opt_pos (c : byte) : option nat := fst <$> list_find (fun b => b = c) opts.
Definition takes_arg (j : nat) : bool := bool_decide (opts !! S j = Some ":"%byte).

(** The result, [optarg] and [optind] of a call with [optind] = [i].  A bare
    hyphen is left out: for it the code looks behind the option string. *)
Definition getopt_spec (i : nat) : option (Z * Z * nat) :=
  match ws !! i with
  | None => Some (-1, 0, i)
  | Some ("-"%byte :: c :: rest) =>
      match opt_pos c with
      | None => Some (ch "?", 0, S i)
      | Some j =>
          if takes_arg j then
            match rest, ws !! S i with
            | _ :: _, _ => Some (schar c, default 0 (ptrs !! i) + 2, S i)
            | [], Some w =>
                if decide (hd x00 w = "-"%byte) then Some (if decide (hd x00 opts = ":"%byte) then ch ":" else ch "?", 0, S i)
                else Some (schar c, default 0 (ptrs !! S i), S (S i))
            | [], None => Some (if decide (hd x00 opts = ":"%byte) then ch ":" else ch "?", 0, S i)
            end
          else Some (schar c, 0, S i)
      end
  | Some ["-"%byte] => None
  | Some _ => Some (-1, 0, i)
  end.

Definition apart_vars (a n : Z) : Prop :=
  (optarg + 8 <= a \/ a + n <= optarg) /\ (optind + 4 <= a \/ a + n <= optind).

(** The argument vector, the strings and the variables, all apart. *)
Record opt_env (m : mem) : Prop := OptEnv {
  oe_len : length ptrs = length ws /\ Z.of_nat (length ws) < 2 ^ 31 - 2;
  oe_argv j p : ptrs !! j = Some p -> bytes_at m (argv + 8 * Z.of_nat j) (le_split 8 p) /\ 0 < p < 2 ^ 64;
  oe_str j p w : ptrs !! j = Some p -> ws !! j = Some w -> cstr m p w /\ apart_vars p (Z.of_nat (length w) + 1);
  oe_opts : cstr m optstring opts /\ 0 < optstring /\ apart_vars optstring (Z.of_nat (length opts) + 1);
  oe_apart : apart_vars argv (8 * Z.of_nat (length ptrs)) /\ (optarg + 8 <= optind \/ optind + 4 <= optarg);
  oe_vars : mapped m optarg 8 /\ mapped m optind 4
}.

(** The memory with the two variables set. *)
Definition opt_mem (m : mem) (v : Z) (i : nat) : mem :=
  mwrite (mwrite m optarg (le_split 8 v)) optind (le_split 4 (Z.of_nat i)).

Lemma opt_env_mem m v i : opt_env m -> opt_env (opt_mem m v i).
Proof.
  intros [Hl Ha Hs (Ho & Hop & Hoa) [Hap Hv] [Hm1 Hm2]]. unfold opt_mem. split; [done| | | |done|].
  - intros j p Hj. destruct (Ha j p Hj) as [Hb Hp]. split; [|done]. apply lookup_lt_Some in Hj. unfold apart_vars in Hap.
    do 2 (apply bytes_at_mwrite_out; [|rewrite !length_le_split; lia]). done.
  - intros j p w Hj Hw. destruct (Hs j p w Hj Hw) as [Hc Hd]. split; [|done]. unfold apart_vars in Hd.
    do 2 (apply cstr_mwrite_out; [|rewrite !length_le_split; lia]). done.
  - split; [|done]. unfold apart_vars in Hoa. do 2 (apply cstr_mwrite_out; [|rewrite !length_le_split; lia]). done.
  - split; by do 2 apply mapped_mwrite.
Qed.

Section Steps.
Context (m : mem) (s : stdio K) (env : opt_env m).
Definition at_vars (v : Z) (i : nat) : stdio K := with_fmem (opt_mem m v i) s.

Lemma get_optind_ret v i : Z.of_nat i < 2 ^ 31 -> get_optind (at_vars v i) = Ret (Z.of_nat i) (at_vars v i).
Proof.
  intros Hi. unfold get_optind. assert (load32 optind (opt_mem m v i) = Ret (Z.of_nat i) (opt_mem m v i)) as E.
  { unfold load32, opt_mem. set (w := le_split 4 (Z.of_nat i)). change 4%nat with (length w).
    rewrite (proj2 (mread_bytes_at _ optind w) (bytes_at_mwrite _ _ _)). unfold w. rewrite le_combine_split. f_equal.
    apply Z.mod_small. cbn. lia. }
  mrun (om_pure _ (at_vars v i) _ E). rewrite mret_ret. f_equal. apply swrap_id; unfold_int; lia.
Qed.

Lemma set_optind_ret v i i' : set_optind (Z.of_nat i') (at_vars v i) = Ret tt (at_vars v i').
Proof using env.
  unfold set_optind. destruct (oe_vars m env) as [_ Hm].
  assert (store32 optind (u32 (Z.of_nat i')) (opt_mem m v i) = Ret tt (opt_mem m v i')) as E.
  { rewrite store32_ret by (by do 2 apply mapped_mwrite). f_equal. unfold opt_mem. rewrite mwrite_same by (by rewrite !length_le_split).
    f_equal. symmetry. exact (le_split_mod (Z.of_nat i') 4). }
  exact (om_ret _ (at_vars v i) _ _ E).
Qed.

Lemma set_optarg_ret v v' i : om (store64 optarg v') (at_vars v i) = Ret tt (at_vars v' i).
Proof using env.
  destruct (oe_vars m env) as [Hm _]. destruct (oe_apart m env) as [_ Ha].
  assert (store64 optarg v' (opt_mem m v i) = Ret tt (opt_mem m v' i)) as E.
  { rewrite store64_ret by (by do 2 apply mapped_mwrite). f_equal. unfold opt_mem.
    rewrite mwrite_disjoint by (rewrite !length_le_split; lia). by rewrite mwrite_same by (by rewrite !length_le_split). }
  exact (om_ret _ (at_vars v i) _ _ E).
Qed.

Lemma argv_at_ret v i j p :
  ptrs !! j = Some p -> argv_at argv (Z.of_nat j) (at_vars v i) = Ret p (at_vars v i).
Proof using env.
  intros Hj. destruct (oe_argv _ (opt_env_mem m v i env) j p Hj) as [Hb Hp]. apply om_pure.
  change (fmem (at_vars v i)) with (opt_mem m v i). rewrite (load64_ret _ _ (le_split 8 p)); [|apply length_le_split|done].
  rewrite le_combine_split. f_equal. apply Z.mod_small. cbn. lia.
Qed.

Lemma arg_char v i j p w (k : nat) :
  ptrs !! j = Some p -> ws !! j = Some w -> (k <= length w)%nat ->
  om (ldc (p + Z.of_nat k)) (at_vars v i) = Ret (schar (default x00 (w !! k))) (at_vars v i).
Proof using env.
  intros Hj Hw Hk. destruct (oe_str _ (opt_env_mem m v i env) j p w Hj Hw) as [Hc _].
  rewrite <- (take_drop k w) in Hc. apply cstr_app_r in Hc. rewrite length_take, Nat.min_l in Hc by done.
  rewrite (ld_pure (at_vars v i) (p + Z.of_nat k) _ Hc). do 2 f_equal. rewrite <- (Nat.add_0_r k) at 2. rewrite <- lookup_drop. by destruct (drop k w).
Qed.

(** Looking an option letter up. *)
Lemma opt_find v i c :
  c <> x00 -> exists o, om (strchr optstring (schar c)) (at_vars v i) = Ret o (at_vars v i) /\
    match opt_pos c with
    | None => o = 0
    | Some j => o <> 0 /\ om (ldc (o + 1)) (at_vars v i) = Ret (schar (default x00 (opts !! S j))) (at_vars v i)
    end.
Proof using env.
  intros Hc. destruct (oe_opts _ (opt_env_mem m v i env)) as (Ho & Hp & _). eexists. split.
  { apply om_pure. exact (strchr_ret (opt_mem m v i) optstring opts c Ho Hc). }
  unfold opt_pos. destruct (list_find _ opts) as [[j b]|] eqn:E; cbn; [|done]. split; [lia|].
  apply list_find_Some in E as (Hj & _ & _). apply lookup_lt_Some in Hj.
  rewrite <- (take_drop (S j) opts) in Ho. apply cstr_app_r in Ho. rewrite length_take, Nat.min_l in Ho by lia.
  replace (optstring + Z.of_nat j + 1) with (optstring + Z.of_nat (S j)) by lia.
  rewrite (ld_pure (at_vars v i) (optstring + Z.of_nat (S j)) _ Ho). do 2 f_equal.
  rewrite <- (Nat.add_0_r (S j)) at 2. rewrite <- lookup_drop. by destruct (drop (S j) opts).
Qed.
End Steps.

Lemma opt_mem_start m i : opt_env m -> bytes_at m optind (le_split 4 (Z.of_nat i)) -> mwrite m optarg (le_split 8 0) = opt_mem m 0 i.
Proof.
  intros env Hi. destruct (oe_apart m env) as [_ Ha]. unfold opt_mem.
  rewrite mwrite_disjoint by (rewrite !length_le_split; lia). by rewrite (mwrite_bytes_at m optind _ Hi).
Qed.

Lemma ptr_of m i w : opt_env m -> ws !! i = Some w -> exists p, ptrs !! i = Some p /\ p <> 0.
Proof.
  intros env Hw. destruct (oe_len m env) as [Hl _]. destruct (lookup_lt_is_Some_2 ptrs i) as [p Hp].
  { rewrite Hl. by eapply lookup_lt_Some. }
  exists p. split; [done|]. destruct (oe_argv m env i p Hp). lia.
Qed.

(** The argument of an option whose letter is the last of its word. *)
Lemma next_arg m s i :
  opt_env m -> Z.of_nat (S i) < 2 ^ 31 ->
  (if Z.of_nat (length ws) <=? Z.of_nat (S i) then mret true
   else a ← argv_at argv (Z.of_nat (S i)); c ← om (ldc a); mret (c =? ch "-")) (at_vars m s 0 (S i))
  = Ret (match ws !! S i with Some w => bool_decide (hd x00 w = "-"%byte) | None => true end) (at_vars m s 0 (S i)).
Proof.
  intros env Hi. destruct (ws !! S i) as [w|] eqn:Hw.
  - pose proof (lookup_lt_Some _ _ _ Hw). rewrite (proj2 (Z.leb_gt _ _)) by lia.
    destruct (ptr_of m (S i) w env Hw) as (p & Hp & _). mrun (argv_at_ret m s env 0 (S i) (S i) p Hp).
    pose proof (arg_char m s env 0 (S i) (S i) p w 0 Hp Hw ltac:(lia)) as E. rewrite Z.add_0_r in E. mrun E.
    rewrite mret_ret. f_equal. change (ch "-") with (schar "-"%byte). rewrite schar_eqb. by destruct w.
  - apply lookup_ge_None in Hw. by rewrite (proj2 (Z.leb_le _ _)) by lia.
Qed.

(** The part of [getopt] for an argument that starts with a hyphen. *)
Lemma getopt_option m s i p c rest r v i' :
  opt_env m -> ws !! i = Some ("-"%byte :: c :: rest) -> ptrs !! i = Some p -> getopt_spec i = Some (r, v, i') ->
  (c1 ← om (ldc (p + 1));
   o ← om (strchr optstring c1);
   if o =? 0 then mret (ch "?")
   else
     o1 ← om (ldc (o + 1));
     if negb (o1 =? ch ":") then om (ldc (p + 1))
     else
       c2 ← om (ldc (p + 2));
       if negb (c2 =? 0) then _ ← om (store64 optarg (p + 2)); om (ldc (p + 1))
       else
         s0 ← om (ldc optstring);
         let argwut := if s0 =? ch ":" then ch ":" else ch "?" in
         i ← get_optind;
         missing ← (if Z.of_nat (length ws) <=? i then mret true
                    else a ← argv_at argv i; c ← om (ldc a); mret (c =? ch "-"));
         if missing : bool then mret argwut
         else
           a ← argv_at argv i;
           _ ← om (store64 optarg a);
           i' ← schk 32 (i + 1);
           _ ← set_optind i';
           om (ldc (p + 1))) (at_vars m s 0 (S i)) = Ret r (at_vars m s v i').
Proof.
  intros env Hw Hp Hs. pose proof (lookup_lt_Some _ _ _ Hw) as Hi. destruct (oe_len m env) as [_ Hl].
  assert (forall v i0, om (ldc (p + 1)) (at_vars m s v i0) = Ret (schar c) (at_vars m s v i0)) as E1.
  { intros v0 i0. exact (arg_char m s env v0 i0 i p _ 1 Hp Hw ltac:(cbn; lia)). }
  mrun (E1 0 (S i)). assert (c <> x00) as Hc.
  { destruct (oe_str m env i p _ Hp Hw) as [[Hn _] _]. by apply List.Forall_cons_iff in Hn as [_ [Hn _]%List.Forall_cons_iff]. }
  destruct (opt_find m s env 0 (S i) c Hc) as (o & Eo & Ho). mrun Eo. unfold getopt_spec in Hs. rewrite Hw in Hs.
  destruct (opt_pos c) as [j|]; [|subst o; by injection Hs as <- <- <-].
  destruct Ho as [Ho E2]. rewrite (proj2 (Z.eqb_neq o 0) Ho). mrun E2.
  assert (schar (default x00 (opts !! S j)) =? ch ":" = takes_arg j) as ->.
  { change (ch ":") with (schar ":"%byte). rewrite schar_eqb. unfold takes_arg. apply bool_decide_ext. destruct (opts !! S j); cbn; naive_solver. }
  destruct (takes_arg j); cbn [negb]; [|injection Hs as <- <- <-; apply E1].
  pose proof (arg_char m s env 0 (S i) i p _ 2 Hp Hw ltac:(cbn; lia)) as E3. mrun E3. cbn [lookup list_lookup].
  destruct rest as [|d rest].
  2: { cbn [lookup list_lookup default]. assert (d <> x00) as Hd.
       { destruct (oe_str m env i p _ Hp Hw) as [[Hn _] _]. by apply List.Forall_cons_iff in Hn as [_ [_ [Hn _]%List.Forall_cons_iff]%List.Forall_cons_iff]. }
       rewrite schar_nz by done. cbn [negb]. rewrite Hp in Hs. injection Hs as <- <- <-.
       mrun (set_optarg_ret m s env 0 (p + 2) (S i)). apply E1. }
  change (negb (schar (default x00 ([] !! 0%nat)) =? 0)) with false. cbv iota.
  destruct (oe_opts _ (opt_env_mem m 0 (S i) env)) as (Hop & _). mrun (ld_pure (at_vars m s 0 (S i)) optstring _ Hop). cbv zeta.
  mrun (get_optind_ret m s 0 (S i) ltac:(lia)). mrun (next_arg m s i env ltac:(lia)).
  assert ((if schar (hd x00 opts) =? ch ":" then ch ":" else ch "?") = if decide (hd x00 opts = ":"%byte) then ch ":" else ch "?") as ->.
  { change (schar (hd x00 opts) =? ch ":") with (schar (hd x00 opts) =? schar ":"%byte). rewrite schar_eqb. by case_bool_decide; case_decide. }
  destruct (ws !! S i) as [w|] eqn:Hw'; [|by injection Hs as <- <- <-].
  destruct (decide (hd x00 w = "-"%byte)) as [E|E];
    [rewrite bool_decide_eq_true_2 by done; by injection Hs as <- <- <-|rewrite bool_decide_eq_false_2 by done].
  destruct (ptr_of m (S i) w env Hw') as (p' & Hp' & _). rewrite Hp' in Hs. injection Hs as <- <- <-. cbn [default].
  mrun (argv_at_ret m s env 0 (S i) (S i) p' Hp'). mrun (set_optarg_ret m s env 0 p' (S i)).
  assert (in_s 32 (Z.of_nat (S i) + 1)) as Hr by (unfold_int; lia). rewrite (bind_ret _ _ _ _ _ (schk_ret 32 _ _ Hr)).
  replace (Z.of_nat (S i) + 1) with (Z.of_nat (S (S i))) by lia. mrun (set_optind_ret m s env p' (S i) (S (S i))). apply E1.
Qed.

(** [getopt] with [optind] = [i] returns the option letter of the argument,
    its argument through [optarg] (the rest of the word, or the next word), and
    the next [optind], as specified: -1 at the end or at an operand, '?' for an
    unknown letter, ':' or '?' for a missing argument.  It changes no other
    memory. *)
Theorem getopt_correct s i r v i' :
  opt_env (fmem s) -> bytes_at (fmem s) optind (le_split 4 (Z.of_nat i)) -> Z.of_nat i < 2 ^ 31 ->
  getopt_spec i = Some (r, v, i') ->
  getopt (Z.of_nat (length ws)) argv optstring s = Ret r (with_fmem (opt_mem (fmem s) v i') s).
Proof.
  intros env Hi Hib Hs. unfold getopt. set (m := fmem s) in *.
  assert (om (store64 optarg 0) s = Ret tt (at_vars m s 0 i)) as E0.
  { unfold at_vars. rewrite <- (opt_mem_start m i env Hi). apply om_ret. apply store64_ret. apply (oe_vars m env). }
  mrun E0. mrun (om_pure _ (at_vars m s 0 i) _ (scan_fuel_ret (opt_mem m 0 i))).
  destruct (ws !! i) as [w|] eqn:Hw.
  2: { assert (Z.of_nat (length ws) <= Z.of_nat i) as Hge by (apply lookup_ge_None in Hw; lia).
       unfold getopt_spec in Hs. rewrite Hw in Hs. injection Hs as <- <- <-.
       rewrite (bind_ret _ _ _ tt (at_vars m s 0 i)).
       - mrun (get_optind_ret m s 0 i Hib). by rewrite (proj2 (Z.leb_le _ _)) by lia.
       - rewrite loop_S. mrun (get_optind_ret m s 0 i Hib). by rewrite (proj2 (Z.ltb_ge _ _)) by lia. }
  pose proof (lookup_lt_Some _ _ _ Hw) as Hlt. destruct (oe_len m env) as [_ Hl]. destruct (ptr_of m i w env Hw) as (p & Hp & Hp0).
  rewrite (bind_ret _ _ _ tt (at_vars m s 0 i)).
  2: { rewrite loop_S. mrun (get_optind_ret m s 0 i Hib). rewrite (proj2 (Z.ltb_lt _ _)) by lia. mrun (argv_at_ret m s env 0 i i p Hp).
       by rewrite (proj2 (Z.eqb_neq p 0) Hp0). }
  mrun (get_optind_ret m s 0 i Hib). rewrite (proj2 (Z.leb_gt _ _)) by lia. mrun (argv_at_ret m s env 0 i i p Hp).
  pose proof (arg_char m s env 0 i i p w 0 Hp Hw ltac:(lia)) as Ec. rewrite Z.add_0_r in Ec. mrun Ec.
  change (ch "-") with (schar "-"%byte). rewrite schar_eqb.
  destruct (decide (default x00 (w !! 0%nat) = "-"%byte)) as [E|E].
  - rewrite bool_decide_eq_true_2 by done. cbn [negb]. destruct w as [|b w]; [done|]. cbn in E. subst b.
    destruct w as [|c rest]; [unfold getopt_spec in Hs; by rewrite Hw in Hs|].
    assert (in_s 32 (Z.of_nat i + 1)) as Hr by (unfold_int; lia). rewrite (bind_ret _ _ _ _ _ (schk_ret 32 _ _ Hr)).
    replace (Z.of_nat i + 1) with (Z.of_nat (S i)) by lia. mrun (set_optind_ret m s env 0 i (S i)).
    by apply (getopt_option m s i p c rest).
  - rewrite bool_decide_eq_false_2 by done. cbn [negb]. unfold getopt_spec in Hs. rewrite Hw in Hs.
    assert (Hs' : Some (-1, 0, i) = Some (r, v, i')); [|by injection Hs' as <- <- <-].
    rewrite <- Hs. destruct w as [|b w]; [done|]. cbn in E. by destruct b.
Qed.
End Getopt.

Definition demo_globals : Globals := {|
  optarg := 16; optind := 24; _seed1 := 32; _seed2 := 36; mkstemp_seed := 40; readlineb := 1000; readline_c := 44;
  err_p := 1300; sleep_t := 48; sleep_r := 64; time_tv := 80; kinfo := 2000 |}.

(** prog -f x, with the options "f:v" *)
Definition opt_demo : mem :=
  mwrite (mwrite (mwrite (mwrite (mwrite (mwrite (mwrite ∅ 100 (le_split 8 200 ++ le_split 8 210 ++ le_split 8 220))
    200 (str "prog" ++ [x00])) 210 (str "-f" ++ [x00])) 220 (str "x" ++ [x00])) 230 (str "f:v" ++ [x00]))
    16 (le_split 8 0)) 24 (le_split 4 1).

Lemma getopt_correct_witness :
  let s := Stdio (Heap (demo_proc opt_demo) ∅ 0 0 0 0 0) ∅ 0 0 in
  getopt (H1 := demo_globals) 3 100 230 s
  = Ret (ch "f") (with_fmem (opt_mem (GL := demo_globals) opt_demo 220 3) s).
Proof.
  intros s.
  refine (getopt_correct (GL := demo_globals) 100 230 [200; 210; 220] [str "prog"; str "-f"; str "x"] (str "f:v") s 1 (ch "f") 220 3 _ _ _ _).
  - split.
    + by split.
    + intros [|[|[|j]]] p Hj; try done; injection Hj as <-; (split; [apply (bool_decide_unpack _); vm_compute; exact I|lia]).
    + intros [|[|[|j]]] p w Hj Hw; try done; injection Hj as <-; injection Hw as <-;
        (split; [apply (bool_decide_unpack _); vm_compute; exact I|unfold apart_vars; cbn; lia]).
    + split; [apply (bool_decide_unpack _); vm_compute; exact I|]. split; [lia|unfold apart_vars; cbn; lia].
    + unfold apart_vars. cbn. lia.
    + split; [apply mapped_mwrite|]; exact (bytes_at_mapped _ _ _ (bytes_at_mwrite _ _ _)).
  - apply (bool_decide_unpack _); vm_compute; exact I.
  - reflexivity.
  - reflexivity.
Defined.
