(* ===== verification/LDir.v ===== *)
(** * Directory streams of litc.c

    [fdopendir] reads the whole directory twice, to count the entries and to
    copy them behind the [DIR] object; [readdir] walks over the copies. *)

From S2P Require Import Prelude CMem Digits LBase LCtype LString LStrtol LSyscall LAlloc LPrintf LStdio LMisc.
From coqutil Require Import Word.LittleEndianList.

(** The static [_ret] and the local [ret] of [readdir]; [st] and [buf] of
    [fdopendir]. *)
Class DirImage : Type := { readdir_ret : Z; readdir_var : Z; dir_st : Z; dir_buf : Z }.

Definition BSIZE : Z := 4096.
Definition SEEK_SET : Z := 0.
(** [struct dirent]: [d_ino] at 0, [d_name] (14 bytes) at 8; 24 bytes. *)
Definition dirent_size : Z := 24.
Definition _POSIX_NAME_MAX : Z := 14.
(** [DIR]: [fd] at 0, [cent] at 4, [nent] at 8, [dents] from 16 on. *)
Definition DIR_size : Z := 16.
Definition dents (d i : Z) : Z := d + DIR_size + i * dirent_size.

Definition S_IFDIR : Z := 16384.
Definition S_ISDIR (m : Z) : bool := Z.land m S_IFMT =? S_IFDIR.

Section Dir.
Context {K : Type} `{Kernel K} `{Image} `{Globals} `{DirImage}.

(** [struct _dirent64_t] is packed: [inode] at 0, [reclen] at 16, [name] at 19. *)
Definition de_reclen (de : Z) : M (stdio K) Z :=
  a ← om (load8 (de + 16)); b ← om (load8 (de + 17)); mret (uchar a + 256 * uchar b).
Definition de_name (de : Z) : Z := de + 19.

(** [while ((r = getdents64(fd, buf, sizeof(buf))) > 0) ...] with the inner
    loop over the records; [act] is done for a record with a name.  The result
    is the last [r]. *)
Definition dents_pass {A} (fuel : nat) (fd : Z) (act : Z -> A -> M (stdio K) A) (a : A) : M (stdio K) (Z * A) :=
  loop fuel (fun a =>
    r ← onp (getdents64 fd dir_buf BSIZE);
    if r <=? 0 then mret (inr (r, a))
    else
      a ← loop fuel (fun '(i, a) =>
        if i <? r then
          let de := dir_buf + i in
          c ← om (ldc (de_name de));
          a ← (if negb (c =? 0) then act de a else mret a);
          n ← de_reclen de;
          i' ← schk 32 (i + n);
          mret (inl (i', a))
        else mret (inr a)) (0, a);
      mret (inl a)) a.

(** [p->d_ino = de->inode; strncpy(p->d_name, de->name, sizeof(p->d_name)); p++] *)
Definition copy_dirent (de p : Z) : M (stdio K) Z :=
  ino ← om (load64 de);
  _ ← om (store64 p ino);
  _ ← strncpy (p + 8) (de_name de) _POSIX_NAME_MAX;
  mret (p + dirent_size).

Definition fdopendir (fuel : nat) (fd : Z) : M (stdio K) Z :=
  r ← onp (fstat fd dir_st);
  if r =? -1 then mret 0
  else
    mode ← om (load32 (dir_st + st_mode));
    if negb (S_ISDIR mode) then _ ← onp (seterrno ENOTDIR); mret 0
    else
      r ← onp (lseek fd 0 SEEK_SET);
      if r =? -1 then mret 0
      else
        '(r, c) ← dents_pass fuel fd (fun _ c => mret (u64 (c + 1))) 0;
        if r =? -1 then mret 0
        else
          _ ← (if (2 ^ 64 - 1 - DIR_size) / dirent_size <? c then errx_ fuel (-1) (lit "very fat dir") [] else mret tt);
          ret ← onheap (malloc (u64 (DIR_size + c * dirent_size)));
          if ret =? 0 then mret 0
          else
            _ ← om (store32 ret (u32 fd));
            _ ← om (store32 (ret + 8) (u32 c));
            _ ← om (store32 (ret + 4) 0);
            r ← onp (lseek fd 0 SEEK_SET);
            if r =? -1 then _ ← onheap (free ret); mret 0
            else
              '(r, _) ← dents_pass fuel fd copy_dirent (dents ret 0);
              if r =? -1 then _ ← onheap (free ret); mret 0 else mret ret.

Definition opendir (fuel : nat) (path : Z) : M (stdio K) Z :=
  fd ← onp (open path (Z.lor O_RDONLY O_DIRECTORY) noarg);
  if fd =? -1 then mret 0 else fdopendir fuel fd.

Definition closedir (d : Z) : M (stdio K) Z :=
  fd ← om (load32 d);
  _ ← onheap (free d);
  onp (close (s32 fd)).

Definition readdir_r (d entry ret : Z) : M mem Z :=
  cent ← load32 (d + 4);
  nent ← load32 (d + 8);
  if cent =? nent then _ ← store64 ret 0; mret 0
  else
    _ ← store32 (d + 4) (u32 (cent + 1));
    _ ← memcpy entry (dents d cent) dirent_size;
    _ ← store64 ret entry;
    mret 0.

Definition readdir (d : Z) : M mem Z :=
  _ ← readdir_r d readdir_ret readdir_var; load64 readdir_var.

Definition rewinddir (d : Z) : M mem unit := store32 (d + 4) 0.
End Dir.

(** ** Walking over a directory *)

Section Walk.
Context `{DI : DirImage}.

(** A stream over the entries [es] of which [c] have been delivered. *)
Record dir_at (m : mem) (d : Z) (es : list (list byte)) (c : nat) : Prop := DirAt {
  da_cent : bytes_at m (d + 4) (le_split 4 (Z.of_nat c));
  da_nent : bytes_at m (d + 8) (le_split 4 (Z.of_nat (length es)));
  da_dents j e : es !! j = Some e -> length e = Z.to_nat dirent_size /\ bytes_at m (dents d (Z.of_nat j)) e;
  da_range : (c <= length es)%nat /\ Z.of_nat (length es) < 2 ^ 32;
  da_vars : mapped m readdir_ret dirent_size /\ mapped m readdir_var 8
}.

(** The object is apart from the variables of [readdir], and they are apart. *)
Definition dir_apart (d n : Z) : Prop :=
  let e := dents d n in
  (e <= readdir_ret \/ readdir_ret + dirent_size <= d) /\ (e <= readdir_var \/ readdir_var + 8 <= d) /\
  (readdir_ret + dirent_size <= readdir_var \/ readdir_var + 8 <= readdir_ret) /\ 0 < readdir_ret < 2 ^ 64.

Lemma load32_cell m p v : bytes_at m p (le_split 4 v) -> 0 <= v < 2 ^ 32 -> load32 p m = Ret v m.
Proof.
  intros Hb Hv. unfold load32. pose proof (proj2 (mread_bytes_at m p (le_split 4 v)) Hb) as E. rewrite length_le_split in E.
  rewrite E, le_combine_split. f_equal. apply Z.mod_small. cbn. lia.
Qed.

(** Writes that only change [cent] and the variables. *)
Lemma dir_at_vars m d es c p l :
  dir_at m d es c -> dir_apart d (Z.of_nat (length es)) ->
  (p = readdir_ret /\ Z.of_nat (length l) = dirent_size) \/ (p = readdir_var /\ length l = 8%nat) ->
  dir_at (mwrite m p l) d es c.
Proof.
  intros [H1 H2 H3 H4 [H5 H6]] Ha Hp. unfold dir_apart, dents, DIR_size, dirent_size in *. cbv zeta in Ha. split; [| | |done|split; by apply mapped_mwrite].
  - apply bytes_at_mwrite_out; [done|rewrite length_le_split; lia].
  - apply bytes_at_mwrite_out; [done|rewrite length_le_split; lia].
  - intros j e Hj. destruct (H3 j e Hj) as [Hl Hb]. split; [done|]. apply lookup_lt_Some in Hj.
    unfold dents, DIR_size, dirent_size. apply bytes_at_mwrite_out; [done|]. lia.
Qed.

Lemma dir_at_cent m d es c c' :
  dir_at m d es c -> (c' <= length es)%nat -> dir_at (mwrite m (d + 4) (le_split 4 (Z.of_nat c'))) d es c'.
Proof.
  intros [H1 H2 H3 H4 [H5 H6]] Hc. unfold dents, DIR_size, dirent_size in *. split; [| | |lia|split; by apply mapped_mwrite].
  - apply bytes_at_mwrite.
  - apply bytes_at_mwrite_out; [done|rewrite !length_le_split; lia].
  - intros j e Hj. destruct (H3 j e Hj) as [Hl Hb]. split; [done|]. unfold dents, DIR_size, dirent_size.
    apply bytes_at_mwrite_out; [done|rewrite length_le_split; lia].
Qed.

Lemma readdir_ret' m d es c :
  dir_at m d es c -> dir_apart d (Z.of_nat (length es)) ->
  match es !! c with
  | Some e => exists m', readdir d m = Ret readdir_ret m' /\ bytes_at m' readdir_ret e /\ dir_at m' d es (S c)
  | None => exists m', readdir d m = Ret 0 m' /\ dir_at m' d es c
  end.
Proof.
  intros Hd Ha. pose proof Hd as [H1 H2 H3 [Hc Hn] [H5 H6]]. unfold readdir, readdir_r.
  rewrite bind_assoc. mrun (load32_cell m (d + 4) _ H1 ltac:(lia)). rewrite bind_assoc. mrun (load32_cell m (d + 8) _ H2 ltac:(lia)).
  destruct (es !! c) as [e|] eqn:Ee.
  - pose proof (lookup_lt_Some _ _ _ Ee) as Hlt. rewrite (proj2 (Z.eqb_neq _ _)) by lia. destruct (H3 c e Ee) as [Hl Hb].
    assert (mapped m (d + 4) 4) as Hm4.
    { pose proof (bytes_at_mapped _ _ _ H1) as Hm. by rewrite length_le_split in Hm. }
    replace (u32 (Z.of_nat c + 1)) with (Z.of_nat (S c)) by (rewrite uwrap_id; [lia|unfold in_u; lia]).
    rewrite bind_assoc. mrun (store32_ret m (d + 4) (Z.of_nat (S c)) Hm4). pose proof (dir_at_cent m d es c (S c) Hd ltac:(lia)) as D1.
    set (m1 := mwrite m _ _) in *. destruct (da_dents _ _ _ _ D1 c e Ee) as [_ Hb1].
    assert (memcpy readdir_ret (dents d (Z.of_nat c)) dirent_size m1 = Ret readdir_ret (mwrite m1 readdir_ret e)) as Ec.
    { unfold memcpy. replace dirent_size with (Z.of_nat (length e)) by (rewrite Hl; done). apply memmove_ret; [done|].
      rewrite Hl. apply (da_vars _ _ _ _ D1). }
    rewrite bind_assoc. mrun Ec. assert (dir_at (mwrite m1 readdir_ret e) d es (S c)) as D2 by (apply dir_at_vars; [done|done|left; rewrite Hl; done]).
    rewrite bind_assoc. mrun (store64_ret _ readdir_var readdir_ret (proj2 (da_vars _ _ _ _ D2))). rewrite mret_bind. set (m3 := mwrite _ readdir_var _).
    exists m3. split_and!.
    + rewrite (load64_ret m3 readdir_var (le_split 8 readdir_ret)); [|apply length_le_split|apply bytes_at_mwrite].
      rewrite le_combine_split. f_equal. apply Z.mod_small. destruct Ha as (_ & _ & _ & ?). cbn. lia.
    + apply bytes_at_mwrite_out; [apply bytes_at_mwrite|]. destruct Ha as (_ & _ & ? & _). rewrite length_le_split, Hl.
      change (Z.of_nat (Z.to_nat dirent_size)) with dirent_size. lia.
    + apply dir_at_vars; [done|done|right; split; [done|apply length_le_split]].
  - apply lookup_ge_None in Ee. rewrite (proj2 (Z.eqb_eq _ _)) by lia. rewrite bind_assoc. mrun (store64_ret m readdir_var 0 H6). rewrite mret_bind.
    eexists. split.
    + rewrite (load64_ret _ readdir_var (le_split 8 0)); [reflexivity|apply length_le_split|apply bytes_at_mwrite].
    + apply dir_at_vars; [done|done|right; split; [done|apply length_le_split]].
Qed.

(** [readdir] until it returns NULL, with what each entry held when it was
    delivered. *)
Definition read_all (fuel : nat) (d : Z) : M mem (list (list byte)) :=
  loop fuel (fun acc =>
    p ← readdir d;
    if p =? 0 then mret (inr acc)
    else m ← get; match mread m p (Z.to_nat dirent_size) with Some e => mret (inl (acc ++ [e])) | None => ub end) [].

Lemma read_all_ret d es : forall n m c acc,
  dir_at m d es c -> dir_apart d (Z.of_nat (length es)) -> (length es - c < n)%nat ->
  exists m', loop n (fun acc =>
      p ← readdir d;
      if p =? 0 then mret (inr acc)
      else m ← get; match mread m p (Z.to_nat dirent_size) with Some e => mret (inl (acc ++ [e])) | None => ub end) acc m
    = Ret (acc ++ drop c es) m' /\ dir_at m' d es (length es).
Proof.
  induction n as [|n IH]; intros m c acc Hd Ha Hn; [lia|]. rewrite loop_S. pose proof (readdir_ret' m d es c Hd Ha) as Hr.
  destruct (es !! c) as [e|] eqn:Ee.
  - destruct Hr as (m1 & E1 & Hb & D1). mrun E1. destruct Ha as (Ha1 & Ha2 & Ha3 & Ha4). rewrite (proj2 (Z.eqb_neq _ _)) by lia.
    mrun (eq_refl : get m1 = Ret m1 m1). destruct (da_dents _ _ _ _ Hd c e Ee) as [Hl _].
    pose proof (proj2 (mread_bytes_at m1 readdir_ret e) Hb) as Em. rewrite Hl in Em. rewrite Em, mret_ret. pose proof (lookup_lt_Some _ _ _ Ee).
    destruct (IH m1 (S c) (acc ++ [e]) D1) as (m' & E' & D'); [done|lia|]. exists m'. split; [|done]. rewrite E'.
    by rewrite <- app_assoc, (drop_S es e c Ee).
  - destruct Hr as (m1 & E1 & D1). mrun E1. apply lookup_ge_None in Ee. exists m1. rewrite drop_ge, app_nil_r by lia.
    split; [done|]. replace (length es) with c; [done|]. pose proof (da_range _ _ _ _ Hd). lia.
Qed.

(** After [rewinddir], [readdir] delivers every entry of the directory once
    and in order, and then NULL, wherever the stream stood before. *)
Theorem readdir_all m d es c :
  dir_at m d es c -> dir_apart d (Z.of_nat (length es)) ->
  exists m', (_ ← rewinddir d; read_all (S (length es)) d) m = Ret es m' /\ dir_at m' d es (length es).
Proof.
  intros Hd Ha. unfold rewinddir. assert (mapped m (d + 4) 4) as Hm4.
  { pose proof (bytes_at_mapped _ _ _ (da_cent _ _ _ _ Hd)) as Hm. by rewrite length_le_split in Hm. }
  mrun (store32_ret m (d + 4) 0 Hm4). pose proof (dir_at_cent m d es c 0 Hd ltac:(lia)) as D0.
  destruct (read_all_ret d es (S (length es)) _ 0 [] D0 Ha ltac:(lia)) as (m' & E & D'). by exists m'.
Qed.
End Walk.

Definition demo_dir_image : DirImage := {| readdir_ret := 100; readdir_var := 200; dir_st := 300; dir_buf := 8192 |}.
Definition demo_entry (ino : Z) (name : list byte) : list byte :=
  le_split 8 ino ++ name ++ replicate (16 - length name) x00.
Definition demo_dir : mem :=
  mwrite (mwrite (mwrite ∅ 1000 (le_split 4 3 ++ le_split 4 1 ++ le_split 4 2 ++ le_split 4 0 ++
    demo_entry 7 (str "etc") ++ demo_entry 9 (str "bin"))) 100 (replicate 24 x00)) 200 (replicate 8 x00).

Lemma readdir_all_witness :
  exists m', (_ ← rewinddir 1000; read_all (DI := demo_dir_image) 3 1000) demo_dir
      = Ret [demo_entry 7 (str "etc"); demo_entry 9 (str "bin")] m' /\
    dir_at (DI := demo_dir_image) m' 1000 [demo_entry 7 (str "etc"); demo_entry 9 (str "bin")] 2.
Proof.
  refine (readdir_all (DI := demo_dir_image) demo_dir 1000 [demo_entry 7 (str "etc"); demo_entry 9 (str "bin")] 1 _ _).
  - split.
    + apply (bool_decide_unpack _); vm_compute; exact I.
    + apply (bool_decide_unpack _); vm_compute; exact I.
    + intros [|[|j]] e Hj; [injection Hj as <-..|done]; (split; [reflexivity|apply (bool_decide_unpack _); vm_compute; exact I]).
    + split; [cbn; lia|done].
    + split; [apply mapped_mwrite|]; exact (bytes_at_mapped _ _ (replicate _ x00) (bytes_at_mwrite _ _ _)).
  - unfold dir_apart, dents, DIR_size, dirent_size. cbn. lia.
Defined.
