(* ===== verification/LProcess.v ===== *)
(** * Processes and descriptors in litc.c

    The wrappers that print a warning, [execvp], [posix_spawn] with its file
    actions, and [select] on top of [poll]. *)

From S2P Require Import Prelude CMem Digits LBase LCtype LString LStrtol LSyscall LAlloc LPrintf LStdio LMisc.
From coqutil Require Import Word.LittleEndianList.

(** The static [buf] and the local [st] of [_binname], [pfds] of [select], the
    values of [environ] and [_environ]. *)
Class ProcImage : Type := { binname_buf : Z; binname_st : Z; select_pfds : Z; environ : Z; _environ : Z }.

Definition F_GETFL : Z := 1.
Definition F_SETFL : Z := 2.
Definition F_GETFD : Z := 3.
Definition F_SETFD : Z := 4.
Definition F_SETOWN : Z := 7.
Definition SIGKILL : Z := 9.

Section Process.
Context {K : Type} `{Kernel K} `{Image} `{ProcImage}.

Definition chmod (fuel : nat) (path mode : Z) : M (stdio K) Z :=
  _ ← printf fuel (lit "warning: chmod is a no-op\n") []; mret 0.
Definition setsid (fuel : nat) : M (stdio K) Z :=
  _ ← printf fuel (lit "warning: no sessions or process groups yet\n") [];
  r ← onp getpid; mret (s32 r).
Definition sigaction (fuel : nat) (sig act oact : Z) : M (stdio K) Z :=
  _ ← printf fuel (lit "warning: no signals yet\n") []; mret 0.

Definition kill (fuel : nat) (pid sig : Z) : M (stdio K) Z :=
  if negb (sig =? SIGKILL) then
    _ ← printf fuel (lit "%s: kill: only SIGKILL is supported\n") [__progname]; mret (-1)
  else onp (int_nz (SA pid) (SA sig) 0 0 0 SYS_KILL).

(** [fl] is the optional argument, read for all four commands. *)
Definition fcntl (fuel : nat) (fd cmd fl : Z) : M (stdio K) Z :=
  if (cmd =? F_GETFD) || (cmd =? F_SETFD) || (cmd =? F_GETFL) || (cmd =? F_SETFL)
  then onp (int_neg (SA fd) (SA cmd) (SA (s32 fl)) 0 0 SYS_FCNTL)
  else if cmd =? F_SETOWN then _ ← fprintf fuel stderr (lit "warning: F_SETOWN is no-op\n") []; mret 0
  else _ ← errx_ fuel (-1) (lit "no imp") []; ub.

(** [on], an array of 21 pointers. *)
Definition sockopt_name (c : Z) : option string :=
  if c =? 2 then Some "SO_SNDTIMEO" else if c =? 3 then Some "SO_ERROR" else if c =? 4 then Some "SO_TYPE"
  else if c =? 6 then Some "SO_REUSEADDR" else if c =? 7 then Some "SO_KEEPALIVE" else if c =? 8 then Some "SO_LINGER"
  else if c =? 9 then Some "SO_SNDLOWAT" else if c =? 20 then Some "TCP_NODELAY" else None%string.
Definition setsockopt (fuel : nat) (a b c d e : Z) : M (stdio K) Z :=
  if (c <? 0) || (21 <=? c) then ub
  else
    match sockopt_name c with
    | Some n =>
        _ ← onp (seterrno 0);
        _ ← fprintf fuel stderr (lit "warning: setsockopt no-op for %s\n") [lit n];
        mret 0
    | None => r ← onp (long_neg (SA a) (SA b) (SA c) (SA d) (SA e) SYS_SETSOCKOPT); mret (s32 r)
    end.

(** ** Programs *)

Definition _binname (bin : Z) : M (stdio K) Z :=
  slash ← om (strchr bin (ch "/"));
  if negb (slash =? 0) then _ ← onp (snprintf binname_buf 64 (lit "%s") [bin]); mret bin
  else
    _ ← onp (snprintf binname_buf 64 (lit "%s%s") [lit "/bin/"; bin]);
    r ← onp (stat binname_buf binname_st);
    mret (if r =? 0 then binname_buf else 0).

Definition execvp (path argv : Z) : M (stdio K) Z :=
  p ← _binname path;
  if p =? 0 then mret (-1) else onp (execv environ p argv).

(** [posix_spawn_file_actions_t]: ten pairs of [int] and [dup2slot] at 80. *)
Definition actions_size : Z := 84.
Definition slot_from (fa i : Z) : Z := fa + 8 * i.
Definition slot_to (fa i : Z) : Z := fa + 8 * i + 4.
Definition dup2slot (fa : Z) : Z := fa + 80.
Definition ld32 (p : Z) : M mem Z := r ← load32 p; mret (s32 r).

Definition posix_spawn_file_actions_init (fa : Z) : M mem Z := _ ← memset fa 0 actions_size; mret 0.
Definition posix_spawn_file_actions_destroy (fa : Z) : M mem Z := mret 0.

Definition posix_spawn_file_actions_adddup2 (fuel : nat) (fa ofd newfd : Z) : M (stdio K) Z :=
  if (ofd <? 0) || (newfd <? 0) then mret (- EINVAL)
  else
    myslot ← om (ld32 (dup2slot fa));
    n ← schk 32 (myslot + 1);
    _ ← om (store32 (dup2slot fa) (u32 n));
    _ ← (if (myslot <? 0) || (10 <=? myslot) then errx_ fuel (-1) (lit "bad dup2slot: %d") [myslot] else mret tt);
    _ ← om (store32 (slot_from fa myslot) (u32 ofd));
    _ ← om (store32 (slot_to fa myslot) (u32 newfd));
    mret 0.

(** The loop reads [dup2slot] before each round. *)
Definition _posix_dups (fa : Z) : M (proc K) Z :=
  fuel ← onmem scan_fuel;
  loop fuel (fun i =>
    n ← onmem (ld32 (dup2slot fa));
    if i <? n then
      from ← onmem (ld32 (slot_from fa i));
      to ← onmem (ld32 (slot_to fa i));
      ret ← dup2 from to;
      mret (if ret <? 0 then inr ret else inl (i + 1))
    else mret (inr 0)) 0.

Definition posix_spawn (fuel : nat) (pid path fa sa argv envp : Z) : M (stdio K) Z :=
  _ ← (if sa =? 0 then mret tt else errx_ fuel (-1) (lit "spawnattr not supported") []);
  bad ← (if envp =? 0 then mret false
         else if negb (envp =? _environ) then mret true
         else
           e0 ← om (load64 envp);
           if e0 =? 0 then mret true
           else
             c ← om (ldc e0);
             if negb (c =? 0) then mret true
             else e1 ← om (load64 (envp + 8)); mret (negb (e1 =? 0)));
  _ ← (if bad : bool then errx_ fuel (-1) (lit "environ not supported") [] else mret tt);
  p ← onp fork;
  if p <? 0 then mret p
  else
    _ ← (if p =? 0 then
           _ ← (if fa =? 0 then mret tt
                else r ← onp (_posix_dups fa);
                     if negb (r =? 0) then errx_ fuel 127 (lit "posix_spawn dups failed") [] else mret tt);
           _ ← onp (execv environ path argv);
           errx_ fuel 127 (lit "posix_spawn exec failed") []
         else mret tt);
    _ ← (if pid =? 0 then mret tt else om (store32 pid (u32 p)));
    mret 0.

(** ** [select] *)

Definition POLLIN : Z := 3.
Definition POLLOUT : Z := 8.
Definition POLLERR : Z := 32.
Definition POLLHUP : Z := 64.
Definition POLLNVAL : Z := 128.
Definition fd_set_size : Z := 128.

Definition FD_ISSET (n ft : Z) : M mem bool :=
  w ← load64 (ft + 8 * (n / 64)); mret (Z.testbit w (n mod 64)).
Definition FD_SET (n ft : Z) : M mem unit :=
  w ← load64 (ft + 8 * (n / 64)); store64 (ft + 8 * (n / 64)) (Z.setbit w (n mod 64)).
Definition FD_ZERO (ft : Z) : M mem unit := _ ← memset ft 0 fd_set_size; mret tt.
Definition _fdisset (fd fds : Z) : M mem bool := if fds =? 0 then mret false else FD_ISSET fd fds.

(** A member of [pfds]: [fd] at 0, [events] at 4, [revents] at 6. *)
Definition load16 (p : Z) : M mem Z := a ← load8 p; b ← load8 (p + 1); mret (uchar a + 256 * uchar b).
Definition store16 (p v : Z) : M mem unit := _ ← store8 p (byte.of_Z v); store8 (p + 1) (byte.of_Z (Z.shiftr v 8)).
Definition pfd (i : Z) : Z := select_pfds + 8 * i.

(** The events asked for. *)
Definition events_of (r w e : bool) : Z :=
  let ev := if r then POLLIN else 0 in
  let ev := if w then Z.lor ev POLLOUT else ev in
  if e then Z.lor ev POLLERR else ev.

(** The first two loops: the descriptors in a set, as members of [pfds]. *)
Definition select_count (maxfd rfds wfds efds : Z) : M mem Z :=
  loop (S (Z.to_nat maxfd)) (fun '(i, n) =>
    if i <? maxfd then
      r ← _fdisset i rfds;
      any ← (if r : bool then mret true else w ← _fdisset i wfds; if w : bool then mret true else _fdisset i efds);
      mret (inl (i + 1, if any : bool then n + 1 else n))
    else mret (inr n)) (0, 0).
Definition select_fill (maxfd rfds wfds efds : Z) : M mem unit :=
  loop (S (Z.to_nat maxfd)) (fun '(i, curp) =>
    if i <? maxfd then
      r ← _fdisset i rfds; w ← _fdisset i wfds; e ← _fdisset i efds;
      if negb ((r : bool) || (w : bool) || (e : bool)) then mret (inl (i + 1, curp))
      else
        _ ← store32 (pfd curp) (u32 i);
        _ ← store16 (pfd curp + 4) (events_of r w e);
        mret (inl (i + 1, curp + 1))
    else mret (inr tt)) (0, 0).

(** [_PTOS(pf, fds)] *)
Definition _PTOS (i pf fds selret : Z) : M mem Z :=
  re ← load16 (pfd i + 6);
  ev ← load16 (pfd i + 4);
  if negb (Z.land re pf =? 0) && negb (Z.land ev pf =? 0)
  then fd ← ld32 (pfd i); _ ← FD_SET fd fds; mret (selret + 1) else mret selret.

(** The last loop; [None] for the error return. *)
Definition select_result (nfds rfds wfds efds : Z) : M mem (option Z) :=
  loop (S (Z.to_nat nfds)) (fun '(i, selret) =>
    if i <? nfds then
      ev ← load16 (pfd i + 4);
      if negb (Z.land ev POLLNVAL =? 0) then mret (inr None)
      else
        n ← _PTOS i POLLIN rfds selret;
        n ← _PTOS i POLLHUP rfds n;
        n ← _PTOS i POLLOUT wfds n;
        n ← _PTOS i POLLERR efds n;
        mret (inl (i + 1, n))
    else mret (inr (Some selret))) (0, 0).

Definition select (maxfd rfds wfds efds timeout : Z) : M (stdio K) Z :=
  nfds ← om (select_count maxfd rfds wfds efds);
  _ ← om (select_fill maxfd rfds wfds efds);
  toms ← (if timeout =? 0 then mret (-1)
          else
            sec ← om (load64 timeout); usec ← om (load64 (timeout + 8));
            t ← schk 64 (s64 sec * 1000); t ← schk 64 (t + Z.quot (s64 usec) 1000);
            mret (s32 t));
  let zero f := if f =? 0 then mret tt else om (FD_ZERO f) in
  _ ← zero rfds; _ ← zero wfds; _ ← zero efds;
  ret ← onp (poll select_pfds nfds toms);
  if ret <=? 0 then mret ret
  else
    r ← om (select_result nfds rfds wfds efds);
    match r with
    | None => _ ← onp (seterrno EINVAL); mret (-1)
    | Some n => mret n
    end.
End Process.

(** [select] asks for neither [POLLHUP] nor [POLLNVAL], so that the tests of
    [events] for them in its last loop never hold: a hang-up is not reported as
    readable and an invalid descriptor is not an error. *)
Lemma select_no_hangup r w e :
  Z.land (events_of r w e) POLLHUP = 0 /\ Z.land (events_of r w e) POLLNVAL = 0.
Proof. by destruct r, w, e. Qed.

(** ** File actions

    The object represents a list of pairs. *)
Definition cell32 (m : mem) (p v : Z) : Prop := bytes_at m p (le_split 4 v).

Record actions_at (m : mem) (fa : Z) (l : list (Z * Z)) : Prop := ActionsAt {
  ac_slots i f t : l !! i = Some (f, t) ->
    cell32 m (slot_from fa (Z.of_nat i)) f /\ cell32 m (slot_to fa (Z.of_nat i)) t /\ 0 <= f < 2 ^ 31 /\ 0 <= t < 2 ^ 31;
  ac_count : cell32 m (dup2slot fa) (Z.of_nat (length l));
  ac_len : (length l <= 10)%nat;
  ac_mapped : mapped m fa actions_size
}.

Lemma ld32_ret m p v : cell32 m p v -> 0 <= v < 2 ^ 31 -> ld32 p m = Ret v m.
Proof.
  intros Hb Hv. unfold ld32, load32. pose proof (proj2 (mread_bytes_at m p (le_split 4 v)) Hb) as E. rewrite length_le_split in E.
  munfold. rewrite E, le_combine_split. f_equal. rewrite Z.mod_small by (cbn; lia). apply swrap_id; unfold_int; lia.
Qed.

(** The duplications of a list, in order, up to the first that fails. *)
Fixpoint dup_all {K} `{Kernel K} (l : list (Z * Z)) : M (proc K) Z :=
  match l with
  | [] => mret 0
  | (f, t) :: l => ret ← dup2 f t; if ret <? 0 then mret ret else dup_all l
  end.

(** [dup2] does not change the memory of the process. *)
Definition dup2_quiet {K} `{Kernel K} : Prop :=
  forall f t m k r m' k', ktrap SYS_DUP2 (trap_args karch (SA f) (SA t) 0 0 0 0) m k = Some (r, m', k') -> m' = m.

Section Actions.
Context {K : Type} `{KA : Kernel K} `{IM : Image}.

Lemma init_ret m fa : mapped m fa actions_size ->
  exists m', posix_spawn_file_actions_init fa m = Ret 0 m' /\ actions_at m' fa [].
Proof.
  intros Hm. unfold posix_spawn_file_actions_init. change actions_size with (Z.of_nat 84). mrun (memset_ret m fa 0 84 Hm).
  eexists. split; [done|]. split; [done| |cbn; lia|by apply mapped_mwrite].
  unfold cell32, dup2slot. change (byte.of_Z 0) with x00. change (replicate 84 x00) with (replicate 80 x00 ++ replicate 4 x00).
  pose proof (bytes_at_mwrite m fa (replicate 80 x00 ++ replicate 4 x00)) as Hb. by apply bytes_at_app in Hb as [_ Hb].
Qed.

Lemma cell32_out m p v q w : cell32 m p v -> p + 4 <= q \/ q + 4 <= p -> cell32 (mwrite m q (le_split 4 w)) p v.
Proof. intros H Hd. apply bytes_at_mwrite_out; [done|rewrite !length_le_split; lia]. Qed.

Lemma u32_nonneg v : 0 <= v < 2 ^ 31 -> u32 v = v.
Proof. intros. apply uwrap_id. unfold_int. lia. Qed.

Lemma adddup2_ret fuel fa f t l (s : stdio K) :
  actions_at (fmem s) fa l -> (length l < 10)%nat -> 0 <= f < 2 ^ 31 -> 0 <= t < 2 ^ 31 ->
  exists m', posix_spawn_file_actions_adddup2 fuel fa f t s = Ret 0 (with_fmem m' s) /\ actions_at m' fa (l ++ [(f, t)]).
Proof.
  intros [Hs Hc _ Hm] Hl Hf Ht. unfold posix_spawn_file_actions_adddup2, actions_size in *.
  rewrite (proj2 (Z.ltb_ge f 0)), (proj2 (Z.ltb_ge t 0)) by lia. cbn [orb].
  mrun (om_pure _ s _ (ld32_ret _ _ _ Hc ltac:(lia))). set (n := Z.of_nat (length l)) in *.
  assert (in_s 32 (n + 1)) as Hr by (unfold_int; lia). rewrite (bind_ret _ _ _ _ _ (schk_ret 32 _ _ Hr)).
  assert (forall m q, mapped m fa 84 -> fa <= q -> q + 4 <= fa + 84 -> mapped m q 4) as Hq.
  { intros m q H0 H1 H2. eapply mapped_le; [exact H0|lia|lia]. }
  rewrite !u32_nonneg by lia. unfold dup2slot, slot_from, slot_to in *. set (m := fmem s) in *.
  mrun (om_ret _ s _ _ (store32_ret m (fa + 80) (n + 1) ltac:(apply Hq; [done|lia|lia]))). set (m1 := mwrite m _ _).
  rewrite (proj2 (Z.ltb_ge n 0)), (proj2 (Z.leb_gt 10 n)) by lia. cbn [orb]. rewrite mret_bind. cbn beta.
  assert (mapped m1 fa 84) as Hm1 by by apply mapped_mwrite.
  mrun (om_ret _ (with_fmem m1 s) _ _ (store32_ret m1 (fa + 8 * n) f ltac:(apply Hq; [done|lia|lia]))). set (m2 := mwrite m1 _ _).
  assert (mapped m2 fa 84) as Hm2 by by apply mapped_mwrite.
  mrun (om_ret _ (with_fmem m2 s) _ _ (store32_ret m2 (fa + 8 * n + 4) t ltac:(apply Hq; [done|lia|lia]))). set (m3 := mwrite m2 _ _).
  exists m3. split; [done|]. split; [| |rewrite length_app; cbn; lia|by apply mapped_mwrite].
  - intros i f' t' Hi. apply lookup_app_Some in Hi as [Hi|[Hge Hi]].
    + destruct (Hs i f' t' Hi) as (H1 & H2 & H3 & H4). apply lookup_lt_Some in Hi. unfold slot_from, slot_to.
      split_and!; try lia; do 3 (apply cell32_out; [|lia]); done.
    + apply list_lookup_singleton_Some in Hi as [Hi [= <- <-]]. replace i with (length l) by lia. fold n. unfold slot_from, slot_to.
      split_and!; try lia; [apply cell32_out; [|lia]|]; apply bytes_at_mwrite.
  - unfold dup2slot. rewrite length_app. cbn [length]. replace (Z.of_nat (length l + 1)) with (n + 1) by lia.
    do 2 (apply cell32_out; [|lia]). apply bytes_at_mwrite.
Qed.

Lemma dup2_mem f t (p p' : proc K) r : dup2_quiet -> dup2 f t p = Ret r p' -> p_mem p' = p_mem p.
Proof.
  intros Hq E. unfold dup2, int_neg in E. apply bind_inv in E as (r0 & p1 & E1 & E2).
  unfold syscall, syscall6 in E1. destruct (ktrap _ _ _ _) as [[[r1 m'] k']|] eqn:Et; [|done]. injection E1 as _ <-.
  apply Hq in Et as ->. unfold ERRNO_NEG in E2. destruct (_ <? 0); [|by injection E2 as _ <-].
  apply bind_inv in E2 as ([] & p2 & E2 & E3). injection E3 as _ <-. unfold neg_errno in E2. apply bind_inv in E2 as (e & p3 & E4 & E5).
  injection E5 as <-. unfold schk in E4. by destruct (_ && _); [injection E4 as _ <-|].
Qed.

Lemma posix_dups_ret fa l (p : proc K) :
  actions_at (p_mem p) fa l -> dup2_quiet -> _posix_dups fa p = dup_all l p.
Proof.
  intros Ha Hq. unfold _posix_dups. mrun (onmem_pure _ p _ (scan_fuel_ret (p_mem p))). loop_body B.
  assert (84 <= size (p_mem p))%nat as Hsz by (apply (mapped_size (p_mem p) fa 84); apply Ha).
  pose proof (ac_len _ _ _ Ha) as Hlen.
  enough (forall k n i (p : proc K), actions_at (p_mem p) fa l -> (length l - i = k)%nat -> (i <= length l)%nat -> (k < n)%nat ->
    loop n B (Z.of_nat i) p = dup_all (drop i l) p) as G by exact (G (length l) (S (size (p_mem p))) 0%nat p Ha ltac:(lia) ltac:(lia) ltac:(lia)).
  clear p Ha Hsz. induction k as [|k IH]; intros [|n] i p Ha Hk Hi Hn; try lia; rewrite loop_S; unfold B at 1;
    mrun (onmem_pure _ p _ (ld32_ret _ _ _ (ac_count _ _ _ Ha) ltac:(lia))).
  - rewrite (proj2 (Z.ltb_ge _ _)) by lia. rewrite drop_ge by lia. done.
  - rewrite (proj2 (Z.ltb_lt _ _)) by lia. destruct (lookup_lt_is_Some_2 l i) as [[f t] Hft]; [lia|].
    destruct (ac_slots _ _ _ Ha i f t Hft) as (H1 & H2 & H3 & H4). mrun (onmem_pure _ p _ (ld32_ret _ _ _ H1 H3)).
    mrun (onmem_pure _ p _ (ld32_ret _ _ _ H2 H4)). rewrite (drop_S l (f, t) i Hft). cbn [dup_all]. unfold mbind, M_bind.
    destruct (dup2 f t p) as [r p'| | |] eqn:Ed; [|done..]. rewrite mret_ret.
    destruct (r <? 0); [done|]. replace (Z.of_nat i + 1) with (Z.of_nat (S i)) by lia.
    apply IH; [|lia..]. by rewrite (dup2_mem f t p p' r Hq Ed).
Qed.

(** Actions added one after the other. *)
Fixpoint add_all (fuel : nat) (fa : Z) (l : list (Z * Z)) : M (stdio K) Z :=
  match l with
  | [] => mret 0
  | (f, t) :: l => r ← posix_spawn_file_actions_adddup2 fuel fa f t; if r =? 0 then add_all fuel fa l else mret r
  end.

Lemma add_all_ret fuel fa : forall l l0 (s : stdio K),
  actions_at (fmem s) fa l0 -> (length l0 + length l <= 10)%nat ->
  Forall (fun x => 0 <= x.1 < 2 ^ 31 /\ 0 <= x.2 < 2 ^ 31) l ->
  exists m', add_all fuel fa l s = Ret 0 (with_fmem m' s) /\ actions_at m' fa (l0 ++ l).
Proof.
  induction l as [|[f t] l IH]; intros l0 s Ha Hl Hr; cbn [add_all length] in *.
  - exists (fmem s). rewrite with_fmem_id, app_nil_r. done.
  - apply List.Forall_cons_iff in Hr as [[Hf Ht] Hr].
    destruct (adddup2_ret fuel fa f t l0 s Ha ltac:(lia) Hf Ht) as (m1 & E1 & A1). mrun E1.
    destruct (IH (l0 ++ [(f, t)]) (with_fmem m1 s) A1) as (m' & E' & A'); [rewrite length_app; cbn; lia|done|].
    exists m'. split; [exact E'|]. by rewrite <- app_assoc in A'.
Qed.

(** The file actions of [posix_spawn] are a list: actions added to a fresh
    object (up to the ten that it holds) are carried out by [_posix_dups] in
    that order, up to the first that fails. *)
Theorem spawn_actions_refine fuel fa l (s : stdio K) :
  mapped (fmem s) fa actions_size -> (length l <= 10)%nat ->
  Forall (fun x => 0 <= x.1 < 2 ^ 31 /\ 0 <= x.2 < 2 ^ 31) l -> dup2_quiet ->
  exists m', (_ ← om (posix_spawn_file_actions_init fa); add_all fuel fa l) s = Ret 0 (with_fmem m' s) /\
    forall p : proc K, p_mem p = m' -> _posix_dups fa p = dup_all l p.
Proof.
  intros Hm Hl Hr Hq. destruct (init_ret (fmem s) fa Hm) as (m0 & E0 & A0). mrun (om_ret _ s _ _ E0).
  destruct (add_all_ret fuel fa l [] (with_fmem m0 s) A0 Hl Hr) as (m' & E' & A'). exists m'. split; [exact E'|].
  intros p <-. by apply posix_dups_ret.
Qed.
End Actions.

Lemma spawn_actions_refine_witness :
  let s : stdio unit := Stdio (Heap (demo_proc (mwrite ∅ 100 (replicate 84 x01))) ∅ 0 0 0 0 0) ∅ 0 0 in
  exists m', (_ ← om (posix_spawn_file_actions_init 100); add_all (IM := demo_image) 0 100 [(3, 0); (4, 1)]) s = Ret 0 (with_fmem m' s) /\
    forall p : proc unit, p_mem p = m' -> _posix_dups 100 p = dup_all [(3, 0); (4, 1)] p.
Proof.
  intros s. refine (spawn_actions_refine (IM := demo_image) 0 100 [(3, 0); (4, 1)] s _ _ _ _).
  - exact (bytes_at_mapped _ 100 (replicate 84 x01) (bytes_at_mwrite _ _ _)).
  - cbn. lia.
  - repeat constructor; cbn; lia.
  - intros f t m k r m' k' E. cbn in E. congruence.
Defined.
