(* ===== verification/LThread.v ===== *)
(** * Threads of litc.c: [pthread_create], the start of a new thread, [pthread_join]

    [pthread_create] combines the allocator, a mapping for the stack and the
    trap that starts the thread; every error exit has to give back what was
    acquired so far, and the new thread gives back the rest when it ends.  The
    traps of [tfork_thread] and [_pcreate] are inline assembly that loads only
    some of the argument registers; what the others hold is a parameter.  The
    trap returns once in the parent and, with zero, once in the new thread: a
    function describes the thread that the trap returns to. *)

From S2P Require Import Prelude CMem LBase LString LSyscall DList LAlloc LMisc.
From coqutil Require Import Word.LittleEndianList.

Definition FORK_THREAD : Z := 2.
Definition _PTHREAD_DEFSTKSZ : Z := 4096.

(** The local variables [tf] and [tid] of [pthread_create], and [status] of
    [_pcreate], which is in memory on aarch64. *)
Class ThreadImage : Type := { thr_tf : Z; thr_tid : Z; thr_status : Z }.

(** A struct whose fields are 64-bit words. *)
Fixpoint store_words (p : Z) (l : list Z) : M mem unit :=
  match l with
  | [] => mret tt
  | v :: l => _ ← store64 p v; store_words (p + 8) l
  end.

Fixpoint load_words (p : Z) (n : nat) : M mem (list Z) :=
  match n with
  | O => mret []
  | S n => v ← load64 p; l ← load_words (p + 8) n; mret (v :: l)
  end.

Section Thread.
Context {K : Type} `{Kernel K} `{Globals} `{ThreadImage}.
(** The other argument registers of a trap. *)
Context (regs : list Z).
(** A call through a function pointer, with its argument. *)
Context (call : Z -> Z -> M (heap K) Z).

Definition trap (n : Z) (args : list Z) : M (proc K) Z := fun p =>
  match ktrap n (args ++ regs) (p_mem p) (p_kern p) with
  | Some (r, m, k) => Ret (s64 r) (Proc m (p_errno p) k)
  | None => Halt (nth 0 args 0) p
  end.

(** [cmpl $0, %eax] looks at 32 bits, [cmp x0, #0] at 64. *)
Definition tfork_child (r : Z) : bool :=
  match karch with x86_64 => s32 r =? 0 | aarch64 => r =? 0 end.

Definition tfork_thread (args : Z) (fn : Z -> M (heap K) Z) (fnarg : Z) : M (heap K) Z :=
  r ← onproc (trap SYS_FORK [SA args; FORK_THREAD]);
  if tfork_child r then status ← fn fnarg; _ ← onproc (tfork_done status); ub
  else mret (s32 r).

(** [struct pcargs_t]: [fn], [arg], [stack], [tls], [stksz]. *)
Definition pcargs_size : Z := 40.

(** The end of a thread, after its function has returned.  A trap that returns
    is followed by a store to address 0 or 1. *)
Definition thread_exit (stack tls stksz status : Z) : M (heap K) Z :=
  _ ← (match karch with x86_64 => mret tt | aarch64 => onproc (onmem (store64 thr_status (u64 status))) end);
  _ ← free tls;
  r ← onproc (trap SYS_MUNMAP [SA stack; SA stksz]);
  if negb (r =? 0) then ub
  else
    status ← (match karch with x86_64 => mret status | aarch64 => st ← onproc (onmem (load64 thr_status)); mret (s64 st) end);
    _ ← onproc (trap SYS_THREXIT [status; SA stksz]);
    ub.

Definition _pcreate (vpcarg : Z) : M (heap K) Z :=
  pcargs ← onproc (onmem (load_words vpcarg 5));
  let fn := nth 0 pcargs 0 in let arg := nth 1 pcargs 0 in
  let stack := nth 2 pcargs 0 in let tls := nth 3 pcargs 0 in let stksz := nth 4 pcargs 0 in
  _ ← free vpcarg;
  _ ← onproc (syscall 4098 (SA tls) 0 0 0 158);
  status ← call fn arg;
  thread_exit stack tls stksz status.

(** The thread's local storage: a pointer to the end of a copy of
    [kinfo->freshtls]; 0 when there is no memory. *)
Definition make_tls : M (heap K) Z :=
  if kinfo =? 0 then onproc (errx (-1))
  else
    len ← onproc (onmem (load64 (kinfo + 8)));
    newtls ← malloc (u64 (len + 8));
    if newtls =? 0 then mret 0
    else
      freshtls ← onproc (onmem (load64 kinfo));
      len ← onproc (onmem (load64 (kinfo + 8)));
      _ ← onproc (onmem (memmove (newtls + 8) freshtls len));
      len ← onproc (onmem (load64 (kinfo + 8)));
      _ ← onproc (onmem (store64 newtls (newtls + 8 + len)));
      mret newtls.

Definition stack_size (attrs : Z) : M (heap K) Z :=
  if attrs =? 0 then mret _PTHREAD_DEFSTKSZ
  else
    stksz ← onproc (onmem (load64 attrs));
    if 1024 * 1024 * 128 <? stksz then onproc (errx (-1))
    else if negb (stksz mod 4096 =? 0) then onproc (errx (-1))
    else mret stksz.

(** From the second allocation on; the labels [both], [errstack] and [tls]. *)
Definition launch (t fn arg newtls stksz stack : Z) : M (heap K) Z :=
  pca ← malloc pcargs_size;
  if pca =? 0 then
    _ ← onproc (munmap (stack - stksz) stksz);
    _ ← free newtls;
    mret ENOMEM
  else
    _ ← onproc (onmem (store_words pca [fn; arg; stack - stksz; newtls; stksz]));
    ret ← tfork_thread thr_tf _pcreate pca;
    if ret <? 0 then
      ret ← schk 32 (- ret);
      _ ← free pca;
      _ ← onproc (munmap (stack - stksz) stksz);
      _ ← free newtls;
      mret ret
    else
      tid ← onproc (onmem (load64 thr_tid));
      _ ← onproc (onmem (store64 t tid));
      mret 0.

(** From the stack on. *)
Definition start_thread (t fn arg newtls stksz : Z) : M (heap K) Z :=
  stack ← onproc (mkstack stksz);
  if stack =? 0 then _ ← free newtls; mret ENOMEM
  else
    _ ← onproc (onmem (store_words thr_tf [newtls; thr_tid; stack]));
    launch t fn arg newtls stksz stack.

Definition pthread_create (t attrs fn arg : Z) : M (heap K) Z :=
  newtls ← make_tls;
  if newtls =? 0 then mret ENOMEM
  else
    stksz ← stack_size attrs;
    start_thread t fn arg newtls stksz.

(** [pthread_attr_t] has the one field [stacksize]. *)
Definition pthread_attr_init (a : Z) : M (proc K) Z :=
  _ ← onmem (memset a 0 8);
  _ ← onmem (store64 a _PTHREAD_DEFSTKSZ);
  mret 0.
Definition pthread_attr_getstacksize (a sz : Z) : M (proc K) Z :=
  v ← onmem (load64 a);
  _ ← onmem (store64 sz v);
  mret 0.
Definition pthread_attr_setstacksize (a sz : Z) : M (proc K) Z :=
  _ ← onmem (store64 a sz);
  mret 0.

Definition pthread_join (t retval : Z) : M (proc K) Z :=
  ret ← thrwait (s32 t) retval;
  if ret <? 0 then schk 32 (- ret) else mret 0.
End Thread.

(** ** Words *)

Definition words (l : list Z) : list byte := concat (le_split 8 <$> l).

Lemma words_length l : length (words l) = (8 * length l)%nat.
Proof. unfold words. induction l as [|v l IH]; [done|]. cbn. rewrite length_app, length_le_split, IH. lia. Qed.

Lemma store_words_ret m p l :
  mapped m p (8 * Z.of_nat (length l)) -> store_words p l m = Ret tt (mwrite m p (words l)).
Proof.
  revert m p. induction l as [|v l IH]; intros m p Hm; [done|]. cbn [length] in Hm. cbn [store_words].
  mrun (store64_ret m p v ltac:(eapply mapped_le; [exact Hm|lia..])).
  rewrite IH by (apply mapped_mwrite; eapply mapped_le; [exact Hm|lia..]).
  unfold words. cbn. rewrite (mwrite_app' _ _ (le_split 8 v)), length_le_split. done.
Qed.

Lemma load_word_ret m p v : in_u 64 v -> bytes_at m p (le_split 8 v) -> load64 p m = Ret v m.
Proof.
  intros Hv Hb. rewrite (load64_ret m p (le_split 8 v)) by (done || apply length_le_split).
  rewrite le_combine_split. f_equal. by apply Z.mod_small.
Qed.

Lemma load_words_ret m p l :
  Forall (in_u 64) l -> bytes_at m p (words l) -> load_words p (length l) m = Ret l m.
Proof.
  revert p. induction l as [|v l IH]; intros p Hl Hb; [done|]. cbn [load_words length].
  apply List.Forall_cons_iff in Hl as [Hv Hl]. unfold words in Hb. cbn in Hb.
  apply (bytes_at_app _ _ (le_split 8 v)) in Hb as [H1 H2]. rewrite length_le_split in H2.
  mrun (load_word_ret m p v Hv H1). mrun (IH _ Hl H2). done.
Qed.

(** ** What thread creation relies on

    The trap that starts a thread fails with an error number; or stores the new
    thread's number where [tf_tid] points and starts the thread with the given
    local storage and stack; or, as [sys_fork] of kernel/src/syscall/proc.rs does,
    ignores its arguments, forks the process and stores nothing.  [kthreads] are
    the threads started and [kforked] the processes.  [arch_prctl] changes no
    memory, and the exit of a thread does not return. *)
Class ThreadKernel (K : Type) `{MapKernel K} : Type := {
  kthreads : K -> list (Z * Z * Z);
  kforked : K -> list Z;
  kmaps_threads k k' : kmaps k k' -> kthreads k' = kthreads k /\ kforked k' = kforked k;
  kfork m k a regs tcb tp stk :
    Forall (in_u 64) [tcb; tp; stk] -> bytes_at m a (words [tcb; tp; stk]) -> mapped m tp 8 ->
    exists r m' k', ktrap SYS_FORK (a :: FORK_THREAD :: regs) m k = Some (r, m', k') /\
      ((- ERRNO_LAST <= r <= - ERRNO_FIRST /\ m' = m /\ kmaps k k') \/
       (0 < r < 2 ^ 31 /\
        ((m' = mwrite m tp (le_split 8 r) /\ kthreads k' = (r, tcb, stk) :: kthreads k /\ kforked k' = kforked k) \/
         (m' = m /\ kthreads k' = kthreads k /\ kforked k' = r :: kforked k))));
  kprctl m k tls :
    exists r k', ktrap 158 (trap_args karch 4098 tls 0 0 0 0) m k = Some (r, m, k') /\ kmaps k k';
  kmunmap_regs m k a len regs :
    0 < a -> a mod 4096 = 0 -> 0 < len -> len mod 4096 = 0 -> a + len <= 2 ^ 47 -> mapped m a len ->
    exists k', ktrap SYS_MUNMAP (a :: len :: regs) m k = Some (0, unmapped m a len, k') /\ kmaps k k';
  kthrexit m k st regs : ktrap SYS_THREXIT (st :: regs) m k = None
}.

(** ** Memory around the heap *)

(** [R] is memory outside the heap that is new; the bytes of [X] may change. *)
Record stays {K} (live : gmap Z Z) (X R : Z -> Prop) (s s' : heap K) : Prop := Stays {
  st_live p n a : live !! p = Some n -> p <= a < p + n -> ~ X a -> hmem s' !! a = hmem s !! a;
  st_out a : is_Some (hmem s !! a) -> outside (hdrs s) a ->
    is_Some (hmem s' !! a) /\ outside (hdrs s') a /\ (~ X a -> hmem s' !! a = hmem s !! a);
  st_new a : is_Some (hmem s' !! a) -> outside (hdrs s') a ->
    R a \/ (is_Some (hmem s !! a) /\ outside (hdrs s) a)
}.

(** An address that the allocator leaves to the program. *)
Definition safe {K} (s : heap K) (live : gmap Z Z) (a : Z) : Prop :=
  is_Some (hmem s !! a) /\ (outside (hdrs s) a \/ exists p n, live !! p = Some n /\ p <= a < p + n).

Definition none (a : Z) : Prop := False.
Definition within (p n a : Z) : Prop := p <= a < p + n.

Section Around.
Context {K : Type} {KK : Kernel K} {MK : MapKernel K}.
Implicit Types (s : heap K) (live : gmap Z Z).

Lemma keeps_stays s s' live X R : keeps s s' live -> stays live X R s s'.
Proof.
  intros (L & O & _ & N). split.
  - intros p n a Hp Ha _. by apply (L p n).
  - intros a Hm Ho. destruct (O a Hm Ho) as [E ?]. rewrite E. done.
  - intros a Hm Ho. right. by apply N.
Qed.

Lemma stays_trans live X R s s1 s2 : stays live X R s s1 -> stays live X R s1 s2 -> stays live X R s s2.
Proof.
  intros [L1 O1 N1] [L2 O2 N2]. split.
  - intros p n a Hp Ha Hx. rewrite (L2 p n a), (L1 p n a); done.
  - intros a Hm Ho. destruct (O1 a Hm Ho) as (Hm1 & Ho1 & E1). destruct (O2 a Hm1 Ho1) as (? & ? & E2).
    split_and!; [done..|]. intros Hx. rewrite E2, E1; done.
  - intros a Hm Ho. destruct (N2 a Hm Ho) as [|[Hm1 Ho1]]; [by left|by apply N1].
Qed.

Lemma stays_mono live live' X R (R' : Z -> Prop) s s' :
  stays live X R s s' -> live' ⊆ live -> (forall a, R a -> R' a) -> stays live' X R' s s'.
Proof.
  intros [L O N] Hl HR. split; [|done|].
  - intros p n a Hp. apply (L p n). by eapply lookup_weaken.
  - intros a Hm Ho. destruct (N a Hm Ho); auto.
Qed.

(** A write to mapped bytes. *)
Lemma mwrite_stays s live (X R : Z -> Prop) p l :
  mapped (hmem s) p (Z.of_nat (length l)) ->
  (forall a, within p (Z.of_nat (length l)) a -> safe s live a -> X a) ->
  stays live X R s (with_mem (mwrite (hmem s) p l) s).
Proof.
  intros Hm HX. destruct (mwrite_maps (MK := MK) s p l Hm) as [_ N].
  assert (forall a, safe s live a -> ~ X a -> mwrite (hmem s) p l !! a = hmem s !! a) as E.
  { intros a Hs Hx. rewrite mwrite_lookup. case_decide; [|done]. by destruct Hx; apply HX. }
  assert (forall a, is_Some (hmem s !! a) -> is_Some (mwrite (hmem s) p l !! a)) as Hd.
  { intros a Ha. rewrite mwrite_lookup. case_decide; [|done]. apply lookup_lt_is_Some. lia. }
  split.
  - intros q n a Hq Ha Hx. destruct (hmem s !! a) eqn:Ea.
    + rewrite <- Ea. apply E; [|done]. split; [eauto|right; eauto].
    + change (mwrite (hmem s) p l !! a = None). rewrite mwrite_lookup. case_decide as Hin; [|done].
      destruct (Hm a Hin). congruence.
  - intros a Ha Ho. split_and!; [by apply Hd|done|]. intros Hx. apply E; [|done]. split; [done|by left].
  - intros a Ha Ho. right. by apply N.
Qed.

(** What is safe stays so as long as the objects are held. *)
Lemma safe_stays s s' live live' X R a :
  stays live X R s s' -> heap_ok s' live' -> live ⊆ live' -> safe s live a -> safe s' live a.
Proof.
  intros Hst Hok Hl [Hm [Ho|(p & n & Hp & Ha)]].
  - destruct (st_out _ _ _ _ _ Hst a Hm Ho) as (? & ? & _). split; [done|by left].
  - split; [|right; eauto]. destruct (live_seg _ _ _ _ Hok (lookup_weaken _ _ _ _ Hp Hl)) as (b & h & Hb & H1 & H2 & _).
    apply (seg_mapped _ _ _ _ (wf_seg (proj1 Hok) Hb)). lia.
Qed.

(** A new object is away from everything safe. *)
Lemma safe_fresh s live r n a :
  heap_ok s (<[r := n]> live) -> live !! r = None -> safe s live a -> ~ within r n a.
Proof.
  intros Hok Hr [_ [Ho|(p & k & Hp & Ha)]] Hin.
  - by apply (outside_live _ _ r n a Hok (lookup_insert_eq _ _ _) Ho).
  - destruct (fresh_block _ _ _ _ Hok Hr) as (_ & _ & Hd). unfold within in Hin. destruct (Hd p k Hp); lia.
Qed.

(** ** The stack *)

Record stack_at s (base n : Z) : Prop := StackAt {
  sk_pos : 0 < base;
  sk_align : base mod 4096 = 0;
  sk_top : base + n <= 2 ^ 47;
  sk_mapped : mapped (hmem s) base n;
  sk_outside a : within base n a -> outside (hdrs s) a
}.

Definition stack_len (n : Z) : Prop := 0 < n <= 1024 * 1024 * 128 /\ n mod 4096 = 0.

(** The heap does not depend on memory outside it. *)
Lemma heap_ok_outside s live p :
  (forall a h b, hdrs s !! a = Some h -> a <= b < h_end h -> is_Some (p_mem p !! b)) ->
  heap_ok s live -> heap_ok (set_proc p s) live.
Proof.
  intros Hm [[W1 W2 W3 W4 W5 W6] U]. split; [|done]. constructor; try done. simpl. intros a h Ha.
  destruct (W2 a h Ha). constructor; try done. intros b Hb. apply (Hm a h b Ha). lia.
Qed.

Lemma mkstack_size n : stack_len n -> Z.land (u64 (n + 4095)) (u64 (Z.lnot 4095)) = n.
Proof.
  intros [Hn Hm]. change (Z.lnot 4095) with (Z.lnot (Z.ones 12)).
  rewrite land_mask64 by (lia || (apply uwrap_range; lia)). change (2 ^ 12) with 4096.
  rewrite uwrap_id by (unfold_int; lia). zdm.
Qed.

(** [mkstack] takes the error value of [mmap] for an address. *)
Lemma mkstack_failed (p p' : proc K) n :
  stack_len n -> mmap 0 n 3 34 (-1) 0 p = Ret MAP_FAILED p' -> mkstack n p = Ret (n - 1) p'.
Proof.
  intros Hn E. unfold mkstack. rewrite mkstack_size by done.
  change (Z.lor PROT_READ PROT_WRITE) with 3. change (Z.lor MAP_ANON MAP_PRIVATE) with 34.
  mrun E. destruct Hn. change (MAP_FAILED =? 0) with false. f_equal.
  change MAP_FAILED with (2 ^ 64 - 1). unfold uwrap. replace (2 ^ 64 - 1 + n) with (n - 1 + 1 * 2 ^ 64) by lia.
  rewrite Z.mod_add, Z.mod_small by lia. done.
Qed.

Lemma mkstack_ret s live n X :
  heap_ok s live -> stack_len n ->
  (exists p', mmap 0 n 3 34 (-1) 0 (hp_proc s) = Ret MAP_FAILED p') \/
  (exists base p', onproc (mkstack n) s = Ret (base + n) (set_proc p' s) /\
     heap_ok (set_proc p' s) live /\ stack_at (set_proc p' s) base n /\
     (forall a, within base n a -> hmem s !! a = None) /\
     stays live X (within base n) s (set_proc p' s) /\ kmaps (hkern s) (p_kern p')).
Proof.
  intros Hok Hn. pose proof Hn as [Hr Hm].
  destruct (mmap_ret (hp_proc s) n ltac:(lia) Hm) as (r & p' & E & Hk & [[-> _]|(H1 & H2 & H3 & H4 & Hp)]); [eauto|].
  right. exists r, p'.
  assert (forall a, is_Some (hmem s !! a) -> p_mem p' !! a = hmem s !! a) as Hsame.
  { intros a [x Ha]. rewrite Hp. apply mwrite_out. rewrite length_replicate, Z2Nat.id by lia.
    destruct (decide (r <= a < r + n)) as [Hin|]; [|lia]. unfold hmem in Ha. by rewrite H4 in Ha. }
  assert (forall a h b, hdrs s !! a = Some h -> a <= b < h_end h -> is_Some (hmem s !! b)) as Hseg.
  { intros a h b Ha Hb. apply (seg_mapped _ _ _ _ (wf_seg (proj1 Hok) Ha)). lia. }
  split_and!; [| | |done| |done].
  - apply (zoom_ret hp_proc set_proc). unfold mkstack. rewrite mkstack_size by done.
    change (Z.lor PROT_READ PROT_WRITE) with 3. change (Z.lor MAP_ANON MAP_PRIVATE) with 34.
    mrun E. rewrite (proj2 (Z.eqb_neq r 0)) by lia. f_equal. cint.
  - apply heap_ok_outside; [|done]. intros a h b Ha Hb. rewrite Hsame; by eapply Hseg.
  - split; [done..| |].
    + intros a Ha. unfold hmem. simpl. rewrite Hp.
      apply (bytes_at_mapped _ _ (replicate (Z.to_nat n) x00) (bytes_at_mwrite _ _ _)).
      rewrite length_replicate, Z2Nat.id by lia. done.
    + intros a Ha b h Hb Hin. destruct (Hseg b h a Hb Hin) as [x Hx]. unfold hmem in Hx. by rewrite H4 in Hx.
  - split.
    + intros p k a Hp' Ha _. apply Hsame. destruct (live_seg _ _ _ _ Hok Hp') as (b & h & Hb & ? & ? & _).
      apply (Hseg b h); [done|lia].
    + intros a Ha Ho. change (hmem (set_proc p' s)) with (p_mem p'). rewrite Hsame by done. done.
    + intros a Ha Ho. destruct (decide (r <= a < r + n)); [by left|right]. split; [|done].
      revert Ha. unfold hmem at 1. simpl. rewrite Hp, mwrite_out; [done|]. rewrite length_replicate, Z2Nat.id by lia. lia.
Qed.

Lemma stack_stays s s' live X R base n :
  stays live X R s s' -> stack_at s base n -> stack_at s' base n.
Proof.
  intros Hst [H1 H2 H3 H4 H5]. split; try done; intros a Ha; by apply (st_out _ _ _ _ _ Hst a); [apply H4|apply H5].
Qed.

(** Giving the stack back: the heap is not affected. *)
Lemma unmap_heap s live base n p :
  heap_ok s live -> stack_at s base n -> p_mem p = unmapped (hmem s) base n ->
  heap_ok (set_proc p s) live /\
  forall q k a, live !! q = Some k -> within q k a -> p_mem p !! a = hmem s !! a.
Proof.
  intros Hok [_ _ _ _ Ho] Hp.
  assert (forall a h b, hdrs s !! a = Some h -> a <= b < h_end h -> p_mem p !! b = hmem s !! b) as Hseg.
  { intros a h b Ha Hb. rewrite Hp, unmapped_lookup, decide_False; [done|]. intros Hin. by apply (Ho b Hin a h). }
  split.
  - apply heap_ok_outside; [|done]. intros a h b Ha Hb. rewrite (Hseg a h b) by done.
    apply (seg_mapped _ _ _ _ (wf_seg (proj1 Hok) Ha)). lia.
  - intros q k a Hq Ha. destruct (live_seg _ _ _ _ Hok Hq) as (b & h & Hb & ? & ? & _).
    unfold within in Ha. apply (Hseg b h); [done|lia].
Qed.

Lemma unmap_stack s s1 live X base n p :
  heap_ok s1 live -> stack_at s1 base n -> stays live X (within base n) s s1 ->
  (forall a, within base n a -> hmem s !! a = None) -> p_mem p = unmapped (hmem s1) base n ->
  heap_ok (set_proc p s1) live /\ stays live X none s (set_proc p s1).
Proof.
  intros Hok Hsk [L O N] Hnew Hp. destruct (unmap_heap s1 live base n p Hok Hsk Hp) as [Hok' Hc].
  split; [done|]. split; change (hmem (set_proc p s1)) with (p_mem p); change (hdrs (set_proc p s1)) with (hdrs s1).
  - intros q k a Hq Ha Hx. rewrite (Hc q k a), (L q k a); done.
  - intros a Ha Hoa. destruct (O a Ha Hoa) as (H1 & H2 & H3).
    rewrite Hp, unmapped_lookup, decide_False; [done|]. intros Hin. rewrite (Hnew a Hin) in Ha. by destruct Ha.
  - intros a. rewrite Hp, unmapped_lookup. case_decide; [by intros [? ?]|]. intros Ha Hoa. right. by destruct (N a Ha Hoa).
Qed.
End Around.

(** ** Correctness *)

Section Correct.
Context {K : Type} {KK : Kernel K} {MK : MapKernel K} `{!ThreadKernel K} `{Globals} `{ThreadImage}.
Implicit Types (s : heap K) (live : gmap Z Z).

Lemma stays_bytes s s' live X R p l :
  stays live X R s s' -> bytes_at (hmem s) p l ->
  (forall a, within p (Z.of_nat (length l)) a -> safe s live a /\ ~ X a) -> bytes_at (hmem s') p l.
Proof.
  intros [L O _]. rewrite !bytes_at_lookup. intros Hb Hs i b Hi.
  destruct (Hs (p + Z.of_nat i)) as [[Hm [Ho|(q & n & Hq & Ha)]] Hx].
  { apply lookup_lt_Some in Hi. unfold within. lia. }
  - destruct (O _ Hm Ho) as (_ & _ & E). by rewrite E, (Hb i b Hi).
  - by rewrite (L q n _ Hq Ha Hx), (Hb i b Hi).
Qed.

Lemma onproc_pure {A} (f : M mem A) s x : f (hmem s) = Ret x (hmem s) -> onproc (onmem f) s = Ret x s.
Proof. intros E. rewrite (onproc_onmem f s x _ E). f_equal. by destruct s as [[]]. Qed.

(** A write into a new object. *)
Lemma object_stays s live X R r n p l :
  heap_ok s (<[r := n]> live) -> live !! r = None -> r <= p -> p + Z.of_nat (length l) <= r + n ->
  mapped (hmem s) p (Z.of_nat (length l)) /\
  stays live X R s (with_mem (mwrite (hmem s) p l) s) /\
  heap_ok (with_mem (mwrite (hmem s) p l) s) (<[r := n]> live).
Proof.
  intros Hok Hr H1 H2. destruct (fresh_block _ _ _ _ Hok Hr) as (_ & Hm & _).
  assert (mapped (hmem s) p (Z.of_nat (length l))) as Hmp by (eapply mapped_le; [exact Hm|lia..]).
  split; [done|]. split; [|by apply heap_ok_mwrite]. apply mwrite_stays; [done|].
  intros a Ha Hs. unfold within in Ha. destruct (safe_fresh s live r n a Hok Hr Hs). unfold within. lia.
Qed.

(** [kinfo] describes the initial contents of the local storage. *)
Record tls_info s live (fresh : Z) (data : list byte) : Prop := TlsInfo {
  ti_kinfo : kinfo <> 0;
  ti_range : in_u 64 fresh /\ Z.of_nat (length data) < 2 ^ 47;
  ti_fields : bytes_at (hmem s) kinfo (words [fresh; Z.of_nat (length data)]);
  ti_data : bytes_at (hmem s) fresh data;
  ti_safe a : within kinfo 16 a \/ within fresh (Z.of_nat (length data)) a -> safe s live a
}.

Lemma tls_stays s s' live R fresh data :
  stays live none R s s' -> (exists live', heap_ok s' live' /\ live ⊆ live') ->
  tls_info s live fresh data -> tls_info s' live fresh data.
Proof.
  intros Hst (live' & Hok & Hl) [H1 H2 H3 H4 H5]. split; [done|done|..].
  - apply (stays_bytes s s' live none R); [done..|]. intros a Ha. rewrite words_length in Ha. split; [auto|by intros []].
  - apply (stays_bytes s s' live none R); [done..|]. intros a Ha. split; [auto|by intros []].
  - intros a Ha. eapply safe_stays; [done..|auto].
Qed.

Lemma tls_fields s live fresh data :
  tls_info s live fresh data ->
  load64 kinfo (hmem s) = Ret fresh (hmem s) /\
  load64 (kinfo + 8) (hmem s) = Ret (Z.of_nat (length data)) (hmem s).
Proof.
  intros [_ [Hr Hl] Hf _ _]. apply (bytes_at_app _ _ (le_split 8 fresh)) in Hf as [H1 H2].
  rewrite length_le_split in H2. apply (bytes_at_app _ _ (le_split 8 (Z.of_nat (length data)))) in H2 as [H2 _].
  split; apply load_word_ret; try done. unfold_int. lia.
Qed.

(** The storage of a new thread. *)
Definition tls_at s (r : Z) (data : list byte) : Prop :=
  bytes_at (hmem s) r (le_split 8 (r + 8 + Z.of_nat (length data)) ++ data).

Lemma make_tls_ret s live fresh data X R :
  heap_ok s live -> biglock s = 0 -> tls_info s live fresh data ->
  exists r s', make_tls s = Ret r s' /\ biglock s' = 0 /\ kmaps (hkern s) (hkern s') /\ stays live X R s s' /\
    ((r = 0 /\ heap_ok s' live) \/
     (r <> 0 /\ live !! r = None /\ tls_at s' r data /\
      exists n, 8 + Z.of_nat (length data) <= n /\ heap_ok s' (<[r := n]> live))).
Proof.
  intros Hok Hb Ht. pose proof Ht as [Hk [_ Hlen] _ _ _]. set (len := Z.of_nat (length data)) in *.
  unfold make_tls. rewrite (proj2 (Z.eqb_neq _ 0) Hk).
  mrun (onproc_pure _ s _ (proj2 (tls_fields _ _ _ _ Ht))).
  fold len. rewrite (uwrap_id 64 (len + 8)) by (unfold_int; lia).
  destruct (malloc_ret s live (len + 8) Hok Hb ltac:(lia)) as (r & s1 & E1 & B1 & _ & K1 & Hr). mrun E1.
  apply (keepseg_keeps _ _ _ Hok) in K1. pose proof (proj1 (proj2 (proj2 K1))) as Hkm.
  destruct Hr as [[-> Hok1]|(Hr0 & Hr & Hok1)].
  { exists 0, s1. split_and!; [done..|by apply keeps_stays|by left]. }
  rewrite (proj2 (Z.eqb_neq r 0) Hr0).
  destruct (round_obj_spec (len + 8) ltac:(lia)) as (Hn & _ & _). set (n := round_obj (len + 8)) in *.
  assert (live ⊆ <[r := n]> live) as Hsub by by apply insert_subseteq.
  assert (forall s', stays live none none s s' -> heap_ok s' (<[r := n]> live) -> tls_info s' live fresh data) as HT.
  { intros s' Hst Hok'. eapply (tls_stays s s' live); eauto. }
  destruct (object_stays s1 live none none r n (r + 8) data Hok1 Hr ltac:(lia) ltac:(lia)) as (M2 & S2 & Hok2).
  set (s2 := with_mem _ s1) in *. pose proof (stays_trans _ _ _ _ _ _ (keeps_stays _ _ _ none none K1) S2) as S12.
  pose proof (HT s1 (keeps_stays _ _ _ none none K1) Hok1) as T1. destruct (tls_fields _ _ _ _ T1) as [F1 F2].
  mrun (onproc_pure _ s1 _ F1). mrun (onproc_pure _ s1 _ F2).
  mrun (onproc_onmem _ s1 _ _ (memmove_ret _ (r + 8) fresh data (ti_data _ _ _ _ T1) M2)). fold s2.
  mrun (onproc_pure _ s2 _ (proj2 (tls_fields _ _ _ _ (HT s2 S12 Hok2)))). fold len.
  set (w := le_split 8 (r + 8 + len)). assert (length w = 8%nat) as Hw by apply length_le_split.
  destruct (object_stays s2 live X R r n r w Hok2 Hr ltac:(lia) ltac:(lia)) as (M3 & S3 & Hok3).
  rewrite Hw in M3. mrun (onproc_onmem _ s2 _ _ (store64_ret (hmem s2) r (r + 8 + len) M3)). fold w.
  eexists r, _. split; [done|]. split; [done|]. split; [done|]. split.
  { apply (stays_trans _ _ _ _ s2); [|done]. apply (stays_trans _ _ _ _ s1); [by apply keeps_stays|].
    apply (object_stays s1 live X R r n); [done..|lia|lia]. }
  right. split_and!; [done|done| |exists n; split; [lia|done]].
  apply bytes_at_app. fold len w. rewrite Hw. split; [apply bytes_at_mwrite|].
  apply bytes_at_mwrite_out; [apply bytes_at_mwrite|lia].
Qed.

(** What [pthread_create] writes besides its objects: its locals and [*t]. *)
Definition own (t a : Z) : Prop := within thr_tf 24 a \/ within thr_tid 8 a \/ within t 8 a.

Record locals s live (t : Z) : Prop := Locals {
  lo_safe a : own t a -> safe s live a;
  lo_apart : thr_tf + 24 <= thr_tid \/ thr_tid + 8 <= thr_tf;
  lo_range : 0 <= thr_tf < 2 ^ 63 /\ in_u 64 thr_tid
}.

Lemma locals_stays s s' live live' X R t :
  stays live X R s s' -> heap_ok s' live' -> live ⊆ live' -> locals s live t -> locals s' live t.
Proof. intros Hst Hok Hl [H1 H2 H3]. split; [|done..]. intros a Ha. eapply safe_stays; eauto. Qed.

Lemma locals_mapped s live t :
  locals s live t -> mapped (hmem s) thr_tf 24 /\ mapped (hmem s) thr_tid 8 /\ mapped (hmem s) t 8.
Proof. intros [Hs _ _]. split_and!; intros a Ha; apply Hs; unfold own, within; auto. Qed.

Lemma locals_mono s live live' t : locals s live t -> live ⊆ live' -> locals s live' t.
Proof.
  intros [Hs Ha Hr] Hl. split; [|done..]. intros a Ho. destruct (Hs a Ho) as [Hm [?|(p & n & Hp & ?)]].
  - split; [done|by left].
  - split; [done|right]. exists p, n. split; [by eapply lookup_weaken|done].
Qed.

Lemma stays_any live X R s s' : stays live none R s s' -> stays live X R s s'.
Proof.
  intros [L O N]. split; [|intros a Ha Ho; destruct (O a Ha Ho) as (? & ? & Hx)|done].
  - intros p n a Hp Ha _. apply (L p n a Hp Ha). by intros [].
  - split_and!; [done..|]. intros _. apply Hx. by intros [].
Qed.

Lemma stays_same live X R s s' : hmem s' = hmem s -> hdrs s' = hdrs s -> stays live X R s s'.
Proof. intros Hm Hh. split; rewrite ?Hm, ?Hh; auto. Qed.

(** The tail of the error exits. *)
Lemma give_back s s1 live X newtls nt base n (ret : Z) :
  heap_ok s1 (<[newtls := nt]> live) -> live !! newtls = None -> biglock s1 = 0 -> stack_len n ->
  stack_at s1 base n -> stays (<[newtls := nt]> live) X (within base n) s s1 ->
  (forall a, within base n a -> hmem s !! a = None) ->
  exists s2, ((_ ← onproc (munmap base n); _ ← free newtls; mret ret) : M (heap K) Z) s1 = Ret ret s2 /\
    biglock s2 = 0 /\ heap_ok s2 live /\ stays live X none s s2 /\ kmaps (hkern s1) (hkern s2).
Proof.
  intros Hok Hnew Hb [Hn Hn4] Hsk Hst Hfresh. pose proof Hsk as [Hpos Hal Htop Hm _].
  destruct (munmap_ret (hp_proc s1) base n Hpos Hal ltac:(lia) Hn4 Htop Hm) as (k' & E & Hk).
  rewrite (uwrap_id 64 n) in E by (unfold_int; lia).
  mrun (zoom_ret hp_proc set_proc _ s1 _ _ E). set (p := Proc _ _ k').
  destruct (unmap_stack s s1 _ X base n p Hok Hsk Hst Hfresh eq_refl) as [Hok2 Hst2].
  destruct (free_ret (set_proc p s1) _ newtls nt Hok2 Hb (lookup_insert_eq _ _ _)) as (s2 & E2 & B2 & Hok3 & K2).
  rewrite delete_insert_id in Hok3, K2 by done. mrun E2.
  exists s2. split_and!; [done..| |].
  - apply (stays_trans _ _ _ _ (set_proc p s1)); [|by apply keeps_stays].
    eapply stays_mono; [exact Hst2|by apply insert_subseteq|done].
  - etrans; [exact Hk|]. apply K2.
Qed.

Lemma object_range s live p n : heap_ok s live -> live !! p = Some n -> in_u 64 p.
Proof.
  intros Hok Hp. destruct (live_seg _ _ _ _ Hok Hp) as (a & h & Ha & ? & _).
  destruct (wf_seg (proj1 Hok) Ha). unfold_int. lia.
Qed.

(** The trap that starts the thread, in the parent. *)
Lemma tfork_ret regs call s live t tcb stk pca :
  locals s live t -> in_u 64 tcb -> in_u 64 stk -> bytes_at (hmem s) thr_tf (words [tcb; thr_tid; stk]) ->
  exists r s', tfork_thread regs thr_tf (_pcreate regs call) pca s = Ret r s' /\
    biglock s' = biglock s /\ (forall lv, heap_ok s lv -> heap_ok s' lv) /\ hdrs s' = hdrs s /\
    ((- ERRNO_LAST <= r <= - ERRNO_FIRST /\ hmem s' = hmem s /\ kmaps (hkern s) (hkern s')) \/
     (0 < r < 2 ^ 31 /\
      ((hmem s' = mwrite (hmem s) thr_tid (le_split 8 r) /\
        kthreads (hkern s') = (r, tcb, stk) :: kthreads (hkern s) /\ kforked (hkern s') = kforked (hkern s)) \/
       (hmem s' = hmem s /\ kthreads (hkern s') = kthreads (hkern s) /\ kforked (hkern s') = r :: kforked (hkern s))))).
Proof.
  intros Hlo Htcb Hstk Hb. pose proof (locals_mapped _ _ _ Hlo) as (_ & Hm & _). destruct Hlo as [_ _ [Htf Htid]].
  destruct (kfork (hmem s) (hkern s) thr_tf regs tcb thr_tid stk ltac:(rewrite !List.Forall_cons_iff; auto) Hb Hm) as (r & m' & k' & E & Hr).
  assert (- ERRNO_LAST <= r < 2 ^ 31 /\ r <> 0) as [Hr1 Hr0] by (unfold ERRNO_LAST, ERRNO_FIRST in *; lia).
  unfold ERRNO_LAST in Hr1. assert (s64 r = r) as E64 by cint. assert (s32 r = r) as E32 by cint.
  set (s' := set_proc (Proc m' (p_errno (hp_proc s)) k') s).
  assert (onproc (trap regs SYS_FORK [SA thr_tf; FORK_THREAD]) s = Ret r s') as Et.
  { apply (zoom_ret hp_proc set_proc). unfold trap, SA. rewrite (swrap_id 64 thr_tf) by (unfold_int; lia).
    cbn [app]. unfold hmem, hkern in E. rewrite E, E64. done. }
  unfold tfork_thread. mrun Et. exists r, s'.
  assert (tfork_child r = false) as -> by (unfold tfork_child; destruct karch; rewrite ?E32; by apply Z.eqb_neq).
  rewrite E32. split_and!; [done|done| |done|].
  - intros lv Hok. apply heap_ok_outside; [|done]. intros a h b Ha Hin.
    destruct (seg_mapped _ _ _ _ (wf_seg (proj1 Hok) Ha) b) as [x Hx]; [lia|]. simpl.
    destruct Hr as [(_ & -> & _)|(_ & [(-> & _)|(-> & _)])]; [eauto| |eauto].
    by apply (mapped_mwrite (hmem s) b 1); [|lia]; intros c Hc; replace c with b by lia; eauto.
  - destruct Hr as [(? & -> & ?)|(? & [(-> & ?)|(-> & ?)])]; auto.
Qed.

(** The parent after a successful trap: the contents of [tid] go to [*t]. *)
Lemma finish_ret s1 live t lv w :
  heap_ok s1 lv -> locals s1 live t -> length w = 8%nat -> bytes_at (hmem s1) thr_tid w ->
  exists s2, ((tid ← onproc (onmem (load64 thr_tid)); _ ← onproc (onmem (store64 t tid)); mret 0) : M (heap K) Z) s1
      = Ret 0 s2 /\ biglock s2 = biglock s1 /\ heap_ok s2 lv /\ hkern s2 = hkern s1 /\
    bytes_at (hmem s2) t w /\ forall R, stays lv (own t) R s1 s2.
Proof.
  intros Hok Hlo Hw Hb. pose proof (locals_mapped _ _ _ Hlo) as (_ & _ & Hm).
  pose proof (split_le_combine w) as Ew. pose proof (le_combine_bound w) as Hv. rewrite Hw in Ew, Hv.
  set (v := le_combine w) in *. rewrite <- Ew in Hb |- *.
  mrun (onproc_pure _ s1 _ (load_word_ret (hmem s1) thr_tid v ltac:(unfold_int; lia) Hb)).
  mrun (onproc_onmem _ s1 _ _ (store64_ret (hmem s1) t v Hm)).
  eexists. split; [done|]. split_and!; [done|by apply heap_ok_mwrite|done|apply bytes_at_mwrite|].
  intros R. apply mwrite_stays; [by rewrite length_le_split|]. rewrite length_le_split. intros a Ha _. right. by right.
Qed.

(** What is left when the thread is refused, and when it was started with the
    objects [newtls] and [pca] and the stack at [base].  In a kernel that forks the
    process instead, [*t] is what was in the variable [tid], the bytes [w]. *)
Definition refused s s' live (t : Z) : Prop :=
  heap_ok s' live /\ stays live (own t) none s s' /\
  kthreads (hkern s') = kthreads (hkern s) /\ kforked (hkern s') = kforked (hkern s).

Definition begun s s' (t : Z) (w : list byte) (tid tcb stk : Z) : Prop :=
  (bytes_at (hmem s') t (le_split 8 tid) /\
   kthreads (hkern s') = (tid, tcb, stk) :: kthreads (hkern s) /\ kforked (hkern s') = kforked (hkern s)) \/
  (bytes_at (hmem s') t w /\
   kthreads (hkern s') = kthreads (hkern s) /\ kforked (hkern s') = tid :: kforked (hkern s)).

Lemma begun_from s s1 s' t w tid tcb stk : kmaps (hkern s) (hkern s1) -> begun s1 s' t w tid tcb stk -> begun s s' t w tid tcb stk.
Proof. intros [E1 E2]%kmaps_threads. unfold begun. by rewrite E1, E2. Qed.

Record started s s' live (t fn arg newtls nt pca base n : Z) (w : list byte) (tid : Z) : Prop := Started {
  sd_tls : live !! newtls = None;
  sd_pca : live !! pca = None /\ pca <> newtls;
  sd_heap : heap_ok s' (<[pca := pcargs_size]> (<[newtls := nt]> live));
  sd_stays : stays (<[newtls := nt]> live) (own t) (within base n) s s';
  sd_stack : stack_at s' base n;
  sd_fresh a : within base n a -> hmem s !! a = None;
  sd_args : bytes_at (hmem s') pca (words [fn; arg; base; newtls; n]);
  sd_begun : begun s s' t w tid newtls (base + n)
}.

(** The label [both]: the arguments are freed first. *)
Lemma give_back_args s s5 live X newtls nt pca base n (ret : Z) :
  let lv := <[newtls := nt]> live in
  heap_ok s5 (<[pca := pcargs_size]> lv) -> lv !! pca = None -> live !! newtls = None -> biglock s5 = 0 ->
  stack_len n -> stack_at s5 base n -> stays lv X (within base n) s s5 ->
  (forall a, within base n a -> hmem s !! a = None) ->
  exists s', ((_ ← free pca; _ ← onproc (munmap base n); _ ← free newtls; mret ret) : M (heap K) Z) s5 = Ret ret s' /\
    biglock s' = 0 /\ heap_ok s' live /\ stays live X none s s' /\ kmaps (hkern s5) (hkern s').
Proof.
  intros lv Hok5 Hpca Hnew B5 Hn Hsk5 Hst5 Hfresh.
  destruct (free_ret s5 _ pca pcargs_size Hok5 B5 (lookup_insert_eq _ _ _)) as (s6 & E6 & B6 & Hok6 & K6).
  rewrite delete_insert_id in Hok6, K6 by done. mrun E6.
  pose proof (keeps_stays _ _ _ X (within base n) K6) as S6.
  destruct (give_back s s6 live X newtls nt base n ret) as (s' & E & B & Hok' & Hst' & Hk');
    [done..|by eapply stack_stays|by eapply stays_trans|done|].
  exists s'. split; [exact E|]. split_and!; [done..|]. etrans; [apply K6|done].
Qed.

(** The arguments of the thread are complete; the trap follows. *)
Lemma fork_ret regs call s s4 live t fn arg newtls nt pca base n w :
  let lv := <[newtls := nt]> live in
  heap_ok s4 (<[pca := pcargs_size]> lv) -> lv !! pca = None -> live !! newtls = None -> biglock s4 = 0 ->
  locals s4 lv t -> stack_len n -> stack_at s4 base n -> stays lv (own t) (within base n) s s4 ->
  (forall a, within base n a -> hmem s !! a = None) -> kmaps (hkern s) (hkern s4) ->
  bytes_at (hmem s4) thr_tf (words [newtls; thr_tid; base + n]) ->
  bytes_at (hmem s4) pca (words [fn; arg; base; newtls; n]) -> length w = 8%nat -> bytes_at (hmem s4) thr_tid w ->
  exists r s5, tfork_thread regs thr_tf (_pcreate regs call) pca s4 = Ret r s5 /\
    ((r < 0 /\ in_s 32 (- r) /\ exists s', ((_ ← free pca; _ ← onproc (munmap base n); _ ← free newtls; mret (- r)) : M (heap K) Z) s5
        = Ret (- r) s' /\ biglock s' = 0 /\ refused s s' live t) \/
     (0 < r /\ exists s', ((tid ← onproc (onmem (load64 thr_tid)); _ ← onproc (onmem (store64 t tid)); mret 0) : M (heap K) Z) s5
        = Ret 0 s' /\ biglock s' = 0 /\ started s s' live t fn arg newtls nt pca base n w r)).
Proof.
  intros lv Hok4 Hpca Hnew B4 Hlo4 Hn Hsk4 Hst4 Hfresh Hk4 Htf Hargs Hw Hbw.
  assert (lv ⊆ <[pca := pcargs_size]> lv) as Hsub by by apply insert_subseteq.
  assert (in_u 64 newtls) as Htls.
  { eapply object_range; [exact Hok4|]. rewrite lookup_insert_ne; [apply lookup_insert_eq|]. intros ->.
    unfold lv in Hpca. by rewrite lookup_insert_eq in Hpca. }
  assert (in_u 64 (base + n)) as Hstk by (destruct Hsk4, Hn; unfold_int; lia).
  destruct (tfork_ret regs call s4 lv t newtls (base + n) pca Hlo4 Htls Hstk Htf) as (r & s5 & E5 & B5 & O5 & H5 & Hr).
  exists r, s5. split; [done|]. pose proof (O5 _ Hok4) as Hok5. rewrite B4 in B5.
  destruct Hr as [(Hr & Hm5 & Hk5)|(Hr & Hfork)].
  - left. unfold ERRNO_FIRST, ERRNO_LAST in Hr. split; [lia|]. split; [unfold_int; lia|].
    pose proof (stays_same lv (own t) (within base n) s4 s5 Hm5 H5) as S5.
    destruct (give_back_args s s5 live (own t) newtls nt pca base n (- r)) as (s' & E & B & Hok' & Hst' & Hk');
      [done..|by eapply stack_stays|by eapply stays_trans|done|].
    exists s'. split; [exact E|]. split; [done|]. split; [done|]. split; [done|].
    apply kmaps_threads. etrans; [exact Hk4|]. by etrans.
  - right. split; [lia|]. pose proof (locals_mapped _ _ _ Hlo4) as (_ & Mtid & _).
    assert (stays (<[pca := pcargs_size]> lv) (own t) (within base n) s4 s5 /\ exists w', length w' = 8%nat /\ bytes_at (hmem s5) thr_tid w' /\
      forall s', hkern s' = hkern s5 -> bytes_at (hmem s') t w' -> begun s4 s' t w r newtls (base + n)) as (S5 & w' & Hw' & Hb5 & Hbeg).
    { destruct Hfork as [(Hm5 & Hk5)|(Hm5 & Hk5)].
      - split.
        + apply (stays_trans _ _ _ _ (with_mem (mwrite (hmem s4) thr_tid (le_split 8 r)) s4)); [|by apply stays_same].
          apply mwrite_stays; rewrite length_le_split; [done|]. intros a Ha _. right. by left.
        + exists (le_split 8 r). split; [apply length_le_split|]. rewrite Hm5. split; [apply bytes_at_mwrite|].
          intros s' E Ht. left. by rewrite E.
      - split; [by apply stays_same|]. exists w. rewrite Hm5. split_and!; [done..|]. intros s' E Ht. right. by rewrite E. }
    assert (stays lv (own t) (within base n) s4 s5) as S5' by by eapply stays_mono.
    pose proof (locals_stays _ _ _ _ _ _ _ S5' Hok5 Hsub Hlo4) as Hlo5.
    destruct (finish_ret s5 lv t _ w' Hok5 Hlo5 Hw' Hb5) as (s' & E & B & Hok' & Hk' & Ht & Hst').
    specialize (Hst' (within base n)). pose proof (stays_trans _ _ _ _ _ _ S5 Hst') as S4'.
    assert (stays lv (own t) (within base n) s4 s') as S4l by by eapply stays_mono.
    exists s'. split; [exact E|]. split; [congruence|]. split; try done.
    + split; [|intros ->; unfold lv in Hpca; by rewrite lookup_insert_eq in Hpca].
      eapply lookup_weaken_None; [exact Hpca|by apply insert_subseteq].
    + by eapply stays_trans.
    + by eapply stack_stays.
    + apply (stays_bytes s4 s' (<[pca := pcargs_size]> lv) (own t) (within base n)); [done..|]. intros a Ha.
      split; [|intros Hx; apply (safe_fresh s4 lv pca pcargs_size a Hok4 Hpca); [by apply Hlo4|done]].
      split; [|right; exists pca, pcargs_size; split; [apply lookup_insert_eq|done]].
      apply (bytes_at_mapped _ _ _ Hargs). done.
    + apply (begun_from _ s4); [done|]. by apply Hbeg.
Qed.

Lemma launch_ret regs call s s2 live t fn arg newtls nt base n w0 :
  let lv := <[newtls := nt]> live in
  heap_ok s2 lv -> live !! newtls = None -> biglock s2 = 0 -> locals s2 lv t ->
  stack_len n -> stack_at s2 base n -> stays lv (own t) (within base n) s s2 ->
  (forall a, within base n a -> hmem s !! a = None) -> kmaps (hkern s) (hkern s2) ->
  bytes_at (hmem s2) thr_tf (words [newtls; thr_tid; base + n]) -> length w0 = 8%nat -> bytes_at (hmem s2) thr_tid w0 ->
  exists ret s', launch regs call t fn arg newtls n (base + n) s2 = Ret ret s' /\ biglock s' = 0 /\
    ((0 < ret /\ refused s s' live t) \/
     (ret = 0 /\ exists pca tid, started s s' live t fn arg newtls nt pca base n w0 tid)).
Proof.
  intros lv Hok2 Hnew Hb2 Hlo2 Hn Hsk2 Hst2 Hfresh Hk2 Htf Hw0 Hb0. unfold launch.
  replace (base + n - n) with base by lia.
  destruct (malloc_ret s2 lv pcargs_size Hok2 Hb2 ltac:(done)) as (pca & s3 & E3 & B3 & _ & K3 & Hp). mrun E3.
  apply (keepseg_keeps _ _ _ Hok2) in K3. pose proof (proj1 (proj2 (proj2 K3))) as Hk3.
  pose proof (stack_stays _ _ _ none none _ _ (keeps_stays _ _ _ _ _ K3) Hsk2) as Hsk3.
  pose proof (stays_trans _ _ _ _ _ _ Hst2 (keeps_stays _ _ _ _ _ K3)) as Hst3.
  assert (kmaps (hkern s) (hkern s3)) as Hk03 by by etrans.
  destruct Hp as [[-> Hok3]|(Hp0 & Hpca & Hok3)].
  { destruct (give_back s s3 live (own t) newtls nt base n ENOMEM) as (s' & E & B & Hok' & Hst' & Hk'); [done..|].
    exists ENOMEM, s'. split; [exact E|]. split; [done|]. left. split; [done|]. split; [done|]. split; [done|].
    apply kmaps_threads. by etrans. }
  rewrite (proj2 (Z.eqb_neq pca 0) Hp0). change (round_obj pcargs_size) with pcargs_size in *.
  set (w := words [fn; arg; base; newtls; n]).
  destruct (object_stays s3 lv none (within base n) pca pcargs_size pca w Hok3 Hpca ltac:(lia) ltac:(done)) as (M4 & S4 & Hok4).
  mrun (onproc_onmem _ s3 _ _ (store_words_ret (hmem s3) pca [fn; arg; base; newtls; n] M4)). fold w.
  set (s4 := with_mem _ s3) in *.
  pose proof (stays_trans _ _ _ _ _ _ (keeps_stays _ _ _ none (within base n) K3) S4) as S24.
  destruct (fork_ret regs call s s4 live t fn arg newtls nt pca base n w0) as (r & s5 & E5 & Hr); try done.
  - eapply locals_stays; [exact S24|exact Hok4|by apply insert_subseteq|done].
  - by eapply stack_stays.
  - apply (stays_trans _ _ _ _ s3); [done|]. by apply (object_stays s3 lv (own t) (within base n) pca pcargs_size).
  - apply (stays_bytes s2 s4 lv none (within base n)); [done..|]. intros a Ha. split; [apply Hlo2; by left|by intros []].
  - apply bytes_at_mwrite.
  - apply (stays_bytes s2 s4 lv none (within base n)); [done..|]. rewrite Hw0. intros a Ha. split; [apply Hlo2; by right; left|by intros []].
  - mrun E5. destruct Hr as [(Hr & Hs & s' & E & B & Hpost)|(Hr & s' & E & B & Hpost)].
    + rewrite (proj2 (Z.ltb_lt r 0)) by lia. mrun (schk_ret 32 (- r) s5 Hs). exists (- r), s'.
      split; [exact E|]. split; [done|]. left. split; [lia|done].
    + rewrite (proj2 (Z.ltb_ge r 0)) by lia. exists 0, s'. split; [exact E|]. split; [done|]. right. eauto.
Qed.

Lemma start_thread_ret regs call s live t fn arg newtls nt n w0 :
  heap_ok s (<[newtls := nt]> live) -> live !! newtls = None -> biglock s = 0 -> locals s live t -> stack_len n ->
  length w0 = 8%nat -> bytes_at (hmem s) thr_tid w0 ->
  (exists p, mmap 0 n 3 34 (-1) 0 (hp_proc s) = Ret MAP_FAILED p) \/
  exists ret s', start_thread regs call t fn arg newtls n s = Ret ret s' /\ biglock s' = 0 /\
    ((0 < ret /\ refused s s' live t) \/
     (ret = 0 /\ exists base pca tid, started s s' live t fn arg newtls nt pca base n w0 tid)).
Proof.
  intros Hok Hnew Hb Hlo Hn Hw0 Hb0. set (lv := <[newtls := nt]> live) in *.
  assert (live ⊆ lv) as Hsub by by apply insert_subseteq.
  destruct (mkstack_ret s lv n none Hok Hn) as [?|(base & p' & E & Hok1 & Hsk1 & Hfresh & Hst0 & Hk1)]; [by left|right].
  pose proof (stays_any _ (own t) _ _ _ Hst0) as Hst1.
  unfold start_thread. mrun E. pose proof Hsk1 as [Hpos _ _ _ _]. destruct Hn as [Hn Hn4].
  rewrite (proj2 (Z.eqb_neq (base + n) 0)) by lia. set (s1 := set_proc p' s) in *.
  pose proof (locals_stays _ _ _ _ _ _ _ Hst1 Hok1 ltac:(done) (locals_mono _ _ _ _ Hlo Hsub)) as Hlo1.
  pose proof (locals_mapped _ _ _ Hlo1) as (Mtf & _ & _).
  mrun (onproc_onmem _ s1 _ _ (store_words_ret (hmem s1) thr_tf [newtls; thr_tid; base + n] Mtf)).
  set (w := words _). set (s2 := with_mem _ s1).
  assert (forall R, stays lv (own t) R s1 s2) as S2.
  { intros R. apply mwrite_stays; [done|]. intros a Ha _. by left. }
  assert (heap_ok s2 lv) as Hok2 by by apply heap_ok_mwrite.
  destruct (launch_ret regs call s s2 live t fn arg newtls nt base n w0) as (ret & s' & E' & B & Hpost); try done.
  - eapply locals_stays; [apply (S2 none)|done..].
  - eapply stack_stays; [apply (S2 none)|done].
  - by eapply stays_trans.
  - apply bytes_at_mwrite.
  - change (hmem s2) with (mwrite (hmem s1) thr_tf w). apply bytes_at_mwrite_out; [|destruct Hlo as [_ Hap _]; rewrite Hw0; unfold w; rewrite words_length; cbn; lia].
    apply (stays_bytes s s1 lv none (within base n)); [done..|]. rewrite Hw0. intros a Ha.
    split; [apply (locals_mono _ _ _ _ Hlo Hsub); by right; left|by intros []].
  - exists ret, s'. split; [done|]. split; [done|]. destruct Hpost as [|(-> & pca & tid & Hs)]; [by left|right]. eauto.
Qed.

(** The attributes give a page-aligned size that is not too large. *)
Definition attrs_ok s live (attrs n : Z) : Prop :=
  stack_len n /\
  ((attrs = 0 /\ n = _PTHREAD_DEFSTKSZ) \/
   (attrs <> 0 /\ bytes_at (hmem s) attrs (le_split 8 n) /\ forall a, within attrs 8 a -> safe s live a)).

Lemma stack_size_ret s s1 live R attrs n :
  attrs_ok s live attrs n -> stays live none R s s1 -> stack_size attrs s1 = Ret n s1.
Proof.
  intros [[Hn Hn4] [[-> ->]|(Ha & Hb & Hs)]] Hst; [done|]. unfold stack_size. rewrite (proj2 (Z.eqb_neq attrs 0) Ha).
  assert (bytes_at (hmem s1) attrs (le_split 8 n)) as Hb1.
  { apply (stays_bytes s s1 live none R); [done..|]. rewrite length_le_split. intros a Hin. split; [auto|by intros []]. }
  mrun (onproc_pure _ s1 _ (load_word_ret (hmem s1) attrs n ltac:(unfold_int; lia) Hb1)).
  rewrite (proj2 (Z.ltb_ge _ n)) by lia. rewrite Hn4. done.
Qed.

(** A thread was started, or a copy of the process: the program holds two more
    objects, the thread's storage and its arguments, and a stack outside the heap. *)
Record thread_started s s' live (t fn arg n : Z) (data w : list byte) (newtls nt pca base tid : Z) : Prop := ThreadStarted {
  ts_new : live !! newtls = None /\ live !! pca = None /\ pca <> newtls;
  ts_heap : heap_ok s' (<[pca := pcargs_size]> (<[newtls := nt]> live));
  ts_stays : stays live (own t) (within base n) s s';
  ts_stack : stack_at s' base n;
  ts_fresh a : within base n a -> ~ (is_Some (hmem s !! a) /\ outside (hdrs s) a);
  ts_args : bytes_at (hmem s') pca (words [fn; arg; base; newtls; n]);
  ts_tls : tls_at s' newtls data;
  ts_begun : begun s s' t w tid newtls (base + n)
}.

(** The storage lies in its object, away from the locals. *)
Lemma started_tls s1 s' live t fn arg newtls nt pca base n w tid data :
  heap_ok s1 (<[newtls := nt]> live) -> locals s1 live t -> 8 + Z.of_nat (length data) <= nt ->
  started s1 s' live t fn arg newtls nt pca base n w tid -> tls_at s1 newtls data -> tls_at s' newtls data.
Proof.
  intros Hok Hlo Hnt [Hnew _ _ Hst _ _ _ _] Ht.
  apply (stays_bytes s1 s' _ _ _ _ _ Hst Ht). rewrite length_app, length_le_split. intros a Ha.
  assert (within newtls nt a) as Hin by (unfold within in *; lia). split.
  - split; [|right; exists newtls, nt; split; [apply lookup_insert_eq|exact Hin]].
    destruct (fresh_block _ _ _ _ Hok Hnew) as (_ & Hm & _). by apply Hm.
  - intros Hx. by apply (safe_fresh s1 live newtls nt a Hok Hnew); [apply Hlo|].
Qed.

(** A stack that could not be mapped is not noticed: the thread is launched with
    a stack pointer in the first pages. *)
Lemma start_thread_unmapped regs call s p t fn arg newtls n :
  stack_len n -> mmap 0 n 3 34 (-1) 0 (hp_proc s) = Ret MAP_FAILED p ->
  start_thread regs call t fn arg newtls n s =
  ((_ ← onproc (onmem (store_words thr_tf [newtls; thr_tid; n - 1]));
    launch regs call t fn arg newtls n (n - 1)) : M (heap K) Z) (set_proc p s).
Proof.
  intros Hn E. unfold start_thread. mrun (zoom_ret hp_proc set_proc _ s _ _ (mkstack_failed _ _ _ Hn E)).
  destruct Hn. rewrite (proj2 (Z.eqb_neq (n - 1) 0)) by zdm. done.
Qed.

Lemma pthread_create_ret regs call s live t attrs fn arg fresh data n w :
  heap_ok s live -> biglock s = 0 -> tls_info s live fresh data -> attrs_ok s live attrs n -> locals s live t ->
  length w = 8%nat -> bytes_at (hmem s) thr_tid w ->
  (exists ret s', pthread_create regs call t attrs fn arg s = Ret ret s' /\ biglock s' = 0 /\
    ((0 < ret /\ refused s s' live t) \/
     (ret = 0 /\ exists newtls nt pca base tid, thread_started s s' live t fn arg n data w newtls nt pca base tid))) \/
  (exists newtls s1 p, make_tls s = Ret newtls s1 /\ mmap 0 n 3 34 (-1) 0 (hp_proc s1) = Ret MAP_FAILED p /\
    pthread_create regs call t attrs fn arg s =
    ((_ ← onproc (onmem (store_words thr_tf [newtls; thr_tid; n - 1]));
      launch regs call t fn arg newtls n (n - 1)) : M (heap K) Z) (set_proc p s1)).
Proof.
  intros Hok Hb Hti Hat Hlo Hw Hbw. unfold pthread_create.
  destruct (make_tls_ret s live fresh data none none Hok Hb Hti) as (r & s1 & E1 & B1 & Hk1 & S1 & Hr). rewrite !(bind_ret _ _ _ _ _ E1).
  assert (forall X R, stays live X R s s1) as SX.
  { intros X R. destruct (make_tls_ret s live fresh data X R Hok Hb Hti) as (r' & s1' & E' & _ & _ & S' & _). congruence. }
  destruct Hr as [[-> Hok1]|(Hr0 & Hnew & Htls & nt & Hnt & Hok1)].
  { left. exists ENOMEM, s1. split; [done|]. split; [done|]. left. split; [done|]. split_and!; [done|by apply SX|by apply kmaps_threads..]. }
  rewrite (proj2 (Z.eqb_neq r 0) Hr0), !(bind_ret _ _ _ _ _ (stack_size_ret s s1 live none attrs n Hat S1)).
  pose proof (locals_stays _ _ _ _ _ _ _ S1 Hok1 ltac:(by apply insert_subseteq) Hlo) as Hlo1.
  assert (bytes_at (hmem s1) thr_tid w) as Hbw1.
  { apply (stays_bytes s s1 live none none); [done..|]. rewrite Hw. intros a Ha. split; [apply Hlo; by right; left|by intros []]. }
  destruct (start_thread_ret regs call s1 live t fn arg r nt n w Hok1 Hnew B1 Hlo1 (proj1 Hat) Hw Hbw1) as [[p E]|(ret & s' & E & B & Hpost)].
  { right. exists r, s1, p. split_and!; [done..|]. by apply start_thread_unmapped; [apply Hat|]. }
  left. exists ret, s'. split; [done|]. split; [done|]. destruct (kmaps_threads _ _ Hk1) as [Ek1 Ek2].
  destruct Hpost as [(Hpos & Hok' & Hst' & Hk' & Hf')|(-> & base & pca & tid & Hs)]; [left|right]; (split; [done|]).
  { split_and!; [done|by apply (stays_trans _ _ _ _ s1)|congruence..]. }
  pose proof (started_tls _ _ _ _ _ _ _ _ _ _ _ _ _ data Hok1 Hlo1 Hnt Hs Htls) as Htls'.
  destruct Hs as [_ [G1 G2] G3 G4 G5 G6 G7 G8]. exists r, nt, pca, base, tid. split; try done.
  - apply (stays_trans _ _ _ _ s1); [by apply SX|]. eapply stays_mono; [exact G4|by apply insert_subseteq|done].
  - intros a Ha [Hm Ho]. destruct (st_out _ _ _ _ _ S1 a Hm Ho) as ([x Hx] & _). by rewrite G6 in Hx.
  - by apply (begun_from _ s1).
Qed.

(** C16: [pthread_create] on a well-formed heap returns with the allocator's lock
    released, and either starts a thread or gives back everything.  If the result
    is positive (an error number), the heap holds the same objects as before, no
    memory outside it is mapped that was not mapped before (the stack is gone), and
    nothing was started.  If it is 0, a new object is the thread's local storage,
    with a copy of the initial data behind a pointer to its end, there is a new
    mapping for its stack, and a second new object holds the function, its argument
    and what the thread has to release.  What was started depends on the kernel.
    One that does what [tfork_thread] asks for has started a thread with this
    storage and stack, whose number is in [*t].  One that ignores the arguments, as
    kernel/src does, has forked the process, and [*t] is [w], whatever the variable
    [tid] held.  In all these cases all objects and all other memory of the program
    are unchanged.  A mapping for the stack that fails is not noticed: the function
    then goes on with the stack pointer [n - 1]. *)
Theorem pthread_create_correct regs call s live t attrs fn arg fresh data n w :
  heap_ok s live -> biglock s = 0 -> tls_info s live fresh data -> attrs_ok s live attrs n -> locals s live t ->
  length w = 8%nat -> bytes_at (hmem s) thr_tid w ->
  (exists ret s', pthread_create regs call t attrs fn arg s = Ret ret s' /\ biglock s' = 0 /\
    ((0 < ret /\ refused s s' live t) \/
     (ret = 0 /\ exists newtls nt pca base tid, thread_started s s' live t fn arg n data w newtls nt pca base tid))) \/
  (exists newtls s1 p, make_tls s = Ret newtls s1 /\ mmap 0 n 3 34 (-1) 0 (hp_proc s1) = Ret MAP_FAILED p /\
    pthread_create regs call t attrs fn arg s =
    ((_ ← onproc (onmem (store_words thr_tf [newtls; thr_tid; n - 1]));
      launch regs call t fn arg newtls n (n - 1)) : M (heap K) Z) (set_proc p s1)).
Proof. apply pthread_create_ret. Qed.

(** *** The new thread *)

(** The stack goes back to the kernel with a trap of its own. *)
Lemma unmap_trap regs s base n :
  stack_at s base n -> stack_len n ->
  exists k', onproc (trap regs SYS_MUNMAP [SA base; SA n]) s
    = Ret 0 (set_proc (Proc (unmapped (hmem s) base n) (p_errno (hp_proc s)) k') s).
Proof.
  intros [Hpos Hal Htop Hm _] [Hn Hn4].
  destruct (kmunmap_regs (hmem s) (hkern s) base n regs Hpos Hal ltac:(lia) Hn4 Htop Hm) as (k' & E & _).
  exists k'. apply (zoom_ret hp_proc set_proc). unfold trap, SA. rewrite !swrap_id by (unfold_int; lia).
  cbn [app]. unfold hmem, hkern in E. by rewrite E.
Qed.

Lemma pcreate_start regs call s live newtls nt pca base n fn arg :
  let lv := <[newtls := nt]> live in
  heap_ok s (<[pca := pcargs_size]> lv) -> lv !! pca = None -> biglock s = 0 -> stack_at s base n ->
  Forall (in_u 64) [fn; arg; base; newtls; n] -> bytes_at (hmem s) pca (words [fn; arg; base; newtls; n]) ->
  exists s1, _pcreate regs call pca s = ((status ← call fn arg; thread_exit regs base newtls n status) : M (heap K) Z) s1 /\
    heap_ok s1 lv /\ biglock s1 = 0 /\ stack_at s1 base n /\ keeps s s1 lv.
Proof.
  intros lv Hok Hpca Hb Hsk Hr Ha. unfold _pcreate.
  mrun (onproc_pure _ s _ (load_words_ret (hmem s) pca [fn; arg; base; newtls; n] Hr Ha)). cbn [nth].
  destruct (free_ret s _ pca pcargs_size Hok Hb (lookup_insert_eq _ _ _)) as (s1 & E1 & B1 & Hok1 & K1).
  rewrite delete_insert_id in Hok1, K1 by done. mrun E1.
  destruct (kprctl (hmem s1) (hkern s1) (SA newtls)) as (r & k' & E & Hk).
  set (s2 := set_proc (Proc (hmem s1) (p_errno (hp_proc s1)) k') s1).
  assert (onproc (syscall 4098 (SA newtls) 0 0 0 158) s1 = Ret (s64 r) s2) as E2.
  { apply (zoom_ret hp_proc set_proc). unfold syscall, syscall6. unfold hmem, hkern in E. by rewrite E. }
  mrun E2. assert (keeps s1 s2 lv) as K2 by (split_and!; [done..|by apply maps_same]).
  exists s2. split; [done|]. split_and!; [by apply (heap_ok_mem s1 lv (hmem s1))|done| |by eapply keeps_trans].
  eapply stack_stays; [by apply (keeps_stays s1 s2 lv none none)|]. eapply stack_stays; [by apply (keeps_stays s s1 lv none none)|done].
Qed.

(** A function that a thread can run: it returns with the heap well formed, the
    thread's storage still held and the stack in place. *)
Definition thread_body (call : Z -> Z -> M (heap K) Z) (fn arg newtls nt base n : Z) : Prop :=
  forall s1 live, heap_ok s1 (<[newtls := nt]> live) -> live !! newtls = None -> biglock s1 = 0 -> stack_at s1 base n ->
  exists st s2 live2, call fn arg s1 = Ret st s2 /\ heap_ok s2 (<[newtls := nt]> live2) /\ live2 !! newtls = None /\
    biglock s2 = 0 /\ stack_at s2 base n.

(** A new thread on x86-64, in the state [pthread_create] leaves, frees its
    arguments, runs its function, frees its local storage, gives its stack back
    and ends with the function's result: no memory of the thread remains, the
    heap holds exactly the other objects, with the contents the function left
    them with. *)
Theorem pcreate_correct regs call s live newtls nt pca base n fn arg :
  karch = x86_64 ->
  heap_ok s (<[pca := pcargs_size]> (<[newtls := nt]> live)) ->
  live !! newtls = None -> live !! pca = None -> pca <> newtls -> biglock s = 0 ->
  stack_len n -> stack_at s base n ->
  Forall (in_u 64) [fn; arg; base; newtls; n] -> bytes_at (hmem s) pca (words [fn; arg; base; newtls; n]) ->
  thread_body call fn arg newtls nt base n ->
  exists s1 st s2 live2 s', heap_ok s1 (<[newtls := nt]> live) /\ keeps s s1 live /\ call fn arg s1 = Ret st s2 /\
    _pcreate regs call pca s = Halt st s' /\ biglock s' = 0 /\ heap_ok s' live2 /\ live2 !! newtls = None /\
    (forall a, within base n a -> hmem s' !! a = None) /\
    (forall p k a, live2 !! p = Some k -> within p k a -> hmem s' !! a = hmem s2 !! a).
Proof.
  intros Harch Hok Hnew Hpca Hne Hb Hn Hsk Hr Ha Hbody.
  destruct (pcreate_start regs call s live newtls nt pca base n fn arg) as (s1 & E1 & Hok1 & B1 & Hsk1 & K1); try done.
  { by rewrite lookup_insert_ne. }
  destruct (Hbody s1 live Hok1 Hnew B1 Hsk1) as (st & s2 & live2 & E2 & Hok2 & Hnew2 & B2 & Hsk2).
  destruct (free_ret s2 _ newtls nt Hok2 B2 (lookup_insert_eq _ _ _)) as (s3 & E3 & B3 & Hok3 & K3).
  rewrite delete_insert_id in Hok3, K3 by done.
  assert (stack_at s3 base n) as Hsk3 by (eapply stack_stays; [by apply (keeps_stays s2 s3 live2 none none)|done]).
  destruct (unmap_trap regs s3 base n Hsk3 Hn) as (k' & E4). set (p4 := Proc _ _ k') in E4.
  destruct (unmap_heap s3 live2 base n p4 Hok3 Hsk3 eq_refl) as [Hok4 Hc].
  exists s1, st, s2, live2, (set_proc p4 s3). split_and!; [done| |done| |done..| |].
  - apply (keeps_mono _ _ _ _ K1). by apply insert_subseteq.
  - rewrite E1. mrun E2. unfold thread_exit. rewrite Harch. munfold. rewrite E3, E4. cbn.
    unfold onproc, zoom, trap. cbn [app nth]. by rewrite kthrexit.
  - intros a Hin. change (p_mem p4 !! a = None). cbn. by rewrite unmapped_lookup, decide_True.
  - intros q k a Hq Hin. change (p_mem p4 !! a = hmem s2 !! a). rewrite (Hc q k a) by done. by apply (proj1 K3 q k).
Qed.

(** On aarch64 the result is a local variable in memory, read after the stack is
    gone. *)
Theorem pcreate_aarch64_faults regs call s live newtls nt pca base n fn arg :
  karch = aarch64 ->
  heap_ok s (<[pca := pcargs_size]> (<[newtls := nt]> live)) ->
  live !! newtls = None -> live !! pca = None -> pca <> newtls -> biglock s = 0 ->
  stack_len n -> stack_at s base n -> base <= thr_status -> thr_status + 8 <= base + n ->
  Forall (in_u 64) [fn; arg; base; newtls; n] -> bytes_at (hmem s) pca (words [fn; arg; base; newtls; n]) ->
  thread_body call fn arg newtls nt base n -> _pcreate regs call pca s = Ub.
Proof.
  intros Harch Hok Hnew Hpca Hne Hb Hn Hsk Hlo Hhi Hr Ha Hbody.
  destruct (pcreate_start regs call s live newtls nt pca base n fn arg) as (s1 & -> & Hok1 & B1 & Hsk1 & _); try done.
  { by rewrite lookup_insert_ne. }
  destruct (Hbody s1 live Hok1 Hnew B1 Hsk1) as (st & s2 & live2 & E2 & Hok2 & Hnew2 & B2 & Hsk2).
  assert (mapped (hmem s2) thr_status 8) as Hm by (eapply mapped_le; [apply Hsk2|lia..]).
  set (s2' := with_mem (mwrite (hmem s2) thr_status (le_split 8 (u64 st))) s2).
  assert (stack_at s2' base n) as Hsk2'.
  { destruct Hsk2. split; try done. by apply mapped_mwrite. }
  destruct (free_ret s2' _ newtls nt (heap_ok_mwrite _ _ _ _ Hok2) B2 (lookup_insert_eq _ _ _)) as (s3 & E3 & B3 & Hok3 & K3).
  assert (stack_at s3 base n) as Hsk3 by (eapply stack_stays; [by apply (keeps_stays s2' s3 _ none none K3)|done]).
  destruct (unmap_trap regs s3 base n Hsk3 Hn) as (k' & E4). set (s4 := set_proc _ s3) in E4.
  mrun E2. unfold thread_exit. rewrite Harch. mrun (onproc_onmem _ s2 _ _ (store64_ret _ _ (u64 st) Hm)). fold s2'.
  mrun E3. mrun E4. assert (load64 thr_status (p_mem (hp_proc s4)) = Ub) as El.
  { assert (p_mem (hp_proc s4) !! (thr_status : Z) = None) as Eb.
    { change (unmapped (hmem s3) base n !! (thr_status : Z) = None). rewrite unmapped_lookup, decide_True; [done|lia]. }
    unfold load64. cbn [mread]. by rewrite Eb. }
  cbn [negb Z.eqb]. rewrite bind_assoc. apply bind_ub. unfold onproc, onmem, zoom. by rewrite El.
Qed.
End Correct.

(** ** A kernel with threads

    It maps like the kernel of the allocator's examples, starts every thread, and
    remembers it. *)

Definition threads : Type := list (Z * Z * Z).

#[export] Instance thr_kernel : Kernel threads :=
  {| karch := x86_64;
     ktrap t args m k :=
       if t =? SYS_FORK then
         match mread m (nth 0 args 0) 24 with
         | Some l =>
           let tcb := le_combine (take 8 l) in let tp := le_combine (take 8 (drop 8 l)) in
           let stk := le_combine (drop 16 l) in
           let tid := Z.of_nat (length k) mod 1000 + 2 in
           Some (tid, mwrite m tp (le_split 8 tid), (tid, tcb, stk) :: k)
         | None => Some (- EINVAL, m, k)
         end
       else if t =? SYS_THREXIT then None
       else match ktrap (Kernel := demo_kernel) t args m tt with
            | Some (r, m, _) => Some (r, m, k)
            | None => None
            end |}.

#[export] Instance thr_map_kernel : MapKernel threads.
Proof.
  refine {| kmaps := eq |}.
  - intros m k len Hl Hll. destruct (kmmap (MapKernel := demo_map_kernel) m tt len Hl Hll) as (r & m' & k' & E & _ & Hr).
    exists r, m', k. split; [|done].
    exact (f_equal (fun o => match o with Some (r, m, _) => Some (r, m, k) | None => None end) E).
  - intros m k a len H1 H2 H3 H4 H5 H6.
    destruct (kmunmap (MapKernel := demo_map_kernel) m tt a len H1 H2 H3 H4 H5 H6) as (k' & E & _).
    exists k. split; [|done].
    exact (f_equal (fun o => match o with Some (r, m, _) => Some (r, m, k) | None => None end) E).
Defined.

#[export] Instance thr_thread_kernel : ThreadKernel threads.
Proof.
  refine {| kthreads := fun k => k; kforked := fun _ => [] |}.
  - by intros k k' ->.
  - intros m k a regs tcb tp stk Hr Hb Hm.
    assert (mread m a 24 = Some (words [tcb; tp; stk])) as E by exact (proj2 (mread_bytes_at _ _ _) Hb).
    rewrite !List.Forall_cons_iff in Hr. destruct Hr as (H1 & H2 & H3 & _).
    set (tid := Z.of_nat (length k) mod 1000 + 2). assert (0 < tid < 2 ^ 31) as Ht by (unfold tid; zdm).
    exists tid, (mwrite m tp (le_split 8 tid)), ((tid, tcb, stk) :: k). split; [|right; split; [done|by left]].
    unfold ktrap, thr_kernel. change (SYS_FORK =? SYS_FORK) with true. cbn [nth]. rewrite E. fold tid.
    assert (forall v, in_u 64 v -> le_combine (le_split 8 v) = v) as Hv.
    { intros v Hv. rewrite le_combine_split. by apply Z.mod_small. }
    assert (words [tcb; tp; stk] = le_split 8 tcb ++ le_split 8 tp ++ le_split 8 stk) as ->.
    { unfold words. cbn [fmap list_fmap concat]. by rewrite app_nil_r. }
    assert (drop 16 (le_split 8 tcb ++ le_split 8 tp ++ le_split 8 stk) = le_split 8 stk) as ->.
    { rewrite app_assoc. apply drop_app_length'. by rewrite length_app, !length_le_split. }
    rewrite take_app_length', drop_app_length', take_app_length', !Hv; rewrite ?length_le_split; done.
  - intros m k tls. exists (- ENOSYS), k. done.
  - intros m k a len regs H1 H2 H3 H4 H5 H6. exists k. done.
  - done.
Defined.

(** A process before its first allocation: [kinfo] describes eight bytes of
    thread storage, the locals follow. *)
#[export] Instance thr_image : ThreadImage := {| thr_tf := 3000; thr_tid := 3040; thr_status := 0 |}.

Definition thr_data : list byte := str "tls-data".
Definition thr_mem : mem :=
  mwrite (mwrite (mwrite ∅ 3000 (replicate 64 x00)) 2100 thr_data) 2000 (words [2100; 8]).
Definition thr_heap : heap threads := Heap (Proc thr_mem 0 []) ∅ 0 0 0 0 1.
Definition thr_call (fn arg : Z) : M (heap threads) Z := mret arg.

Ltac by_decide := apply (bool_decide_unpack _); vm_compute; exact I.

Lemma thr_safe p l a : bytes_at (hmem thr_heap) p l -> within p (Z.of_nat (length l)) a -> safe thr_heap ∅ a.
Proof.
  intros Hb Ha. split; [by apply (bytes_at_mapped _ _ _ Hb)|]. left. intros b h. simpl. by rewrite lookup_empty.
Qed.

Lemma thr_tls_info : tls_info (H := demo_globals) thr_heap ∅ 2100 thr_data.
Proof.
  assert (bytes_at (hmem thr_heap) 2000 (words [2100; 8])) as H1 by by_decide.
  assert (bytes_at (hmem thr_heap) 2100 thr_data) as H2 by by_decide.
  split; [done|split; [unfold_int; lia|done]|done|done|]. intros a [Ha|Ha]; [by apply (thr_safe _ _ _ H1)|by apply (thr_safe _ _ _ H2)].
Qed.

Lemma thr_locals : locals thr_heap ∅ 3056.
Proof.
  assert (bytes_at (hmem thr_heap) 3000 (replicate 64 x00)) as H1 by by_decide.
  split; [|left; simpl; lia|unfold_int; simpl; lia]. intros a Ha. apply (thr_safe _ _ _ H1). clear H1.
  unfold own, within in *. cbn [thr_tf thr_tid thr_image] in Ha. rewrite length_replicate. lia.
Qed.

Lemma thr_attrs : attrs_ok thr_heap ∅ 0 4096.
Proof. split; [split; [lia|done]|by left]. Qed.

(** The process after the call. *)
Definition thr_result : outcome (heap threads) Z := pthread_create (H0 := demo_globals) [] thr_call 3056 0 700 9 thr_heap.

Definition code {S} (o : outcome S Z) : Z := match o with Ret r _ => r | _ => -1 end.

Lemma thr_tls_code : code (match make_tls (H0 := demo_globals) thr_heap with
    Ret _ s1 => mmap 0 4096 3 34 (-1) 0 (hp_proc s1) | _ => Ub end) = 8192.
Proof. vm_compute. reflexivity. Qed.

Lemma pthread_create_correct_witness : exists ret s', thr_result = Ret ret s' /\ biglock s' = 0 /\
  ((0 < ret /\ refused thr_heap s' ∅ 3056) \/
   (ret = 0 /\ exists newtls nt pca base tid,
      thread_started thr_heap s' ∅ 3056 700 9 4096 thr_data (replicate 8 x00) newtls nt pca base tid)).
Proof.
  pose proof thr_tls_code as E1.
  destruct (pthread_create_correct (H := demo_globals) [] thr_call thr_heap ∅ 3056 0 700 9 2100 thr_data 4096 (replicate 8 x00))
    as [Hr|(r & s1 & p & E & Em & _)];
    [apply no_objects_ok|reflexivity|exact thr_tls_info|exact thr_attrs|exact thr_locals|reflexivity|by_decide|exact Hr|].
  rewrite E, Em in E1. discriminate E1.
Defined.

Lemma thr_code : code thr_result = 0.
Proof. vm_compute. reflexivity. Qed.

Lemma thr_started : exists s' newtls nt pca base tid,
  thr_result = Ret 0 s' /\ biglock s' = 0 /\
  thread_started thr_heap s' ∅ 3056 700 9 4096 thr_data (replicate 8 x00) newtls nt pca base tid.
Proof.
  pose proof thr_code as E0. pose proof thr_tls_code as E1.
  destruct (pthread_create_ret (H := demo_globals) [] thr_call thr_heap ∅ 3056 0 700 9 2100 thr_data 4096 (replicate 8 x00))
    as [(r & s' & E & B & Hr)|(r & s1 & p & E & Em & _)];
    [apply no_objects_ok|reflexivity|exact thr_tls_info|exact thr_attrs|exact thr_locals|reflexivity|by_decide| |].
  2: rewrite E, Em in E1; discriminate E1.
  - fold thr_result in E. rewrite E in E0. cbn [code] in E0. subst r.
    destruct Hr as [[Hr _]|(_ & newtls & nt & pca & base & tid & Hs)]; [destruct (Z.lt_irrefl 0 Hr)|].
    exists s', newtls, nt, pca, base, tid. split; [exact E|]. split; [exact B|exact Hs].
Qed.

Lemma pcreate_correct_witness : exists s newtls nt pca base s1 st s2 live2 s',
  thr_result = Ret 0 s /\ heap_ok s1 (<[newtls := nt]> ∅) /\ keeps s s1 ∅ /\ thr_call 700 9 s1 = Ret st s2 /\
  _pcreate [] thr_call pca s = Halt st s' /\ biglock s' = 0 /\ heap_ok s' live2 /\ live2 !! newtls = None /\
  (forall a, within base 4096 a -> hmem s' !! a = None) /\
  (forall p k a, live2 !! p = Some k -> within p k a -> hmem s' !! a = hmem s2 !! a).
Proof.
  destruct thr_started as (s & newtls & nt & pca & base & tid & E & B & [Hnew Hheap Hst Hsk Hf Ha Ht Hbeg]).
  exists s, newtls, nt, pca, base. destruct Hnew as (N1 & N2 & N3).
  destruct (pcreate_correct [] thr_call s ∅ newtls nt pca base 4096 700 9) as (s1 & st & s2 & live2 & s' & Hpost).
  - reflexivity.
  - exact Hheap.
  - exact N1.
  - exact N2.
  - exact N3.
  - exact B.
  - split; [lia|reflexivity].
  - exact Hsk.
  - assert (in_u 64 newtls).
    { apply (object_range s _ newtls nt Hheap). rewrite lookup_insert_ne by exact N3. apply lookup_insert_eq. }
    assert (in_u 64 base) by (destruct Hsk; unfold_int; lia).
    repeat (apply List.Forall_cons_iff; split; [first [assumption | unfold_int; lia]|]). constructor.
  - exact Ha.
  - clear. intros s1 live H1 H2 H3 H4. by exists 9, s1, live.
  - exists s1, st, s2, live2, s'. split; [exact E|exact Hpost].
Defined.

(** *** A kernel that forks

    It ignores the arguments of the trap, as [sys_fork] of kernel/src does, and
    remembers the processes. *)
Definition forks : Type := list Z.

#[local] Instance fork_kernel : Kernel forks :=
  {| karch := x86_64;
     ktrap t args m k :=
       if t =? SYS_FORK then Some (Z.of_nat (length k) + 2, m, Z.of_nat (length k) + 2 :: k)
       else match ktrap (Kernel := demo_kernel) t args m tt with
            | Some (r, m, _) => Some (r, m, k)
            | None => None
            end |}.

(** [pthread_create] reports success; the number of the thread is what the
    variable [tid] held before. *)
Example fork_gives_no_tid :
  let s := Heap (Proc (mwrite thr_mem 3040 (str "leftover")) 0 []) ∅ 0 0 0 0 1 in
  match pthread_create (K := forks) (H0 := demo_globals) [] (fun _ arg => mret arg) 3056 0 700 9 s with
  | Ret ret s' => Some (ret, mread (hmem s') 3056 8, hkern s')
  | _ => None
  end = Some (0, Some (str "leftover"), [2]).
Proof. vm_compute. reflexivity. Qed.
