(* ===== verification/CxxBase.v ===== *)
(** * What the containers of the C++ library share

    Exceptions nobody catches, the loop that doubles a capacity, and arrays of
    cells of which the first ones hold an element. *)

From S2P Require Import Prelude.

Section Base.
Context {S : Type}.

(** [throw] without a handler: [cxx_terminate] calls [die], which ends the
    program with status 1. *)
Definition throw {X} : M S X := halt 1.

(** [while (ncap < n) ncap *= 2;]  After 64 doublings [ncap] is 0 and stays 0. *)
Definition grow (fuel : nat) (ncap n : Z) : M S Z :=
  loop fuel (fun ncap => mret (if ncap <? n then inl (u64 (ncap * 2)) else inr ncap)) ncap.

(** The doubling loop finds the least capacity that is large enough. *)
Lemma grow_ret (st : S) c n :
  0 < c -> n <= 2 ^ 63 ->
  exists k, grow 66 c n st = Ret (c * 2 ^ k) st /\ 0 <= k /\ n <= c * 2 ^ k /\ (k = 0 \/ c * 2 ^ k < 2 * n).
Proof.
  intros Hc Hn.
  enough (forall f c, 0 < c -> n <= c * 2 ^ Z.of_nat f -> exists k, grow (Datatypes.S f) c n st = Ret (c * 2 ^ k) st /\ 0 <= k /\
    n <= c * 2 ^ k /\ (k = 0 \/ c * 2 ^ k < 2 * n)) as G.
  { apply (G 65%nat); [done|]. change (2 ^ Z.of_nat 65) with (4 * 2 ^ 63). pow2. nia. }
  clear Hc c. induction f as [|f IH]; intros c Hc Hf; unfold grow in *; rewrite loop_S; munfold.
  - destruct (Z.ltb_spec c n); [simpl in Hf; lia|]. exists 0. rewrite Z.mul_1_r. split_and!; [done|lia..].
  - destruct (Z.ltb_spec c n) as [Hlt|]; [|exists 0; rewrite Z.mul_1_r; split_and!; [done|lia..]].
    rewrite uwrap_id by (unfold_int; lia).
    destruct (IH (c * 2)) as (k & E & Hk & Hge & Hor).
    + lia.
    + rewrite Nat2Z.inj_succ, Z.pow_succ_r in Hf by lia. lia.
    + exists (k + 1). rewrite Z.pow_add_r, Z.pow_1_r by lia. replace (c * (2 ^ k * 2)) with (c * 2 * 2 ^ k) by lia.
      split_and!; [exact E|lia|lia|]. right. destruct Hor as [->|]; [rewrite Z.mul_1_r; lia|lia].
Qed.

(** The first [reserve] of more than 2^63 elements does not end: the doubling
    wraps to 0. *)
Lemma grow_spins n (st : S) fuel : 2 ^ 63 < n -> grow fuel 1 n st = Spin.
Proof.
  intros Hn. enough (forall fuel c, (c = 0 \/ exists k, 0 <= k <= 63 /\ c = 2 ^ k) -> grow fuel c n st = Spin) as G.
  { apply G. right. by exists 0. }
  clear fuel. induction fuel as [|fuel IH]; intros c Hcc; [done|]. unfold grow in *. rewrite loop_S. munfold.
  assert (c <= 2 ^ 63) by (destruct Hcc as [->|(k & Hk & ->)]; [lia|apply Z.pow_le_mono_r; lia]).
  rewrite (proj2 (Z.ltb_lt _ _)) by lia. apply IH. destruct Hcc as [->|(k & Hk & ->)]; [by left|].
  destruct (decide (k = 63)) as [->|]; [by left|]. right. exists (k + 1). split; [lia|]. rewrite Z.pow_add_r, Z.pow_1_r by lia.
  apply uwrap_id. split; [lia|]. replace (2 ^ k * 2) with (2 ^ (k + 1)) by (rewrite Z.pow_add_r; lia). apply Z.pow_lt_mono_r; lia.
Qed.

End Base.

(** Cells with the elements [l] and [k] raw ones behind them. *)
Section Cells.
Context {A : Type}.
Implicit Types (l : list A) (x : A).

Definition block_of l (k : nat) : list (option A) := fmap Some l ++ replicate k None.

Lemma block_of_length l k : length (block_of l k) = (length l + k)%nat.
Proof. unfold block_of. by rewrite length_app, length_fmap, length_replicate. Qed.

Lemma block_of_lookup l k i x : l !! i = Some x -> block_of l k !! i = Some (Some x).
Proof. intros Hi. unfold block_of. apply lookup_app_l_Some. by rewrite list_lookup_fmap, Hi. Qed.

(** Construction behind the last element and destruction of the last one. *)
Lemma block_of_snoc l k x : <[length l := Some x]> (block_of l (S k)) = block_of (l ++ [x]) k.
Proof.
  unfold block_of. rewrite insert_app_r_alt by (rewrite length_fmap; lia). rewrite length_fmap, Nat.sub_diag.
  rewrite fmap_app, <- app_assoc. done.
Qed.

Lemma block_of_unsnoc l k x : <[length l := None]> (block_of (l ++ [x]) k) = block_of l (S k).
Proof.
  unfold block_of. rewrite fmap_app, <- app_assoc. rewrite insert_app_r_alt by (rewrite length_fmap; lia).
  by rewrite length_fmap, Nat.sub_diag.
Qed.

Lemma block_of_elements l k : mapM id (take (length l) (block_of l k)) = Some l.
Proof.
  unfold block_of. rewrite take_app_length' by by rewrite length_fmap.
  apply mapM_Some, Forall2_fmap_l. induction l; by constructor.
Qed.

Lemma block_of_raw l k : drop (length l) (block_of l k) = replicate k None.
Proof. unfold block_of. by rewrite drop_app_length' by by rewrite length_fmap. Qed.

End Cells.
