(* ===== verification/CxxAlgo.v ===== *)
(** * Sorting and searching in the C++ library (cxx/algorithm)

    The algorithms are templates over iterators; the containers of this library
    have pointers as iterators.  A pointer is an index into an array of values,
    which is the state; access outside the array is undefined.  The values are
    of a type whose move is a copy, as the pointers and numbers the programs
    keep.  A loop [for (; first != last; ++first)] whose bounds do not meet runs
    out of the array, so the length of the array bounds every loop. *)

From stdpp Require Import sorting.
From S2P Require Import Prelude.

Section Access.
Context {A : Type}.
Implicit Types (l : list A).

Definition rd (i : Z) : M (list A) A := fun l =>
  match (if 0 <=? i then l !! Z.to_nat i else None) with Some x => Ret x l | None => Ub end.

Definition wr (i : Z) (x : A) : M (list A) unit := fun l =>
  if (0 <=? i) && (i <? Z.of_nat (length l)) then Ret tt (<[Z.to_nat i := x]> l) else Ub.

(** [std::swap] of two elements *)
Definition swap (i j : Z) : M (list A) unit :=
  tmp ← rd i;
  y ← rd j;
  _ ← wr i y;
  wr j tmp.

(** One iteration more than there are elements. *)
Definition span_fuel : M (list A) nat := gets (fun l => S (S (length l))).
End Access.

(** ** Sequences *)

Section Sequences.
Context {A : Type}.

Definition all_of (first last : Z) (pred : A -> bool) : M (list A) bool :=
  fuel ← span_fuel;
  loop fuel (fun first =>
    if first =? last then mret (inr true)
    else x ← rd first; mret (if pred x then inl (first + 1) else inr false)) first.

Definition any_of (first last : Z) (pred : A -> bool) : M (list A) bool :=
  fuel ← span_fuel;
  loop fuel (fun first =>
    if first =? last then mret (inr false)
    else x ← rd first; mret (if pred x then inr true else inl (first + 1))) first.

Definition none_of (first last : Z) (pred : A -> bool) : M (list A) bool :=
  fuel ← span_fuel;
  loop fuel (fun first =>
    if first =? last then mret (inr true)
    else x ← rd first; mret (if pred x then inr false else inl (first + 1))) first.

Definition find `{EqDecision A} (first last : Z) (value : A) : M (list A) Z :=
  fuel ← span_fuel;
  loop fuel (fun first =>
    if first =? last then mret (inr first)
    else x ← rd first; mret (if decide (x = value) then inr first else inl (first + 1))) first.

Definition move (first last result : Z) : M (list A) Z :=
  fuel ← span_fuel;
  loop fuel (fun '(first, result) =>
    if first =? last then mret (inr result)
    else x ← rd first; _ ← wr result x; mret (inl (first + 1, result + 1))) (first, result).

Definition move_backward (first last result : Z) : M (list A) Z :=
  fuel ← span_fuel;
  loop fuel (fun '(last, result) =>
    if first =? last then mret (inr result)
    else x ← rd (last - 1); _ ← wr (result - 1) x; mret (inl (last - 1, result - 1))) (last, result).

Definition fill (first last : Z) (value : A) : M (list A) unit :=
  fuel ← span_fuel;
  loop fuel (fun first =>
    if first =? last then mret (inr tt)
    else _ ← wr first value; mret (inl (first + 1))) first.
End Sequences.

(** ** Sorting and searching *)

Section Sorting.
Context {A : Type} (comp : A -> A -> bool).

(** [min] and [max] without a comparison function use [<]. *)
Definition min (a b : A) : A := if comp b a then b else a.
Definition max (a b : A) : A := if comp a b then b else a.

(** The partition loop of [sort]; it returns [store]. *)
Definition partition_step (pivot : Z) (st : Z * Z) : M (list A) (Z * Z + Z) :=
  let '(it, store) := st in
  if it =? pivot then mret (inr store)
  else
    x ← rd it;
    p ← rd pivot;
    if comp x p then _ ← swap store it; mret (inl (it + 1, store + 1))
    else mret (inl (it + 1, store)).

Definition partition_loop (first pivot : Z) : M (list A) Z :=
  fuel ← span_fuel;
  loop fuel (partition_step pivot) (first, first).

(** Each call sorts fewer elements: the number of elements bounds the depth. *)
Fixpoint sort_loop (fuel : nat) (first last : Z) : M (list A) unit :=
  match fuel with
  | O => spin
  | S fuel =>
      let dist := last - first in
      if dist <=? 1 then mret tt
      else
        let pivot := last - 1 in
        _ ← swap (first + dist / 2) pivot;
        store ← partition_loop first pivot;
        _ ← swap store pivot;
        _ ← sort_loop fuel first store;
        sort_loop fuel (store + 1) last
  end.

Definition sort (first last : Z) : M (list A) unit := sort_loop (S (Z.to_nat (last - first))) first last.

Definition is_sorted_until (first last : Z) : M (list A) Z :=
  if last - first <? 2 then mret last
  else
    fuel ← span_fuel;
    loop fuel (fun '(next, first) =>
      if next =? last then mret (inr next)
      else
        x ← rd next;
        y ← rd first;
        mret (if comp x y then inr next else inl (next + 1, first + 1))) (first + 1, first).

Definition is_sorted (first last : Z) : M (list A) bool :=
  r ← is_sorted_until first last; mret (r =? last).
End Sorting.

Section Searching.
Context {A T : Type}.

(** The distance shrinks in every iteration. *)
Definition lower_bound (comp : A -> T -> bool) (first last : Z) (value : T) : M (list A) Z :=
  loop (S (Z.to_nat (last - first))) (fun '(first, dist) =>
    if 0 <? dist then
      let mid := first + dist / 2 in
      x ← rd mid;
      mret (if comp x value then inl (mid + 1, dist - dist / 2 - 1) else inl (first, dist / 2))
    else mret (inr first)) (first, last - first).

Definition upper_bound (comp : T -> A -> bool) (first last : Z) (value : T) : M (list A) Z :=
  loop (S (Z.to_nat (last - first))) (fun '(first, dist) =>
    if 0 <? dist then
      let mid := first + dist / 2 in
      x ← rd mid;
      mret (if comp value x then inl (first, dist / 2) else inl (mid + 1, dist - dist / 2 - 1))
    else mret (inr first)) (first, last - first).
End Searching.

(** ** Ranges

    A range is a list [h] inside an array [pre ++ h ++ post]. *)

Section Ranges.
Context {A : Type}.
Implicit Types (pre h post : list A).

Lemma rd_ret (l : list A) i x : l !! i = Some x -> rd (Z.of_nat i) l = Ret x l.
Proof. intros Hx. unfold rd. rewrite (proj2 (Z.leb_le _ _)) by lia. by rewrite Nat2Z.id, Hx. Qed.

Lemma wr_ret (l : list A) i x : (i < length l)%nat -> wr (Z.of_nat i) x l = Ret tt (<[i := x]> l).
Proof.
  intros Hi. unfold wr. rewrite (proj2 (Z.leb_le _ _)), (proj2 (Z.ltb_lt _ _)) by lia. simpl. by rewrite Nat2Z.id.
Qed.

Lemma rd_range pre h post i x :
  h !! i = Some x -> rd (Z.of_nat (length pre) + Z.of_nat i) (pre ++ h ++ post) = Ret x (pre ++ h ++ post).
Proof.
  intros Hx. rewrite <- Nat2Z.inj_add. apply rd_ret. rewrite lookup_app_r by lia.
  replace (length pre + i - length pre)%nat with i by lia. by apply lookup_app_l_Some.
Qed.

Lemma wr_range pre h post i x :
  (i < length h)%nat ->
  wr (Z.of_nat (length pre) + Z.of_nat i) x (pre ++ h ++ post) = Ret tt (pre ++ <[i := x]> h ++ post).
Proof.
  intros Hi. rewrite <- Nat2Z.inj_add, wr_ret by (rewrite !length_app; lia).
  rewrite insert_app_r, insert_app_l by done. done.
Qed.

(** Two elements change places. *)
Definition exchange (i j : nat) (h : list A) : list A :=
  match h !! i, h !! j with Some x, Some y => <[j := x]> (<[i := y]> h) | _, _ => h end.

Lemma swap_range pre h post i j :
  (i < length h)%nat -> (j < length h)%nat ->
  swap (Z.of_nat (length pre) + Z.of_nat i) (Z.of_nat (length pre) + Z.of_nat j) (pre ++ h ++ post)
  = Ret tt (pre ++ exchange i j h ++ post).
Proof.
  intros [x Hx]%lookup_lt_is_Some [y Hy]%lookup_lt_is_Some. unfold swap, exchange. rewrite Hx, Hy.
  mrun (rd_range pre h post i x Hx). mrun (rd_range pre h post j y Hy).
  mrun (wr_range pre h post i y (lookup_lt_Some _ _ _ Hx)).
  apply wr_range. rewrite length_insert. by eapply lookup_lt_Some.
Qed.

Lemma exchange_length i j h : length (exchange i j h) = length h.
Proof. unfold exchange. destruct (h !! i), (h !! j); by rewrite ?length_insert. Qed.

Lemma exchange_same i h : exchange i i h = h.
Proof.
  unfold exchange. destruct (h !! i) as [x|] eqn:E; [|done]. by rewrite list_insert_insert_eq, list_insert_id.
Qed.

Lemma exchange_app (p m q : list A) x y :
  exchange (length p) (length p + S (length m)) (p ++ x :: m ++ y :: q) = p ++ y :: m ++ x :: q.
Proof.
  unfold exchange. rewrite list_lookup_middle by done.
  assert ((p ++ x :: m ++ y :: q) !! (length p + S (length m))%nat = Some y) as ->.
  { rewrite lookup_app_r by lia. replace (length p + S (length m) - length p)%nat with (S (length m)) by lia.
    simpl. by rewrite list_lookup_middle. }
  rewrite insert_app_r_alt by lia. rewrite Nat.sub_diag. simpl. rewrite insert_app_r_alt by lia.
  replace (length p + S (length m) - length p)%nat with (S (length m)) by lia. simpl.
  by rewrite insert_app_r_alt, Nat.sub_diag by lia.
Qed.

Lemma exchange_perm i j h : exchange i j h ≡ₚ h.
Proof.
  unfold exchange. destruct (h !! i) eqn:?, (h !! j) eqn:?; try done. by apply Permutation_insert_swap.
Qed.

(** The element behind a block moves in front of it. *)
Lemma exchange_front (p m q : list A) y :
  exists m', m' ≡ₚ m /\ exchange (length p) (length p + length m) (p ++ m ++ y :: q) = p ++ y :: m' ++ q.
Proof.
  destruct m as [|x m].
  - exists []. split; [done|]. simpl. rewrite Nat.add_0_r. apply exchange_same.
  - exists (m ++ [x]). split; [by rewrite Permutation_app_comm|]. simpl. rewrite <- app_assoc. apply exchange_app.
Qed.
End Ranges.

(** [move] towards the front of the array: the elements [c] move over [h]. *)
Lemma move_ret {A} (a h c : list A) :
  exists h', length h' = length h /\
    move (Z.of_nat (length a + length h)) (Z.of_nat (length (a ++ h ++ c))) (Z.of_nat (length a)) (a ++ h ++ c)
    = Ret (Z.of_nat (length a + length c)) (a ++ c ++ h').
Proof.
  unfold move, span_fuel. munfold. rewrite !length_app. set (last := (length a + (length h + length c))%nat). loop_body B.
  enough (forall fuel a h c, (length c < fuel)%nat -> last = (length a + (length h + length c))%nat ->
    exists h', length h' = length h /\
      loop fuel B (Z.of_nat (length a + length h), Z.of_nat (length a)) (a ++ h ++ c)
      = Ret (Z.of_nat (length a + length c)) (a ++ c ++ h')) as G by (apply G; [lia|done]).
  clearbody last. clear a h c. induction fuel as [|fuel IH]; intros a h c Hf Hlast; [lia|]. rewrite loop_S. unfold B at 1.
  destruct c as [|x c]; cbn [length] in Hf, Hlast.
  { rewrite (proj2 (Z.eqb_eq _ _)) by lia. exists h. cbn [length]. by rewrite app_nil_r, Nat.add_0_r. }
  rewrite (proj2 (Z.eqb_neq _ _)) by lia. munfold.
  rewrite (rd_ret _ (length a + length h) x).
  2:{ rewrite app_assoc. apply list_lookup_middle. by rewrite length_app. }
  rewrite wr_ret by (rewrite !length_app; simpl; lia).
  rewrite insert_app_r_alt, Nat.sub_diag by lia. destruct h as [|y h]; cbn [length app] in Hlast |- *.
  - destruct (IH (a ++ [x]) [] c) as (h' & Hh & E); [lia|rewrite length_app; simpl; lia|].
    exists h'. split; [done|]. revert E. rewrite length_app, <- !app_assoc. cbn [length app list_insert insert].
    replace (Z.of_nat (length a + 0) + 1) with (Z.of_nat (length a + 1 + 0)) by lia.
    replace (Z.of_nat (length a) + 1) with (Z.of_nat (length a + 1)) by lia.
    by replace (length a + 1 + length c)%nat with (length a + S (length c))%nat by lia.
  - destruct (IH (a ++ [x]) (h ++ [x]) c) as (h' & Hh & E); [lia|rewrite !length_app; simpl; lia|].
    rewrite length_app in Hh. simpl in Hh. exists h'. split; [lia|]. revert E. rewrite !length_app, <- !app_assoc.
    cbn [length app list_insert insert].
    replace (Z.of_nat (length a + S (length h)) + 1) with (Z.of_nat (length a + 1 + (length h + 1))) by lia.
    replace (Z.of_nat (length a) + 1) with (Z.of_nat (length a + 1)) by lia.
    by replace (length a + 1 + length c)%nat with (length a + S (length c))%nat by lia.
Qed.

Lemma algo_fill_ret {A} (a h c : list A) x :
  fill (Z.of_nat (length a)) (Z.of_nat (length a + length h)) x (a ++ h ++ c) = Ret tt (a ++ replicate (length h) x ++ c).
Proof.
  unfold fill, span_fuel. munfold. set (last := (length a + length h)%nat). loop_body B.
  enough (forall fuel a h, (length h < fuel)%nat -> last = (length a + length h)%nat ->
    loop fuel B (Z.of_nat (length a)) (a ++ h ++ c) = Ret tt (a ++ replicate (length h) x ++ c)) as G
    by (apply G; [rewrite !length_app; lia|done]).
  clearbody last. clear a h. induction fuel as [|fuel IH]; intros a h Hf Hlast; [lia|]. rewrite loop_S. unfold B at 1.
  destruct h as [|y h]; cbn [length] in *; [by rewrite (proj2 (Z.eqb_eq _ _)) by lia|]. rewrite (proj2 (Z.eqb_neq _ _)) by lia.
  munfold. rewrite wr_ret by (rewrite !length_app; simpl; lia). rewrite insert_app_r_alt, Nat.sub_diag by lia.
  specialize (IH (a ++ [x]) h). revert IH. rewrite !length_app, <- !app_assoc. cbn [length app list_insert insert replicate].
  replace (Z.of_nat (length a) + 1) with (Z.of_nat (length a + 1)) by lia. intros IH. apply IH; lia.
Qed.

(** ** Correctness of [sort] *)

(** What the callers promise of the comparison: a strict weak order. *)
Class StrictWeak {A} (comp : A -> A -> bool) : Prop := {
  swo_asym x y : comp x y = true -> comp y x = false;
  swo_trans x y z : comp y x = false -> comp z y = false -> comp z x = false
}.

Section SortCorrect.
Context {A : Type} (comp : A -> A -> bool) `{!StrictWeak comp}.
Implicit Types (pre h lo hi rest post : list A).

(** [y] may come behind [x]. *)
Definition ordered (x y : A) : Prop := comp y x = false.

#[local] Instance ordered_trans : Transitive ordered.
Proof. intros x y z. apply swo_trans. Qed.

Lemma comp_ordered x y : comp x y = true -> ordered x y.
Proof. apply swo_asym. Qed.

Lemma algo_partition_ret pv p rest pre lo hi post fuel :
  pv = Z.of_nat (length pre) + Z.of_nat (length lo + length hi + length rest) ->
  Forall (fun x => comp x p = true) lo -> Forall (fun x => comp x p = false) hi -> (length rest < fuel)%nat ->
  exists lo' hi',
    loop fuel (partition_step comp pv)
      (Z.of_nat (length pre) + Z.of_nat (length lo + length hi), Z.of_nat (length pre) + Z.of_nat (length lo))
      (pre ++ (lo ++ hi ++ rest ++ [p]) ++ post)
    = Ret (Z.of_nat (length pre) + Z.of_nat (length lo')) (pre ++ (lo' ++ hi' ++ [p]) ++ post) /\
    lo' ++ hi' ≡ₚ lo ++ hi ++ rest /\
    Forall (fun x => comp x p = true) lo' /\ Forall (fun x => comp x p = false) hi'.
Proof.
  revert lo hi fuel. induction rest as [|x rest IH]; intros lo hi [|fuel] Hpv Hlo Hhi Hf; cbn [length] in *; try lia.
  { rewrite loop_S. unfold partition_step. rewrite Hpv, Nat.add_0_r, Z.eqb_refl. exists lo, hi. by rewrite app_nil_r. }
  rewrite loop_S. unfold partition_step at 1. rewrite (proj2 (Z.eqb_neq _ pv)) by lia.
  set (h := lo ++ hi ++ (x :: rest) ++ [p]).
  assert (h !! (length lo + length hi)%nat = Some x) as Hx.
  { unfold h. rewrite app_assoc. apply list_lookup_middle. by rewrite length_app. }
  assert (h !! (length lo + length hi + S (length rest))%nat = Some p) as Hp.
  { unfold h. rewrite !app_assoc. apply list_lookup_middle. rewrite !length_app. simpl. lia. }
  pose proof (rd_range pre h post _ p Hp) as Rp. rewrite <- Hpv in Rp.
  mrun (rd_range pre h post _ x Hx). mrun Rp. destruct (comp x p) eqn:E.
  - assert (length lo < length h /\ length lo + length hi < length h)%nat as [H1 H2].
    { unfold h. rewrite !length_app. simpl. lia. }
    mrun (swap_range pre h post _ _ H1 H2). unfold h. cbn [app].
    destruct (exchange_front lo hi (rest ++ [p]) x) as (hi' & Hperm & ->).
    pose proof (Permutation_length Hperm) as Hl.
    destruct (IH (lo ++ [x]) hi' fuel) as (lo2 & hi2 & EL & HP & H3 & H4).
    + rewrite length_app. simpl. lia.
    + apply list.Forall_app. by split; [|constructor].
    + by rewrite Hperm.
    + lia.
    + exists lo2, hi2. split_and!; [|rewrite HP, Hperm; solve_Permutation|done|done].
      rewrite <- EL, length_app. cbn [length]. f_equal; [f_equal; lia|rewrite <- !app_assoc; simpl; by rewrite <- ?app_assoc].
  - destruct (IH lo (hi ++ [x]) fuel) as (lo2 & hi2 & EL & HP & H3 & H4).
    + rewrite length_app. simpl. lia.
    + done.
    + apply list.Forall_app. by split; [|constructor].
    + lia.
    + exists lo2, hi2. split_and!; [|rewrite HP; by rewrite <- app_assoc|done|done].
      rewrite <- EL, length_app. cbn [length]. unfold h. f_equal; [f_equal; lia|rewrite <- !app_assoc; simpl; by rewrite <- ?app_assoc].
Qed.

Lemma partition_loop_ret pre xs p post :
  exists lo hi,
    partition_loop comp (Z.of_nat (length pre)) (Z.of_nat (length pre) + Z.of_nat (length xs)) (pre ++ (xs ++ [p]) ++ post)
    = Ret (Z.of_nat (length pre) + Z.of_nat (length lo)) (pre ++ (lo ++ hi ++ [p]) ++ post) /\
    lo ++ hi ≡ₚ xs /\ Forall (fun x => comp x p = true) lo /\ Forall (fun x => comp x p = false) hi.
Proof.
  destruct (algo_partition_ret (Z.of_nat (length pre) + Z.of_nat (length xs)) p xs pre [] [] post
    (S (S (length (pre ++ (xs ++ [p]) ++ post))))) as (lo & hi & E & H); [done..|rewrite !length_app; lia|].
  exists lo, hi. split; [|exact H]. rewrite <- E. unfold partition_loop. cbn [length Nat.add Z.of_nat app]. by rewrite !Z.add_0_r.
Qed.

(** The middle element goes to the end. *)
Lemma pivot_last h :
  (1 < length h)%nat -> exists xs p, exchange (length h / 2) (length h - 1) h = xs ++ [p] /\ xs ++ [p] ≡ₚ h.
Proof.
  intros Hl. pose proof (exchange_perm (length h / 2) (length h - 1) h) as HP.
  destruct (exchange _ _ h) as [|y ys _] using rev_ind.
  { apply Permutation_nil in HP. subst h. simpl in Hl. lia. }
  by exists ys, y.
Qed.

Lemma sorted_middle lo p hi :
  StronglySorted ordered lo -> StronglySorted ordered hi -> Forall (fun x => ordered x p) lo -> Forall (ordered p) hi ->
  StronglySorted ordered (lo ++ p :: hi).
Proof.
  rewrite !list.Forall_forall. intros S1 S2 H1 H2. apply StronglySorted_app_2; [|done|].
  - intros x y Hx [->|Hy]%elem_of_cons; [auto|]. transitivity p; auto.
  - constructor; [done|]. by apply list.Forall_forall.
Qed.

Lemma sort_loop_ret fuel pre h post :
  (length h < fuel)%nat ->
  exists h', sort_loop comp fuel (Z.of_nat (length pre)) (Z.of_nat (length pre) + Z.of_nat (length h)) (pre ++ h ++ post)
    = Ret tt (pre ++ h' ++ post) /\ h' ≡ₚ h /\ StronglySorted ordered h'.
Proof.
  revert pre h post. induction fuel as [|fuel IH]; intros pre h post Hf; [lia|]. cbn [sort_loop].
  set (b := Z.of_nat (length pre)) in *.
  replace (b + Z.of_nat (length h) - b) with (Z.of_nat (length h)) by lia.
  destruct (Z.leb_spec (Z.of_nat (length h)) 1) as [H1|H1].
  { exists h. split_and!; [done..|]. destruct h as [|x [|y h]]; cbn [length] in H1; try lia; repeat constructor. }
  destruct (pivot_last h) as (xs & p & Ex & Hxs); [lia|].
  pose proof (Permutation_length Hxs) as Hlx. rewrite length_app in Hlx. simpl in Hlx.
  replace (b + Z.of_nat (length h) / 2) with (b + Z.of_nat (length h / 2)) by (rewrite Nat2Z.inj_div; lia).
  replace (b + Z.of_nat (length h) - 1) with (b + Z.of_nat (length h - 1)) by lia.
  mrun (swap_range pre h post (length h / 2) (length h - 1) ltac:(apply Nat.div_lt; lia) ltac:(lia)). rewrite Ex.
  replace (length h - 1)%nat with (length xs) by lia.
  destruct (partition_loop_ret pre xs p post) as (lo & hi & EL & HP & Hlo & Hhi). mrun EL.
  pose proof (Permutation_length HP) as Hll. rewrite length_app in Hll. fold b.
  replace (length xs) with (length lo + length hi)%nat by lia.
  mrun (swap_range pre (lo ++ hi ++ [p]) post (length lo) (length lo + length hi)
    ltac:(rewrite !length_app; simpl; lia) ltac:(rewrite !length_app; simpl; lia)).
  destruct (exchange_front lo hi [] p) as (hi' & Hhi' & ->). rewrite app_nil_r.
  pose proof (Permutation_length Hhi') as Hlh.
  destruct (IH pre lo ((p :: hi') ++ post)) as (lo2 & E2 & P2 & S2); [lia|].
  rewrite <- app_assoc. mrun E2. pose proof (Permutation_length P2) as Hl2.
  destruct (IH (pre ++ lo2 ++ [p]) hi' post) as (hi2 & E3 & P3 & S3); [lia|].
  exists (lo2 ++ p :: hi2). split_and!.
  - revert E3. rewrite !length_app. cbn [length]. rewrite <- !app_assoc. cbn [app].
    replace (b + Z.of_nat (length lo) + 1) with (Z.of_nat (length pre + (length lo2 + 1))) by lia.
    replace (b + Z.of_nat (length h)) with (Z.of_nat (length pre + (length lo2 + 1)) + Z.of_nat (length hi')) by lia.
    done.
  - rewrite P2, P3, Hhi', <- Hxs, <- HP. solve_Permutation.
  - apply sorted_middle; [done|done|rewrite P2|rewrite P3, Hhi'; exact Hhi].
    eapply Forall_impl; [|exact Hlo]. intros x. apply comp_ordered.
Qed.

(** C33: for a strict weak order, [sort] terminates and sorts: it permutes the
    range into an order in which no element is less than one before it, and
    touches nothing outside the range. *)
Theorem sort_correct pre h post :
  exists h', sort comp (Z.of_nat (length pre)) (Z.of_nat (length pre) + Z.of_nat (length h)) (pre ++ h ++ post)
    = Ret tt (pre ++ h' ++ post) /\ h' ≡ₚ h /\ StronglySorted ordered h'.
Proof. unfold sort. apply sort_loop_ret. lia. Qed.
End SortCorrect.

(** ** Correctness of the searches *)

Section SearchCorrect.
Context {A T : Type}.
Implicit Types (pre lo hi post : list A).

(** Both searches narrow the range to the point where a test changes its value. *)
Lemma bisect_ret (f : A -> bool) (step : Z * Z -> M (list A) (Z * Z + Z)) pre lo hi post :
  (forall first dist l, step (first, dist) l = (if 0 <? dist then
     x ← rd (first + dist / 2);
     mret (if f x then inl (first + dist / 2 + 1, dist - dist / 2 - 1) else inl (first, dist / 2))
   else mret (inr first)) l) ->
  Forall (fun x => f x = true) lo -> Forall (fun x => f x = false) hi ->
  loop (S (length (lo ++ hi))) step (Z.of_nat (length pre), Z.of_nat (length (lo ++ hi))) (pre ++ (lo ++ hi) ++ post)
  = Ret (Z.of_nat (length pre) + Z.of_nat (length lo)) (pre ++ (lo ++ hi) ++ post).
Proof.
  intros Hstep Hlo Hhi. set (l := pre ++ (lo ++ hi) ++ post).
  enough (forall fuel i d, (d < fuel)%nat -> (i <= length lo <= i + d)%nat -> (i + d <= length (lo ++ hi))%nat ->
    loop fuel step (Z.of_nat (length pre) + Z.of_nat i, Z.of_nat d) l = Ret (Z.of_nat (length pre) + Z.of_nat (length lo)) l) as G.
  { rewrite <- (Z.add_0_r (Z.of_nat (length pre))) at 1. apply (G _ 0%nat); rewrite ?length_app; lia. }
  induction fuel as [|fuel IH]; intros i d Hd Hi Hid; [lia|]. rewrite loop_S, Hstep.
  destruct (Z.ltb_spec 0 (Z.of_nat d)) as [H0|H0]; [|munfold; f_equal; lia].
  destruct (lookup_lt_is_Some_2 (lo ++ hi) (i + d / 2)) as [x Hx].
  { pose proof (Nat.div_lt d 2 ltac:(lia) ltac:(lia)). lia. }
  pose proof (rd_range pre (lo ++ hi) post _ x Hx) as R. fold l in R.
  pose proof (Nat.div_lt d 2 ltac:(lia) ltac:(lia)) as Hlt.
  replace (Z.of_nat (length pre) + Z.of_nat i + Z.of_nat d / 2) with (Z.of_nat (length pre) + Z.of_nat (i + d / 2))
    by (rewrite Nat2Z.inj_add, Nat2Z.inj_div; lia).
  replace (Z.of_nat d - Z.of_nat d / 2 - 1) with (Z.of_nat (d - d / 2 - 1)) by (rewrite !Nat2Z.inj_sub, Nat2Z.inj_div; lia).
  replace (Z.of_nat d / 2) with (Z.of_nat (d / 2)) by (rewrite Nat2Z.inj_div; lia).
  mrun R. cbn -[Nat.div]. rewrite list.Forall_forall in Hlo, Hhi. destruct (f x) eqn:Ef.
  - assert (i + d / 2 < length lo)%nat as Hm.
    { destruct (decide (i + d / 2 < length lo)%nat); [done|]. rewrite lookup_app_r in Hx by lia.
      rewrite (Hhi x) in Ef; [done|]. by eapply list_elem_of_lookup_2. }
    replace (Z.of_nat (length pre) + Z.of_nat (i + d / 2) + 1) with (Z.of_nat (length pre) + Z.of_nat (i + d / 2 + 1)) by lia.
    apply IH; lia.
  - assert (length lo <= i + d / 2)%nat as Hm.
    { destruct (decide (length lo <= i + d / 2)%nat); [done|]. rewrite lookup_app_l in Hx by lia.
      rewrite (Hlo x) in Ef; [done|]. by eapply list_elem_of_lookup_2. }
    apply IH; lia.
Qed.

Lemma lower_bound_ret (comp : A -> T -> bool) v pre lo hi post :
  Forall (fun x => comp x v = true) lo -> Forall (fun x => comp x v = false) hi ->
  lower_bound comp (Z.of_nat (length pre)) (Z.of_nat (length pre) + Z.of_nat (length (lo ++ hi))) v (pre ++ (lo ++ hi) ++ post)
  = Ret (Z.of_nat (length pre) + Z.of_nat (length lo)) (pre ++ (lo ++ hi) ++ post).
Proof.
  intros Hlo Hhi. unfold lower_bound.
  replace (Z.of_nat (length pre) + Z.of_nat (length (lo ++ hi)) - Z.of_nat (length pre)) with (Z.of_nat (length (lo ++ hi))) by lia.
  rewrite Nat2Z.id. by apply (bisect_ret (fun x => comp x v)).
Qed.

Lemma upper_bound_ret (comp : T -> A -> bool) v pre lo hi post :
  Forall (fun x => comp v x = false) lo -> Forall (fun x => comp v x = true) hi ->
  upper_bound comp (Z.of_nat (length pre)) (Z.of_nat (length pre) + Z.of_nat (length (lo ++ hi))) v (pre ++ (lo ++ hi) ++ post)
  = Ret (Z.of_nat (length pre) + Z.of_nat (length lo)) (pre ++ (lo ++ hi) ++ post).
Proof.
  intros Hlo Hhi. unfold upper_bound.
  replace (Z.of_nat (length pre) + Z.of_nat (length (lo ++ hi)) - Z.of_nat (length pre)) with (Z.of_nat (length (lo ++ hi))) by lia.
  rewrite Nat2Z.id. apply (bisect_ret (fun x => negb (comp v x))).
  - intros first dist l. destruct (0 <? dist); [|done]. munfold.
    destruct (rd (first + dist / 2) l) as [x l'| | |]; [|done..]. by destruct (comp v x).
  - eapply Forall_impl; [|exact Hlo]. simpl. by intros x ->.
  - eapply Forall_impl; [|exact Hhi]. simpl. by intros x ->.
Qed.
End SearchCorrect.

Section Bounds.
Context {A : Type} (comp : A -> A -> bool) `{!StrictWeak comp}.
Implicit Types (pre h post : list A).

(** A sorted list is cut by a value into the elements less than it, those
    equivalent to it and those greater. *)
Lemma sorted_split h v :
  StronglySorted (ordered comp) h ->
  exists lo eq hi, h = lo ++ eq ++ hi /\ Forall (fun x => comp x v = true) lo /\
    Forall (fun x => comp x v = false /\ comp v x = false) eq /\ Forall (fun x => comp v x = true) hi.
Proof.
  induction 1 as [|x h Hs IH Hx]; [by exists [], [], []|]. destruct IH as (lo & eq & hi & -> & Hlo & Heq & Hhi).
  rewrite list.Forall_forall in Hx. destruct (comp x v) eqn:E1; [exists (x :: lo), eq, hi; split_and!; [done|by constructor|done..]|].
  assert (forall y, y ∈ lo ++ eq ++ hi -> comp y v = false) as Hge.
  { intros y Hy. apply (swo_trans v x y); [done|by apply Hx]. }
  assert (lo = []) as ->.
  { destruct lo as [|y lo]; [done|]. apply List.Forall_cons_iff in Hlo as [Hy _]. rewrite Hge in Hy; set_solver. }
  destruct (comp v x) eqn:E2; [|exists [], (x :: eq), hi; split_and!; [done..|by constructor|done]].
  exists [], [], (x :: eq ++ hi). split_and!; [done..|]. constructor; [done|]. apply list.Forall_forall. intros y Hy.
  destruct (comp v y) eqn:E3; [done|]. assert (comp v x = false); [|congruence].
  apply (swo_trans x y v); [by apply Hx|done].
Qed.

(** On a sorted range, [lower_bound] and [upper_bound] terminate and return
    the two ends of the elements equivalent to the value: everything before the
    first result is less, everything from the second on is greater. *)
Theorem bounds_correct pre h post v :
  StronglySorted (ordered comp) h ->
  exists lo eq hi, h = lo ++ eq ++ hi /\ Forall (fun x => comp x v = true) lo /\
    Forall (fun x => comp x v = false /\ comp v x = false) eq /\ Forall (fun x => comp v x = true) hi /\
    lower_bound comp (Z.of_nat (length pre)) (Z.of_nat (length pre) + Z.of_nat (length h)) v (pre ++ h ++ post)
    = Ret (Z.of_nat (length pre + length lo)) (pre ++ h ++ post) /\
    upper_bound comp (Z.of_nat (length pre)) (Z.of_nat (length pre) + Z.of_nat (length h)) v (pre ++ h ++ post)
    = Ret (Z.of_nat (length pre + length lo + length eq)) (pre ++ h ++ post).
Proof.
  intros Hs. destruct (sorted_split h v Hs) as (lo & eq & hi & -> & Hlo & Heq & Hhi).
  exists lo, eq, hi. split_and!; [done..| |].
  - rewrite lower_bound_ret; [f_equal; lia|done|]. apply list.Forall_app. split.
    + eapply Forall_impl; [|exact Heq]. by intros x [? _].
    + eapply Forall_impl; [|exact Hhi]. intros x. apply swo_asym.
  - rewrite (app_assoc lo eq hi), upper_bound_ret; [rewrite length_app; f_equal; lia| |done]. apply list.Forall_app. split.
    + eapply Forall_impl; [|exact Hlo]. intros x. apply swo_asym.
    + eapply Forall_impl; [|exact Heq]. by intros x [_ ?].
Qed.
End Bounds.

(** ** Examples *)

#[export] Instance ltb_strict_weak : StrictWeak Z.ltb.
Proof.
  split.
  - intros x y Hxy%Z.ltb_lt. apply Z.ltb_ge. lia.
  - intros x y z H1%Z.ltb_ge H2%Z.ltb_ge. apply Z.ltb_ge. lia.
Qed.

Lemma sort_correct_witness :
  exists h', sort Z.ltb 1 5 [9; 3; 1; 2; 3; 0] = Ret tt ([9] ++ h' ++ [0]) /\ h' ≡ₚ [3; 1; 2; 3] /\
    StronglySorted (ordered Z.ltb) h'.
Proof. exact (sort_correct Z.ltb [9] [3; 1; 2; 3] [0]). Defined.

Lemma bounds_correct_witness :
  exists lo eq hi, [1; 2; 2; 5] = lo ++ eq ++ hi /\ Forall (fun x => (x <? 2) = true) lo /\
    Forall (fun x => (x <? 2) = false /\ (2 <? x) = false) eq /\ Forall (fun x => (2 <? x) = true) hi /\
    lower_bound Z.ltb 1 5 2 [9; 1; 2; 2; 5; 0] = Ret (Z.of_nat (1 + length lo)) [9; 1; 2; 2; 5; 0] /\
    upper_bound Z.ltb 1 5 2 [9; 1; 2; 2; 5; 0] = Ret (Z.of_nat (1 + length lo + length eq)) [9; 1; 2; 2; 5; 0].
Proof.
  apply (bounds_correct Z.ltb [9] [1; 2; 2; 5] [0] 2). repeat constructor.
Defined.
