(* ===== verification/CxxHeap.v ===== *)
(** * Heap operations of the C++ library (cxx/algorithm)

    A heap is a range in which no element is greater than its parent, the
    element at [(i - 1) / 2].  The operations move a value along a path by
    shifting the other values of the path by one place, so that in between one
    place of the array holds a stale copy. *)

From stdpp Require Import sorting.
From S2P Require Import Prelude CxxAlgo.

Section Heap.
Context {A : Type} (comp : A -> A -> bool).

(** [pos] decreases. *)
Definition __move_up (first pos : Z) : M (list A) unit :=
  val ← rd (first + pos);
  pos ← loop (S (Z.to_nat pos)) (fun pos =>
    let parent := Z.quot (pos - 1) 2 in
    if 0 <? pos then
      p ← rd (first + parent);
      if comp p val then _ ← wr (first + pos) p; mret (inl parent) else mret (inr pos)
    else mret (inr pos)) pos;
  wr (first + pos) val.

(** The position of the larger child of [pos], the left one if there is no
    other. *)
Definition larger_child (first pos len : Z) : M (list A) Z :=
  let childpos := 2 * pos + 1 in
  let rightpos := childpos + 1 in
  if rightpos <? len then
    r ← rd (first + rightpos);
    c ← rd (first + childpos);
    mret (if negb (comp r c) then rightpos else childpos)
  else mret childpos.

(** [pos] increases up to [len]. *)
Definition __move_down (first pos len : Z) : M (list A) unit :=
  val ← rd (first + pos);
  loop (S (Z.to_nat (len - pos))) (fun pos =>
    childpos ← larger_child first pos len;
    stop ← (if len <=? childpos then mret true else c ← rd (first + childpos); mret (comp c val));
    if stop : bool then _ ← wr (first + pos) val; mret (inr tt)
    else x ← rd (first + childpos); _ ← wr (first + pos) x; mret (inl childpos)) pos.

Definition push_heap (first last : Z) : M (list A) unit := __move_up first (last - first - 1).

Definition pop_heap (first last : Z) : M (list A) unit :=
  if last - first <=? 1 then mret tt
  else
    let last := last - 1 in
    _ ← swap first last;
    __move_down first 0 (last - first).

Definition make_heap (first last : Z) : M (list A) unit :=
  let len := last - first in
  loop (S (Z.to_nat len)) (fun i =>
    if 0 <? i then _ ← __move_down first (i - 1) len; mret (inl (i - 1)) else mret (inr tt)) (Z.quot len 2).

Definition sort_heap (first last : Z) : M (list A) unit :=
  loop (S (Z.to_nat (last - first))) (fun last =>
    if first =? last then mret (inr tt) else _ ← pop_heap first last; mret (inl (last - 1))) last.

Definition is_heap_until (first last : Z) : M (list A) Z :=
  if first =? last then mret last
  else
    fuel ← span_fuel;
    loop fuel (fun pos =>
      if pos =? last then mret (inr pos)
      else
        let parent := first + Z.quot (pos - first - 1) 2 in
        p ← rd parent;
        x ← rd pos;
        mret (if comp p x then inr pos else inl (pos + 1))) (first + 1).

Definition is_heap (first last : Z) : M (list A) bool :=
  r ← is_heap_until first last; mret (r =? last).
End Heap.

(** ** Positions *)

Definition parent (i : nat) : nat := ((i - 1) / 2)%nat.

Lemma parent_spec i : (0 < i)%nat -> (i = 2 * parent i + 1 \/ i = 2 * parent i + 2)%nat.
Proof. intros Hi. unfold parent. pose proof (Nat.div_mod (i - 1) 2 ltac:(lia)). pose proof (Nat.mod_upper_bound (i - 1) 2). lia. Qed.

Lemma parent_quot i : (0 < i)%nat -> Z.quot (Z.of_nat i - 1) 2 = Z.of_nat (parent i).
Proof.
  intros Hi. rewrite Z.quot_div_nonneg by lia. unfold parent. rewrite Nat2Z.inj_div. f_equal. lia.
Qed.

#[global] Opaque parent.

Section HeapCorrect.
Context {A : Type} (comp : A -> A -> bool) `{!StrictWeak comp}.
Implicit Types (pre h g post : list A) (x y z : A) (i p c n : nat).

(** [x] is not less than [y]. *)
Definition geq (x y : A) : Prop := comp x y = false.

Lemma geq_trans x y z : geq x y -> geq y z -> geq x z.
Proof. intros H1 H2. by apply (swo_trans z y x). Qed.

Lemma geq_of x y : comp y x = true -> geq x y.
Proof. apply swo_asym. Qed.

(** The elements at two positions. *)
Definition edge h i j : Prop := forall x y, h !! i = Some x -> h !! j = Some y -> geq x y.

(** The first [n] elements are a heap from position [lo] on. *)
Definition heap_from (lo n : nat) h : Prop :=
  forall i, (0 < i < n)%nat -> (lo <= parent i)%nat -> edge h (parent i) i.

Definition heap n h : Prop := heap_from 0 n h.

(** A heap but for the element at [p], which may be too large ([up]) or too
    small ([down]). *)
Definition up p n h : Prop :=
  (forall i, (0 < i < n)%nat -> i <> p -> edge h (parent i) i) /\
  (forall i, (0 < i < n)%nat -> parent i = p -> (0 < p)%nat -> edge h (parent p) i).

Definition down lo p n h : Prop :=
  (forall i, (0 < i < n)%nat -> (lo <= parent i)%nat -> parent i <> p -> edge h (parent i) i) /\
  (forall i, (0 < i < n)%nat -> parent i = p -> (0 < p)%nat -> (lo <= parent p)%nat -> edge h (parent p) i).

(** The contents of an array after the exchange of positions [p] and [c]. *)
Lemma insert2_lookup h p c x y i z :
  p <> c -> (p < length h)%nat -> (c < length h)%nat -> <[c := y]> (<[p := x]> h) !! i = Some z ->
  (i = c /\ z = y) \/ (i = p /\ z = x) \/ (i <> c /\ i <> p /\ h !! i = Some z).
Proof.
  intros Hne Hp Hc. rewrite !list_lookup_insert_Some. rewrite length_insert. intros [(-> & -> & _)|(H1 & [(-> & -> & _)|(H2 & H3)])].
  - by left.
  - right. by left.
  - right. right. split_and!; [by intros ->|by intros ->|done].
Qed.

(** One step of [__move_up]. *)
Lemma up_step h n p q val :
  up p n h -> (0 < p < n)%nat -> (n <= length h)%nat -> h !! p = Some val -> h !! parent p = Some q -> comp q val = true ->
  up (parent p) n (<[parent p := val]> (<[p := q]> h)).
Proof.
  intros [U1 U2] Hp Hn Hv Hq Hc. pose proof (parent_spec p ltac:(lia)) as Pp.
  assert (p <> parent p /\ parent p < n)%nat as [Hne Hpn] by lia.
  pose proof (geq_of _ _ Hc) as Hge.
  split.
  - intros i Hi Hip x y Hx Hy. pose proof (parent_spec i ltac:(lia)) as Pi.
    apply insert2_lookup in Hx, Hy; try lia.
    destruct Hy as [(-> & _)|[(-> & ->)|(N1 & N2 & Hy)]]; [done|..].
    + destruct Hx as [(_ & ->)|[(E & _)|(E & _)]]; [done|lia|done].
    + destruct Hx as [(E & ->)|[(E & ->)|(N3 & N4 & Hx)]].
      * apply (geq_trans _ q); [done|]. apply (U1 i); [done|done|by rewrite E|done].
      * by apply (U2 i); [done|done|lia|..].
      * by apply (U1 i).
  - intros i Hi Hip H0 x y Hx Hy. pose proof (parent_spec i ltac:(lia)) as Pi. pose proof (parent_spec (parent p) H0) as Ppp.
    apply insert2_lookup in Hx, Hy; try lia.
    destruct Hx as [(E & _)|[(E & _)|(_ & _ & Hx)]]; [lia|lia|].
    assert (geq x q) as Hxq by (apply (U1 (parent p)); [lia|lia|done|done]).
    destruct Hy as [(-> & _)|[(-> & ->)|(N1 & N2 & Hy)]]; [lia|done|].
    apply (geq_trans _ q); [done|]. apply (U1 i); [done|lia|by rewrite Hip|done].
Qed.

Lemma up_done h n p :
  up p n h -> (p = 0%nat \/ edge h (parent p) p) -> heap n h.
Proof.
  intros [U1 _] Hd i Hi _. destruct (decide (i = p)) as [->|]; [|by apply U1].
  destruct Hd as [->|]; [lia|done].
Qed.

(** One step of [__move_down] to the child [c], which is not less than its
    sibling. *)
Lemma down_step h lo n p c q val :
  down lo p n h -> (lo <= p)%nat -> (0 < c < n)%nat -> parent c = p -> (n <= length h)%nat ->
  h !! p = Some val -> h !! c = Some q -> geq q val ->
  (forall i, (0 < i < n)%nat -> parent i = p -> edge h c i) ->
  down lo c n (<[c := val]> (<[p := q]> h)).
Proof.
  intros [D1 D2] Hlo Hc Hpc Hn Hv Hq Hge Hsib. pose proof (parent_spec c ltac:(lia)) as Pc. rewrite Hpc in Pc.
  split.
  - intros i Hi Hli Hic x y Hx Hy. pose proof (parent_spec i ltac:(lia)) as Pi. apply insert2_lookup in Hx, Hy; try lia.
    destruct Hx as [(E & _)|[(E & ->)|(N3 & N4 & Hx)]]; [done|..].
    + destruct Hy as [(-> & ->)|[(-> & _)|(N1 & N2 & Hy)]]; [done|lia|]. by apply (Hsib i).
    + destruct Hy as [(-> & _)|[(-> & ->)|(N1 & N2 & Hy)]]; [done| |by apply (D1 i)].
      by apply (D2 c); [..|done|done]; try lia.
  - intros i Hi Hic H0 Hl x y Hx Hy. pose proof (parent_spec i ltac:(lia)) as Pi. rewrite Hpc in *.
    apply insert2_lookup in Hx, Hy; try lia. destruct Hx as [(E & _)|[(_ & ->)|(_ & E & _)]]; [lia| |done].
    destruct Hy as [(-> & _)|[(-> & _)|(N1 & N2 & Hy)]]; [lia|lia|].
    apply (D1 i); [done|lia|lia|by rewrite Hic|done].
Qed.

Lemma down_done h lo n p :
  down lo p n h -> (forall i, (0 < i < n)%nat -> parent i = p -> edge h p i) -> heap_from lo n h.
Proof.
  intros [D1 _] Hd i Hi Hl. destruct (decide (parent i = p)) as [E|]; [|by apply D1]. rewrite E. by apply Hd.
Qed.

(** ** The operations *)

Lemma stale_exchange g p q c (val : A) :
  p <> c -> <[c := val]> (<[p := q]> g) = <[c := val]> (<[p := q]> (<[p := val]> g)).
Proof. intros. by rewrite list_insert_insert_eq. Qed.

Lemma heap_move_up_ret pre h post p :
  (p < length h)%nat -> up p (length h) h ->
  exists h', __move_up comp (Z.of_nat (length pre)) (Z.of_nat p) (pre ++ h ++ post) = Ret tt (pre ++ h' ++ post) /\
    h' ≡ₚ h /\ heap (length h') h'.
Proof.
  intros Hp Hup. destruct (lookup_lt_is_Some_2 h p Hp) as [val Hv]. unfold __move_up.
  mrun (rd_range pre h post p val Hv). rewrite Nat2Z.id. loop_body B.
  assert (<[p := val]> h = h) as Eh by by apply list_insert_id.
  enough (forall fuel p g, (p < fuel)%nat -> (p < length g)%nat -> up p (length g) (<[p := val]> g) ->
    exists p' g', loop fuel B (Z.of_nat p) (pre ++ g ++ post) = Ret (Z.of_nat p') (pre ++ g' ++ post) /\
      (p' < length g')%nat /\ <[p' := val]> g' ≡ₚ <[p := val]> g /\ heap (length g') (<[p' := val]> g')) as G.
  { destruct (G (S p) p h) as (p' & g' & E & Hp' & HP & Hh); [lia|done|by rewrite Eh|].
    mrun E. exists (<[p' := val]> g'). split_and!; [by apply wr_range|by rewrite HP, Eh|by rewrite length_insert]. }
  clear - StrictWeak0. induction fuel as [|fuel IH]; intros p g Hf Hp Hup; [lia|]. rewrite loop_S. unfold B at 1.
  destruct (Z.ltb_spec 0 (Z.of_nat p)) as [H0|H0].
  2: { exists p, g. split_and!; [done..|]. apply (up_done _ _ p); [done|left; lia]. }
  pose proof (parent_spec p ltac:(lia)) as Pp. rewrite parent_quot by lia.
  destruct (lookup_lt_is_Some_2 g (parent p)) as [q Hq]; [lia|]. mrun (rd_range pre g post _ q Hq).
  assert (<[p := val]> g !! parent p = Some q) as Hq' by (rewrite list_lookup_insert_ne by lia; done).
  assert (<[p := val]> g !! p = Some val) as Hv' by by rewrite list_lookup_insert_eq.
  destruct (comp q val) eqn:E.
  - mrun (wr_range pre g post p q Hp).
    pose proof (up_step (<[p := val]> g) (length g) p q val Hup ltac:(lia) ltac:(by rewrite length_insert) Hv' Hq' E) as Hup'.
    rewrite <- stale_exchange in Hup' by lia.
    destruct (IH (parent p) (<[p := q]> g)) as (p' & g' & EL & Hp' & HP & Hh); [lia|rewrite length_insert; lia|by rewrite length_insert|].
    exists p', g'. split_and!; [done|done| |done]. rewrite HP, stale_exchange by lia. by apply Permutation_insert_swap.
  - exists p, g. split_and!; [done..|]. apply (up_done _ _ p); [done|right]. intros x y Hx Hy. by simplify_eq.
Qed.

Lemma geq_refl x : geq x x.
Proof. unfold geq. destruct (comp x x) eqn:E; [|done]. by rewrite (swo_asym x x E) in E. Qed.

Lemma larger_child_ret pre g post n p :
  (n <= length g)%nat ->
  exists c, larger_child comp (Z.of_nat (length pre)) (Z.of_nat p) (Z.of_nat n) (pre ++ g ++ post)
      = Ret (Z.of_nat c) (pre ++ g ++ post) /\ (p < c)%nat /\ parent c = p /\
    ((n <= c)%nat -> n <= 2 * p + 1)%nat /\
    forall i, (0 < i < n)%nat -> parent i = p -> edge g c i.
Proof.
  intros Hn. unfold larger_child.
  assert (parent (2 * p + 1) = p /\ parent (2 * p + 2) = p) as [P1 P2].
  { pose proof (parent_spec (2 * p + 1) ltac:(lia)). pose proof (parent_spec (2 * p + 2) ltac:(lia)). lia. }
  assert (forall i, (0 < i)%nat -> parent i = p -> i = (2 * p + 1)%nat \/ i = (2 * p + 2)%nat) as Hch.
  { intros i Hi <-. by apply parent_spec. }
  replace (2 * Z.of_nat p + 1 + 1) with (Z.of_nat (2 * p + 2)) by lia. replace (2 * Z.of_nat p + 1) with (Z.of_nat (2 * p + 1)) by lia.
  destruct (Z.ltb_spec (Z.of_nat (2 * p + 2)) (Z.of_nat n)) as [Hr|Hr].
  - destruct (lookup_lt_is_Some_2 g (2 * p + 2)) as [r Er]; [lia|]. destruct (lookup_lt_is_Some_2 g (2 * p + 1)) as [x Ex]; [lia|].
    mrun (rd_range pre g post _ r Er). mrun (rd_range pre g post _ x Ex). destruct (comp r x) eqn:E; simpl negb; cbn iota.
    + exists (2 * p + 1)%nat. split_and!; [done|lia|done|lia|]. intros i Hi Hpi a b Ha Hb.
      destruct (Hch i ltac:(lia) Hpi) as [->| ->]; simplify_eq; [apply geq_refl|by apply geq_of].
    + exists (2 * p + 2)%nat. split_and!; [done|lia|done|lia|]. intros i Hi Hpi a b Ha Hb.
      destruct (Hch i ltac:(lia) Hpi) as [->| ->]; simplify_eq; [done|apply geq_refl].
  - exists (2 * p + 1)%nat. split_and!; [done|lia|done|lia|]. intros i Hi Hpi a b Ha Hb.
    destruct (Hch i ltac:(lia) Hpi) as [->| ->]; [|lia]. simplify_eq. apply geq_refl.
Qed.

Lemma heap_move_down_ret pre h post lo p n :
  (lo <= p < n)%nat -> (n <= length h)%nat -> down lo p n h ->
  exists h', __move_down comp (Z.of_nat (length pre)) (Z.of_nat p) (Z.of_nat n) (pre ++ h ++ post) = Ret tt (pre ++ h' ++ post) /\
    h' ≡ₚ h /\ heap_from lo n h' /\ drop n h' = drop n h.
Proof.
  intros Hp Hn Hdown. destruct (lookup_lt_is_Some_2 h p) as [val Hv]; [lia|]. unfold __move_down.
  mrun (rd_range pre h post p val Hv). loop_body B.
  assert (<[p := val]> h = h) as Eh by by apply list_insert_id.
  enough (forall fuel p g, (n - p < fuel)%nat -> (lo <= p < n)%nat -> (n <= length g)%nat -> down lo p n (<[p := val]> g) ->
    exists h', loop fuel B (Z.of_nat p) (pre ++ g ++ post) = Ret tt (pre ++ h' ++ post) /\
      h' ≡ₚ <[p := val]> g /\ heap_from lo n h' /\ drop n h' = drop n g) as G.
  { destruct (G (S (Z.to_nat (Z.of_nat n - Z.of_nat p))) p h) as (h' & E & HP & Hh & Hd); [lia|done|done|by rewrite Eh|].
    exists h'. split_and!; [done|by rewrite HP, Eh|done|done]. }
  clear - StrictWeak0. induction fuel as [|fuel IH]; intros p g Hf Hp Hn Hdown; [lia|]. rewrite loop_S. unfold B at 1.
  assert (<[p := val]> g !! p = Some val) as Hv' by (apply list_lookup_insert_eq; lia).
  destruct (larger_child_ret pre g post n p Hn) as (c & Ec & Hpc & Hc & Hbot & Hsib). mrun Ec.
  assert (forall i, (0 < i < n)%nat -> parent i = p -> edge (<[p := val]> g) c i) as Hsib'.
  { intros i Hi Hpi x y. pose proof (parent_spec i ltac:(lia)). rewrite !list_lookup_insert_ne by lia. by apply Hsib. }
  assert (forall b : bool, b = true -> (forall i, (0 < i < n)%nat -> parent i = p -> edge (<[p := val]> g) p i) ->
    exists h', ((_ ← wr (Z.of_nat (length pre) + Z.of_nat p) val; mret (inr tt)) : M (list A) (Z + unit)) (pre ++ g ++ post)
      = Ret (inr tt) (pre ++ h' ++ post) /\ h' ≡ₚ <[p := val]> g /\ heap_from lo n h' /\ drop n h' = drop n g) as Hstop.
  { intros _ _ Hd. exists (<[p := val]> g). split_and!.
    - by mrun (wr_range pre g post p val ltac:(lia)).
    - done.
    - by apply (down_done _ _ _ p).
    - by rewrite drop_insert_lt by lia. }
  destruct (Z.leb_spec (Z.of_nat n) (Z.of_nat c)) as [Hle|Hlt].
  - destruct (Hstop true eq_refl) as (h' & E & H').
    { intros i Hi Hpi. pose proof (parent_spec i ltac:(lia)). lia. }
    mrun (eq_refl : (mret true : M (list A) bool) (pre ++ g ++ post) = Ret true _). rewrite E. by exists h'.
  - destruct (lookup_lt_is_Some_2 g c) as [q Hq]; [lia|].
    assert (<[p := val]> g !! c = Some q) as Hq' by (rewrite list_lookup_insert_ne by lia; done).
    pose proof (rd_range pre g post c q Hq) as R.
    assert ((c ← rd (Z.of_nat (length pre) + Z.of_nat c); mret (comp c val)) (pre ++ g ++ post) = Ret (comp q val) (pre ++ g ++ post)) as Es
      by by mrun R.
    mrun Es. destruct (comp q val) eqn:E.
    + destruct (Hstop true eq_refl) as (h' & E' & H').
      { intros i Hi Hpi x y Hx Hy. simplify_eq. apply (geq_trans _ q); [by apply geq_of|by apply (Hsib' i Hi Hpi)]. }
      rewrite E'. by exists h'.
    + mrun R. mrun (wr_range pre g post p q ltac:(lia)).
      pose proof (down_step (<[p := val]> g) lo n p c q val Hdown ltac:(lia) ltac:(lia) Hc ltac:(by rewrite length_insert) Hv' Hq' E Hsib') as Hd'.
      rewrite <- stale_exchange in Hd' by lia.
      destruct (IH c (<[p := q]> g)) as (h' & EL & HP & Hh & Hdr); [lia|lia|by rewrite length_insert|done|].
      exists h'. split_and!; [done| |done|by rewrite Hdr, drop_insert_lt by lia].
      rewrite HP, stale_exchange by lia. by apply Permutation_insert_swap.
Qed.
(** The first element of a heap is the greatest. *)
Lemma heap_top n h m i x : heap n h -> (n <= length h)%nat -> h !! 0%nat = Some m -> (i < n)%nat -> h !! i = Some x -> geq m x.
Proof.
  intros Hh Hn Hm. revert x. induction i as [i IH] using lt_wf_ind. intros x Hi Hx.
  destruct (decide (i = 0%nat)) as [->|]; [simplify_eq; apply geq_refl|].
  pose proof (parent_spec i ltac:(lia)). destruct (lookup_lt_is_Some_2 h (parent i)) as [q Hq]; [lia|].
  apply (geq_trans _ q); [|by apply (Hh i); [lia|lia|..]].
  by apply (IH (parent i) ltac:(lia)); [lia|].
Qed.

Lemma push_heap_ret pre h post :
  h <> [] -> heap (length h - 1) h ->
  exists h', push_heap comp (Z.of_nat (length pre)) (Z.of_nat (length pre) + Z.of_nat (length h)) (pre ++ h ++ post)
      = Ret tt (pre ++ h' ++ post) /\ h' ≡ₚ h /\ heap (length h') h'.
Proof.
  intros Hne Hh. assert (0 < length h)%nat by (destruct h; [done|simpl; lia]). unfold push_heap.
  replace (Z.of_nat (length pre) + Z.of_nat (length h) - Z.of_nat (length pre) - 1) with (Z.of_nat (length h - 1)) by lia.
  apply heap_move_up_ret; [lia|]. split.
  - intros i Hi Hne'. apply Hh; lia.
  - intros i Hi Hp. pose proof (parent_spec i ltac:(lia)). lia.
Qed.

(** The exchange at the start of [pop_heap] leaves a heap but for the root. *)
Lemma pop_exchange h :
  (1 < length h)%nat -> heap (length h) h ->
  down 0 0 (length h - 1) (exchange 0 (length h - 1) h) /\ drop (length h - 1) (exchange 0 (length h - 1) h) = take 1 h.
Proof.
  intros Hl Hh. destruct (lookup_lt_is_Some_2 h 0) as [m Hm]; [lia|].
  destruct (lookup_lt_is_Some_2 h (length h - 1)) as [z Hz]; [lia|]. unfold exchange. rewrite Hm, Hz. split; [split|].
  - intros i Hi _ Hp x y. pose proof (parent_spec i ltac:(lia)). rewrite !list_lookup_insert_ne by lia. apply Hh; lia.
  - intros i Hi Hp H0. lia.
  - rewrite drop_insert_ge, Nat.sub_diag, drop_insert_lt by lia. rewrite (drop_S h z _ Hz), drop_ge by lia.
    destruct h as [|m0 h]; [done|]. injection Hm as ->. done.
Qed.

Lemma pop_heap_ret pre h post :
  h <> [] -> heap (length h) h ->
  exists t m, pop_heap comp (Z.of_nat (length pre)) (Z.of_nat (length pre) + Z.of_nat (length h)) (pre ++ h ++ post)
      = Ret tt (pre ++ (t ++ [m]) ++ post) /\
    t ++ [m] ≡ₚ h /\ h !! 0%nat = Some m /\ heap (length t) t /\ Forall (geq m) h.
Proof.
  intros Hne Hh. destruct h as [|m h0] eqn:Eh; [done|]. rewrite <- Eh in *.
  assert (h !! 0%nat = Some m) as Hm by by subst. assert (0 < length h)%nat by (subst; simpl; lia).
  assert (Forall (geq m) h) as Htop.
  { apply Forall_lookup. intros i x Hx. apply (heap_top (length h) h m i); [done..| |done]. by eapply lookup_lt_Some. }
  unfold pop_heap. replace (Z.of_nat (length pre) + Z.of_nat (length h) - Z.of_nat (length pre)) with (Z.of_nat (length h)) by lia.
  destruct (Z.leb_spec (Z.of_nat (length h)) 1) as [H1|H1].
  { destruct h0; [|subst; simpl in H1; lia]. subst. exists [], m. split_and!; [done..|intros i; simpl; lia|done]. }
  replace (Z.of_nat (length pre) + Z.of_nat (length h) - 1) with (Z.of_nat (length pre) + Z.of_nat (length h - 1)) by lia.
  pose proof (swap_range pre h post 0 (length h - 1) ltac:(lia) ltac:(lia)) as Sw. rewrite Z.add_0_r in Sw. mrun Sw.
  replace (Z.of_nat (length pre) + Z.of_nat (length h - 1) - Z.of_nat (length pre)) with (Z.of_nat (length h - 1)) by lia.
  destruct (pop_exchange h ltac:(lia) Hh) as [Hd Hdrop].
  destruct (heap_move_down_ret pre (exchange 0 (length h - 1) h) post 0 0 (length h - 1)) as (h' & E & HP & Hh' & Hdr);
    [lia|rewrite exchange_length; lia|done|].
  assert (length h' = length h) as Hlen by by rewrite HP, exchange_length.
  exists (take (length h - 1) h'), m.
  assert (take (length h - 1) h' ++ [m] = h') as Et.
  { rewrite <- (take_drop (length h - 1) h') at 2. rewrite Hdr, Hdrop. by rewrite Eh. }
  rewrite Et. split_and!; [done|by rewrite HP, exchange_perm|done| |done].
  rewrite length_take, Nat.min_l by lia. intros i Hi Hl x y. pose proof (parent_spec i ltac:(lia)).
  rewrite !lookup_take_lt by lia. apply Hh'; lia.
Qed.

Lemma make_heap_ret pre h post :
  exists h', make_heap comp (Z.of_nat (length pre)) (Z.of_nat (length pre) + Z.of_nat (length h)) (pre ++ h ++ post)
      = Ret tt (pre ++ h' ++ post) /\ h' ≡ₚ h /\ heap (length h') h'.
Proof.
  unfold make_heap. replace (Z.of_nat (length pre) + Z.of_nat (length h) - Z.of_nat (length pre)) with (Z.of_nat (length h)) by lia.
  rewrite Nat2Z.id. rewrite Z.quot_div_nonneg, <- (Nat2Z.inj_div _ 2) by lia. loop_body B.
  enough (forall fuel k g, (k < fuel)%nat -> length g = length h -> (k <= length h / 2)%nat -> heap_from k (length h) g ->
    exists h', loop fuel B (Z.of_nat k) (pre ++ g ++ post) = Ret tt (pre ++ h' ++ post) /\ h' ≡ₚ g /\ heap (length h) h') as G.
  { pose proof (Nat.div_mod (length h) 2 ltac:(lia)). pose proof (Nat.mod_upper_bound (length h) 2).
    destruct (G (S (length h)) (length h / 2)%nat h) as (h' & E & HP & Hh); [lia|done|done| |].
    { intros i Hi Hl. pose proof (parent_spec i ltac:(lia)). lia. }
    exists h'. split_and!; [done..|]. by rewrite (Permutation_length HP). }
  pose proof (Nat.div_mod (length h) 2 ltac:(lia)). pose proof (Nat.mod_upper_bound (length h) 2).
  induction fuel as [|fuel IH]; intros k g Hk Hlen Hle Hh; [lia|]. rewrite loop_S. unfold B at 1.
  destruct (Z.ltb_spec 0 (Z.of_nat k)) as [H0'|H0'].
  - replace (Z.of_nat k - 1) with (Z.of_nat (k - 1)) by lia.
    destruct (heap_move_down_ret pre g post (k - 1) (k - 1) (length h)) as (g' & E & HP & Hg' & _); [lia|lia| |].
    { split; [intros i Hi Hl Hne; apply Hh; lia|].
      intros i Hi Hl H0k Hle'. pose proof (parent_spec (k - 1) ltac:(lia)). lia. }
    mrun E. destruct (IH (k - 1)%nat g') as (h' & EL & HP' & Hh'); [lia|by rewrite HP|lia|done|].
    exists h'. split_and!; [done|by rewrite HP'|done].
  - exists g. split_and!; [done..|]. by replace k with 0%nat in Hh by lia.
Qed.

Lemma sort_heap_ret pre h post :
  heap (length h) h ->
  exists h', sort_heap comp (Z.of_nat (length pre)) (Z.of_nat (length pre) + Z.of_nat (length h)) (pre ++ h ++ post)
      = Ret tt (pre ++ h' ++ post) /\ h' ≡ₚ h /\ StronglySorted (ordered comp) h'.
Proof.
  intros Hh. unfold sort_heap.
  replace (Z.of_nat (length pre) + Z.of_nat (length h) - Z.of_nat (length pre)) with (Z.of_nat (length h)) by lia. rewrite Nat2Z.id.
  loop_body B.
  enough (forall fuel a b, (length a < fuel)%nat -> heap (length a) a -> StronglySorted (ordered comp) b ->
    Forall (fun y => Forall (geq y) a) b ->
    exists h', loop fuel B (Z.of_nat (length pre) + Z.of_nat (length a)) (pre ++ (a ++ b) ++ post) = Ret tt (pre ++ h' ++ post) /\
      h' ≡ₚ a ++ b /\ StronglySorted (ordered comp) h') as G.
  { destruct (G (S (length h)) h []) as (h' & E & H'); [lia|done|constructor|done|]. rewrite app_nil_r in *. by exists h'. }
  clear Hh. induction fuel as [|fuel IH]; intros a b Hf Hh Hb Hab; [lia|]. rewrite loop_S. unfold B at 1.
  destruct (Z.eqb_spec (Z.of_nat (length pre)) (Z.of_nat (length pre) + Z.of_nat (length a))) as [Ea|Ea].
  { destruct a; [|simpl in Ea; lia]. by exists b. }
  destruct (pop_heap_ret pre a (b ++ post)) as (t & m & E & HP & Hm & Ht & Hge); [intros ->; simpl in Ea; lia|done|].
  rewrite <- app_assoc. mrun E. pose proof (Permutation_length HP) as Hl. rewrite length_app in Hl. simpl in Hl.
  destruct (IH t (m :: b)) as (h' & EL & HP' & Hs); [lia|done|..].
  - constructor; [done|]. apply list.Forall_forall. intros y Hy. rewrite list.Forall_forall in Hab.
    specialize (Hab y Hy). rewrite list.Forall_forall in Hab. apply Hab. by eapply list_elem_of_lookup_2.
  - rewrite <- HP in Hge. apply list.Forall_app in Hge as [Hge _]. constructor; [done|].
    eapply Forall_impl; [|exact Hab]. intros y Hy; cbn beta in *. rewrite <- HP in Hy. by apply list.Forall_app in Hy as [Hy _].
  - exists h'. split_and!; [|rewrite HP', <- HP; solve_Permutation|done].
    rewrite <- EL. cbn. f_equal; [lia|]. by rewrite <- !app_assoc.
Qed.

(** The test for a heap. *)
Lemma is_heap_ret pre h post :
  exists b, is_heap comp (Z.of_nat (length pre)) (Z.of_nat (length pre) + Z.of_nat (length h)) (pre ++ h ++ post)
      = Ret b (pre ++ h ++ post) /\ (b = true <-> heap (length h) h).
Proof.
  unfold is_heap, is_heap_until.
  destruct (Z.eqb_spec (Z.of_nat (length pre)) (Z.of_nat (length pre) + Z.of_nat (length h))) as [E|E].
  { exists true. split; [|split; [intros _ i Hi; lia|done]]. munfold. by rewrite Z.eqb_refl. }
  loop_body B. set (s := pre ++ h ++ post).
  enough (forall fuel k, (length h - k < fuel)%nat -> (0 < k <= length h)%nat -> heap k h ->
    exists r, loop fuel B (Z.of_nat (length pre) + Z.of_nat k) s = Ret r s /\
      (r = Z.of_nat (length pre) + Z.of_nat (length h) <-> heap (length h) h)) as G.
  { destruct (G (S (S (length s))) 1%nat) as (r & EL & Hr); [unfold s; rewrite !length_app; lia|lia|intros i; lia|].
    exists (r =? Z.of_nat (length pre) + Z.of_nat (length h)). split; [|by rewrite Z.eqb_eq].
    assert ((fuel ← span_fuel; loop fuel B (Z.of_nat (length pre) + 1)) s = Ret r s) as EL' by exact EL. by mrun EL'. }
  induction fuel as [|fuel IH]; intros k Hf Hk Hh; [lia|]. rewrite loop_S. unfold B at 1.
  destruct (Z.eqb_spec (Z.of_nat (length pre) + Z.of_nat k) (Z.of_nat (length pre) + Z.of_nat (length h))) as [Ek|Ek].
  { exists (Z.of_nat (length pre) + Z.of_nat k). split; [done|]. replace k with (length h) in * by lia. done. }
  replace (Z.of_nat (length pre) + Z.of_nat k - Z.of_nat (length pre) - 1) with (Z.of_nat k - 1) by lia.
  rewrite parent_quot by lia. pose proof (parent_spec k ltac:(lia)).
  destruct (lookup_lt_is_Some_2 h (parent k)) as [q Hq]; [lia|]. destruct (lookup_lt_is_Some_2 h k) as [x Hx]; [lia|].
  mrun (rd_range pre h post _ q Hq). mrun (rd_range pre h post _ x Hx). destruct (comp q x) eqn:Ec; cbn iota.
  - exists (Z.of_nat (length pre) + Z.of_nat k). split; [done|]. split; [done|]. intros HH.
    pose proof (HH k ltac:(lia) ltac:(lia) q x Hq Hx) as Hg. unfold geq in Hg. congruence.
  - replace (Z.of_nat (length pre) + Z.of_nat k + 1) with (Z.of_nat (length pre) + Z.of_nat (S k)) by lia.
    apply IH; [lia|lia|]. intros i Hi _. destruct (decide (i = k)) as [->|]; [|apply Hh; lia].
    intros a b Ha Hb. by simplify_eq.
Qed.
(** C12: [make_heap] makes a heap of the range, which [is_heap] accepts, and
    [sort_heap] of it sorts: both permute the range and touch nothing outside it. *)
Theorem heap_sort_correct pre h post :
  let first := Z.of_nat (length pre) in
  let last := first + Z.of_nat (length h) in
  exists h1 h2, make_heap comp first last (pre ++ h ++ post) = Ret tt (pre ++ h1 ++ post) /\
    is_heap comp first last (pre ++ h1 ++ post) = Ret true (pre ++ h1 ++ post) /\
    sort_heap comp first last (pre ++ h1 ++ post) = Ret tt (pre ++ h2 ++ post) /\
    h1 ≡ₚ h /\ h2 ≡ₚ h /\ heap (length h) h1 /\ StronglySorted (ordered comp) h2.
Proof.
  intros first last. destruct (make_heap_ret pre h post) as (h1 & E1 & P1 & H1). pose proof (Permutation_length P1) as Hl.
  destruct (sort_heap_ret pre h1 post H1) as (h2 & E2 & P2 & S2). destruct (is_heap_ret pre h1 post) as (b & E3 & Hb).
  rewrite Hl in *. rewrite (proj2 Hb H1) in E3. exists h1, h2. split_and!; [done..| |done|done]. by rewrite P2.
Qed.
End HeapCorrect.

Lemma heap_sort_correct_witness :
  exists h1 h2, make_heap Z.ltb 1 6 [9; 3; 1; 4; 1; 5; 0] = Ret tt (9 :: h1 ++ [0]) /\
    is_heap Z.ltb 1 6 (9 :: h1 ++ [0]) = Ret true (9 :: h1 ++ [0]) /\
    sort_heap Z.ltb 1 6 (9 :: h1 ++ [0]) = Ret tt (9 :: h2 ++ [0]) /\
    h1 ≡ₚ [3; 1; 4; 1; 5] /\ h2 ≡ₚ [3; 1; 4; 1; 5] /\ heap Z.ltb 5 h1 /\ StronglySorted (ordered Z.ltb) h2.
Proof. apply (heap_sort_correct Z.ltb [9] [3; 1; 4; 1; 5] [0]). Defined.
