(* ===== verification/CxxVector.v ===== *)
(** * [std::vector] (cxx/vector)

    The memory is a map from block numbers to blocks of cells; a cell holds a
    constructed element or is raw.  Reading a raw cell, and access outside a
    block, are undefined.  The elements are of a type of [sizeof_T] bytes whose
    move is a copy and whose destructor only makes the cell raw.  Whether
    [malloc] finds room is the allocator's affair ([room]); [operator new[]]
    throws when it does not.  No caller catches the exceptions of the containers,
    so that a [throw] ends the program. *)

From stdpp Require Import sorting.
From S2P Require Import Prelude CxxBase CxxAlgo.

(** What the containers ask of the element type and of [malloc]. *)
Class Cells (A : Type) := {
  sizeof_T : Z;
  sizeof_T_pos : 0 < sizeof_T;
  room : Z -> gmap Z (list (option A)) -> bool
}.
Arguments sizeof_T A {_}.
Arguments sizeof_T_pos A {_}.

Section Vector.
Context {A : Type} `{Cells A}.

(** The blocks, and the number of the next one. *)
Record store := { blocks : gmap Z (list (option A)); next : Z }.

(** A vector object; [None] is the null pointer. *)
Record vector := { data_ : option Z; size_ : Z; cap_ : Z }.

Definition vector_new : vector := {| data_ := None; size_ := 0; cap_ := 0 |}.

(** [reinterpret_cast<T*>(new char[nbytes])] *)
Definition new_array (nbytes : Z) : M store Z := fun st =>
  if room nbytes (blocks st) then
    Ret (next st) {| blocks := <[next st := replicate (Z.to_nat (nbytes / sizeof_T A)) None]> (blocks st); next := next st + 1 |}
  else throw st.

(** [delete[]] *)
Definition delete_array (b : Z) : M store unit := fun st =>
  match blocks st !! b with
  | Some _ => Ret tt {| blocks := delete b (blocks st); next := next st |}
  | None => Ub
  end.

(** The cell [p[i]] of a pointer that may be null. *)
Definition cell (p : option Z) (i : Z) (st : store) : option (option A) :=
  match p with
  | Some b => match blocks st !! b with Some c => if 0 <=? i then c !! Z.to_nat i else None | None => None end
  | None => None
  end.

Definition set_cell (p : option Z) (i : Z) (x : option A) : M store unit := fun st =>
  match p, cell p i st with
  | Some b, Some _ => Ret tt {| blocks := alter (insert (Z.to_nat i) x) b (blocks st); next := next st |}
  | _, _ => Ub
  end.

(** The value of an element. *)
Definition elt (p : option Z) (i : Z) : M store A := fun st =>
  match cell p i st with Some (Some x) => Ret x st | _ => Ub end.

(** Placement [new (&p[i]) T(x)] and the destructor [p[i].~T()] *)
Definition construct (p : option Z) (i : Z) (x : A) : M store unit := set_cell p i (Some x).
Definition destruct (p : option Z) (i : Z) : M store unit := _ ← elt p i; set_cell p i None.

(** An algorithm of the library on the elements of a vector, addressed by their
    index; there are no elements outside of [begin(), end()). *)
Definition on_elements {X} (v : vector) (m : M (list A) X) : M store X := fun st =>
  match data_ v with
  | None => match m [] with Ret x _ => Ret x st | Halt c _ => Halt c st | Ub => Ub | Spin => Spin end
  | Some b =>
      match blocks st !! b with
      | None => Ub
      | Some c =>
          match mapM id (take (Z.to_nat (size_ v)) c) with
          | None => Ub
          | Some l =>
              let upd l := {| blocks := <[b := fmap Some l ++ drop (Z.to_nat (size_ v)) c]> (blocks st); next := next st |} in
              match m l with Ret x l => Ret x (upd l) | Halt n l => Halt n (upd l) | Ub => Ub | Spin => Spin end
          end
      end
  end.

Definition size (v : vector) : Z := size_ v.
Definition capacity (v : vector) : Z := cap_ v.
Definition empty (v : vector) : bool := size_ v =? 0.
Definition max_size : Z := u64 (-1).

Definition reserve (v : vector) (n : Z) : M store vector :=
  if n <=? cap_ v then mret v
  else
    ncap ← grow 66 (if cap_ v =? 0 then 1 else cap_ v) n;
    ndata ← new_array (u64 (sizeof_T A * ncap));
    _ ← loop (S (Z.to_nat (size_ v))) (fun i =>
          if i <? size_ v then
            x ← elt (data_ v) i; _ ← construct (Some ndata) i x; mret (inl (u64 (i + 1)))
          else mret (inr tt)) 0;
    mret {| data_ := Some ndata; size_ := size_ v; cap_ := ncap |}.

Definition index (v : vector) (n : Z) : M store A := elt (data_ v) n.
Definition at_ (v : vector) (n : Z) : M store A := if size_ v <=? n then throw else elt (data_ v) n.
Definition front (v : vector) : M store A := elt (data_ v) 0.
Definition back (v : vector) : M store A := elt (data_ v) (size_ v - 1).

Definition emplace_back (v : vector) (x : A) : M store vector :=
  v ← reserve v (u64 (size_ v + 1));
  _ ← construct (data_ v) (size_ v) x;
  mret {| data_ := data_ v; size_ := u64 (size_ v + 1); cap_ := cap_ v |}.

Definition push_back (v : vector) (x : A) : M store vector := emplace_back v x.

Definition pop_back (v : vector) : M store vector :=
  if negb (empty v) then
    _ ← destruct (data_ v) (size_ v - 1);
    mret {| data_ := data_ v; size_ := u64 (size_ v - 1); cap_ := cap_ v |}
  else mret v.

(** [erase] of one element; iterators are indices.  The result is the iterator. *)
Definition erase (v : vector) (pos : Z) : M store (Z * vector) :=
  nend ← on_elements v (CxxAlgo.move (pos + 1) (size_ v) pos);
  _ ← destruct (data_ v) nend;
  mret (pos, {| data_ := data_ v; size_ := u64 (size_ v - 1); cap_ := cap_ v |}).

Definition erase_range (v : vector) (first last : Z) : M store (Z * vector) :=
  let pos := first in
  let dst := pos in
  let src := last in
  if negb (src =? dst) then
    nend ← on_elements v (CxxAlgo.move src (size_ v) dst);
    n ← loop (S (Z.to_nat (size_ v))) (fun '(nend, n) =>
          if negb (nend =? size_ v) then _ ← destruct (data_ v) nend; mret (inl (nend + 1, u64 (n + 1)))
          else mret (inr n)) (nend, 0);
    mret (pos, {| data_ := data_ v; size_ := u64 (size_ v - n); cap_ := cap_ v |})
  else mret (pos, v).

Definition clear (v : vector) : M store vector :=
  _ ← loop (S (Z.to_nat (size_ v))) (fun i =>
        if i <? size_ v then _ ← destruct (data_ v) i; mret (inl (u64 (i + 1))) else mret (inr tt)) 0;
  mret {| data_ := data_ v; size_ := 0; cap_ := cap_ v |}.

(** The destructor. *)
Definition vector_delete (v : vector) : M store unit :=
  v ← clear v;
  match data_ v with Some b => delete_array b | None => mret tt end.

(** The loop of the constructor from a range. *)
Fixpoint push_all (v : vector) (xs : list A) : M store vector :=
  match xs with
  | [] => mret v
  | x :: xs => v ← push_back v x; push_all v xs
  end.

Definition vector_of_range (xs : list A) : M store vector := push_all vector_new xs.

Definition vector_of_list (elts : list A) : M store vector :=
  v ← reserve vector_new (Z.of_nat (length elts));
  push_all v elts.

(** [operator=(const vector &x)] for another object [x] *)
Definition copy_assign (v x : vector) : M store vector :=
  v ← reserve v (size_ x);
  loop (S (Z.to_nat (size_ x))) (fun '(v, i) =>
    if negb (i =? size_ x) then e ← elt (data_ x) i; v ← push_back v e; mret (inl (v, i + 1)) else mret (inr v)) (v, 0).

Definition vector_copy (x : vector) : M store vector := copy_assign vector_new x.

(** [vector(vector &&x)] and [operator=(vector &&x)]; the second component is
    what becomes of [x]. *)
Definition vector_move (x : vector) : vector * vector := (x, vector_new).
Definition move_assign (v x : vector) : M store (vector * vector) := v ← clear v; mret (x, v).
Definition vector_swap (v x : vector) : vector * vector := (x, v).
End Vector.
Arguments store : clear implicits.

(** ** The elements of a vector *)

Section VectorCorrect.
Context {A : Type} `{Cells A}.
Implicit Types (st : store A) (v : vector) (l : list A) (x : A).

(** The vector [v] holds the elements [l]; the cells behind them are raw. *)
Definition vrep st v l : Prop :=
  size_ v = Z.of_nat (length l) /\
  match data_ v with
  | None => cap_ v = 0 /\ l = []
  | Some b => exists k, blocks st !! b = Some (block_of l k) /\ cap_ v = Z.of_nat (length l + k) /\
      0 < cap_ v /\ sizeof_T A * cap_ v < 2 ^ 64
  end.

(** Block numbers from [next] on are free. *)
Definition fresh_store st : Prop := forall b, next st <= b -> blocks st !! b = None.

Definition with_block st (b : Z) (c : list (option A)) : store A := {| blocks := <[b := c]> (blocks st); next := next st |}.

Lemma vec_elt_ret st b c i x : blocks st !! b = Some c -> c !! i = Some (Some x) -> elt (Some b) (Z.of_nat i) st = Ret x st.
Proof. intros Hb Hc. unfold elt, cell. rewrite Hb, (proj2 (Z.leb_le _ _)), Nat2Z.id, Hc by lia. done. Qed.

Lemma vec_set_cell_ret st b c i y :
  blocks st !! b = Some c -> (i < length c)%nat -> set_cell (Some b) (Z.of_nat i) y st = Ret tt (with_block st b (<[i := y]> c)).
Proof.
  intros Hb Hi. destruct (lookup_lt_is_Some_2 c i Hi) as [o Ho]. unfold set_cell, cell.
  rewrite Hb, (proj2 (Z.leb_le _ _)), Nat2Z.id, Ho by lia. unfold with_block. do 2 f_equal.
  by apply alter_alt_Some.
Qed.
Lemma with_block_eq st b c : blocks (with_block st b c) !! b = Some c.
Proof. apply lookup_insert_eq. Qed.

Lemma with_block_twice st b c c' : with_block (with_block st b c) b c' = with_block st b c'.
Proof. unfold with_block. simpl. by rewrite insert_insert_eq. Qed.

Definition add_block st (c : list (option A)) : store A := {| blocks := <[next st := c]> (blocks st); next := next st + 1 |}.

Lemma with_add_block st c c' : with_block (add_block st c) (next st) c' = add_block st c'.
Proof. unfold with_block, add_block. simpl. by rewrite insert_insert_eq. Qed.

Lemma add_block_fresh st c : fresh_store st -> fresh_store (add_block st c).
Proof. intros Hf b Hb. simpl in *. rewrite lookup_insert_ne by lia. apply Hf. lia. Qed.

Lemma with_block_fresh st b c : fresh_store st -> is_Some (blocks st !! b) -> fresh_store (with_block st b c).
Proof.
  intros Hf [c' Hc] b' Hb'. simpl in *. rewrite lookup_insert_ne; [by apply Hf|]. intros <-. rewrite Hf in Hc; done.
Qed.

(** The loop of [reserve] constructs a copy of every element. *)
Lemma vec_copy_loop_ret st b k0 l k B :
  blocks st !! b = Some (block_of l k0) -> b <> next st -> Z.of_nat (length l) < 2 ^ 64 ->
  (forall i s, B i s = (if i <? Z.of_nat (length l) then
     x ← elt (Some b) i; _ ← construct (Some (next st)) i x; mret (inl (u64 (i + 1))) else mret (inr tt)) s) ->
  loop (S (length l)) B 0 (add_block st (replicate (length l + k) None)) = Ret tt (add_block st (block_of l k)).
Proof.
  intros Hb Hne Hl HB.
  enough (forall f i, (length l - i <= f)%nat -> (i <= length l)%nat ->
    loop (S f) B (Z.of_nat i) (add_block st (block_of (take i l) (length l - i + k))) = Ret tt (add_block st (block_of l k))) as G.
  { specialize (G (length l) 0%nat). simpl in G. rewrite Nat.sub_0_r in G. apply G; lia. }
  induction f as [|f IH]; intros i Hf Hi; rewrite loop_S, HB; munfold;
    destruct (Z.ltb_spec (Z.of_nat i) (Z.of_nat (length l))) as [Hlt|]; try lia.
  1, 3: by replace i with (length l) by lia; rewrite firstn_all, Nat.sub_diag.
  destruct (lookup_lt_is_Some_2 l i) as [x Hx]; [lia|].
  rewrite (vec_elt_ret _ b (block_of l k0) i x); [|simpl; by rewrite lookup_insert_ne by done|by apply block_of_lookup].
  unfold construct. erewrite vec_set_cell_ret; [|apply lookup_insert_eq|rewrite block_of_length, length_take; lia].
  rewrite with_add_block, uwrap_id by (unfold_int; lia).
  replace (Z.of_nat i + 1) with (Z.of_nat (S i)) by lia. rewrite <- (IH (S i)) by lia. do 2 f_equal.
  rewrite (take_S_r l i x Hx). replace (length l - i + k)%nat with (S (length l - S i + k)) by lia.
  rewrite <- block_of_snoc, length_take, Nat.min_l by lia. done.
Qed.

(** [reserve] allocates a block that is large enough and moves the elements
    there; the old block stays allocated. *)
Lemma vec_reserve_ret st v l n :
  vrep st v l -> fresh_store st -> cap_ v < n -> sizeof_T A * (2 * n) < 2 ^ 64 -> (forall m h, @room A _ m h = true) ->
  exists ncap k, reserve v n st = Ret {| data_ := Some (next st); size_ := size_ v; cap_ := ncap |} (add_block st (block_of l k)) /\
    ncap = Z.of_nat (length l + k) /\ n <= ncap < 2 * n /\ exists j, 0 <= j /\ ncap = Z.max 1 (cap_ v) * 2 ^ j.
Proof.
  intros (Hsz & Hd) Hf Hn Hbig Hroom. pose proof (sizeof_T_pos A) as Hs.
  assert (0 <= cap_ v /\ Z.of_nat (length l) <= cap_ v) as [Hc0 Hlc].
  { destruct (data_ v); [destruct Hd as (k & _ & Hk & _); lia|destruct Hd as [-> ->]; done]. }
  unfold reserve. destruct (Z.leb_spec n (cap_ v)); [lia|].
  replace (if cap_ v =? 0 then 1 else cap_ v) with (Z.max 1 (cap_ v)) by (destruct (Z.eqb_spec (cap_ v) 0); lia).
  destruct (grow_ret st (Z.max 1 (cap_ v)) n) as (j & E & Hj & Hge & Hor); [lia|pow2; nia|]. mrun E.
  set (ncap := Z.max 1 (cap_ v) * 2 ^ j) in *.
  assert (n <= ncap < 2 * n) as Hnc.
  { split; [done|]. destruct Hor as [->|]; [|done]. unfold ncap. rewrite Z.mul_1_r. lia. }
  rewrite uwrap_id by (unfold_int; nia).
  assert (new_array (sizeof_T A * ncap) st = Ret (next st) (add_block st (replicate (Z.to_nat ncap) None))) as En.
  { unfold new_array. rewrite Hroom. rewrite Z.mul_comm, Z.div_mul by lia. done. }
  mrun En. exists ncap, (Z.to_nat ncap - length l)%nat.
  split; [|split_and!; [lia|lia|lia|exists j; done]].
  replace (Z.to_nat ncap) with (length l + (Z.to_nat ncap - length l))%nat at 1 by lia.
  rewrite Hsz, Nat2Z.id. destruct (data_ v) as [b|] eqn:Ed.
  - destruct Hd as (k & Hb & _ & _ & Hcap).
    assert (b <> next st) as Hne by (intros ->; rewrite Hf in Hb; done).
    erewrite bind_ret; [done|]. by apply (vec_copy_loop_ret st b k l); [..|nia|].
  - destruct Hd as [_ ->]. done.
Qed.
(** The blocks that existed before are untouched, but for that of [v]. *)
Definition frame v st st' : Prop :=
  next st <= next st' /\ forall b, b < next st -> data_ v <> Some b -> blocks st' !! b = blocks st !! b.

(** [v'] holds [l] in a state that an operation on [v] leads to. *)
Definition vnext v st v' st' l : Prop := vrep st' v' l /\ fresh_store st' /\ frame v st st'.

Lemma vnext_refl v st l : vrep st v l -> fresh_store st -> vnext v st v st l.
Proof. intros Hv Hf. split; [done|]. split; [done|]. by split. Qed.

(** A vector in another block is not affected. *)
Lemma frame_vrep v st st' (x : vector) l :
  frame v st st' -> fresh_store st -> vrep st x l -> (forall b, data_ x = Some b -> data_ v <> Some b) -> vrep st' x l.
Proof.
  intros (_ & Hf) Hfr (Hs & Hx) Hne. split; [done|]. destruct (data_ x) as [b|] eqn:E; [|done].
  destruct Hx as (k & Hb & Hk). exists k. rewrite Hf; [done|..|by apply Hne].
  destruct (decide (b < next st)); [done|]. rewrite Hfr in Hb by lia. done.
Qed.

Lemma frame_trans v st v' st' st'' :
  frame v st st' -> frame v' st' st'' -> (forall b, data_ v' = Some b -> data_ v = Some b \/ next st <= b) -> frame v st st''.
Proof.
  intros (N1 & F1) (N2 & F2) Hd. split; [lia|]. intros b Hb Hv. rewrite F2; [by apply F1|lia|].
  intros E. destruct (Hd b E); [done|lia].
Qed.

(** A vector with a block: what an update of the block does. *)
Lemma vnext_block st (v : vector) b l k v' l' k' :
  data_ v = Some b -> blocks st !! b = Some (block_of l k) -> fresh_store st ->
  data_ v' = Some b -> cap_ v' = cap_ v -> size_ v' = Z.of_nat (length l') -> (length l' + k' = length l + k)%nat ->
  cap_ v = Z.of_nat (length l + k) -> 0 < cap_ v -> sizeof_T A * cap_ v < 2 ^ 64 ->
  vnext v st v' (with_block st b (block_of l' k')) l'.
Proof.
  intros Hd Hb Hf Hd' Hc Hs Hlen Hcap Hpos Hbig. split_and!.
  - split; [done|]. rewrite Hd'. exists k'. rewrite with_block_eq, Hc. split_and!; [done|lia|lia|lia].
  - by apply with_block_fresh.
  - split; simpl; [lia|]. intros b' _ Hne. rewrite lookup_insert_ne; [done|]. intros <-. done.
Qed.

Lemma on_elements_ret {X} st v l (m : M (list A) X) (x : X) l' :
  vrep st v l -> fresh_store st -> m l = Ret x l' -> length l' = length l ->
  exists st', on_elements v m st = Ret x st' /\ vnext v st v st' l'.
Proof.
  intros (Hs & Hd) Hf Hm Hl. unfold on_elements. rewrite Hs, Nat2Z.id. destruct (data_ v) as [b|] eqn:Ed.
  - destruct Hd as (k & Hb & Hk & Hpos & Hbig). rewrite Hb, block_of_elements, Hm, block_of_raw.
    eexists. split; [done|]. apply (vnext_block st v b l k v l' k); try done; [congruence|lia].
  - destruct Hd as [Hc ->]. destruct l'; [|done]. rewrite Hm. exists st. split; [done|]. apply vnext_refl; [|done].
    split; [done|]. by rewrite Ed.
Qed.

(** [push_back] into the block, and into a new block. *)
Lemma push_in_place st v b l k x :
  vrep st v l -> data_ v = Some b -> blocks st !! b = Some (block_of l (S k)) ->
  push_back v x st = Ret {| data_ := Some b; size_ := size_ v + 1; cap_ := cap_ v |} (with_block st b (block_of (l ++ [x]) k)).
Proof.
  intros [Hs Hd] Ed Hb. rewrite Ed in Hd. destruct Hd as (k' & Hb' & Hk & Hp & Hbig). rewrite Hb in Hb'. injection Hb' as Hkk.
  assert (k' = S k) as ->.
  { apply (f_equal length) in Hkk. change (length (block_of l (S k)) = length (block_of l k')) in Hkk.
    rewrite !block_of_length in Hkk. lia. }
  pose proof (sizeof_T_pos A). unfold push_back, emplace_back. rewrite uwrap_id by (unfold_int; nia).
  assert (reserve v (size_ v + 1) st = Ret v st) as E.
  { unfold reserve. by rewrite (proj2 (Z.leb_le _ _)) by lia. }
  mrun E. rewrite Hs, Ed. unfold construct.
  mrun (vec_set_cell_ret st b _ (length l) (Some x) Hb ltac:(rewrite block_of_length; lia)).
  rewrite block_of_snoc, uwrap_id by (unfold_int; nia). done.
Qed.

Lemma push_grown st v l x :
  vrep st v l -> fresh_store st -> cap_ v = Z.of_nat (length l) ->
  sizeof_T A * (2 * (Z.of_nat (length l) + 1)) < 2 ^ 64 -> (forall m h, @room A _ m h = true) ->
  exists ncap k, push_back v x st
      = Ret {| data_ := Some (next st); size_ := size_ v + 1; cap_ := ncap |} (add_block st (block_of (l ++ [x]) k)) /\
    ncap = Z.of_nat (length l + 1 + k) /\ ncap < 2 * (Z.of_nat (length l) + 1) /\
    exists j, 0 <= j /\ ncap = Z.max 1 (cap_ v) * 2 ^ j.
Proof.
  intros Hv Hf Hcap Hbig Hroom. pose proof (sizeof_T_pos A) as Hpos. unfold push_back, emplace_back.
  rewrite (proj1 Hv), uwrap_id by (unfold_int; nia).
  destruct (vec_reserve_ret st v l (Z.of_nat (length l) + 1) Hv Hf) as (ncap & k & E & Hk & Hnc & Hj); [lia|lia|done|].
  mrun E. cbn [data_ size_ cap_]. rewrite (proj1 Hv). destruct k as [|k]; [lia|]. unfold construct.
  mrun (vec_set_cell_ret (add_block st (block_of l (S k))) (next st) _ (length l) (Some x) ltac:(apply lookup_insert_eq)
    ltac:(rewrite block_of_length; lia)).
  rewrite block_of_snoc, with_add_block, uwrap_id by (unfold_int; nia). exists ncap, k. split_and!; [done|lia|lia|done].
Qed.

Lemma vec_push_back_ret st v l x :
  vrep st v l -> fresh_store st -> sizeof_T A * (2 * (Z.of_nat (length l) + 1)) < 2 ^ 64 -> (forall m h, @room A _ m h = true) ->
  exists v' st', push_back v x st = Ret v' st' /\ vnext v st v' st' (l ++ [x]) /\
    forall b, data_ v' = Some b -> data_ v = Some b \/ next st <= b.
Proof.
  intros Hv Hf Hbig Hroom. pose proof (sizeof_T_pos A) as Hpos. pose proof Hv as [Hs Hd].
  destruct (Z.eqb_spec (cap_ v) (Z.of_nat (length l))) as [Hc|Hc].
  - destruct (push_grown st v l x Hv Hf Hc Hbig Hroom) as (ncap & k & E & Hk & Hn & _).
    eexists _, _. split; [exact E|]. split; [|intros b [= <-]; by right]. split_and!; [|by apply add_block_fresh|].
    + split; simpl; [rewrite length_app; simpl; lia|]. exists k.
      rewrite lookup_insert_eq, length_app. simpl. split_and!; [done|lia|lia|nia].
    + split; simpl; [lia|]. intros b Hb _. by rewrite lookup_insert_ne by lia.
  - destruct (data_ v) as [b|] eqn:Ed; [|destruct Hd as [E ->]; done]. destruct Hd as ([|k] & Hb & Hk & Hp & Hbig'); [lia|].
    eexists _, _. split; [by apply (push_in_place st v b l k)|]. split; [|by left].
    apply (vnext_block st v b l (S k)); try done; simpl; rewrite ?length_app; simpl; lia.
Qed.

Lemma back_ret st v l x : vrep st v (l ++ [x]) -> back v st = Ret x st.
Proof.
  intros (Hs & Hd). rewrite length_app in Hs. simpl in Hs. unfold back. destruct (data_ v) as [b|]; [|by destruct Hd, l].
  destruct Hd as (k & Hb & _). replace (size_ v - 1) with (Z.of_nat (length l)) by lia.
  eapply vec_elt_ret; [done|]. apply block_of_lookup. by rewrite list_lookup_middle.
Qed.

Lemma pop_last_ret st b l x k :
  blocks st !! b = Some (block_of (l ++ [x]) k) ->
  CxxVector.destruct (Some b) (Z.of_nat (length l)) st = Ret tt (with_block st b (block_of l (S k))).
Proof.
  intros Hb. unfold CxxVector.destruct.
  mrun (vec_elt_ret st b _ (length l) x Hb ltac:(apply block_of_lookup; by rewrite list_lookup_middle)).
  rewrite (vec_set_cell_ret st b _ (length l) None Hb) by (rewrite block_of_length, length_app; simpl; lia).
  by rewrite block_of_unsnoc.
Qed.

Lemma vec_pop_back_ret st v l :
  vrep st v l -> fresh_store st -> exists v' st', pop_back v st = Ret v' st' /\ vnext v st v' st' (removelast l).
Proof.
  intros Hv Hf. unfold pop_back, empty. pose proof Hv as [Hs Hd]. destruct (Z.eqb_spec (size_ v) 0) as [E|E].
  { assert (l = []) as -> by (destruct l; simpl in *; [done|lia]). exists v, st. split; [done|]. by apply vnext_refl. }
  destruct l as [|x l _] using rev_ind; [simpl in Hs; lia|]. rewrite removelast_last. rewrite length_app in *. simpl in *.
  destruct (data_ v) as [b|] eqn:Ed; [|by destruct Hd, l]. destruct Hd as (k & Hb & Hk & Hp & Hbig).
  replace (size_ v - 1) with (Z.of_nat (length l)) by lia. mrun (pop_last_ret st b l x k Hb).
  eexists _, _. split; [done|]. apply (vnext_block st v b (l ++ [x]) k); try done; simpl; rewrite ?length_app; simpl; try lia.
  apply uwrap_id. pose proof (sizeof_T_pos A). unfold_int. nia.
Qed.

Lemma vec_erase_ret st v a y c :
  vrep st v (a ++ y :: c) -> fresh_store st ->
  exists v' st', erase v (Z.of_nat (length a)) st = Ret (Z.of_nat (length a), v') st' /\ vnext v st v' st' (a ++ c).
Proof.
  intros Hv Hf. unfold erase. destruct (move_ret a [y] c) as ([|z [|]] & Hl & E); try done.
  replace (length a + length [y])%nat with (S (length a)) in E by (simpl; lia). rewrite Nat2Z.inj_succ in E.
  rewrite (proj1 Hv).
  destruct (on_elements_ret st v _ _ _ _ Hv Hf E) as (st1 & E1 & Hv1 & Hf1 & Hfr1); [rewrite !length_app; simpl; lia|].
  replace (Z.of_nat (length a) + 1) with (Z.succ (Z.of_nat (length a))) by lia.
  mrun E1. pose proof Hv1 as [Hs1 Hd1]. rewrite app_assoc in *. destruct (data_ v) as [b|] eqn:Ed; [|by destruct Hd1 as [_ [_ ?]%app_nil]].
  destruct Hd1 as (k & Hb & Hk & Hp & Hbig). rewrite <- length_app. mrun (pop_last_ret st1 b (a ++ c) z k Hb).
  eexists _, _. split; [done|].
  destruct (vnext_block st1 v b ((a ++ c) ++ [z]) k
    {| data_ := Some b; size_ := u64 (Z.of_nat (length (a ++ y :: c)) - 1); cap_ := cap_ v |} (a ++ c) (S k)) as (V & F & Fr); try done.
  - simpl. rewrite !length_app in *. simpl in *. rewrite uwrap_id; [lia|]. pose proof (sizeof_T_pos A). unfold_int. nia.
  - rewrite !length_app. simpl. lia.
  - split_and!; [done..|]. eapply frame_trans; [done..|]. intros b' Hb'. by left.
Qed.
(** A loop that destroys the elements [m] one after the other. *)
Lemma destroy_ret {L X} st b p m q (B : L -> M (store A) (L + X)) (at_step : nat -> L) (res : X) :
  blocks st !! b = Some (p ++ fmap Some m ++ q) ->
  (forall j s, (j <= length m)%nat -> B (at_step j) s = (if (j <? length m)%nat then
     _ ← CxxVector.destruct (Some b) (Z.of_nat (length p + j)); mret (inl (at_step (S j))) else mret (inr res)) s) ->
  forall fuel, (length m < fuel)%nat ->
  loop fuel B (at_step 0%nat) st = Ret res (with_block st b (p ++ replicate (length m) None ++ q)).
Proof.
  intros Hb HB.
  enough (forall m' j st fuel, (j + length m' = length m)%nat -> blocks st !! b = Some (p ++ replicate j None ++ fmap Some m' ++ q) ->
    (length m' < fuel)%nat ->
    loop fuel B (at_step j) st = Ret res (with_block st b (p ++ replicate (length m) None ++ q))) as G.
  { intros fuel Hf. by apply (G m). }
  clear Hb st. induction m' as [|x m' IH]; intros j st [|fuel] Hj Hb Hf; cbn [length] in *; try lia; rewrite loop_S, HB by lia.
  - rewrite (proj2 (Nat.ltb_ge _ _)) by lia. munfold. f_equal. replace j with (length m) in * by lia.
    unfold with_block. rewrite insert_id by done. by destruct st.
  - rewrite (proj2 (Nat.ltb_lt _ _)) by lia. munfold. unfold CxxVector.destruct. munfold.
    assert ((p ++ replicate j None ++ fmap Some (x :: m') ++ q) !! (length p + j)%nat = Some (Some x)) as Hx.
    { rewrite app_assoc. simpl. apply list_lookup_middle. by rewrite length_app, length_replicate. }
    rewrite (vec_elt_ret st b _ _ x Hb Hx), (vec_set_cell_ret st b _ _ None Hb) by (by eapply lookup_lt_Some).
    assert (<[(length p + j)%nat := None]> (p ++ replicate j None ++ fmap Some (x :: m') ++ q)
      = p ++ replicate (S j) None ++ fmap Some m' ++ q) as ->.
    { rewrite insert_app_r, insert_app_r_alt, length_replicate, Nat.sub_diag by (rewrite length_replicate; lia).
      simpl. f_equal. change (None :: replicate j None ++ fmap Some m' ++ q) with ((None :: replicate j None) ++ fmap Some m' ++ q).
      by rewrite replicate_cons_app, <- app_assoc. }
    rewrite (IH (S j)); [by rewrite with_block_twice|lia|apply with_block_eq|lia].
Qed.

Lemma vec_clear_ret st v l :
  vrep st v l -> fresh_store st ->
  exists v' st', clear v st = Ret v' st' /\ vnext v st v' st' [] /\ data_ v' = data_ v /\ dom (blocks st') = dom (blocks st).
Proof.
  intros Hv Hf. pose proof Hv as [Hs Hd]. unfold clear. rewrite Hs, Nat2Z.id. loop_body B.
  destruct (data_ v) as [b|] eqn:Ed.
  - destruct Hd as (k & Hb & Hk & Hp & Hbig). pose proof (sizeof_T_pos A).
    assert (loop (S (length l)) B 0 st = Ret tt (with_block st b (block_of [] (length l + k)))) as E.
    { unfold block_of at 1. rewrite replicate_add.
      apply (destroy_ret st b [] l (replicate k None) B Z.of_nat tt Hb); [|lia]. intros j s Hj. unfold B.
      destruct (Nat.ltb_spec j (length l)); [rewrite (proj2 (Z.ltb_lt _ _)) by lia|by rewrite (proj2 (Z.ltb_ge _ _)) by lia].
      rewrite uwrap_id by (unfold_int; nia). by replace (Z.of_nat j + 1) with (Z.of_nat (S j)) by lia. }
    mrun E. eexists _, _. split; [done|]. split; [|split; [done|apply dom_insert_lookup_L; eauto]].
    by apply (vnext_block st v b l k).
  - destruct Hd as [Hc ->]. eexists _, _. split; [done|]. split; [|done]. split; [by split|]. by split.
Qed.

Lemma erase_range_ret st v a h c :
  vrep st v (a ++ h ++ c) -> fresh_store st ->
  exists v' st', erase_range v (Z.of_nat (length a)) (Z.of_nat (length a + length h)) st = Ret (Z.of_nat (length a), v') st' /\
    vnext v st v' st' (a ++ c).
Proof.
  intros Hv Hf. unfold erase_range.
  destruct (Z.eqb_spec (Z.of_nat (length a + length h)) (Z.of_nat (length a))) as [E|E]; cbn [negb].
  { assert (h = []) as -> by (destruct h; simpl in *; [done|lia]). exists v, st. split; [done|]. by apply vnext_refl. }
  destruct (move_ret a h c) as (h' & Hl & Em). rewrite (proj1 Hv).
  destruct (on_elements_ret st v _ _ _ _ Hv Hf Em) as (st1 & E1 & Hv1 & Hf1 & Hfr1); [rewrite !length_app; lia|].
  mrun E1. pose proof Hv1 as [Hs1 Hd1]. rewrite app_assoc in *. rewrite Nat2Z.id. loop_body B.
  destruct (data_ v) as [b|] eqn:Ed; [|destruct Hd1 as [_ [_ ->]%app_nil]; simpl in Hl; lia].
  destruct Hd1 as (k & Hb & Hk & Hp & Hbig). pose proof (sizeof_T_pos A). rewrite !length_app in *.
  assert (loop (S (length a + length h + length c)) B (Z.of_nat (length a + length c), 0) st1
    = Ret (Z.of_nat (length h)) (with_block st1 b (block_of (a ++ c) (length h' + k)))) as EL.
  { unfold block_of in *. rewrite fmap_app, <- app_assoc in Hb. rewrite replicate_add.
    pose proof (destroy_ret st1 b _ h' _ B (fun j => (Z.of_nat (length a + length c + j), Z.of_nat j)) (Z.of_nat (length h)) Hb) as D.
    cbn beta in D. rewrite Nat.add_0_r in D. apply D; [|lia]. intros j s Hj. unfold B. rewrite !length_fmap, !length_app.
    destruct (Nat.ltb_spec j (length h')); [rewrite (proj2 (Z.eqb_neq _ _)) by lia|rewrite (proj2 (Z.eqb_eq _ _)) by lia]; cbn [negb].
    - rewrite uwrap_id by (unfold_int; nia). replace (Z.of_nat j + 1) with (Z.of_nat (S j)) by lia.
      by replace (Z.of_nat (length a + length c + j) + 1) with (Z.of_nat (length a + length c + S j)) by lia.
    - by replace j with (length h) by lia. }
  mrun EL. eexists _, _. split; [done|].
  destruct (vnext_block st1 v b ((a ++ c) ++ h') k
    {| data_ := Some b; size_ := u64 (Z.of_nat (length a + length h + length c) - Z.of_nat (length h)); cap_ := cap_ v |}
    (a ++ c) (length h' + k)) as (V & F & Fr); try done.
  - simpl. rewrite !length_app in *. rewrite uwrap_id; [lia|]. unfold_int. nia.
  - rewrite !length_app. lia.
  - by rewrite !length_app.
  - split_and!; [done..|]. eapply frame_trans; [done..|]. intros b' Hb'. by left.
Qed.

Lemma vec_at_ret st v l n :
  vrep st v l -> 0 <= n -> at_ v n st = match l !! Z.to_nat n with Some x => Ret x st | None => Halt 1 st end.
Proof.
  intros [Hs Hd] Hn. unfold at_. destruct (Z.leb_spec (size_ v) n) as [Hle|Hlt].
  - by rewrite lookup_ge_None_2 by lia.
  - destruct (lookup_lt_is_Some_2 l (Z.to_nat n)) as [x Hx]; [lia|]. rewrite Hx.
    destruct (data_ v) as [b|]; [|destruct Hd as [_ ->]; done]. destruct Hd as (k & Hb & _).
    rewrite <- (Z2Nat.id n) at 1 by lia. eapply vec_elt_ret; [done|]. by apply block_of_lookup.
Qed.
(** [reserve] keeps the elements. *)
Lemma reserve_vnext st v l n :
  vrep st v l -> fresh_store st -> sizeof_T A * (2 * n) < 2 ^ 64 -> (forall m h, @room A _ m h = true) ->
  exists v' st', reserve v n st = Ret v' st' /\ vnext v st v' st' l /\ n <= cap_ v' /\
    forall b, data_ v' = Some b -> data_ v = Some b \/ next st <= b.
Proof.
  intros Hv Hf Hbig Hroom. destruct (Z.leb_spec n (cap_ v)) as [Hle|Hgt].
  - exists v, st. unfold reserve. rewrite (proj2 (Z.leb_le _ _)) by done. split_and!; [done|by apply vnext_refl|done|by left].
  - destruct (vec_reserve_ret st v l n Hv Hf Hgt Hbig Hroom) as (ncap & k & E & Hk & Hn & _).
    eexists _, _. split; [exact E|]. pose proof (sizeof_T_pos A). split_and!; [|simpl; lia|intros b [= <-]; by right].
    split_and!; [|by apply add_block_fresh|].
    + split; [apply Hv|]. simpl. exists k. rewrite lookup_insert_eq. destruct Hv as [Hs Hd].
      assert (0 <= cap_ v) by (destruct (data_ v); [destruct Hd as (?&?&?&?); lia|lia]). split_and!; [done|lia|lia|nia].
    + split; simpl; [lia|]. intros b Hb _. by rewrite lookup_insert_ne by lia.
Qed.

(** Assignment appends. *)
Lemma copy_assign_ret st v lv (x : vector) lx :
  vrep st v lv -> vrep st x lx -> fresh_store st -> (forall b, data_ x = Some b -> data_ v <> Some b) ->
  sizeof_T A * (2 * Z.of_nat (length lv + length lx)) < 2 ^ 64 -> (forall m h, @room A _ m h = true) ->
  exists v' st', copy_assign v x st = Ret v' st' /\ vnext v st v' st' (lv ++ lx) /\
    forall b, data_ v' = Some b -> data_ v = Some b \/ next st <= b.
Proof.
  intros Hv Hx Hf Hne Hbig Hroom. pose proof (sizeof_T_pos A) as Hpos. unfold copy_assign.
  destruct (reserve_vnext st v lv (size_ x) Hv Hf) as (v0 & st0 & E0 & (Hv0 & Hf0 & Hfr0) & _ & Ho0);
    [rewrite (proj1 Hx); nia|done|]. mrun E0. rewrite (proj1 Hx), Nat2Z.id. loop_body B.
  enough (forall fuel j v1 st1, (length lx - j < fuel)%nat -> (j <= length lx)%nat ->
    vnext v st v1 st1 (lv ++ take j lx) -> (forall b, data_ v1 = Some b -> data_ v = Some b \/ next st <= b) ->
    exists v' st', loop fuel B (v1, Z.of_nat j) st1 = Ret v' st' /\ vnext v st v' st' (lv ++ lx) /\
      forall b, data_ v' = Some b -> data_ v = Some b \/ next st <= b) as G.
  { apply (G _ 0%nat); [lia|lia|by rewrite app_nil_r|done]. }
  clear - Hx Hf Hne Hbig Hroom Hpos. induction fuel as [|fuel IH]; intros j v1 st1 Hfu Hj (Hv1 & Hf1 & Hfr1) Ho1; [lia|].
  rewrite loop_S. unfold B at 1. destruct (Z.eqb_spec (Z.of_nat j) (Z.of_nat (length lx))) as [Ej|Ej]; cbn [negb].
  { exists v1, st1. rewrite take_ge in Hv1 by lia. done. }
  destruct (lookup_lt_is_Some_2 lx j) as [e He]; [lia|]. pose proof (frame_vrep v st st1 x lx Hfr1 Hf Hx Hne) as [_ Hx1].
  destruct (data_ x) as [bx|] eqn:Edx; [|by destruct Hx1 as [_ ->]]. destruct Hx1 as (kx & Hbx & _).
  mrun (vec_elt_ret st1 bx _ j e Hbx ltac:(by apply block_of_lookup)).
  destruct (vec_push_back_ret st1 v1 _ e Hv1 Hf1) as (v2 & st2 & E2 & (Hv2 & Hf2 & Hfr2) & Ho2);
    [rewrite length_app, length_take; nia|done|]. mrun E2.
  replace (Z.of_nat j + 1) with (Z.of_nat (S j)) by lia. apply IH; [lia|lia|..].
  - rewrite (take_S_r lx j e He), app_assoc. split_and!; [done..|]. by eapply frame_trans.
  - intros b Hb. destruct (Ho2 b Hb) as [|]; [by apply Ho1|]. right. destruct Hfr1. lia.
Qed.

(** ** Operations on the elements of one vector *)

(** An operation on [v] leads to [v'], which holds [l]; a block that [v'] uses is
    that of [v] or new. *)
Definition vstep v st v' st' l : Prop :=
  vnext v st v' st' l /\ forall b, data_ v' = Some b -> data_ v = Some b \/ next st <= b.

Lemma vstep_refl v st l : vrep st v l -> fresh_store st -> vstep v st v st l.
Proof. intros Hv Hf. split; [by apply vnext_refl|by left]. Qed.

Lemma vstep_same v st v' st' l : vnext v st v' st' l -> data_ v' = data_ v -> vstep v st v' st' l.
Proof. intros Hv Hd. split; [done|]. rewrite Hd. by left. Qed.

Lemma vstep_trans v st v1 st1 l1 v2 st2 l2 : vstep v st v1 st1 l1 -> vstep v1 st1 v2 st2 l2 -> vstep v st v2 st2 l2.
Proof.
  intros [(_ & _ & Hfr1) Ho1] [(Hv2 & Hf2 & Hfr2) Ho2]. split.
  - split_and!; [done..|]. by eapply frame_trans.
  - intros b Hb. destruct (Ho2 b Hb) as [|]; [by apply Ho1|]. right. destruct Hfr1. lia.
Qed.

Lemma pop_back_data v st v' st' : pop_back v st = Ret v' st' -> data_ v' = data_ v.
Proof. unfold pop_back. case_match; intros E; [apply bind_inv in E as (? & ? & _ & E)|]; by injection E as <- _. Qed.

Lemma erase_data v pos st r st' : erase v pos st = Ret r st' -> data_ r.2 = data_ v.
Proof. unfold erase. intros (? & ? & _ & (? & ? & _ & E)%bind_inv)%bind_inv. by injection E as <- _. Qed.

Lemma erase_range_data v i j st r st' : erase_range v i j st = Ret r st' -> data_ r.2 = data_ v.
Proof.
  unfold erase_range. case_match; [|intros E; by injection E as <- _].
  intros (? & ? & _ & (? & ? & _ & E)%bind_inv)%bind_inv. by injection E as <- _.
Qed.

Inductive eop :=
  | Push (x : A) | Pop | Erase (i : nat) | EraseRange (i j : nat) | Clear | Reserve (n : Z) | At (n : Z).

(** The elements [At] returned, with the vector. *)
Definition eexec (v : vector) (o : eop) : M (store A) (vector * list A) :=
  match o with
  | Push x => v ← push_back v x; mret (v, [])
  | Pop => v ← pop_back v; mret (v, [])
  | Erase i => r ← erase v (Z.of_nat i); mret (r.2, [])
  | EraseRange i j => r ← erase_range v (Z.of_nat i) (Z.of_nat j); mret (r.2, [])
  | Clear => v ← clear v; mret (v, [])
  | Reserve n => v ← reserve v n; mret (v, [])
  | At n => x ← at_ v n; mret (v, [x])
  end.

(** The same on lists; [None] is the exception. *)
Definition espec l (o : eop) : option (list A * list A) :=
  match o with
  | Push x => Some (l ++ [x], [])
  | Pop => Some (removelast l, [])
  | Erase i => Some (take i l ++ drop (S i) l, [])
  | EraseRange i j => Some (take i l ++ drop j l, [])
  | Clear => Some ([], [])
  | Reserve _ => Some (l, [])
  | At n => x ← l !! Z.to_nat n; Some (l, [x])
  end.

(** [n] elements fit, with the growth by doubling. *)
Definition fits (n : Z) : bool := sizeof_T A * (2 * n) <? 2 ^ 64.

(** What the caller owes: iterators in range and sizes below the limit. *)
Definition epre (o : eop) l : bool :=
  match o with
  | Push _ => fits (Z.of_nat (length l) + 1)
  | Erase i => (i <? length l)%nat
  | EraseRange i j => (i <=? j)%nat && (j <=? length l)%nat
  | Reserve n => fits n
  | At n => 0 <=? n
  | _ => true
  end.

Lemma eexec_ret st v l o :
  vrep st v l -> fresh_store st -> epre o l = true -> (forall m h, @room A _ m h = true) ->
  match espec l o with
  | Some (l', outs) => exists v' st', eexec v o st = Ret (v', outs) st' /\ vstep v st v' st' l'
  | None => eexec v o st = Halt 1 st
  end.
Proof.
  intros Hv Hf Hpre Hroom. unfold epre, fits in Hpre. destruct o as [x| |i|i j| |n|n]; simpl in *.
  - destruct (vec_push_back_ret st v l x Hv Hf) as (v' & st' & E & H1 & H2); [lia|done|]. mrun E. by eexists _, _.
  - destruct (vec_pop_back_ret st v l Hv Hf) as (v' & st' & E & H1). mrun E. eexists _, _. split; [done|].
    apply vstep_same; [done|]. by eapply pop_back_data.
  - apply Nat.ltb_lt in Hpre. destruct (lookup_lt_is_Some_2 l i Hpre) as [y Hy].
    rewrite <- (take_drop_middle l i y Hy) in Hv. destruct (vec_erase_ret st v _ y _ Hv Hf) as (v' & st' & E & H1).
    rewrite length_take, Nat.min_l in E by lia. mrun E. eexists _, _. split; [done|].
    apply vstep_same; [done|]. apply (erase_data _ _ _ _ _ E).
  - apply andb_prop in Hpre as [H1 H2]. apply Nat.leb_le in H1, H2.
    assert (l = take i l ++ take (j - i) (drop i l) ++ drop j l) as El.
    { replace (drop j l) with (drop (j - i) (drop i l)) by (rewrite drop_drop; f_equal; lia). by rewrite !take_drop. }
    rewrite El in Hv. destruct (erase_range_ret st v _ _ _ Hv Hf) as (v' & st' & E & H3).
    rewrite !length_take, length_drop, !Nat.min_l in E by lia. replace (i + (j - i))%nat with j in E by lia. mrun E.
    eexists _, _. split; [done|]. apply vstep_same; [done|]. apply (erase_range_data _ _ _ _ _ _ E).
  - destruct (vec_clear_ret st v l Hv Hf) as (v' & st' & E & H1 & H2 & _). mrun E. eexists _, _. split; [done|]. by apply vstep_same.
  - destruct (reserve_vnext st v l n Hv Hf) as (v' & st' & E & H1 & _ & H2); [lia|done|]. mrun E. by eexists _, _.
  - pose proof (vec_at_ret st v l n Hv ltac:(lia)) as E. destruct (l !! Z.to_nat n); simpl.
    + mrun E. eexists _, _. split; [done|]. by apply vstep_refl.
    + by rewrite (bind_halt _ _ _ _ _ E).
Qed.

Lemma push_all_ret st v l xs :
  vrep st v l -> fresh_store st -> sizeof_T A * (2 * Z.of_nat (length l + length xs)) < 2 ^ 64 -> (forall m h, @room A _ m h = true) ->
  exists v' st', push_all v xs st = Ret v' st' /\ vstep v st v' st' (l ++ xs).
Proof.
  intros Hv Hf Hbig Hroom. pose proof (sizeof_T_pos A). revert st v l Hv Hf Hbig.
  induction xs as [|x xs IH]; intros st v l Hv Hf Hbig; cbn [push_all length] in *.
  { exists v, st. rewrite app_nil_r. split; [done|]. by apply vstep_refl. }
  destruct (vec_push_back_ret st v l x Hv Hf) as (v1 & st1 & E1 & H1 & H2); [nia|done|]. mrun E1.
  destruct (IH st1 v1 (l ++ [x])) as (v2 & st2 & E2 & H3); [apply H1|apply H1|rewrite length_app; simpl; nia|].
  exists v2, st2. split; [done|]. rewrite <- app_assoc in H3. by eapply vstep_trans.
Qed.

Lemma vector_of_list_ret st xs :
  fresh_store st -> sizeof_T A * (2 * Z.of_nat (length xs)) < 2 ^ 64 -> (forall m h, @room A _ m h = true) ->
  exists v' st', vector_of_list xs st = Ret v' st' /\ vstep vector_new st v' st' xs.
Proof.
  intros Hf Hbig Hroom. unfold vector_of_list.
  destruct (reserve_vnext st vector_new [] (Z.of_nat (length xs))) as (v1 & st1 & E1 & H1 & _ & H2); [done|done|lia|done|]. mrun E1.
  destruct (push_all_ret st1 v1 [] xs) as (v2 & st2 & E2 & H3); [apply H1|apply H1|done|done|].
  exists v2, st2. split; [done|]. by eapply vstep_trans.
Qed.

(** The destructor takes the block away. *)
Lemma vector_delete_ret st v l :
  vrep st v l -> fresh_store st ->
  exists st', vector_delete v st = Ret tt st' /\ fresh_store st' /\ frame v st st'.
Proof.
  intros Hv Hf. unfold vector_delete. destruct (vec_clear_ret st v l Hv Hf) as (v1 & st1 & E1 & (Hv1 & Hf1 & Hfr) & Hd & _). mrun E1.
  rewrite Hd. destruct Hv1 as [_ Hv1]. rewrite Hd in Hv1. destruct (data_ v) as [b|] eqn:Ed; [|by exists st1].
  destruct Hv1 as (k & Hb & _). unfold delete_array. rewrite Hb. eexists. split; [done|]. split.
  - intros b' Hb'. simpl in *. destruct (decide (b' = b)) as [->|]; [apply lookup_delete_eq|]. rewrite lookup_delete_ne by done. by apply Hf1.
  - destruct Hfr as [Hn Hfr]. split; simpl; [done|]. intros b' Hb' Hne. rewrite lookup_delete_ne by congruence. by apply Hfr.
Qed.

(** ** Programs with several vectors

    The variables of a program; [None] is one whose vector was destroyed.  The
    constructors make a new variable. *)

Inductive vop :=
  | VList (xs : list A)            (** [vector<T> v{...}] *)
  | VRange (xs : list A)           (** [vector<T> v(first, last)] *)
  | VCopy (j : nat)                (** [vector<T> v(x)] *)
  | VMove (j : nat)                (** [vector<T> v(std::move(x))] *)
  | VAssign (i j : nat)            (** [v = x] *)
  | VMoveAssign (i j : nat)        (** [v = std::move(x)] *)
  | VSwap (i j : nat)              (** [v.swap(x)] *)
  | VDestroy (i : nat)
  | VOp (i : nat) (o : eop).

Abbreviation variables := (list (option vector)).
Implicit Types (vs : variables) (ls : list (option (list A))).

Definition getv vs (i : nat) : M (store A) vector := match vs !! i with Some (Some v) => mret v | _ => ub end.

(** [v = x] tests whether the two are the same object; [v = std::move(x)] and
    [swap] do not. *)
Definition vexec vs (o : vop) : M (store A) (variables * list A) :=
  match o with
  | VList xs => v ← vector_of_list xs; mret (vs ++ [Some v], [])
  | VRange xs => v ← vector_of_range xs; mret (vs ++ [Some v], [])
  | VCopy j => x ← getv vs j; v ← vector_copy x; mret (vs ++ [Some v], [])
  | VMove j => x ← getv vs j; let '(v, x) := vector_move x in mret (<[j := Some x]> vs ++ [Some v], [])
  | VAssign i j =>
      v ← getv vs i; x ← getv vs j;
      if decide (i = j) then mret (vs, []) else v ← copy_assign v x; mret (<[i := Some v]> vs, [])
  | VMoveAssign i j =>
      v ← getv vs i; v ← clear v;
      let vs := <[i := Some v]> vs in
      x ← getv vs j;
      let '(v, x) := vector_swap v x in mret (<[j := Some x]> (<[i := Some v]> vs), [])
  | VSwap i j =>
      v ← getv vs i; x ← getv vs j;
      let '(v, x) := vector_swap v x in mret (<[j := Some x]> (<[i := Some v]> vs), [])
  | VDestroy i => v ← getv vs i; _ ← vector_delete v; mret (<[i := None]> vs, [])
  | VOp i o => v ← getv vs i; r ← eexec v o; mret (<[i := Some r.1]> vs, r.2)
  end.

Fixpoint vrun vs (os : list vop) : M (store A) (variables * list A) :=
  match os with
  | [] => mret (vs, [])
  | o :: os => r ← vexec vs o; r' ← vrun r.1 os; mret (r'.1, r.2 ++ r'.2)
  end.

(** The same on lists; [None] is the exception.  Assignment from another vector
    appends. *)
Definition val ls (i : nat) : list A := default [] (mjoin (ls !! i)).

Definition vspec ls (o : vop) : option (list (option (list A)) * list A) :=
  match o with
  | VList xs | VRange xs => Some (ls ++ [Some xs], [])
  | VCopy j => Some (ls ++ [Some (val ls j)], [])
  | VMove j => Some (<[j := Some []]> ls ++ [Some (val ls j)], [])
  | VAssign i j => Some (if decide (i = j) then ls else <[i := Some (val ls i ++ val ls j)]> ls, [])
  | VMoveAssign i j => Some (<[j := Some []]> (<[i := Some (val ls j)]> ls), [])
  | VSwap i j => Some (<[j := Some (val ls i)]> (<[i := Some (val ls j)]> ls), [])
  | VDestroy i => Some (<[i := None]> ls, [])
  | VOp i o => r ← espec (val ls i) o; Some (<[i := Some r.1]> ls, r.2)
  end.

Fixpoint vspec_run ls (os : list vop) : option (list (option (list A)) * list A) :=
  match os with
  | [] => Some (ls, [])
  | o :: os => r ← vspec ls o; r' ← vspec_run r.1 os; Some (r'.1, r.2 ++ r'.2)
  end.

(** What the caller owes: vectors that were not destroyed, iterators in range and
    sizes below the limit. *)
Definition vpre (o : vop) ls : bool :=
  let ok i := match ls !! i with Some (Some _) => true | _ => false end in
  let len i := Z.of_nat (length (val ls i)) in
  match o with
  | VList xs | VRange xs => fits (Z.of_nat (length xs))
  | VCopy j => ok j && fits (len j)
  | VMove j | VDestroy j => ok j
  | VAssign i j => ok i && ok j && fits (len i + len j)
  | VMoveAssign i j | VSwap i j => ok i && ok j
  | VOp i o => ok i && epre o (val ls i)
  end.

Fixpoint vpre_run (os : list vop) ls : bool :=
  match os with
  | [] => true
  | o :: os => vpre o ls && match vspec ls o with Some r => vpre_run os r.1 | None => true end
  end.

(** The variables hold the lists, each in a block of its own. *)
Definition var_rep st (o : option vector) (ol : option (list A)) : Prop :=
  match o, ol with Some v, Some l => vrep st v l | None, None => True | _, _ => False end.

Record vars_rep st vs ls : Prop := {
  vr_vals : Forall2 (var_rep st) vs ls;
  vr_fresh : fresh_store st;
  vr_apart i j v w b : vs !! i = Some (Some v) -> vs !! j = Some (Some w) -> data_ v = Some b -> data_ w = Some b -> i = j
}.

Lemma vrep_block st v l b : vrep st v l -> fresh_store st -> data_ v = Some b -> b < next st.
Proof.
  intros [_ Hd] Hf Ed. rewrite Ed in Hd. destruct Hd as (k & Hb & _). destruct (decide (b < next st)); [done|].
  rewrite Hf in Hb by lia. done.
Qed.

Lemma vars_get st vs ls i : vars_rep st vs ls -> match ls !! i with Some (Some _) => true | _ => false end = true ->
  exists v, vs !! i = Some (Some v) /\ ls !! i = Some (Some (val ls i)) /\ vrep st v (val ls i) /\ getv vs i st = Ret v st.
Proof.
  intros Hr Hi. unfold val, getv. destruct (ls !! i) as [[l|]|] eqn:El; try done.
  destruct (Forall2_lookup_r _ _ _ _ _ (vr_vals _ _ _ Hr) El) as ([v|] & Ev & Hv); [|done]. exists v. by rewrite Ev.
Qed.

(** The other variables do not change when one does. *)
Lemma vars_frame st st' vs ls i v : vars_rep st vs ls -> vs !! i = Some (Some v) -> frame v st st' ->
  forall j o ol, j <> i -> vs !! j = Some o -> ls !! j = Some ol -> var_rep st' o ol.
Proof.
  intros Hr Hi Hfr j o ol Hji Hj Hl. destruct (Forall2_lookup_l _ _ _ _ _ (vr_vals _ _ _ Hr) Hj) as (ol' & Hl' & Ho). simplify_eq.
  destruct o as [w|], ol as [l|]; try done. simpl in *. apply (frame_vrep v st st' w l Hfr (vr_fresh _ _ _ Hr) Ho).
  intros b Hb Hv. by apply Hji, (vr_apart _ _ _ Hr j i w v b).
Qed.

Lemma vars_length st vs ls : vars_rep st vs ls -> length vs = length ls.
Proof. intros Hr. eapply Forall2_length, Hr. Qed.

(** A variable is given a vector or none. *)
Lemma vars_set st st' vs ls i v o ol :
  vars_rep st vs ls -> vs !! i = Some (Some v) -> frame v st st' -> fresh_store st' -> var_rep st' o ol ->
  (forall v' b, o = Some v' -> data_ v' = Some b -> data_ v = Some b \/ next st <= b) ->
  vars_rep st' (<[i := o]> vs) (<[i := ol]> ls).
Proof.
  intros Hr Hi Hfr Hf Ho Hown. split; [|done|].
  - apply Forall2_same_length_lookup. rewrite !length_insert. split; [by eapply vars_length|]. intros j o' ol' Hj Hl.
    destruct (decide (j = i)) as [->|Hji].
    + rewrite list_lookup_insert_eq in Hj by (by eapply lookup_lt_Some).
      rewrite list_lookup_insert_eq in Hl by (rewrite <- (vars_length _ _ _ Hr); by eapply lookup_lt_Some). by simplify_eq.
    + rewrite list_lookup_insert_ne in Hj by done. rewrite list_lookup_insert_ne in Hl by done. by eapply vars_frame.
  - assert (forall j w v' b, j <> i -> vs !! j = Some (Some w) -> o = Some v' -> data_ v' = Some b -> data_ w = Some b -> False) as Hne.
    { intros j w v' b Hji Hj -> Hb Hw. destruct (Hown v' b eq_refl Hb) as [Hv|Hn]; [by apply Hji, (vr_apart _ _ _ Hr j i w v b)|].
      destruct (Forall2_lookup_l _ _ _ _ _ (vr_vals _ _ _ Hr) Hj) as ([l|] & _ & Hw'); [|done].
      pose proof (vrep_block st w l b Hw' (vr_fresh _ _ _ Hr) Hw). lia. }
    intros j k w w' b [(<- & [= ->] & _)|[Hj Hw]]%list_lookup_insert_Some [(<- & [= ->] & _)|[Hk Hw']]%list_lookup_insert_Some Hb Hb';
      [done|by edestruct (Hne k w' w b)|by edestruct (Hne j w w' b)|by apply (vr_apart _ _ _ Hr j k w w' b)].
Qed.

Lemma vars_step st vs ls i v v' st' l : vars_rep st vs ls -> vs !! i = Some (Some v) -> vstep v st v' st' l ->
  vars_rep st' (<[i := Some v']> vs) (<[i := Some l]> ls).
Proof. intros Hr Hi [(Hv & Hf & Hfr) Hown]. eapply vars_set; [done..|]. intros ? b [= ->]. apply Hown. Qed.

(** A new variable. *)
Lemma vars_add st vs ls v l st' : vars_rep st vs ls -> vstep vector_new st v st' l -> vars_rep st' (vs ++ [Some v]) (ls ++ [Some l]).
Proof.
  intros Hr Hst. assert (vars_rep st (vs ++ [Some vector_new]) (ls ++ [Some []])) as Hr'.
  { split; [apply Forall2_app; [apply Hr|by repeat constructor]|apply Hr|].
    intros i j w w' b Hi Hj Hb Hb'. apply lookup_app_Some in Hi as [Hi|[_ Hi]], Hj as [Hj|[_ Hj]].
    - by apply (vr_apart _ _ _ Hr i j w w' b).
    - apply list_lookup_singleton_Some in Hj as [_ [= <-]]. done.
    - apply list_lookup_singleton_Some in Hi as [_ [= <-]]. done.
    - apply list_lookup_singleton_Some in Hi as [_ [= <-]]. done. }
  pose proof (vars_step st _ _ (length vs) vector_new v st' l Hr' ltac:(by apply list_lookup_middle) Hst) as H'.
  rewrite (vars_length _ _ _ Hr) in H' at 2. by rewrite !insert_app_r_alt, !Nat.sub_diag in H' by lia.
Qed.

(** Two variables change their vectors. *)
Lemma vars_swap st vs ls i j v w : vars_rep st vs ls -> vs !! i = Some (Some v) -> vs !! j = Some (Some w) ->
  vars_rep st (<[j := Some v]> (<[i := Some w]> vs)) (<[j := Some (val ls i)]> (<[i := Some (val ls j)]> ls)).
Proof.
  intros Hr Hi Hj. assert (forall k u, vs !! k = Some (Some u) -> vrep st u (val ls k)) as Hval.
  { intros k u Hk. destruct (Forall2_lookup_l _ _ _ _ _ (vr_vals _ _ _ Hr) Hk) as ([l|] & Hl & Hu); [|done]. unfold val. by rewrite Hl. }
  split; [|apply Hr|].
  - apply Forall2_insert; [apply Forall2_insert; [apply Hr|]|]; by apply Hval.
  - set (f := fun k => if decide (k = j) then i else if decide (k = i) then j else k).
    assert (forall k u, <[j := Some v]> (<[i := Some w]> vs) !! k = Some (Some u) -> vs !! f k = Some (Some u)) as Hf.
    { intros k u. unfold f. intros [(<- & [= ->] & _)|[Hk Hu]]%list_lookup_insert_Some; [by rewrite decide_True|].
      rewrite decide_False by done. apply list_lookup_insert_Some in Hu as [(<- & [= ->] & _)|[Hk' Hu]]; [by rewrite decide_True|].
      by rewrite decide_False. }
    intros k1 k2 u1 u2 b H1 H2 Hb1 Hb2. pose proof (vr_apart _ _ _ Hr _ _ u1 u2 b (Hf _ _ H1) (Hf _ _ H2) Hb1 Hb2) as E.
    unfold f in E. repeat case_decide; congruence.
Qed.

Lemma vexec_ret st vs ls (o : vop) :
  vars_rep st vs ls -> vpre o ls = true -> (forall m h, @room A _ m h = true) ->
  match vspec ls o with
  | Some (ls', outs) => exists vs' st', vexec vs o st = Ret (vs', outs) st' /\ vars_rep st' vs' ls'
  | None => vexec vs o st = Halt 1 st
  end.
Proof.
  intros Hr Hpre Hroom. pose proof (vr_fresh _ _ _ Hr) as Hf. destruct o as [xs|xs|j|j|i j|i j|i j|i|i o]; cbn [vpre vspec vexec] in *;
    unfold fits in Hpre; repeat (apply andb_prop in Hpre as [Hpre ?]);
    try (destruct (vars_get _ _ _ i Hr ltac:(done)) as (v & Hi & Hli & Hvi & Ei); mrun Ei);
    try (destruct (vars_get _ _ _ j Hr ltac:(done)) as (w & Hj & Hlj & Hvj & Ej)).
  - destruct (vector_of_list_ret st xs Hf) as (v & st' & E & Hst); [lia|done|]. mrun E. eexists _, _. split; [done|]. by eapply vars_add.
  - destruct (push_all_ret st vector_new [] xs) as (v & st' & E & Hst); [done|done|simpl; lia|done|].
    unfold vector_of_range. mrun E. eexists _, _. split; [done|]. by eapply vars_add.
  - mrun Ej. destruct (copy_assign_ret st vector_new [] w _ ltac:(done) Hvj Hf) as (v & st' & E & Hst); [done|simpl; lia|done|].
    unfold vector_copy. mrun E. eexists _, _. split; [done|]. by eapply vars_add.
  - mrun Ej. eexists _, _. split; [done|]. pose proof (vars_add st vs ls vector_new [] st Hr ltac:(by apply vstep_refl)) as Hr1.
    pose proof (vars_length _ _ _ Hr) as El. apply lookup_lt_Some in Hj as Hlt.
    pose proof (vars_swap st _ _ j (length vs) w vector_new Hr1 ltac:(by apply lookup_app_l_Some) ltac:(by apply list_lookup_middle)) as Hr2.
    unfold val in Hr2. rewrite (lookup_app_l ls), (insert_app_l vs), (insert_app_l ls) in Hr2 by lia.
    rewrite El in Hr2 at 2 3. rewrite list_lookup_middle in Hr2 by done.
    by rewrite !insert_app_r_alt, !length_insert, El, !Nat.sub_diag in Hr2 by (rewrite length_insert; lia).
  - mrun Ej. case_decide as Hij; [by eexists _, _|].
    destruct (copy_assign_ret st v _ w _ Hvi Hvj Hf) as (v' & st' & E & Hst); [|lia|done|].
    { intros b Hb Hb'. by apply Hij, (vr_apart _ _ _ Hr i j v w b). }
    mrun E. eexists _, _. split; [done|]. by eapply vars_step.
  - destruct (vec_clear_ret st v _ Hvi Hf) as (v1 & st1 & E1 & H1 & H2 & _). mrun E1.
    pose proof (vars_step _ _ _ _ _ _ _ _ Hr Hi (vstep_same _ _ _ _ _ H1 H2)) as Hr1.
    apply lookup_lt_Some in Hli as Hlt. set (ls1 := <[i := Some []]> ls) in *.
    assert (val ls1 i = [] /\ val ls1 j = (if decide (i = j) then [] else val ls j)) as [V1 V2].
    { unfold val, ls1. rewrite list_lookup_insert_eq by done. split; [done|].
      case_decide as Hij; [subst; by rewrite list_lookup_insert_eq|by rewrite list_lookup_insert_ne]. }
    destruct (vars_get _ _ _ j Hr1) as (x & Hx & _ & _ & Ex).
    { unfold ls1. destruct (decide (i = j)) as [<-|]; [by rewrite list_lookup_insert_eq|by rewrite list_lookup_insert_ne]. }
    mrun Ex. eexists _, _. split; [done|].
    assert (<[i := Some v1]> vs !! i = Some (Some v1)) as Hi1 by (apply list_lookup_insert_eq; by eapply lookup_lt_Some).
    pose proof (vars_swap _ _ _ i j v1 x Hr1 Hi1 Hx) as Hr2. rewrite V1, V2 in Hr2. unfold ls1 in Hr2.
    rewrite (list_insert_insert_eq ls) in Hr2. case_decide; [subst j; by rewrite !(list_insert_insert_eq ls) in *|done].
  - mrun Ej. eexists _, _. split; [done|]. by apply vars_swap.
  - destruct (vector_delete_ret st v _ Hvi Hf) as (st' & E & H1 & H2). mrun E. eexists _, _. split; [done|]. by eapply vars_set.
  - pose proof (eexec_ret st v _ o Hvi Hf ltac:(done) Hroom) as E. destruct (espec (val ls i) o) as [[l' outs]|]; simpl.
    + destruct E as (v' & st' & E & Hst). mrun E. eexists _, _. split; [done|]. by eapply vars_step.
    + by rewrite (bind_halt _ _ _ _ _ E).
Qed.

(** C11: [std::vector] is a list, except that assignment appends.  A program with
    several vectors (construction from elements, copies and moves, assignment,
    move assignment, [swap], destruction, and the operations on the elements of
    one), run with enough memory and with sizes whose bytes, doubled, are below
    2^64, gives the results and ends with the elements that the same operations on
    lists give, each vector in a block of its own and the cells behind the
    elements raw; it throws exactly when an [at] is out of range.  On lists, [v = x]
    for another vector [x] puts the elements of [x] behind those of [v], as the
    code does, which the standard library does not. *)
Theorem vector_refines st vs ls os :
  vars_rep st vs ls -> vpre_run os ls = true -> (forall m h, @room A _ m h = true) ->
  match vspec_run ls os with
  | Some (ls', outs) => exists vs' st', vrun vs os st = Ret (vs', outs) st' /\ vars_rep st' vs' ls'
  | None => exists st', vrun vs os st = Halt 1 st'
  end.
Proof.
  intros Hr Hpre Hroom. revert st vs ls Hr Hpre. induction os as [|o os IH]; intros st vs ls Hr Hpre; simpl in *; [by eauto|].
  apply andb_prop in Hpre as [Hpo Hpre]. pose proof (vexec_ret st vs ls o Hr Hpo Hroom) as E.
  destruct (vspec ls o) as [[ls1 outs1]|]; simpl in *.
  - destruct E as (vs1 & st1 & E & Hr1). mrun E. specialize (IH st1 vs1 ls1 Hr1 Hpre). simpl.
    destruct (vspec_run ls1 os) as [[ls2 outs2]|]; simpl.
    + destruct IH as (vs2 & st2 & E2 & H2). mrun E2. eauto.
    + destruct IH as (st2 & E2). exists st2. by rewrite (bind_halt _ _ _ _ _ E2).
  - exists st. by rewrite (bind_halt _ _ _ _ _ E).
Qed.


(** ** Growth *)

Lemma push_all_snoc v xs x st : push_all v (xs ++ [x]) st = (v ← push_all v xs; push_back v x) st.
Proof.
  revert v st. induction xs as [|y xs IH]; intros v st; cbn [app push_all].
  - unfold mbind, M_bind, mret, M_ret. by destruct (push_back v x st).
  - rewrite bind_assoc. unfold mbind, M_bind. by destruct (push_back v y st).
Qed.

Definition empty_store : store A := {| blocks := ∅; next := 0 |}.

(** The memory after [xs] were pushed: the blocks the vector has outgrown are
    still there, and full. *)
Definition outgrown (k : Z) xs st v : Prop :=
  data_ v = Some k /\ cap_ v = 2 ^ k /\ 0 <= k /\ next st = k + 1 /\ 2 ^ k < 2 * Z.of_nat (length xs) /\ vrep st v xs /\
  forall b, b <> k -> blocks st !! b = if (0 <=? b) && (b <? k) then Some (fmap Some (take (Z.to_nat (2 ^ b)) xs)) else None.

Lemma outgrown_take (b k : Z) xs x :
  0 <= b < k -> 2 ^ k < 2 * Z.of_nat (length xs) -> take (Z.to_nat (2 ^ b)) (xs ++ [x]) = take (Z.to_nat (2 ^ b)) xs.
Proof.
  intros Hb Hk. apply take_app_le. assert (2 ^ b <= 2 ^ (k - 1)) by (apply Z.pow_le_mono_r; lia).
  pose proof (pow2_half k ltac:(lia)). lia.
Qed.

Lemma push_outgrown k xs st v x :
  outgrown k xs st v -> sizeof_T A * (2 * (Z.of_nat (length xs) + 1)) < 2 ^ 64 -> (forall m h, @room A _ m h = true) ->
  exists k' v' st', push_back v x st = Ret v' st' /\ outgrown k' (xs ++ [x]) st' v'.
Proof.
  intros (Ed & Hc & Hk & Hnx & Hlt & Hv & Hbl) Hbig Hroom. pose proof (sizeof_T_pos A) as Hpos. pose proof Hv as [Hs Hd].
  rewrite Ed in Hd. destruct Hd as (r & Hb & Hr & Hp & Hsz). destruct r as [|r].
  - assert (fresh_store st) as Hf.
    { intros b Hb'. rewrite Hbl by lia. by rewrite (proj2 (Z.ltb_ge _ _)), andb_false_r by lia. }
    destruct (push_grown st v xs x Hv Hf) as (ncap & r & E & Hn & Hn2 & j & Hj & Hnj); [lia|done|done|].
    rewrite Hc, Z.max_r, <- Z.pow_add_r in Hnj by lia.
    assert (j = 1) as ->.
    { destruct (decide (j = 0)) as [->|]; [rewrite Z.add_0_r in Hnj; lia|]. destruct (decide (j < 2)); [lia|].
      assert (2 ^ (k + 2) <= 2 ^ (k + j)) as Hjj by (apply Z.pow_le_mono_r; lia). rewrite (Z.pow_add_r 2 k 2) in Hjj by lia. lia. }
    exists (k + 1). eexists _, _. split; [exact E|]. unfold outgrown. simpl. rewrite length_app, Hnx, Hnj. simpl. split_and!; try done; try lia.
    { split; simpl; [rewrite length_app; simpl; lia|]. exists r. rewrite length_app. simpl.
      split_and!; [rewrite Hnx; apply lookup_insert_eq|lia|lia|nia]. }
    intros b Hbk. rewrite lookup_insert_ne by lia. destruct (decide (b = k)) as [->|Hne].
    + rewrite (proj2 (Z.leb_le _ _)), (proj2 (Z.ltb_lt _ _)) by lia. simpl. rewrite Hb. unfold block_of.
      rewrite app_nil_r, take_app_length' by lia. done.
    + rewrite Hbl by done. destruct (Z.leb_spec 0 b); [|done]. simpl.
      destruct (Z.ltb_spec b k); [|by rewrite (proj2 (Z.ltb_ge _ _)) by lia].
      rewrite (proj2 (Z.ltb_lt _ _)) by lia. by rewrite (outgrown_take b k).
  - exists k. eexists _, _. split; [by apply (push_in_place st v k xs r)|]. unfold outgrown. simpl. rewrite length_app. simpl.
    split_and!; try done; try lia.
    + split; simpl; [rewrite length_app; simpl; lia|]. exists r. rewrite lookup_insert_eq, length_app. simpl.
      split_and!; [done|lia|lia|lia].
    + intros b Hbk. rewrite lookup_insert_ne by lia. rewrite Hbl by done.
      destruct (Z.leb_spec 0 b); [|done]. destruct (Z.ltb_spec b k); [|done]. simpl. by rewrite (outgrown_take b k).
Qed.

Lemma push_all_outgrown xs :
  xs <> [] -> sizeof_T A * (2 * Z.of_nat (length xs)) < 2 ^ 64 -> (forall m h, @room A _ m h = true) ->
  exists k v st, push_all vector_new xs empty_store = Ret v st /\ outgrown k xs st v.
Proof.
  intros Hne Hbig Hroom. pose proof (sizeof_T_pos A) as Hpos. induction xs as [|x xs IH] using rev_ind; [done|].
  rewrite length_app in Hbig. simpl in Hbig. rewrite push_all_snoc. destruct (decide (xs = [])) as [->|Hxs].
  - clear IH. destruct (push_grown empty_store vector_new [] x) as (ncap & r & E & Hn & Hn2 & _); [by split|by intros b|done..|].
    exists 0. eexists _, _. split; [exact E|]. simpl in *. unfold outgrown. simpl.
    split_and!; [done|lia..| |].
    + split; simpl; [done|]. exists r. rewrite lookup_insert_eq. simpl. split_and!; [done|lia|lia|nia].
    + intros b Hb. rewrite lookup_insert_ne by lia. destruct (Z.leb_spec 0 b), (Z.ltb_spec b 0); try done. lia.
  - destruct IH as (k & v & st & E & Ho); [done|nia|]. mrun E. apply (push_outgrown k xs st v x Ho); [nia|done].
Qed.

(** Growth of a vector and what its destructor leaves.  When [xs] are
    pushed, the capacity is the least power of two that holds them, less than
    twice their number; and after the destructor the memory still holds one full
    block of every smaller power of two. *)
Theorem growth_leaks xs :
  xs <> [] -> sizeof_T A * (2 * Z.of_nat (length xs)) < 2 ^ 64 -> (forall m h, @room A _ m h = true) ->
  exists k v st st', push_all vector_new xs empty_store = Ret v st /\ vector_delete v st = Ret tt st' /\
    size v = Z.of_nat (length xs) /\ capacity v = 2 ^ k /\ 0 <= k /\ Z.of_nat (length xs) <= 2 ^ k < 2 * Z.of_nat (length xs) /\
    forall b, blocks st' !! b = if (0 <=? b) && (b <? k) then Some (fmap Some (take (Z.to_nat (2 ^ b)) xs)) else None.
Proof.
  intros Hne Hbig Hroom. destruct (push_all_outgrown xs Hne Hbig Hroom) as (k & v & st & E & Ed & Hc & Hk & Hnx & Hlt & Hv & Hbl).
  assert (fresh_store st) as Hf.
  { intros b Hb'. rewrite Hbl by lia. by rewrite (proj2 (Z.ltb_ge _ _)), andb_false_r by lia. }
  destruct (vec_clear_ret st v xs Hv Hf) as (v1 & st1 & Ecl & (_ & _ & Hnn & Hfr) & Ed1 & Hdom).
  exists k, v, st. rewrite Ed in *. assert (is_Some (blocks st1 !! k)) as [c Hck].
  { apply elem_of_dom. rewrite Hdom. apply elem_of_dom. destruct Hv as [_ Hd]. rewrite Ed in Hd. destruct Hd as (r & -> & _). eauto. }
  eexists. split; [exact E|]. split; [|split_and!].
  - unfold vector_delete. mrun Ecl. rewrite Ed1. unfold delete_array. by rewrite Hck.
  - apply Hv.
  - done.
  - done.
  - destruct Hv as [_ Hd]. rewrite Ed in Hd. destruct Hd as (r & _ & Hr & _). lia.
  - done.
  - intros b. simpl. destruct (decide (b = k)) as [->|Hne'].
    + by rewrite lookup_delete_eq, Z.ltb_irrefl, andb_false_r.
    + rewrite lookup_delete_ne by done. destruct (decide (b < next st)) as [Hlt'|Hge].
      * rewrite Hfr; [by apply Hbl|done|congruence].
      * rewrite <- Hbl by done. destruct (blocks st1 !! b) eqn:Eb; [|by rewrite Hf by lia].
        assert (b ∈ dom (blocks st)) as [? Hx]%elem_of_dom by (rewrite <- Hdom; by apply elem_of_dom_2 in Eb).
        rewrite Hf in Hx by lia. done.
Qed.

(** A vector whose new block does not fit throws and is as before. *)
Lemma reserve_throws st v l n :
  vrep st v l -> cap_ v < n <= 2 ^ 63 -> (forall m h, @room A _ m h = false) -> reserve v n st = Halt 1 st.
Proof.
  intros Hv [Hc Hn] Hroom. unfold reserve. rewrite (proj2 (Z.leb_gt _ _)) by lia.
  replace (if cap_ v =? 0 then 1 else cap_ v) with (Z.max 1 (cap_ v)).
  2:{ destruct Hv as [_ Hd]. destruct (data_ v); [destruct Hd as (?&?&?&?)|]; destruct (Z.eqb_spec (cap_ v) 0); lia. }
  destruct (grow_ret st (Z.max 1 (cap_ v)) n) as (k & E & _); [lia|lia|]. mrun E.
  apply bind_halt. unfold new_array. by rewrite Hroom.
Qed.
End VectorCorrect.

(** ** Concrete runs *)

(** Elements of 8 bytes and memory without limit. *)
#[export] Instance cells_Z : Cells Z := {| sizeof_T := 8; sizeof_T_pos := eq_refl; room _ _ := true |}.

(** Four vectors, two of which are moved from and one destroyed. *)
Definition vec_program : list (vop (A := Z)) :=
  [VList [5; 6]; VOp 0 (Push 7); VOp 0 (Erase 0); VOp 0 (At 1); VCopy 0; VOp 1 Pop; VOp 1 (Reserve 9);
   VMove 0; VSwap 0 1; VAssign 0 2; VMoveAssign 2 0; VRange [1; 2; 3]; VOp 3 (EraseRange 0 2); VDestroy 1].

Lemma vector_refines_witness :
  vspec_run [] vec_program = Some ([Some []; None; Some [6; 6; 7]; Some [3]], [7]) /\
  exists vs' st', vrun [] vec_program empty_store = Ret (vs', [7]) st' /\
    vars_rep st' vs' [Some []; None; Some [6; 6; 7]; Some [3]].
Proof.
  assert (vspec_run [] vec_program = Some ([Some []; None; Some [6; 6; 7]; Some [3]], [7])) as E by (vm_compute; reflexivity).
  split; [exact E|]. pose proof (vector_refines empty_store [] [] vec_program) as T. rewrite E in T. apply T.
  - split; [constructor|by intros b|done].
  - vm_compute. reflexivity.
  - reflexivity.
Defined.

Lemma growth_leaks_witness :
  exists k v st st', push_all vector_new [4; 5; 6] empty_store = Ret v st /\ vector_delete v st = Ret tt st' /\
    size v = 3 /\ capacity v = 2 ^ k /\ 0 <= k /\ 3 <= 2 ^ k < 2 * 3 /\
    forall b, blocks st' !! b = if (0 <=? b) && (b <? k) then Some (fmap Some (take (Z.to_nat (2 ^ b)) [4; 5; 6])) else None.
Proof. apply (growth_leaks [4; 5; 6]); [discriminate|reflexivity|reflexivity]. Defined.

(** Assignment to a vector that is not empty keeps its elements. *)
Lemma copy_assign_appends :
  exists v' st', (v ← push_all vector_new [1; 2]; x ← push_all vector_new [3]; copy_assign v x) empty_store = Ret v' st' /\
    vrep st' v' [1; 2; 3].
Proof. eexists _, _. split; [vm_compute; reflexivity|]. split; [done|]. exists 1%nat. by vm_compute. Qed.

(** A size whose product with [sizeof(T)] wraps: the block has no cell, although
    the capacity is 2^61. *)
Lemma reserve_wraps :
  exists v st, reserve vector_new (2 ^ 61) empty_store = Ret v st /\ capacity v = 2 ^ 61 /\ blocks st !! 0 = Some [] /\
    push_back v 1 st = Ub.
Proof. eexists _, _. split; [vm_compute; reflexivity|]. by vm_compute. Qed.
