(* ===== verification/CxxQueue.v ===== *)
(** * [std::priority_queue] (cxx/queue)

    A vector whose elements are a heap for the comparison of the queue. *)

From stdpp Require Import sorting.
From S2P Require Import Prelude CxxBase CxxAlgo CxxHeap CxxVector.

Section Queue.
Context {A : Type} `{Cells A} (comp : A -> A -> bool).

(** The container; the comparison is a parameter. *)
Record priority_queue := { c_ : vector }.

(** Both constructors copy the container they are given. *)
Definition pq_new (c : vector) : M (store A) priority_queue :=
  v ← vector_copy c;
  _ ← on_elements v (make_heap comp 0 (size_ v));
  mret {| c_ := v |}.

Definition pq_empty (q : priority_queue) : bool := empty (c_ q).
Definition pq_size (q : priority_queue) : Z := size (c_ q).
Definition top (q : priority_queue) : M (store A) A := front (c_ q).

Definition push (q : priority_queue) (x : A) : M (store A) priority_queue :=
  v ← push_back (c_ q) x;
  _ ← on_elements v (push_heap comp 0 (size_ v));
  mret {| c_ := v |}.

Definition emplace (q : priority_queue) (x : A) : M (store A) priority_queue :=
  v ← emplace_back (c_ q) x;
  _ ← on_elements v (push_heap comp 0 (size_ v));
  mret {| c_ := v |}.

Definition pop (q : priority_queue) : M (store A) priority_queue :=
  _ ← on_elements (c_ q) (pop_heap comp 0 (size_ (c_ q)));
  v ← pop_back (c_ q);
  mret {| c_ := v |}.

Definition pq_swap (q q' : priority_queue) : priority_queue * priority_queue := (q', q).
End Queue.

(** ** The queue as a bag with a greatest element *)

Section QueueCorrect.
Context {A : Type} `{Cells A} (comp : A -> A -> bool) `{!StrictWeak comp}.
Implicit Types (st : store A) (q : priority_queue) (l bag : list A) (x m : A).

(** The head of the bag is the element [top] shows: no element is greater. *)
Definition topped bag : Prop := match bag with [] => True | m :: rest => Forall (geq comp m) rest end.

Definition qrep st q bag : Prop := vrep st (c_ q) bag /\ heap comp (length bag) bag /\ fresh_store st.

Inductive qop := QPush (x : A) | QPop | QTop.

(** What the operations promise; a pop takes the element that [top] shows. *)
Inductive qstep : list A -> qop -> list A -> list A -> Prop :=
  | qstep_push bag x bag' : bag' ≡ₚ x :: bag -> topped bag' -> qstep bag (QPush x) [] bag'
  | qstep_pop m bag bag' : bag' ≡ₚ bag -> topped bag' -> qstep (m :: bag) QPop [] bag'
  | qstep_pop_empty : qstep [] QPop [] []
  | qstep_top m bag : qstep (m :: bag) QTop [m] (m :: bag).

Inductive qsteps : list A -> list qop -> list A -> list A -> Prop :=
  | qsteps_nil bag : qsteps bag [] [] bag
  | qsteps_cons bag o outs bag1 os outs' bag2 :
      qstep bag o outs bag1 -> qsteps bag1 os outs' bag2 -> qsteps bag (o :: os) (outs ++ outs') bag2.

Definition qexec q (o : qop) : M (store A) (priority_queue * list A) :=
  match o with
  | QPush x => q ← push comp q x; mret (q, [])
  | QPop => q ← pop comp q; mret (q, [])
  | QTop => x ← top q; mret (q, [x])
  end.

Fixpoint qrun q (os : list qop) : M (store A) (priority_queue * list A) :=
  match os with
  | [] => mret (q, [])
  | o :: os => r ← qexec q o; r' ← qrun r.1 os; mret (r'.1, r.2 ++ r'.2)
  end.

(** What the caller owes: [top] of a queue with [n] elements needs one, and the
    size stays below the limit. *)
Fixpoint qpre (os : list qop) (n : nat) : bool :=
  match os with
  | [] => true
  | QPush _ :: os => (sizeof_T A * (2 * (Z.of_nat n + 1)) <? 2 ^ 64) && qpre os (S n)
  | QPop :: os => qpre os (n - 1)
  | QTop :: os => (0 <? n)%nat && qpre os n
  end.

Lemma heap_topped l : heap comp (length l) l -> topped l.
Proof.
  destruct l as [|m l]; [done|]. intros Hh. apply Forall_lookup. intros i x Hx.
  apply (heap_top comp (length (m :: l)) (m :: l) m (S i) x Hh); [done|done| |done].
  apply lookup_lt_Some in Hx. simpl. lia.
Qed.

Lemma push_ret st q bag x :
  qrep st q bag -> sizeof_T A * (2 * (Z.of_nat (length bag) + 1)) < 2 ^ 64 -> (forall n h, @room A _ n h = true) ->
  exists q' st' bag', push comp q x st = Ret q' st' /\ qrep st' q' bag' /\ bag' ≡ₚ x :: bag.
Proof.
  intros (Hv & Hh & Hf) Hbig Hroom. unfold push.
  destruct (vec_push_back_ret st (c_ q) bag x Hv Hf Hbig Hroom) as (v & st1 & E & (Hv1 & Hf1 & _) & _). mrun E.
  destruct (push_heap_ret comp [] (bag ++ [x]) []) as (h' & E2 & HP & Hh'); [by destruct bag| |].
  { rewrite length_app, Nat.add_sub. intros i Hi _ a b. pose proof (parent_spec i ltac:(lia)).
    rewrite !lookup_app_l by lia. apply Hh; lia. }
  rewrite !app_nil_r in E2. simpl in E2.
  destruct (on_elements_ret st1 v (bag ++ [x]) _ tt h' Hv1 Hf1 E2) as (st2 & E3 & Hv2 & Hf2 & _); [by rewrite HP|].
  rewrite (proj1 Hv1). mrun E3. eexists _, _, h'. split; [done|]. split; [done|]. by rewrite HP, Permutation_app_comm.
Qed.

Lemma pop_ret st q m bag :
  qrep st q (m :: bag) -> exists q' st' bag', pop comp q st = Ret q' st' /\ qrep st' q' bag' /\ bag' ≡ₚ bag.
Proof.
  intros (Hv & Hh & Hf). unfold pop. destruct (pop_heap_ret comp [] (m :: bag) []) as (t & m' & E & HP & Hm & Ht & _); [done..|].
  rewrite !app_nil_r in E. simpl app in E. simpl in Hm. injection Hm as <-.
  destruct (on_elements_ret st (c_ q) _ _ tt _ Hv Hf E) as (st1 & E1 & Hv1 & Hf1 & _); [by rewrite HP|].
  rewrite (proj1 Hv). mrun E1. destruct (vec_pop_back_ret st1 (c_ q) _ Hv1 Hf1) as (v & st2 & E2 & Hv2 & Hf2 & _).
  rewrite removelast_last in Hv2. mrun E2. eexists _, _, t. split; [done|]. split; [done|].
  apply (Permutation_cons_inv (a := m)). by rewrite <- HP, Permutation_app_comm.
Qed.

Lemma pop_empty_ret st q : qrep st q [] -> exists q' st', pop comp q st = Ret q' st' /\ qrep st' q' [].
Proof.
  intros (Hv & Hh & Hf). unfold pop.
  destruct (on_elements_ret st (c_ q) [] (pop_heap comp 0 (size_ (c_ q))) tt [] Hv Hf) as (st1 & E1 & Hv1 & Hf1 & _);
    [by rewrite (proj1 Hv)|done|]. mrun E1.
  destruct (vec_pop_back_ret st1 (c_ q) _ Hv1 Hf1) as (v & st2 & E2 & Hv2 & Hf2 & _). mrun E2.
  eexists _, _. split; [done|]. split_and!; [done|intros i; simpl; lia|done].
Qed.

Lemma top_ret st q m bag : qrep st q (m :: bag) -> top q st = Ret m st.
Proof.
  intros ([_ Hd] & _). unfold top, front. destruct (data_ (c_ q)) as [b|]; [|by destruct Hd].
  destruct Hd as (k & Hb & _). by apply (vec_elt_ret st b (block_of (m :: bag) k) 0).
Qed.

Lemma qexec_ret st q bag o os :
  qrep st q bag -> qpre (o :: os) (length bag) = true -> (forall n h, @room A _ n h = true) ->
  exists q' st' outs bag', qexec q o st = Ret (q', outs) st' /\ qrep st' q' bag' /\ qstep bag o outs bag' /\
    qpre os (length bag') = true.
Proof.
  intros Hq Hpre Hroom. destruct o as [x| |]; simpl in *.
  - apply andb_prop in Hpre as [H1 H2]. destruct (push_ret st q bag x Hq) as (q' & st' & bag' & E & Hq' & HP); [lia|done|].
    mrun E. eexists _, _, _, bag'. split; [done|]. split; [done|]. split; [|by rewrite (Permutation_length HP)].
    constructor; [done|]. apply heap_topped, Hq'.
  - destruct bag as [|m bag].
    + destruct (pop_empty_ret st q Hq) as (q' & st' & E & Hq'). mrun E. eexists _, _, _, []. split_and!; [done..|constructor|done].
    + destruct (pop_ret st q m bag Hq) as (q' & st' & bag' & E & Hq' & HP). mrun E.
      eexists _, _, _, bag'. split; [done|]. split; [done|]. split.
      * constructor; [done|]. apply heap_topped, Hq'.
      * rewrite (Permutation_length HP). simpl in Hpre. by rewrite Nat.sub_0_r in Hpre.
  - apply andb_prop in Hpre as [H1 H2]. destruct bag as [|m bag]; [done|].
    mrun (top_ret st q m bag Hq). eexists _, _, _, (m :: bag). split_and!; [done..|constructor|done].
Qed.

(** C32: [std::priority_queue] is a bag.  Every program of pushes, pops and tops
    runs to its end; [top] shows an element than which none is greater, and [pop]
    takes just that element. *)
Theorem priority_queue_correct st q bag os :
  qrep st q bag -> qpre os (length bag) = true -> (forall n h, @room A _ n h = true) ->
  exists q' st' outs bag', qrun q os st = Ret (q', outs) st' /\ qsteps bag os outs bag' /\ qrep st' q' bag'.
Proof.
  intros Hq Hpre Hroom. revert st q bag Hq Hpre. induction os as [|o os IH]; intros st q bag Hq Hpre.
  { eexists _, _, _, _. split_and!; [done|constructor|done]. }
  destruct (qexec_ret st q bag o os Hq Hpre Hroom) as (q1 & st1 & outs1 & bag1 & E & Hq1 & Hs & Hpre1).
  destruct (IH st1 q1 bag1 Hq1 Hpre1) as (q2 & st2 & outs2 & bag2 & E2 & Hs2 & Hq2).
  cbn [qrun]. mrun E. cbn [fst snd]. mrun E2. eexists _, _, _, bag2. split; [done|]. split; [by econstructor|done].
Qed.

(** The constructor from a container. *)
Lemma pq_new_ret st c l :
  vrep st c l -> fresh_store st -> sizeof_T A * (2 * Z.of_nat (length l)) < 2 ^ 64 -> (forall n h, @room A _ n h = true) ->
  exists q st' bag, pq_new comp c st = Ret q st' /\ qrep st' q bag /\ bag ≡ₚ l /\ vrep st' c l.
Proof.
  intros Hc Hf Hbig Hroom. unfold pq_new, vector_copy.
  destruct (copy_assign_ret st vector_new [] c l) as (v & st1 & E & (Hv1 & Hf1 & Hfr1) & Ho); [done..|]. mrun E. simpl in Hv1.
  destruct (make_heap_ret comp [] l []) as (h' & E2 & HP & Hh'). rewrite !app_nil_r in E2. simpl in E2.
  destruct (on_elements_ret st1 v l _ tt h' Hv1 Hf1 E2) as (st2 & E3 & Hv2 & Hf2 & Hfr2); [by rewrite HP|].
  rewrite (proj1 Hv1). mrun E3. eexists _, _, h'. split; [done|]. split; [done|]. split; [done|].
  apply (frame_vrep v st1); [done|done|by apply (frame_vrep vector_new st)|]. intros b Hb Hvb.
  destruct (Ho b Hvb) as [|Hge]; [done|]. destruct Hc as [_ Hd]. rewrite Hb in Hd. destruct Hd as (k & Hk & _).
  rewrite Hf in Hk by lia. done.
Qed.
End QueueCorrect.

(** ** Concrete runs *)

Lemma priority_queue_correct_witness :
  exists q' st' outs bag',
    qrun Z.ltb {| c_ := vector_new |} [QPush 3; QPush 9; QPush 5; QTop; QPop; QTop; QPop; QPop; QPop] empty_store = Ret (q', outs) st' /\
    qsteps Z.ltb [] [QPush 3; QPush 9; QPush 5; QTop; QPop; QTop; QPop; QPop; QPop] outs bag' /\ qrep Z.ltb st' q' bag'.
Proof.
  apply (priority_queue_correct Z.ltb empty_store {| c_ := vector_new |} []).
  - split; [done|]. split; [intros i; simpl; lia|by intros b].
  - reflexivity.
  - done.
Defined.

(** The elements come out in descending order. *)
Lemma queue_order :
  exists q' st', qrun Z.ltb {| c_ := vector_new |} [QPush 3; QPush 9; QPush 5; QTop; QPop; QTop; QPop; QTop; QPop; QPop] empty_store
    = Ret (q', [9; 5; 3]) st' /\ pq_empty q' = true.
Proof. eexists _, _. split; [vm_compute; reflexivity|done]. Qed.
