(* ===== verification/CxxString.v ===== *)
(** * [std::string] (cxx/string)

    A string object is a pointer to a shared, reference-counted buffer, or null.
    The state holds the buffers and the string variables of the program, which
    the operations name by their index: a destroyed string is a null variable.
    A buffer has [cap + 1] cells; a cell that was never written holds [None]. *)

From S2P Require Import Prelude CMem LString CxxBase CxxAlgo.

(** [struct data] *)
Record sdata := { refcnt : Z; len : Z; cap : Z; buf : list (option byte) }.

Record sstate := { heap : gmap Z sdata; snext : Z; vars : list (option Z) }.

(** Where a [const charT *] points: to characters that are not part of a string
    object, into a buffer, or nowhere. *)
Inductive cptr := Chars (s : list byte) | Buf (b off : Z) | Null.

Section String_.
(** Whether [malloc] finds room. *)
Context (room : Z -> gmap Z sdata -> bool).

Definition get_data (b : Z) : M sstate sdata := fun st =>
  match heap st !! b with Some d => Ret d st | None => Ub end.

Definition put_data (b : Z) (d : sdata) : M sstate unit := fun st =>
  Ret tt {| heap := <[b := d]> (heap st); snext := snext st; vars := vars st |}.

(** The field [data_] of a variable. *)
Definition get_var (i : nat) : M sstate (option Z) := fun st =>
  match vars st !! i with Some o => Ret o st | None => Ub end.

Definition set_var (i : nat) (o : option Z) : M sstate unit := fun st =>
  Ret tt {| heap := heap st; snext := snext st; vars := <[i := o]> (vars st) |}.

(** [n] cells at [p], and [memmove] of cells into a buffer *)
Definition load (p : cptr) (n : Z) : M sstate (list (option byte)) := fun st =>
  let cells l off := if (0 <=? off) && (off + n <=? Z.of_nat (length l)) then Ret (take (Z.to_nat n) (drop (Z.to_nat off) l)) st else Ub in
  if n <=? 0 then Ret [] st
  else match p with
    | Chars s => cells (fmap Some s) 0
    | Buf b off => match heap st !! b with Some d => cells (buf d) off | None => Ub end
    | Null => Ub
    end.

Definition blit (l : list (option byte)) (off : Z) (xs : list (option byte)) : list (option byte) :=
  take (Z.to_nat off) l ++ xs ++ drop (Z.to_nat off + length xs) l.

Definition store_at (b off : Z) (xs : list (option byte)) : M sstate unit :=
  d ← get_data b;
  if (0 <=? off) && (off + Z.of_nat (length xs) <=? Z.of_nat (length (buf d))) then
    put_data b {| refcnt := refcnt d; len := len d; cap := cap d; buf := blit (buf d) off xs |}
  else ub.

(** [new char[nbytes]] for a buffer of [ncells] cells *)
Definition new_data (nbytes : Z) (d : sdata) : M sstate Z := fun st =>
  if room nbytes (heap st) then
    Ret (snext st) {| heap := <[snext st := d]> (heap st); snext := snext st + 1; vars := vars st |}
  else throw st.

(** [sizeof(struct data)] *)
Definition sizeof_data : Z := 24.

(** [data::alloc] *)
Definition alloc (cur : option Z) (ncap : Z) : M sstate Z :=
  let nbytes := u64 (sizeof_data + u64 (ncap + 1)) in
  res ← new_data nbytes {| refcnt := 1; len := 0; cap := ncap; buf := replicate (Z.to_nat (nbytes - sizeof_data)) None |};
  match cur with
  | Some b =>
      d ← get_data b;
      r ← get_data res;
      _ ← put_data res {| refcnt := refcnt r; len := len d; cap := cap r; buf := buf r |};
      xs ← load (Buf b 0) (u64 (len d + 1));
      _ ← store_at res 0 xs;
      mret res
  | None =>
      _ ← store_at res 0 [Some x00];
      mret res
  end.

(** [data::set_len] *)
Definition set_len (b nlen : Z) : M sstate unit :=
  _ ← store_at b nlen [Some x00];
  d ← get_data b;
  put_data b {| refcnt := refcnt d; len := nlen; cap := cap d; buf := buf d |}.

Definition set_refcnt (b n : Z) : M sstate unit :=
  d ← get_data b;
  put_data b {| refcnt := n; len := len d; cap := cap d; buf := buf d |}.

Definition delete_data (b : Z) : M sstate unit := fun st =>
  Ret tt {| heap := delete b (heap st); snext := snext st; vars := vars st |}.

Definition release (i : nat) : M sstate unit :=
  o ← get_var i;
  _ ← match o with
      | Some b =>
          d ← get_data b;
          _ ← set_refcnt b (u32 (refcnt d - 1));
          if u32 (refcnt d - 1) =? 0 then delete_data b else mret tt
      | None => mret tt
      end;
  set_var i None.

Definition may_write (i : nat) : M sstate unit :=
  o ← get_var i;
  match o with
  | Some b =>
      d ← get_data b;
      if 1 <? refcnt d then
        ndata ← alloc (Some b) (cap d);
        _ ← release i;
        set_var i (Some ndata)
      else mret tt
  | None => mret tt
  end.

(** [++data_->refcnt] *)
Definition share (o : option Z) : M sstate unit :=
  match o with
  | Some b => d ← get_data b; set_refcnt b (u32 (refcnt d + 1))
  | None => mret tt
  end.

(** The constructors set up a variable that is null. *)
Definition copy_ctor (i j : nat) : M sstate unit :=
  o ← get_var j;
  _ ← set_var i o;
  share o.

Definition move_ctor (i j : nat) : M sstate unit :=
  o ← get_var j;
  _ ← set_var i o;
  set_var j None.

(** [operator=(const basic_string&)] and [operator=(basic_string&&)] *)
Definition assign (i j : nat) : M sstate unit :=
  if decide (i = j) then mret tt
  else
    _ ← release i;
    o ← get_var j;
    _ ← set_var i o;
    share o.

Definition move_assign (i j : nat) : M sstate unit :=
  _ ← release i;
  o ← get_var j;
  _ ← set_var i o;
  set_var j None.

Definition size (i : nat) : M sstate Z :=
  o ← get_var i; match o with Some b => d ← get_data b; mret (len d) | None => mret 0 end.

Definition capacity (i : nat) : M sstate Z :=
  o ← get_var i; match o with Some b => d ← get_data b; mret (cap d) | None => mret 0 end.

Definition PADDING : Z := 2 * 8 + 24 + 1.

Definition reserve (i : nat) (n : Z) : M sstate unit :=
  sz ← size i;
  let n := u64 ((if n <? sz then sz else n) + PADDING) in
  goal ← grow 66 16 n;
  let ncap := u64 (goal - PADDING) in
  o ← get_var i;
  same ← match o with Some b => d ← get_data b; mret (ncap =? cap d) | None => mret false end;
  if same : bool then mret tt
  else
    ndata ← alloc o ncap;
    _ ← release i;
    set_var i (Some ndata).

Definition shrink_to_fit (i : nat) : M sstate unit :=
  sz ← size i;
  c ← capacity i;
  if sz =? c then mret tt
  else
    o ← get_var i;
    ndata ← alloc o c;
    _ ← release i;
    set_var i (Some ndata).

Definition clear (i : nat) : M sstate unit :=
  o ← get_var i;
  match o with
  | None => mret tt
  | Some b => d ← get_data b; if 1 <? refcnt d then release i else set_len b 0
  end.

Definition empty (i : nat) : M sstate bool :=
  o ← get_var i; match o with None => mret true | Some b => d ← get_data b; mret (len d =? 0) end.

(** [cbegin()], which is [data()] and [c_str()] *)
Definition cbegin (i : nat) : M sstate cptr :=
  o ← get_var i; mret (match o with Some b => Buf b 0 | None => Null end).

(** [begin()] of a string that is not const *)
Definition begin (i : nat) : M sstate cptr := _ ← may_write i; cbegin i.

(** The character at [p + pos], read and written. *)
Definition advance (p : cptr) (k : Z) : cptr :=
  match p with Chars s => Chars (drop (Z.to_nat k) s) | Buf b off => Buf b (off + k) | Null => Null end.

Definition char_at (p : cptr) : M sstate byte :=
  xs ← load p 1; match xs with [Some c] => mret c | _ => ub end.

Definition set_char (p : cptr) (c : byte) : M sstate unit :=
  match p with Buf b off => store_at b off [Some c] | _ => ub end.

(** [s[pos]] and [s[pos] = c] *)
Definition index (i : nat) (pos : Z) : M sstate byte := p ← cbegin i; char_at (advance p pos).
Definition set_index (i : nat) (pos : Z) (c : byte) : M sstate unit := p ← begin i; set_char (advance p pos) c.

Definition at_ (i : nat) (pos : Z) : M sstate byte :=
  sz ← size i; if sz <=? pos then throw else p ← cbegin i; char_at (advance p pos).

Definition front (i : nat) : M sstate byte := p ← cbegin i; char_at p.
Definition back (i : nat) : M sstate byte := p ← cbegin i; sz ← size i; char_at (advance p (sz - 1)).

(** The buffer of a variable that is not null. *)
Definition data_of (i : nat) : M sstate Z := o ← get_var i; match o with Some b => mret b | None => ub end.

(** [append(const charT* s, size_type n)] *)
Definition append (i : nat) (s : cptr) (n : Z) : M sstate unit :=
  sz ← size i;
  _ ← reserve i (u64 (sz + n));
  _ ← may_write i;
  b ← data_of i;
  d ← get_data b;
  xs ← load s n;
  _ ← store_at b (len d) xs;
  set_len b (u64 (len d + n)).

Definition append_str (i j : nat) : M sstate unit :=
  p ← cbegin j; n ← size j; append i p n.

Definition append_sub (i j : nat) (pos n : Z) : M sstate unit :=
  sz ← size j;
  if sz <? pos then throw
  else
    let n := if sz - pos <? n then sz - pos else n in
    p ← cbegin j;
    append i (advance p pos) n.

(** [append(const charT* s)]: the characters [s], before a NUL *)
Definition append_cstr (i : nat) (s : list byte) : M sstate unit := append i (Chars s) (Z.of_nat (length s)).

(** [fill] of the cells of a buffer *)
Definition fill_at (b first last : Z) (c : byte) : M sstate unit := fun st =>
  match heap st !! b with
  | Some d =>
      match fill first last (Some c) (buf d) with
      | Ret _ l => put_data b {| refcnt := refcnt d; len := len d; cap := cap d; buf := l |} st
      | Halt k _ => Halt k st
      | Ub => Ub
      | Spin => Spin
      end
  | None => Ub
  end.

(** [append(size_type n, charT c)] *)
Definition append_fill (i : nat) (n : Z) (c : byte) : M sstate unit :=
  sz ← size i;
  _ ← reserve i (u64 (sz + n));
  _ ← may_write i;
  b ← data_of i;
  d ← get_data b;
  _ ← fill_at b (len d) (len d + n) c;
  set_len b (u64 (len d + n)).

Definition push_back (i : nat) (c : byte) : M sstate unit :=
  sz ← size i;
  _ ← reserve i (u64 (sz + 1));
  _ ← may_write i;
  b ← data_of i;
  d ← get_data b;
  _ ← store_at b (len d) [Some c];
  set_len b (u64 (len d + 1)).

(** [append(InputIterator first, InputIterator last)] *)
Fixpoint append_range (i : nat) (s : list byte) : M sstate unit :=
  match s with
  | [] => mret tt
  | c :: s => _ ← push_back i c; append_range i s
  end.

Definition pop_back (i : nat) : M sstate unit :=
  e ← empty i;
  if negb e then
    _ ← may_write i;
    b ← data_of i;
    d ← get_data b;
    set_len b (u64 (len d - 1))
  else mret tt.

(** [operator=] from a C string *)
Definition assign_cstr (i : nat) (s : list byte) : M sstate unit := _ ← clear i; append_cstr i s.

Definition assign_char (i : nat) (c : byte) : M sstate unit := _ ← clear i; append_fill i 1 c.

(** [compare(pos1, n1, s, n2)]; [memcmp] is that of the C library. *)
Definition compare (i : nat) (pos1 n1 : Z) (s : cptr) (n2 : Z) : M sstate Z :=
  sz ← size i;
  if sz <? pos1 then throw
  else
    let n1 := if sz - pos1 <? n1 then sz - pos1 else n1 in
    let rlen := if n1 <? n2 then n1 else n2 in
    p ← cbegin i;
    xs ← load p rlen;
    ys ← load s rlen;
    xs ← defined (mapM id xs);
    ys ← defined (mapM id ys);
    let res := bcmp schar xs ys in
    mret (if res =? 0 then if n1 <? n2 then -1 else if n2 <? n1 then 1 else res else res).

Definition compare_str (i j : nat) : M sstate Z :=
  sz ← size i; p ← cbegin j; n ← size j; compare i 0 sz p n.

Definition compare_cstr (i : nat) (s : list byte) : M sstate Z :=
  sz ← size i; compare i 0 sz (Chars s) (Z.of_nat (length s)).

(** [a == b], [a < b] and the others *)
Definition eq_str (i j : nat) : M sstate bool := r ← compare_str i j; mret (r =? 0).
Definition lt_str (i j : nat) : M sstate bool := r ← compare_str i j; mret (r <? 0).

(** [a + b]: the result is constructed in the variable [k]. *)
Definition plus_str (k i j : nat) : M sstate unit := _ ← copy_ctor k i; append_str k j.
Definition plus_cstr (k i : nat) (s : list byte) : M sstate unit := _ ← copy_ctor k i; append_cstr k s.
End String_.

(** ** The strings that the variables stand for *)

Section StringCorrect.
Context (room : Z -> gmap Z sdata -> bool).
Implicit Types (st : sstate) (v s : list byte) (vals : list (list byte)) (d : sdata) (o : option Z) (ext : list (option Z)).

(** A buffer with the string [v], a NUL behind it. *)
Definition holds d v : Prop :=
  len d = Z.of_nat (length v) /\ cap d < 2 ^ 63 /\
  exists rest, buf d = fmap Some v ++ Some x00 :: rest /\ cap d = Z.of_nat (length v + length rest).

Definition var_holds (h : gmap Z sdata) o v : Prop :=
  match o with None => v = [] | Some b => exists d, h !! b = Some d /\ holds d v end.

(** The number of the variables that share a buffer. *)
Definition owners (b : Z) (l : list (option Z)) : Z := count (fun o => bool_decide (o = Some b)) l.

(** The state of a program whose variables have the values [vals]: every buffer
    counts its owners, of which there is one at least.  The owners in [ext] are
    pointers in local variables. *)
Record srep st ext vals : Prop := {
  srep_vals : Forall2 (var_holds (heap st)) (vars st) vals;
  srep_heap b d : heap st !! b = Some d -> refcnt d = owners b (vars st ++ ext) /\ 0 < refcnt d /\ exists v, holds d v;
  srep_ext b : Some b ∈ ext -> is_Some (heap st !! b);
  srep_fresh b : snext st <= b -> heap st !! b = None;
  srep_few : Z.of_nat (length (vars st ++ ext)) < 2 ^ 32
}.

Lemma owners_app b l l' : owners b (l ++ l') = owners b l + owners b l'.
Proof. unfold owners, count. rewrite List.filter_app, length_app. lia. Qed.

Lemma owners_cons b o l : owners b (o :: l) = Z.b2z (bool_decide (o = Some b)) + owners b l.
Proof. unfold owners, count. simpl. destruct (bool_decide (o = Some b)); simpl; lia. Qed.

Lemma owners_insert b l i o o' :
  l !! i = Some o -> owners b (<[i := o']> l) = owners b l - Z.b2z (bool_decide (o = Some b)) + Z.b2z (bool_decide (o' = Some b)).
Proof. intros Hi. unfold owners. by rewrite (count_insert _ l i o o' Hi). Qed.

Lemma owners_le b l : 0 <= owners b l <= Z.of_nat (length l).
Proof.
  unfold owners, count. pose proof (List.filter_length_le (fun o => bool_decide (o = Some b)) l). lia.
Qed.

Lemma owners_pos b l i : l !! i = Some (Some b) -> 0 < owners b l.
Proof.
  intros Hi. unfold owners.
  pose proof (count_pos (fun o => bool_decide (o = Some b)) l i (Some b) Hi (bool_decide_eq_true_2 _ eq_refl)). lia.
Qed.

Lemma var_holds_frame h h' o v : (forall b, o = Some b -> h' !! b = h !! b) -> var_holds h o v -> var_holds h' o v.
Proof. destruct o as [b|]; [|done]. intros Hb (d & Hd & Hv). exists d. by rewrite Hb. Qed.

(** Only the buffer's own fields matter. *)
Lemma holds_refcnt d v n : holds d v -> holds {| refcnt := n; len := len d; cap := cap d; buf := buf d |} v.
Proof. done. Qed.

Lemma srep_lookup st ext vals i o :
  srep st ext vals -> vars st !! i = Some o -> exists v, vals !! i = Some v /\ var_holds (heap st) o v.
Proof. intros Hs Hi. destruct (Forall2_lookup_l _ _ _ _ _ (srep_vals _ _ _ Hs) Hi) as (v & Hv & Ho). eauto. Qed.

Lemma srep_var st ext vals i v :
  srep st ext vals -> vals !! i = Some v -> exists o, vars st !! i = Some o /\ var_holds (heap st) o v.
Proof. intros Hs Hi. destruct (Forall2_lookup_r _ _ _ _ _ (srep_vals _ _ _ Hs) Hi) as (o & Ho & Hv). eauto. Qed.

(** ** Buffers *)

Lemma blit_app l1 l2 xs k :
  k = length l1 -> blit (l1 ++ l2) (Z.of_nat k) xs = l1 ++ xs ++ drop (length xs) l2.
Proof.
  intros ->. unfold blit. rewrite Nat2Z.id, take_app_length. f_equal. f_equal. rewrite drop_app_ge by lia. f_equal. lia.
Qed.

Lemma get_data_ret st b d : heap st !! b = Some d -> get_data b st = Ret d st.
Proof. intros E. unfold get_data. by rewrite E. Qed.

Lemma get_var_ret st i o : vars st !! i = Some o -> get_var i st = Ret o st.
Proof. intros E. unfold get_var. by rewrite E. Qed.

Definition with_data st b d : sstate := {| heap := <[b := d]> (heap st); snext := snext st; vars := vars st |}.

Lemma with_data_twice st b d d' : with_data (with_data st b d) b d' = with_data st b d'.
Proof. unfold with_data. simpl. by rewrite insert_insert_eq. Qed.

Lemma store_at_ret st b d l1 l2 xs :
  heap st !! b = Some d -> buf d = l1 ++ l2 -> (length xs <= length l2)%nat ->
  store_at b (Z.of_nat (length l1)) xs st =
    Ret tt (with_data st b {| refcnt := refcnt d; len := len d; cap := cap d; buf := l1 ++ xs ++ drop (length xs) l2 |}).
Proof.
  intros Hb Hd Hl. unfold store_at. mrun (get_data_ret st b d Hb). rewrite Hd, length_app.
  rewrite (proj2 (Z.leb_le _ _)), (proj2 (Z.leb_le _ _)) by lia. simpl. by rewrite blit_app.
Qed.

Lemma load_buf_ret st b d l1 l2 l3 :
  heap st !! b = Some d -> buf d = l1 ++ l2 ++ l3 -> load (Buf b (Z.of_nat (length l1))) (Z.of_nat (length l2)) st = Ret l2 st.
Proof.
  intros Hb Hd. unfold load. destruct (Z.leb_spec (Z.of_nat (length l2)) 0) as [H0|H0]; [destruct l2; [done|simpl in H0; lia]|].
  rewrite Hb, Hd, !length_app, (proj2 (Z.leb_le _ _)), (proj2 (Z.leb_le _ _)) by lia. simpl.
  rewrite !Nat2Z.id, drop_app_length, take_app_length. done.
Qed.

Lemma load_chars_ret st s : load (Chars s) (Z.of_nat (length s)) st = Ret (fmap Some s) st.
Proof.
  unfold load. destruct (Z.leb_spec (Z.of_nat (length s)) 0) as [H0|H0]; [destruct s; [done|simpl in H0; lia]|].
  rewrite length_fmap, (proj2 (Z.leb_le _ _)), (proj2 (Z.leb_le _ _)) by lia. simpl. rewrite Nat2Z.id, drop_0, take_ge by (rewrite length_fmap; lia). done.
Qed.
(** ** Allocation and release *)

Definition add_data st d : sstate := {| heap := <[snext st := d]> (heap st); snext := snext st + 1; vars := vars st |}.

Lemma with_add_data st d d' : with_data (add_data st d) (snext st) d' = add_data st d'.
Proof. unfold with_data, add_data. simpl. by rewrite insert_insert_eq. Qed.

Lemma alloc_ret st ext vals o v ncap :
  srep st ext vals -> var_holds (heap st) o v -> Z.of_nat (length v) <= ncap < 2 ^ 63 -> (forall n h, room n h = true) ->
  exists d, alloc room o ncap st = Ret (snext st) (add_data st d) /\ holds d v /\ refcnt d = 1 /\ cap d = ncap.
Proof.
  intros Hs Ho Hn Hroom. unfold alloc, sizeof_data. rewrite (uwrap_id 64 (ncap + 1)) by (unfold_int; lia).
  rewrite uwrap_id by (unfold_int; lia). replace (Z.to_nat (24 + (ncap + 1) - 24)) with (Z.to_nat (ncap + 1)) by lia.
  set (d0 := {| refcnt := 1; len := 0; cap := ncap; buf := _ |}).
  assert (new_data room (24 + (ncap + 1)) d0 st = Ret (snext st) (add_data st d0)) as E by (unfold new_data; by rewrite Hroom).
  mrun E. clear E. assert (heap (add_data st d0) !! snext st = Some d0) as Hd0 by apply lookup_insert_eq.
  destruct o as [b|]; simpl in Ho.
  - destruct Ho as (d & Hb & Hlen & Hc & rest & Hbuf & Hcap).
    assert (b <> snext st) as Hne by (intros ->; rewrite (srep_fresh _ _ _ Hs) in Hb; done).
    mrun (get_data_ret (add_data st d0) b d ltac:(simpl; by rewrite lookup_insert_ne)). mrun (get_data_ret _ _ _ Hd0).
    set (d1 := {| refcnt := refcnt d0; len := len d; cap := cap d0; buf := buf d0 |}).
    mrun (eq_refl : put_data (snext st) d1 (add_data st d0) = Ret tt (with_data (add_data st d0) (snext st) d1)).
    rewrite with_add_data, Hlen, uwrap_id by (unfold_int; lia).
    assert (load (Buf b 0) (Z.of_nat (length v) + 1) (add_data st d1) = Ret (fmap Some v ++ [Some x00]) (add_data st d1)) as El.
    { replace (Z.of_nat (length v) + 1) with (Z.of_nat (length (fmap Some v ++ [Some x00]))) by (rewrite length_app, length_fmap; simpl; lia).
      apply (load_buf_ret _ b d [] _ rest); [simpl; by rewrite lookup_insert_ne|]. by rewrite Hbuf, <- app_assoc. }
    mrun El. rewrite <- with_add_data with (d := d0).
    assert (store_at (snext st) 0 (fmap Some v ++ [Some x00]) (add_data st d1) = Ret tt (with_data (add_data st d1) (snext st)
      {| refcnt := 1; len := len d; cap := ncap; buf := (fmap Some v ++ [Some x00]) ++ drop (length (fmap Some v ++ [Some x00])) (replicate (Z.to_nat (ncap + 1)) None) |})) as Est.
    { apply (store_at_ret _ _ d1 []); [apply lookup_insert_eq|done|]. rewrite length_app, length_fmap, length_replicate. simpl. lia. }
    rewrite with_add_data. mrun Est. rewrite with_add_data. eexists. split; [done|]. split; [|done].
    split; [done|]. split; [simpl; lia|]. eexists. split; [simpl; by rewrite <- app_assoc|].
    simpl. rewrite length_drop, length_replicate, length_app, length_fmap. simpl. lia.
  - subst v. assert (store_at (snext st) 0 [Some x00] (add_data st d0) = Ret tt (with_data (add_data st d0) (snext st)
      {| refcnt := 1; len := 0; cap := ncap; buf := [Some x00] ++ drop 1 (replicate (Z.to_nat (ncap + 1)) None) |})) as Est.
    { apply (store_at_ret _ _ d0 [] (replicate (Z.to_nat (ncap + 1)) None) [Some x00]); [done|done|]. rewrite length_replicate. simpl in *. lia. }
    mrun Est. rewrite with_add_data. eexists. split; [done|]. split; [|done].
    split; [done|]. split; [simpl; lia|]. eexists. split; [done|]. simpl. rewrite length_drop, length_replicate. simpl in *. lia.
Qed.

(** The new buffer belongs to a local variable. *)
Lemma srep_alloc st ext vals d v :
  srep st ext vals -> holds d v -> refcnt d = 1 -> Z.of_nat (S (length (vars st ++ ext))) < 2 ^ 32 ->
  srep (add_data st d) (Some (snext st) :: ext) vals.
Proof.
  intros Hs Hd Hr Hfew.
  assert (forall b, is_Some (heap st !! b) -> b <> snext st) as Hne.
  { intros b [d' Hb] ->. rewrite (srep_fresh _ _ _ Hs) in Hb; done. }
  assert (owners (snext st) (vars st ++ ext) = 0) as H0.
  { destruct (decide (owners (snext st) (vars st ++ ext) = 0)) as [|Hn]; [done|]. exfalso.
    pose proof (owners_le (snext st) (vars st ++ ext)).
    destruct (count_exists (fun o => bool_decide (o = Some (snext st))) (vars st ++ ext)) as (i & o & Hi & Ho); [unfold owners in *; lia|].
    apply bool_decide_eq_true_1 in Ho as ->. apply lookup_app_Some in Hi as [Hi|[_ Hi]].
    - destruct (srep_lookup _ _ _ _ _ Hs Hi) as (v' & _ & d' & Hd' & _). by apply (Hne (snext st)).
    - apply list_elem_of_lookup_2, (srep_ext _ _ _ Hs) in Hi. by apply (Hne (snext st)). }
  split; simpl.
  - eapply Forall2_impl; [|apply (srep_vals _ _ _ Hs)]. intros [b|] v'; [|done]. intros (d' & Hb & Hv').
    exists d'. rewrite lookup_insert_ne; [done|]. symmetry. apply Hne. eauto.
  - intros b d'. rewrite lookup_insert_Some, owners_app, owners_cons, Z.add_assoc, (Z.add_comm (owners b _)), <- Z.add_assoc, <- owners_app.
    intros [[<- <-]|[Hb Hd']].
    + rewrite bool_decide_eq_true_2 by done. rewrite H0. split_and!; [done|lia|by exists v].
    + rewrite bool_decide_eq_false_2 by congruence. apply (srep_heap _ _ _ Hs) in Hd'. done.
  - intros b [Hb|Hb]%elem_of_cons; [injection Hb as ->; rewrite lookup_insert_eq; eauto|].
    apply lookup_insert_is_Some'. right. by apply (srep_ext _ _ _ Hs).
  - intros b Hb. rewrite lookup_insert_ne by lia. apply (srep_fresh _ _ _ Hs). lia.
  - rewrite length_app in *. simpl. lia.
Qed.

(** The reference counts and the owners change, not the contents. *)
Definition same_body d d' : Prop := len d' = len d /\ cap d' = cap d /\ buf d' = buf d.

Lemma same_body_holds d d' v : same_body d d' -> holds d v -> holds d' v.
Proof. intros (E1 & E2 & E3) (H1 & H2 & rest & H3 & H4). unfold holds. rewrite E1, E2, E3. eauto. Qed.

Lemma srep_rebalance st ext vals h vars' ext' vals' :
  srep st ext vals ->
  (forall b d', h !! b = Some d' -> refcnt d' = owners b (vars' ++ ext') /\ 0 < refcnt d' /\
     exists d, heap st !! b = Some d /\ same_body d d') ->
  (forall b, 0 < owners b (vars' ++ ext') -> is_Some (h !! b)) ->
  Forall2 (var_holds (heap st)) vars' vals' -> (length (vars' ++ ext') <= length (vars st ++ ext))%nat ->
  srep {| heap := h; snext := snext st; vars := vars' |} ext' vals'.
Proof.
  intros Hs Hh Ho Hv Hl. split; simpl.
  - apply Forall2_same_length_lookup. split; [by eapply Forall2_length|]. intros i o v Hi Hvi.
    pose proof (proj2 (proj1 (Forall2_same_length_lookup _ _ _) Hv) i o v Hi Hvi) as Hov. destruct o as [b|]; [|done].
    destruct Hov as (d & Hb & Hd). destruct (Ho b) as [d' Hd'].
    { apply (owners_pos b _ i). by apply lookup_app_l_Some. }
    exists d'. split; [done|]. destruct (Hh b d' Hd') as (_ & _ & d2 & Hd2 & Hsame). simplify_eq. by eapply same_body_holds.
  - intros b d' Hd'. destruct (Hh b d' Hd') as (Hr & Hp & d & Hd & Hsame). split; [done|]. split; [done|].
    destruct (srep_heap _ _ _ Hs b d Hd) as (_ & _ & v & Hv'). exists v. by eapply same_body_holds.
  - intros b Hb. apply Ho. apply list_elem_of_lookup_1 in Hb as [i Hi]. apply (owners_pos b _ (length vars' + i)).
    rewrite lookup_app_r by lia. by rewrite Nat.add_comm, Nat.add_sub.
  - intros b Hb. destruct (h !! b) as [d'|] eqn:E; [|done]. destruct (Hh b d' E) as (_ & _ & d & Hd & _).
    by rewrite (srep_fresh _ _ _ Hs) in Hd.
  - pose proof (srep_few _ _ _ Hs). lia.
Qed.

Lemma srep_owned st ext vals b : srep st ext vals -> 0 < owners b (vars st ++ ext) -> is_Some (heap st !! b).
Proof.
  intros Hs Hb. destruct (count_exists _ _ Hb) as (i & o & Hi & Ho). apply bool_decide_eq_true_1 in Ho as ->.
  apply lookup_app_Some in Hi as [Hi|[_ Hi]].
  - destruct (srep_lookup _ _ _ _ _ Hs Hi) as (v & _ & d & Hd & _). eauto.
  - by apply list_elem_of_lookup_2, (srep_ext _ _ _ Hs) in Hi.
Qed.

(** Moves a pointer between variables: the counts are the same. *)
Lemma srep_permute st ext vals vars' ext' vals' :
  srep st ext vals -> (forall b, owners b (vars' ++ ext') = owners b (vars st ++ ext)) ->
  Forall2 (var_holds (heap st)) vars' vals' -> (length (vars' ++ ext') <= length (vars st ++ ext))%nat ->
  srep {| heap := heap st; snext := snext st; vars := vars' |} ext' vals'.
Proof.
  intros Hs Ho Hv Hl. apply (srep_rebalance st ext vals); [done|..|done|done].
  - intros b d Hd. destruct (srep_heap _ _ _ Hs b d Hd) as (Hr & Hp & _). rewrite Ho. split; [done|]. split; [done|]. by exists d.
  - intros b. rewrite Ho. by apply (srep_owned st ext vals).
Qed.

(** A variable lets go of its buffer. *)
Lemma release_ret st ext vals i o :
  srep st ext vals -> vars st !! i = Some o ->
  exists h, let st' := {| heap := h; snext := snext st; vars := <[i := None]> (vars st) |} in
    release i st = Ret tt st' /\ srep st' ext (<[i := []]> vals) /\ forall b, o <> Some b -> h !! b = heap st !! b.
Proof.
  intros Hs Hi. unfold release. mrun (get_var_ret st i o Hi).
  assert (Forall2 (var_holds (heap st)) (<[i := None]> (vars st)) (<[i := []]> vals)) as Hvals
    by (apply Forall2_insert; [apply Hs|done]).
  assert (length (<[i := None]> (vars st) ++ ext) <= length (vars st ++ ext))%nat as Hlen by by rewrite !length_app, length_insert.
  assert (forall b, owners b (<[i := None]> (vars st) ++ ext) = owners b (vars st ++ ext) - Z.b2z (bool_decide (o = Some b))) as Hown.
  { intros b. rewrite !owners_app, (owners_insert b _ i o None Hi). rewrite (bool_decide_eq_false_2 (None = Some b)) by done. simpl. lia. }
  destruct o as [b|].
  2:{ exists (heap st). split; [done|]. split; [|done]. apply (srep_permute st ext vals); [done| |done|done].
      intros b. rewrite Hown, bool_decide_eq_false_2 by done. simpl. lia. }
  destruct (srep_lookup _ _ _ _ _ Hs Hi) as (v & Hv & d & Hb & Hd).
  destruct (srep_heap _ _ _ Hs b d Hb) as (Hr & Hpos & _).
  pose proof (owners_le b (vars st ++ ext)) as Hle. pose proof (srep_few _ _ _ Hs) as Hfew.
  set (d1 := {| refcnt := refcnt d - 1; len := len d; cap := cap d; buf := buf d |}).
  set (h := if refcnt d - 1 =? 0 then delete b (heap st) else <[b := d1]> (heap st)).
  assert ((d ← get_data b; _ ← set_refcnt b (u32 (refcnt d - 1)); if u32 (refcnt d - 1) =? 0 then delete_data b else mret tt) st
    = Ret tt {| heap := h; snext := snext st; vars := vars st |}) as E.
  { mrun (get_data_ret st b d Hb). rewrite uwrap_id by (unfold_int; lia).
    assert (set_refcnt b (refcnt d - 1) st = Ret tt (with_data st b d1)) as E1 by (unfold set_refcnt; by mrun (get_data_ret st b d Hb)).
    mrun E1. unfold h. destruct (refcnt d - 1 =? 0); [|done]. unfold delete_data. simpl. by rewrite delete_insert_eq. }
  mrun E. exists h. split; [done|]. assert (forall b', Some b <> Some b' -> h !! b' = heap st !! b') as Hoth.
  { intros b' Hne. unfold h. destruct (_ =? 0); [apply lookup_delete_ne|apply lookup_insert_ne]; congruence. }
  split; [|done]. apply (srep_rebalance st ext vals); [done|..|done|done].
  - intros b' d' Hd'. destruct (decide (b = b')) as [<-|Hne].
    + unfold h in Hd'. destruct (Z.eqb_spec (refcnt d - 1) 0); [by rewrite lookup_delete_eq in Hd'|].
      rewrite lookup_insert_eq in Hd'. injection Hd' as <-. rewrite Hown, bool_decide_eq_true_2 by done. simpl.
      split_and!; [lia|lia|]. by exists d.
    + rewrite Hoth in Hd' by congruence. destruct (srep_heap _ _ _ Hs b' d' Hd') as (Hr' & Hp' & _).
      rewrite Hown, bool_decide_eq_false_2 by congruence. simpl. rewrite Z.sub_0_r. split_and!; [done|done|]. by exists d'.
  - intros b'. rewrite Hown. destruct (decide (b = b')) as [<-|Hne].
    + rewrite bool_decide_eq_true_2 by done. simpl. intros Ho. unfold h. destruct (Z.eqb_spec (refcnt d - 1) 0); [lia|].
      rewrite lookup_insert_eq. eauto.
    + rewrite bool_decide_eq_false_2 by congruence. simpl. intros Ho. rewrite Hoth by congruence.
      apply (srep_owned st ext vals); [done|lia].
Qed.

(** [ndata = alloc(data_, ncap); release(); data_ = ndata;] *)
Lemma replace_ret st vals i o v ncap :
  srep st [] vals -> vars st !! i = Some o -> vals !! i = Some v -> Z.of_nat (length v) <= ncap < 2 ^ 63 ->
  Z.of_nat (S (length (vars st))) < 2 ^ 32 -> (forall n h, room n h = true) ->
  exists st' d, (ndata ← alloc room o ncap; _ ← release i; set_var i (Some ndata)) st = Ret tt st' /\ srep st' [] vals /\
    vars st' = <[i := Some (snext st)]> (vars st) /\ heap st' !! snext st = Some d /\ refcnt d = 1 /\ cap d = ncap /\ holds d v.
Proof.
  intros Hs Hi Hv Hn Hfew Hroom. destruct (srep_lookup _ _ _ _ _ Hs Hi) as (v' & Hv' & Hov). simplify_eq.
  destruct (alloc_ret st [] vals o v ncap Hs Hov Hn Hroom) as (d & E & Hd & Hr & Hc). mrun E.
  pose proof (srep_alloc st [] vals d v Hs Hd Hr) as Hs1. rewrite app_nil_r in Hs1. specialize (Hs1 Hfew).
  destruct (release_ret (add_data st d) _ vals i o Hs1 Hi) as (h & E2 & Hs2 & Hh). mrun E2.
  assert (h !! snext st = Some d) as Hnew.
  { rewrite Hh; [apply lookup_insert_eq|]. intros ->. destruct Hov as (d' & Hb & _). by rewrite (srep_fresh _ _ _ Hs) in Hb. }
  eexists _, d. split; [done|]. simpl. rewrite list_insert_insert_eq. split_and!; try done.
  assert (i < length (vars st))%nat by by eapply lookup_lt_Some.
  apply (srep_permute _ _ _ (<[i := Some (snext st)]> (vars st)) [] vals Hs2).
  - intros b. simpl. rewrite !owners_app, owners_cons. rewrite (owners_insert b _ i o (Some (snext st)) Hi).
    rewrite (owners_insert b _ i o None Hi). rewrite (bool_decide_eq_false_2 (None = Some b)) by done. simpl. lia.
  - simpl. rewrite <- (list_insert_insert_eq (vars st) i (Some (snext st)) None).
    rewrite <- (list_insert_id vals i v Hv), <- (list_insert_insert_eq vals i v []).
    apply Forall2_insert; [apply (srep_vals _ _ _ Hs2)|]. simpl. eauto.
  - simpl. rewrite !length_app, !length_insert. simpl. lia.
Qed.

(** ** Unsharing and growth *)

Lemma may_write_ret st vals i b d v :
  srep st [] vals -> vars st !! i = Some (Some b) -> heap st !! b = Some d -> vals !! i = Some v ->
  Z.of_nat (S (length (vars st))) < 2 ^ 32 -> (forall n h, room n h = true) ->
  exists st' b' d', may_write room i st = Ret tt st' /\ srep st' [] vals /\ vars st' = <[i := Some b']> (vars st) /\
    heap st' !! b' = Some d' /\ refcnt d' = 1 /\ cap d' = cap d /\ holds d' v.
Proof.
  intros Hs Hi Hb Hv Hfew Hroom. unfold may_write. mrun (get_var_ret st i _ Hi). mrun (get_data_ret st b d Hb).
  destruct (srep_lookup _ _ _ _ _ Hs Hi) as (v' & Hv' & d' & Hb' & Hd). simplify_eq.
  destruct (Z.ltb_spec 1 (refcnt d)) as [Hlt|Hge].
  - destruct Hd as (Hl & Hc & rest & Hbuf & Hcap).
    destruct (replace_ret st vals i (Some b) v (cap d) Hs Hi Hv) as (st' & d' & E & H'); [lia|done|done|].
    exists st', (snext st), d'. by split.
  - exists st, b, d. destruct (srep_heap _ _ _ Hs b d Hb) as (_ & Hp & _).
    rewrite list_insert_id by done. split_and!; [done..|lia|done|done].
Qed.

Lemma size_ret st ext vals i v : srep st ext vals -> vals !! i = Some v -> size i st = Ret (Z.of_nat (length v)) st.
Proof.
  intros Hs Hv. destruct (srep_var _ _ _ _ _ Hs Hv) as (o & Hi & Ho). unfold size. mrun (get_var_ret st i o Hi).
  destruct o as [b|]; [|by rewrite Ho]. destruct Ho as (d & Hb & Hl & _). mrun (get_data_ret st b d Hb). by rewrite Hl.
Qed.

Lemma str_reserve_ret st vals i v n :
  srep st [] vals -> vals !! i = Some v -> Z.of_nat (length v) < 2 ^ 61 -> n < 2 ^ 61 ->
  Z.of_nat (S (length (vars st))) < 2 ^ 32 -> (forall m h, room m h = true) ->
  exists st' b d, reserve room i n st = Ret tt st' /\ srep st' [] vals /\ vars st' = <[i := Some b]> (vars st) /\
    heap st' !! b = Some d /\ n <= cap d /\ holds d v.
Proof.
  intros Hs Hv Hlen Hn Hfew Hroom. destruct (srep_var _ _ _ _ _ Hs Hv) as (o & Hi & Ho). unfold reserve.
  mrun (size_ret st [] vals i v Hs Hv). set (m := if n <? Z.of_nat (length v) then Z.of_nat (length v) else n).
  assert (Z.of_nat (length v) <= m < 2 ^ 61 /\ n <= m) as [Hm Hnm] by (unfold m; destruct (Z.ltb_spec n (Z.of_nat (length v))); lia).
  unfold PADDING. change (2 * 8 + 24 + 1) with 41. rewrite (uwrap_id 64 (m + 41)) by (unfold_int; lia).
  destruct (grow_ret st 16 (m + 41)) as (k & E & Hk & Hge & Hor); [lia|unfold_int; lia|]. mrun E.
  rewrite (uwrap_id 64) by (unfold_int; destruct Hor as [->|]; lia). mrun (get_var_ret st i o Hi).
  destruct o as [b|].
  - destruct Ho as (d & Hb & Hd). rewrite bind_assoc. mrun (get_data_ret st b d Hb). rewrite mret_bind.
    destruct (Z.eqb_spec (16 * 2 ^ k - 41) (cap d)) as [Ec|Ec].
    + exists st, b, d. rewrite list_insert_id by done. split_and!; try done. lia.
    + destruct (replace_ret st vals i (Some b) v (16 * 2 ^ k - 41) Hs Hi Hv) as (st' & d' & E2 & H1 & H2 & H3 & H4 & H5 & H6);
        [unfold_int; destruct Hor as [->|]; lia|done|done|].
      rewrite E2. exists st', (snext st), d'. split_and!; try done. lia.
  - rewrite mret_bind.
    destruct (replace_ret st vals i None v (16 * 2 ^ k - 41) Hs Hi Hv) as (st' & d' & E2 & H1 & H2 & H3 & H4 & H5 & H6);
      [unfold_int; destruct Hor as [->|]; lia|done|done|].
    rewrite E2. exists st', (snext st), d'. split_and!; try done. lia.
Qed.

(** A buffer with one owner is written. *)
Lemma srep_write st vals i b d d' v' :
  srep st [] vals -> vars st !! i = Some (Some b) -> heap st !! b = Some d -> refcnt d = 1 ->
  holds d' v' -> refcnt d' = 1 -> srep (with_data st b d') [] (<[i := v']> vals).
Proof.
  intros Hs Hi Hb Hr Hd' Hr'. destruct (srep_heap _ _ _ Hs b d Hb) as (Ho & _). rewrite app_nil_r in Ho.
  assert (forall j, vars st !! j = Some (Some b) -> j = i) as Honly.
  { intros j Hj. destruct (decide (j = i)) as [|Hne]; [done|]. exfalso.
    pose proof (owners_insert b (vars st) i _ None Hi) as Hx. rewrite bool_decide_eq_true_2, bool_decide_eq_false_2 in Hx by done.
    pose proof (owners_pos b (<[i := None]> (vars st)) j ltac:(by rewrite list_lookup_insert_ne)). simpl in Hx. lia. }
  split; simpl.
  - apply Forall2_same_length_lookup. split.
    { rewrite length_insert. eapply Forall2_length, Hs. }
    intros j o w Hj Hw. destruct (decide (j = i)) as [->|Hne].
    + rewrite list_lookup_insert_eq in Hw.
      2:{ rewrite <- (Forall2_length (srep_vals _ _ _ Hs)). by eapply lookup_lt_Some. }
      simplify_eq. exists d'. by rewrite lookup_insert_eq.
    + rewrite list_lookup_insert_ne in Hw by done. destruct (srep_lookup _ _ _ _ _ Hs Hj) as (w' & Hw' & Ho'). simplify_eq.
      apply (var_holds_frame (heap st)); [|done]. intros b' ->. apply lookup_insert_ne. intros <-. by apply Hne, Honly.
  - intros b' d''. rewrite lookup_insert_Some. intros [[<- <-]|[Hne Hd'']]; [|by apply (srep_heap _ _ _ Hs)].
    rewrite app_nil_r, <- Ho. split_and!; [lia|lia|by exists v'].
  - intros b' Hb'. by apply elem_of_nil in Hb'.
  - intros b' Hb'. rewrite lookup_insert_ne; [by apply (srep_fresh _ _ _ Hs)|]. intros <-. by rewrite (srep_fresh _ _ _ Hs) in Hb.
  - apply Hs.
Qed.
(** ** The operations *)

(** What [append], [push_back] and the others do first. *)
Definition grown (i : nat) (n : Z) : M sstate unit :=
  sz ← size i; _ ← reserve room i (u64 (sz + n)); may_write room i.

(** This frees the buffer that the variable had, with [n] characters still to be
    copied from it. *)
Definition frees_own (i : nat) (n : Z) (st : sstate) : bool :=
  match vars st !! i, grown i n st with
  | Some (Some b), Ret _ st' => (0 <? n) && match heap st' !! b with None => true | Some _ => false end
  | _, _ => false
  end.

(** The variable has a buffer of its own with room for [n] more characters. *)
Lemma prepare_grown {X} st vals i v n (k : Z -> sdata -> M sstate X) :
  srep st [] vals -> vals !! i = Some v -> 0 <= n -> Z.of_nat (length v) + n < 2 ^ 61 ->
  Z.of_nat (S (length (vars st))) < 2 ^ 32 -> (forall m h, room m h = true) ->
  exists st' b d, (sz ← size i; _ ← reserve room i (u64 (sz + n)); _ ← may_write room i; b ← data_of i; d ← get_data b; k b d) st
      = k b d st' /\ srep st' [] vals /\ vars st' = <[i := Some b]> (vars st) /\
    heap st' !! b = Some d /\ refcnt d = 1 /\ Z.of_nat (length v) + n <= cap d /\ holds d v /\ grown i n st = Ret tt st'.
Proof.
  intros Hs Hv Hn Hlen Hfew Hroom. unfold grown. rewrite !(bind_ret _ _ _ _ _ (size_ret st [] vals i v Hs Hv)).
  rewrite uwrap_id by (unfold_int; lia).
  destruct (str_reserve_ret st vals i v (Z.of_nat (length v) + n) Hs Hv) as (st1 & b1 & d1 & E1 & Hs1 & Hv1 & Hb1 & Hc1 & Hd1);
    [lia|lia|done|done|]. rewrite !(bind_ret _ _ _ _ _ E1).
  assert (i < length (vars st))%nat as Hi.
  { destruct (srep_var _ _ _ _ _ Hs Hv) as (o & Ho & _). by eapply lookup_lt_Some. }
  destruct (may_write_ret st1 vals i b1 d1 v Hs1) as (st2 & b & d & E2 & Hs2 & Hv2 & Hb & Hr & Hc & Hd);
    [by rewrite Hv1, list_lookup_insert_eq|done|done|by rewrite Hv1, length_insert|done|]. mrun E2.
  rewrite Hv1, list_insert_insert_eq in Hv2.
  assert (data_of i st2 = Ret b st2) as E3.
  { unfold data_of. mrun (get_var_ret st2 i (Some b) ltac:(by rewrite Hv2, list_lookup_insert_eq)). done. }
  mrun E3. mrun (get_data_ret st2 b d Hb). exists st2, b, d. split_and!; try done. lia.
Qed.

Lemma prepare_ret {X} st vals i v n (k : Z -> sdata -> M sstate X) :
  srep st [] vals -> vals !! i = Some v -> 0 <= n -> Z.of_nat (length v) + n < 2 ^ 61 ->
  Z.of_nat (S (length (vars st))) < 2 ^ 32 -> (forall m h, room m h = true) ->
  exists st' b d, (sz ← size i; _ ← reserve room i (u64 (sz + n)); _ ← may_write room i; b ← data_of i; d ← get_data b; k b d) st
      = k b d st' /\ srep st' [] vals /\ vars st' = <[i := Some b]> (vars st) /\
    heap st' !! b = Some d /\ refcnt d = 1 /\ Z.of_nat (length v) + n <= cap d /\ holds d v.
Proof.
  intros Hs Hv Hn Hlen Hfew Hroom.
  destruct (prepare_grown st vals i v n k Hs Hv Hn Hlen Hfew Hroom) as (st' & b & d & H1 & H2 & H3 & H4 & H5 & H6 & H7 & _).
  by exists st', b, d.
Qed.

Lemma store_data_ret st b d l1 l2 xs :
  heap st !! b = Some d -> buf d = l1 ++ l2 -> (length xs <= length l2)%nat -> len d = Z.of_nat (length l1) ->
  store_at b (len d) xs st =
    Ret tt (with_data st b {| refcnt := refcnt d; len := len d; cap := cap d; buf := l1 ++ xs ++ drop (length xs) l2 |}).
Proof. intros Hb Hd Hl El. rewrite El at 1. by apply store_at_ret. Qed.

Lemma set_len_ret st b d l1 c l2 nlen :
  heap st !! b = Some d -> buf d = l1 ++ c :: l2 -> nlen = Z.of_nat (length l1) ->
  set_len b nlen st = Ret tt (with_data st b {| refcnt := refcnt d; len := nlen; cap := cap d; buf := l1 ++ Some x00 :: l2 |}).
Proof.
  intros Hb Hd ->. unfold set_len. mrun (store_at_ret st b d l1 (c :: l2) [Some x00] Hb Hd ltac:(simpl; lia)).
  set (d' := {| refcnt := refcnt d; len := len d; cap := cap d; buf := _ |}).
  mrun (get_data_ret (with_data st b d') b d' ltac:(apply lookup_insert_eq)).
  unfold put_data. f_equal. apply (with_data_twice st b d').
Qed.

(** ... and last: the characters [s] go behind the string. *)
Lemma extend_ret st vals i b d v s :
  srep st [] vals -> vars st !! i = Some (Some b) -> heap st !! b = Some d -> refcnt d = 1 -> holds d v ->
  Z.of_nat (length v + length s) <= cap d ->
  exists st', (_ ← store_at b (len d) (fmap Some s); set_len b (u64 (len d + Z.of_nat (length s)))) st = Ret tt st' /\
    srep st' [] (<[i := v ++ s]> vals) /\ vars st' = vars st.
Proof.
  intros Hs Hi Hb Hr (Hl & Hc & rest & Hbuf & Hcap) Hle.
  pose proof (store_data_ret st b d (fmap Some v) (Some x00 :: rest) (fmap Some s) Hb Hbuf) as E. rewrite !length_fmap in E.
  mrun (E ltac:(simpl; lia) Hl). set (d1 := {| refcnt := refcnt d; len := len d; cap := cap d; buf := _ |}).
  rewrite uwrap_id by (unfold_int; lia).
  assert (length (drop (length s) (Some x00 :: rest)) = S (length rest - length s)) as Hdl by (rewrite length_drop; simpl; lia).
  destruct (drop (length s) (Some x00 :: rest)) as [|c l2] eqn:Ed; [done|]. simpl in Hdl.
  rewrite (set_len_ret _ b d1 (fmap Some v ++ fmap Some s) c l2).
  - rewrite with_data_twice. eexists. split; [done|]. split; [|done]. eapply srep_write; [done|done|done|done| |done].
    split; [simpl; rewrite length_app; lia|]. split; [done|]. exists l2. simpl. rewrite fmap_app, length_app. split; [done|lia].
  - apply lookup_insert_eq.
  - simpl. by rewrite <- app_assoc.
  - rewrite length_app, !length_fmap, Hl. lia.
Qed.

(** The characters of a variable, at its [data()]. *)
Lemma load_var_ret st ext vals j o w pos n :
  srep st ext vals -> vars st !! j = Some o -> vals !! j = Some w -> (pos + n <= length w)%nat ->
  load (advance (match o with Some b => Buf b 0 | None => Null end) (Z.of_nat pos)) (Z.of_nat n) st
  = Ret (fmap Some (take n (drop pos w))) st.
Proof.
  intros Hs Hj Hw Hn. destruct (srep_lookup _ _ _ _ _ Hs Hj) as (w' & Hw' & Ho). simplify_eq. destruct o as [b|]; simpl.
  - destruct Ho as (d & Hb & Hl & Hc & rest & Hbuf & Hcap).
    pose proof (load_buf_ret st b d (fmap Some (take pos w)) (fmap Some (take n (drop pos w)))
      (fmap Some (drop n (drop pos w)) ++ Some x00 :: rest) Hb) as E.
    rewrite !length_fmap, !length_take, length_drop, !Nat.min_l in E by lia. apply E.
    by rewrite Hbuf, !app_assoc, <- !fmap_app, <- app_assoc, !take_drop.
  - simpl in Ho. subst w. simpl in Hn. by replace n with 0%nat by lia; replace pos with 0%nat by lia.
Qed.

Lemma cbegin_ret st i o : vars st !! i = Some o -> cbegin i st = Ret (match o with Some b => Buf b 0 | None => Null end) st.
Proof. intros Hi. unfold cbegin. by mrun (get_var_ret st i o Hi). Qed.

Section Ops.
Context (Hroom : forall n h, room n h = true).

(** [append] of characters that the growth of the buffer does not touch. *)
(** Characters that are still where [p] points after the growth. *)
Lemma append_ret st vals i v p s :
  srep st [] vals -> vals !! i = Some v -> Z.of_nat (length v + length s) < 2 ^ 61 -> Z.of_nat (S (length (vars st))) < 2 ^ 32 ->
  (forall st' b, srep st' [] vals -> vars st' = <[i := Some b]> (vars st) -> grown i (Z.of_nat (length s)) st = Ret tt st' ->
     load p (Z.of_nat (length s)) st' = Ret (fmap Some s) st') ->
  exists st', append room i p (Z.of_nat (length s)) st = Ret tt st' /\ srep st' [] (<[i := v ++ s]> vals) /\
    length (vars st') = length (vars st).
Proof.
  intros Hs Hv Hlen Hfew Hp. unfold append.
  destruct (prepare_grown st vals i v (Z.of_nat (length s)) (fun b d => xs ← load p (Z.of_nat (length s));
    _ ← store_at b (len d) xs; set_len b (u64 (len d + Z.of_nat (length s)))) Hs Hv) as (st1 & b & d & E & Hs1 & Hv1 & Hb & Hr & Hc & Hd & Hg);
    [lia|lia|done|done|]. rewrite E. mrun (Hp st1 b Hs1 Hv1 Hg).
  assert (i < length (vars st))%nat as Hi.
  { destruct (srep_var _ _ _ _ _ Hs Hv) as (o & Ho & _). by eapply lookup_lt_Some. }
  destruct (extend_ret st1 vals i b d v s Hs1) as (st2 & E2 & Hs2 & Hv2); [by rewrite Hv1, list_lookup_insert_eq|done..|lia|].
  rewrite E2. exists st2. by rewrite Hv2, Hv1, length_insert.
Qed.

(** A buffer that still exists when the variable has another one belongs to a
    variable with the same value. *)
Lemma kept_buffer st st' vals i b b' d v :
  srep st [] vals -> srep st' [] vals -> vars st' = <[i := Some b']> (vars st) -> vars st !! i = Some (Some b) ->
  vals !! i = Some v -> heap st' !! b = Some d -> exists k, vars st' !! k = Some (Some b) /\ vals !! k = Some v.
Proof.
  intros Hs Hs' Hvs Hi Hv Hb. destruct (srep_heap _ _ _ Hs' b d Hb) as (Hr & Hp & _). rewrite app_nil_r in Hr. rewrite Hr in Hp.
  destruct (count_exists _ _ Hp) as (k & o & Hk & Ho). apply bool_decide_eq_true in Ho. subst o. exists k. split; [done|].
  destruct (decide (k = i)) as [->|Hne]; [done|]. rewrite Hvs, list_lookup_insert_ne in Hk by done.
  destruct (srep_lookup _ _ _ _ _ Hs Hk) as (w & Hw & dw & Hdw & Hhw). destruct (srep_lookup _ _ _ _ _ Hs Hi) as (v' & Hv' & dv & Hdv & Hhv).
  simplify_eq. rewrite Hw. f_equal. destruct Hhw as (Hl & _ & r & Hbw & _), Hhv as (Hl' & _ & r' & Hbv & _).
  rewrite Hbw in Hbv. assert (length w = length v) as E by lia.
  apply (inj (fmap Some)). by apply app_inj_1 in Hbv as [? _]; [|by rewrite !length_fmap].
Qed.

(** Characters of the string itself: they are gone when the growth frees them. *)
Lemma append_self_ret st vals i o v pos n :
  srep st [] vals -> vals !! i = Some v -> vars st !! i = Some o -> (pos + n <= length v)%nat ->
  Z.of_nat (length v + n) < 2 ^ 61 -> Z.of_nat (S (length (vars st))) < 2 ^ 32 ->
  let p := advance (match o with Some b => Buf b 0 | None => Null end) (Z.of_nat pos) in
  if frees_own i (Z.of_nat n) st then append room i p (Z.of_nat n) st = Ub
  else exists st', append room i p (Z.of_nat n) st = Ret tt st' /\ srep st' [] (<[i := v ++ take n (drop pos v)]> vals) /\
    length (vars st') = length (vars st).
Proof.
  intros Hs Hv Hi Hn Hlen Hfew p. set (s := take n (drop pos v)).
  assert (length s = n) as Es by (unfold s; rewrite length_take, length_drop; lia).
  destruct (frees_own i (Z.of_nat n) st) eqn:Ef.
  - unfold frees_own in Ef. rewrite Hi in Ef. destruct o as [b|]; [|done].
    destruct (prepare_grown st vals i v (Z.of_nat n) (fun b d => xs ← load p (Z.of_nat n);
      _ ← store_at b (len d) xs; set_len b (u64 (len d + Z.of_nat n))) Hs Hv) as (st1 & b1 & d & E & _ & _ & _ & _ & _ & _ & Hg);
      [lia|lia|done|done|]. rewrite Hg in Ef. apply andb_prop in Ef as [Hpos Ef]. apply Z.ltb_lt in Hpos.
    unfold append. rewrite E. apply bind_ub. unfold load, p. simpl. rewrite (proj2 (Z.leb_gt _ _)) by lia.
    by destruct (heap st1 !! b).
  - rewrite <- Es. apply append_ret; [done|done|lia|done|]. rewrite Es. intros st' b' Hs' Hv' Hg.
    unfold frees_own in Ef. rewrite Hi, Hg in Ef. destruct o as [b|].
    2:{ destruct (srep_lookup _ _ _ _ _ Hs Hi) as (v' & Hv1 & Ho). simpl in Ho. simplify_eq. simpl in Hn.
        assert (n = 0%nat) as -> by lia. done. }
    destruct (heap st' !! b) as [d|] eqn:Eb.
    + destruct (kept_buffer st st' vals i b b' d v Hs Hs' Hv' Hi Hv Eb) as (k & Hk & Hkv).
      apply (load_var_ret st' [] vals k (Some b) v pos n Hs' Hk Hkv Hn).
    + rewrite andb_true_r in Ef. apply Z.ltb_ge in Ef. assert (n = 0%nat) as -> by lia. done.
Qed.

Lemma append_cstr_ret st vals i v s :
  srep st [] vals -> vals !! i = Some v -> Z.of_nat (length v + length s) < 2 ^ 61 -> Z.of_nat (S (length (vars st))) < 2 ^ 32 ->
  exists st', append_cstr room i s st = Ret tt st' /\ srep st' [] (<[i := v ++ s]> vals) /\ length (vars st') = length (vars st).
Proof. intros Hs Hv Hlen Hfew. apply append_ret; [done..|]. intros st' b _ _ _. apply load_chars_ret. Qed.

Lemma append_sub_ret st vals i j v w pos n :
  srep st [] vals -> vals !! i = Some v -> vals !! j = Some w -> i <> j -> Z.of_nat (length v + length w) < 2 ^ 61 ->
  Z.of_nat (S (length (vars st))) < 2 ^ 32 -> 0 <= pos -> 0 <= n ->
  if decide (pos <= Z.of_nat (length w)) then
    exists st', append_sub room i j pos n st = Ret tt st' /\ srep st' [] (<[i := v ++ take (Z.to_nat n) (drop (Z.to_nat pos) w)]> vals) /\
      length (vars st') = length (vars st)
  else append_sub room i j pos n st = Halt 1 st.
Proof.
  intros Hs Hv Hw Hij Hlen Hfew Hpos Hn. unfold append_sub. mrun (size_ret st [] vals j w Hs Hw).
  case_decide as Hp; [|by rewrite (proj2 (Z.ltb_lt _ _)) by lia]. rewrite (proj2 (Z.ltb_ge _ _)) by lia.
  destruct (srep_var _ _ _ _ _ Hs Hw) as (o & Hj & _). mrun (cbegin_ret st j o Hj).
  set (s := take (Z.to_nat n) (drop (Z.to_nat pos) w)).
  assert ((if Z.of_nat (length w) - pos <? n then Z.of_nat (length w) - pos else n) = Z.of_nat (length s)) as ->.
  { unfold s. rewrite length_take, length_drop. destruct (Z.ltb_spec (Z.of_nat (length w) - pos) n); lia. }
  apply append_ret; [done|done| |done|].
  { unfold s. rewrite length_take, length_drop. lia. }
  intros st' b Hs' Hv' _. pose proof (load_var_ret st' [] vals j o w (Z.to_nat pos) (length s) Hs') as L.
  rewrite Z2Nat.id in L by done.
  assert (take (length s) (drop (Z.to_nat pos) w) = s) as Es.
  { unfold s. rewrite length_take. destruct (Nat.le_ge_cases (Z.to_nat n) (length (drop (Z.to_nat pos) w))).
    - by rewrite Nat.min_l by done.
    - by rewrite Nat.min_r, !take_ge by (try done; lia). }
  rewrite Es in L. apply L; [by rewrite Hv', list_lookup_insert_ne|done|].
  unfold s. rewrite length_take, length_drop. lia.
Qed.

Lemma append_str_ret st vals i j v w :
  srep st [] vals -> vals !! i = Some v -> vals !! j = Some w -> i <> j -> Z.of_nat (length v + length w) < 2 ^ 61 ->
  Z.of_nat (S (length (vars st))) < 2 ^ 32 ->
  exists st', append_str room i j st = Ret tt st' /\ srep st' [] (<[i := v ++ w]> vals) /\ length (vars st') = length (vars st).
Proof.
  intros Hs Hv Hw Hij Hlen Hfew. unfold append_str. destruct (srep_var _ _ _ _ _ Hs Hw) as (o & Hj & _).
  mrun (cbegin_ret st j o Hj). mrun (size_ret st [] vals j w Hs Hw). apply append_ret; [done..|].
  intros st' b Hs' Hv' _. pose proof (load_var_ret st' [] vals j o w 0 (length w) Hs') as L.
  rewrite drop_0, firstn_all in L. destruct o; apply L; try done; by rewrite Hv', list_lookup_insert_ne.
Qed.

Lemma str_push_back_ret st vals i v c :
  srep st [] vals -> vals !! i = Some v -> Z.of_nat (length v) + 1 < 2 ^ 61 -> Z.of_nat (S (length (vars st))) < 2 ^ 32 ->
  exists st', push_back room i c st = Ret tt st' /\ srep st' [] (<[i := v ++ [c]]> vals) /\ length (vars st') = length (vars st).
Proof.
  intros Hs Hv Hlen Hfew. unfold push_back.
  destruct (prepare_ret st vals i v 1 (fun b d => _ ← store_at b (len d) [Some c]; set_len b (u64 (len d + 1))) Hs Hv)
    as (st1 & b & d & E & Hs1 & Hv1 & Hb & Hr & Hc & Hd); [lia|lia|done|done|]. rewrite E.
  assert (i < length (vars st))%nat as Hi.
  { destruct (srep_var _ _ _ _ _ Hs Hv) as (o & Ho & _). by eapply lookup_lt_Some. }
  destruct (extend_ret st1 vals i b d v [c] Hs1) as (st2 & E2 & Hs2 & Hv2); [by rewrite Hv1, list_lookup_insert_eq|done..|simpl; lia|].
  exists st2. split; [exact E2|]. by rewrite Hv2, Hv1, length_insert.
Qed.

Lemma append_fill_ret st vals i v n c :
  srep st [] vals -> vals !! i = Some v -> Z.of_nat (length v + n) < 2 ^ 61 -> Z.of_nat (S (length (vars st))) < 2 ^ 32 ->
  exists st', append_fill room i (Z.of_nat n) c st = Ret tt st' /\ srep st' [] (<[i := v ++ replicate n c]> vals) /\
    length (vars st') = length (vars st).
Proof.
  intros Hs Hv Hlen Hfew. unfold append_fill.
  destruct (prepare_ret st vals i v (Z.of_nat n) (fun b d => _ ← fill_at b (len d) (len d + Z.of_nat n) c; set_len b (u64 (len d + Z.of_nat n))) Hs Hv)
    as (st1 & b & d & E & Hs1 & Hv1 & Hb & Hr & Hc & Hd); [lia|lia|done|done|]. rewrite E.
  assert (i < length (vars st))%nat as Hi.
  { destruct (srep_var _ _ _ _ _ Hs Hv) as (o & Ho & _). by eapply lookup_lt_Some. }
  assert (fill_at b (len d) (len d + Z.of_nat n) c st1 = store_at b (len d) (fmap Some (replicate n c)) st1) as Ef.
  { pose proof Hd as (Hl & _ & rest & Hbuf & Hcap).
    pose proof (store_data_ret st1 b d (fmap Some v) (Some x00 :: rest) (fmap Some (replicate n c)) Hb Hbuf) as ->.
    2: rewrite length_fmap, length_replicate; simpl; lia. 2: by rewrite length_fmap.
    unfold fill_at. rewrite Hb.
    pose proof (algo_fill_ret (fmap Some v) (take n (Some x00 :: rest)) (drop n (Some x00 :: rest)) (Some c)) as F.
    rewrite take_drop, <- Hbuf, length_fmap, length_take, Nat.min_l in F by (simpl; lia).
    rewrite Hl, <- Nat2Z.inj_add, F. unfold put_data, with_data. by rewrite fmap_replicate, length_replicate. }
  destruct (extend_ret st1 vals i b d v (replicate n c) Hs1) as (st2 & E2 & Hs2 & Hv2);
    [by rewrite Hv1, list_lookup_insert_eq|done..|rewrite length_replicate; lia|].
  rewrite length_replicate in E2. exists st2. split; [|by rewrite Hv2, Hv1, length_insert].
  rewrite <- E2. unfold mbind, M_bind. by rewrite Ef.
Qed.

(** The buffer of a variable, written in place after [may_write]. *)
Lemma own_ret st vals i v :
  srep st [] vals -> vals !! i = Some v -> v <> [] -> Z.of_nat (S (length (vars st))) < 2 ^ 32 ->
  exists st' b d, may_write room i st = Ret tt st' /\ srep st' [] vals /\ vars st' !! i = Some (Some b) /\ length (vars st') = length (vars st) /\
    heap st' !! b = Some d /\ refcnt d = 1 /\ holds d v.
Proof.
  intros Hs Hv Hne Hfew. destruct (srep_var _ _ _ _ _ Hs Hv) as ([b|] & Hi & Ho); [|done]. destruct Ho as (d & Hb & Hd).
  destruct (may_write_ret st vals i b d v Hs Hi Hb Hv Hfew Hroom) as (st' & b' & d' & E & Hs' & Hv' & Hb' & Hr' & _ & Hd').
  exists st', b', d'. rewrite Hv', length_insert. split_and!; try done. rewrite list_lookup_insert_eq; [done|]. by eapply lookup_lt_Some.
Qed.

Lemma str_pop_back_ret st vals i v :
  srep st [] vals -> vals !! i = Some v -> Z.of_nat (S (length (vars st))) < 2 ^ 32 ->
  exists st', pop_back room i st = Ret tt st' /\ srep st' [] (<[i := removelast v]> vals) /\ length (vars st') = length (vars st).
Proof.
  intros Hs Hv Hfew. unfold pop_back.
  assert (empty i st = Ret (bool_decide (v = [])) st) as Ee.
  { destruct (srep_var _ _ _ _ _ Hs Hv) as (o & Hi & Ho). unfold empty. mrun (get_var_ret st i o Hi).
    destruct o as [b|]; [|by rewrite Ho]. destruct Ho as (d & Hb & Hl & _). mrun (get_data_ret st b d Hb). rewrite Hl.
    munfold. f_equal. destruct v; [done|]. rewrite bool_decide_eq_false_2 by done. apply Z.eqb_neq. simpl. lia. }
  mrun Ee. destruct v as [|c v _] using rev_ind.
  { exists st. rewrite list_insert_id by done. done. }
  rewrite bool_decide_eq_false_2 by by destruct v. cbn [negb]. rewrite removelast_last.
  destruct (own_ret st vals i (v ++ [c]) Hs Hv) as (st1 & b & d & E & Hs1 & Hi & Hl1 & Hb & Hr & Hl & Hc & rest & Hbuf & Hcap);
    [by destruct v|done|]. mrun E.
  assert (data_of i st1 = Ret b st1) as E3 by (unfold data_of; by mrun (get_var_ret st1 i (Some b) Hi)). mrun E3. mrun (get_data_ret st1 b d Hb).
  rewrite length_app in *. simpl in *.
  rewrite (set_len_ret st1 b d (fmap Some v) (Some c) (Some x00 :: rest)).
  - eexists. split; [done|]. split; [|done]. eapply srep_write; [done..| |done].
    split; [simpl; rewrite uwrap_id; [lia|unfold_int; lia]|]. split; [done|]. exists (Some x00 :: rest). simpl. split; [done|lia].
  - done.
  - by rewrite Hbuf, fmap_app, <- app_assoc.
  - rewrite length_fmap, uwrap_id; [lia|unfold_int; lia].
Qed.

Lemma set_index_ret st vals i v pos c :
  srep st [] vals -> vals !! i = Some v -> (pos < length v)%nat -> Z.of_nat (S (length (vars st))) < 2 ^ 32 ->
  exists st', set_index room i (Z.of_nat pos) c st = Ret tt st' /\ srep st' [] (<[i := <[pos := c]> v]> vals) /\
    length (vars st') = length (vars st).
Proof.
  intros Hs Hv Hpos Hfew. unfold set_index, begin. rewrite bind_assoc.
  destruct (own_ret st vals i v Hs Hv) as (st1 & b & d & E & Hs1 & Hi & Hl1 & Hb & Hr & Hl & Hc & rest & Hbuf & Hcap);
    [by destruct v; [simpl in Hpos; lia|]|done|]. mrun E. mrun (cbegin_ret st1 i _ Hi). cbn [advance set_char]. rewrite Z.add_0_l.
  destruct (lookup_lt_is_Some_2 v pos Hpos) as [x Hx].
  pose proof (store_at_ret st1 b d (fmap Some (take pos v)) (Some x :: fmap Some (drop (S pos) v) ++ Some x00 :: rest) [Some c] Hb) as S0.
  rewrite length_fmap, length_take, Nat.min_l in S0 by lia.
  rewrite S0; [|rewrite Hbuf, <- (take_drop_middle v pos x Hx) at 1; by rewrite fmap_app, <- app_assoc|simpl; lia].
  eexists. split; [done|]. split; [|done]. eapply srep_write; [done..| |done]. unfold holds. simpl. rewrite length_insert.
  split; [done|]. split; [done|]. exists rest. split; [|done]. rewrite insert_take_drop by done. by rewrite fmap_app, <- app_assoc.
Qed.
Lemma str_clear_ret st vals i v :
  srep st [] vals -> vals !! i = Some v ->
  exists st', clear i st = Ret tt st' /\ srep st' [] (<[i := []]> vals) /\ length (vars st') = length (vars st).
Proof.
  intros Hs Hv. destruct (srep_var _ _ _ _ _ Hs Hv) as (o & Hi & Ho). unfold clear. mrun (get_var_ret st i o Hi).
  destruct o as [b|]; [|simpl in Ho; subst v; exists st; by rewrite list_insert_id]. destruct Ho as (d & Hb & Hd).
  mrun (get_data_ret st b d Hb). destruct (Z.ltb_spec 1 (refcnt d)) as [Hlt|Hge].
  - destruct (release_ret st [] vals i (Some b) Hs Hi) as (h & E & Hs' & _). eexists. split; [exact E|]. split; [exact Hs'|]. simpl. by rewrite length_insert.
  - destruct (srep_heap _ _ _ Hs b d Hb) as (_ & Hp & _). destruct Hd as (Hl & Hc & rest & Hbuf & Hcap).
    destruct (fmap Some v ++ Some x00 :: rest) as [|c l2] eqn:El; [by destruct v|].
    assert (length v + length rest = length l2)%nat as Hll.
    { apply (f_equal length) in El. rewrite length_app, length_fmap in El. simpl in El. lia. }
    rewrite (set_len_ret st b d [] c l2 0 Hb Hbuf eq_refl). eexists. split; [done|]. split; [|done].
    eapply srep_write; [done|done|done|lia| |simpl; lia]. split; [done|]. split; [done|]. exists l2. split; [done|]. simpl. lia.
Qed.

(** A null variable shares the buffer of another one. *)
Lemma share_ret st vals i j o w :
  srep st [] vals -> vars st !! i = Some None -> vars st !! j = Some o -> vals !! j = Some w ->
  Z.of_nat (S (length (vars st))) < 2 ^ 32 ->
  exists st', (_ ← set_var i o; share o) st = Ret tt st' /\ srep st' [] (<[i := w]> vals) /\ length (vars st') = length (vars st).
Proof.
  intros Hs Hi Hj Hw Hfew. destruct (srep_lookup _ _ _ _ _ Hs Hj) as (w' & Hw' & Ho). simplify_eq.
  assert (Forall2 (var_holds (heap st)) (<[i := o]> (vars st)) (<[i := w]> vals)) as Hvals by (apply Forall2_insert; [apply Hs|done]).
  assert (forall b, owners b (<[i := o]> (vars st) ++ []) = owners b (vars st ++ []) + Z.b2z (bool_decide (o = Some b))) as Hown.
  { intros b. rewrite !app_nil_r, (owners_insert b _ i None o Hi), (bool_decide_eq_false_2 (None = Some b)) by done. simpl. lia. }
  destruct o as [b|].
  - destruct Ho as (d & Hb & Hd). destruct (srep_heap _ _ _ Hs b d Hb) as (Hr & Hp & _).
    pose proof (owners_le b (vars st ++ [])) as Hle. rewrite app_nil_r in Hle.
    set (d1 := {| refcnt := refcnt d + 1; len := len d; cap := cap d; buf := buf d |}).
    exists {| heap := <[b := d1]> (heap st); snext := snext st; vars := <[i := Some b]> (vars st) |}.
    split; [|split; [|simpl; by rewrite length_insert]].
    + munfold. unfold set_var, share, set_refcnt, get_data. munfold. cbn [heap]. rewrite Hb. cbn [heap]. rewrite Hb.
      rewrite app_nil_r in Hr. rewrite uwrap_id by (unfold_int; lia). done.
    + apply (srep_rebalance st [] vals); [done|..|done|by rewrite !app_nil_r, length_insert].
      * intros b' d'. rewrite lookup_insert_Some, Hown. intros [[<- <-]|[Hne Hd']].
        -- rewrite bool_decide_eq_true_2 by done. simpl. split_and!; [lia|lia|]. by exists d.
        -- rewrite bool_decide_eq_false_2 by congruence. simpl. destruct (srep_heap _ _ _ Hs b' d' Hd') as (Hr' & Hp' & _).
           split_and!; [lia|done|]. by exists d'.
      * intros b'. rewrite Hown. destruct (decide (b = b')) as [<-|Hne]; [rewrite lookup_insert_eq; eauto|].
        rewrite bool_decide_eq_false_2, lookup_insert_ne by congruence. simpl. intros H0. apply (srep_owned st [] vals); [done|lia].
  - simpl in Ho. subst w. exists {| heap := heap st; snext := snext st; vars := <[i := None]> (vars st) |}.
    split; [done|]. split; [|simpl; by rewrite length_insert].
    apply (srep_permute st [] vals); [done| |done|by rewrite !app_nil_r, length_insert].
    intros b. rewrite Hown, bool_decide_eq_false_2 by done. simpl. lia.
Qed.

Lemma str_assign_ret st vals i j w :
  srep st [] vals -> (i < length vals)%nat -> vals !! j = Some w -> Z.of_nat (S (length (vars st))) < 2 ^ 32 ->
  exists st', assign i j st = Ret tt st' /\ srep st' [] (<[i := w]> vals) /\ length (vars st') = length (vars st).
Proof.
  intros Hs Hi Hw Hfew. unfold assign. case_decide as Hij.
  { subst j. exists st. by rewrite list_insert_id. }
  destruct (lookup_lt_is_Some_2 vals i Hi) as [v Hv].
  destruct (srep_var _ _ _ _ _ Hs Hv) as (o & Ho & _). destruct (release_ret st [] vals i o Hs Ho) as (h & E & Hs1 & _). mrun E.
  destruct (srep_var _ _ _ _ _ Hs Hw) as (oj & Hj & _).
  mrun (get_var_ret {| heap := h; snext := snext st; vars := <[i := None]> (vars st) |} j oj ltac:(simpl; by rewrite list_lookup_insert_ne)).
  destruct (share_ret _ _ i j oj w Hs1) as (st' & E2 & Hs2 & Hl); simpl.
  - apply list_lookup_insert_eq. by eapply lookup_lt_Some.
  - by rewrite list_lookup_insert_ne.
  - by rewrite list_lookup_insert_ne.
  - by rewrite length_insert.
  - rewrite E2. exists st'. simpl in Hl. rewrite list_insert_insert_eq, length_insert in *. done.
Qed.

Lemma move_assign_ret st vals i j w :
  srep st [] vals -> (i < length vals)%nat -> vals !! j = Some w -> Z.of_nat (S (length (vars st))) < 2 ^ 32 ->
  exists st', move_assign i j st = Ret tt st' /\ srep st' [] (<[j := []]> (<[i := w]> vals)) /\ length (vars st') = length (vars st).
Proof.
  intros Hs Hi Hw Hfew. unfold move_assign. destruct (lookup_lt_is_Some_2 vals i Hi) as [v Hv].
  destruct (srep_var _ _ _ _ _ Hs Hv) as (o & Ho & _). destruct (release_ret st [] vals i o Hs Ho) as (h & E & Hs1 & _). mrun E.
  set (st1 := {| heap := h; snext := snext st; vars := <[i := None]> (vars st) |}) in *.
  assert (i < length (vars st))%nat as Hil by by eapply lookup_lt_Some.
  destruct (decide (i = j)) as [<-|Hij].
  - mrun (get_var_ret st1 i None ltac:(by apply list_lookup_insert_eq)). eexists. split; [done|].
    simpl. rewrite !list_insert_insert_eq, length_insert. done.
  - destruct (srep_var _ _ _ _ _ Hs Hw) as (oj & Hj & _).
    assert (vars st1 !! j = Some oj) as Hj1 by (simpl; by rewrite list_lookup_insert_ne).
    mrun (get_var_ret st1 j oj Hj1). eexists. split; [done|]. simpl. rewrite !length_insert. split; [|done].
    destruct (srep_lookup _ _ _ _ _ Hs1 Hj1) as (w' & Hw' & Hoj). rewrite list_lookup_insert_ne in Hw' by done. simplify_eq.
    apply (srep_permute st1 [] (<[i := []]> vals)); [done|..].
    + intros b. rewrite !app_nil_r. pose proof (owners_insert b (vars st1) i None oj ltac:(by apply list_lookup_insert_eq)) as O1.
      pose proof (owners_insert b (<[i := oj]> (vars st1)) j oj None ltac:(by rewrite list_lookup_insert_ne)) as O2.
      rewrite (bool_decide_eq_false_2 (None = Some b)) in * by done. simpl Z.b2z in *. change (vars st1) with (<[i := None]> (vars st)) in *. lia.
    + apply Forall2_insert; [|done]. rewrite <- (list_insert_insert_eq vals i w []). apply Forall2_insert; [apply Hs1|done].
    + simpl. rewrite !app_nil_r, !length_insert. done.
Qed.

(** [shrink_to_fit] makes a new buffer, of the same capacity. *)
Lemma shrink_to_fit_ret st vals i v :
  srep st [] vals -> vals !! i = Some v -> Z.of_nat (S (length (vars st))) < 2 ^ 32 ->
  exists st' c, shrink_to_fit room i st = Ret tt st' /\ srep st' [] vals /\ length (vars st') = length (vars st) /\
    capacity i st = Ret c st /\ capacity i st' = Ret c st'.
Proof.
  intros Hs Hv Hfew. destruct (srep_var _ _ _ _ _ Hs Hv) as (o & Hi & Ho). unfold shrink_to_fit.
  mrun (size_ret st [] vals i v Hs Hv). destruct o as [b|].
  - destruct Ho as (d & Hb & Hd). pose proof Hd as (Hl & Hc & rest & Hbuf & Hcap).
    assert (capacity i st = Ret (cap d) st) as Ec by (unfold capacity; mrun (get_var_ret st i _ Hi); by mrun (get_data_ret st b d Hb)).
    mrun Ec. destruct (Z.eqb_spec (Z.of_nat (length v)) (cap d)) as [E|E]; [by exists st, (cap d)|].
    mrun (get_var_ret st i _ Hi).
    destruct (replace_ret st vals i (Some b) v (cap d) Hs Hi Hv) as (st' & d' & E' & Hs' & Hv' & Hb' & _ & Hc' & _); [lia|done|done|].
    exists st', (cap d). split; [exact E'|]. split; [done|]. split; [by rewrite Hv', length_insert|]. split; [done|].
    unfold capacity. mrun (get_var_ret st' i (Some (snext st)) ltac:(rewrite Hv'; apply list_lookup_insert_eq; by eapply lookup_lt_Some)).
    mrun (get_data_ret st' _ _ Hb'). by rewrite Hc'.
  - simpl in Ho. subst v.
    assert (capacity i st = Ret 0 st) as Ec by (unfold capacity; by mrun (get_var_ret st i _ Hi)).
    mrun Ec. by exists st, 0.
Qed.

(** ** Reading *)

Lemma str_at_ret st vals i v pos :
  srep st [] vals -> vals !! i = Some v -> 0 <= pos ->
  at_ i pos st = match v !! Z.to_nat pos with Some c => Ret c st | None => Halt 1 st end.
Proof.
  intros Hs Hv Hpos. unfold at_. mrun (size_ret st [] vals i v Hs Hv).
  destruct (Z.leb_spec (Z.of_nat (length v)) pos) as [Hle|Hlt]; [by rewrite lookup_ge_None_2 by lia|].
  destruct (lookup_lt_is_Some_2 v (Z.to_nat pos)) as [c Hc]; [lia|]. rewrite Hc.
  destruct (srep_var _ _ _ _ _ Hs Hv) as (o & Hi & _). mrun (cbegin_ret st i o Hi). unfold char_at.
  pose proof (load_var_ret st [] vals i o v (Z.to_nat pos) 1 Hs Hi Hv ltac:(lia)) as L. rewrite Z2Nat.id in L by done.
  mrun L. by rewrite (drop_S v c _ Hc).
Qed.

(** The comparison of two values. *)
Definition compare_vals v w : Z :=
  let n := Nat.min (length v) (length w) in
  let res := bcmp schar (take n v) (take n w) in
  if res =? 0 then if (length v <? length w)%nat then -1 else if (length w <? length v)%nat then 1 else 0 else res.

Lemma mapM_chars s : mapM id (fmap Some s : list (option byte)) = Some s.
Proof. apply mapM_Some, Forall2_fmap_l. induction s; by constructor. Qed.

Lemma compare_str_ret st vals i j v w :
  srep st [] vals -> vals !! i = Some v -> vals !! j = Some w -> compare_str i j st = Ret (compare_vals v w) st.
Proof.
  intros Hs Hv Hw. unfold compare_str. mrun (size_ret st [] vals i v Hs Hv).
  destruct (srep_var _ _ _ _ _ Hs Hv) as (oi & Hi & _), (srep_var _ _ _ _ _ Hs Hw) as (oj & Hj & _).
  mrun (cbegin_ret st j oj Hj). mrun (size_ret st [] vals j w Hs Hw). unfold compare. mrun (size_ret st [] vals i v Hs Hv).
  rewrite (proj2 (Z.ltb_ge _ _)), Z.sub_0_r, Z.ltb_irrefl by lia. mrun (cbegin_ret st i oi Hi).
  set (n := Nat.min (length v) (length w)).
  assert ((if Z.of_nat (length v) <? Z.of_nat (length w) then Z.of_nat (length v) else Z.of_nat (length w)) = Z.of_nat n) as ->
    by (unfold n; destruct (Z.ltb_spec (Z.of_nat (length v)) (Z.of_nat (length w))); lia).
  pose proof (load_var_ret st [] vals i oi v 0 n Hs Hi Hv ltac:(lia)) as L1.
  pose proof (load_var_ret st [] vals j oj w 0 n Hs Hj Hw ltac:(lia)) as L2. rewrite !drop_0 in L1, L2.
  assert (forall o, advance (match o with Some b => Buf b 0 | None => Null end) (Z.of_nat 0) = match o with Some b => Buf b 0 | None => Null end)
    as Ha by by intros [].
  rewrite Ha in L1, L2. mrun L1. mrun L2. rewrite !mapM_chars. munfold. f_equal. unfold compare_vals. fold n.
  destruct (Z.eqb_spec (bcmp schar (take n v) (take n w)) 0) as [E|E]; [|done]. rewrite E.
  destruct (Nat.ltb_spec (length v) (length w)), (Z.ltb_spec (Z.of_nat (length v)) (Z.of_nat (length w))); try lia; try done.
  destruct (Nat.ltb_spec (length w) (length v)), (Z.ltb_spec (Z.of_nat (length w)) (Z.of_nat (length v))); try lia; done.
Qed.

Lemma bcmp_same_length v w : length v = length w -> bcmp schar v w = 0 <-> v = w.
Proof.
  revert w. induction v as [|b v IH]; intros [|c w] Hl; simpl in *; try done. case_decide as E.
  - subst c. rewrite IH by lia. naive_solver.
  - split; [|naive_solver]. intros H0. destruct E. apply schar_inj. lia.
Qed.

(** Strings are equal for [==] if they have the same characters, NULs included. *)
Lemma compare_vals_eq v w : compare_vals v w = 0 <-> v = w.
Proof.
  unfold compare_vals. set (n := Nat.min (length v) (length w)).
  pose proof (bcmp_same_length (take n v) (take n w) ltac:(rewrite !length_take; lia)) as Hb.
  destruct (Z.eqb_spec (bcmp schar (take n v) (take n w)) 0) as [E|E].
  - apply Hb in E. destruct (Nat.ltb_spec (length v) (length w)); [split; [done|intros ->; lia]|].
    destruct (Nat.ltb_spec (length w) (length v)); [split; [done|intros ->; lia]|].
    rewrite !take_ge in E by lia. naive_solver.
  - split; [done|]. intros ->. destruct E. by apply Hb.
Qed.
End Ops.

(** ** Programs of string operations *)

Inductive sop :=
  | SAssign (i j : nat) | SMove (i j : nat) | SAppend (i j : nat) | SSub (i j : nat) (pos n : Z) | SLit (i : nat) (s : list byte)
  | SFill (i n : nat) (c : byte) | SPush (i : nat) (c : byte) | SPop (i : nat) | SClear (i : nat) | SReserve (i : nat) (n : Z)
  | SShrink (i : nat) | SSet (i pos : nat) (c : byte) | SDestroy (i : nat) | SAt (i : nat) (pos : Z) | SCompare (i j : nat).

(** The results of [at] and of comparisons. *)
Definition sexec (o : sop) : M sstate (list Z) :=
  match o with
  | SAssign i j => _ ← assign i j; mret []
  | SMove i j => _ ← move_assign i j; mret []
  | SAppend i j => _ ← append_str room i j; mret []
  | SSub i j pos n => _ ← append_sub room i j pos n; mret []
  | SLit i s => _ ← append_cstr room i s; mret []
  | SFill i n c => _ ← append_fill room i (Z.of_nat n) c; mret []
  | SPush i c => _ ← push_back room i c; mret []
  | SPop i => _ ← pop_back room i; mret []
  | SClear i => _ ← clear i; mret []
  | SReserve i n => _ ← reserve room i n; mret []
  | SShrink i => _ ← shrink_to_fit room i; mret []
  | SSet i pos c => _ ← set_index room i (Z.of_nat pos) c; mret []
  | SDestroy i => _ ← release i; mret []
  | SAt i pos => c ← at_ i pos; mret [uchar c]
  | SCompare i j => r ← compare_str i j; mret [r]
  end.

Fixpoint srun (os : list sop) : M sstate (list Z) :=
  match os with [] => mret [] | o :: os => r ← sexec o; r' ← srun os; mret (r ++ r') end.

(** The same on values, where every string is its own; [None] is an exception. *)
Definition sspec (o : sop) vals : option (list (list byte) * list Z) :=
  let val i := vals !!! i in
  match o with
  | SAssign i j => Some (<[i := val j]> vals, [])
  | SMove i j => Some (<[j := []]> (<[i := val j]> vals), [])
  | SAppend i j => Some (<[i := val i ++ val j]> vals, [])
  | SSub i j pos n => if pos <=? Z.of_nat (length (val j))
                      then Some (<[i := val i ++ take (Z.to_nat n) (drop (Z.to_nat pos) (val j))]> vals, []) else None
  | SLit i s => Some (<[i := val i ++ s]> vals, [])
  | SFill i n c => Some (<[i := val i ++ replicate n c]> vals, [])
  | SPush i c => Some (<[i := val i ++ [c]]> vals, [])
  | SPop i => Some (<[i := removelast (val i)]> vals, [])
  | SClear i | SDestroy i => Some (<[i := []]> vals, [])
  | SReserve _ _ | SShrink _ => Some (vals, [])
  | SSet i pos c => Some (<[i := <[pos := c]> (val i)]> vals, [])
  | SAt i pos => c ← val i !! Z.to_nat pos; Some (vals, [uchar c])
  | SCompare i j => Some (vals, [compare_vals (val i) (val j)])
  end.

Fixpoint sspec_run (os : list sop) vals : option (list (list byte) * list Z) :=
  match os with
  | [] => Some (vals, [])
  | o :: os => r ← sspec o vals; r' ← sspec_run os r.1; Some (r'.1, r.2 ++ r'.2)
  end.

(** What the caller owes: variables that exist, an index inside the string and
    lengths below 2^61. *)
Definition spre (o : sop) vals : bool :=
  let ok i := (i <? length vals)%nat in
  let fits i (n : Z) := Z.of_nat (length (vals !!! i)) + n <? 2 ^ 61 in
  match o with
  | SAssign i j | SMove i j | SCompare i j => ok i && ok j
  | SAppend i j => ok i && ok j && fits i (Z.of_nat (length (vals !!! j)))
  | SSub i j pos n => ok i && ok j && fits i (Z.of_nat (length (vals !!! j))) && (0 <=? pos) && (0 <=? n)
  | SLit i s => ok i && fits i (Z.of_nat (length s))
  | SFill i n _ => ok i && fits i (Z.of_nat n)
  | SPush i _ => ok i && fits i 1
  | SPop i | SClear i | SShrink i | SDestroy i => ok i
  | SReserve i n => ok i && fits i 0 && (n <? 2 ^ 61)
  | SSet i pos _ => ok i && (pos <? length (vals !!! i))%nat
  | SAt i pos => ok i && (0 <=? pos)
  end.

Fixpoint spre_run (os : list sop) vals : bool :=
  match os with
  | [] => true
  | o :: os => spre o vals && match sspec o vals with Some r => spre_run os r.1 | None => true end
  end.

(** An operation that appends characters of a string to the string itself after
    it has freed them. *)
Definition stale (o : sop) st : bool :=
  match o with
  | SAppend i j => (i =? j)%nat && match size i st with Ret n _ => frees_own i n st | _ => false end
  | SSub i j pos n =>
      (i =? j)%nat && match size i st with Ret sz _ => frees_own i (if sz - pos <? n then sz - pos else n) st | _ => false end
  | _ => false
  end.

(** A program that comes to such an operation. *)
Fixpoint stale_run (os : list sop) st : bool :=
  match os with
  | [] => false
  | o :: os => stale o st || match sexec o st with Ret _ st' => stale_run os st' | _ => false end
  end.

Lemma frees_own_nonneg i n st : n <= 0 -> frees_own i n st = false.
Proof.
  intros Hn. unfold frees_own. rewrite (proj2 (Z.ltb_ge _ _) Hn). destruct (vars st !! i) as [[]|]; try done. by destruct (grown i n st).
Qed.

(** Both forms of [append] with a string as their argument. *)
Lemma append_any_ret (Hroom : forall n h, room n h = true) st vals i j v w pos n :
  srep st [] vals -> vals !! i = Some v -> vals !! j = Some w -> Z.of_nat (length v + length w) < 2 ^ 61 ->
  Z.of_nat (S (length (vars st))) < 2 ^ 32 -> 0 <= pos -> 0 <= n ->
  if stale (SSub i j pos n) st then append_sub room i j pos n st = Ub
  else if decide (pos <= Z.of_nat (length w)) then
    exists st', append_sub room i j pos n st = Ret tt st' /\ srep st' [] (<[i := v ++ take (Z.to_nat n) (drop (Z.to_nat pos) w)]> vals) /\
      length (vars st') = length (vars st)
  else append_sub room i j pos n st = Halt 1 st.
Proof.
  intros Hs Hv Hw Hlen Hfew Hpos Hn. unfold stale. destruct (Nat.eqb_spec i j) as [<-|Hij]; [|by apply append_sub_ret].
  simplify_eq. rewrite (size_ret st [] vals i _ Hs Hv). cbn [andb]. unfold append_sub. mrun (size_ret st [] vals i _ Hs Hv).
  case_decide as Hp.
  2:{ rewrite frees_own_nonneg by (destruct (Z.ltb_spec (Z.of_nat (length v) - pos) n); lia). by rewrite (proj2 (Z.ltb_lt (Z.of_nat (length v)) pos)) by lia. }
  rewrite (proj2 (Z.ltb_ge (Z.of_nat (length v)) pos)) by lia. destruct (srep_var _ _ _ _ _ Hs Hv) as (o & Hi & _). mrun (cbegin_ret st i o Hi).
  set (k := Nat.min (Z.to_nat n) (length v - Z.to_nat pos)).
  assert ((if Z.of_nat (length v) - pos <? n then Z.of_nat (length v) - pos else n) = Z.of_nat k) as ->.
  { unfold k. destruct (Z.ltb_spec (Z.of_nat (length v) - pos) n); lia. }
  pose proof (append_self_ret Hroom st vals i o v (Z.to_nat pos) k Hs Hv Hi ltac:(unfold k; lia) ltac:(unfold k; lia) Hfew) as E.
  cbv zeta in E. rewrite Z2Nat.id in E by done.
  replace (take (Z.to_nat n) (drop (Z.to_nat pos) v)) with (take k (drop (Z.to_nat pos) v)); [exact E|].
  unfold k. rewrite <- length_drop. destruct (Nat.le_ge_cases (Z.to_nat n) (length (drop (Z.to_nat pos) v))).
  - by rewrite Nat.min_l.
  - by rewrite Nat.min_r, !take_ge.
Qed.

Lemma append_whole_ret (Hroom : forall n h, room n h = true) st vals i j v w :
  srep st [] vals -> vals !! i = Some v -> vals !! j = Some w -> Z.of_nat (length v + length w) < 2 ^ 61 ->
  Z.of_nat (S (length (vars st))) < 2 ^ 32 ->
  if stale (SAppend i j) st then append_str room i j st = Ub
  else exists st', append_str room i j st = Ret tt st' /\ srep st' [] (<[i := v ++ w]> vals) /\ length (vars st') = length (vars st).
Proof.
  intros Hs Hv Hw Hlen Hfew. unfold stale. destruct (Nat.eqb_spec i j) as [<-|Hij]; [|by apply append_str_ret].
  simplify_eq. rewrite (size_ret st [] vals i _ Hs Hv). cbn [andb]. unfold append_str.
  destruct (srep_var _ _ _ _ _ Hs Hv) as (o & Hi & _). mrun (cbegin_ret st i o Hi). mrun (size_ret st [] vals i _ Hs Hv).
  pose proof (append_self_ret Hroom st vals i o v 0 (length v) Hs Hv Hi ltac:(lia) Hlen Hfew) as E.
  rewrite drop_0, firstn_all in E. by destruct o.
Qed.

Lemma srep_length st ext vals : srep st ext vals -> length (vars st) = length vals.
Proof. intros Hs. eapply Forall2_length, Hs. Qed.

(** Takes a conjunction of tests apart. *)
Ltac tests H :=
  repeat (apply andb_prop in H as [H ?]);
  repeat match goal with
  | H : (_ <? _)%nat = true |- _ => apply Nat.ltb_lt in H
  | H : (_ <? _) = true |- _ => apply Z.ltb_lt in H
  | H : (_ <=? _) = true |- _ => apply Z.leb_le in H
  | H : negb (_ =? _)%nat = true |- _ => apply negb_true_iff, Nat.eqb_neq in H
  end.

(** The value of a variable that exists. *)
Ltac value i Hv :=
  match goal with H : (i < length ?vals)%nat |- _ => pose proof (list_lookup_lookup_total_lt vals i H) as Hv end.

Lemma sexec_ret st vals (o : sop) :
  srep st [] vals -> Z.of_nat (S (length vals)) < 2 ^ 32 -> spre o vals = true -> (forall n h, room n h = true) ->
  if stale o st then sexec o st = Ub
  else match sspec o vals with
  | Some (vals', outs) => exists st', sexec o st = Ret outs st' /\ srep st' [] vals'
  | None => sexec o st = Halt 1 st
  end.
Proof.
  intros Hs Hfew Hpre Hroom. rewrite <- (srep_length _ _ _ Hs) in Hfew.
  destruct o as [i j|i j|i j|i j pos n|i s|i n c|i c|i|i|i n|i|i pos c|i|i pos|i j]; cbn [spre] in Hpre; tests Hpre; value i Hv;
    try (value j Hw); cbn [sexec sspec];
    lazymatch goal with |- context [stale (SAppend _ _)] => idtac | |- context [stale (SSub _ _ _ _)] => idtac | _ => cbn [stale] end.
  - destruct (str_assign_ret st vals i j _ Hs ltac:(done) Hw Hfew) as (st' & E & Hs' & _). mrun E. eauto.
  - destruct (move_assign_ret st vals i j _ Hs ltac:(done) Hw Hfew) as (st' & E & Hs' & _). mrun E. eauto.
  - pose proof (append_whole_ret Hroom st vals i j _ _ Hs Hv Hw ltac:(lia) Hfew) as E. destruct (stale (SAppend i j) st); [by apply bind_ub|].
    destruct E as (st' & E & Hs' & _). mrun E. eauto.
  - pose proof (append_any_ret Hroom st vals i j _ _ pos n Hs Hv Hw ltac:(lia) Hfew ltac:(done) ltac:(done)) as E.
    destruct (stale (SSub i j pos n) st); [by apply bind_ub|]. destruct (Z.leb_spec pos (Z.of_nat (length (vals !!! j)))); [rewrite decide_True in E by done|rewrite decide_False in E by lia].
    + destruct E as (st' & E & Hs' & _). mrun E. eauto.
    + by rewrite (bind_halt _ _ _ _ _ E).
  - destruct (append_cstr_ret Hroom st vals i _ s Hs Hv ltac:(lia) Hfew) as (st' & E & Hs' & _). mrun E. eauto.
  - destruct (append_fill_ret Hroom st vals i _ n c Hs Hv ltac:(lia) Hfew) as (st' & E & Hs' & _). mrun E. eauto.
  - destruct (str_push_back_ret Hroom st vals i _ c Hs Hv ltac:(lia) Hfew) as (st' & E & Hs' & _). mrun E. eauto.
  - destruct (str_pop_back_ret Hroom st vals i _ Hs Hv Hfew) as (st' & E & Hs' & _). mrun E. eauto.
  - destruct (str_clear_ret st vals i _ Hs Hv) as (st' & E & Hs' & _). mrun E. eauto.
  - destruct (str_reserve_ret st vals i _ n Hs Hv ltac:(lia) ltac:(done) Hfew Hroom) as (st' & b & d & E & Hs' & _). mrun E. eauto.
  - destruct (shrink_to_fit_ret Hroom st vals i _ Hs Hv Hfew) as (st' & c & E & Hs' & _). mrun E. eauto.
  - destruct (set_index_ret Hroom st vals i _ pos c Hs Hv ltac:(done) Hfew) as (st' & E & Hs' & _). mrun E. eauto.
  - destruct (srep_var _ _ _ _ _ Hs Hv) as (o & Ho & _). destruct (release_ret st [] vals i o Hs Ho) as (h & E & Hs' & _).
    mrun E. eauto.
  - pose proof (str_at_ret st vals i _ pos Hs Hv ltac:(done)) as E. destruct (vals !!! i !! Z.to_nat pos); simpl; [mrun E; eauto|].
    by rewrite (bind_halt _ _ _ _ _ E).
  - mrun (compare_str_ret st vals i j _ _ Hs Hv Hw). eauto.
Qed.

Lemma sspec_length (o : sop) vals vals' outs : sspec o vals = Some (vals', outs) -> length vals' = length vals.
Proof. destruct o; simpl; try case_match; intros; simplify_option_eq; by rewrite ?length_insert. Qed.

(** C8: strings that share their buffers behave as separate values.  A program of
    operations on string variables, with lengths below 2^61 and enough memory,
    gives the results, and leaves the values, that it gives when each variable
    holds a list of characters of its own; every buffer counts the variables that
    share it and none is left without one; and it throws exactly when an index is
    out of range.  There is one exception: a program that comes to an append of a
    string, or of a part of it, to itself ([s += s]) for which the growth frees the
    only copy of the characters is undefined there ([stale_run]).  An append of a
    string to itself that does not grow, or whose buffer is shared, is like the
    others. *)
Theorem string_refines st vals os :
  srep st [] vals -> Z.of_nat (S (length vals)) < 2 ^ 32 -> spre_run os vals = true -> (forall n h, room n h = true) ->
  if stale_run os st then srun os st = Ub
  else match sspec_run os vals with
  | Some (vals', outs) => exists st', srun os st = Ret outs st' /\ srep st' [] vals'
  | None => exists st', srun os st = Halt 1 st'
  end.
Proof.
  intros Hs Hfew Hpre Hroom. revert st vals Hs Hfew Hpre. induction os as [|o os IH]; intros st vals Hs Hfew Hpre; simpl in *; [by eauto|].
  apply andb_prop in Hpre as [Hpo Hpre]. pose proof (sexec_ret st vals o Hs Hfew Hpo Hroom) as E.
  destruct (stale o st); cbn [orb]; [by apply bind_ub|].
  destruct (sspec o vals) as [[vals1 outs1]|] eqn:Eo; simpl in *.
  - destruct E as (st1 & E & Hs1). mrun E. rewrite E, <- (sspec_length _ _ _ _ Eo) in *. specialize (IH st1 vals1 Hs1 Hfew Hpre).
    destruct (stale_run os st1); [by apply bind_ub|]. destruct (sspec_run os vals1) as [[vals2 outs2]|]; simpl.
    + destruct IH as (st2 & E2 & Hs2). mrun E2. eauto.
    + destruct IH as (st2 & E2). exists st2. by rewrite (bind_halt _ _ _ _ _ E2).
  - rewrite E. exists st. by rewrite (bind_halt _ _ _ _ _ E).
Qed.

(** When every variable is null, no buffer is left. *)
Lemma no_leak st vals : srep st [] vals -> (forall o, o ∈ vars st -> o = None) -> heap st = ∅.
Proof.
  intros Hs Hnone. apply map_eq. intros b. rewrite lookup_empty. destruct (heap st !! b) as [d|] eqn:Eb; [|done]. exfalso.
  destruct (srep_heap _ _ _ Hs b d Eb) as (Hr & Hp & _). rewrite app_nil_r in Hr. rewrite Hr in Hp.
  destruct (count_exists _ _ Hp) as (i & o & Hi & Ho). apply list_elem_of_lookup_2, Hnone in Hi. subst o. done.
Qed.
End StringCorrect.

(** ** Concrete runs *)

Definition unlimited (_ : Z) (_ : gmap Z sdata) : bool := true.

(** [n] variables without a buffer. *)
Definition fresh_vars (n : nat) : sstate := {| heap := ∅; snext := 0; vars := replicate n None |}.

Lemma fresh_vars_srep n : Z.of_nat n < 2 ^ 32 -> srep (fresh_vars n) [] (replicate n []).
Proof.
  intros Hn. split; simpl; rewrite ?app_nil_r, ?length_replicate; try done.
  - apply Forall2_same_length_lookup. split; [by rewrite !length_replicate|]. intros i o v [-> _]%lookup_replicate [-> _]%lookup_replicate. done.
  - intros b Hb. by apply elem_of_nil in Hb.
Qed.

(** The first two appends of a string to itself are defined: the buffer is shared,
    then it has room. *)
Lemma string_refines_witness :
  exists st', srun unlimited [SLit 0 (str "mail"); SAssign 1 0; SPush 1 x2f; SAssign 2 1; SSub 2 0 1 9; SSet 0 0 x4d; SAt 1 0;
      SCompare 0 1; SDestroy 1; SMove 1 2; SAssign 2 0; SAppend 0 0; SSub 0 0 0 1]
      (fresh_vars 3) = Ret [109; -32] st' /\
    srep st' [] [str "MailMailM"; str "mail/ail"; str "Mail"].
Proof.
  apply (string_refines unlimited (fresh_vars 3) [[]; []; []]
    [SLit 0 (str "mail"); SAssign 1 0; SPush 1 x2f; SAssign 2 1; SSub 2 0 1 9; SSet 0 0 x4d; SAt 1 0; SCompare 0 1; SDestroy 1; SMove 1 2;
     SAssign 2 0; SAppend 0 0; SSub 0 0 0 1]).
  - by apply (fresh_vars_srep 3).
  - reflexivity.
  - vm_compute. reflexivity.
  - reflexivity.
Defined.

(** A string appended to itself: the growth frees the characters it is about to
    copy. *)
Lemma self_append_undefined :
  stale_run unlimited [SLit 0 (str "twenty characters :)"); SAppend 0 0] (fresh_vars 1) = true /\
  (_ ← append_cstr unlimited 0 (str "twenty characters :)"); append_str unlimited 0 0) (fresh_vars 1) = Ub.
Proof. vm_compute. done. Qed.

(** [c_str()] of an empty string is a null pointer. *)
Lemma c_str_null : cbegin 0 (fresh_vars 1) = Ret Null (fresh_vars 1).
Proof. done. Qed.

(** [compare] from a position compares the characters at the start. *)
Lemma compare_ignores_pos :
  match (_ ← append_cstr unlimited 0 (str "ab"); compare 0 1 1 (Chars (str "b")) 1) (fresh_vars 1) with Ret r _ => r | _ => 0 end = -1.
Proof. vm_compute. reflexivity. Qed.
