(* ===== verification/CxxRt.v ===== *)
(** * [static_vector] and the C++ run-time (cxx/vector.hh, cxx/cxxrt.cc)

    A [static_vector<T, N>] is an array of [N] cells inside the object, of which
    the first [size_] hold elements.  The run-time keeps the destructors of the
    static objects in one. *)

From S2P Require Import Prelude CxxBase.

Section StaticVector.
Context {A : Type} (N : nat).

Record svec := { data_ : list (option A); size_ : Z }.

Definition svec_new : svec := {| data_ := replicate N None; size_ := 0 |}.

Definition elt (i : Z) : M svec A := fun v =>
  match (if 0 <=? i then data_ v !! Z.to_nat i else None) with Some (Some x) => Ret x v | _ => Ub end.

Definition set_cell (i : Z) (x : option A) : M svec unit := fun v =>
  if (0 <=? i) && (i <? Z.of_nat (length (data_ v))) then Ret tt {| data_ := <[Z.to_nat i := x]> (data_ v); size_ := size_ v |} else Ub.

(** An element must be there to be assigned to or destroyed. *)
Definition assign (i : Z) (x : A) : M svec unit := _ ← elt i; set_cell i (Some x).
Definition destroy (i : Z) : M svec unit := _ ← elt i; set_cell i None.
Definition set_size (n : Z) : M svec unit := modify (fun v => {| data_ := data_ v; size_ := n |}).

Definition full : M svec bool := gets (fun v => size_ v =? Z.of_nat N).
Definition empty : M svec bool := gets (fun v => size_ v =? 0).
Definition size : M svec Z := gets size_.

Definition at_ (n : Z) : M svec A := sz ← size; if sz <=? n then throw else elt n.
Definition front : M svec A := elt 0.
Definition back : M svec A := sz ← size; elt (sz - 1).

Definition emplace_back (x : A) : M svec unit :=
  f ← full;
  if f : bool then throw
  else sz ← size; _ ← set_cell sz (Some x); set_size (u64 (sz + 1)).

Definition push_back (x : A) : M svec unit := emplace_back x.

Definition pop_back : M svec unit :=
  e ← empty;
  if negb e then sz ← size; _ ← destroy (sz - 1); set_size (u64 (sz - 1)) else mret tt.

(** [emplace]: iterators are indices *)
Definition emplace (position : Z) (x : A) : M svec Z :=
  it ← size;
  if it =? position then _ ← emplace_back x; mret it
  else
    f ← full;
    if f : bool then throw
    else
      y ← elt (it - 1);
      _ ← set_cell it (Some y);
      _ ← set_size (u64 (it + 1));
      it ← loop (S (Z.to_nat it)) (fun it =>
             if position <? it then y ← elt (it - 1); _ ← assign it y; mret (inl (it - 1)) else mret (inr it)) (it - 1);
      _ ← assign it x;
      mret it.

Definition insert_at (position : Z) (x : A) : M svec Z := emplace position x.

Definition erase (pos : Z) : M svec Z :=
  sz ← size;
  _ ← loop (S (Z.to_nat sz)) (fun it =>
        if it <? sz - 1 then y ← elt (it + 1); _ ← assign it y; mret (inl (it + 1)) else mret (inr tt)) pos;
  _ ← destroy (sz - 1);
  _ ← set_size (u64 (sz - 1));
  mret pos.

Definition clear : M svec unit :=
  sz ← size;
  _ ← loop (S (Z.to_nat sz)) (fun i => if i <? sz then _ ← destroy i; mret (inl (u64 (i + 1))) else mret (inr tt)) 0;
  set_size 0.
End StaticVector.
Arguments svec : clear implicits.

(** ** The elements *)

Section StaticCorrect.
Context {A : Type} (N : nat).
Implicit Types (v : svec A) (l a c : list A) (x y : A).

Definition vec_of l : svec A := {| data_ := block_of l (N - length l); size_ := Z.of_nat (length l) |}.

Lemma sv_elt_ret v l k i x : data_ v = block_of l k -> l !! i = Some x -> elt (Z.of_nat i) v = Ret x v.
Proof. intros Hd Hi. unfold elt. rewrite Hd, (proj2 (Z.leb_le _ _)), Nat2Z.id, (block_of_lookup l k i x Hi) by lia. done. Qed.

Lemma sv_set_cell_ret v i o :
  (i < length (data_ v))%nat -> set_cell (Z.of_nat i) o v = Ret tt {| data_ := <[i := o]> (data_ v); size_ := size_ v |}.
Proof. intros Hi. unfold set_cell. rewrite (proj2 (Z.leb_le _ _)), (proj2 (Z.ltb_lt _ _)), Nat2Z.id by lia. done. Qed.

Lemma emplace_back_ret l x :
  (length l <= N)%nat -> Z.of_nat N < 2 ^ 64 ->
  emplace_back N x (vec_of l) = if decide (length l = N) then Halt 1 (vec_of l) else Ret tt (vec_of (l ++ [x])).
Proof.
  intros Hl HN. unfold emplace_back, full, size, set_size. munfold. change (size_ (vec_of l)) with (Z.of_nat (length l)). case_decide as E.
  { by rewrite E, Z.eqb_refl. }
  rewrite (proj2 (Z.eqb_neq _ _)) by lia. munfold. change (size_ (vec_of l)) with (Z.of_nat (length l)). rewrite sv_set_cell_ret by (simpl; rewrite block_of_length; lia).
  cbn [data_ size_ vec_of]. unfold vec_of. f_equal. rewrite length_app. simpl.
  destruct (N - length l)%nat as [|k] eqn:Ek; [lia|]. rewrite block_of_snoc. f_equal.
  - f_equal. lia.
  - rewrite uwrap_id by (unfold_int; lia). lia.
Qed.

Lemma sv_assign_ret v l k i x y :
  data_ v = block_of l k -> l !! i = Some y ->
  assign (Z.of_nat i) x v = Ret tt {| data_ := block_of (<[i := x]> l) k; size_ := size_ v |}.
Proof.
  intros Hd Hi. unfold assign. mrun (sv_elt_ret v l k i y Hd Hi). pose proof (lookup_lt_Some _ _ _ Hi).
  rewrite sv_set_cell_ret by (rewrite Hd, block_of_length; lia). rewrite Hd. do 2 f_equal. unfold block_of.
  by rewrite insert_app_l, list_fmap_insert by (rewrite length_fmap; lia).
Qed.

Lemma destroy_last_ret v l x k :
  data_ v = block_of (l ++ [x]) k -> destroy (Z.of_nat (length l)) v = Ret tt {| data_ := block_of l (S k); size_ := size_ v |}.
Proof.
  intros Hd. unfold destroy. mrun (sv_elt_ret v (l ++ [x]) k (length l) x Hd ltac:(by rewrite list_lookup_middle)).
  rewrite sv_set_cell_ret by (rewrite Hd, block_of_length, length_app; simpl; lia). by rewrite Hd, block_of_unsnoc.
Qed.

Lemma sv_pop_back_ret l : (length l <= N)%nat -> Z.of_nat N < 2 ^ 64 -> pop_back (vec_of l) = Ret tt (vec_of (removelast l)).
Proof.
  intros Hl HN. unfold pop_back, empty, size, set_size. munfold. change (size_ (vec_of l)) with (Z.of_nat (length l)).
  destruct l as [|x l _] using rev_ind; [done|]. rewrite removelast_last. 
  assert (length (l ++ [x]) = length l + 1)%nat as Hll by (rewrite length_app; simpl; lia).
  rewrite (proj2 (Z.eqb_neq _ _)) by lia. cbn [negb]. change (size_ (vec_of (l ++ [x]))) with (Z.of_nat (length (l ++ [x]))). rewrite Hll in *.
  replace (Z.of_nat (length l + 1) - 1) with (Z.of_nat (length l)) by lia.
  rewrite (destroy_last_ret _ l x (N - (length l + 1))) by (simpl; by rewrite length_app). cbn [data_].
  unfold vec_of. do 2 f_equal; [f_equal; lia|]. apply uwrap_id. unfold_int. lia.
Qed.

(** The loop of [emplace]: every element behind [a] moves up by one place. *)
Lemma shift_up_ret a c1 q c2 k n B :
  (forall it v, B it v = (if Z.of_nat (length a) <? it then y ← elt (it - 1); _ ← assign it y; mret (inl (it - 1)) else mret (inr it)) v) ->
  forall fuel, (length c1 < fuel)%nat ->
  exists z, loop fuel B (Z.of_nat (length a + length c1)) {| data_ := block_of (a ++ c1 ++ q :: q :: c2) k; size_ := n |}
    = Ret (Z.of_nat (length a)) {| data_ := block_of (a ++ z :: c1 ++ q :: c2) k; size_ := n |}.
Proof.
  intros HB. revert q c2. induction c1 as [|p c1 IH] using rev_ind; intros q c2 fuel Hf; (destruct fuel as [|fuel]; [lia|]);
    rewrite loop_S, HB.
  - simpl. rewrite Nat.add_0_r, Z.ltb_irrefl. by exists q.
  - rewrite length_app in *. cbn [length] in *. rewrite (proj2 (Z.ltb_lt _ _)) by lia.
    set (v := {| data_ := block_of (a ++ (c1 ++ [p]) ++ q :: q :: c2) k; size_ := n |}).
    replace (Z.of_nat (length a + (length c1 + 1)) - 1) with (Z.of_nat (length a + length c1)) by lia.
    munfold. rewrite (sv_elt_ret v (a ++ (c1 ++ [p]) ++ q :: q :: c2) k (length a + length c1) p eq_refl).
    2:{ rewrite <- app_assoc, app_assoc. simpl. apply list_lookup_middle. by rewrite length_app. }
    rewrite (sv_assign_ret v (a ++ (c1 ++ [p]) ++ q :: q :: c2) k (length a + (length c1 + 1)) p q eq_refl).
    2:{ rewrite app_assoc. apply list_lookup_middle. rewrite !length_app. simpl. lia. }
    destruct (IH p (q :: c2) fuel) as (z & E); [lia|]. exists z.
    assert (a ++ z :: (c1 ++ [p]) ++ q :: c2 = a ++ z :: c1 ++ p :: q :: c2) as -> by by rewrite <- app_assoc.
    rewrite <- E. do 3 f_equal.
    rewrite insert_app_r_alt by lia. f_equal. replace (length a + (length c1 + 1) - length a)%nat with (length c1 + 1)%nat by lia.
    rewrite <- app_assoc. simpl. rewrite insert_app_r. simpl. done.
Qed.

(** Insertion before an element, or at the end. *)
Lemma emplace_ret a c x :
  (length (a ++ c) <= N)%nat -> Z.of_nat N < 2 ^ 63 ->
  emplace N (Z.of_nat (length a)) x (vec_of (a ++ c)) =
    if decide (length (a ++ c) = N) then Halt 1 (vec_of (a ++ c)) else Ret (Z.of_nat (length a)) (vec_of (a ++ x :: c)).
Proof.
  intros Hl HN. unfold emplace.
  mrun (eq_refl : size (vec_of (a ++ c)) = Ret (Z.of_nat (length (a ++ c))) (vec_of (a ++ c))).
  destruct (Z.eqb_spec (Z.of_nat (length (a ++ c))) (Z.of_nat (length a))) as [Ec|Ec].
  { assert (c = []) as -> by (rewrite length_app in Ec; destruct c; [done|simpl in Ec; lia]). rewrite app_nil_r in *.
    unfold mbind at 1, M_bind at 1. rewrite emplace_back_ret by (unfold_int; lia). case_decide; done. }
  mrun (eq_refl : full N (vec_of (a ++ c)) = Ret (Z.of_nat (length (a ++ c)) =? Z.of_nat N) (vec_of (a ++ c))).
  case_decide as E; [by rewrite E, Z.eqb_refl|]. rewrite (proj2 (Z.eqb_neq _ (Z.of_nat N))) by lia.
  destruct c as [|y c _] using rev_ind; [rewrite app_nil_r in Ec; lia|]. clear Ec.
  set (l := a ++ c ++ [y]). assert (length l = length a + length c + 1)%nat as Hll by (unfold l; rewrite !length_app; simpl; lia).
  fold l in Hl, E. replace (Z.of_nat (length l) - 1) with (Z.of_nat (length a + length c)) by lia.
  mrun (sv_elt_ret (vec_of l) l _ (length a + length c) y eq_refl ltac:(unfold l; rewrite app_assoc; apply list_lookup_middle; by rewrite length_app)).
  destruct (N - length l)%nat as [|k] eqn:Ek; [lia|].
  set (v1 := {| data_ := block_of (l ++ [y]) k; size_ := Z.of_nat (length l) |}).
  assert (set_cell (Z.of_nat (length l)) (Some y) (vec_of l) = Ret tt v1) as S1.
  { rewrite sv_set_cell_ret by (simpl; rewrite block_of_length; lia). unfold v1, vec_of. simpl. by rewrite Ek, block_of_snoc. }
  mrun S1. rewrite uwrap_id by (unfold_int; lia).
  set (v2 := {| data_ := block_of (l ++ [y]) k; size_ := Z.of_nat (length l) + 1 |}).
  mrun (eq_refl : set_size (Z.of_nat (length l) + 1) v1 = Ret tt v2). loop_body B.
  destruct (shift_up_ret a c y [] k (Z.of_nat (length l) + 1) B ltac:(done) (S (Z.to_nat (Z.of_nat (length l)))) ltac:(lia)) as (z & EL).
  assert (a ++ c ++ [y; y] = l ++ [y]) as Ey by (unfold l; by rewrite <- !app_assoc). rewrite Ey in EL. fold v2 in EL. mrun EL.
  set (v3 := {| data_ := block_of (a ++ z :: c ++ [y]) k; size_ := _ |}).
  mrun (sv_assign_ret v3 (a ++ z :: c ++ [y]) k (length a) x z eq_refl ltac:(by rewrite list_lookup_middle)). munfold. f_equal. unfold vec_of. cbn [size_]. rewrite insert_app_r_alt, Nat.sub_diag by lia. simpl.
  assert (length (a ++ x :: c ++ [y]) = S (length l)) as Hlx by (rewrite !length_app; simpl; rewrite length_app; simpl; lia).
  rewrite Hlx. f_equal; [|lia]. f_equal. lia.
Qed.

(** The loop of [erase]: every element behind [a] moves down by one place. *)
Lemma shift_down_ret a z c k n B :
  (forall it v, B it v = (if it <? n - 1 then y ← elt (it + 1); _ ← assign it y; mret (inl (it + 1)) else mret (inr tt)) v) ->
  n = Z.of_nat (length (a ++ z :: c)) ->
  forall fuel, (length c < fuel)%nat ->
  exists z', loop fuel B (Z.of_nat (length a)) {| data_ := block_of (a ++ z :: c) k; size_ := n |}
    = Ret tt {| data_ := block_of ((a ++ c) ++ [z']) k; size_ := n |}.
Proof.
  intros HB. revert a z. induction c as [|p c IH]; intros a z Hn fuel Hf; (destruct fuel as [|fuel]; [simpl in Hf; lia|]);
    rewrite loop_S, HB; rewrite length_app in Hn; cbn [length] in *.
  - rewrite (proj2 (Z.ltb_ge _ _)) by lia. exists z. by rewrite app_nil_r.
  - rewrite (proj2 (Z.ltb_lt _ _)) by lia. set (v := {| data_ := block_of (a ++ z :: p :: c) k; size_ := n |}).
    replace (Z.of_nat (length a) + 1) with (Z.of_nat (length a + 1)) by lia. munfold.
    rewrite (sv_elt_ret v (a ++ z :: p :: c) k (length a + 1) p eq_refl) by (rewrite lookup_app_r by lia; by rewrite Nat.add_comm, Nat.add_sub).
    rewrite (sv_assign_ret v (a ++ z :: p :: c) k (length a) p z eq_refl) by by rewrite list_lookup_middle.
    destruct (IH (a ++ [p]) p) with (fuel := fuel) as (z' & E); [rewrite !length_app; simpl; lia|lia|]. exists z'.
    assert (a ++ p :: c = (a ++ [p]) ++ c) as -> by by rewrite <- app_assoc. rewrite <- E, length_app. cbn [length]. do 3 f_equal.
    rewrite insert_app_r_alt, Nat.sub_diag, <- app_assoc by lia. done.
Qed.

Lemma sv_erase_ret a y c :
  (length (a ++ y :: c) <= N)%nat -> Z.of_nat N < 2 ^ 64 ->
  erase (Z.of_nat (length a)) (vec_of (a ++ y :: c)) = Ret (Z.of_nat (length a)) (vec_of (a ++ c)).
Proof.
  intros Hl HN. unfold erase. set (l := a ++ y :: c) in *. assert (length l = length (a ++ c) + 1)%nat as Hll by (unfold l; rewrite !length_app; simpl; lia).
  mrun (eq_refl : size (vec_of l) = Ret (Z.of_nat (length l)) (vec_of l)). loop_body B.
  destruct (shift_down_ret a y c (N - length l) (Z.of_nat (length l)) B ltac:(done) eq_refl (S (Z.to_nat (Z.of_nat (length l)))))
    as (z & EL); [unfold l; rewrite length_app; simpl; lia|]. mrun EL.
  replace (Z.of_nat (length l) - 1) with (Z.of_nat (length (a ++ c))) by lia.
  erewrite bind_ret; [|by apply (destroy_last_ret _ (a ++ c) z (N - length l))]. cbn beta. unfold set_size. munfold. f_equal.
  unfold vec_of. simpl. f_equal; [f_equal; lia|]. apply uwrap_id. unfold_int. lia.
Qed.
Lemma sv_clear_ret l : (length l <= N)%nat -> Z.of_nat N < 2 ^ 64 -> clear (vec_of l) = Ret tt (vec_of []).
Proof.
  intros Hl HN. unfold clear. mrun (eq_refl : size (vec_of l) = Ret (Z.of_nat (length l)) (vec_of l)). loop_body B.
  enough (forall fuel j l', (length l' < fuel)%nat -> (j + length l' = length l)%nat ->
    loop fuel B (Z.of_nat j) {| data_ := replicate j None ++ block_of l' (N - length l); size_ := Z.of_nat (length l) |}
    = Ret tt {| data_ := block_of [] N; size_ := Z.of_nat (length l) |}) as G.
  { assert (loop (S (Z.to_nat (Z.of_nat (length l)))) B 0 (vec_of l) = Ret tt {| data_ := block_of [] N; size_ := Z.of_nat (length l) |}) as E
      by (apply (G _ 0%nat l); lia).
    mrun E. unfold set_size, vec_of. simpl. by rewrite Nat.sub_0_r. }
  induction fuel as [|fuel IH]; intros j l' Hf Hj; [lia|]. rewrite loop_S. unfold B at 1.
  destruct l' as [|x l']; cbn [length] in *.
  { rewrite (proj2 (Z.ltb_ge _ _)) by lia. unfold block_of. simpl. rewrite <- replicate_add. munfold. do 3 f_equal. lia. }
  rewrite (proj2 (Z.ltb_lt _ _)) by lia. munfold. unfold destroy, elt. munfold. cbn [data_].
  assert ((replicate j None ++ block_of (x :: l') (N - length l)) !! j = Some (Some x)) as Hx.
  { apply list_lookup_middle. by rewrite length_replicate. }
  rewrite (proj2 (Z.leb_le _ _)), Nat2Z.id, Hx by lia.
  rewrite sv_set_cell_ret by (simpl; rewrite length_app, length_replicate, block_of_length; simpl; lia).
  rewrite uwrap_id by (unfold_int; lia). replace (Z.of_nat j + 1) with (Z.of_nat (S j)) by lia. cbn [data_ size_].
  rewrite <- (IH (S j) l') by lia. do 3 f_equal. rewrite insert_app_r_alt, length_replicate, Nat.sub_diag by (rewrite length_replicate; lia).
  rewrite replicate_S_end, <- app_assoc. done.
Qed.

Lemma sv_at_ret l n :
  0 <= n -> at_ n (vec_of l) = match l !! Z.to_nat n with Some x => Ret x (vec_of l) | None => Halt 1 (vec_of l) end.
Proof.
  intros Hn. unfold at_. mrun (eq_refl : size (vec_of l) = Ret (Z.of_nat (length l)) (vec_of l)).
  destruct (Z.leb_spec (Z.of_nat (length l)) n); [by rewrite lookup_ge_None_2 by lia|].
  destruct (lookup_lt_is_Some_2 l (Z.to_nat n)) as [x Hx]; [lia|]. rewrite Hx, <- (Z2Nat.id n) by lia. by apply (sv_elt_ret _ l (N - length l)).
Qed.

(** Programs of operations, on the vector and on lists; [None] is an exception. *)
Inductive vop := VPush (x : A) | VPop | VInsert (i : nat) (x : A) | VErase (i : nat) | VClear | VAt (n : Z).

Definition vexec (o : vop) : M (svec A) (list A) :=
  match o with
  | VPush x => _ ← push_back N x; mret []
  | VPop => _ ← pop_back; mret []
  | VInsert i x => _ ← insert_at N (Z.of_nat i) x; mret []
  | VErase i => _ ← erase (Z.of_nat i); mret []
  | VClear => _ ← clear; mret []
  | VAt n => x ← at_ n; mret [x]
  end.

Fixpoint vrun (os : list vop) : M (svec A) (list A) :=
  match os with [] => mret [] | o :: os => r ← vexec o; r' ← vrun os; mret (r ++ r') end.

Definition vspec (o : vop) l : option (list A * list A) :=
  let room := (length l <? N)%nat in
  match o with
  | VPush x => if room then Some (l ++ [x], []) else None
  | VPop => Some (removelast l, [])
  | VInsert i x => if room then Some (take i l ++ x :: drop i l, []) else None
  | VErase i => Some (take i l ++ drop (S i) l, [])
  | VClear => Some ([], [])
  | VAt n => x ← l !! Z.to_nat n; Some (l, [x])
  end.

Fixpoint vspec_run (os : list vop) l : option (list A * list A) :=
  match os with
  | [] => Some (l, [])
  | o :: os => r ← vspec o l; r' ← vspec_run os r.1; Some (r'.1, r.2 ++ r'.2)
  end.

(** Iterators are inside the vector. *)
Fixpoint vpre_run (os : list vop) l : bool :=
  match os with
  | [] => true
  | o :: os =>
      match o with VInsert i _ => (i <=? length l)%nat | VErase i => (i <? length l)%nat | VAt n => 0 <=? n | _ => true end &&
      match vspec o l with Some r => vpre_run os r.1 | None => true end
  end.

Lemma sv_vexec_ret l o os :
  (length l <= N)%nat -> Z.of_nat N < 2 ^ 63 -> vpre_run (o :: os) l = true ->
  match vspec o l with
  | Some (l', outs) => vexec o (vec_of l) = Ret outs (vec_of l') /\ (length l' <= N)%nat /\ vpre_run os l' = true
  | None => vexec o (vec_of l) = Halt 1 (vec_of l)
  end.
Proof.
  intros Hl HN Hpre. assert (Z.of_nat N < 2 ^ 64) as HN' by (unfold_int; lia).
  destruct o as [x| |i x|i| |n]; simpl in Hpre; (try apply andb_prop in Hpre as [Hi Hpre]); cbn [vspec vexec].
  - pose proof (emplace_back_ret l x Hl HN') as E. fold (push_back N x) in E. case_decide as Ed.
    + rewrite (proj2 (Nat.ltb_ge _ _)) by lia. by rewrite (bind_halt _ _ _ _ _ E).
    + rewrite (proj2 (Nat.ltb_lt _ _)) in * by lia. mrun E. split_and!; [done|rewrite length_app; simpl; lia|done].
  - mrun (sv_pop_back_ret l Hl HN'). split_and!; [done| |done]. destruct l as [|x l _] using rev_ind; [done|].
    rewrite removelast_last. rewrite length_app in Hl. simpl in Hl. lia.
  - apply Nat.leb_le in Hi. pose proof (emplace_ret (take i l) (drop i l) x) as E.
    rewrite take_drop, length_take, Nat.min_l in E by lia. specialize (E Hl HN). fold (insert_at N (Z.of_nat i) x) in E. case_decide as Ed.
    + rewrite (proj2 (Nat.ltb_ge _ _)) by lia. by rewrite (bind_halt _ _ _ _ _ E).
    + rewrite (proj2 (Nat.ltb_lt _ _)) in * by lia. mrun E. split_and!; [done| |done].
      rewrite length_app, length_take. simpl. rewrite length_drop. lia.
  - apply Nat.ltb_lt in Hi. destruct (lookup_lt_is_Some_2 l i Hi) as [y Hy]. pose proof (sv_erase_ret (take i l) y (drop (S i) l)) as E.
    rewrite (take_drop_middle l i y Hy), length_take, Nat.min_l in E by lia. mrun (E Hl HN').
    split_and!; [done|rewrite length_app, length_take, length_drop; lia|done].
  - mrun (sv_clear_ret l Hl HN'). split_and!; [done|simpl; lia|done].
  - apply Z.leb_le in Hi. pose proof (sv_at_ret l n Hi) as E. destruct (l !! Z.to_nat n); simpl in *; [by mrun E|].
    by rewrite (bind_halt _ _ _ _ _ E).
Qed.

(** C36: [static_vector<T, N>] is a list of at most [N] elements.  Every program
    of operations gives the results and the elements that it gives on lists, never
    holds more than [N] elements, and throws exactly when it would, or when an
    [at] is out of range. *)
Theorem static_vector_refines l os :
  (length l <= N)%nat -> Z.of_nat N < 2 ^ 63 -> vpre_run os l = true ->
  match vspec_run os l with
  | Some (l', outs) => vrun os (vec_of l) = Ret outs (vec_of l') /\ (length l' <= N)%nat
  | None => exists v, vrun os (vec_of l) = Halt 1 v
  end.
Proof.
  intros Hl HN. revert l Hl. induction os as [|o os IH]; intros l Hl Hpre; [done|].
  pose proof (sv_vexec_ret l o os Hl HN Hpre) as E. cbn [vrun vspec_run]. destruct (vspec o l) as [[l1 outs1]|]; simpl.
  - destruct E as (E & Hl1 & Hpre1). mrun E. specialize (IH l1 Hl1 Hpre1). destruct (vspec_run os l1) as [[l2 outs2]|]; simpl.
    + destruct IH as [E2 Hl2]. by mrun E2.
    + destruct IH as [v E2]. exists v. by rewrite (bind_halt _ _ _ _ _ E2).
  - exists (vec_of l). by rewrite (bind_halt _ _ _ _ _ E).
Qed.
End StaticCorrect.

Lemma static_vector_refines_witness :
  vrun 4 [VPush 1; VPush 2; VInsert 1 9; VErase 0; VAt 1; VPop] (vec_of 4 []) = Ret [2] (vec_of 4 [9]) /\ (length [9] <= 4)%nat.
Proof.
  apply (static_vector_refines 4 [] [VPush 1; VPush 2; VInsert 1 9; VErase 0; VAt 1; VPop]); [simpl; lia|reflexivity|reflexivity].
Defined.

(** ** Destructors of static objects *)

(** A registered function with its argument. *)
Record atexit_func := AtExitFunc { func : Z; arg : Z }.

Section AtExit.
(** What the functions act on. *)
Context {W : Type}.

Definition rt : Type := svec atexit_func * W.

Definition atexit_funcs {X} (m : M (svec atexit_func) X) : M rt X := zoom fst (fun v r => (v, r.2)) m.

Definition __cxa_atexit (f a : Z) : M rt Z := _ ← atexit_funcs (push_back 16 (AtExitFunc f a)); mret 0.

(** [call] calls the function; it may register others. *)
Definition __cpprt_fini (call : atexit_func -> M rt unit) : M rt unit :=
  it ← atexit_funcs size;
  loop (S (Z.to_nat it)) (fun it =>
    if it =? 0 then mret (inr tt)
    else fa ← atexit_funcs (elt (it - 1)); _ ← call fa; mret (inl (it - 1))) it.

Fixpoint register (fs : list atexit_func) : M rt unit :=
  match fs with [] => mret tt | fa :: fs => _ ← __cxa_atexit (func fa) (arg fa); register fs end.

(** Calls one function after the other. *)
Fixpoint call_all (effect : atexit_func -> M W unit) (fs : list atexit_func) : M W unit :=
  match fs with [] => mret tt | fa :: fs => _ ← effect fa; call_all effect fs end.

Lemma register_ret fs l w :
  (length l <= 16)%nat ->
  register fs (vec_of 16 l, w) =
    if decide (length (l ++ fs) <= 16)%nat then Ret tt (vec_of 16 (l ++ fs), w) else Halt 1 (vec_of 16 (l ++ take (16 - length l) fs), w).
Proof.
  revert l. induction fs as [|[f a] fs IH]; intros l Hl; cbn [register].
  { rewrite app_nil_r, decide_True by done. done. }
  unfold __cxa_atexit at 1. munfold. unfold atexit_funcs, zoom. cbn [fst snd func arg].
  pose proof (emplace_back_ret 16 l (AtExitFunc f a) Hl ltac:(done)) as E. fold (push_back 16 (AtExitFunc f a)) in E. rewrite E. clear E.
  rewrite length_app. cbn [length]. case_decide as Hd.
  - rewrite decide_False by lia. rewrite Hd, Nat.sub_diag. simpl. by rewrite app_nil_r.
  - rewrite IH by (rewrite length_app; simpl; lia). rewrite <- !app_assoc, !length_app. cbn [app length].
    destruct (16 - length l)%nat as [|k] eqn:Ek; [lia|]. replace (16 - (length l + 1))%nat with k by lia.
    repeat case_decide; try lia; done.
Qed.

Lemma fini_ret effect fs w :
  (length fs <= 16)%nat ->
  __cpprt_fini (fun fa => zoom snd (fun w r => (r.1, w)) (effect fa)) (vec_of 16 fs, w)
  = zoom snd (fun w r => (r.1, w)) (call_all effect (reverse fs)) (vec_of 16 fs, w).
Proof.
  intros Hl. unfold __cpprt_fini. mrun (eq_refl : atexit_funcs size (vec_of 16 fs, w) = Ret (Z.of_nat (length fs)) (vec_of 16 fs, w)).
  loop_body B.
  enough (forall l r w fuel, fs = l ++ r -> (length l < fuel)%nat ->
    loop fuel B (Z.of_nat (length l)) (vec_of 16 fs, w) = zoom snd (fun w r => (r.1, w)) (call_all effect (reverse l)) (vec_of 16 fs, w)) as G.
  { apply (G fs []); [by rewrite app_nil_r|lia]. }
  induction l as [|fa l IH] using rev_ind; intros r w' fuel Hfs Hf; (destruct fuel as [|fuel]; [lia|]); rewrite loop_S; unfold B at 1.
  { done. }
  rewrite length_app in *. cbn [length] in *. rewrite (proj2 (Z.eqb_neq _ _)) by lia.
  replace (Z.of_nat (length l + 1) - 1) with (Z.of_nat (length l)) by lia.
  assert (atexit_funcs (elt (Z.of_nat (length l))) (vec_of 16 fs, w') = Ret fa (vec_of 16 fs, w')) as Ee.
  { unfold atexit_funcs, zoom. cbn [fst snd]. rewrite (sv_elt_ret (vec_of 16 fs) fs (16 - length fs) (length l) fa eq_refl); [done|].
    rewrite Hfs, <- app_assoc. by apply list_lookup_middle. }
  munfold. rewrite Ee, reverse_snoc. cbn [call_all]. unfold zoom. cbn [fst snd]. unfold mbind, M_bind.
  destruct (effect fa w') as [[] w''| | |]; [|done..]. cbn [fst snd].
  rewrite (IH (fa :: r) w'' fuel); [done|rewrite Hfs, <- app_assoc; done|lia].
Qed.

(** Static objects are destroyed in the reverse order of their
    construction: the functions registered with [__cxa_atexit] are called once
    each, the last one first.  There is room for 16 of them; one more throws. *)
Theorem atexit_reverse effect fs w :
  (_ ← register fs; __cpprt_fini (fun fa => zoom snd (fun w r => (r.1, w)) (effect fa))) (svec_new 16, w) =
    if decide (length fs <= 16)%nat
    then zoom snd (fun w r => (r.1, w)) (call_all effect (reverse fs)) (vec_of 16 fs, w)
    else Halt 1 (vec_of 16 (take 16 fs), w).
Proof.
  pose proof (register_ret fs [] w ltac:(simpl; lia)) as E. change (vec_of 16 []) with (@svec_new atexit_func 16) in E.
  simpl app in E. case_decide as Hd.
  - mrun E. by apply fini_ret.
  - by rewrite (bind_halt _ _ _ _ _ E).
Qed.
End AtExit.

(** ** Initialisation of static objects

    Threads that come to the declaration of a static object, one step at a time.
    The lock is word 1 of the guard and its first byte tells that the object is
    there. *)

Inductive gpc :=
  | Out        (** before [__cxa_guard_acquire] *)
  | Spinning   (** in [while (__sync_lock_test_and_set(l, 1) != 0)] *)
  | Locked     (** before [if] *)
  | Unlocking  (** before [*l = 0; return 0] *)
  | Running    (** [__cxa_guard_acquire] returned 1: the constructor runs *)
  | Releasing  (** in [__cxa_guard_release], before [__sync_lock_release(l)] *)
  | Past.      (** behind the declaration *)

#[export] Instance gpc_eq_dec : EqDecision gpc.
Proof. solve_decision. Defined.

Record guard := { gx : Z; gl : Z; gpcs : list gpc; built : nat }.

(** Thread [i] makes a step; a constructor that throws calls [__cxa_guard_abort]. *)
Inductive gstep : guard -> guard -> Prop :=
  | g_enter x l ts n i : ts !! i = Some Out ->
      gstep {| gx := x; gl := l; gpcs := ts; built := n |} {| gx := x; gl := l; gpcs := <[i := Spinning]> ts; built := n |}
  | g_spin x l ts n i : ts !! i = Some Spinning -> l <> 0 ->
      gstep {| gx := x; gl := l; gpcs := ts; built := n |} {| gx := x; gl := 1; gpcs := ts; built := n |}
  | g_lock x ts n i : ts !! i = Some Spinning ->
      gstep {| gx := x; gl := 0; gpcs := ts; built := n |} {| gx := x; gl := 1; gpcs := <[i := Locked]> ts; built := n |}
  | g_there x l ts n i : ts !! i = Some Locked -> x <> 0 ->
      gstep {| gx := x; gl := l; gpcs := ts; built := n |} {| gx := x; gl := l; gpcs := <[i := Unlocking]> ts; built := n |}
  | g_run l ts n i : ts !! i = Some Locked ->
      gstep {| gx := 0; gl := l; gpcs := ts; built := n |} {| gx := 0; gl := l; gpcs := <[i := Running]> ts; built := n |}
  | g_unlock x l ts n i : ts !! i = Some Unlocking ->
      gstep {| gx := x; gl := l; gpcs := ts; built := n |} {| gx := x; gl := 0; gpcs := <[i := Past]> ts; built := n |}
  | g_set x l ts n i : ts !! i = Some Running ->
      gstep {| gx := x; gl := l; gpcs := ts; built := n |} {| gx := 1; gl := l; gpcs := <[i := Releasing]> ts; built := S n |}
  | g_release x l ts n i : ts !! i = Some Releasing ->
      gstep {| gx := x; gl := l; gpcs := ts; built := n |} {| gx := x; gl := 0; gpcs := <[i := Past]> ts; built := n |}
  | g_abort x l ts n i : ts !! i = Some Running ->
      gstep {| gx := x; gl := l; gpcs := ts; built := n |} {| gx := x; gl := 0; gpcs := <[i := Out]> ts; built := n |}.

(** A thread that holds the lock. *)
Definition holding (p : gpc) : bool := match p with Locked | Unlocking | Running | Releasing => true | _ => false end.

(** The lock is held by as many threads as its word says, the object is built
    as often as the byte says, and only a thread that found the byte set or set
    it is past the declaration. *)
Definition ginv (s : guard) : Prop :=
  (gl s = 0 \/ gl s = 1) /\ count holding (gpcs s) = gl s /\ gx s = Z.of_nat (built s) /\ (built s <= 1)%nat /\
  (forall i, gpcs s !! i = Some Past \/ gpcs s !! i = Some Unlocking \/ gpcs s !! i = Some Releasing -> gx s = 1) /\
  (forall i, gpcs s !! i = Some Running -> gx s = 0).

(** Two positions that hold the lock are one. *)
Lemma holding_unique ts i j p q :
  count holding ts <= 1 -> ts !! i = Some p -> ts !! j = Some q -> holding p = true -> holding q = true -> i = j.
Proof.
  intros Hc Hi Hj Hp Hq. destruct (decide (i = j)) as [|Hne]; [done|]. exfalso.
  pose proof (count_insert holding ts i p Out Hi) as Hx. rewrite Hp in Hx. simpl in Hx.
  pose proof (count_pos holding (<[i := Out]> ts) j q ltac:(by rewrite list_lookup_insert_ne) Hq). lia.
Qed.

Lemma gstep_inv s s' : gstep s s' -> ginv s -> ginv s'.
Proof.
  intros Hst (Hl & Hc & Hx & Hn & Hpast & Hrun).
  assert (count holding (gpcs s) <= 1) as Hc1 by lia.
  destruct Hst as [x l ts n i Hi|x l ts n i Hi Hl0|x ts n i Hi|x l ts n i Hi Hx0|l ts n i Hi|x l ts n i Hi|x l ts n i Hi|x l ts n i Hi|x l ts n i Hi];
    unfold ginv; simpl in *; (assert (i < length ts)%nat as Hil by by eapply lookup_lt_Some);
    rewrite ?(count_insert holding ts i _ _ Hi); simpl Z.b2z;
    try pose proof (count_pos holding ts i _ Hi eq_refl); try pose proof (Hrun i Hi);
    (split; [lia|]; split; [lia|]; split; [lia|]; split; [lia|]; split; intros j Hj);
    (destruct (decide (j = i)) as [->|Hne]; [rewrite ?list_lookup_insert_eq in Hj by done|rewrite ?list_lookup_insert_ne in Hj by done]);
    try (naive_solver lia).
  exfalso. apply Hne. by apply (holding_unique ts j i Running Running).
Qed.

Definition gstart (n : nat) : guard := {| gx := 0; gl := 0; gpcs := replicate n Out; built := 0 |}.

Lemma gstart_inv n : ginv (gstart n).
Proof.
  unfold ginv, gstart. simpl. split; [lia|]. split; [induction n; [done|]; by unfold count in *|]. split; [lia|]. split; [lia|]. split.
  - intros i. rewrite !lookup_replicate. naive_solver.
  - intros i. rewrite lookup_replicate. naive_solver.
Qed.

(** C35: a static object is constructed once.  However many threads come to its
    declaration and however their steps interleave, at most one runs the
    constructor at a time, the construction completes at most once, and a thread
    goes past the declaration only when it has. *)
Theorem guard_once n s i j :
  rtc gstep (gstart n) s ->
  (built s <= 1)%nat /\
  (gpcs s !! i = Some Running -> gpcs s !! j = Some Running -> i = j) /\
  (gpcs s !! i = Some Past -> built s = 1%nat) /\
  (gpcs s !! i = Some Running -> built s = 0%nat).
Proof.
  intros Hr. assert (ginv s) as (Hl & Hc & Hx & Hn & Hpast & Hrun).
  { pose proof (gstart_inv n) as Hi. induction Hr as [|? ? ? Hst _ IH]; [done|]. by apply IH, (gstep_inv _ _ Hst). }
  split_and!.
  - done.
  - intros H1 H2. by apply (holding_unique (gpcs s) i j Running Running); [lia|..].
  - intros H1. pose proof (Hpast i (or_introl H1)). lia.
  - intros H1. pose proof (Hrun i H1). lia.
Qed.

Lemma guard_once_witness :
  let s := {| gx := 1; gl := 0; gpcs := [Past; Spinning]; built := 1 |} in
  rtc gstep (gstart 2) s /\ built s = 1%nat.
Proof.
  assert (rtc gstep (gstart 2) {| gx := 1; gl := 0; gpcs := [Past; Spinning]; built := 1 |}) as Hr.
  { eapply rtc_l; [by apply (g_enter 0 0 [Out; Out] 0 0)|]. eapply rtc_l; [by apply (g_enter 0 0 [Spinning; Out] 0 1)|].
    eapply rtc_l; [by apply (g_lock 0 [Spinning; Spinning] 0 0)|]. eapply rtc_l; [by apply (g_run 1 [Locked; Spinning] 0 0)|].
    eapply rtc_l; [by apply (g_spin 0 1 [Running; Spinning] 0 1)|].
    eapply rtc_l; [by apply (g_set 0 1 [Running; Spinning] 0 0)|]. eapply rtc_l; [by apply (g_release 1 1 [Releasing; Spinning] 1 0)|].
    apply rtc_refl. }
  split; [exact Hr|]. exact (proj1 (proj2 (proj2 (guard_once 2 _ 0 0 Hr))) eq_refl).
Defined.
