(* ===== verification/CxxSync.v ===== *)
(** * Barriers and statistics of the C++ programs (cxx/spinbarrier.hh, cxx/distribution.hh)

    [spin_barrier] as a step relation: each access to the atomic word is a step of
    one thread, in any order.  An iteration of a waiting loop that finds nothing
    changed is no step.  [distribution] as functions on records. *)

From S2P Require Import Prelude.

Section Barrier.

(** Where a thread is in [spin_barrier::join]. *)
Inductive bpc :=
  | Outside   (** not in [join] *)
  | WaitEnter (** in the first loop *)
  | Enter     (** before [++entered_] *)
  | Last      (** [v == init_], before the store *)
  | WaitExit  (** in the second loop *)
  | Exit      (** before [--entered_] *)
  | Reset.    (** reached count zero, before [entered_ = 0] *)

#[global] Instance bpc_eq_dec : EqDecision bpc.
Proof. solve_decision. Defined.

Definition phase_mask : Z := 2 ^ 63.

(** The phase bit. *)
Definition exiting (entered : Z) : bool := Z.testbit entered 63.

(** The threads, each with the number of times it has returned from [join]. *)
Record barrier := { entered_ : Z; threads : list (bpc * nat) }.

Context (init_ : Z).

(** [join] of thread [i]. *)
Inductive bstep : barrier -> barrier -> Prop :=
  | b_call e ts i d : ts !! i = Some (Outside, d) ->
      bstep {| entered_ := e; threads := ts |} {| entered_ := e; threads := <[i := (WaitEnter, d)]> ts |}
  | b_enter_phase e ts i d : ts !! i = Some (WaitEnter, d) -> exiting e = false ->
      bstep {| entered_ := e; threads := ts |} {| entered_ := e; threads := <[i := (Enter, d)]> ts |}
  | b_enter e ts i d : ts !! i = Some (Enter, d) ->
      bstep {| entered_ := e; threads := ts |}
        {| entered_ := u64 (e + 1); threads := <[i := (if u64 (e + 1) =? init_ then Last else WaitExit, d)]> ts |}
  | b_last e ts i d : ts !! i = Some (Last, d) ->
      bstep {| entered_ := e; threads := ts |}
        {| entered_ := u64 (Z.lor init_ phase_mask - 1); threads := <[i := (Outside, S d)]> ts |}
  | b_exit_phase e ts i d : ts !! i = Some (WaitExit, d) -> exiting e = true ->
      bstep {| entered_ := e; threads := ts |} {| entered_ := e; threads := <[i := (Exit, d)]> ts |}
  | b_exit e ts i d : ts !! i = Some (Exit, d) ->
      bstep {| entered_ := e; threads := ts |}
        {| entered_ := u64 (e - 1);
           threads := <[i := if u64 (e - 1) =? phase_mask then (Reset, d) else (Outside, S d)]> ts |}
  | b_reset e ts i d : ts !! i = Some (Reset, d) ->
      bstep {| entered_ := e; threads := ts |} {| entered_ := 0; threads := <[i := (Outside, S d)]> ts |}.

Definition bstart (n : nat) : barrier := {| entered_ := 0; threads := replicate n (Outside, 0%nat) |}.

(** The number of times a thread has entered the barrier. *)
Definition arrived (t : bpc * nat) : nat :=
  match t.1 with Last | WaitExit | Exit | Reset => S t.2 | _ => t.2 end.

(** ** The phases of a round *)

Definition inside (t : bpc * nat) : bool := match t.1 with Last | WaitExit => true | _ => false end.
Definition leaving (t : bpc * nat) : bool := match t.1 with WaitExit | Exit => true | _ => false end.
Definition is_last (t : bpc * nat) : bool := match t.1 with Last => true | _ => false end.
Definition is_reset (t : bpc * nat) : bool := match t.1 with Reset => true | _ => false end.

Definition in_enter (r : nat) (t : bpc * nat) : Prop :=
  t.2 = r /\ match t.1 with Outside | WaitEnter | Enter | Last | WaitExit => True | _ => False end.

Definition in_exit (r : nat) (t : bpc * nat) : Prop :=
  match t.1 with WaitExit | Exit => t.2 = r | Outside | WaitEnter => t.2 = S r | _ => False end.

Definition in_reset (r : nat) (t : bpc * nat) : Prop :=
  match t.1 with Reset => t.2 = r | Outside | WaitEnter => t.2 = S r | _ => False end.

Inductive binv : barrier -> Prop :=
  | inv_enter e ts r : Forall (in_enter r) ts -> e = count inside ts -> count is_last ts = (if e =? init_ then 1 else 0) ->
      binv {| entered_ := e; threads := ts |}
  | inv_exit e ts r : Forall (in_exit r) ts -> 0 < count leaving ts -> e = phase_mask + count leaving ts ->
      binv {| entered_ := e; threads := ts |}
  | inv_reset ts r : Forall (in_reset r) ts -> count is_reset ts = 1 -> binv {| entered_ := phase_mask; threads := ts |}.

Lemma exiting_low e : 0 <= e < 2 ^ 63 -> exiting e = false.
Proof. intros He. unfold exiting. rewrite Z.testbit_false by lia. rewrite Z.div_small by lia. done. Qed.

Lemma exiting_high k : 0 <= k < 2 ^ 63 -> exiting (phase_mask + k) = true.
Proof.
  intros Hk. unfold exiting, phase_mask. rewrite Z.testbit_true by lia.
  replace (2 ^ 63 + k) with (k + 1 * 2 ^ 63) by lia. rewrite Z.div_add, Z.div_small by lia. done.
Qed.

Lemma land_phase n : 0 <= n < 2 ^ 63 -> Z.land n phase_mask = 0.
Proof.
  intros Hn. apply Z.bits_inj_0. intros k. rewrite Z.land_spec. unfold phase_mask. destruct (decide (k = 63)) as [->|Hk].
  - by rewrite (exiting_low n Hn : Z.testbit n 63 = false).
  - by rewrite Z.pow2_bits_false, andb_false_r by lia.
Qed.

Lemma lor_phase n : 0 <= n < 2 ^ 63 -> Z.lor n phase_mask = phase_mask + n.
Proof. intros Hn. rewrite Z.add_comm, Z.add_nocarry_lxor, Z.lxor_lor by by apply land_phase. done. Qed.

Context (Hinit : 2 <= init_ < 2 ^ 32).

(** How the counts change when thread [i] does. *)
Ltac counts Hi :=
  rewrite ?(count_insert inside _ _ _ _ Hi), ?(count_insert leaving _ _ _ _ Hi),
    ?(count_insert is_last _ _ _ _ Hi), ?(count_insert is_reset _ _ _ _ Hi); cbn [inside leaving is_last is_reset fst Z.b2z].

(** All threads are inside when the last one is: the others wait for the exit. *)
Lemma enter_full r ts i :
  Forall (in_enter r) ts -> count inside ts = Z.of_nat (length ts) -> count is_last ts = 1 -> ts !! i = Some (Last, r) ->
  Forall (in_exit r) (<[i := (Outside, S r)]> ts) /\ count leaving (<[i := (Outside, S r)]> ts) = Z.of_nat (length ts) - 1.
Proof.
  intros Hall Hin Hone Hi.
  assert (forall j t, ts !! j = Some t -> j <> i -> t = (WaitExit, r)) as Hoth.
  { intros j [p d] Hj Hne. pose proof (Forall_lookup_1 _ _ _ _ Hall Hj) as [Hr Hp]. simpl in Hr, Hp. subst d.
    assert (inside (p, r) = true) as Hins.
    { destruct (inside (p, r)) eqn:E; [done|]. pose proof (count_insert inside ts j (p, r) (Last, r) Hj) as Hx. rewrite E in Hx. simpl in Hx.
      pose proof (count_length inside (<[j := (Last, r)]> ts)) as Hl. rewrite length_insert in Hl. lia. }
    destruct p; try done. exfalso.
    pose proof (count_insert is_last ts i _ (Outside, r) Hi) as Hx. simpl in Hx.
    pose proof (count_pos is_last (<[i := (Outside, r)]> ts) j (Last, r) ltac:(by rewrite list_lookup_insert_ne) eq_refl). lia. }
  pose proof (lookup_lt_Some _ _ _ Hi) as Hil.
  assert (forall j t, <[i := (Outside, S r)]> ts !! j = Some t -> t = (Outside, S r) \/ t = (WaitExit, r)) as Hall'.
  { intros j t Hj. destruct (decide (j = i)) as [->|Hne].
    - rewrite list_lookup_insert_eq in Hj by done. left. congruence.
    - rewrite list_lookup_insert_ne in Hj by done. right. by apply (Hoth j). }
  split.
  - apply Forall_lookup. intros j t Hj. by destruct (Hall' j t Hj) as [->| ->].
  - rewrite (count_ext leaving inside).
    + counts Hi. lia.
    + intros t [j Hj]%list_elem_of_lookup_1. by destruct (Hall' j t Hj) as [->| ->].
Qed.

(** The last thread that leaves. *)
Lemma exit_last r ts i :
  Forall (in_exit r) ts -> count leaving ts = 1 -> ts !! i = Some (Exit, r) ->
  Forall (in_reset r) (<[i := (Reset, r)]> ts) /\ count is_reset (<[i := (Reset, r)]> ts) = 1.
Proof.
  intros Hall Hone Hi. split.
  - apply Forall_lookup. intros j t Hj. destruct (decide (j = i)) as [->|Hne].
    { rewrite list_lookup_insert_eq in Hj by by eapply lookup_lt_Some. by simplify_eq. }
    rewrite list_lookup_insert_ne in Hj by done. pose proof (Forall_lookup_1 _ _ _ _ Hall Hj) as Hp.
    destruct t as [p d]. unfold in_exit, in_reset in *. simpl in *. destruct p; try done; exfalso;
      pose proof (count_insert leaving ts i _ (Outside, r) Hi) as Hx; simpl in Hx;
      pose proof (count_pos leaving (<[i := (Outside, r)]> ts) j _ ltac:(by rewrite list_lookup_insert_ne) eq_refl); lia.
  - counts Hi. assert (count is_reset ts = 0) as ->; [|done].
    destruct (decide (count is_reset ts = 0)) as [|Hn]; [done|]. pose proof (count_nonneg is_reset ts).
    destruct (count_exists is_reset ts) as (j & t & Hj & Ht); [lia|]. pose proof (Forall_lookup_1 _ _ _ _ Hall Hj) as Hp.
    destruct t as [[] ?]; done.
Qed.

(** When it has reset the barrier, every thread is outside or waits to enter. *)
Lemma reset_enter r ts i :
  Forall (in_reset r) ts -> count is_reset ts = 1 -> ts !! i = Some (Reset, r) ->
  let ts' := <[i := (Outside, S r)]> ts in Forall (in_enter (S r)) ts' /\ count inside ts' = 0 /\ count is_last ts' = 0.
Proof.
  intros Hall Hone Hi ts'.
  assert (forall j t, ts' !! j = Some t -> (t.1 = Outside \/ t.1 = WaitEnter) /\ t.2 = S r) as Hout.
  { intros j t Hj. unfold ts' in Hj. destruct (decide (j = i)) as [->|Hne].
    - rewrite list_lookup_insert_eq in Hj by by eapply lookup_lt_Some. simplify_eq. by split; [left|].
    - rewrite list_lookup_insert_ne in Hj by done. pose proof (Forall_lookup_1 _ _ _ _ Hall Hj) as Hp. destruct t as [p d].
      unfold in_reset in Hp. simpl in *. destruct p; try done; [by split; [left|]|by split; [right|]|]. exfalso.
      pose proof (count_insert is_reset ts i _ (Outside, r) Hi) as Hx. simpl in Hx.
      pose proof (count_pos is_reset (<[i := (Outside, r)]> ts) j _ ltac:(by rewrite list_lookup_insert_ne) eq_refl). lia. }
  assert (forall P, (forall d, P (Outside, d) = false) -> (forall d, P (WaitEnter, d) = false) -> count P ts' = 0) as Hz.
  { intros P P1 P2. destruct (decide (count P ts' = 0)) as [|Hn]; [done|]. pose proof (count_nonneg P ts').
    destruct (count_exists P ts') as (j & [p d] & Hj & Ht); [lia|].
    destruct (Hout j _ Hj) as [[E|E] _]; simpl in E; subst p; congruence. }
  split; [|by rewrite !Hz].
  apply Forall_lookup. intros j [p d] Hj. destruct (Hout j _ Hj) as [[E|E] E2]; simpl in *; by subst.
Qed.

Lemma bstep_inv s s' : bstep s s' -> Z.of_nat (length (threads s)) = init_ -> binv s -> binv s'.
Proof.
  intros Hst Hlen Hinv. destruct Hinv as [e ts r Hall He Hlast|e ts r Hall Hpos He|ts r Hall Hone]; simpl in Hlen.
  - pose proof (count_length inside ts) as Hle. pose proof (count_nonneg inside ts) as Hge.
    inversion Hst as [? ? i d Hi|? ? i d Hi Hx|? ? i d Hi|? ? i d Hi|? ? i d Hi Hx|? ? i d Hi|? ? i d Hi]; clear Hst; subst.
    all: pose proof (Forall_lookup_1 _ _ _ _ Hall Hi) as [Hr Hp]; simpl in Hr, Hp; try done; subst d.
    + apply (inv_enter _ _ r); [by apply Forall_insert|counts Hi; lia|counts Hi; rewrite Hlast; by destruct (_ =? _)].
    + apply (inv_enter _ _ r); [by apply Forall_insert|counts Hi; lia|counts Hi; rewrite Hlast; by destruct (_ =? _)].
    + pose proof (count_insert inside ts i _ (Last, r) Hi) as Hx. simpl in Hx.
      pose proof (count_length inside (<[i := (Last, r)]> ts)) as Hl. rewrite length_insert in Hl.
      rewrite (uwrap_id 64) by (unfold_int; lia). rewrite (proj2 (Z.eqb_neq _ _)) in Hlast by lia.
      destruct (Z.eqb_spec (count inside ts + 1) init_) as [E|E].
      * apply (inv_enter _ _ r); [by apply Forall_insert|counts Hi; lia|counts Hi; rewrite (proj2 (Z.eqb_eq _ _)) by lia; lia].
      * apply (inv_enter _ _ r); [by apply Forall_insert|counts Hi; lia|counts Hi; rewrite (proj2 (Z.eqb_neq _ _)) by lia; lia].
    + pose proof (count_pos is_last ts i _ Hi eq_refl) as Hc.
      destruct (Z.eqb_spec (count inside ts) init_) as [E|E]; [|lia].
      destruct (enter_full r ts i Hall ltac:(lia) Hlast Hi) as [Hall' Hc'].
      rewrite lor_phase by lia. rewrite uwrap_id by (unfold phase_mask; unfold_int; lia).
      apply (inv_exit _ _ r); [done|lia|lia].
    + rewrite exiting_low in Hx by lia. done.
  - pose proof (count_length leaving ts) as Hle.
    inversion Hst as [? ? i d Hi|? ? i d Hi Hx|? ? i d Hi|? ? i d Hi|? ? i d Hi Hx|? ? i d Hi|? ? i d Hi]; clear Hst; subst.
    all: pose proof (Forall_lookup_1 _ _ _ _ Hall Hi) as Hp; unfold in_exit in Hp; simpl in Hp; try done; subst d.
    + apply (inv_exit _ _ r); [by apply Forall_insert|counts Hi; lia|counts Hi; lia].
    + rewrite exiting_high in Hx by lia. done.
    + apply (inv_exit _ _ r); [by apply Forall_insert|counts Hi; lia|counts Hi; lia].
    + rewrite uwrap_id by (unfold phase_mask; unfold_int; lia).
      destruct (Z.eqb_spec (phase_mask + count leaving ts - 1) phase_mask) as [E|E].
      * rewrite E. destruct (exit_last r ts i Hall ltac:(lia) Hi) as [Hall' Hc']. by apply (inv_reset _ r).
      * apply (inv_exit _ _ r); [by apply Forall_insert|counts Hi; lia|counts Hi; lia].
  - inversion Hst as [? ? i d Hi|? ? i d Hi Hx|? ? i d Hi|? ? i d Hi|? ? i d Hi Hx|? ? i d Hi|? ? i d Hi]; clear Hst; subst.
    all: pose proof (Forall_lookup_1 _ _ _ _ Hall Hi) as Hp; unfold in_reset in Hp; simpl in Hp; try done; subst d.
    + apply (inv_reset _ r); [by apply Forall_insert|counts Hi; lia].
    + destruct (reset_enter r ts i Hall Hone Hi) as (Hall' & Hin & Hla). apply (inv_enter _ _ (S r)); [done|by rewrite Hin|].
      rewrite Hla, (proj2 (Z.eqb_neq _ _)) by lia. done.
Qed.

Lemma bstep_length s s' : bstep s s' -> length (threads s') = length (threads s).
Proof. destruct 1; simpl; by rewrite length_insert. Qed.

Lemma breach_inv n s : Z.of_nat n = init_ -> rtc bstep (bstart n) s -> binv s /\ length (threads s) = n.
Proof.
  intros Hn Hr. assert (binv (bstart n) /\ length (threads (bstart n)) = n) as H0.
  { split; [|apply length_replicate]. apply (inv_enter _ _ 0); [apply Forall_replicate; by split|..].
    - induction n; [done|]. unfold count in *. simpl. clear - n. by induction n.
    - rewrite (proj2 (Z.eqb_neq _ _)) by lia. clear. by induction n. }
  induction Hr as [|s1 s2 s3 Hst _ IH]; [done|]. destruct H0 as [Hi Hl]. apply IH. split.
  - apply (bstep_inv s1); [done|by rewrite Hl|done].
  - by rewrite (bstep_length _ _ Hst).
Qed.

(** C13: [spin_barrier] is a barrier that can be used again.  With [init_]
    threads, two at least, that call [join] any number of times: when a thread has
    returned from its [k]-th [join], every thread has entered its [k]-th; and
    some thread can always go on. *)
Theorem barrier_correct n s :
  Z.of_nat n = init_ -> rtc bstep (bstart n) s ->
  (forall i j ti tj, threads s !! i = Some ti -> threads s !! j = Some tj -> (ti.2 <= arrived tj)%nat) /\
  exists s', bstep s s'.
Proof.
  intros Hn Hr. destruct (breach_inv n s Hn Hr) as [Hinv Hlen]. destruct Hinv as [e ts r Hall He Hlast|e ts r Hall Hpos He|ts r Hall Hone]; simpl in *.
  - split.
    + intros i j [p d] [p' d'] Hi Hj. pose proof (Forall_lookup_1 _ _ _ _ Hall Hi) as [H1 _].
      pose proof (Forall_lookup_1 _ _ _ _ Hall Hj) as [H2 H3]. unfold arrived. simpl in *. destruct p'; try done; simpl; lia.
    + destruct (decide (e = init_)) as [->|Hne].
      * rewrite Z.eqb_refl in Hlast. destruct (count_exists is_last ts) as (i & [p d] & Hi & Ht); [lia|]. destruct p; try done.
        eexists. by apply (b_last _ _ i d).
      * pose proof (count_length inside ts). destruct (decide (Forall (fun t => inside t = true) ts)) as [Hf|Hf].
        { assert (count inside ts = Z.of_nat (length ts)); [|lia]. unfold count. f_equal. clear - Hf.
          induction Hf as [|t ts Ht _ IH]; [done|]. simpl. rewrite Ht. simpl. by rewrite IH. }
        apply not_Forall_Exists, list.Exists_exists in Hf as ([p d] & Hin & Hp); [|apply _]. apply list_elem_of_lookup_1 in Hin as [i Hi].
        pose proof (Forall_lookup_1 _ _ _ _ Hall Hi) as [Hr' Hp']. simpl in *. subst d.
        destruct p; try done; eexists; [by apply (b_call _ _ i r)|apply (b_enter_phase _ _ i r); [done|]|by apply (b_enter _ _ i r)].
        apply exiting_low. pose proof (count_nonneg inside ts). lia.
  - split.
    + intros i j [p d] [p' d'] Hi Hj. pose proof (Forall_lookup_1 _ _ _ _ Hall Hi) as H1.
      pose proof (Forall_lookup_1 _ _ _ _ Hall Hj) as H2. unfold arrived, in_exit in *. simpl in *. destruct p, p'; try done; simpl; lia.
    + destruct (count_exists leaving ts) as (i & [p d] & Hi & Ht); [lia|]. pose proof (count_length leaving ts).
      destruct p; try done; eexists; [apply (b_exit_phase _ _ i d); [done|rewrite He; apply exiting_high; lia]|by apply (b_exit _ _ i d)].
  - split.
    + intros i j [p d] [p' d'] Hi Hj. pose proof (Forall_lookup_1 _ _ _ _ Hall Hi) as H1.
      pose proof (Forall_lookup_1 _ _ _ _ Hall Hj) as H2. unfold arrived, in_reset in *. simpl in *. destruct p, p'; try done; simpl; lia.
    + destruct (count_exists is_reset ts) as (i & [p d] & Hi & Ht); [lia|]. destruct p; try done. eexists. by apply (b_reset _ _ i d).
Qed.
End Barrier.

Lemma barrier_correct_witness :
  let s := {| entered_ := phase_mask + 1; threads := [(WaitExit, 0%nat); (Outside, 1%nat)] |} in
  rtc (bstep 2) (bstart 2) s /\
  (forall i j ti tj, threads s !! i = Some ti -> threads s !! j = Some tj -> (ti.2 <= arrived tj)%nat) /\ exists s', bstep 2 s s'.
Proof.
  assert (rtc (bstep 2) (bstart 2) {| entered_ := phase_mask + 1; threads := [(WaitExit, 0%nat); (Outside, 1%nat)] |}) as Hr.
  { eapply rtc_l; [by apply (b_call 2 0 _ 0 0)|]. eapply rtc_l; [by apply (b_enter_phase 2 0 _ 0 0)|].
    eapply rtc_l; [by apply (b_enter 2 0 _ 0 0)|]. eapply rtc_l; [by apply (b_call 2 1 _ 1 0)|].
    eapply rtc_l; [by apply (b_enter_phase 2 1 _ 1 0)|]. eapply rtc_l; [by apply (b_enter 2 1 _ 1 0)|].
    eapply rtc_l; [by apply (b_last 2 2 _ 1 0)|]. apply rtc_refl. }
  split; [exact Hr|]. apply (barrier_correct 2 ltac:(lia) 2); [reflexivity|exact Hr].
Defined.

(** A barrier for one thread: its first [join] leaves the exit phase on, and the
    second one waits for ever. *)
Lemma barrier_alone :
  exists s, rtc (bstep 1) (bstart 1) s /\ threads s = [(WaitEnter, 1%nat)] /\ forall s', bstep 1 s s' -> False.
Proof.
  exists {| entered_ := phase_mask; threads := [(WaitEnter, 1%nat)] |}. split; [|split; [done|]].
  - eapply rtc_l; [by apply (b_call 1 0 _ 0 0)|]. eapply rtc_l; [by apply (b_enter_phase 1 0 _ 0 0)|].
    eapply rtc_l; [by apply (b_enter 1 0 _ 0 0)|]. eapply rtc_l; [by apply (b_last 1 1 _ 0 0)|].
    eapply rtc_l; [by apply (b_call 1 _ _ 0 1)|]. apply rtc_refl.
  - intros s' Hst. inversion Hst as [? ? i d Hi|? ? i d Hi Hx|? ? i d Hi|? ? i d Hi|? ? i d Hi Hx|? ? i d Hi|? ? i d Hi];
      subst; destruct i; simpl in Hi; simplify_eq; done.
Qed.

(** ** Distributions *)

Record distribution := { min_ : Z; max_ : Z; sum_ : Z; count_ : Z }.

Definition distribution_new : distribution := {| min_ := 0; max_ := 0; sum_ := 0; count_ := 0 |}.

(** Of values of type [uint64_t], as the programs use it. *)
Definition add (d : distribution) (val : Z) : distribution :=
  {| min_ := if (val <? min_ d) || (count_ d =? 0) then val else min_ d;
     max_ := if (max_ d <? val) || (count_ d =? 0) then val else max_ d;
     sum_ := u64 (sum_ d + val);
     count_ := u64 (count_ d + 1) |}.

(** [operator+=] *)
Definition merge (d o : distribution) : distribution :=
  {| min_ := if ((min_ o <? min_ d) || (count_ d =? 0)) && negb (count_ o =? 0) then min_ o else min_ d;
     max_ := if ((max_ d <? max_ o) || (count_ d =? 0)) && negb (count_ o =? 0) then max_ o else max_ d;
     sum_ := u64 (sum_ d + sum_ o);
     count_ := u64 (count_ d + count_ o) |}.

Definition span (d : distribution) : Z := u64 (max_ d - min_ d).

(** [mean]; division by zero is undefined *)
Definition mean (d : distribution) : option Z := if count_ d =? 0 then None else Some (sum_ d / count_ d).

Definition collected (xs : list Z) : distribution := foldl add distribution_new xs.

Lemma collected_snoc xs x : collected (xs ++ [x]) = add (collected xs) x.
Proof. unfold collected. by rewrite foldl_app. Qed.

(** What the fields are. *)
Lemma collected_fields xs :
  Z.of_nat (length xs) < 2 ^ 64 ->
  let d := collected xs in
  count_ d = Z.of_nat (length xs) /\ sum_ d = u64 (foldr Z.add 0 xs) /\
  (xs <> [] -> (min_ d ∈ xs /\ Forall (fun x => min_ d <= x) xs) /\ (max_ d ∈ xs /\ Forall (fun x => x <= max_ d) xs)).
Proof.
  induction xs as [|x xs IH] using rev_ind; intros Hl; [done|]. rewrite length_app in Hl. simpl in Hl.
  destruct IH as (Hc & Hs & Hm); [lia|]. rewrite collected_snoc. simpl. rewrite Hc, Hs, length_app. simpl. split; [|split].
  - rewrite uwrap_id by (unfold_int; lia). lia.
  - rewrite foldr_app. simpl. rewrite Z.add_0_r. unfold uwrap. rewrite Zplus_mod_idemp_l. f_equal.
    clear. induction xs as [|y xs IH]; simpl; lia.
  - intros _. destruct xs as [|y xs'] eqn:Exs.
    { simpl. rewrite orb_true_r. split; (split; [apply list_elem_of_singleton; by rewrite ?orb_true_r|constructor; [rewrite ?orb_true_r; lia|done]]). }
    rewrite <- Exs in *. assert (xs <> []) as Hne by by rewrite Exs. destruct (Hm Hne) as [[Hi1 Hf1] [Hi2 Hf2]].
    rewrite (proj2 (Z.eqb_neq (Z.of_nat (length xs)) 0)) by (rewrite Exs; simpl; lia). rewrite !orb_false_r.
    rewrite !elem_of_app, !list_elem_of_singleton, !list.Forall_app, !Forall_singleton. split.
    + destruct (Z.ltb_spec x (min_ (collected xs))); split; [by right|split; [|lia]|by left|split; [done|lia]].
      eapply Forall_impl; [|exact Hf1]. simpl. intros; lia.
    + destruct (Z.ltb_spec (max_ (collected xs)) x); split; [by right|split; [|lia]|by left|split; [done|lia]].
      eapply Forall_impl; [|exact Hf2]. simpl. intros; lia.
Qed.

Definition counted (d : distribution) : Prop := in_u 64 (sum_ d) /\ in_u 64 (count_ d).

Lemma merge_add d o y :
  counted d -> counted o -> count_ d + count_ o + 1 < 2 ^ 64 -> merge d (add o y) = add (merge d o) y.
Proof.
  intros [Hsd Hcd] [Hso Hco] Hlt. unfold merge, add. cbn [min_ max_ sum_ count_].
  rewrite (uwrap_id 64 (count_ o + 1)), (uwrap_id 64 (count_ d + count_ o)), !(uwrap_id 64 (count_ d + _)), (uwrap_id 64 (count_ d + count_ o + 1))
    by (unfold_int; lia).
  rewrite (proj2 (Z.eqb_neq (count_ o + 1) 0)) by (unfold_int; lia). f_equal.
  - destruct (Z.eqb_spec (count_ d) 0), (Z.eqb_spec (count_ o) 0), (Z.eqb_spec (count_ d + count_ o) 0); try (unfold_int; lia);
      rewrite ?orb_true_r, ?orb_false_r, ?andb_true_r, ?andb_false_r; cbn [negb];
      destruct (Z.ltb_spec (min_ o) (min_ d)), (Z.ltb_spec y (min_ o)); cbn [orb andb];
      repeat match goal with |- context [?a <? ?b] => destruct (Z.ltb_spec a b) end; cbn [orb andb]; lia.
  - destruct (Z.eqb_spec (count_ d) 0), (Z.eqb_spec (count_ o) 0), (Z.eqb_spec (count_ d + count_ o) 0); try (unfold_int; lia);
      rewrite ?orb_true_r, ?orb_false_r, ?andb_true_r, ?andb_false_r; cbn [negb];
      destruct (Z.ltb_spec (max_ d) (max_ o)), (Z.ltb_spec (max_ o) y); cbn [orb andb];
      repeat match goal with |- context [?a <? ?b] => destruct (Z.ltb_spec a b) end; cbn [orb andb]; lia.
  - unfold uwrap. rewrite Zplus_mod_idemp_r, Zplus_mod_idemp_l. f_equal. lia.
  - lia.
Qed.

Lemma collected_counted xs : counted (collected xs).
Proof.
  induction xs as [|x xs _] using rev_ind; [done|]. rewrite collected_snoc. split; apply uwrap_range; lia.
Qed.

(** The distribution of two series is the sum of their distributions. *)
Lemma merge_collected xs ys :
  Z.of_nat (length (xs ++ ys)) < 2 ^ 64 -> merge (collected xs) (collected ys) = collected (xs ++ ys).
Proof.
  induction ys as [|y ys IH] using rev_ind; intros Hl.
  - rewrite app_nil_r. destruct (collected_counted xs) as [H1 H2]. unfold merge. cbn [collected foldl distribution_new min_ max_ sum_ count_].
    rewrite !andb_false_r, !Z.add_0_r, !uwrap_id by done. by destruct (collected xs).
  - rewrite app_assoc, length_app in Hl. simpl in Hl. rewrite app_assoc, !collected_snoc, <- IH by lia.
    apply merge_add; [apply collected_counted..|]. rewrite length_app in Hl.
    destruct (collected_fields xs ltac:(lia)) as (-> & _), (collected_fields ys ltac:(lia)) as (-> & _). lia.
Qed.

(** *** Per-thread distributions *)

Abbreviation MAX_THREADS := (100)%nat.

Record concurrent_distribution := { dists : list distribution; dirty : bool; combined : distribution }.

Definition concurrent_new : concurrent_distribution :=
  {| dists := replicate MAX_THREADS distribution_new; dirty := false; combined := distribution_new |}.

(** The two steps of [add] by the thread [id]: the flag, then the sum. *)
Definition add_mark (c : concurrent_distribution) : concurrent_distribution :=
  if negb (dirty c) then {| dists := dists c; dirty := true; combined := combined c |} else c.

Definition add_put (c : concurrent_distribution) (id : nat) (val : Z) : concurrent_distribution :=
  {| dists := alter (fun d => add d val) id (dists c); dirty := dirty c; combined := combined c |}.

Definition concurrent_add (c : concurrent_distribution) (id : nat) (val : Z) : concurrent_distribution := add_put (add_mark c) id val.

Definition collect (c : concurrent_distribution) : distribution * concurrent_distribution :=
  if dirty c then
    let comb := foldl merge distribution_new (dists c) in
    (comb, {| dists := dists c; dirty := false; combined := comb |})
  else (combined c, c).

(** Every slot sums up what its thread added, and the combination is current
    unless the flag is up. *)
Definition crep (c : concurrent_distribution) (slots : list (list Z)) : Prop :=
  dists c = fmap collected slots /\ (dirty c = false -> combined c = collected (concat slots)).

Lemma foldl_merge xs slots :
  Z.of_nat (length (xs ++ concat slots)) < 2 ^ 64 -> foldl merge (collected xs) (fmap collected slots) = collected (xs ++ concat slots).
Proof.
  revert xs. induction slots as [|s slots IH]; intros xs Hl; simpl in *; [by rewrite app_nil_r|].
  rewrite app_assoc in Hl. rewrite merge_collected, IH, app_assoc by (try done; rewrite length_app in Hl; lia). done.
Qed.

Lemma collect_ret c slots :
  crep c slots -> Z.of_nat (length (concat slots)) < 2 ^ 64 ->
  (collect c).1 = collected (concat slots) /\ crep (collect c).2 slots.
Proof.
  intros [Hd Hc] Hl. unfold collect. destruct (dirty c) eqn:E; [|split; [by apply Hc|split; [done|intros _; by apply Hc]]]. cbn [fst snd].
  rewrite Hd, (foldl_merge [] slots Hl : foldl merge distribution_new _ = _). by split.
Qed.

Lemma concurrent_add_ret c slots id val :
  crep c slots -> crep (concurrent_add c id val) (alter (fun s => s ++ [val]) id slots).
Proof.
  intros [Hd Hc]. unfold concurrent_add, add_mark. split.
  - transitivity (alter (fun d => add d val) id (dists c)); [by destruct (dirty c)|]. rewrite Hd.
    clear. revert id. induction slots as [|s slots IH]; intros [|id]; simpl; [done|done|by rewrite collected_snoc|]. f_equal. apply IH.
  - destruct (dirty c) eqn:E; simpl; congruence.
Qed.

(** One after the other: values that threads add, and queries. *)
Inductive dop := DAdd (id : nat) (val : Z) | DCollect.

Fixpoint drun (c : concurrent_distribution) (os : list dop) : list distribution :=
  match os with
  | [] => []
  | DAdd id val :: os => drun (concurrent_add c id val) os
  | DCollect :: os => (collect c).1 :: drun (collect c).2 os
  end.

Fixpoint dspec (slots : list (list Z)) (os : list dop) : list distribution :=
  match os with
  | [] => []
  | DAdd id val :: os => dspec (alter (fun s => s ++ [val]) id slots) os
  | DCollect :: os => collected (concat slots) :: dspec slots os
  end.

Lemma alter_concat_length slots id (val : Z) :
  (length (concat (alter (fun s => s ++ [val]) id slots)) <= S (length (concat slots)))%nat.
Proof.
  revert id. induction slots as [|s slots IH]; intros [|id]; simpl; rewrite ?length_app; simpl; try lia.
  specialize (IH id). unfold alter in IH. lia.
Qed.

(** A query of a concurrent distribution sees every value added before it.
    When calls do not overlap, each query returns the count, sum, least and
    greatest of all the values that all threads have added so far. *)
Theorem concurrent_distribution_correct os :
  Z.of_nat (length os) < 2 ^ 64 -> drun concurrent_new os = dspec (replicate MAX_THREADS []) os.
Proof.
  intros Hl. assert (crep concurrent_new (replicate MAX_THREADS [])) as Hc by done.
  assert (Z.of_nat (length (concat (replicate MAX_THREADS ([] : list Z))) + length os) < 2 ^ 64) as Hlen by exact Hl.
  revert Hc Hlen. clear Hl. generalize concurrent_new (replicate MAX_THREADS ([] : list Z)).
  induction os as [|[id val|] os IH]; intros c slots Hc Hlen; cbn [drun dspec length] in *; [done|..].
  - apply IH; [by apply concurrent_add_ret|]. pose proof (alter_concat_length slots id val). lia.
  - destruct (collect_ret c slots Hc ltac:(lia)) as [E Hc']. rewrite E. f_equal. apply IH; [done|lia].
Qed.

Lemma concurrent_distribution_correct_witness :
  drun concurrent_new [DAdd 3 7; DAdd 0 9; DCollect; DAdd 3 2; DCollect]
  = [{| min_ := 7; max_ := 9; sum_ := 16; count_ := 2 |}; {| min_ := 2; max_ := 9; sum_ := 18; count_ := 3 |}].
Proof. exact (concurrent_distribution_correct [DAdd 3 7; DAdd 0 9; DCollect; DAdd 3 2; DCollect] eq_refl). Defined.

(** A query between the two steps of an [add] hides the value from later ones. *)
Lemma collect_race c id val :
  let c1 := (collect (add_mark c)).2 in
  (collect (add_put c1 id val)).1 = (collect (add_mark c)).1.
Proof. unfold collect, add_mark. destruct (dirty c) eqn:E; simpl; rewrite ?E; done. Qed.
