(* ===== verification/CxxPtr.v ===== *)
(** * Ownership: [unique_ptr] and [std::thread] (cxx/memory, cxx/thread, cxx/threads.cc)

    Both are handles that may be moved and not copied.  A state has the variables
    of the program, each with the value of its handle while it is constructed, and
    what the handles stand for: the objects that were allocated with [new], the
    threads that were started.  The deleter is [default_delete]. *)

From S2P Require Import Prelude CxxBase.

(** ** [unique_ptr] *)

(** [hand] are the pointers that the program holds as such, from [new] or [release]. *)
Record pstate := PState { live : gset Z; vars : list (option Z); hand : list Z }.

Definition get_ptr (i : nat) : M pstate Z := fun s =>
  match vars s !! i with Some (Some p) => Ret p s | _ => Ub end.
Definition set_ptr (i : nat) (p : Z) : M pstate unit := modify (fun s => PState (live s) (<[i := Some p]> (vars s)) (hand s)).
Definition end_life (i : nat) : M pstate unit := modify (fun s => PState (live s) (<[i := None]> (vars s)) (hand s)).

(** [delete p]: undefined unless an object is there. *)
Definition delete_object (p : Z) : M pstate unit := fun s =>
  if bool_decide (p ∈ live s) then Ret tt (PState (live s ∖ {[p]}) (vars s) (hand s)) else Ub.

Definition unique_ptr_new (i : nat) : M pstate unit := set_ptr i 0.
Definition unique_ptr_of (i : nat) (p : Z) : M pstate unit := set_ptr i p.

Definition uptr_release (i : nat) : M pstate Z := p ← get_ptr i; _ ← set_ptr i 0; mret p.

Definition uptr_reset (i : nat) (p : Z) : M pstate unit :=
  o ← get_ptr i;
  _ ← set_ptr i p;
  if negb (o =? 0) then delete_object o else mret tt.

Definition unique_ptr_move (i j : nat) : M pstate unit := p ← uptr_release j; set_ptr i p.

Definition unique_ptr_delete (i : nat) : M pstate unit :=
  p ← get_ptr i; _ ← (if negb (p =? 0) then delete_object p else mret tt); end_life i.

Definition uptr_move_assign (i j : nat) : M pstate unit := p ← uptr_release j; uptr_reset i p.
Definition uptr_assign_null (i : nat) : M pstate unit := uptr_reset i 0.

Definition uptr_swap (i j : nat) : M pstate unit :=
  p ← get_ptr i; q ← get_ptr j; _ ← set_ptr i q; set_ptr j p.

(** *** Programs *)

(** [new] and [release] put a pointer into the hand, the constructor from a pointer and [reset] take one. *)
Inductive uop :=
  | UAlloc (p : Z) | UNew (i : nat) | UOf (i : nat) (p : Z) | UMove (i j : nat) | UDelete (i : nat)
  | UAssign (i j : nat) | UNull (i : nat) | URelease (i : nat) | UReset (i : nat) (p : Z) | USwap (i j : nat).

Definition give (p : Z) : M pstate unit := modify (fun s => PState (live s) (vars s) (if p =? 0 then hand s else p :: hand s)).
Definition take_from_hand (p : Z) : M pstate unit := modify (fun s => PState (live s) (vars s) (list_difference (hand s) [p])).

Definition uexec (o : uop) : M pstate unit :=
  match o with
  | UAlloc p => modify (fun s => PState ({[p]} ∪ live s) (vars s) (p :: hand s))
  | UNew i => unique_ptr_new i
  | UOf i p => _ ← take_from_hand p; unique_ptr_of i p
  | UMove i j => unique_ptr_move i j
  | UDelete i => unique_ptr_delete i
  | UAssign i j => uptr_move_assign i j
  | UNull i => uptr_assign_null i
  | URelease i => p ← uptr_release i; give p
  | UReset i p => _ ← take_from_hand p; uptr_reset i p
  | USwap i j => uptr_swap i j
  end.

Fixpoint urun (l : list uop) : M pstate unit :=
  match l with [] => mret tt | o :: l => _ ← uexec o; urun l end.

(** What the compiler and the allocator see to: variables are constructed once
    and then used, a new object is at a place where none is; and the program
    passes on only pointers that it holds. *)
Definition alive (s : pstate) (i : nat) : bool := match vars s !! i with Some (Some _) => true | _ => false end.
Definition unborn (s : pstate) (i : nat) : bool := match vars s !! i with Some None => true | _ => false end.

Definition upre (o : uop) (s : pstate) : bool :=
  match o with
  | UAlloc p => negb (p =? 0) && bool_decide (p ∉ live s)
  | UNew i => unborn s i
  | UOf i p => unborn s i && bool_decide (p ∈ hand s)
  | UMove i j => unborn s i && alive s j
  | UDelete i | UNull i | URelease i => alive s i
  | UAssign i j | USwap i j => alive s i && alive s j
  | UReset i p => alive s i && bool_decide (p ∈ hand s)
  end.

Fixpoint uallowed (l : list uop) (s : pstate) : bool :=
  match l with
  | [] => true
  | o :: l => upre o s && match uexec o s with Ret _ s' => uallowed l s' | _ => true end
  end.

(** *** Who owns an object *)

Definition owned_by (v : option Z) : list Z := match v with Some p => if p =? 0 then [] else [p] | None => [] end.
Definition owned (s : pstate) : list Z := concat (owned_by <$> vars s).

(** Every object has one owner: a variable, or the pointers [h] that are at hand. *)
Definition owners (s : pstate) (h : list Z) : Prop := elements (live s) ≡ₚ owned s ++ h.
Definition pinv (s : pstate) : Prop := owners s (hand s) /\ 0 ∉ live s.

Lemma set_owned s i v : vars s !! i = Some v ->
  exists r, owned s ≡ₚ owned_by v ++ r /\ forall L v' h, owned (PState L (<[i := v']> (vars s)) h) ≡ₚ owned_by v' ++ r.
Proof. intros Hv. destruct (concat_focus owned_by _ _ _ Hv) as (r & H1 & H2). exists r. split; [exact H1|]. intros; apply H2. Qed.

Lemma delete_ret s h p : owners s (p :: h) -> delete_object p s = Ret tt (PState (live s ∖ {[p]}) (vars s) (hand s)) /\
  owners (PState (live s ∖ {[p]}) (vars s) (hand s)) h.
Proof.
  intros Ho. assert (p ∈ live s) as Hp by (rewrite <- elem_of_elements, Ho; set_solver).
  split; [unfold delete_object; by rewrite bool_decide_true|]. unfold owners in *. cbn [live].
  assert (live s = {[p]} ∪ live s ∖ {[p]}) as E by (apply union_difference_L; set_solver).
  rewrite E, elements_disj_union, elements_singleton in Ho by set_solver.
  rewrite <- Permutation_middle in Ho. by apply Permutation_cons_inv in Ho.
Qed.

(** The value of variable [i] is changed from [v] to [v']. *)
Lemma set_ret s i v v' h : vars s !! i = Some v -> owners s (owned_by v' ++ h) ->
  owners (PState (live s) (<[i := v']> (vars s)) (hand s)) (owned_by v ++ h).
Proof.
  intros Hv Ho. destruct (set_owned _ _ _ Hv) as (r & H1 & H2). unfold owners in *. cbn [live]. rewrite Ho, H1, H2. solve_Permutation.
Qed.

Lemma get_ret s i p : vars s !! i = Some (Some p) -> get_ptr i s = Ret p s.
Proof. intros H. unfold get_ptr. by rewrite H. Qed.

Lemma uptr_release_ret s i p h : vars s !! i = Some (Some p) -> owners s h ->
  let s' := PState (live s) (<[i := Some 0]> (vars s)) (hand s) in
  uptr_release i s = Ret p s' /\ owners s' (owned_by (Some p) ++ h).
Proof. intros Hp Ho. split; [|by apply (set_ret s i (Some p) (Some 0))]. unfold uptr_release. by mrun (get_ret _ _ _ Hp). Qed.

Lemma drop_ret s p h : owners s (owned_by (Some p) ++ h) ->
  exists s', (if negb (p =? 0) then delete_object p else mret tt) s = Ret tt s' /\ owners s' h /\ vars s' = vars s /\ hand s' = hand s /\
    live s' ⊆ live s.
Proof.
  simpl. destruct (Z.eqb_spec p 0) as [->|Hp]; cbn [negb app]; intros Ho; [by exists s|].
  destruct (delete_ret _ _ _ Ho) as [E Ho']. eexists. split; [exact E|]. split_and!; try done. simpl. set_solver.
Qed.

Lemma uptr_reset_ret s i o p h : vars s !! i = Some (Some o) -> owners s (owned_by (Some p) ++ h) ->
  exists s', uptr_reset i p s = Ret tt s' /\ owners s' h /\ vars s' = <[i := Some p]> (vars s) /\ hand s' = hand s /\ live s' ⊆ live s.
Proof.
  intros Hv Ho. unfold uptr_reset. mrun (get_ret _ _ _ Hv). apply (set_ret _ _ _ _ _ Hv) in Ho. by apply drop_ret in Ho.
Qed.

Lemma aliveb s i : alive s i = true -> exists p, vars s !! i = Some (Some p).
Proof. unfold alive. destruct (vars s !! i) as [[p|]|]; [eauto|done..]. Qed.

Lemma unbornb s i : unborn s i = true -> vars s !! i = Some None.
Proof. unfold unborn. by destruct (vars s !! i) as [[p|]|]. Qed.

Lemma take_hand (h : list Z) p : NoDup h -> p ∈ h -> h ≡ₚ p :: list_difference h [p].
Proof.
  intros Hn Hp. apply NoDup_Permutation; [done| |].
  - constructor; [rewrite list_elem_of_difference; set_solver|by apply NoDup_list_difference].
  - intros x. rewrite list.elem_of_cons, list_elem_of_difference, list_elem_of_singleton. destruct (decide (x = p)) as [->|]; tauto.
Qed.

Lemma hand_nodup s : pinv s -> NoDup (hand s).
Proof. intros [Ho _]. pose proof (NoDup_elements (live s)) as Hn. rewrite Ho in Hn. by apply list.NoDup_app in Hn as (_ & _ & ?). Qed.

Lemma hand_nonzero s p : pinv s -> p ∈ hand s -> (p =? 0) = false.
Proof. intros [Ho Hz] Hp. apply Z.eqb_neq. intros ->. apply Hz. rewrite <- elem_of_elements, Ho. set_solver. Qed.

(** A pointer of the hand, about to be passed on. *)
Lemma take_ret s p : pinv s -> p ∈ hand s -> exists s', take_from_hand p s = Ret tt s' /\
  live s' = live s /\ vars s' = vars s /\ owners s' (owned_by (Some p) ++ hand s').
Proof.
  intros Hs Hp. eexists. split; [reflexivity|]. split_and!; try done. simpl. rewrite (hand_nonzero s p Hs Hp).
  destruct Hs as [Ho Hz] eqn:E. clear E. unfold owners in *. simpl. rewrite Ho.
  apply Permutation_app_head, take_hand; [by apply hand_nodup|done].
Qed.

Lemma uexec_ret o s : pinv s -> upre o s = true -> exists s', uexec o s = Ret tt s' /\ pinv s'.
Proof.
  intros Hs Hp. pose proof Hs as [Ho Hz]. destruct o as [p|i|i p|i j|i|i j|i|i|i p|i j]; simpl in Hp |- *;
    rewrite ?andb_true_iff, ?bool_decide_eq_true in Hp.
  - destruct Hp as [Hn Hf]. apply negb_true_iff, Z.eqb_neq in Hn. eexists. split; [reflexivity|]. split; [|simpl; set_solver].
    unfold owners. simpl. rewrite elements_disj_union, elements_singleton, Ho by set_solver. unfold owned. simpl. solve_Permutation.
  - apply unbornb in Hp. eexists. split; [reflexivity|]. split; [|done]. by apply (set_ret s i None (Some 0)).
  - destruct Hp as [Hi Hh]. apply unbornb in Hi. destruct (take_ret s p Hs Hh) as (s1 & E1 & L1 & V1 & O1). mrun E1.
    eexists. split; [reflexivity|]. split; [|simpl; congruence]. apply (set_ret s1 i None (Some p) (hand s1)); [congruence|exact O1].
  - destruct Hp as [Hi Hj]. apply unbornb in Hi. apply aliveb in Hj as (p & Hj).
    destruct (uptr_release_ret s j p (hand s) Hj Ho) as [E1 O1]. unfold unique_ptr_move. mrun E1.
    eexists. split; [reflexivity|]. split; [|done]. apply (set_ret _ i None (Some p) (hand s)); [|exact O1].
    simpl. rewrite list_lookup_insert_ne; congruence.
  - apply aliveb in Hp as (p & Hp). unfold unique_ptr_delete. mrun (get_ret _ _ _ Hp).
    apply (set_ret s i (Some p) None) in Ho as O1; [|done]. simpl in O1.
    destruct (Z.eqb_spec p 0) as [->|Hn]; cbn [negb]; [eexists; split; [reflexivity|]; by split|].
    destruct (delete_ret _ _ _ O1) as [E O2]. unfold delete_object in *. cbn [live] in E. destruct (bool_decide (p ∈ live s)) eqn:Eb; [|done].
    eexists. split; [cbv [mbind M_bind]; rewrite Eb; reflexivity|]. split; [exact O2|]. simpl. set_solver.
  - destruct Hp as [Hi Hj]. apply aliveb in Hi as (o & Hi). apply aliveb in Hj as (p & Hj).
    destruct (uptr_release_ret s j p (hand s) Hj Ho) as [E1 O1]. unfold uptr_move_assign. mrun E1.
    assert (exists o', <[j := Some 0]> (vars s) !! i = Some (Some o')) as (o' & Hi').
    { destruct (decide (j = i)) as [->|]; [|by exists o; rewrite list_lookup_insert_ne]. exists 0.
      apply list_lookup_insert_eq. by eapply lookup_lt_Some. }
    destruct (uptr_reset_ret (PState (live s) (<[j := Some 0]> (vars s)) (hand s)) i o' p (hand s) Hi' O1) as (s' & E & O2 & _ & H2 & L2). exists s'. split; [exact E|].
    split; [by rewrite H2|]. simpl in *. set_solver.
  - apply aliveb in Hp as (o & Hi). destruct (uptr_reset_ret s i o 0 (hand s) Hi Ho) as (s' & E & O2 & _ & H2 & L2).
    exists s'. split; [exact E|]. split; [by rewrite H2|]. set_solver.
  - apply aliveb in Hp as (p & Hi). destruct (uptr_release_ret s i p (hand s) Hi Ho) as [E1 O1]. mrun E1.
    eexists. split; [reflexivity|]. split; [|done]. simpl in *. by destruct (p =? 0).
  - destruct Hp as [Hi Hh]. apply aliveb in Hi as (o & Hi). destruct (take_ret s p Hs Hh) as (s1 & E1 & L1 & V1 & O1). mrun E1.
    rewrite <- V1 in Hi. destruct (uptr_reset_ret s1 i o p (hand s1) Hi O1) as (s' & E & O2 & _ & H2 & L2).
    exists s'. split; [exact E|]. split; [by rewrite H2|]. set_solver.
  - destruct Hp as [Hi Hj]. apply aliveb in Hi as (p & Hi). apply aliveb in Hj as (q & Hj). unfold uptr_swap.
    mrun (get_ret _ _ _ Hi). mrun (get_ret _ _ _ Hj). eexists. split; [reflexivity|]. split; [|done].
    destruct (decide (i = j)) as [->|Hn]; [assert (p = q) as -> by congruence; unfold owners; simpl; by rewrite !list_insert_id by (rewrite ?list_insert_id; done)|].
    pose proof (set_ret s j (Some q) (Some 0) (hand s) Hj Ho) as O1.
    assert (<[j := Some 0]> (vars s) !! i = Some (Some p)) as Hi1 by by rewrite list_lookup_insert_ne.
    pose proof (set_ret (PState (live s) (<[j := Some 0]> (vars s)) (hand s)) i (Some p) (Some q) (hand s) Hi1 O1) as O2. simpl in O2.
    assert (<[i := Some q]> (<[j := Some 0]> (vars s)) !! j = Some (Some 0)) as Hj2.
    { rewrite list_lookup_insert_ne by done. apply list_lookup_insert_eq. by eapply lookup_lt_Some. }
    pose proof (set_ret (PState (live s) (<[i := Some q]> (<[j := Some 0]> (vars s))) (hand s)) j (Some 0) (Some p) (hand s) Hj2 O2) as O3. simpl in O3.
    by rewrite (list_insert_insert_ne _ i j), list_insert_insert_eq in O3 by done.
Qed.

Lemma urun_ret l s : pinv s -> uallowed l s = true -> exists s', urun l s = Ret tt s' /\ pinv s'.
Proof.
  revert s. induction l as [|o l IH]; intros s Hs Hl; [by exists s|]. simpl in *. apply andb_true_iff in Hl as [Hp Hl].
  destruct (uexec_ret o s Hs Hp) as (s1 & E & Hs1). rewrite E in Hl. mrun E. by apply IH.
Qed.

Definition no_objects (n : nat) : pstate := PState ∅ (replicate n None) [].

Lemma no_objects_inv n : pinv (no_objects n).
Proof. split; [|set_solver]. unfold owners, owned. simpl. rewrite elements_empty. induction n; [done|]. simpl. done. Qed.

(** C40: A program that uses [unique_ptr]s with constructors, moves, assignments (also
    of a pointer to itself), [release], [reset], [swap] and destructors never
    deletes an object twice: it runs to its end.  Every object that still exists
    has exactly one owner, a variable or the program itself, and when all variables are
    gone only the objects whose pointers the program holds exist. *)
Theorem unique_ptr_owns n l : uallowed l (no_objects n) = true ->
  exists s, urun l (no_objects n) = Ret tt s /\ elements (live s) ≡ₚ owned s ++ hand s /\
    (Forall (eq None) (vars s) -> elements (live s) ≡ₚ hand s).
Proof.
  intros Hl. destruct (urun_ret l _ (no_objects_inv n) Hl) as (s & E & [Ho Hz]). exists s. split_and!; [done|done|].
  intros Hv. rewrite Ho. unfold owned. replace (concat (owned_by <$> vars s)) with ([] : list Z); [done|].
  induction Hv as [|v vs <- _ IH]; [done|]. simpl. exact IH.
Qed.

Lemma unique_ptr_owns_witness :
  let l := [UAlloc 8; UOf 0 8; UNew 1; UAssign 1 0; UAssign 1 1; UAlloc 16; UReset 1 16; USwap 0 1; URelease 0; UDelete 0; UDelete 1] in
  exists s, urun l (no_objects 2) = Ret tt s /\ elements (live s) ≡ₚ owned s ++ hand s /\ hand s = [16].
Proof.
  intros l. destruct (unique_ptr_owns 2 l) as (s & E & Ho & _); [vm_compute; reflexivity|].
  exists s. split; [exact E|]. split; [exact Ho|]. vm_compute in E. by injection E as <-.
Defined.

(** ** [std::thread] *)

(** The threads that were started and not joined, and the [id_] of every variable. *)
Record tstate := TState { running : gset Z; tvars : list (option Z) }.

Definition get_id (i : nat) : M tstate Z := fun s =>
  match tvars s !! i with Some (Some t) => Ret t s | _ => Ub end.
Definition set_id (i : nat) (t : Z) : M tstate unit := modify (fun s => TState (running s) (<[i := Some t]> (tvars s))).

Definition joinable (i : nat) : M tstate bool := t ← get_id i; mret (negb (t =? -1)).
Definition tdie : M tstate unit := halt 1.

Definition thread_new (i : nat) : M tstate unit := set_id i (-1).

(** [r] and [tid] are the result of [pthread_create] and the thread that it started;
    [id] has a constructor from [int]. *)
Definition thread_start (i : nat) (r tid : Z) : M tstate unit :=
  if negb (r =? 0) then tdie
  else _ ← modify (fun s => TState ({[tid]} ∪ running s) (tvars s)); set_id i (s32 tid).

Definition thread_move (i j : nat) : M tstate unit := t ← get_id j; _ ← set_id i t; set_id j (-1).

Definition thread_delete (i : nat) : M tstate unit :=
  b ← joinable i;
  if b : bool then tdie else modify (fun s => TState (running s) (<[i := None]> (tvars s))).

Definition thread_move_assign (i j : nat) : M tstate unit :=
  b ← joinable i;
  if b : bool then tdie else t ← get_id j; _ ← set_id i t; set_id j (-1).

(** [tmp] is the local variable [k] of the function. *)
Definition thread_swap (k i j : nat) : M tstate unit :=
  _ ← thread_move k i; _ ← thread_move_assign i j; _ ← thread_move_assign j k; thread_delete k.

(** The end of a thread that [pthread_join] has waited for. *)
Definition reap (t : Z) : M tstate unit := fun s =>
  if bool_decide (t ∈ running s) then Ret tt (TState (running s ∖ {[t]}) (tvars s)) else Ub.

(** [self] is the calling thread and [r] the result of [pthread_join]. *)
Definition thread_join (i : nat) (self r : Z) : M tstate unit :=
  t ← get_id i;
  if t =? -1 then tdie
  else b ← joinable i;
  if negb b then tdie
  else if t =? s32 self then tdie
  else if negb (r =? 0) then tdie
  else _ ← reap t; set_id i (-1).

Inductive top :=
  | TNew (i : nat) | TStart (i : nat) (r tid : Z) | TMove (i j : nat) | TDelete (i : nat) | TAssign (i j : nat)
  | TSwap (k i j : nat) | TJoin (i : nat) (self r : Z).

Definition texec (o : top) : M tstate unit :=
  match o with
  | TNew i => thread_new i
  | TStart i r tid => thread_start i r tid
  | TMove i j => thread_move i j
  | TDelete i => thread_delete i
  | TAssign i j => thread_move_assign i j
  | TSwap k i j => thread_swap k i j
  | TJoin i self r => thread_join i self r
  end.

Fixpoint trun (l : list top) : M tstate unit :=
  match l with [] => mret tt | o :: l => _ ← texec o; trun l end.

Definition talive (s : tstate) (i : nat) : bool := match tvars s !! i with Some (Some _) => true | _ => false end.
Definition tunborn (s : tstate) (i : nat) : bool := match tvars s !! i with Some None => true | _ => false end.

(** Variables are constructed and then used, and a new thread has a positive
    number of type [int] that no other thread has. *)
Definition tpre (o : top) (s : tstate) : bool :=
  match o with
  | TNew i => tunborn s i
  | TStart i r tid => tunborn s i && (0 <? tid) && (tid <? 2 ^ 31) && bool_decide (tid ∉ running s)
  | TMove i j => tunborn s i && talive s j
  | TDelete i | TJoin i _ _ => talive s i
  | TAssign i j => talive s i && talive s j
  | TSwap k i j => tunborn s k && talive s i && talive s j
  end.

Fixpoint tallowed (l : list top) (s : tstate) : bool :=
  match l with
  | [] => true
  | o :: l => tpre o s && match texec o s with Ret _ s' => tallowed l s' | _ => true end
  end.

(** Every thread that runs belongs to one variable. *)
Definition held_by (v : option Z) : list Z := match v with Some t => if t =? -1 then [] else [t] | None => [] end.
Definition held (s : tstate) : list Z := concat (held_by <$> tvars s).
Definition tholds (s : tstate) (h : list Z) : Prop := elements (running s) ≡ₚ held s ++ h.

(** A call returns and the threads have their variables, or it ends the process. *)
Definition kept (o : outcome tstate unit) : Prop :=
  (exists s, o = Ret tt s /\ tholds s []) \/ exists s, o = Halt 1 s.

Lemma set_id_holds s i v v' h : tvars s !! i = Some v -> tholds s (held_by v' ++ h) ->
  tholds (TState (running s) (<[i := v']> (tvars s))) (held_by v ++ h).
Proof.
  intros Hv Ho. destruct (concat_focus held_by _ _ _ Hv) as (r & H1 & H2). unfold tholds, held in *. cbn [running tvars].
  rewrite Ho, H1, H2. solve_Permutation.
Qed.

Lemma get_id_ret s i t : tvars s !! i = Some (Some t) -> get_id i s = Ret t s.
Proof. intros H. unfold get_id. by rewrite H. Qed.

Lemma taliveb s i : talive s i = true -> exists p, tvars s !! i = Some (Some p).
Proof. unfold talive. destruct (tvars s !! i) as [[p|]|]; [eauto|done..]. Qed.

Lemma tunbornb s i : tunborn s i = true -> tvars s !! i = Some None.
Proof. unfold tunborn. by destruct (tvars s !! i) as [[p|]|]. Qed.

(** The handle of [j] moves to [i], which has none. *)
Lemma move_id_ret s i j v t h : tvars s !! i = Some v -> held_by v = [] -> tvars s !! j = Some (Some t) -> tholds s h ->
  exists s', (t ← get_id j; _ ← set_id i t; set_id j (-1)) s = Ret tt s' /\ tholds s' h /\
    tvars s' = <[j := Some (-1)]> (<[i := Some t]> (tvars s)).
Proof.
  intros Hi Hv Hj Ho. mrun (get_id_ret _ _ _ Hj). eexists. split; [reflexivity|]. split; [|done]. cbn [running tvars].
  destruct (decide (i = j)) as [->|Hn].
  - rewrite Hi in Hj. simplify_eq. rewrite list_insert_insert_eq. simpl in Hv.
    destruct (Z.eqb_spec t (-1)) as [->|]; [|done]. by apply (set_id_holds s j (Some (-1)) (Some (-1)) h).
  - pose proof (set_id_holds s j (Some t) (Some (-1)) h Hj Ho) as O1.
    pose proof (set_id_holds (TState (running s) (<[j := Some (-1)]> (tvars s))) i v (Some t) h) as O2.
    cbn [running tvars] in O2. rewrite Hv, list_lookup_insert_ne in O2 by done.
    rewrite (list_insert_insert_ne _ j i) by done. by apply O2.
Qed.

Lemma joinable_no s i : tvars s !! i = Some (Some (-1)) -> joinable i s = Ret false s.
Proof. intros Hi. unfold joinable. by mrun (get_id_ret _ _ _ Hi). Qed.

Lemma joinable_yes s i t : tvars s !! i = Some (Some t) -> t <> -1 -> joinable i s = Ret true s.
Proof. intros Hi Ht. unfold joinable. mrun (get_id_ret _ _ _ Hi). by rewrite (proj2 (Z.eqb_neq t (-1))). Qed.

Lemma thread_move_assign_ret s i j t h : tvars s !! i = Some (Some (-1)) -> tvars s !! j = Some (Some t) -> tholds s h ->
  exists s', thread_move_assign i j s = Ret tt s' /\ tholds s' h /\ tvars s' = <[j := Some (-1)]> (<[i := Some t]> (tvars s)).
Proof. intros Hi Hj Ho. unfold thread_move_assign. mrun (joinable_no _ _ Hi). by apply (move_id_ret s i j (Some (-1))). Qed.

Lemma thread_delete_ret s i h : tvars s !! i = Some (Some (-1)) -> tholds s h ->
  exists s', thread_delete i s = Ret tt s' /\ tholds s' h /\ tvars s' = <[i := None]> (tvars s).
Proof.
  intros Hi Ho. unfold thread_delete. mrun (joinable_no _ _ Hi). eexists. split; [reflexivity|]. split; [|done].
  by apply (set_id_holds s i (Some (-1)) None h).
Qed.

Lemma thread_swap_ret s k i j : tvars s !! k = Some None -> talive s i = true -> talive s j = true -> tholds s [] ->
  exists s', thread_swap k i j s = Ret tt s' /\ tholds s' [].
Proof.
  intros Hk Hi Hj Ho. apply taliveb in Hi as (a & Hi), Hj as (b & Hj).
  assert (k <> i) as N1 by congruence. assert (k <> j) as N2 by congruence.
  pose proof (lookup_lt_Some _ _ _ Hk). pose proof (lookup_lt_Some _ _ _ Hi). pose proof (lookup_lt_Some _ _ _ Hj).
  unfold thread_swap. destruct (move_id_ret s k i None a [] Hk eq_refl Hi Ho) as (s1 & E1 & O1 & V1).
  cbv [mbind M_bind]. unfold thread_move. rewrite E1.
  assert (tvars s1 !! i = Some (Some (-1))) as Hi1 by (rewrite V1; apply list_lookup_insert_eq; by rewrite length_insert).
  assert (exists b', tvars s1 !! j = Some (Some b')) as (b' & Hj1).
  { rewrite V1. destruct (decide (i = j)) as [->|]; [eexists; apply list_lookup_insert_eq; by rewrite length_insert|].
    exists b. by rewrite !list_lookup_insert_ne. }
  assert (tvars s1 !! k = Some (Some a)) as Hk1 by (rewrite V1, list_lookup_insert_ne by done; by apply list_lookup_insert_eq).
  destruct (thread_move_assign_ret s1 i j b' [] Hi1 Hj1 O1) as (s2 & -> & O2 & V2).
  assert (length (tvars s1) = length (tvars s)) as L1 by by rewrite V1, !length_insert.
  assert (tvars s2 !! j = Some (Some (-1))) as Hj2 by (rewrite V2; apply list_lookup_insert_eq; by rewrite length_insert, L1).
  assert (tvars s2 !! k = Some (Some a)) as Hk2 by (by rewrite V2, !list_lookup_insert_ne).
  destruct (thread_move_assign_ret s2 j k a [] Hj2 Hk2 O2) as (s3 & -> & O3 & V3).
  assert (tvars s3 !! k = Some (Some (-1))) as Hk3.
  { rewrite V3. apply list_lookup_insert_eq. by rewrite length_insert, V2, !length_insert, L1. }
  destruct (thread_delete_ret s3 k [] Hk3 O3) as (s4 & -> & O4 & _). eauto.
Qed.

Lemma texec_kept o s : tholds s [] -> tpre o s = true -> kept (texec o s).
Proof.
  intros Ho Hp. destruct o as [i|i r tid|i j|i|i j|k i j|i self r]; simpl in Hp |- *; rewrite ?andb_true_iff, ?bool_decide_eq_true in Hp.
  - apply tunbornb in Hp. left. eexists. split; [reflexivity|]. by apply (set_id_holds s i None (Some (-1)) []).
  - destruct Hp as [[[Hi H0] H1] Hf]. apply tunbornb in Hi. unfold thread_start. destruct (r =? 0); cbn [negb]; [|right; by eexists].
    left. eexists. split; [reflexivity|]. cbn [running tvars].
    assert (s32 tid = tid) as -> by (apply Z.ltb_lt in H0, H1; cint).
    assert (tholds (TState ({[tid]} ∪ running s) (tvars s)) (held_by (Some tid) ++ [])) as O1.
    { unfold tholds, held in *. simpl. apply Z.ltb_lt in H0. rewrite (proj2 (Z.eqb_neq tid (-1))) by lia.
      rewrite elements_disj_union, elements_singleton, Ho by set_solver. solve_Permutation. }
    exact (set_id_holds (TState ({[tid]} ∪ running s) (tvars s)) i None (Some tid) [] Hi O1).
  - destruct Hp as [Hi Hj]. apply tunbornb in Hi. apply taliveb in Hj as (t & Hj). left.
    destruct (move_id_ret s i j None t [] Hi eq_refl Hj Ho) as (s' & E & O' & _). eauto.
  - apply taliveb in Hp as (t & Hp). unfold thread_delete. destruct (decide (t = -1)) as [->|Hn].
    + left. destruct (thread_delete_ret s i [] Hp Ho) as (s' & E & O' & _). eauto.
    + right. exists s. by mrun (joinable_yes _ _ _ Hp Hn).
  - destruct Hp as [Hi Hj]. apply taliveb in Hi as (a & Hi), Hj as (b & Hj). destruct (decide (a = -1)) as [->|Hn].
    + left. destruct (thread_move_assign_ret s i j b [] Hi Hj Ho) as (s' & E & O' & _). eauto.
    + right. exists s. unfold thread_move_assign. by mrun (joinable_yes _ _ _ Hi Hn).
  - destruct Hp as [[Hk Hi] Hj]. apply tunbornb in Hk. left. by apply thread_swap_ret.
  - apply taliveb in Hp as (t & Hp). unfold thread_join. mrun (get_id_ret _ _ _ Hp).
    destruct (Z.eqb_spec t (-1)) as [|Hn]; [right; by eexists|].
    mrun (joinable_yes _ _ _ Hp Hn). cbn [negb]. destruct (t =? s32 self); [right; by eexists|].
    destruct (r =? 0); cbn [negb]; [|right; by eexists]. left.
    pose proof (set_id_holds s i (Some t) (Some (-1)) [] Hp Ho) as O1. simpl in O1. rewrite (proj2 (Z.eqb_neq t (-1))) in O1 by done.
    unfold tholds in *. cbn [running] in O1.
    assert (t ∈ running s) as Ht by (rewrite <- elem_of_elements, O1; set_solver).
    eexists. split; [cbv [mbind M_bind]; unfold reap; rewrite bool_decide_true by done; reflexivity|]. cbn [running tvars].
    assert (running s = {[t]} ∪ running s ∖ {[t]}) as E by (apply union_difference_L; set_solver).
    rewrite E, elements_disj_union, elements_singleton in O1 by set_solver.
    cbn [app] in O1. rewrite <- Permutation_middle in O1. by apply Permutation_cons_inv in O1.
Qed.

Definition no_threads (n : nat) : tstate := TState ∅ (replicate n None).

Lemma trun_kept l s : tholds s [] -> tallowed l s = true -> kept (trun l s).
Proof.
  revert s. induction l as [|o l IH]; intros s Hs Hl; [left; by exists s|]. simpl in *. apply andb_true_iff in Hl as [Hp Hl].
  destruct (texec_kept o s Hs Hp) as [(s1 & E & Hs1)|(s1 & E)]; cbv [mbind M_bind]; rewrite E in *; [by apply IH|right; eauto].
Qed.

(** A program that uses [std::thread]s either ends with an error message, or
    every thread that runs belongs to exactly one variable, which can be
    joined; so no thread is left behind when all variables are destroyed. *)
Theorem threads_joined n l : tallowed l (no_threads n) = true ->
  (exists s, trun l (no_threads n) = Ret tt s /\ elements (running s) ≡ₚ held s /\ (Forall (eq None) (tvars s) -> running s = ∅)) \/
  exists s, trun l (no_threads n) = Halt 1 s.
Proof.
  intros Hl. destruct (trun_kept l (no_threads n)) as [(s & E & Ho)|]; [|done| |by right].
  { unfold tholds, held. simpl. rewrite elements_empty, app_nil_r. clear Hl. by induction n. }
  left. exists s. unfold tholds in Ho. rewrite app_nil_r in Ho. split_and!; [done|done|]. intros Hv.
  apply leibniz_equiv, elements_empty_iff. apply Permutation_nil. rewrite Ho. unfold held.
  induction Hv as [|v vs <- _ IH]; [done|]. simpl. exact IH.
Qed.
