(* ===== verification/CxxShutil.v ===== *)
(** * Reading and writing whole buffers (cxx/libutil.cc, cxx/shutil.cc)

    These functions run on the system calls of the C library; the buffers are in
    the memory of the process.  [die] and [edie] print a message, which is not
    modelled, and end the process with status 1.  Calls that are interrupted are
    repeated, so the loops have a bound as argument. *)

From S2P Require Import Prelude CMem LBase LSyscall LStdio.

Section Shutil.
Context {K : Type} `{Kernel K} (fuel : nat).

Definition die {X} : M (proc K) X := halt 1.
Definition edie {X} : M (proc K) X := halt 1.

Definition xread (fd buf n : Z) : M (proc K) Z :=
  loop fuel (fun pos =>
    if pos <? n then
      r ← read fd (buf + pos) (u64 (n - pos));
      if r <? 0 then edie
      else if r =? 0 then mret (inr pos)
      else mret (inl (u64 (pos + r)))
    else mret (inr pos)) 0.

Definition xwrite (fd buf n : Z) : M (proc K) unit :=
  loop fuel (fun '(buf, n) =>
    if negb (n =? 0) then
      r ← write fd buf n;
      if (r <? 0) || (r =? 0) then edie else mret (inl (buf + r, u64 (n - r)))
    else mret (inr tt)) (buf, n).

(** A failing [assert] is [errx(-1, ...)]. *)
Definition writeall (fd buf n : Z) : M (proc K) Z :=
  loop fuel (fun pos =>
    if pos <? n then
      r ← write fd (buf + pos) (u64 (n - pos));
      if r =? 0 then errx (-1)
      else if r <? 0 then
        e ← errno;
        mret (if e =? EINTR then inl pos else inr pos)
      else mret (inl (u64 (pos + r)))
    else mret (inr pos)) 0.

Definition readall (fd buf n : Z) : M (proc K) Z :=
  loop fuel (fun pos =>
    if pos <? n then
      r ← read fd (buf + pos) (u64 (n - pos));
      if r <? 0 then
        e ← errno;
        mret (if e =? EINTR then inl pos else if pos =? 0 then inr (-1) else inr pos)
      else if r =? 0 then mret (inr pos)
      else mret (inl (u64 (pos + r)))
    else mret (inr pos)) 0.

(** [buf] is the array of 4096 bytes on the stack. *)
Definition copy_fd_n (buf dst src limit : Z) : M (proc K) Z :=
  loop fuel (fun res =>
    if res <? limit then
      r ← read src buf (if u64 (limit - res) <? 4096 then u64 (limit - res) else 4096);
      if r <? 0 then
        e ← errno;
        mret (if e =? EINTR then inl res else inr r)
      else if r =? 0 then mret (inr (s64 res))
      else
        r2 ← writeall dst buf r;
        mret (if negb (r =? s32 r2) then inr (-1) else inl (u64 (res + r)))
    else mret (inr (s64 res))) 0.

Definition copy_fd (buf dst src : Z) : M (proc K) Z := copy_fd_n buf dst src (u64 (-1)).

Definition mkdir_if_noent (path mode : Z) : M (proc K) Z :=
  r ← mkdir path mode;
  if r <? 0 then
    e ← errno;
    mret (if negb (e =? EEXIST) then -1 else 0)
  else mret 0.

Definition SEEK_SET : Z := 1.
Definition SEEK_END : Z := 4.

Definition fd_len (fd : Z) : M (proc K) Z :=
  pos ← lseek fd 0 SEEK_CUR;
  if pos <? 0 then mret (-1)
  else
    end_ ← lseek fd 0 SEEK_END;
    if end_ <? 0 then mret (-1)
    else
      r ← lseek fd pos SEEK_SET;
      if negb (r =? 0) then edie else mret end_.
End Shutil.

(** ** Correctness *)

(** A kernel that interrupts no call and writes a byte at least. *)
Definition steady {K} `{Kernel K} : Prop :=
  (forall m k fd a n r m' k', ktrap SYS_WRITE (trap_args karch fd a n 0 0 0) m k = Some (r, m', k') -> 0 < n -> r <> 0 /\ r <> - EINTR) /\
  (forall m k fd a n r m' k', ktrap SYS_READ (trap_args karch fd a n 0 0 0) m k = Some (r, m', k') -> r <> - EINTR).

Section Correct.
Context {K : Type} {KK : Kernel K} {FK : FileKernel K} (Hsteady : steady).
Implicit Types (p q : proc K) (l : list byte).

(** Only the descriptor [fd] is written to, nothing is read. *)
Definition wrote p q (fd : Z) l : Prop :=
  p_mem q = p_mem p /\ kout (p_kern q) fd = kout (p_kern p) fd ++ l /\
  (forall fd', fd' <> fd -> kout (p_kern q) fd' = kout (p_kern p) fd') /\ (forall fd', kin (p_kern q) fd' = kin (p_kern p) fd').

Lemma wrote_nil p q fd :
  p_mem q = p_mem p -> (forall fd', kout (p_kern q) fd' = kout (p_kern p) fd') -> (forall fd', kin (p_kern q) fd' = kin (p_kern p) fd') ->
  wrote p q fd [].
Proof. intros Hm Ho Hi. split_and!; [done| |done|done]. by rewrite app_nil_r. Qed.

Lemma wrote_trans p q r fd l l' : wrote p q fd l -> wrote q r fd l' -> wrote p r fd (l ++ l').
Proof.
  intros (M1 & O1 & X1 & I1) (M2 & O2 & X2 & I2). split_and!.
  - congruence.
  - by rewrite O2, O1, app_assoc.
  - intros fd' Hne. by rewrite X2, X1.
  - intros fd'. by rewrite I2, I1.
Qed.

Lemma write_steady p fd a l :
  0 <= fd < 2 ^ 31 -> 0 < a < 2 ^ 62 -> bytes_at (p_mem p) a l -> 0 < Z.of_nat (length l) < 2 ^ 31 ->
  exists r q, write fd a (Z.of_nat (length l)) p = Ret r q /\
    ((r = -1 /\ p_errno q <> EINTR /\ wrote p q fd []) \/
     (exists n, r = Z.of_nat n /\ (0 < n <= length l)%nat /\ wrote p q fd (take n l))).
Proof.
  intros Hfd Ha Hl Hlen. unfold write, int_neg, syscall, syscall6.
  assert (SA a = a) as -> by (unfold SA; apply swrap_id; unfold_int; lia).
  assert (SA (Z.of_nat (length l)) = Z.of_nat (length l)) as -> by (unfold SA; apply swrap_id; unfold_int; lia).
  destruct (kwrite (p_mem p) (p_kern p) fd a l Hfd Hl ltac:(lia)) as (r & k' & E & _ & Ho & Hi & Hr).
  destruct (proj1 Hsteady _ _ _ _ _ _ _ _ E ltac:(lia)) as [Hnz Hni].
  unfold ERRNO_LAST, ERRNO_FIRST, EINTR in *. munfold. rewrite E.
  assert (s32 (s64 r) = r) as Er by (rewrite (swrap_id 64), (swrap_id 32) by (unfold_int; lia); done). rewrite Er.
  unfold ERRNO_NEG, neg_errno, seterrno. destruct Hr as [[Hr Hk]|[Hr Hk]].
  - rewrite (proj2 (Z.ltb_lt r 0)) by lia. munfold. rewrite schk_ret by (unfold_int; lia).
    eexists _, _. split; [done|]. left. simpl. rewrite swrap_id by (unfold_int; lia). split_and!; [done|lia|].
    apply wrote_nil; [done| |done]. intros fd'. destruct (decide (fd' = fd)) as [->|]; [done|by apply Ho].
  - rewrite (proj2 (Z.ltb_ge r 0)) by lia. eexists _, _. split; [done|]. right. exists (Z.to_nat r). split_and!; [lia|lia|lia|].
    by split_and!.
Qed.

Lemma read_steady p fd a len :
  0 <= fd < 2 ^ 31 -> 0 < a < 2 ^ 62 -> mapped (p_mem p) a len -> 0 < len < 2 ^ 31 ->
  exists r q, read fd a len p = Ret r q /\ (forall fd', kout (p_kern q) fd' = kout (p_kern p) fd') /\
    (forall fd', fd' <> fd -> kin (p_kern q) fd' = kin (p_kern p) fd') /\
    ((r = -1 /\ p_errno q <> EINTR /\ p_mem q = p_mem p /\ kin (p_kern q) fd = kin (p_kern p) fd) \/
     (exists l, r = Z.of_nat (length l) /\ Z.of_nat (length l) <= len /\ kin (p_kern p) fd = l ++ kin (p_kern q) fd /\
        (l = [] -> kin (p_kern p) fd = []) /\ p_mem q = mwrite (p_mem p) a l)).
Proof.
  intros Hfd Ha Hm Hlen. unfold read, int_neg, syscall, syscall6.
  assert (SA fd = fd) as -> by (unfold SA; apply swrap_id; unfold_int; lia).
  assert (SA a = a) as -> by (unfold SA; apply swrap_id; unfold_int; lia).
  assert (SA len = len) as -> by (unfold SA; apply swrap_id; unfold_int; lia).
  destruct (kread (p_mem p) (p_kern p) fd a len Hfd Hm Hlen) as (r & m' & k' & E & _ & Hi & Ho & Hr).
  pose proof (proj2 Hsteady _ _ _ _ _ _ _ _ E) as Hni. unfold ERRNO_LAST, ERRNO_FIRST, EINTR in *. munfold. rewrite E.
  assert (s32 (s64 r) = r) as Er by (rewrite (swrap_id 64), (swrap_id 32) by (unfold_int; lia); done). rewrite Er.
  unfold ERRNO_NEG, neg_errno, seterrno. destruct Hr as [(Hr & Hk & ->)|(Hr & Hk & Hl & Hz & ->)].
  - rewrite (proj2 (Z.ltb_lt r 0)) by lia. munfold. rewrite schk_ret by (unfold_int; lia).
    eexists _, _. split; [done|]. split_and!; [done|done|]. left. simpl. rewrite swrap_id by (unfold_int; lia). split_and!; [done|lia|done|done].
  - rewrite (proj2 (Z.ltb_ge r 0)) by lia. eexists _, _. split; [done|]. split_and!; [done|done|]. right.
    exists (take (Z.to_nat r) (kin (p_kern p) fd)). rewrite Hl. split_and!; [lia|lia|done| |done].
    intros H0. apply Hz. rewrite H0 in Hl. simpl in Hl. lia.
Qed.

(** [writeall] writes everything, or up to an error. *)
Lemma writeall_ret fuel p fd a l :
  0 <= fd < 2 ^ 31 -> 0 < a -> a + Z.of_nat (length l) < 2 ^ 62 -> bytes_at (p_mem p) a l -> Z.of_nat (length l) < 2 ^ 31 ->
  (length l < fuel)%nat ->
  exists n q, writeall fuel fd a (Z.of_nat (length l)) p = Ret (Z.of_nat n) q /\ (n <= length l)%nat /\ wrote p q fd (take n l).
Proof.
  intros Hfd Ha Hal Hl Hlen Hf. unfold writeall. loop_body B.
  enough (forall fuel pos p, (length l - pos < fuel)%nat -> (pos <= length l)%nat -> bytes_at (p_mem p) a l ->
    exists n q, loop fuel B (Z.of_nat pos) p = Ret (Z.of_nat n) q /\ (pos <= n <= length l)%nat /\ wrote p q fd (take (n - pos) (drop pos l))) as G.
  { destruct (G fuel 0%nat p) as (n & q & E & Hn & Hw); [lia|lia|done|]. exists n, q. rewrite drop_0, Nat.sub_0_r in Hw. split_and!; [done|lia|done]. }
  clear fuel p Hl Hf. induction fuel as [|fuel IH]; intros pos p Hf Hpos Hl; [lia|]. rewrite loop_S. unfold B at 1.
  destruct (Z.ltb_spec (Z.of_nat pos) (Z.of_nat (length l))) as [Hlt|Hge].
  2:{ exists pos, p. split; [done|]. split; [lia|]. rewrite Nat.sub_diag. by apply wrote_nil. }
  assert (bytes_at (p_mem p) (a + Z.of_nat pos) (drop pos l)) as Hd.
  { rewrite <- (take_drop pos l) in Hl. apply bytes_at_app in Hl as [_ Hl]. by rewrite length_take, Nat.min_l in Hl by lia. }
  pose proof (length_drop l pos) as Hdl.
  rewrite (uwrap_id 64) by (unfold_int; lia). replace (Z.of_nat (length l) - Z.of_nat pos) with (Z.of_nat (length (drop pos l))) by lia.
  destruct (write_steady p fd (a + Z.of_nat pos) (drop pos l)) as (r & q & E & Hr); [done|lia|done|lia|]. mrun E.
  destruct Hr as [(-> & He & Hw)|(n & -> & Hn & Hw)].
  - cbn -[EINTR]. unfold errno. munfold. rewrite (proj2 (Z.eqb_neq _ _)) by done. exists pos, q. split; [done|].
    split; [lia|]. by rewrite Nat.sub_diag.
  - rewrite (proj2 (Z.eqb_neq _ 0)), (proj2 (Z.ltb_ge _ 0)) by lia. rewrite uwrap_id by (unfold_int; lia). munfold.
    replace (Z.of_nat pos + Z.of_nat n) with (Z.of_nat (pos + n)) by lia.
    destruct (IH (pos + n)%nat q) as (n' & q' & E' & Hn' & Hw'); [lia|lia|by rewrite (proj1 Hw)|].
    exists n', q'. split; [done|]. split; [lia|]. pose proof (wrote_trans _ _ _ _ _ _ Hw Hw') as Ht.
    rewrite <- drop_drop in Ht. replace (n' - pos)%nat with (n + (n' - (pos + n)))%nat by lia. by rewrite <- take_take_drop.
Qed.

(** The part of an input that a limit allows. *)
Definition upto (limit : Z) (c : list byte) : list byte := take (Z.to_nat (Z.min limit (Z.of_nat (length c)))) c.
Definition beyond (limit : Z) (c : list byte) : list byte := drop (Z.to_nat (Z.min limit (Z.of_nat (length c)))) c.

Lemma upto_app limit l c : Z.of_nat (length l) <= limit -> upto limit (l ++ c) = l ++ upto (limit - Z.of_nat (length l)) c.
Proof.
  intros Hl. unfold upto. rewrite length_app, take_app_ge by lia. do 2 f_equal. lia.
Qed.

Lemma beyond_app limit l c : Z.of_nat (length l) <= limit -> beyond limit (l ++ c) = beyond (limit - Z.of_nat (length l)) c.
Proof. intros Hl. unfold beyond. rewrite length_app, drop_app_ge by lia. f_equal. lia. Qed.

(** Bytes went from [src] to [dst] through the buffer. *)
Record moved p q (buf dst src : Z) (w : list byte) : Prop := {
  mv_out : kout (p_kern q) dst = kout (p_kern p) dst ++ w;
  mv_out' fd : fd <> dst -> kout (p_kern q) fd = kout (p_kern p) fd;
  mv_in fd : fd <> src -> kin (p_kern q) fd = kin (p_kern p) fd;
  mv_mem b : ~ (buf <= b < buf + 4096) -> p_mem q !! b = p_mem p !! b;
  mv_buf : mapped (p_mem q) buf 4096
}.

Lemma moved_trans p q r buf dst src w w' : moved p q buf dst src w -> moved q r buf dst src w' -> moved p r buf dst src (w ++ w').
Proof.
  intros [O1 X1 I1 M1 B1] [O2 X2 I2 M2 B2]. split.
  - by rewrite O2, O1, app_assoc.
  - intros fd Hfd. by rewrite X2, X1.
  - intros fd Hfd. by rewrite I2, I1.
  - intros b Hb. by rewrite M2, M1.
  - done.
Qed.

Lemma fd_copy_loop_ret fuel f B buf dst src limit res p :
  (forall res p, B res p = (if res <? limit then
     r ← read src buf (if u64 (limit - res) <? 4096 then u64 (limit - res) else 4096);
     if r <? 0 then e ← errno; mret (if e =? EINTR then inl res else inr r)
     else if r =? 0 then mret (inr (s64 res))
     else r2 ← writeall f dst buf r; mret (if negb (r =? s32 r2) then inr (-1) else inl (u64 (res + r)))
   else mret (inr (s64 res))) p) ->
  0 <= dst < 2 ^ 31 -> 0 <= src < 2 ^ 31 -> 0 < buf < 2 ^ 47 -> (4096 < f)%nat -> limit < 2 ^ 64 -> 0 <= res ->
  mapped (p_mem p) buf 4096 -> res + Z.of_nat (length (kin (p_kern p) src)) < 2 ^ 63 -> res <= limit ->
  (length (kin (p_kern p) src) < fuel)%nat ->
  exists r q w, loop fuel B res p = Ret r q /\ moved p q buf dst src w /\
    ((r = -1 /\ w `prefix_of` upto (limit - res) (kin (p_kern p) src)) \/
     (r = res + Z.of_nat (length w) /\ w = upto (limit - res) (kin (p_kern p) src) /\
      kin (p_kern q) src = beyond (limit - res) (kin (p_kern p) src))).
Proof.
  intros HB Hdst Hsrc Hbuf Hf4 Hlim. revert res p. induction fuel as [|fuel IH]; intros res p Hres Hm Hlen Hle Hf; [lia|].
  rewrite loop_S, HB. assert (moved p p buf dst src []) as Hrefl by (split; try done; by rewrite app_nil_r).
  assert (s64 res = res) as Es by (apply swrap_id; unfold_int; lia).
  destruct (Z.ltb_spec res limit) as [Hlt|Hge].
  2:{ exists res, p, []. munfold. rewrite Es. split; [done|]. split; [done|]. right. unfold upto, beyond.
      replace (Z.to_nat (Z.min (limit - res) _)) with 0%nat by lia. by rewrite Z.add_0_r. }
  rewrite (uwrap_id 64) by (unfold_int; lia). set (n := if limit - res <? 4096 then limit - res else 4096).
  assert (0 < n <= 4096 /\ n <= limit - res) as [Hn Hnl] by (unfold n; destruct (Z.ltb_spec (limit - res) 4096); lia).
  destruct (read_steady p src buf n) as (r & q & E & Ho & Hi & Hr); [done|lia|by apply (mapped_le _ buf 4096); [|lia..]|lia|].
  mrun E. destruct Hr as [(-> & He & Hmq & Hk)|(l & -> & Hll & Hk & Hz & Hmq)].
  { cbn -[EINTR]. unfold errno. munfold. rewrite (proj2 (Z.eqb_neq _ _)) by done. exists (-1), q, []. split; [done|].
    split; [|left; split; [done|apply prefix_nil]]. split; [rewrite Ho; by rewrite app_nil_r|by intros; rewrite Ho| |by rewrite Hmq|by rewrite Hmq].
    intros fd Hfd. by apply Hi. }
  assert (mapped (p_mem q) buf 4096) as Hmq' by (rewrite Hmq; by apply mapped_mwrite).
  assert (forall b, ~ (buf <= b < buf + 4096) -> p_mem q !! b = p_mem p !! b) as Hout.
  { intros b Hb. rewrite Hmq. apply mwrite_out. lia. }
  rewrite (proj2 (Z.ltb_ge _ 0)) by lia. destruct (Z.eqb_spec (Z.of_nat (length l)) 0) as [E0|E0].
  { assert (l = []) as -> by (destruct l; [done|simpl in E0; lia]). specialize (Hz eq_refl). exists res, q, []. munfold. rewrite Es.
    split; [done|]. split; [split; [rewrite Ho; by rewrite app_nil_r|by intros; rewrite Ho|by intros; apply Hi|done|done]|]. right.
    rewrite Hz in *. simpl in Hk. rewrite <- Hk. unfold upto, beyond. rewrite take_nil, drop_nil, Z.add_0_r. done. }
  destruct (writeall_ret f q dst buf l) as (n2 & q2 & E2 & Hn2 & Hw); [done|lia|lia|rewrite Hmq; apply bytes_at_mwrite|lia|lia|].
  mrun E2. destruct Hw as (Wm & Wo & Wx & Wi).
  assert (moved p q2 buf dst src (take n2 l)) as Hmv.
  { split; [by rewrite Wo, Ho|intros; by rewrite Wx, Ho|intros; by rewrite Wi, Hi| |by rewrite Wm].
    intros b Hb. rewrite Wm. by apply Hout. }
  rewrite swrap_id by (unfold_int; lia). rewrite Hk, upto_app by lia.
  destruct (Z.eqb_spec (Z.of_nat (length l)) (Z.of_nat n2)) as [En|En]; cbn [negb].
  2:{ exists (-1), q2, (take n2 l). split; [done|]. split; [done|]. left. split; [done|]. by apply prefix_app_r, prefix_take. }
  rewrite take_ge in Hmv by lia. rewrite uwrap_id by (unfold_int; rewrite Hk, length_app in Hlen; lia). munfold.
  assert (kin (p_kern q2) src = kin (p_kern q) src) as Hk2 by apply Wi. rewrite Hk, length_app in Hlen, Hf.
  destruct (IH (res + Z.of_nat (length l)) q2) as (r & q' & w & EL & Hmv' & Hr);
    [lia|by rewrite Wm|rewrite Hk2; lia|lia|rewrite Hk2; lia|].
  exists r, q', (l ++ w). split; [done|]. split; [by eapply moved_trans|]. rewrite Hk2 in Hr.
  replace (limit - (res + Z.of_nat (length l))) with (limit - res - Z.of_nat (length l)) in Hr by lia. destruct Hr as [[-> Hr]|(-> & -> & Hr)].
  - left. split; [done|]. by apply prefix_app.
  - right. rewrite length_app. split_and!; [lia|done|]. rewrite Hr. by rewrite beyond_app by lia.
Qed.
(** C37: [copy_fd_n] copies what [src] has to give, up to the limit.  It returns
    the number of bytes copied, all of them in order behind what [dst] had; or -1
    after an error, with a part of them copied.  It touches no other descriptor,
    and no memory but its buffer.  The kernel interrupts no call and takes at least
    one byte of a write ([steady]). *)
Theorem copy_fd_n_correct fuel p buf dst src limit :
  0 <= dst < 2 ^ 31 -> 0 <= src < 2 ^ 31 -> 0 < buf < 2 ^ 47 -> 0 <= limit < 2 ^ 64 -> mapped (p_mem p) buf 4096 ->
  Z.of_nat (length (kin (p_kern p) src)) < 2 ^ 63 -> (length (kin (p_kern p) src) < fuel)%nat -> (4096 < fuel)%nat ->
  exists r q w, copy_fd_n fuel buf dst src limit p = Ret r q /\ moved p q buf dst src w /\
    ((r = -1 /\ w `prefix_of` upto limit (kin (p_kern p) src)) \/
     (r = Z.of_nat (length w) /\ w = upto limit (kin (p_kern p) src) /\ kin (p_kern q) src = beyond limit (kin (p_kern p) src))).
Proof.
  intros Hdst Hsrc Hbuf Hlim Hm Hlen Hf Hf4. unfold copy_fd_n. loop_body B.
  destruct (fd_copy_loop_ret fuel fuel B buf dst src limit 0 p) as (r & q & w & E & Hmv & Hr); try done; try lia.
  rewrite Z.sub_0_r in Hr. by exists r, q, w.
Qed.

(** [xwrite] writes everything, or ends the program. *)
Lemma xwrite_ret fuel p fd a l :
  0 <= fd < 2 ^ 31 -> 0 < a -> a + Z.of_nat (length l) < 2 ^ 62 -> bytes_at (p_mem p) a l -> Z.of_nat (length l) < 2 ^ 31 ->
  (length l < fuel)%nat ->
  (exists q, xwrite fuel fd a (Z.of_nat (length l)) p = Ret tt q /\ wrote p q fd l) \/
  (exists q n, xwrite fuel fd a (Z.of_nat (length l)) p = Halt 1 q /\ wrote p q fd (take n l)).
Proof.
  intros Hfd Ha Hal Hl Hlen Hf. unfold xwrite. loop_body B. revert a l p Ha Hal Hl Hlen Hf.
  induction fuel as [|fuel IH]; intros a l p Ha Hal Hl Hlen Hf; [lia|]. rewrite loop_S. unfold B at 1 3.
  destruct (Z.eqb_spec (Z.of_nat (length l)) 0) as [E0|E0]; cbn [negb].
  { left. exists p. split; [done|]. destruct l; [by apply wrote_nil|simpl in E0; lia]. }
  destruct (write_steady p fd a l) as (r & q & E & Hr); [done|lia|done|lia|]. rewrite !(bind_ret _ _ _ _ _ E). cbn beta.
  destruct Hr as [(-> & He & Hw)|(n & -> & Hn & Hw)].
  { right. exists q, 0%nat. split; [done|]. by rewrite take_0. }
  rewrite (proj2 (Z.ltb_ge _ 0)), (proj2 (Z.eqb_neq _ 0)) by lia. cbn [orb]. rewrite uwrap_id by (unfold_int; lia). munfold.
  replace (Z.of_nat (length l) - Z.of_nat n) with (Z.of_nat (length (drop n l))) by (rewrite length_drop; lia).
  assert (bytes_at (p_mem q) (a + Z.of_nat n) (drop n l)) as Hd.
  { rewrite (proj1 Hw). rewrite <- (take_drop n l) in Hl. apply bytes_at_app in Hl as [_ Hl]. by rewrite length_take, Nat.min_l in Hl by lia. }
  destruct (IH (a + Z.of_nat n) (drop n l) q) as [(q' & E' & Hw')|(q' & n' & E' & Hw')]; try (rewrite length_drop; lia); [lia|done|..].
  - left. exists q'. split; [done|]. rewrite <- (take_drop n l). by eapply wrote_trans.
  - right. exists q', (n + n')%nat. split; [done|]. rewrite <- take_take_drop. by eapply wrote_trans.
Qed.

(** [xread] reads as much as there is, or ends the program. *)
Lemma xread_ret fuel p fd a n :
  0 <= fd < 2 ^ 31 -> 0 < a -> a + n < 2 ^ 62 -> 0 <= n < 2 ^ 31 -> mapped (p_mem p) a n -> (Z.to_nat n < fuel)%nat ->
  (exists l q, xread fuel fd a n p = Ret (Z.of_nat (length l)) q /\ kin (p_kern p) fd = l ++ kin (p_kern q) fd /\
     l = upto n (kin (p_kern p) fd) /\ p_mem q = mwrite (p_mem p) a l /\
     (forall fd', kout (p_kern q) fd' = kout (p_kern p) fd') /\ (forall fd', fd' <> fd -> kin (p_kern q) fd' = kin (p_kern p) fd')) \/
  (exists q, xread fuel fd a n p = Halt 1 q).
Proof.
  intros Hfd Ha Han Hn Hm Hf. unfold xread. loop_body B.
  enough (forall fuel l0 p0, (Z.to_nat n - length l0 < fuel)%nat -> Z.of_nat (length l0) <= n -> mapped (p_mem p0) a n ->
    (exists l q, loop fuel B (Z.of_nat (length l0)) p0 = Ret (Z.of_nat (length (l0 ++ l))) q /\ kin (p_kern p0) fd = l ++ kin (p_kern q) fd /\
       l = upto (n - Z.of_nat (length l0)) (kin (p_kern p0) fd) /\ p_mem q = mwrite (p_mem p0) (a + Z.of_nat (length l0)) l /\
       (forall fd', kout (p_kern q) fd' = kout (p_kern p0) fd') /\ (forall fd', fd' <> fd -> kin (p_kern q) fd' = kin (p_kern p0) fd')) \/
    (exists q, loop fuel B (Z.of_nat (length l0)) p0 = Halt 1 q)) as G.
  { specialize (G fuel [] p). simpl in G. rewrite Z.sub_0_r, Z.add_0_r in G. apply G; [lia|lia|done]. }
  clear Hf Hm fuel. induction fuel as [|fuel IH]; intros l0 p0 Hf Hl0 Hm; [lia|]. rewrite loop_S. unfold B at 1 3.
  destruct (Z.ltb_spec (Z.of_nat (length l0)) n) as [Hlt|Hge].
  2:{ left. exists [], p0. rewrite app_nil_r. unfold upto. replace (Z.to_nat (Z.min _ _)) with 0%nat by lia. done. }
  rewrite (uwrap_id 64) by (unfold_int; lia).
  destruct (read_steady p0 fd (a + Z.of_nat (length l0)) (n - Z.of_nat (length l0))) as (r & q & E & Ho & Hi & Hr);
    [done|lia|by apply (mapped_le _ a n); [|lia..]|lia|]. rewrite !(bind_ret _ _ _ _ _ E). cbn beta.
  destruct Hr as [(-> & He & Hmq & Hk)|(l & -> & Hll & Hk & Hz & Hmq)].
  { right. by exists q. }
  rewrite (proj2 (Z.ltb_ge _ 0)) by lia. destruct (Z.eqb_spec (Z.of_nat (length l)) 0) as [E0|E0].
  { left. assert (l = []) as -> by (destruct l; [done|simpl in E0; lia]). specialize (Hz eq_refl). exists [], q. rewrite app_nil_r.
    rewrite Hz in *. simpl in Hk. rewrite <- Hk. unfold upto. by rewrite take_nil. }
  rewrite uwrap_id by (unfold_int; lia). munfold. rewrite <- Nat2Z.inj_add, <- length_app.
  destruct (IH (l0 ++ l) q) as [(l' & q' & E' & Hk' & Hl' & Hm' & Ho' & Hi')|(q' & E')];
    [rewrite length_app; lia|rewrite length_app; lia|rewrite Hmq; by apply mapped_mwrite|left|right; by exists q'].
  exists (l ++ l'), q'. rewrite length_app in Hl', Hm'. split_and!.
  - by rewrite E', app_assoc.
  - by rewrite Hk, Hk', app_assoc.
  - rewrite Hk, upto_app by lia. rewrite Hl'. do 2 f_equal. lia.
  - rewrite Hm', Hmq, mwrite_app'. f_equal. lia.
  - intros fd'. by rewrite Ho', Ho.
  - intros fd' Hfd'. by rewrite Hi', Hi.
Qed.

(** [fd_len] of a file whose position is not the start ends the program, although
    it has set the position back. *)
Lemma fd_len_dies p fd pos k1 len k2 k3 :
  0 <= fd < 2 ^ 31 -> 0 < pos < 2 ^ 31 -> 0 <= len < 2 ^ 31 ->
  ktrap SYS_LSEEK (trap_args karch fd 0 SEEK_CUR 0 0 0) (p_mem p) (p_kern p) = Some (pos, p_mem p, k1) ->
  ktrap SYS_LSEEK (trap_args karch fd 0 SEEK_END 0 0 0) (p_mem p) k1 = Some (len, p_mem p, k2) ->
  ktrap SYS_LSEEK (trap_args karch fd pos SEEK_SET 0 0 0) (p_mem p) k2 = Some (pos, p_mem p, k3) ->
  fd_len fd p = Halt 1 (Proc (p_mem p) (p_errno p) k3).
Proof.
  intros Hfd Hpos Hlen T1 T2 T3.
  assert (forall z, 0 <= z < 2 ^ 31 -> SA z = z) as Hsa by (intros; unfold SA; apply swrap_id; unfold_int; lia).
  assert (forall z, 0 <= z < 2 ^ 31 -> s32 (s64 z) = z) as Hs by (intros; rewrite (swrap_id 64), (swrap_id 32) by (unfold_int; lia); done).
  assert (forall p off wh r k, 0 <= off < 2 ^ 31 -> 0 <= wh < 2 ^ 31 -> 0 <= r < 2 ^ 31 ->
    ktrap SYS_LSEEK (trap_args karch fd off wh 0 0 0) (p_mem p) (p_kern p) = Some (r, p_mem p, k) ->
    lseek fd off wh p = Ret r (Proc (p_mem p) (p_errno p) k)) as L.
  { intros p' off wh r k Ho Hw Hr T. unfold lseek, int_neg, syscall, syscall6. rewrite !Hsa by done. munfold. rewrite T, Hs by done.
    unfold ERRNO_NEG. by rewrite (proj2 (Z.ltb_ge r 0)) by lia. }
  unfold fd_len. mrun (L p 0 SEEK_CUR pos k1 ltac:(done) ltac:(done) ltac:(lia) T1). rewrite (proj2 (Z.ltb_ge pos 0)) by lia.
  mrun (L (Proc (p_mem p) (p_errno p) k1) 0 SEEK_END len k2 ltac:(done) ltac:(done) ltac:(done) T2). rewrite (proj2 (Z.ltb_ge len 0)) by lia.
  mrun (L (Proc (p_mem p) (p_errno p) k2) pos SEEK_SET pos k3 ltac:(lia) ltac:(done) ltac:(lia) T3).
  by rewrite (proj2 (Z.eqb_neq pos 0)) by lia.
Qed.
End Correct.

(** ** A concrete run *)

Lemma files_steady : steady (K := files).
Proof.
  split.
  - intros m k fd a n r m' k'. cbn. destruct (mread m a (Z.to_nat n)) as [l|] eqn:E; intros [= <- <- <-] Hn.
    + apply mread_length in E. unfold EINTR. lia.
    + done.
  - intros m k fd a n r m' k'. cbn. intros [= <- _ _]. unfold EINTR. lia.
Qed.

Definition demo_proc : proc files := Proc (mwrite ∅ 65536 (replicate (Z.to_nat 4096) x00)) 0 (∅, <[0 := str "one two"]> ∅).

Lemma copy_fd_n_correct_witness :
  exists r q w, copy_fd_n (Z.to_nat 5000) 65536 3 0 5 demo_proc = Ret r q /\ moved demo_proc q 65536 3 0 w /\
    ((r = -1 /\ w `prefix_of` upto 5 (kin (p_kern demo_proc) 0)) \/
     (r = Z.of_nat (length w) /\ w = upto 5 (kin (p_kern demo_proc) 0) /\ kin (p_kern q) 0 = beyond 5 (kin (p_kern demo_proc) 0))).
Proof.
  assert (kin (p_kern demo_proc) 0 = str "one two") as E by (vm_compute; reflexivity).
  apply (copy_fd_n_correct files_steady (Z.to_nat 5000) demo_proc 65536 3 0 5); [lia|lia|lia|lia| |rewrite E; reflexivity| |lia].
  2:{ rewrite E. change (length (str "one two")) with 7%nat. lia. }
  pose proof (bytes_at_mapped _ 65536 _ (bytes_at_mwrite ∅ 65536 (replicate (Z.to_nat 4096) x00))) as Hm.
  rewrite length_replicate, Z2Nat.id in Hm by lia. exact Hm.
Defined.
