(* ===== verification/CxxMail.v ===== *)
(** * The mail queue (cxx/mail-enqueue.cc, cxx/mail-qman.cc, cxx/mail-deliver.cc)

    Processes that queue messages, the threads of the queue manager and the
    deliveries they start work on one spool directory and on the mailboxes.  Each
    system call that changes or looks up a file is a step, and the steps of all
    processes interleave.  A file is an inode number with its name and contents;
    a new file gets any number that no file has, so numbers are used again.
    What the protocol relies on is the order of the calls and the names: a message
    is known by the inode number of its file.  The copies of a message are one
    step, as the theorems on [copy_fd_n] describe them.

    A recipient without a mailbox makes the delivery fail and with it the whole
    queue manager; a notification that is sent when the queue manager has ended
    fails.  Otherwise calls that fail for other reasons than a missing or existing
    name are not steps.  The queue manager runs without [-p], so every message has a
    delivery process of its own. *)

From S2P Require Import Prelude.

(** ** Files *)

Inductive fname :=
  | NPid (pid : nat)                 (** spool/pid/<pid> *)
  | NMess (n : Z)                    (** spool/mess/<n> *)
  | NTodo (n : Z)                    (** spool/todo/<n> *)
  | NTmp (box : list Z) (t : nat)    (** mailbox/tmp/<pid.seqno>, of the one delivery thread [t] waits for *)
  | NNew (box : list Z) (n : Z).  (** mailbox/new/<n> *)

#[export] Instance fname_eq_dec : EqDecision fname.
Proof. solve_decision. Defined.

Abbreviation files := (gmap Z (fname * list Z)).

Definition named (f : files) (nm : fname) (i : Z) (c : list Z) : Prop := f !! i = Some (nm, c).
Definition absent (f : files) (nm : fname) : Prop := forall i c, ~ named f nm i c.

(** [open] with [O_CREAT|O_EXCL], a write of the whole contents, [unlink] by the
    inode, and [rename], which removes the file that has the new name *)
Definition create (f : files) (i : Z) (nm : fname) : files := <[i := (nm, [])]> f.
Definition set_contents (f : files) (i : Z) (c : list Z) : files := alter (fun x => (x.1, c)) i f.
Definition remove (f : files) (i : Z) : files := delete i f.
Definition rename (f : files) (i : Z) (nm : fname) : files :=
  match f !! i with
  | Some (_, c) => <[i := (nm, c)]> (filter (fun x => x.2.1 <> nm) f)
  | None => f
  end.

(** ** Processes *)

(** A queued message: its inode number, which is all that the notification says;
    and, for the statements only, the number of the envelope, the text and the
    recipient. *)
Record mail := Mail { m_ino : Z; m_env : Z; m_text : list Z; m_rcpt : list Z }.

(** What is sent to the notification socket: a message, or the end of the queue
    manager or of one of its threads. *)
Inductive notice := NMail (x : mail) | NExit | NExit2.

(** Where a process is in [spool_writer::queue]. *)
Inductive epc :=
  | EIdle
  | ETmp (i : Z) (text rcpt : list Z)      (** the temporary file is open *)
  | ECopied (i : Z) (text rcpt : list Z)   (** the message is copied, [st.st_ino] is [i] *)
  | EEnv (i j : Z) (text rcpt : list Z)    (** the envelope is open *)
  | EWritten (x : mail)                       (** the envelope is written *)
  | ERenamed (x : mail)                       (** the message is in the spool *)
  | EUnsent (o : option mail)                 (** [edie] in [sendto], of a notification or of the end *)
  | EDead.                                    (** any other [edie] *)

(** Where a thread is in [do_process], with the delivery it waits for. *)
Inductive qpc :=
  | QIdle
  | QGot (x : mail)                                       (** [dequeue] has returned *)
  | QRecip (x : mail) (rcpt : list Z)                  (** [get_recipient] has returned *)
  | QOpen (x : mail) (rcpt : list Z) (fd : Z)          (** [open_message] has returned *)
  | QTmp (x : mail) (rcpt : list Z) (fd k : Z)         (** the file in the mailbox is open *)
  | QCopied (x : mail) (rcpt : list Z) (k : Z) (c : list Z) (** the message is copied *)
  | QDelivered (x : mail)                                 (** it is in [new] *)
  | QFailed (x : mail)                                    (** the delivery has ended with "No such mailbox" *)
  | QUntodo (x : mail)                                    (** the envelope is removed *)
  | QExiting (i : nat)                                    (** the loop of [exit_others] is at [i] *)
  | QExited
  | QDead.

Record spool := {
  fs : files;
  enq : list epc;                       (** the processes that queue messages *)
  notify : list notice;                  (** the notification socket *)
  qman : list qpc;                      (** the threads of the queue manager *)
  accepted : list mail;                 (** messages that were moved into the spool *)
  delivered : list (Z * list Z * list Z); (** file, mailbox and text of the deliveries *)
  alive : bool                          (** the queue manager has not ended *)
}.

Definition with_enq (s : spool) (f : files) (t : nat) (p : epc) : spool :=
  {| fs := f; enq := <[t := p]> (enq s); notify := notify s; qman := qman s; accepted := accepted s; delivered := delivered s; alive := alive s |}.

Definition with_qman (s : spool) (f : files) (t : nat) (p : qpc) : spool :=
  {| fs := f; enq := enq s; notify := notify s; qman := <[t := p]> (qman s); accepted := accepted s; delivered := delivered s; alive := alive s |}.

(** The end of the queue manager, of all its threads: [exit] of one of them, or
    the return of [main] *)
Definition ended (s : spool) : spool :=
  {| fs := fs s; enq := enq s; notify := notify s; qman := qman s; accepted := accepted s; delivered := delivered s; alive := false |}.

(** [spool_writer::queue] and [queue_exit] of process [t] *)
Inductive estep (s : spool) (t : nat) : spool -> Prop :=
  | e_open i text rcpt : enq s !! t = Some EIdle -> absent (fs s) (NPid t) -> fs s !! i = None ->
      estep s t (with_enq s (create (fs s) i (NPid t)) t (ETmp i text rcpt))
  | e_open_dies i c : enq s !! t = Some EIdle -> named (fs s) (NPid t) i c -> estep s t (with_enq s (fs s) t EDead)
  | e_copy i text rcpt : enq s !! t = Some (ETmp i text rcpt) ->
      estep s t (with_enq s (set_contents (fs s) i text) t (ECopied i text rcpt))
  | e_envelope i j text rcpt : enq s !! t = Some (ECopied i text rcpt) -> absent (fs s) (NTodo i) -> fs s !! j = None ->
      estep s t (with_enq s (create (fs s) j (NTodo i)) t (EEnv i j text rcpt))
  | e_envelope_dies i text rcpt j c : enq s !! t = Some (ECopied i text rcpt) -> named (fs s) (NTodo i) j c ->
      estep s t (with_enq s (fs s) t EDead)
  | e_write i j text rcpt : enq s !! t = Some (EEnv i j text rcpt) ->
      estep s t (with_enq s (set_contents (fs s) j rcpt) t (EWritten (Mail i j text rcpt)))
  | e_rename x : enq s !! t = Some (EWritten x) ->
      estep s t {| fs := rename (fs s) (m_ino x) (NMess (m_ino x)); enq := <[t := ERenamed x]> (enq s); notify := notify s;
                   qman := qman s; accepted := accepted s ++ [x]; delivered := delivered s; alive := alive s |}
  | e_notify x : enq s !! t = Some (ERenamed x) -> alive s = true ->
      estep s t {| fs := fs s; enq := <[t := EIdle]> (enq s); notify := notify s ++ [NMail x];
                   qman := qman s; accepted := accepted s; delivered := delivered s; alive := alive s |}
  | e_notify_dies x : enq s !! t = Some (ERenamed x) -> alive s = false -> estep s t (with_enq s (fs s) t (EUnsent (Some x)))
  | e_exit : enq s !! t = Some EIdle -> alive s = true ->
      estep s t {| fs := fs s; enq := enq s; notify := notify s ++ [NExit];
                   qman := qman s; accepted := accepted s; delivered := delivered s; alive := alive s |}
  | e_exit_dies : enq s !! t = Some EIdle -> alive s = false -> estep s t (with_enq s (fs s) t (EUnsent None)).

(** What [do_process] does in the spool for thread [t]: [dequeue], [get_recipient],
    [open_message], [remove] and [exit_others]; and [wait_child] when the delivery
    has failed. *)
Inductive rstep (s : spool) (t : nat) : spool -> Prop :=
  | q_dequeue x rest : alive s = true -> qman s !! t = Some QIdle -> notify s = NMail x :: rest ->
      rstep s t {| fs := fs s; enq := enq s; notify := rest; qman := <[t := QGot x]> (qman s);
                   accepted := accepted s; delivered := delivered s; alive := alive s |}
  | q_recipient x j rcpt : alive s = true -> qman s !! t = Some (QGot x) -> named (fs s) (NTodo (m_ino x)) j rcpt ->
      rstep s t (with_qman s (fs s) t (QRecip x rcpt))
  | q_recipient_dies x : alive s = true -> qman s !! t = Some (QGot x) -> absent (fs s) (NTodo (m_ino x)) ->
      rstep s t (ended (with_qman s (fs s) t QDead))
  | q_open x rcpt fd c : alive s = true -> qman s !! t = Some (QRecip x rcpt) -> named (fs s) (NMess (m_ino x)) fd c ->
      rstep s t (with_qman s (fs s) t (QOpen x rcpt fd))
  | q_open_dies x rcpt : alive s = true -> qman s !! t = Some (QRecip x rcpt) -> absent (fs s) (NMess (m_ino x)) ->
      rstep s t (ended (with_qman s (fs s) t QDead))
  | q_untodo x j c : alive s = true -> qman s !! t = Some (QDelivered x) -> named (fs s) (NTodo (m_ino x)) j c ->
      rstep s t (with_qman s (remove (fs s) j) t (QUntodo x))
  | q_untodo_missing x : alive s = true -> qman s !! t = Some (QDelivered x) -> absent (fs s) (NTodo (m_ino x)) ->
      rstep s t (with_qman s (fs s) t (QUntodo x))
  | q_unmess x i c : alive s = true -> qman s !! t = Some (QUntodo x) -> named (fs s) (NMess (m_ino x)) i c ->
      rstep s t (with_qman s (remove (fs s) i) t QIdle)
  | q_unmess_missing x : alive s = true -> qman s !! t = Some (QUntodo x) -> absent (fs s) (NMess (m_ino x)) ->
      rstep s t (with_qman s (fs s) t QIdle)
  | q_exit rest : alive s = true -> qman s !! t = Some QIdle -> notify s = NExit :: rest ->
      rstep s t {| fs := fs s; enq := enq s; notify := rest; qman := <[t := QExiting 0]> (qman s);
                   accepted := accepted s; delivered := delivered s; alive := alive s |}
  | q_exit2 rest : alive s = true -> qman s !! t = Some QIdle -> notify s = NExit2 :: rest ->
      rstep s t {| fs := fs s; enq := enq s; notify := rest; qman := <[t := QExited]> (qman s);
                   accepted := accepted s; delivered := delivered s; alive := alive s |}
  | q_exit_self : alive s = true -> qman s !! t = Some (QExiting t) -> rstep s t (with_qman s (fs s) t (QExiting (S t)))
  | q_exit_other i : alive s = true -> qman s !! t = Some (QExiting i) -> (i < length (qman s))%nat -> i <> t ->
      rstep s t {| fs := fs s; enq := enq s; notify := notify s ++ [NExit2]; qman := <[t := QExiting (S i)]> (qman s);
                   accepted := accepted s; delivered := delivered s; alive := alive s |}
  | q_exit_done i : alive s = true -> qman s !! t = Some (QExiting i) -> (length (qman s) <= i)%nat ->
      rstep s t (with_qman s (fs s) t QExited)
  | q_failed x : alive s = true -> qman s !! t = Some (QFailed x) -> rstep s t (ended s).

(** [main] of the queue manager, after its threads *)
Definition mstep (s s' : spool) : Prop := alive s = true /\ Forall (eq QExited) (qman s) /\ s' = ended s.

(** The mailboxes: what [stat] says of the directory of a recipient.  The programs
    do not create or remove mailboxes. *)
Section Mailboxes.
Variable mailbox : list Z -> bool.

(** [maildir_writer], with its check for the mailbox and [deliver], in the process
    that thread [t] has started and waits for; the process goes on when the queue
    manager ends. *)
Inductive dstep (s : spool) (t : nat) : spool -> Prop :=
  | q_tmp x rcpt fd k : qman s !! t = Some (QOpen x rcpt fd) -> mailbox rcpt = true -> absent (fs s) (NTmp rcpt t) -> fs s !! k = None ->
      dstep s t (with_qman s (create (fs s) k (NTmp rcpt t)) t (QTmp x rcpt fd k))
  | q_tmp_dies x rcpt fd k c : qman s !! t = Some (QOpen x rcpt fd) -> mailbox rcpt = true -> named (fs s) (NTmp rcpt t) k c ->
      dstep s t (with_qman s (fs s) t QDead)
  | q_unknown x rcpt fd : qman s !! t = Some (QOpen x rcpt fd) -> mailbox rcpt = false ->
      dstep s t (with_qman s (fs s) t (QFailed x))
  | q_copy x rcpt fd k nm c : qman s !! t = Some (QTmp x rcpt fd k) -> fs s !! fd = Some (nm, c) ->
      dstep s t (with_qman s (set_contents (fs s) k c) t (QCopied x rcpt k c))
  | q_deliver x rcpt k c : qman s !! t = Some (QCopied x rcpt k c) ->
      dstep s t {| fs := rename (fs s) k (NNew rcpt k); enq := enq s; notify := notify s; qman := <[t := QDelivered x]> (qman s);
                   accepted := accepted s; delivered := delivered s ++ [(k, rcpt, c)]; alive := alive s |}.

(** [do_process] of thread [t] *)
Definition qstep (s : spool) (t : nat) (s' : spool) : Prop := rstep s t s' \/ dstep s t s'.

Definition step (s s' : spool) : Prop := (exists t, estep s t s' \/ qstep s t s') \/ mstep s s'.

Definition start (ne nq : nat) : spool :=
  {| fs := ∅; enq := replicate ne EIdle; notify := []; qman := replicate nq QIdle; accepted := []; delivered := []; alive := true |}.

(** ** Who uses which file *)

Abbreviation claim := (Z * (fname * list Z))%type.

Definition queued (x : mail) : list claim := [(m_ino x, (NMess (m_ino x), m_text x)); (m_env x, (NTodo (m_ino x), m_rcpt x))].

Definition eclaims (t : nat) (p : epc) : list claim :=
  match p with
  | EIdle | EUnsent None | EDead => []
  | ETmp i _ _ => [(i, (NPid t, []))]
  | ECopied i text _ => [(i, (NPid t, text))]
  | EEnv i j text _ => [(i, (NPid t, text)); (j, (NTodo i, []))]
  | EWritten x => [(m_ino x, (NPid t, m_text x)); (m_env x, (NTodo (m_ino x), m_rcpt x))]
  | ERenamed x | EUnsent (Some x) => queued x
  end.

Definition qclaims (t : nat) (p : qpc) : list claim :=
  match p with
  | QIdle | QDead | QExiting _ | QExited => []
  | QGot x | QRecip x _ | QOpen x _ _ | QDelivered x | QFailed x => queued x
  | QTmp x rcpt _ k => (k, (NTmp rcpt t, [])) :: queued x
  | QCopied x rcpt k c => (k, (NTmp rcpt t, c)) :: queued x
  | QUntodo x => [(m_ino x, (NMess (m_ino x), m_text x))]
  end.

Definition nclaims (m : notice) : list claim := match m with NMail x => queued x | _ => [] end.

Definition dclaims (d : Z * list Z * list Z) : list claim := [(d.1.1, (NNew d.1.2 d.1.1, d.2))].

(** One group of files for every process, notification and delivery. *)
Definition bundles (s : spool) : list (list claim) :=
  imap eclaims (enq s) ++ fmap nclaims (notify s) ++ imap qclaims (qman s) ++ fmap dclaims (delivered s).

(** What a thread has read is what was queued. *)
Definition qok (p : qpc) : Prop :=
  match p with
  | QRecip x rcpt => rcpt = m_rcpt x
  | QOpen x rcpt fd | QTmp x rcpt fd _ => rcpt = m_rcpt x /\ fd = m_ino x
  | QCopied x rcpt _ c => rcpt = m_rcpt x /\ c = m_text x
  | QFailed x => mailbox (m_rcpt x) = false
  | QDead => False
  | _ => True
  end.

(** Messages on their way. *)
Definition epending (p : epc) : list mail := match p with ERenamed x | EUnsent (Some x) => [x] | _ => [] end.
Definition qpending (p : qpc) : list mail :=
  match p with QGot x | QRecip x _ | QOpen x _ _ | QTmp x _ _ _ | QCopied x _ _ _ | QFailed x => [x] | _ => [] end.
Definition npending (m : notice) : list mail := match m with NMail x => [x] | _ => [] end.
Definition pending (s : spool) : list mail :=
  concat (epending <$> enq s) ++ concat (npending <$> notify s) ++ concat (qpending <$> qman s).

(** Recipient and text. *)
Definition letter (x : mail) : list Z * list Z := (m_rcpt x, m_text x).
Definition arrived (d : Z * list Z * list Z) : list Z * list Z := (d.1.2, d.2).

(** Why the queue manager has ended: its threads have, or a delivery has failed. *)
Definition cause (s : spool) : Prop := Forall (eq QExited) (qman s) \/ exists t x, qman s !! t = Some (QFailed x).

Record sinv (s : spool) : Prop := {
  si_files : map_to_list (fs s) ≡ₚ concat (bundles s);
  si_enq : EDead ∉ enq s;
  si_qman : Forall qok (qman s);
  si_all : fmap letter (accepted s) ≡ₚ fmap arrived (delivered s) ++ fmap letter (pending s);
  si_alive : alive s = false -> cause s
}.

(** ** Files and the groups that use them *)

(** A group whose files are named by an inode number has the file of that number. *)
Definition key (nm : fname) : option Z :=
  match nm with NMess n | NTodo n | NNew _ n => Some n | _ => None end.

Definition closed (b : list claim) : Prop :=
  forall j nm c n, (j, (nm, c)) ∈ b -> key nm = Some n -> exists y, (n, y) ∈ b.

(** The files are those of the group [b] and of the groups [bs]. *)
Definition owns (f : files) (b : list claim) (bs : list (list claim)) : Prop :=
  map_to_list f ≡ₚ b ++ concat bs.

Ltac claims := repeat first
  [ match goal with H : _ ∈ [] |- _ => inversion H end
  | match goal with H : _ ∈ _ :: _ |- _ => apply list.elem_of_cons in H; destruct H as [H|H]; simplify_eq/= end ].

Lemma closed_e t p : closed (eclaims t p).
Proof. intros ? ? ? ? Hj Hk; destruct p as [| | | | | |[x|]|]; simpl in *; unfold queued in *; claims; eauto using list_elem_of_here, list_elem_of_further. Qed.

Lemma closed_q t p : closed (qclaims t p).
Proof. intros ? ? ? ? Hj Hk; destruct p; simpl in *; unfold queued in *; claims; eauto using list_elem_of_here, list_elem_of_further. Qed.

Lemma closed_n m : closed (nclaims m).
Proof. intros ? ? ? ? Hj Hk; destruct m; simpl in *; unfold queued in *; claims; eauto using list_elem_of_here, list_elem_of_further. Qed.

Lemma closed_d d : closed (dclaims d).
Proof. intros j nm c n Hj Hk; unfold dclaims in *; simpl in *; claims; eauto using list_elem_of_here, list_elem_of_further. Qed.

Lemma Forall_imap {A B} (P : B -> Prop) (f : nat -> A -> B) l : (forall i x, P (f i x)) -> Forall P (imap f l).
Proof. intros H. apply list.Forall_lookup; intros i y Hy. apply list_lookup_imap_Some in Hy as (x & _ & ->). auto. Qed.

Lemma bundles_closed s : Forall closed (bundles s).
Proof.
  unfold bundles. rewrite !list.Forall_app, !Forall_fmap.
  repeat split; [apply Forall_imap, closed_e| |apply Forall_imap, closed_q|]; apply list.Forall_forall; intros;
    [apply closed_n|apply closed_d].
Qed.

Section owned.
Context {f : files} {b : list claim} {bs : list (list claim)} (Ho : owns f b bs).

Lemma owned_lookup i x : (i, x) ∈ b -> f !! i = Some x.
Proof. intros H. apply elem_of_map_to_list. rewrite Ho. set_solver. Qed.

Lemma owned_case i x : f !! i = Some x -> (i, x) ∈ b \/ exists b', b' ∈ bs /\ (i, x) ∈ b'.
Proof.
  intros H. apply elem_of_map_to_list in H. rewrite Ho in H. apply elem_of_app in H as [|H]; [auto|].
  right. apply list_elem_of_In, in_concat in H as (b' & H1 & H2). exists b'. by rewrite !list_elem_of_In.
Qed.

Lemma owned_once i x y b' : (i, x) ∈ b -> b' ∈ bs -> (i, y) ∈ b' -> False.
Proof.
  intros Hx Hb Hy. pose proof (NoDup_fst_map_to_list f) as Hn. rewrite Ho, fmap_app in Hn.
  apply list.NoDup_app in Hn as (_ & Hn & _). apply (Hn i).
  - apply list_elem_of_fmap. by exists (i, x).
  - apply list_elem_of_fmap. exists (i, y). split; [done|]. apply list_elem_of_In, in_concat.
    exists b'. by rewrite <- !list_elem_of_In.
Qed.

(** A file that is named by the inode number of a file of the group is in the group. *)
Lemma owned_key (Hc : Forall closed bs) nm n y i c :
  key nm = Some n -> (n, y) ∈ b -> named f nm i c -> (i, (nm, c)) ∈ b.
Proof.
  intros Hk Hy Hi. destruct (owned_case _ _ Hi) as [|(b' & Hb & Hj)]; [done|]. exfalso.
  rewrite list.Forall_forall in Hc. destruct (Hc _ Hb _ _ _ _ Hj Hk) as (z & Hz). by eapply owned_once.
Qed.
End owned.

(** *** Operations on files of the group *)

Lemma owns_create f b bs i nm : owns f b bs -> f !! i = None -> owns (create f i nm) ((i, (nm, [])) :: b) bs.
Proof. intros Ho Hi. unfold owns, create in *. rewrite map_to_list_insert by done. by rewrite Ho. Qed.

Lemma owns_contents f b bs i nm c c' : owns f ((i, (nm, c)) :: b) bs -> owns (set_contents f i c') ((i, (nm, c')) :: b) bs.
Proof.
  intros Ho. pose proof (owned_lookup Ho i (nm, c) ltac:(set_solver)) as Hi. unfold owns, set_contents in *.
  rewrite <- (map_to_list_delete _ _ _ Hi) in Ho. cbn [app] in Ho. apply Permutation_cons_inv in Ho.
  assert (alter (fun x => (x.1, c')) i f = <[i := (nm, c')]> (delete i f)) as ->.
  { apply map_eq; intros j. destruct (decide (i = j)) as [<-|Hn].
    - by rewrite lookup_alter_eq, lookup_insert_eq, Hi.
    - by rewrite lookup_alter_ne, lookup_insert_ne, lookup_delete_ne. }
  rewrite map_to_list_insert by apply lookup_delete_eq. cbn [app]. by rewrite Ho.
Qed.

Lemma owns_remove f b bs i x : owns f ((i, x) :: b) bs -> owns (remove f i) b bs.
Proof.
  intros Ho. pose proof (owned_lookup Ho i x ltac:(set_solver)) as Hi. unfold owns, remove in *.
  rewrite <- (map_to_list_delete _ _ _ Hi) in Ho. cbn [app] in Ho. by apply Permutation_cons_inv in Ho.
Qed.

Lemma owns_rename f b bs i nm c nm' : owns f ((i, (nm, c)) :: b) bs -> absent f nm' -> owns (rename f i nm') ((i, (nm', c)) :: b) bs.
Proof.
  intros Ho Ha. pose proof (owned_lookup Ho i (nm, c) ltac:(set_solver)) as Hi. unfold owns, rename in *. rewrite Hi.
  rewrite <- (map_to_list_delete _ _ _ Hi) in Ho. cbn [app] in Ho. apply Permutation_cons_inv in Ho.
  rewrite map_filter_id. 2:{ intros j [nm'' c''] Hj Hn. cbn in Hn. subst. by apply (Ha j c''). }
  rewrite <- insert_delete_eq, map_to_list_insert by apply lookup_delete_eq. cbn [app]. by rewrite Ho.
Qed.

Lemma owns_perm f b b' bs : b ≡ₚ b' -> owns f b bs -> owns f b' bs.
Proof. unfold owns. by intros ->. Qed.

(** *** One group among all *)

Lemma imap_insert {A B} (f : nat -> A -> B) l t x : imap f (<[t := x]> l) = <[t := f t x]> (imap f l).
Proof.
  apply list_eq; intros i. rewrite list_lookup_imap. destruct (decide (t = i)) as [<-|Hn].
  - destruct (decide (t < length l)%nat).
    + by rewrite !list_lookup_insert_eq by (rewrite ?length_imap; done).
    + by rewrite !list_insert_ge, list_lookup_imap by (rewrite ?length_imap; lia).
  - by rewrite !list_lookup_insert_ne, list_lookup_imap.
Qed.

Lemma imap_focus {A B} (f : nat -> A -> B) l t p : l !! t = Some p ->
  exists bs, imap f l ≡ₚ f t p :: bs /\ forall p', imap f (<[t := p']> l) ≡ₚ f t p' :: bs.
Proof.
  intros Hp. exists (delete t (imap f l)). pose proof (lookup_lt_Some _ _ _ Hp). split.
  - apply delete_Permutation. by rewrite list_lookup_imap, Hp.
  - intros p'. rewrite imap_insert. apply insert_perm. by rewrite length_imap.
Qed.

(** ** The invariant *)

Lemma enq_bundles s t p : enq s !! t = Some p ->
  exists bs, Forall closed bs /\ bundles s ≡ₚ eclaims t p :: bs /\
    forall s' p' ns, enq s' = <[t := p']> (enq s) -> notify s' = notify s ++ ns -> qman s' = qman s -> delivered s' = delivered s ->
      bundles s' ≡ₚ eclaims t p' :: (nclaims <$> ns) ++ bs.
Proof.
  intros Hp. destruct (imap_focus eclaims _ _ _ Hp) as (bs & H1 & H2).
  exists (bs ++ (nclaims <$> notify s) ++ imap qclaims (qman s) ++ (dclaims <$> delivered s)).
  assert (bundles s ≡ₚ eclaims t p :: (bs ++ (nclaims <$> notify s) ++ imap qclaims (qman s) ++ (dclaims <$> delivered s))) as Hb
    by (unfold bundles; rewrite H1; solve_Permutation).
  repeat split; [|done|].
  - pose proof (bundles_closed s) as Hc. rewrite Hb in Hc. by inversion Hc.
  - intros s' p' ns He Hn Hq Hd. unfold bundles. rewrite He, Hn, Hq, Hd, H2, fmap_app. solve_Permutation.
Qed.

Lemma qman_bundles s t p : qman s !! t = Some p ->
  exists bs, Forall closed bs /\ bundles s ≡ₚ qclaims t p :: bs /\
    forall s' p' ns ds, enq s' = enq s -> notify s' = notify s ++ ns -> qman s' = <[t := p']> (qman s) -> delivered s' = delivered s ++ ds ->
      bundles s' ≡ₚ qclaims t p' :: (nclaims <$> ns) ++ (dclaims <$> ds) ++ bs.
Proof.
  intros Hp. destruct (imap_focus qclaims _ _ _ Hp) as (bs & H1 & H2).
  exists (imap eclaims (enq s) ++ (nclaims <$> notify s) ++ bs ++ (dclaims <$> delivered s)).
  assert (bundles s ≡ₚ qclaims t p :: (imap eclaims (enq s) ++ (nclaims <$> notify s) ++ bs ++ (dclaims <$> delivered s))) as Hb
    by (unfold bundles; rewrite H1; solve_Permutation).
  repeat split; [|done|].
  - pose proof (bundles_closed s) as Hc. rewrite Hb in Hc. by inversion Hc.
  - intros s' p' ns ds He Hn Hq Hd. unfold bundles. rewrite He, Hn, Hq, Hd, H2, !fmap_app. solve_Permutation.
Qed.

(** A step of a process that queues messages keeps the invariant when it keeps
    the files of the others and accounts for the messages. *)
Lemma sinv_enq s s' t p p' ns acc : sinv s -> enq s !! t = Some p ->
  enq s' = <[t := p']> (enq s) -> notify s' = notify s ++ ns -> qman s' = qman s -> delivered s' = delivered s ->
  accepted s' = accepted s ++ acc -> alive s' = alive s -> p' <> EDead ->
  epending p' ++ concat (npending <$> ns) ≡ₚ epending p ++ acc ->
  (forall bs, Forall closed bs -> owns (fs s) (eclaims t p) bs -> owns (fs s') (eclaims t p' ++ concat (nclaims <$> ns)) bs) ->
  sinv s'.
Proof.
  intros [Hf He Hq Ha Hl] Hp E1 E2 E3 E4 E5 E6 Hd Hpe Ho. constructor.
  - destruct (enq_bundles _ _ _ Hp) as (bs & Hc & Hb & Hb'). rewrite (Hb' s' p' ns) by done. rewrite Hb in Hf.
    specialize (Ho bs Hc Hf). unfold owns in Ho. rewrite Ho. simpl. by rewrite concat_app, app_assoc.
  - rewrite E1. intros Hi. apply list_elem_of_lookup in Hi as (i & Hi).
    apply list_lookup_insert_Some in Hi as [(_ & -> & _)|(_ & Hi)]; [done|]. apply He. by eapply list_elem_of_lookup_2.
  - by rewrite E3.
  - destruct (concat_focus epending _ _ _ Hp) as (r & H1 & H2). rewrite E5, E4, fmap_app, Ha, <- app_assoc, <- fmap_app.
    apply Permutation_app_head, fmap_Permutation. unfold pending. rewrite E1, E2, E3, H2, H1, fmap_app, concat_app.
    transitivity ((epending p ++ acc) ++ r ++ concat (npending <$> notify s) ++ concat (qpending <$> qman s)); [solve_Permutation|].
    rewrite <- Hpe. solve_Permutation.
  - unfold cause. by rewrite E6, E3.
Qed.

Lemma concat_exits k {A} (f : notice -> list A) : f NExit2 = [] -> concat (f <$> replicate k NExit2) = [].
Proof. intros H. induction k; [done|]. simpl. by rewrite H. Qed.

Lemma sinv_qman s s' t p p' k ds : sinv s -> qman s !! t = Some p ->
  enq s' = enq s -> notify s' = notify s ++ replicate k NExit2 -> qman s' = <[t := p']> (qman s) -> delivered s' = delivered s ++ ds ->
  accepted s' = accepted s -> alive s' = alive s -> (alive s = false -> p <> QExited /\ forall x, p <> QFailed x) -> (qok p -> qok p') ->
  (qok p -> letter <$> qpending p ≡ₚ (arrived <$> ds) ++ (letter <$> qpending p')) ->
  (forall bs, qok p -> Forall closed bs -> owns (fs s) (qclaims t p) bs -> owns (fs s') (qclaims t p' ++ concat (dclaims <$> ds)) bs) ->
  sinv s'.
Proof.
  intros [Hf He Hq Ha Hl] Hp E1 E2 E3 E4 E5 E6 Hcs Hok Hpe Ho.
  assert (qok p) as Hok' by (rewrite list.Forall_lookup in Hq; eauto). constructor.
  - destruct (qman_bundles _ _ _ Hp) as (bs & Hc & Hb & Hb'). rewrite (Hb' s' p' _ ds E1 E2 E3 E4). rewrite Hb in Hf.
    specialize (Ho bs Hok' Hc Hf). unfold owns in Ho. rewrite Ho. simpl.
    rewrite !concat_app, concat_exits by done. simpl. solve_Permutation.
  - by rewrite E1.
  - rewrite E3. by apply Forall_insert; auto.
  - destruct (concat_focus qpending _ _ _ Hp) as (r & H1 & H2). rewrite E5, E4, fmap_app, Ha.
    unfold pending. rewrite E1, E2, E3, H2, H1, !fmap_app, concat_app, concat_exits, !fmap_app by done.
    rewrite (Hpe Hok'). solve_Permutation.
  - rewrite E6. intros Hd. destruct (Hcs Hd) as [Hx Hy]. unfold cause. rewrite E3. destruct (Hl Hd) as [Hex|(t' & x & Hf')].
    + rewrite list.Forall_lookup in Hex. by destruct Hx; symmetry; eapply Hex.
    + right. exists t', x. rewrite list_lookup_insert_ne; [done|]. intros <-. apply (Hy x). congruence.
Qed.

(** The end of the queue manager. *)
Lemma sinv_ended s : sinv s -> cause s -> sinv (ended s).
Proof. by intros [] Hc. Qed.

(** Every file belongs to a process, a notification, a thread or a delivery. *)
Lemma file_owner s i x : sinv s -> fs s !! i = Some x ->
  (exists t p, enq s !! t = Some p /\ (i, x) ∈ eclaims t p) \/ (exists m, m ∈ notify s /\ (i, x) ∈ nclaims m) \/
  (exists t p, qman s !! t = Some p /\ (i, x) ∈ qclaims t p) \/ (exists d, d ∈ delivered s /\ (i, x) ∈ dclaims d).
Proof.
  intros [Hf _ _ _ _] Hi. apply elem_of_map_to_list in Hi. rewrite Hf in Hi.
  apply list_elem_of_In, in_concat in Hi as (b & Hb & Hi). apply list_elem_of_In in Hb. apply list_elem_of_In in Hi.
  unfold bundles in Hb. rewrite !elem_of_app in Hb. destruct Hb as [Hb|[Hb|[Hb|Hb]]].
  - apply elem_of_lookup_imap_1 in Hb as (t & p & -> & Hp). left. eauto.
  - apply list_elem_of_fmap in Hb as (m & -> & Hm). right; left. eauto.
  - apply elem_of_lookup_imap_1 in Hb as (t & p & -> & Hp). right; right; left. eauto.
  - apply list_elem_of_fmap in Hb as (d & -> & Hd). right; right; right. eauto.
Qed.

Ltac owner H Hs := destruct (file_owner _ _ _ Hs H) as [(? & [| | | | | |[]|] & ? & ?)|[([] & ? & ?)|[(? & [] & ? & ?)|(? & ? & ?)]]];
  simpl in *; unfold queued, dclaims in *; claims.

(** The temporary files of a process are its own. *)
Lemma idle_absent s t : sinv s -> enq s !! t = Some EIdle -> absent (fs s) (NPid t).
Proof. intros Hs Ht i c Hi. unfold named in Hi. owner Hi Hs; congruence. Qed.

Lemma tmp_absent s t x rcpt fd box : sinv s -> qman s !! t = Some (QOpen x rcpt fd) -> absent (fs s) (NTmp box t).
Proof. intros Hs Ht i c Hi. unfold named in Hi. owner Hi Hs; congruence. Qed.

#[local] Hint Resolve list_elem_of_here list_elem_of_further : claims.
Ltac here := eauto with claims.

Lemma enq_owns s t p : sinv s -> enq s !! t = Some p -> exists bs, Forall closed bs /\ owns (fs s) (eclaims t p) bs.
Proof.
  intros Hs Hp. destruct (enq_bundles _ _ _ Hp) as (bs & Hc & Hb & _). exists bs. split; [done|].
  pose proof (si_files _ Hs) as Hf. by rewrite Hb in Hf.
Qed.

Lemma qman_owns s t p : sinv s -> qman s !! t = Some p -> exists bs, Forall closed bs /\ owns (fs s) (qclaims t p) bs.
Proof.
  intros Hs Hp. destruct (qman_bundles _ _ _ Hp) as (bs & Hc & Hb & _). exists bs. split; [done|].
  pose proof (si_files _ Hs) as Hf. by rewrite Hb in Hf.
Qed.

Lemma sinv_estep s t s' : sinv s -> estep s t s' -> sinv s'.
Proof.
  intros Hs Hst.
  destruct Hst as [i text rcpt Hp Ha Hi|i c Hp Hn|i text rcpt Hp|i j text rcpt Hp Ha Hj|i text rcpt j c Hp Hn|i j text rcpt Hp|x Hp|x Hp Hl|x Hp Hl|Hp Hl|Hp Hl].
  - eapply (sinv_enq s _ t EIdle _ [] []); simpl; rewrite ?app_nil_r; try done. intros. by apply owns_create.
  - exfalso. by apply (idle_absent _ _ Hs Hp i c).
  - eapply (sinv_enq s _ t _ _ [] [] Hs Hp); simpl; rewrite ?app_nil_r; try done. intros. by eapply owns_contents.
  - eapply (sinv_enq s _ t _ _ [] [] Hs Hp); simpl; rewrite ?app_nil_r; try done. intros bs _ Ho.
    eapply owns_perm, owns_create; [|exact Ho|done]. apply perm_swap.
  - exfalso. destruct (enq_owns _ _ _ Hs Hp) as (bs & Hc & Ho). simpl in Ho.
    assert ((j, (NTodo i, c)) ∈ [(i, (NPid t, text))]) by (eapply owned_key; [exact Ho|..]; here). claims.
  - eapply (sinv_enq s _ t _ _ [] [] Hs Hp); simpl; rewrite ?app_nil_r; try done. intros bs _ Ho.
    eapply owns_perm; [apply perm_swap|]. eapply owns_contents, owns_perm, Ho. apply perm_swap.
  - eapply (sinv_enq s _ t _ _ [] [x] Hs Hp); simpl; rewrite ?app_nil_r; try done. intros bs Hc Ho.
    eapply owns_rename; [exact Ho|]. intros k c Hk.
    pose proof (owned_key Ho Hc (NMess (m_ino x)) _ _ k c eq_refl (list_elem_of_here _ _) Hk). claims.
  - eapply (sinv_enq s _ t _ _ [NMail x] [] Hs Hp); simpl; rewrite ?app_nil_r; try done.
  - by eapply (sinv_enq s _ t _ _ [] [] Hs Hp); simpl; rewrite ?app_nil_r.
  - eapply (sinv_enq s _ t _ EIdle [NExit] [] Hs Hp); simpl; rewrite ?app_nil_r; try done. by rewrite list_insert_id.
  - by eapply (sinv_enq s _ t _ _ [] [] Hs Hp); simpl; rewrite ?app_nil_r.
Qed.

(** A thread that takes a notification takes over its files. *)
Lemma sinv_dequeue s t m rest p' : sinv s -> alive s = true -> qman s !! t = Some QIdle -> notify s = m :: rest ->
  qclaims t p' = nclaims m -> qpending p' = npending m -> qok p' ->
  sinv {| fs := fs s; enq := enq s; notify := rest; qman := <[t := p']> (qman s); accepted := accepted s; delivered := delivered s; alive := alive s |}.
Proof.
  intros [Hf He Hq Ha _] Hl Hp Hn Hc Hpe Hok. destruct (imap_focus qclaims _ _ _ Hp) as (bs & H1 & H2).
  destruct (concat_focus qpending _ _ _ Hp) as (r & H3 & H4). constructor; simpl.
  - rewrite Hf. unfold bundles. simpl. rewrite H1, H2, Hn, Hc, !concat_app. simpl. solve_Permutation.
  - done.
  - by apply Forall_insert.
  - rewrite Ha. unfold pending. simpl. rewrite H3, H4, Hn, Hpe, !fmap_app. simpl. rewrite !fmap_app. solve_Permutation.
  - by rewrite Hl.
Qed.

(** The envelope and the message of a queued message, found by their names. *)
Lemma found_todo f b bs x i c : owns f (b ++ queued x) bs -> Forall closed bs -> named f (NTodo (m_ino x)) i c ->
  (i, (NTodo (m_ino x), c)) ∈ b ++ queued x.
Proof. intros Ho Hc Hi. eapply (owned_key Ho Hc); [reflexivity| |done]. apply elem_of_app; right. by apply list_elem_of_here. Qed.

Lemma found_mess f b bs x i c : owns f (b ++ queued x) bs -> Forall closed bs -> named f (NMess (m_ino x)) i c ->
  (i, (NMess (m_ino x), c)) ∈ b ++ queued x.
Proof. intros Ho Hc Hi. eapply (owned_key Ho Hc); [reflexivity| |done]. apply elem_of_app; right. by apply list_elem_of_here. Qed.

Lemma queued_named f b bs x : owns f (b ++ queued x) bs ->
  named f (NMess (m_ino x)) (m_ino x) (m_text x) /\ named f (NTodo (m_ino x)) (m_env x) (m_rcpt x).
Proof. intros Ho. split; apply (owned_lookup Ho); apply elem_of_app; right; unfold queued; here. Qed.

Lemma sinv_rstep s t s' : sinv s -> rstep s t s' -> sinv s'.
Proof.
  intros Hs Hst. pose proof (qman_owns s t) as Hqo.
  destruct Hst as [x rest Hl Hp Hn|x j rcpt Hl Hp Hj|x Hl Hp Ha|x rcpt fd c Hl Hp Hc|x rcpt Hl Hp Ha|x j c Hl Hp Hj|x Hl Hp Ha|x i c Hl Hp Hi|x Hl Hp Ha
    |rest Hl Hp Hn|rest Hl Hp Hn|Hl Hp|i Hl Hp Hi Ht|i Hl Hp Hi|x Hl Hp];
    destruct (Hqo _ Hs Hp) as (bs & Hcl & Ho); simpl in Ho.
  - by apply (sinv_dequeue s t (NMail x)).
  - eapply (sinv_qman s _ t _ _ 0 [] Hs Hp); simpl; rewrite ?app_nil_r; try done; try congruence. intros _.
    pose proof (found_todo _ [] _ _ _ _ Ho Hcl Hj). unfold queued in *; simpl in *. by claims.
  - exfalso. by eapply Ha, (queued_named _ [] _ _ Ho).
  - eapply (sinv_qman s _ t _ _ 0 [] Hs Hp); simpl; rewrite ?app_nil_r; try done; try congruence. intros ->.
    pose proof (found_mess _ [] _ _ _ _ Ho Hcl Hc). unfold queued in *; simpl in *. by claims.
  - exfalso. by eapply Ha, (queued_named _ [] _ _ Ho).
  - eapply (sinv_qman s _ t _ _ 0 [] Hs Hp); simpl; rewrite ?app_nil_r; try done; try congruence. intros bs' _ Hc' Ho'.
    pose proof (found_todo _ [] _ _ _ _ Ho' Hc' Hj) as Hin. unfold queued in *; simpl in *. claims.
    eapply owns_remove, owns_perm, Ho'. apply perm_swap.
  - exfalso. by eapply Ha, (queued_named _ [] _ _ Ho).
  - eapply (sinv_qman s _ t _ _ 0 [] Hs Hp); simpl; rewrite ?app_nil_r; try done; try congruence. intros bs' _ Hc' Ho'.
    pose proof (owned_key Ho' Hc' (NMess (m_ino x)) _ _ i c eq_refl (list_elem_of_here _ _) Hi). claims.
    by eapply owns_remove.
  - exfalso. eapply Ha, (owned_lookup Ho). here.
  - by apply (sinv_dequeue s t NExit).
  - by apply (sinv_dequeue s t NExit2).
  - by eapply (sinv_qman s _ t _ _ 0 [] Hs Hp); simpl; rewrite ?app_nil_r; try congruence.
  - by eapply (sinv_qman s _ t _ _ 1 [] Hs Hp); simpl; rewrite ?app_nil_r; try congruence.
  - by eapply (sinv_qman s _ t _ _ 0 [] Hs Hp); simpl; rewrite ?app_nil_r; try congruence.
  - apply sinv_ended; [done|]. right. eauto.
Qed.

Lemma sinv_dstep s t s' : sinv s -> dstep s t s' -> sinv s'.
Proof.
  intros Hs Hst. pose proof (qman_owns s t) as Hqo.
  destruct Hst as [x rcpt fd k Hp Hm Ha Hk|x rcpt fd k c Hp Hm Hk|x rcpt fd Hp Hm|x rcpt fd k nm c Hp Hk|x rcpt k c Hp];
    destruct (Hqo _ Hs Hp) as (bs & Hcl & Ho); simpl in Ho.
  - eapply (sinv_qman s _ t _ _ 0 [] Hs Hp); simpl; rewrite ?app_nil_r; try done. intros. by apply owns_create.
  - exfalso. by eapply (tmp_absent _ _ _ _ _ rcpt Hs Hp).
  - eapply (sinv_qman s _ t _ _ 0 [] Hs Hp); simpl; rewrite ?app_nil_r; try done. by intros [-> _].
  - eapply (sinv_qman s _ t _ _ 0 [] Hs Hp); simpl; rewrite ?app_nil_r; try done.
    + intros [-> ->]. destruct (queued_named _ [_] _ _ Ho) as [Hm _]. unfold named in Hm. by simplify_eq.
    + intros bs' _ _ Ho'. by eapply owns_contents.
  - eapply (sinv_qman s _ t _ _ 0 [_] Hs Hp); simpl; rewrite ?app_nil_r; try done.
    + by intros [-> ->].
    + intros bs' _ Hc' Ho'. eapply (owns_perm _ ((k, (NNew rcpt k, c)) :: queued x)); [unfold dclaims; simpl; solve_Permutation|].
      eapply owns_rename; [exact Ho'|]. intros i c' Hi.
      pose proof (owned_key Ho' Hc' (NNew rcpt k) _ _ i c' eq_refl (list_elem_of_here _ _) Hi). unfold queued in *. claims.
Qed.

Lemma sinv_qstep s t s' : sinv s -> qstep s t s' -> sinv s'.
Proof. intros Hs [H|H]; eauto using sinv_rstep, sinv_dstep. Qed.

(** ** Reachable states *)

Lemma imap_replicate_nil {A B} (f : nat -> A -> list B) n x : (forall t, f t x = []) -> concat (imap f (replicate n x)) = [].
Proof.
  revert f; induction n as [|n IH]; intros f H; [done|]. cbn [replicate]. rewrite imap_cons. simpl. rewrite H. apply IH.
  intros t; apply H.
Qed.

Lemma concat_replicate_nil {A B} (f : A -> list B) n x : f x = [] -> concat (f <$> replicate n x) = [].
Proof. intros H. induction n; [done|]. simpl. by rewrite H. Qed.

Lemma sinv_start ne nq : sinv (start ne nq).
Proof.
  constructor; simpl.
  - rewrite map_to_list_empty. unfold bundles. simpl.
    by rewrite !concat_app, !imap_replicate_nil.
  - intros H. by apply elem_of_replicate_inv in H.
  - by apply Forall_replicate.
  - unfold pending. simpl. by rewrite !concat_replicate_nil.
  - done.
Qed.

Lemma sinv_steps s s' : rtc step s s' -> sinv s -> sinv s'.
Proof.
  induction 1 as [|s s1 s' [(t & [He|Hq])|(_ & Hx & ->)] _ IH]; eauto using sinv_estep, sinv_qstep.
  intros Hs. apply IH, sinv_ended; [done|by left].
Qed.

Lemma bundle_lookup s b i x : sinv s -> b ∈ bundles s -> (i, x) ∈ b -> fs s !! i = Some x.
Proof.
  intros Hs Hb Hi. apply elem_of_map_to_list. rewrite (si_files _ Hs). apply list_elem_of_In, in_concat.
  exists b. by rewrite <- !list_elem_of_In.
Qed.

(** A message on its way is in the spool with its envelope. *)
Lemma pending_bundle s x : x ∈ pending s -> exists b, b ∈ bundles s /\ forall y, y ∈ queued x -> y ∈ b.
Proof.
  unfold pending, bundles. rewrite !elem_of_app. intros [Hx|[Hx|Hx]];
    apply list_elem_of_In, in_concat in Hx as (l & Hl & Hx); apply list_elem_of_In in Hl, Hx;
    apply list_elem_of_fmap in Hl as (p & -> & Hp).
  - apply list_elem_of_lookup in Hp as (t & Hp). exists (eclaims t p). split.
    + apply elem_of_app; left. by apply elem_of_lookup_imap_2.
    + destruct p as [| | | | | |[]|]; simpl in *; claims; done.
  - destruct p; simpl in Hx; claims. exists (queued x0). split; [|done]. rewrite !elem_of_app. right; left.
    apply list_elem_of_fmap. by exists (NMail x0).
  - apply list_elem_of_lookup in Hp as (t & Hp). exists (qclaims t p). split.
    + rewrite !elem_of_app. right; right; left. by apply elem_of_lookup_imap_2.
    + intros y Hy. destruct p; simpl in *; claims; here.
Qed.

Lemma pending_named s x : sinv s -> x ∈ pending s ->
  named (fs s) (NMess (m_ino x)) (m_ino x) (m_text x) /\ named (fs s) (NTodo (m_ino x)) (m_env x) (m_rcpt x).
Proof.
  intros Hs Hx. destruct (pending_bundle _ _ Hx) as (b & Hb & Hi).
  split; apply (bundle_lookup _ _ _ _ Hs Hb), Hi; unfold queued; here.
Qed.

Lemma delivered_named s d : sinv s -> d ∈ delivered s -> named (fs s) (NNew d.1.2 d.1.1) d.1.1 d.2.
Proof.
  intros Hs Hd. apply (bundle_lookup _ (dclaims d) _ _ Hs); [|apply list_elem_of_here]. unfold bundles.
  rewrite !elem_of_app. do 3 right. apply list_elem_of_fmap. by exists d.
Qed.

(** The message of a delivery that has failed. *)
Lemma failed_pending s t x : sinv s -> qman s !! t = Some (QFailed x) -> x ∈ pending s /\ mailbox (m_rcpt x) = false.
Proof.
  intros Hs Ht. split; [|pose proof (si_qman _ Hs) as Hq; rewrite list.Forall_lookup in Hq; by apply Hq in Ht].
  unfold pending. rewrite !elem_of_app. right; right. apply list_elem_of_In, in_concat. exists [x].
  split; [|by left]. apply list_elem_of_In, list_elem_of_fmap. exists (QFailed x). split; [done|]. by eapply list_elem_of_lookup_2.
Qed.

(** No process is at work and nothing is to be read from the socket. *)
Definition quiet (s : spool) : Prop :=
  Forall (eq EIdle) (enq s) /\ Forall (fun m => m = NExit \/ m = NExit2) (notify s) /\ Forall (fun p => p = QIdle \/ p = QExited) (qman s).

Lemma quiet_files s i nm c : sinv s -> quiet s -> fs s !! i = Some (nm, c) -> exists box, nm = NNew box i /\ (i, box, c) ∈ delivered s.
Proof.
  intros Hs (He & Hn & Hq) Hi. rewrite list.Forall_lookup in He. rewrite list.Forall_lookup in Hq. rewrite list.Forall_forall in Hn.
  destruct (file_owner _ _ _ Hs Hi) as [(t & p & Hp & H)|[(m & Hm & H)|[(t & p & Hp & H)|(d & Hd & H)]]].
  - rewrite <- (He _ _ Hp) in H. simpl in H. claims.
  - destruct (Hn _ Hm); subst; simpl in H; claims.
  - destruct (Hq _ _ Hp); subst; simpl in H; claims.
  - unfold dclaims in H. claims. exists d.1.2. by destruct d as [[]].
Qed.

(** C7: Whatever the interleaving of the processes that queue messages with the
    threads of the queue manager and their deliveries, and although inode numbers
    are used again, no process dies of a name that exists or is missing.  The
    messages that were moved into the spool are exactly, as often as they were
    queued, those delivered, with their recipient and text, and those on their
    way.  A message on its way is in the spool under its number, complete, and so
    is its envelope; a delivered one is in [new] of the recipient's mailbox.  When
    all is quiet there is no other file.  The queue manager ends only with its
    threads or because of a message on its way to a mailbox that does not exist. *)
Theorem mail_delivered_once ne nq s : rtc step (start ne nq) s ->
  EDead ∉ enq s /\ QDead ∉ qman s /\
  letter <$> accepted s ≡ₚ (arrived <$> delivered s) ++ (letter <$> pending s) /\
  (forall x, x ∈ pending s ->
    named (fs s) (NMess (m_ino x)) (m_ino x) (m_text x) /\ named (fs s) (NTodo (m_ino x)) (m_env x) (m_rcpt x)) /\
  (forall k box c, (k, box, c) ∈ delivered s -> named (fs s) (NNew box k) k c) /\
  (quiet s -> forall i nm c, fs s !! i = Some (nm, c) -> exists box, nm = NNew box i /\ (i, box, c) ∈ delivered s) /\
  (alive s = false -> Forall (eq QExited) (qman s) \/ exists x, x ∈ pending s /\ mailbox (m_rcpt x) = false).
Proof.
  intros Hr. apply sinv_steps in Hr as Hs; [|apply sinv_start]. repeat split.
  - apply (si_enq _ Hs).
  - intros H. pose proof (si_qman _ Hs) as Hq. rewrite list.Forall_forall in Hq. by apply Hq in H.
  - apply (si_all _ Hs).
  - by apply pending_named.
  - by apply pending_named.
  - intros k box c Hd. apply (delivered_named _ (k, box, c) Hs Hd).
  - intros Hq i nm c. by apply quiet_files.
  - intros Hl. destruct (si_alive _ Hs Hl) as [|(t & x & Ht)]; [by left|right]. exists x. by eapply failed_pending.
Qed.

(** ** Threads make progress *)

(** How many steps are left of the turn of the loop of [do_process]. *)
Definition rank (nthread : nat) (p : qpc) : nat :=
  match p with
  | QGot _ => 7 | QRecip _ _ => 6 | QOpen _ _ _ => 5 | QTmp _ _ _ _ => 4 | QCopied _ _ _ _ => 3 | QDelivered _ => 2 | QUntodo _ | QFailed _ => 1
  | QExiting i => S (nthread - i)
  | QIdle | QExited | QDead => 0
  end.

Lemma can_step s t p : sinv s -> alive s = true -> qman s !! t = Some p -> (rank (length (qman s)) p <> 0)%nat -> exists s', qstep s t s'.
Proof.
  intros Hs Hl Hp Hr. destruct (qman_owns _ _ _ Hs Hp) as (bs & Hc & Ho). pose proof (si_qman _ Hs) as Hq.
  rewrite list.Forall_lookup in Hq. apply Hq in Hp as Hok. destruct p as [|x|x r|x r fd|x r fd k|x r k c|x|x|x|i| |]; simpl in *; try done.
  - eexists. left. eapply q_recipient; [done..|]. apply (queued_named _ [] _ _ Ho).
  - eexists. left. eapply q_open; [done..|]. apply (queued_named _ [] _ _ Ho).
  - destruct (mailbox r) eqn:Em; [|eexists; right; by eapply q_unknown].
    eexists. right. eapply (q_tmp _ _ _ _ _ (fresh (dom (fs s)))); [done..|by eapply tmp_absent|].
    apply not_elem_of_dom, is_fresh.
  - destruct Hok as [_ ->]. eexists. right. eapply q_copy; [done|]. apply (queued_named _ [_] _ _ Ho).
  - eexists. right. by eapply q_deliver.
  - eexists. left. eapply q_untodo; [done..|]. apply (queued_named _ [] _ _ Ho).
  - eexists. left. by eapply q_failed.
  - eexists. left. eapply q_unmess; [done..|]. apply (owned_lookup Ho). here.
  - destruct (decide (i < length (qman s))%nat); [|eexists; left; eapply q_exit_done; [done..|lia]].
    destruct (decide (i = t)) as [->|]; eexists; left; [by eapply q_exit_self|by eapply q_exit_other].
Qed.

(** No thread reaches the states after [edie]. *)
Lemma no_dead s t s' : sinv s -> qstep s t s' -> qman s' !! t <> Some QDead.
Proof.
  intros Hs Hst Hd. pose proof (si_qman _ (sinv_qstep _ _ _ Hs Hst)) as Hq. rewrite list.Forall_lookup in Hq. by apply Hq in Hd.
Qed.

(** A step of a thread ends the queue manager or brings the thread closer to the
    end of its turn. *)
Lemma rank_drops s t p s' : sinv s -> qman s !! t = Some p -> (rank (length (qman s)) p <> 0)%nat -> qstep s t s' ->
  (exists x, p = QFailed x /\ s' = ended s) \/
  alive s' = alive s /\ exists p', qman s' !! t = Some p' /\ (rank (length (qman s')) p' < rank (length (qman s)) p)%nat.
Proof.
  intros Hs Hp Hr Hst. pose proof (lookup_lt_Some _ _ _ Hp) as Hl. pose proof (no_dead _ _ _ Hs Hst) as Hn.
  destruct Hst as [Hst|Hst]; destruct Hst; simplify_eq/=;
    first [ by rewrite list_lookup_insert_eq in Hn
          | left; by eexists
          | right; split; [done|]; eexists; split; [by apply list_lookup_insert_eq|]; rewrite length_insert; simpl in *; lia ].
Qed.

Lemma others_keep s s' t p : sinv s -> qman s !! t = Some p ->
  (exists t', estep s t' s' \/ t' <> t /\ qstep s t' s') -> qman s' !! t = Some p /\ length (qman s') = length (qman s) /\
  (alive s' = alive s \/ alive s' = false /\ exists t' x, qman s !! t' = Some (QFailed x)).
Proof.
  intros Hs Hp (t' & [He|[Hn Hst]]); [destruct He; simpl; auto|].
  assert (forall p', qman s !! t' = Some p' -> qman (with_qman s (fs s) t' QDead) !! t' = Some QDead) as Hins.
  { intros p' Hp'. apply list_lookup_insert_eq. by eapply lookup_lt_Some. }
  pose proof (no_dead _ _ _ Hs Hst) as Hd.
  destruct Hst as [Hst|Hst]; destruct Hst; simpl in *; rewrite ?length_insert, ?list_lookup_insert_ne by done;
    first [by exfalso; eapply Hd, Hins | eauto 7].
Qed.

(** C34: In every reachable state in which the queue manager runs, a thread of it
    that is in the middle of a message, or of ending the other threads, can go on:
    no other process can make it wait.  Every step it makes brings it closer to the
    next call of [dequeue] or its end, by a measure that the steps of the others
    leave as it is.  There is one exception.  When a delivery has found no mailbox
    for its recipient, the queue manager ends with all its threads; the message and
    its envelope stay in the spool. *)
Theorem thread_progress ne nq s t p : rtc step (start ne nq) s -> alive s = true ->
  qman s !! t = Some p -> p <> QIdle -> p <> QExited ->
  (exists s', qstep s t s') /\
  (forall s', qstep s t s' ->
    (exists x, p = QFailed x /\ mailbox (m_rcpt x) = false /\ s' = ended s /\ x ∈ pending s) \/
    alive s' = true /\ exists p', qman s' !! t = Some p' /\ (rank (length (qman s')) p' < rank (length (qman s)) p)%nat) /\
  (forall s', (exists t', estep s t' s' \/ t' <> t /\ qstep s t' s') \/ mstep s s' ->
    qman s' !! t = Some p /\ length (qman s') = length (qman s) /\
    (alive s' = true \/ alive s' = false /\ exists x, x ∈ pending s /\ mailbox (m_rcpt x) = false)) /\
  (forall x rcpt fd, p = QOpen x rcpt fd -> rcpt = m_rcpt x /\
    forall s', qstep s t s' -> qman s' !! t = Some (QFailed x) <-> mailbox rcpt = false).
Proof.
  intros Hr Hl Hp Hi Hx. apply sinv_steps in Hr as Hs; [|apply sinv_start].
  pose proof (si_qman _ Hs) as Hq. rewrite list.Forall_lookup in Hq. apply Hq in Hp as Hok.
  assert (rank (length (qman s)) p <> 0)%nat as Hk by by destruct p.
  split; [by eapply can_step|]. split; [|split].
  - intros s' Hst. destruct (rank_drops _ _ _ _ Hs Hp Hk Hst) as [(x & -> & ->)|[E Hd]]; [left|right; by rewrite E].
    exists x. destruct (failed_pending _ _ _ Hs Hp). done.
  - intros s' [Ho|(_ & Hall & _)].
    + destruct (others_keep _ _ _ _ Hs Hp Ho) as (H1 & H2 & [E|(E & t' & x & Hf)]); (do 2 (split; [done|])); [left; congruence|right].
      split; [done|]. exists x. by eapply failed_pending.
    + rewrite list.Forall_lookup in Hall. by destruct Hx; symmetry; eapply Hall.
  - intros x rcpt fd ->. split; [apply Hok|]. intros s' Hst. pose proof (lookup_lt_Some _ _ _ Hp) as Hlt.
    destruct Hst as [Hst|Hst]; destruct Hst; simplify_eq/=; rewrite list_lookup_insert_eq by done; split; congruence.
Qed.
End Mailboxes.

(** ** Runs *)

(** Names that no file has, by evaluation. *)
Definition absentb (f : files) (nm : fname) : bool := forallb (fun x => bool_decide (x.2.1 <> nm)) (map_to_list f).

Lemma absentb_absent f nm : absentb f nm = true -> absent f nm.
Proof.
  unfold absentb. rewrite forallb_forall. intros H i c Hi. apply elem_of_map_to_list, list_elem_of_In, H in Hi.
  by apply bool_decide_eq_true in Hi.
Qed.

Ltac evaluate := lazymatch goal with
  | |- absent _ _ => apply absentb_absent; vm_compute; reflexivity
  | |- (_ <= _)%nat => vm_compute; lia
  | |- named _ _ _ _ => vm_compute; reflexivity
  | |- _ => reflexivity
  end.

Ltac run_step tac :=
  eapply rtc_l; [left; exists 0%nat; tac; evaluate|cbn [fs enq notify qman accepted delivered alive with_enq with_qman ended]].

(** [spool_writer::queue] of the message [x] *)
Ltac queue_message x :=
  run_step ltac:(left; apply (e_open _ _ (m_ino x) (m_text x) (m_rcpt x)));
  run_step ltac:(left; eapply e_copy);
  run_step ltac:(left; apply (e_envelope _ _ (m_ino x) (m_env x) (m_text x) (m_rcpt x)));
  run_step ltac:(left; eapply e_write);
  run_step ltac:(left; apply (e_rename _ _ x));
  run_step ltac:(left; apply (e_notify _ _ x)).

(** A message is queued and delivered, the number of its file is used again for
    the next one, and the queue manager ends. *)
Lemma mail_run : exists s, rtc (step (fun _ => true)) (start 1 1) s /\ delivered s = [(3, [97], [104; 105])]%Z /\ accepted s = [Mail 1 2 [104; 105] [97]] /\
  enq s = [ETmp 1 [33] [97]] /\ qman s = [QExited].
Proof.
  set (x := Mail 1 2 [104; 105] [97]). eexists. split.
  { unfold start; cbn [replicate]. queue_message x.
    run_step ltac:(left; eapply e_exit).
    run_step ltac:(right; left; apply (q_dequeue _ _ x [NExit])).
    run_step ltac:(right; left; apply (q_recipient _ _ x 2 (m_rcpt x))).
    run_step ltac:(right; left; apply (q_open _ _ x (m_rcpt x) 1 (m_text x))).
    run_step ltac:(right; right; apply (q_tmp _ _ _ x (m_rcpt x) 1 3)).
    run_step ltac:(right; right; apply (q_copy _ _ _ x (m_rcpt x) 1 3 (NMess 1) (m_text x))).
    run_step ltac:(right; right; apply (q_deliver _ _ _ x (m_rcpt x) 3 (m_text x))).
    run_step ltac:(right; left; apply (q_untodo _ _ x 2 (m_rcpt x))).
    run_step ltac:(right; left; apply (q_unmess _ _ x 1 (m_text x))).
    run_step ltac:(right; left; apply (q_exit _ _ [])).
    run_step ltac:(right; left; apply q_exit_self).
    run_step ltac:(right; left; apply (q_exit_done _ _ 1)).
    run_step ltac:(left; apply (e_open _ _ 1 [33] [97])).
    apply rtc_refl. }
  repeat split.
Qed.

(** A message to a recipient without a mailbox ends the queue manager; the message
    stays in the spool, and so does the next one, which the program that queues it
    cannot announce. *)
Example unknown_mailbox_ends : exists s, rtc (step (fun _ => false)) (start 1 1) s /\ alive s = false /\ delivered s = [] /\
  pending s = [Mail 3 4 [33] [98]; Mail 1 2 [104; 105] [97]] /\ enq s = [EUnsent (Some (Mail 3 4 [33] [98]))].
Proof.
  set (x := Mail 1 2 [104; 105] [97]). set (y := Mail 3 4 [33] [98]). eexists. split.
  { unfold start; cbn [replicate]. queue_message x.
    run_step ltac:(right; left; apply (q_dequeue _ _ x [])).
    run_step ltac:(right; left; apply (q_recipient _ _ x 2 (m_rcpt x))).
    run_step ltac:(right; left; apply (q_open _ _ x (m_rcpt x) 1 (m_text x))).
    run_step ltac:(right; right; apply (q_unknown _ _ _ x (m_rcpt x) 1)).
    run_step ltac:(right; left; apply (q_failed _ _ x)).
    run_step ltac:(left; apply (e_open _ _ 3 (m_text y) (m_rcpt y))).
    run_step ltac:(left; eapply e_copy).
    run_step ltac:(left; apply (e_envelope _ _ 3 4 (m_text y) (m_rcpt y))).
    run_step ltac:(left; eapply e_write).
    run_step ltac:(left; apply (e_rename _ _ y)).
    run_step ltac:(left; apply (e_notify_dies _ _ y)).
    apply rtc_refl. }
  repeat split.
Qed.

Lemma mail_delivered_once_witness : exists s, rtc (step (fun _ => true)) (start 1 1) s /\
  letter <$> accepted s ≡ₚ (arrived <$> delivered s) ++ (letter <$> pending s) /\ named (fs s) (NNew [97] 3) 3 [104; 105].
Proof.
  destruct mail_run as (s & Hr & Hd & _). exists s. split; [exact Hr|].
  destruct (mail_delivered_once (fun _ => true) 1 1 s Hr) as (_ & _ & Ha & _ & Hn & _). split; [exact Ha|].
  apply Hn. rewrite Hd. apply list_elem_of_here.
Defined.

Lemma thread_progress_witness : exists s x, rtc (step (fun _ => true)) (start 1 1) s /\ alive s = true /\ qman s !! 0%nat = Some (QGot x) /\ exists s', qstep (fun _ => true) s 0 s'.
Proof.
  set (x := Mail 1 2 [104; 105] [97]).
  assert (exists s, rtc (step (fun _ => true)) (start 1 1) s /\ alive s = true /\ qman s !! 0%nat = Some (QGot x)) as (s & Hr & Hl & Hp).
  { eexists. split.
    - unfold start; cbn [replicate]. queue_message x.
      run_step ltac:(right; left; apply (q_dequeue _ _ x [])). apply rtc_refl.
    - split; reflexivity. }
  exists s, x. split; [exact Hr|]. split; [exact Hl|]. split; [exact Hp|].
  apply (thread_progress (fun _ => true) 1 1 s 0 (QGot x) Hr Hl Hp); discriminate.
Defined.
