(* ===== verification/DlSep.v ===== *)
(** * A separation logic for word memory

    The allocator of error/dlmalloc.c keeps its data inside the memory it manages,
    so its proofs are about who owns which word.  Assertions are predicates on
    finite maps from addresses to words that stay true when more memory is added;
    they form a [bi], which gives them the connectives and the proof mode of Iris.
    A program is a function of the monad [M]; [wp] says that it returns, whatever
    the rest of the memory is, and leaves that rest as it is. *)

From iris.bi Require Import bi.
From iris.proofmode Require Import proofmode.
From S2P Require Import Prelude.

Abbreviation heap := (gmap Z Z).

Record hprop := HProp { hholds :> heap -> Prop; hholds_up h h' : hholds h -> h ⊆ h' -> hholds h' }.
Arguments HProp _ _.
Arguments hholds : simpl never.

Section hprop_ofe.
Inductive hequiv (P Q : hprop) : Prop := HEquiv { hequiv_holds : forall h, P h <-> Q h }.
#[local] Instance hprop_equiv : Equiv hprop := hequiv.
#[local] Instance hprop_equivalence : Equivalence (≡@{hprop}).
Proof.
  split; [by intros P; split|intros P Q [HPQ]; split; intros h; symmetry; apply HPQ|].
  intros P Q R [HPQ] [HQR]. split. intros h. by rewrite (HPQ h).
Qed.
Canonical Structure hpropO := discreteO hprop.
End hprop_ofe.

Inductive hentails (P Q : hprop) : Prop := HEntails { hentails_holds : forall h, P h -> Q h }.

Program Definition hpure (φ : Prop) : hprop := HProp (fun _ => φ) _.
Next Obligation. done. Qed.
Definition hemp : hprop := hpure True.
Program Definition hand (P Q : hprop) : hprop := HProp (fun h => P h /\ Q h) _.
Next Obligation. intros P Q h h' [? ?] ?; split; by eapply hholds_up. Qed.
Program Definition hor (P Q : hprop) : hprop := HProp (fun h => P h \/ Q h) _.
Next Obligation. intros P Q h h' [?|?] ?; [left|right]; by eapply hholds_up. Qed.
Program Definition himpl (P Q : hprop) : hprop := HProp (fun h => forall h', h ⊆ h' -> P h' -> Q h') _.
Next Obligation. intros P Q h h' HPQ Hh h'' ? ?. apply HPQ; [by etrans|done]. Qed.
Program Definition hforall {A} (Φ : A -> hprop) : hprop := HProp (fun h => forall a, Φ a h) _.
Next Obligation. intros A Φ h h' HΦ ? a. by eapply hholds_up. Qed.
Program Definition hexist {A} (Φ : A -> hprop) : hprop := HProp (fun h => exists a, Φ a h) _.
Next Obligation. intros A Φ h h' [a HΦ] ?. exists a. by eapply hholds_up. Qed.
Program Definition hsep (P Q : hprop) : hprop :=
  HProp (fun h => exists h1 h2, h = h1 ∪ h2 /\ h1 ##ₘ h2 /\ P h1 /\ Q h2) _.
Next Obligation.
  intros P Q h h' (h1 & h2 & -> & Hd & HP & HQ) Hh. exists h1, (h' ∖ h1).
  assert (h1 ⊆ h') as H1 by (etrans; [by apply map_union_subseteq_l|done]).
  split; [by rewrite map_difference_union|]. split; [by apply map_disjoint_difference_r1|]. split; [done|].
  eapply hholds_up; [exact HQ|]. apply map_subseteq_spec. intros i x Hi. apply lookup_difference_Some. split.
  - eapply lookup_weaken; [|exact Hh]. rewrite lookup_union_r //. by eapply map_disjoint_Some_l.
  - by eapply map_disjoint_Some_l.
Qed.
Program Definition hwand (P Q : hprop) : hprop :=
  HProp (fun h => forall h', h ##ₘ h' -> P h' -> Q (h ∪ h')) _.
Next Obligation.
  intros P Q h h' HPQ Hh h'' Hd HP. eapply hholds_up; [apply (HPQ h'')|]; [by eapply map_disjoint_weaken_l|done|].
  by apply map_union_mono_r.
Qed.
Definition hpers (P : hprop) : hprop := hpure (hentails hemp P).

Ltac hsplit := repeat match goal with
  | H : hholds (hand _ _) _ |- _ => destruct H as [? ?]
  | H : hholds (hsep _ _) _ |- _ => destruct H as (? & ? & -> & ? & ? & ?)
  | H : hholds (hexist _) _ |- _ => destruct H as [? ?]
  | H : hentails _ _ |- _ => destruct H as [?]
  end.

Lemma hprop_bi_mixin : BiMixin hentails hemp hpure hand hor himpl (@hforall) (@hexist) hsep hwand.
Proof.
  split.
  - split; [by intros P; split|intros P Q R [H1] [H2]; split; auto].
  - intros P Q; split; [intros [H]; split; split; intros h; apply H|intros [[?] [?]]; split; intros h; split; auto].
  - intros n φ ψ H. split. intros h. exact H.
  - intros n P P' [HP] Q Q' [HQ]. split. intros h. split; (intros [? ?]; split; [apply HP|apply HQ]; done).
  - intros n P P' [HP] Q Q' [HQ]. split. intros h. split; (intros [?|?]; [left; by apply HP|right; by apply HQ]).
  - intros n P P' [HP] Q Q' [HQ]. split. intros h. split; intros H h' Hh HPh; apply HQ, H, HP; done.
  - intros A n Φ Ψ H. split. intros h. split; intros HΦ a; apply H, HΦ.
  - intros A n Φ Ψ H. split. intros h. split; intros [a HΦ]; exists a; by apply H.
  - intros n P P' [HP] Q Q' [HQ]. split. intros h. split; intros (h1 & h2 & -> & Hd & H1 & H2); exists h1, h2; split_and!; try done; first [by apply HP|by apply HQ].
  - intros n P P' [HP] Q Q' [HQ]. split. intros h. split; intros H h' Hh HPh; apply HQ, H, HP; done.
  - intros φ P Hφ. split; intros h _. exact Hφ.
  - intros φ P H. split; intros h Hφ. destruct (H Hφ) as [H']. by apply H'.
  - intros P Q. split; by intros h [? ?].
  - intros P Q. split; by intros h [? ?].
  - intros P Q R [H1] [H2]. split; intros h ?; split; auto.
  - intros P Q. split; intros h ?; by left.
  - intros P Q. split; intros h ?; by right.
  - intros P Q R [H1] [H2]. split; intros h [?|?]; auto.
  - intros P Q R [H]. split; intros h HP h' Hh HQ. apply H. split; [by eapply hholds_up|done].
  - intros P Q R [H]. split; intros h [HP HQ]. by apply (H h HP h).
  - intros A P Ψ H. split; intros h HP a. by apply (H a).
  - intros A Ψ a. split; intros h H. apply H.
  - intros A Ψ a. split; intros h H. by exists a.
  - intros A Φ Q H. split; intros h [a Ha]. by apply (H a).
  - intros P P' Q Q' [H1] [H2]. split; intros h (h1 & h2 & -> & Hd & HP & HQ). exists h1, h2. split_and!; auto.
  - intros P. split; intros h HP. exists ∅, h. rewrite left_id_L. split_and!; try done. apply map_disjoint_empty_l.
  - intros P. split; intros h (h1 & h2 & -> & Hd & _ & HP). eapply hholds_up; [exact HP|]. by apply map_union_subseteq_r.
  - intros P Q. split; intros h (h1 & h2 & -> & Hd & HP & HQ). exists h2, h1. rewrite map_union_comm //.
  - intros P Q R. split; intros h (h12 & h3 & -> & Hd & (h1 & h2 & -> & Hd' & HP & HQ) & HR).
    apply map_disjoint_union_l in Hd as [? ?]. exists h1, (h2 ∪ h3). rewrite assoc_L. split_and!; try done.
    + apply map_disjoint_union_r; done.
    + exists h2, h3. by split_and!.
  - intros P Q R [H]. split; intros h HP h' Hd HQ. apply H. exists h, h'. by split_and!.
  - intros P Q R [H]. split; intros h (h1 & h2 & -> & Hd & HP & HQ). by apply H.
Qed.

Lemma hprop_pers_mixin : BiPersistentlyMixin hentails hemp hand (@hexist) hsep hpers.
Proof.
  eapply bi_persistently_mixin_discrete; [..|apply hprop_bi_mixin]; [done| |done].
  intros A Φ [H]. destruct (H ∅ I) as [x Hx]. exists x. split; intros h _. eapply hholds_up; [exact Hx|]. apply map_empty_subseteq.
Qed.

Lemma hprop_later_mixin : BiLaterMixin hentails hpure hor himpl (@hforall) (@hexist) hsep hpers id.
Proof. eapply bi_later_mixin_id; [done|apply hprop_bi_mixin]. Qed.

Canonical Structure hpropI : bi :=
  {| bi_ofe_mixin := ofe_mixin_of hprop; bi_cofe_aux := _; bi_bi_mixin := hprop_bi_mixin;
     bi_bi_persistently_mixin := hprop_pers_mixin; bi_bi_later_mixin := hprop_later_mixin |}.

#[export] Instance hprop_affine : BiAffine hpropI.
Proof. intros P. split. by intros h _. Qed.

(** ** Words *)

Program Definition pointsto (a v : Z) : hpropI := HProp (fun h => h !! a = Some v) _.
Next Obligation. intros a v h h' H Hh. exact (lookup_weaken _ _ _ _ H Hh). Qed.

Notation "a ↦ v" := (pointsto a v) (at level 20) : bi_scope.
Notation "a ↦ -" := (∃ v, pointsto a v)%I (at level 20, format "a  ↦  -") : bi_scope.

#[export] Instance pointsto_timeless a v : Timeless (a ↦ v)%I.
Proof. rewrite /Timeless /bi_except_0. iIntros "H". by iRight. Qed.

Lemma pointsto_ne a b v w : a ↦ v ∗ b ↦ w ⊢ ⌜a <> b⌝.
Proof.
  split. intros h (h1 & h2 & -> & Hd & H1 & H2) ->. rewrite map_disjoint_spec in Hd. exact (Hd _ _ _ H1 H2).
Qed.

(** ** Programs *)

(** The global variables and the memory of a program. *)
Record wstate (G : Type) := WS { regs : G; words : heap }.
Arguments WS {G} _ _.
Arguments regs {G} _.
Arguments words {G} _.

Section wp.
Context {G : Type}.
Implicit Types (g : G) (h : heap).

(** Access to an unmapped word is undefined. *)
Definition ld (a : Z) : M (wstate G) Z := fun s => match words s !! a with Some v => Ret v s | None => Ub end.
Definition sd (a v : Z) : M (wstate G) unit := fun s =>
  match words s !! a with Some _ => Ret tt (WS (regs s) (<[a := v]> (words s))) | None => Ub end.
Definition getr {A} (f : G -> A) : M (wstate G) A := gets (fun s => f (regs s)).
Definition setr (f : G -> G) : M (wstate G) unit := modify (fun s => WS (f (regs s)) (words s)).

Definition wp_holds {A} (c : M (wstate G) A) (Φ : A -> G -> hprop) g h : Prop :=
  forall hf, h ##ₘ hf -> exists r g' h', c (WS g (h ∪ hf)) = Ret r (WS g' (h' ∪ hf)) /\ h' ##ₘ hf /\ Φ r g' h'.

Program Definition wp {A} (c : M (wstate G) A) (Φ : A -> G -> hprop) g : hpropI := HProp (wp_holds c Φ g) _.
Next Obligation.
  intros A c Φ g h h' H Hh hf Hd. rewrite -(map_difference_union _ _ Hh) in Hd |- *.
  apply map_disjoint_union_l in Hd as [Hd1 Hd2].
  destruct (H (h' ∖ h ∪ hf)) as (r & g' & h1 & E & Hd' & HΦ).
  { apply map_disjoint_union_r; split; [by apply map_disjoint_difference_r1|done]. }
  apply map_disjoint_union_r in Hd' as [Hd3 Hd4]. rewrite !assoc_L in E.
  exists r, g', (h1 ∪ h' ∖ h). split; [done|]. split; [by apply map_disjoint_union_l|].
  eapply hholds_up; [exact HΦ|]. by apply map_union_subseteq_l.
Qed.

Lemma wp_ret {A} (a : A) Φ g : Φ a g ⊢ wp (mret a) Φ g.
Proof. split. intros h H hf Hd. by exists a, g, h. Qed.

Lemma wp_bind {A B} (c : M (wstate G) A) (f : A -> M (wstate G) B) Φ g :
  wp c (fun a g => wp (f a) Φ g) g ⊢ wp (c ≫= f) Φ g.
Proof.
  split. intros h H hf Hd. destruct (H hf Hd) as (a & g1 & h1 & E1 & Hd1 & H1).
  destruct (H1 hf Hd1) as (b & g2 & h2 & E2 & Hd2 & H2). exists b, g2, h2. split; [|done].
  by rewrite (bind_ret _ _ _ _ _ E1).
Qed.

Lemma wp_wand {A} (c : M (wstate G) A) Φ Ψ g : wp c Φ g -∗ (∀ a g', Φ a g' -∗ Ψ a g') -∗ wp c Ψ g.
Proof.
  iIntros "H1 H2". iStopProof. split. intros h (h1 & h2 & -> & Hd & H1 & H2) hf Hdf.
  apply map_disjoint_union_l in Hdf as [Hf1 Hf2].
  destruct (H1 (h2 ∪ hf)) as (r & g' & h' & E & Hd' & HΦ); [by apply map_disjoint_union_r|].
  apply map_disjoint_union_r in Hd' as [Hd1 Hd2]. exists r, g', (h' ∪ h2).
  split; [by rewrite -!assoc_L|]. split; [by apply map_disjoint_union_l|].
  rewrite map_union_comm //. by apply (H2 r g' h').
Qed.

Lemma wp_ld a v Φ g : a ↦ v -∗ (a ↦ v -∗ Φ v g) -∗ wp (ld a) Φ g.
Proof.
  iIntros "H1 H2". iStopProof. split. intros h (h1 & h2 & -> & Hd & H1 & H2) hf Hdf.
  exists v, g, (h1 ∪ h2). split.
  - unfold ld. simpl. assert ((h1 ∪ h2 ∪ hf) !! a = Some v) as ->; [|done].
    apply lookup_union_Some_l, lookup_union_Some_l. exact H1.
  - split; [done|]. rewrite map_union_comm //. by apply (H2 h1).
Qed.

Lemma wp_sd a v w Φ g : a ↦ v -∗ (a ↦ w -∗ Φ tt g) -∗ wp (sd a w) Φ g.
Proof.
  iIntros "H1 H2". iStopProof. split. intros h (h1 & h2 & -> & Hd & H1 & H2) hf Hdf.
  exists tt, g, (<[a := w]> h1 ∪ h2). assert (is_Some (h1 !! a)) as Hs by by exists v. split.
  - unfold sd. simpl. assert ((h1 ∪ h2 ∪ hf) !! a = Some v) as ->; [apply lookup_union_Some_l, lookup_union_Some_l; exact H1|].
    by rewrite -!insert_union_l.
  - split.
    + rewrite -insert_union_l. apply map_disjoint_insert_l_2; [|done].
      eapply (map_disjoint_Some_l (h1 ∪ h2)); [done|]. apply lookup_union_Some_l. exact H1.
    + assert (h2 !! a = None) as Hn by exact (map_disjoint_Some_l _ _ _ _ Hd H1).
      rewrite map_union_comm; [|by apply map_disjoint_insert_l_2].
      apply (H2 (<[a := w]> h1)); [by apply map_disjoint_insert_r_2|]. by rewrite /hholds /= lookup_insert_eq.
Qed.

Lemma wp_getr {A} (f : G -> A) Φ g : Φ (f g) g ⊢ wp (getr f) Φ g.
Proof. split. intros h H hf Hd. by exists (f g), g, h. Qed.

Lemma wp_setr (f : G -> G) Φ g : Φ tt (f g) ⊢ wp (setr f) Φ g.
Proof. split. intros h H hf Hd. by exists tt, (f g), h. Qed.

Lemma wp_loop {A B} n (body : A -> M (wstate G) (A + B)) a Φ g :
  wp (body a) (fun x g' => match x with inl a' => wp (loop n body a') Φ g' | inr b => Φ b g' end) g ⊢ wp (loop (S n) body a) Φ g.
Proof.
  iIntros "H". cbn [loop]. iApply wp_bind. iApply (wp_wand with "H"). iIntros ([a'|b] g') "H"; [done|]. by iApply wp_ret.
Qed.

(** A bound on the number of words; the fuel of loops over linked records. *)
Definition memsize : M (wstate G) nat := gets (fun s => S (size (words s))).

Lemma big_sepL_size (l : list Z) h : hholds ([∗ list] a ∈ l, ∃ v, a ↦ v)%I h -> (length l <= size h)%nat.
Proof.
  revert h. induction l as [|a l IH]; intros h; [simpl; lia|]. intros (h1 & h2 & -> & Hd & [v Hv] & Hl). rewrite map_size_disj_union //.
  apply IH in Hl. assert (size h1 <> 0%nat); [|simpl; lia]. intros E%map_size_empty_inv. subst h1. done.
Qed.

Lemma wp_memsize (l : list Z) (P : hpropI) Φ g : (P ⊢ [∗ list] a ∈ l, ∃ v, a ↦ v) -> P -∗ (∀ n, ⌜(length l < n)%nat⌝ -∗ P -∗ Φ n g) -∗ wp memsize Φ g.
Proof.
  iIntros ([HP]) "H1 H2". iStopProof. split. intros h (h1 & h2 & -> & Hd & H1 & H2) hf Hdf.
  exists (S (size (h1 ∪ h2 ∪ hf))), g, (h1 ∪ h2). split; [done|]. split; [done|]. pose proof (big_sepL_size _ _ (HP _ H1)) as Hs.
  assert (length l < S (size (h1 ∪ h2 ∪ hf)))%nat as Hn by (rewrite !map_size_disj_union //; lia).
  specialize (H2 (S (size (h1 ∪ h2 ∪ hf))) ∅ (map_disjoint_empty_r _) Hn). rewrite right_id_L in H2.
  rewrite {2}(map_union_comm h1 h2) //. by apply (H2 h1).
Qed.

(** What [wp] says of a run. *)
Lemma wp_run {A} (c : M (wstate G) A) Φ P g h : (P ⊢ wp c Φ g) -> hholds P h ->
  exists r g' h', c (WS g h) = Ret r (WS g' h') /\ hholds (Φ r g') h'.
Proof.
  intros [H] HP. destruct (H h HP ∅) as (r & g' & h' & E & _ & HΦ); [apply map_disjoint_empty_r|].
  rewrite !right_id_L in E. eauto.
Qed.
End wp.
