(* ===== verification/DlBase.v ===== *)
(** * dlmalloc: sizes, chunks, bin indices and the allocator's state

    c/error/dlmalloc.c in the configuration the file selects: x86-64 with 16-byte
    alignment, USE_LOCKS with spin locks, HAVE_MORECORE 0, no footers, the run-time
    checks on, asserts off, and abort() on corruption.

    A chunk is the address of its prev_foot word.  The words of chunks and of the two
    bin arrays of [_gm_] live in the memory of [wstate]; the other fields of [_gm_] are
    the record [mstate].  Sizes and addresses are size_t: integers modulo 2^64. *)

From iris.proofmode Require Import proofmode.
From S2P Require Import Prelude DlSep.

(** Where the linker puts the bin arrays of [_gm_] and its segment record. *)
Class Gm := { smallbins : Z; treebins : Z; segment0 : Z }.

(** The fields of [_gm_] that only the system layer uses, and [mparams]. *)
Record sysvars := SysVars {
  max_footprint : Z; footprint_limit : Z; magic : Z; errno : Z; global_mutex : Z;
  mp_magic : Z; page_size : Z; granularity : Z; mmap_threshold : Z; trim_threshold : Z; default_mflags : Z }.

Record mstate := MState {
  smallmap : Z; treemap : Z; dvsize : Z; topsize : Z; least_addr : Z; dv : Z; top : Z;
  trim_check : Z; release_checks : Z; footprint : Z; mflags : Z; mutex : Z; sysv : sysvars }.

Abbreviation HM := (M (wstate mstate)).

Definition set_smallmap v g := MState v (treemap g) (dvsize g) (topsize g) (least_addr g) (dv g) (top g)
  (trim_check g) (release_checks g) (footprint g) (mflags g) (mutex g) (sysv g).
Definition set_treemap v g := MState (smallmap g) v (dvsize g) (topsize g) (least_addr g) (dv g) (top g)
  (trim_check g) (release_checks g) (footprint g) (mflags g) (mutex g) (sysv g).
Definition set_dvsize v g := MState (smallmap g) (treemap g) v (topsize g) (least_addr g) (dv g) (top g)
  (trim_check g) (release_checks g) (footprint g) (mflags g) (mutex g) (sysv g).
Definition set_topsize v g := MState (smallmap g) (treemap g) (dvsize g) v (least_addr g) (dv g) (top g)
  (trim_check g) (release_checks g) (footprint g) (mflags g) (mutex g) (sysv g).
Definition set_dv v g := MState (smallmap g) (treemap g) (dvsize g) (topsize g) (least_addr g) v (top g)
  (trim_check g) (release_checks g) (footprint g) (mflags g) (mutex g) (sysv g).
Definition set_top v g := MState (smallmap g) (treemap g) (dvsize g) (topsize g) (least_addr g) (dv g) v
  (trim_check g) (release_checks g) (footprint g) (mflags g) (mutex g) (sysv g).
Definition set_release_checks v g := MState (smallmap g) (treemap g) (dvsize g) (topsize g) (least_addr g) (dv g)
  (top g) (trim_check g) v (footprint g) (mflags g) (mutex g) (sysv g).
Definition set_footprint v g := MState (smallmap g) (treemap g) (dvsize g) (topsize g) (least_addr g) (dv g)
  (top g) (trim_check g) (release_checks g) v (mflags g) (mutex g) (sysv g).
Definition set_mutex v g := MState (smallmap g) (treemap g) (dvsize g) (topsize g) (least_addr g) (dv g)
  (top g) (trim_check g) (release_checks g) (footprint g) (mflags g) v (sysv g).
Definition set_least_addr v g := MState (smallmap g) (treemap g) (dvsize g) (topsize g) v (dv g) (top g)
  (trim_check g) (release_checks g) (footprint g) (mflags g) (mutex g) (sysv g).
Definition set_trim_check v g := MState (smallmap g) (treemap g) (dvsize g) (topsize g) (least_addr g) (dv g) (top g)
  v (release_checks g) (footprint g) (mflags g) (mutex g) (sysv g).
Definition set_mflags v g := MState (smallmap g) (treemap g) (dvsize g) (topsize g) (least_addr g) (dv g) (top g)
  (trim_check g) (release_checks g) (footprint g) v (mutex g) (sysv g).
Definition set_sysv f g := MState (smallmap g) (treemap g) (dvsize g) (topsize g) (least_addr g) (dv g) (top g)
  (trim_check g) (release_checks g) (footprint g) (mflags g) (mutex g) (f (sysv g)).
Definition set_errno v g := set_sysv (fun y => SysVars (max_footprint y) (footprint_limit y) (magic y) v (global_mutex y)
  (mp_magic y) (page_size y) (granularity y) (mmap_threshold y) (trim_threshold y) (default_mflags y)) g.

(** ** Sizes *)

Definition MAX_SIZE_T : Z := 2 ^ 64 - 1.
Definition SIZE_T_BITSIZE : Z := 64.
Definition CHUNK_ALIGN_MASK : Z := 15.
Definition MIN_CHUNK_SIZE : Z := 32.
Definition CHUNK_OVERHEAD : Z := 8.
Definition MMAP_FOOT_PAD : Z := 32.
Definition MAX_REQUEST : Z := u64 (Z.shiftl (- MIN_CHUNK_SIZE) 2).
Definition MIN_REQUEST : Z := MIN_CHUNK_SIZE - CHUNK_OVERHEAD - 1.

Definition pad_request (req : Z) : Z :=
  Z.land (u64 (req + CHUNK_OVERHEAD + CHUNK_ALIGN_MASK)) (u64 (Z.lnot CHUNK_ALIGN_MASK)).
Definition request2size (req : Z) : Z := if req <? MIN_REQUEST then MIN_CHUNK_SIZE else pad_request req.

(** ** Chunks

    The addresses of the fields of struct malloc_chunk and struct malloc_tree_chunk. *)

Definition prev_foot (p : Z) : Z := p.
Definition head (p : Z) : Z := p + 8.
Definition fd (p : Z) : Z := p + 16.
Definition bk (p : Z) : Z := p + 24.
Definition child (p : Z) (b : Z) : Z := p + 32 + 8 * b.
Definition parent (p : Z) : Z := p + 48.
Definition index (p : Z) : Z := p + 56.

Definition chunk2mem (p : Z) : Z := u64 (p + 16).
Definition mem2chunk (mem : Z) : Z := u64 (mem - 16).
Definition chunk_plus_offset (p s : Z) : Z := u64 (p + s).
Definition chunk_minus_offset (p s : Z) : Z := u64 (p - s).

Definition PINUSE_BIT : Z := 1.
Definition CINUSE_BIT : Z := 2.
Definition INUSE_BITS : Z := Z.lor PINUSE_BIT CINUSE_BIT.
Definition FLAG_BITS : Z := 7.

(** Functions of a head word. *)
Definition h_size (h : Z) : Z := Z.land h (u64 (Z.lnot FLAG_BITS)).
Definition h_cinuse (h : Z) : bool := negb (Z.land h CINUSE_BIT =? 0).
Definition h_pinuse (h : Z) : bool := negb (Z.land h PINUSE_BIT =? 0).
Definition h_inuse (h : Z) : bool := negb (Z.land h INUSE_BITS =? PINUSE_BIT).
Definition h_mmapped (h : Z) : bool := Z.land h INUSE_BITS =? 0.

Definition chunksize (p : Z) : HM Z := h ← ld (head p); mret (h_size h).
Definition cinuse (p : Z) : HM bool := h ← ld (head p); mret (h_cinuse h).
Definition pinuse (p : Z) : HM bool := h ← ld (head p); mret (h_pinuse h).
Definition is_inuse (p : Z) : HM bool := h ← ld (head p); mret (h_inuse h).
Definition is_mmapped (p : Z) : HM bool := h ← ld (head p); mret (h_mmapped h).
Definition clear_pinuse (p : Z) : HM unit := h ← ld (head p); sd (head p) (Z.land h (u64 (Z.lnot PINUSE_BIT))).
Definition set_foot (p s : Z) : HM unit := sd (prev_foot (chunk_plus_offset p s)) s.
Definition set_size_and_pinuse_of_free_chunk (p s : Z) : HM unit := sd (head p) (Z.lor s PINUSE_BIT);; set_foot p s.
Definition set_free_with_pinuse (p s n : Z) : HM unit := clear_pinuse n;; set_size_and_pinuse_of_free_chunk p s.
Definition set_inuse_and_pinuse (p s : Z) : HM unit :=
  sd (head p) (Z.lor (Z.lor s PINUSE_BIT) CINUSE_BIT);;
  let n := head (chunk_plus_offset p s) in h ← ld n; sd n (Z.lor h PINUSE_BIT).
Definition set_size_and_pinuse_of_inuse_chunk (p s : Z) : HM unit :=
  sd (head p) (Z.lor (Z.lor s PINUSE_BIT) CINUSE_BIT).

(** ** Bin indices and bin maps *)

Definition NSMALLBINS : Z := 32.
Definition NTREEBINS : Z := 32.
Definition SMALLBIN_SHIFT : Z := 3.
Definition TREEBIN_SHIFT : Z := 8.
Definition MAX_SMALL_SIZE : Z := Z.shiftl 1 TREEBIN_SHIFT - 1.
Definition MAX_SMALL_REQUEST : Z := MAX_SMALL_SIZE - CHUNK_ALIGN_MASK - CHUNK_OVERHEAD.

Definition is_small (s : Z) : bool := Z.shiftr s SMALLBIN_SHIFT <? NSMALLBINS.
Definition small_index (s : Z) : Z := u32 (Z.shiftr s SMALLBIN_SHIFT).
Definition small_index2size (i : Z) : Z := u32 (Z.shiftl i SMALLBIN_SHIFT).
Definition smallbin_at `{Gm} (i : Z) : Z := smallbins + 16 * i.
Definition treebin_at `{Gm} (i : Z) : Z := treebins + 8 * i.

(** __builtin_clz and __builtin_ctz of a nonzero 32-bit number. *)
Definition clz (x : Z) : Z := 31 - Z.log2 x.
Definition ctz (x : Z) : Z := Z.log2 (Z.land x (- x)).

Definition compute_tree_index (S : Z) : Z :=
  let X := u32 (Z.shiftr S TREEBIN_SHIFT) in
  if X =? 0 then 0
  else if 0xFFFF <? X then NTREEBINS - 1
  else let K := 31 - clz X in
       Z.shiftl K 1 + Z.land (Z.shiftr S (K + (TREEBIN_SHIFT - 1))) 1.

Definition leftshift_for_tree_index (i : Z) : Z :=
  if i =? NTREEBINS - 1 then 0 else (SIZE_T_BITSIZE - 1) - (Z.shiftr i 1 + TREEBIN_SHIFT - 2).

Definition minsize_for_tree_index (i : Z) : Z :=
  Z.lor (Z.shiftl 1 (Z.shiftr i 1 + TREEBIN_SHIFT)) (Z.shiftl (Z.land i 1) (Z.shiftr i 1 + TREEBIN_SHIFT - 1)).

Definition idx2bit (i : Z) : Z := u32 (Z.shiftl 1 i).
Definition least_bit (x : Z) : Z := Z.land x (u32 (- x)).
Definition left_bits (x : Z) : Z := Z.lor (u32 (Z.shiftl x 1)) (u32 (- u32 (Z.shiftl x 1))).
Definition compute_bit2idx (x : Z) : Z := ctz x.

Definition mark_smallmap (i : Z) : HM unit := setr (fun g => set_smallmap (Z.lor (smallmap g) (idx2bit i)) g).
Definition clear_smallmap (i : Z) : HM unit :=
  setr (fun g => set_smallmap (Z.land (smallmap g) (u32 (Z.lnot (idx2bit i)))) g).
Definition smallmap_is_marked (i : Z) : HM bool := getr (fun g => negb (Z.land (smallmap g) (idx2bit i) =? 0)).
Definition mark_treemap (i : Z) : HM unit := setr (fun g => set_treemap (Z.lor (treemap g) (idx2bit i)) g).
Definition clear_treemap (i : Z) : HM unit :=
  setr (fun g => set_treemap (Z.land (treemap g) (u32 (Z.lnot (idx2bit i)))) g).
Definition treemap_is_marked (i : Z) : HM bool := getr (fun g => negb (Z.land (treemap g) (idx2bit i) =? 0)).

(** ** Run-time checks and the lock *)

Definition ok_address (a : Z) : HM bool := getr (fun g => least_addr g <=? a).
Definition ok_next (p n : Z) : bool := p <? n.
(** abort() of the C library ends the process with status -1. *)
Definition CORRUPTION_ERROR_ACTION {A} : HM A := halt (-1).
Definition USAGE_ERROR_ACTION {A} : HM A := halt (-1).

Definition USE_LOCK_BIT : Z := 2.
Definition use_lock (g : mstate) : bool := negb (Z.land (mflags g) USE_LOCK_BIT =? 0).
(** Atomic exchange with 1; the old value. *)
Definition CAS_LOCK : HM Z := v ← getr mutex; setr (set_mutex 1);; mret v.
(** The value of the lock word is the caller's own between two reads, so the loop
    that waits for another thread to release the lock uses all of its fuel. *)
Definition SPINS : nat := 64.
Definition spin_acquire_lock : HM Z :=
  loop SPINS (fun _ : unit =>
    v ← getr mutex;
    if negb (v =? 0) then mret (inl tt)
    else r ← CAS_LOCK; if negb (r =? 0) then mret (inl tt) else mret (inr 0)) tt.
Definition ACQUIRE_LOCK : HM Z := r ← CAS_LOCK; if negb (r =? 0) then spin_acquire_lock else mret 0.
Definition RELEASE_LOCK : HM unit := setr (set_mutex 0).
Definition PREACTION : HM Z := u ← getr use_lock; if u : bool then ACQUIRE_LOCK else mret 0.
Definition POSTACTION : HM unit := u ← getr use_lock; if u : bool then RELEASE_LOCK else mret tt.

(** ** Words as bits *)

Lemma uwrap_land w z : 0 <= w -> uwrap w z = Z.land z (Z.ones w).
Proof. intros Hw. unfold uwrap. by rewrite Z.land_ones. Qed.

Lemma land_uwrap w y m : 0 <= w -> in_u w y -> Z.land y (uwrap w m) = Z.land y m.
Proof.
  intros Hw Hy. rewrite uwrap_land //. rewrite (Z.land_comm m) Z.land_assoc.
  rewrite Z.land_ones // Z.mod_small //.
Qed.

(** Flags below an aligned size. *)
Lemma lor_flag s b : s mod 16 = 0 -> 0 <= b < 16 -> Z.lor s b = s + b.
Proof.
  intros Hs Hb. symmetry. apply Z.add_nocarry_lor. apply Z.bits_inj'. intros n Hn.
  rewrite Z.land_spec Z.bits_0. destruct (decide (n < 4)) as [Hl|Hl].
  - assert (s = (s / 16) * 2 ^ 4) as -> by (change (2 ^ 4) with 16; zdm). by rewrite Z.mul_pow2_bits_low.
  - apply andb_false_intro2. destruct (decide (b = 0)) as [->|]; [apply Z.bits_0|].
    apply Z.bits_above_log2; [lia|]. apply Z.log2_lt_pow2; [lia|].
    assert (2 ^ 4 <= 2 ^ n) by (apply Z.pow_le_mono_r; lia). lia.
Qed.

Lemma land_flag s b m : s mod 16 = 0 -> 0 <= b < 16 -> 0 <= m < 16 -> Z.land (s + b) m = Z.land b m.
Proof.
  intros Hs Hb Hm. rewrite -(lor_flag s b) // Z.land_lor_distr_l.
  assert (Z.land s m = 0) as ->; [|by rewrite Z.lor_0_l]. apply Z.bits_inj'. intros n Hn.
  rewrite Z.land_spec Z.bits_0. destruct (decide (n < 4)) as [Hl|Hl].
  - assert (s = (s / 16) * 2 ^ 4) as -> by (change (2 ^ 4) with 16; zdm). by rewrite Z.mul_pow2_bits_low.
  - apply andb_false_intro2. destruct (decide (m = 0)) as [->|]; [apply Z.bits_0|].
    apply Z.bits_above_log2; [lia|]. apply Z.log2_lt_pow2; [lia|].
    assert (2 ^ 4 <= 2 ^ n) by (apply Z.pow_le_mono_r; lia). lia.
Qed.

Lemma h_size_flag s b : s mod 16 = 0 -> 0 <= b < 8 -> 0 <= s < 2 ^ 64 - 16 -> h_size (s + b) = s.
Proof.
  intros Hs Hb Hr. unfold h_size. rewrite land_uwrap; [|lia|unfold in_u; lia].
  unfold FLAG_BITS. change 7 with (Z.ones 3). rewrite land_not_ones; [|lia]. change (2 ^ 3) with 8. zdm.
Qed.

Ltac flags := unfold h_cinuse, h_pinuse, h_inuse, h_mmapped, INUSE_BITS, CINUSE_BIT, PINUSE_BIT;
  rewrite -> land_flag by (done || lia); done.

Lemma pad_request_spec r : 0 <= r < MAX_REQUEST ->
  pad_request r mod 16 = 0 /\ r + 8 <= pad_request r < r + 24.
Proof.
  unfold MAX_REQUEST, pad_request. intros Hr.
  assert (u64 (Z.shiftl (- MIN_CHUNK_SIZE) 2) = 2 ^ 64 - 128) as E by done. rewrite E in Hr.
  unfold CHUNK_OVERHEAD, CHUNK_ALIGN_MASK.
  rewrite land_uwrap; [|lia|apply uwrap_range; lia]. rewrite uwrap_id; [|unfold in_u; lia].
  change 15 with (Z.ones 4) at 2 4 6. rewrite land_not_ones; [|lia]. change (2 ^ 4) with 16. zdm.
Qed.

(** ** Bin maps *)

Lemma idx2bit_pow i : 0 <= i < 32 -> idx2bit i = 2 ^ i.
Proof.
  intros Hi. unfold idx2bit. rewrite Z.shiftl_1_l uwrap_id //. split; [lia|]. apply Z.pow_lt_mono_r; lia.
Qed.

Lemma marked_testbit m i : 0 <= i < 32 -> negb (Z.land m (idx2bit i) =? 0) = Z.testbit m i.
Proof.
  intros Hi. rewrite idx2bit_pow //. destruct (Z.testbit m i) eqn:E.
  - apply negb_true_iff, Z.eqb_neq. intros H. apply (f_equal (fun z => Z.testbit z i)) in H.
    rewrite Z.land_spec E Z.pow2_bits_true in H; [|lia]. by rewrite Z.bits_0 in H.
  - apply negb_false_iff, Z.eqb_eq, Z.bits_inj'. intros n Hn. rewrite Z.land_spec Z.bits_0.
    destruct (decide (n = i)) as [->|]; [by rewrite E|]. by rewrite Z.pow2_bits_false // andb_false_r.
Qed.

Lemma mark_testbit m i j : 0 <= i < 32 -> Z.testbit (Z.lor m (idx2bit i)) j = bool_decide (i = j) || Z.testbit m j.
Proof. intros Hi. rewrite idx2bit_pow // Z.lor_spec Z.pow2_bits_eqb; [|lia]. rewrite orb_comm. f_equal. case_bool_decide; lia. Qed.

Lemma clear_testbit m i j : in_u 32 m -> 0 <= i < 32 -> 0 <= j ->
  Z.testbit (Z.land m (u32 (Z.lnot (idx2bit i)))) j = negb (bool_decide (i = j)) && Z.testbit m j.
Proof.
  intros Hm Hi Hj. rewrite land_uwrap; [|lia|done]. rewrite idx2bit_pow // Z.land_spec Z.lnot_spec // Z.pow2_bits_eqb; [|lia].
  rewrite andb_comm. do 2 f_equal. case_bool_decide; lia.
Qed.

Lemma mark_u32 m i : in_u 32 m -> 0 <= i < 32 -> in_u 32 (Z.lor m (idx2bit i)).
Proof.
  intros Hm Hi. rewrite idx2bit_pow //. assert (in_u 32 (2 ^ i)) as Hp by (split; [lia|apply Z.pow_lt_mono_r; lia]).
  unfold in_u in *. split; [apply Z.lor_nonneg; lia|].
  assert (Z.lor m (2 ^ i) = Z.land (Z.lor m (2 ^ i)) (Z.ones 32)) as ->.
  - rewrite Z.land_lor_distr_l !Z.land_ones // !Z.mod_small //.
  - rewrite Z.land_ones //. apply Z.mod_pos_bound. lia.
Qed.

Lemma land_u32 m y : in_u 32 m -> in_u 32 (Z.land m y).
Proof.
  intros Hm. assert (Z.land m y = Z.land (Z.land m y) (Z.ones 32)) as ->.
  - rewrite -Z.land_assoc (Z.land_comm y) Z.land_assoc. by rewrite (Z.land_ones m) // Z.mod_small.
  - rewrite Z.land_ones //. apply Z.mod_pos_bound. lia.
Qed.

(** A positive number is an odd multiple of the power of two of its lowest set bit. *)
Lemma low_bit x : 0 < x -> exists i q, 0 <= i /\ 0 <= q /\ x = (2 * q + 1) * 2 ^ i.
Proof.
  intros Hx. destruct x as [|p|p]; try lia. induction p as [p IH|p IH|].
  - exists 0, (Z.pos p). lia.
  - destruct IH as (i & q & Hi & Hq & E); [lia|]. exists (i + 1), q. split_and!; try lia.
    rewrite Z.pow_add_r; [|lia..]. lia.
  - exists 0, 0. lia.
Qed.

Lemma land_opp_odd q : Z.land (2 * q + 1) (- (2 * q + 1)) = 1.
Proof.
  assert (- (2 * q + 1) = 2 * Z.lnot q + 1) as -> by (unfold Z.lnot; lia).
  apply Z.bits_inj'. intros n Hn. rewrite Z.land_spec. destruct (decide (n = 0)) as [->|].
  - by rewrite !Z.testbit_odd_0.
  - replace n with (Z.succ (n - 1)) by lia. rewrite !Z.testbit_odd_succ; [|lia..].
    rewrite Z.lnot_spec; [|lia]. rewrite andb_negb_r. symmetry. change 1 with (2 ^ 0) at 1. apply Z.pow2_bits_false. lia.
Qed.

Lemma land_opp i q : 0 <= i -> Z.land ((2 * q + 1) * 2 ^ i) (- ((2 * q + 1) * 2 ^ i)) = 2 ^ i.
Proof.
  intros Hi. replace (- ((2 * q + 1) * 2 ^ i)) with (- (2 * q + 1) * 2 ^ i) by lia.
  rewrite -!Z.shiftl_mul_pow2 // -Z.shiftl_land land_opp_odd. apply Z.shiftl_1_l.
Qed.

(** compute_bit2idx(least_bit(x)) is the index of the lowest bit of [x]. *)
Lemma least_idx x : in_u 32 x -> x <> 0 ->
  let i := compute_bit2idx (least_bit x) in
  0 <= i < 32 /\ Z.testbit x i = true /\ forall j, 0 <= j < i -> Z.testbit x j = false.
Proof.
  intros Hx Hx0 i. destruct (low_bit x) as (k & q & Hk & Hq & E); [unfold in_u in Hx; lia|].
  assert (i = k) as ->.
  { subst i. unfold compute_bit2idx, ctz, least_bit. rewrite land_uwrap //. rewrite E land_opp //.
    replace (2 ^ k) with ((2 * 0 + 1) * 2 ^ k) by lia. rewrite land_opp //. by rewrite Z.log2_pow2. }
  assert (2 ^ k <= x) by nia. split; [|split].
  - split; [done|]. apply (Z.pow_lt_mono_r_iff 2); unfold in_u in Hx; lia.
  - rewrite E Z.mul_pow2_bits // Z.sub_diag. apply Z.testbit_odd_0.
  - intros j Hj. rewrite E. apply Z.mul_pow2_bits_low. lia.
Qed.

(** left_bits(idx2bit(i)) selects the bits above [i]. *)
Lemma left_bits_spec i j : 0 <= i < 32 -> 0 <= j < 32 -> Z.testbit (left_bits (idx2bit i)) j = (i <? j).
Proof.
  intros Hi Hj. rewrite idx2bit_pow //. unfold left_bits. rewrite Z.shiftl_mul_pow2 // -Z.pow_add_r; [|lia..].
  rewrite Z.lor_spec !uwrap_land; [|lia..]. rewrite !Z.land_spec !Z.ones_spec_low; [|lia..]. rewrite !andb_true_r.
  destruct (decide (i = 31)) as [->|Hne].
  { change (2 ^ (31 + 1)) with (1 * 2 ^ 32). rewrite Z.mul_pow2_bits_low; [|lia]. simpl.
    assert (Z.land (1 * 2 ^ 32) (Z.ones 32) = 0) as -> by done. simpl. rewrite Z.bits_0. lia. }
  assert (Z.land (2 ^ (i + 1)) (Z.ones 32) = 2 ^ (i + 1)) as ->.
  { rewrite Z.land_ones // Z.mod_small //. split; [lia|]. apply Z.pow_lt_mono_r; lia. }
  rewrite Z.pow2_bits_eqb; [|lia]. replace (- 2 ^ (i + 1)) with (-1 * 2 ^ (i + 1)) by lia.
  rewrite Z.mul_pow2_bits; [|lia]. destruct (Z.ltb_spec i j) as [Hl|Hl].
  - apply orb_true_intro. right. apply (Z.bits_m1 (j - (i + 1))). lia.
  - rewrite (Z.testbit_neg_r _ (j - (i + 1))); [|lia]. rewrite orb_false_r. lia.
Qed.

(** ** Tree bins *)

(** The sizes of tree bin [i] are those of [tree_lo i, tree_lo i + 2^tree_bits i),
    which is a multiple of its width; the last bin is open ended. *)
Definition tree_lo (i : Z) : Z := if i =? NTREEBINS - 1 then 0 else minsize_for_tree_index i.
Definition tree_bits (i : Z) : Z := SIZE_T_BITSIZE - leftshift_for_tree_index i.

Lemma forall_bins (P : Z -> bool) n : forallb P (seqZ 0 n) = true -> forall i, 0 <= i < n -> P i = true.
Proof. rewrite forallb_forall. intros H i Hi. apply H, list_elem_of_In, elem_of_seqZ. lia. Qed.

Lemma minsize_step i : 0 <= i < 31 -> minsize_for_tree_index (i + 1) = minsize_for_tree_index i + 2 ^ tree_bits i.
Proof. intros Hi. by apply Z.eqb_eq, (forall_bins (fun i => minsize_for_tree_index (i + 1) =? minsize_for_tree_index i + 2 ^ tree_bits i) 31). Qed.

Lemma minsize_mono i j : 0 <= i <= j -> j < 32 -> minsize_for_tree_index i <= minsize_for_tree_index j.
Proof.
  intros Hi Hj. assert (exists n : nat, j = i + n) as [n ->] by (exists (Z.to_nat (j - i)); lia).
  induction n as [|n IH]; [by rewrite Z.add_0_r|]. etrans; [apply IH; lia|].
  replace (i + S n) with (i + n + 1) by lia. rewrite minsize_step; [|lia]. lia.
Qed.

Lemma minsize_even K : 0 <= K -> minsize_for_tree_index (2 * K) = 2 ^ (K + 8).
Proof.
  intros HK. unfold minsize_for_tree_index, TREEBIN_SHIFT. rewrite Z.shiftr_div_pow2 //.
  replace (2 * K / 2 ^ 1) with K by (change (2 ^ 1) with 2; zdm).
  change 1 with (Z.ones 1) at 2. rewrite Z.land_ones //. replace (2 * K mod 2 ^ 1) with 0 by (change (2 ^ 1) with 2; zdm).
  by rewrite Z.shiftl_0_l Z.lor_0_r Z.shiftl_1_l.
Qed.

Lemma minsize_odd K : 0 <= K -> minsize_for_tree_index (2 * K + 1) = 2 ^ (K + 8) + 2 ^ (K + 7).
Proof.
  intros HK. unfold minsize_for_tree_index, TREEBIN_SHIFT. rewrite Z.shiftr_div_pow2 //.
  replace ((2 * K + 1) / 2 ^ 1) with K by (change (2 ^ 1) with 2; zdm).
  change 1 with (Z.ones 1) at 3. rewrite Z.land_ones //. replace ((2 * K + 1) mod 2 ^ 1) with 1 by (change (2 ^ 1) with 2; zdm).
  rewrite !Z.shiftl_1_l. replace (K + 8 - 1) with (K + 7) by lia. symmetry. apply Z.add_nocarry_lor.
  apply Z.bits_inj'. intros n Hn. rewrite Z.land_spec Z.bits_0 !Z.pow2_bits_eqb; [|lia..]. lia.
Qed.

Lemma compute_tree_index_big s : 2 ^ 24 <= s < 2 ^ 40 -> compute_tree_index s = 31.
Proof.
  intros Hs. unfold compute_tree_index, TREEBIN_SHIFT. rewrite Z.shiftr_div_pow2 //.
  rewrite uwrap_id; [|unfold in_u; zdm]. rewrite (proj2 (Z.eqb_neq _ _)); [|zdm].
  rewrite (proj2 (Z.ltb_lt _ _)); [done|zdm].
Qed.

Lemma compute_tree_index_mid s K : 0 <= K < 16 -> 2 ^ (K + 8) <= s < 2 ^ (K + 9) ->
  compute_tree_index s = 2 * K + (if decide (s < 2 ^ (K + 8) + 2 ^ (K + 7)) then 0 else 1).
Proof.
  intros HK Hs. unfold compute_tree_index, TREEBIN_SHIFT. rewrite Z.shiftr_div_pow2 //.
  assert (2 ^ (K + 8) = 2 ^ K * 2 ^ 8) as E8 by (rewrite -Z.pow_add_r //; lia).
  assert (2 ^ (K + 9) = 2 ^ K * 2 ^ 9) as E9 by (rewrite -Z.pow_add_r //; lia).
  assert (2 ^ (K + 8) = 2 ^ (K + 7) * 2) as E7 by (replace (K + 8) with (Z.succ (K + 7)) by lia; rewrite Z.pow_succ_r; lia).
  assert (2 ^ K <= s / 2 ^ 8 < 2 * 2 ^ K) as HX.
  { change (2 ^ 8) with 256 in *. change (2 ^ 9) with 512 in *. split; [apply Z.div_le_lower_bound; lia|apply Z.div_lt_upper_bound; lia]. }
  assert (0 < 2 ^ K <= 2 ^ 15) as HK2 by (split; [lia|apply Z.pow_le_mono_r; lia]).
  rewrite uwrap_id; [|unfold in_u; lia]. rewrite (proj2 (Z.eqb_neq _ _)); [|lia].
  rewrite (proj2 (Z.ltb_ge _ _)); [|lia]. unfold clz. replace (31 - (31 - Z.log2 (s / 2 ^ 8))) with (Z.log2 (s / 2 ^ 8)) by lia.
  assert (Z.log2 (s / 2 ^ 8) = K) as -> by (apply Z.log2_unique; rewrite ?Z.pow_succ_r; lia).
  rewrite Z.shiftl_mul_pow2 // Z.shiftr_div_pow2; [|lia]. replace (K + (8 - 1)) with (K + 7) by lia.
  change 1 with (Z.ones 1) at 2. rewrite Z.land_ones // (Z.mul_comm K). change (2 ^ 1) with 2. f_equal.
  assert (0 < 2 ^ (K + 7)) by lia. case_decide.
  - assert (s / 2 ^ (K + 7) = 2) as ->; [|done]. symmetry. apply (Z.div_unique _ _ _ (s - 2 ^ (K + 8))); lia.
  - assert (s / 2 ^ (K + 7) = 3) as ->; [|done]. symmetry. apply (Z.div_unique _ _ _ (s - 2 ^ (K + 8) - 2 ^ (K + 7))); lia.
Qed.

(** The bin of a size below one terabyte is the one whose range holds it. *)
Lemma compute_tree_index_spec s : 256 <= s < 2 ^ 40 -> let i := compute_tree_index s in
  0 <= i < 32 /\ minsize_for_tree_index i <= s /\ (i < 31 -> s < minsize_for_tree_index (i + 1)).
Proof.
  intros Hs i. destruct (decide (2 ^ 24 <= s)) as [Hb|Hb].
  - subst i. rewrite compute_tree_index_big; [|lia]. split_and!; try lia. etrans; [|exact Hb]. done.
  - pose (K := Z.log2 s - 8). assert (8 <= Z.log2 s < 24) as HK.
    { split; [apply Z.log2_le_pow2; lia|apply Z.log2_lt_pow2; lia]. }
    destruct (Z.log2_spec s) as [H1 H2]; [lia|]. rewrite -Z.add_1_r in H2.
    replace (Z.log2 s) with (K + 8) in H1 by (subst K; lia). replace (Z.log2 s + 1) with (K + 9) in H2 by (subst K; lia).
    assert (0 <= K < 16) as HK' by lia. subst i. rewrite (compute_tree_index_mid s K) //. case_decide.
    + rewrite Z.add_0_r minsize_even; [|lia]. split_and!; try lia. intros _. by rewrite minsize_odd; [|lia].
    + rewrite minsize_odd; [|lia]. split_and!; try lia. intros _. replace (2 * K + 1 + 1) with (2 * (K + 1)) by lia.
      rewrite minsize_even; [|lia]. by replace (K + 1 + 8) with (K + 9) by lia.
Qed.

Lemma compute_tree_index_mono s t : 256 <= s <= t -> t < 2 ^ 40 -> compute_tree_index s <= compute_tree_index t.
Proof.
  intros Hs Ht. destruct (compute_tree_index_spec s) as (H1 & H2 & H3); [lia|].
  destruct (compute_tree_index_spec t) as (H4 & H5 & H6); [lia|].
  destruct (Z.le_gt_cases (compute_tree_index s) (compute_tree_index t)) as [|Hlt]; [done|].
  assert (minsize_for_tree_index (compute_tree_index t + 1) <= minsize_for_tree_index (compute_tree_index s)) by (apply minsize_mono; lia).
  lia.
Qed.

Lemma tree_range s : 256 <= s < 2 ^ 40 -> let i := compute_tree_index s in
  tree_lo i <= s < tree_lo i + 2 ^ tree_bits i.
Proof.
  intros Hs i. destruct (compute_tree_index_spec s Hs) as (H1 & H2 & H3). fold i in H1, H2, H3. unfold tree_lo.
  change (NTREEBINS - 1) with 31. destruct (Z.eqb_spec i 31) as [E|]; [rewrite E; change (2 ^ tree_bits 31) with (2 ^ 64); lia|].
  rewrite minsize_step in H3; lia.
Qed.

Lemma tree_lo_aligned i : 0 <= i < 32 -> tree_lo i mod 2 ^ tree_bits i = 0.
Proof. intros Hi. by apply Z.eqb_eq, (forall_bins (fun i => tree_lo i mod 2 ^ tree_bits i =? 0) 32). Qed.

Lemma tree_bits_range i : 0 <= i < 32 -> 7 <= tree_bits i <= 64.
Proof.
  intros Hi. assert ((7 <=? tree_bits i) && (tree_bits i <=? 64) = true); [|lia].
  by apply (forall_bins (fun i => (7 <=? tree_bits i) && (tree_bits i <=? 64)) 32).
Qed.

(** A size of one terabyte is put into the bin of the smallest tree chunks. *)
Lemma compute_tree_index_wraps : compute_tree_index (2 ^ 40) = 0.
Proof. done. Qed.
