(* ===== verification/DlBins.v ===== *)
(** * dlmalloc: small bins

    The circular doubly linked lists of free chunks, as resources and as the code of
    insert_small_chunk, unlink_small_chunk and unlink_first_small_chunk. *)

From iris.proofmode Require Import proofmode.
From S2P Require Import Prelude DlSep DlBase.

(** ** Proof steps for programs *)

Ltac wnorm := cbn [negb fst snd].
Ltac wbind := wnorm; repeat lazymatch goal with |- environments.envs_entails _ (wp (mbind _ _) _ _) => iApply wp_bind end.
Ltac wret := wbind; iApply wp_ret; wnorm.
Ltac wget := wbind; iApply wp_getr; wnorm.
Ltac wset := wbind; iApply wp_setr; wnorm.
Tactic Notation "wld" constr(H) := wbind; iApply (wp_ld with H); iIntros H; wnorm.
Tactic Notation "wsd" constr(H) := wbind; iApply (wp_sd with H); iIntros H; wnorm.

(** ** Blocks of words *)

Fixpoint raw (a : Z) (n : nat) : hpropI :=
  match n with O => emp | S n => a ↦ - ∗ raw (a + 8) n end%I.

Lemma raw_app a m n : raw a (m + n) ⊣⊢ raw a m ∗ raw (a + 8 * m) n.
Proof.
  revert a. induction m as [|m IH]; intros a; simpl.
  - rewrite left_id. by replace (a + 8 * 0%nat) with a by lia.
  - rewrite IH assoc. by replace (a + 8 + 8 * m) with (a + 8 * S m) by lia.
Qed.

(** A free chunk: its head with the pinuse bit, its foot, and the words between. *)
Definition free_chunk (p s : Z) : hpropI :=
  (head p ↦ (s + 1) ∗ raw (p + 16) (Z.to_nat (s / 8 - 2)) ∗ (p + s) ↦ s)%I.

(** Chunks that the allocator may hold. *)
Definition good (g : mstate) (p s : Z) : Prop :=
  0 < p /\ p mod 16 = 0 /\ least_addr g <= p /\ s mod 16 = 0 /\ 32 <= s < 2 ^ 40 /\ p + s + 16 < 2 ^ 64.

(** ** Circular lists

    [chain p l n]: the chunks of [l] linked between [p] and [n]; [cycle b l]: the
    circular list of [b] followed by [l]. *)

Abbreviation hd := List.hd.
Abbreviation last := List.last.

Fixpoint chain (p : Z) (l : list Z) (n : Z) : hpropI :=
  match l with [] => emp | x :: l => fd x ↦ hd n l ∗ bk x ↦ p ∗ chain x l n end%I.

Definition cycle (b : Z) (l : list Z) : hpropI := (fd b ↦ hd b l ∗ bk b ↦ last l b ∗ chain b l b)%I.
#[global] Typeclasses Opaque cycle.

Lemma ring_last_cons (x : Z) l d : last (x :: l) d = last l x.
Proof.
  revert x d. induction l as [|y l IH]; intros x d; [done|]. by rewrite (IH y x) -(IH y d).
Qed.

Lemma last_app_cons (l1 : list Z) x l2 d : last (l1 ++ x :: l2) d = last l2 x.
Proof. revert d. induction l1 as [|y l1 IH]; intros d; simpl app; by rewrite ring_last_cons. Qed.

Lemma last_end (l : list Z) x d : last (l ++ [x]) d = x.
Proof. apply last_app_cons. Qed.

Lemma chain_app p l1 l2 n : chain p (l1 ++ l2) n ⊣⊢ chain p l1 (hd n l2) ∗ chain (last l1 p) l2 n.
Proof.
  revert p. induction l1 as [|x l1 IH]; intros p; [simpl; by rewrite left_id|].
  simpl app. cbn [chain]. rewrite IH ring_last_cons. replace (hd n (l1 ++ l2)) with (hd (hd n l2) l1) by by destruct l1.
  iSplit; [iIntros "($ & $ & $ & $)"|iIntros "(($ & $ & $) & $)"].
Qed.

Lemma chain_fds p l n : chain p l n ⊢ [∗ list] x ∈ l, fd x ↦ -.
Proof.
  revert p. induction l as [|x l IH]; intros p; simpl; [by iIntros|].
  iIntros "(Hf & _ & H)". iSplitL "Hf"; [by iExists _|]. by iApply IH.
Qed.

Lemma fds_nodup l : ([∗ list] x ∈ l, fd x ↦ -) ⊢ ⌜NoDup l⌝.
Proof.
  induction l as [|x l IH]; simpl; [iIntros; iPureIntro; constructor|].
  iIntros "[[%v Hx] Hl]". iAssert ⌜x ∉ l⌝%I as %Hn.
  - destruct (decide (x ∈ l)) as [Hx|]; [|done]. apply list_elem_of_lookup in Hx as [k Hk].
    iPoseProof (big_sepL_lookup _ _ _ _ Hk with "Hl") as "[%w Hw]".
    iDestruct (pointsto_ne with "[$Hx $Hw]") as %Hne. done.
  - iDestruct (IH with "Hl") as %Hd. iPureIntro. by constructor.
Qed.

Lemma cycle_nodup b l : cycle b l ⊢ ⌜NoDup (b :: l)⌝.
Proof.
  unfold cycle. iIntros "(Hf & _ & H)". iApply fds_nodup. simpl. iSplitL "Hf"; [by iExists _|]. by iApply chain_fds.
Qed.

(** Writing a chunk between [b] and its successor. *)
Lemma cycle_insert b l x :
  cycle b l ⊢ fd b ↦ hd b l ∗ bk (hd b l) ↦ b ∗
    (fd b ↦ x -∗ bk (hd b l) ↦ x -∗ fd x ↦ hd b l -∗ bk x ↦ b -∗ cycle b (x :: l)).
Proof.
  unfold cycle. destruct l as [|y l]; simpl hd.
  - iIntros "($ & $ & _) Hf Hb Hfx Hbx". simpl. iFrame.
  - cbn [chain]. iIntros "($ & Hb & Hfy & $ & Hc) Hf Hby Hfx Hbx". rewrite !ring_last_cons. simpl. iFrame.
Qed.

(** Unlinking a chunk: its two neighbours point at it, and then at each other. *)
Lemma cycle_delete b l1 x l2 :
  cycle b (l1 ++ x :: l2) ⊢ fd x ↦ hd b l2 ∗ bk x ↦ last l1 b ∗ bk (hd b l2) ↦ x ∗ fd (last l1 b) ↦ x ∗
    (bk (hd b l2) ↦ last l1 b -∗ fd (last l1 b) ↦ hd b l2 -∗ cycle b (l1 ++ l2)).
Proof.
  unfold cycle. rewrite last_app_cons chain_app. cbn [chain hd].
  iIntros "(Hf & Hb & H1 & $ & $ & H2)".
  destruct l2 as [|y l2]; [simpl hd; simpl last; rewrite app_nil_r|simpl hd; rewrite !ring_last_cons last_app_cons; cbn [chain]].
  - iFrame "Hb". destruct l1 as [|z l1 _] using rev_ind; [simpl; iFrame; by iIntros "$ $"|].
    rewrite !last_end !chain_app. cbn [chain]. simpl hd. iDestruct "H1" as "(H1 & $ & Hz & _)".
    iIntros "$ Hfz". iFrame. by destruct l1.
  - iDestruct "H2" as "(Hfy & $ & H2)". destruct l1 as [|z l1 _] using rev_ind.
    + simpl. iFrame. iIntros "Hby Hfb". iFrame.
    + rewrite !last_end !chain_app. cbn [chain]. simpl hd. iDestruct "H1" as "(H1 & $ & Hz & _)".
      iIntros "Hby Hfz". rewrite last_end. iFrame. by destruct l1.
Qed.

Lemma cycle_rotate b l x : cycle b (l ++ [x]) ⊣⊢ cycle x (b :: l).
Proof.
  unfold cycle. rewrite last_end ring_last_cons chain_app. cbn [chain]. simpl hd.
  destruct l as [|y l]; simpl hd; simpl app; cbn [chain]; iSplit; iIntros "(? & ? & H)".
  - iDestruct "H" as "(_ & ? & ? & _)". iFrame.
  - iDestruct "H" as "(? & ? & _)". iFrame.
  - iDestruct "H" as "(? & ? & ? & _)". rewrite !ring_last_cons. iFrame.
  - iDestruct "H" as "(? & ? & ? & ?)". rewrite !ring_last_cons. iFrame.
Qed.

(** ** The operations *)

Section small.
Context `{Gm}.

Definition insert_small_chunk (P S : Z) : HM unit :=
  let I := small_index S in
  let B := smallbin_at I in
  F ← (m ← smallmap_is_marked I;
       if negb m then mark_smallmap I;; mret B
       else f ← ld (fd B); ok ← ok_address f;
            if ok : bool then mret f else CORRUPTION_ERROR_ACTION);
  sd (fd B) P;; sd (bk F) P;; sd (fd P) F;; sd (bk P) B.

Definition unlink_small_chunk (P S : Z) : HM unit :=
  F ← ld (fd P); B ← ld (bk P);
  let I := small_index S in
  ok ← (if F =? smallbin_at I then mret true
        else ok ← ok_address F; if ok : bool then k ← ld (bk F); mret (k =? P) else mret false);
  if ok : bool then
    if B =? F then clear_smallmap I
    else
      ok ← (if B =? smallbin_at I then mret true
            else ok ← ok_address B; if ok : bool then f ← ld (fd B); mret (f =? P) else mret false);
      if ok : bool then sd (bk F) B;; sd (fd B) F else CORRUPTION_ERROR_ACTION
  else CORRUPTION_ERROR_ACTION.

Definition unlink_first_small_chunk (B P I : Z) : HM unit :=
  F ← ld (fd P);
  if B =? F then clear_smallmap I
  else
    ok ← (ok ← ok_address F; if ok : bool then k ← ld (bk F); mret (k =? P) else mret false);
    if ok : bool then sd (bk F) B;; sd (fd B) F else CORRUPTION_ERROR_ACTION.

(** ** Small bins as resources

    [sbin i l]: bin [i] holds the chunks [l], in the order of their fd links.  The
    links of the header of an empty bin are whatever the last removal left. *)

Definition sbody (p s : Z) : hpropI :=
  (head p ↦ (s + 1) ∗ raw (p + 32) (Z.to_nat (s / 8 - 4)) ∗ (p + s) ↦ s)%I.
Definition sring (b : Z) (l : list Z) : hpropI :=
  match l with [] => fd b ↦ - ∗ bk b ↦ - | _ => cycle b l end%I.
Definition sbin (i : Z) (l : list Z) : hpropI := (sring (smallbin_at i) l ∗ [∗ list] p ∈ l, sbody p (8 * i))%I.

(** Bit [i] of the map is set when the bin is not empty. *)
Definition small_ok (g : mstate) (i : Z) (l : list Z) : Prop :=
  Z.testbit (smallmap g) i = bool_decide (l <> []) /\ forall p, p ∈ l -> good g p (8 * i).
(** [m'] is [m] with bit [i] set to [v]. *)
Definition bit_set (m' m i : Z) (v : bool) : Prop :=
  in_u 32 m' /\ forall j, 0 <= j -> Z.testbit m' j = if decide (j = i) then v else Z.testbit m j.

Lemma bit_set_mark m i : in_u 32 m -> 0 <= i < 32 -> bit_set (Z.lor m (idx2bit i)) m i true.
Proof.
  intros Hm Hi. split; [by apply mark_u32|]. intros j Hj. rewrite mark_testbit //. case_bool_decide; case_decide; naive_solver.
Qed.

Lemma bit_set_clear m i : in_u 32 m -> 0 <= i < 32 -> bit_set (Z.land m (u32 (Z.lnot (idx2bit i)))) m i false.
Proof.
  intros Hm Hi. split; [by apply land_u32|]. intros j Hj. rewrite clear_testbit //. case_bool_decide; case_decide; naive_solver.
Qed.

Lemma bit_set_same m i v : in_u 32 m -> Z.testbit m i = v -> bit_set m m i v.
Proof. intros Hm Hv. split; [done|]. intros j Hj. case_decide; [by subst|done]. Qed.

Lemma set_smallmap_same g : g = set_smallmap (smallmap g) g.
Proof. by destruct g. Qed.

Lemma good_least g p s : good g p s -> (least_addr g <=? p) = true.
Proof. intros (_ & _ & Hl & _). by apply Z.leb_le. Qed.

Lemma small_size s : is_small s = true -> 0 <= s -> s mod 16 = 0 -> s < 256 /\ small_index s = s / 8 /\ 8 * (s / 8) = s.
Proof.
  unfold is_small, small_index, NSMALLBINS, SMALLBIN_SHIFT. rewrite Z.shiftr_div_pow2 //. change (2 ^ 3) with 8.
  intros H1%Z.ltb_lt H0 H2. rewrite uwrap_id; [|unfold in_u; zdm]. split_and!; zdm.
Qed.

Lemma raw2 a n : raw a (S (S n)) ⊣⊢ a ↦ - ∗ (a + 8) ↦ - ∗ raw (a + 16) n.
Proof. simpl. by replace (a + 8 + 8) with (a + 16) by lia. Qed.

Lemma free_small p s : 32 <= s -> s mod 16 = 0 -> free_chunk p s ⊣⊢ fd p ↦ - ∗ bk p ↦ - ∗ sbody p s.
Proof.
  intros Hs Hm. unfold free_chunk, sbody. replace (Z.to_nat (s / 8 - 2)) with (S (S (Z.to_nat (s / 8 - 4)))) by zdm.
  rewrite raw2. unfold fd, bk. replace (p + 16 + 8) with (p + 24) by lia. replace (p + 16 + 16) with (p + 32) by lia.
  iSplit; [iIntros "($ & ($ & $ & $) & $)"|iIntros "($ & $ & $ & $ & $)"].
Qed.

Lemma small_index_mul i : 0 <= i < 32 -> small_index (8 * i) = i.
Proof.
  intros Hi. unfold small_index, SMALLBIN_SHIFT. rewrite Z.shiftr_div_pow2 //. change (2 ^ 3) with 8.
  rewrite Z.mul_comm Z.div_mul //. apply uwrap_id. unfold in_u. lia.
Qed.

Lemma insert_small_ok g i l p :
  in_u 32 (smallmap g) -> small_ok g i l -> good g p (8 * i) -> i < 32 ->
  sbin i l -∗ free_chunk p (8 * i) -∗
  wp (insert_small_chunk p (8 * i)) (fun _ g' => ∃ m, ⌜g' = set_smallmap m g /\ bit_set m (smallmap g) i true⌝ ∗ sbin i (p :: l)) g.
Proof.
  intros Hm [Hb Hl] (Hp & Hpa & Hla & Hsa & Hsr & Hend) Hi'. assert (0 <= i < 32) as Hi by lia.
  iIntros "[Hr Hbs] Hp". iDestruct (free_small with "Hp") as "([%f0 Hf] & [%b0 Hbk] & Hbody)"; [lia|done|].
  unfold insert_small_chunk. rewrite small_index_mul //. set (b := smallbin_at i). unfold smallmap_is_marked. wget. rewrite marked_testbit // Hb.
  destruct l as [|x l]; simpl.
  - iDestruct "Hr" as "[[%f1 Hf1] [%b1 Hb1]]". wset. wret. wsd "Hf1". wsd "Hb1". wsd "Hf". iApply (wp_sd with "Hbk"). iIntros "Hbk".
    iExists _. iSplit; [iPureIntro; split; [done|by apply bit_set_mark]|]. unfold sbin, sring, cycle. simpl. iFrame.
  - iDestruct (cycle_insert with "Hr") as "(Hf1 & Hb1 & Hr)". simpl hd. wld "Hf1". unfold ok_address. wget.
    rewrite (good_least g x (8 * i)); [|apply Hl; set_solver]. wret.
    wsd "Hf1". wsd "Hb1". wsd "Hf". iApply (wp_sd with "Hbk"). iIntros "Hbk". iExists (smallmap g).
    iSplit; [iPureIntro; split; [apply set_smallmap_same|by apply bit_set_same]|].
    unfold sbin. iSplitL "Hf1 Hb1 Hf Hbk Hr"; [by iApply ("Hr" with "Hf1 Hb1 Hf Hbk")|]. iFrame.
Qed.

Lemma sring_nonempty b l : l <> [] -> sring b l = cycle b l.
Proof. by destruct l. Qed.

Lemma hd_good g i b l : small_ok g i l -> hd b l <> b -> (least_addr g <=? hd b l) = true.
Proof. intros [_ Hl] Hn. destruct l as [|x l]; [done|]. apply (good_least g x (8 * i)), Hl. set_solver. Qed.

Lemma ring_last_elem (l : list Z) b : last l b = b \/ last l b ∈ l.
Proof.
  revert b. induction l as [|x l IH]; intros b; [by left|]. rewrite ring_last_cons. right.
  destruct (IH x) as [->|]; set_solver.
Qed.

Lemma ring_hd_elem (l : list Z) b : hd b l = b \/ hd b l ∈ l.
Proof. destruct l; set_solver. Qed.

(** The neighbours of a chunk are the same only when it is alone. *)
Lemma neighbours_ne (b : Z) l1 p l2 : NoDup (b :: l1 ++ p :: l2) -> last l1 b = hd b l2 -> l1 ++ l2 = [].
Proof.
  intros [Hb Hd]%list.NoDup_cons E. apply list.NoDup_app in Hd as (_ & Hd & _).
  destruct l1 as [|y l1], l2 as [|z l2]; [done|simpl in E; set_solver|rewrite ring_last_cons in E|rewrite ring_last_cons in E].
  - simpl in E. destruct (ring_last_elem l1 y) as [?|?]; set_solver.
  - simpl in E. exfalso. apply (Hd z); destruct (ring_last_elem l1 y) as [?|?]; set_solver.
Qed.

Lemma wp_check b F a P Φ g : F = b \/ (least_addr g <=? F) = true ->
  a ↦ P -∗ (a ↦ P -∗ Φ true g) -∗
  wp (if F =? b then mret true
      else ok ← ok_address F; if ok : bool then k ← ld a; mret (k =? P) else mret false) Φ g.
Proof.
  iIntros (HF) "Ha HΦ". destruct (Z.eqb_spec F b) as [|Hne].
  - wret. by iApply "HΦ".
  - unfold ok_address. wget. destruct HF as [|HF]; [done|]. rewrite HF. wld "Ha". wret. rewrite Z.eqb_refl. by iApply "HΦ".
Qed.

Lemma unlink_small_ok g i l1 p l2 :
  in_u 32 (smallmap g) -> small_ok g i (l1 ++ p :: l2) -> 0 <= i < 32 ->
  sbin i (l1 ++ p :: l2) -∗
  wp (unlink_small_chunk p (8 * i)) (fun _ g' => ∃ m, ⌜g' = set_smallmap m g /\ bit_set m (smallmap g) i (bool_decide (l1 ++ l2 <> []))⌝ ∗
    sbin i (l1 ++ l2) ∗ free_chunk p (8 * i)) g.
Proof.
  intros Hm [Hb Hl] Hi. unfold sbin at 1. rewrite sring_nonempty; [|by destruct l1].
  destruct (Hl p) as (_ & _ & _ & Hsa & Hsr & _); [set_solver|]. pose proof (free_small p (8 * i) ltac:(lia) Hsa) as Hfree.
  iIntros "[Hr Hbs]". iDestruct (cycle_nodup with "Hr") as %Hnd. set (b := smallbin_at i) in *.
  iDestruct (cycle_delete with "Hr") as "(Hf & Hk & HFk & HBf & Hr)".
  rewrite big_sepL_app. iDestruct "Hbs" as "(Hbs1 & Hbody & Hbs2)".
  unfold unlink_small_chunk. rewrite small_index_mul //. fold b. wld "Hf". wld "Hk".
  assert (forall x, x ∈ l1 \/ x ∈ l2 -> (least_addr g <=? x) = true) as Hla by (intros x Hx; apply (good_least g x (8 * i)), Hl; set_solver).
  wbind. iApply (wp_check with "HFk"); [destruct (ring_hd_elem l2 b); auto|]. iIntros "HFk".
  destruct (Z.eqb_spec (last l1 b) (hd b l2)) as [E|Hne].
  - pose proof (neighbours_ne _ _ _ _ Hnd E) as E0. unfold clear_smallmap. iApply wp_setr. iExists _. rewrite Hfree E0.
    iSplit; [iPureIntro; split; [done|by apply bit_set_clear]|]. apply app_nil in E0 as [-> ->]. simpl.
    iFrame.
  - wbind. iApply (wp_check with "HBf"); [destruct (ring_last_elem l1 b); auto|]. iIntros "HBf".
    wsd "HFk". iApply (wp_sd with "HBf"). iIntros "HBf". iExists (smallmap g). rewrite Hfree.
    assert (l1 ++ l2 <> []) as Hn by (intros [-> ->]%app_nil; done).
    iSplit; [iPureIntro; split; [apply set_smallmap_same|]|].
    { apply bit_set_same; [done|]. rewrite Hb. rewrite !bool_decide_eq_true_2 //. by destruct l1. }
    unfold sbin. rewrite sring_nonempty // big_sepL_app. iFrame "Hf Hk Hbody Hbs1 Hbs2". iApply ("Hr" with "HFk HBf").
Qed.

Lemma unlink_first_small_ok g i p l :
  in_u 32 (smallmap g) -> small_ok g i (p :: l) -> 0 <= i < 32 ->
  sbin i (p :: l) -∗
  wp (unlink_first_small_chunk (smallbin_at i) p i) (fun _ g' => ∃ m, ⌜g' = set_smallmap m g /\ bit_set m (smallmap g) i (bool_decide (l <> []))⌝ ∗
    sbin i l ∗ free_chunk p (8 * i)) g.
Proof.
  intros Hm [Hb Hl] Hi. unfold sbin at 1. rewrite sring_nonempty //.
  destruct (Hl p) as (_ & _ & _ & Hsa & Hsr & _); [set_solver|]. pose proof (free_small p (8 * i) ltac:(lia) Hsa) as Hfree.
  iIntros "[Hr Hbs]". iDestruct (cycle_nodup with "Hr") as %Hnd. set (b := smallbin_at i) in *.
  iDestruct (cycle_delete b [] with "Hr") as "(Hf & Hk & HFk & HBf & Hr)". simpl last. simpl app.
  iDestruct "Hbs" as "(Hbody & Hbs)". unfold unlink_first_small_chunk. wld "Hf".
  destruct (Z.eqb_spec b (hd b l)) as [E|Hne].
  - pose proof (neighbours_ne b [] p l Hnd E) as E0. simpl in E0. subst l. unfold clear_smallmap. iApply wp_setr. iExists _. rewrite Hfree.
    iSplit; [iPureIntro; split; [done|by apply bit_set_clear]|]. simpl. iFrame.
  - destruct l as [|y l]; [done|]. simpl hd. unfold ok_address. wget. rewrite (good_least g y (8 * i)); [|apply Hl; set_solver].
    wld "HFk". wret. rewrite Z.eqb_refl. wsd "HFk". iApply (wp_sd with "HBf"). iIntros "HBf". iExists (smallmap g). rewrite Hfree.
    iSplit; [iPureIntro; split; [apply set_smallmap_same|by apply bit_set_same]|].
    unfold sbin. rewrite sring_nonempty //. iFrame "Hf Hk Hbody Hbs". iApply ("Hr" with "HFk HBf").
Qed.
End small.
