(* ===== verification/DlTree.v ===== *)
(** * dlmalloc: tree bins

    Bins of large chunks are bitwise tries: a node holds the ring of the chunks of one
    size, and its children the sizes that agree on one more bit.  The file models
    insert_large_chunk and unlink_large_chunk, and proves that they keep the tries
    well formed and change their contents by one chunk. *)

From iris.proofmode Require Import proofmode.
From S2P Require Import Prelude DlSep DlBase DlBins.

(** ** The operations *)

(** No path of a trie is longer than the bits of a size. *)
Definition DEPTH : nat := 66.

(** The bit of a shifted size that selects a child. *)
Definition kbit (K : Z) : Z := Z.land (Z.shiftr K (SIZE_T_BITSIZE - 1)) 1.

Section code.
Context `{Gm}.

(** One turn of the loop of insert_large_chunk, at the node [T]. *)
Definition insert_large_step (X S : Z) : Z * Z -> HM (Z * Z + unit) := fun '(T, K) =>
  s ← chunksize T;
  if negb (s =? S) then
    let C := child T (kbit K) in
    c ← ld C;
    if negb (c =? 0) then mret (inl (c, u64 (Z.shiftl K 1)))
    else ok ← ok_address C;
         if ok : bool then sd C X;; sd (parent X) T;; sd (bk X) X;; sd (fd X) X;; mret (inr tt)
         else CORRUPTION_ERROR_ACTION
  else
    F ← ld (fd T); ok ← (ok ← ok_address T; if ok : bool then ok_address F else mret false);
    if ok : bool then sd (bk F) X;; sd (fd T) X;; sd (fd X) F;; sd (bk X) T;; sd (parent X) 0;; mret (inr tt)
    else CORRUPTION_ERROR_ACTION.

Definition insert_large_chunk (X S : Z) : HM unit :=
  let I := compute_tree_index S in
  let H := treebin_at I in
  sd (index X) I;; sd (child X 1) 0;; sd (child X 0) 0;;
  m ← treemap_is_marked I;
  if negb m then
    mark_treemap I;; sd H X;; sd (parent X) H;; sd (bk X) X;; sd (fd X) X
  else
    T ← ld H;
    loop DEPTH (insert_large_step X S) (T, u64 (Z.shiftl S (leftshift_for_tree_index I))).

(** One step to the rightmost leaf: [RP] is where the pointer to [R] is. *)
Definition rightmost_step : Z * Z -> HM (Z * Z + Z * Z) := fun '(R, RP) =>
  c1 ← ld (child R 1);
  if negb (c1 =? 0) then mret (inl (c1, child R 1))
  else c0 ← ld (child R 0);
       if negb (c0 =? 0) then mret (inl (c0, child R 0)) else mret (inr (R, RP)).

(** The first step of unlink_large_chunk: the chunk that takes the place of [X], which is
    the next one of its ring, or a leaf below it, or none. *)
Definition unlink_replacement (X : Z) : HM Z :=
  B ← ld (bk X);
  if negb (B =? X) then
    F ← ld (fd X);
    let R := B in
    ok ← (ok ← ok_address F;
          if ok : bool then k ← ld (bk F); if k =? X then f ← ld (fd R); mret (f =? X) else mret false
          else mret false);
    if ok : bool then sd (bk F) R;; sd (fd R) F;; mret R else CORRUPTION_ERROR_ACTION
  else
    c1 ← ld (child X 1);
    RRP ← (if negb (c1 =? 0) then mret (c1, child X 1) else c0 ← ld (child X 0); mret (c0, child X 0));
    if RRP.1 =? 0 then mret 0
    else
      RRP ← loop DEPTH rightmost_step RRP;
      ok ← ok_address RRP.2;
      if ok : bool then sd RRP.2 0;; mret RRP.1 else CORRUPTION_ERROR_ACTION.

(** Moving a child of [X] to [R]. *)
Definition move_child (X R b : Z) : HM unit :=
  C ← ld (child X b);
  if negb (C =? 0) then
    ok ← ok_address C;
    if ok : bool then sd (child R b) C;; sd (parent C) R else CORRUPTION_ERROR_ACTION
  else mret tt.

(** Writing [R] where the bin or the parent [XP] points to [X]. *)
Definition swap_step (X XP R : Z) : HM unit :=
  i ← ld (index X);
  let H := treebin_at i in
  h ← ld H;
  if X =? h then
    sd H R;;
    if R =? 0 then i ← ld (index X); clear_treemap i else mret tt
  else
    ok ← ok_address XP;
    if ok : bool then
      c0 ← ld (child XP 0);
      if c0 =? X then sd (child XP 0) R else sd (child XP 1) R
    else CORRUPTION_ERROR_ACTION.

(** The last step: [R] takes the place of [X] below the parent [XP] of [X]. *)
Definition unlink_relink (X XP R : Z) : HM unit :=
  if XP =? 0 then mret tt
  else
    swap_step X XP R;;
    if R =? 0 then mret tt
    else
      ok ← ok_address R;
      if ok : bool then sd (parent R) XP;; move_child X R 0;; move_child X R 1 else CORRUPTION_ERROR_ACTION.

Definition unlink_large_chunk (X : Z) : HM unit :=
  XP ← ld (parent X); R ← unlink_replacement X; unlink_relink X XP R.

Definition insert_chunk (P S : Z) : HM unit := if is_small S then insert_small_chunk P S else insert_large_chunk P S.
Definition unlink_chunk (P S : Z) : HM unit := if is_small S then unlink_small_chunk P S else unlink_large_chunk P.

(** Replaces the designated victim, whose old chunk goes to a small bin. *)
Definition replace_dv (P S : Z) : HM unit :=
  DVS ← getr dvsize;
  (if negb (DVS =? 0) then DV ← getr dv; insert_small_chunk DV DVS else mret tt);;
  setr (set_dvsize S);; setr (set_dv P).
End code.

(** ** Tries *)

Inductive tree := Leaf | Node (p s : Z) (ring : list Z) (l r : tree).

Definition root (t : tree) : Z := match t with Leaf => 0 | Node p _ _ _ _ => p end.
Definition nonleaf (t : tree) : bool := match t with Leaf => false | _ => true end.
Fixpoint depth (t : tree) : nat := match t with Leaf => 0 | Node _ _ _ l r => S (max (depth l) (depth r)) end.

(** The chunks of a trie with their sizes. *)
Definition ring_elems (p s : Z) (ring : list Z) : list (Z * Z) := (fun q => (q, s)) <$> p :: ring.
Fixpoint elements (t : tree) : list (Z * Z) :=
  match t with Leaf => [] | Node p s ring l r => ring_elems p s ring ++ elements l ++ elements r end.
Definition sizes (t : tree) : list Z := (elements t).*2.

(** Sizes of a subtrie with [k] bits left are in [lo, lo + 2^k); the bit below splits them;
    a size has one node. *)
Fixpoint wf (lo k : Z) (t : tree) : Prop :=
  match t with
  | Leaf => True
  | Node p s ring l r => lo <= s < lo + 2 ^ k /\ s ∉ sizes l /\ s ∉ sizes r /\
      wf lo (k - 1) l /\ wf (lo + 2 ^ (k - 1)) (k - 1) r
  end.

Lemma wf_pos lo k t : wf lo k t -> t <> Leaf -> 0 <= k.
Proof.
  destruct t as [|p s ring l r]; [done|]. intros (Hs & _) _.
  destruct (decide (0 <= k)); [done|]. rewrite (Z.pow_neg_r 2 k) in Hs; lia.
Qed.

Lemma wf_depth t : forall lo k, wf lo k t -> Z.of_nat (depth t) <= Z.max 0 (k + 1).
Proof.
  induction t as [|p s ring l IHl r IHr]; intros lo k Hw; simpl; [lia|].
  assert (0 <= k) by (by eapply wf_pos). destruct Hw as (_ & _ & _ & Hl & Hr).
  specialize (IHl _ _ Hl). specialize (IHr _ _ Hr). lia.
Qed.

Lemma ring_elems_sizes p s ring x : x ∈ (ring_elems p s ring).*2 <-> x = s.
Proof.
  unfold ring_elems. rewrite -list_fmap_compose. rewrite list_elem_of_fmap. split; [by intros (? & -> & _)|].
  intros ->. exists p. split; [done|set_solver].
Qed.

Lemma elem_sizes p s ring l r x : x ∈ sizes (Node p s ring l r) <-> x = s \/ x ∈ sizes l \/ x ∈ sizes r.
Proof. unfold sizes. cbn [elements]. by rewrite !fmap_app !elem_of_app ring_elems_sizes. Qed.

Lemma wf_sizes t : forall lo k s, wf lo k t -> s ∈ sizes t -> lo <= s < lo + 2 ^ k.
Proof.
  induction t as [|p s' ring l IHl r IHr]; intros lo k s Hw Hs; [set_solver|].
  assert (0 <= k) as Hk by (by eapply wf_pos). destruct Hw as (Hr0 & _ & _ & Hl & Hr).
  assert (k = 0 \/ 2 ^ k = 2 * 2 ^ (k - 1)) as Hp by (destruct (decide (k = 0)); [by left|right; apply pow2_half; lia]).
  apply elem_sizes in Hs as [->|[Hs|Hs]]; [done| |].
  - pose proof (IHl _ _ _ Hl Hs) as H1. destruct Hp as [->|Hp]; [simpl in *; lia|]. assert (0 <= 2 ^ (k - 1)) by lia. lia.
  - pose proof (IHr _ _ _ Hr Hs) as H1. destruct Hp as [->|Hp]; [simpl in *; lia|]. assert (0 <= 2 ^ (k - 1)) by lia. lia.
Qed.

(** ** Focusing on a subtrie

    The path from a subtrie to the root, innermost first. *)

Record frame := Frame { dir : bool; fp : Z; fs : Z; fring : list Z; fother : tree }.

Definition fill (f : frame) (t : tree) : tree :=
  if dir f then Node (fp f) (fs f) (fring f) (fother f) t else Node (fp f) (fs f) (fring f) t (fother f).
Fixpoint plug (c : list frame) (t : tree) : tree := match c with [] => t | f :: c => plug c (fill f t) end.
Definition felems (f : frame) : list (Z * Z) := ring_elems (fp f) (fs f) (fring f) ++ elements (fother f).
Definition celems (c : list frame) : list (Z * Z) := concat (felems <$> c).

Lemma celems_cons f c : celems (f :: c) = felems f ++ celems c.
Proof. done. Qed.

Lemma plug_app c1 c2 t : plug (c1 ++ c2) t = plug c2 (plug c1 t).
Proof. revert t. induction c1 as [|f c1 IH]; intros t; simpl; auto. Qed.

Lemma fill_elements f t : elements (fill f t) ≡ₚ elements t ++ felems f.
Proof. unfold fill, felems. destruct (dir f); simpl elements; solve_Permutation. Qed.

Lemma plug_elements c t : elements (plug c t) ≡ₚ elements t ++ celems c.
Proof.
  revert t. induction c as [|f c IH]; intros t; simpl; [by rewrite app_nil_r|].
  rewrite IH fill_elements. by rewrite celems_cons -assoc_L.
Qed.

Lemma plug_root c t t' : c <> [] -> root (plug c t) = root (plug c t').
Proof.
  revert t t'. induction c as [|f c IH]; intros t t' Hc; [done|]. simpl. destruct c as [|f' c]; [|by apply IH].
  unfold fill. simpl. by destruct (dir f).
Qed.

Lemma plug_root_elem c t : c <> [] -> root (plug c t) ∈ (celems c).*1.
Proof.
  revert t. induction c as [|f c IH]; intros t Hc; [done|]. cbn [plug]. rewrite celems_cons fmap_app elem_of_app.
  destruct c as [|f' c]; [|right; by apply IH]. left. unfold fill, felems. cbn [plug]. destruct (dir f); simpl; set_solver.
Qed.

Lemma plug_nonleaf c t : nonleaf t = true \/ c <> [] -> nonleaf (plug c t) = true.
Proof.
  revert t. induction c as [|f c IH]; intros t H; simpl; [naive_solver|].
  apply IH. left. unfold fill. by destruct (dir f).
Qed.

Lemma find_node t e : e ∈ elements t ->
  exists c p ring l r, t = plug c (Node p e.2 ring l r) /\ e.1 ∈ p :: ring.
Proof.
  induction t as [|p s ring l IHl r IHr]; cbn [elements]; [set_solver|]. rewrite !elem_of_app. intros [He|[He|He]].
  - apply list_elem_of_fmap in He as (q & -> & Hq). by exists [], p, ring, l, r.
  - destruct (IHl He) as (c & p' & ring' & l' & r' & E & Hin). exists (c ++ [Frame false p s ring r]), p', ring', l', r'.
    split; [|done]. by rewrite plug_app -E.
  - destruct (IHr He) as (c & p' & ring' & l' & r' & E & Hin). exists (c ++ [Frame true p s ring l]), p', ring', l', r'.
    split; [|done]. by rewrite plug_app -E.
Qed.

Lemma sizes_fill f t t' : (forall s, s ∈ sizes t' -> s ∈ sizes t) -> forall s, s ∈ sizes (fill f t') -> s ∈ sizes (fill f t).
Proof.
  intros Hs s. unfold sizes. rewrite !fill_elements !fmap_app !elem_of_app. intros [?|?]; [left; by apply Hs|by right].
Qed.

(** A subtrie can be replaced by one of its range with no new sizes. *)
Lemma wf_plug c : forall t lo k, wf lo k (plug c t) -> exists lo' k', wf lo' k' t /\
  forall t', wf lo' k' t' -> (forall s, s ∈ sizes t' -> s ∈ sizes t) -> wf lo k (plug c t').
Proof.
  induction c as [|f c IH]; intros t lo k Hw; [by exists lo, k|].
  destruct (IH _ _ _ Hw) as (lo1 & k1 & Hw1 & Hrep). unfold fill in Hw1.
  destruct (dir f) eqn:Ed; destruct Hw1 as (Hr & Hn1 & Hn2 & Hl & Hr').
  - exists (lo1 + 2 ^ (k1 - 1)), (k1 - 1). split; [done|]. intros t' Ht' Hs. apply Hrep; [|by apply sizes_fill].
    unfold fill. rewrite Ed. split_and!; try done; try lia; by intros ?%Hs.
  - exists lo1, (k1 - 1). split; [done|]. intros t' Ht' Hs. apply Hrep; [|by apply sizes_fill].
    unfold fill. rewrite Ed. split_and!; try done; try lia; by intros ?%Hs.
Qed.

(** ** Tries in memory *)

Definition tbody (i p s : Z) : hpropI :=
  (head p ↦ (s + 1) ∗ index p ↦ i ∗ raw (p + 64) (Z.to_nat (s / 8 - 8)) ∗ (p + s) ↦ s)%I.
(** A chunk of a ring that is not the node: it has no parent and no children. *)
Definition member (i s q : Z) : hpropI := (tbody i q s ∗ child q 0 ↦ 0 ∗ child q 1 ↦ 0 ∗ parent q ↦ 0)%I.
(** A node with the addresses of its parent and children. *)
Definition tnode (i par p s : Z) (ring : list Z) (a0 a1 : Z) : hpropI :=
  (cycle p ring ∗ tbody i p s ∗ child p 0 ↦ a0 ∗ child p 1 ↦ a1 ∗ parent p ↦ par ∗ [∗ list] q ∈ ring, member i s q)%I.
Fixpoint tmem (i par : Z) (t : tree) : hpropI :=
  match t with
  | Leaf => emp
  | Node p s ring l r => tnode i par p s ring (root l) (root r) ∗ tmem i p l ∗ tmem i p r
  end%I.

(** The parent of the hole of a path, and the memory of a path whose hole points to [x]. *)
Definition hpar (par : Z) (c : list frame) : Z := match c with [] => par | f :: _ => fp f end.
Definition fmem (i par : Z) (f : frame) (x : Z) : hpropI :=
  (tnode i par (fp f) (fs f) (fring f) (if dir f then root (fother f) else x) (if dir f then x else root (fother f)) ∗
   tmem i (fp f) (fother f))%I.
Fixpoint cmem (i par : Z) (c : list frame) (x : Z) : hpropI :=
  match c with [] => emp | f :: c => fmem i (hpar par c) f x ∗ cmem i par c (fp f) end%I.

Lemma fill_mem i par f t : tmem i par (fill f t) ⊣⊢ fmem i par f (root t) ∗ tmem i (fp f) t.
Proof.
  unfold fill, fmem. destruct (dir f); cbn [tmem]; iSplit;
    first [iIntros "($ & $ & $)"|iIntros "(($ & $) & $)"].
Qed.

Lemma fill_root f t : root (fill f t) = fp f.
Proof. unfold fill. by destruct (dir f). Qed.

Lemma plug_mem i par c t : tmem i par (plug c t) ⊣⊢ cmem i par c (root t) ∗ tmem i (hpar par c) t.
Proof.
  revert t. induction c as [|f c IH]; intros t; cbn [plug cmem hpar]; [by rewrite left_id|].
  rewrite IH fill_mem fill_root. iSplit; [iIntros "($ & $ & $)"|iIntros "(($ & $) & $)"].
Qed.

(** Each chunk of a trie owns its head. *)
Lemma tnode_heads i par p s ring a0 a1 :
  tnode i par p s ring a0 a1 ⊢ [∗ list] e ∈ ring_elems p s ring, head e.1 ↦ (e.2 + 1).
Proof.
  iIntros "(_ & (Hp & _) & _ & _ & _ & Hm)". unfold ring_elems. simpl. iFrame "Hp". rewrite big_sepL_fmap.
  iApply (big_sepL_impl with "Hm"). iIntros "!>" (k q _) "((Hq & _) & _)". done.
Qed.

Lemma tmem_heads i par t : tmem i par t ⊢ [∗ list] e ∈ elements t, head e.1 ↦ (e.2 + 1).
Proof.
  revert par. induction t as [|p s ring l IHl r IHr]; intros par; [by iIntros|]. cbn [tmem elements].
  rewrite !big_sepL_app tnode_heads IHl IHr. by iIntros "($ & $ & $)".
Qed.

Lemma heads_nodup (l : list (Z * Z)) : ([∗ list] e ∈ l, head e.1 ↦ (e.2 + 1)) ⊢ ⌜NoDup l.*1⌝.
Proof.
  induction l as [|[p s] l IH]; simpl; [iIntros; iPureIntro; constructor|].
  iIntros "[Hx Hl]". iAssert ⌜p ∉ l.*1⌝%I as %Hn.
  - destruct (decide (p ∈ l.*1)) as [Hp|]; [|done]. apply list_elem_of_fmap in Hp as ([q w] & -> & [k Hk]%list_elem_of_lookup).
    iDestruct (big_sepL_lookup _ _ _ _ Hk with "Hl") as "Hw". by iDestruct (pointsto_ne with "[$Hx $Hw]") as %Hne.
  - iDestruct (IH with "Hl") as %Hd. iPureIntro. by constructor.
Qed.

Lemma tmem_nodup i par t : tmem i par t ⊢ ⌜NoDup (elements t).*1⌝.
Proof. rewrite tmem_heads. apply heads_nodup. Qed.

(** A free chunk of a tree bin. *)
Lemma free_large p s : 256 <= s -> s mod 16 = 0 -> free_chunk p s ⊣⊢
  fd p ↦ - ∗ bk p ↦ - ∗ child p 0 ↦ - ∗ child p 1 ↦ - ∗ parent p ↦ - ∗ index p ↦ - ∗
  head p ↦ (s + 1) ∗ raw (p + 64) (Z.to_nat (s / 8 - 8)) ∗ (p + s) ↦ s.
Proof.
  intros Hs Hm. unfold free_chunk, fd, bk, child, parent, index.
  replace (Z.to_nat (s / 8 - 2)) with (6 + Z.to_nat (s / 8 - 8))%nat by zdm. rewrite raw_app. cbn [raw].
  replace (p + 16 + 8) with (p + 24) by lia. replace (p + 24 + 8) with (p + 32 + 8 * 0) by lia.
  replace (p + 32 + 8 * 0 + 8) with (p + 32 + 8 * 1) by lia. replace (p + 32 + 8 * 1 + 8) with (p + 48) by lia.
  replace (p + 48 + 8) with (p + 56) by lia. replace (p + 16 + 8 * 6%nat) with (p + 64) by lia.
  iSplit; [iIntros "($ & (($ & $ & $ & $ & $ & $ & _) & $) & $)"|iIntros "($ & $ & $ & $ & $ & $ & $ & $ & $)"].
Qed.

(** The words that a chunk has outside its links. *)
Lemma tbody_free i p s a b c0 c1 q : 256 <= s -> s mod 16 = 0 ->
  fd p ↦ a -∗ bk p ↦ b -∗ tbody i p s -∗ child p 0 ↦ c0 -∗ child p 1 ↦ c1 -∗ parent p ↦ q -∗ free_chunk p s.
Proof.
  iIntros (Hs Hm) "Hf Hb (Hh & Hi & Hr & Hft) H0 H1 Hp". rewrite free_large //.
  iFrame.
Qed.

(** ** Insertion *)

(** The shifted size at a node with [k] bits left shows bit [k - 1] of the size. *)
Lemma kbit_shift S k : 1 <= k <= 64 -> kbit (u64 (Z.shiftl S (64 - k))) = Z.b2z (Z.testbit S (k - 1)).
Proof.
  intros Hk. unfold kbit, SIZE_T_BITSIZE. change 1 with (Z.ones 1) at 2. rewrite Z.land_ones // -Z.bit0_mod.
  rewrite Z.shiftr_spec // uwrap_land // Z.land_spec Z.ones_spec_low // andb_true_r Z.shiftl_spec; [|lia].
  do 2 f_equal. lia.
Qed.

Lemma shift_next S k : k <= 64 -> u64 (Z.shiftl (u64 (Z.shiftl S (64 - k))) 1) = u64 (Z.shiftl S (64 - (k - 1))).
Proof.
  intros Hk. rewrite !(Z.shiftl_mul_pow2 _ _) //; [|lia..]. unfold uwrap. rewrite Z.mul_mod_idemp_l; [|lia].
  f_equal. rewrite -Z.mul_assoc -Z.pow_add_r; [|lia..]. do 2 f_equal. lia.
Qed.

(** That bit tells which half of the range holds the size. *)
Lemma testbit_range S lo k : 1 <= k -> lo mod 2 ^ k = 0 -> lo <= S < lo + 2 ^ k -> 0 <= lo ->
  Z.testbit S (k - 1) = bool_decide (lo + 2 ^ (k - 1) <= S).
Proof.
  intros Hk Hlo HS H0. pose proof (pow2_half k ltac:(lia)) as Hp. assert (0 < 2 ^ (k - 1)) as Hp' by lia.
  assert (lo = 2 * (lo / 2 ^ k) * 2 ^ (k - 1)) as Elo by (rewrite {1}(Z.div_mod lo (2 ^ k)); lia).
  set (q := lo / 2 ^ k) in Elo. case_bool_decide as Hc.
  - apply Z.testbit_true; [lia|]. rewrite -(Z.div_unique S (2 ^ (k - 1)) (2 * q + 1) (S - lo - 2 ^ (k - 1))); [zdm|lia..].
  - apply Z.testbit_false; [lia|]. rewrite -(Z.div_unique S (2 ^ (k - 1)) (2 * q) (S - lo)); [zdm|lia..].
Qed.

Lemma half_aligned lo k : 1 <= k -> lo mod 2 ^ k = 0 -> lo mod 2 ^ (k - 1) = 0 /\ (lo + 2 ^ (k - 1)) mod 2 ^ (k - 1) = 0.
Proof.
  intros Hk Hlo. pose proof (pow2_half k ltac:(lia)) as Hp. assert (0 < 2 ^ (k - 1)) as Hp' by lia.
  assert (lo mod 2 ^ (k - 1) = 0) as E.
  { rewrite (Z.div_mod lo (2 ^ k)); [|lia]. rewrite Hlo Hp. replace (2 * 2 ^ (k - 1) * (lo / (2 * 2 ^ (k - 1))) + 0)
      with (2 * (lo / (2 * 2 ^ (k - 1))) * 2 ^ (k - 1)) by lia. apply Z.mod_mul. lia. }
  split; [done|]. rewrite Z.add_mod; [|lia]. rewrite E Z.mod_same; [done|lia].
Qed.

Lemma sizes_perm t t' X S : elements t' ≡ₚ (X, S) :: elements t -> forall x, x ∈ sizes t' <-> x = S \/ x ∈ sizes t.
Proof. intros HP x. unfold sizes. rewrite HP. simpl. by rewrite elem_of_cons. Qed.

Section tree.
Context `{Gm}.

(** A chunk about to be linked into bin [i]. *)
Definition fresh (i X S : Z) : hpropI :=
  (tbody i X S ∗ child X 0 ↦ 0 ∗ child X 1 ↦ 0 ∗ fd X ↦ - ∗ bk X ↦ - ∗ parent X ↦ -)%I.

Definition tree_good (g : mstate) (t : tree) : Prop := forall e, e ∈ elements t -> good g e.1 e.2.

Lemma good_head g p s : good g p s -> h_size (s + 1) = s.
Proof. intros (_ & _ & _ & Hm & Hs & _). apply h_size_flag; lia. Qed.

Lemma good_root g t : tree_good g t -> (root t =? 0) = negb (nonleaf t).
Proof.
  intros Hg. destruct t as [|p s ring l r]; [done|]. simpl. destruct (Hg (p, s)) as (Hp & _); [simpl; set_solver|].
  simpl in Hp. apply Z.eqb_neq. lia.
Qed.

Lemma tree_good_node g p s ring l r : tree_good g (Node p s ring l r) ->
  good g p s /\ (forall q, q ∈ ring -> good g q s) /\ tree_good g l /\ tree_good g r.
Proof.
  intros Hg. split_and!.
  - apply (Hg (p, s)). simpl. set_solver.
  - intros q Hq. apply (Hg (q, s)). cbn [elements]. apply elem_of_app. left. apply list_elem_of_fmap. exists q. set_solver.
  - intros e He. apply Hg. cbn [elements]. set_solver.
  - intros e He. apply Hg. cbn [elements]. set_solver.
Qed.

Lemma wp_chunksize g p s Φ : good g p s -> head p ↦ (s + 1) -∗ (head p ↦ (s + 1) -∗ Φ s g) -∗ wp (chunksize p) Φ g.
Proof. iIntros (Hg) "Hp HΦ". unfold chunksize. wld "Hp". wret. rewrite (good_head g p) //. by iApply "HΦ". Qed.

Lemma wp_ok_address g a Φ : least_addr g <= a -> Φ true g -∗ wp (ok_address a) Φ g.
Proof. iIntros (Ha) "H". unfold ok_address. iApply wp_getr. by rewrite (proj2 (Z.leb_le _ _) Ha). Qed.

(** What an insertion leaves. *)
Definition inserted (g : mstate) (i par lo k X S : Z) (t : tree) (g' : mstate) : hpropI :=
  (⌜g' = g⌝ ∗ ∃ t', ⌜wf lo k t' /\ root t' = root t /\ elements t' ≡ₚ (X, S) :: elements t⌝ ∗ tmem i par t')%I.

(** A node of its own. *)
Lemma fresh_single i par X S : tbody i X S -∗ child X 0 ↦ 0 -∗ child X 1 ↦ 0 -∗ fd X ↦ X -∗ bk X ↦ X -∗ parent X ↦ par -∗
  tmem i par (Node X S [] Leaf Leaf).
Proof. iIntros "Hb H0 H1 Hf Hk Hp". cbn [tmem root]. unfold tnode, cycle. simpl. iFrame. by iSplit. Qed.

(** A new leaf below [T]. *)
Lemma wp_new_leaf g i T b X S Φ : least_addr g <= child T b ->
  child T b ↦ 0 -∗ fresh i X S -∗ (child T b ↦ X -∗ tmem i T (Node X S [] Leaf Leaf) -∗ Φ (inr tt) g) -∗
  wp (ok ← ok_address (child T b);
      if ok : bool then sd (child T b) X;; sd (parent X) T;; sd (bk X) X;; sd (fd X) X;; mret (inr tt)
      else CORRUPTION_ERROR_ACTION : HM (Z * Z + unit)) Φ g.
Proof.
  iIntros (HT) "HC (Hb & H0 & H1 & [%f Hf] & [%k Hk] & [%q Hq]) HΦ". wbind. iApply wp_ok_address; [done|].
  wsd "HC". wsd "Hq". wsd "Hk". wsd "Hf". wret. iApply ("HΦ" with "HC"). by iApply (fresh_single with "Hb H0 H1 Hf Hk").
Qed.

(** A chunk put into the ring of a node of its size. *)
Lemma wp_into_ring g i par p s ring a0 a1 X Φ : good g p s -> (forall q, q ∈ ring -> good g q s) ->
  tnode i par p s ring a0 a1 -∗ fresh i X s -∗ (tnode i par p s (X :: ring) a0 a1 -∗ Φ (inr tt) g) -∗
  wp (F ← ld (fd p); ok ← (ok ← ok_address p; if ok : bool then ok_address F else mret false);
      if ok : bool then sd (bk F) X;; sd (fd p) X;; sd (fd X) F;; sd (bk X) p;; sd (parent X) 0;; mret (inr tt)
      else CORRUPTION_ERROR_ACTION : HM (Z * Z + unit)) Φ g.
Proof.
  iIntros (Hp Hring) "(Hc & Hb & H0 & H1 & Hpar & Hm) (HbX & H0X & H1X & [%f HfX] & [%k HkX] & [%q HqX]) HΦ".
  iDestruct (cycle_insert _ _ X with "Hc") as "(Hfp & HkF & Hc)". wld "Hfp". wbind. iApply wp_ok_address; [apply Hp|].
  iApply wp_ok_address.
  { destruct (ring_hd_elem ring p) as [->|Hq]; [apply Hp|by apply (Hring _ Hq)]. }
  wsd "HkF". wsd "Hfp". wsd "HfX". wsd "HkX". wsd "HqX". wret. iApply "HΦ". unfold tnode. cbn [big_opL]. unfold member at 2.
  iFrame. iApply ("Hc" with "Hfp HkF HfX HkX").
Qed.

(** The trie after an insertion below one of its children. *)
Lemma inserted_left lo k p s ring l r l' X S : wf lo k (Node p s ring l r) -> s <> S ->
  wf lo (k - 1) l' -> elements l' ≡ₚ (X, S) :: elements l ->
  wf lo k (Node p s ring l' r) /\ elements (Node p s ring l' r) ≡ₚ (X, S) :: elements (Node p s ring l r).
Proof.
  intros (Hs & Hn1 & Hn2 & Hl & Hr) Hne Hw HP. split.
  - split_and!; try done; try lia. rewrite (sizes_perm _ _ _ _ HP). naive_solver.
  - cbn [elements]. rewrite HP. solve_Permutation.
Qed.

Lemma inserted_right lo k p s ring l r r' X S : wf lo k (Node p s ring l r) -> s <> S ->
  wf (lo + 2 ^ (k - 1)) (k - 1) r' -> elements r' ≡ₚ (X, S) :: elements r ->
  wf lo k (Node p s ring l r') /\ elements (Node p s ring l r') ≡ₚ (X, S) :: elements (Node p s ring l r).
Proof.
  intros (Hs & Hn1 & Hn2 & Hl & Hr) Hne Hw HP. split.
  - split_and!; try done; try lia. rewrite (sizes_perm _ _ _ _ HP). naive_solver.
  - cbn [elements]. rewrite HP. solve_Permutation.
Qed.

Lemma single_wf lo k X S : lo <= S < lo + 2 ^ k -> wf lo k (Node X S [] Leaf Leaf).
Proof. intros HS. split_and!; try done; try lia; apply not_elem_of_nil. Qed.

(** One step of the descent into a child [t] of [T]. *)
Lemma wp_descend g i X S t lo k T b fuel K : tree_good g t -> least_addr g <= child T b -> lo <= S < lo + 2 ^ k ->
  (t <> Leaf -> tmem i T t -∗ fresh i X S -∗ wp (loop fuel (insert_large_step X S) (root t, K)) (fun _ => inserted g i T lo k X S t) g) ->
  child T b ↦ root t -∗ tmem i T t -∗ fresh i X S -∗
  wp (c ← ld (child T b);
      if negb (c =? 0) then mret (inl (c, K))
      else ok ← ok_address (child T b);
           if ok : bool then sd (child T b) X;; sd (parent X) T;; sd (bk X) X;; sd (fd X) X;; mret (inr tt)
           else CORRUPTION_ERROR_ACTION)
    (fun x g' => match x with
       | inl a' => wp (loop fuel (insert_large_step X S) a') (fun _ g' => ⌜g' = g⌝ ∗ ∃ t',
           ⌜wf lo k t' /\ elements t' ≡ₚ (X, S) :: elements t⌝ ∗ child T b ↦ root t' ∗ tmem i T t')%I g'
       | inr b0 => ⌜g' = g⌝ ∗ ∃ t', ⌜wf lo k t' /\ elements t' ≡ₚ (X, S) :: elements t⌝ ∗ child T b ↦ root t' ∗ tmem i T t'
       end%I) g.
Proof.
  iIntros (Hg Hla HS IH) "HC Ht HX". wld "HC". rewrite (good_root g) // negb_involutive. destruct t as [|p s ring l r].
  - cbn [nonleaf root]. iApply (wp_new_leaf with "HC HX"); [done|]. iIntros "HC Hn". iSplit; [done|].
    iExists (Node X S [] Leaf Leaf). iFrame. iPureIntro. split; [by apply single_wf|done].
  - cbn [nonleaf]. wret. iPoseProof (IH with "Ht HX") as "Hw"; [done|]. iApply (wp_wand with "Hw").
    iIntros (_ g') "(-> & %t' & (% & %Hr & %) & Ht')". iSplit; [done|]. iExists t'. rewrite Hr. by iFrame.
Qed.

Lemma wp_insert_loop g i X S t : forall lo k par fuel, t <> Leaf -> wf lo k t -> lo <= S < lo + 2 ^ k -> 0 <= lo -> lo mod 2 ^ k = 0 ->
  k <= 64 -> (depth t <= fuel)%nat -> tree_good g t ->
  tmem i par t -∗ fresh i X S -∗
  wp (loop fuel (insert_large_step X S) (root t, u64 (Z.shiftl S (64 - k)))) (fun _ => inserted g i par lo k X S t) g.
Proof.
  induction t as [|p s ring l IHl r IHr]; [done|]. intros lo k par fuel _ Hw HS Hlo Hal Hk Hf Hg.
  destruct fuel as [|fuel]; [simpl in Hf; lia|]. destruct (tree_good_node _ _ _ _ _ _ Hg) as (Hp & Hring & Hgl & Hgr).
  pose proof Hw as (Hs & Hn1 & Hn2 & Hwl & Hwr). cbn [root tmem depth] in *.
  iIntros "(Hn & Hl & Hr) HX". iDestruct "Hn" as "(Hc & (Hh & Hix & Hraw & Hft) & H0 & H1 & Hpar & Hm)".
  iApply wp_loop. unfold insert_large_step at 1. wbind. iApply (wp_chunksize g p s with "Hh"); [done|]. iIntros "Hh".
  destruct (Z.eqb_spec s S) as [->|Hne]; cbn [negb].
  { iAssert (tnode i par p S ring (root l) (root r)) with "[Hc Hh Hix Hraw Hft H0 H1 Hpar Hm]" as "Hn"; [by iFrame|].
    iApply (wp_into_ring with "Hn HX"); [done..|]. iIntros "Hn". wnorm. iSplit; [done|].
    iExists (Node p S (X :: ring) l r). iSplit; [iPureIntro|cbn [tmem]; iFrame].
    split_and!; [done|done|]. cbn [elements]. unfold ring_elems. simpl. apply perm_swap. }
  assert (1 <= k) as Hk1. { destruct (decide (1 <= k)); [done|]. assert (2 ^ k <= 2 ^ 0) by (apply Z.pow_le_mono_r; lia). lia. }
  rewrite kbit_shift // (testbit_range S lo k) // shift_next //. destruct (half_aligned lo k Hk1 Hal) as [Ha1 Ha2].
  pose proof (pow2_half k ltac:(lia)) as Hp2. destruct Hp as (Hp0 & _ & Hpl & _). case_bool_decide as Hb; cbn [Z.b2z].
  - iApply (wp_wand with "[H1 Hr HX]").
    { iApply (wp_descend g i X S r (lo + 2 ^ (k - 1)) (k - 1) with "H1 Hr HX"); [done|unfold child; lia|lia|].
      intros Hr. apply (IHr (lo + 2 ^ (k - 1)) (k - 1) p fuel); try done; lia. }
    iIntros ([a'|b] g') "H".
    + iApply (wp_wand with "H"). iIntros (_ g'') "(-> & %t' & (%Hw' & %HP) & H1 & Hr)". iSplit; [done|].
      destruct (inserted_right lo k p s ring l r t' X S) as [? ?]; [done..|]. iExists (Node p s ring l t'). iSplit; [done|]. cbn [tmem]. iFrame.
    + iDestruct "H" as "(-> & %t' & (%Hw' & %HP) & H1 & Hr)". iSplit; [done|].
      destruct (inserted_right lo k p s ring l r t' X S) as [? ?]; [done..|]. iExists (Node p s ring l t'). iSplit; [done|]. cbn [tmem]. iFrame.
  - iApply (wp_wand with "[H0 Hl HX]").
    { iApply (wp_descend g i X S l lo (k - 1) with "H0 Hl HX"); [done|unfold child; lia|lia|].
      intros Hl. apply (IHl lo (k - 1) p fuel); try done; lia. }
    iIntros ([a'|b] g') "H".
    + iApply (wp_wand with "H"). iIntros (_ g'') "(-> & %t' & (%Hw' & %HP) & H0 & Hl)". iSplit; [done|].
      destruct (inserted_left lo k p s ring l r t' X S) as [? ?]; [done..|]. iExists (Node p s ring t' r). iSplit; [done|]. cbn [tmem]. iFrame.
    + iDestruct "H" as "(-> & %t' & (%Hw' & %HP) & H0 & Hl)". iSplit; [done|].
      destruct (inserted_left lo k p s ring l r t' X S) as [? ?]; [done..|]. iExists (Node p s ring t' r). iSplit; [done|]. cbn [tmem]. iFrame.
Qed.

(** ** Tree bins *)

Definition tbin (i : Z) (t : tree) : hpropI := (treebin_at i ↦ root t ∗ tmem i (treebin_at i) t)%I.

Definition tree_ok (g : mstate) (i : Z) (t : tree) : Prop :=
  Z.testbit (treemap g) i = nonleaf t /\ wf (tree_lo i) (tree_bits i) t /\ tree_good g t /\
  forall e, e ∈ elements t -> 256 <= e.2 /\ compute_tree_index e.2 = i.

Lemma set_treemap_same g : g = set_treemap (treemap g) g.
Proof. by destruct g. Qed.

Lemma tree_lo_nonneg i : 0 <= i < 32 -> 0 <= tree_lo i.
Proof. intros Hi. by apply Z.leb_le, (forall_bins (fun i => 0 <=? tree_lo i) 32). Qed.

Lemma nonleaf_perm t t' e : elements t' ≡ₚ e :: elements t -> nonleaf t' = true.
Proof. destruct t'; [|done]. by intros ?%Permutation_nil_cons. Qed.

Lemma insert_large_ok g t X S : let i := compute_tree_index S in
  in_u 32 (treemap g) -> tree_ok g i t -> good g X S -> 256 <= S ->
  tbin i t -∗ free_chunk X S -∗
  wp (insert_large_chunk X S) (fun _ g' => ∃ m t', ⌜g' = set_treemap m g /\ bit_set m (treemap g) i true /\
    wf (tree_lo i) (tree_bits i) t' /\ elements t' ≡ₚ (X, S) :: elements t⌝ ∗ tbin i t') g.
Proof.
  intros i Hm (Hb & Hw & Hg & _) HX H256. assert (256 <= S < 2 ^ 40) as HS by (split; [done|apply HX]).
  destruct (compute_tree_index_spec S HS) as (Hi & _). pose proof (tree_range S HS) as Hr. fold i in Hi, Hr.
  pose proof (tree_bits_range i Hi) as Hbits.
  iIntros "[Hroot Ht] HX". rewrite free_large //; [|apply HX].
  iDestruct "HX" as "([%f Hf] & [%k Hk] & [%c0 H0] & [%c1 H1] & [%q Hq] & [%j Hi] & Hh & Hraw & Hft)".
  unfold insert_large_chunk. fold i. wsd "Hi". wsd "H1". wsd "H0". unfold treemap_is_marked. wget. rewrite marked_testbit // Hb.
  destruct t as [|p s ring l r]; cbn [nonleaf negb root].
  - wset. wsd "Hroot". wsd "Hq". wsd "Hk". iApply (wp_sd with "Hf"). iIntros "Hf".
    iExists _, (Node X S [] Leaf Leaf). iSplit.
    + iPureIntro. split_and!; [done|by apply bit_set_mark|by apply single_wf|done].
    + unfold tbin. cbn [root]. iFrame "Hroot". iApply (fresh_single with "[Hh Hi Hraw Hft] H0 H1 Hf Hk Hq"). iFrame.
  - wld "Hroot". replace (leftshift_for_tree_index i) with (64 - tree_bits i) by (unfold tree_bits, SIZE_T_BITSIZE; lia).
    iApply (wp_wand with "[-Hroot]").
    + iApply (wp_insert_loop g i X S (Node p s ring l r) (tree_lo i) (tree_bits i) with "Ht"); try done; [by apply tree_lo_nonneg|by apply tree_lo_aligned|lia| |].
      * pose proof (wf_depth _ _ _ Hw). unfold DEPTH. lia.
      * unfold fresh, tbody. iFrame.
    + iIntros (_ g') "(-> & %t' & (% & %Er & %) & Ht)". iExists (treemap g), t'. iSplit.
      * iPureIntro. split_and!; [apply set_treemap_same|by apply bit_set_same|done..].
      * unfold tbin. rewrite Er. by iFrame.
Qed.

(** ** Removal *)

(** The slot that points to the root of the subtrie of a path, with the path. *)
Definition cbin (i : Z) (c : list frame) (x : Z) : hpropI :=
  (treebin_at i ↦ (match c with [] => x | _ => root (plug c Leaf) end) ∗ cmem i (treebin_at i) c x)%I.

Lemma tbin_plug i c t : tbin i (plug c t) ⊣⊢ cbin i c (root t) ∗ tmem i (hpar (treebin_at i) c) t.
Proof.
  unfold tbin, cbin. rewrite plug_mem assoc. destruct c as [|f c]; [done|].
  by rewrite (plug_root (f :: c) t Leaf).
Qed.

(** The hole of a path is a child of its first frame. *)
Lemma cmem_slot i par f c x : cmem i par (f :: c) x ⊢ child (fp f) (Z.b2z (dir f)) ↦ x ∗
  (∀ y, child (fp f) (Z.b2z (dir f)) ↦ y -∗ cmem i par (f :: c) y).
Proof.
  cbn [cmem]. unfold fmem, tnode. iIntros "(((Hc & Hb & H0 & H1 & Hp & Hm) & Ho) & Hr)".
  destruct (dir f); cbn [Z.b2z]; [iFrame "H1"; iIntros (y) "H1"|iFrame "H0"; iIntros (y) "H0"]; iFrame.
Qed.

Definition path_good (g : mstate) (c : list frame) : Prop := forall e, e ∈ celems c -> good g e.1 e.2.

Lemma path_good_frame g f c : path_good g (f :: c) -> good g (fp f) (fs f) /\ path_good g c.
Proof.
  intros Hg. split; [apply (Hg (fp f, fs f))|intros e He; apply Hg]; rewrite celems_cons; [unfold felems|]; simpl; set_solver.
Qed.

Lemma wp_swap g i c X R Φ : in_u 32 (treemap g) -> 0 <= i < 32 -> path_good g c -> X ∉ (celems c).*1 -> X <> 0 ->
  cbin i c X -∗ index X ↦ i -∗
  (∀ m, ⌜bit_set m (treemap g) i (match c with [] => if R =? 0 then false else Z.testbit (treemap g) i | _ => Z.testbit (treemap g) i end)⌝ -∗
    cbin i c R -∗ index X ↦ i -∗ Φ tt (set_treemap m g)) -∗
  wp (swap_step X (hpar (treebin_at i) c) R) Φ g.
Proof.
  iIntros (Hm Hi Hg Hn HX) "[Hs Hc] Hix HΦ". unfold swap_step. wld "Hix". wld "Hs". destruct c as [|f c].
  - rewrite Z.eqb_refl. wsd "Hs". destruct (R =? 0).
    + wld "Hix". iApply wp_setr. iApply ("HΦ" with "[] [Hs Hc] Hix"); [iPureIntro; by apply bit_set_clear|iFrame].
    + wret. iEval (rewrite (set_treemap_same g)). iApply ("HΦ" with "[] [Hs Hc] Hix"); [iPureIntro; by apply bit_set_same|iFrame].
  - rewrite (proj2 (Z.eqb_neq _ _)); [|intros E; apply Hn; rewrite E; by apply plug_root_elem].
    destruct (path_good_frame _ _ _ Hg) as [Hf _]. wbind. iApply wp_ok_address; [apply Hf|]. cbn [hpar cmem].
    iDestruct "Hc" as "(((Hcy & Hb & H0 & H1 & Hp & Hm) & Ho) & Hr)". wld "H0".
    iAssert (⌜bit_set (treemap g) (treemap g) i (Z.testbit (treemap g) i)⌝)%I as "Hbs"; [iPureIntro; by apply bit_set_same|].
    destruct (dir f) eqn:Ed; cbn iota.
    + rewrite (proj2 (Z.eqb_neq _ _)).
      * iApply (wp_sd with "H1"). iIntros "H1". iEval (rewrite (set_treemap_same g)). iApply ("HΦ" with "Hbs [-Hix] Hix").
        unfold cbin. iFrame "Hs". cbn [cmem]. unfold fmem, tnode. rewrite Ed. iFrame.
      * intros E. destruct (fother f) as [|p s ring l r] eqn:Eo; [done|]. apply Hn. rewrite celems_cons fmap_app elem_of_app. left.
        unfold felems. rewrite Eo. simpl in E. subst p. simpl. set_solver.
    + rewrite Z.eqb_refl. iApply (wp_sd with "H0"). iIntros "H0". iEval (rewrite (set_treemap_same g)). iApply ("HΦ" with "Hbs [-Hix] Hix").
      unfold cbin. iFrame "Hs". cbn [cmem]. unfold fmem, tnode. rewrite Ed. iFrame.
Qed.

Lemma tmem_parent i par par' t : t <> Leaf -> tmem i par t ⊢ parent (root t) ↦ par ∗ (parent (root t) ↦ par' -∗ tmem i par' t).
Proof.
  destruct t as [|p s ring l r]; [done|]. intros _. cbn [tmem root]. unfold tnode.
  iIntros "((Hc & Hb & H0 & H1 & $ & Hm) & Hl & Hr) Hp". iFrame.
Qed.

Lemma wp_move_child g i X R b t Φ : tree_good g t ->
  child X b ↦ root t -∗ child R b ↦ 0 -∗ tmem i X t -∗
  (child X b ↦ root t -∗ child R b ↦ root t -∗ tmem i R t -∗ Φ tt g) -∗ wp (move_child X R b) Φ g.
Proof.
  iIntros (Hg) "HX HR Ht HΦ". unfold move_child. wld "HX". rewrite (good_root g) // negb_involutive.
  destruct t as [|p s ring l r]; cbn [nonleaf].
  - wret. iApply ("HΦ" with "HX HR Ht").
  - wbind. destruct (tree_good_node _ _ _ _ _ _ Hg) as (Hp & _). iApply wp_ok_address; [apply Hp|]. wsd "HR".
    iDestruct (tmem_parent i X R with "Ht") as "[Hp Ht]"; [done|]. iApply (wp_sd with "Hp"). iIntros "Hp".
    iApply ("HΦ" with "HX HR"). by iApply "Ht".
Qed.

(** [X] is replaced by [R], which gets its children. *)
Lemma wp_relink g i c X R l r Φ : in_u 32 (treemap g) -> 0 <= i < 32 -> path_good g c -> X ∉ (celems c).*1 -> X <> 0 ->
  R <> 0 -> least_addr g <= R -> tree_good g l -> tree_good g r -> hpar (treebin_at i) c <> 0 ->
  cbin i c X -∗ index X ↦ i -∗ child X 0 ↦ root l -∗ child X 1 ↦ root r -∗ tmem i X l -∗ tmem i X r -∗
  parent R ↦ - -∗ child R 0 ↦ 0 -∗ child R 1 ↦ 0 -∗
  (∀ m, ⌜bit_set m (treemap g) i (Z.testbit (treemap g) i)⌝ -∗ cbin i c R -∗ index X ↦ i -∗ child X 0 ↦ root l -∗ child X 1 ↦ root r -∗
    parent R ↦ hpar (treebin_at i) c -∗ child R 0 ↦ root l -∗ child R 1 ↦ root r -∗ tmem i R l -∗ tmem i R r -∗ Φ tt (set_treemap m g)) -∗
  wp (unlink_relink X (hpar (treebin_at i) c) R) Φ g.
Proof.
  iIntros (Hm Hi Hg Hn HX HR HRl Hgl Hgr Hpar) "Hc Hix H0 H1 Hl Hr [%q Hq] HR0 HR1 HΦ". unfold unlink_relink.
  rewrite (proj2 (Z.eqb_neq _ _)) //. wbind. iApply (wp_swap g i c X R with "Hc Hix"); [done..|]. iIntros (m Hbs) "Hc Hix".
  rewrite (proj2 (Z.eqb_neq R 0)) //. rewrite (proj2 (Z.eqb_neq R 0)) // in Hbs. wbind. iApply wp_ok_address; [done|]. wsd "Hq".
  wbind. iApply (wp_move_child (set_treemap m g) with "H0 HR0 Hl"); [done|]. iIntros "H0 HR0 Hl".
  iApply (wp_move_child (set_treemap m g) with "H1 HR1 Hr"); [done|]. iIntros "H1 HR1 Hr".
  iApply ("HΦ" with "[] Hc Hix H0 H1 Hq HR0 HR1 Hl Hr"). iPureIntro. by destruct c.
Qed.

(** The last chunk of a leaf goes away. *)
Lemma wp_relink_none g i c X Φ : in_u 32 (treemap g) -> 0 <= i < 32 -> path_good g c -> X ∉ (celems c).*1 -> X <> 0 ->
  hpar (treebin_at i) c <> 0 -> Z.testbit (treemap g) i = true ->
  cbin i c X -∗ index X ↦ i -∗
  (∀ m, ⌜bit_set m (treemap g) i (nonleaf (plug c Leaf))⌝ -∗ cbin i c 0 -∗ index X ↦ i -∗ Φ tt (set_treemap m g)) -∗
  wp (unlink_relink X (hpar (treebin_at i) c) 0) Φ g.
Proof.
  iIntros (Hm Hi Hg Hn HX Hpar Ht) "Hc Hix HΦ". unfold unlink_relink. rewrite (proj2 (Z.eqb_neq _ _)) //. wbind.
  iApply (wp_swap g i c X 0 with "Hc Hix"); [done..|]. iIntros (m Hbs) "Hc Hix". rewrite Z.eqb_refl. wret.
  iApply ("HΦ" with "[] Hc Hix"). iPureIntro. destruct c as [|f c]; [done|]. rewrite plug_nonleaf; [by rewrite -Ht|by right].
Qed.

(** Unlinking from a ring of two or more. *)
Lemma wp_replacement_ring g X F B Φ : B <> X -> least_addr g <= F ->
  fd X ↦ F -∗ bk X ↦ B -∗ bk F ↦ X -∗ fd B ↦ X -∗
  (fd X ↦ F -∗ bk X ↦ B -∗ bk F ↦ B -∗ fd B ↦ F -∗ Φ B g) -∗ wp (unlink_replacement X) Φ g.
Proof.
  iIntros (HB HF) "Hf Hb HFb HBf HΦ". unfold unlink_replacement. wld "Hb". rewrite (proj2 (Z.eqb_neq _ _)) //. wld "Hf".
  wbind. iApply wp_ok_address; [done|]. wld "HFb". rewrite Z.eqb_refl. wld "HBf". wret. rewrite Z.eqb_refl.
  wsd "HFb". wsd "HBf". wret. iApply ("HΦ" with "Hf Hb HFb HBf").
Qed.

(** Where the pointer to the hole of a path is, for a trie that [RP] points to. *)
Definition slot (RP : Z) (c : list frame) : Z := match c with [] => RP | f :: _ => child (fp f) (Z.b2z (dir f)) end.

Lemma slot_app RP c f : slot RP (c ++ [f]) = slot (child (fp f) (Z.b2z (dir f))) c.
Proof. by destruct c. Qed.

Lemma wp_rightmost g i t : forall par fuel RP, t <> Leaf -> (depth t <= fuel)%nat -> tree_good g t ->
  tmem i par t -∗
  wp (loop fuel rightmost_step (root t, RP)) (fun x g' => ⌜g' = g /\
    exists c s ring, t = plug c (Node x.1 s ring Leaf Leaf) /\ x.2 = slot RP c⌝ ∗ tmem i par t) g.
Proof.
  induction t as [|p s ring l IHl r IHr]; [done|]. intros par fuel RP _ Hf Hg. destruct fuel as [|fuel]; [simpl in Hf; lia|].
  destruct (tree_good_node _ _ _ _ _ _ Hg) as (Hp & _ & Hgl & Hgr). cbn [tmem root depth] in *.
  iIntros "((Hc & Hb & H0 & H1 & Hpar & Hm) & Hl & Hr)". iApply wp_loop. unfold rightmost_step at 1. wld "H1".
  rewrite (good_root g) // negb_involutive. destruct (nonleaf r) eqn:Er.
  { wret. iApply (wp_wand with "[Hr]"); [iApply (IHr p fuel (child p 1) with "Hr"); [by destruct r|lia|done]|].
    iIntros (x g') "((-> & %c & %s' & %ring' & %E & %Ex) & Hr)". iSplit; [|iFrame]. iPureIntro. split; [done|].
    exists (c ++ [Frame true p s ring l]), s', ring'. rewrite plug_app -E slot_app. done. }
  wld "H0". rewrite (good_root g) // negb_involutive. destruct (nonleaf l) eqn:El; wret.
  - iApply (wp_wand with "[Hl]"); [iApply (IHl p fuel (child p 0) with "Hl"); [by destruct l|lia|done]|].
    iIntros (x g') "((-> & %c & %s' & %ring' & %E & %Ex) & Hl)". iSplit; [|iFrame]. iPureIntro. split; [done|].
    exists (c ++ [Frame false p s ring r]), s', ring'. rewrite plug_app -E slot_app. done.
  - iSplit; [|iFrame]. iPureIntro. split; [done|]. exists [], s, ring. destruct l, r; try done.
Qed.

(** Cutting the leaf that a path leads to, below the word [RP]. *)
Lemma cut_leaf i par RP c t : RP ↦ root (plug c t) -∗ tmem i par (plug c t) -∗
  slot RP c ↦ root t ∗ tmem i (hpar par c) t ∗
  (slot RP c ↦ 0 -∗ RP ↦ root (plug c Leaf) ∗ tmem i par (plug c Leaf)).
Proof.
  iIntros "HRP Ht". rewrite plug_mem. iDestruct "Ht" as "[Hc $]". destruct c as [|f c]; cbn [slot plug].
  - iFrame. by iIntros "$".
  - iDestruct (cmem_slot with "Hc") as "[$ Hc]". iIntros "HC". rewrite (plug_root (f :: c) t Leaf) //. iFrame "HRP".
    iApply (plug_mem i par (f :: c) Leaf). iSplit; [|done]. by iApply "Hc".
Qed.

Lemma slot_good g c RP : least_addr g <= RP -> path_good g c -> least_addr g <= slot RP c.
Proof.
  intros HRP Hg. destruct c as [|f c]; [done|]. destruct (path_good_frame _ _ _ Hg) as [(_ & _ & Hl & _) _].
  unfold slot, child. destruct (dir f); simpl; lia.
Qed.

Lemma plug_good g c t : tree_good g (plug c t) <-> tree_good g t /\ path_good g c.
Proof.
  unfold tree_good, path_good. setoid_rewrite plug_elements. setoid_rewrite elem_of_app. naive_solver.
Qed.

(** Taking a leaf from below [X], whose child [j] is not empty. *)
Lemma wp_take_leaf g i X j t : t <> Leaf -> (depth t <= DEPTH)%nat -> tree_good g t -> least_addr g <= child X j ->
  child X j ↦ root t -∗ tmem i X t -∗
  wp (RRP ← loop DEPTH rightmost_step (root t, child X j);
      ok ← ok_address RRP.2; if ok : bool then sd RRP.2 0;; mret RRP.1 else CORRUPTION_ERROR_ACTION)
    (fun R g' => ⌜g' = g⌝ ∗ ∃ c s ring par, ⌜t = plug c (Node R s ring Leaf Leaf)⌝ ∗
      child X j ↦ root (plug c Leaf) ∗ tmem i X (plug c Leaf) ∗ tnode i par R s ring 0 0) g.
Proof.
  iIntros (Ht Hd Hg HX) "HX Ht". wbind. iApply (wp_wand with "[Ht]"); [by iApply (wp_rightmost with "Ht")|].
  iIntros ([R RP] g') "((-> & %c & %s & %ring & -> & %E) & Ht)". cbn [fst snd] in *. subst RP.
  apply plug_good in Hg as [_ Hc]. wbind. iApply wp_ok_address; [by apply slot_good|].
  iDestruct (cut_leaf with "HX Ht") as "(Hs & Hn & Hcut)". wsd "Hs". wret. iSplit; [done|]. iExists c, s, ring, _.
  iSplit; [done|]. cbn [tmem root]. iDestruct "Hn" as "(Hn & _ & _)". iDestruct ("Hcut" with "Hs") as "[$ $]". iFrame.
Qed.

Definition unlinked (g : mstate) (i : Z) (t : tree) (X S : Z) (g' : mstate) : hpropI :=
  (∃ m t', ⌜g' = set_treemap m g /\ bit_set m (treemap g) i (nonleaf t') /\
     wf (tree_lo i) (tree_bits i) t' /\ elements t ≡ₚ (X, S) :: elements t'⌝ ∗ tbin i t' ∗ free_chunk X S)%I.

(** A leaf below a node has a size that occurs nowhere else below it. *)
Lemma leaf_size_unique c : forall lo k R s ring, wf lo k (plug c (Node R s ring Leaf Leaf)) -> s ∉ sizes (plug c Leaf).
Proof.
  induction c as [|f c IH] using rev_ind; intros lo k R s ring; [intros _; apply not_elem_of_nil|].
  rewrite !plug_app. cbn [plug]. set (T := plug c (Node R s ring Leaf Leaf)) in *.
  assert (s ∈ sizes T) as HsT by (unfold sizes, T; rewrite plug_elements fmap_app elem_of_app; left; simpl; set_solver).
  unfold fill. intros Hw. assert (1 <= k) as Hk.
  { destruct (dir f); destruct Hw as (_ & _ & _ & Hw1 & Hw2); [pose proof (wf_pos _ _ _ Hw2)|pose proof (wf_pos _ _ _ Hw1)];
      (assert (T <> Leaf) by (intros E; rewrite E in HsT; set_solver); intuition lia). }
  pose proof (pow2_half k ltac:(lia)) as Hp. destruct (dir f); destruct Hw as (_ & Hn1 & Hn2 & Hw1 & Hw2); rewrite elem_sizes.
  - intros [->|[Hs|Hs]]; [done| |by apply IH in Hw2]. pose proof (wf_sizes _ _ _ _ Hw1 Hs). pose proof (wf_sizes _ _ _ _ Hw2 HsT). lia.
  - intros [->|[Hs|Hs]]; [done|by apply IH in Hw1|]. pose proof (wf_sizes _ _ _ _ Hw2 Hs). pose proof (wf_sizes _ _ _ _ Hw1 HsT). lia.
Qed.

(** A leaf of the right or of the left subtrie can take the place of the node. *)
Lemma promote_right lo k X S R s ring l c : wf lo k (Node X S [] l (plug c (Node R s ring Leaf Leaf))) ->
  wf lo k (Node R s ring l (plug c Leaf)) /\
  elements (Node X S [] l (plug c (Node R s ring Leaf Leaf))) ≡ₚ (X, S) :: elements (Node R s ring l (plug c Leaf)) /\
  forall x, x ∈ sizes (Node R s ring l (plug c Leaf)) -> x ∈ sizes (Node X S [] l (plug c (Node R s ring Leaf Leaf))).
Proof.
  intros Hw. pose proof Hw as (Hs & Hn1 & Hn2 & Hw1 & Hw2). set (T := plug c (Node R s ring Leaf Leaf)) in *.
  assert (elements (Node X S [] l T) ≡ₚ (X, S) :: elements (Node R s ring l (plug c Leaf))) as HP.
  { subst T. cbn [elements]. rewrite !plug_elements. cbn [elements]. unfold ring_elems. rewrite !app_nil_r. simpl. apply perm_skip.
    solve_Permutation. }
  assert (s ∈ sizes T) as HsT by (unfold sizes, T; rewrite plug_elements fmap_app elem_of_app; left; simpl; set_solver).
  pose proof (wf_sizes _ _ _ _ Hw2 HsT) as HR. assert (0 <= k - 1) as Hk.
  { eapply wf_pos; [exact Hw2|]. intros E. rewrite E in HsT. set_solver. }
  pose proof (pow2_half k ltac:(lia)) as Hp. split_and!; [|done|].
  - split_and!; try done; try lia.
    + intros Hl. pose proof (wf_sizes _ _ _ _ Hw1 Hl). lia.
    + by eapply leaf_size_unique.
    + destruct (wf_plug c _ _ _ Hw2) as (lo' & k' & _ & Hrep). apply Hrep; [done|]. intros x Hx. set_solver.
  - intros x. unfold sizes. rewrite HP. simpl. set_solver.
Qed.

Lemma promote_left lo k X S R s ring c : wf lo k (Node X S [] (plug c (Node R s ring Leaf Leaf)) Leaf) ->
  wf lo k (Node R s ring (plug c Leaf) Leaf) /\
  elements (Node X S [] (plug c (Node R s ring Leaf Leaf)) Leaf) ≡ₚ (X, S) :: elements (Node R s ring (plug c Leaf) Leaf) /\
  forall x, x ∈ sizes (Node R s ring (plug c Leaf) Leaf) -> x ∈ sizes (Node X S [] (plug c (Node R s ring Leaf Leaf)) Leaf).
Proof.
  intros Hw. pose proof Hw as (Hs & Hn1 & Hn2 & Hw1 & Hw2). set (T := plug c (Node R s ring Leaf Leaf)) in *.
  assert (elements (Node X S [] T Leaf) ≡ₚ (X, S) :: elements (Node R s ring (plug c Leaf) Leaf)) as HP.
  { subst T. cbn [elements]. rewrite !plug_elements. cbn [elements]. unfold ring_elems. rewrite !app_nil_r. simpl. apply perm_skip.
    solve_Permutation. }
  assert (s ∈ sizes T) as HsT by (unfold sizes, T; rewrite plug_elements fmap_app elem_of_app; left; simpl; set_solver).
  pose proof (wf_sizes _ _ _ _ Hw1 HsT) as HR. assert (0 <= k - 1) as Hk.
  { eapply wf_pos; [exact Hw1|]. intros E. rewrite E in HsT. set_solver. }
  pose proof (pow2_half k ltac:(lia)) as Hp. split_and!; [|done|].
  - split_and!; try done; try lia; try apply not_elem_of_nil.
    + by eapply leaf_size_unique.
    + destruct (wf_plug c _ _ _ Hw1) as (lo' & k' & _ & Hrep). apply Hrep; [done|]. intros x Hx. set_solver.
  - intros x. unfold sizes. rewrite HP. simpl. set_solver.
Qed.

(** The four cases of unlink_large_chunk, for a chunk of the node that the path [c] leads to. *)
Section unlink.
Context (g : mstate) (i : Z) (c : list frame).
Context (Hm : in_u 32 (treemap g)) (Hi : 0 <= i < 32) (Htb : 0 < treebins).

Lemma hpar_pos : path_good g c -> hpar (treebin_at i) c <> 0.
Proof.
  intros Hg. destruct c as [|f c']; [unfold hpar, treebin_at; lia|].
  destruct (path_good_frame _ _ _ Hg) as [(Hf & _) _]. simpl. lia.
Qed.

(** A node is not on the path to it. *)
Lemma node_off_path X S ring l r : NoDup (elements (plug c (Node X S ring l r))).*1 -> X ∉ (celems c).*1.
Proof. rewrite plug_elements fmap_app. simpl. intros [Hn _]%list.NoDup_cons. set_solver. Qed.

Lemma replace_wf t t' : wf (tree_lo i) (tree_bits i) (plug c t) -> (forall lo k, wf lo k t -> wf lo k t') ->
  (forall x, x ∈ sizes t' -> x ∈ sizes t) -> wf (tree_lo i) (tree_bits i) (plug c t').
Proof. intros Hw Ht Hs. destruct (wf_plug c _ _ _ Hw) as (lo & k & Hw' & Hrep). by apply Hrep; [apply Ht|]. Qed.

Lemma replace_elements t t' e : elements t ≡ₚ e :: elements t' -> elements (plug c t) ≡ₚ e :: elements (plug c t').
Proof. intros HP. by rewrite !plug_elements HP. Qed.

(** A chunk of the ring that is not the node. *)
Lemma unlink_member p S r1 X r2 l r : tree_ok g i (plug c (Node p S (r1 ++ X :: r2) l r)) ->
  tbin i (plug c (Node p S (r1 ++ X :: r2) l r)) -∗
  wp (unlink_large_chunk X) (fun _ => unlinked g i (plug c (Node p S (r1 ++ X :: r2) l r)) X S) g.
Proof.
  iIntros ((Hb & Hw & Hg & H256)) "Ht". rewrite tbin_plug. iDestruct "Ht" as "(Hc & (Hcy & Hbody & H0 & H1 & Hpar & Hmem) & Hl & Hr)".
  apply plug_good in Hg as [Hg Hgc]. destruct (tree_good_node _ _ _ _ _ _ Hg) as (Hp & Hring & _).
  destruct (H256 (X, S)) as [HS _].
  { rewrite plug_elements elem_of_app. left. cbn [elements]. apply elem_of_app. left. apply list_elem_of_fmap. exists X. set_solver. }
  iDestruct (cycle_nodup with "Hcy") as %Hnd. rewrite big_sepL_app. iDestruct "Hmem" as "(Hm1 & (HbX & HX0 & HX1 & HXp) & Hm2)".
  iDestruct (cycle_delete with "Hcy") as "(Hf & Hk & HFk & HBf & Hcy)". unfold unlink_large_chunk. wld "HXp".
  wbind. iApply (wp_replacement_ring with "Hf Hk HFk HBf").
  { intros E. apply list.NoDup_cons in Hnd as [Hn Hnd]. apply list.NoDup_app in Hnd as (_ & Hd & _).
    destruct (ring_last_elem r1 p) as [E'|Hin]; [|apply (Hd X); set_solver]. rewrite E in E'. set_solver. }
  { destruct (ring_hd_elem r2 p) as [->|Hin]; [apply Hp|]. apply (Hring (hd p r2)). set_solver. }
  iIntros "Hf Hk HFk HBf". unfold unlink_relink. rewrite Z.eqb_refl. wret. iExists (treemap g), (plug c (Node p S (r1 ++ r2) l r)).
  iSplit; [iPureIntro; split_and!; [apply set_treemap_same| | |]|].
  - apply bit_set_same; [done|]. rewrite Hb !plug_nonleaf //; by left.
  - eapply replace_wf; [exact Hw|done|]. intros x. by rewrite !elem_sizes.
  - apply replace_elements. cbn [elements]. unfold ring_elems. rewrite !fmap_cons !fmap_app !fmap_cons. solve_Permutation.
  - rewrite tbin_plug. iFrame "Hc". cbn [tmem]. iFrame "Hl Hr". iSplitR "HbX HX0 HX1 HXp Hf Hk".
    + unfold tnode. rewrite big_sepL_app. iFrame. iApply ("Hcy" with "HFk HBf").
    + iApply (tbody_free with "Hf Hk HbX HX0 HX1 HXp"); [done|apply (Hring X); set_solver].
Qed.

(** The node of a ring of two or more: the last of the ring takes its place. *)
Lemma unlink_head X S ring R l r : tree_ok g i (plug c (Node X S (ring ++ [R]) l r)) ->
  tbin i (plug c (Node X S (ring ++ [R]) l r)) -∗
  wp (unlink_large_chunk X) (fun _ => unlinked g i (plug c (Node X S (ring ++ [R]) l r)) X S) g.
Proof.
  iIntros ((Hb & Hw & Hg & H256)) "Ht". iAssert ⌜X ∉ (celems c).*1⌝%I as %Hoff.
  { iDestruct "Ht" as "[_ Ht]". iDestruct (tmem_nodup with "Ht") as %Hnd. iPureIntro. by eapply node_off_path. }
  rewrite tbin_plug. iDestruct "Ht" as "(Hc & (Hcy & Hbody & H0 & H1 & Hpar & Hmem) & Hl & Hr)".
  apply plug_good in Hg as [Hg Hgc]. destruct (tree_good_node _ _ _ _ _ _ Hg) as (HX & Hring & Hgl & Hgr).
  destruct (H256 (X, S)) as [HS _]; [rewrite plug_elements elem_of_app; left; simpl; set_solver|].
  assert (good g R S) as HR by (apply Hring; set_solver).
  rewrite cycle_rotate. iDestruct (cycle_nodup with "Hcy") as %Hnd. rewrite big_sepL_snoc. iDestruct "Hmem" as "(Hmem & (HbR & HR0 & HR1 & HRp))".
  iDestruct (cycle_delete R [] X ring with "Hcy") as "(Hf & Hk & HFk & HBf & Hcy)". unfold unlink_large_chunk. wld "Hpar".
  wbind. iApply (wp_replacement_ring with "Hf Hk HFk HBf").
  { simpl. intros ->. apply list.NoDup_cons in Hnd as [Hn _]. set_solver. }
  { destruct (ring_hd_elem ring R) as [->|Hin]; [apply HR|]. apply (Hring (hd R ring)). set_solver. }
  iIntros "Hf Hk HFk HBf". iDestruct ("Hcy" with "HFk HBf") as "Hcy". simpl last. simpl app. iDestruct "Hbody" as "(Hh & Hix & Hraw & Hft)".
  iApply (wp_relink g i c X R l r with "Hc Hix H0 H1 Hl Hr [HRp] HR0 HR1"); try done; [destruct HX; lia|destruct HR; lia|apply HR|by apply hpar_pos|by iExists _|].
  iIntros (m Hbs) "Hc Hix H0 H1 HRp HR0 HR1 Hl Hr". iExists m, (plug c (Node R S ring l r)).
  iSplit; [iPureIntro; split_and!; [done| | |]|].
  - rewrite Hb in Hbs. rewrite plug_nonleaf in Hbs; [|by left]. rewrite plug_nonleaf; [done|by left].
  - eapply replace_wf; [exact Hw|done|]. intros x. by rewrite !elem_sizes.
  - apply replace_elements. cbn [elements]. unfold ring_elems. rewrite !fmap_cons !fmap_app fmap_cons fmap_nil. solve_Permutation.
  - rewrite tbin_plug. iFrame "Hc". cbn [tmem]. iFrame "Hl Hr". iSplitR "Hf Hk Hh Hix Hraw Hft H0 H1 Hpar".
    + unfold tnode. iFrame.
    + iApply (tbody_free i with "Hf Hk [Hh Hix Hraw Hft] H0 H1 Hpar"); [done|apply HX|iFrame].
Qed.

(** What the two cases of a node alone in its ring start from. *)
Lemma unlink_alone X S l r Φ : tree_ok g i (plug c (Node X S [] l r)) ->
  tbin i (plug c (Node X S [] l r)) -∗
  (⌜X ∉ (celems c).*1⌝ -∗ ⌜tree_good g (Node X S [] l r) /\ path_good g c /\ 256 <= S⌝ -∗
   cbin i c X -∗ fd X ↦ X -∗ bk X ↦ X -∗ tbody i X S -∗ child X 0 ↦ root l -∗ child X 1 ↦ root r -∗
   parent X ↦ hpar (treebin_at i) c -∗ tmem i X l -∗ tmem i X r -∗
   wp (c1 ← ld (child X 1);
       RRP ← (if negb (c1 =? 0) then mret (c1, child X 1) else c0 ← ld (child X 0); mret (c0, child X 0));
       if RRP.1 =? 0 then mret 0
       else RRP ← loop DEPTH rightmost_step RRP;
            ok ← ok_address RRP.2; if ok : bool then sd RRP.2 0;; mret RRP.1 else CORRUPTION_ERROR_ACTION)
     (fun R => wp (unlink_relink X (hpar (treebin_at i) c) R) Φ) g) -∗
  wp (unlink_large_chunk X) Φ g.
Proof.
  iIntros ((Hb & Hw & Hg & H256)) "Ht HΦ". iAssert ⌜X ∉ (celems c).*1⌝%I as %Hoff.
  { iDestruct "Ht" as "[_ Ht]". iDestruct (tmem_nodup with "Ht") as %Hnd. iPureIntro. by eapply node_off_path. }
  rewrite tbin_plug. iDestruct "Ht" as "(Hc & (Hcy & Hbody & H0 & H1 & Hpar & _) & Hl & Hr)".
  apply plug_good in Hg as [Hg Hgc]. destruct (H256 (X, S)) as [HS _]; [rewrite plug_elements elem_of_app; left; simpl; set_solver|].
  unfold cycle. simpl hd. simpl last. iDestruct "Hcy" as "(Hf & Hk & _)".
  unfold unlink_large_chunk. wld "Hpar". unfold unlink_replacement. wld "Hk". rewrite Z.eqb_refl.
  wnorm. iApply ("HΦ" with "[] [] Hc Hf Hk Hbody H0 H1 Hpar Hl Hr"); done.
Qed.

Lemma unlink_leaf X S : tree_ok g i (plug c (Node X S [] Leaf Leaf)) ->
  tbin i (plug c (Node X S [] Leaf Leaf)) -∗
  wp (unlink_large_chunk X) (fun _ => unlinked g i (plug c (Node X S [] Leaf Leaf)) X S) g.
Proof.
  iIntros (Hok) "Ht". iApply (unlink_alone with "Ht"); [done|]. destruct Hok as (Hb & Hw & _).
  iIntros (Hoff (Hg & Hgc & HS)) "Hc Hf Hk (Hh & Hix & Hraw & Hft) H0 H1 Hpar _ _". cbn [root].
  destruct (tree_good_node _ _ _ _ _ _ Hg) as (HX & _). wld "H1". wld "H0". wret. wret.
  iApply (wp_relink_none with "Hc Hix"); try done; [destruct HX; lia|by apply hpar_pos|rewrite Hb; apply plug_nonleaf; by left|].
  iIntros (m Hbs) "Hc Hix". iExists m, (plug c Leaf). iSplit; [iPureIntro; split_and!; [done|done| |]|].
  - eapply replace_wf; [exact Hw|by intros|]. intros x Hx. by apply not_elem_of_nil in Hx.
  - by apply replace_elements.
  - rewrite tbin_plug. iFrame "Hc". cbn [tmem].
    iApply (tbody_free i with "Hf Hk [Hh Hix Hraw Hft] H0 H1 Hpar"); [done|apply HX|iFrame].
Qed.

(** The end of the case of a node with children: [R] was taken from below it. *)
Lemma unlink_promoted X S t0 R s ring l r par : good g X S -> 256 <= S -> X ∉ (celems c).*1 -> path_good g c ->
  tree_good g (Node R s ring l r) -> Z.testbit (treemap g) i = true ->
  wf (tree_lo i) (tree_bits i) (plug c (Node R s ring l r)) -> elements t0 ≡ₚ (X, S) :: elements (plug c (Node R s ring l r)) ->
  cbin i c X -∗ fd X ↦ X -∗ bk X ↦ X -∗ tbody i X S -∗ child X 0 ↦ root l -∗ child X 1 ↦ root r -∗
  parent X ↦ hpar (treebin_at i) c -∗ tmem i X l -∗ tmem i X r -∗ tnode i par R s ring 0 0 -∗
  wp (unlink_relink X (hpar (treebin_at i) c) R) (fun _ => unlinked g i t0 X S) g.
Proof.
  iIntros (HX HS Hoff Hgc Hg Hb Hw HP) "Hc Hf Hk (Hh & Hix & Hraw & Hft) H0 H1 Hpar Hl Hr (HcyR & HbR & HR0 & HR1 & HRp & HmR)".
  destruct (tree_good_node _ _ _ _ _ _ Hg) as (HR & _ & Hgl & Hgr).
  iApply (wp_relink g i c X R l r with "Hc Hix H0 H1 Hl Hr [HRp] HR0 HR1"); try done; [destruct HX; lia|destruct HR; lia|apply HR|by apply hpar_pos|by iExists _|].
  iIntros (m Hbs) "Hc Hix H0 H1 HRp HR0 HR1 Hl Hr". iExists m, (plug c (Node R s ring l r)).
  iSplit; [iPureIntro; split_and!; [done| |done|done]|].
  - rewrite Hb in Hbs. rewrite plug_nonleaf; [done|by left].
  - rewrite tbin_plug. iFrame "Hc". cbn [tmem]. iFrame "Hl Hr". iSplitR "Hf Hk Hh Hix Hraw Hft H0 H1 Hpar".
    + unfold tnode. iFrame.
    + iApply (tbody_free i with "Hf Hk [Hh Hix Hraw Hft] H0 H1 Hpar"); [done|apply HX|iFrame].
Qed.

Lemma depth_plug t : (depth t <= depth (plug c t))%nat.
Proof.
  clear. revert t. induction c as [|f c' IH]; intros t; [done|]. cbn [plug]. etrans; [|apply IH]. unfold fill. destruct (dir f); simpl; lia.
Qed.

Lemma unlink_node X S l r : l <> Leaf \/ r <> Leaf -> tree_ok g i (plug c (Node X S [] l r)) ->
  tbin i (plug c (Node X S [] l r)) -∗
  wp (unlink_large_chunk X) (fun _ => unlinked g i (plug c (Node X S [] l r)) X S) g.
Proof.
  iIntros (Hlr Hok) "Ht". iApply (unlink_alone with "Ht"); [done|]. destruct Hok as (Hb & Hw & _).
  iIntros (Hoff (Hg & Hgc & HS)) "Hc Hf Hk Hbody H0 H1 Hpar Hl Hr". destruct (tree_good_node _ _ _ _ _ _ Hg) as (HX & _ & Hgl & Hgr).
  assert (depth (plug c (Node X S [] l r)) <= DEPTH)%nat as Hd.
  { pose proof (wf_depth _ _ _ Hw). pose proof (tree_bits_range i Hi). unfold DEPTH. lia. }
  pose proof (depth_plug (Node X S [] l r)) as Hd'. cbn [depth] in Hd'. rewrite plug_nonleaf in Hb; [|by left].
  wld "H1". rewrite (good_root g) // negb_involutive. destruct (nonleaf r) eqn:Er.
  - wret. rewrite (good_root g) // Er. iApply (wp_wand with "[H1 Hr]").
    { iApply (wp_take_leaf with "H1 Hr"); [by intros ->|lia|done|unfold child; destruct HX; lia]. }
    iIntros (R g') "(-> & %c' & %s & %ring & %par & -> & H1 & Hr & HR)".
    destruct (wf_plug c _ _ _ Hw) as (lo & k & Hw' & Hrep). destruct (promote_right _ _ _ _ _ _ _ _ _ Hw') as (Hw1 & HP & Hsz).
    iApply (unlink_promoted with "Hc Hf Hk Hbody H0 H1 Hpar Hl Hr HR"); try done; [|by apply Hrep|by apply replace_elements].
    intros e He. apply Hg. rewrite HP. set_solver.
  - destruct r; [|done]. wld "H0". wret. destruct (nonleaf l) eqn:El; [|destruct l; naive_solver].
    rewrite (good_root g) // El. wnorm. iApply (wp_wand with "[H0 Hl]").
    { iApply (wp_take_leaf with "H0 Hl"); [by intros ->|lia|done|unfold child; destruct HX; lia]. }
    iIntros (R g') "(-> & %c' & %s & %ring & %par & -> & H0 & Hl & HR)".
    destruct (wf_plug c _ _ _ Hw) as (lo & k & Hw' & Hrep). destruct (promote_left _ _ _ _ _ _ _ _ Hw') as (Hw1 & HP & Hsz).
    iApply (unlink_promoted X S _ R s ring (plug c' Leaf) Leaf with "Hc Hf Hk Hbody H0 H1 Hpar Hl Hr HR"); try done; [|by apply Hrep|by apply replace_elements].
    intros e He. apply Hg. rewrite HP. set_solver.
Qed.
End unlink.

(** unlink_large_chunk takes one chunk out of its trie and gives it back free. *)
Lemma unlink_large_ok g i t X S : in_u 32 (treemap g) -> 0 <= i < 32 -> 0 < treebins -> tree_ok g i t -> (X, S) ∈ elements t ->
  tbin i t -∗ wp (unlink_large_chunk X) (fun _ => unlinked g i t X S) g.
Proof.
  intros Hm Hi Htb Hok He. destruct (find_node t (X, S) He) as (c & p & ring & l & r & -> & Hin). cbn [fst snd] in *.
  apply elem_of_cons in Hin as [<-|Hin].
  - destruct ring as [|R ring _] using rev_ind; [|by apply unlink_head].
    destruct l, r; [by apply unlink_leaf|apply unlink_node; auto..].
  - apply list_elem_of_split in Hin as (r1 & r2 & ->). by apply unlink_member.
Qed.
End tree.
