(* ===== verification/DlFree.v ===== *)
(** * dlmalloc: the store of binned chunks

    All bins together are a map from the addresses of free chunks to their sizes;
    insert_chunk, unlink_chunk and unlink_first_small_chunk are operations on that map. *)

From iris.proofmode Require Import proofmode.
From S2P Require Import Prelude DlSep DlBase DlBins DlTree.

(** The chunks of the small bins and of the tree bins. *)
Definition tag (i : Z) (l : list Z) : list (Z * Z) := (fun p => (p, 8 * i)) <$> l.
Definition slist (SL : list (list Z)) : list (Z * Z) := concat (imap (fun i l => tag (Z.of_nat i) l) SL).
Definition tlist (TL : list tree) : list (Z * Z) := concat (elements <$> TL).

(** Operations on the bins change nothing else of the state. *)
Definition maps_only (g g' : mstate) : Prop := exists m1 m2, g' = set_treemap m2 (set_smallmap m1 g).

Lemma maps_only_small g m : maps_only g (set_smallmap m g).
Proof. exists m, (treemap g). by destruct g. Qed.
Lemma maps_only_tree g m : maps_only g (set_treemap m g).
Proof. exists (smallmap g), m. by destruct g. Qed.
Lemma maps_only_refl g : maps_only g g.
Proof. exists (smallmap g), (treemap g). by destruct g. Qed.
Lemma maps_only_trans g1 g2 g3 : maps_only g1 g2 -> maps_only g2 g3 -> maps_only g1 g3.
Proof. intros (m1 & m2 & ->) (m3 & m4 & ->). by exists m3, m4. Qed.

Lemma imap_insert_eq {A B} (f : nat -> A -> B) (l : list A) i x : imap f (<[i := x]> l) = <[i := f i x]> (imap f l).
Proof.
  apply list_eq. intros j. rewrite list_lookup_imap. destruct (decide (i = j)) as [->|Hn].
  - destruct (decide (j < length l)%nat) as [Hj|Hj].
    + by rewrite !list_lookup_insert_eq // length_imap.
    + rewrite !lookup_ge_None_2 //; rewrite ?length_insert ?length_imap; lia.
  - by rewrite !list_lookup_insert_ne // list_lookup_imap.
Qed.

Lemma slist_focus SL i l : SL !! i = Some l -> exists rest,
  slist SL ≡ₚ tag (Z.of_nat i) l ++ rest /\ forall l', slist (<[i := l']> SL) ≡ₚ tag (Z.of_nat i) l' ++ rest.
Proof.
  intros Hl. destruct (concat_focus id (imap (fun i l => tag (Z.of_nat i) l) SL) i (tag (Z.of_nat i) l)) as (r & H1 & H2).
  { by rewrite list_lookup_imap Hl. }
  exists r. unfold slist. rewrite list_fmap_id in H1. split; [done|]. intros l'. rewrite imap_insert_eq.
  specialize (H2 (tag (Z.of_nat i) l')). by rewrite list_fmap_id in H2.
Qed.

Lemma elem_of_slist SL e : e ∈ slist SL -> exists (i : nat) l, SL !! i = Some l /\ e.1 ∈ l /\ e.2 = 8 * i.
Proof.
  unfold slist. rewrite list_elem_of_In in_concat. intros (x & Hx%list_elem_of_In & He%list_elem_of_In).
  apply elem_of_lookup_imap in Hx as (i & l & -> & Hl). apply list_elem_of_fmap in He as (p & -> & Hp). by exists i, l.
Qed.

Lemma elem_of_tlist TL e : e ∈ tlist TL -> exists i t, TL !! i = Some t /\ e ∈ elements t.
Proof.
  unfold tlist. rewrite list_elem_of_In in_concat. intros (x & Hx%list_elem_of_In & He%list_elem_of_In).
  apply list_elem_of_fmap in Hx as (t & -> & [i Hi]%list_elem_of_lookup). by exists i, t.
Qed.

Section bins.
Context `{Gm}.

Record bins_ok (g : mstate) (SL : list (list Z)) (TL : list tree) (F : gmap Z Z) : Prop := BinsOk {
  bo_slen : length SL = 32%nat;
  bo_tlen : length TL = 32%nat;
  bo_smap : in_u 32 (smallmap g);
  bo_tmap : in_u 32 (treemap g);
  bo_addr : 0 < treebins;
  bo_small : forall i l, SL !! i = Some l -> small_ok g (Z.of_nat i) l;
  bo_tree : forall i t, TL !! i = Some t -> tree_ok g (Z.of_nat i) t;
  bo_elems : map_to_list F ≡ₚ slist SL ++ tlist TL }.

(** The bins hold exactly the free chunks [F]. *)
Definition bins (g : mstate) (F : gmap Z Z) : hpropI :=
  (∃ SL TL, ⌜bins_ok g SL TL F⌝ ∗ ([∗ list] i ↦ l ∈ SL, sbin (Z.of_nat i) l) ∗ ([∗ list] i ↦ t ∈ TL, tbin (Z.of_nat i) t))%I.

(** Nothing else of the state matters. *)
Lemma bins_state g g' F : smallmap g' = smallmap g -> treemap g' = treemap g -> least_addr g' = least_addr g ->
  bins g F ⊢ bins g' F.
Proof.
  intros E1 E2 E3. iIntros "(%SL & %TL & %Hok & H)". iExists SL, TL. iFrame. iPureIntro. destruct Hok.
  assert (forall p s, good g p s -> good g' p s) as Hg by (unfold good; by rewrite E3). split; rewrite ?E1 ?E2 //.
  - intros i l Hl. destruct (bo_small0 i l Hl) as [? ?]. split; [by rewrite E1|auto].
  - intros i t Ht. destruct (bo_tree0 i t Ht) as (? & ? & ? & ?). split_and!; [by rewrite E2|done| |done]. intros e He. auto.
Qed.

(** A state in which the chunks are good too. *)
Lemma bins_good_state g g' F : smallmap g' = smallmap g -> treemap g' = treemap g -> map_Forall (fun p s => good g' p s) F -> bins g F ⊢ bins g' F.
Proof.
  intros E1 E2 Hg. iIntros "(%SL & %TL & %Hok & H)". iExists SL, TL. iFrame. iPureIntro. destruct Hok.
  assert (forall e, e ∈ slist SL ++ tlist TL -> good g' e.1 e.2) as Hall.
  { intros [p s]. rewrite -bo_elems0 elem_of_map_to_list. apply Hg. }
  split; rewrite ?E1 ?E2 //.
  - intros i l Hl. destruct (bo_small0 i l Hl) as [? _]. split; [by rewrite E1|]. intros p Hp. apply (Hall (p, 8 * i)). apply elem_of_app. left.
    destruct (slist_focus _ _ _ Hl) as (rest & -> & _). apply elem_of_app. left. apply list_elem_of_fmap. by exists p.
  - intros i t Ht. destruct (bo_tree0 i t Ht) as (? & ? & _ & ?). split_and!; [by rewrite E2|done| |done]. intros e He. apply Hall, elem_of_app. right.
    unfold tlist. destruct (concat_focus elements TL i t Ht) as (rest & -> & _). apply elem_of_app. by left.
Qed.

Lemma sbin_heads i l : sbin i l ⊢ [∗ list] e ∈ tag i l, head e.1 ↦ (e.2 + 1).
Proof.
  iIntros "[_ Hl]". unfold tag. rewrite big_sepL_fmap. iApply (big_sepL_impl with "Hl"). by iIntros "!>" (k p _) "[$ _]".
Qed.

Lemma tbin_heads i t : tbin i t ⊢ [∗ list] e ∈ elements t, head e.1 ↦ (e.2 + 1).
Proof. iIntros "[_ Ht]". by iApply tmem_heads. Qed.

(** A binned chunk owns its head. *)
Lemma bins_head g F p s : F !! p = Some s -> bins g F ⊢ head p ↦ (s + 1).
Proof.
  iIntros (Hp) "(%SL & %TL & %Hok & HS & HT)". assert ((p, s) ∈ slist SL ++ tlist TL) as He.
  { rewrite -(bo_elems _ _ _ _ Hok). by apply elem_of_map_to_list. }
  apply elem_of_app in He as [(i & l & Hl & Hin & Es)%elem_of_slist|(i & t & Ht & Hin)%elem_of_tlist].
  - iDestruct (big_sepL_lookup _ _ _ _ Hl with "HS") as "H". rewrite sbin_heads.
    assert ((p, s) ∈ tag (Z.of_nat i) l) as [k Hk]%list_elem_of_lookup by (apply list_elem_of_fmap; exists p; simpl in *; by subst).
    by iDestruct (big_sepL_lookup _ _ _ _ Hk with "H") as "$".
  - iDestruct (big_sepL_lookup _ _ _ _ Ht with "HT") as "H". rewrite tbin_heads. apply list_elem_of_lookup in Hin as [k Hk].
    by iDestruct (big_sepL_lookup _ _ _ _ Hk with "H") as "$".
Qed.

Lemma bins_fresh g F p v : bins g F -∗ head p ↦ v -∗ ⌜F !! p = None⌝.
Proof.
  iIntros "Hb Hp". destruct (F !! p) as [s|] eqn:E; [|done]. iDestruct (bins_head with "Hb") as "Hh"; [done|].
  by iDestruct (pointsto_ne with "[$Hp $Hh]") as %?.
Qed.

(** What is known of a binned chunk. *)
Lemma bins_good g F p s : F !! p = Some s -> bins g F ⊢ ⌜good g p s⌝.
Proof.
  iIntros (Hp) "(%SL & %TL & %Hok & _ & _)". iPureIntro. assert ((p, s) ∈ slist SL ++ tlist TL) as He.
  { rewrite -(bo_elems _ _ _ _ Hok). by apply elem_of_map_to_list. }
  apply elem_of_app in He as [(i & l & Hl & Hin & Es)%elem_of_slist|(i & t & Ht & Hin)%elem_of_tlist].
  - simpl in *. subst s. destruct (bo_small _ _ _ _ Hok _ _ Hl) as [_ Hg]. by apply Hg.
  - destruct (bo_tree _ _ _ _ Hok _ _ Ht) as (_ & _ & Hg & _). by apply (Hg (p, s)).
Qed.

(** One small bin changes. *)
Lemma bins_ok_small g SL TL F F' (i : nat) l l' m : bins_ok g SL TL F -> SL !! i = Some l ->
  bit_set m (smallmap g) i (bool_decide (l' <> [])) -> (forall p, p ∈ l' -> good g p (8 * i)) ->
  map_to_list F' ≡ₚ slist (<[i := l']> SL) ++ tlist TL ->
  bins_ok (set_smallmap m g) (<[i := l']> SL) TL F'.
Proof.
  intros [] Hl [Hm Hbits] Hg HP. pose proof (lookup_lt_Some _ _ _ Hl) as Hi. split; try done.
  - by rewrite length_insert.
  - intros j lj. destruct (decide (j = i)) as [->|Hne].
    + rewrite list_lookup_insert_eq //. intros [= <-]. split; [|done]. simpl. rewrite Hbits; [|lia]. by rewrite decide_True.
    + rewrite list_lookup_insert_ne; [|done]. intros Hj. destruct (bo_small0 _ _ Hj) as [Hb Hgj]. split; [|done].
      simpl. rewrite Hbits; [|lia]. rewrite decide_False //. lia.
Qed.

(** One tree bin changes. *)
Lemma bins_ok_tree g SL TL F F' (i : nat) t t' m : bins_ok g SL TL F -> TL !! i = Some t ->
  bit_set m (treemap g) i (nonleaf t') -> wf (tree_lo i) (tree_bits i) t' ->
  (forall e, e ∈ elements t' -> good g e.1 e.2 /\ 256 <= e.2 /\ compute_tree_index e.2 = i) ->
  map_to_list F' ≡ₚ slist SL ++ tlist (<[i := t']> TL) ->
  bins_ok (set_treemap m g) SL (<[i := t']> TL) F'.
Proof.
  intros [] Hl [Hm Hbits] Hw Hg HP. pose proof (lookup_lt_Some _ _ _ Hl) as Hi. split; try done.
  - by rewrite length_insert.
  - intros j tj. destruct (decide (j = i)) as [->|Hne].
    + rewrite list_lookup_insert_eq //. intros [= <-]. split_and!; [|done|intros e He; by apply Hg|intros e He; split; by apply Hg].
      simpl. rewrite Hbits; [|lia]. by rewrite decide_True.
    + rewrite list_lookup_insert_ne; [|done]. intros Hj. destruct (bo_tree0 _ _ Hj) as (Hb & ? & ? & ?). split_and!; try done.
      simpl. rewrite Hbits; [|lia]. rewrite decide_False //. lia.
Qed.

Lemma map_insert_perm (F : gmap Z Z) p s L : F !! p = None -> map_to_list F ≡ₚ L -> map_to_list (<[p := s]> F) ≡ₚ (p, s) :: L.
Proof. intros Hn HP. by rewrite map_to_list_insert // HP. Qed.

Lemma map_delete_perm (F : gmap Z Z) p s L : F !! p = Some s -> map_to_list F ≡ₚ (p, s) :: L -> map_to_list (delete p F) ≡ₚ L.
Proof. intros Hs HP. apply (Permutation_cons_inv (a := (p, s))). by rewrite map_to_list_delete. Qed.

Lemma large_size s : is_small s = false -> 256 <= s.
Proof. unfold is_small, NSMALLBINS, SMALLBIN_SHIFT. rewrite Z.shiftr_div_pow2 // Z.ltb_ge. change (2 ^ 3) with 8. zdm. Qed.

(** insert_chunk adds a free chunk to the store. *)
Lemma wp_insert_chunk g F p s : good g p s ->
  bins g F -∗ free_chunk p s -∗
  wp (insert_chunk p s) (fun _ g' => ⌜maps_only g g' /\ F !! p = None⌝ ∗ bins g' (<[p := s]> F)) g.
Proof.
  iIntros (Hg) "Hb Hp". iAssert ⌜F !! p = None⌝%I as %Hn. { iDestruct "Hp" as "(Hh & _)". iApply (bins_fresh with "Hb Hh"). }
  iDestruct "Hb" as "(%SL & %TL & %Hok & HS & HT)". unfold insert_chunk. pose proof Hg as (_ & _ & _ & Hsa & Hsr & _).
  destruct (is_small s) eqn:Es.
  - destruct (small_size s Es) as (Hs1 & Hs2 & Hs3); [lia|done|]. set (n := Z.to_nat (s / 8)).
    assert (s = 8 * Z.of_nat n) as En by (subst n; zdm). assert (exists l, SL !! n = Some l) as [l Hl].
    { apply lookup_lt_is_Some. rewrite (bo_slen _ _ _ _ Hok). subst n. zdm. }
    destruct (slist_focus SL n l Hl) as (rest & HP1 & HP2). rewrite En. iDestruct (big_sepL_insert_acc with "HS") as "[Hl HS]"; [done|].
    iApply (wp_wand with "[Hl Hp]"). { iApply (insert_small_ok with "Hl Hp"); [apply Hok|by apply (bo_small _ _ _ _ Hok)|by rewrite -En|subst n; zdm]. }
    iIntros (_ g') "(%m & (-> & %Hbs) & Hl)". iSplit; [iPureIntro; split; [apply maps_only_small|done]|].
    iExists (<[n := p :: l]> SL), TL. iFrame "HT". iSplit; [iPureIntro|by iApply "HS"].
    eapply bins_ok_small; [done|done|done| |].
    + intros q [->|Hq]%elem_of_cons; [by rewrite -En|]. by apply (bo_small _ _ _ _ Hok _ _ Hl).
    + rewrite HP2 (map_insert_perm F p _ _ Hn (bo_elems _ _ _ _ Hok)) HP1. done.
  - pose proof (large_size s Es) as H256. assert (256 <= s < 2 ^ 40) as Hs by lia. set (j := compute_tree_index s).
    destruct (compute_tree_index_spec s Hs) as (Hj & _). fold j in Hj. set (n := Z.to_nat j). assert (j = Z.of_nat n) as En by (subst n; lia).
    assert (exists t, TL !! n = Some t) as [t Ht]. { apply lookup_lt_is_Some. rewrite (bo_tlen _ _ _ _ Hok). lia. }
    destruct (concat_focus elements TL n t Ht) as (rest & HP1 & HP2). iDestruct (big_sepL_insert_acc with "HT") as "[Ht HT]"; [done|].
    iEval (rewrite -En) in "Ht". iApply (wp_wand with "[Ht Hp]").
    { iApply (insert_large_ok with "Ht Hp"); [apply Hok| |done|done]. fold j. rewrite En. by apply (bo_tree _ _ _ _ Hok). }
    fold j. iIntros (_ g') "(%m & %t' & (-> & %Hbs & %Hw & %HP) & Ht)". iSplit; [iPureIntro; split; [apply maps_only_tree|done]|].
    iExists SL, (<[n := t']> TL). iFrame "HS". rewrite En in Hbs, Hw |- *. iSplit; [iPureIntro|by iApply "HT"].
    eapply bins_ok_tree; [done|done|by rewrite (nonleaf_perm _ _ _ HP)|done| |].
    + intros e. rewrite HP elem_of_cons. intros [->|He]; [done|]. destruct (bo_tree _ _ _ _ Hok _ _ Ht) as (_ & _ & H1 & H2).
      split; [by apply H1|by apply H2].
    + unfold tlist in *. rewrite HP2 (map_insert_perm F p _ _ Hn (bo_elems _ _ _ _ Hok)) HP. unfold tlist. rewrite HP1.
      rewrite Permutation_middle. done.
Qed.

(** unlink_chunk takes a chunk out of the store. *)
Lemma wp_unlink_large g F p s : F !! p = Some s -> 256 <= s ->
  bins g F -∗ wp (unlink_large_chunk p) (fun _ g' => ⌜maps_only g g'⌝ ∗ bins g' (delete p F) ∗ free_chunk p s) g.
Proof.
  iIntros (Hp H256) "(%SL & %TL & %Hok & HS & HT)". pose proof (bo_elems _ _ _ _ Hok) as HF.
  assert ((p, s) ∈ slist SL ++ tlist TL) as He by (rewrite -HF; by apply elem_of_map_to_list).
  apply elem_of_app in He as [(i & l & Hl & Hin & Es)%elem_of_slist|(n & t & Ht & Hin)%elem_of_tlist].
  { exfalso. pose proof (lookup_lt_Some _ _ _ Hl) as Hi. rewrite (bo_slen _ _ _ _ Hok) in Hi. simpl in Es. lia. }
  pose proof (lookup_lt_Some _ _ _ Ht) as Hn. rewrite (bo_tlen _ _ _ _ Hok) in Hn.
  destruct (concat_focus elements TL n t Ht) as (rest & HP1 & HP2). iDestruct (big_sepL_insert_acc with "HT") as "[Ht HT]"; [done|].
  iApply (wp_wand with "[Ht]").
  { iApply (unlink_large_ok with "Ht"); [apply Hok|lia|apply Hok|by apply (bo_tree _ _ _ _ Hok)|done]. }
  iIntros (_ g') "(%m & %t' & (-> & %Hbs & %Hw & %HP) & Ht & $)". iSplit; [iPureIntro; apply maps_only_tree|].
  iExists SL, (<[n := t']> TL). iFrame "HS". iSplit; [iPureIntro|by iApply "HT"]. eapply bins_ok_tree; [done..| |].
  - intros e He. destruct (bo_tree _ _ _ _ Hok _ _ Ht) as (_ & _ & H1 & H2).
    assert (e ∈ elements t) as Het by (rewrite HP; set_solver). split; [by apply H1|by apply H2].
  - apply (map_delete_perm F p s); [done|]. unfold tlist in *. rewrite HF HP1 HP2 HP. rewrite Permutation_middle. done.
Qed.

Lemma wp_unlink_chunk g F p s : F !! p = Some s ->
  bins g F -∗ wp (unlink_chunk p s) (fun _ g' => ⌜maps_only g g'⌝ ∗ bins g' (delete p F) ∗ free_chunk p s) g.
Proof.
  iIntros (Hp) "Hb". unfold unlink_chunk. destruct (is_small s) eqn:Es; [|iApply (wp_unlink_large with "Hb"); [done|by apply large_size]].
  iDestruct (bins_good with "Hb") as %(_ & _ & _ & Hsa & Hsr & _); [done|].
  iDestruct "Hb" as "(%SL & %TL & %Hok & HS & HT)". pose proof (bo_elems _ _ _ _ Hok) as HF.
  assert ((p, s) ∈ slist SL ++ tlist TL) as He by (rewrite -HF; by apply elem_of_map_to_list).
  destruct (small_size s Es) as (Hs1 & _); [lia|done|].
  apply elem_of_app in He as [(n & l & Hl & Hin & Ens)%elem_of_slist|(i & t & Ht & Hin)%elem_of_tlist]; last first.
  { exfalso. destruct (bo_tree _ _ _ _ Hok _ _ Ht) as (_ & _ & _ & H2). destruct (H2 _ Hin) as [H3 _]. simpl in H3. lia. }
  simpl in Hin, Ens. subst s. apply list_elem_of_split in Hin as (l1 & l2 & ->). pose proof (lookup_lt_Some _ _ _ Hl) as Hn. rewrite (bo_slen _ _ _ _ Hok) in Hn.
  destruct (slist_focus SL n _ Hl) as (rest & HP1 & HP2). iDestruct (big_sepL_insert_acc with "HS") as "[Hl HS]"; [done|].
  pose proof (bo_small _ _ _ _ Hok _ _ Hl) as Hsok. iApply (wp_wand with "[Hl]"). { iApply (unlink_small_ok with "Hl"); [apply Hok|done|lia]. }
  iIntros (_ g') "(%m & (-> & %Hbs) & Hl & $)". iSplit; [iPureIntro; apply maps_only_small|].
  iExists (<[n := l1 ++ l2]> SL), TL. iFrame "HT". iSplit; [iPureIntro|by iApply "HS"]. eapply bins_ok_small; [done..| |].
  - intros q Hq. apply Hsok. set_solver.
  - apply (map_delete_perm F p (8 * n)); [done|]. rewrite HF HP1 HP2. unfold tag. rewrite !fmap_app fmap_cons. solve_Permutation.
Qed.

(** Taking the first chunk of a small bin that is marked. *)
Lemma wp_take_first g F i {A} (k : Z -> HM A) Φ : 0 <= i < 32 -> Z.testbit (smallmap g) i = true ->
  bins g F -∗
  (∀ (p : Z) (g' : mstate), ⌜maps_only g g' /\ F !! p = Some (8 * i)%Z⌝ -∗ bins g' (delete p F) -∗ free_chunk p (8 * i) -∗ wp (k p) Φ g') -∗
  wp (p ← ld (fd (smallbin_at i)); unlink_first_small_chunk (smallbin_at i) p i;; k p) Φ g.
Proof.
  iIntros (Hi Hbit) "(%SL & %TL & %Hok & HS & HT) HΦ". set (n := Z.to_nat i). assert (i = Z.of_nat n) as En by (subst n; lia).
  assert (exists l, SL !! n = Some l) as [l Hl]. { apply lookup_lt_is_Some. rewrite (bo_slen _ _ _ _ Hok). lia. }
  pose proof (bo_small _ _ _ _ Hok _ _ Hl) as [Hb Hg]. rewrite En in Hbit |- *. rewrite Hbit in Hb. destruct l as [|p l]; [done|].
  destruct (slist_focus SL n _ Hl) as (rest & HP1 & HP2). iDestruct (big_sepL_insert_acc with "HS") as "[Hl HS]"; [done|].
  iDestruct "Hl" as "[Hr Hbs]". cbn [sring]. unfold cycle at 1. iDestruct "Hr" as "(Hf & Hr)". simpl hd. wld "Hf".
  iAssert (sbin n (p :: l)) with "[Hf Hr Hbs]" as "Hl"; [unfold sbin; cbn [sring]; unfold cycle at 1; iFrame|].
  wbind. iApply (wp_wand with "[Hl]"). { iApply (unlink_first_small_ok with "Hl"); [apply Hok|by apply (bo_small _ _ _ _ Hok)|lia]. }
  iIntros (_ g') "(%m & (-> & %Hset) & Hl & Hp)". assert (F !! p = Some (8 * n)) as HFp.
  { apply elem_of_map_to_list. rewrite (bo_elems _ _ _ _ Hok) HP1 elem_of_app. left. apply elem_of_app. left. apply list_elem_of_fmap. exists p. set_solver. }
  iApply ("HΦ" with "[] [HS HT Hl] Hp"); [iPureIntro; split; [apply maps_only_small|done]|].
  iExists (<[n := l]> SL), TL. iFrame "HT". iSplit; [iPureIntro|by iApply "HS"]. eapply bins_ok_small; [done..| |].
  - intros q Hq. apply Hg. set_solver.
  - apply (map_delete_perm F p (8 * n)); [done|]. rewrite (bo_elems _ _ _ _ Hok) HP1 HP2. done.
Qed.

(** The head and the foot of a binned chunk can be read. *)
Definition ends (p s : Z) : hpropI := (head p ↦ (s + 1) ∗ (p + s) ↦ s)%I.

Lemma free_chunk_acc p s : free_chunk p s ⊢ ends p s ∗ (ends p s -∗ free_chunk p s).
Proof. iIntros "(Hh & Hr & Hf)". iSplitL "Hh Hf"; [iFrame|]. iIntros "[Hh Hf]". iFrame. Qed.

Lemma tmem_acc i par t e : e ∈ elements t -> tmem i par t ⊢ ends e.1 e.2 ∗ (ends e.1 e.2 -∗ tmem i par t).
Proof.
  intros (c & p & ring & l & r & -> & Hin)%find_node. rewrite plug_mem. cbn [tmem]. iIntros "(Hc & (Hcy & (Hh & Hix & Hraw & Hft) & H0 & H1 & Hpar & Hmem) & Hl & Hr)".
  apply elem_of_cons in Hin as [->|[k Hk]%list_elem_of_lookup].
  - iSplitL "Hh Hft"; [iFrame|]. iIntros "[Hh Hft]". iFrame.
  - iDestruct (big_sepL_lookup_acc with "Hmem") as "[((Hh' & Hix' & Hraw' & Hft') & Hch) Hmem]"; [done|].
    iSplitL "Hh' Hft'"; [iFrame|]. iIntros "[Hh' Hft']". iFrame. iApply "Hmem". iFrame.
Qed.

Lemma bins_acc g F p s : F !! p = Some s -> bins g F ⊢ ends p s ∗ (ends p s -∗ bins g F).
Proof.
  iIntros (Hp) "(%SL & %TL & %Hok & HS & HT)". assert ((p, s) ∈ slist SL ++ tlist TL) as He.
  { rewrite -(bo_elems _ _ _ _ Hok). by apply elem_of_map_to_list. }
  apply elem_of_app in He as [(i & l & Hl & Hin & Es)%elem_of_slist|(i & t & Ht & Hin)%elem_of_tlist].
  - simpl in Hin, Es. subst s. apply list_elem_of_lookup in Hin as [k Hk].
    iDestruct (big_sepL_lookup_acc with "HS") as "[[Hr Hb] HS]"; [exact Hl|].
    iDestruct (big_sepL_lookup_acc with "Hb") as "[(Hh & Hraw & Hf) Hb]"; [exact Hk|]. iSplitL "Hh Hf"; [iFrame|]. iIntros "[Hh Hf]".
    iExists SL, TL. iFrame "HT". iSplit; [done|]. iApply "HS". iFrame "Hr". iApply "Hb". iFrame.
  - iDestruct (big_sepL_lookup_acc with "HT") as "[[Hr Ht] HT]"; [exact Ht|].
    iDestruct (tmem_acc _ _ _ _ Hin with "Ht") as "[$ Ht]". iIntros "He".
    iExists SL, TL. iFrame "HS". iSplit; [done|]. iApply "HT". iFrame "Hr". by iApply "Ht".
Qed.

(** ** With the designated victim

    All free chunks: the binned ones and the designated victim. *)

Definition dv_ok (g : mstate) (F FR : gmap Z Z) : Prop :=
  (dvsize g = 0 /\ dv g = 0 /\ FR = F) \/
  (0 < dvsize g /\ F !! dv g = None /\ good g (dv g) (dvsize g) /\ FR = <[dv g := dvsize g]> F).

Definition frees (g : mstate) (FR : gmap Z Z) : hpropI :=
  (∃ F, ⌜dv_ok g F FR⌝ ∗ bins g F ∗ if dvsize g =? 0 then emp else free_chunk (dv g) (dvsize g))%I.

Lemma frees_good g FR p s : FR !! p = Some s -> frees g FR ⊢ ⌜good g p s⌝.
Proof.
  iIntros (Hp) "(%F & %Hdv & Hb & _)". destruct Hdv as [(_ & _ & ->)|(_ & _ & Hg & ->)]; [by iApply (bins_good with "Hb")|].
  apply lookup_insert_Some in Hp as [(<- & <-)|(_ & Hp)]; [done|by iApply (bins_good with "Hb")].
Qed.

Lemma frees_acc g FR p s : FR !! p = Some s -> frees g FR ⊢ ends p s ∗ (ends p s -∗ frees g FR).
Proof.
  iIntros (Hp) "(%F & %Hdv & Hb & Hd)". pose proof Hdv as Hdv'. destruct Hdv as [(_ & _ & ->)|(Hpos & _ & Hg & ->)].
  - iDestruct (bins_acc with "Hb") as "[$ Hb]"; [done|]. iIntros "He". iExists F. iSplit; [done|]. iFrame "Hd". by iApply "Hb".
  - apply lookup_insert_Some in Hp as [(<- & <-)|(_ & Hp)].
    + rewrite (proj2 (Z.eqb_neq _ _)); [|lia]. iDestruct (free_chunk_acc with "Hd") as "[$ Hd]". iIntros "He". iExists F. iSplit; [done|].
      iFrame "Hb". rewrite (proj2 (Z.eqb_neq _ _)); [|lia]. by iApply "Hd".
    + iDestruct (bins_acc with "Hb") as "[$ Hb]"; [done|]. iIntros "He". iExists F. iSplit; [done|]. iFrame "Hd". by iApply "Hb".
Qed.

Lemma frees_good_state g g' FR : smallmap g' = smallmap g -> treemap g' = treemap g -> dvsize g' = dvsize g -> dv g' = dv g ->
  map_Forall (fun p s => good g' p s) FR -> frees g FR ⊢ frees g' FR.
Proof.
  iIntros (E1 E2 E3 E4 Hg) "(%F & %Hdv & Hb & Hd)". iExists F. rewrite E3 E4. iFrame "Hd". iSplit.
  - iPureIntro. destruct Hdv as [(? & ? & ->)|(? & ? & ? & ->)]; [left|right]; rewrite ?E3 ?E4; [done|]. split_and!; [done..| |done].
    apply (Hg (dv g)). by rewrite lookup_insert_eq.
  - iApply (bins_good_state with "Hb"); [done..|]. destruct Hdv as [(_ & _ & ->)|(_ & Hn & _ & ->)]; [done|]. by apply map_Forall_insert in Hg as [_ ?].
Qed.

(** A chunk whose head somebody else owns is not free. *)
Lemma frees_fresh g FR p v : frees g FR -∗ head p ↦ v -∗ ⌜FR !! p = None⌝.
Proof.
  iIntros "Hf Hp". destruct (FR !! p) as [s|] eqn:E; [|done]. iDestruct (frees_acc with "Hf") as "[[Hh _] _]"; [done|].
  by iDestruct (pointsto_ne with "[$Hp $Hh]") as %?.
Qed.

(** Operations on the free chunks keep the rest of the state. *)
Definition free_only (g g' : mstate) : Prop :=
  exists m1 m2 d1 d2, g' = set_dv d2 (set_dvsize d1 (set_treemap m2 (set_smallmap m1 g))).

Lemma maps_free_only g g' : maps_only g g' -> free_only g g'.
Proof. intros (m1 & m2 & ->). exists m1, m2, (dvsize g), (dv g). by destruct g. Qed.
Lemma free_only_refl g : free_only g g.
Proof. apply maps_free_only, maps_only_refl. Qed.
Lemma free_only_trans g1 g2 g3 : free_only g1 g2 -> free_only g2 g3 -> free_only g1 g3.
Proof. intros (m1 & m2 & d1 & d2 & ->) (m3 & m4 & d3 & d4 & ->). by exists m3, m4, d3, d4. Qed.
Lemma free_only_dv g d1 d2 : free_only g (set_dv d2 (set_dvsize d1 g)).
Proof. exists (smallmap g), (treemap g), d1, d2. by destruct g. Qed.

Lemma maps_only_dv g g' F FR : maps_only g g' -> dv_ok g F FR -> dv_ok g' F FR.
Proof. by intros (m1 & m2 & ->). Qed.

Lemma wp_free_unlink g FR p s : FR !! p = Some s -> p <> dv g ->
  frees g FR -∗ wp (unlink_chunk p s) (fun _ g' => ⌜maps_only g g'⌝ ∗ frees g' (delete p FR) ∗ free_chunk p s) g.
Proof.
  iIntros (Hp Hne) "(%F & %Hdv & Hb & Hd)". assert (F !! p = Some s) as HFp.
  { destruct Hdv as [(_ & _ & ->)|(_ & _ & _ & ->)]; [done|]. by rewrite lookup_insert_ne in Hp. }
  iApply (wp_wand with "[Hb]"); [by iApply (wp_unlink_chunk with "Hb")|]. iIntros (_ g') "(%Hm & Hb & $)". iSplit; [done|]. iExists (delete p F).
  pose proof Hm as (m1 & m2 & ->). iFrame. iPureIntro. destruct Hdv as [(H1 & H2 & ->)|(H1 & H2 & H3 & ->)]; [by left|right].
  split_and!; [done|by rewrite lookup_delete_ne|done|]. simpl. by rewrite delete_insert_ne.
Qed.

Lemma wp_free_insert g FR p s : good g p s ->
  frees g FR -∗ free_chunk p s -∗ wp (insert_chunk p s) (fun _ g' => ⌜maps_only g g'⌝ ∗ frees g' (<[p := s]> FR)) g.
Proof.
  iIntros (Hg) "Hf Hp". iAssert ⌜FR !! p = None⌝%I as %Hn. { iDestruct "Hp" as "(Hh & _)". iApply (frees_fresh with "Hf Hh"). }
  iDestruct "Hf" as "(%F & %Hdv & Hb & Hd)". iApply (wp_wand with "[Hb Hp]"); [by iApply (wp_insert_chunk with "Hb Hp")|].
  iIntros (_ g') "((%Hm & %HFn) & Hb)". iSplit; [done|]. iExists (<[p := s]> F). pose proof Hm as (m1 & m2 & ->). iFrame. iPureIntro.
  destruct Hdv as [(H1 & H2 & ->)|(H1 & H2 & H3 & ->)]; [by left|right]. assert (p <> dv g) by (intros ->; by rewrite lookup_insert_eq in Hn).
  split_and!; [done|by rewrite lookup_insert_ne|done|]. simpl. by rewrite insert_insert_ne.
Qed.

Lemma small_insert_chunk p s : is_small s = true -> insert_chunk p s = insert_small_chunk p s.
Proof. unfold insert_chunk. by intros ->. Qed.

(** replace_dv bins the old designated victim, which is small. *)
Lemma wp_replace_dv g FR p s : good g p s -> is_small (dvsize g) = true ->
  frees g FR -∗ free_chunk p s -∗ wp (replace_dv p s) (fun _ g' => ⌜free_only g g'⌝ ∗ frees g' (<[p := s]> FR)) g.
Proof.
  iIntros (Hg Hsm) "Hf Hp". iAssert ⌜FR !! p = None⌝%I as %Hn. { iDestruct "Hp" as "(Hh & _)". iApply (frees_fresh with "Hf Hh"). }
  iDestruct "Hf" as "(%F & %Hdv & Hb & Hd)". unfold replace_dv. wget. pose proof Hg as (_ & _ & _ & _ & Hs & _). destruct (Z.eqb_spec (dvsize g) 0) as [E|E].
  - wret. wset. iApply wp_setr. iSplit; [iPureIntro; apply free_only_dv|]. destruct Hdv as [(H1 & H2 & ->)|(H1 & _)]; [|lia].
    iExists F. simpl. rewrite (proj2 (Z.eqb_neq s 0)); [|lia]. iFrame. iSplit; [iPureIntro; right; simpl; split_and!; [lia|done..]|].
    iApply (bins_state with "Hb"); done.
  - destruct Hdv as [(H1 & _)|(H1 & H2 & H3 & ->)]; [done|]. wget. rewrite -small_insert_chunk //. wbind. iApply (wp_wand with "[Hb Hd]").
    { by iApply (wp_insert_chunk with "Hb Hd"). }
    iIntros (_ g') "((%Hm & _) & Hb)". wset. iApply wp_setr. iSplit; [iPureIntro; eapply free_only_trans; [by apply maps_free_only|apply free_only_dv]|].
    pose proof Hm as (m1 & m2 & ->). iExists (<[dv g := dvsize g]> F). simpl. rewrite (proj2 (Z.eqb_neq s 0)); [|lia]. iFrame.
    iSplit; [iPureIntro; right; simpl; split_and!; [lia|done..]|]. iApply (bins_state with "Hb"); done.
Qed.

Lemma wp_free_take_first g FR i {A} (k : Z -> HM A) Φ : 0 <= i < 32 -> Z.testbit (smallmap g) i = true ->
  frees g FR -∗
  (∀ (p : Z) (g' : mstate), ⌜maps_only g g' /\ FR !! p = Some (8 * i)%Z⌝ -∗ frees g' (delete p FR) -∗ free_chunk p (8 * i) -∗ wp (k p) Φ g') -∗
  wp (p ← ld (fd (smallbin_at i)); unlink_first_small_chunk (smallbin_at i) p i;; k p) Φ g.
Proof.
  iIntros (Hi Hbit) "(%F & %Hdv & Hb & Hd) HΦ". iApply (wp_take_first with "Hb"); [done..|]. iIntros (p g') "(%Hm & %Hp) Hb Hc".
  assert (dvsize g = 0 \/ p <> dv g) as Hne. { destruct Hdv as [(? & _)|(_ & Hn & _)]; [by left|right]. by intros ->; rewrite Hn in Hp. }
  pose proof Hm as (m1 & m2 & ->). iApply ("HΦ" with "[] [Hb Hd] Hc").
  - iPureIntro. split; [done|]. destruct Hdv as [(_ & _ & ->)|(H1 & _ & _ & ->)]; [done|]. rewrite lookup_insert_ne //. destruct Hne; [lia|done].
  - iExists (delete p F). iFrame. iPureIntro. destruct Hdv as [(H1 & H2 & ->)|(H1 & H2 & H3 & ->)]; [by left|right].
    destruct Hne as [|Hne]; [lia|]. split_and!; [done|by rewrite lookup_delete_ne|done|]. simpl. by rewrite delete_insert_ne.
Qed.
End bins.
