(* ===== verification/DlSearch.v ===== *)
(** * dlmalloc: best fit

    tmalloc_large looks for the smallest chunk of the tree bins that is large enough:
    along the path of the requested size, then down the leftmost path of the nearest
    subtrie of larger sizes.  tmalloc_small looks for the smallest chunk of all.  The
    searches are proved to find a best fit. *)

From iris.proofmode Require Import proofmode.
From S2P Require Import Prelude DlSep DlBase DlBins DlTree DlFree.

(** ** The searches *)

Section code.
Context `{Gm}.

Definition leftmost_child (t : Z) : HM Z :=
  c0 ← ld (child t 0); if negb (c0 =? 0) then mret c0 else ld (child t 1).

(** One turn of the loop along the path of [nb]. *)
Definition walk_step (nb : Z) : Z * Z * Z * Z * Z -> HM (Z * Z * Z * Z * Z + Z * Z * Z) := fun '(t, v, rsize, rst, sizebits) =>
  s ← chunksize t;
  let trem := u64 (s - nb) in
  let better := trem <? rsize in
  let v := if better then t else v in
  let rsize := if better then trem else rsize in
  if better && (rsize =? 0) then mret (inr (t, v, rsize))
  else
    rt ← ld (child t 1);
    t ← ld (child t (kbit sizebits));
    let rst := if negb (rt =? 0) && negb (rt =? t) then rt else rst in
    if t =? 0 then mret (inr (rst, v, rsize))
    else mret (inl (t, v, rsize, rst, u64 (Z.shiftl sizebits 1))).

(** One turn of the loop down the leftmost path. *)
Definition least_step (nb : Z) : Z * Z * Z -> HM (Z * Z * Z + Z * Z) := fun '(t, v, rsize) =>
  if t =? 0 then mret (inr (v, rsize))
  else
    s ← chunksize t;
    let trem := u64 (s - nb) in
    let better := trem <? rsize in
    c ← leftmost_child t;
    mret (inl (c, if better then t else v, if better then trem else rsize)).

(** The root of the next non-empty tree bin, when nothing was found. *)
Definition next_tree (idx t v : Z) : HM Z :=
  if (t =? 0) && (v =? 0) then
    tm ← getr treemap;
    let leftbits := Z.land (left_bits (idx2bit idx)) tm in
    if negb (leftbits =? 0) then ld (treebin_at (compute_bit2idx (least_bit leftbits))) else mret t
  else mret t.

(** The search of tmalloc_large: the chunk and how much of it is left over. *)
Definition tree_search (nb : Z) : HM (Z * Z) :=
  let rsize := u64 (- nb) in
  let idx := compute_tree_index nb in
  t ← ld (treebin_at idx);
  x ← (if negb (t =? 0) then
         loop DEPTH (walk_step nb) (t, 0, rsize, 0, u64 (Z.shiftl nb (leftshift_for_tree_index idx)))
       else mret (t, 0, rsize));
  let '(t, v, rsize) := x in
  t ← next_tree idx t v;
  loop DEPTH (least_step nb) (t, v, rsize).

(** The search of tmalloc_small, in a state with a tree chunk. *)
Definition tree_least (nb : Z) : HM (Z * Z) :=
  tm ← getr treemap;
  v ← ld (treebin_at (compute_bit2idx (least_bit tm)));
  s ← chunksize v;
  c ← leftmost_child v;
  loop DEPTH (least_step nb) (c, v, u64 (s - nb)).
End code.

(** ** The searches on tries *)

Fixpoint walk (nb K : Z) (t : tree) (v rs : Z) (rst : tree) : tree * Z * Z :=
  match t with
  | Leaf => (rst, v, rs)
  | Node p s ring l r =>
      let trem := u64 (s - nb) in
      let better := trem <? rs in
      let v := if better then p else v in
      let rs := if better then trem else rs in
      if better && (rs =? 0) then (t, v, rs)
      else if kbit K =? 1 then walk nb (u64 (Z.shiftl K 1)) r v rs rst
      else walk nb (u64 (Z.shiftl K 1)) l v rs (if nonleaf r then r else rst)
  end.

Fixpoint least (nb : Z) (t : tree) (v rs : Z) : Z * Z :=
  match t with
  | Leaf => (v, rs)
  | Node p s ring l r =>
      let trem := u64 (s - nb) in
      let better := trem <? rs in
      let v := if better then p else v in
      let rs := if better then trem else rs in
      if nonleaf l then least nb l v rs else least nb r v rs
  end.

(** [t] is empty or a subtrie of [t0]. *)
Definition sub (t t0 : tree) : Prop := t = Leaf \/ exists c, t0 = plug c t.

Lemma sub_refl t : sub t t.
Proof. right. by exists []. Qed.

Lemma sub_children p s ring l r t0 : sub (Node p s ring l r) t0 -> sub l t0 /\ sub r t0.
Proof.
  intros [|[c ->]]; [done|]. split; right; [exists (Frame false p s ring r :: c)|exists (Frame true p s ring l :: c)]; done.
Qed.

Lemma sub_elements t t0 e : sub t t0 -> e ∈ elements t -> e ∈ elements t0.
Proof. intros [->|[c ->]]; [intros He; by apply not_elem_of_nil in He|]. rewrite plug_elements. set_solver. Qed.

Lemma sub_good g t t0 : sub t t0 -> tree_good g t0 -> tree_good g t.
Proof. intros Hs Hg e He. apply Hg. by eapply sub_elements. Qed.

Lemma kbit_01 K : kbit K = 0 \/ kbit K = 1.
Proof.
  assert (kbit K = Z.shiftr K 63 mod 2) as ->.
  - unfold kbit. change 1 with (Z.ones 1) at 2. by rewrite Z.land_ones.
  - pose proof (Z.mod_pos_bound (Z.shiftr K 63) 2). lia.
Qed.

(** ** The loops compute these functions *)

Section refine.
Context (g : mstate) (i par : Z) (t0 : tree) (Hg : tree_good g t0).

(** Reading a node of a trie. *)
Lemma node_acc p s ring l r : sub (Node p s ring l r) t0 ->
  tmem i par t0 ⊢ head p ↦ (s + 1) ∗ child p 0 ↦ root l ∗ child p 1 ↦ root r ∗
    (head p ↦ (s + 1) -∗ child p 0 ↦ root l -∗ child p 1 ↦ root r -∗ tmem i par t0).
Proof.
  intros [|[c ->]]; [done|]. rewrite plug_mem. cbn [tmem]. iIntros "(Hc & (Hcy & ($ & Hb) & $ & $ & Hp & Hm) & Hl & Hr) Hh H0 H1". iFrame.
Qed.

Lemma children_ne p s ring l r : sub (Node p s ring l r) t0 -> tmem i par t0 ⊢ ⌜nonleaf r = true -> root r <> root l⌝.
Proof.
  iIntros ([|[c ->]]) "Ht"; [done|]. iDestruct (tmem_nodup with "Ht") as %Hnd. iPureIntro. intros Hr E.
  rewrite plug_elements fmap_app in Hnd. apply list.NoDup_app in Hnd as (Hnd & _ & _). cbn [elements] in Hnd. rewrite !fmap_app in Hnd.
  apply list.NoDup_app in Hnd as (_ & _ & Hnd). apply list.NoDup_app in Hnd as (_ & Hd & _).
  assert (tree_good g r) as Hgr. { eapply sub_good; [|exact Hg]. eapply (sub_children p s ring l r). right. by exists c. }
  destruct r as [|pr sr rr rl rr']; [done|]. destruct l as [|pl sl rl' ll lr]; simpl in E.
  - destruct (tree_good_node _ _ _ _ _ _ Hgr) as ((Hp & _) & _). lia.
  - apply (Hd pl); simpl; set_solver.
Qed.

Lemma wp_walk_trie nb t : forall fuel K v rs rst, t <> Leaf -> sub t t0 -> (depth t <= fuel)%nat ->
  tmem i par t0 -∗
  wp (loop fuel (walk_step nb) (root t, v, rs, root rst, K)) (fun x g' => ⌜g' = g /\
    let '(t1, v1, rs1) := walk nb K t v rs rst in x = (root t1, v1, rs1)⌝ ∗ tmem i par t0) g.
Proof.
  induction t as [|p s ring l IHl r IHr]; [done|]. intros fuel K v rs rst _ Hs Hf. destruct fuel as [|fuel]; [simpl in Hf; lia|].
  destruct (sub_children _ _ _ _ _ _ Hs) as [Hsl Hsr]. pose proof (sub_good g _ _ Hs Hg) as Hgn.
  destruct (tree_good_node _ _ _ _ _ _ Hgn) as (Hp & _ & Hgl & Hgr). cbn [depth] in Hf. iIntros "Ht".
  iDestruct (children_ne with "Ht") as %Hne; [done|]. iDestruct (node_acc with "Ht") as "(Hh & H0 & H1 & Ht)"; [done|].
  iApply wp_loop. unfold walk_step at 1. cbn [root walk]. wbind. iApply (wp_chunksize g p s with "Hh"); [done|]. iIntros "Hh".
  set (better := u64 (s - nb) <? rs). set (v' := if better then p else v). set (rs' := if better then u64 (s - nb) else rs).
  destruct (better && (rs' =? 0)); [wret; iSplit; [done|]; iApply ("Ht" with "Hh H0 H1")|].
  wld "H1". destruct (kbit_01 K) as [->| ->]; cbn [Z.eqb Pos.eqb].
  - wld "H0". iDestruct ("Ht" with "Hh H0 H1") as "Ht". rewrite !(good_root g) // negb_involutive.
    assert ((if nonleaf r && negb (root r =? root l) then root r else root rst) = root (if nonleaf r then r else rst)) as ->.
    { destruct (nonleaf r) eqn:Er; [|done]. rewrite (proj2 (Z.eqb_neq _ _)); [done|by apply Hne]. }
    destruct l as [|pl sl rl ll lr] eqn:El; wret; [by iFrame|]. iApply (IHl fuel _ v' rs' (if nonleaf r then r else rst) with "Ht"); [done..|lia].
  - wld "H1". iDestruct ("Ht" with "Hh H0 H1") as "Ht". rewrite !(good_root g) // Z.eqb_refl andb_false_r.
    destruct r as [|pr sr rr rl rr'] eqn:Er; wret; [by iFrame|]. iApply (IHr fuel _ v' rs' rst with "Ht"); [done..|lia].
Qed.

Lemma wp_leftmost p s ring l r Φ : sub (Node p s ring l r) t0 ->
  tmem i par t0 -∗ (tmem i par t0 -∗ Φ (root (if nonleaf l then l else r)) g) -∗ wp (leftmost_child p) Φ g.
Proof.
  iIntros (Hs) "Ht HΦ". pose proof (sub_good g _ _ Hs Hg) as Hgn. destruct (tree_good_node _ _ _ _ _ _ Hgn) as (Hp & _ & Hgl & Hgr).
  iDestruct (node_acc with "Ht") as "(Hh & H0 & H1 & Ht)"; [done|]. unfold leftmost_child. wld "H0". rewrite (good_root g) // negb_involutive.
  destruct (nonleaf l); [wret|iApply (wp_ld with "H1"); iIntros "H1"]; iApply "HΦ"; iApply ("Ht" with "Hh H0 H1").
Qed.

Lemma wp_least nb t : forall fuel v rs, sub t t0 -> (depth t < fuel)%nat ->
  tmem i par t0 -∗
  wp (loop fuel (least_step nb) (root t, v, rs)) (fun x g' => ⌜g' = g /\ x = least nb t v rs⌝ ∗ tmem i par t0) g.
Proof.
  induction t as [|p s ring l IHl r IHr]; intros fuel v rs Hs Hf; (destruct fuel as [|fuel]; [lia|]); iIntros "Ht"; iApply wp_loop; unfold least_step at 1.
  { cbn [root]. wret. by iFrame. }
  destruct (sub_children _ _ _ _ _ _ Hs) as [Hsl Hsr]. pose proof (sub_good g _ _ Hs Hg) as Hgn.
  destruct (tree_good_node _ _ _ _ _ _ Hgn) as (Hp & _). cbn [depth] in Hf. rewrite (good_root g) //. cbn [nonleaf root].
  iDestruct (node_acc with "Ht") as "(Hh & H0 & H1 & Ht)"; [done|]. wbind. iApply (wp_chunksize g p s with "Hh"); [done|]. iIntros "Hh".
  iDestruct ("Ht" with "Hh H0 H1") as "Ht". wbind. iApply (wp_leftmost with "Ht"); [done|]. iIntros "Ht". wret. cbn [least].
  destruct (nonleaf l); [iApply (IHl with "Ht")|iApply (IHr with "Ht")]; first [done|lia].
Qed.
End refine.

(** ** The searches find a best fit *)

Lemma walk_sub nb t0 t : forall K v rs rst, sub t t0 -> sub rst t0 ->
  sub (walk nb K t v rs rst).1.1 t0.
Proof.
  induction t as [|p s ring l IHl r IHr]; intros K v rs rst Hs Hr; [done|]. cbn [walk]. destruct (_ && _); [done|].
  destruct (sub_children _ _ _ _ _ _ Hs) as [Hsl Hsr]. destruct (_ =? _); [by apply IHr|apply IHl; [done|by destruct (nonleaf r)]].
Qed.

(** What is left over of a chunk; sizes that do not fit leave more than any that does. *)
Lemma trem_fit s nb : nb <= s -> 0 <= s - nb < 2 ^ 64 -> u64 (s - nb) = s - nb.
Proof. intros H1 H2. apply uwrap_id. unfold in_u. lia. Qed.

Lemma trem_nofit s nb : 0 <= s < nb -> nb < 2 ^ 64 -> u64 (- nb) <= u64 (s - nb).
Proof.
  intros H1 H2. assert (forall z, - 2 ^ 64 <= z < 0 -> u64 z = z + 2 ^ 64) as Hz.
  { intros z Hz. unfold uwrap. symmetry. apply (Z.mod_unique _ _ (-1)); lia. }
  rewrite !Hz; lia.
Qed.

(** The size of a chunk of a trie. *)
Definition sized (t : tree) : Prop := forall e, e ∈ elements t -> 0 <= e.2 < 2 ^ 63.

Lemma sized_node p s ring l r : sized (Node p s ring l r) -> 0 <= s < 2 ^ 63 /\ sized l /\ sized r.
Proof.
  intros Hs. split; [apply (Hs (p, s)); simpl; set_solver|]. split; intros e He; apply Hs; cbn [elements]; set_solver.
Qed.

Lemma elem_node e p s ring l r : e ∈ elements (Node p s ring l r) -> e.2 = s \/ e ∈ elements l \/ e ∈ elements r.
Proof.
  cbn [elements]. rewrite !elem_of_app. intros [He|He]; [|naive_solver]. left.
  by apply list_elem_of_fmap in He as (q & -> & _).
Qed.

Lemma head_elem p s ring l r : (p, s) ∈ elements (Node p s ring l r).
Proof. simpl. set_solver. Qed.

Lemma u64_range z : 0 <= u64 z < 2 ^ 64.
Proof. apply uwrap_range. lia. Qed.

Section best.
Context (nb : Z) (Hnb : 0 < nb < 2 ^ 64).

(** A trie without a fit changes nothing. *)
Lemma walk_nofit t : forall K v rst, sized t -> (forall e, e ∈ elements t -> e.2 < nb) ->
  walk nb K t v (u64 (- nb)) rst = ((walk nb K t v (u64 (- nb)) rst).1.1, v, u64 (- nb)).
Proof.
  induction t as [|p s ring l IHl r IHr]; intros K v rst Hs Hn; [done|]. destruct (sized_node _ _ _ _ _ Hs) as (Hs0 & Hsl & Hsr).
  pose proof (Hn _ (head_elem p s ring l r)) as Hp. simpl in Hp. cbn [walk].
  rewrite (proj2 (Z.ltb_ge (u64 (s - nb)) _)); [|by apply trem_nofit; lia]. cbn [andb].
  destruct (_ =? _); [apply IHr|apply IHl]; try done; intros e He; apply Hn; cbn [elements]; set_solver.
Qed.

Lemma least_nofit t : forall v, sized t -> (forall e, e ∈ elements t -> e.2 < nb) -> least nb t v (u64 (- nb)) = (v, u64 (- nb)).
Proof.
  induction t as [|p s ring l IHl r IHr]; intros v Hs Hn; [done|]. destruct (sized_node _ _ _ _ _ Hs) as (Hs0 & Hsl & Hsr).
  pose proof (Hn _ (head_elem p s ring l r)) as Hp. simpl in Hp. cbn [least].
  rewrite (proj2 (Z.ltb_ge (u64 (s - nb)) _)); [|by apply trem_nofit; lia].
  destruct (nonleaf l); [apply IHl|apply IHr]; try done; intros e He; apply Hn; cbn [elements]; set_solver.
Qed.

(** Nothing is better than an exact fit. *)
Lemma least_zero t v : least nb t v 0 = (v, 0).
Proof.
  revert v. induction t as [|p s ring l IHl r IHr]; intros v; [done|]. cbn [least].
  rewrite (proj2 (Z.ltb_ge (u64 (s - nb)) 0)); [|apply u64_range]. destruct (nonleaf l); auto.
Qed.

(** The leftmost path of a trie of fits meets the smallest. *)
Lemma least_spec t : forall lo k v rs, wf lo k t -> sized t -> (forall e, e ∈ elements t -> nb <= e.2) -> 0 <= rs ->
  let '(v', rs') := least nb t v rs in
  0 <= rs' <= rs /\ (forall e, e ∈ elements t -> rs' <= e.2 - nb) /\ ((v', rs') = (v, rs) \/ (v', nb + rs') ∈ elements t).
Proof.
  induction t as [|p s ring l IHl r IHr]; intros lo k v rs Hw Hs Hfit Hrs.
  { cbn [least]. split; [lia|]. split; [|by left]. intros e He. by apply not_elem_of_nil in He. }
  destruct (sized_node _ _ _ _ _ Hs) as (Hs0 & Hsl & Hsr). pose proof Hw as (Hr0 & _ & _ & Hwl & Hwr).
  pose proof (Hfit _ (head_elem p s ring l r)) as Hp. simpl in Hp. cbn [least]. rewrite trem_fit //; [|lia].
  set (better := s - nb <? rs). set (v1 := if better then p else v). set (rs1 := if better then s - nb else rs).
  assert (rs1 <= rs /\ rs1 <= s - nb /\ 0 <= rs1 /\ ((v1, rs1) = (v, rs) \/ (v1, nb + rs1) = (p, s))) as (H1 & H2 & H3 & H4).
  { subst better v1 rs1. destruct (Z.ltb_spec (s - nb) rs); split_and!; try lia; [right; f_equal; lia|by left]. }
  assert (forall t', (forall e, e ∈ elements t' -> e ∈ elements (Node p s ring l r)) ->
    (let '(v', rs') := least nb t' v1 rs1 in 0 <= rs' <= rs1 /\ (forall e, e ∈ elements t' -> rs' <= e.2 - nb) /\ ((v', rs') = (v1, rs1) \/ (v', nb + rs') ∈ elements t')) ->
    (forall e, e ∈ elements (Node p s ring l r) -> e.2 = s \/ e ∈ elements t' \/ exists e', e' ∈ elements t' /\ e'.2 <= e.2) ->
    let '(v', rs') := least nb t' v1 rs1 in
    0 <= rs' <= rs /\ (forall e, e ∈ elements (Node p s ring l r) -> rs' <= e.2 - nb) /\ ((v', rs') = (v, rs) \/ (v', nb + rs') ∈ elements (Node p s ring l r))) as Hstep.
  { intros t' Hsub. destruct (least nb t' v1 rs1) as [v' rs']. intros (Ha & Hb & Hc) Hcov. split_and!; [lia|lia| |].
    - intros e He. destruct (Hcov e He) as [E|[E|(e' & E & Hle)]]; [lia|by apply Hb|]. pose proof (Hb e' E). lia.
    - destruct Hc as [[= -> ->]|Hc]; [|by right; apply Hsub]. destruct H4 as [H4|H4]; [by left|right]. rewrite H4. apply head_elem. }
  destruct (nonleaf l) eqn:El.
  - apply Hstep; [intros e He; cbn [elements]; set_solver| |].
    + apply (IHl lo (k - 1)); [done|done| |done]. intros e He. apply Hfit. cbn [elements]. set_solver.
    + intros e [E|[E|E]]%elem_node; [by left|by right; left|]. right. right. destruct l as [|pl sl rl ll lr]; [done|].
      exists (pl, sl). split; [apply head_elem|]. destruct Hwl as (Hl & _). assert (e.2 ∈ sizes r) as Her by (apply list_elem_of_fmap; by exists e).
      pose proof (wf_sizes _ _ _ _ Hwr Her). simpl. lia.
  - destruct l; [|done]. apply Hstep; [intros e He; cbn [elements]; set_solver| |].
    + apply (IHr (lo + 2 ^ (k - 1)) (k - 1)); [done|done| |done]. intros e He. apply Hfit. cbn [elements]. set_solver.
    + intros e [E|[E|E]]%elem_node; [by left|by apply not_elem_of_nil in E|by right; left].
Qed.

(** [e] is no better than what was found, or than something in [t1]. *)
Definition covered (t1 : tree) (rs : Z) (e : Z * Z) : Prop := rs <= e.2 - nb \/ exists e', e' ∈ elements t1 /\ e'.2 <= e.2.

Lemma covered_le t1 rs e e' : covered t1 rs e -> e.2 <= e'.2 -> covered t1 rs e'.
Proof. intros [H|(x & Hx & Hle)] Hee; [left; lia|right; exists x; split; [done|lia]]. Qed.

(** Looking at a node. *)
Lemma visit (p s v rs : Z) : 0 <= s < 2 ^ 63 -> 0 < rs <= u64 (- nb) ->
  let better := u64 (s - nb) <? rs in
  let v' := if better then p else v in
  let rs' := if better then u64 (s - nb) else rs in
  0 <= rs' <= rs /\ ((v', rs') = (v, rs) \/ (v', nb + rs') = (p, s)) /\ (nb <= s -> rs' <= s - nb) /\
  (if better && (rs' =? 0) then rs' = 0 else 0 < rs' /\ s <> nb).
Proof.
  intros Hs Hrs better v' rs'. subst better v' rs'. destruct (decide (nb <= s)) as [Hf|Hf].
  - rewrite trem_fit //; [|lia]. destruct (Z.ltb_spec (s - nb) rs); cbn [andb]; [|split_and!; try lia; by left].
    split_and!; try lia; [right; f_equal; lia|]. destruct (Z.eqb_spec (s - nb) 0); lia.
  - pose proof (trem_nofit s nb ltac:(lia) ltac:(lia)). rewrite (proj2 (Z.ltb_ge _ _)); [|lia]. cbn [andb].
    split_and!; try lia. by left.
Qed.

Lemma walk_spec t : forall lo k v rs rst, wf lo k t -> sized t -> lo <= nb < lo + 2 ^ k -> 0 <= lo -> lo mod 2 ^ k = 0 -> k <= 64 ->
  (forall e, e ∈ elements rst -> lo + 2 ^ k <= e.2) -> 0 < rs <= u64 (- nb) ->
  let '(t1, v1, rs1) := walk nb (u64 (Z.shiftl nb (64 - k))) t v rs rst in
  0 <= rs1 <= rs /\ ((v1, rs1) = (v, rs) \/ (v1, nb + rs1) ∈ elements t) /\
  (rs1 = 0 \/ (forall e, e ∈ elements t1 -> nb <= e.2) /\
     forall e, e ∈ elements t \/ e ∈ elements rst -> nb <= e.2 -> covered t1 rs1 e).
Proof.
  induction t as [|p s ring l IHl r IHr]; intros lo k v rs rst Hw Hs Hr Hlo Hal Hk Hrst Hrs.
  { cbn [walk]. split; [lia|]. split; [by left|]. right. split; [intros e He; specialize (Hrst e He); lia|].
    intros e [He|He] _; [by apply not_elem_of_nil in He|]. right. by exists e. }
  destruct (sized_node _ _ _ _ _ Hs) as (Hs0 & Hsl & Hsr). pose proof Hw as (Hr0 & _ & _ & Hwl & Hwr). cbn [walk].
  destruct (visit p s v rs Hs0 Hrs) as (H1 & H2 & H3 & H4). revert H1 H2 H3 H4. set (better := u64 (s - nb) <? rs).
  set (v' := if better then p else v). set (rs' := if better then u64 (s - nb) else rs). intros H1 H2 H3 H4.
  destruct (better && (rs' =? 0)).
  { split; [lia|]. split; [|by left]. destruct H2 as [H2|H2]; [by left|right]. rewrite H2. apply head_elem. }
  destruct H4 as [H4 Hne]. assert (1 <= k) as Hk1.
  { destruct (decide (1 <= k)); [done|]. assert (2 ^ k <= 2 ^ 0) by (apply Z.pow_le_mono_r; lia). lia. }
  rewrite kbit_shift // (testbit_range nb lo k) // shift_next //. destruct (half_aligned lo k Hk1 Hal) as [Ha1 Ha2].
  pose proof (pow2_half k ltac:(lia)) as Hp2. assert (forall e, e ∈ elements r -> lo + 2 ^ (k - 1) <= e.2 < lo + 2 ^ k) as Her.
  { intros e He. assert (e.2 ∈ sizes r) as He' by (apply list_elem_of_fmap; by exists e). pose proof (wf_sizes _ _ _ _ Hwr He'). lia. }
  assert (forall e, e ∈ elements l -> e.2 < lo + 2 ^ (k - 1)) as Hel.
  { intros e He. assert (e.2 ∈ sizes l) as He' by (apply list_elem_of_fmap; by exists e). pose proof (wf_sizes _ _ _ _ Hwl He'). lia. }
  assert (forall v1 rs1 t', (v1, rs1) = (v', rs') \/ (v1, nb + rs1) ∈ elements t' -> (forall e, e ∈ elements t' -> e ∈ elements (Node p s ring l r)) ->
    (v1, rs1) = (v, rs) \/ (v1, nb + rs1) ∈ elements (Node p s ring l r)) as Hfound.
  { intros v1 rs1 t' [[= -> ->]|Hin] Hsub; [|right; by apply Hsub]. destruct H2 as [H2|H2]; [by left|right]. rewrite H2. apply head_elem. }
  case_bool_decide as Hb; cbn [Z.b2z Z.eqb Pos.eqb].
  - specialize (IHr (lo + 2 ^ (k - 1)) (k - 1) v' rs' rst Hwr Hsr ltac:(lia) ltac:(lia) Ha2 ltac:(lia)).
    specialize (IHr ltac:(intros e He; specialize (Hrst e He); lia) ltac:(lia)). destruct (walk _ _ r _ _ _) as [[t1 v1] rs1].
    destruct IHr as (Hi1 & Hi2 & Hi3). split; [lia|]. split; [apply (Hfound _ _ r); [done|intros e He; cbn [elements]; set_solver]|].
    destruct Hi3 as [|[Hi3 Hi4]]; [by left|right]. split; [done|]. intros e [[E|[E|E]]%elem_node|E] Hf.
    + left. rewrite E in Hf |- *. specialize (H3 Hf). lia.
    + specialize (Hel e E). lia.
    + apply Hi4; auto.
    + apply Hi4; auto.
  - set (rst' := if nonleaf r then r else rst). assert (forall e, e ∈ elements rst' -> lo + 2 ^ (k - 1) <= e.2) as Hrst'.
    { intros e. subst rst'. destruct (nonleaf r); intros He; [by apply Her|]. specialize (Hrst e He). lia. }
    specialize (IHl lo (k - 1) v' rs' rst' Hwl Hsl ltac:(lia) ltac:(lia) Ha1 ltac:(lia) Hrst' ltac:(lia)).
    destruct (walk _ _ l _ _ _) as [[t1 v1] rs1].
    destruct IHl as (Hi1 & Hi2 & Hi3). split; [lia|]. split; [apply (Hfound _ _ l); [done|intros e He; cbn [elements]; set_solver]|].
    destruct Hi3 as [|[Hi3 Hi4]]; [by left|right]. split; [done|]. intros e [[E|[E|E]]%elem_node|E] Hf.
    + left. rewrite E in Hf |- *. specialize (H3 Hf). lia.
    + apply Hi4; auto.
    + apply Hi4; [|done]. right. subst rst'. destruct r; [by apply not_elem_of_nil in E|done].
    + destruct r as [|pr sr rr rl rr'].
      * apply Hi4; [by right|done].
      * apply (covered_le _ _ (pr, sr)).
        -- apply Hi4; [right; apply head_elem|]. pose proof (Her _ (head_elem pr sr rr rl rr')) as Hpr. cbn [snd] in Hpr |- *. lia.
        -- pose proof (Her _ (head_elem pr sr rr rl rr')) as Hpr. specialize (Hrst e E). cbn [snd] in Hpr |- *. lia.
Qed.
End best.

(** ** The search over the bins *)

(** A best fit among [E] for [nb]: [v] with [rs] bytes left over, or none. *)
Definition best_fit (nb : Z) (E : list (Z * Z)) (v rs : Z) : Prop :=
  (v = 0 /\ rs = u64 (- nb) /\ forall e, e ∈ E -> e.2 < nb) \/
  (0 < v /\ 0 <= rs /\ (v, nb + rs) ∈ E /\ forall e, e ∈ E -> nb <= e.2 -> nb + rs <= e.2).

(** What the bins of a state have in common. *)
Definition trees_ok (g : mstate) (TL : list tree) : Prop :=
  length TL = 32%nat /\ in_u 32 (treemap g) /\ forall i t, TL !! i = Some t -> tree_ok g (Z.of_nat i) t.

Lemma bins_trees_ok `{Gm} g SL TL F : bins_ok g SL TL F -> trees_ok g TL.
Proof. intros []. by split_and!. Qed.

Lemma tree_ok_sized g i t : tree_ok g i t -> sized t.
Proof. intros (_ & _ & Hg & _) e He. destruct (Hg e He) as (_ & _ & _ & _ & Hs & _). lia. Qed.

Lemma tree_ok_depth g i t : 0 <= i < 32 -> tree_ok g i t -> (depth t < DEPTH)%nat.
Proof. intros Hi (_ & Hw & _). pose proof (wf_depth _ _ _ Hw). pose proof (tree_bits_range i Hi). unfold DEPTH. lia. Qed.

Lemma sub_wf lo k t t0 : wf lo k t0 -> sub t t0 -> exists lo' k', wf lo' k' t.
Proof. intros Hw [->|[c ->]]; [by exists 0, 0|]. destruct (wf_plug c _ _ _ Hw) as (lo' & k' & Hw' & _). eauto. Qed.

Lemma sub_sized t t0 : sized t0 -> sub t t0 -> sized t.
Proof. intros Hs Hsub e He. apply Hs. by eapply sub_elements. Qed.

Lemma sub_depth t t0 : sub t t0 -> (depth t <= depth t0)%nat.
Proof.
  intros [->|[c ->]]; [simpl; lia|]. revert t. induction c as [|f c IH]; intros t; [done|]. cbn [plug]. etrans; [|apply IH].
  unfold fill. destruct (dir f); simpl; lia.
Qed.

Lemma compute_tree_index_range s : 0 <= compute_tree_index s < 32.
Proof.
  unfold compute_tree_index. set (X := u32 _). pose proof (uwrap_range 32 (Z.shiftr s TREEBIN_SHIFT) ltac:(lia)) as HX. fold X in HX. unfold in_u in HX.
  destruct (Z.eqb_spec X 0); [lia|]. destruct (Z.ltb_spec 65535 X); [unfold NTREEBINS; lia|].
  unfold clz. replace (31 - (31 - Z.log2 X)) with (Z.log2 X) by lia. rewrite Z.shiftl_mul_pow2 //.
  assert (0 <= Z.log2 X < 16). { split; [apply Z.log2_nonneg|]. apply Z.log2_lt_pow2; lia. }
  change 1 with (Z.ones 1) at 3 5. rewrite Z.land_ones //. change (2 ^ 1) with 2.
  pose proof (Z.mod_pos_bound (Z.shiftr s (Z.log2 X + (TREEBIN_SHIFT - 1))) 2). lia.
Qed.

(** The search in one bin. *)
Lemma bin_search nb g t : let i := compute_tree_index nb in 256 <= nb < 2 ^ 40 -> tree_ok g i t ->
  let '(t1, v1, rs1) := walk nb (u64 (Z.shiftl nb (64 - tree_bits i))) t 0 (u64 (- nb)) Leaf in
  (v1 = 0 -> t1 = Leaf -> rs1 = u64 (- nb) /\ forall e, e ∈ elements t -> e.2 < nb) /\
  (v1 <> 0 \/ t1 <> Leaf -> let '(v, rs) := least nb t1 v1 rs1 in best_fit nb (elements t) v rs /\ v <> 0).
Proof.
  intros i Hnb Hok. pose proof (tree_ok_sized _ _ _ Hok) as Hs. destruct Hok as (_ & Hw & Hg & Hidx).
  destruct (compute_tree_index_spec nb Hnb) as (Hi & _). fold i in Hi. pose proof (tree_range nb Hnb) as Hr. fold i in Hr.
  assert (u64 (- nb) = 2 ^ 64 - nb) as Eneg by (unfold uwrap; symmetry; apply (Z.mod_unique _ _ (-1)); lia).
  pose proof (walk_spec nb ltac:(lia) t (tree_lo i) (tree_bits i) 0 (u64 (- nb)) Leaf Hw Hs Hr (tree_lo_nonneg i Hi) (tree_lo_aligned i Hi)) as Hwalk.
  specialize (Hwalk (proj2 (tree_bits_range i Hi)) ltac:(intros e He; by apply not_elem_of_nil in He) ltac:(lia)).
  pose proof (walk_sub nb t t (u64 (Z.shiftl nb (64 - tree_bits i))) 0 (u64 (- nb)) Leaf (sub_refl t) ltac:(by left)) as Hsub.
  destruct (walk _ _ t _ _ _) as [[t1 v1] rs1]. cbn [fst] in Hsub. destruct Hwalk as (H1 & H2 & H3).
  assert (forall v s, (v, s) ∈ elements t -> 0 < v /\ s < 2 ^ 40) as Hpos.
  { intros v s He. destruct (Hg _ He) as (Hv & _ & _ & _ & Hsz & _). simpl in *. lia. }
  split.
  - intros -> ->. destruct H2 as [[= ->]|He]; [|apply Hpos in He; lia]. split; [done|]. intros e He.
    destruct (Z.lt_ge_cases e.2 nb) as [|Hge]; [done|]. destruct H3 as [|[_ H3]]; [lia|]. destruct (H3 e (or_introl He) Hge) as [Hc|(e' & He' & _)].
    + destruct e as [pe se]. apply Hpos in He. simpl in *. lia.
    + by apply not_elem_of_nil in He'.
  - intros Hv. destruct (decide (rs1 = 0)) as [->|Hrs].
    + rewrite least_zero. destruct H2 as [H2|He]; [apply (f_equal snd) in H2; cbn [snd] in H2; lia|]. rewrite Z.add_0_r in He. pose proof (Hpos _ _ He). split; [|lia].
      right. split_and!; try lia. by rewrite Z.add_0_r.
    + destruct H3 as [|[H3 H4]]; [done|]. destruct (sub_wf _ _ _ _ Hw Hsub) as (lo' & k' & Hw1).
      pose proof (least_spec nb ltac:(lia) t1 lo' k' v1 rs1 Hw1 (sub_sized _ _ Hs Hsub) H3 ltac:(lia)) as Hl.
      destruct (least nb t1 v1 rs1) as [v rs]. destruct Hl as (Hl1 & Hl2 & Hl3).
      assert ((v, nb + rs) ∈ elements t) as Hin.
      { destruct Hl3 as [[= -> ->]|Hl3]; [|by eapply sub_elements]. destruct H2 as [[= -> ->]|H2]; [|done].
        destruct Hv as [|Hv]; [done|]. destruct t1 as [|p s ring l r]; [done|]. exfalso.
        pose proof (Hl2 _ (head_elem p s ring l r)) as Hc. pose proof (sub_elements _ _ _ Hsub (head_elem p s ring l r)) as He.
        apply Hpos in He. simpl in *. lia. }
      pose proof (Hpos _ _ Hin). split; [|lia]. right. split_and!; try done; try lia.
      intros e He Hf. destruct (H4 e (or_introl He) Hf) as [Hc|(e' & He' & Hc)]; [lia|]. specialize (Hl2 e' He'). lia.
Qed.

(** The chunks of a bin are smaller than those of a later one. *)
Lemma bins_ordered g i j t u e e' : tree_ok g i t -> tree_ok g j u -> i < j -> e ∈ elements t -> e' ∈ elements u -> e.2 < e'.2.
Proof.
  intros (_ & _ & Hg1 & H1) (_ & _ & Hg2 & H2) Hij He He'. destruct (H1 e He) as [Ha Hi]. destruct (H2 e' He') as [Hb Hj].
  destruct (Hg1 e He) as (_ & _ & _ & _ & Hs & _). destruct (Z.lt_ge_cases e.2 e'.2) as [|Hge]; [done|].
  pose proof (compute_tree_index_mono e'.2 e.2 ltac:(lia) ltac:(lia)). lia.
Qed.

(** The same, against a request. *)
Lemma bin_below g i t nb e : 256 <= nb < 2 ^ 40 -> tree_ok g i t -> i < compute_tree_index nb -> e ∈ elements t -> e.2 < nb.
Proof.
  intros Hnb (_ & _ & Hg & H1) Hij He. destruct (H1 e He) as [Ha Hi]. destruct (Hg e He) as (_ & _ & _ & _ & Hs & _).
  destruct (Z.lt_ge_cases e.2 nb) as [|Hge]; [done|]. pose proof (compute_tree_index_mono nb e.2 ltac:(lia) ltac:(lia)). lia.
Qed.

Lemma bin_above g i t nb e : 256 <= nb < 2 ^ 40 -> tree_ok g i t -> compute_tree_index nb < i -> e ∈ elements t -> nb < e.2.
Proof.
  intros Hnb (_ & _ & Hg & H1) Hij He. destruct (H1 e He) as [Ha Hi].
  destruct (Z.lt_ge_cases nb e.2) as [|Hge]; [done|]. pose proof (compute_tree_index_mono e.2 nb ltac:(lia) ltac:(lia)). lia.
Qed.

Lemma tlist_elem TL i t e : TL !! i = Some t -> e ∈ elements t -> e ∈ tlist TL.
Proof. intros Ht He. destruct (concat_focus elements TL i t Ht) as (r & HP & _). unfold tlist. rewrite HP. set_solver. Qed.

(** A best fit of the bin of the request, if it has a fit, is one of all bins. *)
Lemma best_here nb g TL (n : nat) t v rs : trees_ok g TL -> 256 <= nb < 2 ^ 40 -> compute_tree_index nb = n -> TL !! n = Some t -> v <> 0 ->
  best_fit nb (elements t) v rs -> best_fit nb (tlist TL) v rs.
Proof.
  intros (Hlen & _ & Hok) Hnb Hn Ht Hv [[? _]|(Hv0 & Hrs & Hin & Hmin)]; [done|]. right. split_and!; try done; [by eapply tlist_elem|].
  intros e (j & u & Hu & He)%elem_of_tlist Hf. destruct (decide (j = n)) as [->|Hne]; [simplify_eq; by apply Hmin|].
  destruct (decide (j < n)%nat) as [Hlt|Hlt].
  - pose proof (bin_below g j u nb e Hnb (Hok _ _ Hu) ltac:(lia) He). lia.
  - pose proof (bins_ordered g n j t u (v, nb + rs) e (Hok _ _ Ht) (Hok _ _ Hu) ltac:(lia) Hin He) as Hlt'. cbn [snd] in Hlt'. lia.
Qed.

(** The smallest chunk of a bin is a best fit of all, if no earlier bin has a fit. *)
Lemma best_next nb g TL (n : nat) t : trees_ok g TL -> 0 < nb < 2 ^ 40 -> TL !! n = Some t -> t <> Leaf -> (forall e, e ∈ elements t -> nb <= e.2) ->
  (forall j u e, (j < n)%nat -> TL !! j = Some u -> e ∈ elements u -> e.2 < nb) ->
  let '(v, rs) := least nb t 0 (u64 (- nb)) in best_fit nb (tlist TL) v rs /\ v <> 0.
Proof.
  intros (Hlen & _ & Hok) Hnb Ht Hnl Hfit Hlow. pose proof (Hok _ _ Ht) as Htok. pose proof (tree_ok_sized _ _ _ Htok) as Hs.
  destruct Htok as (_ & Hw & Hg & _). pose proof (least_spec nb ltac:(lia) t _ _ 0 (u64 (- nb)) Hw Hs Hfit ltac:(apply u64_range)) as Hl.
  destruct (least nb t 0 (u64 (- nb))) as [v rs]. destruct Hl as (Hl1 & Hl2 & Hl3).
  assert (u64 (- nb) = 2 ^ 64 - nb) as Eneg by (unfold uwrap; symmetry; apply (Z.mod_unique _ _ (-1)); lia).
  assert ((v, nb + rs) ∈ elements t) as Hin.
  { destruct Hl3 as [[= -> ->]|]; [|done]. destruct t as [|p s ring l r]; [done|]. exfalso. specialize (Hl2 _ (head_elem p s ring l r)).
    destruct (Hg _ (head_elem p s ring l r)) as (_ & _ & _ & _ & Hsz & _). simpl in Hsz, Hl2. lia. }
  destruct (Hg _ Hin) as (Hv & _). simpl in Hv. split; [|lia]. right. split_and!; [done|lia|by eapply tlist_elem|].
  intros e (j & u & Hu & He)%elem_of_tlist Hf. destruct (decide (j = n)) as [->|Hne]; [simplify_eq; specialize (Hl2 e He); lia|].
  destruct (decide (j < n)%nat) as [Hlt|Hlt]; [specialize (Hlow j u e Hlt Hu He); lia|].
  pose proof (bins_ordered g n j t u (v, nb + rs) e (Hok _ _ Ht) (Hok _ _ Hu) ltac:(lia) Hin He) as Hlt'. cbn [snd] in Hlt'. lia.
Qed.

(** ** The searches on the bins *)

Section search.
Context `{Gm} (g : mstate) (TL : list tree) (Hok : trees_ok g TL).

Definition trees : hpropI := ([∗ list] i ↦ t ∈ TL, tbin (Z.of_nat i) t)%I.

Lemma bin_exists i : 0 <= i < 32 -> exists (n : nat) t, i = Z.of_nat n /\ TL !! n = Some t /\ tree_ok g i t.
Proof.
  intros Hi. destruct Hok as (Hlen & _ & Ht). assert (exists t, TL !! Z.to_nat i = Some t) as [t E]; [apply lookup_lt_is_Some; lia|].
  exists (Z.to_nat i), t. split; [lia|]. split; [done|]. specialize (Ht _ _ E). by rewrite Z2Nat.id in Ht; [|lia].
Qed.

Lemma wp_bin_root (n : nat) t Φ : TL !! n = Some t -> trees -∗ (trees -∗ Φ (root t) g) -∗ wp (ld (treebin_at n)) Φ g.
Proof.
  iIntros (Ht) "HT HΦ". iDestruct (big_sepL_lookup_acc with "HT") as "[[Hr Ht] HT]"; [done|]. iApply (wp_ld with "Hr"). iIntros "Hr".
  iApply "HΦ". iApply "HT". iFrame.
Qed.

Lemma wp_bin_least (n : nat) t0 t nb v rs : TL !! n = Some t0 -> sub t t0 ->
  trees -∗ wp (loop DEPTH (least_step nb) (root t, v, rs)) (fun x g' => ⌜g' = g /\ x = least nb t v rs⌝ ∗ trees) g.
Proof.
  iIntros (Ht Hs) "HT". pose proof Hok as (Hlen & _ & Htok). specialize (Htok _ _ Ht). pose proof (lookup_lt_Some _ _ _ Ht).
  pose proof (tree_ok_depth g n t0 ltac:(lia) Htok). pose proof (sub_depth _ _ Hs).
  iDestruct (big_sepL_lookup_acc with "HT") as "[[Hr Ht] HT]"; [done|]. iApply (wp_wand with "[Ht]").
  - iApply (wp_least with "Ht"); [apply Htok|done|lia].
  - iIntros (x g') "[$ Ht]". iApply "HT". iFrame.
Qed.

Lemma wp_bin_walk (n : nat) t nb K : TL !! n = Some t -> t <> Leaf ->
  trees -∗ wp (loop DEPTH (walk_step nb) (root t, 0, u64 (- nb), 0, K)) (fun x g' => ⌜g' = g /\
    let '(t1, v1, rs1) := walk nb K t 0 (u64 (- nb)) Leaf in x = (root t1, v1, rs1)⌝ ∗ trees) g.
Proof.
  iIntros (Ht Hnl) "HT". pose proof Hok as (Hlen & _ & Htok). specialize (Htok _ _ Ht). pose proof (lookup_lt_Some _ _ _ Ht).
  pose proof (tree_ok_depth g n t ltac:(lia) Htok).
  iDestruct (big_sepL_lookup_acc with "HT") as "[[Hr Ht] HT]"; [done|]. iApply (wp_wand with "[Ht]").
  - iApply (wp_walk_trie g n (treebin_at n) t ltac:(apply Htok) nb t DEPTH K 0 (u64 (- nb)) Leaf with "Ht"); [done|apply sub_refl|lia].
  - iIntros (x g') "[$ Ht]". iApply "HT". iFrame.
Qed.

(** The next bin with a chunk. *)
Lemma next_bin idx : 0 <= idx < 32 -> let leftbits := Z.land (left_bits (idx2bit idx)) (treemap g) in
  (leftbits = 0 -> forall (j : nat) t, TL !! j = Some t -> idx < j -> t = Leaf) /\
  (leftbits <> 0 -> exists (n : nat) t, compute_bit2idx (least_bit leftbits) = n /\ TL !! n = Some t /\ idx < n /\ t <> Leaf /\
     forall (j : nat) u, TL !! j = Some u -> idx < j -> (j < n)%nat -> u = Leaf).
Proof.
  intros Hidx leftbits. destruct Hok as (Hlen & Hmap & Htok).
  assert (forall j : Z, 0 <= j < 32 -> Z.testbit leftbits j = (idx <? j) && Z.testbit (treemap g) j) as Hbit.
  { intros j Hj. subst leftbits. by rewrite Z.land_spec left_bits_spec. }
  assert (forall (j : nat) u, TL !! j = Some u -> idx < j -> Z.testbit leftbits j = false -> u = Leaf) as Hempty.
  { intros j u Hu Hj Hf. pose proof (lookup_lt_Some _ _ _ Hu). rewrite Hbit in Hf; [|lia]. rewrite (proj2 (Z.ltb_lt _ _)) // in Hf.
    destruct (Htok _ _ Hu) as (Hb & _). simpl in Hf. rewrite Hf in Hb. by destruct u. }
  split.
  - intros E j t Ht Hj. apply (Hempty j); [done..|]. by rewrite E Z.bits_0.
  - intros Hne. assert (in_u 32 leftbits) as Hu. { subst leftbits. rewrite Z.land_comm. by apply land_u32. }
    destruct (least_idx leftbits Hu Hne) as (Hi & Ht & Hlow). destruct (bin_exists _ Hi) as (n & t & En & HTn & Hokn). rewrite Hbit // in Ht.
    apply andb_prop in Ht as [Hlt Htb]. exists n, t. split; [done|]. split; [done|]. split; [apply Z.ltb_lt in Hlt; lia|]. split.
    + intros ->. destruct Hokn as (Hb & _). by rewrite Htb in Hb.
    + intros j u Hu' Hj Hjn. apply (Hempty j); [done..|]. apply Hlow. lia.
Qed.

Lemma elements_nofit nb e : 2 ^ 40 <= nb -> e ∈ tlist TL -> e.2 < nb.
Proof.
  intros Hnb (j & u & Hu & He)%elem_of_tlist. destruct Hok as (_ & _ & Htok). destruct (Htok _ _ Hu) as (_ & _ & Hg & _).
  destruct (Hg e He) as (_ & _ & _ & _ & Hs & _). lia.
Qed.

(** What the path of the request and the next bin leave for the last loop. *)
Definition ready (nb : Z) (t : tree) (v rs : Z) : Prop :=
  (exists (n : nat) t0, TL !! n = Some t0 /\ sub t t0) /\
  let '(v', rs') := least nb t v rs in best_fit nb (tlist TL) v' rs'.

Lemma ready_none nb t n t0 : 2 ^ 40 <= nb < 2 ^ 64 -> TL !! n = Some t0 -> sub t t0 -> ready nb t 0 (u64 (- nb)).
Proof.
  intros Hnb Ht Hs. split; [by exists n, t0|]. rewrite least_nofit; [|lia| |].
  - left. split_and!; [done..|]. intros e He. apply elements_nofit; [lia|done].
  - destruct Hok as (_ & _ & Htok). eapply sub_sized; [|done]. by eapply tree_ok_sized, Htok.
  - intros e He. apply elements_nofit; [lia|]. eapply tlist_elem; [done|]. by eapply sub_elements.
Qed.

Lemma ready_walk nb n t0 : let i := compute_tree_index nb in 256 <= nb < 2 ^ 64 -> i = Z.of_nat n -> TL !! n = Some t0 ->
  let '(t1, v1, rs1) := walk nb (u64 (Z.shiftl nb (64 - tree_bits i))) t0 0 (u64 (- nb)) Leaf in
  sub t1 t0 /\ (v1 <> 0 \/ t1 <> Leaf -> ready nb t1 v1 rs1) /\
  (v1 = 0 -> t1 = Leaf -> rs1 = u64 (- nb) /\ forall e, e ∈ elements t0 -> e.2 < nb).
Proof.
  intros i Hnb Hi Ht. pose proof Hok as (_ & _ & Htok). specialize (Htok _ _ Ht).
  pose proof (walk_sub nb t0 t0 (u64 (Z.shiftl nb (64 - tree_bits i))) 0 (u64 (- nb)) Leaf (sub_refl t0) ltac:(by left)) as Hsub.
  destruct (decide (nb < 2 ^ 40)) as [Hs|Hs].
  - pose proof (bin_search nb g t0 ltac:(lia)) as Hb. fold i in Hb. rewrite -Hi in Htok. specialize (Hb Htok).
    destruct (walk _ _ t0 _ _ _) as [[t1 v1] rs1]. cbn [fst] in Hsub. destruct Hb as [Hb1 Hb2]. split_and!; [done| |done].
    intros Hv. split; [by exists n, t0|]. specialize (Hb2 Hv). destruct (least nb t1 v1 rs1) as [v rs]. destruct Hb2 as [Hb2 Hv2].
    eapply best_here; [done|lia|exact Hi|done..].
  - assert (forall e, e ∈ elements t0 -> e.2 < nb) as Hno by (intros e He; apply elements_nofit; [lia|by eapply tlist_elem]).
    rewrite (walk_nofit nb ltac:(lia) t0); [|by eapply tree_ok_sized|done]. destruct (walk _ _ t0 _ _ _) as [[t1 v1] rs1]. cbn [fst] in Hsub |- *.
    split_and!; [done| |done]. intros _. eapply ready_none; [lia|done..].
Qed.

(** No earlier bin has a fit. *)
Lemma low_bins nb n t0 : 256 <= nb < 2 ^ 64 -> compute_tree_index nb = Z.of_nat n -> TL !! n = Some t0 -> (forall e, e ∈ elements t0 -> e.2 < nb) ->
  forall j u e, TL !! j = Some u -> e ∈ elements u -> (j <= n)%nat -> e.2 < nb.
Proof.
  intros Hnb Hn Ht Hno j u e Hu He Hj. destruct (decide (j = n)) as [->|Hne]; [simplify_eq; by apply Hno|].
  destruct (decide (nb < 2 ^ 40)); [|apply elements_nofit; [lia|by eapply tlist_elem]]. destruct Hok as (_ & _ & Hall).
  apply (bin_below g j u nb e); [lia|by apply Hall|lia|done].
Qed.

Lemma wp_next_tree nb n t0 t1 v1 rs1 : let idx := compute_tree_index nb in
  256 <= nb < 2 ^ 64 -> idx = Z.of_nat n -> TL !! n = Some t0 -> sub t1 t0 ->
  (v1 <> 0 \/ t1 <> Leaf -> ready nb t1 v1 rs1) ->
  (v1 = 0 -> t1 = Leaf -> rs1 = u64 (- nb) /\ forall e, e ∈ elements t0 -> e.2 < nb) ->
  trees -∗ wp (next_tree idx (root t1) v1) (fun x g' => ⌜g' = g /\ exists t2, x = root t2 /\ ready nb t2 v1 rs1⌝ ∗ trees) g.
Proof.
  iIntros (idx Hnb En Ht Hsub Hready Hnone) "HT". pose proof Hok as (Hlen & _ & Hall). unfold next_tree.
  rewrite (good_root g); [|eapply sub_good; [done|by apply (Hall _ _ Ht)]]. destruct (negb (nonleaf t1) && (v1 =? 0)) eqn:Ev; last first.
  { wret. iFrame. iPureIntro. split; [done|]. exists t1. split; [done|]. apply Hready.
    destruct (Z.eqb_spec v1 0); [right|by left]. by destruct t1. }
  apply andb_prop in Ev as [Ev1 Ev2%Z.eqb_eq]. destruct t1; [|done]. destruct (Hnone Ev2 eq_refl) as [-> Hno]. subst v1.
  pose proof (low_bins nb n t0 Hnb En Ht Hno) as Hlow. destruct (next_bin idx (compute_tree_index_range nb)) as [Hz Hnz].
  wget. destruct (Z.eqb_spec (Z.land (left_bits (idx2bit idx)) (treemap g)) 0) as [E|E].
  - wret. iFrame. iPureIntro. split; [done|]. exists Leaf. split; [done|]. split; [exists n, t0; split; [done|by left]|]. cbn [least].
    left. split_and!; [done..|]. intros e (j & u & Hu & He)%elem_of_tlist. destruct (decide (n < j)%nat); [|apply (Hlow j u); [done..|lia]].
    rewrite (Hz E j u Hu ltac:(lia)) in He. by apply not_elem_of_nil in He.
  - destruct (Hnz E) as (m & t & Em & Hm & Hlt & Hnl & Hbetween). cbn [negb]. rewrite Em. iApply (wp_bin_root with "HT"); [done|]. iIntros "HT". iFrame.
    iPureIntro. split; [done|]. exists t. split; [done|]. destruct (decide (nb < 2 ^ 40)) as [Hs|Hs]; [|eapply ready_none; [lia|done|apply sub_refl]].
    split; [exists m, t; split; [done|apply sub_refl]|].
    pose proof (best_next nb g TL m t Hok ltac:(lia) Hm Hnl) as Hbest. destruct (least nb t 0 (u64 (- nb))) as [v rs]. apply Hbest.
    + intros e He. apply Z.lt_le_incl, (bin_above g m t nb e); [lia|by apply Hall|unfold idx in Hlt; lia|done].
    + intros j u e Hj Hu He. destruct (decide (n < j)%nat); [|apply (Hlow j u); [done..|lia]].
      rewrite (Hbetween j u Hu ltac:(lia) Hj) in He. by apply not_elem_of_nil in He.
Qed.

(** tmalloc_large finds a best fit. *)
Lemma wp_tree_search nb : 256 <= nb < 2 ^ 64 ->
  trees -∗ wp (tree_search nb) (fun x g' => ⌜g' = g /\ best_fit nb (tlist TL) x.1 x.2⌝ ∗ trees) g.
Proof.
  iIntros (Hnb) "HT". pose proof (compute_tree_index_range nb) as Hi. unfold tree_search. set (idx := compute_tree_index nb) in *.
  destruct (bin_exists idx Hi) as (n & t0 & En & Ht & Htok). pose proof (ready_walk nb n t0 Hnb En Ht) as Hw. fold idx in Hw.
  replace (leftshift_for_tree_index idx) with (64 - tree_bits idx) by (unfold tree_bits, SIZE_T_BITSIZE; lia).
  replace (treebin_at idx) with (treebin_at n) by by rewrite En. wbind. iApply (wp_bin_root with "HT"); [done|]. iIntros "HT". rewrite (good_root g); [|apply Htok]. rewrite negb_involutive.
  iAssert (wp (if nonleaf t0 then loop DEPTH (walk_step nb) (root t0, 0, u64 (- nb), 0, u64 (nb ≪ (64 - tree_bits idx))) else mret (root t0, 0, u64 (- nb)))
    (fun x g' => ⌜g' = g /\ let '(t1, v1, rs1) := walk nb (u64 (nb ≪ (64 - tree_bits idx))) t0 0 (u64 (- nb)) Leaf in x = (root t1, v1, rs1)⌝ ∗ trees) g)%I with "[HT]" as "Hx".
  { destruct t0; cbn [nonleaf]; [wret; by iFrame|]. by iApply (wp_bin_walk with "HT"). }
  wbind. iApply (wp_wand with "Hx"). destruct (walk _ _ t0 _ _ _) as [[t1 v1] rs1]. destruct Hw as (Hsub & Hready & Hnone).
  iIntros (x g') "((-> & ->) & HT)". wbind. iApply (wp_wand with "[HT]"); [by iApply (wp_next_tree with "HT")|].
  iIntros (x g') "((-> & %t2 & -> & (%m & %t & %Hm & %Hs) & %Hbest) & HT)". wnorm.
  iApply (wp_wand with "[HT]"); [by iApply (wp_bin_least with "HT")|]. iIntros (x g') "((-> & ->) & $)". iPureIntro. split; [done|].
  by destruct (least nb t2 v1 rs1).
Qed.

(** tmalloc_small finds the smallest tree chunk. *)
Lemma wp_tree_least nb : 0 < nb < 256 -> treemap g <> 0 ->
  trees -∗ wp (tree_least nb) (fun x g' => ⌜g' = g /\ best_fit nb (tlist TL) x.1 x.2 /\ x.1 <> 0⌝ ∗ trees) g.
Proof.
  iIntros (Hnb Htm) "HT". pose proof Hok as (Hlen & Hmap & Hall). destruct (least_idx (treemap g) Hmap Htm) as (Hi & Hbit & Hlow).
  unfold tree_least. wget. set (idx := compute_bit2idx _) in *. destruct (bin_exists idx Hi) as (n & t & En & Ht & Htok).
  rewrite En. wbind. iApply (wp_bin_root with "HT"); [done|]. iIntros "HT". pose proof Htok as (Hb & Hw & Hg & H256). rewrite Hbit in Hb.
  destruct t as [|p s ring l r]; [done|]. destruct (H256 _ (head_elem p s ring l r)) as [Hs _]. cbn [snd] in Hs.
  pose proof (best_next nb g TL n (Node p s ring l r) Hok ltac:(lia) Ht ltac:(done)) as Hbest. cbn [least] in Hbest.
  pose proof (tree_ok_depth g idx _ Hi Htok) as Hd. cbn [depth] in Hd. destruct (tree_good_node _ _ _ _ _ _ Hg) as (Hp & _).
  destruct Hp as (_ & _ & _ & Hsa & Hsr & _). rewrite trem_fit in Hbest; [|lia..].
  assert (u64 (- nb) = 2 ^ 64 - nb) as Eneg by (unfold uwrap; symmetry; apply (Z.mod_unique _ _ (-1)); lia).
  rewrite (proj2 (Z.ltb_lt (s - nb) (u64 (- nb)))) in Hbest; [|lia]. cbn [root].
  iDestruct (big_sepL_lookup_acc with "HT") as "[[Hr Ht] HT]"; [done|]. iDestruct (node_acc g with "Ht") as "(Hh & H0 & H1 & Ht)"; [done|apply sub_refl|].
  wbind. iApply (wp_chunksize g p s with "Hh"); [by apply (Hg (p, s)), head_elem|]. iIntros "Hh". iDestruct ("Ht" with "Hh H0 H1") as "Ht".
  wbind. iApply (wp_leftmost g with "Ht"); [done|apply sub_refl|]. iIntros "Ht". iDestruct ("HT" with "[$Hr $Ht]") as "HT". rewrite trem_fit; [|lia..].
  destruct (sub_children p s ring l r _ (sub_refl _)) as [Hsl Hsr']. set (c := if nonleaf l then l else r).
  assert (least nb c p (s - nb) = if nonleaf l then least nb l p (s - nb) else least nb r p (s - nb)) as Ec by (subst c; by destruct (nonleaf l)).
  iApply (wp_wand with "[HT]"); [iApply (wp_bin_least _ _ c with "HT"); [done|by subst c; destruct (nonleaf l)]|].
  iIntros (x g') "((-> & ->) & $)". iPureIntro. split; [done|]. rewrite -Ec in Hbest. destruct (least nb c p (s - nb)) as [v rs]. apply Hbest.
  - intros e He. destruct (H256 e He). lia.
  - intros j u e Hj Hu He. exfalso. destruct (Hall _ _ Hu) as (Hbj & _). rewrite (Hlow j ltac:(lia)) in Hbj. destruct u; [|done]. by apply not_elem_of_nil in He.
Qed.
End search.

(** The same against the store of binned chunks. *)
Definition tree_fit (nb : Z) (F : gmap Z Z) (v rs : Z) : Prop :=
  (v = 0 /\ rs = u64 (- nb) /\ forall p s, F !! p = Some s -> 256 <= s -> s < nb) \/
  (0 < v /\ 0 <= rs /\ F !! v = Some (nb + rs) /\ 256 <= nb + rs /\ forall p s, F !! p = Some s -> 256 <= s -> nb <= s -> nb + rs <= s).

Section store.
Context `{Gm}.

Lemma tlist_store g SL TL F p s : bins_ok g SL TL F -> (p, s) ∈ tlist TL <-> F !! p = Some s /\ 256 <= s.
Proof.
  intros Hok. pose proof (bo_elems _ _ _ _ Hok) as HP. rewrite -elem_of_map_to_list HP elem_of_app. split.
  - intros He. split; [by right|]. apply elem_of_tlist in He as (i & t & Ht & He). destruct (bo_tree _ _ _ _ Hok _ _ Ht) as (_ & _ & _ & H2).
    by apply (H2 _ He).
  - intros [[He|He] H256]; [|done]. apply elem_of_slist in He as (i & l & Hl & _ & Es). pose proof (lookup_lt_Some _ _ _ Hl).
    rewrite (bo_slen _ _ _ _ Hok) in H0. cbn [snd] in Es. lia.
Qed.

Lemma best_tree_fit g SL TL F nb v rs : bins_ok g SL TL F -> best_fit nb (tlist TL) v rs -> tree_fit nb F v rs.
Proof.
  intros Hok [(-> & -> & Hno)|(Hv & Hrs & Hin & Hmin)]; [left|right]; split_and!; try done.
  - intros p s Hp Hs. apply (Hno (p, s)). by eapply tlist_store.
  - by apply (tlist_store _ _ _ _ _ _ Hok) in Hin as [? _].
  - by apply (tlist_store _ _ _ _ _ _ Hok) in Hin as [_ ?].
  - intros p s Hp Hs Hf. apply (Hmin (p, s)); [|done]. by eapply tlist_store.
Qed.

Lemma wp_store_search g F nb : 256 <= nb < 2 ^ 64 ->
  bins g F -∗ wp (tree_search nb) (fun x g' => ⌜g' = g /\ tree_fit nb F x.1 x.2⌝ ∗ bins g F) g.
Proof.
  iIntros (Hnb) "(%SL & %TL & %Hok & HS & HT)". iApply (wp_wand with "[HT]").
  - iApply (wp_tree_search g TL with "HT"); [by eapply bins_trees_ok|done].
  - iIntros (x g') "((-> & %Hb) & HT)". iSplit; [iPureIntro; split; [done|by eapply best_tree_fit]|]. iExists SL, TL. by iFrame.
Qed.

Lemma wp_store_least g F nb : 0 < nb < 256 -> treemap g <> 0 ->
  bins g F -∗ wp (tree_least nb) (fun x g' => ⌜g' = g /\ tree_fit nb F x.1 x.2 /\ x.1 <> 0⌝ ∗ bins g F) g.
Proof.
  iIntros (Hnb Htm) "(%SL & %TL & %Hok & HS & HT)". iApply (wp_wand with "[HT]").
  - iApply (wp_tree_least g TL with "HT"); [by eapply bins_trees_ok|done..].
  - iIntros (x g') "((-> & %Hb & %Hv) & HT)". iSplit; [iPureIntro; split_and!; [done|by eapply best_tree_fit|done]|]. iExists SL, TL. by iFrame.
Qed.
End store.
