(* ===== verification/DlLayout.v ===== *)
(** * dlmalloc: the layout of the memory

    The memory that the allocator got from the system is a set of regions, each tiled
    by chunks: in use or free, no two free ones side by side, ended by a fence that is
    in use or by the top chunk.  A chunk of size [s] at [p] has the words from [p + 8]
    to [p + s]; a free chunk is owned by the store of free chunks, the payload of a
    chunk in use by the program. *)

From iris.proofmode Require Import proofmode.
From S2P Require Import Prelude DlSep DlBase DlBins DlTree DlFree.

Inductive kind := Used | Free.
Inductive rend := Fence (v : Z) | Top (s : Z).
Record region := Region { base : Z; chunks : list (kind * Z); fin : rend }.

Definition used (k : kind) : bool := match k with Used => true | Free => false end.

(** The head of a chunk in use, without its pinuse bit. *)
Definition inuse_head (h : Z) : Prop := (h mod 16 = 2 \/ h mod 16 = 10) /\ 0 <= h < 2 ^ 63.

Fixpoint total (cs : list (kind * Z)) : Z := match cs with [] => 0 | (_, s) :: cs => s + total cs end.
(** Is the chunk before the end of [cs] in use? *)
Fixpoint out_pin (pin : bool) (cs : list (kind * Z)) : bool := match cs with [] => pin | (k, _) :: cs => out_pin (used k) cs end.

Definition chunk_ok (pin : bool) (k : kind) (s : Z) : Prop := s mod 16 = 0 /\ 32 <= s /\ (used k = false -> pin = true).
Fixpoint pre_ok (pin : bool) (cs : list (kind * Z)) : Prop :=
  match cs with [] => True | (k, s) :: cs => chunk_ok pin k s /\ pre_ok (used k) cs end.
Definition end_ok (e : rend) (pin : bool) : Prop :=
  match e with Fence v => inuse_head v | Top s => pin = true /\ s mod 16 = 0 /\ 0 < s end.
Definition end_size (e : rend) : Z := match e with Fence _ => 0 | Top s => s end.

Record region_ok (g : mstate) (r : region) : Prop := RegionOk {
  ro_base : 0 < base r /\ base r mod 16 = 0 /\ 0 < least_addr g <= base r;
  ro_pre : pre_ok true (chunks r);
  ro_end : end_ok (fin r) (out_pin true (chunks r));
  ro_size : total (chunks r) + end_size (fin r) < 2 ^ 40;
  ro_bound : base r + total (chunks r) + end_size (fin r) + 32 < 2 ^ 64 }.

(** The chunks of one kind with their addresses. *)
Fixpoint locs (K : kind -> bool) (p : Z) (cs : list (kind * Z)) : list (Z * Z) :=
  match cs with [] => [] | (k, s) :: cs => (if K k then [(p, s)] else []) ++ locs K (p + s) cs end.
Definition free_of (r : region) : list (Z * Z) := locs (fun k => negb (used k)) (base r) (chunks r).
(** Blocks of the program: their address and their size in bytes. *)
Definition to_mem (e : Z * Z) : Z * Z := (e.1 + 16, e.2 - 8).
Definition live_of (r : region) : list (Z * Z) := to_mem <$> locs used (base r) (chunks r).
Definition tops_of (r : region) : list (Z * Z) :=
  match fin r with Top s => [(base r + total (chunks r), s)] | Fence _ => [] end.

Record heap_ok (g : mstate) (rs : list region) (FR L : gmap Z Z) : Prop := HeapOk {
  ho_regions : forall r, r ∈ rs -> region_ok g r;
  ho_free : map_to_list FR ≡ₚ concat (free_of <$> rs);
  ho_live : map_to_list L ≡ₚ concat (live_of <$> rs);
  ho_top : (top g = 0 /\ topsize g = 0 /\ rs = []) \/ concat (tops_of <$> rs) = [(top g, topsize g)] }.

(** ** Lists of chunks *)

Lemma total_app cs1 cs2 : total (cs1 ++ cs2) = total cs1 + total cs2.
Proof. induction cs1 as [|[k s] cs1 IH]; simpl; lia. Qed.

Lemma out_pin_app pin cs1 cs2 : out_pin pin (cs1 ++ cs2) = out_pin (out_pin pin cs1) cs2.
Proof. revert pin. induction cs1 as [|[k s] cs1 IH]; intros pin; simpl; auto. Qed.

Lemma locs_app K p cs1 cs2 : locs K p (cs1 ++ cs2) = locs K p cs1 ++ locs K (p + total cs1) cs2.
Proof.
  revert p. induction cs1 as [|[k s] cs1 IH]; intros p; simpl; [by rewrite Z.add_0_r|].
  rewrite IH -app_assoc. by rewrite -!Z.add_assoc.
Qed.

Lemma pre_ok_app pin cs1 cs2 : pre_ok pin (cs1 ++ cs2) <-> pre_ok pin cs1 /\ pre_ok (out_pin pin cs1) cs2.
Proof. revert pin. induction cs1 as [|[k s] cs1 IH]; intros pin; simpl; [naive_solver|]. rewrite IH. naive_solver. Qed.

Lemma pre_ok_total pin cs : pre_ok pin cs -> 0 <= total cs /\ total cs mod 16 = 0.
Proof.
  revert pin. induction cs as [|[k s] cs IH]; intros pin; simpl; [done|]. intros [(Hs & Hs' & _) Hp]. destruct (IH _ Hp). split; [lia|].
  rewrite Z.add_mod; [|lia]. by rewrite Hs H0.
Qed.

(** Is the chunk after a position in use? *)
Definition next_inuse (e : rend) (cs : list (kind * Z)) : bool :=
  match cs with (k, _) :: _ => used k | [] => match e with Fence _ => true | Top _ => false end end.

(** Well-formedness of what follows a position. *)
Definition tail_ok (e : rend) (pin : bool) (cs : list (kind * Z)) : Prop := pre_ok pin cs /\ end_ok e (out_pin pin cs).

Lemma tail_ok_false e cs : tail_ok e false cs -> next_inuse e cs = true.
Proof.
  intros [H1 H2]. destruct cs as [|[k s] cs]; simpl in *; [destruct e; [done|]; naive_solver|].
  destruct H1 as [(_ & _ & H1) _]. by destruct k; simpl in *; [|specialize (H1 eq_refl)].
Qed.

Lemma tail_ok_any e cs pin pin' : next_inuse e cs = true -> tail_ok e pin cs -> tail_ok e pin' cs.
Proof.
  intros Hn [H1 H2]. destruct cs as [|[k s] cs]; simpl in *; [by destruct e|].
  destruct H1 as [(Hs & Hs' & _) H1]. split; [split; [|done]|done]. split_and!; [done..|]. by rewrite Hn.
Qed.

Lemma tail_ok_true e cs pin : tail_ok e pin cs -> tail_ok e true cs.
Proof. destruct pin; [done|]. intros H. eapply tail_ok_any; [by apply tail_ok_false|done]. Qed.

Lemma region_tail_ok g b cs1 cs2 e : region_ok g (Region b (cs1 ++ cs2) e) ->
  pre_ok true cs1 /\ tail_ok e (out_pin true cs1) cs2.
Proof.
  intros [_ Hp He _ _]. simpl in *. apply pre_ok_app in Hp as [Hp1 Hp2]. rewrite out_pin_app in He. done.
Qed.

(** Replacing the end of a region by one of the same size. *)
Lemma region_replace g b cs1 cs2 e cs2' e' : region_ok g (Region b (cs1 ++ cs2) e) -> tail_ok e' (out_pin true cs1) cs2' ->
  total cs2 + end_size e = total cs2' + end_size e' -> region_ok g (Region b (cs1 ++ cs2') e').
Proof.
  intros Hr [Ht1 Ht2] Hs. destruct (region_tail_ok _ _ _ _ _ Hr) as [Hp _]. destruct Hr as [Hb _ _ Hsz Hbd]. simpl in *.
  rewrite total_app in Hsz, Hbd. split; simpl; [done| | |rewrite total_app; lia|rewrite total_app; lia].
  - by apply pre_ok_app.
  - by rewrite out_pin_app.
Qed.

(** Facts about a chunk of a region. *)
Lemma region_chunk g b cs1 k s cs2 e : region_ok g (Region b (cs1 ++ (k, s) :: cs2) e) ->
  let q := b + total cs1 in
  good g q s /\ 0 <= total cs2 + end_size e /\ q + s + total cs2 + end_size e + 32 < 2 ^ 64.
Proof.
  intros Hr q. destruct (region_tail_ok _ _ _ _ _ Hr) as [Hp [[(Hs & Hs' & _) Hp2] He]]. destruct (pre_ok_total _ _ Hp) as [Ht1 Ht2].
  destruct (pre_ok_total _ _ Hp2) as [Ht3 Ht4]. destruct Hr as [(Hb1 & Hb2 & Hb3) _ _ Hsz Hbd]. simpl in *. rewrite total_app in Hsz, Hbd. simpl in *.
  assert (0 <= end_size e) by (destruct e; simpl in *; [done|destruct He as (_ & _ & ?); lia]).
  split; [|subst q; lia]. split_and!; subst q; try lia. rewrite Z.add_mod; [|lia]. by rewrite Hb2 Ht2.
Qed.

(** ** Heads of chunks in use *)

Lemma inuse_split h : inuse_head h -> exists s c, h = s + c /\ s mod 16 = 0 /\ (c = 2 \/ c = 10) /\ 0 <= s < 2 ^ 63.
Proof. intros [[H|H] Hr]; [exists (h - 2), 2|exists (h - 10), 10]; split_and!; try lia; zdm. Qed.

Lemma used_head s : s mod 16 = 0 -> 0 <= s < 2 ^ 62 -> inuse_head (s + 2).
Proof. intros Hs Hr. split; [left; zdm|lia]. Qed.

Lemma inuse_flags h (pin : bool) : inuse_head h ->
  h_cinuse (h + Z.b2z pin) = true /\ h_pinuse (h + Z.b2z pin) = pin /\ h_inuse (h + Z.b2z pin) = true /\
  (Z.land (h + Z.b2z pin) INUSE_BITS =? INUSE_BITS) = pin /\ h_mmapped (h + Z.b2z pin) = false /\
  Z.lor (h + Z.b2z pin) PINUSE_BIT = h + 1 /\ Z.land (h + Z.b2z pin) (u64 (Z.lnot PINUSE_BIT)) = h.
Proof.
  intros Hh. pose proof Hh as [_ Hr]. destruct (inuse_split h Hh) as (s & c & -> & Hs & Hc & Hsr). rewrite -!Z.add_assoc.
  unfold h_cinuse, h_pinuse, h_inuse, h_mmapped. change INUSE_BITS with 3. change CINUSE_BIT with 2. change PINUSE_BIT with 1.
  assert (0 <= c + Z.b2z pin < 16) as Hb by (destruct Hc; subst; destruct pin; simpl; lia).
  rewrite !(land_flag s (c + Z.b2z pin) 1) // !(land_flag s (c + Z.b2z pin) 2) // !(land_flag s (c + Z.b2z pin) 3) //. split_and!; try (destruct Hc; subst; by destruct pin).
  - rewrite -(lor_flag s (c + Z.b2z pin)) // -Z.lor_assoc. assert (Z.lor (c + Z.b2z pin) 1 = c + 1) as -> by (destruct Hc; subst; by destruct pin).
    apply lor_flag; [done|]. destruct Hc; subst; lia.
  - rewrite land_uwrap; [|lia|unfold in_u; lia]. change 1 with (Z.ones 1). rewrite land_not_ones //. change (2 ^ 1) with 2.
    destruct Hc; subst; destruct pin; simpl Z.b2z; zdm.
Qed.

Lemma free_flags s : s mod 16 = 0 -> 0 <= s -> h_cinuse (s + 1) = false /\ (Z.land (s + 1) INUSE_BITS =? INUSE_BITS) = false /\
  h_pinuse (s + 1) = true /\ h_inuse (s + 1) = false.
Proof.
  intros Hs Hr. unfold h_cinuse, h_pinuse, h_inuse. change INUSE_BITS with 3. change CINUSE_BIT with 2. change PINUSE_BIT with 1.
  rewrite !(land_flag s 1) //.
Qed.

(** ** Regions in memory *)

Definition chunkmem (pin : bool) (p : Z) (k : kind) (s : Z) : hpropI :=
  match k with Used => head p ↦ (s + 2 + Z.b2z pin) | Free => emp end%I.
Definition endmem (e : rend) (pin : bool) (p : Z) : hpropI :=
  match e with Fence v => head p ↦ (v + Z.b2z pin) | Top s => head p ↦ (s + 1) ∗ raw (p + 16) (Z.to_nat (s / 8)) end%I.
Fixpoint pre (pin : bool) (p : Z) (cs : list (kind * Z)) : hpropI :=
  match cs with [] => emp | (k, s) :: cs => chunkmem pin p k s ∗ pre (used k) (p + s) cs end%I.
Fixpoint tail (e : rend) (pin : bool) (p : Z) (cs : list (kind * Z)) : hpropI :=
  match cs with [] => endmem e pin p | (k, s) :: cs => chunkmem pin p k s ∗ tail e (used k) (p + s) cs end%I.
Definition rmem (r : region) : hpropI := tail (fin r) true (base r) (chunks r).

Lemma tail_app e pin p cs1 cs2 : tail e pin p (cs1 ++ cs2) ⊣⊢ pre pin p cs1 ∗ tail e (out_pin pin cs1) (p + total cs1) cs2.
Proof.
  revert pin p. induction cs1 as [|[k s] cs1 IH]; intros pin p; simpl.
  - by rewrite left_id Z.add_0_r.
  - rewrite IH assoc. by rewrite Z.add_assoc.
Qed.

Lemma pre_app pin p cs1 cs2 : pre pin p (cs1 ++ cs2) ⊣⊢ pre pin p cs1 ∗ pre (out_pin pin cs1) (p + total cs1) cs2.
Proof.
  revert pin p. induction cs1 as [|[k s] cs1 IH]; intros pin p; simpl.
  - by rewrite left_id Z.add_0_r.
  - rewrite IH assoc. by rewrite Z.add_assoc.
Qed.

(** The head of a chunk in use that follows; its pinuse bit can be changed. *)
Lemma tail_next e pin p cs : next_inuse e cs = true -> tail_ok e pin cs -> total cs < 2 ^ 40 ->
  tail e pin p cs ⊢ ∃ h, ⌜inuse_head h⌝ ∗ head p ↦ (h + Z.b2z pin) ∗ (∀ pin', head p ↦ (h + Z.b2z pin') -∗ tail e pin' p cs).
Proof.
  iIntros (Hn [Hp He] Ht) "H". destruct cs as [|[k s] cs]; simpl in *.
  - destruct e as [v|s]; [|done]. iExists v. iFrame. iSplit; [done|]. by iIntros (pin') "$".
  - destruct k; [|done]. destruct Hp as [(Hs & Hs' & _) Hp]. destruct (pre_ok_total _ _ Hp) as [? _]. iDestruct "H" as "[Hh H]". iExists (s + 2). iFrame.
    iSplit; [iPureIntro; apply used_head; lia|]. by iIntros (pin') "$".
Qed.

(** The top chunk owns its head. *)
Lemma tail_top s pin p cs : tail (Top s) pin p cs ⊢ head (p + total cs) ↦ (s + 1).
Proof.
  revert pin p. induction cs as [|[k x] cs IH]; intros pin p; simpl; [rewrite Z.add_0_r; by iIntros "[$ _]"|].
  iIntros "[_ H]". rewrite IH. by rewrite Z.add_assoc.
Qed.

(** So does a chunk in use. *)
Lemma pre_used pin p cs1 s cs2 : pre pin p (cs1 ++ (Used, s) :: cs2) ⊢ ∃ v, head (p + total cs1) ↦ v.
Proof. rewrite pre_app. simpl. iIntros "(_ & H & _)". by iExists _. Qed.

Lemma locs_split K p cs e : e ∈ locs K p cs -> exists cs1 k cs2, cs = cs1 ++ (k, e.2) :: cs2 /\ e.1 = p + total cs1 /\ K k = true.
Proof.
  revert p. induction cs as [|[k s] cs IH]; intros p; simpl; [intros He; by apply not_elem_of_nil in He|].
  rewrite elem_of_app. intros [He|He].
  - destruct (K k) eqn:Ek; [|by apply not_elem_of_nil in He]. apply list_elem_of_singleton in He as ->. exists [], k, cs. simpl. split_and!; [done|lia|done].
  - destruct (IH _ He) as (cs1 & k' & cs2 & -> & E & Hk). exists ((k, s) :: cs1), k', cs2. simpl. split_and!; [done|lia|done].
Qed.

(** ** Finding a chunk *)

Lemma heap_ok_perm g rs rs' FR L : rs ≡ₚ rs' -> heap_ok g rs FR L -> heap_ok g rs' FR L.
Proof.
  intros HP [H1 H2 H3 H4]. split.
  - intros r Hr. apply H1. by rewrite HP.
  - by rewrite -HP.
  - by rewrite -HP.
  - assert (concat (tops_of <$> rs) ≡ₚ concat (tops_of <$> rs')) as HT by by rewrite HP. destruct H4 as [(? & ? & ->)|E]; [left|rewrite E in HT; right].
    + split_and!; [done..|]. by apply Permutation_nil_l in HP.
    + symmetry. by apply Permutation_singleton_l.
Qed.

Lemma concat_elem {A B} (f : A -> list B) (l : list A) x : x ∈ concat (f <$> l) -> exists a rest, l ≡ₚ a :: rest /\ x ∈ f a.
Proof.
  rewrite list_elem_of_In in_concat. intros (y & Hy%list_elem_of_In & Hx%list_elem_of_In).
  apply list_elem_of_fmap in Hy as (a & -> & Ha). apply list_elem_of_split in Ha as (l1 & l2 & ->). exists a, (l1 ++ l2).
  split; [by rewrite Permutation_middle|done].
Qed.

Lemma find_free g rs FR L v sz : heap_ok g rs FR L -> FR !! v = Some sz ->
  exists rest b cs1 cs2 e, rs ≡ₚ Region b (cs1 ++ (Free, sz) :: cs2) e :: rest /\ v = b + total cs1.
Proof.
  intros Hok Hv. assert ((v, sz) ∈ concat (free_of <$> rs)) as He by (rewrite -(ho_free _ _ _ _ Hok); by apply elem_of_map_to_list).
  destruct (concat_elem _ _ _ He) as ([b cs e] & rest & HP & Hin). apply locs_split in Hin as (cs1 & k & cs2 & E & Ev & Hk). simpl in *. subst cs.
  destruct k; [done|]. by exists rest, b, cs1, cs2, e.
Qed.

Lemma find_live g rs FR L m n : heap_ok g rs FR L -> L !! m = Some n ->
  exists rest b cs1 cs2 e, rs ≡ₚ Region b (cs1 ++ (Used, n + 8) :: cs2) e :: rest /\ m = b + total cs1 + 16.
Proof.
  intros Hok Hv. assert ((m, n) ∈ concat (live_of <$> rs)) as He by (rewrite -(ho_live _ _ _ _ Hok); by apply elem_of_map_to_list).
  destruct (concat_elem _ _ _ He) as ([b cs e] & rest & HP & Hin). apply list_elem_of_fmap in Hin as ([p s] & [= -> ->] & Hin).
  apply locs_split in Hin as (cs1 & k & cs2 & E & Ev & Hk). simpl in *. subst cs p. destruct k; [|done].
  exists rest, b, cs1, cs2, e. by replace (s - 8 + 8) with s by lia.
Qed.

(** A live block owns the head of its chunk. *)
Lemma live_head g rs FR L m n : heap_ok g rs FR L -> L !! m = Some n -> ([∗ list] r ∈ rs, rmem r) ⊢ ∃ v, head (m - 16) ↦ v.
Proof.
  intros Hok Hm. destruct (find_live _ _ _ _ _ _ Hok Hm) as (rest & b & cs1 & cs2 & e & -> & ->). simpl. unfold rmem at 1. simpl.
  rewrite tail_app. simpl. iIntros "((_ & Hh & _) & _)". replace (b + total cs1 + 16 - 16) with (b + total cs1) by lia. by iExists _.
Qed.

(** ** Holes

    A chunk in use whose memory is at hand: [L] does not have it. *)

Definition hole_ok (g : mstate) (rest : list region) (b : Z) (cs1 : list (kind * Z)) (sz : Z) (cs2 : list (kind * Z)) (e : rend)
    (FR L : gmap Z Z) : Prop :=
  L !! (b + total cs1 + 16) = None /\
  heap_ok g (Region b (cs1 ++ (Used, sz) :: cs2) e :: rest) FR (<[b + total cs1 + 16 := sz - 8]> L).

(** The rest of the memory; [po] is the pinuse bit of the chunk after the hole. *)
Definition holemem (rest : list region) (b : Z) (cs1 : list (kind * Z)) (sz : Z) (cs2 : list (kind * Z)) (e : rend) (po : bool) : hpropI :=
  (pre true b cs1 ∗ tail e po (b + total cs1 + sz) cs2 ∗ [∗ list] r ∈ rest, rmem r)%I.

Lemma live_of_mid b cs1 k sz cs2 e : live_of (Region b (cs1 ++ (k, sz) :: cs2) e) =
  (to_mem <$> locs used b cs1) ++ (if used k then [(b + total cs1 + 16, sz - 8)] else []) ++ (to_mem <$> locs used (b + total cs1 + sz) cs2).
Proof. unfold live_of. simpl. rewrite locs_app fmap_app. simpl. destruct (used k); by rewrite fmap_app. Qed.

Lemma free_of_mid b cs1 k sz cs2 e : free_of (Region b (cs1 ++ (k, sz) :: cs2) e) =
  locs (fun k => negb (used k)) b cs1 ++ (if used k then [] else [(b + total cs1, sz)]) ++ locs (fun k => negb (used k)) (b + total cs1 + sz) cs2.
Proof. unfold free_of. simpl. rewrite locs_app. simpl. by destruct (used k). Qed.

Lemma hole_live g rest b cs1 sz cs2 e FR L po m n : hole_ok g rest b cs1 sz cs2 e FR L -> L !! m = Some n ->
  holemem rest b cs1 sz cs2 e po ⊢ ∃ v, head (m - 16) ↦ v.
Proof.
  intros [Hn Hok] Hm. assert ((m, n) ∈ map_to_list (<[b + total cs1 + 16 := sz - 8]> L)) as He.
  { apply elem_of_map_to_list. rewrite lookup_insert_ne; [done|]. intros E. by rewrite -E Hn in Hm. }
  rewrite (ho_live _ _ _ _ Hok) fmap_cons in He. simpl in He. rewrite live_of_mid elem_of_app !elem_of_app in He. iIntros "(Hp & Ht & Hr)".
  destruct He as [[He|[He|He]]|He].
  - apply list_elem_of_fmap in He as ([p s] & [= -> ->] & Hin). apply locs_split in Hin as (c1 & k & c2 & E & Ev & Hk). simpl in *. subst cs1 p.
    destruct k; [|done]. rewrite pre_used. by replace (b + total c1 + 16 - 16) with (b + total c1) by lia.
  - simpl in He. apply list_elem_of_singleton in He as [= -> ->]. by rewrite Hn in Hm.
  - apply list_elem_of_fmap in He as ([p s] & [= -> ->] & Hin). apply locs_split in Hin as (c1 & k & c2 & E & Ev & Hk). simpl in *. subst cs2 p.
    destruct k; [|done]. rewrite tail_app. simpl. iDestruct "Ht" as "(_ & Hh & _)".
    replace (b + total cs1 + sz + total c1 + 16 - 16) with (b + total cs1 + sz + total c1) by lia. by iExists _.
  - destruct (concat_elem _ _ _ He) as ([b' cs e'] & rest' & -> & Hin). apply list_elem_of_fmap in Hin as ([p s] & [= -> ->] & Hin).
    apply locs_split in Hin as (c1 & k & c2 & E & Ev & Hk). simpl in *. subst cs p. destruct k; [|done]. iDestruct "Hr" as "[Hr _]".
    unfold rmem. simpl. rewrite tail_app. simpl. iDestruct "Hr" as "(_ & Hh & _)". replace (b' + total c1 + 16 - 16) with (b' + total c1) by lia. by iExists _.
Qed.

Lemma hole_fresh g rest b cs1 sz cs2 e FR L po q v : hole_ok g rest b cs1 sz cs2 e FR L ->
  holemem rest b cs1 sz cs2 e po -∗ head q ↦ v -∗ ⌜L !! (q + 16)%Z = None⌝.
Proof.
  iIntros (Hok) "Hm Hq". destruct (L !! (q + 16)) as [n|] eqn:E; [|done]. iDestruct (hole_live with "Hm") as "[%w Hw]"; [done..|].
  replace (q + 16 - 16) with q by lia. by iDestruct (pointsto_ne with "[$Hq $Hw]") as %?.
Qed.

(** ** Changing the layout *)

Lemma heap_ok_state g g' rs FR L : least_addr g' = least_addr g -> top g' = top g -> topsize g' = topsize g -> heap_ok g rs FR L -> heap_ok g' rs FR L.
Proof.
  intros E1 E2 E3 [H1 H2 H3 H4]. split; [|done..|by rewrite E2 E3]. intros r Hr. destruct (H1 r Hr). split; try done. by rewrite E1.
Qed.

(** A region replaced by one with the same top. *)
Lemma heap_ok_replace g r r' rest FR L FR' L' : heap_ok g (r :: rest) FR L -> region_ok g r' -> tops_of r' = tops_of r ->
  map_to_list FR' ≡ₚ free_of r' ++ concat (free_of <$> rest) -> map_to_list L' ≡ₚ live_of r' ++ concat (live_of <$> rest) ->
  heap_ok g (r' :: rest) FR' L'.
Proof.
  intros [H1 H2 H3 H4] Hr Ht HF HL. split; [|done..|].
  - intros x [->|Hx]%elem_of_cons; [done|]. apply H1. set_solver.
  - right. destruct H4 as [(_ & _ & ?)|H4]; [done|]. rewrite fmap_cons /= Ht. rewrite fmap_cons in H4. done.
Qed.

Lemma heap_region g r rest FR L : heap_ok g (r :: rest) FR L -> region_ok g r.
Proof. intros [H _ _ _]. apply H. set_solver. Qed.

Lemma tops_of_mid b cs1 k s cs2 e : tops_of (Region b (cs1 ++ (k, s) :: cs2) e) =
  match e with Top t => [(b + total cs1 + s + total cs2, t)] | Fence _ => [] end.
Proof. unfold tops_of. simpl. rewrite total_app. simpl. destruct e; [done|]. do 2 f_equal. lia. Qed.

Lemma hole_of_free g rest b cs1 sz cs2 e FR L : heap_ok g (Region b (cs1 ++ (Free, sz) :: cs2) e :: rest) FR L ->
  L !! (b + total cs1 + 16) = None ->
  hole_ok g rest b cs1 sz cs2 e (delete (b + total cs1) FR) L /\ next_inuse e cs2 = true /\ out_pin true cs1 = true /\ FR !! (b + total cs1) = Some sz.
Proof.
  intros Hok Hn. pose proof (heap_region _ _ _ _ _ Hok) as Hr. destruct (region_tail_ok _ _ _ _ _ Hr) as [Hp [[(Hs & Hs' & Hpin) Hp2] He]]. simpl in *.
  assert (tail_ok e false cs2) as Ht by done. pose proof (tail_ok_false _ _ Ht) as Hnx. pose proof (ho_free _ _ _ _ Hok) as HF. rewrite fmap_cons /= free_of_mid /= in HF.
  assert (FR !! (b + total cs1) = Some sz) as Hv by (apply elem_of_map_to_list; rewrite HF; set_solver). split_and!; try done; [|by apply Hpin].
  split; [done|]. eapply heap_ok_replace; [exact Hok| |by rewrite !tops_of_mid| |].
  - eapply region_replace; [exact Hr| |done]. split; simpl; [split; [split_and!; done|]|]; by eapply (tail_ok_any e cs2 false).
  - apply (map_delete_perm FR _ sz); [done|]. rewrite HF free_of_mid. simpl. solve_Permutation.
  - rewrite (map_insert_perm L _ _ _ Hn (ho_live _ _ _ _ Hok)). rewrite fmap_cons /= !live_of_mid. simpl. solve_Permutation.
Qed.

Lemma hole_of_used g rest b cs1 n cs2 e FR L : let m := b + total cs1 + 16 in
  heap_ok g (Region b (cs1 ++ (Used, n + 8) :: cs2) e :: rest) FR L -> L !! m = Some n -> hole_ok g rest b cs1 (n + 8) cs2 e FR (delete m L).
Proof.
  intros m Hok Hm. split; [by rewrite lookup_delete_eq|]. replace (n + 8 - 8) with n by lia. by rewrite insert_delete_id.
Qed.

Lemma hole_split g rest b cs1 sz cs2 e FR L nb : let q := b + total cs1 in
  hole_ok g rest b cs1 sz cs2 e FR L -> nb mod 16 = 0 -> 32 <= nb -> 32 <= sz - nb -> FR !! (q + nb) = None -> next_inuse e cs2 = true ->
  heap_ok g (Region b (cs1 ++ (Used, nb) :: (Free, sz - nb) :: cs2) e :: rest) (<[q + nb := sz - nb]> FR) (<[q + 16 := nb - 8]> L).
Proof.
  intros q [Hn Hok] Hnb Hnb1 Hnb2 HF Hnx. pose proof (heap_region _ _ _ _ _ Hok) as Hr. destruct (region_tail_ok _ _ _ _ _ Hr) as [Hp [[(Hs & Hs' & Hpin) Hp2] He]]. simpl in *.
  eapply heap_ok_replace; [exact Hok| | | |].
  - eapply region_replace; [exact Hr| |simpl; lia]. split; simpl; [split; [split_and!; done|]; split; [split_and!; try done; zdm|]|]; by eapply (tail_ok_any e cs2 true).
  - rewrite !tops_of_mid. simpl. by replace (b + total cs1 + nb + (sz - nb + total cs2)) with (b + total cs1 + sz + total cs2) by lia.
  - rewrite (map_insert_perm FR _ _ _ HF (ho_free _ _ _ _ Hok)). rewrite fmap_cons /= !free_of_mid. simpl. fold q.
    replace (q + nb + (sz - nb)) with (q + sz) by lia. solve_Permutation.
  - pose proof (ho_live _ _ _ _ Hok) as HL. rewrite map_to_list_insert // fmap_cons /= live_of_mid /= in HL. rewrite map_to_list_insert // live_of_mid /=. fold q in HL |- *.
    replace (q + nb + (sz - nb)) with (q + sz) by lia. rewrite -Permutation_middle /= in HL. apply Permutation_cons_inv in HL.
    rewrite HL. rewrite -Permutation_middle. done.
Qed.

(** The hole grows over the free chunk before it. *)
Lemma hole_left g rest b cs1 ps sz cs2 e FR L : let q := b + total cs1 in
  hole_ok g rest b (cs1 ++ [(Free, ps)]) sz cs2 e FR L -> L !! (q + 16) = None ->
  hole_ok g rest b cs1 (ps + sz) cs2 e (delete q FR) L /\ FR !! q = Some ps /\ out_pin true cs1 = true /\ b + total (cs1 ++ [(Free, ps)]) = q + ps.
Proof.
  intros q [Hn Hok] HLq. pose proof (heap_region _ _ _ _ _ Hok) as Hr. rewrite -app_assoc in Hok, Hr. simpl in Hok, Hr.
  assert (b + total (cs1 ++ [(Free, ps)]) = q + ps) as Eq by (rewrite total_app; simpl; lia). rewrite Eq in Hn, Hok.
  destruct (region_tail_ok _ _ _ _ _ Hr) as [Hp [[(Hs & Hs' & Hpin) [(Hz & Hz' & _) Hp2]] He]]. simpl in *.
  pose proof (ho_free _ _ _ _ Hok) as HF. rewrite fmap_cons /= free_of_mid /= in HF. fold q in HF.
  assert (FR !! q = Some ps) as Hv by (apply elem_of_map_to_list; rewrite HF; set_solver). split_and!; try done; [|by apply Hpin].
  split; [done|]. eapply heap_ok_replace; [exact Hok| | | |].
  - eapply region_replace; [exact Hr| |simpl; lia]. split; simpl; [split; [split_and!; try done; zdm|done]|done].
  - rewrite !tops_of_mid. simpl. by replace (b + total cs1 + ps + (sz + total cs2)) with (b + total cs1 + (ps + sz) + total cs2) by lia.
  - apply (map_delete_perm FR _ ps); [done|]. rewrite HF free_of_mid. simpl. fold q. replace (q + (ps + sz)) with (q + ps + sz) by lia. solve_Permutation.
  - pose proof (ho_live _ _ _ _ Hok) as HL. rewrite map_to_list_insert // fmap_cons /= live_of_mid /= in HL. fold q in HL.
    rewrite map_to_list_insert // live_of_mid /=. fold q. replace (q + (ps + sz)) with (q + ps + sz) by lia.
    rewrite -Permutation_middle /= in HL. apply Permutation_cons_inv in HL. rewrite HL. rewrite -Permutation_middle. done.
Qed.

(** The hole grows over the free chunk after it. *)
Lemma hole_right g rest b cs1 sz ns cs2 e FR L : let q := b + total cs1 in
  hole_ok g rest b cs1 sz ((Free, ns) :: cs2) e FR L ->
  hole_ok g rest b cs1 (sz + ns) cs2 e (delete (q + sz) FR) L /\ FR !! (q + sz) = Some ns /\ next_inuse e cs2 = true.
Proof.
  intros q [Hn Hok]. pose proof (heap_region _ _ _ _ _ Hok) as Hr. destruct (region_tail_ok _ _ _ _ _ Hr) as [Hp [[(Hz & Hz' & _) [(Hs & Hs' & _) Hp2]] He]]. simpl in *.
  assert (tail_ok e false cs2) as Ht by done. pose proof (tail_ok_false _ _ Ht) as Hnx.
  pose proof (ho_free _ _ _ _ Hok) as HF. rewrite fmap_cons /= free_of_mid /= in HF. fold q in HF.
  assert (FR !! (q + sz) = Some ns) as Hv by (apply elem_of_map_to_list; rewrite HF; set_solver). split_and!; try done.
  split; [done|]. eapply heap_ok_replace; [exact Hok| | | |].
  - eapply region_replace; [exact Hr| |simpl; lia]. split; simpl; [split; [split_and!; try done; zdm|]|]; by eapply (tail_ok_any e cs2 false).
  - rewrite !tops_of_mid. simpl. by replace (b + total cs1 + (sz + ns) + total cs2) with (b + total cs1 + sz + (ns + total cs2)) by lia.
  - apply (map_delete_perm FR _ ns); [done|]. rewrite HF free_of_mid. simpl. fold q. replace (q + (sz + ns)) with (q + sz + ns) by lia. solve_Permutation.
  - pose proof (ho_live _ _ _ _ Hok) as HL. rewrite map_to_list_insert // fmap_cons /= live_of_mid /= in HL. fold q in HL.
    rewrite map_to_list_insert // live_of_mid /=. fold q. replace (q + (sz + ns)) with (q + sz + ns) by lia.
    rewrite -Permutation_middle /= in HL. apply Permutation_cons_inv in HL. rewrite HL. rewrite -Permutation_middle. done.
Qed.

(** The hole becomes a free chunk. *)
Lemma hole_free g rest b cs1 sz cs2 e FR L : let q := b + total cs1 in
  hole_ok g rest b cs1 sz cs2 e FR L -> out_pin true cs1 = true -> next_inuse e cs2 = true -> FR !! q = None ->
  heap_ok g (Region b (cs1 ++ (Free, sz) :: cs2) e :: rest) (<[q := sz]> FR) L.
Proof.
  intros q [Hn Hok] Hpin Hnx HFq. pose proof (heap_region _ _ _ _ _ Hok) as Hr. destruct (region_tail_ok _ _ _ _ _ Hr) as [Hp [[(Hz & Hz' & _) Hp2] He]]. simpl in *.
  eapply heap_ok_replace; [exact Hok| |by rewrite !tops_of_mid| |].
  - eapply region_replace; [exact Hr| |done]. split; simpl; [split; [split_and!; done|]|]; by eapply (tail_ok_any e cs2 true).
  - rewrite (map_insert_perm FR _ _ _ HFq (ho_free _ _ _ _ Hok)). rewrite fmap_cons /= !free_of_mid. simpl. fold q. solve_Permutation.
  - pose proof (ho_live _ _ _ _ Hok) as HL. rewrite map_to_list_insert // fmap_cons /= live_of_mid /= in HL. rewrite live_of_mid /=.
    rewrite -Permutation_middle /= in HL. apply Permutation_cons_inv in HL. by rewrite HL.
Qed.

Lemma tops_none_rest g r rest FR L s : heap_ok g (r :: rest) FR L -> fin r = Top s ->
  concat (tops_of <$> rest) = [] /\ top g = base r + total (chunks r) /\ topsize g = s.
Proof.
  intros [_ _ _ H4] Hf. rewrite fmap_cons /= in H4. unfold tops_of at 1 in H4. rewrite Hf in H4.
  destruct H4 as [(_ & _ & ?)|[= <- <- E]]; [done|]. by split_and!.
Qed.

(** The hole before the top chunk becomes part of it. *)
Lemma hole_top g rest b cs1 sz ts FR L : let q := b + total cs1 in
  hole_ok g rest b cs1 sz [] (Top ts) FR L -> out_pin true cs1 = true ->
  heap_ok (set_top q (set_topsize (sz + ts) g)) (Region b cs1 (Top (sz + ts)) :: rest) FR L /\ top g = q + sz /\ topsize g = ts.
Proof.
  intros q [Hn Hok] Hpin. pose proof (heap_region _ _ _ _ _ Hok) as Hr. destruct (tops_none_rest _ _ _ _ _ _ Hok eq_refl) as (Hrest & Htop & Hts).
  simpl in Htop. rewrite total_app in Htop. simpl in Htop. split; [|split; [subst q; lia|done]].
  destruct (region_tail_ok _ _ _ _ _ Hr) as [Hp [[(Hz & Hz' & _) _] He]]. simpl in He. destruct He as (_ & Hts16 & Htspos).
  assert (region_ok g (Region b (cs1 ++ []) (Top (sz + ts)))) as Hr'.
  { eapply region_replace; [exact Hr| |simpl; lia]. split; simpl; [done|]. split_and!; [done|zdm|lia]. }
  rewrite app_nil_r in Hr'. destruct Hok as [H1 H2 H3 H4]. split.
  - intros x [->|Hx]%elem_of_cons; [destruct Hr'; by split|]. destruct (H1 x ltac:(set_solver)). by split.
  - rewrite H2 !fmap_cons /= free_of_mid. unfold free_of. simpl. by rewrite app_nil_r.
  - rewrite map_to_list_insert // fmap_cons /= live_of_mid /= in H3. rewrite -Permutation_middle in H3. simpl in H3. apply Permutation_cons_inv in H3.
    rewrite app_nil_r in H3. by rewrite H3.
  - right. simpl. by rewrite Hrest.
Qed.

(** A chunk from the start of the top chunk. *)
Lemma split_top g rest b cs ts nb FR L : let q := b + total cs in
  heap_ok g (Region b cs (Top ts) :: rest) FR L -> nb mod 16 = 0 -> 32 <= nb < ts -> L !! (q + 16) = None ->
  heap_ok (set_top (q + nb) (set_topsize (ts - nb) g)) (Region b (cs ++ [(Used, nb)]) (Top (ts - nb)) :: rest) FR (<[q + 16 := nb - 8]> L).
Proof.
  intros q Hok Hnb Hlt HLq. pose proof (heap_region _ _ _ _ _ Hok) as Hr. destruct (tops_none_rest _ _ _ _ _ _ Hok eq_refl) as (Hrest & Htop & Hts).
  destruct Hr as [Hb Hp He Hsz Hbd]. simpl in *. destruct He as (Hpin & Hts16 & Htspos).
  assert (region_ok g (Region b (cs ++ [(Used, nb)]) (Top (ts - nb)))) as Hr'.
  { split; simpl; [done| | |rewrite total_app; simpl; lia|rewrite total_app; simpl; lia].
    - apply pre_ok_app. split; [done|]. simpl. split; [split_and!; [done|lia|done]|done].
    - rewrite out_pin_app. simpl. split_and!; [done|zdm|lia]. }
  destruct Hok as [H1 H2 H3 H4]. split.
  - intros x [->|Hx]%elem_of_cons; [destruct Hr'; by split|]. destruct (H1 x ltac:(set_solver)). by split.
  - rewrite H2 !fmap_cons /= free_of_mid. unfold free_of. simpl. by rewrite app_nil_r.
  - rewrite (map_insert_perm L _ _ _ HLq H3) !fmap_cons /= live_of_mid. unfold live_of. simpl. fold q. solve_Permutation.
  - right. simpl. rewrite Hrest total_app. simpl. do 2 f_equal. lia.
Qed.

(** ** The memory of holes *)

Definition regions (rs : list region) : hpropI := ([∗ list] r ∈ rs, rmem r)%I.

Lemma regions_perm rs rs' : rs ≡ₚ rs' -> regions rs ⊢ regions rs'.
Proof. intros HP. unfold regions. by rewrite HP. Qed.

Lemma regions_free rest b cs1 sz cs2 e :
  regions (Region b (cs1 ++ (Free, sz) :: cs2) e :: rest) ⊣⊢ holemem rest b cs1 sz cs2 e false.
Proof.
  unfold regions, holemem. simpl. unfold rmem at 1. simpl. rewrite tail_app. simpl.
  iSplit; [iIntros "(($ & _ & $) & $)"|iIntros "($ & $ & $)"].
Qed.

Lemma regions_used rest b cs1 sz cs2 e :
  regions (Region b (cs1 ++ (Used, sz) :: cs2) e :: rest) ⊣⊢
  head (b + total cs1) ↦ (sz + 2 + Z.b2z (out_pin true cs1)) ∗ holemem rest b cs1 sz cs2 e true.
Proof.
  unfold regions, holemem. simpl. unfold rmem at 1. simpl. rewrite tail_app. simpl.
  iSplit; [iIntros "(($ & $ & $) & $)"|iIntros "($ & $ & $ & $)"].
Qed.

Lemma regions_split rest b cs1 sz nb cs2 e :
  regions (Region b (cs1 ++ (Used, nb) :: (Free, sz - nb) :: cs2) e :: rest) ⊣⊢
  head (b + total cs1) ↦ (nb + 2 + Z.b2z (out_pin true cs1)) ∗ holemem rest b cs1 sz cs2 e false.
Proof.
  unfold regions, holemem. simpl. unfold rmem at 1. simpl. rewrite tail_app. simpl. replace (b + total cs1 + nb + (sz - nb)) with (b + total cs1 + sz) by lia.
  iSplit; [iIntros "(($ & $ & _ & $) & $)"|iIntros "($ & $ & $ & $)"].
Qed.

Lemma holemem_left rest b cs1 ps sz cs2 e po :
  holemem rest b (cs1 ++ [(Free, ps)]) sz cs2 e po ⊢ holemem rest b cs1 (ps + sz) cs2 e po.
Proof.
  unfold holemem. rewrite pre_app total_app. simpl. replace (b + (total cs1 + (ps + 0)) + sz) with (b + total cs1 + (ps + sz)) by lia.
  by iIntros "(($ & _) & $ & $)".
Qed.

Lemma holemem_right rest b cs1 sz ns cs2 e po :
  holemem rest b cs1 sz ((Free, ns) :: cs2) e po ⊢ holemem rest b cs1 (sz + ns) cs2 e false.
Proof.
  unfold holemem. simpl. replace (b + total cs1 + (sz + ns)) with (b + total cs1 + sz + ns) by lia. by iIntros "($ & (_ & $) & $)".
Qed.

(** The head of the chunk after a hole, when it is in use. *)
Lemma holemem_next g rest b cs1 sz cs2 e po FR L : hole_ok g rest b cs1 sz cs2 e FR L -> next_inuse e cs2 = true ->
  holemem rest b cs1 sz cs2 e po ⊢ ∃ h, ⌜inuse_head h⌝ ∗ head (b + total cs1 + sz) ↦ (h + Z.b2z po) ∗
    (∀ po', head (b + total cs1 + sz) ↦ (h + Z.b2z po') -∗ holemem rest b cs1 sz cs2 e po').
Proof.
  intros [_ Hok] Hn. pose proof (heap_region _ _ _ _ _ Hok) as Hr. destruct (region_tail_ok _ _ _ _ _ Hr) as [Hp [[_ Hp2] He]]. simpl in *.
  assert (total cs2 < 2 ^ 40) as Ht.
  { destruct Hr as [_ _ _ Hsz _]. simpl in Hsz. rewrite total_app in Hsz. simpl in Hsz. destruct (pre_ok_total _ _ Hp) as [? _]. destruct (pre_ok_total _ _ Hp2) as [? _].
    assert (0 <= end_size e) by (destruct e; simpl in *; [done|destruct He as (_ & _ & ?); lia]).
    destruct (region_chunk g b cs1 Used sz cs2 e) as ((_ & _ & _ & _ & ? & _) & _); [by eapply heap_region|]. lia. }
  iIntros "(Hp & Ht & Hr)". iDestruct (tail_next with "Ht") as "(%h & %Hh & Hn & Ht)"; [done|by eapply (tail_ok_any e cs2 true)|done|].
  iExists h. iFrame "Hn". iSplit; [done|]. iIntros (po') "Hn". iFrame. by iApply "Ht".
Qed.

(** The words of a chunk, as one block. *)
Definition blk (q n : Z) : hpropI := raw (q + 8) (Z.to_nat (n / 8)).

Lemma blk_join q a b : 0 <= a -> 0 <= b -> a mod 8 = 0 -> blk q (a + b) ⊣⊢ blk q a ∗ blk (q + a) b.
Proof.
  intros Ha Hb Hm. unfold blk. replace (Z.to_nat ((a + b) / 8)) with (Z.to_nat (a / 8) + Z.to_nat (b / 8))%nat by zdm.
  rewrite raw_app. by replace (q + 8 + 8 * Z.to_nat (a / 8)) with (q + a + 8) by zdm.
Qed.

Lemma blk_head q n : 8 <= n -> blk q n ⊣⊢ head q ↦ - ∗ raw (q + 16) (Z.to_nat (n / 8 - 1)).
Proof.
  intros Hn. unfold blk, head. replace (Z.to_nat (n / 8)) with (S (Z.to_nat (n / 8 - 1))) by zdm. simpl.
  by replace (q + 8 + 8) with (q + 16) by lia.
Qed.

Lemma blk_free q n : 32 <= n -> n mod 16 = 0 -> blk q n ⊣⊢ head q ↦ - ∗ raw (q + 16) (Z.to_nat (n / 8 - 2)) ∗ (q + n) ↦ -.
Proof.
  intros Hn Hm. rewrite blk_head; [|lia]. replace (Z.to_nat (n / 8 - 1)) with (Z.to_nat (n / 8 - 2) + 1)%nat by zdm. rewrite raw_app. simpl.
  replace (q + 16 + 8 * Z.to_nat (n / 8 - 2)) with (q + n) by zdm. iSplit; [iIntros "($ & $ & $ & _)"|iIntros "($ & $ & $)"].
Qed.

Lemma free_chunk_blk q n : 32 <= n -> n mod 16 = 0 -> free_chunk q n ⊢ blk q n.
Proof. intros Hn Hm. rewrite blk_free //. iIntros "(Hh & $ & Hf)". iSplitL "Hh"; by iExists _. Qed.

(** The region of the top chunk. *)
Lemma find_top g rs FR L : heap_ok g rs FR L -> topsize g <> 0 -> exists rest b cs,
  rs ≡ₚ Region b cs (Top (topsize g)) :: rest /\ top g = b + total cs.
Proof.
  intros Hok Ht. destruct (ho_top _ _ _ _ Hok) as [(_ & ? & _)|E]; [done|]. assert ((top g, topsize g) ∈ concat (tops_of <$> rs)) as He by (rewrite E; set_solver).
  destruct (concat_elem _ _ _ He) as ([b cs e] & rest & HP & Hin). unfold tops_of in Hin. simpl in Hin.
  destruct e as [v|s]; [by apply not_elem_of_nil in Hin|]. apply list_elem_of_singleton in Hin as [= -> ->]. by exists rest, b, cs.
Qed.

(** The memory of a region that ends with the top chunk. *)
Lemma regions_top b cs ts rest : regions (Region b cs (Top ts) :: rest) ⊣⊢
  pre true b cs ∗ (head (b + total cs) ↦ (ts + 1) ∗ raw (b + total cs + 16) (Z.to_nat (ts / 8))) ∗ regions rest.
Proof.
  unfold regions. simpl. unfold rmem at 1. simpl. rewrite -{1}(app_nil_r cs) tail_app. simpl.
  iSplit; [iIntros "(($ & $) & $)"|iIntros "($ & $ & $)"].
Qed.

(** No block starts where the top chunk does. *)
Lemma top_fresh g b cs ts rest FR L v : heap_ok g (Region b cs (Top ts) :: rest) FR L ->
  pre true b cs -∗ regions rest -∗ head (b + total cs) ↦ v -∗ ⌜L !! (b + total cs + 16)%Z = None⌝.
Proof.
  iIntros (Hok) "Hp Hr Hh". destruct (L !! (b + total cs + 16)) as [n|] eqn:E; [|done].
  assert ((b + total cs + 16, n) ∈ map_to_list L) as He by by apply elem_of_map_to_list.
  rewrite (ho_live _ _ _ _ Hok) fmap_cons elem_of_app in He. simpl in He. iAssert (∃ w, head (b + total cs) ↦ w)%I with "[Hp Hr]" as "[%w Hw]".
  - destruct He as [He|He].
    + apply list_elem_of_fmap in He as ([p s] & [= Ep ->] & Hin). apply locs_split in Hin as (c1 & k & c2 & Ec & Ev & Hk). simpl in *.
      destruct k; [|done]. iEval (rewrite Ec pre_used) in "Hp". by replace (b + total c1) with (b + total cs) by lia.
    + destruct (concat_elem _ _ _ He) as ([b' cs' e'] & rest' & HP & Hin). apply list_elem_of_fmap in Hin as ([p s] & [= Ep ->] & Hin).
      apply locs_split in Hin as (c1 & k & c2 & Ec & Ev & Hk). simpl in *. subst cs'. destruct k; [|done]. unfold regions. rewrite HP. simpl.
      iDestruct "Hr" as "[Hr _]". unfold rmem. simpl. rewrite tail_app. simpl. iDestruct "Hr" as "(_ & Hh' & _)".
      replace (b' + total c1) with (b + total cs) by lia. by iExists _.
  - by iDestruct (pointsto_ne with "[$Hh $Hw]") as %?.
Qed.

Section wp.
Implicit Types g : mstate.

Lemma chunk_plus q n : 0 <= q + n < 2 ^ 64 -> chunk_plus_offset q n = q + n.
Proof. intros H. by apply uwrap_id. Qed.

Lemma wp_set_free g q n Φ : 0 <= q -> q + n < 2 ^ 64 -> 32 <= n -> n mod 16 = 0 ->
  blk q n -∗ (free_chunk q n -∗ Φ tt g) -∗ wp (set_size_and_pinuse_of_free_chunk q n) Φ g.
Proof.
  iIntros (Hq Hqn Hn Hm) "Hb HΦ". rewrite blk_free //. iDestruct "Hb" as "([%h Hh] & Hr & [%f Hf])". unfold set_size_and_pinuse_of_free_chunk, set_foot.
  wsd "Hh". rewrite chunk_plus; [|lia]. unfold prev_foot. iApply (wp_sd with "Hf"). iIntros "Hf". iApply "HΦ".
  unfold PINUSE_BIT. rewrite lor_flag //. iFrame.
Qed.

Lemma lor_used s : s mod 16 = 0 -> Z.lor (Z.lor s PINUSE_BIT) CINUSE_BIT = s + 3.
Proof.
  intros Hs. unfold PINUSE_BIT, CINUSE_BIT. rewrite -Z.lor_assoc. change (Z.lor 1 2) with 3. by apply lor_flag.
Qed.

Lemma wp_set_used g q n Φ : n mod 16 = 0 -> 8 <= n -> blk q n -∗ (head q ↦ (n + 3) -∗ raw (q + 16) (Z.to_nat (n / 8 - 1)) -∗ Φ tt g) -∗
  wp (set_size_and_pinuse_of_inuse_chunk q n) Φ g.
Proof.
  iIntros (Hm Hn) "Hb HΦ". rewrite blk_head //. iDestruct "Hb" as "([%h Hh] & Hr)". unfold set_size_and_pinuse_of_inuse_chunk.
  iApply (wp_sd with "Hh"). iIntros "Hh". rewrite lor_used //. iApply ("HΦ" with "Hh Hr").
Qed.
End wp.
