(* ===== verification/DlMalloc.v ===== *)
(** * dlmalloc: malloc and free

    tmalloc_large, tmalloc_small, dlmalloc and dlfree of c/error/dlmalloc.c.  The
    functions that get memory from the system and give it back are an interface,
    [Sys], with the laws [SysOk]. *)

From iris.proofmode Require Import proofmode.
From S2P Require Import Prelude DlSep DlBase DlBins DlTree DlFree DlSearch DlLayout.

(** The extent of a region: base, size, and whether it ends with the top chunk. *)
Definition extent (r : region) : Z * Z * bool :=
  (base r, total (chunks r) + end_size (fin r), match fin r with Top _ => true | Fence _ => false end).

Class Sys `{Gm} := {
  ensure_initialization : HM unit;
  sys_alloc : Z -> HM Z;
  sys_trim : Z -> HM Z;
  release_unused_segments : HM Z;
  CALL_MUNMAP : Z -> Z -> HM Z;
  (** The pages of an address and a size are mapped. *)
  mapped : Z -> Z -> hpropI;
  (** The records that the allocator keeps of its regions; some of them are blocks. *)
  seg_res : mstate -> list (Z * Z * bool) -> gmap Z Z -> hpropI;
  (** The memory before the first call. *)
  virgin : mstate -> hpropI }.

Section code.
Context `{Sys}.

(** ** Allocation from the tree bins *)

Definition tmalloc_large (nb : Z) : HM Z :=
  x ← tree_search nb;
  let '(v, rsize) := x in
  dvs ← getr dvsize;
  if negb (v =? 0) && (rsize <? u64 (dvs - nb)) then
    ok ← ok_address v;
    if ok : bool then
      let r := chunk_plus_offset v nb in
      if ok_next v r then
        unlink_large_chunk v;;
        (if rsize <? MIN_CHUNK_SIZE then set_inuse_and_pinuse v (u64 (rsize + nb))
         else
           set_size_and_pinuse_of_inuse_chunk v nb;;
           set_size_and_pinuse_of_free_chunk r rsize;;
           insert_chunk r rsize);;
        mret (chunk2mem v)
      else CORRUPTION_ERROR_ACTION
    else CORRUPTION_ERROR_ACTION
  else mret 0.

Definition tmalloc_small (nb : Z) : HM Z :=
  x ← tree_least nb;
  let '(v, rsize) := x in
  ok ← ok_address v;
  if ok : bool then
    let r := chunk_plus_offset v nb in
    if ok_next v r then
      unlink_large_chunk v;;
      (if rsize <? MIN_CHUNK_SIZE then set_inuse_and_pinuse v (u64 (rsize + nb))
       else
         set_size_and_pinuse_of_inuse_chunk v nb;;
         set_size_and_pinuse_of_free_chunk r rsize;;
         replace_dv r rsize);;
      mret (chunk2mem v)
    else CORRUPTION_ERROR_ACTION
  else CORRUPTION_ERROR_ACTION.

(** ** malloc *)

(** The end of dlmalloc: the designated victim, the top chunk, the system. *)
Definition malloc_dv_top (nb : Z) : HM Z :=
  dvs ← getr dvsize;
  ts ← getr topsize;
  if nb <=? dvs then
    let rsize := dvs - nb in
    p ← getr dv;
    (if MIN_CHUNK_SIZE <=? rsize then
       let r := chunk_plus_offset p nb in
       setr (set_dv r);; setr (set_dvsize rsize);;
       set_size_and_pinuse_of_free_chunk r rsize;;
       set_size_and_pinuse_of_inuse_chunk p nb
     else
       setr (set_dvsize 0);; setr (set_dv 0);;
       set_inuse_and_pinuse p dvs);;
    mret (chunk2mem p)
  else if nb <? ts then
    let rsize := ts - nb in
    setr (set_topsize rsize);;
    p ← getr top;
    let r := chunk_plus_offset p nb in
    setr (set_top r);;
    sd (head r) (Z.lor rsize PINUSE_BIT);;
    set_size_and_pinuse_of_inuse_chunk p nb;;
    mret (chunk2mem p)
  else sys_alloc nb.

(** A request of at most MAX_SMALL_REQUEST bytes. *)
Definition malloc_small (bytes : Z) : HM Z :=
  let nb := if bytes <? MIN_REQUEST then MIN_CHUNK_SIZE else pad_request bytes in
  let idx := small_index nb in
  sm ← getr smallmap;
  let smallbits := Z.shiftr sm idx in
  if negb (Z.land smallbits 3 =? 0) then
    let idx := u32 (idx + Z.land (u32 (Z.lnot smallbits)) 1) in
    p ← ld (fd (smallbin_at idx));
    unlink_first_small_chunk (smallbin_at idx) p idx;;
    set_inuse_and_pinuse p (small_index2size idx);;
    mret (chunk2mem p)
  else
    dvs ← getr dvsize;
    if dvs <? nb then
      if negb (smallbits =? 0) then
        let leftbits := Z.land (u32 (Z.shiftl smallbits idx)) (left_bits (idx2bit idx)) in
        let i := compute_bit2idx (least_bit leftbits) in
        p ← ld (fd (smallbin_at i));
        unlink_first_small_chunk (smallbin_at i) p i;;
        let rsize := u64 (small_index2size i - nb) in
        (if rsize <? MIN_CHUNK_SIZE then set_inuse_and_pinuse p (small_index2size i)
         else
           set_size_and_pinuse_of_inuse_chunk p nb;;
           let r := chunk_plus_offset p nb in
           set_size_and_pinuse_of_free_chunk r rsize;;
           replace_dv r rsize);;
        mret (chunk2mem p)
      else
        tm ← getr treemap;
        mem ← (if negb (tm =? 0) then tmalloc_small nb else mret 0);
        if negb (mem =? 0) then mret mem else malloc_dv_top nb
    else malloc_dv_top nb.

Definition malloc_large (bytes : Z) : HM Z :=
  let nb := pad_request bytes in
  tm ← getr treemap;
  mem ← (if negb (tm =? 0) then tmalloc_large nb else mret 0);
  if negb (mem =? 0) then mret mem else malloc_dv_top nb.

Definition dlmalloc (bytes : Z) : HM Z :=
  ensure_initialization;;
  pre ← PREACTION;
  if pre =? 0 then
    mem ← (if bytes <=? MAX_SMALL_REQUEST then malloc_small bytes
           else if MAX_REQUEST <=? bytes then malloc_dv_top MAX_SIZE_T
           else malloc_large bytes);
    POSTACTION;;
    mret mem
  else mret 0.

(** ** free *)

Definition should_trim (s : Z) : HM bool := getr (fun g => trim_check g <? s).

(** Consolidates a chunk with the free chunk before it.  [None]: the block is free and
    in its place; otherwise its new address and size. *)
Definition free_backward (p psize prevsize next : Z) : HM (option (Z * Z)) :=
  let prev := chunk_minus_offset p prevsize in
  let psize := u64 (psize + prevsize) in
  ok ← ok_address prev;
  if ok : bool then
    d ← getr dv;
    if negb (prev =? d) then unlink_chunk prev prevsize;; mret (Some (prev, psize))
    else
      nh ← ld (head next);
      if Z.land nh INUSE_BITS =? INUSE_BITS then
        setr (set_dvsize psize);; set_free_with_pinuse prev psize next;; mret None
      else mret (Some (prev, psize))
  else USAGE_ERROR_ACTION.

(** Consolidates a block with the free chunk [next] after it.  [None]: it is in its place;
    otherwise its new size. *)
Definition free_forward (p psize next : Z) : HM (option Z) :=
  tp ← getr top;
  if next =? tp then
    ts ← getr topsize;
    let tsize := u64 (ts + psize) in
    setr (set_topsize tsize);;
    setr (set_top p);;
    sd (head p) (Z.lor tsize PINUSE_BIT);;
    d ← getr dv;
    (if p =? d then setr (set_dv 0);; setr (set_dvsize 0) else mret tt);;
    t ← should_trim tsize;
    (if t : bool then sys_trim 0;; mret tt else mret tt);;
    mret None
  else
    d ← getr dv;
    if next =? d then
      ds ← getr dvsize;
      let dsize := u64 (ds + psize) in
      setr (set_dvsize dsize);;
      setr (set_dv p);;
      set_size_and_pinuse_of_free_chunk p dsize;;
      mret None
    else
      nsize ← chunksize next;
      let psize := u64 (psize + nsize) in
      unlink_chunk next nsize;;
      set_size_and_pinuse_of_free_chunk p psize;;
      d ← getr dv;
      if p =? d then setr (set_dvsize psize);; mret None else mret (Some psize).

(** Puts a free block into its bin. *)
Definition free_bin (p psize : Z) : HM unit :=
  if is_small psize then insert_small_chunk p psize
  else
    insert_large_chunk p psize;;
    rc ← getr release_checks;
    let rc := u64 (rc - 1) in
    setr (set_release_checks rc);;
    if rc =? 0 then release_unused_segments;; mret tt else mret tt.

(** The chunk [p] goes back to the system. *)
Definition free_mmapped (p psize prevsize : Z) : HM unit :=
  let psize := u64 (psize + prevsize + MMAP_FOOT_PAD) in
  r ← CALL_MUNMAP (u64 (p - prevsize)) psize;
  if r =? 0 then setr (fun g => set_footprint (u64 (footprint g - psize)) g) else mret tt.

(** The second half of dlfree: the chunk after the block. *)
Definition free_rest (p psize next : Z) : HM unit :=
  ok ← (if ok_next p next then pinuse next else mret false);
  if ok : bool then
    c ← cinuse next;
    st ← (if negb c then free_forward p psize next
          else set_free_with_pinuse p psize next;; mret (Some psize));
    match st with None => mret tt | Some psize => free_bin p psize end
  else USAGE_ERROR_ACTION.

(** What dlfree does with the lock held. *)
Definition free_chunk_at (p : Z) : HM unit :=
  ok ← (ok ← ok_address p; if ok : bool then is_inuse p else mret false);
  if ok : bool then
    psize ← chunksize p;
    let next := chunk_plus_offset p psize in
    pin ← pinuse p;
    st ← (if negb pin then
            prevsize ← ld (prev_foot p);
            mm ← is_mmapped p;
            if mm : bool then free_mmapped p psize prevsize;; mret None
            else free_backward p psize prevsize next
          else mret (Some (p, psize)));
    match st with None => mret tt | Some (p, psize) => free_rest p psize next end
  else USAGE_ERROR_ACTION.

Definition dlfree (mem : Z) : HM unit :=
  if negb (mem =? 0) then
    pre ← PREACTION;
    if pre =? 0 then free_chunk_at (mem2chunk mem);; POSTACTION else mret tt
  else mret tt.
End code.

(** ** The heap

    The regions with their free chunks, the blocks that were mapped one by one, and the
    records of the regions.  [L] maps the address of each block of the program to its
    size; the words of a block are the program's. *)

(** What malloc and free may change of the state. *)
Definition core_only (g g' : mstate) : Prop := exists m1 m2 d1 d2 t1 t2 rc fp mx er,
  g' = set_errno er (set_mutex mx (set_footprint fp (set_release_checks rc (set_top t2 (set_topsize t1
         (set_dv d2 (set_dvsize d1 (set_treemap m2 (set_smallmap m1 g))))))))).

Lemma free_core_only g g' : free_only g g' -> core_only g g'.
Proof.
  intros (m1 & m2 & d1 & d2 & ->). exists m1, m2, d1, d2, (topsize g), (top g), (release_checks g), (footprint g), (mutex g), (errno (sysv g)). by destruct g as [????????????[]].
Qed.
Lemma maps_core_only g g' : maps_only g g' -> core_only g g'.
Proof. intros Hm. by apply free_core_only, maps_free_only. Qed.
Lemma core_only_refl g : core_only g g.
Proof. apply free_core_only, free_only_refl. Qed.
Lemma core_only_trans g1 g2 g3 : core_only g1 g2 -> core_only g2 g3 -> core_only g1 g3.
Proof. intros (? & ? & ? & ? & ? & ? & ? & ? & ? & ? & ->) (m1 & m2 & d1 & d2 & t1 & t2 & rc & fp & mx & er & ->). by exists m1, m2, d1, d2, t1, t2, rc, fp, mx, er. Qed.
Lemma core_only_top g t1 t2 : core_only g (set_top t2 (set_topsize t1 g)).
Proof. exists (smallmap g), (treemap g), (dvsize g), (dv g), t1, t2, (release_checks g), (footprint g), (mutex g), (errno (sysv g)). by destruct g as [????????????[]]. Qed.
(** Fields that the bins and the regions do not depend on. *)
Definition set_aux (rc fp mx er : Z) (g : mstate) : mstate := set_errno er (set_mutex mx (set_footprint fp (set_release_checks rc g))).
Lemma core_only_aux g rc fp mx er : core_only g (set_aux rc fp mx er g).
Proof. exists (smallmap g), (treemap g), (dvsize g), (dv g), (topsize g), (top g), rc, fp, mx, er. by destruct g. Qed.
Lemma core_least g g' : core_only g g' -> least_addr g' = least_addr g /\ mflags g' = mflags g.
Proof. by intros (? & ? & ? & ? & ? & ? & ? & ? & ? & ? & ->). Qed.

(** A block [m] of [n] bytes that was mapped on its own: [x] is the size of its chunk and
    the offset of the chunk in the mapping. *)
Definition mm_ok (g : mstate) (m : Z) (x : Z * Z) : Prop :=
  16 < m /\ m mod 16 = 0 /\ 0 < least_addr g <= m - 16 /\ x.1 mod 16 = 0 /\ 32 <= x.1 /\ 0 <= x.2 <= m - 16 /\ x.2 mod 8 = 0 /\ m + x.1 + 16 < 2 ^ 64.
Definition mm_live (MM : gmap Z (Z * Z)) : gmap Z Z := (fun x => x.1 - 16) <$> MM.

Section heap.
Context `{Sys}.

Definition mm_chunk (m : Z) (x : Z * Z) : hpropI :=
  (raw (m - 16 - x.2) (Z.to_nat (x.2 / 8)) ∗ (m - 16) ↦ x.2 ∗ head (m - 16) ↦ x.1 ∗ raw (m - 16 + x.1) 4 ∗
   mapped (m - 16 - x.2) (x.1 + x.2 + MMAP_FOOT_PAD))%I.

(** The heap apart from its regions and free chunks.  The blocks [LR] of the regions are
    the program's or hold segment records. *)
Definition others (g : mstate) (ext : list (Z * Z * bool)) (LR L : gmap Z Z) : hpropI :=
  (∃ MM LP SR, ⌜LR = LP ∪ SR /\ LP ##ₘ SR /\ L = LP ∪ mm_live MM /\ LP ##ₘ mm_live MM /\ map_Forall (mm_ok g) MM⌝ ∗
     ([∗ map] m ↦ x ∈ MM, mm_chunk m x) ∗ seg_res g ext SR)%I.

(** The heap while a call has the lock, and between calls. *)
Definition hp (g : mstate) (L : gmap Z Z) : hpropI :=
  (∃ rs FR LR, ⌜heap_ok g rs FR LR⌝ ∗ frees g FR ∗ regions rs ∗ others g (extent <$> rs) LR L)%I.
Definition dlheap (g : mstate) (L : gmap Z Z) : hpropI := (⌜mutex g = 0⌝ ∗ (hp g L ∨ ⌜L = ∅⌝ ∗ virgin g))%I.

(** A block as malloc returns it. *)
Definition block_ok (m n : Z) : Prop := 0 < m /\ m mod 16 = 0 /\ 0 < n /\ n mod 8 = 0 /\ m + n < 2 ^ 64.
Definition got (nb : Z) (L : gmap Z Z) (m : Z) (g' : mstate) : hpropI :=
  (∃ n, ⌜block_ok m n /\ nb - 8 <= n /\ L !! m = None⌝ ∗ raw m (Z.to_nat (n / 8)) ∗ hp g' (<[m := n]> L))%I.
Definition lock_same (g g' : mstate) : Prop := mflags g' = mflags g /\ mutex g' = mutex g.
Definition malloc_post (g : mstate) (nb : Z) (L : gmap Z Z) (m : Z) (g' : mstate) : hpropI :=
  (⌜lock_same g g'⌝ ∗ ((⌜m = 0⌝ ∗ hp g' L) ∨ got nb L m g'))%I.

(** What the system layer promises: its records do not depend on what malloc and free
    change, and its functions keep the heap. *)
Class SegOk : Prop := {
  seg_res_perm g ext ext' SR : ext ≡ₚ ext' -> seg_res g ext SR ⊢ seg_res g ext' SR;
  seg_res_state g g' ext SR : core_only g g' -> seg_res g ext SR ⊢ seg_res g' ext SR }.
Class SysOk : Prop := {
  ensure_initialization_ok g L : dlheap g L ⊢ wp ensure_initialization (fun _ g' => ⌜mutex g' = 0⌝ ∗ hp g' L) g;
  sys_alloc_ok g L nb : 32 <= nb < 2 ^ 64 -> nb mod 16 = 0 \/ nb = MAX_SIZE_T -> hp g L ⊢ wp (sys_alloc nb) (malloc_post g nb L) g;
  sys_trim_ok g L pad : hp g L ⊢ wp (sys_trim pad) (fun _ g' => ⌜lock_same g g'⌝ ∗ hp g' L) g;
  release_unused_segments_ok g L : hp g L ⊢ wp release_unused_segments (fun _ g' => ⌜lock_same g g'⌝ ∗ hp g' L) g;
  munmap_ok g a n Φ : 0 <= a -> 0 <= n -> a + n < 2 ^ 64 -> raw a (Z.to_nat (n / 8)) -∗ mapped a n -∗
    (∀ r er, Φ r (set_errno er g)) -∗ wp (CALL_MUNMAP a n) Φ g }.
End heap.

Section spec.
Context `{Sys} {HS : SegOk} {HO : SysOk}.

Lemma others_state g g' ext LR L : core_only g g' -> others g ext LR L ⊢ others g' ext LR L.
Proof.
  iIntros (Hc) "(%MM & %LP & %SR & (% & % & % & % & %Hm) & HM & Hs)". iExists MM, LP, SR. iFrame "HM". iSplit; [|by iApply (seg_res_state with "Hs")].
  iPureIntro. split_and!; [done..|]. intros m x Hx. specialize (Hm m x Hx). unfold mm_ok in *. by rewrite (proj1 (core_least _ _ Hc)).
Qed.

Lemma others_perm g ext ext' LR L : ext ≡ₚ ext' -> others g ext LR L ⊢ others g ext' LR L.
Proof. iIntros (HP) "(%MM & %LP & %SR & % & HM & Hs)". iExists MM, LP, SR. iFrame "HM". iSplit; [done|]. by iApply (seg_res_perm with "Hs"). Qed.

(** A new block of the regions, whose head [P] has. *)
Lemma others_insert g ext LR L m n P : LR !! m = None -> (P ⊢ ∃ v, head (m - 16) ↦ v) ->
  others g ext LR L -∗ P -∗ P ∗ ⌜L !! m = None⌝ ∗ others g ext (<[m := n]> LR) (<[m := n]> L).
Proof.
  iIntros (Hm HP) "(%MM & %LP & %SR & (-> & %Hs & -> & %Hd & %Hok) & HM & Hs) HP". apply lookup_union_None in Hm as [HLP HSR]. iAssert ⌜MM !! m = None⌝%I as %HMm.
  { destruct (MM !! m) as [x|] eqn:E; [|done]. iDestruct (big_sepM_lookup with "HM") as "(_ & _ & Hx & _)"; [done|].
    iDestruct (HP with "HP") as "[%v Hh]". by iDestruct (pointsto_ne with "[$Hh $Hx]") as %?. }
  assert (mm_live MM !! m = None) as Hl by (unfold mm_live; by rewrite lookup_fmap HMm). iFrame "HP". iSplit.
  - iPureIntro. by apply lookup_union_None.
  - iExists MM, (<[m := n]> LP), SR. iFrame. iPureIntro.
    split_and!; [by rewrite insert_union_l|by apply map_disjoint_insert_l_2|by rewrite insert_union_l|by apply map_disjoint_insert_l_2|done].
Qed.

(** A block of the program is a block of the regions or has a mapping of its own. *)
Lemma others_block g ext LR L m n : L !! m = Some n -> others g ext LR L -∗
  (⌜LR !! m = Some n⌝ ∗ others g ext (delete m LR) (delete m L)) ∨
  (∃ x, ⌜mm_ok g m x /\ n = (x.1 - 16)%Z⌝ ∗ mm_chunk m x ∗ others g ext LR (delete m L)).
Proof.
  iIntros (HL) "(%MM & %LP & %SR & (-> & %Hs & -> & %Hd & %Hok) & HM & Hs)". apply lookup_union_Some in HL as [HL|HL]; [iLeft|iRight|done].
  - iSplit; [iPureIntro; by apply lookup_union_Some_l|]. iExists MM, (delete m LP), SR. iFrame. iPureIntro. rewrite !delete_union.
    rewrite (delete_id SR); [|by eapply map_disjoint_Some_l]. rewrite (delete_id (mm_live MM)); [|by eapply map_disjoint_Some_l].
    split_and!; [done|by apply map_disjoint_delete_l|done|by apply map_disjoint_delete_l|done].
  - assert (LP !! m = None) as HLP by by eapply map_disjoint_Some_r. unfold mm_live in HL. rewrite lookup_fmap in HL.
    apply fmap_Some in HL as (x & Hx & ->). iExists x. iSplit; [iPureIntro; split; [by apply (Hok m)|done]|]. iDestruct (big_sepM_delete with "HM") as "[$ HM]"; [done|].
    iExists (delete m MM), LP, SR. iFrame. iPureIntro. unfold mm_live. rewrite fmap_delete delete_union (delete_id LP) //.
    split_and!; [done..|by apply map_disjoint_delete_r|by apply map_Forall_delete].
Qed.

(** Putting a heap together after a call that kept its extents. *)
Lemma hp_close g g' rs rs' FR LR L : heap_ok g' rs' FR LR -> core_only g g' -> (extent <$> rs) ≡ₚ (extent <$> rs') ->
  frees g' FR -∗ regions rs' -∗ others g (extent <$> rs) LR L -∗ hp g' L.
Proof.
  iIntros (Hok Hc HP) "Hf Hr Ho". iExists rs', FR, LR. iFrame "Hf Hr". iSplit; [done|]. iApply others_perm; [done|]. by iApply others_state.
Qed.

(** The same with a new block. *)
Lemma hp_close_new g g' rs rs' FR LR L q n : heap_ok g' rs' FR (<[q + 16 := n]> LR) -> LR !! (q + 16) = None -> core_only g g' ->
  (extent <$> rs) ≡ₚ (extent <$> rs') ->
  frees g' FR -∗ regions rs' -∗ others g (extent <$> rs) LR L -∗ ⌜L !! (q + 16)%Z = None⌝ ∗ hp g' (<[q + 16 := n]> L).
Proof.
  iIntros (Hok Hn Hc HP) "Hf Hr Ho". iDestruct (others_insert _ _ _ _ (q + 16) n (regions rs') with "Ho Hr") as "(Hr & $ & Ho)".
  - done.
  - eapply live_head; [done|]. by rewrite lookup_insert_eq.
  - iApply (hp_close with "Hf Hr Ho"); done.
Qed.

(** ** Taking a free chunk *)

Lemma open_free g rs FR LR v sz : heap_ok g rs FR LR -> FR !! v = Some sz ->
  regions rs -∗ free_chunk v sz -∗ ∃ rest b cs1 cs2 e, ⌜rs ≡ₚ Region b (cs1 ++ (Free, sz) :: cs2) e :: rest /\ v = (b + total cs1)%Z /\
    hole_ok g rest b cs1 sz cs2 e (delete v FR) LR /\ next_inuse e cs2 = true /\ out_pin true cs1 = true⌝ ∗
    holemem rest b cs1 sz cs2 e false ∗ blk v sz.
Proof.
  iIntros (Hok Hv) "Hr Hf". destruct (find_free _ _ _ _ _ _ Hok Hv) as (rest & b & cs1 & cs2 & e & HP & ->).
  pose proof (heap_ok_perm _ _ _ _ _ HP Hok) as Hok'. iAssert ⌜LR !! (b + total cs1 + 16)%Z = None⌝%I as %Hn.
  { destruct (LR !! (b + total cs1 + 16)) as [n|] eqn:E; [|done]. iDestruct (live_head with "Hr") as "[%w Hw]"; [done..|].
    replace (b + total cs1 + 16 - 16) with (b + total cs1) by lia. iDestruct "Hf" as "(Hh & _)". by iDestruct (pointsto_ne with "[$Hh $Hw]") as %?. }
  destruct (hole_of_free _ _ _ _ _ _ _ _ _ Hok' Hn) as (Hhole & Hnx & Hpin & _). destruct Hhole as [Hn' Hhok].
  destruct (region_chunk g b cs1 Used sz cs2 e) as ((_ & _ & _ & Hs & Hs' & _) & _); [by eapply heap_region|].
  iExists rest, b, cs1, cs2, e. iSplit; [done|]. iSplitL "Hr"; [|iApply free_chunk_blk; [lia|done|done]].
  unfold regions. rewrite HP. by iApply regions_free.
Qed.

Lemma extent_mid b cs1 k sz cs2 e k' : extent (Region b (cs1 ++ (k, sz) :: cs2) e) = extent (Region b (cs1 ++ (k', sz) :: cs2) e).
Proof. unfold extent. simpl. by rewrite !total_app. Qed.

Lemma extent_split b cs1 k sz cs2 e nb k1 k2 : extent (Region b (cs1 ++ (k, sz) :: cs2) e) = extent (Region b (cs1 ++ (k1, nb) :: (k2, sz - nb) :: cs2) e).
Proof. unfold extent. simpl. rewrite !total_app. simpl. do 2 f_equal. lia. Qed.

(** Setting the pinuse bit of the next chunk. *)
Lemma wp_use_whole g rest b cs1 sz cs2 e FR LR Φ : let q := b + total cs1 in
  hole_ok g rest b cs1 sz cs2 e FR LR -> next_inuse e cs2 = true -> out_pin true cs1 = true ->
  holemem rest b cs1 sz cs2 e false -∗ blk q sz -∗
  (regions (Region b (cs1 ++ (Used, sz) :: cs2) e :: rest) -∗ raw (q + 16) (Z.to_nat (sz / 8 - 1)) -∗ Φ tt g) -∗
  wp (set_inuse_and_pinuse q sz) Φ g.
Proof.
  iIntros (q Hok Hnx Hpin) "Hm Hb HΦ". pose proof Hok as [_ Hheap]. destruct (region_chunk g b cs1 Used sz cs2 e) as ((Hq & _ & _ & Hs & Hs' & _) & Hend & Hbd); [by eapply heap_region|].
  fold q in Hq, Hbd. unfold set_inuse_and_pinuse. rewrite blk_head; [|lia]. iDestruct "Hb" as "([%h Hh] & Hraw)". wsd "Hh".
  rewrite chunk_plus; [|lia]. iDestruct (holemem_next with "Hm") as "(%nh & %Hnh & Hn & Hm)"; [done..|]. wld "Hn".
  destruct (inuse_flags nh false Hnh) as (_ & _ & _ & _ & _ & -> & _). iApply (wp_sd with "Hn"). iIntros "Hn". iDestruct ("Hm" $! true with "Hn") as "Hm".
  iApply ("HΦ" with "[Hm Hh] Hraw"). rewrite regions_used Hpin lor_used //. fold q. replace (sz + 2 + Z.b2z true) with (sz + 3) by (simpl; lia). iFrame.
Qed.

(** The part of a chunk that is not needed stays free. *)
Lemma wp_use_split g rest b cs1 sz cs2 e FR LR nb {A} (k : HM A) Φ : let q := b + total cs1 in
  hole_ok g rest b cs1 sz cs2 e FR LR -> out_pin true cs1 = true -> nb mod 16 = 0 -> 32 <= nb -> 32 <= sz - nb ->
  holemem rest b cs1 sz cs2 e false -∗ blk q sz -∗
  (regions (Region b (cs1 ++ (Used, nb) :: (Free, sz - nb) :: cs2) e :: rest) -∗ raw (q + 16) (Z.to_nat (nb / 8 - 1)) -∗ free_chunk (q + nb) (sz - nb) -∗ wp k Φ g) -∗
  wp (set_size_and_pinuse_of_inuse_chunk q nb;; set_size_and_pinuse_of_free_chunk (q + nb) (sz - nb);; k) Φ g.
Proof.
  iIntros (q Hok Hpin Hnb Hnb1 Hnb2) "Hm Hb HΦ". pose proof Hok as [_ Hheap]. destruct (region_chunk g b cs1 Used sz cs2 e) as ((Hq & _ & _ & Hs & Hs' & _) & Hend & Hbd); [by eapply heap_region|].
  fold q in Hq, Hbd. replace sz with (nb + (sz - nb)) at 2 by lia. rewrite blk_join; [|lia|lia|zdm]. iDestruct "Hb" as "[Hb1 Hb2]". wbind.
  iApply (wp_set_used with "Hb1"); [done|lia|]. iIntros "Hh Hraw". wbind. iApply (wp_set_free with "Hb2"); [lia|lia|lia|zdm|].
  iIntros "Hf". iApply ("HΦ" with "[Hm Hh] Hraw Hf"). rewrite regions_split Hpin. fold q. replace (nb + 2 + Z.b2z true) with (nb + 3) by (simpl; lia). iFrame.
Qed.

Lemma chunk_block g v sz : good g v sz -> block_ok (v + 16) (sz - 8) /\ chunk2mem v = v + 16 /\ Z.to_nat ((sz - 8) / 8) = Z.to_nat (sz / 8 - 1).
Proof.
  intros (Hv & Hva & _ & Hs & Hsr & Hend). split; [split_and!; try lia; zdm|]. split; [apply uwrap_id; unfold in_u; lia|f_equal; zdm].
Qed.

Lemma heap_ok_free g g1 rs FR LR : free_only g g1 -> heap_ok g rs FR LR -> heap_ok g1 rs FR LR.
Proof. intros (m1 & m2 & d1 & d2 & ->). by apply heap_ok_state. Qed.

(** A whole free chunk goes to the program. *)
Lemma wp_carve_whole g g1 rs FR LR L v sz nb Φ : heap_ok g rs FR LR -> FR !! v = Some sz -> free_only g g1 -> nb <= sz ->
  frees g1 (delete v FR) -∗ regions rs -∗ free_chunk v sz -∗ others g (extent <$> rs) LR L -∗
  (got nb L (chunk2mem v) g1 -∗ Φ tt g1) -∗ wp (set_inuse_and_pinuse v sz) Φ g1.
Proof.
  iIntros (Hok Hv Hc Hnb) "Hf Hr Hfc Ho HΦ". pose proof (heap_ok_free _ _ _ _ _ Hc Hok) as Hok1.
  iDestruct (open_free with "Hr Hfc") as (rest b cs1 cs2 e) "((%HP & -> & %Hhole & %Hnx & %Hpin) & Hm & Hb)"; [done..|].
  pose proof Hhole as [Hn Hheap]. destruct (region_chunk g1 b cs1 Used sz cs2 e) as (Hg & _ & _); [by eapply heap_region|].
  destruct (chunk_block _ _ _ Hg) as (Hblk & Emem & Esz). iApply (wp_use_whole with "Hm Hb"); [done..|]. iIntros "Hr Hraw". iApply "HΦ".
  iDestruct (hp_close_new g g1 with "Hf Hr Ho") as "[%HL Hhp]"; [done|done|by apply free_core_only|rewrite HP !fmap_cons; by rewrite (extent_mid _ _ Free _ _ _ Used)|].
  rewrite Emem. iExists (sz - 8). iFrame "Hhp". rewrite Esz. iFrame. iPureIntro. split_and!; [done|lia|done].
Qed.

(** A part of a free chunk goes to the program; [k] puts the rest among the free chunks. *)
Lemma wp_carve_split g g1 rs FR LR L v nb rsize {A} (k : HM A) Φ : heap_ok g rs FR LR -> FR !! v = Some (nb + rsize) -> free_only g g1 ->
  nb mod 16 = 0 -> 32 <= nb -> 32 <= rsize ->
  frees g1 (delete v FR) -∗ regions rs -∗ free_chunk v (nb + rsize) -∗ others g (extent <$> rs) LR L -∗
  (⌜good g1 (v + nb) rsize⌝ -∗ frees g1 (delete v FR) -∗ free_chunk (v + nb) rsize -∗
   (∀ g2, ⌜free_only g1 g2⌝ -∗ frees g2 (<[v + nb := rsize]> (delete v FR)) -∗ got nb L (chunk2mem v) g2) -∗ wp k Φ g1) -∗
  wp (set_size_and_pinuse_of_inuse_chunk v nb;; set_size_and_pinuse_of_free_chunk (v + nb) rsize;; k) Φ g1.
Proof.
  iIntros (Hok Hv Hc Hnb Hnb1 Hnb2) "Hf Hr Hfc Ho HΦ". set (sz := nb + rsize) in *. assert (rsize = sz - nb) as Ers by (subst sz; lia). rewrite Ers in Hnb2 |- *. pose proof (heap_ok_free _ _ _ _ _ Hc Hok) as Hok1.
  iDestruct (open_free with "Hr Hfc") as (rest b cs1 cs2 e) "((%HP & -> & %Hhole & %Hnx & %Hpin) & Hm & Hb)"; [done..|].
  pose proof Hhole as [Hn Hheap]. destruct (region_chunk g1 b cs1 Used sz cs2 e) as (Hg & _ & _); [by eapply heap_region|].
  pose proof Hg as (Hp & Hpa & Hla & Hsa & Hsr & Hend). assert (good g1 (b + total cs1) nb) as Hgn by (split_and!; done || lia).
  destruct (chunk_block _ _ _ Hgn) as (Hblk & Emem & Esz). iApply (wp_use_split with "Hm Hb"); [done..|]. iIntros "Hr Hraw Hfc".
  iAssert ⌜delete (b + total cs1)%Z FR !! (b + total cs1 + nb)%Z = None⌝%I as %HFn. { iDestruct "Hfc" as "(Hh & _)". iApply (frees_fresh with "Hf Hh"). }
  iApply ("HΦ" with "[] Hf Hfc"); [iPureIntro; split_and!; try done; try lia; zdm|]. iIntros (g2 Hc2) "Hf".
  pose proof (free_only_trans _ _ _ Hc Hc2) as Hc'. pose proof (hole_split _ _ _ _ _ _ _ _ _ nb Hhole Hnb Hnb1 Hnb2 HFn Hnx) as Hok2.
  iDestruct (hp_close_new g g2 with "Hf Hr Ho") as "[%HL Hhp]"; [exact (heap_ok_free _ _ _ _ _ Hc2 Hok2)|done|by apply free_core_only| |].
  { rewrite HP !fmap_cons. by rewrite (extent_split _ _ Free _ _ _ nb Used Free). }
  rewrite Emem. iExists (nb - 8). iFrame "Hhp". rewrite Esz. iFrame. iPureIntro. split_and!; [done|lia|done].
Qed.

(** ** The tree bins *)

Lemma large_unlink v s : 256 <= s -> unlink_chunk v s = unlink_large_chunk v.
Proof.
  intros Hs. unfold unlink_chunk. assert (is_small s = false) as ->; [|done]. unfold is_small, NSMALLBINS, SMALLBIN_SHIFT.
  rewrite Z.shiftr_div_pow2 // Z.ltb_ge. change (2 ^ 3) with 8. zdm.
Qed.

(** A binned chunk is a free chunk and not the designated victim. *)
Lemma dv_ok_binned g F FR v s : dv_ok g F FR -> F !! v = Some s -> 0 < v -> FR !! v = Some s /\ v <> dv g.
Proof.
  intros [(_ & Hd & ->)|(_ & Hd & _ & ->)] Hv Hpos; [split; [done|lia]|]. assert (v <> dv g) as Hne by (intros ->; by rewrite Hd in Hv).
  split; [|done]. by rewrite lookup_insert_ne.
Qed.

Lemma wp_free_search g FR nb : 256 <= nb < 2 ^ 64 ->
  frees g FR -∗ wp (tree_search nb) (fun x g' => ⌜g' = g /\ exists F, dv_ok g F FR /\ tree_fit nb F x.1 x.2⌝ ∗ frees g FR) g.
Proof.
  iIntros (Hnb) "(%F & %Hdv & Hb & Hd)". iApply (wp_wand with "[Hb]"); [by iApply (wp_store_search with "Hb")|].
  iIntros (x g') "((-> & %Hfit) & Hb)". iSplit; [iPureIntro; by eauto|]. iExists F. by iFrame.
Qed.

Lemma wp_free_least g FR nb : 0 < nb < 256 -> treemap g <> 0 ->
  frees g FR -∗ wp (tree_least nb) (fun x g' => ⌜g' = g /\ x.1 <> 0 /\ exists F, dv_ok g F FR /\ tree_fit nb F x.1 x.2⌝ ∗ frees g FR) g.
Proof.
  iIntros (Hnb Htm) "(%F & %Hdv & Hb & Hd)". iApply (wp_wand with "[Hb]"); [by iApply (wp_store_least with "Hb")|].
  iIntros (x g') "((-> & %Hfit & %Hv) & Hb)". iSplit; [iPureIntro; by eauto|]. iExists F. by iFrame.
Qed.

Lemma lock_same_refl g : lock_same g g.
Proof. done. Qed.
Lemma lock_same_trans g1 g2 g3 : lock_same g1 g2 -> lock_same g2 g3 -> lock_same g1 g3.
Proof. intros [? ?] [? ?]. split; congruence. Qed.
Lemma free_lock_same g g' : free_only g g' -> lock_same g g'.
Proof. by intros (? & ? & ? & ? & ->). Qed.

(** The end of tmalloc_large and tmalloc_small: the chunk [v] is unlinked and carved; [k]
    puts the rest among the free chunks. *)
Lemma wp_tree_carve g rs FR LR L v nb rsize k : heap_ok g rs FR LR -> FR !! v = Some (nb + rsize) -> v <> dv g -> 256 <= nb + rsize ->
  nb mod 16 = 0 -> 32 <= nb -> 0 <= rsize ->
  (forall g1 FR1, maps_only g g1 -> good g1 (v + nb) rsize ->
     frees g1 FR1 -∗ free_chunk (v + nb) rsize -∗ wp k (fun _ g2 => ⌜free_only g1 g2⌝ ∗ frees g2 (<[v + nb := rsize]> FR1)) g1) ->
  frees g FR -∗ regions rs -∗ others g (extent <$> rs) LR L -∗
  wp (ok ← ok_address v;
      if ok : bool then
        let r := chunk_plus_offset v nb in
        if ok_next v r then
          unlink_large_chunk v;;
          (if rsize <? MIN_CHUNK_SIZE then set_inuse_and_pinuse v (u64 (rsize + nb))
           else set_size_and_pinuse_of_inuse_chunk v nb;; set_size_and_pinuse_of_free_chunk r rsize;; k);;
          mret (chunk2mem v)
        else CORRUPTION_ERROR_ACTION
      else CORRUPTION_ERROR_ACTION) (malloc_post g nb L) g.
Proof.
  iIntros (Hok Hv Hne H256 Hnb Hnb1 Hrs Hk) "Hf Hr Ho". iDestruct (frees_good with "Hf") as %Hg; [done|]. pose proof Hg as (Hp & Hpa & Hla & Hsa & Hsr & Hend).
  wbind. iApply wp_ok_address; [done|]. rewrite {1}/ok_next chunk_plus; [|lia]. rewrite (proj2 (Z.ltb_lt _ _)); [|lia].
  rewrite -(large_unlink v (nb + rsize)) //. wbind. iApply (wp_wand with "[Hf]"); [by iApply (wp_free_unlink with "Hf")|].
  iIntros (_ g1) "(%Hm & Hf & Hfc)". pose proof (maps_free_only _ _ Hm) as Hc. destruct (Z.ltb_spec rsize MIN_CHUNK_SIZE) as [Hlt|Hge].
  - rewrite uwrap_id; [|unfold in_u; lia]. rewrite (Z.add_comm rsize nb). wbind. iApply (wp_carve_whole _ _ _ _ _ _ _ _ nb with "Hf Hr Hfc Ho"); [done|done|done|lia|].
    iIntros "Hgot". wret. iSplit; [iPureIntro; by apply free_lock_same|]. by iRight.
  - unfold MIN_CHUNK_SIZE in Hge. wnorm. iApply wp_bind. iApply (wp_carve_split with "Hf Hr Hfc Ho"); [done|done|done|done|lia|lia|].
    iIntros (Hgr) "Hf Hfc Hclose".
    iApply (wp_wand with "[Hf Hfc]"); [by iApply (Hk with "Hf Hfc")|]. iIntros (_ g2) "(%Hc2 & Hf)". wret.
    iSplit; [iPureIntro; apply free_lock_same; by eapply free_only_trans|]. iRight. by iApply ("Hclose" with "[] Hf").
Qed.

Lemma wp_tmalloc_large g L nb : 256 <= nb < 2 ^ 64 -> nb mod 16 = 0 -> hp g L ⊢ wp (tmalloc_large nb) (malloc_post g nb L) g.
Proof.
  iIntros (Hnb Hnb16) "(%rs & %FR & %LR & %Hok & Hf & Hr & Ho)". unfold tmalloc_large. wbind. iApply (wp_wand with "[Hf]"); [by iApply (wp_free_search with "Hf")|].
  iIntros ([v rsize] g') "((-> & %F & %Hdv & %Hfit) & Hf)". cbn [fst snd] in Hfit. wget.
  destruct (negb (v =? 0) && _) eqn:Ev.
  - apply andb_prop in Ev as [Ev%negb_true_iff%Z.eqb_neq _]. destruct Hfit as [(? & _)|(Hv & Hrs & HFv & H256 & _)]; [done|].
    destruct (dv_ok_binned _ _ _ _ _ Hdv HFv Hv) as [HFR Hne]. iApply (wp_tree_carve with "Hf Hr Ho"); [done..|lia|done|].
    iIntros (g1 FR1 Hm Hgr) "Hf Hfc". rewrite chunk_plus; [|destruct Hgr as (? & _ & _ & _ & ? & ?); lia].
    iApply (wp_wand with "[Hf Hfc]"); [by iApply (wp_free_insert with "Hf Hfc")|].
    iIntros (_ g2) "[%Hm2 $]". iPureIntro. by apply maps_free_only.
  - wret. iSplit; [done|]. iLeft. iSplit; [done|]. iExists rs, FR, LR. by iFrame.
Qed.

Lemma wp_tmalloc_small g L nb : 32 <= nb < 256 -> nb mod 16 = 0 -> treemap g <> 0 -> is_small (dvsize g) = true ->
  hp g L ⊢ wp (tmalloc_small nb) (malloc_post g nb L) g.
Proof.
  iIntros (Hnb Hnb16 Htm Hdvs) "(%rs & %FR & %LR & %Hok & Hf & Hr & Ho)". unfold tmalloc_small. wbind.
  iApply (wp_wand with "[Hf]"); [iApply (wp_free_least with "Hf"); [lia|done]|].
  iIntros ([v rsize] g') "((-> & %Hv0 & %F & %Hdv & %Hfit) & Hf)". cbn [fst snd] in Hfit, Hv0.
  destruct Hfit as [(? & _)|(Hv & Hrs & HFv & H256 & _)]; [done|]. destruct (dv_ok_binned _ _ _ _ _ Hdv HFv Hv) as [HFR Hne].
  iApply (wp_tree_carve with "Hf Hr Ho"); [done..|lia|done|]. iIntros (g1 FR1 Hm Hgr) "Hf Hfc". rewrite chunk_plus; [|destruct Hgr as (? & _ & _ & _ & ? & ?); lia].
  iApply (wp_replace_dv with "Hf Hfc"); [done|]. by destruct Hm as (? & ? & ->).
Qed.

(** ** The designated victim and the top chunk *)

(** Taking the designated victim, and having none or another one. *)
Lemma frees_dv g FR : 0 < dvsize g -> frees g FR ⊢ ∃ F, ⌜FR !! dv g = Some (dvsize g) /\ delete (dv g) FR = F /\ good g (dv g) (dvsize g)⌝ ∗
  bins g F ∗ free_chunk (dv g) (dvsize g).
Proof.
  iIntros (Hd) "(%F & %Hdv & Hb & Hfc)". destruct Hdv as [(? & _)|(_ & HFd & Hg & ->)]; [lia|]. rewrite (proj2 (Z.eqb_neq _ _)); [|lia].
  iExists F. iFrame. iPureIntro. rewrite lookup_insert_eq delete_insert_id //.
Qed.

Lemma frees_no_dv g F : bins g F ⊢ frees (set_dv 0 (set_dvsize 0 g)) F.
Proof.
  iIntros "Hb". iExists F. simpl. iSplit; [iPureIntro; by left|]. iSplit; [|done]. by iApply (bins_state with "Hb").
Qed.

Lemma frees_new_dv g F d s : good g d s -> bins g F -∗ free_chunk d s -∗ ⌜F !! d = None⌝ ∗ frees (set_dv d (set_dvsize s g)) (<[d := s]> F).
Proof.
  iIntros (Hg) "Hb Hfc". iAssert ⌜F !! d = None⌝%I as %Hn. { iDestruct "Hfc" as "(Hh & _)". iApply (bins_fresh with "Hb Hh"). }
  iSplit; [done|]. pose proof Hg as (_ & _ & _ & _ & Hs & _). iExists F. simpl. rewrite (proj2 (Z.eqb_neq s 0)); [|lia]. iFrame.
  iSplit; [iPureIntro; right; split_and!; [simpl; lia|done..]|]. by iApply (bins_state with "Hb").
Qed.

(** As [wp_use_split], with the two chunks written in the other order. *)
Lemma wp_use_split_rev g rest b cs1 sz cs2 e FR LR nb Φ : let q := b + total cs1 in
  hole_ok g rest b cs1 sz cs2 e FR LR -> out_pin true cs1 = true -> nb mod 16 = 0 -> 32 <= nb -> 32 <= sz - nb ->
  holemem rest b cs1 sz cs2 e false -∗ blk q sz -∗
  (regions (Region b (cs1 ++ (Used, nb) :: (Free, sz - nb) :: cs2) e :: rest) -∗ raw (q + 16) (Z.to_nat (nb / 8 - 1)) -∗ free_chunk (q + nb) (sz - nb) -∗ Φ tt g) -∗
  wp (set_size_and_pinuse_of_free_chunk (q + nb) (sz - nb);; set_size_and_pinuse_of_inuse_chunk q nb) Φ g.
Proof.
  iIntros (q Hok Hpin Hnb Hnb1 Hnb2) "Hm Hb HΦ". pose proof Hok as [_ Hheap]. destruct (region_chunk g b cs1 Used sz cs2 e) as ((Hq & _ & _ & Hs & Hs' & _) & Hend & Hbd); [by eapply heap_region|].
  fold q in Hq, Hbd. replace sz with (nb + (sz - nb)) at 2 by lia. rewrite blk_join; [|lia|lia|zdm]. iDestruct "Hb" as "[Hb1 Hb2]". wbind.
  iApply (wp_set_free with "Hb2"); [lia|lia|lia|zdm|]. iIntros "Hf". iApply (wp_set_used with "Hb1"); [done|lia|]. iIntros "Hh Hraw".
  iApply ("HΦ" with "[Hm Hh] Hraw Hf"). rewrite regions_split Hpin. fold q. replace (nb + 2 + Z.b2z true) with (nb + 3) by (simpl; lia). iFrame.
Qed.

Lemma wp_malloc_dv g L nb : 32 <= nb -> nb <= dvsize g -> nb mod 16 = 0 ->
  hp g L ⊢ wp (let rsize := dvsize g - nb in
    p ← getr dv;
    (if MIN_CHUNK_SIZE <=? rsize then
       let r := chunk_plus_offset p nb in
       setr (set_dv r);; setr (set_dvsize rsize);; set_size_and_pinuse_of_free_chunk r rsize;; set_size_and_pinuse_of_inuse_chunk p nb
     else setr (set_dvsize 0);; setr (set_dv 0);; set_inuse_and_pinuse p (dvsize g));;
    mret (chunk2mem p)) (malloc_post g nb L) g.
Proof.
  iIntros (Hnb Hle Hnb16) "(%rs & %FR & %LR & %Hok & Hf & Hr & Ho)". wget.
  iDestruct (frees_dv with "Hf") as (F) "((%Hdv & %HF & %Hg) & Hb & Hfc)"; [lia|]. pose proof Hg as (Hp & Hpa & Hla & Hsa & Hsr & Hend).
  destruct (Z.leb_spec MIN_CHUNK_SIZE (dvsize g - nb)) as [Hge|Hlt]; unfold MIN_CHUNK_SIZE in *.
  - rewrite chunk_plus; [|lia]. wset. wset. set (g1 := set_dvsize (dvsize g - nb) (set_dv (dv g + nb) g)).
    assert (free_only g g1) as Hc by apply (free_only_dv g (dvsize g - nb) (dv g + nb)). pose proof (heap_ok_free _ _ _ _ _ Hc Hok) as Hok1.
    iDestruct (open_free with "Hr Hfc") as (rest b cs1 cs2 e) "((%HP & %Edv & %Hhole & %Hnx & %Hpin) & Hm & Hblk)"; [done..|]. pose proof Hhole as [Hn Hheap].
    rewrite Edv. iApply (wp_use_split_rev with "Hm Hblk"); [done|done|done|lia|lia|]. iIntros "Hr Hraw Hfc". wret. rewrite -Edv.
    assert (good g (dv g + nb) (dvsize g - nb)) as Hgr by (split_and!; try lia; zdm).
    iDestruct (frees_new_dv with "Hb Hfc") as "[%HFn Hf]"; [done|]. rewrite HF in Hhole.
    pose proof (hole_split _ _ _ _ _ _ _ _ _ nb Hhole Hnb16 Hnb Hge) as Hok2. rewrite -Edv in Hok2. specialize (Hok2 HFn Hnx).
    iDestruct (hp_close_new g g1 with "Hf Hr Ho") as "[%HL Hhp]"; [done|by rewrite Edv|by apply free_core_only| |].
    { rewrite HP !fmap_cons. by rewrite (extent_split _ _ Free _ _ _ nb Used Free). }
    iSplit; [iPureIntro; by apply free_lock_same|]. iRight. assert (good g (dv g) nb) as Hgn by (split_and!; done || lia).
    destruct (chunk_block _ _ _ Hgn) as (Hblk & Emem & Esz). rewrite Emem. iExists (nb - 8). iFrame "Hhp". rewrite Esz. iFrame. iPureIntro. split_and!; [done|lia|done].
  - wset. wset. iDestruct (frees_no_dv with "Hb") as "Hf". rewrite -HF. iApply (wp_carve_whole g _ _ _ _ _ _ _ nb with "Hf Hr Hfc Ho"); [done|done|apply free_only_dv|lia|].
    iIntros "Hgot". wret. iSplit; [done|]. by iRight.
Qed.

Lemma extent_top b cs ts nb : extent (Region b cs (Top ts)) = extent (Region b (cs ++ [(Used, nb)]) (Top (ts - nb))).
Proof. unfold extent. simpl. rewrite total_app. simpl. do 2 f_equal. lia. Qed.

Lemma wp_malloc_top g L nb : 32 <= nb -> nb < topsize g -> nb mod 16 = 0 ->
  hp g L ⊢ wp (let rsize := topsize g - nb in
    setr (set_topsize rsize);;
    p ← getr top;
    let r := chunk_plus_offset p nb in
    setr (set_top r);; sd (head r) (Z.lor rsize PINUSE_BIT);; set_size_and_pinuse_of_inuse_chunk p nb;; mret (chunk2mem p)) (malloc_post g nb L) g.
Proof.
  iIntros (Hnb Hlt Hnb16) "(%rs & %FR & %LR & %Hok & Hf & Hr & Ho)". wset. wget. simpl top. wset.
  destruct (find_top _ _ _ _ Hok) as (rest & b & cs & HP & Etop); [lia|]. pose proof (heap_ok_perm _ _ _ _ _ HP Hok) as Hok'.
  pose proof (heap_region _ _ _ _ _ Hok') as [(Hb1 & Hb2 & Hb3) Hpre (Hpin & Hts16 & Htspos) Hsz Hbd]. simpl in *.
  destruct (pre_ok_total _ _ Hpre) as [Ht1 Ht2]. set (q := b + total cs) in *. set (ts := topsize g) in *.
  iDestruct (regions_perm _ _ HP with "Hr") as "Hr". rewrite regions_top. iDestruct "Hr" as "(Hp & (Hh & Hraw) & Hr)".
  iDestruct (top_fresh with "Hp Hr Hh") as %Hn; [done|]. fold q in Hn |- *. rewrite Etop. rewrite chunk_plus; [|lia].
  replace (Z.to_nat (ts / 8)) with (Z.to_nat (nb / 8 - 1) + S (Z.to_nat ((ts - nb) / 8)))%nat by zdm. rewrite raw_app. cbn [raw].
  replace (q + 16 + 8 * Z.to_nat (nb / 8 - 1)) with (head (q + nb)) by (unfold head; zdm). iDestruct "Hraw" as "(Hraw & [%h Hhr] & Hrest)".
  wsd "Hhr". unfold PINUSE_BIT at 1. rewrite lor_flag; [|zdm|lia]. wbind. unfold set_size_and_pinuse_of_inuse_chunk. iApply (wp_sd with "Hh"). iIntros "Hh". rewrite lor_used //.
  pose proof (split_top _ _ _ _ _ nb _ _ Hok' Hnb16 (conj Hnb Hlt) Hn) as Hok2. fold q in Hok2.
  wret. iSplit; [done|]. iRight. set (g1 := set_top (q + nb) (set_topsize (ts - nb) g)) in *.
  iDestruct (hp_close_new g g1 with "[Hf] [Hp Hh Hhr Hrest Hr] Ho") as "[%HL Hhp]"; [exact Hok2|done|apply core_only_top| | | |].
  - rewrite HP !fmap_cons. by rewrite (extent_top b cs ts nb).
  - iDestruct "Hf" as (F) "(%Hdv & Hb & Hd)". iExists F. iSplit; [done|]. iFrame "Hd". by iApply (bins_state with "Hb").
  - rewrite regions_top pre_app total_app. simpl. fold q. rewrite Hpin. replace (b + (total cs + (nb + 0))) with (q + nb) by (subst q; lia).
    replace (nb + 2 + Z.b2z true) with (nb + 3) by (simpl; lia). replace (q + nb + 16) with (head (q + nb) + 8) by (unfold head; lia). iFrame.
  - assert (good g q nb) as Hgn by (split_and!; try lia; subst q; zdm). destruct (chunk_block _ _ _ Hgn) as (Hblk & Emem & Esz). rewrite Emem.
    iExists (nb - 8). iFrame "Hhp". rewrite Esz. iFrame. iPureIntro. split_and!; [done|lia|done].
Qed.

Lemma hp_bounds g L : hp g L ⊢ ⌜0 <= dvsize g < 2 ^ 40 /\ topsize g < 2 ^ 40⌝.
Proof.
  iIntros "(%rs & %FR & %LR & %Hok & Hf & _ & _)". iSplit.
  - iDestruct "Hf" as (F) "(%Hdv & _)". iPureIntro. destruct Hdv as [(-> & _)|(_ & _ & (_ & _ & _ & _ & Hs & _) & _)]; lia.
  - iPureIntro. destruct (decide (topsize g = 0)) as [->|Hne]; [lia|]. destruct (find_top _ _ _ _ Hok Hne) as (rest & b & cs & HP & _).
    pose proof (heap_region _ _ _ _ _ (heap_ok_perm _ _ _ _ _ HP Hok)) as [_ Hpre _ Hsz _]. simpl in *. destruct (pre_ok_total _ _ Hpre). lia.
Qed.

Lemma wp_malloc_dv_top g L nb : 32 <= nb < 2 ^ 64 -> nb mod 16 = 0 \/ nb = MAX_SIZE_T ->
  hp g L ⊢ wp (malloc_dv_top nb) (malloc_post g nb L) g.
Proof.
  iIntros (Hnb Hnb16) "Hhp". iDestruct (hp_bounds with "Hhp") as %[Hd Ht].
  unfold malloc_dv_top. wget. wget. destruct (Z.leb_spec nb (dvsize g)); [|destruct (Z.ltb_spec nb (topsize g))].
  - iApply (wp_malloc_dv with "Hhp"); [lia|done|]. destruct Hnb16 as [|]; [done|unfold MAX_SIZE_T in *; lia].
  - iApply (wp_malloc_top with "Hhp"); [lia|done|]. destruct Hnb16 as [|]; [done|unfold MAX_SIZE_T in *; lia].
  - by iApply (sys_alloc_ok with "Hhp").
Qed.

(** ** Small requests *)

Lemma small_nb bytes : 0 <= bytes <= MAX_SMALL_REQUEST -> let nb := if bytes <? MIN_REQUEST then MIN_CHUNK_SIZE else pad_request bytes in
  32 <= nb < 256 /\ nb mod 16 = 0 /\ bytes + 8 <= nb.
Proof.
  change MAX_SMALL_REQUEST with 232. change MIN_REQUEST with 23. change MIN_CHUNK_SIZE with 32. intros Hb nb. subst nb.
  destruct (Z.ltb_spec bytes 23); [split_and!; (done || lia)|]. destruct (pad_request_spec bytes) as [Hp1 Hp2]; [change MAX_REQUEST with (2 ^ 64 - 128); lia|].
  split_and!; try done; try lia; zdm.
Qed.

Lemma land3_testbit x : Z.land x 3 <> 0 -> Z.testbit x (Z.land (u32 (Z.lnot x)) 1) = true.
Proof.
  assert (Z.land (u32 (Z.lnot x)) 1 = if Z.testbit x 0 then 0 else 1) as ->.
  { rewrite Z.land_comm land_uwrap; [|lia|unfold in_u; lia]. rewrite Z.land_comm. change 1 with (Z.ones 1) at 1. rewrite Z.land_ones // -Z.bit0_mod Z.lnot_spec //. by destruct (Z.testbit x 0). }
  intros Hn. destruct (Z.testbit x 0) eqn:E0; [done|]. destruct (Z.testbit x 1) eqn:E1; [done|]. exfalso. apply Hn.
  apply Z.bits_inj'. intros n Hn'. rewrite Z.land_spec Z.bits_0. destruct (decide (n < 2)).
  - assert (n = 0 \/ n = 1) as [->| ->] by lia; [by rewrite E0|by rewrite E1].
  - apply andb_false_intro2. change 3 with (Z.ones 2). rewrite Z.ones_spec_high //. lia.
Qed.

Lemma index2size i : 0 <= i < 32 -> small_index2size i = 8 * i.
Proof. intros Hi. unfold small_index2size, SMALLBIN_SHIFT. rewrite Z.shiftl_mul_pow2 // uwrap_id; [change (2 ^ 3) with 8; lia|unfold in_u; change (2 ^ 3) with 8; lia]. Qed.

(** The bins above the one of the request that hold a chunk. *)
Lemma left_smallbits sm idx : in_u 32 sm -> 0 <= idx < 32 -> let smallbits := Z.shiftr sm idx in
  Z.land smallbits 3 = 0 -> smallbits <> 0 ->
  let i := compute_bit2idx (least_bit (Z.land (u32 (Z.shiftl smallbits idx)) (left_bits (idx2bit idx)))) in
  0 <= i < 32 /\ idx < i /\ Z.testbit sm i = true.
Proof.
  intros Hsm Hidx sb Hl3 Hsb. set (lb := Z.land _ _). assert (forall j, 0 <= j < 32 -> Z.testbit lb j = (idx <? j) && Z.testbit sm j) as Hbit.
  { intros j Hj. subst lb sb. rewrite Z.land_spec left_bits_spec // uwrap_land // Z.land_spec Z.ones_spec_low; [|lia]. rewrite andb_true_r Z.shiftl_spec; [|lia].
    destruct (Z.ltb_spec idx j); [|by rewrite andb_false_r]. rewrite andb_true_r /= Z.shiftr_spec; [|lia]. f_equal. lia. }
  assert (in_u 32 lb) as Hlb by (subst lb; apply land_u32, uwrap_range; lia). assert (lb <> 0) as Hne.
  { intros E. apply Hsb. apply Z.bits_inj'. intros n Hn. rewrite Z.bits_0. destruct (decide (n + idx < 32)) as [Hlt|Hge].
    - destruct (decide (n < 2)).
      + apply (f_equal (fun z => Z.testbit z n)) in Hl3. rewrite Z.land_spec Z.bits_0 in Hl3. change 3 with (Z.ones 2) in Hl3. rewrite Z.ones_spec_low in Hl3; [|lia]. by rewrite andb_true_r in Hl3.
      + subst sb. rewrite Z.shiftr_spec //. specialize (Hbit (n + idx) ltac:(lia)). rewrite E Z.bits_0 (proj2 (Z.ltb_lt _ _)) in Hbit; [|lia]. done.
    - subst sb. rewrite Z.shiftr_spec //. destruct (decide (sm = 0)) as [->|]; [apply Z.bits_0|]. apply Z.bits_above_log2; [apply Hsm|].
      apply Z.log2_lt_pow2; [unfold in_u in Hsm; lia|]. apply (Z.lt_le_trans _ (2 ^ 32)); [apply Hsm|apply Z.pow_le_mono_r; lia]. }
  destruct (least_idx lb Hlb Hne) as (Hi & Ht & _). split; [done|]. rewrite Hbit // in Ht. apply andb_prop in Ht as [Hlt Ht]. split; [by apply Z.ltb_lt|done].
Qed.

Lemma heap_ok_good g rs FR LR v sz : heap_ok g rs FR LR -> FR !! v = Some sz -> good g v sz.
Proof.
  intros Hok Hv. destruct (find_free _ _ _ _ _ _ Hok Hv) as (rest & b & cs1 & cs2 & e & HP & ->).
  apply (region_chunk g b cs1 Free sz cs2 e). by eapply heap_region, heap_ok_perm.
Qed.

Lemma frees_smallmap g FR : frees g FR ⊢ ⌜in_u 32 (smallmap g)⌝.
Proof. iIntros "(%F & _ & (%SL & %TL & %Hok & _) & _)". iPureIntro. apply Hok. Qed.

(** The first chunk of a small bin that is larger than the request. *)
Lemma wp_malloc_bin g L nb i : 0 <= i < 32 -> Z.testbit (smallmap g) i = true -> 32 <= nb <= 8 * i -> nb mod 16 = 0 -> is_small (dvsize g) = true ->
  hp g L ⊢ wp (p ← ld (fd (smallbin_at i));
    unlink_first_small_chunk (smallbin_at i) p i;;
    let rsize := u64 (small_index2size i - nb) in
    (if rsize <? MIN_CHUNK_SIZE then set_inuse_and_pinuse p (small_index2size i)
     else
       set_size_and_pinuse_of_inuse_chunk p nb;;
       let r := chunk_plus_offset p nb in
       set_size_and_pinuse_of_free_chunk r rsize;;
       replace_dv r rsize);;
    mret (chunk2mem p)) (malloc_post g nb L) g.
Proof.
  iIntros (Hi Hbit Hnb Hnb16 Hsm) "(%rs & %FR & %LR & %Hok & Hf & Hr & Ho)".
  iApply (wp_free_take_first with "Hf"); [done..|]. iIntros (p g1) "(%Hm & %Hp) Hf Hfc". rewrite index2size //. rewrite uwrap_id; [|unfold in_u; lia].
  pose proof (heap_ok_good _ _ _ _ _ _ Hok Hp) as (Hp0 & _ & _ & Hs16 & _ & Hend). pose proof (maps_free_only _ _ Hm) as Hc.
  destruct (Z.ltb_spec (8 * i - nb) MIN_CHUNK_SIZE) as [Hs|Hs]; unfold MIN_CHUNK_SIZE in Hs.
  - wbind. iApply (wp_carve_whole _ _ _ _ _ _ _ _ nb with "Hf Hr Hfc Ho"); [done|done|done|lia|].
    iIntros "Hgot". wret. iSplit; [iPureIntro; by apply free_lock_same|]. by iRight.
  - iApply wp_bind. rewrite chunk_plus; [|lia]. replace (8 * i) with (nb + (8 * i - nb)) in Hp by lia. iEval (replace (8 * i) with (nb + (8 * i - nb)) by lia) in "Hfc".
    iApply (wp_carve_split with "Hf Hr Hfc Ho"); [done|done|done|done|lia|lia|]. iIntros (Hgr) "Hf Hfc Hclose".
    iApply (wp_wand with "[Hf Hfc]"). { iApply (wp_replace_dv with "Hf Hfc"); [done|]. by destruct Hm as (? & ? & ->). }
    iIntros (_ g2) "(%Hc2 & Hf)". wret. iSplit; [iPureIntro; apply free_lock_same; by eapply free_only_trans|]. iRight. by iApply ("Hclose" with "[] Hf").
Qed.

(** The first chunk of the bin of the request. *)
Lemma wp_malloc_fit g L nb i : 0 <= i < 32 -> Z.testbit (smallmap g) i = true -> nb <= 8 * i ->
  hp g L ⊢ wp (p ← ld (fd (smallbin_at i));
    unlink_first_small_chunk (smallbin_at i) p i;;
    set_inuse_and_pinuse p (small_index2size i);;
    mret (chunk2mem p)) (malloc_post g nb L) g.
Proof.
  iIntros (Hi Hbit Hnb) "(%rs & %FR & %LR & %Hok & Hf & Hr & Ho)".
  iApply (wp_free_take_first with "Hf"); [done..|]. iIntros (p g1) "(%Hm & %Hp) Hf Hfc". rewrite index2size //. pose proof (maps_free_only _ _ Hm) as Hc.
  wbind. iApply (wp_carve_whole _ _ _ _ _ _ _ _ nb with "Hf Hr Hfc Ho"); [done|done|done|lia|].
  iIntros "Hgot". wret. iSplit; [iPureIntro; by apply free_lock_same|]. by iRight.
Qed.

Lemma hp_smallmap g L : hp g L ⊢ ⌜in_u 32 (smallmap g)⌝.
Proof. iIntros "(%rs & %FR & %LR & _ & Hf & _)". by iApply frees_smallmap. Qed.

(** The last resort after a search of the trees. *)
Lemma wp_malloc_then g L nb m : 32 <= nb < 2 ^ 64 -> nb mod 16 = 0 ->
  wp m (malloc_post g nb L) g ⊢ wp (mem ← m; if negb (mem =? 0) then mret mem else malloc_dv_top nb) (malloc_post g nb L) g.
Proof.
  iIntros (Hnb Hnb16) "Hm". wbind. iApply (wp_wand with "Hm"). iIntros (m' g') "(%Hl & [[-> Hhp]|Hgot])".
  - wnorm. iApply (wp_wand with "[Hhp]"); [iApply (wp_malloc_dv_top with "Hhp"); [lia|by left]|]. iIntros (m2 g2) "(%Hl2 & $)".
    iPureIntro. by eapply lock_same_trans.
  - iAssert ⌜m' <> 0⌝%I as %Hm. { iDestruct "Hgot" as (n) "((%Hbo & _) & _)". iPureIntro. destruct Hbo as (? & _). lia. }
    rewrite (proj2 (Z.eqb_neq m' 0)) //. wret. iSplit; [done|]. by iRight.
Qed.

Lemma malloc_post_none g nb L : hp g L ⊢ wp (mret 0) (malloc_post g nb L) g.
Proof. iIntros "Hhp". wret. iSplit; [done|]. iLeft. by iFrame. Qed.

Lemma wp_malloc_small g L bytes : 0 <= bytes <= MAX_SMALL_REQUEST ->
  hp g L ⊢ wp (malloc_small bytes) (fun m g' => ∃ nb, ⌜bytes + 8 <= nb⌝ ∗ malloc_post g nb L m g') g.
Proof.
  intros Hb. destruct (small_nb bytes Hb) as (Hnb & Hnb16 & Hle). unfold malloc_small. set (nb := if bytes <? MIN_REQUEST then MIN_CHUNK_SIZE else pad_request bytes) in *.
  assert (small_index nb = nb / 8) as Eidx.
  { unfold small_index, SMALLBIN_SHIFT. rewrite Z.shiftr_div_pow2 //. change (2 ^ 3) with 8. apply uwrap_id. unfold in_u. zdm. }
  rewrite Eidx. assert (nb = 8 * (nb / 8)) as Enb by zdm. iIntros "Hhp". iDestruct (hp_smallmap with "Hhp") as %Hmap.
  iApply (wp_wand _ (malloc_post g nb L) with "[Hhp]"); [|iIntros (m g') "H"; iExists nb; by iFrame].
  wget. destruct (Z.eqb_spec (Z.land (Z.shiftr (smallmap g) (nb / 8)) 3) 0) as [E3|E3]; wnorm.
  - wget. destruct (Z.ltb_spec (dvsize g) nb) as [Hdv|Hdv]; [|iApply (wp_malloc_dv_top with "Hhp"); [lia|by left]].
    iDestruct (hp_bounds with "Hhp") as %[Hd0 _].
    assert (is_small (dvsize g) = true) as Hsm. { unfold is_small, NSMALLBINS, SMALLBIN_SHIFT. rewrite Z.shiftr_div_pow2 //. change (2 ^ 3) with 8. apply Z.ltb_lt. zdm. }
    destruct (Z.eqb_spec (Z.shiftr (smallmap g) (nb / 8)) 0) as [E0|E0]; wnorm.
    + wget. iApply wp_malloc_then; [lia|done|]. destruct (Z.eqb_spec (treemap g) 0) as [Et|Et]; wnorm; [by iApply malloc_post_none|by iApply (wp_tmalloc_small with "Hhp")].
    + destruct (left_smallbits (smallmap g) (nb / 8) Hmap ltac:(zdm) E3 E0) as (Hi & Hlt & Hbit). iApply (wp_malloc_bin with "Hhp"); [done..|lia|done|done].
  - pose proof (land3_testbit _ E3) as Hbit. set (e := Z.land (u32 (Z.lnot _)) 1) in *. 
    assert (0 <= e < 2) as He by (subst e; change 1 with (Z.ones 1); rewrite Z.land_ones //; apply Z.mod_pos_bound; done).
    rewrite uwrap_id; [|unfold in_u; zdm]. rewrite Z.shiftr_spec in Hbit; [|lia]. iApply (wp_malloc_fit with "Hhp"); [zdm|by rewrite Z.add_comm|lia].
Qed.

(** ** Large requests *)

Lemma wp_malloc_large g L bytes : MAX_SMALL_REQUEST < bytes < MAX_REQUEST ->
  hp g L ⊢ wp (malloc_large bytes) (fun m g' => ∃ nb, ⌜bytes + 8 <= nb⌝ ∗ malloc_post g nb L m g') g.
Proof.
  change MAX_SMALL_REQUEST with 232. change MAX_REQUEST with (2 ^ 64 - 128). iIntros (Hb) "Hhp".
  destruct (pad_request_spec bytes) as [Hp1 Hp2]; [change MAX_REQUEST with (2 ^ 64 - 128); lia|]. unfold malloc_large. set (nb := pad_request bytes) in *.
  assert (256 <= nb < 2 ^ 64) as Hnb by (split; zdm). iApply (wp_wand _ (malloc_post g nb L) with "[Hhp]"); [|iIntros (m g') "H"; iExists nb; iFrame; iPureIntro; lia].
  wget. iApply wp_malloc_then; [lia|done|]. destruct (Z.eqb_spec (treemap g) 0) as [Et|Et]; wnorm; [by iApply malloc_post_none|by iApply (wp_tmalloc_large with "Hhp")].
Qed.

(** ** The lock *)

Lemma frees_state g rc fp mx er FR : frees g FR ⊢ frees (set_aux rc fp mx er g) FR.
Proof. iIntros "(%F & %Hdv & Hb & Hd)". iExists F. iSplit; [done|]. iFrame "Hd". by iApply (bins_state with "Hb"). Qed.

Lemma hp_aux g rc fp mx er L : hp g L ⊢ hp (set_aux rc fp mx er g) L.
Proof.
  iIntros "(%rs & %FR & %LR & %Hok & Hf & Hr & Ho)". iApply (hp_close g with "[Hf] Hr Ho"); [|apply core_only_aux|done|by iApply frees_state].
  by apply (heap_ok_state g).
Qed.
Lemma hp_mutex g mx L : hp g L ⊢ hp (set_mutex mx g) L.
Proof. iIntros "H". iDestruct (hp_aux g (release_checks g) (footprint g) mx (errno (sysv g)) with "H") as "H". by destruct g as [????????????[]]. Qed.
Lemma hp_release g rc L : hp g L ⊢ hp (set_release_checks rc g) L.
Proof. iIntros "H". iDestruct (hp_aux g rc (footprint g) (mutex g) (errno (sysv g)) with "H") as "H". by destruct g as [????????????[]]. Qed.
Lemma hp_footprint g fp L : hp g L ⊢ hp (set_footprint fp g) L.
Proof. iIntros "H". iDestruct (hp_aux g (release_checks g) fp (mutex g) (errno (sysv g)) with "H") as "H". by destruct g as [????????????[]]. Qed.
Lemma hp_errno g er L : hp g L ⊢ hp (set_errno er g) L.
Proof. iIntros "H". iDestruct (hp_aux g (release_checks g) (footprint g) (mutex g) er with "H") as "H". by destruct g as [????????????[]]. Qed.

Lemma wp_PREACTION g L : mutex g = 0 ->
  hp g L ⊢ wp PREACTION (fun r g' => ⌜r = 0 /\ mflags g' = mflags g /\ (use_lock g = false -> mutex g' = 0)⌝ ∗ hp g' L) g.
Proof.
  iIntros (Hm) "Hhp". unfold PREACTION, ACQUIRE_LOCK, CAS_LOCK. wget. destruct (use_lock g).
  - wbind. wget. wset. wret. rewrite Hm. wret. iSplit; [done|]. by iApply hp_mutex.
  - wret. by iFrame.
Qed.

Lemma wp_POSTACTION g L : (use_lock g = false -> mutex g = 0) -> hp g L ⊢ wp POSTACTION (fun _ g' => dlheap g' L) g.
Proof.
  iIntros (Hm) "Hhp". unfold POSTACTION, RELEASE_LOCK. wget. destruct (use_lock g).
  - iApply wp_setr. iSplit; [done|]. iLeft. by iApply hp_mutex.
  - wret. iSplit; [iPureIntro; by apply Hm|]. by iLeft.
Qed.

Lemma use_lock_same g g' : mflags g' = mflags g -> use_lock g' = use_lock g.
Proof. unfold use_lock. by intros ->. Qed.

(** ** malloc *)

Lemma wp_malloc_body g L bytes : 0 <= bytes < 2 ^ 64 ->
  hp g L ⊢ wp (if bytes <=? MAX_SMALL_REQUEST then malloc_small bytes
               else if MAX_REQUEST <=? bytes then malloc_dv_top MAX_SIZE_T
               else malloc_large bytes) (fun m g' => ⌜lock_same g g'⌝ ∗ ((⌜m = 0⌝ ∗ hp g' L) ∨ got (bytes + 8) L m g')) g.
Proof.
  iIntros (Hb) "Hhp". assert (forall nb m g', (nb = MAX_SIZE_T \/ bytes + 8 <= nb) -> malloc_post g nb L m g' ⊢ ⌜lock_same g g'⌝ ∗ ((⌜m = 0⌝ ∗ hp g' L) ∨ got (bytes + 8) L m g')) as Hmono.
  { iIntros (nb m g' Hnb) "(%Hl & [Hn|(%n & (%Hbo & %Hn & %HL) & Hr & Hhp)])"; (iSplit; [done|]); [by iLeft|iRight]. iExists n. iFrame. iPureIntro. split_and!; try done.
    destruct Hnb as [->|]; [|lia]. exfalso. destruct Hbo as (H1' & H2' & _ & _ & H3'). unfold MAX_SIZE_T in *. zdm. }
  destruct (Z.leb_spec bytes MAX_SMALL_REQUEST); [|destruct (Z.leb_spec MAX_REQUEST bytes)].
  - iApply (wp_wand with "[Hhp]"); [iApply (wp_malloc_small with "Hhp"); lia|]. iIntros (m g') "(%nb & %Hnb & Hp)". iApply Hmono; [|done]. by right.
  - iApply (wp_wand with "[Hhp]"); [iApply (wp_malloc_dv_top with "Hhp"); [unfold MAX_SIZE_T; lia|by right]|]. iIntros (m g') "Hp". iApply Hmono; [|done]. by left.
  - iApply (wp_wand with "[Hhp]"); [iApply (wp_malloc_large with "Hhp"); lia|]. iIntros (m g') "(%nb & %Hnb & Hp)". iApply Hmono; [|done]. by right.
Qed.

(** A block that malloc returned. *)
Definition new_block (bytes : Z) (L : gmap Z Z) (m : Z) (g' : mstate) : hpropI :=
  (∃ n, ⌜block_ok m n /\ bytes <= n /\ L !! m = None⌝ ∗ raw m (Z.to_nat (n / 8)) ∗ dlheap g' (<[m := n]> L))%I.

Lemma wp_dlmalloc g L bytes : 0 <= bytes < 2 ^ 64 ->
  dlheap g L ⊢ wp (dlmalloc bytes) (fun m g' => (⌜m = 0⌝ ∗ dlheap g' L) ∨ new_block bytes L m g') g.
Proof.
  iIntros (Hb) "Hh". unfold dlmalloc. wbind. iApply (wp_wand with "[Hh]"); [by iApply ensure_initialization_ok|]. iIntros (_ g0) "[%Hm0 Hh]".
  wbind. iApply (wp_wand with "[Hh]"); [by iApply wp_PREACTION|]. iIntros (r g1) "((-> & %Hf & %Hu) & Hhp)". rewrite Z.eqb_refl.
  wbind. iApply (wp_wand with "[Hhp]"); [by iApply (wp_malloc_body _ L bytes with "Hhp")|]. iIntros (m g2) "((%Hf2 & %Hm2) & Hp)".
  assert (use_lock g2 = false -> mutex g2 = 0) as Hu2 by (rewrite Hm2; intros E; apply Hu; rewrite -E; symmetry; apply use_lock_same; congruence).
  wbind. iDestruct "Hp" as "[[-> Hhp]|(%n & (%Hbo & %Hn & %HL) & Hraw & Hhp)]".
  - iApply (wp_wand with "[Hhp]"); [by iApply (wp_POSTACTION with "Hhp")|]. iIntros (_ g3) "Hh". wret. iLeft. by iFrame.
  - iApply (wp_wand with "[Hhp]"); [by iApply (wp_POSTACTION with "Hhp")|]. iIntros (_ g3) "Hh". wret. iRight. iExists n. iFrame. iPureIntro. split_and!; [done|lia|done].
Qed.
End spec.
