(* ===== verification/DlMerge.v ===== *)
(** * dlmalloc: merging a freed chunk

    A chunk whose block is given back is a hole of its region.  The hole is merged with
    the free chunks before and after it and becomes a free chunk again. *)

From iris.proofmode Require Import proofmode.
From S2P Require Import Prelude DlSep DlBase DlBins DlTree DlFree DlSearch DlLayout DlMalloc.

Section merge.
Context `{Sys} {HS : SegOk}.

(** ** The chunk after a hole *)

(** A store of free chunks whose heads and feet can be read. *)
Definition readable (FR : gmap Z Z) (P : hpropI) : Prop := forall p s, FR !! p = Some s -> P ⊢ ends p s ∗ (ends p s -∗ P).

(** The free chunks while a block is freed.  The designated victim may be part of the
    hole [q]; then the chunk after the hole is not in use. *)
Definition mid (g : mstate) (q : Z) (nx : bool) (FR : gmap Z Z) : hpropI :=
  ((⌜dv g <> q⌝ ∗ frees g FR) ∨ (⌜nx = false /\ dv g = q⌝ ∗ bins g FR))%I.

Lemma frees_readable g FR : readable FR (frees g FR).
Proof. intros p s Hp. by apply frees_acc. Qed.

Lemma mid_readable g q nx FR : readable FR (mid g q nx FR).
Proof.
  intros p s Hp. iIntros "[[%Hd Hf]|[%Hd Hb]]".
  - iDestruct (frees_acc with "Hf") as "[$ Hf]"; [done|]. iIntros "He". iLeft. iSplit; [done|]. by iApply "Hf".
  - iDestruct (bins_acc with "Hb") as "[$ Hb]"; [done|]. iIntros "He". iRight. iSplit; [done|]. by iApply "Hb".
Qed.

(** The head of the chunk after a hole. *)
Lemma next_head g rest b cs1 sz cs2 e FR LR po P : let q := b + total cs1 in
  hole_ok g rest b cs1 sz cs2 e FR LR -> readable FR P -> (next_inuse e cs2 = false -> po = true) ->
  P -∗ holemem rest b cs1 sz cs2 e po -∗ ∃ h, ⌜(if next_inuse e cs2 then inuse_head h else h mod 16 = 0 /\ 0 <= h)⌝ ∗
    head (q + sz) ↦ (h + Z.b2z po) ∗ (head (q + sz) ↦ (h + Z.b2z po) -∗ P ∗ holemem rest b cs1 sz cs2 e po).
Proof.
  iIntros (q Hok Hrd Hpo) "HP Hm". destruct (next_inuse e cs2) eqn:Hnx.
  - iDestruct (holemem_next with "Hm") as "(%h & %Hh & Hn & Hm)"; [done..|]. iExists h. iFrame "Hn". iSplit; [done|]. iIntros "Hn". iFrame "HP". by iApply "Hm".
  - rewrite Hpo //. pose proof Hok as [_ Hheap]. pose proof (heap_region _ _ _ _ _ Hheap) as Hr. destruct (region_tail_ok _ _ _ _ _ Hr) as [_ [[_ Hp2] He]]. simpl in *.
    destruct cs2 as [|[k ns] cs2]; simpl in Hnx, Hp2, He.
    + destruct e as [v|ts]; [done|]. destruct He as (_ & Ht1 & Ht2). iDestruct "Hm" as "(Hp & [Hh Hraw] & Hr)". iExists ts. iFrame "Hh".
      iSplit; [iPureIntro; simpl in *; lia|]. iIntros "Hh". iFrame.
    + destruct k; [done|]. destruct (hole_right _ _ _ _ _ _ _ _ _ _ Hok) as (_ & HFR & _). destruct Hp2 as [(Hs & Hs' & _) _].
      iDestruct (Hrd _ _ HFR with "HP") as "[[Hh Hf] HP]". iExists ns. iFrame "Hh". iSplit; [iPureIntro; simpl in *; lia|].
      iIntros "Hh". iFrame "Hm". iApply "HP". iFrame.
Qed.

(** The top chunk owns its head, as long as the chunk after the hole is another one. *)
Lemma holemem_top g rest b cs1 sz cs2 e FR LR po : hole_ok g rest b cs1 sz cs2 e FR LR ->
  holemem rest b cs1 sz cs2 e po ⊢ ⌜top g = 0⌝ ∨ ∃ v, head (top g) ↦ v.
Proof.
  intros [_ Hok]. destruct (ho_top _ _ _ _ Hok) as [(-> & _)|E]; [iIntros "_"; by iLeft|]. iIntros "(_ & Ht & Hr)". iRight.
  assert ((top g, topsize g) ∈ concat (tops_of <$> Region b (cs1 ++ (Used, sz) :: cs2) e :: rest)) as He by (rewrite E; set_solver).
  rewrite fmap_cons /= tops_of_mid elem_of_app in He. destruct He as [He|He].
  - destruct e as [v|ts]; [by apply not_elem_of_nil in He|]. apply list_elem_of_singleton in He as [= -> _]. rewrite tail_top. by iExists _.
  - destruct (concat_elem _ _ _ He) as ([b' cs' e'] & rest' & HP & Hin). unfold tops_of in Hin. simpl in Hin.
    destruct e' as [v|ts]; [by apply not_elem_of_nil in Hin|]. apply list_elem_of_singleton in Hin as [= -> _].
    iDestruct (regions_perm _ _ HP with "Hr") as "[Hr _]". unfold rmem. simpl. rewrite tail_top. by iExists _.
Qed.

(** The top chunk is not the chunk in use after the hole. *)
Lemma holemem_next_top g rest b cs1 sz cs2 e FR LR po : hole_ok g rest b cs1 sz cs2 e FR LR -> next_inuse e cs2 = true ->
  holemem rest b cs1 sz cs2 e po ⊢ ⌜top g <> (b + total cs1 + sz)%Z⌝.
Proof.
  intros [_ Hok] Hnx. destruct (ho_top _ _ _ _ Hok) as [(_ & _ & ?)|E]; [done|]. iIntros "(_ & Ht & Hr)".
  assert ((top g, topsize g) ∈ concat (tops_of <$> Region b (cs1 ++ (Used, sz) :: cs2) e :: rest)) as He by (rewrite E; set_solver).
  pose proof (heap_region _ _ _ _ _ Hok) as Hreg. destruct (region_tail_ok _ _ _ _ _ Hreg) as [_ [[_ Hp2] _]]. simpl in Hp2. rewrite fmap_cons /= tops_of_mid elem_of_app in He. destruct He as [He|He].
  - destruct e as [v|ts]; [by apply not_elem_of_nil in He|]. apply list_elem_of_singleton in He as [= -> _]. iPureIntro. destruct cs2 as [|[k s] cs2]; [done|].
    destruct Hp2 as [(_ & Hs & _) Hp2]. destruct (pre_ok_total _ _ Hp2). simpl. lia.
  - destruct (concat_elem _ _ _ He) as ([b' cs' e'] & rest' & HP & Hin). unfold tops_of in Hin. simpl in Hin.
    destruct e' as [v|ts]; [by apply not_elem_of_nil in Hin|]. apply list_elem_of_singleton in Hin as [= -> _].
    iDestruct (regions_perm _ _ HP with "Hr") as "[Hr _]". unfold rmem. simpl. rewrite tail_top. iAssert (∃ w, head (b + total cs1 + sz) ↦ w)%I with "[Ht]" as (w) "Hw".
    { destruct cs2 as [|[k s] cs2]; simpl in *; [destruct e; [by iExists _|done]|]. destruct k; [|done]. iDestruct "Ht" as "[Ht _]". by iExists _. }
    destruct (decide (b' + total cs' = b + total cs1 + sz)) as [->|]; [|done]. by iDestruct (pointsto_ne with "[$Hr $Hw]") as %?.
Qed.

(** ** Putting the heap together *)

Definition ext_of (rest : list region) (b : Z) (cs1 : list (kind * Z)) (sz : Z) (cs2 : list (kind * Z)) (e : rend) : list (Z * Z * bool) :=
  extent <$> Region b (cs1 ++ (Used, sz) :: cs2) e :: rest.

Lemma extent_eq b cs e cs' e' : total cs + end_size e = total cs' + end_size e' ->
  match e with Top _ => true | Fence _ => false end = match e' with Top _ => true | Fence _ => false end -> extent (Region b cs e) = extent (Region b cs' e').
Proof. unfold extent. simpl. by intros -> ->. Qed.

(** The hole is a free chunk again. *)
Lemma close_free g g' rest b cs1 sz cs2 e FR LR L : let q := b + total cs1 in
  hole_ok g rest b cs1 sz cs2 e FR LR -> out_pin true cs1 = true -> next_inuse e cs2 = true -> FR !! q = None -> free_only g g' ->
  frees g' (<[q := sz]> FR) -∗ holemem rest b cs1 sz cs2 e false -∗ others g (ext_of rest b cs1 sz cs2 e) LR L -∗ hp g' L.
Proof.
  iIntros (q Hok Hpin Hnx HFR Hc) "Hf Hm Ho". pose proof (hole_free _ _ _ _ _ _ _ _ _ Hok Hpin Hnx HFR) as Hheap.
  iApply (hp_close g g' with "Hf [Hm] Ho"); [by eapply heap_ok_free|by apply free_core_only| |by iApply regions_free].
  rewrite !fmap_cons. by rewrite (extent_mid _ _ Used _ _ _ Free).
Qed.

(** ** Merging with the chunk after the hole *)

Definition freed (g : mstate) (L : gmap Z Z) (g' : mstate) : hpropI := (⌜lock_same g g'⌝ ∗ hp g' L)%I.

Lemma mid_no_dv g q nx FR : q <> 0 ->
  mid g q nx FR -∗ ∃ g', ⌜g' = (if q =? dv g then set_dvsize 0 (set_dv 0 g) else g)⌝ ∗ frees g' FR.
Proof.
  iIntros (Hq) "[[%Hd Hf]|[[%Hnx %Hd] Hb]]"; iExists _; (iSplit; [done|]).
  - rewrite (proj2 (Z.eqb_neq q (dv g))); [done|congruence].
  - rewrite Hd Z.eqb_refl. iDestruct (frees_no_dv with "Hb") as "Hf". by destruct g.
Qed.

Lemma frees_top g t1 t2 FR : frees g FR ⊢ frees (set_top t2 (set_topsize t1 g)) FR.
Proof. iIntros "(%F & %Hdv & Hb & Hd)". iExists F. iSplit; [done|]. iFrame "Hd". by iApply (bins_state with "Hb"). Qed.

(** The memory of a hole that became part of the top chunk. *)
Lemma hole_top_mem rest b cs1 sz ts po : sz mod 16 = 0 -> 32 <= sz -> ts mod 16 = 0 -> 0 <= ts -> let q := b + total cs1 in
  holemem rest b cs1 sz [] (Top ts) po -∗ head q ↦ (sz + ts + 1) -∗ raw (q + 16) (Z.to_nat (sz / 8 - 1)) -∗ regions (Region b cs1 (Top (sz + ts)) :: rest).
Proof.
  iIntros (Hs16 Hs Ht16 Ht q) "(Hp & [Hn Hraw2] & Hr) Hh Hraw". rewrite regions_top. fold q. iFrame "Hp Hr Hh".
  replace (Z.to_nat ((sz + ts) / 8)) with (Z.to_nat (sz / 8 - 1) + S (Z.to_nat (ts / 8)))%nat by zdm. rewrite raw_app. iFrame "Hraw". cbn [raw]. fold q.
  replace (q + 16 + 8 * Z.to_nat (sz / 8 - 1)) with (head (q + sz)) by (unfold head; zdm). replace (head (q + sz) + 8) with (q + sz + 16) by (unfold head; lia).
  iFrame "Hraw2". by iExists _.
Qed.

Lemma mid_unlink g q nx FR p s : FR !! p = Some s -> p <> dv g ->
  mid g q nx FR -∗ wp (unlink_chunk p s) (fun _ g' => ⌜maps_only g g'⌝ ∗ mid g' q nx (delete p FR) ∗ free_chunk p s) g.
Proof.
  iIntros (Hp Hne) "[[%Hd Hf]|[%Hd Hb]]".
  - iApply (wp_wand with "[Hf]"); [by iApply (wp_free_unlink with "Hf")|]. iIntros (_ g') "(%Hm & Hf & $)". iSplit; [done|]. iLeft. iFrame.
    iPureIntro. by destruct Hm as (? & ? & ->).
  - iApply (wp_wand with "[Hb]"); [by iApply (wp_unlink_chunk with "Hb")|]. iIntros (_ g') "(%Hm & Hb & $)". iSplit; [done|]. iRight. iFrame.
    iPureIntro. by destruct Hm as (? & ? & ->).
Qed.

(** A hole that is ready to go into a bin. *)
Definition ready (q s : Z) (L : gmap Z Z) (g : mstate) : hpropI :=
  (∃ rest b cs1 cs2 e FR LR,
     ⌜q = (b + total cs1)%Z /\ hole_ok g rest b cs1 s cs2 e FR LR /\ out_pin true cs1 = true /\ next_inuse e cs2 = true⌝ ∗
     frees g FR ∗ free_chunk q s ∗ holemem rest b cs1 s cs2 e false ∗ others g (ext_of rest b cs1 s cs2 e) LR L)%I.

(** The state of the hole after the consolidation: in its place, or to be binned. *)
Definition forwarded (g : mstate) (q : Z) (L : gmap Z Z) (r : option Z) (g' : mstate) : hpropI :=
  match r with None => freed g L g' | Some s => ⌜lock_same g g'⌝ ∗ ready q s L g' end%I.

Lemma hole_ok_free g g' rest b cs1 sz cs2 e FR LR : free_only g g' -> hole_ok g rest b cs1 sz cs2 e FR LR -> hole_ok g' rest b cs1 sz cs2 e FR LR.
Proof. intros Hc [? ?]. split; [done|]. by eapply heap_ok_free. Qed.

Lemma others_right g rest b cs1 sz ns cs2 e LR L k :
  others g (ext_of rest b cs1 sz ((k, ns) :: cs2) e) LR L ⊢ others g (ext_of rest b cs1 (sz + ns) cs2 e) LR L.
Proof.
  unfold ext_of. rewrite !fmap_cons. erewrite extent_eq; [done| |done]. rewrite !total_app. simpl. lia.
Qed.

Lemma frees_grow_dv g F d s : dv g = d -> good g d s -> bins g F -∗ free_chunk d s -∗ frees (set_dvsize s g) (<[d := s]> F).
Proof. iIntros (Hd Hg) "Hb Hfc". iDestruct (frees_new_dv with "Hb Hfc") as "[_ Hf]"; [done|]. destruct g. simpl in *. by subst. Qed.

Lemma frees_dv_pos g FR : dv g <> 0 -> frees g FR ⊢ ⌜0 < dvsize g⌝.
Proof. iIntros (Hd) "(%F & %Hdv & _)". iPureIntro. by destruct Hdv as [(_ & ? & _)|(? & _)]. Qed.

(** The hole before the designated victim, which grows over it. *)
Lemma wp_forward_dv g rest b cs1 sz ns cs2 e FR LR L : let q := b + total cs1 in
  hole_ok g rest b cs1 sz ((Free, ns) :: cs2) e FR LR -> out_pin true cs1 = true -> q + sz = dv g ->
  frees g FR -∗ holemem rest b cs1 sz ((Free, ns) :: cs2) e true -∗ blk q sz -∗ others g (ext_of rest b cs1 sz ((Free, ns) :: cs2) e) LR L -∗
  ⌜u64 (dvsize g + sz) = (sz + ns)%Z⌝ ∗ wp (set_size_and_pinuse_of_free_chunk q (sz + ns)) (fun _ g' => freed g L g') (set_dv q (set_dvsize (sz + ns) g)).
Proof.
  iIntros (q Hok Hpin Edv) "Hf Hm Hb Ho". destruct (hole_right _ _ _ _ _ _ _ _ _ _ Hok) as (Hok' & HFR & Hnx). fold q in Hok', HFR.
  pose proof Hok' as [_ Hheap]. destruct (region_chunk g b cs1 Used (sz + ns) cs2 e) as (Hg & _ & _); [by eapply heap_region|]. fold q in Hg.
  iDestruct (frees_good with "Hf") as %(_ & _ & _ & Hn16 & Hn32 & _); [exact HFR|]. pose proof Hg as (Hp & Hpa & Hla & Hsa & Hsr & Hend).
  pose proof Hok as [_ Hheap0]. destruct (region_chunk g b cs1 Used sz ((Free, ns) :: cs2) e) as ((_ & _ & _ & Hs16 & Hs32 & _) & _); [by eapply heap_region|].
  iDestruct (frees_dv_pos with "Hf") as %Hpos; [lia|].
  iDestruct (frees_dv with "Hf") as (F) "((%Hdv & %HF & %Hgd) & Hbins & Hfc)"; [done|]. assert (dvsize g = ns) as Ens by (rewrite -Edv HFR in Hdv; by injection Hdv).
  iSplit; [iPureIntro; rewrite uwrap_id; [lia|unfold in_u; lia]|].
  iDestruct (free_chunk_blk with "Hfc") as "Hb2"; [lia|by subst|]. rewrite -Edv Ens. iAssert (blk q (sz + ns)) with "[Hb Hb2]" as "Hb". { rewrite blk_join; [iFrame|lia|lia|zdm]. }
  iApply (wp_set_free with "Hb"); [lia|lia|lia|done|]. iIntros "Hfc". rewrite -Edv in HF. rewrite HF in Hok'.
  iDestruct (frees_new_dv with "Hbins Hfc") as "[%HFn Hf]"; [done|]. iSplit; [done|]. rewrite holemem_right others_right.
  iApply (close_free with "Hf Hm Ho"); [done..|]. apply (free_only_dv g (sz + ns) q).
Qed.

(** The hole before a binned chunk. *)
Lemma wp_forward_binned g rest b cs1 sz ns cs2 e FR LR L : let q := b + total cs1 in
  hole_ok g rest b cs1 sz ((Free, ns) :: cs2) e FR LR -> out_pin true cs1 = true -> q + sz <> dv g ->
  mid g q false FR -∗ holemem rest b cs1 sz ((Free, ns) :: cs2) e true -∗ blk q sz -∗ others g (ext_of rest b cs1 sz ((Free, ns) :: cs2) e) LR L -∗
  wp (nsize ← chunksize (q + sz);
      let psize := u64 (sz + nsize) in
      unlink_chunk (q + sz) nsize;;
      set_size_and_pinuse_of_free_chunk q psize;;
      d ← getr dv;
      if q =? d then setr (set_dvsize psize);; mret None else mret (Some psize)) (forwarded g q L) g.
Proof.
  iIntros (q Hok Hpin Edv) "Hf Hm Hb Ho". destruct (hole_right _ _ _ _ _ _ _ _ _ _ Hok) as (Hok' & HFR & Hnx). fold q in Hok', HFR.
  pose proof Hok' as [_ Hheap]. destruct (region_chunk g b cs1 Used (sz + ns) cs2 e) as (Hg & _ & _); [by eapply heap_region|]. fold q in Hg.
  pose proof Hok as [_ Hheap0]. pose proof (heap_ok_good _ _ _ _ _ _ Hheap0 HFR) as Hgn. pose proof Hgn as (_ & _ & _ & Hn16 & Hn32 & _). pose proof Hg as (Hp & Hpa & Hla & Hsa & Hsr & Hend).
  destruct (region_chunk g b cs1 Used sz ((Free, ns) :: cs2) e) as ((_ & _ & _ & Hs16 & Hs32 & _) & _); [by eapply heap_region|].
  wbind. iDestruct (mid_readable _ _ _ _ _ _ HFR with "Hf") as "[[Hh Hft] Hf]". iApply (wp_chunksize with "Hh"); [done|]. iIntros "Hh". iDestruct ("Hf" with "[$Hh $Hft]") as "Hf".
  rewrite uwrap_id; [|unfold in_u; lia]. wbind. iApply (wp_wand with "[Hf]"); [by iApply (mid_unlink with "Hf")|]. iIntros (_ g1) "(%Hmo & Hf & Hfc)". pose proof (maps_free_only _ _ Hmo) as Hc.
  wbind. iDestruct (free_chunk_blk with "Hfc") as "Hb2"; [lia|done|]. iAssert (blk q (sz + ns)) with "[Hb Hb2]" as "Hb". { rewrite blk_join; [iFrame|lia|lia|zdm]. }
  iApply (wp_set_free with "Hb"); [lia|lia|lia|done|]. iIntros "Hfc". wget. pose proof (hole_ok_free _ _ _ _ _ _ _ _ _ _ Hc Hok') as Hok1.
  rewrite holemem_right others_right others_state; [|by apply free_core_only]. iDestruct "Hf" as "[[%Hd Hf]|[[_ %Hd] Hbins]]".
  - rewrite (proj2 (Z.eqb_neq q (dv g1))); [|congruence]. wret. iSplit; [iPureIntro; by apply free_lock_same|]. iExists rest, b, cs1, cs2, e, _, LR. by iFrame.
  - rewrite Hd Z.eqb_refl. wset. wret. iAssert ⌜delete (q + sz)%Z FR !! q = None⌝%I as %HFq. { iDestruct "Hfc" as "(Hh & _)". iApply (bins_fresh with "Hbins Hh"). }
    iDestruct (frees_grow_dv with "Hbins Hfc") as "Hf"; [done|by destruct Hmo as (? & ? & ->)|]. iSplit; [iPureIntro; exact (free_lock_same _ _ Hc)|].
    iApply (close_free with "Hf Hm Ho"); [done..|]. pose proof (free_only_dv g1 (sz + ns) (dv g1)) as X. by destruct g1.
Qed.

Lemma mid_dv g q nx FR : mid g q nx FR -∗ ⌜dv g <> q⌝ ∗ frees g FR ∨ ⌜dv g = q⌝ ∗ mid g q nx FR.
Proof. iIntros "[H|[%Hd H]]"; [by iLeft|iRight]. iSplit; [iPureIntro; naive_solver|]. iRight. by iFrame. Qed.

(** Before a chunk in use, the hole becomes a free chunk. *)
Lemma wp_hole_free g rest b cs1 sz cs2 e FR LR po Φ : let q := b + total cs1 in
  hole_ok g rest b cs1 sz cs2 e FR LR -> next_inuse e cs2 = true ->
  holemem rest b cs1 sz cs2 e po -∗ blk q sz -∗ (holemem rest b cs1 sz cs2 e false -∗ free_chunk q sz -∗ Φ tt g) -∗
  wp (set_free_with_pinuse q sz (q + sz)) Φ g.
Proof.
  iIntros (q Hok Hnx) "Hm Hb HΦ". pose proof Hok as [_ Hheap]. destruct (region_chunk g b cs1 Used sz cs2 e) as ((Hp & _ & _ & Hs16 & Hs & Hend) & _); [by eapply heap_region|]. fold q in Hp, Hend.
  unfold set_free_with_pinuse, clear_pinuse. iDestruct (holemem_next with "Hm") as "(%h & %Hh & Hn & Hm)"; [done..|]. wld "Hn".
  destruct (inuse_flags h po Hh) as (_ & _ & _ & _ & _ & _ & ->). wsd "Hn". iApply (wp_set_free with "Hb"); [lia|lia|lia|done|]. iIntros "Hfc".
  iApply ("HΦ" with "[Hm Hn] Hfc"). iApply "Hm". simpl. by rewrite Z.add_0_r.
Qed.

(** A hole after its consolidation with the chunk before it. *)
Definition hole (q s : Z) (L : gmap Z Z) (g : mstate) : hpropI :=
  (∃ rest b cs1 cs2 e FR LR, ⌜q = (b + total cs1)%Z /\ hole_ok g rest b cs1 s cs2 e FR LR /\ out_pin true cs1 = true⌝ ∗
     mid g q (next_inuse e cs2) FR ∗ holemem rest b cs1 s cs2 e true ∗ blk q s ∗ others g (ext_of rest b cs1 s cs2 e) LR L)%I.

(** ** Merging with the chunk before the hole *)

Definition backed (g : mstate) (L : gmap Z Z) (r : option (Z * Z)) (g' : mstate) (next : Z) : hpropI :=
  match r with None => freed g L g' | Some (q, s) => ⌜lock_same g g' /\ (q + s)%Z = next⌝ ∗ hole q s L g' end%I.

Lemma frees_not_dv g FR q v : 0 < q -> frees g FR -∗ head q ↦ v -∗ ⌜dv g <> q⌝.
Proof.
  iIntros (Hq) "Hf Hh". destruct (decide (dv g = q)) as [<-|]; [|done]. iDestruct (frees_dv_pos with "Hf") as %Hpos; [lia|].
  iDestruct (frees_dv with "Hf") as (F) "(_ & _ & (Hh2 & _))"; [done|]. by iDestruct (pointsto_ne with "[$Hh $Hh2]") as %?.
Qed.

Lemma others_left g rest b cs1 ps sz cs2 e LR L :
  others g (ext_of rest b (cs1 ++ [(Free, ps)]) sz cs2 e) LR L ⊢ others g (ext_of rest b cs1 (ps + sz) cs2 e) LR L.
Proof. unfold ext_of. rewrite !fmap_cons. erewrite extent_eq; [done| |done]. rewrite !total_app. simpl. lia. Qed.

(** The free chunk before the hole, when it is the designated victim. *)
Lemma wp_backward_dv g rest b cs1 ps sz cs2 e FR LR L : let q := b + total cs1 in
  hole_ok g rest b (cs1 ++ [(Free, ps)]) sz cs2 e FR LR -> hole_ok g rest b cs1 (ps + sz) cs2 e (delete q FR) LR -> FR !! q = Some ps -> out_pin true cs1 = true -> dv g = q ->
  frees g FR -∗ holemem rest b cs1 (ps + sz) cs2 e true -∗ blk (q + ps) sz -∗ others g (ext_of rest b cs1 (ps + sz) cs2 e) LR L -∗
  wp (nh ← ld (head (q + ps + sz));
      if Z.land nh INUSE_BITS =? INUSE_BITS then
        setr (set_dvsize (ps + sz));; set_free_with_pinuse q (ps + sz) (q + ps + sz);; mret None
      else mret (Some (q, ps + sz))) (fun r g' => backed g L r g' (q + ps + sz)) g.
Proof.
  iIntros (q Hok0 Hok HFR Hpin Hdv) "Hf Hm Hb Ho". pose proof Hok as [_ Hheap]. pose proof Hok0 as [_ Hheap0].
  destruct (region_chunk g b cs1 Used (ps + sz) cs2 e) as (Hg & _); [by eapply heap_region|]. fold q in Hg. pose proof Hg as (Hp & _ & _ & Hs16 & Hs & Hend).
  destruct (region_chunk g b (cs1 ++ [(Free, ps)]) Used sz cs2 e) as ((_ & _ & _ & Hz16 & Hz & _) & _); [by eapply heap_region|].
  pose proof (heap_ok_good _ _ _ _ _ _ Hheap0 HFR) as (_ & _ & _ & Hps16 & Hps & _). replace (q + ps + sz) with (q + (ps + sz)) by lia.
  iDestruct (frees_dv_pos with "Hf") as %Hpos; [lia|]. iDestruct (frees_dv with "Hf") as (F) "((%Hv & %HF & _) & Hbins & Hfc)"; [done|]. rewrite Hdv in HF, Hv |- *. rewrite HF in Hok.
  assert (dvsize g = ps) as -> by (rewrite HFR in Hv; by injection Hv). iDestruct (free_chunk_blk with "Hfc") as "Hb0"; [lia|done|].
  iAssert (blk q (ps + sz)) with "[Hb0 Hb]" as "Hb"; [rewrite blk_join; [iFrame|lia|lia|zdm]|].
  iDestruct (next_head _ _ _ _ _ _ _ _ _ _ (bins g F) with "Hbins Hm") as "(%h & %Hh & Hn & Hback)"; [done|intros p s; apply bins_acc|done|]. fold q. wld "Hn". iDestruct ("Hback" with "Hn") as "[Hbins Hm]".
  destruct (next_inuse e cs2) eqn:Hnx.
  - destruct (inuse_flags h true Hh) as (_ & _ & _ & -> & _). wset. wbind. iAssert ⌜F !! q = None⌝%I as %HFn.
    { rewrite blk_head; [|lia]. iDestruct "Hb" as "[[%v Hh] _]". iApply (bins_fresh with "Hbins Hh"). }
    iApply (wp_hole_free _ rest b cs1 (ps + sz) cs2 e with "Hm Hb"); [|done|]. { eapply hole_ok_free; [|done]. pose proof (free_only_dv g (ps + sz) (dv g)) as X. by destruct g. }
    iIntros "Hm Hfc". wret. iDestruct (frees_grow_dv with "Hbins Hfc") as "Hf"; [done..|]. iSplit; [done|].
    iApply (close_free with "Hf Hm Ho"); [done..|]. pose proof (free_only_dv g (ps + sz) (dv g)) as X. by destruct g.
  - destruct (free_flags h) as (_ & Ei & _ & _); [apply Hh..|]. change (Z.b2z true) with 1. rewrite Ei. wret. iSplit; [done|]. iExists rest, b, cs1, cs2, e, F, LR. iFrame. rewrite Hnx.
    iSplit; [done|]. iRight. by iFrame.
Qed.

Lemma wp_free_backward g rest b cs1 ps sz cs2 e FR LR L : let p := b + total (cs1 ++ [(Free, ps)]) in
  hole_ok g rest b (cs1 ++ [(Free, ps)]) sz cs2 e FR LR ->
  frees g FR -∗ holemem rest b (cs1 ++ [(Free, ps)]) sz cs2 e true -∗ blk p sz -∗ others g (ext_of rest b (cs1 ++ [(Free, ps)]) sz cs2 e) LR L -∗
  wp (free_backward p sz ps (p + sz)) (fun r g' => backed g L r g' (p + sz)) g.
Proof.
  iIntros (p Hok0) "Hf Hm Hb Ho". set (q := b + total cs1). assert (p = q + ps) as Ep by (subst p q; rewrite total_app; simpl; lia).
  pose proof Hok0 as [_ Hheap0]. destruct (region_chunk g b (cs1 ++ [(Free, ps)]) Used sz cs2 e) as ((_ & _ & _ & Hz16 & Hz & Hend) & _); [by eapply heap_region|]. fold p in Hend.
  assert (FR !! q = Some ps) as HFR.
  { pose proof (ho_free _ _ _ _ Hheap0) as HF. rewrite fmap_cons /= -app_assoc free_of_mid in HF. apply elem_of_map_to_list. rewrite HF. simpl. set_solver. }
  iAssert ⌜LR !! (q + 16)%Z = None⌝%I as %HLR. { iDestruct (frees_acc with "Hf") as "[[Hh _] _]"; [done|]. iApply (hole_fresh with "Hm Hh"). done. }
  destruct (hole_left _ _ _ _ _ _ _ _ _ _ Hok0 HLR) as (Hok & _ & Hpin & _). fold q in Hok. pose proof (heap_ok_good _ _ _ _ _ _ Hheap0 HFR) as (Hq & _ & Hla & Hps16 & Hps & _).
  rewrite holemem_left others_left. unfold free_backward, chunk_minus_offset. rewrite Ep. replace (q + ps - ps) with q by lia. rewrite !uwrap_id; [|unfold in_u; lia..].
  rewrite (Z.add_comm sz ps). wbind. iApply wp_ok_address; [done|]. wget. destruct (Z.eqb_spec q (dv g)) as [Ed|Ed]; wnorm.
  - by iApply (wp_backward_dv with "Hf Hm Hb Ho").
  - wbind. iApply (wp_wand with "[Hf]"); [by iApply (wp_free_unlink with "Hf")|]. iIntros (_ g1) "(%Hmo & Hf & Hfc)". pose proof (maps_free_only _ _ Hmo) as Hc. wret.
    iSplit; [iPureIntro; split; [by apply free_lock_same|lia]|]. iDestruct (free_chunk_blk with "Hfc") as "Hb0"; [lia|done|].
    iExists rest, b, cs1, cs2, e, (delete q FR), LR. rewrite others_state; [|by apply free_core_only]. iFrame "Hm Ho". iSplit; [iPureIntro; split_and!; [done|by eapply hole_ok_free|done]|].
    iSplitL "Hf"; [iLeft; iFrame; iPureIntro; destruct Hmo as (? & ? & ->); simpl; congruence|]. rewrite blk_join; [iFrame|lia|lia|zdm].
Qed.

Lemma out_pin_false cs : out_pin true cs = false -> exists cs' ps, cs = cs' ++ [(Free, ps)].
Proof.
  induction cs as [|[k s] cs _] using rev_ind; [done|]. rewrite out_pin_app. destruct k; [done|]. by exists cs, s.
Qed.
End merge.
