(* ===== verification/DlFreeOk.v ===== *)
(** * dlmalloc: free is correct

    dlfree of c/error/dlmalloc.c takes a block of the program back: the chunk of the
    block is merged with the free chunks before and after it, or with the top chunk,
    and goes to the designated victim, to a bin, or to the system. *)

From iris.proofmode Require Import proofmode.
From S2P Require Import Prelude DlSep DlBase DlBins DlTree DlFree DlSearch DlLayout DlMalloc DlMerge.

Section free.
Context `{Sys} {HS : SegOk} {HO : SysOk}.

Lemma wp_free_bin g rest b cs1 sz cs2 e FR LR L : let q := b + total cs1 in
  hole_ok g rest b cs1 sz cs2 e FR LR -> out_pin true cs1 = true -> next_inuse e cs2 = true ->
  frees g FR -∗ free_chunk q sz -∗ holemem rest b cs1 sz cs2 e false -∗ others g (ext_of rest b cs1 sz cs2 e) LR L -∗
  wp (free_bin q sz) (fun _ g' => ⌜lock_same g g'⌝ ∗ hp g' L) g.
Proof.
  iIntros (q Hok Hpin Hnx) "Hf Hfc Hm Ho". pose proof Hok as [_ Hheap]. destruct (region_chunk g b cs1 Used sz cs2 e) as (Hg & _); [by eapply heap_region|].
  iAssert ⌜FR !! q = None⌝%I as %HFR. { iDestruct "Hfc" as "(Hh & _)". iApply (frees_fresh with "Hf Hh"). }
  unfold free_bin. destruct (is_small sz) eqn:Es.
  - rewrite -small_insert_chunk //. iApply (wp_wand with "[Hf Hfc]"); [by iApply (wp_free_insert with "Hf Hfc")|]. iIntros (_ g1) "(%Hm & Hf)".
    iSplit; [iPureIntro; by apply free_lock_same, maps_free_only|]. iApply (close_free with "Hf Hm Ho"); [done..|by apply maps_free_only].
  - assert (insert_large_chunk q sz = insert_chunk q sz) as -> by (unfold insert_chunk; by rewrite Es). wbind.
    iApply (wp_wand with "[Hf Hfc]"); [by iApply (wp_free_insert with "Hf Hfc")|]. iIntros (_ g1) "(%Hm & Hf)". pose proof (maps_free_only _ _ Hm) as Hc.
    iDestruct (close_free with "Hf Hm Ho") as "Hhp"; [done..|]. pose proof (free_lock_same _ _ Hc) as Hl. wget. wset. set (rc := u64 _).
    iDestruct (hp_release g1 rc with "Hhp") as "Hhp".
    destruct (rc =? 0); [|wret; by iFrame]. wbind. iApply (wp_wand with "[Hhp]"); [by iApply (release_unused_segments_ok with "Hhp")|].
    iIntros (_ g2) "(%Hl2 & Hhp)". wret. iFrame. iPureIntro. by eapply lock_same_trans.
Qed.

(** The hole before the top chunk. *)
Lemma wp_forward_top g rest b cs1 sz ts FR LR L : let q := b + total cs1 in
  hole_ok g rest b cs1 sz [] (Top ts) FR LR -> out_pin true cs1 = true ->
  mid g q false FR -∗ holemem rest b cs1 sz [] (Top ts) true -∗ blk q sz -∗ others g (ext_of rest b cs1 sz [] (Top ts)) LR L -∗
  wp (free_forward q sz (q + sz)) (fun r g' => ⌜r = None⌝ ∗ freed g L g') g.
Proof.
  iIntros (q Hok Hpin) "Hmid Hm Hb Ho". pose proof Hok as [_ Hheap]. destruct (region_chunk g b cs1 Used sz [] (Top ts)) as (Hg & Hts & Hend); [by eapply heap_region|].
  fold q in Hg, Hend. pose proof Hg as (Hp & Hpa & Hla & Hsa & Hsr & Hend'). simpl in Hts, Hend.
  destruct (hole_top _ _ _ _ _ _ _ _ Hok Hpin) as (Hok' & Etop & Ets). fold q in Hok', Etop.
  assert (ts mod 16 = 0) as Hts16. { pose proof (heap_region _ _ _ _ _ Hheap) as [_ _ He _ _]. simpl in He. by destruct He as (_ & ? & _). }
  unfold free_forward. wget. rewrite Etop Z.eqb_refl. wget. rewrite Ets uwrap_id; [|unfold in_u; lia]. wset. wset.
  rewrite blk_head; [|lia]. iDestruct "Hb" as "[[%h Hh] Hraw]". wsd "Hh". unfold PINUSE_BIT. rewrite lor_flag; [|zdm|lia]. wget. simpl dv.
  set (g1 := set_top q (set_topsize (ts + sz) g)). wbind.
  iApply (wp_wand _ (fun _ g2 => ⌜g2 = if q =? dv g then set_dvsize 0 (set_dv 0 g1) else g1⌝)%I).
  { destruct (q =? dv g); [wset; by iApply wp_setr|by wret]. }
  iIntros (_ g2 Eg2). iDestruct (mid_no_dv with "Hmid") as (g0) "[%Eg0 Hf]"; [lia|].
  assert (g2 = set_top q (set_topsize (ts + sz) g0)) as Eg2' by (subst; by destruct (q =? dv g)). assert (core_only g g2) as Hc.
  { subst g2. destruct (q =? dv g); [|apply core_only_top]. eapply core_only_trans; [apply core_only_top|]. apply free_core_only, (free_only_dv g1 0 0). }
  assert (lock_same g g2) as Hl by (subst g2; by destruct (q =? dv g)).
  iAssert (hp g2 L) with "[Hf Hm Hh Hraw Ho]" as "Hhp".
  { iApply (hp_close g g2 _ (Region b cs1 (Top (sz + ts)) :: rest) FR LR L with "[Hf] [Hm Hh Hraw] Ho").
    - rewrite (Z.add_comm sz ts) in Hok' |- *. apply (heap_ok_state g1); [subst g2; by destruct (q =? dv g)..|done].
    - done.
    - rewrite !fmap_cons. erewrite extent_eq; [done| |done]. simpl. rewrite total_app. simpl. lia.
    - rewrite Eg2'. by iApply frees_top.
    - iApply (hole_top_mem with "Hm [Hh] Hraw"); [done|lia|done|lia|]. by rewrite (Z.add_comm sz ts). }
  unfold should_trim. wget. destruct (trim_check g2 <? ts + sz).
  - wbind. iApply (wp_wand with "[Hhp]"); [by iApply (sys_trim_ok with "Hhp")|]. iIntros (_ g3) "(%Hl3 & Hhp)". wret. wret. iSplit; [done|]. iFrame. iPureIntro. by eapply lock_same_trans.
  - wret. wret. by iFrame.
Qed.

Lemma wp_free_forward g rest b cs1 sz cs2 e FR LR L : let q := b + total cs1 in
  hole_ok g rest b cs1 sz cs2 e FR LR -> out_pin true cs1 = true -> next_inuse e cs2 = false ->
  mid g q false FR -∗ holemem rest b cs1 sz cs2 e true -∗ blk q sz -∗ others g (ext_of rest b cs1 sz cs2 e) LR L -∗
  wp (free_forward q sz (q + sz)) (forwarded g q L) g.
Proof.
  iIntros (q Hok Hpin Hnx) "Hf Hm Hb Ho". pose proof Hok as [_ Hheap]. destruct (region_chunk g b cs1 Used sz cs2 e) as ((Hp & _ & _ & _ & Hs & _) & _); [by eapply heap_region|]. fold q in Hp.
  destruct cs2 as [|[k ns] cs2]; simpl in Hnx.
  - destruct e as [v|ts]; [done|]. iApply (wp_wand with "[Hf Hm Hb Ho]"); [by iApply (wp_forward_top with "Hf Hm Hb Ho")|]. by iIntros (r g') "[-> $]".
  - destruct k; [done|]. destruct (hole_right _ _ _ _ _ _ _ _ _ _ Hok) as (_ & HFR & _). fold q in HFR. iAssert ⌜(q + sz)%Z <> top g⌝%I as %Htop.
    { destruct (decide (q + sz = top g)) as [E|]; [|done]. iDestruct (mid_readable _ _ _ _ _ _ HFR with "Hf") as "[[Hh _] _]". iDestruct (holemem_top with "Hm") as "[%Ht|[%v Ht]]"; [done|lia|].
      rewrite -E. by iDestruct (pointsto_ne with "[$Hh $Ht]") as %?. }
    unfold free_forward. wget. rewrite (proj2 (Z.eqb_neq _ _) Htop). wget. destruct (Z.eqb_spec (q + sz) (dv g)) as [Ed|Ed].
    + iDestruct (mid_dv with "Hf") as "[[_ Hf]|[%Hd _]]"; [|lia].
      iDestruct (wp_forward_dv with "Hf Hm Hb Ho") as "[%Eu H]"; [done..|]. wget. rewrite Eu. wset. wset. wbind. iApply (wp_wand with "H"). iIntros (_ g') "H". by wret.
    + by iApply (wp_forward_binned with "Hf Hm Hb Ho").
Qed.

(** ** The second half of dlfree *)

Lemma wp_bin_ready g q s L : ready q s L g ⊢ wp (free_bin q s) (fun _ g' => freed g L g') g.
Proof.
  iIntros "(%rest & %b & %cs1 & %cs2 & %e & %FR & %LR & (-> & %Hok & %Hpin & %Hnx) & Hf & Hfc & Hm & Ho)". by iApply (wp_free_bin with "Hf Hfc Hm Ho").
Qed.

Lemma wp_free_rest g q s L : hole q s L g ⊢ wp (free_rest q s (q + s)) (fun _ g' => freed g L g') g.
Proof.
  iIntros "(%rest & %b & %cs1 & %cs2 & %e & %FR & %LR & (-> & %Hok & %Hpin) & Hf & Hm & Hb & Ho)". set (q := b + total cs1).
  pose proof Hok as [_ Hheap]. destruct (region_chunk g b cs1 Used s cs2 e) as ((_ & _ & _ & _ & Hs & _) & _); [by eapply heap_region|].
  unfold free_rest, ok_next, pinuse, cinuse. rewrite (proj2 (Z.ltb_lt _ _)); [|lia].
  iDestruct (next_head with "Hf Hm") as "(%h & %Hh & Hn & Hback)"; [done|apply mid_readable|done|]. fold q. wld "Hn".
  assert (h_pinuse (h + Z.b2z true) = true /\ h_cinuse (h + Z.b2z true) = next_inuse e cs2) as [-> Hci].
  { destruct (next_inuse e cs2); [destruct (inuse_flags h true Hh) as (? & ? & _)|destruct (free_flags h) as (? & _ & ? & _); [apply Hh..|]]; done. }
  wret. wld "Hn". wret. rewrite Hci. iDestruct ("Hback" with "Hn") as "[Hf Hm]". destruct (next_inuse e cs2) eqn:Hnx; wnorm.
  - iDestruct "Hf" as "[[%Hd Hf]|[[% _] _]]"; [|done]. wbind. iApply (wp_hole_free with "Hm Hb"); [done..|]. iIntros "Hm Hfc". wret.
    by iApply (wp_free_bin with "Hf Hfc Hm Ho").
  - wbind. iApply (wp_wand with "[Hf Hm Hb Ho]"); [by iApply (wp_free_forward with "Hf Hm Hb Ho")|]. iIntros ([s'|] g') "H"; simpl.
    + iDestruct "H" as "[%Hl H]". iApply (wp_wand with "[H]"); [by iApply wp_bin_ready|]. iIntros (_ g2) "[%Hl2 $]". iPureIntro. by eapply lock_same_trans.
    + by wret.
Qed.

(** ** A block of a region *)

Lemma wp_free_region g rs FR LR L m n : heap_ok g rs FR LR -> LR !! m = Some n ->
  frees g FR -∗ regions rs -∗ others g (extent <$> rs) (delete m LR) (delete m L) -∗ raw m (Z.to_nat (n / 8)) -∗
  wp (free_chunk_at (m - 16)) (fun _ g' => freed g (delete m L) g') g.
Proof.
  iIntros (Hheap0 Hm) "Hf Hr Ho Hraw". destruct (find_live _ _ _ _ _ _ Hheap0 Hm) as (rest & b & cs1 & cs2 & e & HP & ->). set (p := b + total cs1). set (sz := n + 8) in *.
  pose proof (heap_ok_perm _ _ _ _ _ HP Hheap0) as Hheap. pose proof (hole_of_used _ _ _ _ _ _ _ _ _ Hheap Hm) as Hok. fold p sz in Hok |- *. replace (p + 16 - 16) with p by lia.
  destruct (region_chunk g b cs1 Used sz cs2 e) as ((Hp & _ & Hla & Hs16 & Hs & Hend) & _); [by eapply heap_region|]. fold p in Hp, Hla, Hend.
  rewrite (regions_perm _ _ HP) regions_used. fold p. iDestruct "Hr" as "[Hh Hm]". set (pin := out_pin true cs1) in *.
  rewrite (others_perm _ _ (ext_of rest b cs1 sz cs2 e)); [|unfold ext_of; by rewrite HP].
  destruct (inuse_flags (sz + 2) pin) as (_ & Hfp & Hfi & _ & Hfm & _); [apply used_head; lia|].
  assert (h_size (sz + 2 + Z.b2z pin) = sz) as Hfs by (rewrite -Z.add_assoc; apply h_size_flag; [done|destruct pin; simpl; lia|lia]).
  unfold free_chunk_at, is_inuse, chunksize, pinuse, is_mmapped. wbind. iApply wp_ok_address; [done|]. wld "Hh". wret. rewrite Hfi. wld "Hh". wret. rewrite Hfs. wld "Hh". wret. rewrite Hfp.
  rewrite chunk_plus; [|lia]. iAssert (head p ↦ - -∗ blk p sz)%I with "[Hraw]" as "Hblk".
  { iIntros "Hh". rewrite blk_head; [|lia]. iFrame "Hh". replace (sz / 8 - 1) with (n / 8) by (subst sz; zdm). done. }
  destruct pin eqn:Epin; wnorm.
  - wret. iApply (wp_free_rest g p sz). iDestruct (frees_not_dv with "Hf Hh") as %Hnd; [done|]. iExists rest, b, cs1, cs2, e, FR, (delete (p + 16)%Z LR). iFrame "Hm Ho".
    iSplit; [done|]. iSplitL "Hf"; [iLeft; by iFrame|]. iApply "Hblk". by iExists _.
  - destruct (out_pin_false _ Epin) as (cs & ps & ->). set (q := b + total cs). assert (p = q + ps) as Ep by (subst p q; rewrite total_app; simpl; lia).
    assert (FR !! q = Some ps) as HFR. { pose proof (ho_free _ _ _ _ Hheap) as HF. rewrite fmap_cons /= -app_assoc free_of_mid in HF. apply elem_of_map_to_list. rewrite HF. simpl. set_solver. }
    iDestruct (frees_acc with "Hf") as "[[Hqh Hqf] Hf]"; [done|]. iEval (rewrite -Ep) in "Hqf". wld "Hqf". iEval (rewrite Ep) in "Hqf". iDestruct ("Hf" with "[$Hqh $Hqf]") as "Hf".
    wld "Hh". wret. rewrite Hfm. wbind. iDestruct ("Hblk" with "[Hh]") as "Hb"; [by iExists _|].
    iApply (wp_wand with "[Hf Hm Hb Ho]"); [by iApply (wp_free_backward with "Hf Hm Hb Ho")|]. iIntros ([[q' s']|] g1) "H"; simpl; [|by wret].
    iDestruct "H" as "[[%Hl %En] H]". fold p in En. rewrite -En. iApply (wp_wand with "[H]"); [by iApply wp_free_rest|]. iIntros (_ g2) "[%Hl2 $]". iPureIntro. by eapply lock_same_trans.
Qed.

(** ** A block that was mapped on its own *)

(** The mapping of a block, as one block of words. *)
Lemma mm_chunk_raw g m x : mm_ok g m x ->
  raw m (Z.to_nat ((x.1 - 16) / 8)) -∗ mm_chunk m x -∗ raw (m - 16 - x.2) (Z.to_nat ((x.1 + x.2 + 32) / 8)) ∗ mapped (m - 16 - x.2) (x.1 + x.2 + 32).
Proof.
  iIntros ((Hm & Hm16 & Hla & Hx & Hx32 & Ho & Ho8 & Hend)) "Hraw (Ho & Hf & Hh & Hend & $)".
  replace (Z.to_nat ((x.1 + x.2 + 32) / 8)) with (Z.to_nat (x.2 / 8) + (2 + (Z.to_nat ((x.1 - 16) / 8) + 4)))%nat by zdm. rewrite !raw_app.
  replace (m - 16 - x.2 + 8 * Z.to_nat (x.2 / 8)) with (m - 16) by zdm. iFrame "Ho". replace (m - 16 + 8 * 2%nat) with m by lia. iFrame "Hraw".
  replace (m + 8 * Z.to_nat ((x.1 - 16) / 8)) with (m - 16 + x.1) by zdm. iFrame "Hend". cbn [raw]. unfold head. iSplitL "Hf"; [by iExists _|]. iSplit; [by iExists _|done].
Qed.

Lemma wp_free_mmapped g L m x : mm_ok g m x ->
  hp g L -∗ mm_chunk m x -∗ raw m (Z.to_nat ((x.1 - 16) / 8)) -∗
  wp (free_chunk_at (m - 16)) (fun _ g' => freed g L g') g.
Proof.
  iIntros (Hx) "Hhp Hc Hraw".
  pose proof Hx as (Hm & Hm16 & Hla & Hx16 & Hx32 & Ho & Ho8 & Hend). iDestruct "Hc" as "(Hoff & Hft & Hh & Hfence)".
  assert (forall c, 0 <= c < 16 -> Z.land x.1 c = 0) as Hfl by (intros c Hc; rewrite -(Z.add_0_r x.1) (land_flag x.1 0) //; apply Z.land_0_l).
  unfold free_chunk_at, is_inuse, chunksize, pinuse, is_mmapped. wbind. iApply wp_ok_address; [lia|]. wld "Hh". wret. unfold h_inuse. rewrite Hfl // /=. wld "Hh". wret.
  wld "Hh". wret. unfold h_pinuse. rewrite Hfl // /=. wld "Hft". wld "Hh". wret. unfold h_mmapped. rewrite Hfl // /=.
  assert (h_size x.1 = x.1) as -> by (rewrite -{1}(Z.add_0_r x.1); apply h_size_flag; [done|lia|lia]).
  iDestruct (mm_chunk_raw with "Hraw [$Hoff $Hft $Hh $Hfence]") as "[Hraw Hmap]"; [done|]. unfold free_mmapped, MMAP_FOOT_PAD. rewrite !uwrap_id; [|unfold in_u; lia..].
  wbind. iApply (munmap_ok with "Hraw Hmap"); [lia..|]. iIntros (r er).
  destruct (r =? 0); [wset; wret|wret; wret]; wret; (iSplit; [done|]); [iApply hp_footprint|]; by iApply hp_errno.
Qed.

(** ** free *)

Lemma wp_free_chunk_at g L m n : L !! m = Some n ->
  hp g L -∗ raw m (Z.to_nat (n / 8)) -∗ wp (free_chunk_at (m - 16)) (fun _ g' => freed g (delete m L) g') g.
Proof.
  iIntros (HL) "(%rs & %FR & %LR & %Hok & Hf & Hr & Ho) Hraw". iDestruct (others_block _ _ _ _ m n with "Ho") as "[[%HLR Ho]|(%x & (%Hx & ->) & Hc & Ho)]"; [exact HL| |].
  - by iApply (wp_free_region with "Hf Hr Ho Hraw").
  - iApply (wp_free_mmapped with "[Hf Hr Ho] Hc Hraw"); [done|]. iExists rs, FR, LR. by iFrame.
Qed.

Lemma hp_block g L m n : L !! m = Some n -> hp g L ⊢ ⌜16 < m < 2 ^ 64⌝.
Proof.
  iIntros (HL) "(%rs & %FR & %LR & %Hok & _ & _ & Ho)". iDestruct (others_block _ _ _ _ m n with "Ho") as "[[%HLR _]|(%x & ((%Hm & _ & _ & _ & % & _ & _ & %) & _) & _)]"; [exact HL| |iPureIntro; lia].
  iPureIntro. destruct (find_live _ _ _ _ _ _ Hok HLR) as (rest & b & cs1 & cs2 & e & HP & ->). pose proof (heap_ok_perm _ _ _ _ _ HP Hok) as Hheap.
  destruct (region_chunk g b cs1 Used (n + 8) cs2 e) as ((Hp & _ & _ & _ & Hs & Hend) & _); [by eapply heap_region|]. lia.
Qed.

Lemma wp_dlfree g L m n : L !! m = Some n ->
  dlheap g L -∗ raw m (Z.to_nat (n / 8)) -∗ wp (dlfree m) (fun _ g' => dlheap g' (delete m L)) g.
Proof.
  iIntros (HL) "[%Hm0 [Hh|[-> _]]] Hraw"; [|done]. iAssert ⌜16 < m < 2 ^ 64⌝%I as %Hm. { by iApply (hp_block with "Hh"). }
  unfold dlfree. rewrite (proj2 (Z.eqb_neq m 0)); [|lia]. wbind. iApply (wp_wand with "[Hh]"); [by iApply wp_PREACTION|].
  iIntros (r g1) "((-> & %Hf & %Hu) & Hhp)". rewrite Z.eqb_refl. unfold mem2chunk. rewrite uwrap_id; [|unfold in_u; lia].
  wbind. iApply (wp_wand with "[Hhp Hraw]"); [by iApply (wp_free_chunk_at with "Hhp Hraw")|]. iIntros (_ g2) "((%Hf2 & %Hm2) & Hhp)".
  iApply (wp_POSTACTION with "Hhp"). rewrite Hm2. intros E. apply Hu. rewrite -E. symmetry. apply use_lock_same. congruence.
Qed.
End free.
