(* ===== verification/DlSys.v ===== *)
(** * dlmalloc: memory from the system

    init_mparams, mmap_alloc, init_top, init_bins, prepend_alloc, add_segment, sys_alloc,
    release_unused_segments and sys_trim of c/error/dlmalloc.c, with HAVE_MORECORE and
    HAVE_MREMAP 0: all memory comes from mmap.

    The kernel's mmap and munmap are parameters.  A mapped page has its words in the
    memory and an entry of the page table, [pte], at a negative address of the model. *)

From iris.proofmode Require Import proofmode.
From S2P Require Import Prelude DlSep DlBase DlBins DlTree.

(** ** mmap and munmap *)

(** The kernel: where a new mapping goes, or the error; the error of munmap, if any; the
    time; the range of addresses that mmap uses. *)
Class Kern := {
  mmap_at : heap -> Z -> Z + Z;
  munmap_err : heap -> Z -> Z -> option Z;
  time : Z;
  ulo : Z;
  uhi : Z }.

Definition CMFAIL : Z := MAX_SIZE_T.
Definition PGSIZE : Z := 4096.

(** The entry of a page in the page table. *)
Definition pte (k : Z) : Z := - 1 - k.

(** The words and the entries of a new mapping. *)
Fixpoint zeros (a : Z) (k : nat) : heap := match k with O => ∅ | S k => <[a := 0]> (zeros (a + 8) k) end.
Fixpoint ptes (p : Z) (k : nat) : heap := match k with O => ∅ | S k => <[pte p := 1]> (ptes (p + 1) k) end.
Definition fresh (a n : Z) : heap := zeros a (Z.to_nat (n / 8)) ∪ ptes (a / PGSIZE) (Z.to_nat (n / PGSIZE)).

Section code.
Context `{Gm, Kern}.

Definition CALL_MMAP (n : Z) : HM Z := fun s =>
  match mmap_at (words s) n with
  | inr a => Ret a (WS (regs s) (fresh a n ∪ words s))
  | inl e => Ret CMFAIL (WS (set_errno e (regs s)) (words s))
  end.
Definition CALL_DIRECT_MMAP (n : Z) : HM Z := CALL_MMAP n.
Definition CALL_MUNMAP (a n : Z) : HM Z := fun s =>
  match munmap_err (words s) a n with
  | None => Ret 0 (WS (regs s) (words s ∖ fresh a n))
  | Some e => Ret (-1) (WS (set_errno e (regs s)) (words s))
  end.

(** ** Parameters *)

Definition DEFAULT_GRANULARITY : Z := 64 * 1024.
Definition DEFAULT_TRIM_THRESHOLD : Z := 2 * 1024 * 1024.
Definition DEFAULT_MMAP_THRESHOLD : Z := 256 * 1024.
Definition MAX_RELEASE_CHECK_RATE : Z := 4095.
Definition malloc_getpagesize : Z := PGSIZE.
Definition USE_MMAP_BIT : Z := 1.
Definition USE_NONCONTIGUOUS_BIT : Z := 4.
Definition EXTERN_BIT : Z := 8.
Definition FENCEPOST_HEAD : Z := Z.lor INUSE_BITS 8.
Definition SIX_SIZE_T_SIZES : Z := 48.
Definition FOUR_SIZE_T_SIZES : Z := 32.
Definition ENOMEM : Z := 12.

Definition align_offset (a : Z) : Z :=
  if Z.land a CHUNK_ALIGN_MASK =? 0 then 0 else Z.land (u64 (16 - Z.land a CHUNK_ALIGN_MASK)) CHUNK_ALIGN_MASK.
Definition align_as_chunk (a : Z) : Z := u64 (a + align_offset (chunk2mem a)).
(** sizeof(struct malloc_segment) is 32. *)
Definition TOP_FOOT_SIZE : Z := align_offset (chunk2mem 0) + pad_request 32 + MIN_CHUNK_SIZE.
Definition SYS_ALLOC_PADDING : Z := TOP_FOOT_SIZE + 16.

Definition align_to (unit s : Z) : Z := Z.land (u64 (s + (unit - 1))) (u64 (Z.lnot (unit - 1))).
Definition page_align (s : Z) : HM Z := getr (fun g => align_to (page_size (sysv g)) s).
Definition mmap_align (s : Z) : HM Z := page_align s.
Definition granularity_align (s : Z) : HM Z := getr (fun g => align_to (granularity (sysv g)) s).

Definition set_max_footprint v g := set_sysv (fun y => SysVars v (footprint_limit y) (magic y) (errno y) (global_mutex y)
  (mp_magic y) (page_size y) (granularity y) (mmap_threshold y) (trim_threshold y) (default_mflags y)) g.
Definition set_magic v g := set_sysv (fun y => SysVars (max_footprint y) (footprint_limit y) v (errno y) (global_mutex y)
  (mp_magic y) (page_size y) (granularity y) (mmap_threshold y) (trim_threshold y) (default_mflags y)) g.
Definition set_global_mutex v g := set_sysv (fun y => SysVars (max_footprint y) (footprint_limit y) (magic y) (errno y) v
  (mp_magic y) (page_size y) (granularity y) (mmap_threshold y) (trim_threshold y) (default_mflags y)) g.
Definition set_mparams ps gr mt tt mf g := set_sysv (fun y => SysVars (max_footprint y) (footprint_limit y) (magic y) (errno y) (global_mutex y)
  (mp_magic y) ps gr mt tt mf) g.
Definition set_mp_magic v g := set_sysv (fun y => SysVars (max_footprint y) (footprint_limit y) (magic y) (errno y) (global_mutex y)
  v (page_size y) (granularity y) (mmap_threshold y) (trim_threshold y) (default_mflags y)) g.

(** The global lock: as [ACQUIRE_LOCK] and [RELEASE_LOCK] of the mutex of [_gm_]. *)
Definition CAS_GLOBAL : HM Z := v ← getr (fun g => global_mutex (sysv g)); setr (set_global_mutex 1);; mret v.
Definition ACQUIRE_MALLOC_GLOBAL_LOCK : HM Z :=
  r ← CAS_GLOBAL;
  if negb (r =? 0) then
    loop SPINS (fun _ : unit =>
      v ← getr (fun g => global_mutex (sysv g));
      if negb (v =? 0) then mret (inl tt)
      else r ← CAS_GLOBAL; if negb (r =? 0) then mret (inl tt) else mret (inr 0)) tt
  else mret 0.
Definition RELEASE_MALLOC_GLOBAL_LOCK : HM unit := setr (set_global_mutex 0).

Definition is_pow2 (x : Z) : bool := Z.land x (x - 1) =? 0.

Definition init_mparams : HM Z :=
  ACQUIRE_MALLOC_GLOBAL_LOCK;;
  mm ← getr (fun g => mp_magic (sysv g));
  (if mm =? 0 then
     let psize := malloc_getpagesize in
     let gsize := if negb (DEFAULT_GRANULARITY =? 0) then DEFAULT_GRANULARITY else psize in
     if is_pow2 16 && is_pow2 MIN_CHUNK_SIZE && is_pow2 gsize && is_pow2 psize then
       let flags := Z.lor (Z.lor USE_LOCK_BIT USE_MMAP_BIT) USE_NONCONTIGUOUS_BIT in
       setr (set_mparams psize gsize DEFAULT_MMAP_THRESHOLD DEFAULT_TRIM_THRESHOLD flags);;
       setr (set_mflags flags);;
       setr (set_mutex 0);;
       let magic := u64 (Z.lxor time 0x55555555) in
       let magic := Z.lor magic 8 in
       let magic := Z.land magic (u64 (Z.lnot 7)) in
       setr (set_mp_magic magic)
     else halt (-1)
   else mret tt);;
  RELEASE_MALLOC_GLOBAL_LOCK;;
  mret 1.

Definition ensure_initialization : HM unit :=
  mm ← getr (fun g => mp_magic (sysv g));
  if negb (mm =? 0) then mret tt else init_mparams;; mret tt.

(** ** Segments

    The fields of struct malloc_segment; [segment0] is the record in [_gm_]. *)

Definition seg_base (sp : Z) : Z := sp.
Definition seg_size (sp : Z) : Z := sp + 8.
Definition seg_next (sp : Z) : Z := sp + 16.
Definition seg_sflags (sp : Z) : Z := sp + 24.

Definition is_mmapped_segment (fl : Z) : bool := negb (Z.land fl USE_MMAP_BIT =? 0).
Definition is_extern_segment (fl : Z) : bool := negb (Z.land fl EXTERN_BIT =? 0).

Definition segment_holds (sp a : Z) : HM bool :=
  b ← ld (seg_base sp); if b <=? a then n ← ld (seg_size sp); mret (a <? u64 (b + n)) else mret false.

Definition segment_holding (addr : Z) : HM Z :=
  fuel ← memsize;
  loop fuel (fun sp =>
    h ← segment_holds sp addr;
    if h : bool then mret (inr sp)
    else n ← ld (seg_next sp); if n =? 0 then mret (inr 0) else mret (inl n)) segment0.

Definition has_segment_link (ss : Z) : HM bool :=
  fuel ← memsize;
  loop fuel (fun sp =>
    h ← segment_holds ss sp;
    if h : bool then mret (inr true)
    else n ← ld (seg_next sp); if n =? 0 then mret (inr false) else mret (inl n)) segment0.

(** ** Direct mappings *)

(** Would [n] more bytes exceed the limit? *)
Definition over_limit (n : Z) : HM bool :=
  getr (fun g => let fl := footprint_limit (sysv g) in let fp := u64 (footprint g + n) in
                 negb (fl =? 0) && ((fp <=? footprint g) || (fl <? fp))).

Definition grow_footprint (n : Z) : HM unit :=
  setr (fun g => set_footprint (u64 (footprint g + n)) g);;
  setr (fun g => if max_footprint (sysv g) <? footprint g then set_max_footprint (footprint g) g else g).

Definition mmap_alloc (nb : Z) : HM Z :=
  mmsize ← mmap_align (u64 (nb + SIX_SIZE_T_SIZES + CHUNK_ALIGN_MASK));
  ov ← over_limit mmsize;
  if ov : bool then mret 0
  else if nb <? mmsize then
    mm ← CALL_DIRECT_MMAP mmsize;
    if negb (mm =? CMFAIL) then
      let offset := align_offset (chunk2mem mm) in
      let psize := u64 (mmsize - offset - MMAP_FOOT_PAD) in
      let p := u64 (mm + offset) in
      sd (prev_foot p) offset;;
      sd (head p) psize;;
      sd (head (chunk_plus_offset p psize)) FENCEPOST_HEAD;;
      sd (head (chunk_plus_offset p (psize + 8))) 0;;
      setr (fun g => if (least_addr g =? 0) || (mm <? least_addr g) then set_least_addr mm g else g);;
      grow_footprint mmsize;;
      mret (chunk2mem p)
    else mret 0
  else mret 0.

(** ** The top chunk and new segments *)

Definition init_top (p psize : Z) : HM unit :=
  let offset := align_offset (chunk2mem p) in
  let p := u64 (p + offset) in
  let psize := u64 (psize - offset) in
  setr (set_top p);;
  setr (set_topsize psize);;
  sd (head p) (Z.lor psize PINUSE_BIT);;
  sd (head (chunk_plus_offset p psize)) TOP_FOOT_SIZE;;
  setr (fun g => set_trim_check (trim_threshold (sysv g)) g).

Fixpoint init_bins_from (n : nat) (i : Z) : HM unit :=
  match n with
  | O => mret tt
  | S n => let bin := smallbin_at i in sd (bk bin) bin;; sd (fd bin) bin;; init_bins_from n (i + 1)
  end.
Definition init_bins : HM unit := init_bins_from (Z.to_nat NSMALLBINS) 0.

(** What happens to the part of the new memory that the request does not need. *)
Definition prepend_rest (q qsize oldfirst : Z) : HM unit :=
  tp ← getr top;
  d ← getr dv;
  (if oldfirst =? tp then
     ts ← getr topsize;
     let tsize := u64 (ts + qsize) in
     setr (set_topsize tsize);;
     setr (set_top q);;
     sd (head q) (Z.lor tsize PINUSE_BIT)
   else if oldfirst =? d then
     ds ← getr dvsize;
     let dsize := u64 (ds + qsize) in
     setr (set_dvsize dsize);;
     setr (set_dv q);;
     set_size_and_pinuse_of_free_chunk q dsize
   else
     inu ← is_inuse oldfirst;
     x ← (if negb inu then
            nsize ← chunksize oldfirst;
            unlink_chunk oldfirst nsize;;
            mret (chunk_plus_offset oldfirst nsize, u64 (qsize + nsize))
          else mret (oldfirst, qsize));
     let '(oldfirst, qsize) := x in
     set_free_with_pinuse q qsize oldfirst;;
     insert_chunk q qsize).

Definition prepend_alloc (newbase oldbase nb : Z) : HM Z :=
  let p := align_as_chunk newbase in
  let oldfirst := align_as_chunk oldbase in
  let psize := u64 (oldfirst - p) in
  let q := chunk_plus_offset p nb in
  let qsize := u64 (psize - nb) in
  set_size_and_pinuse_of_inuse_chunk p nb;;
  prepend_rest q qsize oldfirst;;
  mret (chunk2mem p).

(** The fenceposts from [p] to the end of the segment. *)
Definition FENCES : nat := 16.
Definition fenceposts (p old_end : Z) : HM unit :=
  loop FENCES (fun p =>
    let nextp := chunk_plus_offset p 8 in
    sd (head p) FENCEPOST_HEAD;;
    if head nextp <? old_end then mret (inl nextp) else mret (inr tt)) p.

(** Copies the current record to [ss] and sets it to the new segment. *)
Definition push_segment (ss tbase tsize mmapped : Z) : HM unit :=
  b ← ld (seg_base segment0); sd (seg_base ss) b;;
  n ← ld (seg_size segment0); sd (seg_size ss) n;;
  x ← ld (seg_next segment0); sd (seg_next ss) x;;
  f ← ld (seg_sflags segment0); sd (seg_sflags ss) f;;
  sd (seg_base segment0) tbase;;
  sd (seg_size segment0) tsize;;
  sd (seg_sflags segment0) mmapped;;
  sd (seg_next segment0) ss.

Definition add_segment (tbase tsize mmapped : Z) : HM unit :=
  old_top ← getr top;
  oldsp ← segment_holding old_top;
  ob ← ld (seg_base oldsp);
  os ← ld (seg_size oldsp);
  let old_end := u64 (ob + os) in
  let ssize := pad_request 32 in
  let rawsp := u64 (old_end - (ssize + FOUR_SIZE_T_SIZES + CHUNK_ALIGN_MASK)) in
  let offset := align_offset (chunk2mem rawsp) in
  let asp := u64 (rawsp + offset) in
  let csp := if asp <? u64 (old_top + MIN_CHUNK_SIZE) then old_top else asp in
  let sp := csp in
  let ss := chunk2mem sp in
  let tnext := chunk_plus_offset sp ssize in
  init_top tbase (u64 (tsize - TOP_FOOT_SIZE));;
  set_size_and_pinuse_of_inuse_chunk sp ssize;;
  push_segment ss tbase tsize mmapped;;
  fenceposts tnext old_end;;
  if negb (csp =? old_top) then
    let q := old_top in
    let psize := u64 (csp - old_top) in
    let tn := chunk_plus_offset q psize in
    set_free_with_pinuse q psize tn;;
    insert_chunk q psize
  else mret tt.

(** ** System allocation *)

(** The first segment. *)
Definition sys_first (tbase tsize mmap_flag : Z) : HM unit :=
  setr (fun g => if (least_addr g =? 0) || (tbase <? least_addr g) then set_least_addr tbase g else g);;
  sd (seg_base segment0) tbase;;
  sd (seg_size segment0) tsize;;
  sd (seg_sflags segment0) mmap_flag;;
  setr (fun g => set_magic (mp_magic (sysv g)) g);;
  setr (set_release_checks MAX_RELEASE_CHECK_RATE);;
  init_bins;;
  init_top tbase (u64 (tsize - TOP_FOOT_SIZE)).

(** The segment that ends at [a], and the one that starts at [a]; 0 if there is none. *)
Definition find_end (a : Z) : HM Z :=
  fuel ← memsize;
  loop fuel (fun sp =>
    if negb (sp =? 0) then
      b ← ld (seg_base sp); n ← ld (seg_size sp);
      if negb (a =? u64 (b + n)) then x ← ld (seg_next sp); mret (inl x) else mret (inr sp)
    else mret (inr sp)) segment0.
Definition find_start (a : Z) : HM Z :=
  fuel ← memsize;
  loop fuel (fun sp =>
    if negb (sp =? 0) then
      b ← ld (seg_base sp);
      if negb (b =? a) then x ← ld (seg_next sp); mret (inl x) else mret (inr sp)
    else mret (inr sp)) segment0.

(** Is [sp] a segment of the kind of a new mapping? *)
Definition same_kind (sp mmap_flag : Z) : HM bool :=
  if negb (sp =? 0) then
    f ← ld (seg_sflags sp);
    mret (negb (is_extern_segment f) && (Z.land f USE_MMAP_BIT =? mmap_flag))
  else mret false.

(** New memory after the segment of the top chunk, and before a segment. *)
Definition append_segment (sp tsize : Z) : HM unit :=
  n ← ld (seg_size sp); sd (seg_size sp) (u64 (n + tsize));;
  tp ← getr top; ts ← getr topsize;
  init_top tp (u64 (ts + tsize)).
Definition prepend_segment (sp tbase tsize nb : Z) : HM (option Z) :=
  oldbase ← ld (seg_base sp);
  sd (seg_base sp) tbase;;
  n ← ld (seg_size sp); sd (seg_size sp) (u64 (n + tsize));;
  mem ← prepend_alloc tbase oldbase nb;
  mret (Some mem).

(** New memory goes to the top chunk, before a segment, or into a segment of its own.
    [Some mem]: the request was served. *)
Definition sys_extend (tbase tsize mmap_flag nb : Z) : HM (option Z) :=
  sp ← find_end tbase;
  k ← same_kind sp mmap_flag;
  ap ← (if k : bool then tp ← getr top; segment_holds sp tp else mret false);
  if ap : bool then
    append_segment sp tsize;; mret None
  else
    setr (fun g => if tbase <? least_addr g then set_least_addr tbase g else g);;
    sp ← find_start (u64 (tbase + tsize));
    k ← same_kind sp mmap_flag;
    if k : bool then prepend_segment sp tbase tsize nb
    else add_segment tbase tsize mmap_flag;; mret None.

Definition MALLOC_FAILURE_ACTION : HM unit := setr (set_errno ENOMEM).

(** A request that the top chunk serves, if it is large enough. *)
Definition sys_top (nb : Z) : HM Z :=
  ts ← getr topsize;
  if nb <? ts then
    let rsize := ts - nb in
    setr (set_topsize rsize);;
    p ← getr top;
    let r := chunk_plus_offset p nb in
    setr (set_top r);;
    sd (head r) (Z.lor rsize PINUSE_BIT);;
    set_size_and_pinuse_of_inuse_chunk p nb;;
    mret (chunk2mem p)
  else MALLOC_FAILURE_ACTION;; mret 0.

Definition sys_alloc (nb : Z) : HM Z :=
  ensure_initialization;;
  mm ← getr (fun g => negb (Z.land (mflags g) USE_MMAP_BIT =? 0) && (mmap_threshold (sysv g) <=? nb) && negb (topsize g =? 0));
  mem ← (if mm : bool then mmap_alloc nb else mret 0);
  if negb (mem =? 0) then mret mem
  else
    asize ← granularity_align (u64 (nb + SYS_ALLOC_PADDING));
    if asize <=? nb then mret 0
    else
      ov ← over_limit asize;
      if ov : bool then mret 0
      else
        tbase ← CALL_MMAP asize;
        if negb (tbase =? CMFAIL) then
          grow_footprint asize;;
          tp ← getr top;
          r ← (if tp =? 0 then sys_first tbase asize USE_MMAP_BIT;; mret None
               else sys_extend tbase asize USE_MMAP_BIT nb);
          match r with Some mem => mret mem | None => sys_top nb end
        else MALLOC_FAILURE_ACTION;; mret 0.

(** ** System deallocation *)

(** Can the first chunk [p] of a segment go with the segment? *)
Definition unused_segment (base size p : Z) : HM (option Z) :=
  psize ← chunksize p;
  inu ← is_inuse p;
  if negb inu && (u64 (base + size - TOP_FOOT_SIZE) <=? u64 (p + psize)) then mret (Some psize) else mret None.

(** Unmaps a segment; the segment that the next record is linked to, and the bytes. *)
Definition release_segment (pred sp base size next p psize : Z) : HM (Z * Z) :=
  d ← getr dv;
  (if p =? d then setr (set_dv 0);; setr (set_dvsize 0) else unlink_large_chunk p);;
  r ← CALL_MUNMAP base size;
  if r =? 0 then
    setr (fun g => set_footprint (u64 (footprint g - size)) g);;
    sd (seg_next pred) next;;
    mret (pred, size)
  else insert_large_chunk p psize;; mret (sp, 0).

(** One segment: the previous record, the record, the bytes released, the number of segments. *)
Definition release_step (x : Z * Z * Z * Z) : HM (Z * Z * Z * Z + Z * Z) :=
  let '(pred, sp, released, nsegs) := x in
  if negb (sp =? 0) then
    base ← ld (seg_base sp);
    size ← ld (seg_size sp);
    next ← ld (seg_next sp);
    fl ← ld (seg_sflags sp);
    y ← (if is_mmapped_segment fl && negb (is_extern_segment fl) then
           let p := align_as_chunk base in
           u ← unused_segment base size p;
           match u with
           | Some psize => release_segment pred sp base size next p psize
           | None => mret (sp, 0)
           end
         else mret (sp, 0));
    let '(pred, n) := y in
    mret (inl (pred, next, u64 (released + n), nsegs + 1))
  else mret (inr (released, nsegs)).

Definition release_unused_segments : HM Z :=
  fuel ← memsize;
  sp ← ld (seg_next segment0);
  x ← loop fuel release_step (segment0, sp, 0, 0);
  let '(released, nsegs) := x in
  setr (set_release_checks (if MAX_RELEASE_CHECK_RATE <? nsegs then nsegs else MAX_RELEASE_CHECK_RATE));;
  mret released.

(** Shrinks the top chunk; the bytes released. *)
Definition trim_top (pad : Z) : HM Z :=
  ts ← getr topsize;
  if pad <? ts then
    unit ← getr (fun g => granularity (sysv g));
    let extra := u64 ((u64 (ts - pad + (unit - 1)) / unit - 1) * unit) in
    tp ← getr top;
    sp ← segment_holding tp;
    fl ← ld (seg_sflags sp);
    released ←
      (if negb (is_extern_segment fl) && is_mmapped_segment fl then
         n ← ld (seg_size sp);
         ok ← (if extra <=? n then l ← has_segment_link sp; mret (negb l) else mret false);
         if ok : bool then
           let newsize := u64 (n - extra) in
           b ← ld (seg_base sp);
           r ← CALL_MUNMAP (u64 (b + newsize)) extra;
           mret (if r =? 0 then extra else 0)
         else mret 0
       else mret 0);
    (if negb (released =? 0) then
       n ← ld (seg_size sp); sd (seg_size sp) (u64 (n - released));;
       setr (fun g => set_footprint (u64 (footprint g - released)) g);;
       tp ← getr top; ts ← getr topsize;
       init_top tp (u64 (ts - released))
     else mret tt);;
    mret released
  else mret 0.

Definition sys_trim (pad : Z) : HM Z :=
  ensure_initialization;;
  tp ← getr top;
  if (pad <? MAX_REQUEST) && negb (tp =? 0) then
    released ← trim_top (u64 (pad + TOP_FOOT_SIZE));
    n ← release_unused_segments;
    let released := u64 (released + n) in
    setr (fun g => if (released =? 0) && (trim_check g <? topsize g) then set_trim_check MAX_SIZE_T g else g);;
    mret (if negb (released =? 0) then 1 else 0)
  else mret 0.
End code.
