(* ===== verification/DlMap.v ===== *)
(** * dlmalloc: rules for mmap and munmap

    What the kernel's mmap is relied on for, and the ownership of pages. *)

From iris.proofmode Require Import proofmode.
From S2P Require Import Prelude DlSep DlBase DlBins DlTree DlSys.

(** mmap returns whole pages inside its range that were not mapped. *)
Class KernOk `{Kern} : Prop := {
  ulo_pos : 0 < ulo;
  uhi_bound : uhi <= ulo + 2 ^ 40 /\ uhi < 2 ^ 63;
  mmap_spec h n a : 0 < n -> n mod PGSIZE = 0 -> mmap_at h n = inr a ->
    a mod PGSIZE = 0 /\ ulo <= a /\ a + n <= uhi /\ fresh a n ##ₘ h }.

(** ** Pages *)

Fixpoint pages (p : Z) (k : nat) : hpropI := match k with O => emp | S k => pte p ↦ - ∗ pages (p + 1) k end%I.
Definition mapped (a n : Z) : hpropI := pages (a / PGSIZE) (Z.to_nat (n / PGSIZE)).

Lemma zeros_lookup a k x v : zeros a k !! x = Some v -> v = 0 /\ exists i, 0 <= i < k /\ x = a + 8 * i.
Proof.
  revert a. induction k as [|k IH]; intros a; simpl; [by rewrite lookup_empty|]. intros [[<- <-]|[_ H]]%lookup_insert_Some.
  - split; [done|]. exists 0. lia.
  - destruct (IH _ H) as [-> (i & Hi & ->)]. split; [done|]. exists (i + 1). lia.
Qed.

Lemma ptes_lookup p k x v : ptes p k !! x = Some v -> exists i, 0 <= i < k /\ x = pte (p + i).
Proof.
  revert p. induction k as [|k IH]; intros p; simpl; [by rewrite lookup_empty|]. intros [[<- _]|[_ H]]%lookup_insert_Some.
  - exists 0. rewrite Z.add_0_r. split; [lia|done].
  - destruct (IH _ H) as (i & Hi & ->). exists (i + 1). split; [lia|]. f_equal. lia.
Qed.

Lemma fresh_disjoint a n : 0 <= a -> zeros a (Z.to_nat (n / 8)) ##ₘ ptes (a / PGSIZE) (Z.to_nat (n / PGSIZE)).
Proof.
  intros Ha. apply map_disjoint_spec. intros x v w [_ (i & Hi & ->)]%zeros_lookup (j & Hj & E)%ptes_lookup. unfold pte, PGSIZE in E.
  assert (0 <= a / 4096) by (apply Z.div_pos; lia). lia.
Qed.

Lemma zeros_raw a k : hholds (raw a k) (zeros a k).
Proof.
  revert a. induction k as [|k IH]; intros a; [done|]. exists {[a := 0]}, (zeros (a + 8) k). split; [by rewrite -insert_union_singleton_l|].
  split; [|split; [exists 0; by rewrite /hholds /= lookup_singleton_eq|apply IH]].
  apply map_disjoint_singleton_l. destruct (zeros (a + 8) k !! a) as [v|] eqn:E; [|done]. apply zeros_lookup in E as [_ (i & Hi & E)]. lia.
Qed.

Lemma ptes_pages p k : hholds (pages p k) (ptes p k).
Proof.
  revert p. induction k as [|k IH]; intros p; [done|]. exists {[pte p := 1]}, (ptes (p + 1) k). split; [by rewrite -insert_union_singleton_l|].
  split; [|split; [exists 1; by rewrite /hholds /= lookup_singleton_eq|apply IH]].
  apply map_disjoint_singleton_l. destruct (ptes (p + 1) k !! pte p) as [v|] eqn:E; [|done]. apply ptes_lookup in E as (i & Hi & E). unfold pte in E. lia.
Qed.

Lemma raw_dom a k h x v : hholds (raw a k) h -> zeros a k !! x = Some v -> is_Some (h !! x).
Proof.
  revert a h. induction k as [|k IH]; intros a h; [by rewrite lookup_empty|]. intros (h1 & h2 & -> & Hd & [w Hw] & Hr) Hv. simpl in Hv. apply lookup_insert_Some in Hv as [[<- _]|[_ Hx]].
  - exists w. by apply lookup_union_Some_l.
  - destruct (IH _ _ Hr Hx) as [u Hu]. exists u. by apply lookup_union_Some_r.
Qed.

Lemma pages_dom p k h x v : hholds (pages p k) h -> ptes p k !! x = Some v -> is_Some (h !! x).
Proof.
  revert p h. induction k as [|k IH]; intros p h; [by rewrite lookup_empty|]. intros (h1 & h2 & -> & Hd & [w Hw] & Hr) Hv. simpl in Hv. apply lookup_insert_Some in Hv as [[<- _]|[_ Hx]].
  - exists w. by apply lookup_union_Some_l.
  - destruct (IH _ _ Hr Hx) as [u Hu]. exists u. by apply lookup_union_Some_r.
Qed.

(** ** Ownership of pages *)

Lemma pages_app p (j k : nat) : pages p (j + k) ⊣⊢ pages p j ∗ pages (p + j) k.
Proof.
  revert p. induction j as [|j IH]; intros p; simpl; [rewrite left_id; by rewrite Z.add_0_r|].
  rewrite IH assoc. by replace (p + 1 + j) with (p + S j) by lia.
Qed.

Lemma pages_lookup p (k : nat) i : 0 <= i < k -> pages p k ⊢ pte (p + i) ↦ -.
Proof.
  intros Hi. replace k with (Z.to_nat i + S (k - Z.to_nat i - 1))%nat by lia. rewrite pages_app. simpl. replace (p + Z.to_nat i) with (p + i) by lia.
  by iIntros "(_ & $ & _)".
Qed.

Lemma mapping_app a n m : a mod PGSIZE = 0 -> n mod PGSIZE = 0 -> 0 <= n -> 0 <= m -> mapped a (n + m) ⊣⊢ mapped a n ∗ mapped (a + n) m.
Proof.
  unfold PGSIZE, mapped. intros Ha Hn Hn0 Hm0. unfold PGSIZE. replace (Z.to_nat ((n + m) / 4096)) with (Z.to_nat (n / 4096) + Z.to_nat (m / 4096))%nat by zdm.
  rewrite pages_app. by replace (a / 4096 + Z.to_nat (n / 4096)) with ((a + n) / 4096) by zdm.
Qed.

(** No page is owned twice. *)
Lemma mapped_disjoint a n b m x : a mod PGSIZE = 0 -> n mod PGSIZE = 0 -> b mod PGSIZE = 0 -> m mod PGSIZE = 0 -> a <= x < a + n -> b <= x < b + m ->
  mapped a n -∗ mapped b m -∗ False.
Proof.
  unfold PGSIZE. iIntros (Ha Hn Hb Hm Hx1 Hx2) "H1 H2". unfold mapped, PGSIZE.
  rewrite (pages_lookup (a / 4096) _ (x / 4096 - a / 4096)); [|zdm]. rewrite (pages_lookup (b / 4096) _ (x / 4096 - b / 4096)); [|zdm].
  replace (a / 4096 + (x / 4096 - a / 4096)) with (b / 4096 + (x / 4096 - b / 4096)) by lia. iDestruct "H1" as (v) "H1". iDestruct "H2" as (w) "H2".
  by iDestruct (pointsto_ne with "[$H1 $H2]") as %?.
Qed.

Lemma difference_union_distr (m1 m2 f : heap) : (m1 ∪ m2) ∖ f = m1 ∖ f ∪ m2 ∖ f.
Proof.
  apply map_eq. intros x. rewrite lookup_difference !lookup_union !lookup_difference. by destruct (f !! x), (m1 !! x), (m2 !! x).
Qed.

Lemma difference_sub (m f : heap) : m ∖ f ⊆ m.
Proof. apply map_subseteq_spec. intros x v Hx. by apply lookup_difference_Some in Hx as [? _]. Qed.

Section rules.
Context `{KernOk}.

Lemma wp_mmap g n Φ : 0 < n -> n mod PGSIZE = 0 ->
  (∀ e, Φ CMFAIL (set_errno e g)) ∧ (∀ a, ⌜a mod PGSIZE = 0 /\ ulo <= a /\ a + n <= uhi⌝ -∗ raw a (Z.to_nat (n / 8)) -∗ mapped a n -∗ Φ a g) ⊢ wp (CALL_MMAP n) Φ g.
Proof.
  intros Hn Hn'. split. intros h [H1' H2'] hf Hd. unfold CALL_MMAP. simpl. destruct (mmap_at (h ∪ hf) n) as [e|a] eqn:E.
  - exists CMFAIL, (set_errno e g), h. by split_and!; [..|apply H1'].
  - destruct (mmap_spec _ _ _ Hn Hn' E) as (Ha & Hlo & Hhi & Hf). apply map_disjoint_union_r in Hf as [Hf1 Hf2].
    assert (0 <= a) as Ha0 by (pose proof ulo_pos; lia).
    exists a, g, (fresh a n ∪ h). split; [by rewrite assoc_L|]. split; [by apply map_disjoint_union_l|].
    pose proof (fresh_disjoint a n Ha0) as Hfd.
    specialize (H2' a ∅ (map_disjoint_empty_r _)). rewrite right_id_L in H2'. specialize (H2' (conj Ha (conj Hlo Hhi))).
    specialize (H2' (zeros a (Z.to_nat (n / 8)))). rewrite map_union_comm //. unfold fresh in *. apply map_disjoint_union_l in Hf1 as [Hz Hp]. rewrite assoc_L.
    apply H2'; [done|apply zeros_raw| |apply ptes_pages]. apply map_disjoint_union_l. done.
Qed.

Lemma wp_munmap g a n (P : hpropI) Φ : 0 <= a -> (P ⊢ raw a (Z.to_nat (n / 8)) ∗ mapped a n) ->
  P -∗ ((∀ e, P -∗ Φ (-1) (set_errno e g)) ∧ Φ 0 g) -∗ wp (CALL_MUNMAP a n) Φ g.
Proof.
  iIntros (Ha [HP]) "H1 H2". iStopProof. split. intros h (h1 & h2 & -> & Hd & HP1 & [H1' H2']) hf Hdf. apply map_disjoint_union_l in Hdf as [Hf1 Hf2].
  unfold CALL_MUNMAP. simpl. destruct (munmap_err (h1 ∪ h2 ∪ hf) a n) as [e|].
  - exists (-1), (set_errno e g), (h1 ∪ h2). split_and!; [done|by apply map_disjoint_union_l|]. rewrite map_union_comm //.
    specialize (H1' e). by apply H1'.
  - assert (forall x, is_Some (fresh a n !! x) -> is_Some (h1 !! x)) as Hdom.
    { destruct (HP _ HP1) as (ha & hb & -> & Hab & Hraw & Hpg). intros x [v Hv]. apply lookup_union_Some_raw in Hv as [Hv|[_ Hv]].
      - destruct (raw_dom _ _ _ _ _ Hraw Hv) as [w Hw]. exists w. by apply lookup_union_Some_l.
      - destruct (pages_dom _ _ _ _ _ Hpg Hv) as [w Hw]. exists w. by apply lookup_union_Some_r. }
    assert (forall h', h1 ##ₘ h' -> h' ∖ fresh a n = h') as Hkeep.
    { intros h' Hd'. apply map_eq. intros x. destruct (h' !! x) as [v|] eqn:E.
      - apply lookup_difference_Some. split; [done|]. destruct (fresh a n !! x) eqn:E2; [|done]. destruct (Hdom x) as [w Hw]; [by eexists|].
        rewrite map_disjoint_spec in Hd'. by destruct (Hd' _ _ _ Hw E).
      - apply lookup_difference_None. by left. }
    exists 0, g, (h1 ∖ fresh a n ∪ h2). split; [|split].
    + f_equal. f_equal. by rewrite !difference_union_distr (Hkeep h2) // (Hkeep hf).
    + apply map_disjoint_union_l. split; [|done]. eapply map_disjoint_weaken_l; [exact Hf1|]. apply difference_sub.
    + eapply hholds_up; [exact H2'|]. apply map_union_subseteq_r. eapply map_disjoint_weaken_l; [exact Hd|]. apply difference_sub.
Qed.
End rules.
