(* ===== verification/DlSegs.v ===== *)
(** * dlmalloc: segment records

    The records of the segments form a list from [segment0].  The record of the segment
    that has the top chunk is [segment0]; the record of any other segment is the last
    block of that segment, before its fenceposts. *)

From iris.proofmode Require Import proofmode.
From S2P Require Import Prelude DlSep DlBase DlBins DlTree DlSys DlMap.

(** The address of the record, the base and the size of the segment, and the size of its
    chunks. *)
Record seg := Seg { srec : Z; sbase : Z; ssize : Z; slen : Z }.

Definition rec_at (s : seg) (next : Z) : hpropI :=
  (seg_base (srec s) ↦ sbase s ∗ seg_size (srec s) ↦ ssize s ∗ seg_next (srec s) ↦ next ∗ seg_sflags (srec s) ↦ USE_MMAP_BIT)%I.
Definition first_rec (ss : list seg) (e : Z) : Z := match ss with [] => e | s :: _ => srec s end.
Fixpoint chain_to (ss : list seg) (e : Z) : hpropI :=
  match ss with [] => emp | s :: ss => rec_at s (first_rec ss e) ∗ chain_to ss e end%I.

Lemma recs_app l1 l2 e : chain_to (l1 ++ l2) e ⊣⊢ chain_to l1 (first_rec l2 e) ∗ chain_to l2 e.
Proof.
  induction l1 as [|s l1 IH]; simpl; [by rewrite left_id|]. rewrite IH assoc. by destruct l1.
Qed.

(** The words that a segment has besides its chunks and its record. *)
Definition smem (s : seg) : hpropI :=
  (sbase s ↦ - ∗ raw (sbase s + slen s + 16) (Z.to_nat ((ssize s - slen s - 16) / 8)) ∗ mapped (sbase s) (ssize s))%I.

Section segs.
Context `{Gm, KernOk}.

Definition seg_ok (s : seg) : Prop :=
  sbase s mod PGSIZE = 0 /\ ssize s mod PGSIZE = 0 /\ 0 < ssize s /\ ulo <= sbase s /\ sbase s + ssize s <= uhi /\ 0 < srec s.
Definition top_seg (s : seg) : Prop := seg_ok s /\ srec s = segment0 /\ slen s = ssize s - TOP_FOOT_SIZE.
Definition other_seg (s : seg) : Prop := seg_ok s /\ (slen s = ssize s - 32 \/ slen s = ssize s - 48) /\ srec s = sbase s + slen s - 32.

Lemma seg_bounds s : seg_ok s -> 0 < sbase s /\ 4096 <= ssize s <= 2 ^ 40 /\ sbase s + ssize s < 2 ^ 63 /\ sbase s mod 4096 = 0 /\ ssize s mod 4096 = 0 /\ 0 < srec s.
Proof.
  unfold seg_ok, PGSIZE. intros (Ha & Hn & Hp & Hlo & Hhi & Hr). pose proof ulo_pos. pose proof uhi_bound. split_and!; try lia. zdm.
Qed.

Lemma wp_segment_holds g s x e Φ : seg_ok s ->
  rec_at s e -∗ (rec_at s e -∗ Φ (bool_decide (sbase s <= x < sbase s + ssize s)) g) -∗ wp (segment_holds (srec s) x) Φ g.
Proof.
  iIntros (Hok) "(Hb & Hs & Hn) HΦ". destruct (seg_bounds _ Hok) as (? & ? & ? & _). unfold segment_holds. wld "Hb". destruct (Z.leb_spec (sbase s) x).
  - wld "Hs". wret. rewrite uwrap_id; [|unfold in_u; lia]. iDestruct ("HΦ" with "[$Hb $Hs $Hn]") as "H". destruct (Z.ltb_spec x (sbase s + ssize s)).
    + by rewrite bool_decide_eq_true_2.
    + rewrite bool_decide_eq_false_2; [done|lia].
  - wret. rewrite bool_decide_eq_false_2; [|lia]. by iApply ("HΦ" with "[$Hb $Hs $Hn]").
Qed.

Lemma chain_words ss e : chain_to ss e ⊢ [∗ list] a ∈ (srec <$> ss), ∃ v, a ↦ v.
Proof.
  induction ss as [|s ss IH]; simpl; [done|]. iIntros "[(Hb & _) H]". iSplitL "Hb"; [by iExists _|]. by iApply IH.
Qed.

(** The segment of the top chunk is the first one. *)
Lemma wp_segment_holding g s0 rest x Φ : top_seg s0 -> sbase s0 <= x < sbase s0 + ssize s0 ->
  chain_to (s0 :: rest) 0 -∗ (chain_to (s0 :: rest) 0 -∗ Φ segment0 g) -∗ wp (segment_holding x) Φ g.
Proof.
  iIntros ((Hok & Hrec & _) Hx) "Hc HΦ". unfold segment_holding. wbind. iApply (wp_memsize (srec <$> s0 :: rest) with "Hc"); [apply chain_words|].
  iIntros (n Hn) "[Hr Hc]". destruct n as [|n]; [simpl in Hn; lia|]. iApply wp_loop. cbn beta. iEval (rewrite -Hrec). wbind. iApply (wp_segment_holds with "Hr"); [done|].
  iIntros "Hr". rewrite bool_decide_eq_true_2 //. wret. rewrite Hrec. iApply "HΦ". iFrame.
Qed.

Lemma chain_not_null ss : Forall seg_ok ss -> ss <> [] -> first_rec ss 0 <> 0.
Proof. destruct ss as [|s ss]; [done|]. intros [(_ & _ & _ & _ & _ & Hr) _]%Forall_cons_1 _. simpl. lia. Qed.

Lemma wp_has_segment_link g s0 rest Φ : top_seg s0 -> Forall seg_ok (s0 :: rest) ->
  chain_to (s0 :: rest) 0 -∗ (∀ b, chain_to (s0 :: rest) 0 -∗ Φ b g) -∗ wp (has_segment_link segment0) Φ g.
Proof.
  iIntros ((Hok & Hrec & _) Hall) "Hc HΦ". unfold has_segment_link. wbind. iApply (wp_memsize (srec <$> s0 :: rest) with "Hc"); [apply chain_words|].
  iIntros (n Hn) "Hc". rewrite length_fmap in Hn. set (body := fun sp : Z => _).
  iAssert (∀ l2 l1 m, ⌜s0 :: rest = l1 ++ l2 /\ l2 <> [] /\ (length l2 < m)%nat⌝ -∗ chain_to (s0 :: rest) 0 -∗ (∀ b, chain_to (s0 :: rest) 0 -∗ Φ b g) -∗
    wp (loop m body (first_rec l2 0)) Φ g)%I as "Hloop".
  { clear n Hn. iIntros (l2). iInduction l2 as [|s l2] "IH"; iIntros (l1 m (E & Hne & Hm)) "Hc HΦ"; [done|]. destruct m as [|m]; [lia|]. iApply wp_loop. simpl first_rec. subst body. cbn beta.
    iDestruct "Hc" as "[Hr0 Hc]". wbind. rewrite -Hrec. iApply (wp_segment_holds with "Hr0"); [done|]. iIntros "Hr0". iCombine "Hr0 Hc" as "Hc".
    destruct (bool_decide _); [wret; by iApply "HΦ"|]. iAssert (chain_to (s0 :: rest) 0) with "Hc" as "Hc". iEval (rewrite E recs_app) in "Hc". simpl.
    iDestruct "Hc" as "(H1 & (Hb & Hs & Hx & Hf) & H2)". wld "Hx". iAssert (chain_to (s0 :: rest) 0) with "[H1 Hb Hs Hx Hf H2]" as "Hc"; [rewrite E recs_app; simpl; iFrame|].
    destruct l2 as [|s' l2].
    - simpl. wret. by iApply "HΦ".
    - assert (first_rec (s' :: l2) 0 <> 0) as Hnn. { apply chain_not_null; [|done]. rewrite E in Hall. apply Forall_app in Hall as [_ Hall]. by apply Forall_cons_1 in Hall as [_ ?]. }
      rewrite (proj2 (Z.eqb_neq _ _) Hnn). wret. iApply ("IH" $! (l1 ++ [s]) with "[] Hc HΦ"). iPureIntro. rewrite -app_assoc. split_and!; [done..|simpl in *; lia]. }
  iEval (rewrite -Hrec). iApply ("Hloop" $! (s0 :: rest) [] with "[] Hc HΦ"). iPureIntro. split_and!; done.
Qed.

(** A walk over the records that stops at a record for which [test] holds. *)
Definition found (test : seg -> Prop) (ss : list seg) (r : Z) : Prop := r = 0 \/ exists l1 s l2, ss = l1 ++ s :: l2 /\ r = srec s /\ test s.

Lemma wp_walk (body : Z -> HM (Z + Z)) (test : seg -> Prop) g ss Φ : Forall seg_ok ss ->
  (forall Ψ, Ψ (inr 0) g ⊢ wp (body 0) Ψ g) ->
  (forall s e Ψ, seg_ok s -> rec_at s e -∗ (rec_at s e -∗ (⌜test s⌝ -∗ Ψ (inr (srec s)) g) ∧ Ψ (inl e) g) -∗ wp (body (srec s)) Ψ g) ->
  forall n, (length ss < n)%nat -> chain_to ss 0 -∗ (∀ r, ⌜found test ss r⌝ -∗ chain_to ss 0 -∗ Φ r g) -∗ wp (loop n body (first_rec ss 0)) Φ g.
Proof.
  intros Hall Hz Hb n Hn. iIntros "Hc HΦ".
  iAssert (∀ l2 l1 m, ⌜ss = l1 ++ l2 /\ (length l2 < m)%nat⌝ -∗ chain_to ss 0 -∗ (∀ r, ⌜found test ss r⌝ -∗ chain_to ss 0 -∗ Φ r g) -∗ wp (loop m body (first_rec l2 0)) Φ g)%I as "Hloop".
  { iIntros (l2). iInduction l2 as [|s l2] "IH"; iIntros (l1 m (E & Hm)) "Hc HΦ"; (destruct m as [|m]; [lia|]); iApply wp_loop; simpl first_rec.
    - iApply Hz. iApply ("HΦ" with "[] Hc"). iPureIntro. by left.
    - assert (chain_to ss 0 ⊣⊢ chain_to l1 (srec s) ∗ rec_at s (first_rec l2 0) ∗ chain_to l2 0) as Ec by (rewrite E; apply (recs_app l1 (s :: l2))).
      iDestruct (Ec with "Hc") as "(H1 & Hr & H2)". assert (seg_ok s) as Hs. { rewrite E in Hall. apply Forall_app in Hall as [_ Hall]. by apply Forall_cons_1 in Hall as [? _]. }
      iApply (Hb with "Hr"); [done|]. iIntros "Hr". iAssert (chain_to ss 0) with "[H1 Hr H2]" as "Hc"; [iApply Ec; iFrame|]. iSplit.
      + iIntros (Ht). iApply ("HΦ" with "[] Hc"). iPureIntro. right. by exists l1, s, l2.
      + iApply ("IH" $! (l1 ++ [s]) with "[] Hc HΦ"). iPureIntro. rewrite -app_assoc. split; [done|simpl in *; lia]. }
  by iApply ("Hloop" $! ss [] with "[] Hc HΦ").
Qed.

Lemma wp_find_end g s0 rest a Φ : top_seg s0 -> Forall seg_ok (s0 :: rest) ->
  chain_to (s0 :: rest) 0 -∗ (∀ r, ⌜found (fun s => a = (sbase s + ssize s)%Z) (s0 :: rest) r⌝ -∗ chain_to (s0 :: rest) 0 -∗ Φ r g) -∗ wp (find_end a) Φ g.
Proof.
  iIntros ((_ & Hrec & _) Hall) "Hc HΦ". unfold find_end. wbind. iApply (wp_memsize (srec <$> s0 :: rest) with "Hc"); [apply chain_words|]. iIntros (n Hn) "Hc". rewrite length_fmap in Hn.
  rewrite -Hrec. iApply (wp_walk with "Hc HΦ"); [done| | |done].
  - iIntros (Ψ) "H". by wret.
  - iIntros (s e Ψ Hs) "(Hb & Hz & Hx & Hf) HΨ". destruct (seg_bounds _ Hs) as (? & ? & ? & _ & _ & Hr). rewrite (proj2 (Z.eqb_neq (srec s) 0)); [|lia]. wld "Hb". wld "Hz".
    rewrite uwrap_id; [|unfold in_u; lia]. destruct (Z.eqb_spec a (sbase s + ssize s)); wnorm.
    + wret. iDestruct ("HΨ" with "[$Hb $Hz $Hx $Hf]") as "[H _]". by iApply "H".
    + wld "Hx". wret. by iDestruct ("HΨ" with "[$Hb $Hz $Hx $Hf]") as "[_ H]".
Qed.

Lemma wp_find_start g s0 rest a Φ : top_seg s0 -> Forall seg_ok (s0 :: rest) ->
  chain_to (s0 :: rest) 0 -∗ (∀ r, ⌜found (fun s => sbase s = a) (s0 :: rest) r⌝ -∗ chain_to (s0 :: rest) 0 -∗ Φ r g) -∗ wp (find_start a) Φ g.
Proof.
  iIntros ((_ & Hrec & _) Hall) "Hc HΦ". unfold find_start. wbind. iApply (wp_memsize (srec <$> s0 :: rest) with "Hc"); [apply chain_words|]. iIntros (n Hn) "Hc". rewrite length_fmap in Hn.
  rewrite -Hrec. iApply (wp_walk with "Hc HΦ"); [done| | |done].
  - iIntros (Ψ) "H". by wret.
  - iIntros (s e Ψ Hs) "(Hb & Hz & Hx & Hf) HΨ". destruct (seg_bounds _ Hs) as (_ & _ & _ & _ & _ & Hr). rewrite (proj2 (Z.eqb_neq (srec s) 0)); [|lia]. wld "Hb".
    destruct (Z.eqb_spec (sbase s) a); wnorm.
    + wret. iDestruct ("HΨ" with "[$Hb $Hz $Hx $Hf]") as "[H _]". by iApply "H".
    + wld "Hx". wret. by iDestruct ("HΨ" with "[$Hb $Hz $Hx $Hf]") as "[_ H]".
Qed.

Lemma wp_same_kind g ss r test Φ : found test ss r -> Forall seg_ok ss ->
  chain_to ss 0 -∗ (⌜r <> 0⌝ -∗ chain_to ss 0 -∗ Φ true g) ∧ (⌜r = 0⌝ -∗ chain_to ss 0 -∗ Φ false g) -∗ wp (same_kind r USE_MMAP_BIT) Φ g.
Proof.
  iIntros (Hf Hall) "Hc HΦ". unfold same_kind. destruct Hf as [->|(l1 & s & l2 & -> & -> & _)]; [wret; iDestruct "HΦ" as "[_ H]"; by iApply "H"|].
  apply Forall_app in Hall as [_ [(_ & _ & _ & _ & _ & Hr) _]%Forall_cons_1]. rewrite (proj2 (Z.eqb_neq (srec s) 0)); [|lia]. wnorm.
  rewrite recs_app. simpl. iDestruct "Hc" as "(H1 & (Hb & Hz & Hx & Hf) & H2)". wld "Hf". wret. change (_ && _) with true. iDestruct "HΦ" as "[H _]". iApply ("H" with "[]"); [iPureIntro; lia|]. iFrame.
Qed.
End segs.
