(* ===== verification/DlSysOk.v ===== *)
(** * dlmalloc: the system layer is correct

    The functions of [DlSys] implement the interface [Sys] of malloc and free. *)

From iris.proofmode Require Import proofmode.
From S2P Require Import Prelude DlSep DlBase DlBins DlTree DlFree DlSearch DlLayout DlSys DlMap DlSegs DlMalloc DlMerge.

#[local] Abbreviation mapped := DlMap.mapped.

(** ** Alignment *)

Lemma align_zero a : a mod 16 = 0 -> 0 <= a -> a + 16 < 2 ^ 64 -> align_offset (chunk2mem a) = 0 /\ align_as_chunk a = a.
Proof.
  intros Ha H0 H1. assert (align_offset (chunk2mem a) = 0) as E.
  { unfold align_offset, chunk2mem, CHUNK_ALIGN_MASK. rewrite uwrap_id; [|unfold in_u; lia]. change 15 with (Z.ones 4). rewrite Z.land_ones //. change (2 ^ 4) with 16.
    by replace ((a + 16) mod 16) with 0 by zdm. }
  split; [done|]. unfold align_as_chunk. rewrite E Z.add_0_r. apply uwrap_id. unfold in_u. lia.
Qed.

Lemma foot_size : TOP_FOOT_SIZE = 80.
Proof. done. Qed.

(** A size that was rounded up did not wrap around if it is larger than the request. *)
Lemma align_to_spec k nb pad : 12 <= k < 64 -> 0 <= nb < 2 ^ 64 -> 0 < pad < 4096 ->
  let r := align_to (2 ^ k) (u64 (nb + pad)) in nb < r -> nb + pad <= r < 2 ^ 64 /\ r mod 2 ^ k = 0.
Proof.
  intros Hk Hnb Hpad r. assert (2 ^ 12 <= 2 ^ k) as H12 by (apply Z.pow_le_mono_r; lia). assert (2 ^ k <= 2 ^ 63) as H63 by (apply Z.pow_le_mono_r; lia).
  change (2 ^ 12) with 4096 in H12. assert (r = u64 (u64 (nb + pad) + (2 ^ k - 1)) / 2 ^ k * 2 ^ k) as ->.
  { subst r. unfold align_to. rewrite land_uwrap; [|lia|apply uwrap_range; lia]. replace (2 ^ k - 1) with (Z.ones k) by (rewrite Z.ones_equiv; lia).
    rewrite land_not_ones; [|lia]. rewrite Z.ones_equiv. unfold Z.pred. rewrite (Z.mod_eq _ (2 ^ k)); [|lia]. lia. }
  set (y := u64 (u64 (nb + pad) + (2 ^ k - 1))). assert (0 <= y < 2 ^ 64) as Hy by (apply uwrap_range; lia).
  pose proof (Z.div_mod y (2 ^ k) ltac:(lia)) as Hdm. pose proof (Z.mod_pos_bound y (2 ^ k) ltac:(lia)) as Hmb. intros Hlt.
  split; [|apply Z.mod_mul; lia]. split; [|nia]. destruct (decide (nb + pad + 2 ^ k - 1 < 2 ^ 64)) as [Hno|Hwrap].
  - assert (y = nb + pad + (2 ^ k - 1)) as Ey by (subst y; rewrite !uwrap_id; unfold in_u; lia). lia.
  - exfalso. destruct (decide (nb + pad < 2 ^ 64)).
    + assert (y = nb + pad + (2 ^ k - 1) - 2 ^ 64) as Ey. { subst y. rewrite (uwrap_id 64 (nb + pad)); [|unfold in_u; lia]. unfold uwrap. zdm. }
      assert (y / 2 ^ k = 0) as E0 by (apply Z.div_small; lia). rewrite E0 in Hlt. lia.
    + assert (u64 (nb + pad) = nb + pad - 2 ^ 64) as E1 by (unfold uwrap; zdm). assert (y = nb + pad - 2 ^ 64 + (2 ^ k - 1)) as Ey by (subst y; rewrite E1 uwrap_id; unfold in_u; lia).
      lia.
Qed.

(** ** The interface *)

Definition params_ok (g : mstate) : Prop :=
  page_size (sysv g) = PGSIZE /\ (exists k, 12 <= k < 64 /\ granularity (sysv g) = 2 ^ k) /\ mp_magic (sysv g) <> 0 /\ 0 <= least_addr g.

(** The blocks that hold the records of segments. *)
Definition rec_blocks (rest : list seg) : gmap Z Z := list_to_map ((fun s => (srec s, 40)) <$> rest).

Section inst.
Context `{Gm, Kern}.

Definition seg_exts (s0 : seg) (rest : list seg) : list (Z * Z * bool) :=
  (sbase s0, slen s0, true) :: ((fun s => (sbase s, slen s, false)) <$> rest).

(** The memory of the segments: their records, what surrounds their chunks, and the last
    words of the blocks with the records. *)
Definition segs_mem (s0 : seg) (rest : list seg) : hpropI :=
  (chain_to (s0 :: rest) 0 ∗ ([∗ list] s ∈ s0 :: rest, smem s) ∗ [∗ list] s ∈ rest, (srec s + 32) ↦ -)%I.

Definition dl_seg_res (g : mstate) (ext : list (Z * Z * bool)) (SR : gmap Z Z) : hpropI :=
  (⌜params_ok g /\ 0 < segment0⌝ ∗
   ((⌜ext = [] /\ SR = ∅⌝ ∗ seg_base segment0 ↦ - ∗ seg_size segment0 ↦ - ∗ seg_next segment0 ↦ 0 ∗ seg_sflags segment0 ↦ -) ∨
    ∃ s0 rest, ⌜top_seg s0 /\ Forall other_seg rest /\ ext ≡ₚ seg_exts s0 rest /\ SR = rec_blocks rest⌝ ∗ segs_mem s0 rest))%I.

(** The memory of [_gm_] and [mparams] when the program starts. *)
Definition dl_virgin (g : mstate) : hpropI :=
  (⌜smallmap g = 0 /\ treemap g = 0 /\ dvsize g = 0 /\ dv g = 0 /\ topsize g = 0 /\ top g = 0 /\ least_addr g = 0 /\ mp_magic (sysv g) = 0 /\ global_mutex (sysv g) = 0 /\ 0 < segment0 /\ 0 < treebins⌝ ∗
   ([∗ list] i ∈ seqZ 0 32, fd (smallbin_at i) ↦ - ∗ bk (smallbin_at i) ↦ -) ∗ ([∗ list] i ∈ seqZ 0 32, treebin_at i ↦ 0) ∗
   seg_base segment0 ↦ - ∗ seg_size segment0 ↦ - ∗ seg_next segment0 ↦ 0 ∗ seg_sflags segment0 ↦ -)%I.

#[export] Instance dl_sys : Sys := {
  ensure_initialization := DlSys.ensure_initialization;
  sys_alloc := DlSys.sys_alloc;
  sys_trim := DlSys.sys_trim;
  release_unused_segments := DlSys.release_unused_segments;
  CALL_MUNMAP := DlSys.CALL_MUNMAP;
  DlMalloc.mapped := DlMap.mapped;
  seg_res := dl_seg_res;
  virgin := dl_virgin }.
End inst.

Section sys.
Context `{Gm, KernOk}.

Lemma dl_seg_res_perm g ext ext' SR : ext ≡ₚ ext' -> dl_seg_res g ext SR ⊢ dl_seg_res g ext' SR.
Proof.
  iIntros (HP) "($ & [[[-> ->] H]|(%s0 & %rest & (%H1' & %H2' & %He & ->) & Hm)])".
  - iLeft. iFrame. iPureIntro. split; [|done]. by apply Permutation_nil_l in HP.
  - iRight. iExists s0, rest. iFrame. iPureIntro. split_and!; [done..|by rewrite -HP|done].
Qed.

Lemma dl_seg_res_params g g' ext SR : (params_ok g -> params_ok g') -> dl_seg_res g ext SR ⊢ dl_seg_res g' ext SR.
Proof. iIntros (Hp) "((%Hok & %) & $)". iPureIntro. split; [by apply Hp|done]. Qed.

Lemma core_params g g' : core_only g g' -> params_ok g -> params_ok g'.
Proof. by intros (? & ? & ? & ? & ? & ? & ? & ? & ? & ? & ->). Qed.

#[export] Instance dl_seg_ok : SegOk.
Proof. split; [apply dl_seg_res_perm|]. intros g g' ext SR Hc. apply dl_seg_res_params. by apply core_params. Qed.

(** ** Initialisation *)

Lemma list_replicate {A} (P : Z -> hpropI) (Q : nat -> A -> hpropI) (x : A) n : (forall i, P (Z.of_nat i) ⊢ Q i x) ->
  ([∗ list] i ∈ seqZ 0 (Z.of_nat n), P i) ⊢ [∗ list] i ↦ y ∈ replicate n x, Q i y.
Proof.
  intros HPQ. induction n as [|n IH]; [done|]. rewrite seqZ_S replicate_S_end !big_sepL_app IH. simpl. rewrite !right_id Z.add_0_l length_replicate. by rewrite HPQ.
Qed.

Lemma bins_empty g : smallmap g = 0 -> treemap g = 0 -> 0 < treebins ->
  ([∗ list] i ∈ seqZ 0 32, fd (smallbin_at i) ↦ - ∗ bk (smallbin_at i) ↦ -) -∗ ([∗ list] i ∈ seqZ 0 32, treebin_at i ↦ 0) -∗ bins g ∅.
Proof.
  iIntros (Hs Ht Ha) "H1 H2". iExists (replicate 32 []), (replicate 32 Leaf). iSplit; [iPureIntro|].
  - split; rewrite ?Hs ?Ht ?length_replicate //.
    + intros i l Hl. apply lookup_replicate in Hl as [-> _]. split; [rewrite Hs; apply Z.bits_0|]. intros p Hp. by apply not_elem_of_nil in Hp.
    + intros i t Hl. apply lookup_replicate in Hl as [-> _]. split_and!; [rewrite Ht; apply Z.bits_0|done|intros e He; by apply not_elem_of_nil in He|intros e He; by apply not_elem_of_nil in He].
  - iSplitL "H1".
    + iApply (list_replicate _ (fun i l => sbin (Z.of_nat i) l) [] 32 with "H1"). iIntros (i) "[$ $]". done.
    + iApply (list_replicate _ (fun i t => tbin (Z.of_nat i) t) Leaf 32 with "H2"). iIntros (i) "$".
Qed.

Lemma virgin_hp g g' : (smallmap g', treemap g', dvsize g', dv g', topsize g', top g') = (smallmap g, treemap g, dvsize g, dv g, topsize g, top g) -> params_ok g' ->
  dl_virgin g ⊢ hp g' ∅.
Proof.
  iIntros ([= E1 E2 E3 E4 E5 E6] Hp) "((% & % & % & % & % & % & _ & _ & _ & % & %) & HS & HT & Hseg)". iExists [], ∅, ∅. iSplit.
  - iPureIntro. split; [by intros r Hr%not_elem_of_nil|done|done|left; split_and!; congruence].
  - iSplitL "HS HT"; [|iSplit; [by rewrite /regions|]].
    + iExists ∅. iSplit; [iPureIntro; left; split_and!; congruence|]. rewrite E3 H4 Z.eqb_refl. iSplit; [|done]. iApply (bins_empty with "HS HT"); congruence.
    + iExists ∅, ∅, ∅. iSplit; [iPureIntro; unfold mm_live; rewrite fmap_empty; split_and!; [done|apply map_disjoint_empty_l|done|apply map_disjoint_empty_l|apply map_Forall_empty]|].
      iSplit; [done|]. iSplit; [done|]. iLeft. by iFrame.
Qed.

Lemma wp_ensure_initialization g L : dlheap g L ⊢ wp DlSys.ensure_initialization (fun _ g' => ⌜mutex g' = 0⌝ ∗ hp g' L) g.
Proof.
  iIntros "[%Hm [Hhp|[-> Hv]]]"; unfold DlSys.ensure_initialization; wget.
  - iAssert ⌜mp_magic (sysv g) <> 0⌝%I as %Hne. { iDestruct "Hhp" as (rs FR LR) "(_ & _ & _ & (%MM & %LP & %SR & _ & _ & ((_ & _ & % & _) & _) & _))". done. }
    rewrite (proj2 (Z.eqb_neq _ _) Hne). wret. by iFrame.
  - iAssert ⌜least_addr g = 0 /\ mp_magic (sysv g) = 0 /\ global_mutex (sysv g) = 0⌝%I as %(Hla & H0' & Hg'); [iDestruct "Hv" as "((% & % & % & % & % & % & % & % & % & _) & _)"; done|].
    rewrite H0' Z.eqb_refl. unfold init_mparams, ACQUIRE_MALLOC_GLOBAL_LOCK, RELEASE_MALLOC_GLOBAL_LOCK, CAS_GLOBAL. wbind. wget. wset. wret. rewrite Hg' Z.eqb_refl. wret. wget. simpl mp_magic. rewrite H0' Z.eqb_refl.
    change (is_pow2 16 && _ && _ && _) with true. wset. wset. wset. wset. wset. wret. wret. iSplit; [done|].
    iApply (virgin_hp with "Hv"); [done|]. split; [done|]. split; [by exists 16|]. simpl. split; [|lia]. intros E.
    assert (Z.testbit (Z.land (Z.lor (u64 (Z.lxor time 1431655765)) 8) (u64 (Z.lnot 7))) 3 = true) as Hb; [|by rewrite E Z.bits_0 in Hb].
    rewrite Z.land_spec Z.lor_spec. rewrite orb_true_r. done.
Qed.

(** ** The first segment *)

Lemma wp_init_top g p s Φ : p mod 16 = 0 -> s mod 16 = 0 -> 0 <= p -> 16 <= s -> p + s + 16 < 2 ^ 64 ->
  head p ↦ - -∗ raw (p + 16) (Z.to_nat (s / 8)) -∗
  (head p ↦ (s + 1) -∗ raw (p + 16) (Z.to_nat (s / 8)) -∗ Φ tt (set_trim_check (trim_threshold (sysv g)) (set_topsize s (set_top p g)))) -∗
  wp (init_top p s) Φ g.
Proof.
  iIntros (Hp Hs Hp0 Hs16 Hend) "[%h Hh] Hraw HΦ". destruct (align_zero p) as [Ha _]; [done|lia|lia|]. unfold init_top. rewrite Ha Z.add_0_r Z.sub_0_r !uwrap_id; [|unfold in_u; lia..].
  wset. wset. wsd "Hh". unfold PINUSE_BIT. rewrite lor_flag; [|done|lia]. rewrite chunk_plus; [|lia].
  replace (Z.to_nat (s / 8)) with (Z.to_nat (s / 8 - 1) + 1)%nat by zdm. rewrite raw_app. cbn [raw]. replace (p + 16 + 8 * Z.to_nat (s / 8 - 1)) with (head (p + s)) by (unfold head; zdm).
  iDestruct "Hraw" as "(Hraw & [%v Hv] & _)". wsd "Hv". iApply wp_setr. iApply ("HΦ" with "Hh"). iFrame.
Qed.

(** The words of a new segment. *)
Lemma segment_words a n : n mod 16 = 0 -> 96 <= n -> raw a (Z.to_nat (n / 8)) ⊢
  a ↦ - ∗ head a ↦ - ∗ raw (a + 16) (Z.to_nat ((n - 80) / 8)) ∗ raw (a + (n - 80) + 16) 8.
Proof.
  iIntros (Hn Hn96) "H". replace (Z.to_nat (n / 8)) with (2 + (Z.to_nat ((n - 80) / 8) + 8))%nat by zdm. rewrite !raw_app. cbn [raw]. unfold head.
  replace (a + 8 * 2%nat) with (a + 16) by lia. replace (a + 16 + 8 * Z.to_nat ((n - 80) / 8)) with (a + (n - 80) + 16) by zdm. iDestruct "H" as "(($ & $ & _) & $ & $)".
Qed.

Lemma wp_init_bins_from g SL off Φ : (forall l, l ∈ SL -> l = []) ->
  ([∗ list] i ↦ l ∈ SL, sbin (off + Z.of_nat i) l) -∗ (([∗ list] i ↦ l ∈ SL, sbin (off + Z.of_nat i) l) -∗ Φ tt g) -∗ wp (init_bins_from (length SL) off) Φ g.
Proof.
  revert off Φ. induction SL as [|l SL IH]; intros off Φ HSL; iIntros "H HΦ"; simpl.
  - wret. by iApply "HΦ".
  - rewrite (HSL l); [|set_solver]. iDestruct "H" as "[[[[%f Hf] [%b Hb]] _] H]". rewrite Z.add_0_r. wsd "Hb". wsd "Hf".
    iApply (IH (off + 1) with "[H]"); [intros l' Hl'; apply HSL; set_solver| |].
    + iApply (big_sepL_impl with "H"). iIntros "!>" (k x _) "H". by replace (off + 1 + k) with (off + S k) by lia.
    + iIntros "H". iApply "HΦ". iSplitL "Hf Hb"; [iSplit; [|done]; iSplitL "Hf"; by iExists _|].
      iApply (big_sepL_impl with "H"). iIntros "!>" (k x _) "H". by replace (off + 1 + k) with (off + S k) by lia.
Qed.

Lemma wp_init_bins g Φ : bins g ∅ -∗ (bins g ∅ -∗ Φ tt g) -∗ wp init_bins Φ g.
Proof.
  iIntros "(%SL & %TL & %Hok & HS & HT) HΦ". unfold init_bins. change (Z.to_nat NSMALLBINS) with 32%nat. rewrite -(bo_slen _ _ _ _ Hok).
  iApply (wp_init_bins_from g SL 0 with "HS").
  - intros l Hl. apply list_elem_of_lookup in Hl as [i Hi]. pose proof (bo_elems _ _ _ _ Hok) as HF. rewrite map_to_list_empty in HF. apply Permutation_nil_l in HF; symmetry in HF; apply app_nil in HF as [HF _].
    destruct (slist_focus _ _ _ Hi) as (rest & HP & _). rewrite HF in HP. apply Permutation_nil_l in HP; symmetry in HP; apply app_nil in HP as [HP _]. by apply fmap_nil_inv in HP.
  - iIntros "HS". iApply "HΦ". iExists SL, TL. by iFrame.
Qed.

(** The blocks of the heap apart from the segments. *)
Definition mms (g : mstate) (LR SR L : gmap Z Z) : hpropI :=
  (∃ MM LP, ⌜LR = LP ∪ SR /\ LP ##ₘ SR /\ L = LP ∪ mm_live MM /\ LP ##ₘ mm_live MM /\ map_Forall (mm_ok g) MM⌝ ∗ [∗ map] m ↦ x ∈ MM, mm_chunk m x)%I.

Lemma others_mms g ext LR L : others g ext LR L ⊣⊢ ∃ SR, mms g LR SR L ∗ dl_seg_res g ext SR.
Proof.
  iSplit; [iIntros "(%MM & %LP & %SR & % & HM & Hs)"; iExists SR; iFrame "Hs"; iExists MM, LP; by iFrame|].
  iIntros "(%SR & (%MM & %LP & % & HM) & Hs)". iExists MM, LP, SR. by iFrame.
Qed.

Lemma mms_least g g' LR SR L : 0 < least_addr g' -> (0 < least_addr g -> least_addr g' <= least_addr g) -> mms g LR SR L ⊢ mms g' LR SR L.
Proof.
  iIntros (Hp Hle) "(%MM & %LP & (% & % & % & % & %Hm) & HM)". iExists MM, LP. iFrame. iPureIntro. split_and!; try done.
  intros m x Hx. destruct (Hm m x Hx) as (? & ? & [Hla ?] & ?). specialize (Hle Hla). split_and!; try done; lia.
Qed.

(** The conditions on a new mapping. *)
Definition map_ok (a n : Z) : Prop := a mod PGSIZE = 0 /\ n mod PGSIZE = 0 /\ 0 < n /\ ulo <= a /\ a + n <= uhi.

Lemma map_bounds a n : map_ok a n -> 0 < a /\ 4096 <= n <= 2 ^ 40 /\ a + n < 2 ^ 63 /\ a mod 4096 = 0 /\ n mod 4096 = 0.
Proof. unfold map_ok, PGSIZE. intros (Ha & Hn & Hp & Hlo & Hhi). pose proof ulo_pos. pose proof uhi_bound. split_and!; try lia. zdm. Qed.

Lemma heap_empty g FR LR : heap_ok g [] FR LR -> FR = ∅ /\ LR = ∅.
Proof.
  intros [_ HF HL _]. simpl in *. apply Permutation_nil_r in HF. apply Permutation_nil_r in HL. split; by apply map_to_list_empty_iff.
Qed.

Lemma heap_first g a ts : 0 < a -> a mod 16 = 0 -> 0 < least_addr g <= a -> 0 < ts < 2 ^ 40 -> ts mod 16 = 0 -> a + ts + 32 < 2 ^ 64 -> top g = a -> topsize g = ts ->
  heap_ok g [Region a [] (Top ts)] ∅ ∅.
Proof.
  intros Ha Ha16 Hl Hts Hts16 Hend Et Es. split.
  - intros r ->%list_elem_of_singleton. split; simpl; [done|done|split_and!; [done..|lia]|lia|lia].
  - done.
  - done.
  - right. simpl. rewrite Et Es. unfold tops_of. simpl. by rewrite Z.add_0_r.
Qed.

(** The region of the top chunk. *)
Lemma top_region g rs FR LR : heap_ok g rs FR LR -> rs <> [] -> exists rest b cs, rs ≡ₚ Region b cs (Top (topsize g)) :: rest /\ top g = b + total cs /\ 0 < top g.
Proof.
  intros Hok Hne. destruct (ho_top _ _ _ _ Hok) as [(_ & _ & ?)|E]; [done|]. assert ((top g, topsize g) ∈ concat (tops_of <$> rs)) as He by (rewrite E; set_solver).
  destruct (concat_elem _ _ _ He) as ([b cs e] & rest & HP & Hin). unfold tops_of in Hin. simpl in Hin. destruct e as [v|s]; [by apply not_elem_of_nil in Hin|].
  apply list_elem_of_singleton in Hin as [= -> ->]. exists rest, b, cs. split; [done|]. split; [done|].
  pose proof (heap_region _ _ _ _ _ (heap_ok_perm _ _ _ _ _ HP Hok)) as [Hb Hp _ _ _]. simpl in *. destruct (pre_ok_total _ _ Hp). lia.
Qed.

Lemma top_zero g rs FR LR : heap_ok g rs FR LR -> top g = 0 -> rs = [].
Proof. intros Hok Ht. destruct rs as [|r rs]; [done|]. destruct (top_region _ _ _ _ Hok) as (_ & _ & _ & _ & _ & ?); [done|lia]. Qed.

(** A segment that is all top chunk. *)
Lemma new_segment a n : map_ok a n -> 0 < segment0 -> top_seg (Seg segment0 a n (n - 80)).
Proof. intros (? & ? & ? & ? & ?) Hs. split_and!; try done. Qed.

Lemma wp_sys_first g L a n : map_ok a n -> top g = 0 ->
  hp g L -∗ raw a (Z.to_nat (n / 8)) -∗ mapped a n -∗ wp (sys_first a n USE_MMAP_BIT) (fun _ g' => ⌜lock_same g g'⌝ ∗ hp g' L) g.
Proof.
  iIntros (Hmap Htop) "(%rs & %FR & %LR & %Hok & Hf & Hr & Ho) Hraw Hpg". destruct (map_bounds _ _ Hmap) as (Ha & Hn & Hend & Ha16 & Hn16).
  assert (rs = []) as -> by by eapply top_zero. destruct (heap_empty _ _ _ Hok) as [-> ->]. iEval (rewrite others_mms) in "Ho".
  iDestruct "Ho" as (SR) "[Hmm ((%Hpar & %Hs0) & [([_ ->] & [%x1 Hb] & [%x2 Hz] & Hx & [%x3 Hfl])|(%s0 & %rest & (_ & _ & %He & _) & _)])]"; last first.
  { by apply Permutation_nil_l in He. }
  assert (map_Forall (fun p s => False) (∅ : gmap Z Z)) as HF0 by apply map_Forall_empty. iDestruct "Hf" as (F) "(%Hdv & Hbins & _)". destruct Hdv as [(Ed1 & Ed2 & <-)|(_ & _ & _ & E)]; last first.
  { by destruct (insert_non_empty F (dv g) (dvsize g)). }
  unfold sys_first. wset. set (g1 := if (least_addr g =? 0) || (a <? least_addr g) then set_least_addr a g else g). wsd "Hb". wsd "Hz". wsd "Hfl". wset. wset. set (g2 := set_release_checks _ _).
  assert (0 < least_addr g2 <= a /\ (0 < least_addr g -> least_addr g2 <= least_addr g)) as [Hla Hla2].
  { destruct Hpar as (_ & _ & _ & Hl0). subst g2 g1. simpl. destruct (Z.eqb_spec (least_addr g) 0); simpl; [lia|]. destruct (Z.ltb_spec a (least_addr g)); simpl; lia. }
  assert (smallmap g2 = smallmap g /\ treemap g2 = treemap g /\ dvsize g2 = dvsize g /\ dv g2 = dv g /\ lock_same g g2 /\ params_ok g2) as (Em1 & Em2 & Em3 & Em4 & Hl & Hpar2).
  { destruct Hpar as (Hp1 & Hp2 & Hp3 & _). unfold params_ok. revert Hla. subst g2 g1. destruct (_ || _); simpl; intros Hla; split_and!; try done; lia. }
  wbind. iApply (wp_init_bins with "[Hbins]"); [by iApply (bins_good_state with "Hbins")|]. iIntros "Hbins".
  iDestruct (segment_words with "Hraw") as "(Ha & Hh & Hraw & Hft)"; [zdm|lia|]. rewrite foot_size uwrap_id; [|unfold in_u; lia].
  iApply (wp_init_top with "Hh Hraw"); [zdm|zdm|lia|lia|lia|]. iIntros "Hh Hraw". iSplit; [done|].
  iExists [Region a [] (Top (n - 80))], ∅, ∅. iSplit; [iPureIntro; apply heap_first; simpl; try done; try lia; zdm|]. iSplitL "Hbins".
  { iExists ∅. simpl. rewrite Em3 Ed1 Z.eqb_refl. iSplit; [iPureIntro; left; simpl; rewrite Em3 Em4; done|]. iSplit; [|done]. by iApply (bins_good_state with "Hbins"). }
  iSplitL "Hh Hraw".
  { unfold regions. simpl. iSplit; [|done]. iFrame. }
  iApply others_mms. iExists ∅. iSplitL "Hmm"; [iApply (mms_least with "Hmm"); [exact (proj1 Hla)|exact Hla2]|]. iSplit; [done|]. iRight.
  iExists (Seg segment0 a n (n - 80)), []. iSplit; [iPureIntro; split_and!; [by apply new_segment|done| |done]|].
  - unfold seg_exts, extent. simpl. done.
  - unfold segs_mem, rec_at, smem. simpl. replace (Z.to_nat ((n - (n - 80) - 16) / 8)) with 8%nat by zdm. iFrame.
Qed.

(** ** States that differ in other fields *)

(** The fields of the state that the heap depends on; [least_addr] may get smaller. *)
Definition same_heap (g g' : mstate) : Prop :=
  (smallmap g', treemap g', dvsize g', dv g', topsize g', top g') = (smallmap g, treemap g, dvsize g, dv g, topsize g, top g) /\
  (0 < least_addr g -> 0 < least_addr g' <= least_addr g) /\ (params_ok g -> params_ok g').

Lemma same_heap_ok g g' rs FR LR : same_heap g g' -> heap_ok g rs FR LR -> heap_ok g' rs FR LR.
Proof.
  intros ([= E1 E2 E3 E4 E5 E6] & Hla & _) [H1' H2' H3' H4']. split; [|done..|by rewrite E5 E6]. intros r Hr. destruct (H1' r Hr) as [Hb ? ? ? ?]. split; try done. lia.
Qed.

Lemma heap_good_all g rs FR LR : heap_ok g rs FR LR -> map_Forall (fun p s => good g p s) FR.
Proof. intros Hok p s Hp. by eapply heap_ok_good. Qed.

Lemma same_heap_hp g g' L : same_heap g g' -> hp g L ⊢ hp g' L.
Proof.
  iIntros (Hs) "(%rs & %FR & %LR & %Hok & Hf & Hr & Ho)". pose proof (same_heap_ok _ _ _ _ _ Hs Hok) as Hok'. destruct Hs as ([= E1 E2 E3 E4 E5 E6] & Hla & Hp). iExists rs, FR, LR. iSplit; [done|]. iFrame "Hr".
  iSplitL "Hf"; [iApply (frees_good_state with "Hf"); [done..|by eapply heap_good_all]|].
  iDestruct "Ho" as (MM LP SR) "((% & % & % & % & %Hm) & HM & Hs)". iExists MM, LP, SR. iFrame "HM". iSplit; [|by iApply (dl_seg_res_params with "Hs")].
  iPureIntro. split_and!; [done..|]. intros m x Hx. destruct (Hm m x Hx) as (? & ? & ? & ?). split_and!; try done; lia.
Qed.

Lemma wp_grow_footprint g n Φ : (∀ g', ⌜same_heap g g' /\ lock_same g g'⌝ -∗ Φ tt g') -∗ wp (grow_footprint n) Φ g.
Proof.
  iIntros "H". unfold grow_footprint. wset. iApply wp_setr. iApply "H". iPureIntro. by destruct (_ <? _).
Qed.

(** ** Direct mappings *)

Lemma hp_params g L : hp g L ⊢ ⌜params_ok g /\ 0 < segment0 /\ (topsize g <> 0 -> 0 < least_addr g)⌝.
Proof.
  iIntros "(%rs & %FR & %LR & %Hok & _ & _ & (%MM & %LP & %SR & _ & _ & (%Hp & %Hs) & _))". iPureIntro. split_and!; [done..|]. intros Ht.
  destruct (find_top _ _ _ _ Hok Ht) as (rest & b & cs & HP & _). pose proof (heap_region _ _ _ _ _ (heap_ok_perm _ _ _ _ _ HP Hok)) as [Hb _ _ _ _]. simpl in Hb. lia.
Qed.

(** The words of a mapping that is one block. *)
Lemma mm_words a ps : ps mod 16 = 0 -> 16 <= ps -> raw a (Z.to_nat ((ps + 32) / 8)) ⊢
  a ↦ - ∗ head a ↦ - ∗ raw (a + 16) (Z.to_nat ((ps - 16) / 8)) ∗ (a + ps) ↦ - ∗ head (a + ps) ↦ - ∗ head (a + ps + 8) ↦ - ∗ (a + ps + 24) ↦ -.
Proof.
  iIntros (Hs Hs16) "H". replace (Z.to_nat ((ps + 32) / 8)) with (2 + (Z.to_nat ((ps - 16) / 8) + 4))%nat by zdm. rewrite !raw_app. cbn [raw]. unfold head.
  replace (a + 8 * 2%nat) with (a + 16) by lia. replace (a + 16 + 8 * Z.to_nat ((ps - 16) / 8)) with (a + ps) by zdm.
  replace (a + ps + 8 + 8 + 8) with (a + ps + 24) by lia. iDestruct "H" as "(($ & $ & _) & $ & $ & $ & $ & $ & _)".
Qed.

(** A new block with a mapping of its own. *)
Lemma hp_insert_mm g L a ps : mm_ok g (a + 16) (ps, 0) ->
  hp g L -∗ mm_chunk (a + 16) (ps, 0) -∗ ⌜L !! (a + 16)%Z = None⌝ ∗ hp g (<[a + 16 := ps - 16]> L).
Proof.
  iIntros (Hmm) "(%rs & %FR & %LR & %Hok & Hf & Hr & Ho) Hc". iAssert ⌜LR !! (a + 16)%Z = None⌝%I as %HLR.
  { destruct (LR !! (a + 16)) as [n|] eqn:E; [|done]. iDestruct (live_head with "Hr") as "[%v Hv]"; [done..|]. iDestruct "Hc" as "(_ & _ & Hh & _)". by iDestruct (pointsto_ne with "[$Hh $Hv]") as %?. }
  iDestruct "Ho" as (MM LP SR) "((-> & %Hd & -> & %Hd2 & %Hm) & HM & Hs)". apply lookup_union_None in HLR as [HLP _]. iAssert ⌜MM !! (a + 16)%Z = None⌝%I as %HMM.
  { destruct (MM !! (a + 16)) as [n|] eqn:E; [|done]. iDestruct (big_sepM_lookup with "HM") as "(_ & _ & Hx & _)"; [done|]. iDestruct "Hc" as "(_ & _ & Hh & _)". by iDestruct (pointsto_ne with "[$Hh $Hx]") as %?. }
  assert (mm_live MM !! (a + 16) = None) as Hl by (unfold mm_live; by rewrite lookup_fmap HMM). iSplit; [iPureIntro; by apply lookup_union_None|].
  iExists rs, FR, (LP ∪ SR). iFrame "Hf Hr". iSplit; [done|]. iExists (<[a + 16 := (ps, 0)]> MM), LP, SR. iFrame "Hs". iSplit; [iPureIntro|iApply big_sepM_insert; [done|iFrame]].
  unfold mm_live in *. rewrite fmap_insert. split_and!; [done|done| |by apply map_disjoint_insert_r_2|by apply map_Forall_insert_2].
  by rewrite insert_union_r.
Qed.

Lemma wp_mmap_alloc g L nb : 32 <= nb < 2 ^ 64 -> topsize g <> 0 -> hp g L ⊢ wp (mmap_alloc nb) (malloc_post g nb L) g.
Proof.
  iIntros (Hnb Hts) "Hhp". iDestruct (hp_params with "Hhp") as %(Hpar & _ & Hla). specialize (Hla Hts). unfold mmap_alloc, mmap_align, page_align, over_limit. wget.
  pose proof Hpar as (-> & _). unfold SIX_SIZE_T_SIZES, CHUNK_ALIGN_MASK. replace (nb + 48 + 15) with (nb + 63) by lia. set (n := align_to PGSIZE (u64 (nb + 63))). wget. destruct (_ && _).
  { by iApply malloc_post_none. }
  destruct (Z.ltb_spec nb n) as [Hlt|Hge]; [|by iApply malloc_post_none]. destruct (align_to_spec 12 nb 63) as [Hn Hn16]; [lia..|done|]. change (align_to (2 ^ 12) (u64 (nb + 63))) with n in Hn, Hn16. change (2 ^ 12) with 4096 in Hn16.
  wbind. unfold CALL_DIRECT_MMAP. iApply wp_mmap; [lia|done|]. iSplit.
  { iIntros (e). rewrite Z.eqb_refl. wret. iSplit; [done|]. iLeft. iSplit; [done|]. by iApply hp_errno. }
  iIntros (a (Ha & Hlo & Hhi)) "Hraw Hpg". destruct (map_bounds a n) as (Ha0 & Hn2 & Hend & Ha16 & _); [split_and!; done || lia|].
  assert (a =? CMFAIL = false) as -> by (apply Z.eqb_neq; unfold CMFAIL, MAX_SIZE_T; lia). wnorm. destruct (align_zero a) as [-> _]; [zdm|lia|lia|].
  unfold MMAP_FOOT_PAD. rewrite Z.sub_0_r Z.add_0_r !uwrap_id; [|unfold in_u; lia..]. set (ps := n - 32).
  replace n with (ps + 32) by (subst ps; lia). iDestruct (mm_words with "Hraw") as "([%v1 Hf] & [%v2 Hh] & Hraw & Hw1 & [%v3 Hw2] & [%v4 Hw3] & Hw4)"; [subst ps; zdm|lia|].
  wsd "Hf". wsd "Hh". rewrite (chunk_plus a ps); [|subst ps; lia]. wsd "Hw2". rewrite (chunk_plus a (ps + 8)); [|subst ps; lia]. rewrite Z.add_assoc. wsd "Hw3".
  wset. set (g1 := if (least_addr g =? 0) || (a <? least_addr g) then set_least_addr a g else g).
  assert (same_heap g g1 /\ lock_same g g1 /\ 0 < least_addr g1 <= a) as (Hs1 & Hl1 & Hla1).
  { subst g1. rewrite (proj2 (Z.eqb_neq (least_addr g) 0)) /=; [|lia]. destruct (Z.ltb_spec a (least_addr g)).
    - split; [|split; [done|simpl; lia]]. split; [done|]. split; [simpl; lia|]. intros (? & ? & ? & _). split_and!; try done. simpl. lia.
    - split; [|split; [done|lia]]. split; [done|]. split; [lia|done]. }
  wbind. iApply wp_grow_footprint. iIntros (g2 [Hs2 Hl2]). wret. iSplit; [iPureIntro; by eapply lock_same_trans|]. iRight.
  iDestruct (same_heap_hp _ _ _ Hs1 with "Hhp") as "Hhp". iDestruct (same_heap_hp _ _ _ Hs2 with "Hhp") as "Hhp". destruct Hs2 as (_ & Hla2 & _).
  iDestruct (hp_insert_mm g2 L a ps with "Hhp [Hf Hh Hw1 Hw2 Hw3 Hw4 Hpg]") as "[%HL Hhp]".
  - split_and!; simpl; try lia; subst ps; zdm.
  - unfold mm_chunk, MMAP_FOOT_PAD. simpl. replace (a + 16 - 16) with a by lia. rewrite !Z.sub_0_r !Z.add_0_r. iFrame "Hf Hh Hpg". unfold head. cbn [raw].
    replace (a + ps + 8 + 8) with (a + ps + 16) by lia. replace (a + ps + 16 + 8) with (a + ps + 24) by lia. iFrame.
  - assert (chunk2mem a = a + 16) as -> by (apply uwrap_id; unfold in_u; lia). iExists (ps - 16). iFrame "Hhp". iFrame "Hraw". iPureIntro. split_and!; [split_and!; try lia; subst ps; zdm|subst ps; lia|done].
Qed.
End sys.
