(* ===== verification/DlExtend.v ===== *)
(** * dlmalloc: new memory

    sys_alloc of c/error/dlmalloc.c: memory from mmap extends the top chunk, is put before
    an existing segment, or becomes a segment of its own. *)

From iris.proofmode Require Import proofmode.
From S2P Require Import Prelude DlSep DlBase DlBins DlTree DlFree DlSearch DlLayout DlSys DlMap DlSegs DlMalloc DlMerge DlSysOk.

#[local] Abbreviation mapped := DlMap.mapped.

Section extend.
Context `{Gm, KernOk}.

(** ** An initialised heap *)

Definition other_ext (s : seg) : Z * Z * bool := (sbase s, slen s, false).

(** The top chunk's region first, and the segments. *)
Record shape (g : mstate) (b : Z) (cs : list (kind * Z)) (rs : list region) (s0 : seg) (rest : list seg) (FR LR : gmap Z Z) : Prop := Shape {
  sh_heap : heap_ok g (Region b cs (Top (topsize g)) :: rs) FR LR;
  sh_top : top g = b + total cs;
  sh_base : sbase s0 = b;
  sh_len : slen s0 = total cs + topsize g;
  sh_ext : (extent <$> rs) ≡ₚ (other_ext <$> rest);
  sh_seg : top_seg s0;
  sh_rest : Forall other_seg rest;
  sh_params : params_ok g;
  sh_seg0 : 0 < segment0 }.

Definition opened (g : mstate) (b : Z) (cs : list (kind * Z)) (rs : list region) (s0 : seg) (rest : list seg) (FR LR L : gmap Z Z) : hpropI :=
  (frees g FR ∗ regions (Region b cs (Top (topsize g)) :: rs) ∗ mms g LR (rec_blocks rest) L ∗ segs_mem s0 rest)%I.

Lemma exts_rest (rs : list region) b cs ts s0 rest : extent <$> (Region b cs (Top ts) :: rs) ≡ₚ seg_exts s0 rest ->
  sbase s0 = b /\ slen s0 = total cs + ts /\ (extent <$> rs) ≡ₚ (other_ext <$> rest).
Proof.
  rewrite fmap_cons. unfold seg_exts. intros HP. assert ((b, total cs + ts, true) ∈ (sbase s0, slen s0, true) :: (other_ext <$> rest)) as He.
  { rewrite -HP. unfold extent at 1. simpl. set_solver. }
  apply elem_of_cons in He as [[= E1 E2]|He].
  - split_and!; [done..|]. unfold extent at 1 in HP. simpl in HP. rewrite E1 E2 in HP. by apply Permutation_cons_inv in HP.
  - apply list_elem_of_fmap in He as (s & [=] & _).
Qed.

Lemma hp_open g L : top g <> 0 -> hp g L ⊢ ∃ b cs rs s0 rest FR LR, ⌜shape g b cs rs s0 rest FR LR⌝ ∗ opened g b cs rs s0 rest FR LR L.
Proof.
  iIntros (Ht) "(%rs & %FR & %LR & %Hok & Hf & Hr & Ho)". assert (rs <> []) as Hne.
  { intros ->. destruct (ho_top _ _ _ _ Hok) as [(? & _)|?]; [done|]. done. }
  destruct (top_region _ _ _ _ Hok Hne) as (rs' & b & cs & HP & Etop & _). iEval (rewrite others_mms) in "Ho".
  iDestruct "Ho" as (SR) "[Hmm ((%Hpar & %Hs0) & [([%E _] & _)|(%s0 & %rest & (%Hts & %Hrest & %He & ->) & Hm)])]"; [by apply fmap_nil_inv in E|].
  rewrite HP in He. destruct (exts_rest _ _ _ _ _ _ He) as (E1 & E2 & E3). iExists b, cs, rs', s0, rest, FR, LR. iSplit.
  - iPureIntro. split; try done. by eapply heap_ok_perm.
  - iFrame. by iApply regions_perm.
Qed.

Lemma hp_shut g b cs rs s0 rest FR LR L : shape g b cs rs s0 rest FR LR -> opened g b cs rs s0 rest FR LR L ⊢ hp g L.
Proof.
  iIntros ([Hok Et Eb El He Hs Hr Hp H0']) "(Hf & Hr & Hmm & Hm)". iExists _, FR, LR. iFrame "Hf Hr". iSplit; [done|]. iApply others_mms. iExists _. iFrame "Hmm".
  iSplit; [done|]. iRight. iExists s0, rest. iFrame. iPureIntro. split_and!; [done..| |done]. unfold seg_exts. rewrite fmap_cons He. unfold extent at 1. simpl. by rewrite Eb El.
Qed.

Lemma shape_segs g b cs rs s0 rest FR LR : shape g b cs rs s0 rest FR LR -> Forall seg_ok (s0 :: rest).
Proof.
  intros []. constructor; [apply sh_seg1|]. rewrite ->Forall_forall in sh_rest0 |- *. intros s Hs. by apply sh_rest0.
Qed.

(** What is known of the top chunk. *)
Lemma shape_top g b cs rs s0 rest FR LR : shape g b cs rs s0 rest FR LR ->
  0 < topsize g /\ topsize g mod 16 = 0 /\ 0 <= total cs /\ total cs mod 16 = 0 /\ ssize s0 = total cs + topsize g + 80 /\ top g mod 16 = 0 /\ out_pin true cs = true /\
  0 < b /\ 4096 <= ssize s0 <= 2 ^ 40 /\ b + ssize s0 < 2 ^ 63 /\ b mod 4096 = 0 /\ ssize s0 mod 4096 = 0 /\ 0 < least_addr g <= b.
Proof.
  intros []. pose proof (heap_region _ _ _ _ _ sh_heap0) as [Hb Hp He _ _]. simpl in *. destruct He as (Hpin & Ht16 & Ht). destruct (pre_ok_total _ _ Hp).
  destruct sh_seg1 as (Hs & _ & Hl). rewrite foot_size in Hl. destruct (seg_bounds _ Hs) as (? & ? & ? & ? & ? & _). rewrite sh_base0 in H4, H6, H7. split_and!; try done; try lia. rewrite sh_top0. zdm.
Qed.

Lemma open_top_zero g L : hp g L ⊢ ⌜top g = 0 <-> topsize g = 0⌝.
Proof.
  iIntros "(%rs & %FR & %LR & %Hok & _)". iPureIntro. destruct (ho_top _ _ _ _ Hok) as [(-> & -> & _)|E]; [done|]. assert (rs <> []) as Hne by by intros ->.
  destruct (top_region _ _ _ _ Hok Hne) as (rest & b & cs & HP & _ & ?). pose proof (heap_region _ _ _ _ _ (heap_ok_perm _ _ _ _ _ HP Hok)) as [_ _ He _ _]. simpl in He. lia.
Qed.

(** ** The top chunk changes its size *)

Lemma heap_resize g g' b cs rs ts ts' FR LR : heap_ok g (Region b cs (Top ts) :: rs) FR LR -> top g' = top g -> topsize g' = ts' -> least_addr g' = least_addr g ->
  ts' mod 16 = 0 -> 0 < ts' -> total cs + ts' < 2 ^ 40 -> b + total cs + ts' + 32 < 2 ^ 64 -> heap_ok g' (Region b cs (Top ts') :: rs) FR LR.
Proof.
  intros Hok Et Es El H16 Hpos Hsz Hbd. destruct (tops_none_rest _ _ _ _ _ _ Hok eq_refl) as (Hrest & Htop & _). simpl in Htop.
  destruct Hok as [H1' H2' H3' H4']. split.
  - intros r [->|Hr]%elem_of_cons.
    + destruct (H1' (Region b cs (Top ts))) as [Hb Hp He _ _]; [set_solver|]. simpl in *. split; simpl; rewrite ?El; try done. by destruct He.
    + destruct (H1' r) as [Hb Hp He ? ?]; [set_solver|]. split; try done. by rewrite El.
  - done.
  - done.
  - right. rewrite fmap_cons /= Hrest Et Es Htop. unfold tops_of. simpl. done.
Qed.

Lemma state_hp_frees g g' FR : smallmap g' = smallmap g -> treemap g' = treemap g -> dvsize g' = dvsize g -> dv g' = dv g -> least_addr g' = least_addr g -> frees g FR ⊢ frees g' FR.
Proof.
  iIntros (E1 E2 E3 E4 E5) "(%F & %Hdv & Hb & Hd)". iExists F. unfold dv_ok, good in *. rewrite E3 E4 E5. iSplit; [done|]. iFrame "Hd". by iApply (bins_state with "Hb").
Qed.

(** The heap after init_top on the same top chunk. *)
Lemma shut_resize g g' b cs rs s0 rest FR LR L ts' sz' : shape g b cs rs s0 rest FR LR -> lock_same g g' ->
  (smallmap g', treemap g', dvsize g', dv g', least_addr g', top g', topsize g') = (smallmap g, treemap g, dvsize g, dv g, least_addr g, top g, ts') -> params_ok g' ->
  0 < ts' -> sz' = total cs + ts' + 80 -> sz' mod PGSIZE = 0 -> b + sz' <= uhi ->
  frees g FR -∗ pre true b cs -∗ head (top g) ↦ (ts' + 1) -∗ raw (top g + 16) (Z.to_nat (ts' / 8)) -∗ regions rs -∗ mms g LR (rec_blocks rest) L -∗
  chain_to (Seg segment0 b sz' (sz' - 80) :: rest) 0 -∗ ([∗ list] s ∈ Seg segment0 b sz' (sz' - 80) :: rest, smem s) -∗ ([∗ list] s ∈ rest, (srec s + 32) ↦ -) -∗ hp g' L.
Proof.
  iIntros (Hsh Hl [= E1 E2 E3 E4 E5 E6 E7] Hpar Hts' Esz Hsz Hhi) "Hf Hp Hh Hraw Hr Hmm Hc Hsm Hw". destruct (shape_top _ _ _ _ _ _ _ _ Hsh) as (Ht & Ht16 & Hc & Hc16 & Es & Htop16 & Hpin & Hb & Hs & Hbs & Hb16 & Hs16 & Hla).
  destruct Hsh as [Hok Et Eb El He Hseg Hrest _ H0']. pose proof uhi_bound. unfold PGSIZE in Hsz. pose proof Hseg as ((Hsa & _ & _ & Hlo & _ & _) & _ & _). rewrite Eb in Hsa, Hlo.
  iApply (hp_shut g' b cs rs (Seg segment0 b sz' (sz' - 80)) rest FR LR). { split; try done; simpl.
    - rewrite E7. eapply heap_resize; try done; try lia. zdm.
    - by rewrite E6.
    - rewrite E7. lia.
    - unfold top_seg, seg_ok, PGSIZE. simpl. rewrite foot_size. split_and!; try done; lia. }
  rewrite /opened E7 regions_top -Et. iFrame "Hp Hh Hraw Hr". iFrame. iSplitL "Hf"; [by iApply (state_hp_frees with "Hf")|]. iApply (mms_least with "Hmm"); rewrite E5; lia.
Qed.

(** The words of the top chunk and of the foot of its segment, split at another size. *)
Lemma top_words p ts x : ts mod 16 = 0 -> 0 <= ts -> x mod 16 = 0 -> 0 <= x ->
  raw (p + 16) (Z.to_nat (ts / 8)) ∗ raw (p + ts + 16) 8 ∗ raw (p + ts + 80) (Z.to_nat (x / 8)) ⊣⊢ raw (p + 16) (Z.to_nat ((ts + x) / 8)) ∗ raw (p + (ts + x) + 16) 8.
Proof.
  intros Ht Ht0 Hx Hx0. trans (raw (p + 16) (Z.to_nat (ts / 8) + (8 + Z.to_nat (x / 8)))).
  - rewrite !raw_app. replace (p + 16 + 8 * Z.to_nat (ts / 8)) with (p + ts + 16) by zdm. by replace (p + ts + 16 + 8 * 8%nat) with (p + ts + 80) by lia.
  - replace (Z.to_nat (ts / 8) + (8 + Z.to_nat (x / 8)))%nat with (Z.to_nat ((ts + x) / 8) + 8)%nat by zdm. rewrite raw_app.
    by replace (p + 16 + 8 * Z.to_nat ((ts + x) / 8)) with (p + (ts + x) + 16) by zdm.
Qed.

Lemma smem_top s0 b sz : sbase s0 = b -> slen s0 = sz - 80 -> ssize s0 = sz -> smem s0 ⊣⊢ b ↦ - ∗ raw (b + (sz - 80) + 16) 8 ∗ mapped b sz.
Proof. intros E1 E2 E3. unfold smem. rewrite E1 E2 E3. by replace (Z.to_nat ((sz - (sz - 80) - 16) / 8)) with 8%nat by zdm. Qed.

Lemma wp_append g b cs rs s0 rest FR LR L a n : shape g b cs rs s0 rest FR LR -> map_ok a n -> a = b + ssize s0 ->
  opened g b cs rs s0 rest FR LR L -∗ raw a (Z.to_nat (n / 8)) -∗ mapped a n -∗
  wp (append_segment segment0 n) (fun _ g' => ⌜lock_same g g'⌝ ∗ hp g' L) g.
Proof.
  iIntros (Hsh Hmap Ea) "(Hf & Hr & Hmm & Hc & Hsm & Hw) Hraw Hpg". destruct (map_bounds _ _ Hmap) as (Ha & Hn & Hend & Ha16 & Hn16).
  destruct (shape_top _ _ _ _ _ _ _ _ Hsh) as (Ht & Ht16 & Hcs & Hc16 & Es & Htop16 & Hpin & Hb & Hs & Hbs & Hb16 & Hs16 & Hla).
  pose proof Hsh as [_ Et Eb El _ (_ & Erec & Elen) _ Hpar _]. rewrite foot_size in Elen. rewrite regions_top -Et. iDestruct "Hr" as "(Hp & (Hh & Htw) & Hr)".
  iDestruct "Hc" as "[(Hx1 & Hx2 & Hx3) Hc]". rewrite Erec. unfold append_segment. wld "Hx2". wsd "Hx2". wget. wget. rewrite !uwrap_id; [|unfold in_u; lia..].
  rewrite big_sepL_cons (smem_top s0 b (ssize s0)); [|done|lia|done]. iDestruct "Hsm" as "((Hbw & Hft & Hpg0) & Hsm)".
  assert (top g + topsize g + 80 = a) as Ea' by lia. iAssert (raw (top g + 16) (Z.to_nat ((topsize g + n) / 8)) ∗ raw (top g + (topsize g + n) + 16) 8)%I with "[Htw Hft Hraw]" as "[Htw Hft]".
  { iApply top_words; [done|lia|zdm|lia|]. rewrite Ea'. replace (top g + topsize g + 16) with (b + (ssize s0 - 80) + 16) by lia. iFrame. }
  iApply (wp_init_top with "[Hh] Htw"); [done|zdm|lia|lia|lia|by iExists _|]. iIntros "Hh Htw". iSplit; [done|].
  iApply (shut_resize g _ b cs rs s0 rest FR LR L (topsize g + n) (ssize s0 + n) with "Hf Hp Hh Htw Hr Hmm [Hx1 Hx2 Hx3 Hc] [Hbw Hft Hpg0 Hpg Hsm] Hw"); try done; try lia.
  - unfold PGSIZE. zdm.
  - destruct Hmap as (_ & _ & _ & _ & ?). lia.
  - simpl. unfold rec_at. simpl. rewrite Eb. iFrame.
  - rewrite big_sepL_cons (smem_top _ b (ssize s0 + n)) //. rewrite mapping_app; [|done|done|lia|lia]. rewrite -Ea. replace (b + (ssize s0 + n - 80) + 16) with (top g + (topsize g + n) + 16) by lia. iFrame.
Qed.

(** ** New memory before a segment *)

Lemma wp_prepend_top g rest b cs1 sz ts FR LR L : let q := b + total cs1 in
  hole_ok g rest b cs1 sz [] (Top ts) FR LR -> out_pin true cs1 = true ->
  frees g FR -∗ holemem rest b cs1 sz [] (Top ts) true -∗ blk q sz -∗ others g (ext_of rest b cs1 sz [] (Top ts)) LR L -∗
  wp (prepend_rest q sz (q + sz)) (fun _ g' => freed g L g') g.
Proof.
  iIntros (q Hok Hpin) "Hf Hm Hb Ho". pose proof Hok as [_ Hheap]. destruct (region_chunk g b cs1 Used sz [] (Top ts)) as (Hg & Hts & Hend); [by eapply heap_region|].
  fold q in Hg, Hend. pose proof Hg as (Hp & Hpa & Hla & Hsa & Hsr & Hend'). simpl in Hts, Hend.
  destruct (hole_top _ _ _ _ _ _ _ _ Hok Hpin) as (Hok' & Etop & Ets). fold q in Hok', Etop.
  assert (ts mod 16 = 0) as Hts16. { pose proof (heap_region _ _ _ _ _ Hheap) as [_ _ He _ _]. simpl in He. by destruct He as (_ & ? & _). }
  unfold prepend_rest. wget. wget. rewrite Etop Z.eqb_refl. wget. rewrite Ets uwrap_id; [|unfold in_u; lia]. wset. wset.
  rewrite blk_head; [|lia]. iDestruct "Hb" as "[[%h Hh] Hraw]". iApply (wp_sd with "Hh"). iIntros "Hh". unfold PINUSE_BIT. rewrite lor_flag; [|zdm|lia]. iSplit; [done|].
  iApply (hp_close g _ _ (Region b cs1 (Top (sz + ts)) :: rest) FR LR L with "[Hf] [Hm Hh Hraw] Ho").
  - by rewrite (Z.add_comm ts sz).
  - apply core_only_top.
  - rewrite !fmap_cons. erewrite extent_eq; [done| |done]. simpl. rewrite total_app. simpl. lia.
  - by iApply frees_top.
  - iApply (hole_top_mem with "Hm [Hh] Hraw"); [done|lia|done|lia|]. by rewrite (Z.add_comm sz ts).
Qed.

(** The hole becomes a free chunk in a bin. *)
Lemma wp_prepend_insert g rest b cs1 sz cs2 e FR LR L po : let q := b + total cs1 in
  hole_ok g rest b cs1 sz cs2 e FR LR -> out_pin true cs1 = true -> next_inuse e cs2 = true ->
  frees g FR -∗ holemem rest b cs1 sz cs2 e po -∗ blk q sz -∗ others g (ext_of rest b cs1 sz cs2 e) LR L -∗
  wp (set_free_with_pinuse q sz (q + sz);; insert_chunk q sz) (fun _ g' => freed g L g') g.
Proof.
  iIntros (q Hok Hpin Hnx) "Hf Hm Hb Ho". pose proof Hok as [_ Hheap]. destruct (region_chunk g b cs1 Used sz cs2 e) as (Hg & _); [by eapply heap_region|].
  wbind. iApply (wp_hole_free with "Hm Hb"); [done..|]. iIntros "Hm Hfc". iAssert ⌜FR !! q = None⌝%I as %HFR. { iDestruct "Hfc" as "(Hh & _)". iApply (frees_fresh with "Hf Hh"). }
  iApply (wp_wand with "[Hf Hfc]"); [by iApply (wp_free_insert with "Hf Hfc")|]. iIntros (_ g1) "(%Hm & Hf)". pose proof (maps_free_only _ _ Hm) as Hc.
  iSplit; [iPureIntro; by apply free_lock_same|]. by iApply (close_free with "Hf Hm Ho").
Qed.

Lemma wp_prepend_rest g rest b cs1 sz cs2 e FR LR L : let q := b + total cs1 in
  hole_ok g rest b cs1 sz cs2 e FR LR -> out_pin true cs1 = true ->
  frees g FR -∗ holemem rest b cs1 sz cs2 e true -∗ blk q sz -∗ others g (ext_of rest b cs1 sz cs2 e) LR L -∗
  wp (prepend_rest q sz (q + sz)) (fun _ g' => freed g L g') g.
Proof.
  iIntros (q Hok Hpin) "Hf Hm Hb Ho". pose proof Hok as [_ Hheap]. destruct (region_chunk g b cs1 Used sz cs2 e) as ((Hp & _ & _ & Hs16 & Hs & _) & _); [by eapply heap_region|]. fold q in Hp.
  destruct (next_inuse e cs2) eqn:Hnx.
  - iDestruct (holemem_next_top with "Hm") as %Htop; [done..|]. fold q in Htop. iAssert ⌜dv g <> (q + sz)%Z⌝%I as %Hd.
    { iDestruct (holemem_next with "Hm") as "(%h & _ & Hn & _)"; [done..|]. iApply (frees_not_dv with "Hf Hn"). lia. }
    unfold prepend_rest. wget. wget. rewrite (proj2 (Z.eqb_neq (q + sz) (top g))); [|congruence]. rewrite (proj2 (Z.eqb_neq (q + sz) (dv g))); [|congruence].
    unfold is_inuse. wbind. iDestruct (holemem_next with "Hm") as "(%h & %Hh & Hn & Hm)"; [done..|]. fold q. wld "Hn". wret. destruct (inuse_flags h true Hh) as (_ & _ & -> & _). iDestruct ("Hm" $! true with "Hn") as "Hm". wret.
    by iApply (wp_prepend_insert with "Hf Hm Hb Ho").
  - destruct cs2 as [|[k ns] cs2]; simpl in Hnx; [destruct e as [v|ts]; [done|by iApply (wp_prepend_top with "Hf Hm Hb Ho")]|]. destruct k; [done|].
    destruct (hole_right _ _ _ _ _ _ _ _ _ _ Hok) as (Hok' & HFR & Hnx'). fold q in Hok', HFR. iAssert ⌜(q + sz)%Z <> top g⌝%I as %Htop.
    { destruct (decide (q + sz = top g)) as [E|]; [|done]. iDestruct (frees_acc with "Hf") as "[[Hh _] _]"; [done|]. iDestruct (holemem_top with "Hm") as "[%Ht|[%v Ht]]"; [done|lia|].
      rewrite -E. by iDestruct (pointsto_ne with "[$Hh $Ht]") as %?. }
    unfold prepend_rest. wget. wget. rewrite (proj2 (Z.eqb_neq _ _) Htop). destruct (Z.eqb_spec (q + sz) (dv g)) as [Ed|Ed].
    + iDestruct (wp_forward_dv with "Hf Hm Hb Ho") as "[%Eu Hwp]"; [done..|]. wget. rewrite Eu. wset. wset. done.
    + pose proof (heap_ok_good _ _ _ _ _ _ Hheap HFR) as Hgn. pose proof Hgn as (_ & _ & _ & Hn16 & Hn32 & Hend). destruct (free_flags ns) as (_ & _ & _ & Hfi); [done|lia|].
      iDestruct (frees_acc with "Hf") as "[[Hh Hft] Hf]"; [done|]. unfold is_inuse. wbind. wld "Hh". wret. rewrite Hfi. wnorm. wbind. iApply (wp_chunksize with "Hh"); [done|]. iIntros "Hh". iDestruct ("Hf" with "[$Hh $Hft]") as "Hf".
      wbind. iApply (wp_wand with "[Hf]"); [by iApply (wp_free_unlink with "Hf")|]. iIntros (_ g1) "(%Hmo & Hf & Hfc)". pose proof (maps_free_only _ _ Hmo) as Hc. wret.
      pose proof Hok' as [_ Hheap']. destruct (region_chunk g b cs1 Used (sz + ns) cs2 e) as ((_ & _ & _ & _ & Hsn & _) & _); [by eapply heap_region|].
      rewrite chunk_plus; [|lia]. rewrite uwrap_id; [|unfold in_u; lia]. rewrite -Z.add_assoc. iDestruct (free_chunk_blk with "Hfc") as "Hb2"; [lia|done|].
      iAssert (blk q (sz + ns)) with "[Hb Hb2]" as "Hb". { rewrite blk_join; [iFrame|lia|lia|zdm]. }
      rewrite holemem_right others_right others_state; [|by apply free_core_only]. pose proof (hole_ok_free _ _ _ _ _ _ _ _ _ _ Hc Hok') as Hok1.
      iApply (wp_wand with "[Hf Hm Hb Ho]"); [by iApply (wp_prepend_insert with "Hf Hm Hb Ho")|]. iIntros (_ g2) "[%Hl $]". iPureIntro. eapply lock_same_trans; [by apply free_lock_same|done].
Qed.

Lemma heap_prepend g a nb qs cs e rs FR LR : heap_ok g (Region (a + nb + qs) cs e :: rs) FR LR -> 0 < a -> a mod 16 = 0 -> 0 < least_addr g <= a ->
  nb mod 16 = 0 -> 32 <= nb -> qs mod 16 = 0 -> 32 <= qs -> nb + qs + total cs + end_size e < 2 ^ 40 -> LR !! (a + 16) = None -> LR !! (a + nb + 16) = None ->
  hole_ok g rs a [(Used, nb)] qs cs e FR (<[a + 16 := nb - 8]> LR).
Proof.
  intros Hok Ha Ha16 Hla Hnb16 Hnb Hqs16 Hqs Hsz Hn1 Hn2. pose proof (heap_region _ _ _ _ _ Hok) as [_ Hp He _ Hbd]. simpl in Hp, He, Hbd.
  unfold hole_ok. simpl total. rewrite Z.add_0_r. split; [rewrite lookup_insert_ne; [done|lia]|]. eapply heap_ok_replace; [exact Hok| | | |].
  - split; simpl; [done| |done|lia|lia]. split_and!; try done.
  - unfold tops_of. simpl. destruct e; [done|]. do 2 f_equal. lia.
  - unfold free_of. simpl. rewrite (ho_free _ _ _ _ Hok) fmap_cons. simpl. unfold free_of at 1. simpl. done.
  - rewrite (map_insert_perm _ _ _ ((a + 16, nb - 8) :: map_to_list LR)); [|rewrite lookup_insert_ne; [done|lia]|by apply map_to_list_insert].
    rewrite (ho_live _ _ _ _ Hok) fmap_cons. unfold live_of. simpl. unfold to_mem at 1 2. simpl. apply perm_swap.
Qed.

(** The words of new memory in front of a segment. *)
Lemma prepend_words a n : 0 <= n -> n mod 8 = 0 -> 8 <= n -> raw a (Z.to_nat (n / 8)) ∗ (a + n) ↦ - ⊢ a ↦ - ∗ blk a n.
Proof.
  iIntros (Hn Hn8 Hn') "[Hr Hb]". unfold blk. replace (Z.to_nat (n / 8)) with (S (Z.to_nat (n / 8 - 1))) at 1 by zdm. simpl. iDestruct "Hr" as "[$ Hr]".
  replace (Z.to_nat (n / 8)) with (Z.to_nat (n / 8 - 1) + 1)%nat by zdm. rewrite raw_app. iFrame "Hr". simpl. replace (a + 8 + 8 * Z.to_nat (n / 8 - 1)) with (a + n) by zdm. by iFrame.
Qed.

Lemma mms_insert g LR SR L m n : LR !! m = None -> mms g LR SR L -∗ (∃ v, head (m - 16) ↦ v) -∗
  (∃ v, head (m - 16) ↦ v) ∗ ⌜L !! m = None⌝ ∗ mms g (<[m := n]> LR) SR (<[m := n]> L).
Proof.
  iIntros (Hm) "(%MM & %LP & (-> & %Hs & -> & %Hd & %Hok) & HM) [%v Hh]". apply lookup_union_None in Hm as [HLP HSR]. iAssert ⌜MM !! m = None⌝%I as %HMm.
  { destruct (MM !! m) as [x|] eqn:E; [|done]. iDestruct (big_sepM_lookup with "HM") as "(_ & _ & Hx & _)"; [done|]. by iDestruct (pointsto_ne with "[$Hh $Hx]") as %?. }
  assert (mm_live MM !! m = None) as Hl by (unfold mm_live; by rewrite lookup_fmap HMm). iSplitL "Hh"; [by iExists _|]. iSplit; [iPureIntro; by apply lookup_union_None|].
  iExists MM, (<[m := n]> LP). iFrame. iPureIntro. split_and!; [by rewrite insert_union_l|by apply map_disjoint_insert_l_2|by rewrite insert_union_l|by apply map_disjoint_insert_l_2|done].
Qed.

Lemma wp_prepend_alloc g rest a nb qs cs e FR LR L : hole_ok g rest a [(Used, nb)] qs cs e FR LR -> a + nb + qs + 16 < 2 ^ 64 ->
  frees g FR -∗ blk a (nb + qs) -∗ tail e true (a + nb + qs) cs -∗ regions rest -∗ others g (ext_of rest a [(Used, nb)] qs cs e) LR L -∗
  wp (prepend_alloc a (a + nb + qs) nb) (fun m g' => ⌜m = (a + 16)%Z⌝ ∗ raw (a + 16) (Z.to_nat (nb / 8 - 1)) ∗ freed g L g') g.
Proof.
  iIntros (Hok Hend) "Hf Hb Ht Hr Ho". pose proof Hok as [_ Hheap]. pose proof (heap_region _ _ _ _ _ Hheap) as Hreg.
  destruct (region_chunk g a [] Used nb ((Used, qs) :: cs) e Hreg) as ((Ha & Ha16 & _ & Hnb16 & Hnb & _) & _). simpl in Ha, Ha16. rewrite Z.add_0_r in Ha, Ha16.
  destruct (region_chunk g a [(Used, nb)] Used qs cs e Hreg) as ((_ & _ & _ & Hqs16 & Hqs & _) & _).
  unfold prepend_alloc. destruct (align_zero a) as [_ ->]; [zdm|lia|lia|]. destruct (align_zero (a + nb + qs)) as [_ ->]; [zdm|lia|lia|]. rewrite chunk_plus; [|lia].
  replace (a + nb + qs - a) with (nb + qs) by lia. rewrite !uwrap_id; [|unfold in_u; lia..]. replace (nb + qs - nb) with qs by lia.
  rewrite blk_join; [|lia|lia|zdm]. iDestruct "Hb" as "[Hb1 Hb2]". wbind. iApply (wp_set_used with "Hb1"); [done|lia|]. iIntros "Hh Hraw". wbind.
  iDestruct (wp_prepend_rest g rest a [(Used, nb)] qs cs e FR LR L with "Hf [Hh Ht Hr] [Hb2] Ho") as "Hwp"; [done|done| | |].
  - unfold holemem. simpl. rewrite !Z.add_0_r. replace (nb + 2 + 1) with (nb + 3) by lia. iFrame.
  - simpl. by rewrite Z.add_0_r.
  - simpl total. rewrite Z.add_0_r. iApply (wp_wand with "Hwp"). iIntros (_ g') "Hfr". wret. iSplit; [iPureIntro; apply uwrap_id; unfold in_u; lia|]. iFrame.
Qed.

(** No block starts at a chunk whose head somebody else owns. *)
Lemma regions_fresh g rs FR LR p v : heap_ok g rs FR LR -> regions rs -∗ head p ↦ v -∗ ⌜LR !! (p + 16)%Z = None⌝.
Proof.
  iIntros (Hok) "Hr Hh". destruct (LR !! (p + 16)) as [n|] eqn:E; [|done]. iDestruct (live_head with "Hr") as "[%w Hw]"; [done..|].
  replace (p + 16 - 16) with p by lia. by iDestruct (pointsto_ne with "[$Hh $Hw]") as %?.
Qed.

(** The segment after the new memory has the chunks of one region. *)
Lemma wp_prepend_common g rs' a n nb cs e FR LR SR L : heap_ok g (Region (a + n) cs e :: rs') FR LR -> map_ok a n -> 0 < least_addr g <= a ->
  nb mod 16 = 0 -> 32 <= nb -> nb + 96 <= n -> n + total cs + end_size e < 2 ^ 40 ->
  frees g FR -∗ regions (Region (a + n) cs e :: rs') -∗ mms g LR SR L -∗ raw a (Z.to_nat (n / 8)) -∗ (a + n) ↦ - -∗
  (a ↦ - -∗ dl_seg_res g (ext_of rs' a [(Used, nb)] (n - nb) cs e) SR) -∗
  wp (prepend_alloc a (a + n) nb) (malloc_post g nb L) g.
Proof.
  iIntros (Hok Hmap Hla Hnb16 Hnb Hn96 Hsz) "Hf Hr Hmm Hraw Hbw Hseg". destruct (map_bounds _ _ Hmap) as (Ha & Hn & Hend & Ha16 & Hn16).
  iDestruct (prepend_words with "[$Hraw $Hbw]") as "[Haw Hb]"; [lia|zdm|lia|]. iDestruct ("Hseg" with "Haw") as "Hseg".
  iAssert (blk a (nb + (n - nb))) with "[Hb]" as "Hb"; [by replace (nb + (n - nb)) with n by lia|]. rewrite blk_join; [|lia|lia|zdm]. iDestruct "Hb" as "[Hb1 Hb2]".
  iAssert ⌜LR !! (a + 16)%Z = None⌝%I as %Hn1. { rewrite blk_head; [|lia]. iDestruct "Hb1" as "[[%v Hh] _]". by iApply (regions_fresh with "Hr Hh"). }
  iAssert ⌜LR !! (a + nb + 16)%Z = None⌝%I as %Hn2. { rewrite (blk_head (a + nb)); [|lia]. iDestruct "Hb2" as "[[%v Hh] _]". by iApply (regions_fresh with "Hr Hh"). }
  rewrite blk_head; [|lia]. iDestruct "Hb1" as "[Hh Hb1]". iDestruct (mms_insert _ _ _ _ (a + 16) (nb - 8) with "Hmm [Hh]") as "(Hh & %HL & Hmm)"; [done|by replace (a + 16 - 16) with a by lia|].
  replace (a + 16 - 16) with a by lia. iCombine "Hh Hb1" as "Hb1". rewrite -(blk_head a nb); [|lia]. iCombine "Hb1 Hb2" as "Hb". rewrite -blk_join; [|lia|lia|zdm].
  iDestruct "Hr" as "[Ht Hr]". unfold rmem. simpl base. simpl fin. simpl chunks. replace (a + n) with (a + nb + (n - nb)) in Hok |- * by lia.
  pose proof (heap_prepend g a nb (n - nb) cs e rs' FR LR Hok Ha ltac:(zdm) Hla Hnb16 Hnb ltac:(zdm) ltac:(lia) ltac:(lia) Hn1 Hn2) as Hhole.
  iApply (wp_wand with "[Hf Hb Ht Hr Hmm Hseg]").
  - iApply (wp_prepend_alloc with "Hf Hb Ht Hr"); [done|lia|]. iApply others_mms. iExists SR. iFrame.
  - iIntros (m g') "(-> & Hraw & (%Hl & Hhp))". iSplit; [done|]. iRight. iExists (nb - 8). iFrame "Hhp". replace (Z.to_nat ((nb - 8) / 8)) with (Z.to_nat (nb / 8 - 1)) by zdm. iFrame.
    iPureIntro. split_and!; [split_and!; try lia; zdm|lia|done].
Qed.

(** The segment [s] with new memory in front of it. *)
Definition grown (s : seg) (a n : Z) : seg := Seg (srec s) a (ssize s + n) (slen s + n).

Lemma grown_ok s a n : seg_ok s -> map_ok a n -> sbase s = a + n -> seg_ok (grown s a n).
Proof.
  intros Hs Hm E. pose proof (seg_bounds _ Hs). destruct (map_bounds _ _ Hm) as (_ & ? & _). destruct Hs as (? & ? & ? & ? & ? & ?), Hm as (? & ? & ? & ? & ?).
  unfold seg_ok, grown, PGSIZE in *. simpl. split_and!; try done; try lia. zdm.
Qed.

Lemma grown_mem s a n : seg_ok s -> map_ok a n -> sbase s = a + n -> smem s -∗ mapped a n -∗ (a + n) ↦ - ∗ (a ↦ - -∗ smem (grown s a n)).
Proof.
  iIntros (Hs Hm E) "(Hb & Hraw & Hpg) Hpg2". rewrite E. iFrame "Hb". iIntros "Ha". unfold smem, grown. simpl. iFrame "Ha".
  replace (a + (slen s + n) + 16) with (a + n + slen s + 16) by lia. replace (ssize s + n - (slen s + n) - 16) with (ssize s - slen s - 16) by lia. iFrame "Hraw".
  destruct Hm as (? & ? & ? & _), Hs as (_ & _ & ? & _). rewrite (Z.add_comm (ssize s)). rewrite mapping_app; [iFrame|done|done|lia|lia].
Qed.

Definition served (g : mstate) (nb : Z) (L : gmap Z Z) (r : option Z) (g' : mstate) : hpropI :=
  match r with Some m => malloc_post g nb L m g' | None => ⌜lock_same g g'⌝ ∗ hp g' L end%I.

Lemma wp_prepend_rec g s e a n nb Φ : seg_ok s -> map_ok a n -> sbase s = a + n ->
  rec_at s e -∗ (rec_at (grown s a n) e -∗ wp (prepend_alloc a (a + n) nb) (fun m g' => Φ (Some m) g') g) -∗ wp (prepend_segment (srec s) a n nb) Φ g.
Proof.
  iIntros (Hs Hm E) "(Hb & Hz & Hx & Hf) HΦ". pose proof (seg_bounds _ Hs) as (_ & ? & ? & _). destruct (map_bounds _ _ Hm) as (? & ? & ? & _). unfold prepend_segment. wld "Hb". wsd "Hb". wld "Hz". wsd "Hz". rewrite uwrap_id; [|unfold in_u; lia]. rewrite E.
  wbind. iApply (wp_wand with "[-]"); [iApply "HΦ"; iFrame|]. iIntros (m g') "H". by wret.
Qed.

Lemma wp_prepend_first g b cs rs s0 rest FR LR L a n nb : shape g b cs rs s0 rest FR LR -> map_ok a n -> b = a + n -> 0 < least_addr g <= a ->
  nb mod 16 = 0 -> 32 <= nb -> nb + 96 <= n ->
  opened g b cs rs s0 rest FR LR L -∗ raw a (Z.to_nat (n / 8)) -∗ mapped a n -∗ wp (prepend_segment (srec s0) a n nb) (served g nb L) g.
Proof.
  iIntros (Hsh Hmap Eb Hla Hnb16 Hnb Hn96) "(Hf & Hr & Hmm & Hc & Hsm & Hw) Hraw Hpg". destruct (shape_top _ _ _ _ _ _ _ _ Hsh) as (Ht & _ & Hcs & _ & Es & _ & _ & _ & Hs & Hbs & _).
  pose proof Hsh as [Hok Et Eb' El He Hseg Hrest Hpar H0']. pose proof Hseg as (Hsok & Erec & Elen). rewrite foot_size in Elen. destruct (map_bounds _ _ Hmap) as (Ha & Hn & Hend & Ha16 & Hn16).
  assert (n + ssize s0 <= 2 ^ 40) as Hsz. { destruct (seg_bounds _ (grown_ok s0 a n Hsok Hmap ltac:(lia))) as (_ & Hx & _). simpl in Hx. lia. }
  iDestruct "Hc" as "[Hrec Hc]". iDestruct "Hsm" as "[Hs0 Hsm]". iDestruct (grown_mem with "Hs0 Hpg") as "[Hbw Hs0]"; [done|done|lia|].
  iApply (wp_prepend_rec with "Hrec"); [done|done|lia|]. iIntros "Hrec". rewrite Eb in Hok |- *.
  iApply (wp_prepend_common with "Hf Hr Hmm Hraw Hbw"); [done|done|done|done|done|done|simpl; lia|]. iIntros "Haw". iDestruct ("Hs0" with "Haw") as "Hs0".
  iSplit; [done|]. iRight. iExists (grown s0 a n), rest. iSplit; [|iFrame]. iPureIntro. split_and!; [split_and!; [by apply grown_ok; [..|lia]|done|simpl; rewrite foot_size; lia]|done| |done].
  unfold ext_of, seg_exts. rewrite fmap_cons He. unfold extent at 1. simpl. by replace (nb + (n - nb + total cs) + topsize g) with (slen s0 + n) by lia.
Qed.

(** The region of a segment that does not have the top chunk. *)
Lemma other_region rs rest s : (extent <$> rs) ≡ₚ (other_ext <$> rest) -> s ∈ rest -> exists rs' cs v, rs ≡ₚ Region (sbase s) cs (Fence v) :: rs' /\ total cs = slen s.
Proof.
  intros HP Hs. assert (other_ext s ∈ extent <$> rs) as He by (rewrite HP; apply list_elem_of_fmap; by exists s).
  apply list_elem_of_fmap in He as ([b cs e] & E & Hr). unfold other_ext, extent in E. simpl in E. destruct e as [v|ts]; [|done]. injection E as E1 E2.
  apply list_elem_of_split in Hr as (l1 & l2 & ->). exists (l1 ++ l2), cs, v. split; [by rewrite -Permutation_middle E1|simpl in *; lia].
Qed.

Lemma wp_prepend_other g b cs rs s0 l1 s l2 FR LR L a n nb : shape g b cs rs s0 (l1 ++ s :: l2) FR LR -> map_ok a n -> sbase s = a + n -> 0 < least_addr g <= a ->
  nb mod 16 = 0 -> 32 <= nb -> nb + 96 <= n ->
  opened g b cs rs s0 (l1 ++ s :: l2) FR LR L -∗ raw a (Z.to_nat (n / 8)) -∗ mapped a n -∗ wp (prepend_segment (srec s) a n nb) (served g nb L) g.
Proof.
  iIntros (Hsh Hmap Eb Hla Hnb16 Hnb Hn96) "(Hf & Hr & Hmm & Hc & Hsm & Hw) Hraw Hpg".
  pose proof Hsh as [Hok Et Eb' El He Hseg Hrest Hpar H0']. destruct (map_bounds _ _ Hmap) as (Ha & Hn & Hend & Ha16 & Hn16).
  assert (s ∈ l1 ++ s :: l2) as Hin by (apply elem_of_app; right; by left). assert (other_seg s) as Hos by (rewrite ->Forall_forall in Hrest; by apply Hrest, list_elem_of_In). pose proof Hos as (Hsok & Hlen & Erec).
  assert (n + ssize s <= 2 ^ 40) as Hsz. { destruct (seg_bounds _ (grown_ok s a n Hsok Hmap ltac:(lia))) as (_ & Hx & _). simpl in Hx. lia. }
  destruct (other_region rs (l1 ++ s :: l2) s He Hin) as (rs' & cs' & v & HP & Etot). set (R0 := Region b cs (Top (topsize g))) in *.
  assert (R0 :: rs ≡ₚ Region (a + n) cs' (Fence v) :: R0 :: rs') as HP2 by (rewrite HP -Eb; apply perm_swap). pose proof (heap_ok_perm _ _ _ _ _ HP2 Hok) as Hok2.
  iEval (rewrite (regions_perm _ _ HP2)) in "Hr". iEval (rewrite app_comm_cons recs_app) in "Hc". simpl. iDestruct "Hc" as "(Hc1 & Hrec & Hc2)".
  iDestruct "Hsm" as "[Hs0 Hsm]". rewrite big_sepL_app. simpl. iDestruct "Hsm" as "(Hm1 & Hs & Hm2)".
  iDestruct (grown_mem with "Hs Hpg") as "[Hbw Hs]"; [done|done|lia|]. iApply (wp_prepend_rec with "Hrec"); [done|done|lia|]. iIntros "Hrec".
  iApply (wp_prepend_common with "Hf Hr Hmm Hraw Hbw"); [done|done|done|done|done|done|simpl; lia|]. iIntros "Haw". iDestruct ("Hs" with "Haw") as "Hs".
  iSplit; [done|]. iRight. iExists s0, (l1 ++ grown s a n :: l2). iSplit.
  - iPureIntro. split_and!; [done| | |unfold rec_blocks; by rewrite !fmap_app !fmap_cons].
    + apply Forall_app in Hrest as [? [_ ?]%Forall_cons_1]. apply Forall_app. split; [done|]. constructor; [|done]. split_and!; [by apply grown_ok; [..|lia]|simpl; lia|simpl; lia].
    + unfold ext_of, seg_exts. rewrite HP in He. rewrite fmap_cons in He. rewrite !fmap_app !fmap_cons in He |- *.
      assert (extent <$> rs' ≡ₚ (other_ext <$> l1) ++ (other_ext <$> l2)) as ->.
      { apply (Permutation_cons_inv (a := other_ext s)). rewrite -Permutation_middle in He. rewrite -He.
        assert (extent (Region (sbase s) cs' (Fence v)) = other_ext s) as -> by (unfold extent, other_ext; simpl; by rewrite Etot Z.add_0_r). done. }
      unfold extent at 1 2. simpl. rewrite Eb' El -Permutation_middle. rewrite perm_swap. unfold other_ext. by replace (nb + (n - nb + total cs') + 0) with (slen s + n) by lia.
  - unfold segs_mem. iEval (rewrite app_comm_cons recs_app). simpl. rewrite !big_sepL_app. simpl. iFrame. 
Qed.

(** ** A new segment *)

Lemma wp_fenceposts (g : mstate) p (f m : nat) (Φ : unit -> mstate -> hpropI) : (0 < f <= m)%nat -> 0 <= p -> p + 8 * f + 32 < 2 ^ 64 ->
  raw (p + 8) f -∗ (head p ↦ FENCEPOST_HEAD -∗ raw (p + 16) (f - 1) -∗ Φ tt g) -∗
  wp (loop m (fun p' =>
    let nextp := chunk_plus_offset p' 8 in
    sd (head p') FENCEPOST_HEAD;;
    if head nextp <? p + 8 + 8 * f then mret (inl nextp) else mret (inr tt)) p) Φ g.
Proof.
  intros Hf Hp Hend. set (last := p + 8 + 8 * f). assert (p + 8 + 8 * f = last) as El by done. clearbody last. revert p m Φ Hf Hp Hend El.
  induction f as [|f IH]; intros p m Φ Hf Hp Hend El; [lia|]. iIntros "H HΦ". destruct m as [|m]; [lia|]. iApply wp_loop. cbn beta. simpl raw. iDestruct "H" as "[[%v Hv] H]". wsd "Hv".
  rewrite chunk_plus; [|lia]. replace (p + 8 + 8) with (p + 16) by lia. replace (S f - 1)%nat with f by lia. assert (head (p + 8) = p + 16) as -> by (unfold head; lia). destruct (Z.ltb_spec (p + 16) last) as [Hlt|Hge].
  - wret. iApply (IH (p + 8) m with "[H]"); [lia|lia|lia|lia|by replace (p + 8 + 8) with (p + 16) by lia|]. iIntros "Hh H". iApply ("HΦ" with "Hv").
    destruct f as [|f]; [lia|]. simpl. unfold head. replace (p + 8 + 8) with (p + 16) by lia. iSplitL "Hh"; [by iExists _|]. rewrite Nat.sub_0_r. replace (p + 16 + 8) with (p + 8 + 16) by lia. done.
  - assert (f = 0%nat) as -> by lia. wret. by iApply ("HΦ" with "Hv H").
Qed.

Lemma wp_push_segment g s0 e ss a n len len' Φ : srec s0 = segment0 ->
  rec_at s0 e -∗ raw ss 5 -∗
  (rec_at (Seg segment0 a n len) ss -∗ rec_at (Seg ss (sbase s0) (ssize s0) len') e -∗ (ss + 32) ↦ - -∗ Φ tt g) -∗ wp (push_segment ss a n USE_MMAP_BIT) Φ g.
Proof.
  iIntros (Erec) "(Hb & Hz & Hx & Hf) ([%w1 H1] & [%w2 H2] & [%w3 H3] & [%w4 H4] & H5 & _) HΦ". unfold push_segment. rewrite Erec.
  replace (ss + 8 + 8) with (seg_next ss) by (unfold seg_next; lia). replace (seg_next ss + 8) with (seg_sflags ss) by (unfold seg_next, seg_sflags; lia). change (ss + 8) with (seg_size ss).
  change (ss ↦ w1)%I with (seg_base ss ↦ w1)%I. wld "Hb". wsd "H1". wld "Hz". wsd "H2". wld "Hx". wsd "H3". wld "Hf". wsd "H4". wsd "Hb". wsd "Hz". wsd "Hf". iApply (wp_sd with "Hx"). iIntros "Hx".
  iApply ("HΦ" with "[$Hb $Hz $Hx $Hf] [$H1 $H2 $H3 $H4]"). unfold seg_sflags. by replace (ss + 24 + 8) with (ss + 32) by lia.
Qed.

Lemma heap_new_top g g' r r' rs a t FR FR' LR x fnew : heap_ok g (r :: rs) FR LR -> tops_of r' = [] -> concat (tops_of <$> rs) = [] -> region_ok g' r' -> region_ok g' (Region a [] (Top t)) ->
  least_addr g' <= least_addr g -> 0 < least_addr g' -> top g' = a -> topsize g' = t -> free_of r' ≡ₚ fnew ++ free_of r -> live_of r' ≡ₚ x :: live_of r -> LR !! x.1 = None -> map_to_list FR' ≡ₚ fnew ++ map_to_list FR ->
  heap_ok g' (Region a [] (Top t) :: r' :: rs) FR' (<[x.1 := x.2]> LR).
Proof.
  intros [H1' H2' H3' H4'] Ht1 Ht2 Hr' Hr Hla Hla0 Et Es Hfree Hlive Hn HFR. split.
  - intros y [->|[->|Hy]%elem_of_cons]%elem_of_cons; [done|done|]. destruct (H1' y) as [Hb ? ? ? ?]; [set_solver|]. split; try done. lia.
  - rewrite HFR H2' !fmap_cons. simpl. rewrite Hfree. unfold free_of at 3. simpl. by rewrite app_assoc.
  - rewrite map_to_list_insert // H3' !fmap_cons. simpl. rewrite Hlive. unfold live_of at 3. simpl. by destruct x.
  - right. rewrite !fmap_cons. simpl. rewrite Ht1 Ht2 /=. unfold tops_of. simpl. by rewrite Z.add_0_r Et Es.
Qed.

(** The old segment of the top chunk after a new one was added: it ends with the block of
    its record and with fenceposts. *)
Definition fenced (s0 : seg) (csp : Z) : seg := Seg (csp + 16) (sbase s0) (ssize s0) (csp + 48 - sbase s0).

Lemma mms_record g LR SR L m : LR !! m = None -> mms g LR SR L ⊢ mms g (<[m := 40]> LR) (<[m := 40]> SR) L.
Proof.
  iIntros (Hm) "(%MM & %LP & (-> & %Hs & -> & %Hd & %Hok) & HM)". apply lookup_union_None in Hm as [HLP HSR]. iExists MM, LP. iFrame. iPureIntro.
  split_and!; [by rewrite insert_union_r|by apply map_disjoint_insert_r_2|done..].
Qed.

Lemma shut_segment g b cs rs s0 rest a n csp FR LR L : map_ok a n -> top_seg s0 -> Forall other_seg rest -> params_ok g -> 0 < segment0 ->
  (extent <$> rs) ≡ₚ (other_ext <$> rest) -> sbase s0 = b -> csp = b + total cs -> csp + 80 = b + ssize s0 \/ csp + 96 = b + ssize s0 -> 0 < csp ->
  LR !! (csp + 16) = None -> top g = a -> topsize g = n - 80 ->
  heap_ok g (Region a [] (Top (n - 80)) :: Region b (cs ++ [(Used, 48)]) (Fence 10) :: rs) FR (<[csp + 16 := 40]> LR) ->
  frees g FR -∗ regions (Region a [] (Top (n - 80)) :: Region b (cs ++ [(Used, 48)]) (Fence 10) :: rs) -∗ mms g LR (rec_blocks rest) L -∗
  rec_at (Seg segment0 a n (n - 80)) (csp + 16) -∗ rec_at (fenced s0 csp) (first_rec rest 0) -∗ chain_to rest 0 -∗
  smem (Seg segment0 a n (n - 80)) -∗ smem (fenced s0 csp) -∗ ([∗ list] s ∈ rest, smem s) -∗ (csp + 16 + 32) ↦ - -∗ ([∗ list] s ∈ rest, (srec s + 32) ↦ -) -∗ hp g L.
Proof.
  iIntros (Hmap Hs0 Hrest Hpar Hseg0 He Eb Ecsp Hend Hcsp Hn Et Es Hok) "Hf Hr Hmm Hr0 Hr1 Hc Hm0 Hm1 Hm Hw1 Hw". iApply (hp_shut g a [] _ (Seg segment0 a n (n - 80)) (fenced s0 csp :: rest)).
  - split; try done; simpl.
    + by rewrite Es.
    + lia.
    + rewrite fmap_cons He. unfold other_ext at 2, extent at 1. simpl. rewrite total_app. simpl. rewrite Eb. by replace (total cs + (48 + 0) + 0) with (csp + 48 - b) by lia.
    + by apply new_segment.
    + constructor; [|done]. destruct Hs0 as ((? & ? & ? & ? & ? & ?) & _). unfold other_seg, seg_ok, PGSIZE in *. split_and!; try done; simpl; lia.
  - rewrite /opened Es. iFrame "Hf Hr". iDestruct (mms_record _ _ _ _ (csp + 16) with "Hmm") as "Hmm"; [done|]. iSplitL "Hmm"; [by unfold rec_blocks|]. iFrame.
Qed.

Lemma segment_asp e : e mod 16 = 0 -> 4096 <= e < 2 ^ 63 ->
  let rawsp := u64 (e - (pad_request 32 + FOUR_SIZE_T_SIZES + CHUNK_ALIGN_MASK)) in u64 (rawsp + align_offset (chunk2mem rawsp)) = e - 80.
Proof.
  intros He Hr rawsp. assert (rawsp = e - 95) as -> by (subst rawsp; change (pad_request 32) with 48; unfold FOUR_SIZE_T_SIZES, CHUNK_ALIGN_MASK; rewrite uwrap_id; unfold in_u; lia).
  assert (align_offset (chunk2mem (e - 95)) = 15) as ->; [|rewrite uwrap_id; unfold in_u; lia].
  unfold align_offset, chunk2mem, CHUNK_ALIGN_MASK. rewrite (uwrap_id 64 (e - 95 + 16)); [|unfold in_u; lia]. change 15 with (Z.ones 4) at 1 2. rewrite !Z.land_ones //. change (2 ^ 4) with 16.
  by replace ((e - 95 + 16) mod 16) with 1 by zdm.
Qed.

(** The state after init_top. *)
Definition topped (g : mstate) (p s : Z) : mstate := set_trim_check (trim_threshold (sysv g)) (set_topsize s (set_top p g)).

Lemma new_region g a n : map_ok a n -> 0 < least_addr g <= a -> region_ok g (Region a [] (Top (n - 80))).
Proof.
  intros Hmap Hla. destruct (map_bounds _ _ Hmap) as (Ha & Hn & Hend & Ha16 & Hn16). split; simpl; [split_and!; try lia; zdm|done|split_and!; [done|zdm|lia]|lia|lia].
Qed.

Lemma locs_snoc K p cs k s : locs K p (cs ++ [(k, s)]) = locs K p cs ++ (if K k then [(p + total cs, s)] else []).
Proof. rewrite locs_app. simpl. by rewrite app_nil_r. Qed.

(** The top chunk is too small for a chunk of its own: the record takes its place. *)
Lemma heap_fence_small g b cs rs s0 rest FR LR a n : shape g b cs rs s0 rest FR LR -> map_ok a n -> least_addr g <= a -> LR !! (top g + 16) = None ->
  heap_ok (topped g a (n - 80)) (Region a [] (Top (n - 80)) :: Region b (cs ++ [(Used, 48)]) (Fence 10) :: rs) FR (<[top g + 16 := 40]> LR).
Proof.
  intros Hsh Hmap Hla Hn. destruct (shape_top _ _ _ _ _ _ _ _ Hsh) as (Ht & Ht16 & Hcs & Hc16 & Es & Htop16 & Hpin & Hb & Hs & Hbs & Hb16 & Hs16 & Hla').
  pose proof Hsh as [Hok Et _ _ _ _ _ _ _]. destruct (tops_none_rest _ _ _ _ _ _ Hok eq_refl) as (Hrest & _). pose proof (heap_region _ _ _ _ _ Hok) as [Hbase Hpre _ _ _]. simpl in Hbase, Hpre.
  apply (heap_new_top g _ (Region b cs (Top (topsize g))) _ rs a (n - 80) FR FR LR (top g + 16, 40) []); try done; try lia.
  - split; simpl; rewrite ?total_app ?out_pin_app; simpl; try done; try lia; [apply pre_ok_app; rewrite Hpin; by split_and!|by split; [right|]].
  - apply (new_region (topped g a (n - 80))); [done|simpl; lia].
  - simpl. lia.
  - unfold free_of. simpl. by rewrite locs_snoc /= app_nil_r.
  - unfold live_of. simpl. rewrite locs_snoc fmap_app /= -Et. rewrite -Permutation_cons_append. done.
Qed.

(** The top chunk becomes a free chunk, followed by the record. *)
Lemma heap_fence g b cs rs s0 rest FR LR a n : shape g b cs rs s0 rest FR LR -> map_ok a n -> least_addr g <= a -> 32 <= topsize g -> LR !! (top g + topsize g + 16) = None -> FR !! top g = None ->
  heap_ok (topped g a (n - 80)) (Region a [] (Top (n - 80)) :: Region b ((cs ++ [(Free, topsize g)]) ++ [(Used, 48)]) (Fence 10) :: rs) (<[top g := topsize g]> FR) (<[top g + topsize g + 16 := 40]> LR).
Proof.
  intros Hsh Hmap Hla H32 Hn HF. destruct (shape_top _ _ _ _ _ _ _ _ Hsh) as (Ht & Ht16 & Hcs & Hc16 & Es & Htop16 & Hpin & Hb & Hs & Hbs & Hb16 & Hs16 & Hla').
  pose proof Hsh as [Hok Et _ _ _ _ _ _ _]. destruct (tops_none_rest _ _ _ _ _ _ Hok eq_refl) as (Hrest & _). pose proof (heap_region _ _ _ _ _ Hok) as [Hbase Hpre _ _ _]. simpl in Hbase, Hpre.
  apply (heap_new_top g _ (Region b cs (Top (topsize g))) _ rs a (n - 80) FR _ LR (top g + topsize g + 16, 40) [(top g, topsize g)]); try done; try lia.
  - split; simpl; rewrite ?total_app ?out_pin_app; simpl; try done; try lia; [rewrite -app_assoc; apply pre_ok_app; rewrite Hpin; by split_and!|by split; [right|]].
  - apply (new_region (topped g a (n - 80))); [done|simpl; lia].
  - simpl. lia.
  - unfold free_of. simpl. rewrite !locs_snoc /= app_nil_r -Et. by rewrite -Permutation_cons_append.
  - unfold live_of. simpl. rewrite !locs_snoc /= app_nil_r !total_app fmap_app /= -Permutation_cons_append. unfold to_mem at 1. simpl. by replace (b + (total cs + (topsize g + 0)) + 16) with (top g + topsize g + 16) by lia.
  - by rewrite map_to_list_insert.
Qed.

(** The words of the old top chunk and of the foot of its segment. *)
Lemma old_words p ts v : ts mod 16 = 0 -> 0 <= ts -> head p ↦ v -∗ raw (p + 16) (Z.to_nat (ts / 8)) -∗ raw (p + ts + 16) 8 -∗ blk p (ts + 72).
Proof.
  iIntros (H16 H0') "Hh Ht Hf". unfold blk. replace (Z.to_nat ((ts + 72) / 8)) with (S (Z.to_nat (ts / 8) + 8)) by zdm. simpl raw. iSplitL "Hh"; [by iExists _|].
  rewrite raw_app. replace (p + 8 + 8) with (p + 16) by lia. replace (p + 16 + 8 * Z.to_nat (ts / 8)) with (p + ts + 16) by zdm. iFrame.
Qed.

(** The record of the old segment, and the fenceposts after it. *)
Lemma wp_record g s0 e csp a n (f : nat) old_end Φ (k : HM unit) : srec s0 = segment0 -> 0 < csp -> (0 < f <= 16)%nat -> old_end = csp + 56 + 8 * f -> old_end < 2 ^ 63 ->
  rec_at s0 e -∗ blk csp 48 -∗ raw (csp + 56) f -∗
  (head csp ↦ 51 -∗ rec_at (Seg segment0 a n (n - 80)) (csp + 16) -∗ rec_at (fenced s0 csp) e -∗ (csp + 16 + 32) ↦ - -∗ head (csp + 48) ↦ 11 -∗ raw (csp + 64) (f - 1) -∗ wp k Φ g) -∗
  wp (set_size_and_pinuse_of_inuse_chunk csp (pad_request 32);; push_segment (chunk2mem csp) a n USE_MMAP_BIT;; fenceposts (chunk_plus_offset csp (pad_request 32)) old_end;; k) Φ g.
Proof.
  iIntros (Erec Hcsp Hf Eend Hend) "Hrec Hb Hfw HΦ". change (pad_request 32) with 48. wbind. iApply (wp_set_used with "Hb"); [done|done|]. iIntros "Hh Hss". wbind.
  assert (chunk2mem csp = csp + 16) as -> by (unfold chunk2mem; rewrite uwrap_id; unfold in_u; lia). rewrite chunk_plus; [|lia].
  iApply (wp_push_segment g s0 e (csp + 16) a n _ (csp + 48 - sbase s0) with "Hrec Hss"); [done|]. iIntros "Hr0 Hr1 Hw". wbind. unfold fenceposts. replace old_end with (csp + 48 + 8 + 8 * f) by lia.
  iApply (wp_fenceposts with "[Hfw]"); [done|lia|lia|by replace (csp + 48 + 8) with (csp + 56) by lia|]. iIntros "Hfh Hfr". replace (csp + 48 + 16) with (csp + 64) by lia.
  iApply ("HΦ" with "Hh Hr0 Hr1 Hw Hfh Hfr").
Qed.

Lemma fenced_mem s0 csp (f : nat) : csp + 56 + 8 * f = sbase s0 + ssize s0 -> (0 < f)%nat ->
  sbase s0 ↦ - -∗ raw (csp + 64) (f - 1) -∗ mapped (sbase s0) (ssize s0) -∗ smem (fenced s0 csp).
Proof.
  iIntros (E Hf) "$ Hr Hm". unfold fenced. simpl. replace (sbase s0 + (csp + 48 - sbase s0) + 16) with (csp + 64) by lia.
  replace (Z.to_nat ((ssize s0 - (csp + 48 - sbase s0) - 16) / 8)) with (f - 1)%nat by zdm. iFrame.
Qed.

(** The end of add_segment: the old segment has its record and its fenceposts. *)
Lemma wp_add_end g b cs cs' rs s0 rest FR FR' LR L a n csp (f : nat) g' : shape g b cs rs s0 rest FR LR -> map_ok a n -> maps_only (topped g a (n - 80)) g' ->
  csp = b + total cs' -> csp + 56 + 8 * f = b + ssize s0 -> f = 3%nat \/ f = 5%nat -> 0 < csp -> LR !! (csp + 16) = None ->
  heap_ok (topped g a (n - 80)) (Region a [] (Top (n - 80)) :: Region b (cs' ++ [(Used, 48)]) (Fence 10) :: rs) FR' (<[csp + 16 := 40]> LR) ->
  frees g' FR' -∗ pre true b cs' -∗ head csp ↦ (48 + 2 + Z.b2z (out_pin true cs')) -∗ head (csp + 48) ↦ 11 -∗ raw (csp + 64) (f - 1) -∗ regions rs -∗
  head a ↦ (n - 80 + 1) -∗ raw (a + 16) (Z.to_nat ((n - 80) / 8)) -∗ mms g LR (rec_blocks rest) L -∗
  rec_at (Seg segment0 a n (n - 80)) (csp + 16) -∗ rec_at (fenced s0 csp) (first_rec rest 0) -∗ chain_to rest 0 -∗
  smem (Seg segment0 a n (n - 80)) -∗ b ↦ - -∗ mapped b (ssize s0) -∗ ([∗ list] s ∈ rest, smem s) -∗ (csp + 16 + 32) ↦ - -∗ ([∗ list] s ∈ rest, (srec s + 32) ↦ -) -∗
  ⌜lock_same g g'⌝ ∗ hp g' L.
Proof.
  iIntros (Hsh Hmap (m1 & m2 & ->) Ecsp Eend Hf Hcsp Hn Hok) "Hf Hp Hh Hfh Hfr Hr Hah Hat Hmm Hr0 Hr1 Hc Hm0 Hb Hpg Hsm Hw1 Hw". iSplit; [done|].
  destruct (shape_top _ _ _ _ _ _ _ _ Hsh) as (_ & _ & _ & _ & _ & _ & _ & _ & _ & _ & _ & _ & Hla). pose proof Hsh as [_ _ Eb _ He Hseg Hrest Hpar H0'].
  iApply (shut_segment _ b cs' rs s0 rest a n csp FR' LR L with "Hf [Hp Hh Hfh Hr Hah Hat] [Hmm] Hr0 Hr1 Hc Hm0 [Hb Hfr Hpg] Hsm Hw1 Hw"); try done; try lia.
  - by apply (heap_ok_state (topped g a (n - 80))).
  - rewrite regions_top. simpl. rewrite Z.add_0_r. iFrame "Hah Hat". unfold regions at 2. simpl. unfold rmem at 1. simpl. rewrite tail_app. simpl. rewrite -Ecsp. iFrame.
  - rewrite -Eb. iApply (fenced_mem _ _ f with "Hb Hfr Hpg"); lia.
Qed.

(** The rest of the top chunk becomes a free chunk before the record. *)
Lemma wp_add_free g b cs rs s0 rest FR LR L a n : shape g b cs rs s0 rest FR LR -> map_ok a n -> least_addr g <= a -> 32 <= topsize g -> let csp := top g + topsize g in
  LR !! (csp + 16) = None ->
  frees g FR -∗ blk (top g) (topsize g) -∗ pre true b cs -∗ head csp ↦ 51 -∗ head (csp + 48) ↦ 11 -∗ raw (csp + 64) 2 -∗ regions rs -∗
  head a ↦ (n - 80 + 1) -∗ raw (a + 16) (Z.to_nat ((n - 80) / 8)) -∗ mms g LR (rec_blocks rest) L -∗
  rec_at (Seg segment0 a n (n - 80)) (csp + 16) -∗ rec_at (fenced s0 csp) (first_rec rest 0) -∗ chain_to rest 0 -∗
  smem (Seg segment0 a n (n - 80)) -∗ b ↦ - -∗ mapped b (ssize s0) -∗ ([∗ list] s ∈ rest, smem s) -∗ (csp + 16 + 32) ↦ - -∗ ([∗ list] s ∈ rest, (srec s + 32) ↦ -) -∗
  wp (set_free_with_pinuse (top g) (topsize g) csp;; insert_chunk (top g) (topsize g)) (fun _ g' => ⌜lock_same g g'⌝ ∗ hp g' L) (topped g a (n - 80)).
Proof.
  iIntros (Hsh Hmap Hla H32 csp Hn) "Hf Hb Hp Hh Hfh Hfr Hr Hah Hat Hmm Hr0 Hr1 Hc Hm0 Hbw Hpg Hsm Hw1 Hw".
  destruct (shape_top _ _ _ _ _ _ _ _ Hsh) as (Ht & Ht16 & Hcs & Hc16 & Es & Htop16 & Hpin & Hb & Hs & Hbs & Hb16 & Hs16 & Hla'). pose proof (sh_top _ _ _ _ _ _ _ _ Hsh) as Et.
  iDestruct (state_hp_frees g (topped g a (n - 80)) with "Hf") as "Hf"; [done..|]. unfold set_free_with_pinuse, clear_pinuse. wbind. wld "Hh". change (Z.land 51 _) with 50. wsd "Hh".
  iApply (wp_set_free with "Hb"); [lia|lia|lia|done|]. iIntros "Hfc". iAssert ⌜FR !! top g = None⌝%I as %HFR. { iDestruct "Hfc" as "(Hh2 & _)". iApply (frees_fresh with "Hf Hh2"). }
  iApply (wp_wand with "[Hf Hfc]"). { iApply (wp_free_insert with "Hf Hfc"). split_and!; simpl; try lia; done. }
  iIntros (_ g') "[%Hm Hf]". iApply (wp_add_end g b cs (cs ++ [(Free, topsize g)]) rs s0 rest FR _ LR L a n csp 3 g' with "Hf [Hp] [Hh] Hfh Hfr Hr Hah Hat Hmm Hr0 Hr1 Hc Hm0 Hbw Hpg Hsm Hw1 Hw"); try done; try lia.
  - rewrite total_app. simpl. lia.
  - by apply heap_fence with (s0 := s0) (rest := rest).
  - rewrite pre_app. simpl. by iFrame.
  - by rewrite out_pin_app.
Qed.

Lemma pre_fresh g b cs ts rs FR LR p v : heap_ok g (Region b cs (Top ts) :: rs) FR LR -> pre true b cs -∗ regions rs -∗ head p ↦ v -∗ ⌜LR !! (p + 16)%Z = None⌝.
Proof.
  iIntros (Hok) "Hp Hr Hh". destruct (LR !! (p + 16)) as [n|] eqn:E; [|done]. assert ((p + 16, n) ∈ concat (live_of <$> Region b cs (Top ts) :: rs)) as He by (rewrite -(ho_live _ _ _ _ Hok); by apply elem_of_map_to_list).
  rewrite fmap_cons in He. simpl in He. apply elem_of_app in He as [He|He].
  - apply list_elem_of_fmap in He as ([q s] & [= Eq _] & Hin). apply locs_split in Hin as (cs1 & k & cs2 & Ecs & Ev & Hk). simpl in *. destruct k; [|done]. rewrite Ecs pre_app. simpl. iDestruct "Hp" as "(_ & Hq & _)".
    assert (p = b + total cs1) as -> by lia. by iDestruct (pointsto_ne with "[$Hh $Hq]") as %?.
  - destruct (concat_elem _ _ _ He) as ([b' cs' e'] & rs' & HP & Hin). apply list_elem_of_fmap in Hin as ([q s] & [= Eq _] & Hin). apply locs_split in Hin as (cs1 & k & cs2 & Ecs & Ev & Hk). simpl in *. destruct k; [|done].
    rewrite Ecs in HP. rewrite (regions_perm _ _ HP). unfold regions. simpl. unfold rmem at 1. simpl. rewrite tail_app. simpl. iDestruct "Hr" as "((_ & Hq & _) & _)".
    assert (p = b' + total cs1) as -> by lia. by iDestruct (pointsto_ne with "[$Hh $Hq]") as %?.
Qed.

Lemma wp_add_segment g b cs rs s0 rest FR LR L a n : shape g b cs rs s0 rest FR LR -> map_ok a n -> least_addr g <= a ->
  opened g b cs rs s0 rest FR LR L -∗ raw a (Z.to_nat (n / 8)) -∗ mapped a n -∗
  wp (add_segment a n USE_MMAP_BIT) (fun _ g' => ⌜lock_same g g'⌝ ∗ hp g' L) g.
Proof.
  iIntros (Hsh Hmap Hla) "(Hf & Hr & Hmm & Hc & Hsm & Hw) Hraw Hpg". destruct (map_bounds _ _ Hmap) as (Ha & Hn & Hend & Ha16 & Hn16).
  destruct (shape_top _ _ _ _ _ _ _ _ Hsh) as (Ht & Ht16 & Hcs & Hc16 & Es & Htop16 & Hpin & Hb & Hs & Hbs & Hb16 & Hs16 & Hla').
  pose proof Hsh as [Hok Et Eb El _ Hseg _ Hpar _]. pose proof Hseg as (_ & Erec & Elen). rewrite foot_size in Elen. unfold add_segment. wget. wbind.
  iApply (wp_segment_holding with "Hc"); [done|lia|]. iIntros "[(Hx1 & Hx2 & Hx3) Hc]". iEval (rewrite -Erec). wld "Hx1". wld "Hx2". iCombine "Hx1 Hx2 Hx3" as "Hrec". rewrite Eb (uwrap_id 64 (b + ssize s0)); [|unfold in_u; lia].
  rewrite segment_asp; [|zdm|lia]. rewrite foot_size (uwrap_id 64 (n - 80)); [|unfold in_u; lia]. rewrite (uwrap_id 64 (top g + _)); [|unfold in_u, MIN_CHUNK_SIZE; lia].
  iDestruct (segment_words with "Hraw") as "(Haw & Hah & Hat & Haf)"; [zdm|lia|]. wbind. iApply (wp_init_top with "Hah Hat"); [zdm|zdm|lia|lia|lia|]. iIntros "Hah Hat". fold (topped g a (n - 80)).
  rewrite big_sepL_cons (smem_top s0 b (ssize s0)); [|done|lia|done]. iDestruct "Hsm" as "((Hbw & Hft & Hpg0) & Hsm)". rewrite regions_top -Et. iDestruct "Hr" as "(Hp & (Hh & Htw) & Hr)".
  replace (b + (ssize s0 - 80) + 16) with (top g + topsize g + 16) by lia. iAssert (smem (Seg segment0 a n (n - 80))) with "[Haw Haf Hpg]" as "Hm0"; [iApply (smem_top _ a n); [done..|iFrame]|].
  iDestruct (old_words with "Hh Htw Hft") as "Hob"; [done|lia|]. destruct (Z.ltb_spec (b + ssize s0 - 80) (top g + MIN_CHUNK_SIZE)) as [Hlt|Hge]; change MIN_CHUNK_SIZE with 32 in *.
  - assert (topsize g = 16) as E16 by zdm. rewrite E16. change (16 + 72) with (48 + 40). rewrite blk_join; [|done..]. iDestruct "Hob" as "[Hb1 Hb2]".
    iAssert ⌜LR !! (top g + 16)%Z = None⌝%I as %Hfr. { rewrite blk_head; [|done]. iDestruct "Hb1" as "[[%v Hh] _]". by iApply (pre_fresh with "Hp Hr Hh"). }
    iApply (wp_record _ s0 _ _ a n 5 with "[Hrec] Hb1 [Hb2]"); [done|lia|lia|lia|lia|by rewrite /rec_at Eb| |].
    { unfold blk. by replace (top g + 48 + 8) with (top g + 56) by lia. }
    iIntros "Hh Hr0 Hr1 Hw1 Hfh Hfr". rewrite Z.eqb_refl. wret. iApply (wp_add_end g b cs cs rs s0 rest FR FR LR L a n (top g) 5 with "[Hf] Hp [Hh] Hfh Hfr Hr Hah Hat Hmm Hr0 Hr1 Hc Hm0 Hbw Hpg0 Hsm Hw1 Hw"); try done; try lia.
    + apply maps_only_refl.
    + by apply heap_fence_small with (s0 := s0) (rest := rest).
    + by iApply (state_hp_frees with "Hf").
    + by rewrite Hpin.
  - replace (b + ssize s0 - 80) with (top g + topsize g) in Hge |- * by lia. rewrite blk_join; [|lia|lia|zdm]. iDestruct "Hob" as "[Hob Hb1]". change 72 with (48 + 24). rewrite (blk_join _ 48); [|done..]. iDestruct "Hb1" as "[Hb1 Hb2]".
    iAssert ⌜LR !! (top g + topsize g + 16)%Z = None⌝%I as %Hfr. { rewrite (blk_head _ 48); [|done]. iDestruct "Hb1" as "[[%v Hh] _]". by iApply (pre_fresh with "Hp Hr Hh"). }
    iApply (wp_record _ s0 _ _ a n 3 with "[Hrec] Hb1 [Hb2]"); [done|lia|lia|lia|lia|by rewrite /rec_at Eb| |].
    { unfold blk. by replace (top g + topsize g + 48 + 8) with (top g + topsize g + 56) by lia. }
    iIntros "Hh Hr0 Hr1 Hw1 Hfh Hfr". rewrite (proj2 (Z.eqb_neq (top g + topsize g) (top g))); [|lia]. wnorm. rewrite (uwrap_id 64 (top g + topsize g - top g)); [|unfold in_u; lia].
    replace (top g + topsize g - top g) with (topsize g) by lia. rewrite chunk_plus; [|lia]. by iApply (wp_add_free with "Hf Hob Hp Hh Hfh Hfr Hr Hah Hat Hmm Hr0 Hr1 Hc Hm0 Hbw Hpg0 Hsm Hw1 Hw"); try lia.
Qed.
End extend.
