(* ===== verification/DlAlloc.v ===== *)
(** * dlmalloc: memory from the system

    sys_alloc of c/error/dlmalloc.c serves a request that the bins and the top chunk cannot
    serve: a large one by a mapping of its own, any other one from new memory that extends
    the heap. *)

From iris.proofmode Require Import proofmode.
From S2P Require Import Prelude DlSep DlBase DlBins DlTree DlFree DlSearch DlLayout DlSys DlMap DlSegs DlMalloc DlMerge DlSysOk DlExtend.

#[local] Abbreviation mapped := DlMap.mapped.

Section alloc.
Context `{Gm, KernOk}.

(** The segment that ends at [a] is extended only if it has the top chunk. *)
Lemma wp_top_end {A} g b cs rs s0 rest FR LR L a (K : Z -> bool -> HM A) Φ : shape g b cs rs s0 rest FR LR ->
  opened g b cs rs s0 rest FR LR L -∗
  (⌜a = (b + ssize s0)%Z⌝ -∗ opened g b cs rs s0 rest FR LR L -∗ wp (K segment0 true) Φ g) ∧ (∀ sp, opened g b cs rs s0 rest FR LR L -∗ wp (K sp false) Φ g) -∗
  wp (sp ← find_end a; k ← same_kind sp USE_MMAP_BIT; ap ← (if k : bool then tp ← getr top; segment_holds sp tp else mret false); K sp ap) Φ g.
Proof.
  iIntros (Hsh) "(Hf & Hr & Hmm & Hc & Hsm & Hw) HΦ". pose proof (shape_segs _ _ _ _ _ _ _ _ Hsh) as Hall. destruct (shape_top _ _ _ _ _ _ _ _ Hsh) as (Ht & _ & Hcs & _ & Es & _).
  pose proof Hsh as [_ Et Eb _ _ Hseg _ _ _]. wbind. iApply (wp_find_end with "Hc"); [done..|]. iIntros (r Hr) "Hc". wbind. iApply (wp_same_kind with "Hc"); [done..|]. iSplit.
  2:{ iIntros (_) "Hc". wret. iDestruct "HΦ" as "[_ HΦ]". iApply "HΦ". iFrame. }
  iIntros (Hr0) "Hc". wget. destruct Hr as [?|(l1 & s & l2 & E & -> & Ea)]; [done|]. wbind. iEval (rewrite E recs_app; simpl) in "Hc". iDestruct "Hc" as "(H1 & Hrec & H2)".
  assert (seg_ok s) as Hs. { rewrite E in Hall. apply Forall_app in Hall as [_ Hall]. by apply Forall_cons_1 in Hall as [? _]. }
  iApply (wp_segment_holds with "Hrec"); [done|]. iIntros "Hrec". iAssert (chain_to (s0 :: rest) 0) with "[H1 Hrec H2]" as "Hc"; [rewrite E recs_app; simpl; iFrame|].
  destruct l1 as [|s1 l1]; simpl in E; injection E as <- E.
  - rewrite bool_decide_eq_true_2; [|lia]. iDestruct "HΦ" as "[HΦ _]". destruct Hseg as (_ & -> & _). rewrite Eb in Ea. iApply ("HΦ" with "[//]"). iFrame.
  - iAssert ⌜~ (sbase s <= top g < sbase s + ssize s)⌝%I as %Hno.
    { destruct (decide (sbase s <= top g < sbase s + ssize s)) as [Hin|]; [|done]. rewrite E. simpl. rewrite big_sepL_app. simpl. iDestruct "Hsm" as "((_ & _ & Hp0) & _ & (_ & _ & Hp) & _)".
      destruct Hs as (? & ? & _). destruct Hseg as ((? & ? & _) & _). iDestruct (mapped_disjoint _ _ _ _ (top g) with "Hp0 Hp") as "[]"; try done. lia. }
    rewrite bool_decide_eq_false_2 //. iDestruct "HΦ" as "[_ HΦ]". iApply "HΦ". iFrame.
Qed.

Lemma least_lowered g a : 0 < least_addr g -> 0 < a -> let g1 := if a <? least_addr g then set_least_addr a g else g in
  same_heap g g1 /\ lock_same g g1 /\ 0 < least_addr g1 <= a /\ top g1 = top g.
Proof.
  intros Hla Ha g1. subst g1. unfold same_heap. destruct (Z.ltb_spec a (least_addr g)); split_and!; try done; simpl; try lia. unfold params_ok. simpl. intros (? & ? & ? & _). split_and!; try done. lia.
Qed.

Lemma served_lock g g' nb L r g2 : lock_same g g' -> served g' nb L r g2 ⊢ served g nb L r g2.
Proof. intros Hl. destruct r; simpl; iIntros "[%Hl2 $]"; iPureIntro; by eapply lock_same_trans. Qed.

(** New memory before the segment with the record [s], one of the segments. *)
Lemma wp_prepend g b cs rs s0 rest FR LR L a n nb l1 s l2 : shape g b cs rs s0 rest FR LR -> s0 :: rest = l1 ++ s :: l2 -> map_ok a n -> sbase s = a + n -> 0 < least_addr g <= a ->
  nb mod 16 = 0 -> 32 <= nb -> nb + 96 <= n ->
  opened g b cs rs s0 rest FR LR L -∗ raw a (Z.to_nat (n / 8)) -∗ mapped a n -∗ wp (prepend_segment (srec s) a n nb) (served g nb L) g.
Proof.
  iIntros (Hsh E Hmap Es Hla Hnb16 Hnb Hn96) "Hop Hraw Hpg". destruct l1 as [|s1 l1]; simpl in E; injection E as <- E.
  - iApply (wp_prepend_first with "Hop Hraw Hpg"); try done. by rewrite -(sh_base _ _ _ _ _ _ _ _ Hsh).
  - subst rest. by iApply (wp_prepend_other with "Hop Hraw Hpg").
Qed.

Lemma wp_sys_extend g L a n nb : top g <> 0 -> map_ok a n -> nb mod 16 = 0 -> 32 <= nb -> nb + 96 <= n ->
  hp g L -∗ raw a (Z.to_nat (n / 8)) -∗ mapped a n -∗ wp (sys_extend a n USE_MMAP_BIT nb) (served g nb L) g.
Proof.
  iIntros (Htop Hmap Hnb16 Hnb Hn96) "Hhp Hraw Hpg". destruct (map_bounds _ _ Hmap) as (Ha & Hn & Hend & Ha16 & Hn16). iDestruct (hp_open with "Hhp") as (b cs rs s0 rest FR LR Hsh) "Hop"; [done|].
  unfold sys_extend. iApply (wp_top_end with "Hop"); [done|]. iSplit.
  { iIntros (Ea) "Hop". wbind. iApply (wp_wand with "[-]"); [by iApply (wp_append with "Hop Hraw Hpg")|]. iIntros (_ g') "H". by wret. }
  iIntros (sp) "Hop". destruct (shape_top _ _ _ _ _ _ _ _ Hsh) as (_ & _ & _ & _ & _ & _ & _ & _ & _ & _ & _ & _ & Hla). iDestruct (hp_shut with "Hop") as "Hhp"; [done|].
  wset. destruct (least_lowered g a) as (Hs1 & Hl1 & Hla1 & Et1); [lia..|]. set (g1 := if a <? least_addr g then set_least_addr a g else g) in *. iDestruct (same_heap_hp _ _ _ Hs1 with "Hhp") as "Hhp". clear Hla Hsh b cs rs s0 rest FR LR.
  iDestruct (hp_open with "Hhp") as (b cs rs s0 rest FR LR Hsh) "(Hf & Hr & Hmm & (Hc & Hsm & Hw))"; [congruence|]. pose proof (shape_segs _ _ _ _ _ _ _ _ Hsh) as Hall. pose proof (sh_seg _ _ _ _ _ _ _ _ Hsh) as Hseg.
  rewrite uwrap_id; [|unfold in_u; lia]. wbind. iApply (wp_find_start with "Hc"); [done..|]. iIntros (r Hr) "Hc". wbind. iApply (wp_same_kind with "Hc"); [done..|].
  iSplit; iIntros (Hr0) "Hc".
  - destruct Hr as [?|(l1 & s & l2 & E & -> & Ea)]; [done|]. iApply (wp_wand with "[-]"); [|iIntros (r g2) "H"; by iApply (served_lock with "H")]. iApply (wp_prepend with "[$Hf $Hr $Hmm $Hc $Hsm $Hw] Hraw Hpg"); done.
  - wbind. iApply (wp_wand with "[-]"); [iApply (wp_add_segment with "[$Hf $Hr $Hmm $Hc $Hsm $Hw] Hraw Hpg"); [done..|lia]|]. iIntros (_ g') "[%Hl2 Hhp]". wret. iFrame. iPureIntro. by eapply lock_same_trans.
Qed.

Lemma wp_failure g nb L : hp g L ⊢ wp (MALLOC_FAILURE_ACTION;; mret 0) (malloc_post g nb L) g.
Proof. iIntros "Hhp". unfold MALLOC_FAILURE_ACTION. wset. wret. iSplit; [done|]. iLeft. iSplit; [done|]. by iApply hp_errno. Qed.

Lemma wp_sys_top g L nb : 32 <= nb -> nb mod 16 = 0 -> hp g L ⊢ wp (sys_top nb) (malloc_post g nb L) g.
Proof.
  iIntros (Hnb Hnb16) "Hhp". unfold sys_top. wget. destruct (Z.ltb_spec nb (topsize g)); [by iApply (wp_malloc_top with "Hhp")|by iApply wp_failure].
Qed.

Lemma malloc_post_lock g g' nb L m g2 : lock_same g g' -> malloc_post g' nb L m g2 ⊢ malloc_post g nb L m g2.
Proof. iIntros (Hl) "[%Hl2 $]". iPureIntro. by eapply lock_same_trans. Qed.

(** A request that is served from new memory. *)
Definition sys_more (nb : Z) : HM Z :=
  asize ← granularity_align (u64 (nb + SYS_ALLOC_PADDING));
  if asize <=? nb then mret 0
  else
    ov ← over_limit asize;
    if ov : bool then mret 0
    else
      tbase ← CALL_MMAP asize;
      if negb (tbase =? CMFAIL) then
        grow_footprint asize;;
        tp ← getr top;
        r ← (if tp =? 0 then sys_first tbase asize USE_MMAP_BIT;; mret None else sys_extend tbase asize USE_MMAP_BIT nb);
        match r with Some mem => mret mem | None => sys_top nb end
      else MALLOC_FAILURE_ACTION;; mret 0.

Lemma pow_mod k n : 12 <= k -> n mod 2 ^ k = 0 -> n mod 4096 = 0.
Proof. intros Hk Hn. apply Z.mod_divide in Hn; [|lia]. apply Z.mod_divide; [done|]. eapply Z.divide_trans; [|done]. exists (2 ^ (k - 12)). rewrite -(Z.pow_add_r 2 _ 12); [|lia..]. by replace (k - 12 + 12) with k by lia. Qed.

Lemma wp_sys_more g L nb : 32 <= nb < 2 ^ 64 -> nb mod 16 = 0 \/ nb = MAX_SIZE_T -> hp g L ⊢ wp (sys_more nb) (malloc_post g nb L) g.
Proof.
  iIntros (Hnb Hnb16) "Hhp". iDestruct (hp_params with "Hhp") as %((_ & (k & Hk & Egr) & _) & _). unfold sys_more, granularity_align, over_limit. wget. rewrite Egr. change SYS_ALLOC_PADDING with 96.
  set (n := align_to (2 ^ k) (u64 (nb + 96))). destruct (Z.leb_spec n nb) as [Hle|Hlt]; [by iApply malloc_post_none|]. destruct (align_to_spec k nb 96) as [Hn Hn16]; [lia..|done|]. fold n in Hn, Hn16.
  apply pow_mod in Hn16; [|lia]. destruct Hnb16 as [Hnb16| ->]; [|unfold MAX_SIZE_T in Hn; lia]. clearbody n. wget. destruct (_ && _); [by iApply malloc_post_none|]. wbind. iApply wp_mmap; [lia|done|]. iSplit.
  { iIntros (e). rewrite Z.eqb_refl. wnorm. iApply (wp_wand with "[-]"); [iApply wp_failure; by iApply hp_errno|]. iIntros (m g') "H". by iApply (malloc_post_lock with "H"). }
  iIntros (a (Ha & Hlo & Hhi)) "Hraw Hpg". assert (map_ok a n) as Hmap by (split_and!; done || lia). destruct (map_bounds a n Hmap) as (Ha0 & _ & Hend & _).
  assert (a =? CMFAIL = false) as -> by (apply Z.eqb_neq; unfold CMFAIL, MAX_SIZE_T; lia). wnorm. wbind. iApply wp_grow_footprint. iIntros (g1 [Hs1 Hl1]). iDestruct (same_heap_hp _ _ _ Hs1 with "Hhp") as "Hhp".
  wget. wbind. iApply (wp_wand _ (served g1 nb L) with "[-]").
  - destruct (Z.eqb_spec (top g1) 0) as [Ez|Ez].
    + wbind. iApply (wp_wand with "[-]"); [by iApply (wp_sys_first with "Hhp Hraw Hpg")|]. iIntros (_ g2) "H". by wret.
    + iApply (wp_sys_extend with "Hhp Hraw Hpg"); try done; lia.
  - iIntros ([m|] g2) "H"; simpl.
    + wret. by iApply (malloc_post_lock with "H").
    + iDestruct "H" as "[%Hl2 Hhp]". iApply (wp_wand with "[-]"); [iApply (wp_sys_top with "Hhp"); [lia|done]|]. iIntros (m g3) "H". iApply (malloc_post_lock with "H"). by eapply lock_same_trans.
Qed.

Lemma wp_sys_alloc g L nb : 32 <= nb < 2 ^ 64 -> nb mod 16 = 0 \/ nb = MAX_SIZE_T -> hp g L ⊢ wp (DlSys.sys_alloc nb) (malloc_post g nb L) g.
Proof.
  iIntros (Hnb Hnb16) "Hhp". iDestruct (hp_params with "Hhp") as %((_ & _ & Hmg & _) & _). unfold DlSys.sys_alloc, DlSys.ensure_initialization. wbind. wget. rewrite (proj2 (Z.eqb_neq _ _) Hmg). wret. wget. wbind.
  iApply (wp_wand _ (malloc_post g nb L) with "[-]").
  - destruct (Z.eqb_spec (topsize g) 0); [rewrite andb_false_r; by iApply malloc_post_none|]. destruct (_ && _); [by iApply wp_mmap_alloc|by iApply malloc_post_none].
  - iIntros (m g1) "[%Hl [[-> Hhp]|Hgot]]".
    + rewrite Z.eqb_refl. wnorm. fold (sys_more nb). iApply (wp_wand with "[-]"); [by iApply wp_sys_more|]. iIntros (m g2) "H". by iApply (malloc_post_lock with "H").
    + iDestruct "Hgot" as (n (Hb & Hn & HL)) "H". pose proof Hb as (Hm & _). rewrite (proj2 (Z.eqb_neq m 0)); [|lia]. wret. iSplit; [done|]. iRight. iExists n. by iFrame.
Qed.
End alloc.
