(* ===== verification/DlTrim.v ===== *)
(** * dlmalloc: memory back to the system

    sys_trim and release_unused_segments of c/error/dlmalloc.c unmap the end of the top
    chunk and the segments that have only free memory. *)

From iris.proofmode Require Import proofmode.
From S2P Require Import Prelude DlSep DlBase DlBins DlTree DlFree DlSearch DlLayout DlSys DlMap DlSegs DlMalloc DlMerge DlSysOk DlExtend DlAlloc.

#[local] Abbreviation mapped := DlMap.mapped.

Section trim.
Context `{Gm, KernOk}.

(** ** The top chunk *)

(** The bytes that trim_top releases. *)
Lemma trim_extra k ts pad : 12 <= k < 64 -> 0 <= pad -> pad < ts < 2 ^ 41 ->
  let extra := u64 ((u64 (ts - pad + (2 ^ k - 1)) / 2 ^ k - 1) * 2 ^ k) in 0 <= extra < ts /\ extra mod 4096 = 0.
Proof.
  intros Hk Hpad Hts extra. assert (2 ^ 12 <= 2 ^ k) as H12 by (apply Z.pow_le_mono_r; lia). assert (2 ^ k <= 2 ^ 63) as H63 by (apply Z.pow_le_mono_r; lia). change (2 ^ 12) with 4096 in H12.
  subst extra. rewrite (uwrap_id 64 (ts - pad + _)); [|unfold in_u; lia]. set (q := (ts - pad + (2 ^ k - 1)) / 2 ^ k).
  assert (1 <= q) as Hq by (apply Z.div_le_lower_bound; lia). assert (q * 2 ^ k <= ts - pad + (2 ^ k - 1)) as Hle by (subst q; rewrite Z.mul_comm; apply Z.mul_div_le; lia).
  rewrite uwrap_id; [|unfold in_u; nia]. split; [nia|]. apply (pow_mod k); [lia|]. apply Z.mod_mul. lia.
Qed.

Lemma mapped_none a : mapped a 0 ⊣⊢ emp.
Proof. done. Qed.

(** The heap without the last [x] bytes of the segment of the top chunk. *)
Definition cut (g : mstate) (b : Z) (cs : list (kind * Z)) (rs : list region) (s0 : seg) (rest : list seg) (FR LR L : gmap Z Z) (x : Z) : hpropI :=
  (frees g FR ∗ pre true b cs ∗ head (top g) ↦ (topsize g + 1) ∗ raw (top g + 16) (Z.to_nat ((topsize g - x) / 8)) ∗ raw (top g + (topsize g - x) + 16) 8 ∗ regions rs ∗ mms g LR (rec_blocks rest) L ∗
   chain_to (s0 :: rest) 0 ∗ b ↦ - ∗ mapped b (ssize s0 - x) ∗ ([∗ list] s ∈ rest, smem s) ∗ [∗ list] s ∈ rest, (srec s + 32) ↦ -)%I.

Lemma opened_cut g b cs rs s0 rest FR LR L x : shape g b cs rs s0 rest FR LR -> 0 <= x < topsize g -> x mod 4096 = 0 ->
  opened g b cs rs s0 rest FR LR L ⊣⊢ cut g b cs rs s0 rest FR LR L x ∗ raw (b + (ssize s0 - x)) (Z.to_nat (x / 8)) ∗ mapped (b + (ssize s0 - x)) x.
Proof.
  intros Hsh Hx Hx16. destruct (shape_top _ _ _ _ _ _ _ _ Hsh) as (Ht & Ht16 & Hcs & Hc16 & Es & Htop16 & Hpin & Hb & Hs & Hbs & Hb16 & Hs16 & Hla). pose proof Hsh as [_ Et Eb El _ (_ & _ & Elen) _ _ _]. rewrite foot_size in Elen.
  unfold opened, segs_mem, cut. rewrite big_sepL_cons (smem_top s0 b (ssize s0)); [|done|lia|done]. rewrite regions_top -Et.
  assert (mapped b (ssize s0) ⊣⊢ mapped b (ssize s0 - x) ∗ mapped (b + (ssize s0 - x)) x) as ->. { rewrite -mapping_app; [by replace (ssize s0 - x + x) with (ssize s0) by lia|done|unfold PGSIZE; zdm|lia|lia]. }
  pose proof (top_words (top g) (topsize g - x) x) as Hw. replace (topsize g - x + x) with (topsize g) in Hw by lia. replace (top g + (topsize g - x) + 80) with (b + (ssize s0 - x)) in Hw by lia.
  replace (b + (ssize s0 - 80) + 16) with (top g + topsize g + 16) by lia. iSplit.
  - iIntros "($ & ($ & ($ & Htw) & $) & $ & $ & (($ & Hft & $ & $) & $) & $)". iCombine "Htw Hft" as "H". rewrite -Hw; [|zdm|lia|zdm|lia]. iDestruct "H" as "($ & $ & $)".
  - iIntros "(($ & $ & $ & Htw & Hft & $ & $ & $ & $ & $ & $ & $) & Hxw & $)". iCombine "Htw Hft Hxw" as "H". rewrite Hw; [|zdm|lia|zdm|lia]. iDestruct "H" as "($ & $)".
Qed.

(** The top chunk becomes [x] bytes smaller. *)
Lemma wp_cut g b cs rs s0 rest FR LR L x : shape g b cs rs s0 rest FR LR -> 0 < x < topsize g -> x mod 4096 = 0 ->
  cut g b cs rs s0 rest FR LR L x ⊢
  wp (n ← ld (seg_size segment0); sd (seg_size segment0) (u64 (n - x));;
      setr (fun g => set_footprint (u64 (footprint g - x)) g);;
      tp ← getr top; ts ← getr topsize;
      init_top tp (u64 (ts - x))) (fun _ g' => ⌜lock_same g g'⌝ ∗ hp g' L) g.
Proof.
  iIntros (Hsh Hx Hx16) "(Hf & Hp & Hh & Htw & Hft & Hr & Hmm & Hc & Hbw & Hpg & Hsm & Hw)". destruct (shape_top _ _ _ _ _ _ _ _ Hsh) as (Ht & Ht16 & Hcs & Hc16 & Es & Htop16 & Hpin & Hb & Hs & Hbs & Hb16 & Hs16 & Hla).
  pose proof Hsh as [_ Et Eb El _ (Hsok & Erec & Elen) _ Hpar _]. rewrite foot_size in Elen. iDestruct "Hc" as "[(Hx1 & Hx2 & Hx3) Hc]". rewrite Erec. wld "Hx2". wsd "Hx2". wset. wget. wget. simpl top. simpl topsize. rewrite (uwrap_id 64 (ssize s0 - x)); [|unfold in_u; lia]. rewrite (uwrap_id 64 (topsize g - x)); [|unfold in_u; lia].
  iApply (wp_init_top with "[Hh] Htw"); [done|zdm|lia|zdm|lia|by iExists _|]. iIntros "Hh Htw". iSplit; [done|].
  iApply (shut_resize g _ b cs rs s0 rest FR LR L (topsize g - x) (ssize s0 - x) with "Hf Hp Hh Htw Hr Hmm [Hx1 Hx2 Hx3 Hc] [Hbw Hft Hpg Hsm] Hw"); try done; try lia.
  - unfold PGSIZE. zdm.
  - destruct Hsok as (_ & _ & _ & _ & ? & _). lia.
  - simpl. unfold rec_at. simpl. rewrite Eb. iFrame.
  - rewrite big_sepL_cons (smem_top _ b (ssize s0 - x)) //. replace (b + (ssize s0 - x - 80) + 16) with (top g + (topsize g - x) + 16) by lia. iFrame.
Qed.

Lemma wp_trim_top g L pad : 0 <= pad -> top g <> 0 -> hp g L ⊢ wp (trim_top pad) (fun _ g' => ⌜lock_same g g'⌝ ∗ hp g' L) g.
Proof.
  iIntros (Hpad Htop) "Hhp". iDestruct (hp_open with "Hhp") as (b cs rs s0 rest FR LR Hsh) "Hop"; [done|]. unfold trim_top. wget.
  destruct (Z.ltb_spec pad (topsize g)) as [Hlt|Hge]; [|wret; iSplit; [done|]; by iApply hp_shut]. wget.
  destruct (shape_top _ _ _ _ _ _ _ _ Hsh) as (Ht & Ht16 & Hcs & Hc16 & Es & Htop16 & Hpin & Hb & Hs & Hbs & Hb16 & Hs16 & Hla). pose proof Hsh as [_ Et Eb El _ Hseg _ (_ & (k & Hk & ->) & _) _].
  destruct (trim_extra k (topsize g) pad) as [Hx Hx16]; [done|done|lia|]. set (x := u64 ((u64 (topsize g - pad + (2 ^ k - 1)) / 2 ^ k - 1) * 2 ^ k)) in *. clearbody x. pose proof Hseg as (_ & Erec & Elen). rewrite foot_size in Elen.
  iDestruct "Hop" as "(Hf & Hr & Hmm & (Hc & Hsm & Hw))". wget. wbind. iApply (wp_segment_holding with "Hc"); [done|lia|]. iIntros "[(Hx1 & Hx2 & Hx3 & Hx4) Hc]". iEval (rewrite -Erec). wld "Hx4". wbind. change (_ && _) with true. cbn iota. wld "Hx2".
  rewrite (proj2 (Z.leb_le x (ssize s0))); [|lia]. iAssert (chain_to (s0 :: rest) 0) with "[Hx1 Hx2 Hx3 Hx4 Hc]" as "Hc"; [simpl; iFrame|]. wbind. wbind. rewrite Erec. iApply (wp_has_segment_link with "Hc"); [done|by eapply shape_segs|]. iIntros (l) "Hc". wret.
  destruct l; simpl negb; cbn iota.
  { wret. rewrite Z.eqb_refl. wret. wret. iSplit; [done|]. iApply hp_shut; [done|]. iFrame. }
  iDestruct "Hc" as "[(Hx1 & Hx2) Hc]". iEval (rewrite -Erec). wld "Hx1". rewrite Eb Erec (uwrap_id 64 (ssize s0 - x)); [|unfold in_u; lia]. rewrite uwrap_id; [|unfold in_u; lia].
  iAssert (opened g b cs rs s0 rest FR LR L) with "[Hf Hr Hmm Hx1 Hx2 Hc Hsm Hw]" as "Hop"; [rewrite /opened /segs_mem /= /rec_at Erec Eb; iFrame|].
  rewrite (opened_cut _ _ _ _ _ _ _ _ _ x Hsh); [|done..]. iDestruct "Hop" as "[Hcut Hx]". wbind. iApply (wp_munmap with "Hx"); [lia|done|]. iSplit.
  - iIntros (e) "Hx". wret. wret. wret. iSplit; [done|]. iApply hp_errno. iApply hp_shut; [done|]. rewrite (opened_cut _ _ _ _ _ _ _ _ _ x Hsh) //. iFrame.
  - wret. destruct (Z.eqb_spec x 0) as [->|Hx0]; wnorm.
    + wret. wret. iSplit; [done|]. iApply hp_shut; [done|]. rewrite (opened_cut _ _ _ _ _ _ _ _ _ 0 Hsh) //. by iFrame.
    + iApply wp_bind. iApply (wp_wand with "[-]"); [iApply (wp_cut with "Hcut"); [done|lia|done]|]. iIntros (_ g') "H". by wret.
Qed.
End trim.
