(* ===== verification/DlRelease.v ===== *)
(** * dlmalloc: unused segments

    release_unused_segments of c/error/dlmalloc.c walks over the segments and unmaps those
    whose memory is one free chunk; sys_trim calls it after it has cut the top chunk. *)

From iris.proofmode Require Import proofmode.
From S2P Require Import Prelude DlSep DlBase DlBins DlTree DlFree DlSearch DlLayout DlSys DlMap DlSegs DlMalloc DlMerge DlSysOk DlExtend DlAlloc DlTrim.

#[local] Abbreviation mapped := DlMap.mapped.

Section release.
Context `{Gm, KernOk}.

(** ** The block of a record *)

(** Segments do not overlap. *)
Lemma seg_same l s s' x : Forall seg_ok l -> s ∈ l -> s' ∈ l -> sbase s <= x < sbase s + ssize s -> sbase s' <= x < sbase s' + ssize s' ->
  ([∗ list] y ∈ l, smem y) ⊢ ⌜s = s'⌝.
Proof.
  intros Hall Hs Hs' Hx Hx'. apply list_elem_of_lookup in Hs as [i Hi]. apply list_elem_of_lookup in Hs' as [j Hj]. destruct (decide (i = j)) as [->|Hne]; [iIntros; iPureIntro; congruence|].
  assert (seg_ok s /\ seg_ok s') as [(? & ? & _) (? & ? & _)] by (split; by eapply Forall_lookup_1). rewrite (big_sepL_delete _ _ i) // (big_sepL_delete _ _ j) //.
  iIntros "((_ & _ & H1) & H2 & _)". rewrite decide_False; [|done]. iDestruct "H2" as "(_ & _ & H2)". by iDestruct (mapped_disjoint _ _ _ _ x with "H1 H2") as "[]".
Qed.

Lemma rec_blocks_lookup rest s : s ∈ rest -> rec_blocks rest !! srec s = Some 40.
Proof.
  unfold rec_blocks. induction rest as [|s' rest IH]; [by intros ?%not_elem_of_nil|]. intros [->|Hs]%elem_of_cons; simpl.
  - by rewrite lookup_insert_eq.
  - destruct (decide (srec s = srec s')) as [->|Hne]; [by rewrite lookup_insert_eq|]. rewrite lookup_insert_ne //. by apply IH.
Qed.

(** The last chunk of a segment that does not have the top chunk holds its record. *)
Lemma record_chunk g b cs rs s0 rest FR LR L s : shape g b cs rs s0 rest FR LR -> s ∈ rest ->
  opened g b cs rs s0 rest FR LR L ⊢ ⌜exists rs' c v, rs ≡ₚ Region (sbase s) (c ++ [(Used, 48)]) (Fence v) :: rs' /\ total c = slen s - 48⌝.
Proof.
  iIntros (Hsh Hs) "(_ & _ & (%MM & %LP & (-> & %Hd & _) & _) & _ & Hsm & _)". pose proof (shape_segs _ _ _ _ _ _ _ _ Hsh) as Hall. pose proof Hsh as [Hok Et Eb El He Hseg Hrest _ _].
  assert ((LP ∪ rec_blocks rest) !! srec s = Some 40) as Hl. { apply lookup_union_Some_raw. right. split; [|by apply rec_blocks_lookup]. eapply map_disjoint_Some_r; [done|by apply rec_blocks_lookup]. }
  destruct (find_live _ _ _ _ _ _ Hok Hl) as (rs1 & b1 & cs1 & cs2 & e & HP & Erec). change (40 + 8) with 48 in HP. set (R := Region b1 (cs1 ++ (Used, 48) :: cs2) e) in *.
  assert (R ∈ Region b cs (Top (topsize g)) :: rs) as HR by (rewrite HP; set_solver).
  pose proof (ho_regions _ _ _ _ Hok R HR) as HRok. destruct (region_chunk _ _ _ _ _ _ _ HRok) as (_ & Hend & _). destruct (region_tail_ok _ _ _ _ _ HRok) as [Hp1 [Hp2 He2]]. destruct (pre_ok_total _ _ Hp1) as [Ht1 _].
  assert (other_seg s) as (Hsok & Hlen & Esr) by (rewrite ->Forall_forall in Hrest; by apply Hrest, list_elem_of_In). destruct (seg_bounds _ Hsok) as (_ & ? & _).
  assert (sbase s <= b1 + total cs1 < sbase s + ssize s) as Hin by lia. apply elem_of_cons in HR as [HR|HR].
  - injection HR as -> Ecs ->. simpl in Hend. assert (total cs = total cs1 + (48 + total cs2)) as Etot by (rewrite -Ecs total_app; done). destruct Hseg as (_ & _ & Elen). rewrite foot_size in Elen.
    iDestruct (seg_same (s0 :: rest) s s0 (b + total cs1) with "Hsm") as %->; [done|set_solver|set_solver|lia|lia|]. lia.
  - assert (extent R ∈ other_ext <$> rest) as Hx by (rewrite -He; by apply list_elem_of_fmap_2). apply list_elem_of_fmap in Hx as (s' & Ee & Hs'). unfold extent, R, other_ext in Ee. simpl in Ee. destruct e as [v|ts]; [|done].
    rewrite total_app in Ee. simpl in Ee, Hend. injection Ee as -> El'. assert (other_seg s') as (_ & Hlen' & _) by (rewrite ->Forall_forall in Hrest; by apply Hrest, list_elem_of_In).
    iDestruct (seg_same (s0 :: rest) s s' (sbase s' + total cs1) with "Hsm") as %<-; [done|set_solver|set_solver|lia|lia|]. iPureIntro.
    assert (cs2 = []) as ->. { destruct cs2 as [|[k z] cs2]; [done|]. simpl in Hp2. destruct Hp2 as [_ [(_ & Hz & _) Hp2]]. destruct (pre_ok_total _ _ Hp2). simpl in *. lia. }
    apply list_elem_of_split in HR as (l1 & l2 & ->). exists (l1 ++ l2), cs1, v. split; [by rewrite -Permutation_middle|simpl in *; lia].
Qed.

(** ** A segment without chunks in use *)

Lemma heap_drop g a ps v rs FR LR : heap_ok g (Region a [(Free, ps); (Used, 48)] (Fence v) :: rs) FR LR ->
  FR !! a = Some ps /\ LR !! (a + ps + 16) = Some 40 /\ heap_ok g rs (delete a FR) (delete (a + ps + 16) LR).
Proof.
  intros [H1' H2' H3' H4']. rewrite fmap_cons /= in H2', H3', H4'. unfold free_of at 1 in H2'. unfold live_of at 1 in H3'. simpl in H2', H3', H4'. unfold to_mem in H3'. simpl in H3'. change (48 - 8) with 40 in H3'.
  assert (FR !! a = Some ps) as Hf by (apply elem_of_map_to_list; rewrite H2'; set_solver). assert (LR !! (a + ps + 16) = Some 40) as Hl by (apply elem_of_map_to_list; rewrite H3'; set_solver).
  split; [done|]. split; [done|]. split.
  - intros r Hr. apply H1'. set_solver.
  - apply (Permutation_cons_inv (a := (a, ps))). by rewrite (map_to_list_delete FR a ps).
  - apply (Permutation_cons_inv (a := (a + ps + 16, 40))). by rewrite (map_to_list_delete LR (a + ps + 16) 40).
  - right. destruct H4' as [(_ & _ & ?)|H4']; [done|]. done.
Qed.

Lemma mms_drop g LR SR L m n : SR !! m = Some n -> mms g LR SR L ⊢ mms g (delete m LR) (delete m SR) L.
Proof.
  iIntros (Hm) "(%MM & %LP & (-> & %Hs & -> & %Hd & %Hok) & HM)". iExists MM, LP. iFrame. iPureIntro. assert (LP !! m = None) as HLP by (eapply map_disjoint_Some_r; [exact Hs|done]).
  split_and!; [by rewrite delete_union (delete_id LP)|by apply map_disjoint_delete_r|done..].
Qed.

Lemma chain_NoDup ss e : chain_to ss e ⊢ ⌜NoDup (srec <$> ss)⌝.
Proof.
  induction ss as [|s ss IH]; simpl; [iIntros; iPureIntro; constructor|]. iIntros "[(Hb & _) Hc]". iDestruct (IH with "Hc") as %Hnd. rewrite list.NoDup_cons. destruct (decide (srec s ∈ srec <$> ss)) as [Hin|]; [|done].
  rewrite chain_words (big_sepL_elem_of _ _ _ Hin). iDestruct "Hc" as (v) "Hv". by iDestruct (pointsto_ne with "[$Hb $Hv]") as %?.
Qed.

Lemma rec_blocks_drop l1 s l2 : NoDup (srec <$> l1 ++ s :: l2) -> rec_blocks (l1 ++ l2) = delete (srec s) (rec_blocks (l1 ++ s :: l2)).
Proof.
  intros Hnd. unfold rec_blocks. assert (forall l : list seg, ((fun s => (srec s, 40)) <$> l).*1 = srec <$> l) as E by (intros l; rewrite -list_fmap_compose; done).
  rewrite (list_to_map_proper ((fun s => (srec s, 40)) <$> l1 ++ s :: l2) ((fun s => (srec s, 40)) <$> s :: l1 ++ l2)); [|by rewrite E|by rewrite Permutation_middle].
  rewrite fmap_cons. simpl. rewrite delete_insert_id //. apply not_elem_of_list_to_map_1. rewrite E. rewrite fmap_app fmap_cons -Permutation_middle list.NoDup_cons in Hnd. rewrite fmap_app. by destruct Hnd.
Qed.

(** The record before a position of the chain. *)
Fixpoint last_rec (s0 : seg) (l : list seg) : Z := match l with [] => srec s0 | s :: l => last_rec s l end.

Lemma last_rec_snoc s0 l s : last_rec s0 (l ++ [s]) = srec s.
Proof. revert s0. induction l as [|s1 l IH]; intros s0; simpl; [done|apply IH]. Qed.

Lemma chain_remove s0 l1 s l2 : chain_to (s0 :: l1 ++ s :: l2) 0 ⊢
  rec_at s (first_rec l2 0) ∗ seg_next (last_rec s0 l1) ↦ srec s ∗ ((rec_at s (first_rec l2 0) -∗ seg_next (last_rec s0 l1) ↦ srec s -∗ chain_to (s0 :: l1 ++ s :: l2) 0) ∧
    (seg_next (last_rec s0 l1) ↦ first_rec l2 0 -∗ chain_to (s0 :: l1 ++ l2) 0)).
Proof.
  revert s0. induction l1 as [|s1 l1 IH]; intros s0.
  - simpl. iIntros "(($ & $ & $ & $) & $ & Hc)". iSplit; [iIntros "$ $"; done|iIntros "$"; done].
  - change ((s1 :: l1) ++ s :: l2) with (s1 :: l1 ++ s :: l2). change ((s1 :: l1) ++ l2) with (s1 :: l1 ++ l2). iIntros "[Hr Hc]". iDestruct (IH with "Hc") as "($ & $ & Hc)". iSplit.
    + iIntros "H1 H2". iDestruct "Hc" as "[Hc _]". iFrame "Hr". iApply ("Hc" with "H1 H2").
    + iIntros "H2". iDestruct "Hc" as "[_ Hc]". iFrame "Hr". iApply ("Hc" with "H2").
Qed.

(** ** One segment *)

Lemma large_not_small ps : 256 <= ps -> is_small ps = false.
Proof. intros Hp. unfold is_small, NSMALLBINS, SMALLBIN_SHIFT. rewrite Z.shiftr_div_pow2 // Z.ltb_ge. change (2 ^ 3) with 8. zdm. Qed.

(** A large free chunk leaves the store. *)
Lemma wp_take_large g FR p ps : FR !! p = Some ps -> is_small ps = false -> p <> 0 ->
  frees g FR ⊢ wp (if p =? dv g then setr (set_dv 0);; setr (set_dvsize 0) else unlink_large_chunk p) (fun _ g' => ⌜free_only g g'⌝ ∗ frees g' (delete p FR) ∗ free_chunk p ps) g.
Proof.
  iIntros (Hp Hs Hp0) "Hf". destruct (Z.eqb_spec p (dv g)) as [E|E].
  - iDestruct "Hf" as (F) "(%Hdv & Hb & Hd)". destruct Hdv as [(_ & ? & _)|(Hpos & HF & Hg & ->)]; [congruence|]. rewrite -E lookup_insert_eq in Hp. injection Hp as Hp. rewrite (proj2 (Z.eqb_neq _ _)); [|lia].
    wset. iApply wp_setr. rewrite -E delete_insert_id; [|by rewrite E]. rewrite Hp. iFrame "Hd". iSplit; [iPureIntro; apply (free_only_dv g 0 0)|]. by iApply frees_no_dv.
  - assert (unlink_large_chunk p = unlink_chunk p ps) as -> by (unfold unlink_chunk; by rewrite Hs). iApply (wp_wand with "[Hf]"); [by iApply (wp_free_unlink with "Hf")|].
    iIntros (_ g') "(%Hm & $ & $)". iPureIntro. by apply maps_free_only.
Qed.

(** The words of a segment with one free chunk and its record. *)
Lemma segment_raw s ps e v : ps mod 16 = 0 -> 32 <= ps -> slen s = ps + 48 -> srec s = sbase s + ps + 16 -> ssize s mod 16 = 0 -> slen s + 16 <= ssize s ->
  smem s -∗ blk (sbase s) ps -∗ head (sbase s + ps) ↦ 50 -∗ rec_at s e -∗ (srec s + 32) ↦ - -∗ head (sbase s + ps + 48) ↦ v -∗ raw (sbase s) (Z.to_nat (ssize s / 8)) ∗ mapped (sbase s) (ssize s).
Proof.
  iIntros (Hp Hp32 El Er Hs Hle) "(Hb & Hr & $) Hblk Hh (H1 & H2 & H3 & H4) H5 Hf". set (a := sbase s) in *. set (m := Z.to_nat ((ssize s - slen s - 16) / 8)) in *.
  replace (Z.to_nat (ssize s / 8)) with (1 + (Z.to_nat (ps / 8) + (7 + m)))%nat by (subst m; rewrite El; zdm). clearbody m. rewrite (raw_app _ 1) (raw_app _ (Z.to_nat (ps / 8))) (raw_app _ 7). replace (a + 8 * 1%nat) with (a + 8) by lia. unfold blk. iFrame "Hblk". replace (a + 8 + 8 * Z.to_nat (ps / 8)) with (a + ps + 8) by zdm.
  replace (a + ps + 8 + 8 * 7%nat) with (a + slen s + 16) by lia. iFrame "Hr". cbn [raw]. iFrame "Hb". unfold head, seg_base, seg_size, seg_next, seg_sflags in *. rewrite Er.
  replace (a + ps + 8 + 8) with (a + ps + 16) by lia. replace (a + ps + 16 + 8 + 8) with (a + ps + 16 + 16) by lia. replace (a + ps + 16 + 16 + 8) with (a + ps + 16 + 24) by lia. replace (a + ps + 16 + 24 + 8) with (a + ps + 16 + 32) by lia.
  replace (a + ps + 16 + 32 + 8) with (a + ps + 48 + 8) by lia. iFrame "H5". iSplitL "Hh"; [by iExists _|]. iSplitL "H1"; [by iExists _|]. iSplitL "H2"; [by iExists _|]. iSplitL "H3"; [by iExists _|]. iSplitL "H4"; [by iExists _|]. iSplitL "Hf"; [by iExists _|done].
Qed.

Definition walked (g0 : mstate) (s0 : seg) (l : list seg) (L : gmap Z Z) (g : mstate) : hpropI :=
  (∃ b cs rs FR LR, ⌜lock_same g0 g /\ shape g b cs rs s0 l FR LR⌝ ∗ opened g b cs rs s0 l FR LR L)%I.

(** What the free chunks, the footprint and errno do not change. *)
Definition idle (g g' : mstate) : Prop :=
  (least_addr g', top g', topsize g') = (least_addr g, top g, topsize g) /\ lock_same g g' /\ (params_ok g -> params_ok g').

Lemma idle_trans g1 g2 g3 : idle g1 g2 -> idle g2 g3 -> idle g1 g3.
Proof. intros (E1 & L1 & P1) (E2 & L2 & P2). split_and!; [congruence|by eapply lock_same_trans|auto]. Qed.
Lemma idle_free g g' : free_only g g' -> idle g g'.
Proof. intros (m1 & m2 & d1 & d2 & ->). by split_and!. Qed.

Lemma shape_idle g g' b cs rs s0 rest FR LR : idle g g' -> shape g b cs rs s0 rest FR LR -> shape g' b cs rs s0 rest FR LR.
Proof.
  intros ([= E1 E2 E3] & _ & Hp) [Hok Et Eb El He Hs Hr Hpar H0']. split; try done; rewrite ?E2 ?E3; try done; [|by apply Hp]. by apply (heap_ok_state g).
Qed.

Lemma mms_idle g g' LR SR L : idle g g' -> mms g LR SR L ⊢ mms g' LR SR L.
Proof.
  iIntros (([= E _ _] & _)) "(%MM & %LP & (% & % & % & % & %Hm) & HM)". iExists MM, LP. iFrame. iPureIntro. split_and!; try done. intros m x Hx. specialize (Hm m x Hx). unfold mm_ok in *. by rewrite E.
Qed.

Lemma walked_idle g0 g g' s0 l L b cs rs FR LR : idle g g' -> lock_same g0 g -> shape g b cs rs s0 l FR LR ->
  frees g' FR -∗ regions (Region b cs (Top (topsize g)) :: rs) -∗ mms g LR (rec_blocks l) L -∗ segs_mem s0 l -∗ walked g0 s0 l L g'.
Proof.
  iIntros (Hi Hl Hsh) "Hf Hr Hmm Hm". pose proof Hi as ([= _ _ E] & Hl2 & _). iExists b, cs, rs, FR, LR. iSplit.
  - iPureIntro. split; [by eapply lock_same_trans|by eapply shape_idle].
  - rewrite /opened E. iFrame. by iApply mms_idle.
Qed.

(** The segment with the record [s] is gone. *)
Lemma shape_drop g b cs rs rs' s0 l1 s l2 FR LR ps v : shape g b cs rs s0 (l1 ++ s :: l2) FR LR ->
  rs ≡ₚ Region (sbase s) [(Free, ps); (Used, 48)] (Fence v) :: rs' -> slen s = ps + 48 -> srec s = sbase s + ps + 16 ->
  shape g b cs rs' s0 (l1 ++ l2) (delete (sbase s) FR) (delete (srec s) LR).
Proof.
  intros [Hok Et Eb El He Hs Hr Hpar H0'] HP Elen Er. split; try done.
  - rewrite Er. eapply heap_drop, heap_ok_perm; [|done]. rewrite HP. apply perm_swap.
  - rewrite HP fmap_cons fmap_app fmap_cons in He. rewrite fmap_app. apply (Permutation_cons_inv (a := other_ext s)). rewrite Permutation_middle -He.
    assert (extent (Region (sbase s) [(Free, ps); (Used, 48)] (Fence v)) = other_ext s) as -> by (unfold extent, other_ext; simpl; by replace (ps + (48 + 0) + 0) with (slen s) by lia). done.
  - apply Forall_app in Hr as [? [_ ?]%Forall_cons_1]. by apply Forall_app.
Qed.

Lemma wp_release_segment g0 g b cs rs rs' s0 l1 s l2 FR LR L ps v : lock_same g0 g -> shape g b cs rs s0 (l1 ++ s :: l2) FR LR ->
  rs ≡ₚ Region (sbase s) [(Free, ps); (Used, 48)] (Fence v) :: rs' -> ps = slen s - 48 ->
  opened g b cs rs s0 (l1 ++ s :: l2) FR LR L ⊢
  wp (release_segment (last_rec s0 l1) (srec s) (sbase s) (ssize s) (first_rec l2 0) (sbase s) ps)
     (fun y g' => ∃ l1', ⌜y.1 = last_rec s0 l1'⌝ ∗ walked g0 s0 (l1' ++ l2) L g') g.
Proof.
  iIntros (Hl Hsh HP Eps) "(Hf & Hr & Hmm & Hc & Hsm & Hw)". pose proof Hsh as [Hok Et Eb El He Hseg Hrest Hpar H0']. pose proof (shape_segs _ _ _ _ _ _ _ _ Hsh) as Hall.
  assert (other_seg s) as (Hsok & Hlen & Esr) by (apply Forall_app in Hrest as [_ [? _]%Forall_cons_1]; done). destruct (seg_bounds _ Hsok) as (Hb0 & Hsz & _ & Hb16 & Hs16 & _).
  set (R0 := Region b cs (Top (topsize g))) in *. assert (R0 :: rs ≡ₚ Region (sbase s) [(Free, ps); (Used, 48)] (Fence v) :: R0 :: rs') as HP2 by (rewrite HP; apply perm_swap).
  destruct (heap_drop _ _ _ _ _ _ _ (heap_ok_perm _ _ _ _ _ HP2 Hok)) as (HF & _ & _). pose proof (heap_region _ _ _ _ _ (heap_ok_perm _ _ _ _ _ HP2 Hok)) as [_ [(Hps & _) _] _ _ _].
  unfold release_segment. wget. wbind. iApply (wp_wand with "[Hf]"); [iApply (wp_take_large with "Hf"); [done|apply large_not_small; lia|lia]|]. iIntros (_ g1) "(%Hfo & Hf & Hfc)".
  rewrite (regions_perm _ _ HP2). iDestruct "Hr" as "[Hrm Hr]". unfold rmem. simpl tail. iDestruct "Hrm" as "(_ & Hh & Hfe)".
  iDestruct (chain_NoDup with "Hc") as %Hnd. iDestruct (chain_remove with "Hc") as "(Hrec & Hpn & Hc)".
  iDestruct "Hsm" as "[Hs0 Hsm]". rewrite !big_sepL_app. simpl. iDestruct "Hsm" as "(Hm1 & Hs & Hm2)". iDestruct "Hw" as "(Hw1 & Hws & Hw2)". pose proof (idle_free _ _ Hfo) as Hi1.
  iCombine "Hs Hfc Hh Hrec Hws Hfe" as "HP". wbind. iApply (wp_munmap with "HP"); [lia| |].
  { iIntros "(Hs & Hfc & Hh & Hrec & Hws & Hfe)". rewrite free_chunk_blk; [|lia|done]. rewrite Z.add_0_r. iApply (segment_raw s ps with "Hs Hfc Hh Hrec Hws Hfe"); [done|lia|lia|lia|zdm|lia]. }
  iSplit.
  - iIntros (er) "(Hs & Hfc & Hh & Hrec & Hws & Hfe)". change (-1 =? 0) with false. cbn iota. assert (insert_large_chunk (sbase s) ps = insert_chunk (sbase s) ps) as -> by (unfold insert_chunk; rewrite large_not_small; [done|lia]).
    iDestruct (state_hp_frees g1 (set_errno er g1) with "Hf") as "Hf"; [done..|]. wbind. iApply (wp_wand with "[Hf Hfc]"); [iApply (wp_free_insert with "Hf Hfc")|].
    { destruct (region_chunk g (sbase s) [] Free ps [(Used, 48)] (Fence v)) as (Hg & _); [by eapply heap_region, heap_ok_perm|]. simpl in Hg. rewrite Z.add_0_r in Hg. unfold good in *. simpl. by destruct Hi1 as ([= -> _ _] & _). }
    iIntros (_ g2) "[%Hmo Hf]". wret. iExists (l1 ++ [s]). rewrite last_rec_snoc -app_assoc. simpl app. iSplit; [done|]. rewrite insert_delete_id //. iDestruct "Hc" as "[Hc _]". iDestruct ("Hc" with "Hrec Hpn") as "Hc".
    iApply (walked_idle _ g _ with "Hf [Hr Hh Hfe] Hmm [Hc Hs0 Hm1 Hs Hm2 Hw1 Hws Hw2]"); [|done..| |].
    + eapply idle_trans; [done|]. eapply (idle_trans _ (set_errno er g1)); [done|]. apply idle_free. by apply maps_free_only.
    + fold R0. iApply (regions_perm _ _ (Permutation_sym HP2)). unfold regions. simpl. iFrame.
    + unfold segs_mem. simpl. rewrite !big_sepL_app. simpl. iFrame.
  - rewrite Z.eqb_refl. wset. wsd "Hpn". wret. iExists l1. iSplit; [done|]. iDestruct "Hc" as "[_ Hc]". iDestruct ("Hc" with "Hpn") as "Hc".
    iApply (walked_idle _ g _ with "[Hf] Hr [Hmm] [Hc Hs0 Hm1 Hm2 Hw1 Hw2]"); [by eapply idle_trans|done|apply (shape_drop g b cs rs rs' s0 l1 s l2 FR LR ps v); [done|done|lia|lia]| | |].
    + by iApply (state_hp_frees with "Hf").
    + rewrite (rec_blocks_drop l1 s l2); [|by apply list.NoDup_cons in Hnd as [_ ?]]. iApply (mms_drop with "Hmm"). apply rec_blocks_lookup. apply elem_of_app. right. by left.
    + unfold segs_mem. simpl. rewrite !big_sepL_app. iFrame.
Qed.

Lemma first_free g a ps cs e rs FR LR : heap_ok g (Region a ((Free, ps) :: cs) e :: rs) FR LR -> FR !! a = Some ps.
Proof. intros Hok. apply elem_of_map_to_list. rewrite (ho_free _ _ _ _ Hok) fmap_cons. simpl. apply elem_of_cons. by left. Qed.

(** The first chunk of a segment tells whether the segment is unused. *)
Lemma wp_unused_segment g b cs rs s0 rest FR LR L s Φ : shape g b cs rs s0 rest FR LR -> s ∈ rest ->
  opened g b cs rs s0 rest FR LR L -∗
  (opened g b cs rs s0 rest FR LR L -∗ Φ None g) ∧
  (∀ rs' v ps, ⌜rs ≡ₚ Region (sbase s) [(Free, ps); (Used, 48)] (Fence v) :: rs' /\ ps = (slen s - 48)%Z⌝ -∗ opened g b cs rs s0 rest FR LR L -∗ Φ (Some ps) g) -∗
  wp (unused_segment (sbase s) (ssize s) (sbase s)) Φ g.
Proof.
  iIntros (Hsh Hs) "Hop HΦ". iDestruct (record_chunk with "Hop") as %(rs' & c & v & HP & Hc); [done..|]. pose proof Hsh as [Hok Et Eb El He Hseg Hrest Hpar H0'].
  assert (other_seg s) as (Hsok & Hlen & Esr) by (rewrite ->Forall_forall in Hrest; by apply Hrest, list_elem_of_In). destruct (seg_bounds _ Hsok) as (Hb0 & Hsz & Hbs & Hb16 & Hs16 & _).
  set (R0 := Region b cs (Top (topsize g))) in *. assert (R0 :: rs ≡ₚ Region (sbase s) (c ++ [(Used, 48)]) (Fence v) :: R0 :: rs') as HP2 by (rewrite HP; apply perm_swap).
  pose proof (heap_ok_perm _ _ _ _ _ HP2 Hok) as Hok2. pose proof (heap_region _ _ _ _ _ Hok2) as [_ Hpre _ Hsize _]. simpl in Hpre, Hsize. destruct c as [|[k ps] c]; [simpl in Hc; lia|]. simpl in Hc, Hpre, Hsize. destruct Hpre as [(Hps & Hps32 & _) Hpre].
  rewrite total_app in Hsize. apply pre_ok_app in Hpre as [Hpre _]. destruct (pre_ok_total _ _ Hpre) as [Htc _]. unfold unused_segment. destruct k.
  - iAssert (head (sbase s) ↦ (ps + 2 + 1) ∗ (head (sbase s) ↦ (ps + 2 + 1) -∗ opened g b cs rs s0 rest FR LR L))%I with "[Hop]" as "[Hh Hop]".
    { iDestruct "Hop" as "(Hf & Hr & Hm)". rewrite (regions_perm _ _ HP2). iDestruct "Hr" as "[[Hh Ht] Hr]". iFrame "Hh". iIntros "Hh". iFrame. iApply (regions_perm _ _ (Permutation_sym HP2)). iFrame. }
    unfold chunksize, is_inuse. wbind. wld "Hh". wret. wbind. wld "Hh". wret. destruct (inuse_flags (ps + 2) true) as (_ & _ & Hin & _); [apply used_head; [done|lia]|]. simpl Z.b2z in Hin. rewrite Hin. simpl. wret.
    iDestruct "HΦ" as "[HΦ _]". iApply "HΦ". by iApply "Hop".
  - pose proof (first_free _ _ _ _ _ _ _ _ Hok2) as HF. iDestruct "Hop" as "(Hf & Hop)". iDestruct (frees_acc with "Hf") as "[[Hh Hft] Hf]"; [done|]. destruct (free_flags ps) as (_ & _ & _ & Hfi); [done|lia|].
    wbind. iApply (wp_chunksize with "Hh"); [by eapply heap_ok_good|]. iIntros "Hh". unfold is_inuse. wbind. wld "Hh". wret. rewrite Hfi. iDestruct ("Hf" with "[$Hh $Hft]") as "Hf". iCombine "Hf Hop" as "Hop".
    rewrite foot_size !uwrap_id; [|unfold in_u; lia..]. simpl. destruct (Z.leb_spec (sbase s + ssize s - 80) (sbase s + ps)); wret.
    + assert (c = []) as ->. { destruct c as [|[k z] c]; [done|]. simpl in Hpre, Hc. destruct Hpre as [(_ & Hz & _) Hpre]. destruct (pre_ok_total _ _ Hpre). lia. }
      simpl in Hc. iDestruct "HΦ" as "[_ HΦ]". iApply ("HΦ" $! rs' v ps with "[] Hop"). iPureIntro. split; [done|lia].
    + iDestruct "HΦ" as "[HΦ _]". by iApply "HΦ".
Qed.

Lemma wp_release_step g0 g s0 l1 s l2 L rel n : walked g0 s0 (l1 ++ s :: l2) L g ⊢
  wp (release_step (last_rec s0 l1, srec s, rel, n)) (fun r g' => ∃ l1' rel', ⌜r = inl (last_rec s0 l1', first_rec l2 0, rel', (n + 1)%Z)⌝ ∗ walked g0 s0 (l1' ++ l2) L g') g.
Proof.
  iIntros "(%b & %cs & %rs & %FR & %LR & (%Hl & %Hsh) & Hop)". pose proof Hsh as [_ _ _ _ _ _ Hrest _ _]. apply Forall_app in Hrest as [_ [(Hsok & _) _]%Forall_cons_1]. destruct (seg_bounds _ Hsok) as (Hb0 & Hsz & Hbs & Hb16 & Hs16 & Hr0).
  unfold release_step. rewrite (proj2 (Z.eqb_neq (srec s) 0)); [|lia]. wnorm. iDestruct "Hop" as "(Hf & Hr & Hmm & Hc & Hm)". iDestruct (chain_remove with "Hc") as "((Hx1 & Hx2 & Hx3 & Hx4) & Hpn & Hc)".
  wld "Hx1". wld "Hx2". wld "Hx3". wld "Hx4". iDestruct "Hc" as "[Hc _]". iDestruct ("Hc" with "[$Hx1 $Hx2 $Hx3 $Hx4] Hpn") as "Hc". iAssert (opened g b cs rs s0 (l1 ++ s :: l2) FR LR L) with "[$Hf $Hr $Hmm $Hc $Hm]" as "Hop".
  change (_ && _) with true. cbn iota. destruct (align_zero (sbase s)) as [_ ->]; [zdm|lia|lia|]. wbind. wbind. iApply (wp_unused_segment with "Hop"); [done|apply elem_of_app; right; by left|]. iSplit.
  - iIntros "Hop". wret. wret. iExists (l1 ++ [s]), _. rewrite last_rec_snoc -app_assoc. simpl app. iSplit; [done|]. iExists b, cs, rs, FR, LR. by iFrame.
  - iIntros (rs' v ps (HP & Eps)) "Hop". iApply (wp_wand with "[Hop]"); [by iApply (wp_release_segment with "Hop")|]. iIntros ([pred m] g') "(%l1' & %E & Hw)". simpl in E. subst pred. wret. iExists l1', _. by iFrame.
Qed.

Lemma wp_release_loop g0 s0 l2 L : forall g l1 rel n (m : nat), (length l2 < m)%nat -> walked g0 s0 (l1 ++ l2) L g ⊢
  wp (loop m release_step (last_rec s0 l1, first_rec l2 0, rel, n)) (fun _ g' => ∃ l, walked g0 s0 l L g') g.
Proof.
  induction l2 as [|s l2 IH]; intros g l1 rel n [|m] Hm; simpl in Hm; try lia; iIntros "Hw"; iApply wp_loop.
  - simpl. wret. iExists _. iFrame.
  - simpl first_rec. iApply (wp_wand with "[Hw]"); [iApply (wp_release_step with "Hw")|]. iIntros (r g') "(%l1' & %rel' & -> & Hw)". iApply (IH with "Hw"). lia.
Qed.

(** Before the first segment there is no other one. *)
Lemma hp_no_segments g L : top g = 0 -> hp g L ⊢ seg_next segment0 ↦ 0 ∗ (seg_next segment0 ↦ 0 -∗ hp g L).
Proof.
  iIntros (Htop) "(%rs & %FR & %LR & %Hok & Hf & Hr & Ho)". assert (rs = []) as -> by by eapply top_zero. iEval (rewrite others_mms) in "Ho".
  iDestruct "Ho" as (SR) "[Hmm (%Hp & [((% & %) & H1 & H2 & Hn & H3)|(%s0 & %rest & (% & % & %He & _) & _)])]"; [|by apply Permutation_nil_l in He].
  iFrame "Hn". iIntros "Hn". iExists [], FR, LR. iFrame "Hf Hr". iSplit; [done|]. iApply others_mms. iExists SR. iFrame "Hmm". iSplit; [done|]. iLeft. by iFrame.
Qed.

Lemma wp_release_unused_segments g L : hp g L ⊢ wp DlSys.release_unused_segments (fun _ g' => ⌜lock_same g g'⌝ ∗ hp g' L) g.
Proof.
  iIntros "Hhp". unfold DlSys.release_unused_segments. destruct (decide (top g = 0)) as [Htop|Htop].
  - iDestruct (hp_no_segments with "Hhp") as "[Hn Hhp]"; [done|]. wbind. iApply (wp_memsize [seg_next segment0] with "Hn"); [by iIntros "H"; iFrame|]. iIntros (n Hn) "Hn". wld "Hn". destruct n as [|n]; [simpl in Hn; lia|].
    wbind. iApply wp_loop. simpl. wret. wset. wret. iSplit; [done|]. iApply hp_release. by iApply "Hhp".
  - iDestruct (hp_open with "Hhp") as (b cs rs s0 rest FR LR Hsh) "(Hf & Hr & Hmm & Hc & Hm)"; [done|]. pose proof (sh_seg _ _ _ _ _ _ _ _ Hsh) as (_ & Erec & _).
    wbind. iApply (wp_memsize (srec <$> s0 :: rest) with "Hc"); [apply chain_words|]. iIntros (n Hn) "Hc". rewrite length_fmap in Hn. simpl in Hn. iDestruct "Hc" as "[(Hx1 & Hx2 & Hx3 & Hx4) Hc]". rewrite -Erec. wld "Hx3".
    wbind. iApply (wp_wand with "[-]"); [iApply (wp_release_loop g s0 rest L g [] 0 0 n); [lia|]|].
    + iExists b, cs, rs, FR, LR. simpl. iFrame. by iFrame.
    + iIntros ([rel k] g') "(%l & (%b' & %cs' & %rs' & %FR' & %LR' & (%Hl & %Hsh') & Hop))". wset. wret. iSplit; [done|]. iApply hp_release. by iApply hp_shut.
Qed.

(** ** sys_trim *)

Lemma hp_trim_check g t L : hp g L ⊢ hp (set_trim_check t g) L.
Proof. apply same_heap_hp. split_and!; done || lia. Qed.

Lemma wp_sys_trim g L pad : hp g L ⊢ wp (DlSys.sys_trim pad) (fun _ g' => ⌜lock_same g g'⌝ ∗ hp g' L) g.
Proof.
  iIntros "Hhp". iDestruct (hp_params with "Hhp") as %((_ & _ & Hmg & _) & _). unfold DlSys.sys_trim, DlSys.ensure_initialization. wbind. wget. rewrite (proj2 (Z.eqb_neq _ _) Hmg). wret. wget.
  destruct (Z.eqb_spec (top g) 0) as [|Htop]; [rewrite andb_false_r; wret; by iFrame|]. rewrite andb_true_r. destruct (pad <? MAX_REQUEST); [|wret; by iFrame]. wbind.
  iApply (wp_wand with "[-]"); [iApply (wp_trim_top with "Hhp"); [by destruct (uwrap_range 64 (pad + TOP_FOOT_SIZE))|done]|]. iIntros (rel g1) "[%Hl1 Hhp]". wbind. iApply (wp_wand with "[-]"); [iApply (wp_release_unused_segments with "Hhp")|].
  iIntros (n g2) "[%Hl2 Hhp]". wset. wret. destruct (_ && _); (iSplit; [iPureIntro; by eapply lock_same_trans|]); [by iApply hp_trim_check|done].
Qed.

(** ** The system layer keeps its promises *)

#[export] Instance dl_sys_ok : SysOk.
Proof.
  split.
  - apply wp_ensure_initialization.
  - apply wp_sys_alloc.
  - apply wp_sys_trim.
  - apply wp_release_unused_segments.
  - iIntros (g a n Φ Ha Hn Hend) "Hraw Hpg HΦ". iApply (wp_munmap with "[Hraw Hpg]"); [done|by iIntros "H"|iCombine "Hraw Hpg" as "H"; done|]. iSplit.
    + iIntros (e) "_". iApply "HΦ".
    + iSpecialize ("HΦ" $! 0 (errno (sysv g))). by destruct g as [????????????[]].
Qed.
End release.
