(* ===== verification/DlOpt.v ===== *)
(** * dlmalloc: parameters and limits

    mallopt, malloc_trim, malloc_footprint and the limit of the footprint of
    c/error/dlmalloc.c, and that they keep the heap. *)

From iris.proofmode Require Import proofmode.
From S2P Require Import Prelude DlSep DlBase DlBins DlTree DlFree DlSearch DlLayout DlSys DlMap DlSegs DlMalloc DlMerge DlFreeOk DlSysOk DlExtend DlAlloc DlTrim DlRelease.

Definition M_TRIM_THRESHOLD : Z := -1.
Definition M_GRANULARITY : Z := -2.
Definition M_MMAP_THRESHOLD : Z := -3.

Definition set_footprint_limit v g := set_sysv (fun y => SysVars (max_footprint y) v (magic y) (errno y) (global_mutex y)
  (mp_magic y) (page_size y) (granularity y) (mmap_threshold y) (trim_threshold y) (default_mflags y)) g.
Definition set_trim_threshold v g := set_sysv (fun y => SysVars (max_footprint y) (footprint_limit y) (magic y) (errno y) (global_mutex y)
  (mp_magic y) (page_size y) (granularity y) (mmap_threshold y) v (default_mflags y)) g.
Definition set_granularity v g := set_sysv (fun y => SysVars (max_footprint y) (footprint_limit y) (magic y) (errno y) (global_mutex y)
  (mp_magic y) (page_size y) v (mmap_threshold y) (trim_threshold y) (default_mflags y)) g.
Definition set_mmap_threshold v g := set_sysv (fun y => SysVars (max_footprint y) (footprint_limit y) (magic y) (errno y) (global_mutex y)
  (mp_magic y) (page_size y) (granularity y) v (trim_threshold y) (default_mflags y)) g.

(** The fields of [_gm_] and [mparams] at the start. *)
Definition zero_vars : sysvars := SysVars 0 0 0 0 0 0 0 0 0 0 0.
Definition zero_state : mstate := MState 0 0 0 0 0 0 0 0 0 0 0 0 zero_vars.

Section code.
Context `{Gm, Kern}.

Definition change_mparam (param_number value : Z) : HM Z :=
  DlSys.ensure_initialization;;
  let val := if value =? -1 then MAX_SIZE_T else u64 value in
  if param_number =? M_TRIM_THRESHOLD then setr (set_trim_threshold val);; mret 1
  else if param_number =? M_GRANULARITY then
    ps ← getr (fun g => page_size (sysv g));
    if (ps <=? val) && (Z.land val (u64 (val - 1)) =? 0) then setr (set_granularity val);; mret 1 else mret 0
  else if param_number =? M_MMAP_THRESHOLD then setr (set_mmap_threshold val);; mret 1
  else mret 0.
Definition dlmallopt (param_number value : Z) : HM Z := change_mparam param_number value.

Definition dlmalloc_trim (pad : Z) : HM Z :=
  DlSys.ensure_initialization;;
  r ← PREACTION;
  if r =? 0 then result ← DlSys.sys_trim pad; POSTACTION;; mret result else mret 0.

Definition dlmalloc_footprint : HM Z := getr footprint.
Definition dlmalloc_max_footprint : HM Z := getr (fun g => max_footprint (sysv g)).
Definition dlmalloc_footprint_limit : HM Z :=
  maf ← getr (fun g => footprint_limit (sysv g)); mret (if maf =? 0 then MAX_SIZE_T else maf).

(** The first result is overwritten: the second test has no else for it. *)
Definition dlmalloc_set_footprint_limit (bytes : Z) : HM Z :=
  result ← (if bytes =? 0 then granularity_align 1 else mret 0);
  result ← (if bytes =? MAX_SIZE_T then mret 0 else granularity_align bytes);
  setr (set_footprint_limit result);;
  mret result.
End code.

Section proof.
Context `{Gm, KernOk}.

(** ** The heap stays as it is *)

Lemma wp_dlmalloc_trim g L pad : dlheap g L ⊢ wp (dlmalloc_trim pad) (fun _ g' => dlheap g' L) g.
Proof.
  iIntros "Hh". unfold dlmalloc_trim. wbind. iApply (wp_wand with "[Hh]"); [by iApply wp_ensure_initialization|]. iIntros (_ g0) "[%Hm0 Hh]".
  wbind. iApply (wp_wand with "[Hh]"); [by iApply wp_PREACTION|]. iIntros (r g1) "((-> & %Hf & %Hu) & Hhp)". rewrite Z.eqb_refl.
  wbind. iApply (wp_wand with "[Hhp]"); [by iApply wp_sys_trim|]. iIntros (n g2) "((%Hf2 & %Hm2) & Hhp)". wbind.
  iApply (wp_wand with "[Hhp]"); [iApply (wp_POSTACTION with "Hhp")|].
  - rewrite Hm2. intros E. apply Hu. rewrite -E. symmetry. apply use_lock_same. congruence.
  - iIntros (_ g3) "Hh". by wret.
Qed.

Lemma dlheap_limit g L v : dlheap g L ⊢ dlheap (set_footprint_limit v g) L.
Proof.
  iIntros "[%Hm [Hhp|[%E Hv]]]"; (iSplit; [done|]); [iLeft|iRight; by iFrame]. iApply (same_heap_hp with "Hhp"). split_and!; done || lia.
Qed.

Lemma wp_set_footprint_limit g L bytes : dlheap g L ⊢ wp (dlmalloc_set_footprint_limit bytes) (fun _ g' => dlheap g' L) g.
Proof.
  iIntros "Hh". unfold dlmalloc_set_footprint_limit, granularity_align. wbind. destruct (bytes =? 0); [wget|wret]; (destruct (bytes =? MAX_SIZE_T); [wbind; wret|wget]); wset; wret; by iApply dlheap_limit.
Qed.

Lemma pow2_bits x : 0 < x -> Z.land x (x - 1) = 0 -> x = 2 ^ Z.log2 x.
Proof.
  intros Hx Hl. destruct (Z.log2_spec x Hx) as [Hlo Hhi]. destruct (decide (x = 2 ^ Z.log2 x)) as [|Hne]; [done|]. exfalso.
  assert (Z.log2 (x - 1) = Z.log2 x) as E by (apply Z.log2_unique; [apply Z.log2_nonneg|lia]).
  assert (Z.testbit (Z.land x (x - 1)) (Z.log2 x) = true) as Hb. { rewrite Z.land_spec Z.bit_log2 // -E Z.bit_log2 //. pose proof (Z.pow_pos_nonneg 2 (Z.log2 x)). pose proof (Z.log2_nonneg x). lia. }
  by rewrite Hl Z.bits_0 in Hb.
Qed.

Lemma granularity_ok g v : params_ok g -> 0 <= v < 2 ^ 64 -> (page_size (sysv g) <=? v) && (Z.land v (u64 (v - 1)) =? 0) = true -> params_ok (set_granularity v g).
Proof.
  intros (Hps & _ & Hmg & Hla) Hv [Hle%Z.leb_le Hp%Z.eqb_eq]%andb_prop. rewrite Hps in Hle. unfold PGSIZE in Hle. rewrite uwrap_id in Hp; [|unfold in_u; lia].
  split_and!; [done| |done|done]. exists (Z.log2 v). simpl. split; [|apply pow2_bits; [lia|done]]. split; [by apply Z.log2_le_pow2; [lia|]|apply Z.log2_lt_pow2; lia].
Qed.

Lemma wp_dlmallopt g L p v : dlheap g L ⊢ wp (dlmallopt p v) (fun _ g' => dlheap g' L) g.
Proof.
  iIntros "Hh". unfold dlmallopt, change_mparam. wbind. iApply (wp_wand with "[Hh]"); [by iApply wp_ensure_initialization|]. iIntros (_ g0) "[%Hm0 Hh]".
  set (val := if v =? -1 then MAX_SIZE_T else u64 v). assert (0 <= val < 2 ^ 64) as Hval by (subst val; destruct (v =? -1); [done|by apply (uwrap_range 64)]).
  iAssert (∀ g', ⌜same_heap g0 g' /\ mutex g' = mutex g0⌝ -∗ dlheap g' L)%I with "[Hh]" as "Hh".
  { iIntros (g' [Hs Hm]). iSplit; [iPureIntro; congruence|]. iLeft. by iApply (same_heap_hp with "Hh"). }
  destruct (p =? M_TRIM_THRESHOLD); [wset; wret; by iApply "Hh"|]. destruct (p =? M_GRANULARITY); [|destruct (p =? M_MMAP_THRESHOLD); [wset|]; wret; by iApply "Hh"].
  wget. destruct (_ && _) eqn:E; [|wret; by iApply "Hh"]. wset. wret. iApply "Hh". iPureIntro. split; [|done]. split; [done|]. split; [simpl; lia|]. intros Hp. by apply granularity_ok.
Qed.

(** ** The limit 0 *)

Lemma align_zero_unit k : 12 <= k < 64 -> align_to (2 ^ k) 0 = 0.
Proof.
  intros Hk. unfold align_to. assert (0 < 2 ^ k <= 2 ^ 63) as Hp by (split; [apply Z.pow_pos_nonneg; lia|apply Z.pow_le_mono_r; lia]).
  rewrite (uwrap_id 64 (0 + _)); [|unfold in_u; lia]. rewrite land_uwrap; [|lia|unfold in_u; lia]. replace (2 ^ k - 1) with (Z.ones k) by (rewrite Z.ones_equiv; lia). rewrite land_not_ones; [|lia].
  rewrite Z.ones_equiv Z.mod_small; lia.
Qed.
End proof.

(** C38: malloc_set_footprint_limit with 0 sets no limit: afterwards no size is over the
    limit, although the comment says that all allocations which need memory from the system
    fail after a limit that is not above the footprint. *)
Theorem limit_zero_off g h : params_ok g -> dlmalloc_set_footprint_limit 0 (WS g h) = Ret 0 (WS (set_footprint_limit 0 g) h) /\
  forall n, over_limit n (WS (set_footprint_limit 0 g) h) = Ret false (WS (set_footprint_limit 0 g) h).
Proof.
  intros (_ & (k & Hk & E) & _). split; [|done]. unfold dlmalloc_set_footprint_limit, granularity_align. simpl. unfold mbind, M_bind. simpl. unfold getr, gets. simpl. rewrite E align_zero_unit //.
Qed.

Lemma limit_zero_off_witness : exists g, params_ok g /\ dlmalloc_set_footprint_limit 0 (WS g ∅) = Ret 0 (WS (set_footprint_limit 0 g) ∅).
Proof.
  set (g := set_mp_magic 8 (set_mparams 4096 65536 0 0 0 zero_state)). exists g. assert (params_ok g) as Hp by (split_and!; [done|exists 16; split; [lia|done]|done|done]).
  split; [exact Hp|]. apply (limit_zero_off g ∅ Hp).
Defined.
