(* ===== verification/DlClient.v ===== *)
(** * dlmalloc: programs that use the heap

    A program that allocates blocks, writes words into its blocks, frees them and sets the
    parameters of the allocator, from the first call on: the heap of c/error/dlmalloc.c starts as the zeroed memory of [_gm_].
    The program keeps, for every block, the words it wrote; the allocator never changes
    them and never hands out memory twice. *)

From iris.proofmode Require Import proofmode.
From S2P Require Import Prelude DlSep DlBase DlBins DlTree DlFree DlSearch DlLayout DlSys DlMap DlSegs DlMalloc DlMerge DlFreeOk DlSysOk DlExtend DlAlloc DlTrim DlRelease DlOpt.

(** ** The start of the program *)

(** The offsets of smallbins, treebins and seg in struct malloc_state. *)
Definition gm_layout (a : Z) : Gm := {| smallbins := a + 72; treebins := a + 600; segment0 := a + 888 |}.

Definition bss (a : Z) : heap := zeros (a + 72) 66 ∪ zeros (a + 600) 32 ∪ zeros (a + 888) 4.

(** ** Blocks and their contents *)

(** A block: its address, the bytes that were asked for, and the words that were written. *)
Record block := Block { addr : Z; asked : Z; wrote : gmap nat Z }.

(** The block is a part of the memory that holds what was written. *)
Definition holds (h : heap) (b : block) : Prop :=
  0 < addr b /\ addr b mod 16 = 0 /\ addr b + asked b < 2 ^ 64 /\
  (forall i, (8 * Z.of_nat i < asked b) -> is_Some (h !! (addr b + 8 * Z.of_nat i))) /\
  (forall i v, wrote b !! i = Some v -> h !! (addr b + 8 * Z.of_nat i) = Some v).
Definition apart (b c : block) : Prop := addr b + asked b <= addr c \/ addr c + asked c <= addr b.

Inductive op := Malloc (bytes : Z) | Free (k : nat) | Put (k i : nat) (v : Z) | Trim (pad : Z) | Limit (bytes : Z) | Opt (param value : Z).

Section client.
Context `{Gm, Kern}.

Definition step (o : op) (bs : list block) : HM (list block) :=
  match o with
  | Malloc bytes => m ← dlmalloc bytes; mret (if m =? 0 then bs else Block m bytes ∅ :: bs)
  | Free k => match bs !! k with Some b => dlfree (addr b);; mret (delete k bs) | None => mret bs end
  | Put k i v =>
      match bs !! k with
      | Some b => if 8 * Z.of_nat i + 8 <=? asked b
                  then sd (addr b + 8 * Z.of_nat i) v;; mret (<[k := Block (addr b) (asked b) (<[i := v]> (wrote b))]> bs)
                  else mret bs
      | None => mret bs
      end
  | Trim pad => dlmalloc_trim pad;; mret bs
  | Limit bytes => dlmalloc_set_footprint_limit bytes;; mret bs
  | Opt p v => dlmallopt p v;; mret bs
  end.
Fixpoint script (os : list op) (bs : list block) : HM (list block) :=
  match os with [] => mret bs | o :: os => bs ← step o bs; script os bs end.
End client.

Definition request_ok (o : op) : Prop := match o with Malloc bytes => 0 <= bytes < 2 ^ 64 | _ => True end.

Section proof.
Context `{Gm, KernOk}.

(** The words of a block of the program. *)
Definition filled (b : block) (n : Z) : hpropI :=
  (∃ vs : list Z, ⌜length vs = Z.to_nat (n / 8) /\ forall i v, wrote b !! i = Some v -> vs !! i = Some v⌝ ∗ [∗ list] i ↦ v ∈ vs, (addr b + 8 * Z.of_nat i)%Z ↦ v)%I.

Lemma raw_list a n : raw a n ⊣⊢ ∃ vs : list Z, ⌜length vs = n⌝ ∗ [∗ list] i ↦ v ∈ vs, (a + 8 * Z.of_nat i) ↦ v.
Proof.
  revert a. induction n as [|n IH]; intros a; simpl.
  - iSplit; [iIntros; iExists []; by simpl|by iIntros].
  - rewrite IH. iSplit.
    + iIntros "[[%v Hv] (%vs & %Hl & H)]". iExists (v :: vs). simpl. rewrite Z.mul_0_r Z.add_0_r. iFrame "Hv". iSplit; [by rewrite Hl|].
      iApply (big_sepL_impl with "H"). iIntros "!>" (i w _) "H". by replace (a + 8 * S i) with (a + 8 + 8 * i) by lia.
    + iIntros "(%vs & %Hl & H)". destruct vs as [|v vs]; [done|]. simpl. rewrite Z.mul_0_r Z.add_0_r. iDestruct "H" as "[Hv H]". iSplitL "Hv"; [by iExists v|]. iExists vs. simpl in Hl. iSplit; [iPureIntro; lia|].
      iApply (big_sepL_impl with "H"). iIntros "!>" (i w _) "H". by replace (a + 8 + 8 * i) with (a + 8 * S i) by lia.
Qed.

Lemma filled_new m bytes n : raw m (Z.to_nat (n / 8)) ⊢ filled (Block m bytes ∅) n.
Proof. rewrite raw_list. iIntros "(%vs & %Hl & H)". iExists vs. iFrame. iPureIntro. split; [done|]. intros i v Hi. by rewrite lookup_empty in Hi. Qed.
Lemma filled_raw b n : filled b n ⊢ raw (addr b) (Z.to_nat (n / 8)).
Proof. rewrite raw_list. iIntros "(%vs & [%Hl _] & H)". iExists vs. by iFrame. Qed.

Lemma wp_put (g : mstate) b n i v Φ : 8 * Z.of_nat i + 8 <= n -> filled b n -∗ (filled (Block (addr b) (asked b) (<[i := v]> (wrote b))) n -∗ Φ tt g) -∗ wp (sd (addr b + 8 * Z.of_nat i) v) Φ g.
Proof.
  iIntros (Hi) "(%vs & [%Hl %Hw] & H) HΦ". assert (i < length vs)%nat as Hlt by zdm. apply lookup_lt_is_Some_2 in Hlt as [w Hvi]. rewrite (big_sepL_insert_acc _ _ i); [|done]. iDestruct "H" as "[Hv H]".
  iApply (wp_sd with "Hv"). iIntros "Hv". iApply "HΦ". iExists (<[i := v]> vs). iSplit; [|by iApply "H"]. iPureIntro. rewrite length_insert. split; [done|]. simpl. intros j x [[<- <-]|[Hne Hx]]%lookup_insert_Some.
  - rewrite list_lookup_insert_eq //. by eapply lookup_lt_Some.
  - rewrite list_lookup_insert_ne //. by apply Hw.
Qed.

(** The heap and the blocks of the program. *)
Definition owned (L : gmap Z Z) (bs : list block) : hpropI :=
  ([∗ list] b ∈ bs, ∃ n, ⌜L !! addr b = Some n /\ asked b <= n /\ block_ok (addr b) n⌝ ∗ filled b n)%I.
Definition client (bs : list block) (g : mstate) : hpropI := (∃ L, dlheap g L ∗ owned L bs)%I.

Lemma filled_word b n : 8 <= n -> filled b n ⊢ ∃ v, addr b ↦ v.
Proof.
  iIntros (Hn) "(%vs & [%Hl _] & H)". destruct vs as [|v vs]; [simpl in Hl; zdm|]. simpl. rewrite Z.mul_0_r Z.add_0_r. iDestruct "H" as "[Hv _]". by iExists v.
Qed.

Lemma block_words m n : block_ok m n -> 8 <= n.
Proof. intros (_ & _ & Hn & Hn8 & _). zdm. Qed.

(** The blocks do not change when another block comes or goes. *)
Lemma owned_insert L bs m n : L !! m = None -> owned L bs ⊢ owned (<[m := n]> L) bs.
Proof.
  iIntros (Hm) "H". iApply (big_sepL_impl with "H"). iIntros "!>" (i b _) "(%k & (%Hb & % & %) & H)". iExists k. iFrame. iPureIntro. split_and!; try done. rewrite lookup_insert_ne //. congruence.
Qed.

Lemma owned_delete L bs b n : 8 <= n -> filled b n -∗ owned L bs -∗ filled b n ∗ owned (delete (addr b) L) bs.
Proof.
  iIntros (Hn) "Hb H". iInduction bs as [|c bs] "IH"; simpl; [by iFrame|]. iDestruct "H" as "[(%k & (%Hc & %Ha & %Hok) & Hf) H]". iDestruct ("IH" with "Hb H") as "[Hb $]".
  iAssert ⌜addr b <> addr c⌝%I as %Hne.
  { iDestruct (filled_word with "Hb") as (v) "Hv"; [done|]. iDestruct (filled_word with "Hf") as (w) "Hw"; [by eapply block_words|]. iApply (pointsto_ne with "[$Hv $Hw]"). }
  iFrame "Hb". iExists k. iFrame. iPureIntro. by rewrite lookup_delete_ne.
Qed.

Lemma wp_step o bs g : request_ok o -> client bs g ⊢ wp (step o bs) (fun bs' g' => client bs' g') g.
Proof.
  iIntros (Ho) "(%L & Hh & Hbs)". destruct o as [bytes|k|k i v|pad|bytes|p v]; simpl.
  - wbind. iApply (wp_wand with "[Hh]"); [by iApply (wp_dlmalloc with "Hh")|]. iIntros (m g') "[[-> Hh]|(%n & (%Hb & %Hn & %Hm) & Hraw & Hh)]"; wret.
    + iExists L. iFrame.
    + pose proof Hb as (Hm0 & _). rewrite (proj2 (Z.eqb_neq m 0)); [|lia]. iExists _. iFrame "Hh". simpl. iSplitL "Hraw"; [|by iApply owned_insert]. iExists n. rewrite lookup_insert_eq. iSplit; [done|]. by iApply filled_new.
  - destruct (bs !! k) as [b|] eqn:E; [|wret; iExists L; iFrame]. assert (owned L bs ⊣⊢ owned L (b :: delete k bs)) as -> by (unfold owned; by rewrite -(delete_Permutation bs k b E)).
    simpl. iDestruct "Hbs" as "[(%n & (%Hb & %Ha & %Hok) & Hf) Hbs]". iDestruct (owned_delete with "Hf Hbs") as "[Hf Hbs]"; [by eapply block_words|]. rewrite filled_raw.
    wbind. iApply (wp_wand with "[Hh Hf]"); [by iApply (wp_dlfree with "Hh Hf")|]. iIntros (_ g') "Hh". wret. iExists _. iFrame.
  - destruct (bs !! k) as [b|] eqn:E; [|wret; iExists L; iFrame]. destruct (Z.leb_spec (8 * i + 8) (asked b)) as [Hi|]; [|wret; iExists L; iFrame].
    rewrite /owned (big_sepL_insert_acc _ _ k) //. iDestruct "Hbs" as "[(%n & (%Hb & %Ha & %Hok) & Hf) Hbs]". wbind. iApply (wp_put with "Hf"); [lia|]. iIntros "Hf". wret. iExists L. iFrame "Hh". iApply "Hbs". iExists n. by iFrame.
  - wbind. iApply (wp_wand with "[Hh]"); [iApply (wp_dlmalloc_trim with "Hh")|]. iIntros (_ g') "Hh". wret. iExists L. iFrame.
  - wbind. iApply (wp_wand with "[Hh]"); [iApply (wp_set_footprint_limit with "Hh")|]. iIntros (_ g') "Hh". wret. iExists L. iFrame.
  - wbind. iApply (wp_wand with "[Hh]"); [iApply (wp_dlmallopt with "Hh")|]. iIntros (_ g') "Hh". wret. iExists L. iFrame.
Qed.

Lemma wp_script os bs g : Forall request_ok os -> client bs g ⊢ wp (script os bs) (fun bs' g' => client bs' g') g.
Proof.
  revert bs g. induction os as [|o os IH]; intros bs g Hos; simpl; iIntros "H"; [by wret|]. apply Forall_cons_1 in Hos as [Ho Hos].
  wbind. iApply (wp_wand with "[H]"); [by iApply (wp_step with "H")|]. iIntros (bs' g') "H". by iApply IH.
Qed.

(** ** What the program sees *)

Lemma filled_lookup b n i : (i < Z.to_nat (n / 8))%nat -> filled b n ⊢ ∃ v, (addr b + 8 * Z.of_nat i) ↦ v ∗ ⌜forall w, wrote b !! i = Some w -> w = v⌝.
Proof.
  iIntros (Hi) "(%vs & [%Hl %Hw] & H)". rewrite -Hl in Hi. apply lookup_lt_is_Some_2 in Hi as [v Hv]. rewrite (big_sepL_lookup _ _ _ _ Hv). iExists v. iFrame. iPureIntro. intros w Hw'. apply Hw in Hw'. congruence.
Qed.

Lemma filled_holds b n h : asked b <= n -> block_ok (addr b) n -> hholds (filled b n) h -> holds h b.
Proof.
  intros Ha (H1' & H2' & H3' & H4' & H5') Hh. assert (forall i, (i < Z.to_nat (n / 8))%nat -> exists v, h !! (addr b + 8 * Z.of_nat i) = Some v /\ forall w, wrote b !! i = Some w -> w = v) as Hi.
  { intros i Hi. destruct (hentails_holds _ _ (filled_lookup b n i Hi) h Hh) as (v & h1 & h2 & -> & Hd & Hv & Hw). exists v. split; [by apply lookup_union_Some_l|done]. }
  split_and!; [done|done|lia| |].
  - intros i Hlt. destruct (Hi i) as (v & Hv & _); [zdm|]. by exists v.
  - intros i v Hv. destruct Hh as (vs & h1 & h2 & -> & Hd & [Hl Hw] & Hvs). destruct (Hi i) as (w & Hw' & E); [|by rewrite (E v Hv)]. rewrite -Hl. apply Hw in Hv. by eapply lookup_lt_Some.
Qed.

Lemma filled_apart b c n m : asked b <= n -> block_ok (addr b) n -> asked c <= m -> block_ok (addr c) m -> filled b n -∗ filled c m -∗ ⌜apart b c⌝.
Proof.
  iIntros (Hb Hbo Hc Hco) "Hb Hc". destruct (decide (apart b c)) as [|Hno]; [done|]. unfold apart in Hno. pose proof (block_words _ _ Hbo). pose proof (block_words _ _ Hco). destruct Hbo as (_ & Hb16 & _ & Hb8 & _). destruct Hco as (_ & Hc16 & _ & Hc8 & _).
  destruct (Z.le_gt_cases (addr b) (addr c)).
  - iDestruct (filled_lookup b n (Z.to_nat ((addr c - addr b) / 8)) with "Hb") as (v) "[Hv _]"; [zdm|]. iDestruct (filled_word with "Hc") as (w) "Hw"; [done|].
    iDestruct (pointsto_ne with "[$Hv $Hw]") as %[]. zdm.
  - iDestruct (filled_lookup c m (Z.to_nat ((addr b - addr c) / 8)) with "Hc") as (v) "[Hv _]"; [zdm|]. iDestruct (filled_word with "Hb") as (w) "Hw"; [done|].
    iDestruct (pointsto_ne with "[$Hv $Hw]") as %[]. zdm.
Qed.

Definition all_apart (bs : list block) : Prop := forall i j b c, i <> j -> bs !! i = Some b -> bs !! j = Some c -> apart b c.

Lemma client_holds bs g h : hholds (client bs g) h -> Forall (holds h) bs /\ all_apart bs.
Proof.
  intros (L & h1 & h2 & -> & Hd & _ & Ho). split.
  - apply Forall_forall. intros b Hb. apply list_elem_of_In in Hb. unfold owned in Ho. destruct (hentails_holds _ _ (big_sepL_elem_of _ _ b Hb) h2 Ho) as (n & h3 & h4 & -> & Hd' & (_ & Ha & Hok) & Hf).
    eapply filled_holds; [done..|]. eapply hholds_up; [done|]. etrans; [by apply map_union_subseteq_r|]. by apply map_union_subseteq_r.
  - intros i j b c Hne Hi Hj. assert (owned L bs ⊢ ⌜apart b c⌝) as [Hp].
    { rewrite /owned (big_sepL_delete _ _ i) // (big_sepL_delete _ _ j) //. iIntros "((%n & (_ & % & %) & H1) & H2 & _)". rewrite decide_False; [|done]. iDestruct "H2" as (m) "((_ & % & %) & H2)". by iApply (filled_apart with "H1 H2"). }
    exact (Hp h2 Ho).
Qed.
End proof.

(** ** From the start *)

(** Words that are zero. *)
Fixpoint zraw (a : Z) (n : nat) : hpropI := match n with O => emp | S n => a ↦ 0 ∗ zraw (a + 8) n end%I.

Lemma zeros_zraw a k : hholds (zraw a k) (zeros a k).
Proof.
  revert a. induction k as [|k IH]; intros a; [done|]. exists {[a := 0]}, (zeros (a + 8) k). split; [by rewrite -insert_union_singleton_l|].
  split; [|split; [by rewrite /hholds /= lookup_singleton_eq|apply IH]].
  apply map_disjoint_singleton_l. destruct (zeros (a + 8) k !! a) as [v|] eqn:E; [|done]. apply zeros_lookup in E as [_ (i & Hi & E)]. lia.
Qed.

Lemma zraw_list a k (n : nat) : zraw (a + 8 * k) n ⊢ [∗ list] i ∈ seqZ k n, (a + 8 * i) ↦ 0.
Proof.
  revert k. induction n as [|n IH]; intros k; [done|]. rewrite seqZ_cons; [|lia]. cbn [zraw big_opL]. iIntros "[$ H]". replace (Z.pred (S n)) with (Z.of_nat n) by lia. iApply IH. by replace (a + 8 * Z.succ k) with (a + 8 * k + 8) by lia.
Qed.

Lemma zraw_pairs a k (n : nat) : zraw (a + 16 * k) (2 * n) ⊢ [∗ list] i ∈ seqZ k n, (a + 16 * i) ↦ - ∗ (a + 16 * i + 8) ↦ -.
Proof.
  revert k. induction n as [|n IH]; intros k; [done|]. rewrite seqZ_cons; [|lia]. replace (2 * S n)%nat with (S (S (2 * n))) by lia. cbn [zraw big_opL]. iIntros "(H1 & H2 & H)". iSplitL "H1 H2"; [iSplitL "H1"; by iExists 0|].
  replace (Z.pred (S n)) with (Z.of_nat n) by lia. iApply IH. by replace (a + 16 * Z.succ k) with (a + 16 * k + 8 + 8) by lia.
Qed.

Lemma zraw_drop a n : zraw a (S (S n)) ⊢ zraw (a + 8 + 8) n.
Proof. cbn [zraw]. iIntros "(_ & _ & $)". Qed.

Lemma zraw_seg a : zraw a 4 ⊢ seg_base a ↦ - ∗ seg_size a ↦ - ∗ seg_next a ↦ 0 ∗ seg_sflags a ↦ -.
Proof.
  cbn [zraw]. unfold seg_base, seg_size, seg_next, seg_sflags. iIntros "(H1 & H2 & H3 & H4 & _)". replace (a + 8 + 8) with (a + 16) by lia. replace (a + 16 + 8) with (a + 24) by lia.
  iFrame "H3". iSplitL "H1"; [by iExists 0|]. iSplitL "H2"; by iExists 0.
Qed.

#[local] Opaque zeros zraw.

Lemma zeros_apart a m b n : a + 8 * Z.of_nat m <= b -> zeros a m ##ₘ zeros b n.
Proof. intros Hab. apply map_disjoint_spec. intros x v w [_ (i & Hi & ->)]%zeros_lookup [_ (j & Hj & E)]%zeros_lookup. lia. Qed.

Lemma zraw_gm gm : hholds (zraw (gm + 72) 66 ∗ zraw (gm + 600) 32 ∗ zraw (gm + 888) 4)%I (bss gm).
Proof.
  unfold bss. rewrite -assoc_L. exists (zeros (gm + 72) 66), (zeros (gm + 600) 32 ∪ zeros (gm + 888) 4).
  split; [reflexivity|]. split; [apply map_disjoint_union_r; split; apply zeros_apart; lia|]. split; [apply zeros_zraw|].
  exists (zeros (gm + 600) 32), (zeros (gm + 888) 4). split; [reflexivity|]. split; [apply zeros_apart; lia|]. split; apply zeros_zraw.
Qed.

Lemma bss_virgin gm : 0 <= gm -> hholds (@dl_virgin (gm_layout gm) zero_state) (bss gm).
Proof.
  intros Hgm. assert (zraw (gm + 72) 66 ∗ zraw (gm + 600) 32 ∗ zraw (gm + 888) 4 ⊢ @dl_virgin (gm_layout gm) zero_state) as [He].
  { iIntros "(H1 & H2 & H3)". iSplit; [iPureIntro; simpl; split_and!; try done; lia|]. iSplitL "H1"; [|iSplitL "H2"].
    - rewrite zraw_drop. replace (gm + 72 + 8 + 8) with (gm + 88 + 16 * 0) by lia. iDestruct (zraw_pairs _ _ 32 with "H1") as "H". change (Z.of_nat 32) with 32. iApply (big_sepL_impl with "H"). iIntros "!>" (k i _) "[H1 H2]".
      unfold smallbin_at, fd, bk. cbn [smallbins gm_layout]. replace (gm + 72 + 16 * i + 16) with (gm + 88 + 16 * i) by lia. replace (gm + 72 + 16 * i + 24) with (gm + 88 + 16 * i + 8) by lia. iFrame.
    - replace (gm + 600) with (gm + 600 + 8 * 0) by lia. iApply (zraw_list _ _ 32 with "H2").
    - iApply (zraw_seg with "H3"). }
  apply He, zraw_gm.
Qed.

(** C1: from the zeroed memory of [_gm_] and any other memory on, every sequence of calls
    of malloc, free, malloc_trim, mallopt and malloc_set_footprint_limit and of writes into
    blocks returns; the blocks are aligned, mapped and apart from each other, and hold what
    was written into them; the other memory stays as it is. *)
Theorem heap_script_correct gm os hf `{KernOk} : 0 <= gm -> Forall request_ok os -> bss gm ##ₘ hf -> exists bs g h,
  script (H := gm_layout gm) os [] (WS zero_state (bss gm ∪ hf)) = Ret bs (WS g (h ∪ hf)) /\ h ##ₘ hf /\ Forall (holds h) bs /\ all_apart bs.
Proof.
  intros Hgm Hos Hd. pose (G := gm_layout gm). assert (dl_virgin zero_state ⊢ wp (script os []) (fun bs g => client bs g) zero_state) as [Hwp].
  { iIntros "Hv". iApply wp_script; [done|]. iExists ∅. iSplitL; [|by rewrite /owned]. iSplit; [done|]. iRight. by iFrame. }
  destruct (Hwp (bss gm) (bss_virgin gm Hgm) hf Hd) as (bs & g & h & E & Hd' & Hc). exists bs, g, h. split; [exact E|]. split; [done|]. by eapply client_holds.
Qed.
