(* ===== verification/DlSpec.v ===== *)
(** * dlmalloc: what its functions do

    The theorems about c/error/dlmalloc.c as statements about runs: from a memory that has
    the heap and any other memory, a call returns, and the other memory stays as it is. *)

From iris.proofmode Require Import proofmode.
From S2P Require Import Prelude DlSep DlBase DlBins DlTree DlFree DlSearch DlLayout DlSys DlMap DlSegs DlMalloc DlMerge DlFreeOk DlSysOk DlExtend DlAlloc DlTrim DlRelease DlOpt DlClient.

(** The chunk [v] with [rs] bytes left over is a best fit among the free chunks [F]. *)
Definition best_of (F : gmap Z Z) (nb v rs : Z) : Prop :=
  (v = 0 /\ forall p s, F !! p = Some s -> s < nb) \/
  (F !! v = Some (nb + rs) /\ 0 <= rs /\ forall p s, F !! p = Some s -> nb <= s -> nb + rs <= s).

(** The run of [c] from the memory [h] beside the other memory [hf] returns with [Φ], and
    leaves the other memory as it is. *)
Definition runs {A} (c : HM A) (g : mstate) (h hf : heap) (Φ : A -> mstate -> hpropI) : Prop :=
  exists r g' h', c (WS g (h ∪ hf)) = Ret r (WS g' (h' ∪ hf)) /\ h' ##ₘ hf /\ hholds (Φ r g') h'.

Lemma wp_frame {A} (c : HM A) Φ (P : hpropI) g h hf : (P ⊢ wp c Φ g) -> hholds P h -> h ##ₘ hf -> runs c g h hf Φ.
Proof. intros [Hwp] HP Hd. exact (Hwp h HP hf Hd). Qed.

Section spec.
Context `{Gm, KernOk}.

Lemma wp_tree_search_bins g F nb : 256 <= nb < 2 ^ 64 -> bins g F ⊢ wp (tree_search nb) (fun x g' => ⌜g' = g /\ best_of F nb x.1 x.2⌝ ∗ bins g F) g.
Proof.
  iIntros (Hnb) "(%SL & %TL & %Hok & HS & HT)". pose proof (bo_elems _ _ _ _ Hok) as HF. iApply (wp_wand with "[HT]"); [iApply (wp_tree_search g TL with "HT"); [by eapply bins_trees_ok|done]|].
  iIntros ([v rs] g') "((-> & %Hb) & HT)". iSplit; [|iExists SL, TL; by iFrame]. iPureIntro. split; [done|]. simpl in *.
  assert (forall p s, F !! p = Some s -> nb <= s -> (p, s) ∈ tlist TL) as Hin.
  { intros p s Hp Hs. assert ((p, s) ∈ slist SL ++ tlist TL) as [Hl|Hl]%elem_of_app by (rewrite -HF; by apply elem_of_map_to_list); [|done].
    apply elem_of_slist in Hl as (i & l & Hl & _ & Es). simpl in Es. pose proof (lookup_lt_Some _ _ _ Hl). rewrite (bo_slen _ _ _ _ Hok) in H2. lia. }
  destruct Hb as [(-> & _ & Hno)|(_ & Hrs & Hv & Hmin)]; [left|right].
  - split; [done|]. intros p s Hp. destruct (Z.lt_ge_cases s nb) as [|Hge]; [done|]. specialize (Hno _ (Hin _ _ Hp Hge)). done.
  - split_and!; [|done|].
    + apply elem_of_map_to_list. rewrite HF. apply elem_of_app. by right.
    + intros p s Hp Hs. exact (Hmin _ (Hin _ _ Hp Hs) Hs).
Qed.
End spec.

(** ** Runs *)

(** C2: malloc returns, for every size and every heap; it returns NULL and keeps the blocks,
    or an aligned block of at least the requested bytes that no other block overlaps, whose
    memory is the caller's, and adds it to the heap. *)
Theorem dlmalloc_correct `{Gm, KernOk} g h hf L bytes : 0 <= bytes < 2 ^ 64 -> hholds (dlheap g L) h -> h ##ₘ hf ->
  runs (dlmalloc bytes) g h hf (fun m g' => (⌜m = 0⌝ ∗ dlheap g' L) ∨ new_block bytes L m g')%I.
Proof. intros Hb. by apply wp_frame, wp_dlmalloc. Qed.

(** C3: free returns for every block of the heap; the memory of the block goes back to the
    allocator, and the other blocks stay. *)
Theorem dlfree_correct `{Gm, KernOk} g h hf L m n : L !! m = Some n -> hholds (dlheap g L ∗ raw m (Z.to_nat (n / 8)))%I h -> h ##ₘ hf ->
  runs (dlfree m) g h hf (fun _ g' => dlheap g' (delete m L)).
Proof. intros HL. apply wp_frame. iIntros "[Hh Hr]". by iApply (wp_dlfree with "Hh Hr"). Qed.

(** C4: the search of the tree bins returns a best fit: the smallest free chunk that is large
    enough, and 0 only if there is none. *)
Theorem tree_search_best `{Gm} g F h hf nb : 256 <= nb < 2 ^ 64 -> hholds (bins g F) h -> h ##ₘ hf -> exists v rs h',
  tree_search nb (WS g (h ∪ hf)) = Ret (v, rs) (WS g (h' ∪ hf)) /\ h' ##ₘ hf /\ hholds (bins g F) h' /\ best_of F nb v rs.
Proof.
  intros Hnb Hh Hd. destruct (wp_frame _ _ _ _ _ _ (wp_tree_search_bins g F nb Hnb) Hh Hd) as ([v rs] & g' & h' & E & Hd' & (h1 & h2 & -> & Hd12 & (-> & Hb) & Hh')). exists v, rs, (h1 ∪ h2). split_and!; try done.
  eapply hholds_up; [done|]. by apply map_union_subseteq_r.
Qed.

(** ** A kernel *)

(** A kernel that has one place for mappings. *)
Definition page_kernel : Kern := {|
  mmap_at := fun h n => if decide (fresh 65536 n ##ₘ h /\ 65536 + n <= 2 ^ 30) then inr 65536 else inl 12;
  munmap_err := fun _ _ _ => None;
  time := 0;
  ulo := 65536;
  uhi := 2 ^ 30 |}.

Lemma page_kernel_ok : @KernOk page_kernel.
Proof.
  split; [done|done|]. intros h n a Hn Hn16 E. simpl in E. destruct (decide _) as [[Hd Hle]|]; [|done]. injection E as <-. by split_and!.
Qed.


#[local] Instance gm_4096 : Gm := gm_layout 4096.
#[local] Existing Instances page_kernel page_kernel_ok.

Lemma heap_script_correct_witness : exists bs g h,
  script [Malloc 100; Put 0 2 7; Malloc 3000; Free 1; Trim 0; Opt M_GRANULARITY 8192; Malloc 40] [] (WS zero_state (bss 4096 ∪ {[8 := 5]})) = Ret bs (WS g (h ∪ {[8 := 5]})) /\
  h ##ₘ {[8 := 5]} /\ Forall (holds h) bs /\ all_apart bs.
Proof.
  apply (heap_script_correct 4096); [apply page_kernel_ok|lia|repeat constructor; simpl; lia|]. apply map_disjoint_singleton_r. vm_compute. reflexivity.
Defined.

Lemma start_heap : hholds (dlheap zero_state ∅) (bss 4096).
Proof.
  assert (dl_virgin zero_state ⊢ dlheap zero_state ∅) as [Hv] by (iIntros "H"; iSplit; [done|]; iRight; by iFrame). apply Hv, bss_virgin. lia.
Qed.

Lemma dlmalloc_correct_witness : exists m g h, dlmalloc 100 (WS zero_state (bss 4096)) = Ret m (WS g h) /\ m = 65552 /\ hholds (new_block 100 ∅ m g) h.
Proof.
  destruct (dlmalloc_correct zero_state (bss 4096) ∅ ∅ 100) as (m & g & h & E & _ & Hh); [lia|apply start_heap|apply map_disjoint_empty_r|].
  rewrite !right_id_L in E. exists m, g, h. split; [exact E|]. assert (m = 65552) as ->.
  { assert (match dlmalloc 100 (WS zero_state (bss 4096)) with Ret m _ => m | _ => 0 end = 65552) as Em by (vm_compute; reflexivity). rewrite E in Em. exact Em. }
  split; [done|]. destruct Hh as [(h1 & h2 & _ & _ & Hz & _)|Hh]; [discriminate Hz|exact Hh].
Defined.

(** A block of the heap after one call of malloc. *)
Lemma one_block : exists g h m n, dlmalloc 100 (WS zero_state (bss 4096)) = Ret m (WS g h) /\ hholds (dlheap g {[m := n]} ∗ raw m (Z.to_nat (n / 8)))%I h.
Proof.
  destruct (wp_frame _ _ _ _ _ ∅ (wp_dlmalloc zero_state ∅ 100 ltac:(lia)) start_heap (map_disjoint_empty_r _)) as (m & g & h & E & _ & Hh). rewrite !right_id_L in E.
  assert (m = 65552) as ->. { assert (match dlmalloc 100 (WS zero_state (bss 4096)) with Ret m _ => m | _ => 0 end = 65552) as Em by (vm_compute; reflexivity). rewrite E in Em. exact Em. }
  destruct Hh as [(h1 & h2 & _ & _ & Hz & _)|Hh]; [discriminate Hz|]. destruct Hh as (n & Hh). exists g, h, 65552, n. split; [done|].
  assert (⌜block_ok 65552 n /\ 100 <= n /\ (∅ : gmap Z Z) !! 65552 = None⌝ ∗ raw 65552 (Z.to_nat (n / 8)) ∗ dlheap g (<[65552 := n]> ∅) ⊢ dlheap g {[65552 := n]} ∗ raw 65552 (Z.to_nat (n / 8))) as [He] by (iIntros "(_ & $ & $)").
  by apply He.
Qed.

Lemma dlfree_correct_witness : exists g h m g' h', dlmalloc 100 (WS zero_state (bss 4096)) = Ret m (WS g h) /\ dlfree m (WS g h) = Ret tt (WS g' h') /\ hholds (dlheap g' ∅) h'.
Proof.
  destruct one_block as (g & h & m & n & E & Hh). destruct (dlfree_correct g h ∅ {[m := n]} m n) as ([] & g' & h' & E' & _ & Hh'); [apply lookup_singleton_eq|exact Hh|apply map_disjoint_empty_r|].
  rewrite !right_id_L in E'. exists g, h, m, g', h'. rewrite delete_singleton_eq in Hh'. split; [exact E|]. split; [exact E'|exact Hh'].
Defined.

(** A tree bin with one free chunk. *)
Definition chunk_1024 : heap := {[head 65536 := 1025]} ∪ (zeros (65536 + 16) 126 ∪ {[65536 + 1024 := 1024]}).

#[local] Opaque zeros raw.

Lemma chunk_1024_free : hholds (free_chunk 65536 1024) chunk_1024.
Proof.
  assert (head 65536 ↦ 1025 ∗ raw (65536 + 16) 126 ∗ (65536 + 1024) ↦ 1024 ⊢ free_chunk 65536 1024) as [He] by by unfold free_chunk.
  apply He. exists {[head 65536 := 1025]}, (zeros (65536 + 16) 126 ∪ {[65536 + 1024 := 1024]}). split; [reflexivity|].
  assert (forall x v, zeros (65536 + 16) 126 !! x = Some v -> 65552 <= x < 66560) as Hz by (intros x v [_ (i & Hi & ->)]%zeros_lookup; lia).
  assert (forall x, ~ (65552 <= x < 66560) -> zeros (65536 + 16) 126 !! x = None) as Hn by (intros x Hx; destruct (zeros (65536 + 16) 126 !! x) eqn:E; [by apply Hz in E|done]).
  split; [|split; [by rewrite /hholds /= lookup_singleton_eq|]].
  - apply map_disjoint_singleton_l, lookup_union_None. unfold head. split; [apply Hn; lia|by rewrite lookup_singleton_ne].
  - exists (zeros (65536 + 16) 126), {[65536 + 1024 := 1024]}. split; [reflexivity|]. split; [apply map_disjoint_singleton_r, Hn; lia|].
    split; [apply zeros_raw|by rewrite /hholds /= lookup_singleton_eq].
Qed.

Lemma one_chunk : exists g h, hholds (bins g {[65536 := 1024]}) h.
Proof.
  assert (dl_virgin zero_state ∗ free_chunk 65536 1024 ⊢ wp (insert_chunk 65536 1024) (fun _ g' => bins g' {[65536 := 1024]}) zero_state) as Hw.
  { iIntros "[(_ & HS & HT & _) Hc]". iApply (wp_wand with "[-]"); [iApply (wp_insert_chunk with "[HS HT] Hc"); [split_and!; done || (simpl; lia)|by iApply (bins_empty with "HS HT")]|]. by iIntros (_ g') "(_ & $)". }
  destruct (wp_frame _ _ _ _ (bss 4096 ∪ chunk_1024) ∅ Hw) as (r & g & h & _ & _ & Hh); [|apply map_disjoint_empty_r|by exists g, h].
  exists (bss 4096), chunk_1024. split; [reflexivity|]. split; [|split; [apply bss_virgin; lia|apply chunk_1024_free]].
  apply map_disjoint_spec. intros x v w Hv Hc. assert (x < 65536) as Hlo.
  { unfold bss in Hv. rewrite -assoc_L in Hv. apply lookup_union_Some_raw in Hv as [[_ (i & Hi & ->)]%zeros_lookup|[_ Hv]]; [lia|].
    apply lookup_union_Some_raw in Hv as [[_ (i & Hi & ->)]%zeros_lookup|[_ [_ (i & Hi & ->)]%zeros_lookup]]; lia. }
  unfold chunk_1024, head in Hc. apply lookup_union_Some_raw in Hc as [[<- _]%lookup_singleton_Some|[_ Hc]]; [lia|].
  apply lookup_union_Some_raw in Hc as [[_ (i & Hi & ->)]%zeros_lookup|[_ [<- _]%lookup_singleton_Some]]; lia.
Qed.

Lemma tree_search_best_witness : exists g h v rs s, tree_search 512 (WS g h) = Ret (v, rs) s /\ best_of {[65536 := 1024]} 512 v rs.
Proof.
  destruct one_chunk as (g & h & Hh). destruct (tree_search_best g {[65536 := 1024]} h ∅ 512) as (v & rs & h' & E & _ & _ & Hb); [lia|exact Hh|apply map_disjoint_empty_r|].
  rewrite right_id_L in E. exists g, h, v, rs, (WS g (h' ∪ ∅)). split; [exact E|exact Hb].
Defined.
